(* ===== verification/_CoqProject ===== *)
-Q . S2P
Prelude.v
Str.v
Ident.v
Perms.v
Roles.v
Authority.v
Procs.v
RoleAdmin.v
Delegation.v
Execution.v
Gates.v
Json.v
DataTypes.v
SqlGuard.v
TxSession.v
Ownership.v
RowPlan.v
RowAccess.v
SqlScan.v
RuleAst.v
RuleLexer.v
RuleParser.v
RuleGrammar.v
RulePattern.v
RuleTyping.v
RuleEmit.v
Filters.v
Records.v
CrossApp.v
Collections.v
CrossOps.v
Publications.v
PublicReads.v
Sharing.v
RuleShorthand.v
RuleCompile.v
RuleReconcile.v
RuleEnforced.v
Workflow.v
WorkflowExec.v
WorkflowRun.v
Jobs.v
Crons.v
JobRoutes.v
Scheduler.v
SchemaSync.v
SchemaConverge.v
SchemaTables.v
RowSharing.v
Manifest.v
LargeObjects.v
Storage.v
StorageRoutes.v
Buckets.v
