(* ===== verification/Prelude.v ===== *)
(** * RootCX Core: a verification development

    RootCX Core (core/src) runs applications on one PostgreSQL database.  A
    manifest declares an app's entities with their fields, rules and indexes;
    Core installs them as tables, constraints, indexes and row policies, gives
    principals permissions through roles, lets agents and workflows act under
    narrowed permissions, and serves records over HTTP and between apps.  This
    library models the parts that decide what is allowed, what a manifest may put
    into the database, what a request reads and writes, and what a run does, and
    proves them correct.

    ** How the parts fit

    Names come first: everything that reaches SQL is quoted or validated by
    manifest.rs ([Ident]); the same file validates, installs and removes apps
    ([Manifest]), and with schema_sync.rs brings their tables to what is declared
    ([SchemaSync], [SchemaConverge], [SchemaTables]).  Permission keys are matched and narrowed by
    governance/authority/perms.rs ([Perms]); roles expand along a hierarchy that
    is meant to be acyclic ([Roles]); policy.rs resolves what a principal may do, in
    Rust and again in plpgsql for row-level security ([Authority]); routes.rs
    changes roles and assignments ([RoleAdmin]).  Who may act for whom is
    governance/delegation and principal.rs ([Delegation]); a run of an agent is
    admitted and revalidated by governance/execution.rs ([Execution]).  Every
    transaction on an app's data is opened by enforcement/sql_proxy.rs, which
    poses the settings that the plpgsql gates of row-level security read
    ([Gates]); the same file checks SQL texts ([SqlGuard]) and drives
    transactions of several statements ([TxSession]).  governance/row_access
    turns a manifest's ownership and sharing into policies and resolvers ([Ownership],
    [RowPlan], [RowSharing]), and
    [RowAccess] puts gates, settings and policies together: which rows pass.
    data_types.rs gives declared fields their types ([DataTypes]).  The rules of
    an entity are lexed, parsed, typed, emitted as SQL, compiled per entity and
    reconciled with the catalog by core/src/rules ([RuleAst] to [RuleEnforced]).
    routes/crud.rs turns filters into SQL ([Filters]) and serves records
    ([Records]).  An app reads and writes the collections of another under a grant of
    governance/cross_app.rs ([CrossApp]), through one lifecycle ([CrossOps]) over
    statements on collections ([Collections]); the world reads what a publication
    declares and an approval allows ([Publications], [PublicReads]).  Calls of an app's
    methods, also under share tokens, are admitted by routes/workers.rs ([Sharing]).
    Workflows are validated, ordered, run and taken up again after a crash by
    core/src/extensions/workflows ([Workflow], [WorkflowExec], [WorkflowRun]); their
    tools ask [Perms] for permission.  Work that is to run later is a message on a queue
    ([Jobs]), put there by requests ([JobRoutes]), workers and schedules ([Crons]), and
    the scheduler decides what each message starts ([Scheduler]).  Files of apps are large
    objects, uploaded at once or in resumed parts ([LargeObjects], [Storage],
    [StorageRoutes]).

    ** The files

    - [Prelude]: results and their monad, shared tactics ([inv_ok], [bool_hyps])
      and lemmas.  [Str]: Rust's string functions on bytes, with their laws.
      [Json]: serde_json values and accessors.  [SqlScan]: a scanner of SQL text
      and the lemmas that say what a text is read as.
    - [Ident]: core/src/manifest.rs names, quoting, references, permission keys;
      core/src/error.rs.  Quoting is proved against a scanner of SQL text.
    - [Perms]: [key_covers], [has_permission], [meet], [intersect_permissions].
    - [Roles]: [expand_roles], [detect_cycle] and the plpgsql [expand_roles].
    - [Authority]: the tables of roles and assignments, [resolve_permissions],
      [has_permission_db] and its plpgsql functions, delegated and shared
      authority.  Queries fail as values.
    - [Procs]: programs whose steps are statements or transactions, run alone or among
      everything else.  [RoleAdmin]: the handlers of authority/routes.rs as such
      programs, and delete_user of routes/auth.rs, with the running workers they
      invalidate.
    - [Delegation]: the table of delegations, act-as, the gate of owned triggers
      and the identity work runs under.
    - [Execution]: admission of agent runs, their lineage and ceiling, and the
      revalidation before every tool call, over a world that changes between
      awaits.
    - [Gates]: the settings of a session, [begin_tx] and the plpgsql predicates
      ([check_access], [check_cross_app_access], [check_publication_access],
      [check_approved_action_access]).
    - [SqlGuard]: the gate on statement texts and the binding of parameters.
      [TxSession]: the task of a transaction with its cancellation and slots, as a
      step relation.
    - [Ownership], [RowPlan], [RowAccess]: ownership chains, the statements a
      table's plan runs and the policies they leave, and the rows they let pass.
    - [DataTypes]: the contracts of crates/shared-types and data_types.rs.
    - [RuleAst], [RuleLexer], [RuleParser]: rules/ast.rs and rules/parser.rs.
      [RuleGrammar]: the grammar of precedence levels as an inductive relation,
      soundness, totality and bounds of the parser.
    - [RulePattern], [RuleTyping], [RuleEmit]: rules/pattern.rs, typing.rs,
      emit.rs, with a declarative typing.
    - [RuleShorthand], [RuleCompile]: rules/shorthand.rs, rules/mod.rs and the
      index names and hashes of schema_sync.rs.
    - [RuleReconcile], [RuleEnforced]: rules/reconcile.rs as a program over a
      catalog of constraints, indexes and extensions, with every reply of the
      database arbitrary, and a small logic of programs that keep an object in
      force.  What reconciliation needs of the compiler is the class
      [RuleCompiler], which [compile_entity_compiler] discharges.
    - [Filters]: the conditions of crud.rs as trees with their text, parameters
      and meaning.  [Records]: the handlers of records, each as the statement it
      prepares and what PostgreSQL does with it on a table, under the policies of
      the transaction ([Policies]) and for any database ([Postgres]).
    - [CrossApp]: governance/cross_app.rs, installations and
      grants between apps.  [Collections]: governance/collection_reads.rs and
      cross_app_mutations.rs.  [CrossOps]: governance/cross_app_operations.rs.
      [Publications], [PublicReads]: governance/publications.rs and
      publication_reads.rs.  [Sharing]: extensions/sharing, auth/secure_tokens.rs and
      routes/workers.rs.
    - [Jobs], [Crons], [JobRoutes], [Scheduler]: jobs.rs, crons.rs, routes/jobs.rs and
      routes/crons.rs, scheduler.rs.
    - [SchemaSync], [SchemaConverge], [SchemaTables]: schema_sync.rs, and the tables,
      keys and indexes of manifest.rs.
    - [RowSharing]: governance/row_access/sharing.rs, the resolvers of shared reads.
    - [Manifest]: validation, installation and removal of apps by manifest.rs, with what
      the steps about other tables answer as outcomes.
    - [LargeObjects], [Storage], [StorageRoutes]: extensions/storage, with a small monad of
      transactions in which every statement may be refused and every write or read cut
      short, and an executable specification of uploads and files.  [Buckets]:
      extensions/platform_storage, buckets, folders and their files.
    - [Workflow], [WorkflowExec], [WorkflowRun]: validate.rs, items.rs,
      [topo_sort], expr.rs, executor.rs and runner.rs.

    ** What the theorems show

    Authority: narrowing allows precisely what both sides allow; delegation and
    sharing never widen; the Rust and plpgsql gates agree; however requests on
    roles and users interleave, someone stays administrator and that role keeps
    every permission; the hierarchy stays acyclic when requests are served one
    after another (an example shows two crossing ones that close a cycle).  Runs:
    no chain of delegations exceeds its human, any of its agents or its task, and
    every tool call is checked anew.  Rows: what a connection served before never
    matters; a plan installs exactly the declared policies on whatever it finds;
    outside of publications and approved actions, a row passes them only for a
    caller who holds a key, owns the row through its links, has it shared, or
    reaches it under a grant.  Transactions commit exactly the statements they
    answered, and never after a cancellation won.  Rules: every text is parsed or
    refused, never a panic; what is accepted follows the grammar, is within its
    bounds, is well typed over declared fields, and the SQL emitted from it is
    scanned back as exactly its tree, so that no manifest text becomes SQL syntax;
    patterns cannot backtrack catastrophically; compiled rules have distinct names
    and respect sensitive fields.  Reconciliation: at every moment of every run,
    whatever fails, a declared check or index that was in force, and is not taken
    for what an interrupted run left, stays in force, and a run that succeeds has
    installed every check.  Records: a filter's SQL means the filter and holds no
    text of the request; reads answer exactly the matching visible records with
    their readable fields and, when asked for, the linked records of other apps;
    writes store exactly the values sent, or nothing.
    Between apps: in every reachable state a live grant is between active
    installations and of declared fields, uninstalling ends every grant for good,
    and a record of another app changes or shows only under a grant in force at
    that moment, together with its audit and what the keys of its row take along,
    whatever fails or happens in between.  Public data: an approval freezes a
    declaration, a capability that was suspended stays dead, and what anyone reads
    is within a publication that is declared and approved at that moment.  Calls:
    a method runs only with its caller's authority, a share's token is found until
    it is revoked or its creator is deleted, and never after.  Jobs: a message
    starts only what its owner may do at that time, an app's job stays one
    whatever its payload says, is handed over at most five times and is settled on
    every path; pg_cron has a job for every enabled schedule and for no disabled
    one; a job without its schedule is one whose app's row went without
    uninstalling.  Tables: where types and defaults are shown as declared, an
    installation that succeeds leaves nothing for verification to change, and none
    loses a row, or a cell of a column that is still declared.  Sharing: a
    resolver lets a caller read exactly the rows a share in force covers.
    Manifests: validation always answers, an accepted manifest installs without a
    panic and all it declares can be compiled and declared, and an installation
    with another contract that got past reading the old one has ended the old
    authority for good, whatever fails later, or stopped because that step failed.
    Files: uploads and files change and answer exactly as specified or not at all,
    nothing specified is refused without cause, no large object is lost or shared
    and those of others are left alone, and what was stored is what is read.
    Folders: a move that runs alone keeps them a forest, where ancestors always
    end; the examples of [Buckets] show the cycles that two crossing moves, or a
    deep one, can make.
    Workflows: the order respects the edges and covers what no cycle leads to;
    nodes route every item once; where tools may be called again without harm and
    what is recorded is kept, a run taken up after a crash comes to the same as one
    that did not crash; only the message that holds an execution drives
    it.
    The lemmas at the end of [RuleEnforced], [RuleCompile], [WorkflowExec] and
    [WorkflowRun], and those named in the findings of the other files, show where
    a promise stops.

    ** Machine integers, fuel and other bounds

    Integers are N or Z with the wrap-around written where the code can reach it
    ([wrap64], [as_u8], [as_u32], [as_int]).  Recursion that is not structural
    takes fuel: the lexer one more than the length of its text; the parser one
    more than [MAX_DEPTH] for nesting, and one more than the number of tokens for
    its loops; [check_n] the size of its tree; the searches over roles the number
    of roles and edges; writes and reads of large objects their length;
    hexadecimal printing sixteen digits; the heartbeat of a lease one more than
    its renewals; [topo_loop] the number of nodes; the loops over text its length;
    ownership chains [MAX_OWNER_CHAIN].  [parse_total], [detect_cycle_decides],
    [topo_sort_correct], [owner_chain_decides] and the lemmas next to the other
    definitions show the fuel is enough.

    ** Parameters

    Code outside the repository is a parameter: parsing of dates (chrono), uuids
    and regular expressions (regex-syntax), BigDecimal, SHA-256, printing of JSON
    and of Rust's debug format, the JavaScript engine of expressions, the tools of
    a workflow, the queue pgmq and pg_cron, and the replies of the database: how it compares,
    prints and orders values, and what it refuses.  A hypothesis on one is stated where it is
    used and has a concrete instance in a witness.  A transaction is one step of
    the state when the locks it takes make it so.

    ** Not modelled

    Processes and IPC (worker.rs, worker_manager.rs but for invalidation), the
    HTTP server and most of its routes, authentication and secrets, channels,
    integrations, agents, MCP, the app builder, the command line
    and the front end: they are calls to operating-system, network, cryptographic
    and model services around the modelled decisions.  Of the modelled files, log
    lines, delays and reads that only list rows are left out.  Of an
    installation, the triggers, webhooks and tools that extensions derive from a manifest
    are not modelled: they are outcomes of its steps. *)

From stdpp Require Import base strings list gmap sorting pretty.

(** ** Results

    Rust's [Result<A, E>], with the [?] operator as a monadic bind. *)

Inductive result (E A : Type) : Type :=
| Ok (a : A)
| Err (e : E).
Arguments Ok {E A} a.
Arguments Err {E A} e.

Declare Scope result_scope.
Delimit Scope result_scope with result.

Definition result_bind {E A B} (r : result E A) (k : A → result E B) : result E B :=
  match r with Ok a => k a | Err e => Err e end.

Notation "'let?' x := r 'in' k" := (result_bind r (fun x => k))
  (at level 10, x name, r at level 100, k at level 200) : result_scope.
Notation "'let?' ' p := r 'in' k" := (result_bind r (fun p => k))
  (at level 10, p strict pattern, r at level 100, k at level 200) : result_scope.
Notation "'try?' r 'in' k" := (result_bind r (fun _ : unit => k))
  (at level 10, r at level 100, k at level 200) : result_scope.

Open Scope result_scope.

Definition result_map {E A B} (f : A → B) (r : result E A) : result E B :=
  match r with Ok a => Ok (f a) | Err e => Err e end.

Definition map_err {E F A} (f : E → F) (r : result E A) : result F A :=
  match r with Ok a => Ok a | Err e => Err (f e) end.

Definition ok_or {E A} (o : option A) (e : E) : result E A :=
  match o with Some a => Ok a | None => Err e end.

Definition is_ok {E A} (r : result E A) : bool :=
  match r with Ok _ => true | Err _ => false end.

(** [.ok()] *)
Definition ok {E A} (r : result E A) : option A :=
  match r with Ok a => Some a | Err _ => None end.

(** [if cond { Ok(()) } else { Err(e) }] *)
Definition ensure {E} (cond : bool) (e : E) : result E unit :=
  if cond then Ok tt else Err e.

(** [iter().try_for_each(f)] *)
Fixpoint try_for_each {E A} (f : A → result E unit) (l : list A) : result E unit :=
  match l with
  | [] => Ok tt
  | x :: l => try? f x in try_for_each f l
  end.

(** [iter().map(f).collect::<Result<Vec<_>, _>>()] *)
Fixpoint try_map {E A B} (f : A → result E B) (l : list A) : result E (list B) :=
  match l with
  | [] => Ok []
  | x :: l => let? y := f x in let? ys := try_map f l in Ok (y :: ys)
  end.

(** A loop over a slice that threads a state and may return early with [?]. *)
Fixpoint try_fold {E A S} (f : S → A → result E S) (s : S) (l : list A) : result E S :=
  match l with
  | [] => Ok s
  | x :: l => let? s := f s x in try_fold f s l
  end.

Create HintDb core_lib.

Lemma bind_ok_iff {E A B} (r : result E A) (k : A → result E B) b :
  result_bind r k = Ok b ↔ ∃ a, r = Ok a ∧ k a = Ok b.
Proof. destruct r; simpl; naive_solver. Qed.

Lemma bind_err_iff {E A B} (r : result E A) (k : A → result E B) e :
  result_bind r k = Err e ↔ r = Err e ∨ ∃ a, r = Ok a ∧ k a = Err e.
Proof. destruct r; simpl; naive_solver. Qed.

Lemma ensure_ok_iff {E} c (e : E) u : ensure c e = Ok u ↔ c = true.
Proof. destruct c, u; simpl; naive_solver. Qed.

Lemma map_err_ok_iff {E F A} (f : E → F) (r : result E A) a :
  map_err f r = Ok a ↔ r = Ok a.
Proof. destruct r; simpl; naive_solver. Qed.

Lemma ok_or_ok_iff {E A} (o : option A) (e : E) a : ok_or o e = Ok a ↔ o = Some a.
Proof. destruct o; simpl; naive_solver. Qed.

Lemma result_map_ok_iff {E A B} (f : A → B) (r : result E A) b :
  result_map f r = Ok b ↔ ∃ a, r = Ok a ∧ f a = b.
Proof. destruct r; simpl; naive_solver. Qed.

Lemma try_for_each_ok_iff {E A} (f : A → result E unit) l :
  try_for_each f l = Ok tt ↔ Forall (λ x, f x = Ok tt) l.
Proof.
  induction l as [|x l IH]; simpl; [by split|].
  rewrite bind_ok_iff, Forall_cons, <-IH. split.
  - intros ([] & ? & ?). done.
  - intros [? ?]. by exists tt.
Qed.

Lemma Forall2_and_r {A B : Type} (R : A → B → Prop) (P : B → Prop) l k : Forall2 R l k → Forall P k → Forall2 (λ a b, R a b ∧ P b) l k.
Proof. induction 1; inversion 1; constructor; auto. Qed.
Lemma Forall2_functional {A B : Type} (R : A → B → Prop) l k k' :
  (∀ a b b', R a b → R a b' → b = b') → Forall2 R l k → Forall2 R l k' → k = k'.
Proof. intros HR H1. revert k'. induction H1; inversion 1; f_equal; eauto. Qed.
Lemma try_map_ok_iff {E A B} (f : A → result E B) l ys :
  try_map f l = Ok ys ↔ Forall2 (λ x y, f x = Ok y) l ys.
Proof.
  revert ys. induction l as [|x l IH]; intros ys; simpl.
  - split; [intros [= <-]; constructor|by inversion 1].
  - rewrite bind_ok_iff. setoid_rewrite bind_ok_iff. split.
    + intros (y & Hy & ys' & Hys & [= <-]). constructor; [done|by apply IH].
    + inversion 1 as [|? y ? ys' Hy Hys]; subst.
      exists y; split; [done|]. exists ys'; split; [by apply IH|done].
Qed.

(** Invert every [Ok] equation about a chain of binds in the context. *)
Ltac inv_ok :=
  repeat match goal with
  | H : result_bind _ _ = Ok _ |- _ =>
      let a := fresh "a" in let H1 := fresh "Hok" in let H2 := fresh "Hk" in
      apply bind_ok_iff in H as (a & H1 & H2); cbv beta in *
  | H : map_err _ _ = Ok _ |- _ => apply map_err_ok_iff in H
  | H : ok_or _ _ = Ok _ |- _ => apply ok_or_ok_iff in H
  | H : ensure _ _ = Ok _ |- _ => apply ensure_ok_iff in H
  | H : Ok _ = Ok _ |- _ => injection H as H
  | H : Err _ = Ok _ |- _ => discriminate H
  | H : Ok _ = Err _ |- _ => discriminate H
  | H : result_map _ _ = Ok _ |- _ =>
      let a := fresh "a" in let H1 := fresh "Hok" in let H2 := fresh "Hk" in
      apply result_map_ok_iff in H as (a & H1 & H2)
  end.

(** Split the boolean facts of the context. *)
Ltac bool_hyps :=
  repeat match goal with
  | H : _ && _ = true |- _ => apply andb_true_iff in H as [? ?]
  | H : _ || _ = false |- _ => apply orb_false_iff in H as [? ?]
  | H : negb _ = true |- _ => apply negb_true_iff in H
  | H : negb _ = false |- _ => apply negb_false_iff in H
  | H : bool_decide _ = true |- _ => apply bool_decide_eq_true_1 in H
  | H : bool_decide _ = false |- _ => apply bool_decide_eq_false_1 in H
  end.
