(* ===== verification/Str.v ===== *)
(** * Strings

    A Rust [String] is a sequence of bytes that is valid UTF-8; it is modelled
    by [string], read as that byte sequence.  This file holds the operations of
    [str] the sources use, with the equations the components rewrite with. *)

From Stdlib Require Export Ascii.
From stdpp Require Import base pretty strings list sets sorting.
From S2P Require Import Prelude.

Lemma str_app_cons c s t : String c s +:+ t = String c (s +:+ t).
Proof. done. Qed.
Lemma str_app_nil_l t : "" +:+ t = t.
Proof. done. Qed.
Lemma str_app_nil_r s : s +:+ "" = s.
Proof. induction s; [done|]. rewrite str_app_cons. by f_equal. Qed.
Lemma str_app_assoc s t u : (s +:+ t) +:+ u = s +:+ (t +:+ u).
Proof. induction s; [done|]. rewrite !str_app_cons. by f_equal. Qed.
Lemma str_length_app s t : String.length (s +:+ t) = String.length s + String.length t.
Proof. induction s; [done|]. rewrite str_app_cons. simpl. by f_equal. Qed.

Create HintDb str.
#[export] Hint Rewrite str_app_cons str_app_nil_l str_app_nil_r str_app_assoc str_length_app : str.
Ltac str_simpl := repeat progress (autorewrite with str in *; simpl in *).

Lemma str_app_inv_head s t u : s +:+ t = s +:+ u → t = u.
Proof. apply (inj (String.app s)). Qed.

Lemma str_app_inv_tail s t u : t +:+ s = u +:+ s → t = u.
Proof.
  revert u. induction t as [|c t IH]; intros [|d u] H; str_simpl; try done.
  - apply (f_equal String.length) in H. str_simpl. lia.
  - apply (f_equal String.length) in H. str_simpl. lia.
  - injection H as -> H. f_equal. by apply IH.
Qed.

Lemma str_snoc_inj a b c d : a +:+ String c "" = b +:+ String d "" → a = b ∧ c = d.
Proof.
  revert b. induction a as [|x a IH]; intros [|y b] H; str_simpl.
  - by injection H as ->.
  - injection H as _ H. by destruct b.
  - injection H as _ H. by destruct a.
  - injection H as -> H. by apply IH in H as [-> ->].
Qed.

Lemma str_snoc_cases s : s = "" ∨ ∃ t c, s = t +:+ String c "".
Proof.
  induction s as [|x s IH]; [by left|right].
  destruct IH as [->|(t & c & ->)]; [by exists "", x|by exists (String x t), c].
Qed.

(** [str::as_bytes().get(i)] *)
Definition byte_at (s : string) (i : nat) : option ascii := String.get i s.

(** [str::strip_prefix] / [starts_with] *)
Fixpoint strip_prefix (pre s : string) : option string :=
  match pre, s with
  | "", _ => Some s
  | String c pre, String d s => if decide (c = d) then strip_prefix pre s else None
  | String _ _, "" => None
  end.
Definition starts_with (pre s : string) : bool :=
  match strip_prefix pre s with Some _ => true | None => false end.

(** [str::strip_suffix] / [ends_with] *)
Fixpoint strip_suffix (suf s : string) : option string :=
  if decide (s = suf) then Some "" else
  match s with
  | "" => None
  | String c s => match strip_suffix suf s with Some p => Some (String c p) | None => None end
  end.
Definition ends_with (suf s : string) : bool :=
  match strip_suffix suf s with Some _ => true | None => false end.

(** [str::split_once(c)]: around the first [c]. *)
Fixpoint split_once (c : ascii) (s : string) : option (string * string) :=
  match s with
  | "" => None
  | String d s =>
      if decide (d = c) then Some ("", s)
      else match split_once c s with Some (a, b) => Some (String d a, b) | None => None end
  end.

(** [str::rsplit_once(c)]: around the last [c]. *)
Fixpoint rsplit_once (c : ascii) (s : string) : option (string * string) :=
  match s with
  | "" => None
  | String d s =>
      match rsplit_once c s with
      | Some (a, b) => Some (String d a, b)
      | None => if decide (d = c) then Some ("", s) else None
      end
  end.

Fixpoint str_mem (c : ascii) (s : string) : bool :=
  match s with "" => false | String d s => bool_decide (d = c) || str_mem c s end.

Fixpoint str_forall (f : ascii → bool) (s : string) : bool :=
  match s with "" => true | String c s => f c && str_forall f s end.

(** [str::contains(&str)] *)
Fixpoint str_contains (pat s : string) : bool :=
  starts_with pat s || match s with "" => false | String _ s => str_contains pat s end.

Lemma strip_prefix_Some pre s r : strip_prefix pre s = Some r ↔ s = pre +:+ r.
Proof.
  revert s. induction pre as [|c pre IH]; intros s; simpl.
  - str_simpl. split; [by intros [= ->]|by intros ->].
  - destruct s as [|d s]; [split; [done|by rewrite str_app_cons]|].
    rewrite str_app_cons. case_decide as Hc.
    + subst. rewrite IH. split; [by intros ->|by intros [= ->]].
    + split; [done|]. intros [= -> ->]. done.
Qed.

Lemma starts_with_iff pre s : starts_with pre s = true ↔ ∃ r, s = pre +:+ r.
Proof.
  unfold starts_with. destruct (strip_prefix pre s) as [r|] eqn:H.
  - apply strip_prefix_Some in H. split; [by exists r|done].
  - split; [done|]. intros [r Hr]. apply strip_prefix_Some in Hr. congruence.
Qed.

Lemma strip_suffix_Some suf s p : strip_suffix suf s = Some p ↔ s = p +:+ suf.
Proof.
  revert p. induction s as [|c s IH]; intros p; cbn [strip_suffix]; case_decide as Hd.
  - subst. split; [by intros [= <-]|]. intros H.
    destruct p; [done|by rewrite str_app_cons in H].
  - split; [done|]. intros H. destruct p; [by str_simpl|by rewrite str_app_cons in H].
  - subst. split; [by intros [= <-]|]. intros H.
    destruct p as [|d p]; [done|]. exfalso.
    apply (f_equal String.length) in H. str_simpl. lia.
  - destruct (strip_suffix suf s) as [q|] eqn:Hq; split.
    + intros [= <-]. rewrite str_app_cons. f_equal. by apply IH.
    + intros H. destruct p as [|d p]; [by str_simpl|]. rewrite str_app_cons in H.
      injection H as -> H. apply IH in H. congruence.
    + done.
    + intros H. destruct p as [|d p]; [by str_simpl|]. rewrite str_app_cons in H.
      injection H as -> H. apply IH in H. congruence.
Qed.

Lemma ends_with_iff suf s : ends_with suf s = true ↔ ∃ p, s = p +:+ suf.
Proof.
  unfold ends_with. destruct (strip_suffix suf s) as [r|] eqn:H.
  - apply strip_suffix_Some in H. split; [by exists r|done].
  - split; [done|]. intros [r Hr]. apply strip_suffix_Some in Hr. congruence.
Qed.

Lemma byte_at_app s t : byte_at (s +:+ t) (String.length s) = byte_at t 0.
Proof. induction s as [|c s IH]; [done|]. rewrite str_app_cons. done. Qed.

Lemma str_mem_app c s t : str_mem c (s +:+ t) = str_mem c s || str_mem c t.
Proof. induction s; [done|]. rewrite str_app_cons. simpl. rewrite IHs. by rewrite orb_assoc. Qed.

Lemma str_forall_app f s t : str_forall f (s +:+ t) = str_forall f s && str_forall f t.
Proof. induction s; [done|]. rewrite str_app_cons. simpl. rewrite IHs. by rewrite andb_assoc. Qed.

#[export] Hint Rewrite byte_at_app str_mem_app str_forall_app : str.

Lemma split_once_Some c s a b :
  split_once c s = Some (a, b) → s = a +:+ String c b ∧ str_mem c a = false.
Proof.
  revert a b. induction s as [|d s IH]; intros a b; simpl; [done|].
  case_decide as Hd.
  - subst. by intros [= <- <-].
  - destruct (split_once c s) as [[a' b']|]; [|done]. intros [= <- <-].
    destruct (IH a' b' eq_refl) as [-> Hm]. split; [done|]. simpl. by rewrite bool_decide_false.
Qed.

Lemma rsplit_once_None c s : rsplit_once c s = None ↔ str_mem c s = false.
Proof.
  induction s as [|d s IH]; simpl; [done|].
  destruct (rsplit_once c s) as [[a b]|].
  - split; [done|]. intros H. apply orb_false_iff in H as [_ H]. apply IH in H. done.
  - case_decide; [by rewrite bool_decide_true|].
    rewrite bool_decide_false by done. simpl. split; [by intros _; apply IH|done].
Qed.

Lemma rsplit_once_app c a b :
  str_mem c b = false → rsplit_once c (a +:+ String c b) = Some (a, b).
Proof.
  intros Hb. induction a as [|d a IH]; str_simpl.
  - apply rsplit_once_None in Hb. rewrite Hb. by rewrite decide_True.
  - by rewrite IH.
Qed.

(** Two strings one of which is a prefix of a common extension. *)
Lemma str_app_split a b c d :
  a +:+ b = c +:+ d → (∃ e, c = a +:+ e ∧ b = e +:+ d) ∨ (∃ e, a = c +:+ e ∧ d = e +:+ b).
Proof.
  revert c. induction a as [|x a IH]; intros c H; str_simpl.
  - left. by exists c.
  - destruct c as [|y c]; str_simpl.
    + right. exists (String x a). by str_simpl.
    + injection H as -> H. apply IH in H as [(e & -> & ->)|(e & -> & ->)].
      * left. by exists e.
      * right. by exists e.
Qed.

(** [slice::sort_unstable] on strings: bytewise lexicographic order. *)
Definition sort_strings (l : list string) : list string := merge_sort String.le l.

(** [Vec::dedup]: drop consecutive repetitions. *)
Fixpoint dedup {A} `{EqDecision A} (l : list A) : list A :=
  match l with
  | [] => []
  | x :: l =>
      match dedup l with
      | y :: r => if decide (x = y) then y :: r else x :: y :: r
      | [] => [x]
      end
  end.

Lemma sort_strings_perm l : Permutation (sort_strings l) l.
Proof. apply merge_sort_Permutation. Qed.
Lemma elem_of_sort_strings x l : x ∈ sort_strings l ↔ x ∈ l.
Proof. unfold sort_strings. by rewrite merge_sort_Permutation. Qed.

Lemma elem_of_dedup {A} `{EqDecision A} (x : A) l : x ∈ dedup l ↔ x ∈ l.
Proof.
  induction l as [|y l IH]; simpl; [done|].
  destruct (dedup l) as [|z r]; [set_solver|].
  case_decide; subst; set_solver.
Qed.

Lemma sorted_dedup_NoDup l : StronglySorted String.le l → NoDup (dedup l).
Proof.
  induction 1 as [|x l Hs IH Hx]; simpl; [constructor|].
  destruct (dedup l) as [|z r] eqn:Hr; [by apply NoDup_singleton|].
  case_decide; [done|]. constructor; [|done].
  assert (∀ y, y ∈ z :: r → y ∈ l) as Hin by (intros y; rewrite <-Hr; apply elem_of_dedup).
  assert (StronglySorted String.le (z :: r)) as Hzr.
  { rewrite <-Hr. clear -Hs. induction Hs as [|y l Hs IH Hy]; simpl; [constructor|].
    destruct (dedup l) as [|z r] eqn:Hr; [by repeat constructor|].
    case_decide; [done|]. constructor; [done|]. apply Forall_forall.
    intros w Hw. apply (proj1 (Forall_forall _ _) Hy). by apply elem_of_dedup; rewrite Hr. }
  intros Hxr. assert (String.le x z).
  { apply (proj1 (Forall_forall _ _) Hx). apply Hin. by left. }
  apply elem_of_cons in Hxr as [|Hxr]; [done|].
  inversion Hzr as [|? ? ? Hz]; subst.
  assert (String.le z x) by by apply (proj1 (Forall_forall _ _) Hz).
  assert (x = z) by by apply (anti_symm String.le). done.
Qed.

(** ** Bytes *)

Definition byte_between (lo hi : nat) (c : ascii) : bool :=
  (lo <=? nat_of_ascii c) && (nat_of_ascii c <=? hi).
Definition is_ascii_digit (c : ascii) : bool := byte_between 48 57 c.
Definition is_ascii_lowercase (c : ascii) : bool := byte_between 97 122 c.
Definition is_ascii_uppercase (c : ascii) : bool := byte_between 65 90 c.
Definition is_ascii_alphanumeric (c : ascii) : bool :=
  is_ascii_digit c || is_ascii_lowercase c || is_ascii_uppercase c.
Definition is_ascii (c : ascii) : bool := nat_of_ascii c <? 128.

(** A UTF-8 continuation byte: [0b10xxxxxx]. *)
Definition is_continuation (c : ascii) : bool := byte_between 128 191 c.

(** [str::is_char_boundary] *)
Definition is_char_boundary (s : string) (i : nat) : bool :=
  (i =? 0) || (i =? String.length s) ||
  match byte_at s i with Some c => negb (is_continuation c) | None => false end.

(** [str::chars().count()]: one character per non-continuation byte. *)
Fixpoint chars_count (s : string) : nat :=
  match s with "" => 0 | String c s => (if is_continuation c then 0 else 1) + chars_count s end.

Definition to_ascii_lowercase_byte (c : ascii) : ascii :=
  if is_ascii_uppercase c then ascii_of_nat (nat_of_ascii c + 32) else c.
Fixpoint to_ascii_lowercase (s : string) : string :=
  match s with "" => "" | String c s => String (to_ascii_lowercase_byte c) (to_ascii_lowercase s) end.

(** [str::replace(c, with)] for a one-byte pattern. *)
Fixpoint replace_byte (c : ascii) (with_ s : string) : string :=
  match s with
  | "" => ""
  | String d s => (if decide (d = c) then with_ else String d "") +:+ replace_byte c with_ s
  end.

Definition DQUOTE : ascii := "034".
Definition QUOTE : ascii := "'".

(** [slice::join(sep)] *)
Fixpoint join (sep : string) (l : list string) : string :=
  match l with
  | [] => ""
  | [x] => x
  | x :: l => x +:+ sep +:+ join sep l
  end.

(** [str::split(c)], and PostgreSQL's [string_to_array(s, c)] on a non-empty [s]. *)
Fixpoint split_byte (c : ascii) (s : string) : list string :=
  match s with
  | "" => [""]
  | String d s =>
      if decide (d = c) then "" :: split_byte c s
      else match split_byte c s with
           | [] => [String d ""]
           | w :: ws => String d w :: ws
           end
  end.

Lemma split_byte_app c w s :
  str_mem c w = false → split_byte c (w +:+ String c s) = w :: split_byte c s.
Proof.
  induction w as [|d w IH]; intros Hw; str_simpl; [by rewrite decide_True|].
  bool_hyps. rewrite decide_False by done. by rewrite IH.
Qed.

Lemma split_byte_one c w : str_mem c w = false → split_byte c w = [w].
Proof.
  induction w as [|d w IH]; intros Hw; simpl in *; [done|].
  bool_hyps. rewrite decide_False by done. by rewrite IH.
Qed.

Lemma split_join c l :
  l ≠ [] → Forall (λ w, str_mem c w = false) l → split_byte c (join (String c "") l) = l.
Proof.
  intros Hne Hl. induction Hl as [|x l Hx Hl IH]; [done|]. cbn [join].
  destruct l as [|y l]; [by apply split_byte_one|].
  rewrite str_app_cons, str_app_nil_l, split_byte_app by done. by rewrite IH.
Qed.

(** ** Cutting strings *)

(** [&s[..n]] and [&s[n..]], for [n] within the string. *)
Fixpoint str_take (n : nat) (s : string) : string :=
  match n, s with S n, String c s => String c (str_take n s) | _, _ => "" end.
Fixpoint str_drop (n : nat) (s : string) : string :=
  match n, s with S n, String _ s => str_drop n s | _, _ => s end.

(** The longest prefix of bytes that satisfy [f], and what follows. *)
Fixpoint str_span (f : ascii → bool) (s : string) : string * string :=
  match s with
  | "" => ("", "")
  | String c t => if f c then let '(a, b) := str_span f t in (String c a, b) else ("", s)
  end.

(** The next byte satisfies [f]; false at the end of the text. *)
Definition next_is (f : ascii → bool) (s : string) : bool :=
  match s with "" => false | String c _ => f c end.

Lemma str_take_drop n s : str_take n s +:+ str_drop n s = s.
Proof. revert s; induction n; intros [|c s]; simpl; try done. str_simpl. by rewrite IHn. Qed.
Lemma str_length_drop n s : String.length (str_drop n s) = String.length s - n.
Proof. revert s; induction n; intros [|c s]; simpl; try done. Qed.
Lemma str_length_take n s : String.length (str_take n s) = n `min` String.length s.
Proof. revert s; induction n; intros [|c s]; simpl; try done. by rewrite IHn. Qed.

Lemma str_span_spec f s a b :
  str_span f s = (a, b) → s = a +:+ b ∧ str_forall f a = true ∧ next_is f b = false.
Proof.
  revert a b. induction s as [|c s IH]; simpl; intros a b.
  - by intros [= <- <-].
  - destruct (f c) eqn:Hc.
    + destruct (str_span f s) as [a' b'] eqn:Hs. intros [= <- <-].
      destruct (IH a' b' eq_refl) as (-> & Ha & Hb). simpl. rewrite Hc, Ha, Hb. by str_simpl.
    + intros [= <- <-]. simpl. by rewrite Hc.
Qed.

Lemma str_span_app f a b :
  str_forall f a = true → next_is f b = false → str_span f (a +:+ b) = (a, b).
Proof.
  intros Ha Hb. induction a as [|c a IH]; str_simpl.
  - destruct b as [|c b]; simpl in *; [done|by rewrite Hb].
  - apply andb_true_iff in Ha as [-> Ha]. by rewrite (IH Ha).
Qed.

(** ** Numbers printed in decimal *)

Lemma pretty_N_go_digits m s :
  str_forall is_ascii_digit s = true →
  str_forall is_ascii_digit (pretty_N_go m s) = true ∧ (s ≠ "" ∨ (0 < m)%N → pretty_N_go m s ≠ "").
Proof.
  revert s. induction (N.lt_wf_0 m) as [m _ IH]. intros s Hs.
  destruct (decide (m = 0%N)) as [->|Hm].
  - rewrite pretty_N_go_0. split; [done|]. intros [?|?]; [done|lia].
  - rewrite pretty_N_go_step by lia. destruct (IH (m `div` 10)%N) with (String (pretty_N_char (m `mod` 10)) s)
      as [H1 H2]; [apply N.div_lt; lia| |].
    + simpl. rewrite Hs, andb_true_r. unfold pretty_N_char. by repeat case_match.
    + split; [done|]. intros _. apply H2. by left.
Qed.

Lemma pretty_N_digits (n : N) : str_forall is_ascii_digit (pretty n) = true ∧ pretty n ≠ "".
Proof.
  unfold pretty, pretty_N. case_decide; [done|].
  destruct (pretty_N_go_digits n "" eq_refl) as [H1 H2]. split; [done|]. apply H2. right. lia.
Qed.

(** [str::to_ascii_uppercase] *)
Definition to_ascii_uppercase_byte (c : ascii) : ascii :=
  if is_ascii_lowercase c then ascii_of_nat (nat_of_ascii c - 32) else c.
Fixpoint to_ascii_uppercase (s : string) : string :=
  match s with "" => "" | String c s => String (to_ascii_uppercase_byte c) (to_ascii_uppercase s) end.

(** ** White space *)

(** A Unicode white space character in front, dropped ([char::is_whitespace]). *)
Definition strip_white (s : string) : option string :=
  let ascii_white c := byte_between 9 13 c || bool_decide (c = " "%char) in
  match s with
  | "" => None
  | String c t =>
      if ascii_white c then Some t
      else match t with
      | "" => None
      | String d u =>
          if bool_decide (c = "194"%char) && (bool_decide (d = "133"%char) || bool_decide (d = "160"%char))
          then Some u
          else match u with
          | "" => None
          | String e v =>
              if (bool_decide (c = "225"%char) && bool_decide (d = "154"%char) && bool_decide (e = "128"%char))
                 || (bool_decide (c = "226"%char) && bool_decide (d = "128"%char)
                     && (byte_between 128 138 e || byte_between 168 169 e || bool_decide (e = "175"%char)))
                 || (bool_decide (c = "226"%char) && bool_decide (d = "129"%char) && bool_decide (e = "159"%char))
                 || (bool_decide (c = "227"%char) && bool_decide (d = "128"%char) && bool_decide (e = "128"%char))
              then Some v else None
          end
      end
  end.

(** [str::split_whitespace]: [word] is the word being read. *)
Fixpoint split_whitespace_from (fuel : nat) (word s : string) : list string :=
  let emit l := if decide (word = "") then l else word :: l in
  match fuel with
  | 0 => emit []
  | S fuel =>
      match strip_white s with
      | Some s => emit (split_whitespace_from fuel "" s)
      | None =>
          match s with
          | "" => emit []
          | String c s => split_whitespace_from fuel (word +:+ String c "") s
          end
      end
  end.
Definition split_whitespace (s : string) : list string :=
  split_whitespace_from (S (String.length s)) "" s.

(** [str::trim]: white space dropped at both ends. *)
Fixpoint trim_start (fuel : nat) (s : string) : string :=
  match fuel, strip_white s with S fuel, Some t => trim_start fuel t | _, _ => s end.
Fixpoint trim_end (s : string) : string :=
  match s with
  | "" => ""
  | String c t => if decide (split_whitespace s = []) then "" else String c (trim_end t)
  end.
Definition trim (s : string) : string := trim_end (trim_start (String.length s) s).

(** The bytes of a bare word. *)
Definition is_word_byte (c : ascii) : bool := is_ascii_alphanumeric c || bool_decide (c = "_"%char).
Definition is_dot (c : ascii) : bool := bool_decide (c = "."%char).
