(* ===== verification/Ident.v ===== *)
(** * Names and quoting (core/src/manifest.rs)

    How the Core writes identifiers and literals into SQL, the names it accepts
    from a manifest, the permission keys it accepts, and the comma-separated
    encoding of a permission list into a session setting. *)

From stdpp Require Import base strings list sets gmap pretty.
From S2P Require Import Prelude Str.

Inductive RuntimeError :=
| PermissionDenied (msg : string)
| Database (msg : string)
| Schema (msg : string)
| Invalid (msg : string)
| Secret (msg : string)
| Worker (msg : string)
| Capacity (msg : string)
| Job (msg : string)
| Cron (msg : string)
| Ipc (msg : string)
| AuthError (msg : string)
| Mcp (msg : string)
| Config (msg : string)
| RuntimeConflict (msg : string)
| RuntimeNotFound (msg : string)
| Delegation (msg : string).

(** [RuntimeError::to_string] *)
Definition runtime_error_text (e : RuntimeError) : string :=
  match e with
  | PermissionDenied m => "permission denied: " +:+ m
  | Database m => "database connection error: " +:+ m
  | Schema m => "schema migration error: " +:+ m
  | Invalid m => "invalid manifest: " +:+ m
  | Secret m => "secret vault error: " +:+ m
  | Worker m => "worker error: " +:+ m
  | Capacity m => m
  | Job m => "job engine error: " +:+ m
  | Cron m => "cron error: " +:+ m
  | Ipc m => "IPC error: " +:+ m
  | AuthError m => "auth error: " +:+ m
  | Mcp m => "MCP error: " +:+ m
  | Config m => "configuration error: " +:+ m
  | RuntimeConflict m => "conflict: " +:+ m
  | RuntimeNotFound m => "not found: " +:+ m
  | Delegation m => "delegation refused: " +:+ m
  end.

Definition SYSTEM_FIELDS : list string := ["id"; "created_at"; "updated_at"].
Definition is_system_field (name : string) : bool := bool_decide (name ∈ SYSTEM_FIELDS).

Definition MAX_IDENT_BYTES : nat := 63.

Definition quote_with (q : ascii) (s : string) : string :=
  String q (replace_byte q (String q (String q "")) s +:+ String q "").

Definition quote_ident (ident : string) : string := quote_with DQUOTE ident.
Definition quote_literal (s : string) : string := quote_with QUOTE s.

Definition validate_ident (value label : string) : result RuntimeError unit :=
  if match value with
     | "" => false
     | String c _ => is_ascii_lowercase c
     end && str_forall (λ b, is_ascii_lowercase b || is_ascii_digit b || bool_decide (b = "_"%char)) value
  then Ok tt
  else Err (Invalid (label +:+ " '" +:+ value +:+
    "' must be snake_case (lowercase letters, digits, underscores; start with a letter)")).

Definition RESERVED_SCHEMAS : list string :=
  ["rootcx_system"; "rootcx_ext"; "pgmq"; "cron"; "public"; "information_schema"].

Definition validate_new_ident (value label : string) : result RuntimeError unit :=
  try? validate_ident value label in
  if MAX_IDENT_BYTES <? String.length value then
    Err (Invalid (label +:+ " '" +:+ value +:+ "' is " +:+ pretty (String.length value) +:+
      " bytes; PostgreSQL names are limited to " +:+ pretty MAX_IDENT_BYTES))
  else Ok tt.

(** *** References to entities *)

Inductive RefTarget :=
| RefLocal (entity : string)
| RefCore (entity : string)
| RefApp (app entity : string).

Definition parse_entity_ref (raw : string) : RefTarget :=
  match split_once ":" raw with
  | Some (app, e) => if decide (app = "core") then RefCore e else RefApp app e
  | None => RefLocal raw
  end.

Definition resolve_core_entity (name : string) : option (string * string * string * string) :=
  if decide (name = "users") then Some ("rootcx_system", "users", "id", "UUID") else None.

(** *** Permission keys *)

Definition perm_key_byte (b : ascii) : bool :=
  is_ascii_lowercase b || is_ascii_digit b ||
  bool_decide (b ∈ ["_"%char; ":"%char; "."%char; "*"%char]).

Definition validate_perm_key (key : string) : result string unit :=
  if bool_decide (key = "") || negb (str_forall perm_key_byte key)
  then Err ("permission key '" +:+ key +:+ "' must match [a-z0-9_:.*]")
  else Ok tt.

Definition RESERVED_SCOPE_SUFFIXES : list string := ["own"; "shared"].

(** [key.rsplit(':').next()]: what follows the last [:], the key when there is none. *)
Definition action_segment (key : string) : string :=
  match rsplit_once ":" key with Some (_, a) => a | None => key end.

Definition validate_declared_perm_key (key : string) : result string unit :=
  try? validate_perm_key key in
  let action := action_segment key in
  match find (λ s, bool_decide (action = s) || ends_with ("." +:+ s) action) RESERVED_SCOPE_SUFFIXES with
  | Some suffix => Err ("permission key '" +:+ key +:+ "': the '." +:+ suffix +:+
      "' suffix is reserved for the core's " +:+
      "row-scoped keys, which the core mints from ownership and share declarations. " +:+
      "The permission lattice reads it as weaker than the same " +:+
      "key without it, so an app meaning something else by it would make a " +:+
      "delegated agent narrow to the wrong capability — rename the action")
  | None => Ok tt
  end.

(** The [rootcx.effective_perms] setting (enforcement/sql_proxy.rs) and its
    reading back by [string_to_array(v_perms, ',')]. *)
Definition encode_perms (perms : list string) : string := join "," perms.
Definition decode_perms (v_perms : string) : list string :=
  if decide (v_perms = "") then [] else split_byte "," v_perms.

(** *** Names within PostgreSQL's limit *)

Section FitIdent.
(** [hex::encode(&Sha256::digest(name)[..4])] *)
Variable digest4 : string → string.

(** [None] is the panic of slicing inside a character. *)
Definition fit_ident (name : string) : option string :=
  if String.length name <=? MAX_IDENT_BYTES then Some name
  else if is_char_boundary name 54
  then Some (String.substring 0 54 name +:+ "_" +:+ digest4 name)
  else None.
End FitIdent.

(** ** Quoting is injection-safe *)

(** The lexical rule for a quoted token, after its opening quote: a doubled
    quote is one quote, a single one ends the token. *)
Fixpoint scan_quoted (q : ascii) (s : string) : option (string * string) :=
  match s with
  | "" => None
  | String c s =>
      if decide (c = q) then
        match s with
        | String d s' =>
            if decide (d = q)
            then match scan_quoted q s' with Some (v, r) => Some (String q v, r) | None => None end
            else Some ("", s)
        | "" => Some ("", "")
        end
      else match scan_quoted q s with Some (v, r) => Some (String c v, r) | None => None end
  end.

Definition quote_free_head (q : ascii) (rest : string) : bool :=
  match rest with String c _ => negb (bool_decide (c = q)) | "" => true end.

Lemma scan_quoted_replace q v rest :
  quote_free_head q rest = true →
  scan_quoted q (replace_byte q (String q (String q "")) v +:+ String q rest) = Some (v, rest).
Proof.
  intros Hr. induction v as [|c v IH]; cbn [replace_byte].
  - str_simpl. rewrite decide_True by done.
    destruct rest as [|d rest]; simpl in *; [done|]. bool_hyps. by rewrite decide_False.
  - case_decide as Hc; str_simpl.
    + subst. rewrite !decide_True by done. by rewrite IH.
    + rewrite decide_False by done. by rewrite IH.
Qed.

(** Quoting is injective and injection-safe: PostgreSQL's scanner reads a
    quoted identifier or literal back as exactly the string that was quoted, and
    stops right after it, whatever the string holds and whatever follows. *)
Theorem quote_scan_roundtrip q v rest :
  quote_free_head q rest = true →
  ∃ body, quote_with q v +:+ rest = String q body ∧ scan_quoted q body = Some (v, rest).
Proof.
  intros Hr. unfold quote_with. eexists. split; [rewrite str_app_cons; reflexivity|].
  rewrite str_app_assoc, str_app_cons, str_app_nil_l. by apply scan_quoted_replace.
Qed.

Lemma quote_scan_roundtrip_witness :
  quote_free_head QUOTE " OR TRUE" = true ∧
  ∃ body, quote_literal "x' OR 'a" +:+ " OR TRUE" = String QUOTE body ∧
    scan_quoted QUOTE body = Some ("x' OR 'a", " OR TRUE").
Proof. split; [reflexivity|]. apply (quote_scan_roundtrip QUOTE "x' OR 'a" " OR TRUE"). reflexivity. Defined.

Lemma quote_with_inj q : Inj (=) (=) (quote_with q).
Proof.
  intros v w H. unfold quote_with in H. injection H as H.
  assert (∀ u, scan_quoted q (replace_byte q (String q (String q "")) u +:+ String q "") = Some (u, "")) as E
    by (intros u; by apply scan_quoted_replace).
  pose proof (E v) as Ev. rewrite H, E in Ev. congruence.
Qed.

(** ** The permission-list encoding *)

Lemma perm_key_no_comma key : validate_perm_key key = Ok tt → key ≠ "" ∧ str_mem "," key = false.
Proof.
  unfold validate_perm_key. destruct (bool_decide (key = "") || negb (str_forall perm_key_byte key)) eqn:H; [done|].
  intros _. bool_hyps. split; [done|]. clear H.
  induction key as [|c key IH]; [done|]. simpl in *. bool_hyps.
  rewrite IH by done. rewrite bool_decide_false; [done|]. intros ->. done.
Qed.

Lemma join_nonempty sep x l : x ≠ "" → join sep (x :: l) ≠ "".
Proof.
  intros Hx. simpl. destruct l as [|y l]; [done|]. destruct x; [done|]. by rewrite str_app_cons.
Qed.

Lemma decode_encode_perms perms :
  Forall (λ k, validate_perm_key k = Ok tt) perms →
  decode_perms (encode_perms perms) = perms.
Proof.
  intros Hv. unfold decode_perms, encode_perms.
  destruct perms as [|p perms]; [done|].
  pose proof Hv as [Hp _]%Forall_cons. apply perm_key_no_comma in Hp as [Hp _].
  rewrite decide_False by by apply join_nonempty.
  apply split_join; [done|]. eapply Forall_impl; [exact Hv|].
  intros k Hk. by apply perm_key_no_comma in Hk as [_ ?].
Qed.

(** Encoding a permission list into the session setting loses nothing: for
    keys the validator accepts, what row-level security decodes is the list that
    was encoded, so a ceiling can be neither split nor merged in transit. *)
Theorem perms_encoding_roundtrip perms :
  Forall (λ k, validate_perm_key k = Ok tt) perms →
  decode_perms (encode_perms perms) = perms.
Proof. apply decode_encode_perms. Qed.

Lemma perms_encoding_roundtrip_witness :
  Forall (λ k, validate_perm_key k = Ok tt) ["app:crm:c.read.own"; "tool:*"] ∧
  decode_perms (encode_perms ["app:crm:c.read.own"; "tool:*"]) = ["app:crm:c.read.own"; "tool:*"].
Proof.
  assert (Forall (λ k, validate_perm_key k = Ok tt) ["app:crm:c.read.own"; "tool:*"]) as H
    by (repeat constructor).
  split; [exact H|]. apply (perms_encoding_roundtrip _ H).
Defined.

(** ** Generated names *)

Lemma substring_length n s : n ≤ String.length s → String.length (String.substring 0 n s) = n.
Proof.
  revert n. induction s as [|c s IH]; intros [|n] H; simpl in *; [done|lia|done|]. rewrite IH; lia.
Qed.

Lemma ascii_boundary s i : str_forall is_ascii s = true → i ≤ String.length s → is_char_boundary s i = true.
Proof.
  intros Hs Hi. unfold is_char_boundary.
  destruct (i =? 0) eqn:E0; [done|]. destruct (i =? String.length s) eqn:E1; [done|]. simpl.
  apply Nat.eqb_neq in E0, E1. assert (i < String.length s) as Hlt by lia. clear E0 E1 Hi.
  revert i Hlt. induction s as [|c s IH]; intros i Hi; simpl in *; [lia|]. bool_hyps.
  destruct i as [|i]; [|apply IH; [done|lia]].
  unfold byte_at. simpl. unfold is_continuation, byte_between, is_ascii in *.
  apply Nat.ltb_lt in H. apply negb_true_iff, andb_false_iff. left. apply Nat.leb_gt. lia.
Qed.

(** A generated name fits PostgreSQL's limit: on ASCII names [fit_ident]
    never panics, keeps names within the limit unchanged, and cuts longer ones to
    at most [MAX_IDENT_BYTES] bytes. *)
Lemma fit_ident_fits digest4 name :
  (∀ s, String.length (digest4 s) = 8) → str_forall is_ascii name = true →
  ∃ out, fit_ident digest4 name = Some out ∧ String.length out ≤ MAX_IDENT_BYTES ∧
    (String.length name ≤ MAX_IDENT_BYTES → out = name).
Proof.
  intros Hd Ha. unfold fit_ident. destruct (String.length name <=? MAX_IDENT_BYTES) eqn:E.
  - apply Nat.leb_le in E. eauto.
  - apply Nat.leb_gt in E. unfold MAX_IDENT_BYTES in *.
    rewrite ascii_boundary by (done || lia). eexists. split; [done|].
    rewrite !str_length_app, Hd, substring_length by lia. simpl. lia.
Qed.
