(* ===== verification/Perms.v ===== *)
(** * Permission keys (core/src/governance/authority/perms.rs)

    Wildcard matching of permission keys, the scope lattice and the narrowing
    of two grants to what both allow.  [has_permission] is the exact gate;
    [intersect_permissions] is the narrowing a delegated agent runs with. *)

From stdpp Require Import base strings list sets gmap sorting.
From S2P Require Import Prelude Str.

(** ** Matching *)

(** One held key against a requirement: the closure of [has_permission]. *)
Definition key_covers (p required : string) : bool :=
  bool_decide (p = "*") || bool_decide (p = required) ||
  match strip_suffix ":*" p with
  | Some prefix =>
      starts_with prefix required &&
      bool_decide (byte_at required (String.length prefix) = Some ":"%char)
  | None => false
  end.

Definition has_permission (permissions : list string) (required : string) : bool :=
  existsb (λ p, key_covers p required) permissions.

(** ** Narrowing *)

Definition meet (key : string) (other : list string) : option string :=
  if has_permission other key then Some key
  else if ends_with ".own" key || ends_with ".shared" key then
    match rsplit_once "." key with
    | Some (base, _) => if has_permission other base then Some key else None
    | None => None
    end
  else
    let scoped := key +:+ ".own" in
    if has_permission other scoped then Some scoped else None.

Definition intersect_permissions (a b : list string) : list string :=
  if existsb (λ p, bool_decide (p = "*")) a then b
  else if existsb (λ p, bool_decide (p = "*")) b then a
  else dedup (sort_strings (omap (λ p, meet p b) a ++ omap (λ p, meet p a) b)).

(** ** Matching as a relation *)

Lemma key_covers_iff p r :
  key_covers p r = true ↔
  p = "*" ∨ p = r ∨ ∃ pre rest, p = pre +:+ ":*" ∧ r = pre +:+ String ":" rest.
Proof.
  unfold key_covers. rewrite !orb_true_iff, !bool_decide_eq_true. split.
  - intros [[->| ->]|H]; [by left|by right; left|]. right; right.
    destruct (strip_suffix ":*" p) as [pre|] eqn:Hp; [|done].
    apply strip_suffix_Some in Hp as ->. bool_hyps.
    apply starts_with_iff in H as [r' ->].
    rewrite byte_at_app in H0. destruct r' as [|c r']; [done|].
    injection H0 as ->. by exists pre, r'.
  - intros [->|[->|(pre & rest & -> & ->)]]; [by left; left|by left; right|]. right.
    assert (strip_suffix ":*" (pre +:+ ":*") = Some pre) as -> by by apply strip_suffix_Some.
    apply andb_true_iff. split; [apply starts_with_iff; eauto|].
    by rewrite byte_at_app.
Qed.

Lemma has_permission_iff P r :
  has_permission P r = true ↔ ∃ p, p ∈ P ∧ key_covers p r = true.
Proof.
  unfold has_permission. rewrite existsb_exists.
  by setoid_rewrite list_elem_of_In.
Qed.

Lemma key_covers_refl p : key_covers p p = true.
Proof. apply key_covers_iff. by right; left. Qed.

Lemma key_covers_trans p q r :
  key_covers p q = true → key_covers q r = true → key_covers p r = true.
Proof.
  rewrite !key_covers_iff.
  intros [->|[->|(pre & rest & -> & ->)]]; [by left|done|].
  intros [Hq|[<-|(pre' & rest' & Hq & ->)]].
  - exfalso. destruct pre as [|c pre]; str_simpl; [done|].
    injection Hq as _ Hq. by destruct pre.
  - right; right. eauto.
  - right; right. exists pre.
    destruct (str_snoc_cases rest) as [->|(rest0 & c & ->)].
    + change (pre' +:+ ":*") with (pre' +:+ (":" +:+ "*")) in Hq.
      rewrite <-str_app_assoc in Hq. by apply str_snoc_inj in Hq as [_ ?].
    + exists (rest0 +:+ rest'). split; [done|].
      change (pre' +:+ ":*") with (pre' +:+ (":" +:+ "*")) in Hq.
      rewrite <-str_app_cons, <-!str_app_assoc in Hq.
      apply str_snoc_inj in Hq as [Hq _].
      change (String ":" rest') with (":" +:+ rest').
      rewrite <-str_app_assoc, <-Hq. by str_simpl.
Qed.

Lemma has_permission_trans P Q r :
  (∀ p, p ∈ P → has_permission Q p = true) →
  has_permission P r = true → has_permission Q r = true.
Proof.
  intros Hsub (p & Hp & Hc)%has_permission_iff.
  apply Hsub, has_permission_iff in Hp as (q & Hq & Hqp).
  apply has_permission_iff. exists q. split; [done|by eapply key_covers_trans].
Qed.

Lemma has_permission_elem P r : r ∈ P → has_permission P r = true.
Proof. intros H. apply has_permission_iff. eauto using key_covers_refl. Qed.

Lemma has_permission_star P r : "*" ∈ P → has_permission P r = true.
Proof. intros H. apply has_permission_iff. exists "*". split; [done|]. apply key_covers_iff. by left. Qed.

Lemma existsb_star P : existsb (λ p, bool_decide (p = "*")) P = true ↔ "*" ∈ P.
Proof.
  rewrite existsb_exists. setoid_rewrite bool_decide_eq_true.
  setoid_rewrite <-list_elem_of_In. naive_solver.
Qed.

(** ** The scope lattice

    [Allows P r]: the grant [P] permits [r], a scoped key being strictly weaker
    than the key it scopes. *)

Definition scope (s : string) : Prop := s = ".own" ∨ s = ".shared".

Inductive Allows (P : list string) : string → Prop :=
| allows_held r : has_permission P r = true → Allows P r
| allows_scoped r s : Allows P r → scope s → Allows P (r +:+ s).

#[export] Hint Constructors Allows : core_lib.

Lemma allows_mono P Q r :
  (∀ p, has_permission P p = true → Allows Q p) → Allows P r → Allows Q r.
Proof. intros H. induction 1; eauto with core_lib. Qed.

Lemma own_not_shared a b : a +:+ ".own" ≠ b +:+ ".shared".
Proof.
  change ".own" with (".ow" +:+ "n"). change ".shared" with (".share" +:+ "d").
  rewrite <-!str_app_assoc. by intros [_ ?]%str_snoc_inj.
Qed.

Lemma scope_inj a b s t : scope s → scope t → a +:+ s = b +:+ t → a = b ∧ s = t.
Proof.
  intros [->| ->] [->| ->] He; [|by apply own_not_shared in He|by symmetry in He; apply own_not_shared in He|];
    by apply str_app_inv_tail in He as ->.
Qed.

(** A scope suffix never reaches into a wildcard's prefix. *)
Lemma wildcard_covers_base p r s :
  scope s → p ≠ r +:+ s → key_covers p (r +:+ s) = true → key_covers p r = true.
Proof.
  intros Hs Hne. rewrite !key_covers_iff.
  intros [->|[->|(pre & rest & -> & Hr)]]; [by left|done|]. right; right.
  exists pre. change (String ":" rest) with (":" +:+ rest) in Hr.
  rewrite <-str_app_assoc in Hr.
  symmetry in Hr. apply str_app_split in Hr as [(e & He & Hr)|(e & He & Hr)].
  - exists e. split; [done|]. rewrite He. by str_simpl.
  - assert (str_mem ":" s = false) as Hm by by destruct Hs as [->| ->].
    destruct (str_snoc_cases e) as [->|(e' & c & ->)].
    + rewrite str_app_nil_r in He. exists "". split; [done|]. by rewrite <-He.
    + exfalso. rewrite <-str_app_assoc in He. apply str_snoc_inj in He as [_ <-].
      rewrite Hr in Hm. str_simpl. rewrite orb_true_r in Hm. done.
Qed.

Lemma wildcard_covers_scoped p r s :
  p ≠ r → key_covers p r = true → key_covers p (r +:+ s) = true.
Proof.
  intros Hne. rewrite !key_covers_iff.
  intros [->|[->|(pre & rest & -> & ->)]]; [by left|done|]. right; right.
  exists pre, (rest +:+ s). split; [done|]. by str_simpl.
Qed.

Lemma ends_with_scope r : (ends_with ".own" r || ends_with ".shared" r) = true ↔ ∃ b s, scope s ∧ r = b +:+ s.
Proof. rewrite orb_true_iff, !ends_with_iff. unfold scope. naive_solver. Qed.

Lemma rsplit_scope b s : scope s → ∃ t, rsplit_once "." (b +:+ s) = Some (b, t).
Proof. intros [->| ->]; eexists; by apply rsplit_once_app. Qed.

(** Whatever [meet] returns is allowed by both sides. *)
Lemma meet_sound key P Q k :
  key ∈ P → meet key Q = Some k → Allows P k ∧ Allows Q k.
Proof.
  unfold meet. intros Hin. destruct (has_permission Q key) eqn:Hq.
  - intros [= <-]. split; constructor; [by apply has_permission_elem|done].
  - destruct (ends_with ".own" key || ends_with ".shared" key) eqn:He.
    + apply ends_with_scope in He as (b & s & Hs & ->).
      destruct (rsplit_scope b s Hs) as [t ->].
      destruct (has_permission Q b) eqn:Hb; [|done]. intros [= <-].
      split; [constructor; by apply has_permission_elem|].
      apply allows_scoped; [by constructor|done].
    + cbv zeta. destruct (has_permission Q (key +:+ ".own")) eqn:Hb; [|done]. intros [= <-].
      split; [|by constructor]. apply allows_scoped; [|by left].
      constructor. by apply has_permission_elem.
Qed.

Lemma elem_of_intersect a b k :
  "*" ∉ a → "*" ∉ b →
  k ∈ intersect_permissions a b ↔
  (∃ p, p ∈ a ∧ meet p b = Some k) ∨ (∃ p, p ∈ b ∧ meet p a = Some k).
Proof.
  intros Ha Hb. unfold intersect_permissions.
  rewrite <-existsb_star in Ha, Hb. apply not_true_is_false in Ha as ->, Hb as ->.
  by rewrite elem_of_dedup, elem_of_sort_strings, elem_of_app, !list_elem_of_omap.
Qed.

Lemma intersect_star_l a b : "*" ∈ a → intersect_permissions a b = b.
Proof. intros H. unfold intersect_permissions. by rewrite (proj2 (existsb_star a) H). Qed.

Lemma intersect_star_r a b : "*" ∉ a → "*" ∈ b → intersect_permissions a b = a.
Proof.
  intros Ha Hb. unfold intersect_permissions. rewrite <-existsb_star in Ha.
  apply not_true_is_false in Ha as ->. by rewrite (proj2 (existsb_star b) Hb).
Qed.

Lemma intersect_held_allowed a b k :
  k ∈ intersect_permissions a b → Allows a k ∧ Allows b k.
Proof.
  destruct (decide ("*" ∈ a)) as [Ha|Ha].
  { rewrite intersect_star_l by done. intros H. split; constructor;
      [by apply has_permission_star|by apply has_permission_elem]. }
  destruct (decide ("*" ∈ b)) as [Hb|Hb].
  { rewrite intersect_star_r by done. intros H. split; constructor;
      [by apply has_permission_elem|by apply has_permission_star]. }
  rewrite elem_of_intersect by done.
  intros [(p & Hp & Hm)|(p & Hp & Hm)]; apply meet_sound with (1 := Hp) in Hm; tauto.
Qed.

(** A held key that matches transfers everything it matches. *)
Lemma allows_covers P k r : Allows P k → key_covers k r = true → Allows P r.
Proof.
  intros HP Hc. destruct (decide (k = r)) as [->|Hne]; [done|].
  destruct HP as [k HP|k s HP Hs].
  - constructor. apply has_permission_iff in HP as (p & Hp & Hpk).
    apply has_permission_iff. exists p. split; [done|by eapply key_covers_trans].
  - apply key_covers_iff in Hc as [Hk|[Hk|(pre & rest & Hk & _)]]; [|done|];
      exfalso; destruct Hs as [->| ->].
    1,2: apply (f_equal String.length) in Hk; str_simpl; lia.
    + change (k +:+ ".own") with (k +:+ (".ow" +:+ "n")) in Hk.
      change (pre +:+ ":*") with (pre +:+ (":" +:+ "*")) in Hk.
      rewrite <-!str_app_assoc in Hk. by apply str_snoc_inj in Hk as [_ ?].
    + change (k +:+ ".shared") with (k +:+ (".share" +:+ "d")) in Hk.
      change (pre +:+ ":*") with (pre +:+ (":" +:+ "*")) in Hk.
      rewrite <-!str_app_assoc in Hk. by apply str_snoc_inj in Hk as [_ ?].
Qed.

Lemma intersect_allows a b r :
  Allows (intersect_permissions a b) r → Allows a r ∧ Allows b r.
Proof.
  induction 1 as [r Hr|r s _ [IHa IHb] Hs]; [|eauto with core_lib].
  apply has_permission_iff in Hr as (k & Hk & Hc).
  apply intersect_held_allowed in Hk as [Ha Hb].
  split; by eapply allows_covers.
Qed.

Lemma meet_same key P : has_permission P key = true → meet key P = Some key.
Proof. unfold meet. by intros ->. Qed.

Lemma meet_scoped key P s :
  scope s → has_permission P key = true → meet (key +:+ s) P = Some (key +:+ s).
Proof.
  intros Hs HP. unfold meet. destruct (has_permission P (key +:+ s)); [done|].
  rewrite (proj2 (ends_with_scope (key +:+ s))) by eauto.
  destruct (rsplit_scope key s Hs) as [t ->]. by rewrite HP.
Qed.

(** Two wildcards that match a common key are comparable. *)
Lemma wildcards_comparable pre1 pre2 r1 r2 :
  pre1 +:+ String ":" r1 = pre2 +:+ String ":" r2 →
  key_covers (pre1 +:+ ":*") (pre2 +:+ ":*") = true ∨
  key_covers (pre2 +:+ ":*") (pre1 +:+ ":*") = true.
Proof.
  rewrite !key_covers_iff.
  change (String ":" r1) with (":" +:+ r1). change (String ":" r2) with (":" +:+ r2).
  rewrite <-!str_app_assoc.
  intros [(e & He & _)|(e & He & _)]%str_app_split; [left|right]; right; right;
    eexists _, (e +:+ "*"); (split; [done|]);
    change ":*" with (":" +:+ "*"); rewrite <-str_app_assoc, He; by str_simpl.
Qed.

Lemma intersect_has a b r :
  has_permission a r = true → has_permission b r = true →
  has_permission (intersect_permissions a b) r = true.
Proof.
  intros Ha Hb.
  destruct (decide ("*" ∈ a)) as [Sa|Sa]; [by rewrite intersect_star_l|].
  destruct (decide ("*" ∈ b)) as [Sb|Sb]; [by rewrite intersect_star_r|].
  pose proof Ha as (p & Hp & Hpr)%has_permission_iff.
  pose proof Hb as (q & Hq & Hqr)%has_permission_iff.
  apply has_permission_iff. setoid_rewrite elem_of_intersect; [|done..].
  assert (key_covers q p = true ∨ key_covers p q = true) as [Hqp|Hpq].
  { apply key_covers_iff in Hpr as [->|[->|(pre1 & r1 & -> & ->)]]; [done|by left|].
    apply key_covers_iff in Hqr as [->|[->|(pre2 & r2 & -> & He)]]; [done| |].
    - right. apply key_covers_iff. right; right. eauto.
    - apply wildcards_comparable in He. tauto. }
  - exists p. split; [|done]. left. exists p. split; [done|]. apply meet_same.
    apply has_permission_iff. eauto.
  - exists q. split; [|done]. right. exists q. split; [done|]. apply meet_same.
    apply has_permission_iff. eauto.
Qed.

(** The narrower scope survives when one side holds the whole key. *)
Lemma intersect_scoped_l a b r s :
  scope s → has_permission a r = true → has_permission b (r +:+ s) = true →
  Allows (intersect_permissions a b) (r +:+ s).
Proof.
  intros Hs Ha Hb.
  pose proof Hb as (q & Hq & Hqr)%has_permission_iff.
  destruct (decide (q = r +:+ s)) as [->|Hne].
  - destruct (decide ("*" ∈ a)) as [Sa|Sa]; [rewrite intersect_star_l by done; by constructor|].
    destruct (decide ("*" ∈ b)) as [Sb|Sb].
    { rewrite intersect_star_r by done. apply allows_scoped; [by constructor|done]. }
    constructor. apply has_permission_elem. apply elem_of_intersect; [done..|].
    right. exists (r +:+ s). split; [done|by apply meet_scoped].
  - apply allows_scoped; [|done]. constructor. apply intersect_has; [done|].
    apply has_permission_iff. exists q. split; [done|by eapply wildcard_covers_base].
Qed.

Lemma intersect_scoped_r a b r s :
  scope s → has_permission a (r +:+ s) = true → has_permission b r = true →
  Allows (intersect_permissions a b) (r +:+ s).
Proof.
  intros Hs Ha Hb.
  pose proof Ha as (p & Hp & Hpr)%has_permission_iff.
  destruct (decide (p = r +:+ s)) as [->|Hne].
  - destruct (decide ("*" ∈ a)) as [Sa|Sa].
    { rewrite intersect_star_l by done. apply allows_scoped; [by constructor|done]. }
    destruct (decide ("*" ∈ b)) as [Sb|Sb]; [rewrite intersect_star_r by done; by constructor|].
    constructor. apply has_permission_elem. apply elem_of_intersect; [done..|].
    left. exists (r +:+ s). split; [done|by apply meet_scoped].
  - apply allows_scoped; [|done]. constructor. apply intersect_has; [|done].
    apply has_permission_iff. exists p. split; [done|by eapply wildcard_covers_base].
Qed.

(** The key a scoped key scopes. *)
Definition scope_base (r : string) : option string :=
  match strip_suffix ".own" r with Some b => Some b | None => strip_suffix ".shared" r end.

(** A key with at most one scope suffix, as Core mints them. *)
Definition singly_scoped (r : string) : bool :=
  match scope_base r with Some b => bool_decide (scope_base b = None) | None => true end.

Lemma scope_base_app b s : scope s → scope_base (b +:+ s) = Some b.
Proof.
  intros [->| ->]; unfold scope_base.
  - by rewrite (proj2 (strip_suffix_Some ".own" _ b)).
  - destruct (strip_suffix ".own" (b +:+ ".shared")) as [c|] eqn:H.
    + apply strip_suffix_Some in H. symmetry in H. by apply own_not_shared in H.
    + by apply strip_suffix_Some.
Qed.

Lemma allows_singly_scoped P r :
  singly_scoped r = true → Allows P r →
  has_permission P r = true ∨ ∃ b s, scope s ∧ r = b +:+ s ∧ has_permission P b = true.
Proof.
  intros Hr HA. destruct HA as [r H|r s HA Hs]; [by left|]. right. exists r, s.
  split; [done|]. split; [done|]. destruct HA as [r H|r s' HA Hs']; [done|].
  unfold singly_scoped in Hr. rewrite scope_base_app in Hr by done. bool_hyps.
  by rewrite scope_base_app in Hr.
Qed.

(** [C5] Narrowing is exact: on every singly scoped key, a delegated agent is
    allowed precisely what both grants allow — nothing more (no escalation) and
    nothing less (grants that disagree on scope narrow to the weaker scope rather
    than cancel out). *)
Theorem intersect_permissions_exact a b r :
  singly_scoped r = true →
  Allows (intersect_permissions a b) r ↔ Allows a r ∧ Allows b r.
Proof.
  intros Hr. split; [apply intersect_allows|]. intros [Ha Hb].
  apply allows_singly_scoped in Ha as [Ha|(x & s & Hs & -> & Ha)]; [| |done];
  apply allows_singly_scoped in Hb as [Hb|(y & t & Ht & E & Hb)]; try done.
  - constructor. by apply intersect_has.
  - subst. by apply intersect_scoped_r.
  - by apply intersect_scoped_l.
  - apply scope_inj in E as [-> ->]; [|done..].
    apply allows_scoped; [|done]. constructor. by apply intersect_has.
Qed.

Lemma intersect_permissions_exact_witness :
  singly_scoped "app:crm:c.read.own" = true ∧
  Allows (intersect_permissions ["app:crm:c.read"; "tool:*"] ["app:crm:c.read.own"])
    "app:crm:c.read.own".
Proof.
  split; [vm_compute; reflexivity|].
  apply intersect_permissions_exact; [vm_compute; reflexivity|].
  split; [|constructor; vm_compute; reflexivity].
  apply (allows_scoped _ "app:crm:c.read" ".own"); [|by left].
  constructor; vm_compute; reflexivity.
Defined.

(** The subset check behind act-as is sound: when every key of [target] is
    held by [human], every requirement [target] passes, [human] passes. *)
Theorem subset_check_sound target human r :
  forallb (has_permission human) target = true →
  has_permission target r = true → has_permission human r = true.
Proof.
  intros Hall. apply has_permission_trans.
  intros p Hp%list_elem_of_In. by eapply forallb_forall in Hall.
Qed.

Lemma subset_check_sound_witness :
  forallb (has_permission ["app:crm:*"; "tool:query"]) ["app:crm:c.read"] = true ∧
  has_permission ["app:crm:*"; "tool:query"] "app:crm:c.read" = true.
Proof.
  split; [vm_compute; reflexivity|].
  apply (subset_check_sound ["app:crm:c.read"]); vm_compute; reflexivity.
Defined.
