(* ===== verification/Roles.v ===== *)
(** * Role hierarchies (core/src/governance/authority/perms.rs)

    [expand_roles] closes a set of assigned roles under inheritance;
    [detect_cycle] is the depth-first search that keeps the hierarchy acyclic.
    The plpgsql twin of [expand_roles] (core/src/extensions/rbac/bootstrap.rs)
    is [sql_expand_roles]. *)

From stdpp Require Import base strings list sets gmap relations.
From S2P Require Import Prelude Str.

Definition MAX_ROLE_DEPTH : nat := 64.

Definition parents_of (role_map : gmap string (list string)) (role : string) : list string :=
  default [] (role_map !! role).

(** [Vec] used as a stack: the head of the list is the end of the vector. *)
Definition push_unseen (expanded : gset string) (parents stack : list string) : list string :=
  foldl (λ st p, if decide (p ∈ expanded) then st else p :: st) stack parents.

(** The [while let Some(role) = stack.pop()] loop; [remaining] is
    [MAX_ROLE_DEPTH - depth], so that the pop that finds it zero breaks. *)
Fixpoint expand_loop (remaining : nat) (role_map : gmap string (list string))
    (expanded : gset string) (stack : list string) : gset string :=
  match stack with
  | [] => expanded
  | role :: stack =>
      match remaining with
      | O => expanded
      | S remaining =>
          if decide (role ∈ expanded) then expand_loop remaining role_map expanded stack
          else
            let expanded := {[role]} ∪ expanded in
            expand_loop remaining role_map expanded
              (match role_map !! role with
               | Some parents => push_unseen expanded parents stack
               | None => stack
               end)
      end
  end.

Definition expand_roles (assigned : list string) (role_map : gmap string (list string)) : gset string :=
  expand_loop MAX_ROLE_DEPTH role_map ∅ (reverse assigned).

(** The plpgsql function: arrays, [depth < 64] tested before the pop.  [None]
    is reported when [fuel] runs out, which [sql_expand_roles] never does. *)
Fixpoint sql_expand_loop (fuel depth : nat) (role_map : gmap string (list string))
    (expanded stack : list string) : option (list string) :=
  if bool_decide (0 < length stack) && bool_decide (depth < 64) then
    match fuel with
    | O => None
    | S fuel =>
        match last stack with
        | None => None
        | Some cur =>
            let stack := take (length stack - 1) stack in
            if decide (cur ∈ expanded) then sql_expand_loop fuel (S depth) role_map expanded stack
            else
              let expanded := expanded ++ [cur] in
              sql_expand_loop fuel (S depth) role_map expanded
                (match role_map !! cur with
                 | Some parents =>
                     foldl (λ st p, if decide (p ∈ expanded) then st else st ++ [p]) stack parents
                 | None => stack
                 end)
        end
    end
  else Some expanded.

Definition sql_expand_roles (assigned : list string) (role_map : gmap string (list string)) : list string :=
  default [] (sql_expand_loop 65 0 role_map [] assigned).

(** ** Cycle detection *)

(** [dfs_cycle] with its two sets threaded; the outer [option] is [None] when
    [fuel] runs out (never, from [detect_cycle]). *)
Fixpoint dfs_cycle (fuel : nat) (roles : gmap string (list string)) (node : string)
    (visited in_stack : gset string) : option (option string * gset string * gset string) :=
  match fuel with
  | O => None
  | S fuel =>
      (fix each (parents : list string) (visited in_stack : gset string) :=
         match parents with
         | [] => Some (None, visited, in_stack ∖ {[node]})
         | parent :: rest =>
             if decide (parent ∈ in_stack) then Some (Some parent, visited, in_stack)
             else if decide (parent ∈ visited) then each rest visited in_stack
             else match dfs_cycle fuel roles parent visited in_stack with
                  | None => None
                  | Some (Some cycle, visited, in_stack) => Some (Some cycle, visited, in_stack)
                  | Some (None, visited, in_stack) => each rest visited in_stack
                  end
         end) (parents_of roles node) ({[node]} ∪ visited) ({[node]} ∪ in_stack)
  end.

(** The roles a hierarchy mentions; one more than their number is enough fuel. *)
Definition universe (roles : gmap string (list string)) : gset string :=
  dom roles ∪ ⋃ ((λ kv, list_to_set kv.2) <$> map_to_list roles).

Fixpoint detect_cycle_from (fuel : nat) (roles : gmap string (list string)) (keys : list string)
    (visited in_stack : gset string) : option (option string) :=
  match keys with
  | [] => Some None
  | role :: keys =>
      if decide (role ∈ visited) then detect_cycle_from fuel roles keys visited in_stack
      else match dfs_cycle fuel roles role visited in_stack with
           | None => None
           | Some (Some cycle, _, _) => Some (Some cycle)
           | Some (None, visited, in_stack) => detect_cycle_from fuel roles keys visited in_stack
           end
  end.

(** [roles.keys()] iterates in an unspecified order: [keys] is that order. *)
Definition detect_cycle_in (keys : list string) (roles : gmap string (list string)) : option (option string) :=
  detect_cycle_from (S (size (universe roles))) roles keys ∅ ∅.

Definition detect_cycle (roles : gmap string (list string)) : option string :=
  match detect_cycle_in (map_to_list roles).*1 roles with Some c => c | None => None end.

(** ** Inheritance as a relation *)

Definition inherits (roles : gmap string (list string)) (a b : string) : Prop := b ∈ parents_of roles a.

Definition acyclic (roles : gmap string (list string)) : Prop := ∀ r, ¬ tc (inherits roles) r r.

Lemma inherits_universe roles a b : inherits roles a b → a ∈ universe roles ∧ b ∈ universe roles.
Proof.
  unfold inherits, parents_of, universe. destruct (roles !! a) as [ps|] eqn:Ha; simpl; [|set_solver].
  intros Hb. split; [apply elem_of_union_l; by apply elem_of_dom_2 in Ha|].
  apply elem_of_union_r, elem_of_union_list. exists (list_to_set ps). split; [|set_solver].
  apply list_elem_of_fmap. exists (a, ps). split; [done|by apply elem_of_map_to_list].
Qed.

(** ** Expansion is sound, and complete within its bound *)

Lemma elem_of_push_unseen expanded ps st x :
  x ∈ push_unseen expanded ps st ↔ x ∈ st ∨ (x ∈ ps ∧ x ∉ expanded).
Proof.
  unfold push_unseen. revert st. induction ps as [|p ps IH]; intros st; simpl; [set_solver|].
  rewrite IH. case_decide; set_solver.
Qed.

Lemma length_push_unseen expanded ps st :
  length (push_unseen expanded ps st) ≤ length ps + length st.
Proof.
  unfold push_unseen. revert st. induction ps as [|p ps IH]; intros st; simpl; [lia|].
  etrans; [apply IH|]. case_decide; simpl; lia.
Qed.

Lemma expand_loop_sound n roles (P : string → Prop) expanded stack r :
  (∀ x y, P x → inherits roles x y → P y) →
  (∀ x, x ∈ expanded → P x) → (∀ x, x ∈ stack → P x) →
  r ∈ expand_loop n roles expanded stack → P r.
Proof.
  intros HP. revert expanded stack.
  induction n as [|n IH]; intros expanded [|role stack] He Hs; simpl; [by apply He..|].
  case_decide as Hin; [apply IH; set_solver|].
  apply IH; [set_solver|].
  intros x Hx. unfold inherits, parents_of in HP.
  destruct (roles !! role) as [ps|] eqn:Hr; [|set_solver].
  apply elem_of_push_unseen in Hx as [Hx|[Hx _]]; [set_solver|].
  apply (HP role); [set_solver|by rewrite Hr].
Qed.

Lemma size_expand_loop n roles expanded stack :
  size (expand_loop n roles expanded stack) ≤ n + size expanded.
Proof.
  revert expanded stack. induction n as [|n IH]; intros expanded [|role stack]; simpl; [lia..|].
  case_decide; [etrans; [apply IH|lia]|].
  etrans; [apply IH|]. rewrite size_union by set_solver. rewrite size_singleton. lia.
Qed.

Lemma expand_loop_mono n roles expanded stack : expanded ⊆ expand_loop n roles expanded stack.
Proof.
  revert expanded stack. induction n as [|n IH]; intros expanded [|role stack]; simpl; [done..|].
  case_decide; [apply IH|]. etrans; [|apply IH]. set_solver.
Qed.

(** The work left: the stack, and the parents of every role not yet expanded. *)
Definition pending (roles : gmap string (list string)) (expanded : gset string) : nat :=
  sum_list_with (λ kv, if decide (kv.1 ∈ expanded) then 0 else length kv.2) (map_to_list roles).

Lemma sum_list_with_ext {A} (f g : A → nat) l :
  (∀ x, x ∈ l → f x = g x) → sum_list_with f l = sum_list_with g l.
Proof. induction l as [|x l IH]; intros H; simpl; [done|]. rewrite H, IH; set_solver. Qed.

Lemma pending_step roles expanded role ps :
  roles !! role = Some ps → role ∉ expanded →
  pending roles expanded = length ps + pending roles ({[role]} ∪ expanded).
Proof.
  intros Hr Hn. unfold pending.
  rewrite <-(insert_delete_id roles role ps Hr) at 1 2.
  rewrite !map_to_list_insert by apply lookup_delete_eq. simpl.
  rewrite decide_False by done. rewrite (decide_True (P := role ∈ _)) by set_solver. simpl.
  f_equal. apply sum_list_with_ext. intros [k l] Hk. simpl.
  apply elem_of_map_to_list in Hk. apply lookup_delete_Some in Hk as [Hk _].
  destruct (decide (k ∈ expanded)), (decide (k ∈ {[role]} ∪ expanded)); set_solver.
Qed.

Lemma pending_new roles expanded role :
  roles !! role = None → pending roles ({[role]} ∪ expanded) = pending roles expanded.
Proof.
  intros Hr. apply sum_list_with_ext. intros [k l] Hk. simpl.
  apply elem_of_map_to_list in Hk.
  assert (k ≠ role) by congruence.
  destruct (decide (k ∈ expanded)), (decide (k ∈ {[role]} ∪ expanded)); set_solver.
Qed.

(** Every role on the stack or expanded has its parents expanded or pending. *)
Lemma expand_loop_complete n roles expanded stack :
  length stack + pending roles expanded ≤ n →
  (∀ x y, x ∈ expanded → inherits roles x y → y ∈ expanded ∨ y ∈ stack) →
  let R := expand_loop n roles expanded stack in
  (∀ x, x ∈ stack → x ∈ R) ∧ (∀ x y, x ∈ R → inherits roles x y → y ∈ R).
Proof.
  revert expanded stack. induction n as [|n IH]; intros expanded stack Hn Hinv; simpl.
  { destruct stack; simpl in *; [|lia]. split; [set_solver|].
    intros x y Hx Hxy. destruct (Hinv x y Hx Hxy); set_solver. }
  destruct stack as [|role stack]; simpl in *.
  { split; [set_solver|]. intros x y Hx Hxy. destruct (Hinv x y Hx Hxy); set_solver. }
  case_decide as Hrole.
  - destruct (IH expanded stack) as [H1 H2]; [lia|set_solver|].
    split; [|done]. intros x [->|Hx]%elem_of_cons; [|by apply H1].
    by apply expand_loop_mono.
  - set (st := match roles !! role with Some ps => _ | None => _ end).
    assert (length st + pending roles ({[role]} ∪ expanded) ≤ n) as Hlen.
    { subst st. destruct (roles !! role) as [ps|] eqn:Hr.
      - rewrite (pending_step roles expanded role ps) in Hn by done.
        pose proof (length_push_unseen ({[role]} ∪ expanded) ps stack). lia.
      - rewrite pending_new by done. lia. }
    destruct (IH ({[role]} ∪ expanded) st Hlen) as [H1 H2].
    { intros x y Hx Hxy. subst st.
      destruct (decide (y ∈ {[role]} ∪ expanded)) as [|Hy]; [by left|right].
      unfold inherits, parents_of in *.
      destruct (decide (x = role)) as [->|Hne].
      - destruct (roles !! role) as [ps|]; [|set_solver].
        apply elem_of_push_unseen. right. set_solver.
      - assert (x ∈ expanded) as Hx' by set_solver.
        assert (y ∈ stack) by (destruct (Hinv x y Hx' Hxy); set_solver).
        destruct (roles !! role); [apply elem_of_push_unseen; by left|done]. }
    split; [|done]. intros x [->|Hx]%elem_of_cons.
    + apply expand_loop_mono. set_solver.
    + apply H1. subst st. destruct (roles !! role); [apply elem_of_push_unseen; by left|done].
Qed.

(** Role expansion never invents a role: every expanded role is reachable
    from an assigned one by inheritance, and at most [MAX_ROLE_DEPTH] roles are
    returned. *)
Theorem expand_roles_sound assigned roles :
  size (expand_roles assigned roles) ≤ MAX_ROLE_DEPTH ∧
  ∀ r, r ∈ expand_roles assigned roles → ∃ a, a ∈ assigned ∧ rtc (inherits roles) a r.
Proof.
  split.
  - unfold expand_roles. etrans; [apply size_expand_loop|]. rewrite size_empty. lia.
  - intros r. unfold expand_roles.
    apply (expand_loop_sound _ roles (λ r, ∃ a, a ∈ assigned ∧ rtc (inherits roles) a r)).
    + intros x y (a & Ha & Hax) Hxy. exists a. split; [done|]. by eapply rtc_r.
    + set_solver.
    + intros x Hx. rewrite elem_of_reverse in Hx. exists x. split; [done|apply rtc_refl].
Qed.

(** Within its bound the expansion is complete: when the assigned roles and
    the inheritance edges together number at most [MAX_ROLE_DEPTH], every role
    reachable from an assigned one is expanded. *)
Theorem expand_roles_complete assigned roles a r :
  length assigned + pending roles ∅ ≤ MAX_ROLE_DEPTH →
  a ∈ assigned → rtc (inherits roles) a r → r ∈ expand_roles assigned roles.
Proof.
  intros Hn Ha Hr. unfold expand_roles.
  destruct (expand_loop_complete MAX_ROLE_DEPTH roles ∅ (reverse assigned)) as [H1 H2].
  { by rewrite length_reverse. }
  { set_solver. }
  assert (a ∈ expand_loop MAX_ROLE_DEPTH roles ∅ (reverse assigned)) as HaR.
  { apply H1. by rewrite elem_of_reverse. }
  clear Ha. induction Hr as [|x y z Hxy _ IH]; eauto.
Qed.

Lemma expand_roles_complete_witness :
  length ["editor"] + pending {["editor" := ["viewer"]; "viewer" := ["guest"]]} ∅ ≤ MAX_ROLE_DEPTH ∧
  "guest" ∈ expand_roles ["editor"] {["editor" := ["viewer"]; "viewer" := ["guest"]]}.
Proof.
  assert (length ["editor"] + pending {["editor" := ["viewer"]; "viewer" := ["guest"]]} ∅ ≤ MAX_ROLE_DEPTH)
    as H by (vm_compute; lia).
  split; [exact H|]. apply (expand_roles_complete _ _ "editor"); [exact H|by left|].
  apply (rtc_l _ _ "viewer"); [by left|]. apply (rtc_l _ _ "guest"); [by left|apply rtc_refl].
Defined.

(** ** The Rust and the plpgsql expansion agree *)

(** [st] is a plpgsql array used as a stack, its reverse the Rust stack. *)
Lemma sql_push (expanded : list string) (seen : gset string) parents st :
  (∀ x, x ∈ seen ↔ x ∈ expanded) →
  reverse (foldl (λ st p, if decide (p ∈ expanded) then st else st ++ [p]) st parents) =
  push_unseen seen parents (reverse st).
Proof.
  intros Hs. unfold push_unseen. revert st. induction parents as [|p ps IH]; intros st; simpl; [done|].
  rewrite IH. f_equal. destruct (decide (p ∈ expanded)), (decide (p ∈ seen)); try (by exfalso; naive_solver).
  - done.
  - by rewrite reverse_snoc.
Qed.

Lemma sql_expand_loop_agrees fuel depth roles (expanded : list string) (seen : gset string) st :
  64 < fuel + depth → (∀ x, x ∈ seen ↔ x ∈ expanded) →
  ∃ out, sql_expand_loop fuel depth roles expanded st = Some out ∧
    ∀ x, x ∈ out ↔ x ∈ expand_loop (64 - depth) roles seen (reverse st).
Proof.
  revert depth expanded seen st. induction fuel as [|fuel IH]; intros depth expanded seen st Hf Hs; simpl.
  - rewrite (bool_decide_false (depth < 64)) by lia. rewrite andb_false_r.
    exists expanded. split; [done|]. intros x. replace (64 - depth) with 0 by lia.
    destruct (reverse st); simpl; by rewrite Hs.
  - destruct (decide (st = [])) as [->|Hne].
    { simpl. exists expanded. split; [done|]. intros x. rewrite <-Hs. by destruct (64 - depth). }
    destruct (exists_last Hne) as (st0 & cur & ->).
    rewrite (bool_decide_true (0 < length _)) by (rewrite length_app; simpl; lia).
    destruct (decide (depth < 64)) as [Hd|Hd]; simpl.
    2:{ rewrite bool_decide_false by done. exists expanded. split; [done|]. intros x.
        replace (64 - depth) with 0 by lia. rewrite reverse_snoc. by rewrite <-Hs. }
    rewrite bool_decide_true by done. rewrite last_snoc.
    replace (length (st0 ++ [cur]) - 1) with (length st0) by (rewrite length_app; simpl; lia).
    rewrite take_app_length. rewrite reverse_snoc.
    replace (64 - depth) with (S (64 - S depth)) by lia. cbn [expand_loop].
    destruct (decide (cur ∈ expanded)), (decide (cur ∈ seen)); try (by exfalso; naive_solver).
    + apply IH; [lia|done].
    + destruct (IH (S depth) (expanded ++ [cur]) ({[cur]} ∪ seen)
        (match roles !! cur with
         | Some parents => foldl (λ st p, if decide (p ∈ expanded ++ [cur]) then st else st ++ [p]) st0 parents
         | None => st0 end)) as (out & Hout & Heq); [lia|set_solver|].
      exists out. split; [done|]. intros x. rewrite Heq.
      destruct (roles !! cur) as [ps|]; [|done].
      by rewrite (sql_push _ ({[cur]} ∪ seen)) by set_solver.
Qed.

(** The two implementations of role expansion expand the same assignments to
    the same set of roles, truncation included. *)
Lemma sql_expand_roles_agrees assigned roles r :
  r ∈ sql_expand_roles assigned roles ↔ r ∈ expand_roles assigned roles.
Proof.
  unfold sql_expand_roles, expand_roles.
  destruct (sql_expand_loop_agrees 65 0 roles [] ∅ assigned) as (out & -> & Hout); [lia|set_solver|].
  apply Hout.
Qed.

(** ** The depth-first search *)

(** Finished roles are closed under inheritance and lie on no cycle. *)
Definition finished (roles : gmap string (list string)) (visited in_stack : gset string) : Prop :=
  in_stack ⊆ visited ∧
  (∀ x y, x ∈ visited ∖ in_stack → inherits roles x y → y ∈ visited ∖ in_stack) ∧
  (∀ x, x ∈ visited ∖ in_stack → ¬ tc (inherits roles) x x).

(** What one call of [dfs_cycle] promises. *)
Definition dfs_post (roles : gmap string (list string)) (node : string) (visited in_stack : gset string)
    (res : option (option string * gset string * gset string)) : Prop :=
  match res with
  | None => False
  | Some (Some c, _, _) => tc (inherits roles) c c
  | Some (None, v, i) => i = in_stack ∧ {[node]} ∪ visited ⊆ v ∧ finished roles v i
  end.

Lemma tc_first {A} (R : relation A) x z : tc R x z → ∃ y, R x y ∧ rtc R y z.
Proof. destruct 1 as [x y H|x y z H H']; eauto using rtc_refl, tc_rtc. Qed.

Lemma rtc_closed {A} (R : relation A) (P : A → Prop) x y :
  (∀ x y, P x → R x y → P y) → P x → rtc R x y → P y.
Proof. intros HP Hx H. induction H; eauto. Qed.

Lemma finished_pop roles v i node :
  finished roles v ({[node]} ∪ i) → node ∉ i →
  (∀ y, inherits roles node y → y ∈ v ∖ ({[node]} ∪ i)) →
  finished roles v i.
Proof.
  intros (Hsub & Hcl & Hac) Hn Hnode. split; [set_solver|]. split.
  - intros x y Hx Hxy. destruct (decide (x = node)) as [->|].
    + apply Hnode in Hxy. set_solver.
    + assert (y ∈ v ∖ ({[node]} ∪ i)) by (apply (Hcl x); set_solver). set_solver.
  - intros x Hx Hc. destruct (decide (x = node)) as [->|]; [|apply (Hac x); set_solver].
    assert (node ∈ v ∖ ({[node]} ∪ i)); [|set_solver].
    apply tc_first in Hc as (y & Hy & Hyx).
    apply (rtc_closed (inherits roles) (λ y, y ∈ v ∖ ({[node]} ∪ i)) y); eauto.
Qed.

Lemma size_diff_lt (U v : gset string) node :
  node ∈ U → node ∉ v → size (U ∖ ({[node]} ∪ v)) < size (U ∖ v).
Proof. intros. apply subset_size. set_solver. Qed.

Lemma stack_pop (i : gset string) node : node ∉ i → ({[node]} ∪ i) ∖ {[node]} = i.
Proof. intros. apply set_eq. set_solver. Qed.

Lemma finished_push roles v i node :
  finished roles v i → node ∉ v → finished roles ({[node]} ∪ v) ({[node]} ∪ i).
Proof.
  intros (Hsub & Hcl & Hac) Hn. split; [set_solver|].
  assert (({[node]} ∪ v) ∖ ({[node]} ∪ i) = v ∖ i) as ->; [|done].
  clear Hcl Hac. apply set_eq. set_solver.
Qed.

Lemma dfs_cycle_spec fuel roles node visited in_stack :
  finished roles visited in_stack → node ∉ visited →
  (∀ x, x ∈ in_stack → rtc (inherits roles) x node) →
  node ∈ universe roles → size (universe roles ∖ visited) < fuel →
  dfs_post roles node visited in_stack (dfs_cycle fuel roles node visited in_stack).
Proof.
  revert node visited in_stack. induction fuel as [|fuel IH]; [lia|].
  intros node visited in_stack Hfin Hnew Hpath Hu Hfuel. cbn [dfs_cycle].
  assert (∀ p, p ∈ parents_of roles node → inherits roles node p) as Hps by done.
  set (each := fix each (parents : list string) (v i : gset string) := _).
  assert (∀ parents v, (∀ p, p ∈ parents → inherits roles node p) →
    (∀ p, inherits roles node p → p ∈ parents ∨ p ∈ v ∖ ({[node]} ∪ in_stack)) →
    {[node]} ∪ visited ⊆ v → finished roles v ({[node]} ∪ in_stack) →
    dfs_post roles node visited in_stack (each parents v ({[node]} ∪ in_stack))) as Heach.
  { induction parents as [|p ps IHps]; intros v Hin Hout Hv Hf; simpl.
    - rewrite stack_pop by (destruct Hfin; set_solver).
      split; [done|]. split; [done|]. apply (finished_pop roles v in_stack node); [done| |].
      + destruct Hfin as [Hsub _]. clear -Hsub Hnew. set_solver.
      + intros y Hy. by destruct (Hout y Hy) as [?%elem_of_nil|].
    - assert (inherits roles node p) as Hp by (apply Hin; by left).
      case_decide as Hst.
      { simpl. apply elem_of_union in Hst as [->%elem_of_singleton|Hst]; [by constructor|].
        eapply tc_rtc_l; [by apply Hpath|by constructor]. }
      assert (∀ q, q ∈ ps → inherits roles node q) as Hin' by (intros q Hq; apply Hin; by right).
      case_decide as Hvis.
      { apply IHps; [done| |done|done]. intros q Hq.
        destruct (Hout q Hq) as [[->|]%elem_of_cons|]; [right|by left|by right].
        clear -Hvis Hst. set_solver. }
      assert (dfs_post roles p v ({[node]} ∪ in_stack) (dfs_cycle fuel roles p v ({[node]} ∪ in_stack))) as Hpost.
      { apply IH; [done|done| | |].
        - intros x [->%elem_of_singleton|Hx]%elem_of_union; [by apply rtc_once|].
          eapply rtc_r; [by apply Hpath|done].
        - by apply inherits_universe in Hp as [_ ?].
        - assert (size (universe roles ∖ v) ≤ size (universe roles ∖ ({[node]} ∪ visited)))
            by (apply subseteq_size; clear -Hv; set_solver).
          pose proof (size_diff_lt (universe roles) visited node Hu Hnew). lia. }
      destruct (dfs_cycle fuel roles p v ({[node]} ∪ in_stack)) as [[[[c|] v'] i']|]; simpl in Hpost; [done| |done].
      destruct Hpost as (-> & Hsub & Hf'). apply IHps; [done| |clear -Hv Hsub; set_solver|done].
      intros q Hq. destruct (Hout q Hq) as [[->|]%elem_of_cons|Hqv]; [right|by left|right];
        clear Hout IHps IH Hfin Hf Hf'; set_solver. }
  apply Heach; [done|by left|done|by apply finished_push].
Qed.

Lemma detect_cycle_from_spec fuel roles keys visited :
  finished roles visited ∅ → size (universe roles) < fuel →
  (∀ k, k ∈ keys → k ∈ universe roles) →
  match detect_cycle_from fuel roles keys visited ∅ with
  | None => False
  | Some (Some c) => tc (inherits roles) c c
  | Some None => ∃ v, finished roles v ∅ ∧ visited ⊆ v ∧ ∀ k, k ∈ keys → k ∈ v
  end.
Proof.
  intros Hfin Hfuel. revert visited Hfin.
  induction keys as [|k keys IH]; intros visited Hfin Hkeys; simpl.
  { exists visited. split; [done|]. split; [done|]. intros k Hk. by apply elem_of_nil in Hk. }
  assert (∀ k, k ∈ keys → k ∈ universe roles) as Hkeys' by (intros; apply Hkeys; by right).
  case_decide as Hk.
  - specialize (IH visited Hfin Hkeys').
    destruct (detect_cycle_from fuel roles keys visited ∅) as [[c|]|]; [done| |done].
    destruct IH as (v & Hv & Hsub & Hall). exists v. split; [done|]. split; [done|].
    intros x [->|Hx]%elem_of_cons; [by apply Hsub|by apply Hall].
  - assert (dfs_post roles k visited ∅ (dfs_cycle fuel roles k visited ∅)) as Hpost.
    { apply dfs_cycle_spec; [done|done|set_solver|apply Hkeys; by left|].
      eapply Nat.le_lt_trans; [|done]. apply subseteq_size. set_solver. }
    destruct (dfs_cycle fuel roles k visited ∅) as [[[[c|] v'] i']|]; simpl in *; [done| |done].
    destruct Hpost as (-> & Hsub' & Hf'). specialize (IH v' Hf' Hkeys').
    destruct (detect_cycle_from fuel roles keys v' ∅) as [[c|]|]; [done| |done].
    destruct IH as (v & Hv & Hsub & Hall). exists v. split; [done|]. split; [set_solver|].
    intros x [->|Hx]%elem_of_cons; [|by apply Hall]. set_solver.
Qed.

Lemma finished_empty roles : finished roles ∅ ∅.
Proof. split; [done|]. split; set_solver. Qed.

Lemma detect_cycle_in_spec keys roles :
  (∀ k, k ∈ keys ↔ k ∈ dom roles) →
  match detect_cycle_in keys roles with
  | None => False
  | Some (Some c) => tc (inherits roles) c c
  | Some None => acyclic roles
  end.
Proof.
  intros Hkeys. unfold detect_cycle_in.
  pose proof (detect_cycle_from_spec (S (size (universe roles))) roles keys ∅ (finished_empty roles)) as H.
  destruct (detect_cycle_from _ roles keys ∅ ∅) as [[c|]|].
  1,3: apply H; [lia|]; intros k Hk; apply Hkeys in Hk; unfold universe; set_solver.
  destruct H as (v & (_ & Hcl & Hac) & _ & Hall);
    [lia|intros k Hk; apply Hkeys in Hk; unfold universe; set_solver|].
  intros r Hr. apply (Hac r); [|done].
  apply tc_first in Hr as (y & Hy & _).
  assert (r ∈ dom roles) as Hd.
  { unfold inherits, parents_of in Hy. destruct (roles !! r) eqn:Hr; [by apply elem_of_dom|].
    simpl in Hy. by apply elem_of_nil in Hy. }
  apply Hkeys, Hall in Hd. set_solver.
Qed.

(** Cycle detection is total and decides acyclicity, whatever order the
    roles are visited in: it never runs out of fuel, a reported role lies on a
    cycle, and no report means the hierarchy is acyclic. *)
Theorem detect_cycle_decides keys roles :
  (∀ k, k ∈ keys ↔ k ∈ dom roles) →
  ∃ res, detect_cycle_in keys roles = Some res ∧
    (∀ c, res = Some c → tc (inherits roles) c c) ∧ (res = None ↔ acyclic roles).
Proof.
  intros Hkeys. pose proof (detect_cycle_in_spec keys roles Hkeys) as H.
  destruct (detect_cycle_in keys roles) as [[c|]|]; [| |done].
  - exists (Some c). split; [done|]. split; [by intros ? [= <-]|].
    split; [done|]. intros Ha. by apply Ha in H.
  - exists None. by split.
Qed.

Lemma detect_cycle_decides_witness :
  (∀ k, k ∈ ["a"; "b"] ↔ k ∈ dom ({["a" := ["b"]; "b" := ["a"]]} : gmap string (list string))) ∧
  ∃ res, detect_cycle_in ["a"; "b"] {["a" := ["b"]; "b" := ["a"]]} = Some res.
Proof.
  assert (∀ k, k ∈ ["a"; "b"] ↔ k ∈ dom ({["a" := ["b"]; "b" := ["a"]]} : gmap string (list string))) as H
    by set_solver.
  split; [exact H|]. destruct (detect_cycle_decides _ _ H) as (res & Hr & _). by exists res.
Defined.

Lemma detect_cycle_None roles : detect_cycle roles = None ↔ acyclic roles.
Proof.
  unfold detect_cycle.
  assert (∀ k, k ∈ (map_to_list roles).*1 ↔ k ∈ dom roles) as Hk.
  { intros k. rewrite elem_of_dom. split.
    - intros ([k' v] & -> & Hv)%list_elem_of_fmap. apply elem_of_map_to_list in Hv. eauto.
    - intros [v Hv]. apply list_elem_of_fmap. exists (k, v). split; [done|by apply elem_of_map_to_list]. }
  pose proof (detect_cycle_in_spec _ roles Hk) as H.
  destruct (detect_cycle_in _ roles) as [[c|]|]; [| |done].
  - split; [done|]. intros Ha. by apply Ha in H.
  - done.
Qed.
