(* ===== verification/Authority.v ===== *)
(** * Authority (core/src/governance/authority/{policy,routes}.rs)

    The RBAC tables, the resolution of a principal's permissions, the narrowing
    used for delegation, the plpgsql gate row-level security runs, and the role
    administration handlers as a state machine over the tables and the running
    workers. *)

From stdpp Require Import base strings list sets gmap sorting relations.
From S2P Require Import Prelude Str Perms Roles.

(** A UUID, in its canonical hyphenated form. *)
Notation uuid := string (only parsing).

Inductive ApiError :=
| NotFound (msg : string)
| BadRequest (msg : string)
| Unauthorized (msg : string)
| Forbidden (msg : string)
| Conflict (msg : string)
| NotReady
| Unavailable (msg : string)
| Internal (msg : string)
| RuleViolation (entity rule : string)
| UniqueViolation (entity index : string).

(** ** Tables *)

(** A row of [rootcx_system.rbac_roles], keyed by [name]. *)
Record RoleRow := {
  description : option string;
  role_inherits : list string;
  role_permissions : list string
}.

(** A row of [rootcx_system.users], keyed by [id]. *)
Record UserRow := { email : string; kind : string; disabled : bool }.

Record Db := {
  users : gmap uuid UserRow;
  public_execution_principals : gset uuid;
  rbac_roles : gmap string RoleRow;
  (** [PRIMARY KEY (user_id, role)]; the list is the order rows are scanned in. *)
  rbac_assignments : list (uuid * string)
}.

Inductive Table := Users | PublicPrincipals | RbacRoles | RbacAssignments | Delegations.

(** The connection pool: the database, and the error each table's queries
    currently fail with, if any. *)
Record Pool := { db : Db; fault : Table → option string }.

Definition fetch {A} (t : Table) (pool : Pool) (rows : A) : result ApiError A :=
  match fault pool t with Some e => Err (Internal e) | None => Ok rows end.

Definition assigned_roles (d : Db) (user_id : uuid) : list string :=
  (filter (λ row, row.1 = user_id) (rbac_assignments d)).*2.

Definition hierarchy (roles : gmap string RoleRow) : gmap string (list string) :=
  role_inherits <$> roles.

Definition permissions_of (roles : gmap string RoleRow) (role : string) : list string :=
  match roles !! role with Some row => role_permissions row | None => [] end.

Definition perm_set (roles : gmap string RoleRow) (expanded : gset string) : gset string :=
  ⋃ ((λ r, list_to_set (permissions_of roles r)) <$> elements expanded).

(** ** Resolution (policy.rs) *)

Definition resolve_permissions (pool : Pool) (user_id : uuid) : result ApiError (list string * list string) :=
  let? assigned_names := fetch RbacAssignments pool (assigned_roles (db pool) user_id) in
  match assigned_names with
  | [] => Ok ([], [])
  | _ =>
      let? rows := fetch RbacRoles pool (rbac_roles (db pool)) in
      let expanded := expand_roles assigned_names (hierarchy rows) in
      Ok (sort_strings (elements expanded), sort_strings (elements (perm_set rows expanded)))
  end.

(** The plpgsql functions [match_permission], [resolve_permissions] and
    [has_permission] of bootstrap.rs. *)
Definition sql_right (s : string) (n : nat) : string := String.substring (String.length s - n) n s.
Definition sql_left (s : string) (n : nat) : string := String.substring 0 n s.

Fixpoint match_permission (p_perms : list string) (p_required : string) : bool :=
  match p_perms with
  | [] => false
  | p :: rest =>
      if decide (p = "*") then true
      else if decide (p = p_required) then true
      else
        (if decide (sql_right p 2 = ":*") then
           let prefix := sql_left p (String.length p - 2) in
           bool_decide (sql_left p_required (String.length prefix) = prefix) &&
           bool_decide (String.substring (String.length prefix) 1 p_required = ":")
         else false) || match_permission rest p_required
  end.

Definition sql_resolve_permissions (d : Db) (user_id : uuid) : list string :=
  match assigned_roles d user_id with
  | [] => []
  | assigned =>
      let all_roles := sql_expand_roles assigned (hierarchy (rbac_roles d)) in
      elements (list_to_set (C := gset string)
        (map_to_list (rbac_roles d) ≫= λ kv, if decide (kv.1 ∈ all_roles) then role_permissions kv.2 else []))
  end.

Definition has_permission_db (pool : Pool) (user_id : uuid) (required : string) : result ApiError bool :=
  try? fetch RbacAssignments pool tt in
  try? fetch RbacRoles pool tt in
  Ok (match_permission (sql_resolve_permissions (db pool) user_id) required).

Definition role_exists (pool : Pool) (name : string) : result ApiError bool :=
  fetch RbacRoles pool (bool_decide (is_Some (rbac_roles (db pool) !! name))).

Definition require_perm (pool : Pool) (user_id : uuid) (perm : string) : result ApiError unit :=
  let? held := has_permission_db pool user_id perm in
  if held : bool then Ok tt else Err (Forbidden ("permission denied: " +:+ perm)).

Definition require_admin (pool : Pool) (user_id : uuid) : result ApiError unit :=
  let? '(_, perms) := resolve_permissions pool user_id in
  if existsb (λ p, bool_decide (p = "*")) perms then Ok tt
  else Err (Forbidden "admin access required").

(** [.map(|(_, p)| p).unwrap_or_default()] *)
Definition perms_or_none (pool : Pool) (user_id : uuid) : list string :=
  match resolve_permissions pool user_id with Ok (_, p) => p | Err _ => [] end.

Definition effective_for_pair (pool : Pool) (agent_uid delegator_uid : uuid) : list string :=
  intersect_permissions (perms_or_none pool agent_uid) (perms_or_none pool delegator_uid).

Definition effective_under_parent (pool : Pool) (child_agent_uid : uuid) (parent_perms : list string) : list string :=
  intersect_permissions (perms_or_none pool child_agent_uid) parent_perms.

Definition delegated_effective (pool : Pool) (agent_uid : uuid)
    (invoker_user_id : option uuid) (parent_perms : option (list string)) : list string :=
  match parent_perms with
  | Some pp => effective_under_parent pool agent_uid pp
  | None => match invoker_user_id with
            | Some uid => effective_for_pair pool agent_uid uid
            | None => []
            end
  end.

(** [entities]: the entity names of the app's data contract. *)
Definition share_read_perms (pool : Pool) (app_id : string) (creator_id : uuid) (entities : list string)
    : result ApiError (list string) :=
  let? '(_, creator_perms) := resolve_permissions pool creator_id in
  Ok (omap (λ e, meet ("app:" +:+ app_id +:+ ":" +:+ e +:+ ".read") creator_perms) entities).

(** [principal_enabled] (core/src/auth/identity.rs): deny by default. *)
Definition principal_enabled (pool : Pool) (uid : uuid) : bool :=
  match fault pool Users, fault pool PublicPrincipals with
  | None, None =>
      match users (db pool) !! uid with
      | Some u => negb (disabled u) && bool_decide (uid ∉ public_execution_principals (db pool))
      | None => false
      end
  | _, _ => false
  end.

(** ** The two permission gates agree *)

Lemma substring_app s t : String.substring 0 (String.length s) (s +:+ t) = s.
Proof. induction s as [|c s IH]; [by destruct t|]. rewrite str_app_cons. simpl. by rewrite IH. Qed.

Lemma substring_skip s t n : String.substring (String.length s) n (s +:+ t) = String.substring 0 n t.
Proof. induction s as [|c s IH]; [done|]. rewrite str_app_cons. simpl. apply IH. Qed.

Lemma substring_0_split n s : ∃ r, s = String.substring 0 n s +:+ r.
Proof.
  revert n. induction s as [|c s IH]; intros [|n]; simpl; [by exists ""..|by exists (String c s)|].
  destruct (IH n) as [r Hr]. exists r. rewrite str_app_cons. by f_equal.
Qed.

Lemma sql_right_suffix p suf : sql_right p (String.length suf) = suf ↔ ∃ pre, p = pre +:+ suf.
Proof.
  unfold sql_right. split.
  - intros H.
    assert (∀ n s, n ≤ String.length s → ∃ a, s = a +:+ String.substring (n) (String.length s - n) s) as Hs.
    { induction n as [|n IHn]; intros s Hn.
      - exists "". rewrite Nat.sub_0_r, str_app_nil_l.
        rewrite <-(str_app_nil_r s) at 3. by rewrite substring_app.
      - destruct s as [|c s]; simpl in *; [lia|].
        destruct (IHn s) as [a Ha]; [lia|]. exists (String c a). rewrite str_app_cons. by f_equal. }
    destruct (decide (String.length suf ≤ String.length p)) as [Hl|Hl].
    + destruct (Hs (String.length p - String.length suf) p) as [a Ha]; [lia|].
      exists a. rewrite Ha at 1. f_equal.
      replace (String.length p - (String.length p - String.length suf)) with (String.length suf) by lia. done.
    + exists "". rewrite str_app_nil_l.
      replace (String.length p - String.length suf) with 0 in H by lia.
      assert (String.length (String.substring 0 (String.length suf) p) ≤ String.length p) as Hlen.
      { destruct (substring_0_split (String.length suf) p) as [r Hr].
        apply (f_equal String.length) in Hr. rewrite str_length_app in Hr. lia. }
      rewrite H in Hlen. lia.
  - intros [pre ->]. rewrite str_length_app.
    replace (String.length pre + String.length suf - String.length suf) with (String.length pre) by lia.
    rewrite substring_skip. rewrite <-(str_app_nil_r suf) at 2. apply substring_app.
Qed.

Lemma match_permission_has p_perms r : match_permission p_perms r = has_permission p_perms r.
Proof.
  induction p_perms as [|p ps IH]; [done|]. cbn [match_permission].
  assert (has_permission (p :: ps) r = key_covers p r || has_permission ps r) as -> by done.
  rewrite IH. unfold key_covers.
  destruct (decide (p = "*")) as [->|Hs]; [done|]. rewrite (bool_decide_false (p = "*")) by done. simpl.
  destruct (decide (p = r)) as [->|Hr]; [by rewrite (bool_decide_true (r = r))|].
  rewrite (bool_decide_false (p = r)) by done. simpl. f_equal.
  destruct (strip_suffix ":*" p) as [pre|] eqn:Hp.
  - apply strip_suffix_Some in Hp as ->.
    rewrite decide_True by (apply (sql_right_suffix _ ":*"); by exists pre).
    unfold sql_left. rewrite str_length_app. simpl.
    replace (String.length pre + 2 - 2) with (String.length pre) by lia.
    rewrite substring_app.
    destruct (starts_with pre r) eqn:Hst; simpl.
    + apply starts_with_iff in Hst as [rest ->]. rewrite substring_app, substring_skip, byte_at_app.
      rewrite bool_decide_true by done. simpl.
      destruct rest as [|c rest]; [done|]. simpl.
      assert (String.substring 0 0 rest = "") as -> by by destruct rest.
      apply bool_decide_ext. unfold byte_at. simpl. split; congruence.
    + rewrite bool_decide_false; [done|]. intros He.
      destruct (substring_0_split (String.length pre) r) as [rest Hrest]. rewrite He in Hrest.
      assert (starts_with pre r = true) by (apply starts_with_iff; eauto). congruence.
  - rewrite decide_False; [done|]. intros H. apply (sql_right_suffix _ ":*") in H as [pre ->].
    assert (strip_suffix ":*" (pre +:+ ":*") = Some pre) by by apply strip_suffix_Some. congruence.
Qed.

Lemma has_permission_ext P Q r : (∀ p, p ∈ P ↔ p ∈ Q) → has_permission P r = has_permission Q r.
Proof.
  intros H. apply eq_true_iff_eq. rewrite !has_permission_iff. by setoid_rewrite H.
Qed.

Lemma elem_of_perm_set roles expanded p :
  p ∈ perm_set roles expanded ↔ ∃ r row, r ∈ expanded ∧ roles !! r = Some row ∧ p ∈ role_permissions row.
Proof.
  unfold perm_set. rewrite elem_of_union_list. setoid_rewrite list_elem_of_fmap.
  unfold permissions_of. split.
  - intros (X & (r & -> & Hr%elem_of_elements) & Hp). rewrite elem_of_list_to_set in Hp.
    destruct (roles !! r) as [row|] eqn:E; [|by apply elem_of_nil in Hp]. by exists r, row.
  - intros (r & row & Hr & Hrow & Hp). eexists. split; [exists r; split; [done|by apply elem_of_elements]|].
    rewrite Hrow. by apply elem_of_list_to_set.
Qed.

Lemma elem_of_sql_resolve d u p :
  assigned_roles d u ≠ [] →
  p ∈ sql_resolve_permissions d u ↔
  p ∈ perm_set (rbac_roles d) (expand_roles (assigned_roles d u) (hierarchy (rbac_roles d))).
Proof.
  intros Hne. unfold sql_resolve_permissions. destruct (assigned_roles d u) as [|a l]; [done|].
  rewrite elem_of_elements, elem_of_list_to_set, list_elem_of_bind, elem_of_perm_set. split.
  - intros ([r row] & Hp & Hrow%elem_of_map_to_list). simpl in Hp.
    case_decide as Hr; [|by apply elem_of_nil in Hp].
    exists r, row. split; [by apply sql_expand_roles_agrees|done].
  - intros (r & row & Hr & Hrow & Hp). exists (r, row). split; [|by apply elem_of_map_to_list].
    simpl. rewrite decide_True; [done|by apply sql_expand_roles_agrees].
Qed.

Lemma resolve_permissions_ok pool u roles perms :
  resolve_permissions pool u = Ok (roles, perms) →
  ∀ p, p ∈ perms ↔ assigned_roles (db pool) u ≠ [] ∧
    p ∈ perm_set (rbac_roles (db pool)) (expand_roles (assigned_roles (db pool) u) (hierarchy (rbac_roles (db pool)))).
Proof.
  unfold resolve_permissions, fetch. intros H p.
  destruct (fault pool RbacAssignments); simpl in H; [done|].
  destruct (assigned_roles (db pool) u) as [|a l] eqn:E.
  - injection H as <- <-. split; [by intros ?%elem_of_nil|by intros [? _]].
  - destruct (fault pool RbacRoles); simpl in H; [done|]. injection H as <- <-.
    rewrite elem_of_sort_strings, elem_of_elements. naive_solver.
Qed.

Lemma has_permission_db_resolved pool user_id required roles perms :
  resolve_permissions pool user_id = Ok (roles, perms) → fault pool RbacRoles = None →
  has_permission_db pool user_id required = Ok (has_permission perms required).
Proof.
  intros Hres Hf. pose proof (resolve_permissions_ok _ _ _ _ Hres) as Hperms.
  unfold has_permission_db, fetch. rewrite Hf.
  destruct (fault pool RbacAssignments) eqn:Ha.
  { unfold resolve_permissions, fetch in Hres. by rewrite Ha in Hres. }
  simpl. f_equal. rewrite match_permission_has. apply has_permission_ext. intros p. rewrite Hperms.
  destruct (decide (assigned_roles (db pool) user_id = [])) as [E|E].
  - unfold sql_resolve_permissions. rewrite E. split; [by intros ?%elem_of_nil|by intros [? _]].
  - rewrite elem_of_sql_resolve by done. naive_solver.
Qed.

(** Row-level security and the Core answer alike: whenever a principal's
    permissions resolve, the plpgsql gate [rootcx_system.has_permission] grants a
    requirement exactly when the Rust matcher does on the resolved set. *)
Theorem has_permission_db_agrees pool user_id required roles perms :
  resolve_permissions pool user_id = Ok (roles, perms) → fault pool RbacRoles = None →
  has_permission_db pool user_id required = Ok (has_permission perms required).
Proof. apply has_permission_db_resolved. Qed.

Definition demo_db : Db := {|
  users := {["u1" := {| email := "a@b.c"; kind := "human"; disabled := false |}]};
  public_execution_principals := ∅;
  rbac_roles := {["admin" := {| description := None; role_inherits := []; role_permissions := ["*"] |};
                  "editor" := {| description := None; role_inherits := ["viewer"]; role_permissions := ["app:crm:c.update"] |};
                  "viewer" := {| description := None; role_inherits := []; role_permissions := ["app:crm:c.read"] |}]};
  rbac_assignments := [("u1", "editor"); ("root", "admin")] |}.
Definition demo_pool : Pool := {| db := demo_db; fault := λ _, None |}.

Lemma has_permission_db_agrees_witness :
  resolve_permissions demo_pool "u1" = Ok (["editor"; "viewer"], ["app:crm:c.read"; "app:crm:c.update"]) ∧
  has_permission_db demo_pool "u1" "app:crm:c.read" = Ok true.
Proof.
  split; [vm_compute; reflexivity|].
  exact (has_permission_db_agrees demo_pool "u1" "app:crm:c.read" ["editor"; "viewer"]
    ["app:crm:c.read"; "app:crm:c.update"] ltac:(vm_compute; reflexivity) eq_refl).
Defined.

(** ** Delegated authority *)

Lemma intersect_nil_l b : intersect_permissions [] b = [].
Proof.
  unfold intersect_permissions. simpl. destruct (existsb _ b); [done|].
  assert (omap (λ p, meet p []) b = []) as ->; [|done].
  induction b as [|p b IH]; [done|]. simpl.
  assert (meet p [] = None) as ->; [|done].
  unfold meet. simpl. destruct (_ || _); [|done]. by destruct (rsplit_once _ _) as [[]|].
Qed.

Lemma intersect_nil_r a : intersect_permissions a [] = [].
Proof.
  unfold intersect_permissions. simpl. destruct (existsb _ a) eqn:E; [done|].
  rewrite app_nil_r.
  assert (omap (λ p, meet p []) a = []) as ->; [|done].
  clear E. induction a as [|p a IH]; [done|]. simpl.
  assert (meet p [] = None) as ->; [|done].
  unfold meet. simpl. destruct (_ || _); [|done]. by destruct (rsplit_once _ _) as [[]|].
Qed.

(** A delegated run never exceeds any party to it: whatever
    [delegated_effective] allows, the agent's own grant allows, and so does the
    frozen parent ceiling (or, without a parent, the invoking human's grant);
    with neither a parent nor an invoker it allows nothing. *)
Theorem delegated_effective_narrows pool agent invoker parent r :
  Allows (delegated_effective pool agent invoker parent) r →
  Allows (perms_or_none pool agent) r ∧
  match parent, invoker with
  | Some pp, _ => Allows pp r
  | None, Some uid => Allows (perms_or_none pool uid) r
  | None, None => False
  end.
Proof.
  unfold delegated_effective, effective_under_parent, effective_for_pair.
  destruct parent as [pp|]; [apply intersect_allows|].
  destruct invoker as [uid|]; [apply intersect_allows|].
  intros H. exfalso. remember [] as P eqn:E. induction H; subst; [done|eauto].
Qed.

Lemma delegated_effective_narrows_witness :
  Allows (delegated_effective demo_pool "u1" (Some "root") None) "app:crm:c.read" ∧
  Allows (perms_or_none demo_pool "u1") "app:crm:c.read".
Proof.
  assert (Allows (delegated_effective demo_pool "u1" (Some "root") None) "app:crm:c.read") as H
    by (constructor; vm_compute; reflexivity).
  split; [exact H|]. apply (delegated_effective_narrows _ _ _ _ _ H).
Defined.

(** Delegation fails closed: when either principal's permissions cannot be
    read, the pair's effective authority is empty. *)
Theorem effective_for_pair_fails_closed pool agent delegator e :
  resolve_permissions pool agent = Err e ∨ resolve_permissions pool delegator = Err e →
  effective_for_pair pool agent delegator = [].
Proof.
  unfold effective_for_pair, perms_or_none.
  intros [-> | ->]; [apply intersect_nil_l|apply intersect_nil_r].
Qed.

Lemma effective_for_pair_fails_closed_witness :
  effective_for_pair {| db := demo_db; fault := λ t, match t with RbacRoles => Some "down" | _ => None end |}
    "u1" "root" = [].
Proof.
  apply (effective_for_pair_fails_closed _ _ _ (Internal "down")). left. vm_compute. reflexivity.
Defined.

(** A public share never reads more than its creator: every key of
    [share_read_perms] is allowed to the creator and names the read of a declared
    entity, at table or at row scope. *)
Theorem share_read_perms_bounded pool app creator entities perms k :
  share_read_perms pool app creator entities = Ok perms → k ∈ perms →
  Allows (perms_or_none pool creator) k ∧
  ∃ e, e ∈ entities ∧ let key := "app:" +:+ app +:+ ":" +:+ e +:+ ".read" in k = key ∨ k = key +:+ ".own".
Proof.
  unfold share_read_perms, perms_or_none. intros H Hk. inv_ok. destruct a as [roles P]. inv_ok. subst perms.
  rewrite Hok. apply list_elem_of_omap in Hk as (e & He & Hm). split.
  - eapply meet_sound; [|done]. by apply list_elem_of_singleton.
  - exists e. split; [done|]. revert Hm. cbv zeta. unfold meet.
    set (key := "app:" +:+ app +:+ ":" +:+ e +:+ ".read").
    destruct (has_permission P key); [intros [= <-]; by left|].
    destruct (ends_with ".own" key || ends_with ".shared" key).
    + destruct (rsplit_once "." key) as [[b t]|]; [|done].
      destruct (has_permission P b); [|done]. intros [= <-]. by left.
    + destruct (has_permission P (key +:+ ".own")); [|done]. intros [= <-]. by right.
Qed.

Lemma share_read_perms_bounded_witness :
  share_read_perms demo_pool "crm" "u1" ["c"; "d"] = Ok ["app:crm:c.read"] ∧
  Allows (perms_or_none demo_pool "u1") "app:crm:c.read".
Proof.
  assert (share_read_perms demo_pool "crm" "u1" ["c"; "d"] = Ok ["app:crm:c.read"]) as H
    by (vm_compute; reflexivity).
  split; [exact H|]. apply (share_read_perms_bounded _ _ _ _ _ _ H). by left.
Defined.
