(* ===== verification/Procs.v ===== *)
(** * Programs of transactions

    A handler runs one transaction or query after another on the state of the
    database, and anything else may run in between.  A program is its steps; a run is
    a program among the steps of everything else. *)

From stdpp Require Import base relations list.
From S2P Require Import Prelude Authority.

Inductive Proc (S A : Type) :=
| Stop (a : A)
| Step (f : S → S * Proc S A).
Arguments Stop {S A} a.
Arguments Step {S A} f.

Section Programs.
Context {S : Type}.
Fixpoint bindP {A B : Type} (p : Proc S (result ApiError A)) (k : A → Proc S (result ApiError B)) : Proc S (result ApiError B) :=
  match p with
  | Stop (Ok a) => k a
  | Stop (Err e) => Stop (Err e)
  | Step f => Step (λ x, let '(x', p') := f x in (x', bindP p' k))
  end.
(** A transaction, a query, and a decision without either. *)
Definition atomic {A : Type} (f : S → S * A) : Proc S A := Step (λ x, let '(x', a) := f x in (x', Stop a)).
Definition query {A : Type} (f : S → A) : Proc S A := atomic (λ x, (x, f x)).
Definition pure {A : Type} (r : result ApiError A) : Proc S (result ApiError A) := Stop r.

Section ProcInd.
Context {A : Type} (P : Proc S A → Prop) (Hstop : ∀ a, P (Stop a)) (Hstep : ∀ f, (∀ x, P (f x).2) → P (Step f)).
Fixpoint proc_ind (p : Proc S A) : P p :=
  match p with
  | Stop a => Hstop a
  | Step f => Hstep f (λ x, proc_ind (f x).2)
  end.
End ProcInd.

(** What else may happen to the state. *)
Context (step : S → S → Prop).
Inductive runs {A : Type} : Proc S A → S → S → A → Prop :=
| runs_stop r x x' : rtc step x x' → runs (Stop r) x x' r
| runs_step f x x1 x2 p x' r : rtc step x x1 → f x1 = (x2, p) → runs p x2 x' r → runs (Step f) x x' r.

Lemma runs_bind {A B : Type} (p : Proc S (result ApiError A)) (k : A → Proc S (result ApiError B)) x x' b :
  runs (bindP p k) x x' (Ok b) → ∃ a x1, runs p x x1 (Ok a) ∧ runs (k a) x1 x' (Ok b).
Proof.
  revert x. induction p as [[a|e]|f IH] using proc_ind; intros x Hr; cbn [bindP] in Hr.
  - exists a, x. split; [by constructor|done].
  - inversion Hr.
  - inversion Hr as [|g y x1 x2 p y' r H1 H2 H3]; subst. destruct (f x1) as [x3 p3] eqn:E. injection H2 as -> <-.
    specialize (IH x1). rewrite E in IH. destruct (IH _ H3) as (a & x4 & Ha & Hk). exists a, x4. split; [by econstructor|done].
Qed.
Lemma runs_atomic {A : Type} (f : S → S * A) x x' r :
  runs (atomic f) x x' r → ∃ x1, rtc step x x1 ∧ (f x1).2 = r ∧ rtc step (f x1).1 x'.
Proof.
  unfold atomic. intros Hr. inversion Hr as [|g y x1 x2 p y' r' H1 H2 H3]; subst. destruct (f x1) as [x3 a] eqn:E. injection H2 as -> <-.
  inversion H3; subst. exists x1. by rewrite E.
Qed.
Lemma runs_query {A : Type} (f : S → A) x x' r : runs (query f) x x' r → ∃ x1, rtc step x x1 ∧ f x1 = r ∧ rtc step x1 x'.
Proof. intros (x1 & H1 & H2 & H3)%runs_atomic. exists x1. done. Qed.
Lemma runs_pure {A : Type} (r r' : result ApiError A) x x' : runs (pure r) x x' r' → r' = r ∧ rtc step x x'.
Proof. intros Hr. by inversion Hr. Qed.

(** A program run alone to its end; a program is finite, so it has one. *)
Fixpoint run_alone {A : Type} (p : Proc S A) (x : S) : A * S :=
  match p with
  | Stop a => (a, x)
  | Step f => let '(x', p') := f x in run_alone p' x'
  end.
Lemma run_alone_bind {A B : Type} (p : Proc S (result ApiError A)) (k : A → Proc S (result ApiError B)) x :
  run_alone (bindP p k) x = match run_alone p x with (Ok a, x') => run_alone (k a) x' | (Err e, x') => (Err e, x') end.
Proof.
  revert x. induction p as [[a|e]|f IH] using proc_ind; intros x; cbn [bindP run_alone]; [done..|].
  specialize (IH x). destruct (f x) as [x' p']. apply IH.
Qed.

(** A program every step of which keeps [I], whatever the state it finds. *)
Fixpoint keeps {A : Type} (I : S → Prop) (p : Proc S A) : Prop :=
  match p with
  | Stop _ => True
  | Step f => ∀ x, I x → I (f x).1 ∧ keeps I (f x).2
  end.
Lemma keeps_andOk {A B : Type} I (p : Proc S (result ApiError A)) (k : A → Proc S (result ApiError B)) :
  keeps I p → (∀ a, keeps I (k a)) → keeps I (bindP p k).
Proof.
  intros Hp Hk. induction p as [[a|e]|f IH] using proc_ind; cbn [bindP keeps] in *; [apply Hk|done|].
  intros x Hx. specialize (IH x). destruct (Hp x Hx) as [H1 H2]. destruct (f x) as [x' p']. split; [done|by apply IH].
Qed.
Lemma keeps_query {A : Type} I (f : S → A) : keeps I (query f).
Proof. intros x Hx. by split. Qed.

(** A program run alone, with a bound on its steps. *)
Fixpoint exec {A : Type} (n : nat) (p : Proc S A) (x : S) : option (S * A) :=
  match p with
  | Stop a => Some (x, a)
  | Step f => match n with O => None | Datatypes.S n => exec n (f x).2 (f x).1 end
  end.
Lemma exec_runs {A : Type} n (p : Proc S A) x x' r : exec n p x = Some (x', r) → runs p x x' r.
Proof.
  revert p x. induction n as [|n IH]; intros [a|f] x; cbn [exec]; try done; try (by intros [= <- <-]; constructor).
  intros E%IH. destruct (f x) as [x1 p1] eqn:Hf. by econstructor.
Qed.
End Programs.

(** ** Many programs at once

    The programs that were started, each as far as it has come; one that is left
    where it is (its client went away) is one that is never moved again. *)

Record Busy (S A : Type) := { now : S; started : list (Proc S A) }.
Arguments now {S A} _.
Arguments started {S A} _.

Section Interleaving.
Context {S A : Type} (request : Proc S A → Prop).
Inductive bstep : Busy S A → Busy S A → Prop :=
| b_arrive x l p : request p → bstep {| now := x; started := l |} {| now := x; started := l ++ [p] |}
| b_go x l f l' : bstep {| now := x; started := l ++ Step f :: l' |} {| now := (f x).1; started := l ++ (f x).2 :: l' |}.

Lemma interleaving_keeps (I : S → Prop) x b :
  (∀ p, request p → keeps I p) → I x → rtc bstep {| now := x; started := [] |} b → I (now b).
Proof.
  intros Hreq Hx Hb.
  assert (∀ b0, I (now b0) ∧ Forall (keeps I) (started b0) → rtc bstep b0 b → I (now b)) as H.
  { clear Hb. intros b0 H0 Hr. induction Hr as [b0|b0 b1 b2 Hs _ IH]; [by apply H0|]. apply IH.
    destruct Hs as [y l p Hp|y l f l']; cbn [now started] in *; destruct H0 as [Hy Hl].
    - split; [done|]. apply Forall_app. auto.
    - apply Forall_app in Hl as [H1 [Hf H2]%Forall_cons]. destruct (Hf y Hy) as [H3 H4].
      split; [done|]. apply Forall_app. auto. }
  eapply H; [|exact Hb]. by split; [|constructor].
Qed.
End Interleaving.

(** A program on a part of a larger state. *)
Section Zoom.
Context {W S : Type} (get : W → S) (put : S → W → W).
Fixpoint zoom {A : Type} (p : Proc S A) : Proc W A :=
  match p with
  | Stop a => Stop a
  | Step f => Step (λ w, let '(x, p') := f (get w) in (put x w, zoom p'))
  end.
Context (env : W → W → Prop) (step : S → S → Prop).
Hypothesis get_put : ∀ x w, get (put x w) = x.
Hypothesis env_step : ∀ w w', rtc env w w' → rtc step (get w) (get w').
Lemma runs_zoom {A : Type} (p : Proc S A) w w' r : runs env (zoom p) w w' r → runs step p (get w) (get w') r.
Proof using get_put env_step.
  revert w. induction p as [a|f IH] using proc_ind; intros w Hr; cbn [zoom] in Hr.
  - inversion Hr; subst. constructor. by apply env_step.
  - inversion Hr as [|g y w1 w2 q y' r' H1 H2 H3]; subst. destruct (f (get w1)) as [x p'] eqn:E. injection H2 as <- <-.
    specialize (IH (get w1)). rewrite E in IH. apply IH in H3. rewrite get_put in H3. econstructor; [by apply env_step|exact E|exact H3].
Qed.
End Zoom.

(** ** Programs with a fate

    A step may fail in ways its fate decides; a run keeps its own steps, each as the
    state before and after it. *)

Inductive Op (W F R : Type) :=
| Done (r : R)
| Do (f : F → W → W * Op W F R).
Arguments Done {W F R} r.
Arguments Do {W F R} f.

Section Fates.
Context {W F R : Type} (env : W → W → Prop).
Inductive oruns : Op W F R → W → list (W * W) → W → R → Prop :=
| oruns_done r w w' : rtc env w w' → oruns (Done r) w [] w' r
| oruns_do f w w1 fate w2 p l w' r : rtc env w w1 → f fate w1 = (w2, p) → oruns p w2 l w' r → oruns (Do f) w ((w1, w2) :: l) w' r.

Lemma oruns_done_inv r w l w' r' : oruns (Done r) w l w' r' → r' = r ∧ l = [] ∧ rtc env w w'.
Proof. intros Hr. by inversion Hr. Qed.
Lemma oruns_do_inv f w l w' r :
  oruns (Do f) w l w' r → ∃ w1 fate w2 p l', rtc env w w1 ∧ f fate w1 = (w2, p) ∧ oruns p w2 l' w' r ∧ l = (w1, w2) :: l'.
Proof. intros Hr. inversion Hr; subst. eauto 10. Qed.

(** A program run alone, with the same fate at every step. *)
Fixpoint alone (n : nat) (fate : F) (p : Op W F R) (w : W) : option (list (W * W) * W * R) :=
  match p with
  | Done r => Some ([], w, r)
  | Do f => match n with
            | O => None
            | Datatypes.S n => '(l, w', r) ← alone n fate (f fate w).2 (f fate w).1; Some ((w, (f fate w).1) :: l, w', r)
            end
  end.
Lemma alone_runs n fate p w l w' r : alone n fate p w = Some (l, w', r) → oruns p w l w' r.
Proof.
  revert p w l. induction n as [|n IH]; intros [r0|f] w l; cbn [alone]; try done; try (by intros [= <- <- <-]; constructor).
  destruct (f fate w) as [w1 p1] eqn:Hf. cbn [fst snd]. destruct (alone n fate p1 w1) as [[[l1 w2] r1]|] eqn:Ha; [|done].
  cbn. intros [= <- <- <-]. eapply oruns_do; [done|exact Hf|by apply IH].
Qed.
End Fates.

(** ** A program inside a larger one

    Each step of the inner program is a step of the outer one on a part of its state,
    unless the step fails. *)

Section Lift.
Context {W F R S A : Type} (get : W → S) (put : S → W → W) (alive : F → bool) (failed : A).
Fixpoint lift_op (p : Proc S A) (k : A → Op W F R) : Op W F R :=
  match p with
  | Stop a => k a
  | Step g => Do (λ f w, if alive f then let '(x, p') := g (get w) in (put x w, lift_op p' k) else (w, k failed))
  end.

Context (env : W → W → Prop) (step : S → S → Prop) (Q : W * W → Prop).
Hypothesis get_put : ∀ x w, get (put x w) = x.
Hypothesis env_step : ∀ w w', rtc env w w' → rtc step (get w) (get w').
Hypothesis put_quiet : ∀ x w, Q (w, put x w).
Hypothesis same_quiet : ∀ w, Q (w, w).
Lemma oruns_lift_op p k w l w' r :
  oruns env (lift_op p k) w l w' r →
  ∃ l1 l2 w1 a, l = l1 ++ l2 ∧ Forall Q l1 ∧ oruns env (k a) w1 l2 w' r ∧ (a = failed ∨ runs step p (get w) (get w1) a).
Proof using get_put env_step put_quiet same_quiet.
  revert w l. induction p as [a|g IH] using proc_ind; intros w l Hr; cbn [lift_op] in Hr.
  { exists [], l, w, a. split_and!; [done|constructor|done|]. right. by constructor. }
  apply oruns_do_inv in Hr as (w1 & fate & w2 & q & l' & He & Hf & Hr & ->). apply env_step in He. destruct (alive fate).
  - destruct (g (get w1)) as [x p'] eqn:Hg. injection Hf as <- <-. specialize (IH (get w1)). rewrite Hg in IH.
    destruct (IH _ _ Hr) as (l1 & l2 & w3 & a & -> & Hq & Hk & Ha). exists ((w1, put x w1) :: l1), l2, w3, a.
    split_and!; [done|by constructor|done|]. destruct Ha as [->|Ha]; [by left|right]. rewrite get_put in Ha. by econstructor.
  - injection Hf as <- <-. exists [(w1, w1)], l', w1, failed. split_and!; [done|by repeat constructor|done|by left].
Qed.
End Lift.

Declare Scope proc_scope.
Delimit Scope proc_scope with proc.
Notation "'do' x <- p ; k" := (bindP p (λ x, k)) (at level 200, x name, p at level 100, k at level 200) : proc_scope.
#[global] Open Scope proc_scope.
