(* ===== verification/RoleAdmin.v ===== *)
(** * Role administration (core/src/governance/authority/routes.rs)

    The five handlers that change the RBAC tables and the deletion of users
    (core/src/routes/auth.rs), as programs whose queries and statements run among
    those of all the others; what every interleaving keeps, and what only requests
    that are served one after another keep: an acyclic hierarchy. *)

From stdpp Require Import base strings list sets gmap relations.
From S2P Require Import Prelude Str Ident Perms Roles Authority Procs.

(** What the handlers touch: the database and the keys of the running workers
    ([WorkerManager::workers]). *)
Record Core := { pool : Pool; workers : gset (string * string) }.

(** A handler: a program of queries and statements, each a step of its own. *)
Definition handler (A : Type) : Type := Proc Core (result ApiError A).

Definition h_ret {A} (a : A) : handler A := Stop (Ok a).
Definition h_fail {A} (e : ApiError) : handler A := Stop (Err e).
(** A check without a query, a query, and a statement (or transaction). *)
Definition h_check {A} (r : result ApiError A) : handler A := Stop r.
Definition h_lift {A} (f : Pool → result ApiError A) : handler A := query (λ c, f (pool c)).
Definition h_do {A} (f : Core → result ApiError A * Core) : handler A :=
  atomic (λ c, let '(r, c') := f c in (c', r)).

Declare Scope handler_scope.
Delimit Scope handler_scope with handler.
Notation "'let!' x := m 'in' k" := (bindP m (fun x => k))
  (at level 10, x name, m at level 100, k at level 200) : handler_scope.
Notation "'do!' m 'in' k" := (bindP m (fun _ : unit => k))
  (at level 10, m at level 100, k at level 200) : handler_scope.
Local Open Scope handler_scope.

(** [if cond { return Err(e) }] *)
Definition refuse_if (cond : bool) (e : ApiError) : handler unit :=
  if cond then h_fail e else h_ret tt.

Definition set_roles (roles : gmap string RoleRow) (c : Core) : Core :=
  {| pool := {| db := {| users := users (db (pool c));
                         public_execution_principals := public_execution_principals (db (pool c));
                         rbac_roles := roles;
                         rbac_assignments := rbac_assignments (db (pool c)) |};
                fault := fault (pool c) |};
     workers := workers c |}.

Definition set_assignments (rows : list (string * string)) (c : Core) : Core :=
  {| pool := {| db := {| users := users (db (pool c));
                         public_execution_principals := public_execution_principals (db (pool c));
                         rbac_roles := rbac_roles (db (pool c));
                         rbac_assignments := rows |};
                fault := fault (pool c) |};
     workers := workers c |}.

Definition roles_of (c : Core) : gmap string RoleRow := rbac_roles (db (pool c)).
Definition assignments_of (c : Core) : list (string * string) := rbac_assignments (db (pool c)).

(** Execute a statement on [t]: the table's error, or its answer and the new state. *)
Definition execute {A} (t : Table) (f : Core → result ApiError A * Core) : handler A :=
  h_do (λ c, match fault (pool c) t with Some e => (Err (Internal e), c) | None => f c end).

Section Workers.
(** [agent_user_id]: a name-based UUID of the app id. *)
Variable agent_user_id : string → string.
(** The text of a violation of the assignments' reference to the users. *)
Variable fk_violation : string.

Definition worker_key_belongs_to_principal (key : string * string) (user_id : string) : bool :=
  bool_decide (agent_user_id key.1 = user_id) ||
  bool_decide (key.2 = user_id) || starts_with (user_id +:+ "|") key.2.

Definition invalidate_for_principal (user_id : string) (c : Core) : Core :=
  {| pool := pool c;
     workers := filter (λ key, worker_key_belongs_to_principal key user_id = false) (workers c) |}.

(** The loop over the principals, one after the other. *)
Fixpoint invalidate_each (uids : list string) : handler unit :=
  match uids with
  | [] => h_ret tt
  | uid :: uids => do! h_do (λ c, (Ok tt, invalidate_for_principal uid c)) in invalidate_each uids
  end.

Definition invalidate_for_role (role : string) : handler unit :=
  let! uids := h_lift (λ p, Ok (match fault p RbacAssignments with
    | Some _ => []
    | None => (filter (λ row, row.2 = role) (rbac_assignments (db p))).*1
    end)) in
  invalidate_each uids.

(** ** Handlers *)

Definition validate_hierarchy (pool_roles : gmap string (list string)) (name : string)
    (inherits : list string) : result ApiError unit :=
  match detect_cycle (<[name := inherits]> pool_roles) with
  | Some cycle => Err (BadRequest ("role hierarchy cycle involving '" +:+ cycle +:+ "'"))
  | None => Ok tt
  end.

Record CreateRoleRequest := {
  cr_name : string; cr_description : option string;
  cr_inherits : list string; cr_permissions : list string }.

Record UpdateRoleRequest := {
  ur_description : option string;
  ur_inherits : option (list string); ur_permissions : option (list string) }.

Definition validate_keys (keys : list string) : result ApiError unit :=
  try_for_each (λ p, map_err BadRequest (validate_perm_key p)) keys.

(** The check of the hierarchy and the insertion are separate statements on the
    pool; the insertion finds an existing name by its constraint. *)
Definition create_role (identity : string) (body : CreateRoleRequest) : handler string :=
  do! h_lift (λ p, require_admin p identity) in
  do! refuse_if (bool_decide (cr_name body = "")) (BadRequest "role name must not be empty") in
  do! refuse_if (bool_decide (cr_name body = "admin"))
        (BadRequest "cannot create a role named 'admin' (reserved)") in
  do! h_check (validate_keys (cr_permissions body)) in
  do! (if bool_decide (cr_inherits body = []) then h_ret tt
       else let! existing := h_lift (λ p, fetch RbacRoles p (hierarchy (rbac_roles (db p)))) in
            h_check (validate_hierarchy existing (cr_name body) (cr_inherits body))) in
  do! execute RbacRoles (λ c,
        if bool_decide (is_Some (roles_of c !! cr_name body))
        then (Err (BadRequest ("role '" +:+ cr_name body +:+ "' already exists")), c)
        else (Ok tt, set_roles (<[cr_name body :=
          {| description := cr_description body; role_inherits := cr_inherits body;
             role_permissions := cr_permissions body |}]> (roles_of c)) c)) in
  h_ret ("role '" +:+ cr_name body +:+ "' created").

(** [UPDATE rbac_roles SET ... WHERE name = $1] on one row. *)
Definition update_row (body : UpdateRoleRequest) (row : RoleRow) : RoleRow := {|
  description := match ur_description body with Some d => Some d | None => description row end;
  role_inherits := default (role_inherits row) (ur_inherits body);
  role_permissions := default (role_permissions row) (ur_permissions body) |}.

Definition update_role (role_name : string) (identity : string) (body : UpdateRoleRequest) : handler string :=
  do! h_lift (λ p, require_admin p identity) in
  do! refuse_if (bool_decide (role_name = "admin") &&
                 (bool_decide (is_Some (ur_permissions body)) || bool_decide (is_Some (ur_inherits body))))
        (BadRequest "cannot modify permissions or inherits on built-in admin role") in
  do! refuse_if (bool_decide (ur_description body = None) && bool_decide (ur_inherits body = None) &&
                 bool_decide (ur_permissions body = None)) (BadRequest "no fields to update") in
  do! h_check (match ur_permissions body with Some perms => validate_keys perms | None => Ok tt end) in
  do! match ur_inherits body with
      | Some new_inherits =>
          let! existing := h_lift (λ p, fetch RbacRoles p (hierarchy (rbac_roles (db p)))) in
          h_check (validate_hierarchy existing role_name new_inherits)
      | None => h_ret tt
      end in
  do! execute RbacRoles (λ c,
        match roles_of c !! role_name with
        | None => (Err (NotFound ("role '" +:+ role_name +:+ "' not found")), c)
        | Some row => (Ok tt, set_roles (<[role_name := update_row body row]> (roles_of c)) c)
        end) in
  do! (if bool_decide (is_Some (ur_permissions body)) || bool_decide (is_Some (ur_inherits body))
       then invalidate_for_role role_name else h_ret tt) in
  h_ret ("role '" +:+ role_name +:+ "' updated").

Definition delete_role (role_name : string) (identity : string) : handler string :=
  do! h_lift (λ p, require_admin p identity) in
  do! refuse_if (bool_decide (role_name = "admin")) (BadRequest "cannot delete built-in admin role") in
  do! invalidate_for_role role_name in
  do! execute RbacRoles (λ c,
        if bool_decide (is_Some (roles_of c !! role_name))
        then (Ok tt, set_roles (delete role_name (roles_of c)) c)
        else (Err (NotFound ("role '" +:+ role_name +:+ "' not found")), c)) in
  do! execute RbacAssignments (λ c,
        (Ok tt, set_assignments (filter (λ row, row.2 ≠ role_name) (assignments_of c)) c)) in
  h_ret ("role '" +:+ role_name +:+ "' deleted").

Definition assign_role (identity : string) (user_id role : string) : handler string :=
  do! h_lift (λ p, require_admin p identity) in
  let! defined := h_lift (λ p, role_exists p role) in
  do! refuse_if (negb defined) (BadRequest ("role '" +:+ role +:+ "' not defined")) in
  do! execute RbacAssignments (λ c,
        if decide ((user_id, role) ∈ assignments_of c) then (Ok tt, c)
        else if bool_decide (is_Some (users (db (pool c)) !! user_id))
        then (Ok tt, set_assignments (assignments_of c ++ [(user_id, role)]) c)
        else (Err (Internal fk_violation), c)) in
  do! h_do (λ c, (Ok tt, invalidate_for_principal user_id c)) in
  h_ret ("role '" +:+ role +:+ "' assigned").

(** The rows [SELECT ... WHERE role = 'admin' FOR UPDATE] counts. *)
Definition admin_count (c : Core) : nat := length (filter (λ row, row.2 = "admin") (assignments_of c)).

(** One transaction that locks the rows of the administrators before it counts them. *)
Definition revoke_role (identity : string) (user_id role : string) : handler string :=
  do! h_lift (λ p, require_admin p identity) in
  let! found := execute RbacAssignments (λ c,
        if bool_decide (role = "admin") && (admin_count c <=? 1)
        then (Err (BadRequest "cannot revoke the last admin"), c)
        else (Ok (bool_decide ((user_id, role) ∈ assignments_of c)),
              set_assignments (filter (λ row, row ≠ (user_id, role)) (assignments_of c)) c)) in
  do! refuse_if (negb found) (NotFound ("assignment not found for role '" +:+ role +:+ "'")) in
  do! h_do (λ c, (Ok tt, invalidate_for_principal user_id c)) in
  h_ret ("role '" +:+ role +:+ "' revoked").

(** A user's row goes with the assignments that reference it. *)
Definition remove_user (target : string) (c : Core) : Core :=
  {| pool := {| db := {| users := delete target (users (db (pool c)));
                         public_execution_principals := public_execution_principals (db (pool c));
                         rbac_roles := roles_of c;
                         rbac_assignments := filter (λ row, row.1 ≠ target) (assignments_of c) |};
                fault := fault (pool c) |};
     workers := workers c |}.

(** [routes::auth::delete_user]: the same lock, and the deletion in its transaction.
    [is_system] is the column of that name. *)
Definition delete_user (is_system : string → bool) (identity : string) (target : string) : handler string :=
  do! h_lift (λ p, require_admin p identity) in
  do! execute RbacAssignments (λ c,
        if bool_decide ((target, "admin") ∈ assignments_of c) && (admin_count c <=? 1)
        then (Err (BadRequest "cannot delete the last admin"), c)
        else match fault (pool c) Users with
             | Some e => (Err (Internal e), c)
             | None => if bool_decide (is_Some (users (db (pool c)) !! target)) && negb (is_system target)
                       then (Ok tt, remove_user target c)
                       else (Err (NotFound "user not found"), c)
             end) in
  h_ret "user deleted".

(** Any request to the handlers, by anyone. *)
Inductive request : handler string → Prop :=
| r_create id body : request (create_role id body)
| r_update name id body : request (update_role name id body)
| r_delete name id : request (delete_role name id)
| r_assign id u r : request (assign_role id u r)
| r_revoke id u r : request (revoke_role id u r)
| r_delete_user is_system id u : request (delete_user is_system id u).

(** One request served alone, succeeding or not. *)
Inductive step (c : Core) : Core → Prop :=
| step_request p : request p → step c (run_alone p c).2.
End Workers.

(** ** Invariants *)

Definition key_valid (k : string) : Prop := validate_perm_key k = Ok tt.

(** What every state keeps: an administrator who holds everything, only encodable
    permission keys, and the assignments' primary key. *)
Record Base (c : Core) : Prop := {
  inv_admin : ∃ u, (u, "admin") ∈ assignments_of c;
  inv_admin_role : "*" ∈ permissions_of (roles_of c) "admin";
  inv_keys : ∀ name row k, roles_of c !! name = Some row → k ∈ role_permissions row → key_valid k;
  inv_pk : NoDup (assignments_of c)
}.

Definition Acyc (c : Core) : Prop := acyclic (hierarchy (roles_of c)).

(** A Hoare logic for handlers that run alone: a failing one leaves no cycle. *)
Definition triple {A} (P : Core → Prop) (m : handler A) (Q : A → Core → Prop) : Prop :=
  ∀ c, P c → match run_alone m c with (Ok a, c') => Q a c' | (Err _, c') => Acyc c' end.

Lemma t_bind {A B} P (m : handler A) R (k : A → handler B) Q :
  triple P m R → (∀ a, triple (R a) (k a) Q) → triple P (bindP m k) Q.
Proof.
  intros Hm Hk c Hc. rewrite run_alone_bind. specialize (Hm c Hc).
  destruct (run_alone m c) as [[a|e] c']; [by apply Hk|done].
Qed.

Lemma t_ret {A} (P : Core → Prop) (a : A) (Q : A → Core → Prop) :
  (∀ c, P c → Q a c) → triple P (h_ret a) Q.
Proof. intros H c Hc. by apply H. Qed.

Lemma t_check {A} (P : Core → Prop) (r : result ApiError A) :
  (∀ c, P c → Acyc c) → triple P (h_check r) (λ a c, P c ∧ r = Ok a).
Proof. intros H c Hc. simpl. destruct r; [done|by apply H]. Qed.

Lemma t_lift {A} (P : Core → Prop) (f : Pool → result ApiError A) :
  (∀ c, P c → Acyc c) → triple P (h_lift f) (λ a c, P c ∧ f (pool c) = Ok a).
Proof. intros H c Hc. simpl. destruct (f (pool c)) eqn:E; [done|by apply H]. Qed.

Lemma t_refuse (P : Core → Prop) b e :
  (∀ c, P c → Acyc c) → triple P (refuse_if b e) (λ _ c, P c ∧ b = false).
Proof. intros H c Hc. destruct b; simpl; [by apply H|done]. Qed.

Lemma t_do {A} (P : Core → Prop) (f : Core → result ApiError A * Core) Q :
  (∀ c, P c → match f c with (Ok a, c') => Q a c' | (Err _, c') => Acyc c' end) → triple P (h_do f) Q.
Proof. intros H c Hc. specialize (H c Hc). unfold h_do, atomic. simpl. by destruct (f c) as [r c']. Qed.

Lemma t_execute {A} (P : Core → Prop) t (f : Core → result ApiError A * Core) Q :
  (∀ c, P c → Acyc c) → (∀ c, P c → match f c with (Ok a, c') => Q a c' | (Err _, c') => Acyc c' end) →
  triple P (execute t f) Q.
Proof. intros H HQ. apply t_do. intros c Hc. destruct (fault (pool c) t); [by apply H|by apply HQ]. Qed.

(** Run a handler one bind at a time, collecting what each guard established. *)
Ltac t_step := eapply t_bind; [first [apply t_lift | apply t_refuse | apply t_check]; tauto|intros ?].

(** A step that keeps [Base], from any state that has it. *)
Lemma k_do {A} (f : Core → result ApiError A * Core) : (∀ c, Base c → Base (f c).2) → keeps Base (h_do f).
Proof. intros H c Hc. specialize (H c Hc). simpl. by destruct (f c). Qed.

Lemma k_execute {A} t (f : Core → result ApiError A * Core) : (∀ c, Base c → Base (f c).2) → keeps Base (execute t f).
Proof. intros H. apply k_do. intros c Hc. destruct (fault (pool c) t); [done|by apply H]. Qed.

(** A guard that nothing else can change holds in what follows it. *)
Lemma k_refuse {B} b e (k : handler B) : (b = false → keeps Base k) → keeps Base (bindP (refuse_if b e) (λ _, k)).
Proof. intros H. destruct b; [done|by apply H]. Qed.

Lemma k_check {A B} (r : result ApiError A) (k : A → handler B) :
  (∀ a, r = Ok a → keeps Base (k a)) → keeps Base (bindP (h_check r) k).
Proof. intros H. destruct r; [by apply H|done]. Qed.

Lemma k_lift {A B} (f : Pool → result ApiError A) (k : A → handler B) :
  (∀ a, keeps Base (k a)) → keeps Base (bindP (h_lift f) k).
Proof. intros H. apply keeps_andOk; [apply keeps_query|done]. Qed.

Ltac k_step := first
  [ apply k_lift; intros ? | apply k_refuse; intros ? | apply k_check; intros ? ?
  | apply keeps_andOk; [apply k_execute; intros ? ?|intros ?] | apply keeps_andOk; [|intros ?] | exact I ].

(** The tables the invariants read. *)
Definition same_tables (c c' : Core) : Prop :=
  roles_of c' = roles_of c ∧ assignments_of c' = assignments_of c.

Lemma base_same_tables c c' : same_tables c c' → Base c → Base c'.
Proof. intros [Hr Ha] [H1 H2 H3 H4]. split; rewrite ?Hr, ?Ha; done. Qed.

Lemma acyc_same_tables c c' : same_tables c c' → Acyc c → Acyc c'.
Proof. unfold Acyc. by intros [-> _]. Qed.

Lemma roles_of_set_roles r c : roles_of (set_roles r c) = r.
Proof. done. Qed.
Lemma assignments_of_set_roles r c : assignments_of (set_roles r c) = assignments_of c.
Proof. done. Qed.
Lemma roles_of_set_assignments a c : roles_of (set_assignments a c) = roles_of c.
Proof. done. Qed.
Lemma assignments_of_set_assignments a c : assignments_of (set_assignments a c) = a.
Proof. done. Qed.
Create HintDb tables.
#[export] Hint Rewrite roles_of_set_roles assignments_of_set_roles
  roles_of_set_assignments assignments_of_set_assignments : tables.

Lemma remove_user_tables u c :
  roles_of (remove_user u c) = roles_of c ∧ assignments_of (remove_user u c) = filter (λ row, row.1 ≠ u) (assignments_of c).
Proof. done. Qed.

Section Preservation.
Variable agent_user_id : string → string.
Variable fk_violation : string.

Lemma invalidate_principal_tables u c : same_tables c (invalidate_for_principal agent_user_id u c).
Proof. done. Qed.

Lemma t_invalidate_each (P : Core → Prop) uids :
  (∀ c c', same_tables c c' → P c → P c') → triple P (invalidate_each agent_user_id uids) (λ _, P).
Proof.
  intros HP. induction uids as [|u uids IH]; [by apply t_ret|].
  apply (t_bind _ _ (λ _, P)); [|done]. apply t_do. intros c. by apply HP.
Qed.

Lemma t_invalidate_role (P : Core → Prop) r :
  (∀ c, P c → Acyc c) → (∀ c c', same_tables c c' → P c → P c') →
  triple P (invalidate_for_role agent_user_id r) (λ _, P).
Proof.
  intros HI HP. unfold invalidate_for_role. t_step. intros c [Hc _].
  by apply (t_invalidate_each P).
Qed.

Lemma k_invalidate_each uids : keeps Base (invalidate_each agent_user_id uids).
Proof.
  induction uids as [|u uids IH]; [done|]. apply keeps_andOk; [|done]. apply k_do.
  intros c. apply base_same_tables. done.
Qed.

Lemma k_invalidate_role r : keeps Base (invalidate_for_role agent_user_id r).
Proof. apply k_lift. apply k_invalidate_each. Qed.

Lemma acyclic_mono m m' :
  (∀ a b, inherits m' a b → inherits m a b) → acyclic m → acyclic m'.
Proof.
  intros H Ha r Hr. apply (Ha r).
  assert (∀ a b, tc (inherits m') a b → tc (inherits m) a b) as Htc.
  { induction 1 as [x y Hxy|x y z Hxy Hyz IH]; [constructor; eauto|econstructor 2; eauto]. }
  by apply Htc.
Qed.

Lemma acyclic_insert_nil m name : acyclic m → acyclic (<[name := []]> m).
Proof.
  apply acyclic_mono. unfold inherits, parents_of. intros a b.
  destruct (decide (a = name)) as [->|Hne]; [rewrite lookup_insert_eq; simpl; set_solver|].
  by rewrite lookup_insert_ne.
Qed.

Lemma acyclic_delete m name : acyclic m → acyclic (delete name m).
Proof.
  apply acyclic_mono. unfold inherits, parents_of. intros a b.
  destruct (decide (a = name)) as [->|Hne]; [rewrite lookup_delete_eq; simpl; set_solver|].
  by rewrite lookup_delete_ne.
Qed.

Lemma validate_hierarchy_ok m name inh :
  validate_hierarchy m name inh = Ok tt → acyclic (<[name := inh]> m).
Proof. unfold validate_hierarchy. destruct (detect_cycle _) eqn:E; [done|]. intros _. by apply detect_cycle_None. Qed.

Lemma validate_keys_ok keys : validate_keys keys = Ok tt → ∀ k, k ∈ keys → key_valid k.
Proof.
  unfold validate_keys. rewrite try_for_each_ok_iff, Forall_forall.
  intros H k Hk. apply H in Hk. by apply map_err_ok_iff in Hk.
Qed.

(** Writing one role row keeps the invariants when its keys are fine, the
    administrator role is not touched and, for [Inv], the hierarchy is. *)
Lemma base_set_role c name row :
  Base c → (∀ k, k ∈ role_permissions row → key_valid k) →
  (name = "admin" → role_permissions row = permissions_of (roles_of c) "admin") →
  Base (set_roles (<[name := row]> (roles_of c)) c).
Proof.
  intros [H2 H3 H4 H5] Hk Hadm. split; autorewrite with tables; try done.
  - unfold permissions_of in *. destruct (decide (name = "admin")) as [->|Hne].
    + rewrite lookup_insert_eq. by rewrite Hadm.
    + by rewrite lookup_insert_ne.
  - intros n r k Hn Hin. destruct (decide (name = n)) as [->|Hne].
    + rewrite lookup_insert_eq in Hn. injection Hn as ->. by apply Hk.
    + rewrite lookup_insert_ne in Hn by done. by eapply H4.
Qed.

Lemma base_delete_role c name : Base c → name ≠ "admin" → Base (set_roles (delete name (roles_of c)) c).
Proof.
  intros [H2 H3 H4 H5] Hn. split; autorewrite with tables; try done.
  - unfold permissions_of in *. by rewrite lookup_delete_ne.
  - intros n r k [_ Hn']%lookup_delete_Some Hk. by eapply H4.
Qed.

Lemma base_add_assignment c row :
  Base c → row ∉ assignments_of c → Base (set_assignments (assignments_of c ++ [row]) c).
Proof.
  intros [[w Hw] H3 H4 H5] Hrow. split; autorewrite with tables; try done.
  - exists w. apply elem_of_app. by left.
  - apply NoDup_app. split_and!; [done| |apply NoDup_singleton]. set_solver.
Qed.

(** What an update leaves of the administrator's permissions and of the keys. *)
Lemma base_update_role c name body row :
  Base c → roles_of c !! name = Some row → (name = "admin" → ur_permissions body = None) →
  match ur_permissions body with Some perms => validate_keys perms | None => Ok tt end = Ok tt →
  Base (set_roles (<[name := update_row body row]> (roles_of c)) c).
Proof.
  intros Hc Hrow Hadm Hk. apply base_set_role; [done| |].
  - simpl. destruct (ur_permissions body) as [keys|]; simpl; [by apply validate_keys_ok|].
    intros k. by apply (inv_keys c Hc name).
  - intros ->. simpl. rewrite Hadm by done. simpl. unfold permissions_of. by rewrite Hrow.
Qed.

Lemma base_filter_assignments c (P : string * string → Prop) `{∀ x, Decision (P x)} c' :
  Base c → (∃ u, (u, "admin") ∈ filter P (assignments_of c)) →
  roles_of c' = roles_of c → assignments_of c' = filter P (assignments_of c) → Base c'.
Proof. intros [H2 H3 H4 H5] Hex Hr Ha. split; rewrite ?Hr, ?Ha; try done. by apply NoDup_filter. Qed.

(** Removing one of at least two administrators leaves one. *)
Lemma admin_remains (rows : list (string * string)) u r :
  (∃ w, (w, "admin") ∈ rows) → (r = "admin" → 1 < length (filter (λ row, row.2 = "admin") rows)) →
  NoDup rows → ∃ w, (w, "admin") ∈ filter (λ row, row ≠ (u, r)) rows.
Proof.
  intros [w Hw] Hcount Hnd. setoid_rewrite list_elem_of_filter.
  destruct (decide ((w, "admin") = (u, r))) as [E|Hne]; [|eauto].
  injection E as -> <-. specialize (Hcount eq_refl).
  set (admins := filter (λ row, row.2 = "admin") rows) in *.
  assert (NoDup admins) as Hna by by apply NoDup_filter.
  destruct admins as [|[x a] [|[y b] l]] eqn:Ea; simpl in Hcount; [lia..|].
  assert ((x, a) ∈ admins ∧ (y, b) ∈ admins) as [Hx Hy] by (rewrite Ea; set_solver).
  apply list_elem_of_filter in Hx as [Hx1 Hx2], Hy as [Hy1 Hy2]. simpl in *. subst a b.
  destruct (decide (x = u)) as [->|]; [exists y|exists x]; (split; [|done]); [|congruence].
  intros [= ->]. apply NoDup_cons in Hna as [Hna _]. set_solver.
Qed.

Lemma admin_remains_but (rows : list (string * string)) u :
  (∃ w, (w, "admin") ∈ rows) → ((u, "admin") ∈ rows → 1 < length (filter (λ row, row.2 = "admin") rows)) →
  NoDup rows → ∃ w, (w, "admin") ∈ filter (λ row, row.1 ≠ u) rows.
Proof.
  intros Hex Hcount Hnd. destruct (decide ((u, "admin") ∈ rows)) as [Hu|Hu].
  - destruct (admin_remains rows u "admin") as [w [Hw1 Hw2]%list_elem_of_filter]; [done|auto|done|].
    exists w. apply list_elem_of_filter. split; [simpl; congruence|done].
  - destruct Hex as [w Hw]. exists w. apply list_elem_of_filter. split; [simpl; congruence|done].
Qed.

(** The transaction of a revocation. *)
Lemma base_revoke c u r :
  Base c → bool_decide (r = "admin") && (admin_count c <=? 1) = false →
  Base (set_assignments (filter (λ row, row ≠ (u, r)) (assignments_of c)) c).
Proof.
  intros Hc Hlast. eapply (base_filter_assignments c (λ row, row ≠ (u, r))); [done| |done..].
  apply admin_remains; [apply Hc| |apply Hc].
  intros ->. rewrite bool_decide_true in Hlast by done. by apply Nat.leb_gt in Hlast.
Qed.

Lemma base_remove_user c u :
  Base c → bool_decide ((u, "admin") ∈ assignments_of c) && (admin_count c <=? 1) = false → Base (remove_user u c).
Proof.
  intros Hc Hlast. eapply (base_filter_assignments c (λ row, row.1 ≠ u)); [done| |apply remove_user_tables..].
  apply admin_remains_but; [apply Hc| |apply Hc].
  intros Hu. rewrite bool_decide_true in Hlast by done. by apply Nat.leb_gt in Hlast.
Qed.

Lemma base_drop_role_assignments c name :
  Base c → name ≠ "admin" → Base (set_assignments (filter (λ row, row.2 ≠ name) (assignments_of c)) c).
Proof.
  intros Hc Hn. eapply (base_filter_assignments c (λ row, row.2 ≠ name)); [done| |done..].
  destruct (inv_admin c Hc) as [u Hu]. exists u. apply list_elem_of_filter. by split.
Qed.

(** ** Every step of a request keeps [Base] *)

Lemma k_invalidate_principal u : keeps Base (h_do (λ c, (Ok tt, invalidate_for_principal agent_user_id u c))).
Proof. apply k_do. intros c. by apply base_same_tables. Qed.

Lemma update_admin_guard name (a b : bool) : bool_decide (name = "admin") && (a || b) = false → name = "admin" → a = false.
Proof. intros H ->. rewrite bool_decide_true in H by done. by destruct a. Qed.

Lemma create_role_keeps id body : keeps Base (create_role id body).
Proof.
  unfold create_role. do 4 k_step. k_step.
  { destruct (bool_decide (cr_inherits body = [])); [done|]. apply k_lift. intros m. by destruct (validate_hierarchy _ _ _). }
  bool_hyps. k_step; [|done]. case_bool_decide; [done|]. destruct a0. apply base_set_role; [done|by apply validate_keys_ok|done].
Qed.

Lemma update_role_keeps name id body : keeps Base (update_role agent_user_id name id body).
Proof.
  unfold update_role. k_step. k_step. k_step. k_step. k_step.
  { destruct (ur_inherits body); [|done]. apply k_lift. intros m. by destruct (validate_hierarchy _ _ _). }
  k_step.
  - rename select Core into c. destruct (roles_of c !! name) as [row|] eqn:Hrow; [|done]. destruct a0. apply base_update_role; [done..| |done].
    intros Hn. eapply update_admin_guard in Hn; [|done]. bool_hyps. by apply eq_None_not_Some.
  - apply keeps_andOk; [|done]. destruct (_ || _); [apply k_invalidate_role|done].
Qed.

Lemma delete_role_keeps name id : keeps Base (delete_role agent_user_id name id).
Proof.
  unfold delete_role. k_step. k_step. bool_hyps. apply keeps_andOk; [apply k_invalidate_role|intros _].
  k_step; [case_bool_decide; [by apply base_delete_role|done]|].
  k_step; [by apply base_drop_role_assignments|done].
Qed.

Lemma assign_role_keeps id u r : keeps Base (assign_role agent_user_id fk_violation id u r).
Proof.
  unfold assign_role. k_step. k_step. k_step. k_step.
  - case_decide; [done|]. case_bool_decide; [by apply base_add_assignment|done].
  - apply keeps_andOk; [apply k_invalidate_principal|done].
Qed.

Lemma revoke_role_keeps id u r : keeps Base (revoke_role agent_user_id id u r).
Proof.
  unfold revoke_role. k_step. k_step.
  - destruct (_ && _) eqn:E; [done|by apply base_revoke].
  - k_step. apply keeps_andOk; [apply k_invalidate_principal|done].
Qed.

Lemma delete_user_keeps is_system id u : keeps Base (delete_user is_system id u).
Proof.
  unfold delete_user. k_step. k_step; [|done]. destruct (_ && _) eqn:E; [done|].
  destruct (fault _ _); [done|]. destruct (_ && negb _); [by apply base_remove_user|done].
Qed.

Lemma request_keeps p : request agent_user_id fk_violation p → keeps Base p.
Proof.
  intros []; eauto using create_role_keeps, update_role_keeps, delete_role_keeps, assign_role_keeps,
    revoke_role_keeps, delete_user_keeps.
Qed.

(** A program that keeps [Base] does so when it runs alone. *)
Lemma keeps_alone {A} (I : Core → Prop) (p : Proc Core A) c : keeps I p → I c → I (run_alone p c).2.
Proof.
  revert c. induction p as [a|f IH] using proc_ind; intros c Hp Hc; [done|]. simpl.
  destruct (Hp c Hc) as [H1 H2]. specialize (IH c). destruct (f c) as [c' p']. by apply IH.
Qed.

(** ** Requests served alone keep the hierarchy acyclic *)

Lemma acyc_set_role c name row :
  acyclic (<[name := role_inherits row]> (hierarchy (roles_of c))) → Acyc (set_roles (<[name := row]> (roles_of c)) c).
Proof. unfold Acyc. autorewrite with tables. unfold hierarchy. by rewrite fmap_insert. Qed.

Lemma create_role_acyc id body : triple Acyc (create_role id body) (λ _, Acyc).
Proof.
  unfold create_role. do 4 t_step.
  eapply (t_bind _ _ (λ _ c, Acyc c ∧ acyclic (<[cr_name body := cr_inherits body]> (hierarchy (roles_of c))))).
  - destruct (bool_decide (cr_inherits body = [])) eqn:Hi.
    + bool_hyps. apply t_ret. intros c [[[[Hc _] _] _] _]. split; [done|]. rewrite Hi. by apply acyclic_insert_nil.
    + t_step. intros c [[[[[Hc _] _] _] _] Hf]. unfold fetch in Hf. destruct (fault _ _); [done|]. inv_ok. subst.
      simpl. destruct (validate_hierarchy _ _ _) as [[]|] eqn:E; [|done]. split; [done|]. by apply validate_hierarchy_ok.
  - intros _. apply (t_bind _ _ (λ _, Acyc)); [|intros ?; by apply t_ret].
    apply t_execute; [tauto|]. intros c [Hc Hac]. case_bool_decide; [done|]. by apply acyc_set_role.
Qed.

Lemma update_role_acyc name id body : triple Acyc (update_role agent_user_id name id body) (λ _, Acyc).
Proof.
  unfold update_role. do 4 t_step.
  apply (t_bind _ _ (λ _ c, Acyc c ∧
    (∀ inh, ur_inherits body = Some inh → acyclic (<[name := inh]> (hierarchy (roles_of c)))))).
  - destruct (ur_inherits body) as [inh|]; [|apply t_ret; intros c [[[[Hc _] _] _] _]; by split].
    t_step. intros c [[[[[Hc _] _] _] _] Hf]. unfold fetch in Hf. destruct (fault _ _); [done|]. inv_ok. subst.
    simpl. destruct (validate_hierarchy _ _ _) as [[]|] eqn:E; [|done].
    split; [done|]. intros ? [= <-]. by apply validate_hierarchy_ok.
  - intros _. apply (t_bind _ _ (λ _, Acyc)).
    + apply t_execute; [tauto|]. intros c [Hc Hac]. destruct (roles_of c !! name) as [row|] eqn:Hrow; [|done].
      apply acyc_set_role. simpl. destruct (ur_inherits body) as [inh|]; simpl; [by apply Hac|].
      rewrite insert_id; [apply Hc|]. unfold hierarchy. by rewrite lookup_fmap, Hrow.
    + intros _. apply (t_bind _ _ (λ _, Acyc)); [|intros ?; by apply t_ret].
      destruct (_ || _); [|by apply t_ret]. apply t_invalidate_role; [done|apply acyc_same_tables].
Qed.

Lemma delete_role_acyc name id : triple Acyc (delete_role agent_user_id name id) (λ _, Acyc).
Proof.
  unfold delete_role. do 2 t_step. apply (t_bind _ _ (λ _, Acyc)).
  { intros c [[Hc _] _]. by apply (t_invalidate_role Acyc name (λ _ H, H) acyc_same_tables c). }
  intros _. apply (t_bind _ _ (λ _, Acyc)).
  { apply t_execute; [done|]. intros c Hc. case_bool_decide; [|done].
    unfold Acyc. autorewrite with tables. unfold hierarchy. rewrite fmap_delete. by apply acyclic_delete. }
  intros _. apply (t_bind _ _ (λ _, Acyc)); [|intros ?; by apply t_ret]. by apply t_execute.
Qed.

Lemma assign_role_acyc id u r : triple Acyc (assign_role agent_user_id fk_violation id u r) (λ _, Acyc).
Proof.
  unfold assign_role. do 3 t_step. apply (t_bind _ _ (λ _, Acyc)).
  - apply t_execute; [tauto|]. intros c [[[Hc _] _] _]. case_decide; [done|]. by case_bool_decide.
  - intros _. apply (t_bind _ _ (λ _, Acyc)); [by apply t_do|intros ?; by apply t_ret].
Qed.

Lemma revoke_role_acyc id u r : triple Acyc (revoke_role agent_user_id id u r) (λ _, Acyc).
Proof.
  unfold revoke_role. t_step. apply (t_bind _ _ (λ _, Acyc)).
  - apply t_execute; [tauto|]. intros c [Hc _]. by destruct (_ && _).
  - intros found. t_step. apply (t_bind _ _ (λ _, Acyc)); [apply t_do; tauto|intros ?; by apply t_ret].
Qed.

Lemma delete_user_acyc is_system id u : triple Acyc (delete_user is_system id u) (λ _, Acyc).
Proof.
  unfold delete_user. t_step. apply (t_bind _ _ (λ _, Acyc)); [|intros ?; by apply t_ret].
  apply t_execute; [tauto|]. intros c [Hc _]. destruct (_ && _); [done|].
  destruct (fault _ _); [done|]. by destruct (_ && negb _).
Qed.

Lemma triple_state {A} (m : handler A) c : triple Acyc m (λ _, Acyc) → Acyc c → Acyc (run_alone m c).2.
Proof. intros Hm Hc. specialize (Hm c Hc). by destruct (run_alone m c) as [[a|e] c']. Qed.

Lemma request_acyc p c : request agent_user_id fk_violation p → Acyc c → Acyc (run_alone p c).2.
Proof.
  intros Hp. apply triple_state. destruct Hp;
    eauto using create_role_acyc, update_role_acyc, delete_role_acyc, assign_role_acyc, revoke_role_acyc, delete_user_acyc.
Qed.

(** [C6] Role administration keeps its invariants.  However the queries and
    statements of any number of requests, from any callers, succeeding, failing or
    left half done, fall between one another, at least one principal is assigned the
    administrator role, that role still holds ["*"], every stored key is encodable
    and no assignment is stored twice.  When requests are served one after another,
    the role hierarchy stays acyclic too; the check of a hierarchy and its write are
    separate statements, so this is not so of requests that cross
    ([crossing_updates_form_a_cycle]). *)
Theorem role_admin_invariant c :
  Base c →
  (∀ b, rtc (bstep (request agent_user_id fk_violation)) {| now := c; started := [] |} b → Base (now b)) ∧
  (∀ c', Acyc c → rtc (step agent_user_id fk_violation) c c' → Base c' ∧ Acyc c').
Proof.
  intros Hc. split.
  - intros b. apply interleaving_keeps; [apply request_keeps|done].
  - intros c' Ha H. induction H as [|c c1 c2 [p Hp] _ IH]; [done|].
    apply IH; [apply keeps_alone; [by apply request_keeps|done]|by apply request_acyc].
Qed.

(** Only administrators administer roles: when [require_admin] refuses
    the caller, every handler returns that refusal and changes neither the tables
    nor the running workers. *)
Theorem role_admin_requires_admin c id e :
  require_admin (pool c) id = Err e →
  (∀ body, run_alone (create_role id body) c = (Err e, c)) ∧
  (∀ name body, run_alone (update_role agent_user_id name id body) c = (Err e, c)) ∧
  (∀ name, run_alone (delete_role agent_user_id name id) c = (Err e, c)) ∧
  (∀ u r, run_alone (assign_role agent_user_id fk_violation id u r) c = (Err e, c)) ∧
  (∀ u r, run_alone (revoke_role agent_user_id id u r) c = (Err e, c)) ∧
  (∀ is_system u, run_alone (delete_user is_system id u) c = (Err e, c)).
Proof.
  intros He. assert (run_alone (h_lift (λ p, require_admin p id)) c = (Err e, c)) as H by (simpl; by rewrite He).
  split_and!; intros; (etrans; [apply run_alone_bind|by rewrite H]).
Qed.

(** Nobody locks the platform out: in a state that keeps the invariants,
    with the tables readable, some principal passes [require_admin] — provided
    the administrator's assignments and the inheritance edges stay within the
    expansion bound. *)
Theorem administrator_exists c :
  Base c → fault (pool c) RbacAssignments = None → fault (pool c) RbacRoles = None →
  (∀ u, length (assigned_roles (db (pool c)) u) + pending (hierarchy (roles_of c)) ∅ ≤ MAX_ROLE_DEPTH) →
  ∃ u, require_admin (pool c) u = Ok tt.
Proof.
  intros Hc Hfa Hfr Hbound. destruct (inv_admin c Hc) as [u Hu]. exists u.
  assert ("admin" ∈ assigned_roles (db (pool c)) u) as Hin.
  { unfold assigned_roles. apply list_elem_of_fmap. exists (u, "admin"). split; [done|].
    by apply list_elem_of_filter. }
  unfold require_admin, resolve_permissions, fetch. rewrite Hfa, Hfr. cbn [result_bind].
  destruct (assigned_roles (db (pool c)) u) as [|a l] eqn:E; [by apply elem_of_nil in Hin|].
  cbn [result_bind]. rewrite (proj2 (existsb_star _)); [done|].
  rewrite elem_of_sort_strings, elem_of_elements, elem_of_perm_set.
  pose proof (inv_admin_role c Hc) as Hstar. unfold permissions_of in Hstar.
  destruct (roles_of c !! "admin") as [row|] eqn:Hrow; [|by apply elem_of_nil in Hstar].
  exists "admin", row. split; [|done].
  destruct (expand_loop_complete MAX_ROLE_DEPTH (hierarchy (roles_of c)) ∅ (reverse (a :: l))) as [H1 _].
  { rewrite length_reverse, <-E. apply Hbound. }
  { set_solver. }
  apply H1. by rewrite elem_of_reverse.
Qed.
End Preservation.

Definition demo_core : Core := {| pool := demo_pool; workers := {[("crm", "u1")]} |}.

Lemma demo_core_base : Base demo_core.
Proof.
  split.
  - exists "root". vm_compute. right. left.
  - vm_compute. left.
  - intros name row k Hrow Hk.
    assert (Forall (λ kv, Forall key_valid (role_permissions kv.2)) (map_to_list (roles_of demo_core))) as H.
    { vm_compute. repeat constructor. }
    rewrite Forall_forall in H. apply elem_of_map_to_list in Hrow. specialize (H _ Hrow).
    rewrite Forall_forall in H. by apply H.
  - by apply (bool_decide_unpack _); vm_compute.
Qed.

Lemma demo_core_acyc : Acyc demo_core.
Proof. apply detect_cycle_None. vm_compute. reflexivity. Qed.

Definition auditor : CreateRoleRequest :=
  {| cr_name := "auditor"; cr_description := None; cr_inherits := ["viewer"]; cr_permissions := ["app:crm:log.read"] |}.

Lemma role_admin_invariant_witness :
  Base demo_core ∧ Acyc demo_core ∧
  let c := (run_alone (create_role "root" auditor) demo_core).2 in is_Some (roles_of c !! "auditor") ∧ Base c ∧ Acyc c.
Proof.
  split_and!; [exact demo_core_base|exact demo_core_acyc|]. split; [vm_compute; eauto|].
  apply (role_admin_invariant (λ a, a) "" demo_core demo_core_base); [exact demo_core_acyc|].
  apply rtc_once. constructor. constructor.
Defined.

(** Two updates whose checks both ran before either write: each was fine alone, and
    together they make two roles inherit from each other. *)
Definition inherit_from (role : string) : UpdateRoleRequest :=
  {| ur_description := None; ur_inherits := Some [role]; ur_permissions := None |}.

(** A program after as many of its steps on one state. *)
Fixpoint after {A} (n : nat) (p : Proc Core A) (c : Core) : Proc Core A * Core :=
  match n, p with S n, Step f => let '(c, p) := f c in after n p c | _, _ => (p, c) end.

Example crossing_updates_form_a_cycle :
  let u1 := update_role (λ a, a) "viewer" "root" (inherit_from "auditor") in
  let u2 := update_role (λ a, a) "auditor" "root" (inherit_from "viewer") in
  let c0 := (run_alone (create_role "root" {| cr_name := "auditor"; cr_description := None; cr_inherits := []; cr_permissions := [] |}) demo_core).2 in
  let '(p1, c1) := after 2 u1 c0 in
  let '(p2, c2) := after 2 u2 c1 in
  let '(r1, c3) := run_alone p1 c2 in
  let '(r2, c4) := run_alone p2 c3 in
  r1 = Ok "role 'viewer' updated" ∧ r2 = Ok "role 'auditor' updated" ∧
  detect_cycle (hierarchy (roles_of c0)) = None ∧ detect_cycle (hierarchy (roles_of c4)) ≠ None.
Proof. vm_compute. done. Qed.

(** What the deletion of a service account does to the assignments: it does not ask
    whether an administrator remains. *)
Example service_account_may_be_the_last_administrator :
  (∃ u, (u, "admin") ∈ assignments_of demo_core) ∧ ¬ (∃ u, (u, "admin") ∈ assignments_of (remove_user "root" demo_core)).
Proof.
  split; [exists "root"; by apply (bool_decide_unpack _); vm_compute|].
  intros [u Hu]. assert (assignments_of (remove_user "root" demo_core) = [("u1", "editor")]) as E by (vm_compute; done).
  rewrite E in Hu. apply list_elem_of_singleton in Hu. done.
Qed.

Lemma role_admin_requires_admin_witness :
  require_admin demo_pool "u1" = Err (Forbidden "admin access required") ∧
  run_alone (delete_role (λ a, a) "viewer" "u1") demo_core = (Err (Forbidden "admin access required"), demo_core).
Proof.
  assert (require_admin demo_pool "u1" = Err (Forbidden "admin access required")) as H
    by (vm_compute; reflexivity).
  split; [exact H|]. apply (role_admin_requires_admin (λ a, a) "" demo_core "u1" _ H).
Defined.

Lemma administrator_exists_witness : ∃ u, require_admin demo_pool u = Ok tt.
Proof.
  apply (administrator_exists demo_core demo_core_base eq_refl eq_refl).
  intros u. unfold assigned_roles. rewrite length_fmap.
  assert (length (filter (λ row : string * string, row.1 = u) (rbac_assignments (db (pool demo_core)))) ≤ 2) as H
    by apply (length_filter (λ row : string * string, row.1 = u) [("u1", "editor"); ("root", "admin")]).
  assert (pending (hierarchy (roles_of demo_core)) ∅ = 1) as -> by (vm_compute; reflexivity).
  unfold MAX_ROLE_DEPTH. lia.
Defined.
