(* ===== verification/Delegation.v ===== *)
(** * Delegation and the gates that use it

    The delegations table (core/src/governance/delegation/grants.rs), acting as
    another principal (act_as.rs), the check of every owned trigger
    (core/src/governance/triggers/fire_gate.rs) and the identity a unit of work
    runs under (core/src/principal.rs).  Any query may fail; [now()] is the clock
    of the state. *)

From stdpp Require Import base numbers gmap strings sets list.
From S2P Require Import Prelude Str Ident Perms Roles Authority.

(** ** The table *)

Record DelegationRow := {
  d_id : uuid; delegator_uid : uuid; delegatee_uid : uuid; trigger_type : string;
  trigger_ref : option uuid; expires_at : option Z; revoked_at : option Z }.

Definition TRIGGER_TYPES : list string := ["cron"; "hook"; "webhook"; "manual"; "channel"; "act_as"].

(** The database with its delegations, in the order rows are scanned, and [now()]. *)
Record Gov := { gpool : Pool; delegations : list DelegationRow; clock : Z }.
Definition set_delegations (l : list DelegationRow) (g : Gov) : Gov :=
  {| gpool := gpool g; delegations := l; clock := clock g |}.

Definition live (d : DelegationRow) : bool := match revoked_at d with None => true | Some _ => false end.
Definition unexpired (now : Z) (d : DelegationRow) : bool :=
  match expires_at d with None => true | Some t => (now <? t)%Z end.

(** A statement on a table, or its error. *)
Definition run_sql (t : Table) (g : Gov) : result RuntimeError unit :=
  match fault (gpool g) t with Some e => Err (Schema e) | None => Ok tt end.

Definition grants_pair (now : Z) (delegator delegatee : uuid) (d : DelegationRow) : bool :=
  bool_decide (delegator_uid d = delegator) && bool_decide (delegatee_uid d = delegatee)
  && live d && unexpired now d.
Definition is_valid (g : Gov) (delegator delegatee : uuid) : result RuntimeError bool :=
  try? run_sql Delegations g in Ok (existsb (grants_pair (clock g) delegator delegatee) (delegations g)).

Definition validate_delegation_kinds (g : Gov) (delegator delegatee : uuid) (ttype : string) : result RuntimeError unit :=
  try? run_sql Users g in
  let kind_of u := kind <$> users (db (gpool g)) !! u in
  try? ensure (negb (bool_decide (kind_of delegatee = Some "human")))
    (Ident.Delegation "delegatee must not be a human principal") in
  ensure (negb (bool_decide (kind_of delegator = Some "agent") && bool_decide (ttype = "act_as")))
    (Ident.Delegation "agent principals cannot initiate act_as delegations").

(** The row the unique index on live triggers conflicts with. *)
Definition same_trigger (ttype : string) (tref : uuid) (d : DelegationRow) : bool :=
  bool_decide (trigger_type d = ttype) && bool_decide (trigger_ref d = Some tref) && live d.
Definition with_delegator (u : uuid) (d : DelegationRow) : DelegationRow :=
  {| d_id := d_id d; delegator_uid := u; delegatee_uid := delegatee_uid d; trigger_type := trigger_type d;
     trigger_ref := trigger_ref d; expires_at := expires_at d; revoked_at := revoked_at d |}.
Definition revoked (now : Z) (d : DelegationRow) : DelegationRow :=
  {| d_id := d_id d; delegator_uid := delegator_uid d; delegatee_uid := delegatee_uid d;
     trigger_type := trigger_type d; trigger_ref := trigger_ref d; expires_at := expires_at d;
     revoked_at := Some now |}.

(** [INSERT .. ON CONFLICT (trigger_type, trigger_ref) .. DO UPDATE]: [fresh] is
    [gen_random_uuid()]. *)
Definition create (fresh : uuid) (delegator delegatee : uuid) (ttype : string) (tref : option uuid) (g : Gov) :
    result RuntimeError uuid * Gov :=
  match (try? validate_delegation_kinds g delegator delegatee ttype in
         try? run_sql Delegations g in
         ensure (bool_decide (ttype ∈ TRIGGER_TYPES)) (Schema "delegations_trigger_type_check")) with
  | Err e => (Err e, g)
  | Ok _ =>
      let conflict := match tref with
        | Some r => List.find (same_trigger ttype r) (delegations g)
        | None => None end in
      match conflict, tref with
      | Some d, Some r =>
          (Ok (d_id d), set_delegations
            (map (λ d, if same_trigger ttype r d then with_delegator delegator d else d) (delegations g)) g)
      | _, _ =>
          (Ok fresh, set_delegations (delegations g ++
            [{| d_id := fresh; delegator_uid := delegator; delegatee_uid := delegatee; trigger_type := ttype;
                trigger_ref := tref; expires_at := None; revoked_at := None |}]) g)
      end
  end.

(** [UPDATE .. SET revoked_at = now() WHERE .. AND revoked_at IS NULL] *)
Definition revoke_where (f : DelegationRow → bool) (g : Gov) : result RuntimeError unit * Gov :=
  match run_sql Delegations g with
  | Err e => (Err e, g)
  | Ok _ => (Ok tt, set_delegations (map (λ d, if f d && live d then revoked (clock g) d else d) (delegations g)) g)
  end.
Definition revoke (id : uuid) : Gov → result RuntimeError unit * Gov :=
  revoke_where (λ d, bool_decide (d_id d = id)).
Definition revoke_by_trigger (ttype : string) (tref : uuid) : Gov → result RuntimeError unit * Gov :=
  revoke_where (λ d, bool_decide (trigger_type d = ttype) && bool_decide (trigger_ref d = Some tref)).

(** ** Acting as another principal *)

Definition assert_can_act_as (g : Gov) (human target : uuid) : result ApiError unit :=
  let? managed := fetch PublicPrincipals (gpool g) (bool_decide (target ∈ public_execution_principals (db (gpool g)))) in
  if managed : bool then Err (Forbidden "publication principals cannot be impersonated")
  else if decide (human = target) then Ok tt
  else
  let? delegated := map_err (λ e, Internal (runtime_error_text e)) (is_valid g human target) in
  if negb delegated then Err (Forbidden ("no act-as delegation for " +:+ target))
  else
  let? '(_, human_perms) := resolve_permissions (gpool g) human in
  let? '(_, target_perms) := resolve_permissions (gpool g) target in
  if forallb (has_permission human_perms) target_perms then Ok tt
  else Err (Forbidden "act-as denied: target permissions exceed yours (anti-escalation)").

(** [uuid_parse] is [str::parse::<Uuid>]. *)
Definition resolve_owner (uuid_parse : string → option uuid) (g : Gov) (caller : uuid) (run_as : option string) :
    result ApiError uuid :=
  match run_as with
  | Some s =>
      let? target := ok_or (uuid_parse s) (BadRequest "invalid run_as") in
      try? assert_can_act_as g caller target in Ok target
  | None => Ok caller
  end.

Definition grant (fresh : uuid) (human sa : uuid) (g : Gov) : result RuntimeError unit * Gov :=
  match is_valid g human sa with
  | Err e => (Err e, g)
  | Ok true => (Ok tt, g)
  | Ok false => let '(r, g) := create fresh human sa "act_as" None g in (result_map (λ _, tt) r, g)
  end.
Definition act_as_revoke (human sa : uuid) : Gov → result RuntimeError unit * Gov :=
  revoke_where (λ d, bool_decide (delegator_uid d = human) && bool_decide (delegatee_uid d = sa)
                     && bool_decide (trigger_type d = "act_as")).

(** ** The fire gate *)

Inductive FireDenied := NoOwner | DisabledOwner | NoDelegation | NoInvoke (perm : string) | CheckFailed (e : string).
Definition fire_denied_text (d : FireDenied) : string :=
  match d with
  | NoOwner => "no responsible owner"
  | DisabledOwner => "owner disabled or missing"
  | NoDelegation => "no valid delegation"
  | NoInvoke perm => "owner lacks " +:+ perm
  | CheckFailed e => "gate check failed: " +:+ e
  end.

Section Gates.
(** The principal of an app's agent (a uuid of version 5), and [{e:?}]. *)
Context (agent_user_id : string → uuid) (debug_error : ApiError → string).

Definition invoke_key (app_id : string) : string := "app:" +:+ app_id +:+ ":invoke".

Definition assert_can_fire (g : Gov) (owner : option uuid) (app_id : string) : result FireDenied uuid :=
  let? delegator := ok_or owner NoOwner in
  try? ensure (principal_enabled (gpool g) delegator) DisabledOwner in
  let? valid := map_err (λ e, CheckFailed (runtime_error_text e)) (is_valid g delegator (agent_user_id app_id)) in
  try? ensure valid NoDelegation in
  let? holds := map_err (λ e, CheckFailed (debug_error e)) (has_permission_db (gpool g) delegator (invoke_key app_id)) in
  try? ensure holds (NoInvoke (invoke_key app_id)) in
  Ok delegator.

Definition assert_can_fire_workflow (g : Gov) (owner : option uuid) (app_id : string) : result FireDenied uuid :=
  let? uid := ok_or owner NoOwner in
  try? ensure (principal_enabled (gpool g) uid) DisabledOwner in
  let? holds := map_err (λ e, CheckFailed (debug_error e)) (has_permission_db (gpool g) uid (invoke_key app_id)) in
  try? ensure holds (NoInvoke (invoke_key app_id)) in
  Ok uid.
End Gates.

(** ** The caller of a unit of work (principal.rs) *)

Record RpcCaller := {
  rc_user_id : string; rc_email : string; rc_effective_perms : option (list string); rc_connection_id : option string }.

Definition resolve_caller_inheriting (pool : Pool) (user_id : uuid) (inherit : option (list string)) : option RpcCaller :=
  match fault pool Users, fault pool PublicPrincipals with
  | None, None =>
      match users (db pool) !! user_id with
      | Some u =>
          if disabled u then None
          else if decide (user_id ∈ public_execution_principals (db pool)) then None
          else Some {| rc_user_id := user_id; rc_email := email u; rc_effective_perms := inherit; rc_connection_id := None |}
      | None => None
      end
  | _, _ => None
  end.
Definition resolve_caller (pool : Pool) (user_id : uuid) : option RpcCaller := resolve_caller_inheriting pool user_id None.
Definition resolve_caller_pinned (pool : Pool) (user_id : uuid) (connection_id : string) : option RpcCaller :=
  c ← resolve_caller pool user_id;
  Some {| rc_user_id := rc_user_id c; rc_email := rc_email c; rc_effective_perms := rc_effective_perms c;
          rc_connection_id := Some connection_id |}.

(** ** What the gates establish *)

(** A delegation in force from one principal to another. *)
Definition in_force (g : Gov) (delegator delegatee : uuid) : Prop :=
  ∃ d, d ∈ delegations g ∧ delegator_uid d = delegator ∧ delegatee_uid d = delegatee
    ∧ revoked_at d = None ∧ unexpired (clock g) d = true.

Lemma is_valid_ok g a b v : is_valid g a b = Ok v → v = true ↔ in_force g a b.
Proof.
  unfold is_valid. destruct (run_sql Delegations g); [|done]. simpl. intros [= <-].
  rewrite existsb_exists. unfold in_force. setoid_rewrite <-list_elem_of_In. unfold grants_pair, live. split.
  - intros (d & Hd & H). bool_hyps. exists d. by destruct (revoked_at d).
  - intros (d & Hd & <- & <- & Hr & Hx). exists d. split; [done|]. rewrite Hr, Hx. by rewrite !bool_decide_true.
Qed.

(** [C14] Whoever may act as another principal has a delegation in force to it and
    every permission it has, so acting as it never passes a gate the human would
    not pass; the principals of publications cannot be acted as at all. *)
Theorem act_as_never_escalates g human target :
  assert_can_act_as g human target = Ok tt →
  target ∉ public_execution_principals (db (gpool g))
  ∧ (human ≠ target →
       in_force g human target
       ∧ ∀ r, has_permission (perms_or_none (gpool g) target) r = true →
              has_permission (perms_or_none (gpool g) human) r = true).
Proof.
  unfold assert_can_act_as, fetch, perms_or_none. destruct (fault _ PublicPrincipals); [done|]. simpl.
  case_bool_decide as Hm; [done|]. case_decide; [done|]. intros H1. split; [done|]. intros _.
  destruct (is_valid g human target) as [v|] eqn:Hv; [|done]. simpl in H1. destruct v; [|done]. simpl in H1.
  split; [by apply (is_valid_ok _ _ _ _ Hv)|].
  destruct (resolve_permissions (gpool g) human) as [[rh ph]|]; [|done]. simpl in H1.
  destruct (resolve_permissions (gpool g) target) as [[rt pt]|]; [|done]. simpl in H1.
  destruct (forallb _ _) eqn:Hall; [|done]. intros r. apply has_permission_trans.
  intros p Hp%list_elem_of_In. by eapply forallb_forall in Hall.
Qed.

(** The permission gate of the database, on resolved permissions. *)
Lemma has_permission_db_ok pool u r v :
  has_permission_db pool u r = Ok v → v = has_permission (perms_or_none pool u) r.
Proof.
  intros H. assert (fault pool RbacAssignments = None ∧ fault pool RbacRoles = None) as [Ha Hr].
  { unfold has_permission_db, fetch in H. destruct (fault pool RbacAssignments); [done|].
    by destruct (fault pool RbacRoles). }
  destruct (resolve_permissions pool u) as [[roles perms]|e] eqn:Hp.
  - rewrite (has_permission_db_resolved _ _ _ _ _ Hp Hr) in H. unfold perms_or_none. rewrite Hp. congruence.
  - exfalso. revert Hp. unfold resolve_permissions, fetch. rewrite Ha, Hr. simpl. by destruct (assigned_roles _ _).
Qed.

Lemma is_valid_no_fault g a b : fault (gpool g) Delegations = None → ∃ v, is_valid g a b = Ok v.
Proof. unfold is_valid, run_sql. intros ->. by eexists. Qed.
Lemma has_permission_db_no_fault pool u r :
  fault pool RbacAssignments = None → fault pool RbacRoles = None → ∃ v, has_permission_db pool u r = Ok v.
Proof. unfold has_permission_db, fetch. intros -> ->. by eexists. Qed.

Section FireGate.
Context (agent_user_id : string → uuid) (debug_error : ApiError → string).

Definition may_fire (g : Gov) (owner : option uuid) (app_id : string) (u : uuid) : Prop :=
  owner = Some u ∧ principal_enabled (gpool g) u = true ∧ in_force g u (agent_user_id app_id)
  ∧ has_permission (perms_or_none (gpool g) u) (invoke_key app_id) = true.

(** A trigger fires under its owner exactly when the owner is there and
    enabled, has a delegation in force to the app's agent and may invoke the app;
    a failing dependency denies. *)
Theorem fire_gate_decides g owner app_id u :
  (assert_can_fire agent_user_id debug_error g owner app_id = Ok u → may_fire g owner app_id u)
  ∧ ((∀ t, fault (gpool g) t = None) → may_fire g owner app_id u →
       assert_can_fire agent_user_id debug_error g owner app_id = Ok u).
Proof.
  unfold assert_can_fire, may_fire. split.
  - destruct owner as [u'|]; [|done]. simpl. destruct (principal_enabled _ u') eqn:He; [|done]. simpl.
    destruct (is_valid _ _ _) as [v|] eqn:Hv; [|done]. simpl. destruct v; [|done]. simpl.
    destruct (has_permission_db _ _ _) as [h|] eqn:Hh; [|done]. simpl. destruct h; [|done]. intros [= <-].
    apply has_permission_db_ok in Hh. split_and!; try done. by apply (is_valid_ok _ _ _ _ Hv).
  - intros Hf (-> & He & Hd & Hh). simpl. rewrite He. simpl.
    destruct (is_valid_no_fault g u (agent_user_id app_id) (Hf _)) as [v Hv]. rewrite Hv. simpl.
    apply (is_valid_ok _ _ _ _ Hv) in Hd as ->. simpl.
    destruct (has_permission_db_no_fault (gpool g) u (invoke_key app_id) (Hf _) (Hf _)) as [h Hp].
    rewrite Hp. apply has_permission_db_ok in Hp. rewrite Hh in Hp. by subst.
Qed.
End FireGate.

(** ** The table over time

    Requests on the table, the passing of time and any change of the rest of the
    database, in any order; a fresh id is new to the table. *)

Definition fresh_id (i : uuid) (g : Gov) : Prop := ∀ d, d ∈ delegations g → d_id d ≠ i.

Inductive dstep : Gov → Gov → Prop :=
  | d_create i a b ttype tref g : fresh_id i g → dstep g (snd (create i a b ttype tref g))
  | d_grant i a b g : fresh_id i g → dstep g (snd (grant i a b g))
  | d_revoke i g : dstep g (snd (revoke i g))
  | d_revoke_by_trigger ttype tref g : dstep g (snd (revoke_by_trigger ttype tref g))
  | d_act_as_revoke a b g : dstep g (snd (act_as_revoke a b g))
  | d_world pool t g : (clock g ≤ t)%Z → dstep g {| gpool := pool; delegations := delegations g; clock := t |}.

(** The constraints of the table: the check of trigger types, the primary key and
    the unique index on live triggers. *)
Definition table_ok (l : list DelegationRow) : Prop :=
  Forall (λ d, trigger_type d ∈ TRIGGER_TYPES) l
  ∧ NoDup (d_id <$> l)
  ∧ ∀ i j d1 d2 ty r, l !! i = Some d1 → l !! j = Some d2 →
      same_trigger ty r d1 = true → same_trigger ty r d2 = true → i = j.

(** What a row keeps, and that a revocation is final. *)
Definition row_le (d d' : DelegationRow) : Prop :=
  d_id d' = d_id d ∧ delegatee_uid d' = delegatee_uid d ∧ trigger_type d' = trigger_type d
  ∧ trigger_ref d' = trigger_ref d ∧ expires_at d' = expires_at d
  ∧ (revoked_at d ≠ None → d' = d).
#[export] Instance row_le_refl : Reflexive row_le.
Proof. by intros d. Qed.
#[export] Instance row_le_trans : Transitive row_le.
Proof.
  intros d1 d2 d3 (?&?&?&?&?&H) (?&?&?&?&?&H'). repeat split; try congruence.
  intros Hr. pose proof (H Hr) as ->. auto.
Qed.

Definition rows_le (l l' : list DelegationRow) : Prop :=
  ∀ i d, l !! i = Some d → ∃ d', l' !! i = Some d' ∧ row_le d d'.
#[export] Instance rows_le_refl : Reflexive rows_le.
Proof. intros l i d H. eauto using row_le_refl. Qed.
#[export] Instance rows_le_trans : Transitive rows_le.
Proof.
  intros l1 l2 l3 H H' i d Hd. destruct (H _ _ Hd) as (d' & Hd' & ?), (H' _ _ Hd') as (d'' & ? & ?).
  eexists. split; [done|]. by etrans.
Qed.

(** The two ways a statement changes the table: rows updated in place without
    bringing one back to life, and a row added that no live row conflicts with. *)
Lemma update_table_ok f l : (∀ d, row_le d (f d)) → table_ok l → table_ok (map f l) ∧ rows_le l (map f l).
Proof.
  intros Hf (Hty & Hid & Hu). assert (∀ d, live (f d) = true → live d = true) as Hlive.
  { intros d. destruct (Hf d) as (_&_&_&_&_&H). unfold live. destruct (revoked_at d) eqn:E; [|done].
    rewrite H; [by rewrite E|done]. }
  assert (∀ ty r d, same_trigger ty r (f d) = true → same_trigger ty r d = true) as Hst.
  { intros ty r d. destruct (Hf d) as (_&_&Ht&Hr&_). unfold same_trigger. rewrite Ht, Hr. intros H. bool_hyps.
    rewrite Hlive by done. by rewrite !bool_decide_true. }
  change (map f l) with (f <$> l). unfold table_ok. split_and!.
  - apply Forall_fmap. eapply Forall_impl; [done|]. intros d H. cbn. by destruct (Hf d) as (_&_&->&_).
  - replace (d_id <$> (f <$> l)) with (d_id <$> l); [done|].
    rewrite <-list_fmap_compose. apply list_fmap_ext. intros i d _. symmetry. apply (Hf d).
  - intros i j d1 d2 ty r H1 H2 S1 S2.
    apply list_lookup_fmap_Some in H1 as (e1 & -> & H1), H2 as (e2 & -> & H2). eauto.
  - intros i d Hd. exists (f d). by rewrite list_lookup_fmap, Hd.
Qed.

Lemma insert_table_ok l d :
  trigger_type d ∈ TRIGGER_TYPES → (∀ d', d' ∈ l → d_id d' ≠ d_id d) →
  (∀ ty r d', d' ∈ l → same_trigger ty r d' = true → same_trigger ty r d = false) →
  table_ok l → table_ok (l ++ [d]) ∧ rows_le l (l ++ [d]).
Proof.
  intros Hd Hf Hc (Hty & Hid & Hu). unfold table_ok. split_and!.
  - by apply Forall_app_2; [|apply Forall_singleton].
  - rewrite fmap_app. apply NoDup_app. split_and!; [done| |by apply NoDup_singleton].
    intros x (d' & -> & Hd')%list_elem_of_fmap. simpl. intros ?%list_elem_of_singleton. by eapply Hf.
  - intros i j d1 d2 ty r H1 H2 S1 S2.
    apply lookup_snoc_Some in H1 as [[? H1]|[-> <-]], H2 as [[? H2]|[-> <-]]; eauto.
    + apply list_elem_of_lookup_2 in H1. by rewrite (Hc ty r d1) in S2.
    + apply list_elem_of_lookup_2 in H2. by rewrite (Hc ty r d2) in S1.
  - intros i e He. exists e. split; [|reflexivity]. by apply lookup_app_l_Some.
Qed.

Lemma create_table_ok i a b ty tref g :
  fresh_id i g → table_ok (delegations g) →
  table_ok (delegations (create i a b ty tref g).2) ∧ rows_le (delegations g) (delegations (create i a b ty tref g).2).
Proof.
  intros Hf Hok. unfold create.
  destruct (result_bind _ _) eqn:Hv; [|by split]. inv_ok. bool_hyps.
  assert (∀ c, (∀ r d, tref = Some r → d ∈ delegations g → same_trigger ty r d = false) →
    let g' := set_delegations (delegations g ++ [{| d_id := i; delegator_uid := a; delegatee_uid := b;
      trigger_type := ty; trigger_ref := tref; expires_at := None; revoked_at := None |}]) g in
    c = g' → table_ok (delegations c) ∧ rows_le (delegations g) (delegations c)) as Hins.
  { intros c Hn g' ->. apply insert_table_ok; [done|done| |done]. intros ty' r d Hd Hs.
    unfold same_trigger at 1. simpl. apply not_true_is_false. intros H. bool_hyps. subst.
    by rewrite (Hn r d) in Hs. }
  destruct tref as [r|]; [|by eapply Hins]. destruct (List.find _ _) eqn:Hfind.
  - simpl. apply update_table_ok; [|done]. intros d'. unfold same_trigger, live.
    destruct (revoked_at d') eqn:E; [by rewrite andb_false_r|]. case_match; [|reflexivity].
    by repeat split.
  - eapply Hins; [|done]. intros r' d [= <-] Hd%list_elem_of_In. by eapply List.find_none in Hfind.
Qed.

Lemma revoke_where_table_ok f g :
  table_ok (delegations g) →
  table_ok (delegations (revoke_where f g).2) ∧ rows_le (delegations g) (delegations (revoke_where f g).2).
Proof.
  intros Hok. unfold revoke_where. destruct (run_sql _ _); [|by split]. simpl. apply update_table_ok; [|done].
  intros d. unfold live. destruct (f d), (revoked_at d) eqn:?; try reflexivity. by repeat split.
Qed.

Lemma dsteps_table_ok g g' :
  table_ok (delegations g) → rtc dstep g g' → table_ok (delegations g') ∧ rows_le (delegations g) (delegations g').
Proof.
  intros Hok Hs. revert Hok. induction Hs as [g|g1 g2 g3 Hs _ IH]; intros Hok; [by split|].
  assert (table_ok (delegations g2) ∧ rows_le (delegations g1) (delegations g2)) as [H1 H2].
  { destruct Hs as [| i a b g Hf | | | |]; try (by apply create_table_ok); try (by apply revoke_where_table_ok); try by split.
    unfold grant. destruct (is_valid g a b) as [[]|]; try by split.
    pose proof (create_table_ok i a b "act_as" None g Hf Hok) as H. by destruct (create _ _ _ _ _ _). }
  destruct (IH H1). split; [done|]. by etrans.
Qed.

(** The delegations table over time: under any sequence of requests, time and
    changes of the rest of the database, every row has a known trigger type and
    its own id, at most one live row stands for a trigger, no row is ever removed
    or loses its delegatee, trigger or expiry, and a revoked row never changes
    again. *)
Theorem delegations_invariant g g' :
  table_ok (delegations g) → rtc dstep g g' → table_ok (delegations g') ∧ rows_le (delegations g) (delegations g').
Proof. apply dsteps_table_ok. Qed.

(** ** Examples *)

(** [u1] is a service account here. *)
Definition service_pool : Pool :=
  {| db := {| users := {["u1" := {| email := "bot"; kind := "service"; disabled := false |}]};
              public_execution_principals := ∅; rbac_roles := rbac_roles demo_db;
              rbac_assignments := rbac_assignments demo_db |};
     fault := λ _, None |}.
Definition demo_gov : Gov :=
  {| gpool := service_pool; clock := 10;
     delegations := [
       {| d_id := "d1"; delegator_uid := "root"; delegatee_uid := "u1"; trigger_type := "act_as";
          trigger_ref := None; expires_at := None; revoked_at := None |};
       {| d_id := "d2"; delegator_uid := "root"; delegatee_uid := "u1"; trigger_type := "cron";
          trigger_ref := Some "c1"; expires_at := Some 20%Z; revoked_at := None |}] |}.

Lemma act_as_never_escalates_witness :
  assert_can_act_as demo_gov "root" "u1" = Ok tt
  ∧ (has_permission (perms_or_none service_pool "u1") "app:crm:c.read" = true →
     has_permission (perms_or_none service_pool "root") "app:crm:c.read" = true).
Proof.
  assert (assert_can_act_as demo_gov "root" "u1" = Ok tt) as H by (vm_compute; reflexivity).
  split; [exact H|]. destruct (act_as_never_escalates demo_gov "root" "u1" H) as [_ H2].
  apply (proj2 (H2 ltac:(discriminate))).
Defined.

(** Revoking the act-as delegations of a pair leaves the one a cron created, and
    acting as the principal is still allowed until that one expires. *)
Lemma act_as_outlives_its_revocation :
  let g := (act_as_revoke "root" "u1" demo_gov).2 in
  (act_as_revoke "root" "u1" demo_gov).1 = Ok tt ∧ assert_can_act_as g "root" "u1" = Ok tt
  ∧ assert_can_act_as {| gpool := gpool g; delegations := delegations g; clock := 20 |} "root" "u1"
      = Err (Forbidden "no act-as delegation for u1").
Proof. by vm_compute. Qed.

(** Creating the delegation of a trigger that has one keeps its delegatee. *)
Lemma create_keeps_the_old_delegatee :
  let g := (create "d3" "u1" "other-agent" "cron" (Some "c1") demo_gov).2 in
  (create "d3" "u1" "other-agent" "cron" (Some "c1") demo_gov).1 = Ok "d2"
  ∧ is_valid g "u1" "u1" = Ok true ∧ is_valid g "u1" "other-agent" = Ok false.
Proof. by vm_compute. Qed.

Lemma demo_table_ok : table_ok (delegations demo_gov).
Proof.
  split_and!.
  - repeat constructor; vm_compute; set_solver.
  - apply (bool_decide_unpack _). by vm_compute.
  - intros i j d1 d2 ty r H1 H2 S1 S2. unfold same_trigger in *. bool_hyps.
    destruct i as [|[|?]], j as [|[|?]]; simplify_eq/=; done.
Qed.

Lemma delegations_invariant_witness :
  ∃ d, (act_as_revoke "root" "u1" demo_gov).2.(delegations) !! 0%nat = Some d ∧ delegatee_uid d = "u1".
Proof.
  destruct (delegations_invariant demo_gov _ demo_table_ok
    (rtc_once _ _ (d_act_as_revoke "root" "u1" demo_gov))) as [_ H].
  destruct (H 0%nat _ eq_refl) as (d & Hd & _ & He & _). exists d. split; [exact Hd|exact He].
Defined.
