(* ===== verification/Execution.v ===== *)
(** * Admission and revalidation of agent runs

    core/src/governance/execution.rs, with the channel sessions that are its
    origins (core/src/extensions/channels/origin.rs) and the tool executor that
    revalidates before each call (core/src/tool_executor.rs, core/src/tools/mod.rs).

    Nothing stands still between two awaits: an operation is a function of the
    instant it starts at and returns the instant it ends at, every read sees the
    world of its own instant, and theorems speak of the instants in between. *)

From stdpp Require Import base numbers gmap strings sets list.
From S2P Require Import Prelude Str Ident Perms Roles Authority Delegation.

(** ** The world an operation reads *)

Section Execution.
(** The configuration of a channel (JSON), [serde_json::to_string] on the three
    parts of a key, and what a channel's provider answers, if the provider is
    known: [provider_for] and [authorize_session]. *)
Context {Config : Type}.

Record ChannelRow := { ch_id : uuid; ch_provider : string; ch_config : Config; ch_status : string }.
Record IdentityRow := { ci_channel_id : uuid; ci_external_chat_id : string; ci_user_id : uuid }.

Record World := {
  wgov : Gov; channels : list ChannelRow; channel_identities : list IdentityRow;
  channels_fault : option string }.
Definition wpool (w : World) : Pool := gpool (wgov w).

(** [tokio_util]'s cancellation tokens, read at an instant: a token once cancelled
    stays so, and cancels its children. *)
Class CancellationTokens (T : Type) := {
  new_token : nat → T;
  child_token : nat → T → T;
  is_cancelled : nat → T → bool;
  is_cancelled_stays i j k : i ≤ j → is_cancelled i k = true → is_cancelled j k = true;
  child_is_cancelled n i k : is_cancelled i k = true → is_cancelled i (child_token n k) = true }.

(** trait ExecutionOrigin *)
Class ExecutionOrigin (O : Type) := {
  origin_key : O → string;
  origin_validate : O → World → uuid → string → result string unit }.

Record ApprovalOwner := { ao_user_id : uuid; ao_origin : option string }.

(** ** Operations over time *)

Context (world : nat → World).

Definition Exec (A : Type) : Type := nat → result string A * nat.
Definition ret {A} (a : A) : Exec A := λ t, (Ok a, t).
Definition fail {A} (e : string) : Exec A := λ t, (Err e, t).
Definition bind {A B} (m : Exec A) (k : A → Exec B) : Exec B :=
  λ t, match m t with (Ok a, t) => k a t | (Err e, t) => (Err e, t) end.
(** One await: the answer depends on its instant. *)
Definition observe {A} (f : nat → result string A) : Exec A := λ t, (f t, S t).
Definition read {A} (f : World → result string A) : Exec A := observe (λ t, f (world t)).
Notation "'let!' x := m 'in' k" := (bind m (λ x, k))
  (at level 200, x binder, m at level 100, k at level 200, right associativity).
Notation "'try!' m 'in' k" := (bind m (λ _ : unit, k))
  (at level 200, m at level 100, k at level 200, right associativity).
Definition require (b : bool) (e : string) : Exec unit := if b then ret tt else fail e.

Lemma bind_ok {A B} (m : Exec A) (k : A → Exec B) t b t' :
  bind m k t = (Ok b, t') → ∃ a t1, m t = (Ok a, t1) ∧ k a t1 = (Ok b, t').
Proof. unfold bind. destruct (m t) as [[a|e] t1]; [|done]. eauto. Qed.
Lemma observe_ok {A} (f : nat → result string A) t a t' : observe f t = (Ok a, t') → f t = Ok a ∧ t' = S t.
Proof. by intros [= ? <-]. Qed.
Lemma require_ok b e t u t' : require b e t = (Ok u, t') → b = true ∧ t' = t.
Proof. destruct b; [by intros [= _ <-]|done]. Qed.

Ltac exec_ok :=
  repeat match goal with
  | H : bind _ _ _ = (Ok _, _) |- _ =>
      let a := fresh "a" in let i := fresh "i" in let H1 := fresh "Hm" in let H2 := fresh "Hk" in
      apply bind_ok in H as (a & i & H1 & H2); cbv beta zeta in *
  | H : read _ _ = (Ok _, _) |- _ => unfold read in H
  | H : observe _ _ = (Ok _, _) |- _ => apply observe_ok in H as [? ->]
  | H : require _ _ _ = (Ok _, _) |- _ => apply require_ok in H as [? ->]
  | H : ret _ _ = (Ok _, _) |- _ => injection H as <- <-
  | H : fail _ _ = (Ok _, _) |- _ => discriminate H
  end; inv_ok.

(** ** Agent authority *)

Context {T O : Type} `{!CancellationTokens T} `{!ExecutionOrigin O}.
Context (agent_user_id : string → uuid) (debug_error : ApiError → string).

Record AgentAuthority := {
  human : uuid; agents : list string; ceiling : list string; task_scope : option (list string);
  origin : option O; lifetime : T }.
Inductive AgentSource := Direct | Origin (o : O) | Child (parent : AgentAuthority).

(** [agents[0]] and [agents.last()]; a lineage is never empty. *)
Definition root_app (a : AgentAuthority) : string := default EmptyString (head (agents a)).
Definition app (a : AgentAuthority) : string := default EmptyString (last (agents a)).
Definition is_child (a : AgentAuthority) : bool := bool_decide (1 < length (agents a)).
Definition owner (a : AgentAuthority) : ApprovalOwner :=
  {| ao_user_id := human a; ao_origin := origin_key <$> origin a |}.
(** [to_json] is [serde_json::to_string] *)
Definition partition_key (to_json : list string * option string → string) (a : AgentAuthority) : string :=
  to_json (agents a, origin_key <$> origin a).

Definition ensure_active (k : T) : Exec unit :=
  observe (λ t, ensure (negb (is_cancelled t k)) "agent invocation ended").
Definition principal_enabled_at (u : uuid) : Exec bool := read (λ w, Ok (principal_enabled (wpool w) u)).
Definition permissions_at (u : uuid) : Exec (list string) :=
  read (λ w, result_map snd (map_err debug_error (resolve_permissions (wpool w) u))).
Definition validate_origin (o : option O) (h : uuid) (root : string) : Exec unit :=
  match o with Some o => read (λ w, origin_validate o w h root) | None => ret tt end.

(** The loop over the agents of the lineage. *)
Fixpoint narrow (apps : list string) (current : list string) : Exec (list string) :=
  match apps with
  | [] => ret current
  | app :: rest =>
      try! require (has_permission current (invoke_key app)) ("permission denied: app:" +:+ app +:+ ":invoke") in
      let! on := principal_enabled_at (agent_user_id app) in
      try! require on "agent disabled or missing" in
      let! permissions := permissions_at (agent_user_id app) in
      narrow rest (intersect_permissions current permissions)
  end.

Definition revalidate (a : AgentAuthority) : Exec (list string) :=
  try! ensure_active (lifetime a) in
  let! on := principal_enabled_at (human a) in
  try! require on "responsible human disabled or missing" in
  try! validate_origin (origin a) (human a) (root_app a) in
  let! current := permissions_at (human a) in
  let! current := narrow (agents a) current in
  try! ensure_active (lifetime a) in
  ret (intersect_permissions (ceiling a) current).

(** The first half of [admit]: where the run comes from. *)
Definition admit_source (app : string) (h : uuid) (scope : option (list string)) (source : AgentSource) :
    Exec (list string * list string * option O * T * option (list string)) :=
  match source with
  | Child parent =>
      try! require (bool_decide (human parent = h)) "delegation identity mismatch" in
      try! require (negb (bool_decide (app ∈ agents parent))) "agent delegation cycle" in
      let! ceiling := revalidate parent in
      let! token := observe (λ t, Ok (child_token t (lifetime parent))) in
      ret (agents parent, ceiling, origin parent, token, task_scope parent)
  | _ =>
      let! on := principal_enabled_at h in
      try! require on "responsible human disabled or missing" in
      let! ceiling := permissions_at h in
      let! token := observe (λ t, Ok (new_token t)) in
      ret ([], ceiling, match source with Origin o => Some o | _ => None end, token, scope)
  end.

Definition admit_agent (app : string) (h : option uuid) (scope : option (list string)) (source : AgentSource) :
    Exec AgentAuthority :=
  let! h := observe (λ _, ok_or h "agent execution requires a responsible human") in
  let! src := admit_source app h scope source in
  let '(ags, ceil, orig, token, tscope) := src in
  try! require (has_permission ceil (invoke_key app)) ("permission denied: app:" +:+ app +:+ ":invoke") in
  let! on := principal_enabled_at (agent_user_id app) in
  try! require on "agent disabled or missing" in
  let! current := permissions_at (agent_user_id app) in
  let ceil := intersect_permissions ceil current in
  let ceil := match tscope with Some s => intersect_permissions ceil s | None => ceil end in
  let a := {| human := h; agents := ags ++ [app]; ceiling := ceil; task_scope := tscope;
              origin := orig; lifetime := token |} in
  try! validate_origin orig h (root_app a) in
  try! ensure_active token in
  ret a.

(** ** What holds of the instants an operation spans *)

Definition during (t t' : nat) (P : World → Prop) : Prop := ∃ i, t ≤ i < t' ∧ P (world i).
Lemma during_weaken t1 t1' t2 t2' (P : World → Prop) : during t1 t1' P → t2 ≤ t1 → t1' ≤ t2' → during t2 t2' P.
Proof. intros (i & ? & ?) ? ?. exists i. split; [lia|done]. Qed.
Lemma during_now t (P : World → Prop) : P (world t) → during t (S t) P.
Proof. intros ?. exists t. split; [lia|done]. Qed.

Definition allowed_during (t t' : nat) (u : uuid) (r : string) : Prop :=
  during t t' (λ w, Allows (perms_or_none (wpool w) u) r).
Definition enabled_during (t t' : nat) (u : uuid) : Prop :=
  during t t' (λ w, principal_enabled (wpool w) u = true).

Lemma permissions_at_ok u t p t' : permissions_at u t = (Ok p, t') → t' = S t ∧ p = perms_or_none (wpool (world t)) u.
Proof.
  unfold permissions_at, perms_or_none. intros H. exec_ok.
  by match goal with H : resolve_permissions _ _ = _ |- _ => rewrite H; destruct a end.
Qed.
Lemma principal_enabled_at_ok u t b t' :
  principal_enabled_at u t = (Ok b, t') → t' = S t ∧ b = principal_enabled (wpool (world t)) u.
Proof. unfold principal_enabled_at. intros H. by exec_ok. Qed.
Lemma ensure_active_ok k t x t' : ensure_active k t = (Ok x, t') → t' = S t ∧ is_cancelled t k = false.
Proof. unfold ensure_active. intros H. exec_ok. split; [done|]. by apply negb_true_iff. Qed.
Lemma validate_origin_ok o h root t x t' :
  validate_origin o h root t = (Ok x, t') →
  t ≤ t' ∧ (∀ o', o = Some o' → during t t' (λ w, origin_validate o' w h root = Ok tt)).
Proof.
  destruct o as [o|]; simpl; intros H; exec_ok; split; try lia; [|done].
  intros o' [= <-]. apply during_now. by destruct x.
Qed.

(** What an agent of a lineage contributes to the permissions of a run. *)
Definition agent_allows (t t' : nat) (r : string) (app : string) : Prop :=
  enabled_during t t' (agent_user_id app) ∧ allowed_during t t' (agent_user_id app) r.

Lemma agent_allows_weaken t1 t1' t2 t2' r a : agent_allows t1 t1' r a → t2 ≤ t1 → t1' ≤ t2' → agent_allows t2 t2' r a.
Proof. intros [? ?] ? ?. split; by eapply during_weaken. Qed.

Ltac exec_facts :=
  exec_ok;
  repeat match goal with
  | H : principal_enabled_at _ _ = (Ok _, _) |- _ => apply principal_enabled_at_ok in H as [-> ?]
  | H : permissions_at _ _ = (Ok _, _) |- _ => apply permissions_at_ok in H as [-> ?]
  | H : ensure_active _ _ = (Ok _, _) |- _ => apply ensure_active_ok in H as [-> ?]
  | H : validate_origin _ _ _ _ = (Ok _, _) |- _ => apply validate_origin_ok in H as [? ?]
  end.

Lemma narrow_ok apps cur t p t' :
  narrow apps cur t = (Ok p, t') →
  t ≤ t' ∧ ∀ r, Allows p r → Allows cur r ∧ ∀ app, app ∈ apps → agent_allows t t' r app.
Proof.
  revert cur t. induction apps as [|app apps IH]; simpl; intros cur t H.
  - exec_ok. split; [done|]. intros r Hr. split; [done|]. by intros ? ?%not_elem_of_nil.
  - exec_facts. subst.
    match goal with H : narrow _ _ _ = _ |- _ => apply IH in H as [Hle Hk] end. split; [lia|]. intros r Hr.
    destruct (Hk r Hr) as [[Hc Ha]%intersect_allows Hrest]. split; [done|].
    intros app' [->|Hin]%elem_of_cons; [split|].
    + exists t. split; [lia|done].
    + exists (S t). split; [lia|done].
    + eapply agent_allows_weaken; [by apply Hrest|lia|lia].
Qed.

Lemma revalidate_ok a t p t' :
  revalidate a t = (Ok p, t') →
  t < t' ∧ enabled_during t t' (human a)
  ∧ (∀ o, origin a = Some o → during t t' (λ w, origin_validate o w (human a) (root_app a) = Ok tt))
  ∧ (∀ i, t ≤ i < t' → is_cancelled i (lifetime a) = false)
  ∧ ∀ r, Allows p r → Allows (ceiling a) r ∧ allowed_during t t' (human a) r
                      ∧ ∀ app, app ∈ agents a → agent_allows t t' r app.
Proof.
  unfold revalidate. intros H. exec_facts. subst.
  match goal with H : narrow _ _ _ = _ |- _ => apply narrow_ok in H as [Hle Hn] end.
  match goal with H : ∀ o', origin a = Some o' → _ |- _ => rename H into Ho end.
  split_and!; [lia| | | |].
  - exists (S t). split; [lia|done].
  - intros o Hs. eapply during_weaken; [by apply Ho|lia|lia].
  - intros i Hi. apply not_true_is_false. intros Hc. eapply is_cancelled_stays in Hc; [|apply le_S_n; apply Hi].
    congruence.
  - intros r [Hc Hr]%intersect_allows. destruct (Hn r Hr) as [Hh Ha]. split_and!; [done| |].
    + eexists. split; [|exact Hh]. lia.
    + intros app' Hin. eapply agent_allows_weaken; [by apply Ha|lia|lia].
Qed.

(** ** Lineages of runs *)

(** [a] is admitted as a child of [parent] between two instants. *)
Definition child_of (parent a : AgentAuthority) : Prop :=
  ∃ app h scope t t', admit_agent app h scope (Child parent) t = (Ok a, t').

(** [r] was allowed to a principal at some instant. *)
Definition once_allowed (u : uuid) (r : string) : Prop := ∃ t, Allows (perms_or_none (wpool (world t)) u) r.
Lemma allowed_during_once t t' u r : allowed_during t t' u r → once_allowed u r.
Proof. intros (i & _ & H). by exists i. Qed.

(** What every admitted run satisfies: the agents of its lineage are distinct, and
    its ceiling allows what its human, every agent of the lineage and the task
    scope were allowed. *)
Definition bounded (a : AgentAuthority) : Prop :=
  NoDup (agents a) ∧ agents a ≠ []
  ∧ ∀ r, Allows (ceiling a) r →
      once_allowed (human a) r
      ∧ (∀ app, app ∈ agents a → once_allowed (agent_user_id app) r)
      ∧ match task_scope a with Some s => Allows s r | None => True end.

Lemma admit_tail_ok app h t (ags ceil : list string) (orig : option O) (token : T) tscope a t' :
  (try! require (has_permission ceil (invoke_key app)) ("permission denied: app:" +:+ app +:+ ":invoke") in
   let! on := principal_enabled_at (agent_user_id app) in
   try! require on "agent disabled or missing" in
   let! current := permissions_at (agent_user_id app) in
   let ceil := intersect_permissions ceil current in
   let ceil := match tscope with Some s => intersect_permissions ceil s | None => ceil end in
   let a := {| human := h; agents := ags ++ [app]; ceiling := ceil; task_scope := tscope;
               origin := orig; lifetime := token |} in
   try! validate_origin orig h (root_app a) in
   try! ensure_active token in
   ret a) t = (Ok a, t') →
  human a = h ∧ agents a = ags ++ [app] ∧ origin a = orig ∧ lifetime a = token ∧ task_scope a = tscope
  ∧ (∃ i, is_cancelled i token = false)
  ∧ ∀ r, Allows (ceiling a) r →
      Allows ceil r ∧ once_allowed (agent_user_id app) r ∧ match tscope with Some s => Allows s r | None => True end.
Proof.
  intros H. exec_facts. subst. simpl. split_and!; try done; [eauto|].
  intros r Hr. assert (∀ c, Allows (intersect_permissions ceil c) r → Allows ceil r ∧ Allows c r) as Hi
    by (intros c; apply intersect_allows).
  destruct tscope as [s|].
  - apply intersect_allows in Hr as [Hr Hs]. apply Hi in Hr as [? ?]. split_and!; [done| |done]. by eexists.
  - apply Hi in Hr as [? ?]. split_and!; [done| |done]. by eexists.
Qed.

Lemma admit_root_ok app h scope source a t t' :
  (∀ p, source ≠ Child p) → admit_agent app h scope source t = (Ok a, t') →
  h = Some (human a) ∧ agents a = [app] ∧ bounded a.
Proof.
  intros Hs H. unfold admit_agent in H. apply bind_ok in H as (h' & i & H1 & H2).
  apply observe_ok in H1 as [H1 ->]. inv_ok. apply bind_ok in H2 as (src & j & Hsrc & H).
  destruct src as [[[[ags ceil] orig] token] tscope].
  apply admit_tail_ok in H as (Hh & Hag & _ & _ & Hts & _ & Hc).
  assert (ags = [] ∧ ∃ k, ceil = perms_or_none (wpool (world k)) h') as [-> [k ->]].
  { destruct source; try (by exfalso; eapply Hs); unfold admit_source in Hsrc; exec_facts;
    simplify_eq; eauto. }
  split_and!; [congruence|done|]. unfold bounded. rewrite Hag, Hts, Hh. simpl. split_and!.
  - apply NoDup_singleton.
  - done.
  - intros r Hr. destruct (Hc r Hr) as (? & Ha & ?). split_and!; [by exists k| |done].
    by intros app' ->%list_elem_of_singleton.
Qed.

Lemma admit_child_ok app h scope parent a t t' :
  admit_agent app h scope (Child parent) t = (Ok a, t') →
  human a = human parent ∧ agents a = agents parent ++ [app] ∧ app ∉ agents parent
  ∧ origin a = origin parent ∧ task_scope a = task_scope parent
  ∧ (∃ n, lifetime a = child_token n (lifetime parent))
  ∧ ∀ r, Allows (ceiling a) r → Allows (ceiling parent) r ∧ once_allowed (agent_user_id app) r.
Proof.
  intros H. unfold admit_agent in H. apply bind_ok in H as (h' & i & H1 & H2).
  apply observe_ok in H1 as [H1 ->]. inv_ok. apply bind_ok in H2 as (src & j & Hsrc & H).
  destruct src as [[[[ags ceil] orig] token] tscope].
  apply admit_tail_ok in H as (Hh & Hag & Ho & Hl & Hts & _ & Hc).
  unfold admit_source in Hsrc. exec_facts. simplify_eq. bool_hyps. subst.
  match goal with H : revalidate _ _ = _ |- _ => apply revalidate_ok in H as (_&_&_&_&Hr) end.
  split_and!; try congruence; [eauto|]. intros r Ha. destruct (Hc r Ha) as (?&?&_). split; [by apply Hr|done].
Qed.

Inductive Lineage : AgentAuthority → Prop :=
  | lineage_root app h scope source t t' a :
      (∀ p, source ≠ Child p) → admit_agent app h scope source t = (Ok a, t') → Lineage a
  | lineage_child parent a : Lineage parent → child_of parent a → Lineage a.

(** Every admitted run, whatever chain of agents it was delegated through and
    whatever changed meanwhile, has a lineage of distinct agents and a ceiling
    within what its human, each agent of the lineage and the task scope of the
    root were once allowed. *)
Theorem lineage_bounded a : Lineage a → bounded a.
Proof.
  induction 1 as [app h scope source t t' a Hs H|parent a _ (Hnd & Hne & Hb) (app & h & scope & t & t' & H)].
  - by apply admit_root_ok in H as (_ & _ & ?).
  - apply admit_child_ok in H as (Hh & Hag & Hn & _ & Hts & _ & Hc). unfold bounded. rewrite Hh, Hag, Hts. split_and!.
    + apply NoDup_app. split_and!; [done| |apply NoDup_singleton]. intros x ? E%list_elem_of_singleton. by subst.
    + by destruct (agents parent).
    + intros r Hr. destruct (Hc r Hr) as [Hp Ha]. destruct (Hb r Hp) as (?&Happ&?). split_and!; [done| |done].
      intros app' [?|E%list_elem_of_singleton]%elem_of_app; [by apply Happ|by subst].
Qed.

(** Delegating never widens and ending a run ends its descendants: a run
    descended from another has the same human, origin and task scope, a lineage
    that extends it and a ceiling within it; once the ancestor is cancelled, every
    later revalidation of the descendant is refused at its first check. *)
Theorem descendants_bounded a b :
  rtc child_of a b →
  human b = human a ∧ origin b = origin a ∧ task_scope b = task_scope a
  ∧ agents a `prefix_of` agents b
  ∧ (∀ r, Allows (ceiling b) r → Allows (ceiling a) r)
  ∧ ∀ t t', is_cancelled t (lifetime a) = true → t ≤ t' →
      revalidate b t' = (Err "agent invocation ended", S t').
Proof.
  intros Hd. assert (∀ t, is_cancelled t (lifetime a) = true → is_cancelled t (lifetime b) = true) as Hcan.
  { induction Hd as [|x y z (app & h & scope & t & t' & H) _ IH]; [done|]. intros i Hi. apply IH.
    apply admit_child_ok in H as (_&_&_&_&_&[n ->]&_). by apply child_is_cancelled. }
  split_and!.
  6: { intros t t' Hc Hle. apply (is_cancelled_stays _ t') in Hc; [|done]. apply Hcan in Hc.
       unfold revalidate, bind, ensure_active, observe. by rewrite Hc. }
  all: clear Hcan; induction Hd as [x|x y z (app & h & scope & t & t' & H) _ IH]; try done.
  all: apply admit_child_ok in H as (Hh & Hag & Hn & Ho & Hts & _ & Hc); try congruence.
  - etrans; [|exact IH]. rewrite Hag. by apply prefix_app_r.
  - intros r Hr. by apply Hc, IH.
Qed.

(** ** Tool calls (tool_executor.rs, tools/mod.rs) *)

(** [serde_json::Value]; the handles of the context (streams, dispatchers) are left
    out. *)
Context {J : Type}.
Record ToolContext := {
  tc_authority : option AgentAuthority; core_bound_app_id : option string; tc_app_id : string; tc_user_id : uuid;
  invoker_user_id : option uuid; tc_permissions : list string; tc_task_scope : option (list string); tc_args : J;
  tc_idempotency_key : option string }.

Definition delegated_authority (ctx : ToolContext) : option AgentAuthority :=
  a ← tc_authority ctx;
  if bool_decide (core_bound_app_id ctx = Some (app a)) && bool_decide (tc_app_id ctx = app a)
     && bool_decide (tc_user_id ctx = agent_user_id (app a)) && bool_decide (invoker_user_id ctx = Some (human a))
  then Some a else None.
Definition data_user_id (ctx : ToolContext) : option uuid :=
  match invoker_user_id ctx with
  | Some u => Some u
  | None => match core_bound_app_id ctx with None => Some (tc_user_id ctx) | Some _ => None end
  end.
Definition check_permission (permissions : list string) (required : string) : result string unit :=
  ensure (has_permission permissions required) ("permission denied: " +:+ required).

Inductive DispatchError := PermissionDenied (e : string) | ExecutionFailed (e : string).
(** A tool: what it answers in a context, at an instant. *)
Definition Tool : Type := ToolContext → nat → result string J.
(** The context the tool ran with, if it ran, and its outcome. *)
Definition dispatch_tool (tool_name : string) (tool : Tool) (ctx : ToolContext) (t : nat) :
    result DispatchError J * option ToolContext :=
  if negb (has_permission (tc_permissions ctx) ("tool:" +:+ tool_name)) then (Err (PermissionDenied ("tool:" +:+ tool_name)), None)
  else (map_err ExecutionFailed (tool ctx t), Some ctx).

Inductive Sent :=
  | AgentToolResult (invoke_id call_id : string) (result : option J) (error : option string)
  | ToolCallCompleted (call_id tool_name : string) (output : option J) (error : option string).
Definition send_result (stream : bool) (invoke_id call_id tool_name : string) (result : option J) (error : option string) :
    list Sent :=
  AgentToolResult invoke_id call_id result error ::
  (if stream then [ToolCallCompleted call_id tool_name result error] else []).

Definition tool_context (a : AgentAuthority) (permissions : list string) (args : J) : ToolContext :=
  {| tc_authority := Some a; core_bound_app_id := Some (app a); tc_app_id := app a;
     tc_user_id := agent_user_id (app a); invoker_user_id := Some (human a); tc_permissions := permissions;
     tc_task_scope := task_scope a; tc_args := args; tc_idempotency_key := None |}.

(** The messages sent and the context the tool ran with, if it ran. *)
Definition execute (tool : option Tool) (tool_name : string) (args : J) (a : AgentAuthority) (stream : bool)
    (invoke_id call_id : string) (t : nat) : list Sent * option ToolContext :=
  match revalidate a t with
  | (Err error, _) => (send_result stream invoke_id call_id tool_name None (Some error), None)
  | (Ok permissions, t) =>
      match tool with
      | Some tool =>
          match dispatch_tool tool_name tool (tool_context a permissions args) t with
          | (Ok v, ran) => (send_result stream invoke_id call_id tool_name (Some v) None, ran)
          | (Err (PermissionDenied e), ran) | (Err (ExecutionFailed e), ran) =>
              (send_result stream invoke_id call_id tool_name None (Some e), ran)
          end
      | None => (send_result stream invoke_id call_id tool_name None (Some ("unknown tool: " +:+ tool_name)), None)
      end
  end.

(** A tool call runs under live authority: every call answers once, with a
    result or an error and not both; a tool runs only with permissions that
    [revalidate] returned, which hold [tool:<name>] and are within the ceiling of
    the run, in a context whose authority is the run's own. *)
Theorem tool_calls_are_revalidated tool tool_name args a stream invoke_id call_id t sent ran :
  execute tool tool_name args a stream invoke_id call_id t = (sent, ran) →
  (∃ r e, sent = send_result stream invoke_id call_id tool_name r e ∧ (r = None ↔ e ≠ None)
          ∧ (r ≠ None → ran ≠ None))
  ∧ ∀ ctx, ran = Some ctx →
      (∃ t', revalidate a t = (Ok (tc_permissions ctx), t') ∧ t < t')
      ∧ has_permission (tc_permissions ctx) ("tool:" +:+ tool_name) = true
      ∧ (∀ r, Allows (tc_permissions ctx) r → Allows (ceiling a) r)
      ∧ delegated_authority ctx = Some a ∧ data_user_id ctx = Some (human a).
Proof.
  unfold execute. destruct (revalidate a t) as [[p|e] t1] eqn:Hrv.
  2: { intros [= <- <-]. split; [|done]. eexists None, _. naive_solver. }
  destruct tool as [tool|].
  2: { intros [= <- <-]. split; [|done]. eexists None, _. naive_solver. }
  unfold dispatch_tool. destruct (has_permission p ("tool:" +:+ tool_name)) eqn:Hp; simpl; rewrite Hp; simpl.
  2: { intros [= <- <-]. split; [|done]. eexists None, _. naive_solver. }
  intros H. assert (ran = Some (tool_context a p args)) as ->.
  { by destruct (tool _ _); simplify_eq/=. }
  split.
  - destruct (tool _ _) as [v|e]; simplify_eq/=; [exists (Some v), None|exists None, (Some e)]; naive_solver.
  - intros ctx [= <-]. simpl. split_and!; [|done| | |done].
    + exists t1. split; [done|]. by apply revalidate_ok in Hrv as (? & _).
    + intros r Hr. apply revalidate_ok in Hrv as (_&_&_&_&Hrv). by destruct (Hrv r Hr).
    + unfold delegated_authority. simpl. by rewrite !bool_decide_true.
Qed.

(** Revalidation re-reads every principal and never enlarges the run: what it
    returns is within the ceiling of the run and within what the human and every
    agent of the lineage were allowed while it ran; the human and the agents were
    enabled, the origin accepted the run and the run was not cancelled. *)
Theorem revalidate_never_widens a t p t' :
  revalidate a t = (Ok p, t') →
  t < t' ∧ enabled_during t t' (human a)
  ∧ (∀ o, origin a = Some o → during t t' (λ w, origin_validate o w (human a) (root_app a) = Ok tt))
  ∧ (∀ i, t ≤ i < t' → is_cancelled i (lifetime a) = false)
  ∧ ∀ r, Allows p r → Allows (ceiling a) r ∧ allowed_during t t' (human a) r
                      ∧ ∀ app, app ∈ agents a → agent_allows t t' r app.
Proof. apply revalidate_ok. Qed.

End Execution.

(** ** Channel sessions as origins (channels/origin.rs) *)

Section ChannelOrigin.
Context {Config : Type}.
(** [serde_json::to_string] on a key's parts, the providers ([provider_for] and
    [authorize_session], a service), [str::parse::<Uuid>], [Uuid::new_v5] in the
    namespace of channels and of agents, [{e:?}]. *)
Context (key_json : uuid * string * uuid → string)
  (authorize : string → Config → option (string → uuid → result string unit))
  (uuid_parse : string → result string uuid) (channel_uuid : string → uuid)
  (agent_user_id : string → uuid) (debug_error : ApiError → string).

Record ChannelSession := { cs_channel : uuid; cs_chat : string; cs_delegation : uuid }.

Definition channel_delegation_ref (channel_id : string) (user_id : uuid) : uuid :=
  channel_uuid (to_ascii_lowercase channel_id +:+ ":" +:+ user_id).

Definition channel_key (s : ChannelSession) : string := key_json (cs_channel s, cs_chat s, cs_delegation s).

(** The row of the joined query. *)
Definition session_row (s : ChannelSession) (w : @World Config) (human : uuid) (root_app : string) : option ChannelRow :=
  c ← List.find (λ c, bool_decide (ch_id c = cs_channel s) && bool_decide (ch_status c = "active")) (channels w);
  if existsb (λ i, bool_decide (ci_channel_id i = ch_id c) && bool_decide (ci_external_chat_id i = cs_chat s)
                   && bool_decide (ci_user_id i = human)) (channel_identities w)
     && existsb (λ d, bool_decide (d_id d = cs_delegation s)
                      && grants_pair (clock (wgov w)) human (agent_user_id root_app) d) (delegations (wgov w))
  then Some c else None.

Definition channel_validate (s : ChannelSession) (w : World) (human : uuid) (root_app : string) : result string unit :=
  let? _ := map_err fire_denied_text (assert_can_fire agent_user_id debug_error (wgov w) (Some human) root_app) in
  try? match channels_fault w with Some e => Err e | None => Ok tt end in
  let? c := ok_or (session_row s w human root_app) "channel identity or delegation revoked" in
  let? provider := ok_or (authorize (ch_provider c) (ch_config c)) "unknown channel provider" in
  provider (cs_chat s) human.

#[local] Instance channel_origin : ExecutionOrigin ChannelSession :=
  {| origin_key := channel_key; origin_validate := channel_validate |}.

Definition channel_load (world : nat → World) (channel chat : string) (human : uuid) (app : string) :
    Exec ChannelSession :=
  bind (observe (λ _, uuid_parse channel)) (λ channel,
  bind (read world (λ w,
    try? map_err runtime_error_text (run_sql Delegations (wgov w)) in
    result_map d_id (ok_or (List.find (λ d,
      same_trigger "channel" (channel_delegation_ref channel human) d
      && grants_pair (clock (wgov w)) human (agent_user_id app) d) (delegations (wgov w)))
      "channel delegation missing"))) (λ delegation,
  let s := {| cs_channel := channel; cs_chat := chat; cs_delegation := delegation |} in
  bind (read world (λ w, channel_validate s w human app)) (λ _, ret s))).

Lemma channel_validate_row s w human root :
  channel_validate s w human root = Ok tt →
  ∃ d, d ∈ delegations (wgov w) ∧ d_id d = cs_delegation s ∧ delegator_uid d = human
    ∧ delegatee_uid d = agent_user_id root ∧ revoked_at d = None ∧ unexpired (clock (wgov w)) d = true.
Proof.
  unfold channel_validate. intros H. inv_ok.
  match goal with H : session_row _ _ _ _ = Some _ |- _ => unfold session_row in H; rename H into Hrow end.
  destruct (List.find _ _); [|done]. simpl in Hrow.
  destruct (_ && _) eqn:Hc in Hrow; [|done]. apply andb_true_iff in Hc as [_ Hc].
  apply existsb_exists in Hc as (d & Hd%list_elem_of_In & Hg). unfold grants_pair, live in Hg.
  exists d. destruct (revoked_at d); bool_hyps; done.
Qed.

(** Unlinking ends a channel's runs for good: once the delegation a session
    was loaded with is revoked, the session is refused in every later state of the
    database, whatever is linked again. *)
Theorem unlinked_session_stays_dead s g w human root d :
  table_ok (delegations g) → d ∈ delegations g → d_id d = cs_delegation s → revoked_at d ≠ None →
  rtc dstep g (wgov w) → channel_validate s w human root ≠ Ok tt.
Proof.
  intros Hok Hd Hid Hrev Hs (d' & Hd' & Hid' & _ & _ & Hlive & _)%channel_validate_row.
  destruct (dsteps_table_ok _ _ Hok Hs) as [(_ & Hnd & _) Hle].
  apply list_elem_of_lookup in Hd as [i Hi]. destruct (Hle _ _ Hi) as (e & He & _ & _ & _ & _ & _ & Hfix).
  pose proof (Hfix Hrev) as ->. apply list_elem_of_lookup in Hd' as [j Hj].
  assert (i = j) as ->.
  { apply (NoDup_lookup _ i j (cs_delegation s) Hnd); rewrite list_lookup_fmap, ?He, ?Hj; simpl; congruence. }
  congruence.
Qed.
End ChannelOrigin.

(** ** Examples

    Two apps, a human and a channel; tokens that are cancelled from an instant on. *)

Module Examples.
#[local] Instance deadline_tokens : CancellationTokens nat.
Proof.
  refine {| new_token := λ _, 100; child_token := λ _ k, k; is_cancelled := λ i k, k <=? i |}.
  - intros i j k. rewrite !Nat.leb_le. lia.
  - done.
Defined.

Definition agent_id (app : string) : uuid := "agent:" +:+ app.
Definition show_error (_ : ApiError) : string := "error".
Definition ex_user (k : string) : UserRow := {| email := k; kind := k; disabled := false |}.
Definition ex_pool : Pool :=
  {| db := {| users := {["h" := ex_user "human"; "agent:crm" := ex_user "agent"; "agent:mail" := ex_user "agent"]};
              public_execution_principals := ∅;
              rbac_roles := {["admin" := {| description := None; role_inherits := []; role_permissions := ["*"] |};
                "bot" := {| description := None; role_inherits := [];
                            role_permissions := ["app:crm:c.read"; "app:mail:invoke"; "tool:query_data"] |}]};
              rbac_assignments := [("h", "admin"); ("agent:crm", "bot"); ("agent:mail", "bot")] |};
     fault := λ _, None |}.
Definition ex_link : DelegationRow :=
  {| d_id := "d1"; delegator_uid := "h"; delegatee_uid := "agent:crm"; trigger_type := "channel";
     trigger_ref := Some "ch:h"; expires_at := None; revoked_at := None |}.
Definition ex_gov : Gov := {| gpool := ex_pool; delegations := [ex_link]; clock := 0 |}.
Definition ex_world (g : Gov) : @World unit :=
  {| wgov := g; channels_fault := None;
     channels := [{| ch_id := "ch"; ch_provider := "slack"; ch_config := tt; ch_status := "active" |}];
     channel_identities := [{| ci_channel_id := "ch"; ci_external_chat_id := "42"; ci_user_id := "h" |}] |}.
Definition ex_authorize (_ : string) (_ : unit) : option (string → uuid → result string unit) := Some (λ _ _, Ok tt).
Definition ex_key (k : uuid * string * uuid) : string := (k.1.1 +:+ "/" +:+ k.1.2 +:+ "/" +:+ k.2)%string.
#[local] Instance ex_origin : ExecutionOrigin (Config := unit) ChannelSession :=
  channel_origin ex_key ex_authorize agent_id show_error.

Definition ex_session : ChannelSession := {| cs_channel := "ch"; cs_chat := "42"; cs_delegation := "d1" |}.
Definition ex_admit (app : string) (source : AgentSource) (t : nat) :=
  admit_agent (λ _, ex_world ex_gov) agent_id show_error app (Some "h") None source t.
Definition ex_root : @AgentAuthority nat ChannelSession :=
  {| human := "h"; agents := ["crm"]; ceiling := ["app:crm:c.read"; "app:mail:invoke"; "tool:query_data"];
     task_scope := None; origin := Some ex_session; lifetime := 100 |}.
Definition ex_child : @AgentAuthority nat ChannelSession :=
  {| human := "h"; agents := ["crm"; "mail"]; ceiling := ["app:crm:c.read"; "app:mail:invoke"; "tool:query_data"];
     task_scope := None; origin := Some ex_session; lifetime := 100 |}.

Lemma ex_root_admitted : (ex_admit "crm" (Origin ex_session) 0).1 = Ok ex_root.
Proof. vm_compute. reflexivity. Qed.
Lemma ex_child_admitted : (ex_admit "mail" (Child ex_root) 20).1 = Ok ex_child.
Proof. vm_compute. reflexivity. Qed.

Lemma ex_lineage : Lineage (λ _, ex_world ex_gov) agent_id show_error ex_child.
Proof.
  eapply (lineage_child _ _ _ ex_root).
  - eapply (lineage_root _ _ _ "crm" (Some "h") None (Origin ex_session) 0); [done|]. vm_compute. reflexivity.
  - exists "mail", (Some "h"), None, 20. eexists. vm_compute. reflexivity.
Qed.

Lemma lineage_bounded_witness : NoDup (agents ex_child) ∧ Allows (ceiling ex_child) "app:crm:c.read".
Proof.
  split; [|constructor; vm_compute; reflexivity].
  exact (proj1 (lineage_bounded (λ _, ex_world ex_gov) agent_id show_error ex_child ex_lineage)).
Defined.

Lemma descendants_bounded_witness :
  revalidate (λ _, ex_world ex_gov) agent_id show_error ex_child 120 = (Err "agent invocation ended", 121).
Proof.
  apply (descendants_bounded (λ _, ex_world ex_gov) agent_id show_error ex_root ex_child) with (t := 100).
  - apply rtc_once. exists "mail", (Some "h"), None, 20. eexists. vm_compute. reflexivity.
  - reflexivity.
  - lia.
Defined.

Lemma revalidate_never_widens_witness :
  ∃ p t', revalidate (λ _, ex_world ex_gov) agent_id show_error ex_child 30 = (Ok p, t') ∧ 30 < t'
    ∧ Allows p "tool:query_data".
Proof.
  eexists _, _. assert (revalidate (λ _, ex_world ex_gov) agent_id show_error ex_child 30 =
    (Ok ["app:crm:c.read"; "app:mail:invoke"; "tool:query_data"], 39)) as H by (vm_compute; reflexivity).
  split; [exact H|]. split; [|constructor; vm_compute; reflexivity].
  exact (proj1 (revalidate_never_widens _ _ _ _ _ _ _ H)).
Defined.

Lemma tool_calls_are_revalidated_witness :
  ∃ sent ctx, execute (λ _, ex_world ex_gov) agent_id show_error (Some (λ _ _, Ok 7)) "query_data" 0 ex_child true
      "i" "c" 30 = (sent, Some ctx) ∧ delegated_authority agent_id ctx = Some ex_child.
Proof.
  eexists _, _. split; [reflexivity|].
  eapply (tool_calls_are_revalidated (λ _, ex_world ex_gov) agent_id show_error (Some (λ _ _, Ok 7)) "query_data" 0
    ex_child true "i" "c" 30); reflexivity.
Defined.

Definition ex_relinked : Gov :=
  (create "d2" "h" "agent:crm" "channel" (Some "ch:h") (revoke_by_trigger "channel" "ch:h" ex_gov).2).2.
Lemma ex_table_ok : table_ok (delegations (revoke_by_trigger "channel" "ch:h" ex_gov).2).
Proof.
  split_and!.
  - repeat constructor; vm_compute; set_solver.
  - apply (bool_decide_unpack _). by vm_compute.
  - intros i j d1 d2 ty r H1 H2 S1 S2. by destruct i as [|?], j as [|?]; simplify_eq/=.
Qed.

(** Linking again makes a new delegation, for which a new session is loaded: the
    old session stays refused. *)
Lemma unlinked_session_stays_dead_witness :
  (channel_validate ex_authorize agent_id show_error ex_session (ex_world ex_gov) "h" "crm" = Ok tt
   ∧ is_valid ex_relinked "h" "agent:crm" = Ok true)
  ∧ channel_validate ex_authorize agent_id show_error ex_session (ex_world ex_relinked) "h" "crm" ≠ Ok tt.
Proof.
  split; [vm_compute; split; reflexivity|].
  apply (unlinked_session_stays_dead ex_authorize agent_id show_error ex_session
    (revoke_by_trigger "channel" "ch:h" ex_gov).2 (ex_world ex_relinked) "h" "crm" (revoked 0 ex_link)
    ex_table_ok); [|reflexivity|discriminate|].
  - apply list_elem_of_singleton. reflexivity.
  - apply rtc_once, d_create. intros d ->%list_elem_of_singleton. discriminate.
Defined.
End Examples.
