(* ===== verification/Gates.v ===== *)
(** * The gates of row-level security and the transactions that pose them

    The plpgsql predicates row policies call (core/src/extensions/rbac/bootstrap.rs,
    core/src/governance/approved_actions/gate.sql, the migration of cross-app
    grants) read session settings, and [DataAccess::begin]
    (core/src/governance/enforcement/sql_proxy.rs) is the only code that poses them.
    The gates are functions of the settings and of the system tables; the theorems
    say what an open gate means in a transaction [begin] opened.

    SQL's three-valued conditions are written out: an unset setting is [None].  A
    uuid is its canonical text, so casting one is the identity. *)

From stdpp Require Import base numbers gmap strings sets list.
From S2P Require Import Prelude Str Ident Perms Roles Authority Delegation.

(** ** Settings *)

Definition Settings := gmap string string.
(** [current_setting(name, true)], [nullif(.., '')], [coalesce(.., '')] *)
Definition current_setting (name : string) (s : Settings) : option string := s !! name.
Definition nonempty (v : option string) : option string :=
  match v with Some x => if decide (x = EmptyString) then None else Some x | None => None end.
Definition is_set (name : string) (s : Settings) : bool :=
  match nonempty (current_setting name s) with Some _ => true | None => false end.
(** [current_setting(name, true) = v], true only when it is true. *)
Definition setting_is (name v : string) (s : Settings) : bool := bool_decide (current_setting name s = Some v).
(** [current_setting(name, true) <> v], true only when it is true. *)
Definition setting_differs (name v : string) (s : Settings) : bool :=
  match current_setting name s with Some x => negb (bool_decide (x = v)) | None => false end.
(** [SELECT set_config(k, v, true), ..] *)
Definition pose (kvs : list (string * string)) (s : Settings) : Settings :=
  foldl (λ s kv, <[kv.1 := kv.2]> s) s kvs.

(** ** System tables *)

Record Installation := { i_id : uuid; i_app_id : string; i_active : bool }.
Record AppRow := { a_status : string; a_manifest : string }.
Record CollectionGrant := {
  g_id : uuid; g_consumer_app : string; g_provider_app : string; g_consumer_installation : uuid;
  g_provider_installation : uuid; g_entity : string; g_actions : list string; g_fields : list string;
  g_write_fields : list string; g_status : string; g_version : Z; g_expires_at : option Z }.
Record PublicationRow := {
  p_id : uuid; p_consumer_app : string; p_provider_app : string; p_consumer_installation : uuid;
  p_provider_installation : uuid; p_entity : string; p_release_ownership : bool; p_status : string; p_version : Z;
  p_expires_at : option Z }.
Record ActionApproval := {
  aa_id : uuid; aa_app_id : string; aa_action_id : string; aa_installation : uuid; aa_revision : uuid;
  aa_digest : string; aa_manifest : string; aa_permissions : list string; aa_revoked : bool }.
Record BackendRelease := { br_app_id : string; br_revision : uuid; br_digest : option string }.

Record Sys := {
  sgov : Gov; app_installations : list Installation; apps : gmap string AppRow;
  cross_app_collection_grants : list CollectionGrant; publications : list PublicationRow;
  (** [public_execution_principals]: the installation and its principal *)
  public_principals : list (uuid * uuid);
  action_approvals : list ActionApproval; backend_releases : list BackendRelease }.
Definition sdb (y : Sys) : Db := db (gpool (sgov y)).

Definition unexpired_at (y : Sys) (e : option Z) : bool :=
  match e with None => true | Some t => (clock (sgov y) <? t)%Z end.
Definition installed (y : Sys) (app : string) : bool :=
  match apps y !! app with
  | Some a => bool_decide (a_status a = "installed") || bool_decide (a_status a = "system")
  | None => false
  end.
(** An installation that is this row's and active. *)
Definition active_installation (y : Sys) (id : uuid) (app : string) : bool :=
  existsb (λ i, bool_decide (i_id i = id) && bool_decide (i_app_id i = app) && i_active i) (app_installations y).
Definition sql_has_permission (y : Sys) (user : uuid) (required : string) : bool :=
  match_permission (sql_resolve_permissions (sdb y) user) required.

(** [split_part(s, ':', 2)] *)
Definition split_part2 (s : string) : string := default EmptyString (split_byte ":" s !! 1%nat).
Definition MUTATIONS : list string := ["create"; "update"; "delete"].
(** [right(s, n) = suf] and [left(s, length(s) - n)] *)
Definition cut_suffix (suf s : string) : option string := strip_suffix suf s.

(** ** The gates *)

Section Gates.
Context (y : Sys).

Definition cross_app_grant_allows (s : Settings) (required target source : string) (grant : option uuid) : bool :=
  match grant, nonempty (current_setting "rootcx.cross_app_action" s) with
  | Some grant, Some action =>
      negb (bool_decide (target = EmptyString)) && negb (bool_decide (source = EmptyString)) &&
      existsb (λ g,
        bool_decide (g_id g = grant) && bool_decide (g_consumer_app g = source) && bool_decide (g_provider_app g = target)
        && bool_decide (action ∈ g_actions g) && bool_decide (action ∈ "list" :: "read" :: MUTATIONS)
        && (bool_decide (required = "app:" +:+ target +:+ ":" +:+ g_entity g +:+ "." +:+
                           (if decide (action = "list") then "read" else action))
            || (bool_decide (action ∈ MUTATIONS)
                && bool_decide (required = "app:" +:+ target +:+ ":" +:+ g_entity g +:+ ".read")))
        && bool_decide (g_status g = "active") && unexpired_at y (g_expires_at g)
        && active_installation y (g_consumer_installation g) (g_consumer_app g)
        && active_installation y (g_provider_installation g) (g_provider_app g)
        && installed y (g_consumer_app g) && installed y (g_provider_app g)) (cross_app_collection_grants y)
  | _, _ => false
  end.

(** The approval an approved action's transaction names, current in every respect. *)
Definition current_approval (s : Settings) (approval : uuid) (required : string) (g : ActionApproval) : bool :=
  bool_decide (aa_id g = approval) && negb (aa_revoked g)
  && setting_is "rootcx.app_id" (aa_app_id g) s && setting_is "rootcx.action_id" (aa_action_id g) s
  && bool_decide (required ∈ aa_permissions g)
  && existsb (λ r, bool_decide (br_app_id r = aa_app_id g) && bool_decide (br_revision r = aa_revision g)
                   && bool_decide (br_digest r = Some (aa_digest g))) (backend_releases y)
  && active_installation y (aa_installation g) (aa_app_id g)
  && match apps y !! aa_app_id g with
     | Some a => bool_decide (a_manifest a = aa_manifest g) && installed y (aa_app_id g)
     | None => false
     end.
Definition action_key (g : ActionApproval) : string := "app:" +:+ aa_app_id g +:+ ":action:" +:+ aa_action_id g.

Definition check_approved_action_access (s : Settings) (required : string) : bool :=
  match nonempty (current_setting "rootcx.approved_action_id" s), nonempty (current_setting "rootcx.user_id" s) with
  | Some approval, Some user =>
      if is_set "rootcx.publication_id" s || setting_is "rootcx.human_data_request" "1" s
         || setting_differs "rootcx.invocation_kind" "action" s then false
      else match List.find (current_approval s approval required) (action_approvals y) with
      | None => false
      | Some g =>
          let key := action_key g in
          if negb (sql_has_permission y user key) then false
          else if setting_is "rootcx.is_delegated" "1" s then
            match_permission (decode_perms (default EmptyString (current_setting "rootcx.effective_perms" s))) key
          else true
      end
  | _, _ => false
  end.

(** The key a delegated check is made on: the fixed mutation executors read with
    the authority of their operation. *)
Definition delegated_key (s : Settings) (required : string) : string :=
  match current_setting "rootcx.agent_collection_read_key" s, current_setting "rootcx.agent_collection_mutation" s with
  | Some read_key, Some action =>
      if bool_decide (action ∈ MUTATIONS) then
        let base := str_take (String.length read_key - 5) read_key in
        if decide (required = read_key) then base +:+ "." +:+ action
        else if decide (required = read_key +:+ ".own") then base +:+ "." +:+ action +:+ ".own"
        else required
      else required
  | _, _ => required
  end.

Definition check_access (s : Settings) (required : string) : bool :=
  if is_set "rootcx.approved_action_id" s then check_approved_action_access s required
  else if is_set "rootcx.publication_id" s then false
  else if starts_with "app:" required
          && negb (bool_decide (default EmptyString (current_setting "rootcx.human_data_request" s) = "1"))
          && negb (bool_decide (nonempty (current_setting "rootcx.app_id" s) = Some (split_part2 required)))
  then false
  else if starts_with "app:" required
          && negb (existsb (λ i, bool_decide (i_app_id i = split_part2 required) && i_active i) (app_installations y))
  then false
  else match nonempty (current_setting "rootcx.user_id" s) with
  | None => false
  | Some user =>
      if setting_is "rootcx.is_delegated" "1" s then
        match nonempty (current_setting "rootcx.effective_perms" s) with
        | None => false
        | Some perms => match_permission (decode_perms perms) (delegated_key s required)
        end
      else sql_has_permission y user required
  end.

(** The permission a delegated cross-app call needs: the pinned operation's, when
    the read serves a mutation. *)
Definition cross_permission (s : Settings) (required : string) : string :=
  match current_setting "rootcx.cross_app_action" s with
  | Some action =>
      if bool_decide (action ∈ MUTATIONS) then
        match cut_suffix ".read" required with
        | Some base => base +:+ "." +:+ action
        | None => match cut_suffix ".read.own" required with
                  | Some base => base +:+ "." +:+ action +:+ ".own"
                  | None => required
                  end
        end
      else required
  | None => required
  end.
(** [p_required ~ '\.(read|create|update|delete)\.own$'] *)
Definition collection_key (required : string) : string :=
  match cut_suffix ".own" required with
  | Some base => if existsb (λ a, ends_with ("." +:+ a) base) ("read" :: MUTATIONS) then base else required
  | None => required
  end.

Definition check_cross_app_access (s : Settings) (required : string) : bool :=
  if is_set "rootcx.approved_action_id" s then false
  else if is_set "rootcx.publication_id" s then false
  else if negb (is_set "rootcx.user_id" s) then false
  else if setting_is "rootcx.is_delegated" "1" s
          && negb match nonempty (current_setting "rootcx.effective_perms" s) with
                  | None => false
                  | Some perms => match_permission (decode_perms perms) (cross_permission s required)
                  end then false
  else cross_app_grant_allows s (collection_key required)
         (default EmptyString (nonempty (current_setting "rootcx.app_id" s)))
         (default EmptyString (nonempty (current_setting "rootcx.cross_app_source_app" s)))
         (nonempty (current_setting "rootcx.cross_app_grant_id" s)).

Definition check_publication_access (s : Settings) (required : string) : bool :=
  match nonempty (current_setting "rootcx.publication_id" s), nonempty (current_setting "rootcx.user_id" s) with
  | Some pid, Some user =>
      existsb (λ p,
        bool_decide (p_id p = pid) && bool_decide (p_status p = "active") && unexpired_at y (p_expires_at p)
        && existsb (λ i, bool_decide (i_id i = p_consumer_installation p) && i_active i) (app_installations y)
        && existsb (λ i, bool_decide (i_id i = p_provider_installation p) && i_active i) (app_installations y)
        && bool_decide ((p_consumer_installation p, user) ∈ public_principals y)
        && match users (sdb y) !! user with Some u => negb (disabled u) | None => false end
        && setting_is "rootcx.publication_read_key" required s
        && bool_decide (required = "app:" +:+ p_provider_app p +:+ ":" +:+ p_entity p +:+ ".read")
        && setting_is "rootcx.app_id" (p_provider_app p) s
        && (bool_decide (p_consumer_app p = p_provider_app p)
            || cross_app_grant_allows s required (p_provider_app p) (p_consumer_app p)
                 (nonempty (current_setting "rootcx.cross_app_grant_id" s)))) (publications y)
  | _, _ => false
  end.
End Gates.

(** ** Opening a transaction ([DataAccess::begin]) *)

Record AuthorizedRead := {
  ar_grant_id : uuid; ar_grant_version : Z; ar_consumer_app : string; ar_provider_app : string;
  ar_consumer_installation : uuid; ar_provider_installation : uuid; ar_entity : string; ar_action : string;
  ar_fields : list string; ar_write_fields : list string }.
Record ApprovedPublication := {
  ap_id : uuid; ap_version : Z; ap_consumer_app : string; ap_provider_app : string;
  ap_consumer_installation : uuid; ap_provider_installation : uuid; ap_entity : string; ap_release_ownership : bool }.
Record PublicExecution := {
  pe_consumer_app : string; pe_installation_id : uuid; pe_principal_id : uuid; pe_publications : list ApprovedPublication }.
Record ApprovedActionExecution := {
  ae_approval_id : uuid; ae_installation_id : uuid; ae_app_id : string; ae_action_id : string; ae_execution_id : uuid }.

Inductive InvocationContext := NoInvocation | Action (id : string) | Job (name : string).
#[export] Instance InvocationContext_eq_dec : EqDecision InvocationContext.
Proof. solve_decision. Defined.
Definition is_scoped (i : InvocationContext) : bool := match i with NoInvocation => false | _ => true end.
Definition guc_values (i : InvocationContext) : string * string * string :=
  match i with
  | NoInvocation => (EmptyString, EmptyString, EmptyString)
  | Action id => ("action", id, id)
  | Job name => ("job", name, EmptyString)
  end.
Definition invocation_key (i : InvocationContext) : string := let '(k, n, _) := guc_values i in k +:+ ":" +:+ n.

Record ContextState := {
  cx_user_id : option uuid; cx_is_delegated : bool; cx_effective_perms : list string;
  cx_connection_id : option string; audit_actor_id : option uuid; audit_delegator_id : option uuid;
  public_execution : option PublicExecution; approved_action : option ApprovedActionExecution }.
Definition default_state : ContextState :=
  {| cx_user_id := None; cx_is_delegated := false; cx_effective_perms := []; cx_connection_id := None;
     audit_actor_id := None; audit_delegator_id := None; public_execution := None; approved_action := None |}.
(** [uuid_parse] is [str::parse::<Uuid>] *)
Definition from_caller (uuid_parse : string → option uuid) (caller : option RpcCaller) : ContextState :=
  match caller with
  | Some c =>
      {| cx_user_id := uuid_parse (rc_user_id c);
         cx_is_delegated := match rc_effective_perms c with Some _ => true | None => false end;
         cx_effective_perms := default [] (rc_effective_perms c); cx_connection_id := rc_connection_id c;
         audit_actor_id := match rc_effective_perms c with None => uuid_parse (rc_user_id c) | Some _ => None end;
         audit_delegator_id := None; public_execution := None; approved_action := None |}
  | None => default_state
  end.

Record Audit := { actor : option uuid; delegator : option uuid }.
Inductive DataOrigin := AppOrigin | HumanHttp.

Section Begin.
(** The field types of an entity ([data_types::FieldTypes]), those of the installed
    manifest, and [publications::lock_in_tx] and the advisory locks around the
    checks, which wait for other transactions. *)
Context {FieldTypes : Type} `{!EqDecision FieldTypes}
  (manifest_types : string → string → option FieldTypes)
  (publication_locked : Sys → ApprovedPublication → result string unit).

Record DataAccess := {
  app_schema : string; state : ContextState; invocation : option InvocationContext; audit : Audit;
  trigger_ref_ : string; timeout_ms : Z; cross_app : option AuthorizedRead; origin_ : DataOrigin;
  delegated_collection : option (string * string * FieldTypes); publication : option ApprovedPublication }.

Definition data_app (app_schema : string) (state : ContextState) (trigger_ref : string) (timeout_ms : Z) : DataAccess :=
  {| app_schema := app_schema; state := state; invocation := None; audit := {| actor := None; delegator := None |};
     trigger_ref_ := trigger_ref; timeout_ms := timeout_ms; cross_app := None; origin_ := AppOrigin;
     delegated_collection := None; publication := None |}.
Definition data_human (app_schema : string) (state : ContextState) (trigger_ref : string) (timeout_ms : Z) : DataAccess :=
  {| app_schema := app_schema; state := state; invocation := None; audit := {| actor := None; delegator := None |};
     trigger_ref_ := trigger_ref; timeout_ms := timeout_ms; cross_app := None; origin_ := HumanHttp;
     delegated_collection := None; publication := None |}.

(** The settings [set_rls_context] poses. *)
Definition rls_settings (app_schema : string) (st : ContextState) : list (string * string) :=
  [("rootcx.user_id", default EmptyString (cx_user_id st));
   ("rootcx.is_delegated", if cx_is_delegated st then "1" else "0");
   ("rootcx.effective_perms", encode_perms (cx_effective_perms st));
   ("rootcx.app_id", app_schema);
   ("rootcx.cross_app_grant_id", EmptyString); ("rootcx.cross_app_source_app", EmptyString);
   ("rootcx.cross_app_action", EmptyString); ("rootcx.agent_collection_read_key", EmptyString);
   ("rootcx.agent_collection_mutation", EmptyString); ("rootcx.human_data_request", EmptyString);
   ("rootcx.approved_action_id", EmptyString); ("rootcx.publication_id", EmptyString);
   ("rootcx.publication_read_key", EmptyString); ("rootcx.publication_release_ownership", EmptyString)].

(** The check under the locks of [lock_cross_app_read_in_tx]. *)
Definition cross_app_valid (y : Sys) (a : AuthorizedRead) : bool :=
  existsb (λ g,
    bool_decide (g_id g = ar_grant_id a) && bool_decide (g_consumer_app g = ar_consumer_app a)
    && bool_decide (g_provider_app g = ar_provider_app a) && bool_decide (g_entity g = ar_entity a)
    && bool_decide (g_version g = ar_grant_version a)
    && bool_decide (g_consumer_installation g = ar_consumer_installation a)
    && bool_decide (g_provider_installation g = ar_provider_installation a)
    && bool_decide (g_status g = "active") && unexpired_at y (g_expires_at g)
    && active_installation y (g_consumer_installation g) (g_consumer_app g)
    && active_installation y (g_provider_installation g) (g_provider_app g)
    && installed y (g_consumer_app g) && installed y (g_provider_app g)
    && bool_decide (ar_action a ∈ g_actions g) && bool_decide (g_fields g = ar_fields a)
    && bool_decide (g_write_fields g = ar_write_fields a)) (cross_app_collection_grants y).
Definition lock_cross_app_read_in_tx (y : Sys) (a : AuthorizedRead) : result string unit :=
  ensure (cross_app_valid y a) "cross-app authorization changed before provider read".

Definition delegated_collection_settings (y : Sys) (app_schema : string) (st : ContextState) (xa : option AuthorizedRead)
    (dc : option (string * string * FieldTypes)) (s : Settings) : result string Settings :=
  match dc with
  | None => Ok s
  | Some (entity, action, types) =>
      try? ensure (cx_is_delegated st && bool_decide (is_Some (cx_user_id st)) && bool_decide (xa = None)
                   && bool_decide (is_Some (public_execution st) → False)
                   && bool_decide (is_Some (approved_action st) → False)) "invalid delegated collection context" in
      let current := if existsb (λ i, bool_decide (i_app_id i = app_schema) && i_active i) (app_installations y)
                        && installed y app_schema then manifest_types app_schema entity else None in
      try? ensure (bool_decide (current = Some types)) "delegated collection unavailable or changed" in
      Ok (if bool_decide (action ∈ MUTATIONS) then
            pose [("rootcx.agent_collection_read_key", "app:" +:+ app_schema +:+ ":" +:+ entity +:+ ".read");
                  ("rootcx.agent_collection_mutation", action)] s
          else s)
  end.

Definition AUTHORITY_GONE : string := "approved action authority is no longer valid".
(** [approved_actions::bind_context] *)
Definition bind_context (y : Sys) (app : string) (st : ContextState) (inv : InvocationContext) (s : Settings) :
    result string Settings :=
  match approved_action st with
  | None => Ok s
  | Some e =>
      try? ensure (bool_decide (app = ae_app_id e) && bool_decide (inv = Action (ae_action_id e))) AUTHORITY_GONE in
      try? ensure (existsb (λ i, bool_decide (i_id i = ae_installation_id e)) (app_installations y)) AUTHORITY_GONE in
      try? ensure (existsb (λ r, bool_decide (br_app_id r = app)) (backend_releases y)) AUTHORITY_GONE in
      let? row := ok_or (List.find (λ g, bool_decide (aa_id g = ae_approval_id e)) (action_approvals y)) AUTHORITY_GONE in
      let s := pose [("rootcx.approved_action_id", ae_approval_id e)] s in
      let? first := ok_or (head (aa_permissions row)) AUTHORITY_GONE in
      try? ensure (check_approved_action_access y s first) AUTHORITY_GONE in
      Ok s
  end.

(** [extensions::audit::set_context] *)
Definition audit_settings (a : Audit) (trigger_ref : string) : list (string * string) :=
  [("rootcx.actor_uid", default EmptyString (actor a)); ("rootcx.delegator_uid", default EmptyString (delegator a));
   ("rootcx.trigger_ref", trigger_ref)].
(** [role_name] is the role of an approval ([approved_actions::sql]). *)
Definition executor_role (role_name : uuid → string) (st : ContextState) : string :=
  match approved_action st with Some e => role_name (ae_approval_id e) | None => "rootcx_app_executor" end.

(** The settings of the transaction and the role it drops to; [s] is what the pooled
    connection had. *)
Definition begin_tx (role_name : uuid → string) (a : DataAccess) (y : Sys) (s : Settings) : result string (Settings * string) :=
  let st := state a in
  let inv := default NoInvocation (invocation a) in
  try? ensure (negb (bool_decide (is_Some (public_execution st)) && bool_decide (publication a = None)))
    "public execution requires a publication read" in
  let s := pose (rls_settings (app_schema a) st) s in
  let s := match origin_ a with HumanHttp => pose [("rootcx.human_data_request", "1")] s | AppOrigin => s end in
  let? s := delegated_collection_settings y (app_schema a) st (cross_app a) (delegated_collection a) s in
  try? match publication a with Some p => publication_locked y p | None => Ok tt end in
  let? s := match cross_app a with
    | Some x =>
        try? lock_cross_app_read_in_tx y x in
        Ok (pose [("rootcx.cross_app_grant_id", ar_grant_id x); ("rootcx.cross_app_source_app", ar_consumer_app x);
                  ("rootcx.cross_app_action", ar_action x)] s)
    | None => Ok s
    end in
  let? s := match publication a with
    | Some p =>
        try? match cross_app a with Some _ => publication_locked y p | None => Ok tt end in
        Ok (pose [("rootcx.publication_id", ap_id p);
                  ("rootcx.publication_read_key", "app:" +:+ ap_provider_app p +:+ ":" +:+ ap_entity p +:+ ".read");
                  ("rootcx.publication_release_ownership", if ap_release_ownership p then "1" else "0")] s)
    | None => Ok s
    end in
  let '(kind, name, action_id) := guc_values inv in
  let s := pose [("rootcx.invocation_kind", kind); ("rootcx.invocation_name", name); ("rootcx.action_id", action_id)] s in
  let? s := bind_context y (app_schema a) st inv s in
  let trigger := match approved_action st with
    | Some e => "approved-action:" +:+ ae_execution_id e
    | None => trigger_ref_ a end in
  Ok (pose (audit_settings (audit a) trigger) s, executor_role role_name st).

(** [begin_publication_tx] *)
Definition publication_access (execution : PublicExecution) (p : ApprovedPublication) (xa : option AuthorizedRead) : DataAccess :=
  {| app_schema := ap_provider_app p;
     state := {| cx_user_id := Some (pe_principal_id execution); cx_is_delegated := true; cx_effective_perms := [];
                 cx_connection_id := None; audit_actor_id := Some (pe_principal_id execution);
                 audit_delegator_id := None; public_execution := Some execution; approved_action := None |};
     invocation := Some NoInvocation; audit := {| actor := Some (pe_principal_id execution); delegator := None |};
     trigger_ref_ := "public_collection"; timeout_ms := 8000; cross_app := xa; origin_ := AppOrigin;
     delegated_collection := None; publication := Some p |}.

(** ** What a transaction is opened with *)

Fixpoint last_of (k : string) (kvs : list (string * string)) : option string :=
  match kvs with
  | [] => None
  | kv :: kvs => match last_of k kvs with Some v => Some v | None => if decide (kv.1 = k) then Some kv.2 else None end
  end.
Lemma pose_lookup kvs s k : pose kvs s !! k = match last_of k kvs with Some v => Some v | None => s !! k end.
Proof.
  unfold pose. revert s. induction kvs as [|[a v] kvs IH]; intros s; [done|]. simpl. rewrite IH.
  destruct (last_of k kvs); [done|]. case_decide as E; [subst; apply lookup_insert_eq|].
  by apply lookup_insert_ne.
Qed.
Lemma pose_app l1 l2 s : pose (l1 ++ l2) s = pose l2 (pose l1 s).
Proof. apply foldl_app. Qed.
Lemma last_of_app k l1 l2 : last_of k (l1 ++ l2) = match last_of k l2 with Some v => Some v | None => last_of k l1 end.
Proof. induction l1 as [|kv l1 IH]; simpl; [by destruct (last_of k l2)|]. rewrite IH. by destruct (last_of k l2). Qed.

Definition human_settings (o : DataOrigin) : list (string * string) :=
  match o with HumanHttp => [("rootcx.human_data_request", "1")] | AppOrigin => [] end.
Definition collection_settings (a : DataAccess) : list (string * string) :=
  match delegated_collection a with
  | Some (entity, action, _) =>
      if bool_decide (action ∈ MUTATIONS)
      then [("rootcx.agent_collection_read_key", "app:" +:+ app_schema a +:+ ":" +:+ entity +:+ ".read");
            ("rootcx.agent_collection_mutation", action)] else []
  | None => []
  end.
Definition cross_settings (x : option AuthorizedRead) : list (string * string) :=
  match x with
  | Some x => [("rootcx.cross_app_grant_id", ar_grant_id x); ("rootcx.cross_app_source_app", ar_consumer_app x);
               ("rootcx.cross_app_action", ar_action x)]
  | None => []
  end.
Definition publication_settings (p : option ApprovedPublication) : list (string * string) :=
  match p with
  | Some p => [("rootcx.publication_id", ap_id p);
               ("rootcx.publication_read_key", "app:" +:+ ap_provider_app p +:+ ":" +:+ ap_entity p +:+ ".read");
               ("rootcx.publication_release_ownership", if ap_release_ownership p then "1" else "0")]
  | None => []
  end.
Definition invocation_settings (i : InvocationContext) : list (string * string) :=
  let '(kind, name, action_id) := guc_values i in
  [("rootcx.invocation_kind", kind); ("rootcx.invocation_name", name); ("rootcx.action_id", action_id)].
Definition approved_settings (e : option ApprovedActionExecution) : list (string * string) :=
  match e with Some e => [("rootcx.approved_action_id", ae_approval_id e)] | None => [] end.
Definition trigger_of (a : DataAccess) : string :=
  match approved_action (state a) with
  | Some e => "approved-action:" +:+ ae_execution_id e | None => trigger_ref_ a end.
(** Everything [begin] poses, in order. *)
Definition posed (a : DataAccess) : list (string * string) :=
  rls_settings (app_schema a) (state a) ++ human_settings (origin_ a) ++ collection_settings a
  ++ cross_settings (cross_app a) ++ publication_settings (publication a)
  ++ invocation_settings (default NoInvocation (invocation a)) ++ approved_settings (approved_action (state a))
  ++ audit_settings (audit a) (trigger_of a).

(** The checks a transaction passed on its way. *)
Record Opened (a : DataAccess) (y : Sys) : Prop := {
  op_public : public_execution (state a) ≠ None → publication a ≠ None;
  op_cross : ∀ x, cross_app a = Some x → cross_app_valid y x = true;
  op_published : ∀ p, publication a = Some p → publication_locked y p = Ok tt;
  op_collection : ∀ e ac t, delegated_collection a = Some (e, ac, t) →
    cx_is_delegated (state a) = true ∧ is_Some (cx_user_id (state a)) ∧ cross_app a = None
    ∧ public_execution (state a) = None ∧ approved_action (state a) = None
    ∧ manifest_types (app_schema a) e = Some t ∧ installed y (app_schema a) = true;
  op_approved : ∀ e, approved_action (state a) = Some e →
    app_schema a = ae_app_id e ∧ invocation a = Some (Action (ae_action_id e)) }.

Lemma delegated_collection_ok y a s s' :
  delegated_collection_settings y (app_schema a) (state a) (cross_app a) (delegated_collection a) s = Ok s' →
  s' = pose (collection_settings a) s
  ∧ ∀ e ac t, delegated_collection a = Some (e, ac, t) →
    cx_is_delegated (state a) = true ∧ is_Some (cx_user_id (state a)) ∧ cross_app a = None
    ∧ public_execution (state a) = None ∧ approved_action (state a) = None
    ∧ manifest_types (app_schema a) e = Some t ∧ installed y (app_schema a) = true.
Proof.
  unfold delegated_collection_settings, collection_settings.
  destruct (delegated_collection a) as [[[e ac] t]|]; [|by intros [= <-]]. intros H. inv_ok. bool_hyps. subst.
  split; [by case_bool_decide|]. intros ? ? ? [= <- <- <-].
  destruct (_ && _) eqn:Hi in *; [|done]. apply andb_true_iff in Hi as [_ Hi].
  assert (∀ T (o : option T), (is_Some o → False) → o = None) as Hn by (intros T [x|] Hx; [by destruct Hx|done]).
  split_and!; try done; by apply Hn.
Qed.

Lemma bind_context_ok y a inv s s' :
  bind_context y (app_schema a) (state a) inv s = Ok s' →
  s' = pose (approved_settings (approved_action (state a))) s
  ∧ ∀ e, approved_action (state a) = Some e → app_schema a = ae_app_id e ∧ inv = Action (ae_action_id e).
Proof.
  unfold bind_context. destruct (approved_action (state a)) as [e|]; [|by intros [= <-]].
  intros H. inv_ok. bool_hyps. subst. split; [done|]. by intros ? [= <-].
Qed.

Lemma begin_posed role_name a y s s' role :
  begin_tx role_name a y s = Ok (s', role) →
  s' = pose (posed a) s ∧ role = executor_role role_name (state a) ∧ Opened a y.
Proof.
  unfold begin_tx. intros H. apply bind_ok_iff in H as (u & H1 & H). apply ensure_ok_iff in H1.
  apply bind_ok_iff in H as (s1 & H2 & H). apply delegated_collection_ok in H2 as [-> Hdc].
  apply bind_ok_iff in H as (u' & H3 & H).
  apply bind_ok_iff in H as (s2 & H4 & H). apply bind_ok_iff in H as (s3 & H5 & H).
  destruct (guc_values (default NoInvocation (invocation a))) as [[kind name] aid] eqn:Hg.
  apply bind_ok_iff in H as (s4 & H6 & H). apply bind_context_ok in H6 as [-> Hap]. injection H as <- <-.
  assert (s2 = pose (cross_settings (cross_app a)) (pose (collection_settings a) (pose (human_settings (origin_ a))
    (pose (rls_settings (app_schema a) (state a)) s)))
    ∧ ∀ x, cross_app a = Some x → cross_app_valid y x = true) as [-> Hx].
  { destruct (cross_app a) as [x|]; cbn in H4; [|injection H4 as <-; by destruct (origin_ a)].
    unfold lock_cross_app_read_in_tx in H4. inv_ok. subst. split; [by destruct (origin_ a)|]. by intros ? [= <-]. }
  assert (s3 = pose (publication_settings (publication a)) (pose (cross_settings (cross_app a)) (pose (collection_settings a)
    (pose (human_settings (origin_ a)) (pose (rls_settings (app_schema a) (state a)) s))))) as ->.
  { destruct (publication a); cbn in H5; [|by injection H5 as <-]. by inv_ok. }
  split_and!; [|done|].
  - unfold posed, invocation_settings, trigger_of. rewrite Hg. by rewrite !pose_app.
  - split; try done.
    + intros Hp Hn. rewrite Hn in H1. destruct (public_execution (state a)); [|done].
      by rewrite !bool_decide_true in H1.
    + intros p Hp. rewrite Hp in H3. by destruct u'.
    + intros e He. destruct (Hap e He) as [? Hi]. split; [done|]. by destruct (invocation a); simpl in Hi; subst.
Qed.

(** The value of each setting a gate reads, in a transaction opened by [a]. *)
Definition tx_setting (a : DataAccess) (k : string) : option string := last_of k (posed a).

Lemma last_of_none k l : k ∉ l.*1 → last_of k l = None.
Proof.
  induction l as [|[a v] l IH]; [done|]. simpl. rewrite not_elem_of_cons. intros [Hk Hl]. rewrite IH by done.
  by rewrite decide_False.
Qed.
(** The parts that do not pose a key. *)
Lemma human_keys k o : k ≠ "rootcx.human_data_request" → last_of k (human_settings o) = None.
Proof. intros H. apply last_of_none. destruct o; set_solver. Qed.
Lemma collection_keys k a :
  k ≠ "rootcx.agent_collection_read_key" → k ≠ "rootcx.agent_collection_mutation" → last_of k (collection_settings a) = None.
Proof.
  intros H1 H2. apply last_of_none. unfold collection_settings.
  destruct (delegated_collection a) as [[[e ac] t]|]; [case_bool_decide|]; set_solver.
Qed.
Lemma cross_keys k x :
  k ≠ "rootcx.cross_app_grant_id" → k ≠ "rootcx.cross_app_source_app" → k ≠ "rootcx.cross_app_action" →
  last_of k (cross_settings x) = None.
Proof. intros H1 H2 H3. apply last_of_none. destruct x; set_solver. Qed.
Lemma publication_keys k p :
  k ≠ "rootcx.publication_id" → k ≠ "rootcx.publication_read_key" → k ≠ "rootcx.publication_release_ownership" →
  last_of k (publication_settings p) = None.
Proof. intros H1 H2 H3. apply last_of_none. destruct p; set_solver. Qed.
Lemma invocation_keys k i :
  k ≠ "rootcx.invocation_kind" → k ≠ "rootcx.invocation_name" → k ≠ "rootcx.action_id" →
  last_of k (invocation_settings i) = None.
Proof. intros H1 H2 H3. apply last_of_none. destruct i; set_solver. Qed.
Lemma approved_keys k e : k ≠ "rootcx.approved_action_id" → last_of k (approved_settings e) = None.
Proof. intros H. apply last_of_none. destruct e; set_solver. Qed.
Lemma audit_keys k a t :
  k ≠ "rootcx.actor_uid" → k ≠ "rootcx.delegator_uid" → k ≠ "rootcx.trigger_ref" → last_of k (audit_settings a t) = None.
Proof. intros H1 H2 H3. apply last_of_none. set_solver. Qed.

Ltac setting_cases :=
  unfold tx_setting, posed; rewrite !last_of_app;
  rewrite audit_keys by done; try rewrite approved_keys by done; try rewrite invocation_keys by done;
  try rewrite publication_keys by done; try rewrite cross_keys by done; try rewrite collection_keys by done;
  try rewrite human_keys by done; try reflexivity.

Lemma setting_user a : tx_setting a "rootcx.user_id" = Some (default EmptyString (cx_user_id (state a))).
Proof. setting_cases. Qed.
Lemma setting_delegated a : tx_setting a "rootcx.is_delegated" = Some (if cx_is_delegated (state a) then "1" else "0").
Proof. setting_cases. Qed.
Lemma setting_perms a : tx_setting a "rootcx.effective_perms" = Some (encode_perms (cx_effective_perms (state a))).
Proof. setting_cases. Qed.
Lemma setting_app a : tx_setting a "rootcx.app_id" = Some (app_schema a).
Proof. setting_cases. Qed.
Lemma setting_human a :
  tx_setting a "rootcx.human_data_request" = Some (match origin_ a with HumanHttp => "1" | AppOrigin => EmptyString end).
Proof. setting_cases. by destruct (origin_ a). Qed.
Lemma setting_grant a : tx_setting a "rootcx.cross_app_grant_id" = Some (from_option ar_grant_id EmptyString (cross_app a)).
Proof. setting_cases. by destruct (cross_app a). Qed.
Lemma setting_source a : tx_setting a "rootcx.cross_app_source_app" = Some (from_option ar_consumer_app EmptyString (cross_app a)).
Proof. setting_cases. by destruct (cross_app a). Qed.
Lemma setting_action a : tx_setting a "rootcx.cross_app_action" = Some (from_option ar_action EmptyString (cross_app a)).
Proof. setting_cases. by destruct (cross_app a). Qed.
Lemma setting_publication a : tx_setting a "rootcx.publication_id" = Some (from_option ap_id EmptyString (publication a)).
Proof. setting_cases. by destruct (publication a). Qed.
Lemma setting_read_key a :
  tx_setting a "rootcx.publication_read_key" =
    Some (from_option (λ p, "app:" +:+ ap_provider_app p +:+ ":" +:+ ap_entity p +:+ ".read") EmptyString (publication a)).
Proof. setting_cases. by destruct (publication a). Qed.
Lemma setting_release a :
  tx_setting a "rootcx.publication_release_ownership" =
    Some (from_option (λ p, if ap_release_ownership p then "1" else "0") EmptyString (publication a)).
Proof. setting_cases. by destruct (publication a). Qed.
Lemma setting_approved a :
  tx_setting a "rootcx.approved_action_id" = Some (from_option ae_approval_id EmptyString (approved_action (state a))).
Proof. setting_cases. by destruct (approved_action (state a)). Qed.
Lemma setting_kind a :
  tx_setting a "rootcx.invocation_kind" = Some (guc_values (default NoInvocation (invocation a))).1.1.
Proof. setting_cases. by destruct (default NoInvocation (invocation a)). Qed.
Lemma setting_action_id a :
  tx_setting a "rootcx.action_id" = Some (guc_values (default NoInvocation (invocation a))).2.
Proof. setting_cases. by destruct (default NoInvocation (invocation a)). Qed.
Lemma setting_collection a :
  tx_setting a "rootcx.agent_collection_read_key" = Some (from_option fst EmptyString (
    match delegated_collection a with
    | Some (e, ac, _) =>
        if bool_decide (ac ∈ MUTATIONS) then Some ("app:" +:+ app_schema a +:+ ":" +:+ e +:+ ".read", ac) else None
    | None => None end))
  ∧ tx_setting a "rootcx.agent_collection_mutation" = Some (from_option snd EmptyString (
    match delegated_collection a with
    | Some (e, ac, _) =>
        if bool_decide (ac ∈ MUTATIONS) then Some ("app:" +:+ app_schema a +:+ ":" +:+ e +:+ ".read", ac) else None
    | None => None end)).
Proof.
  split; setting_cases; unfold collection_settings; destruct (delegated_collection a) as [[[e ac] t]|]; try done;
    by case_bool_decide.
Qed.

Lemma begin_current role_name a y s s' role k v :
  begin_tx role_name a y s = Ok (s', role) → tx_setting a k = Some v → current_setting k s' = Some v.
Proof.
  intros (-> & _ & _)%begin_posed Hk. unfold current_setting. rewrite pose_lookup. fold (tx_setting a k). by rewrite Hk.
Qed.

(** The settings the gates read. *)
Definition GATE_SETTINGS : list string :=
  ["rootcx.user_id"; "rootcx.is_delegated"; "rootcx.effective_perms"; "rootcx.app_id"; "rootcx.cross_app_grant_id";
   "rootcx.cross_app_source_app"; "rootcx.cross_app_action"; "rootcx.agent_collection_read_key";
   "rootcx.agent_collection_mutation"; "rootcx.human_data_request"; "rootcx.approved_action_id"; "rootcx.publication_id";
   "rootcx.publication_read_key"; "rootcx.publication_release_ownership"; "rootcx.invocation_kind"; "rootcx.action_id"].
Lemma gate_settings_posed a k : k ∈ GATE_SETTINGS → is_Some (tx_setting a k).
Proof.
  destruct (setting_collection a) as [Hc1 Hc2].
  intros H. repeat (apply elem_of_cons in H as [->|H]); [..|by apply not_elem_of_nil in H];
    eauto using setting_user, setting_delegated, setting_perms, setting_app, setting_grant, setting_source, setting_action,
      setting_human, setting_approved, setting_publication, setting_read_key, setting_release, setting_kind, setting_action_id.
Qed.

(** The gates are functions of these settings only. *)
Definition same_gates (s1 s2 : Settings) : Prop := ∀ k, k ∈ GATE_SETTINGS → current_setting k s1 = current_setting k s2.

Lemma existsb_ext {A} (f g : A → bool) l : (∀ x, f x = g x) → existsb f l = existsb g l.
Proof. intros H. induction l as [|x l IH]; [done|]. simpl. by rewrite H, IH. Qed.
Lemma find_ext {A} (f g : A → bool) l : (∀ x, f x = g x) → List.find f l = List.find g l.
Proof. intros H. induction l as [|x l IH]; [done|]. simpl. by rewrite H, IH. Qed.

Section SameGates.
Context (y : Sys) (s1 s2 : Settings) (Hs : same_gates s1 s2).
Lemma same_current k : bool_decide (k ∈ GATE_SETTINGS) = true → current_setting k s1 = current_setting k s2.
Proof. intros H. apply Hs. by apply bool_decide_eq_true in H. Qed.
Lemma same_is_set k : bool_decide (k ∈ GATE_SETTINGS) = true → is_set k s1 = is_set k s2.
Proof. intros H. unfold is_set. by rewrite same_current. Qed.
Lemma same_setting_is k v : bool_decide (k ∈ GATE_SETTINGS) = true → setting_is k v s1 = setting_is k v s2.
Proof. intros H. unfold setting_is. by rewrite same_current. Qed.
Lemma same_differs k v : bool_decide (k ∈ GATE_SETTINGS) = true → setting_differs k v s1 = setting_differs k v s2.
Proof. intros H. unfold setting_differs. by rewrite same_current. Qed.
Lemma same_grant r t u g : cross_app_grant_allows y s1 r t u g = cross_app_grant_allows y s2 r t u g.
Proof. unfold cross_app_grant_allows. by rewrite same_current by reflexivity. Qed.

Lemma same_approved r : check_approved_action_access y s1 r = check_approved_action_access y s2 r.
Proof.
  unfold check_approved_action_access.
  rewrite (same_current "rootcx.approved_action_id"), (same_current "rootcx.user_id"), (same_current "rootcx.effective_perms"),
    (same_is_set "rootcx.publication_id"), (same_setting_is "rootcx.human_data_request"),
    (same_setting_is "rootcx.is_delegated"), (same_differs "rootcx.invocation_kind") by reflexivity.
  destruct (nonempty _) as [approval|]; [|done].
  rewrite (find_ext (current_approval y s1 approval r) (current_approval y s2 approval r)); [done|].
  intros g. unfold current_approval.
  by rewrite (same_setting_is "rootcx.app_id"), (same_setting_is "rootcx.action_id") by reflexivity.
Qed.
Lemma same_access r : check_access y s1 r = check_access y s2 r.
Proof.
  unfold check_access, delegated_key.
  rewrite same_approved, (same_is_set "rootcx.approved_action_id"), (same_is_set "rootcx.publication_id"),
    (same_current "rootcx.human_data_request"), (same_current "rootcx.app_id"), (same_current "rootcx.user_id"),
    (same_setting_is "rootcx.is_delegated"), (same_current "rootcx.effective_perms"),
    (same_current "rootcx.agent_collection_read_key"), (same_current "rootcx.agent_collection_mutation") by reflexivity.
  done.
Qed.
Lemma same_cross r : check_cross_app_access y s1 r = check_cross_app_access y s2 r.
Proof.
  unfold check_cross_app_access, cross_permission.
  rewrite same_grant, (same_is_set "rootcx.approved_action_id"), (same_is_set "rootcx.publication_id"),
    (same_is_set "rootcx.user_id"), (same_current "rootcx.app_id"), (same_current "rootcx.cross_app_source_app"),
    (same_current "rootcx.cross_app_grant_id"), (same_setting_is "rootcx.is_delegated"),
    (same_current "rootcx.effective_perms"), (same_current "rootcx.cross_app_action") by reflexivity.
  done.
Qed.
Lemma same_publication r : check_publication_access y s1 r = check_publication_access y s2 r.
Proof.
  unfold check_publication_access.
  rewrite (same_current "rootcx.publication_id"), (same_current "rootcx.user_id"),
    (same_current "rootcx.cross_app_grant_id") by reflexivity.
  destruct (nonempty (current_setting "rootcx.publication_id" s2)); [|done].
  destruct (nonempty (current_setting "rootcx.user_id" s2)); [|done]. apply existsb_ext. intros p.
  by rewrite same_grant, (same_setting_is "rootcx.publication_read_key"), (same_setting_is "rootcx.app_id") by reflexivity.
Qed.
End SameGates.

(** [C17] Nothing of a connection's past reaches the gates: two transactions opened
    with the same request, on connections that served anyone before, drop to the
    same role, and every gate of row-level security answers alike in both. *)
Theorem begin_forgets_the_connection role_name a y s1 s2 s1' s2' r1 r2 :
  begin_tx role_name a y s1 = Ok (s1', r1) → begin_tx role_name a y s2 = Ok (s2', r2) →
  r1 = r2 ∧ ∀ y' r,
    check_access y' s1' r = check_access y' s2' r ∧ check_cross_app_access y' s1' r = check_cross_app_access y' s2' r
    ∧ check_publication_access y' s1' r = check_publication_access y' s2' r
    ∧ check_approved_action_access y' s1' r = check_approved_action_access y' s2' r.
Proof.
  intros H1 H2. destruct (begin_posed _ _ _ _ _ _ H1) as (_ & -> & _), (begin_posed _ _ _ _ _ _ H2) as (_ & -> & _).
  split; [done|]. intros y' r. assert (same_gates s1' s2') as Hs.
  { intros k [v Hk]%(gate_settings_posed a).
    by rewrite (begin_current _ _ _ _ _ _ _ _ H1 Hk), (begin_current _ _ _ _ _ _ _ _ H2 Hk). }
  auto using same_access, same_cross, same_publication, same_approved.
Qed.

(** The key a delegated request is checked on: within a collection mutation, reading
    that collection takes the right to the mutation. *)
Definition operation_key (a : DataAccess) (key : string) : string :=
  match delegated_collection a with
  | Some (e, ac, _) =>
      let base := "app:" +:+ app_schema a +:+ ":" +:+ e in
      if bool_decide (ac ∈ MUTATIONS) then
        if decide (key = base +:+ ".read") then base +:+ "." +:+ ac
        else if decide (key = base +:+ ".read.own") then base +:+ "." +:+ ac +:+ ".own"
        else key
      else key
  | None => key
  end.

Lemma str_take_app_len a b : str_take (String.length (a +:+ b) - String.length b) (a +:+ b) = a.
Proof.
  rewrite str_length_app. replace (String.length a + String.length b - String.length b) with (String.length a) by lia.
  induction a as [|c a IH]; [by destruct b|]. rewrite str_app_cons. simpl. by rewrite IH.
Qed.

Section Opened.
Context (role_name : uuid → string) (a : DataAccess) (y0 : Sys) (s s' : Settings) (role : string).
Context (Hbegin : begin_tx role_name a y0 s = Ok (s', role)).
(** The tables may have changed since the transaction was opened. *)
Context (y : Sys).

Lemma opened_setting k v : tx_setting a k = Some v → current_setting k s' = Some v.
Proof. by apply (begin_current role_name a y0 s s' role). Qed.
Lemma opened_is_set k v : tx_setting a k = Some v → is_set k s' = negb (bool_decide (v = EmptyString)).
Proof. intros H. unfold is_set. rewrite (opened_setting _ _ H). simpl. by case_decide; [rewrite bool_decide_true|rewrite bool_decide_false]. Qed.
Lemma opened_setting_is k v w : tx_setting a k = Some v → setting_is k w s' = bool_decide (v = w).
Proof. intros H. unfold setting_is. rewrite (opened_setting _ _ H). apply bool_decide_ext. split; [by intros [= ->]|by intros ->]. Qed.

Lemma opened_delegated_key key : delegated_key s' key = operation_key a key.
Proof.
  unfold delegated_key, operation_key. destruct (setting_collection a) as [H1 H2].
  rewrite (opened_setting _ _ H1), (opened_setting _ _ H2).
  destruct (delegated_collection a) as [[[e ac] t]|]; [|done].
  destruct (bool_decide (ac ∈ MUTATIONS)) eqn:Hm; cbn [from_option fst snd]; [|done]. rewrite Hm.
  replace ("app:" +:+ app_schema a +:+ ":" +:+ e +:+ ".read") with (("app:" +:+ app_schema a +:+ ":" +:+ e) +:+ ".read")
    by (by rewrite !str_app_assoc).
  replace ((("app:" +:+ app_schema a +:+ ":" +:+ e) +:+ ".read") +:+ ".own") with
    (("app:" +:+ app_schema a +:+ ":" +:+ e) +:+ ".read.own") by (by rewrite (str_app_assoc _ ".read" ".own")).
  set (base := "app:" +:+ app_schema a +:+ ":" +:+ e).
  change 5%nat with (String.length ".read"). rewrite str_take_app_len. done.
Qed.

(** A gate on the user's own permissions, outside approved actions. *)
Lemma opened_access key :
  approved_action (state a) = None → check_access y s' key = true →
  from_option ap_id EmptyString (publication a) = EmptyString
  ∧ ∃ u, cx_user_id (state a) = Some u
  ∧ (starts_with "app:" key = true →
       (origin_ a = HumanHttp ∨ app_schema a = split_part2 key)
       ∧ existsb (λ i, bool_decide (i_app_id i = split_part2 key) && i_active i) (app_installations y) = true)
  ∧ if cx_is_delegated (state a)
    then has_permission (decode_perms (encode_perms (cx_effective_perms (state a)))) (operation_key a key) = true
    else has_permission (sql_resolve_permissions (sdb y) u) key = true.
Proof.
  intros Hap. unfold check_access. rewrite (opened_is_set _ _ (setting_approved a)), Hap. cbn [from_option negb].
  rewrite bool_decide_true by done. cbn [negb]. rewrite (opened_is_set _ _ (setting_publication a)).
  case_bool_decide as Hp; cbn [negb]; [|intros [=]]. intros H. split; [done|]. revert H.
  rewrite (opened_setting _ _ (setting_human a)), (opened_setting _ _ (setting_app a)), (opened_setting _ _ (setting_user a)),
    (opened_setting_is _ _ _ (setting_delegated a)), (opened_setting _ _ (setting_perms a)), opened_delegated_key.
  match goal with |- (if ?c then false else _) = true → _ => destruct c eqn:H1; [intros [=]|] end.
  match goal with |- (if ?c then false else _) = true → _ => destruct c eqn:H2; [intros [=]|] end.
  destruct (cx_user_id (state a)) as [u|]; [|by intros HH; discriminate HH]. cbn [default from_option id nonempty].
  destruct (decide (u = EmptyString)); [by intros HH; discriminate HH|]. intros H. exists u. split; [done|]. split.
  - intros Hk. rewrite Hk in H1, H2. cbn in H1, H2. apply negb_false_iff in H2. split; [|done].
    destruct (origin_ a); [right|by left]. rewrite bool_decide_false in H1 by done. cbn in H1.
    apply negb_false_iff, bool_decide_eq_true in H1. destruct (decide _) in H1; [done|]. by injection H1.
  - destruct (cx_is_delegated (state a)).
    + rewrite bool_decide_true in H by done. destruct (decide _); [done|]. by rewrite <-match_permission_has.
    + rewrite bool_decide_false in H by done. unfold sql_has_permission in H. by rewrite <-match_permission_has.
Qed.

(** In a publication's transaction the ordinary gates are closed. *)
Lemma opened_publication p key :
  publication a = Some p → ap_id p ≠ EmptyString →
  check_access y s' key = false ∧ check_cross_app_access y s' key = false.
Proof.
  intros Hp Hid. assert (is_set "rootcx.publication_id" s' = true) as Hset.
  { rewrite (opened_is_set _ _ (setting_publication a)), Hp. cbn [from_option]. by rewrite bool_decide_false. }
  unfold check_access, check_cross_app_access, check_approved_action_access. rewrite Hset. cbn [orb].
  by repeat case_match.
Qed.

Lemma opened_publication_gate key :
  check_publication_access y s' key = true →
  ∃ p row u, publication a = Some p ∧ row ∈ publications y ∧ p_id row = ap_id p
    ∧ p_status row = "active" ∧ unexpired_at y (p_expires_at row) = true
    ∧ key = "app:" +:+ ap_provider_app p +:+ ":" +:+ ap_entity p +:+ ".read"
    ∧ p_provider_app row = app_schema a
    ∧ cx_user_id (state a) = Some u ∧ (p_consumer_installation row, u) ∈ public_principals y
    ∧ (∃ ur, users (sdb y) !! u = Some ur ∧ disabled ur = false)
    ∧ (p_consumer_app row = p_provider_app row ∨
       cross_app_grant_allows y s' key (p_provider_app row) (p_consumer_app row)
         (nonempty (current_setting "rootcx.cross_app_grant_id" s')) = true).
Proof.
  unfold check_publication_access.
  rewrite (opened_setting _ _ (setting_publication a)), (opened_setting _ _ (setting_user a)).
  destruct (publication a) as [p|] eqn:Hp; [|by intros HH; discriminate HH]. cbn [from_option nonempty].
  destruct (decide (ap_id p = EmptyString)); [by intros HH; discriminate HH|].
  destruct (cx_user_id (state a)) as [u|]; [|by intros HH; discriminate HH]. cbn [default from_option id].
  destruct (decide (u = EmptyString)); [by intros HH; discriminate HH|].
  intros (row & Hrow%list_elem_of_In & H)%existsb_exists.
  apply andb_true_iff in H as [H Hg]. bool_hyps.
  rewrite (opened_setting_is _ _ _ (setting_read_key a)), Hp in *. cbn [from_option] in *.
  rewrite (opened_setting_is _ _ _ (setting_app a)) in *. bool_hyps.
  destruct (users (sdb y) !! u) as [ur|] eqn:Hu; [|done].
  exists p, row, u. split_and!; try done.
  - exists ur. split; [done|]. by apply negb_true_iff.
  - apply orb_true_iff in Hg as [Hg|Hg]; [left|by right]. by apply bool_decide_eq_true in Hg.
Qed.

Lemma opened_approved e key :
  approved_action (state a) = Some e → ae_approval_id e ≠ EmptyString →
  check_cross_app_access y s' key = false
  ∧ (check_access y s' key = true →
     ∃ g u, g ∈ action_approvals y ∧ aa_id g = ae_approval_id e ∧ aa_revoked g = false ∧ key ∈ aa_permissions g
       ∧ aa_app_id g = ae_app_id e ∧ aa_action_id g = ae_action_id e ∧ installed y (ae_app_id e) = true
       ∧ cx_user_id (state a) = Some u
       ∧ has_permission (sql_resolve_permissions (sdb y) u) (action_key g) = true
       ∧ (cx_is_delegated (state a) = true →
          has_permission (decode_perms (encode_perms (cx_effective_perms (state a)))) (action_key g) = true)).
Proof.
  intros He Hid. destruct (begin_posed _ _ _ _ _ _ Hbegin) as (_ & _ & Hop).
  destruct (op_approved _ _ Hop e He) as [Happ Hinv].
  assert (is_set "rootcx.approved_action_id" s' = true) as Hset.
  { rewrite (opened_is_set _ _ (setting_approved a)), He. cbn [from_option]. by rewrite bool_decide_false. }
  split; [unfold check_cross_app_access; by rewrite Hset|].
  unfold check_access, check_approved_action_access. rewrite Hset.
  rewrite (opened_setting _ _ (setting_approved a)), He, (opened_setting _ _ (setting_user a)),
    (opened_setting_is _ _ _ (setting_delegated a)), (opened_setting _ _ (setting_perms a)). cbn [from_option nonempty].
  rewrite decide_False by done.
  destruct (cx_user_id (state a)) as [u|]; [|by intros HH; discriminate HH]. cbn [default from_option id].
  destruct (decide (u = EmptyString)); [by intros HH; discriminate HH|].
  match goal with |- (if ?c then false else _) = true → _ => destruct c; [by intros HH; discriminate HH|] end.
  destruct (List.find _ _) as [g|] eqn:Hf; [|by intros HH; discriminate HH].
  apply find_some in Hf as [Hg%list_elem_of_In Hcur]. unfold current_approval in Hcur.
  apply andb_true_iff in Hcur as [Hcur Hm]. bool_hyps.
  rewrite (opened_setting_is _ _ _ (setting_app a)) in *. rewrite (opened_setting_is _ _ _ (setting_action_id a)), Hinv in *.
  cbn [default from_option id guc_values snd] in *. bool_hyps.
  destruct (negb (sql_has_permission y u (action_key g))) eqn:Hk; [by intros HH; discriminate HH|].
  apply negb_false_iff in Hk. unfold sql_has_permission in Hk. rewrite match_permission_has in Hk.
  intros Hgate. exists g, u. split_and!; try done; try congruence.
  - destruct (apps y !! aa_app_id g); [|done]. apply andb_true_iff in Hm as [_ Hm]. congruence.
  - intros Hd. rewrite Hd in Hgate. by rewrite bool_decide_true, match_permission_has in Hgate.
Qed.

(** The grant that opens a cross-app gate. *)
Definition grant_covers (g : CollectionGrant) (x : AuthorizedRead) (key : string) : Prop :=
  g_id g = ar_grant_id x ∧ g_consumer_app g = ar_consumer_app x ∧ g_provider_app g = app_schema a
  ∧ ar_action x ∈ g_actions g ∧ g_status g = "active" ∧ unexpired_at y (g_expires_at g) = true
  ∧ installed y (g_consumer_app g) = true ∧ installed y (g_provider_app g) = true
  ∧ (key = "app:" +:+ app_schema a +:+ ":" +:+ g_entity g +:+ "." +:+ (if decide (ar_action x = "list") then "read" else ar_action x)
     ∨ ar_action x ∈ MUTATIONS ∧ key = "app:" +:+ app_schema a +:+ ":" +:+ g_entity g +:+ ".read").

Lemma opened_cross key :
  check_cross_app_access y s' key = true →
  ∃ x g, cross_app a = Some x ∧ g ∈ cross_app_collection_grants y ∧ grant_covers g x (collection_key key)
    ∧ is_Some (cx_user_id (state a)) ∧ from_option ap_id EmptyString (publication a) = EmptyString
    ∧ (cx_is_delegated (state a) = true →
       has_permission (decode_perms (encode_perms (cx_effective_perms (state a)))) (cross_permission s' key) = true).
Proof.
  unfold check_cross_app_access. rewrite (opened_is_set _ _ (setting_publication a)), (opened_is_set _ _ (setting_user a)).
  destruct (is_set "rootcx.approved_action_id" s'); [intros [=]|]. case_bool_decide as Hp; cbn [negb]; [|intros [=]].
  rewrite (opened_setting_is _ _ _ (setting_delegated a)), (opened_setting _ _ (setting_perms a)).
  destruct (cx_user_id (state a)) as [u|]; [|by intros HH; discriminate HH]. cbn [default from_option id].
  case_bool_decide; cbn [negb]; [intros [=]|].
  match goal with |- (if ?c then false else _) = true → _ => destruct c eqn:Hd; [intros [=]|] end.
  rewrite (opened_setting _ _ (setting_app a)), (opened_setting _ _ (setting_source a)), (opened_setting _ _ (setting_grant a)).
  unfold cross_app_grant_allows. rewrite (opened_setting _ _ (setting_action a)).
  destruct (cross_app a) as [x|]; [|by intros HH; discriminate HH]. cbn [from_option nonempty].
  destruct (decide (ar_grant_id x = EmptyString)); [intros [=]|]. destruct (decide (ar_action x = EmptyString)); [intros [=]|].
  intros Hg. apply andb_true_iff in Hg as [Hne Hg]. apply existsb_exists in Hg as (g & Hin%list_elem_of_In & Hg).
  bool_hyps. exists x, g. split_and!; try done.
  - repeat match goal with H : context [default EmptyString (if decide ?c then _ else _)] |- _ =>
      destruct (decide c); cbn [default from_option id] in H end; try done.
    unfold grant_covers. split_and!; try done.
    match goal with H : _ || _ = true |- _ => apply orb_true_iff in H as [H|H]; bool_hyps; [by left|by right] end.
  - intros Hdel. rewrite Hdel in Hd. rewrite bool_decide_true in Hd by done. cbn [andb] in Hd. apply negb_false_iff in Hd.
    cbn [nonempty] in Hd. destruct (decide _) in Hd; [done|]. by rewrite match_permission_has in Hd.
Qed.
End Opened.

(** An application's transaction is bound to its app and to its user: when the
    ordinary gate opens for a key, in a transaction [begin] opened for no approved
    action, then no publication is in play, there is a user, a key of an app is that
    of the transaction's own app (unless Core marked a direct human request) and
    that app is active, and the user holds the key, or, delegated, the frozen
    permissions posed with the request hold it (for the collection being mutated,
    the right to the mutation). *)
Theorem app_gate_is_granted role_name a y0 s s' role y key :
  begin_tx role_name a y0 s = Ok (s', role) → approved_action (state a) = None →
  check_access y s' key = true →
  ∃ u, cx_user_id (state a) = Some u ∧ from_option ap_id EmptyString (publication a) = EmptyString
  ∧ (starts_with "app:" key = true →
       (origin_ a = HumanHttp ∨ app_schema a = split_part2 key)
       ∧ existsb (λ i, bool_decide (i_app_id i = split_part2 key) && i_active i) (app_installations y) = true)
  ∧ if cx_is_delegated (state a)
    then Forall (λ k, validate_perm_key k = Ok tt) (cx_effective_perms (state a)) →
         has_permission (cx_effective_perms (state a)) (operation_key a key) = true
    else has_permission (sql_resolve_permissions (sdb y) u) key = true.
Proof.
  intros Hb Hap Hk. destruct (opened_access _ _ _ _ _ _ Hb y key Hap Hk) as (Hp & u & Hu & Happ & Hh).
  exists u. split_and!; try done. destruct (cx_is_delegated (state a)); [|done]. intros Hv.
  by rewrite decode_encode_perms in Hh.
Qed.

(** A publication's transaction reads one collection and nothing else: the
    ordinary and the cross-app gates stay closed in it, whatever the principal or
    the grants hold, and the publication gate opens only for the read key of the
    published collection, of an active and unexpired publication of that id, for an
    enabled principal of the consumer's installation. *)
Theorem publication_only_reads role_name a y0 s s' role y p key :
  begin_tx role_name a y0 s = Ok (s', role) → publication a = Some p → ap_id p ≠ EmptyString →
  check_access y s' key = false ∧ check_cross_app_access y s' key = false
  ∧ (check_publication_access y s' key = true →
     key = "app:" +:+ ap_provider_app p +:+ ":" +:+ ap_entity p +:+ ".read"
     ∧ ∃ row u, row ∈ publications y ∧ p_id row = ap_id p ∧ p_status row = "active"
        ∧ unexpired_at y (p_expires_at row) = true ∧ cx_user_id (state a) = Some u
        ∧ (p_consumer_installation row, u) ∈ public_principals y
        ∧ ∃ ur, users (sdb y) !! u = Some ur ∧ disabled ur = false).
Proof.
  intros Hb Hp Hid. destruct (opened_publication _ _ _ _ _ _ Hb y p key Hp Hid) as [H1 H2]. split_and!; try done.
  intros (p' & row & u & Hp' & ? & ? & ? & ? & Hk & ? & ? & ? & ? & _)%(opened_publication_gate _ _ _ _ _ _ Hb).
  assert (p' = p) as -> by congruence. split; [done|]. exists row, u. by split_and!.
Qed.

(** An approved action stays under the ceiling that was approved: in its
    transaction the cross-app gate is closed, and the ordinary gate opens only for
    a key listed in the approval itself, which is not revoked and is the one of
    this app's action, while the user (and, delegated, the frozen permissions)
    still holds the action. *)
Theorem approved_action_ceiling role_name a y0 s s' role y e key :
  begin_tx role_name a y0 s = Ok (s', role) → approved_action (state a) = Some e → ae_approval_id e ≠ EmptyString →
  check_cross_app_access y s' key = false
  ∧ (check_access y s' key = true →
     ∃ g u, g ∈ action_approvals y ∧ aa_id g = ae_approval_id e ∧ aa_revoked g = false ∧ key ∈ aa_permissions g
       ∧ aa_app_id g = app_schema a ∧ aa_action_id g = ae_action_id e ∧ cx_user_id (state a) = Some u
       ∧ has_permission (sql_resolve_permissions (sdb y) u) (action_key g) = true
       ∧ (cx_is_delegated (state a) = true → Forall (λ k, validate_perm_key k = Ok tt) (cx_effective_perms (state a)) →
          has_permission (cx_effective_perms (state a)) (action_key g) = true)).
Proof.
  intros Hb He Hid. destruct (opened_approved _ _ _ _ _ _ Hb y e key He Hid) as [H1 H2]. split; [done|].
  intros (g & u & ? & ? & ? & ? & Happ & ? & ? & ? & ? & Hd)%H2. exists g, u.
  destruct (begin_posed _ _ _ _ _ _ Hb) as (_ & _ & Hop). destruct (op_approved _ _ Hop e He) as [Hs _].
  split_and!; try done; [congruence|]. intros Hdel Hv. specialize (Hd Hdel). by rewrite decode_encode_perms in Hd.
Qed.
End Begin.

(** ** Examples *)

Module GateExamples.
Definition ex_sys : Sys :=
  {| sgov := {| gpool := demo_pool; delegations := []; clock := 5 |};
     app_installations := [{| i_id := "inst"; i_app_id := "crm"; i_active := true |}];
     apps := {["crm" := {| a_status := "installed"; a_manifest := "m1" |}]};
     cross_app_collection_grants := [];
     publications := [{| p_id := "pub"; p_consumer_app := "crm"; p_provider_app := "crm"; p_consumer_installation := "inst";
       p_provider_installation := "inst"; p_entity := "c"; p_release_ownership := false; p_status := "active"; p_version := 1;
       p_expires_at := Some 9%Z |}];
     public_principals := [("inst", "u1")];
     action_approvals := [{| aa_id := "ap"; aa_app_id := "crm"; aa_action_id := "record"; aa_installation := "inst";
       aa_revision := "r1"; aa_digest := "d"; aa_manifest := "m1"; aa_permissions := ["app:crm:c.create"]; aa_revoked := false |}];
     backend_releases := [{| br_app_id := "crm"; br_revision := "r1"; br_digest := Some "d" |}] |}.
Definition ex_begin (s : Settings) (a : @DataAccess unit) : result string (Settings * string) :=
  begin_tx (λ _ _, Some tt) (λ _ _, Ok tt) (λ id, "role:" +:+ id) a ex_sys s.
Definition ex_state (u : uuid) : ContextState :=
  {| cx_user_id := Some u; cx_is_delegated := false; cx_effective_perms := []; cx_connection_id := None;
     audit_actor_id := Some u; audit_delegator_id := None; public_execution := None; approved_action := None |}.
Definition ex_app : @DataAccess unit := data_app "crm" (ex_state "u1") "app_sql" 8000.
Definition ex_publication : ApprovedPublication :=
  {| ap_id := "pub"; ap_version := 1; ap_consumer_app := "crm"; ap_provider_app := "crm"; ap_consumer_installation := "inst";
     ap_provider_installation := "inst"; ap_entity := "c"; ap_release_ownership := false |}.
Definition ex_execution : PublicExecution :=
  {| pe_consumer_app := "crm"; pe_installation_id := "inst"; pe_principal_id := "u1"; pe_publications := [ex_publication] |}.
Definition ex_action : ApprovedActionExecution :=
  {| ae_approval_id := "ap"; ae_installation_id := "inst"; ae_app_id := "crm"; ae_action_id := "record"; ae_execution_id := "x" |}.
Definition ex_approved : @DataAccess unit :=
  {| app_schema := "crm";
     state := {| cx_user_id := Some "root"; cx_is_delegated := false; cx_effective_perms := []; cx_connection_id := None;
                 audit_actor_id := None; audit_delegator_id := None; public_execution := None; approved_action := Some ex_action |};
     invocation := Some (Action "record"); audit := {| actor := None; delegator := None |}; trigger_ref_ := "action";
     timeout_ms := 8000; cross_app := None; origin_ := AppOrigin; delegated_collection := None; publication := None |}.
Definition opened_from (s : Settings) (a : @DataAccess unit) : Settings :=
  match ex_begin s a with Ok (s, _) => s | Err _ => ∅ end.
Notation opened := (opened_from ∅).

Lemma ex_opened s a : match ex_begin s a with Ok _ => true | Err _ => false end = true →
  ∃ role, ex_begin s a = Ok (opened_from s a, role).
Proof. unfold opened_from. destruct (ex_begin s a) as [[s' role]|]; [eauto|done]. Qed.

Lemma app_gate_is_granted_witness :
  check_access ex_sys (opened ex_app) "app:crm:c.read" = true
  ∧ has_permission (sql_resolve_permissions (sdb ex_sys) "u1") "app:crm:c.read" = true.
Proof.
  assert (check_access ex_sys (opened ex_app) "app:crm:c.read" = true) as H by (vm_compute; reflexivity).
  split; [exact H|]. assert (∃ role, ex_begin ∅ ex_app = Ok (opened_from ∅ ex_app, role)) as [role Hb] by (apply ex_opened; vm_compute; reflexivity).
  destruct (app_gate_is_granted (λ _ _, Some tt) (λ _ _, Ok tt) (λ id, "role:" +:+ id) ex_app ex_sys ∅ (opened ex_app) role ex_sys "app:crm:c.read" Hb eq_refl H)
    as (u & Hu & _ & _ & Hh). injection Hu as <-. exact Hh.
Defined.

Definition stale : Settings := {["rootcx.user_id" := "root"; "rootcx.publication_id" := "old"; "rootcx.app_id" := "hr"]}.
Lemma begin_forgets_the_connection_witness :
  check_access ex_sys (opened ex_app) "app:crm:c.read" = check_access ex_sys (opened_from stale ex_app) "app:crm:c.read"
  ∧ check_access ex_sys stale "app:crm:c.read" = false.
Proof.
  split; [|vm_compute; reflexivity]. assert (∃ role, ex_begin ∅ ex_app = Ok (opened_from ∅ ex_app, role)) as [role Hb] by (apply ex_opened; vm_compute; reflexivity).
  assert (∃ role, ex_begin stale ex_app = Ok (opened_from stale ex_app, role)) as [role' Hb'] by (apply ex_opened; vm_compute; reflexivity).
  exact (proj1 (proj2 (begin_forgets_the_connection (λ _ _, Some tt) (λ _ _, Ok tt) (λ id, "role:" +:+ id) ex_app ex_sys ∅ stale
    _ _ role role' Hb Hb') ex_sys "app:crm:c.read")).
Defined.

Lemma publication_only_reads_witness :
  check_access ex_sys (opened (publication_access ex_execution ex_publication None)) "app:crm:c.read" = false
  ∧ check_publication_access ex_sys (opened (publication_access ex_execution ex_publication None)) "app:crm:c.read" = true.
Proof.
  split; [|vm_compute; reflexivity].
  assert (∃ role, ex_begin ∅ (publication_access ex_execution ex_publication None) = Ok (opened_from ∅ (publication_access ex_execution ex_publication None), role)) as [role Hb] by (apply ex_opened; vm_compute; reflexivity).
  exact (proj1 (publication_only_reads (λ _ _, Some tt) (λ _ _, Ok tt) (λ id, "role:" +:+ id) _ ex_sys ∅ _ role ex_sys ex_publication "app:crm:c.read" Hb eq_refl
    ltac:(discriminate))).
Defined.

Lemma approved_action_ceiling_witness :
  check_access ex_sys (opened ex_approved) "app:crm:c.create" = true
  ∧ check_access ex_sys (opened ex_approved) "app:crm:c.delete" = false
  ∧ check_cross_app_access ex_sys (opened ex_approved) "app:crm:c.create" = false.
Proof.
  split; [vm_compute; reflexivity|]. split; [vm_compute; reflexivity|].
  assert (∃ role, ex_begin ∅ ex_approved = Ok (opened_from ∅ ex_approved, role)) as [role Hb] by (apply ex_opened; vm_compute; reflexivity).
  exact (proj1 (approved_action_ceiling (λ _ _, Some tt) (λ _ _, Ok tt) (λ id, "role:" +:+ id) ex_approved ex_sys ∅ _ role ex_sys ex_action "app:crm:c.create" Hb eq_refl
    ltac:(discriminate))).
Defined.
End GateExamples.
