(* ===== verification/Json.v ===== *)
(** * JSON values and the accessors of serde_json

    A number is known by what its accessors answer; printing a document belongs to
    the library and is a parameter of what uses it. *)

From stdpp Require Import base numbers gmap strings sets list.
From S2P Require Import Prelude Str.

Record JsonNumber := {
  num_text : string;          (* to_string() *)
  num_i64 : option Z;         (* as_i64() *)
  num_f64 : option string }.  (* as_f64(), as [f64::to_string] prints it *)

Inductive JsonValue :=
| JNull
| JBool (b : bool)
| JNumber (n : JsonNumber)
| JString (s : string)
| JArray (l : list JsonValue)
| JObject (entries : list (string * JsonValue)).

(** ** JSON accessors of serde_json *)

Definition as_array (v : JsonValue) : option (list JsonValue) :=
  match v with JArray l => Some l | _ => None end.
Definition as_object (v : JsonValue) : option (list (string * JsonValue)) :=
  match v with JObject l => Some l | _ => None end.
Definition as_str (v : JsonValue) : option string := match v with JString s => Some s | _ => None end.
Definition as_i64 (v : JsonValue) : option Z := match v with JNumber n => num_i64 n | _ => None end.
Definition as_f64 (v : JsonValue) : option string := match v with JNumber n => num_f64 n | _ => None end.
Definition as_bool (v : JsonValue) : option bool := match v with JBool b => Some b | _ => None end.

(** A map keeps its keys sorted, each once. *)
Fixpoint obj_get (k : string) (l : list (string * JsonValue)) : option JsonValue :=
  match l with
  | [] => None
  | (k', v) :: l => if decide (k' = k) then Some v else obj_get k l
  end.
Fixpoint obj_insert (k : string) (v : JsonValue) (l : list (string * JsonValue)) : list (string * JsonValue) :=
  match l with
  | [] => [(k, v)]
  | (k', v') :: l =>
      match String.compare k k' with
      | Datatypes.Eq => (k, v) :: l
      | Datatypes.Lt => (k, v) :: (k', v') :: l
      | Datatypes.Gt => (k', v') :: obj_insert k v l
      end
  end.
Definition get (v : JsonValue) (k : string) : option JsonValue := as_object v ≫= obj_get k.

Lemma string_compare_eq a b : String.compare a b = Datatypes.Eq ↔ a = b.
Proof.
  split; [apply String.compare_eq_iff|]. intros <-. induction a as [|c a IH]; simpl; [done|].
  unfold Ascii.compare. by rewrite N.compare_refl.
Qed.

Lemma obj_get_insert k k' v l :
  obj_get k' (obj_insert k v l) = if decide (k = k') then Some v else obj_get k' l.
Proof.
  induction l as [|[k0 v0] l IH]; simpl; [by destruct (decide (k = k'))|].
  destruct (String.compare k k0) eqn:Hc; simpl.
  - apply string_compare_eq in Hc as ->. by destruct (decide (k0 = k')).
  - by destruct (decide (k = k')).
  - rewrite IH. destruct (decide (k0 = k')) as [->|]; [|done].
    rewrite decide_False; [done|]. intros ->. by rewrite (proj2 (string_compare_eq k' k')) in Hc.
Qed.

Section JsonInd.
Context (P : JsonValue → Prop).
Context (Hnull : P JNull) (Hbool : ∀ b, P (JBool b)) (Hnum : ∀ n, P (JNumber n)) (Hstr : ∀ s, P (JString s)).
Context (Harr : ∀ l, Forall P l → P (JArray l)) (Hobj : ∀ l, Forall (λ e, P e.2) l → P (JObject l)).
Fixpoint json_ind (v : JsonValue) : P v :=
  match v with
  | JNull => Hnull | JBool b => Hbool b | JNumber n => Hnum n | JString s => Hstr s
  | JArray l => Harr l ((fix go (l : list JsonValue) : Forall P l :=
      match l with [] => List.Forall_nil _ | v :: l => List.Forall_cons _ _ _ (json_ind v) (go l) end) l)
  | JObject l => Hobj l ((fix go (l : list (string * JsonValue)) : Forall (λ e, P e.2) l :=
      match l with [] => List.Forall_nil _ | e :: l => List.Forall_cons _ e _ (json_ind e.2) (go l) end) l)
  end.
End JsonInd.

(** ** Equality *)

#[export] Instance JsonNumber_eq_dec : EqDecision JsonNumber.
Proof. solve_decision. Defined.
Fixpoint json_eqb (v w : JsonValue) : bool :=
  match v, w with
  | JNull, JNull => true
  | JBool a, JBool b => Bool.eqb a b
  | JNumber n, JNumber k => bool_decide (n = k)
  | JString s, JString t => bool_decide (s = t)
  | JArray l, JArray l' =>
      (fix go (l l' : list JsonValue) : bool :=
         match l, l' with
         | [], [] => true
         | v :: l, w :: l' => json_eqb v w && go l l'
         | _, _ => false
         end) l l'
  | JObject l, JObject l' =>
      (fix go (l l' : list (string * JsonValue)) : bool :=
         match l, l' with
         | [], [] => true
         | (k, v) :: l, (k', w) :: l' => bool_decide (k = k') && json_eqb v w && go l l'
         | _, _ => false
         end) l l'
  | _, _ => false
  end.
Lemma json_eqb_eq v w : json_eqb v w = true ↔ v = w.
Proof.
  revert w. induction v as [|b|n|s|l IH|l IH] using json_ind; intros [|b'|n'|s'|l'|l']; cbn [json_eqb]; try done.
  - rewrite Bool.eqb_true_iff. split; congruence.
  - rewrite bool_decide_eq_true. split; congruence.
  - rewrite bool_decide_eq_true. split; congruence.
  - transitivity (l = l'); [|split; congruence].
    revert l'. induction IH as [|v l Hv _ IHl]; intros [|w l']; try done. rewrite andb_true_iff, Hv, IHl. split; [by intros [-> ->]|by intros [= -> ->]].
  - transitivity (l = l'); [|split; congruence].
    revert l'. induction IH as [|[k v] l Hv _ IHl]; intros [|[k' w] l']; try done.
    rewrite !andb_true_iff, bool_decide_eq_true, (Hv w : json_eqb v w = true ↔ v = w), IHl. split; [by intros [[-> ->] ->]|by intros [= -> -> ->]].
Qed.
#[export] Instance JsonValue_eq_dec : EqDecision JsonValue.
Proof.
  intros v w. destruct (json_eqb v w) eqn:E.
  - left. by apply json_eqb_eq.
  - right. intros H%json_eqb_eq. congruence.
Defined.
