(* ===== verification/DataTypes.v ===== *)
(** * Declared data: contracts and field types

    The manifest contracts of an entity (crates/shared-types/src/lib.rs) and the
    field types Core derives from them (core/src/data_types.rs).  A JSON number
    is known by what its accessors answer; printing a JSON document and parsing
    a decimal belong to libraries and are parameters. *)

From stdpp Require Import base numbers pretty gmap strings sets sorting list.
From S2P Require Import Prelude Str Ident Json.

Record FieldRules := {
  minimum : option JsonValue; maximum : option JsonValue;
  exclusive_minimum : option JsonValue; exclusive_maximum : option JsonValue;
  integer : bool; max_scale : option N;
  min_length : option N; max_length : option N; not_blank : bool;
  format : option string; pattern : option string;
  json_type : option string; max_items : option N }.

Definition no_rules : FieldRules :=
  {| minimum := None; maximum := None; exclusive_minimum := None; exclusive_maximum := None;
     integer := false; max_scale := None; min_length := None; max_length := None;
     not_blank := false; format := None; pattern := None; json_type := None; max_items := None |}.

Record FieldReference := { ref_entity : string; ref_field : string }.

(** [unknown], of each: the keys this Core does not understand, in order. *)
Inductive OnDeletePolicy := Cascade | Restrict | SetNull.
Record FieldContract := {
  fname : string;
  field_type : string;
  precision : option N;
  scale : option N;
  required : bool;
  default_value : option JsonValue;
  enum_values : option (list string);
  references : option FieldReference;
  is_primary_key : option bool;
  sensitive : bool;
  owner : bool;
  rules : FieldRules;
  on_delete : option OnDeletePolicy;
  field_unknown : list string }.

Record CheckContract := { chk_name : option string; chk_expr : string; chk_unknown : list string }.

Record IndexColumnSpec := {
  ix_column : option string; ix_expr : option string;
  ix_sort : option string; ix_nulls : option string; ix_ops : option string; ix_unknown : list string }.
Inductive IndexColumn := IxName (name : string) | IxSpec (spec : IndexColumnSpec).
Record IndexContract := {
  idx_name : option string;
  idx_columns : list IndexColumn;
  idx_unique : bool;
  idx_using : option string;
  idx_where : option string;
  idx_with : list (string * string);
  idx_unknown : list string }.

Inductive ShareScope := Identity | Resource.
Record ShareTarget := { st_entity : string; st_via : list string }.
Record ShareContract := {
  grantee : string; subject : string; active_when_null : string; share_scope : ShareScope; share_targets : list ShareTarget }.

Record EntityContract := {
  entity_name : string;
  entity_fields : list FieldContract;
  share : option ShareContract;
  entity_indexes : list IndexContract;
  entity_checks : list CheckContract;
  derived_from : option string;
  identity_kind : option string;
  identity_key : option string;
  entity_unknown : list string }.

(** ** Field types *)

Record DecimalType := { dec_precision : option N; dec_scale : option N }.

Inductive FieldType :=
| FText | FNumber | FDecimal (d : DecimalType) | FBoolean | FDate | FTimestamp | FJson | FFile
| FUuid | FEntityLink | FTextArray | FNumberArray.

#[export] Instance DecimalType_eq_dec : EqDecision DecimalType.
Proof. solve_decision. Defined.
#[export] Instance FieldType_eq_dec : EqDecision FieldType.
Proof. solve_decision. Defined.

Record Field := { f_type : FieldType; f_sensitive : bool }.
Notation FieldTypes := (gmap string Field).

Definition MAX_NUMERIC_PRECISION : N := 1000.

Definition decimal_from_field (field : FieldContract) : result string DecimalType :=
  let refuse why : result string DecimalType := Err ("decimal field '" +:+ fname field +:+ "' " +:+ why) in
  match precision field, scale field with
  | None, None => Ok {| dec_precision := None; dec_scale := None |}
  | Some p, Some s =>
      if (1 <=? p)%N && (p <=? MAX_NUMERIC_PRECISION)%N && (s <=? p)%N
      then Ok {| dec_precision := Some p; dec_scale := Some s |}
      else if (p =? 0)%N then refuse "precision must be at least 1"
      else if (MAX_NUMERIC_PRECISION <? p)%N
      then refuse ("precision must not exceed " +:+ pretty MAX_NUMERIC_PRECISION)
      else refuse ("scale (" +:+ pretty s +:+ ") must not exceed precision (" +:+ pretty p +:+ ")")
  | _, _ => refuse "must declare precision and scale together, or neither"
  end.

Definition is_json (t : FieldType) : bool := match t with FJson => true | _ => false end.
Definition is_decimal (t : FieldType) : bool := match t with FDecimal _ => true | _ => false end.

Definition postgres_type (t : FieldType) : string :=
  match t with
  | FText | FFile => "TEXT"
  | FNumber => "DOUBLE PRECISION"
  | FDecimal {| dec_precision := Some p; dec_scale := Some s |} =>
      "NUMERIC(" +:+ pretty p +:+ "," +:+ pretty s +:+ ")"
  | FDecimal _ => "NUMERIC"
  | FBoolean => "BOOLEAN"
  | FDate => "DATE"
  | FTimestamp => "TIMESTAMPTZ"
  | FJson => "JSONB"
  | FUuid | FEntityLink => "UUID"
  | FTextArray => "TEXT[]"
  | FNumberArray => "DOUBLE PRECISION[]"
  end.

Definition parameter_cast (t : FieldType) : string :=
  match t with
  | FNumber => "::float8"
  | FDecimal _ => "::numeric"
  | FBoolean => "::boolean"
  | FDate => "::date"
  | FTimestamp => "::timestamptz"
  | FUuid | FEntityLink => "::uuid"
  | FJson => "::jsonb"
  | FTextArray => "::text[]"
  | FNumberArray => "::float8[]"
  | FText | FFile => ""
  end.

Section Types.
(** [BigDecimal::from_str(..)], printed back, and [serde_json::Value::to_string]. *)
Context (bigdecimal : string → option string) (json_to_string : JsonValue → string).

Definition parse_decimal (value label : string) : result string string :=
  ok_or (bigdecimal value) ("invalid decimal " +:+ label +:+ ": '" +:+ value +:+ "'").

Definition validate_default (t : FieldType) (name : string) (value : JsonValue) : result string unit :=
  if negb (is_decimal t) || match value with JNull => true | _ => false end then Ok tt
  else match value with
  | JString literal => let? _ := parse_decimal literal name in Ok tt
  | _ => Err ("decimal field '" +:+ name +:+ "' default_value must be a JSON string")
  end.

Definition type_named (field : FieldContract) : result string FieldType :=
  let t := field_type field in
  if decide (t = "text") then Ok FText
  else if decide (t = "number") then Ok FNumber
  else if decide (t = "decimal") then result_map FDecimal (decimal_from_field field)
  else if decide (t = "boolean") then Ok FBoolean
  else if decide (t = "date") then Ok FDate
  else if decide (t = "timestamp") then Ok FTimestamp
  else if decide (t = "json") then Ok FJson
  else if decide (t = "file") then Ok FFile
  else if decide (t = "uuid") then Ok FUuid
  else if decide (t = "entity_link") then Ok FEntityLink
  else if decide (t = "[text]") then Ok FTextArray
  else if decide (t = "[number]") then Ok FNumberArray
  else Err ("field '" +:+ fname field +:+ "' has unknown type '" +:+ t +:+ "'").

Definition is_some {A} (o : option A) : bool := match o with Some _ => true | None => false end.

Definition from_field (field : FieldContract) : result string FieldType :=
  let? t := type_named field in
  if negb (is_decimal t) && (is_some (precision field) || is_some (scale field))
  then Err ("field '" +:+ fname field +:+ "' can only declare precision and scale when type is 'decimal'")
  else
  try? match default_value field with
       | Some default => validate_default t (fname field) default
       | None => Ok tt
       end in
  Ok t.

Definition readable (t : FieldType) : Field := {| f_type := t; f_sensitive := false |}.

Definition system_field_types : list (string * Field) :=
  [("id", readable FUuid); ("created_at", readable FTimestamp); ("updated_at", readable FTimestamp)].

Definition extend (m : FieldTypes) (l : list (string * Field)) : FieldTypes :=
  fold_left (λ m e, <[e.1 := e.2]> m) l m.

Definition field_types (entity : EntityContract) : result string FieldTypes :=
  let? l := try_map (λ field,
      let? t := from_field field in
      Ok (fname field, {| f_type := t; f_sensitive := sensitive field |})) (entity_fields entity) in
  Ok (extend (extend ∅ l) system_field_types).

Definition sql_default (value : JsonValue) (t : FieldType) : option string :=
  match value with
  | JNull => None
  | JBool b => Some (if b then "true" else "false")
  | JNumber n => Some (num_text n)
  | JString s => if is_decimal t then ok (parse_decimal s "default_value") else Some (quote_literal s)
  | JArray _ | JObject _ =>
      if is_json t then Some (quote_literal (json_to_string value) +:+ "::jsonb") else None
  end.

Definition enum_check_expr (field : FieldContract) : option string :=
  match enum_values field with
  | None | Some [] => None
  | Some vals =>
      let col := quote_ident (fname field) in
      let l := join ", " (map quote_literal vals) in
      match from_field field with
      | Err _ => None
      | Ok FTextArray => Some (col +:+ " <@ ARRAY[" +:+ l +:+ "]::TEXT[]")
      | Ok _ => Some (col +:+ " IN (" +:+ l +:+ ")")
      end
  end.
End Types.

(** [sorted_names]: the fields the predicate picks, sorted. *)
Definition sorted_names (types : FieldTypes) (pick : Field → bool) : list string :=
  sort_strings (omap (λ e, if pick e.2 then Some e.1 else None) (map_to_list types)).

(** [slice::chunks(n)], for [n > 0]. *)
Fixpoint chunks_from {A} (fuel n : nat) (l : list A) : list (list A) :=
  match fuel, l with
  | S fuel, _ :: _ => take n l :: chunks_from fuel n (drop n l)
  | _, _ => []
  end.
Definition chunks {A} (n : nat) (l : list A) : list (list A) := chunks_from (length l) n l.

Definition row_entry (record_ref : string) (types : FieldTypes) (name : string) : string :=
  let cast := if match types !! name with Some f => is_decimal (f_type f) | None => false end
              then "::text" else "" in
  quote_literal name +:+ ", " +:+ record_ref +:+ "." +:+ quote_ident name +:+ cast.

Definition row_json (record_ref : string) (types : FieldTypes) : string :=
  match sorted_names types (λ f, negb (f_sensitive f)) with
  | [] => "'{}'::jsonb"
  | names =>
      join " || " (map (λ chunk,
        "jsonb_build_object(" +:+ join ", " (map (row_entry record_ref types) chunk) +:+ ")")
        (chunks 40 names))
  end.

(** ** What the types guarantee *)

Lemma concat_chunks_from {A} fuel n (l : list A) :
  0 < n → length l ≤ fuel → concat (chunks_from fuel n l) = l.
Proof.
  intros Hn. revert l. induction fuel as [|fuel IH]; intros [|x l] Hl; simpl in *; try done; [lia|].
  destruct n as [|n]; [lia|]. simpl. rewrite IH; [by rewrite take_drop|]. rewrite length_drop. lia.
Qed.

Lemma chunks_from_bounds {A} fuel n (l : list A) :
  0 < n → Forall (λ c, 0 < length c ≤ n) (chunks_from fuel n l).
Proof.
  intros Hn. revert l. induction fuel as [|fuel IH]; intros [|x l]; simpl; try constructor; [|apply IH].
  rewrite length_take. simpl. lia.
Qed.

Lemma elem_of_sorted_names types pick n :
  n ∈ sorted_names types pick ↔ ∃ f, types !! n = Some f ∧ pick f = true.
Proof.
  unfold sorted_names. rewrite elem_of_sort_strings, list_elem_of_omap. split.
  - intros ([n' f] & Hin & Heq). simpl in Heq. apply elem_of_map_to_list in Hin.
    destruct (pick f) eqn:Hp; simplify_eq. eauto.
  - intros (f & Hf & Hp). exists (n, f). simpl. rewrite Hp. split; [by apply elem_of_map_to_list|done].
Qed.

Lemma NoDup_picked (pick : Field → bool) l :
  NoDup l.*1 → NoDup (omap (λ e : string * Field, if pick e.2 then Some e.1 else None) l).
Proof.
  induction l as [|[n f] l IH]; csimpl; [constructor|]. intros [Hn Hl]%NoDup_cons.
  destruct (pick f); [|by apply IH]. apply NoDup_cons. split; [|by apply IH].
  intros ([n' f'] & Hin & Heq)%list_elem_of_omap. simpl in Heq.
  destruct (pick f'); simplify_eq. apply Hn, list_elem_of_fmap. by exists (n, f').
Qed.

Lemma NoDup_sorted_names types pick : NoDup (sorted_names types pick).
Proof.
  unfold sorted_names, sort_strings. rewrite merge_sort_Permutation.
  apply NoDup_picked, NoDup_fst_map_to_list.
Qed.

(** The JSON of a row is built from precisely the columns that are not
    sensitive, each once and in a fixed order, in calls of at most forty
    columns: no sensitive column is ever named. *)
Theorem row_json_readable_only record_ref types :
  ∃ names cs,
    row_json record_ref types
    = (if decide (names = []) then "'{}'::jsonb"
       else join " || " (map (λ c, "jsonb_build_object("
              +:+ join ", " (map (row_entry record_ref types) c) +:+ ")") cs))
    ∧ concat cs = names ∧ Forall (λ c, 0 < length c ≤ 40) cs
    ∧ Sorted String.le names ∧ NoDup names
    ∧ ∀ n, n ∈ names ↔ ∃ f, types !! n = Some f ∧ f_sensitive f = false.
Proof.
  exists (sorted_names types (λ f, negb (f_sensitive f))),
         (chunks 40 (sorted_names types (λ f, negb (f_sensitive f)))).
  split_and!.
  - unfold row_json. by destruct (sorted_names types _).
  - apply concat_chunks_from; lia.
  - apply chunks_from_bounds. lia.
  - apply Sorted_merge_sort, _.
  - apply NoDup_sorted_names.
  - intros n. rewrite elem_of_sorted_names. by setoid_rewrite negb_true_iff.
Qed.

(** Whatever the manifest declares, the system columns keep their own type
    and stay readable: a field that shadows [id] cannot hide it. *)
Theorem field_types_system_readable bigdecimal entity types :
  field_types bigdecimal entity = Ok types →
  types !! "id" = Some (readable FUuid)
  ∧ types !! "created_at" = Some (readable FTimestamp)
  ∧ types !! "updated_at" = Some (readable FTimestamp).
Proof.
  unfold field_types. intros H. inv_ok. subst types.
  unfold system_field_types. simpl extend.
  unfold extend. cbn [fold_left fst snd]. rewrite !lookup_insert. done.
Qed.

Definition demo_field (name ty : string) (sens : bool) : FieldContract :=
  {| fname := name; field_type := ty; precision := None; scale := None; required := false;
     default_value := None; enum_values := None; references := None; is_primary_key := None; sensitive := sens;
     owner := false; rules := no_rules; on_delete := None; field_unknown := [] |}.

Definition demo_entity : EntityContract :=
  {| entity_name := "person";
     entity_fields := [demo_field "id" "text" true; demo_field "name" "text" false;
                       demo_field "age" "number" false; demo_field "secret" "text" true];
     entity_indexes := []; entity_checks := []; share := None; derived_from := None;
     identity_kind := None; identity_key := None; entity_unknown := [] |}.

Lemma field_types_system_readable_witness :
  ∃ types, field_types (λ _, None) demo_entity = Ok types ∧ types !! "id" = Some (readable FUuid).
Proof.
  eexists. split; [vm_compute; reflexivity|].
  eapply (field_types_system_readable (λ _, None) demo_entity). vm_compute. reflexivity.
Defined.

(** A decimal type that is accepted has no precision and scale, or a
    precision between 1 and 1000 and a scale within it, as PostgreSQL's NUMERIC
    takes them. *)
Theorem decimal_type_bounds bigdecimal field d :
  from_field bigdecimal field = Ok (FDecimal d) →
  (dec_precision d = None ∧ dec_scale d = None)
  ∨ ∃ p s, dec_precision d = Some p ∧ dec_scale d = Some s
      ∧ (1 ≤ p ≤ MAX_NUMERIC_PRECISION)%N ∧ (s ≤ p)%N
      ∧ postgres_type (FDecimal d) = "NUMERIC(" +:+ pretty p +:+ "," +:+ pretty s +:+ ")".
Proof.
  unfold from_field. intros H. inv_ok. destruct (_ && _); [done|]. inv_ok. subst a.
  unfold type_named in Hok. repeat (case_decide; [try discriminate Hok|]); [|discriminate Hok].
  apply result_map_ok_iff in Hok as (d' & Hok & [= ->]). revert Hok. clear. unfold decimal_from_field.
  destruct (precision field) as [p|], (scale field) as [s|]; try done.
  - destruct (_ && _) eqn:Hb; [|by repeat case_match]. intros [= <-]. right. exists p, s.
    bool_hyps. rewrite !N.leb_le in *. simpl. split_and!; done.
  - intros [= <-]. by left.
Qed.

Lemma decimal_type_bounds_witness :
  from_field (λ _, None) {| fname := "price"; field_type := "decimal"; precision := Some 12%N; scale := Some 2%N;
     required := false; default_value := None; enum_values := None; references := None; is_primary_key := None;
     sensitive := false; owner := false; rules := no_rules; on_delete := None; field_unknown := [] |}
  = Ok (FDecimal {| dec_precision := Some 12%N; dec_scale := Some 2%N |})
  ∧ postgres_type (FDecimal {| dec_precision := Some 12%N; dec_scale := Some 2%N |}) = "NUMERIC(12,2)".
Proof.
  split; [vm_compute; reflexivity|].
  destruct (decimal_type_bounds (λ _, None) {| fname := "price"; field_type := "decimal";
     precision := Some 12%N; scale := Some 2%N; required := false; default_value := None;
     enum_values := None; references := None; is_primary_key := None; sensitive := false; owner := false; rules := no_rules; on_delete := None; field_unknown := [] |}
     {| dec_precision := Some 12%N; dec_scale := Some 2%N |}) as [[? ?]|(p & s & Hp & Hs & _ & _ & He)].
  - vm_compute. reflexivity.
  - discriminate.
  - simpl in Hp, Hs. injection Hp as <-. injection Hs as <-. rewrite He. vm_compute. reflexivity.
Defined.
