(* ===== verification/SqlGuard.v ===== *)
(** * The statements an app may send (core/src/governance/enforcement/sql_proxy.rs)

    [validate_sql] is the boundary for utility statements: it classifies a
    statement by its first word.  It is proved against the first token
    PostgreSQL's own scanner reads.  The binding of JSON parameters to the types
    PostgreSQL infers and the bound on returned rows follow. *)

From stdpp Require Import base numbers pretty gmap strings sets list.
From S2P Require Import Prelude Str Ident Json DataTypes.

Definition ALLOWED_PREFIXES : list string := ["SELECT"; "INSERT"; "UPDATE"; "DELETE"; "WITH"; "VALUES"; "TABLE"].

Section Guard.
(** [char::is_alphanumeric] on the character a string begins with, asked of
    characters outside ASCII only. *)
Context (unicode_alphanumeric : string → bool).

(** [skip_block_comment]: the text from [bytes[i..]] on, at [depth] open comments. *)
Fixpoint skip_comment_body (depth : nat) (s : string) : option string :=
  match s with
  | "" => None
  | String a t =>
      match t with
      | "" => None
      | String b u =>
          if bool_decide (a = "/"%char) && bool_decide (b = "*"%char) then skip_comment_body (S depth) u
          else if bool_decide (a = "*"%char) && bool_decide (b = "/"%char) then
            match depth with
            | 0 | 1 => Some u
            | S depth => skip_comment_body depth u
            end
          else skip_comment_body depth t
      end
  end.
Definition skip_block_comment (s : string) : result string string :=
  ok_or (skip_comment_body 1 (str_drop 2 s)) "statement not allowed: unterminated block comment".

Definition is_newline (c : ascii) : bool := bool_decide (c = "010"%char) || bool_decide (c = "013"%char).
(** [after.find(['\n', '\r']).map_or("", |i| &after[i + 1..])] *)
Definition after_line (s : string) : string :=
  match (str_span (λ c, negb (is_newline c)) s).2 with "" => "" | String _ t => t end.
Definition trim_left (s : string) : string := trim_start (String.length s) s.

(** The loop of [strip_leading_noise]; each turn shortens the text. *)
Fixpoint strip_noise (fuel : nat) (rest : string) : option (result string string) :=
  match fuel with
  | 0 => None
  | S fuel =>
      match strip_prefix "--" rest with
      | Some after => strip_noise fuel (trim_left (after_line after))
      | None =>
          if starts_with "/*" rest then
            match skip_block_comment rest with
            | Ok s => strip_noise fuel (trim_left s)
            | Err e => Some (Err e)
            end
          else Some (Ok rest)
      end
  end.
Definition strip_leading_noise (sql : string) : option (result string string) :=
  strip_noise (S (String.length sql)) (trim_left sql).

(** [!rest.starts_with(|c: char| c.is_alphanumeric() || c == '_' || c == '$')] *)
Definition ends_word (rest : string) : bool :=
  match rest with
  | "" => true
  | String c _ =>
      negb (if is_ascii c
            then is_ascii_alphanumeric c || bool_decide (c = "_"%char) || bool_decide (c = "$"%char)
            else unicode_alphanumeric rest)
  end.
Definition allowed_prefix (upper : string) : bool :=
  existsb (λ kw, match strip_prefix kw upper with Some rest => ends_word rest | None => false end) ALLOWED_PREFIXES.

(** [s.chars().take(n)] *)
Fixpoint take_chars (n : nat) (s : string) : string :=
  match s with
  | "" => ""
  | String c t =>
      if is_continuation c then String c (take_chars n t)
      else match n with 0 => "" | S n => String c (take_chars n t) end
  end.
Definition shown_word (head : string) : string :=
  take_chars 16 (default "(empty)" (List.hd_error (split_whitespace head))).

Definition validate_sql (sql : string) : option (result string unit) :=
  r ← strip_leading_noise sql;
  Some (let? head := r in
    if starts_with "(" head then Ok tt
    else if allowed_prefix (to_ascii_uppercase head) then Ok tt
    else Err ("statement not allowed: " +:+ shown_word head +:+ "; apps may only send "
              +:+ join ", " ALLOWED_PREFIXES)).
End Guard.

(** ** The first token as PostgreSQL scans it

    White space is one of six characters, a line comment runs to a line break, a
    block comment nests; a word starts with a letter, an underscore or a byte
    outside ASCII, and goes on with these, digits and dollars. *)

Definition pg_space (c : ascii) : bool := byte_between 9 13 c || bool_decide (c = " "%char).
Definition pg_word_start (c : ascii) : bool :=
  is_ascii_lowercase c || is_ascii_uppercase c || bool_decide (c = "_"%char) || negb (is_ascii c).
Definition pg_word_byte (c : ascii) : bool :=
  pg_word_start c || is_ascii_digit c || bool_decide (c = "$"%char).

(** The text after a block comment opened [n] times; none when it never closes. *)
Fixpoint pg_close (n : nat) (s : string) : option string :=
  match n, s with
  | 0, _ => Some s
  | _, "" => None
  | S n', String a t =>
      match t with
      | String b u =>
          if decide (a = "/"%char ∧ b = "*"%char) then pg_close (S n) u
          else if decide (a = "*"%char ∧ b = "/"%char) then pg_close n' u
          else pg_close n t
      | "" => None
      end
  end.

(** [pg_noise s rest]: the scanner skips white space and comments up to [rest],
    where a token starts. *)
Inductive pg_noise : string → string → Prop :=
  | noise_none s : next_is pg_space s = false → starts_with "--" s = false → starts_with "/*" s = false → pg_noise s s
  | noise_space c s rest : pg_space c = true → pg_noise s rest → pg_noise (String c s) rest
  | noise_line body s rest :
      str_forall (λ c, negb (is_newline c)) body = true → (s = "" ∨ next_is is_newline s = true) →
      pg_noise s rest → pg_noise ("--" +:+ body +:+ s) rest
  | noise_block s t rest : pg_close 1 s = Some t → pg_noise t rest → pg_noise ("/*" +:+ s) rest.

Definition pg_word (s : string) : string :=
  match s with String c _ => if pg_word_start c then (str_span pg_word_byte s).1 else "" | "" => "" end.

(** ** White space and comments, as both read them *)

Definition non_ascii (c : ascii) : bool := negb (is_ascii c).

Lemma strip_white_space c s : pg_space c = true → strip_white (String c s) = Some s.
Proof. unfold strip_white, pg_space. by intros ->. Qed.
Lemma strip_white_inv s t :
  strip_white s = Some t →
  String.length t < String.length s ∧ ((∃ c, s = String c t ∧ pg_space c = true) ∨ next_is non_ascii s = true).
Proof.
  destruct s as [|c s]; [done|]. unfold strip_white. destruct (_ || _) eqn:Hw.
  { intros [= <-]. split; [simpl; lia|]. left. by exists c. }
  destruct s as [|d s]; [done|]. case_match eqn:H2.
  { intros [= <-]. split; [simpl; lia|]. right. bool_hyps. by subst. }
  destruct s as [|e s]; [done|]. case_match eqn:H3; [|done].
  intros [= <-]. split; [simpl; lia|]. right. simpl.
  repeat (apply orb_true_iff in H3 as [H3|H3]); bool_hyps; by subst.
Qed.
Lemma trim_start_len n s : String.length (trim_start n s) ≤ String.length s.
Proof.
  revert s. induction n as [|n IH]; intros s; simpl; [done|]. destruct (strip_white s) eqn:H; [|done].
  apply strip_white_inv in H as [H _]. pose proof (IH s0). lia.
Qed.
Lemma trim_start_fuel k n t :
  String.length t ≤ k → String.length t ≤ n → trim_start k t = trim_start n t.
Proof.
  revert n t. induction k as [|k IH]; intros n t Hk Hn.
  { destruct t; [|simpl in Hk; lia]. by destruct n. }
  destruct n as [|n]; simpl; destruct (strip_white t) eqn:E; try done;
    apply strip_white_inv in E as [E _]; [lia|]. apply IH; lia.
Qed.
Lemma trim_left_space c s : pg_space c = true → trim_left (String c s) = trim_left s.
Proof. intros H. unfold trim_left. cbn [String.length trim_start]. by rewrite strip_white_space. Qed.
Lemma trim_left_token s :
  next_is pg_space s = false → next_is non_ascii s = false → trim_left s = s.
Proof.
  intros H1 H2. unfold trim_left. destruct s as [|c s]; [done|]. cbn [String.length trim_start].
  destruct (strip_white _) eqn:E; [|done]. apply strip_white_inv in E as [_ [(c' & [= <- <-] & E)|E]];
    simpl in *; congruence.
Qed.
Lemma trim_left_len s : String.length (trim_left s) ≤ String.length s.
Proof. apply trim_start_len. Qed.

(** What [trim_start] drops is white space to the scanner, up to the first
    character outside ASCII. *)
Lemma trim_left_noise s rest :
  pg_noise (trim_left s) rest → ∃ rest', pg_noise s rest' ∧ (rest' = rest ∨ next_is non_ascii rest' = true).
Proof.
  unfold trim_left. generalize (String.length s) as n. intros n. revert s. induction n as [|n IH]; intros s H; simpl in H.
  { eauto. }
  destruct (strip_white s) as [t|] eqn:E; [|eauto].
  apply strip_white_inv in E as [_ [(c & -> & Hc)|E]].
  - destruct (IH _ H) as (r & Hr & ?). exists r. split; [by apply noise_space|done].
  - exists s. split; [|by right]. destruct s as [|c s]; [done|]. simpl in E. apply noise_none.
    + simpl. revert E. unfold non_ascii, is_ascii, pg_space, byte_between. intros E. bool_hyps.
      apply Nat.ltb_ge in E. apply orb_false_iff. split; [apply andb_false_iff; right; apply Nat.leb_gt; lia|].
      apply bool_decide_eq_false. intros ->. vm_compute in E. lia.
    + unfold starts_with. simpl. case_decide; [|done]. subst. done.
    + unfold starts_with. simpl. case_decide; [|done]. subst. done.
Qed.

Lemma skip_comment_step d a b u :
  skip_comment_body d (String a (String b u)) =
    if bool_decide (a = "/"%char) && bool_decide (b = "*"%char) then skip_comment_body (S d) u
    else if bool_decide (a = "*"%char) && bool_decide (b = "/"%char) then
      match d with 0 | 1 => Some u | S d => skip_comment_body d u end
    else skip_comment_body d (String b u).
Proof. done. Qed.
Lemma pg_close_step n a b u :
  pg_close (S n) (String a (String b u)) =
    if decide (a = "/"%char ∧ b = "*"%char) then pg_close (S (S n)) u
    else if decide (a = "*"%char ∧ b = "/"%char) then pg_close n u
    else pg_close (S n) (String b u).
Proof. done. Qed.
Lemma two_bytes_false (a b c d : ascii) : ¬ (a = c ∧ b = d) → bool_decide (a = c) && bool_decide (b = d) = false.
Proof. intros H. apply not_true_is_false. intros E. bool_hyps. tauto. Qed.

Lemma skip_comment_close d s : skip_comment_body (S d) s = pg_close (S d) s.
Proof.
  remember (String.length s) as n eqn:Hn. revert d s Hn. induction (lt_wf n) as [n _ IH]. intros d s ->.
  destruct s as [|a [|b u]]; [done..|]. rewrite skip_comment_step, pg_close_step.
  destruct (decide (a = "/"%char ∧ b = "*"%char)) as [[-> ->]|H1].
  { rewrite !bool_decide_true by done. eapply IH; [|done]. simpl. lia. }
  rewrite (two_bytes_false _ _ _ _ H1).
  destruct (decide (a = "*"%char ∧ b = "/"%char)) as [[-> ->]|H2].
  { rewrite !bool_decide_true by done. destruct d as [|d]; [by destruct u|]. eapply IH; [|done]. simpl. lia. }
  rewrite (two_bytes_false _ _ _ _ H2). eapply IH; [|done]. simpl. lia.
Qed.
Lemma pg_close_len n s t : pg_close n s = Some t → String.length t ≤ String.length s.
Proof.
  remember (String.length s) as k eqn:Hk. revert n s Hk. induction (lt_wf k) as [k _ IH]. intros n s ->.
  destruct n as [|n]; [by intros H; destruct s; simplify_eq/=|].
  destruct s as [|a [|b u]]; [done..|]. rewrite pg_close_step. intros H.
  assert (∀ m v, String.length v < String.length (String a (String b u)) → pg_close m v = Some t →
    String.length t ≤ String.length (String a (String b u))) as Hv.
  { intros m v Hv E. eapply IH in E; [|exact Hv|done]. lia. }
  repeat case_decide; (eapply Hv; [|exact H]); simpl; lia.
Qed.

Lemma line_split s :
  ∃ body t, s = body +:+ t ∧ str_forall (λ c, negb (is_newline c)) body = true
    ∧ (t = "" ∨ next_is is_newline t = true)
    ∧ after_line s = match t with "" => "" | String _ t => t end.
Proof.
  unfold after_line. destruct (str_span _ s) as [body t] eqn:E. apply str_span_spec in E as (-> & Hb & Ht).
  exists body, t. split_and!; try done. destruct t as [|c t]; [by left|]. right. simpl in *. by apply negb_false_iff.
Qed.
Lemma line_split_unique b1 t1 b2 t2 :
  b1 +:+ t1 = b2 +:+ t2 →
  str_forall (λ c, negb (is_newline c)) b1 = true → str_forall (λ c, negb (is_newline c)) b2 = true →
  (t1 = "" ∨ next_is is_newline t1 = true) → (t2 = "" ∨ next_is is_newline t2 = true) → b1 = b2 ∧ t1 = t2.
Proof.
  revert b2. induction b1 as [|c b1 IH]; intros [|d b2]; str_simpl; intros E H1 H2 Ht1 Ht2; simpl in *.
  - by split.
  - subst t1. destruct Ht1 as [?|Ht1]; [done|]. simpl in Ht1. rewrite Ht1 in H2. done.
  - subst t2. destruct Ht2 as [?|Ht2]; [done|]. simpl in Ht2. rewrite Ht2 in H1. done.
  - injection E as -> E. apply andb_true_iff in H1 as [_ H1], H2 as [_ H2].
    destruct (IH _ E H1 H2 Ht1 Ht2) as [-> ->]. by split.
Qed.
Lemma newline_space c : is_newline c = true → pg_space c = true.
Proof. unfold is_newline. intros [H|H]%orb_true_iff; apply bool_decide_eq_true in H as ->; done. Qed.

(** The scanner's reading of a text is determined. *)
Lemma pg_noise_det s r1 r2 : pg_noise s r1 → pg_noise s r2 → r1 = r2.
Proof.
  intros H. revert r2. induction H as [s Hs Hl Hb|c s r Hc _ IH|body s r Hb Ht _ IH|s t r Hc _ IH]; intros r2 H2.
  - inversion H2; subst; try done. by rewrite <-Hs in *; simpl in *; congruence.
  - inversion H2; subst; [simpl in *; congruence|by apply IH| |].
    + done.
    + done.
  - inversion H2 as [? ? Hl|? ? ? Hc|body' s' ? Hb' Ht' Hr E|? ? ? ? ? E]; subst; try done.
    change (body' +:+ s' = body +:+ s) in E. symmetry in E.
    destruct (line_split_unique _ _ _ _ E Hb Hb' Ht Ht') as [-> ->]. by apply IH.
  - inversion H2 as [? ? ? Hl|? ? ? Hc'|? ? ? ? ? ? E|? ? ? ? ? E]; subst; try done.
    change (s0 = s) in E. subst. rewrite Hc in *. simplify_eq. by apply IH.
Qed.

Lemma after_line_len s : String.length (after_line s) ≤ String.length s.
Proof.
  destruct (line_split s) as (body & t & -> & _ & _ & ->). rewrite str_length_app. destruct t; simpl; lia.
Qed.
Lemma strip_prefix_len pre s r : strip_prefix pre s = Some r → String.length s = String.length pre + String.length r.
Proof. intros ->%strip_prefix_Some. apply str_length_app. Qed.
Lemma block_comment_cases s :
  starts_with "/*" s = true →
  ∃ u, s = "/*" +:+ u ∧ skip_block_comment s = ok_or (pg_close 1 u) "statement not allowed: unterminated block comment".
Proof. intros [u ->]%starts_with_iff. exists u. split; [done|]. unfold skip_block_comment. by rewrite skip_comment_close. Qed.

Lemma strip_noise_total fuel s : String.length s < fuel → strip_noise fuel s ≠ None.
Proof.
  revert s. induction fuel as [|fuel IH]; intros s Hs; [lia|]. cbn [strip_noise].
  destruct (strip_prefix "--" s) as [after|] eqn:E.
  - apply strip_prefix_len in E. simpl in E. apply IH. pose proof (trim_left_len (after_line after)).
    pose proof (after_line_len after). lia.
  - destruct (starts_with "/*" s) eqn:E2; [|done]. apply block_comment_cases in E2 as (u & -> & ->).
    destruct (pg_close 1 u) as [t|] eqn:E3; [|done]. cbn [ok_or]. apply IH. apply pg_close_len in E3.
    pose proof (trim_left_len t). rewrite str_length_app in Hs. simpl in Hs. lia.
Qed.

Lemma trim_left_done s : next_is pg_space (trim_left s) = false.
Proof.
  unfold trim_left. assert (∀ n s, String.length s ≤ n → next_is pg_space (trim_start n s) = false) as H; [|by apply H].
  clear. induction n as [|n IH]; intros s Hs; simpl; [by destruct s; [|simpl in Hs; lia]|].
  destruct (strip_white s) as [t|] eqn:E.
  - apply strip_white_inv in E as [E _]. apply IH. lia.
  - destruct s as [|c s]; [done|]. simpl. apply not_true_is_false. intros Hc. by rewrite strip_white_space in E.
Qed.

(** Where [strip_leading_noise] stops is where the scanner starts a token, unless
    the scanner met a character outside ASCII first. *)
Lemma strip_noise_pg fuel s head :
  strip_noise fuel (trim_left s) = Some (Ok head) →
  ∃ r, pg_noise s r ∧ (r = head ∨ next_is non_ascii r = true).
Proof.
  revert s. induction fuel as [|fuel IH]; intros s H; [done|]. cbn [strip_noise] in H.
  pose proof (trim_left_done s) as Hsp.
  assert (∃ r, pg_noise (trim_left s) r ∧ (r = head ∨ next_is non_ascii r = true)) as (r & Hr & Hh).
  2: { apply trim_left_noise in Hr as (r' & ? & ?). exists r'. naive_solver. }
  generalize dependent (trim_left s). clear s. intros s H Hsp.
  destruct (strip_prefix "--" s) as [after|] eqn:E.
  - apply strip_prefix_Some in E as ->. destruct (line_split after) as (body & t & -> & Hb & Ht & Ha).
    rewrite Ha in H. apply IH in H as (r & Hr & Hh). exists r. split; [|done].
    apply noise_line; [done|done|]. destruct t as [|c t]; [done|]. destruct Ht as [?|Ht]; [done|].
    apply noise_space; [by apply newline_space|done].
  - destruct (starts_with "/*" s) eqn:E2.
    + apply block_comment_cases in E2 as (u & -> & E3). rewrite E3 in H. destruct (pg_close 1 u) as [t|] eqn:E4; [|done].
      apply IH in H as (r & Hr & Hh). exists r. split; [by eapply noise_block|done].
    + injection H as ->. exists head. split; [|by left]. apply noise_none; try done. unfold starts_with. by rewrite E.
Qed.

Lemma pg_strip_noise s rest fuel :
  pg_noise s rest → next_is non_ascii rest = false → String.length s < fuel →
  strip_noise fuel (trim_left s) = Some (Ok rest).
Proof.
  intros H Hr. revert fuel. induction H as [s Hs Hl Hb|c s r Hc _ IH|body s r Hb Ht Hn IH|s t r Hc _ IH]; intros fuel Hf.
  - rewrite trim_left_token by done. destruct fuel as [|fuel]; [lia|]. cbn [strip_noise].
    unfold starts_with in Hl. destruct (strip_prefix "--" s); [done|]. by rewrite Hb.
  - rewrite trim_left_space by done. apply IH; [done|]. simpl in Hf. lia.
  - rewrite trim_left_token by done. destruct fuel as [|fuel]; [lia|]. cbn [strip_noise].
    replace (strip_prefix "--" ("--" +:+ body +:+ s)) with (Some (body +:+ s))
      by (symmetry; by apply strip_prefix_Some).
    rewrite !str_length_app in Hf. simpl in Hf.
    destruct (line_split (body +:+ s)) as (b' & t' & E & Hb' & Ht' & ->).
    destruct (line_split_unique _ _ _ _ E Hb Hb' Ht Ht') as [<- <-].
    rewrite <-(IH Hr fuel) by lia. destruct s as [|c s]; [done|]. destruct Ht as [?|Ht]; [done|].
    by rewrite trim_left_space by (by apply newline_space).
  - rewrite trim_left_token by done. destruct fuel as [|fuel]; [lia|]. cbn [strip_noise].
    replace (strip_prefix "--" ("/*" +:+ s)) with (@None string) by done.
    replace (starts_with "/*" ("/*" +:+ s)) with true by (symmetry; apply starts_with_iff; eauto).
    unfold skip_block_comment. change (str_drop 2 ("/*" +:+ s)) with s. rewrite skip_comment_close, Hc. cbn [ok_or].
    rewrite str_length_app in Hf. simpl in Hf. apply IH; [done|]. apply pg_close_len in Hc. lia.
Qed.

(** ** The first word *)

Lemma upper_app a b : to_ascii_uppercase (a +:+ b) = to_ascii_uppercase a +:+ to_ascii_uppercase b.
Proof. induction a as [|c a IH]; [done|]. rewrite !str_app_cons. cbn [to_ascii_uppercase]. by rewrite IH, str_app_cons. Qed.
Lemma upper_split s kw r : to_ascii_uppercase s = kw +:+ r → ∃ a b, s = a +:+ b ∧ to_ascii_uppercase a = kw ∧ to_ascii_uppercase b = r.
Proof.
  revert s. induction kw as [|c kw IH]; intros s H; [exists "", s; by split_and!|].
  destruct s as [|d s]; [done|]. injection H as <- H. apply IH in H as (a & b & -> & <- & <-).
  exists (String d a), b. by split_and!.
Qed.
Lemma upper_byte_word c : pg_word_byte (to_ascii_uppercase_byte c) = pg_word_byte c.
Proof. by destruct c as [[] [] [] [] [] [] [] []]. Qed.
Lemma upper_byte_start c : pg_word_start (to_ascii_uppercase_byte c) = pg_word_start c.
Proof. by destruct c as [[] [] [] [] [] [] [] []]. Qed.
Lemma upper_byte_ascii c : is_ascii (to_ascii_uppercase_byte c) = is_ascii c.
Proof. by destruct c as [[] [] [] [] [] [] [] []]. Qed.
Lemma ascii_word_byte c :
  is_ascii c = true →
  is_ascii_alphanumeric c || bool_decide (c = "_"%char) || bool_decide (c = "$"%char) = pg_word_byte c.
Proof. by destruct c as [[] [] [] [] [] [] [] []]. Qed.
Lemma upper_forall f s : (∀ c, f (to_ascii_uppercase_byte c) = f c) → str_forall f (to_ascii_uppercase s) = str_forall f s.
Proof. intros Hf. induction s as [|c s IH]; [done|]. simpl. by rewrite Hf, IH. Qed.
Lemma upper_next f s : (∀ c, f (to_ascii_uppercase_byte c) = f c) → next_is f (to_ascii_uppercase s) = next_is f s.
Proof. intros Hf. destruct s as [|c s]; [done|]. simpl. by rewrite Hf. Qed.

Lemma keyword_bytes kw : kw ∈ ALLOWED_PREFIXES → next_is pg_word_start kw = true ∧ str_forall pg_word_byte kw = true ∧ next_is is_ascii kw = true.
Proof. intros H. repeat (apply elem_of_cons in H as [->|H]; [by split_and!|]). by apply not_elem_of_nil in H. Qed.

Section Decides.
Context (unicode_alphanumeric : string → bool).
Notation validate_sql := (validate_sql unicode_alphanumeric).
Notation allowed_prefix := (allowed_prefix unicode_alphanumeric).

Lemma ends_word_ascii b :
  next_is non_ascii b = false → ends_word unicode_alphanumeric (to_ascii_uppercase b) = negb (next_is pg_word_byte b).
Proof.
  destruct b as [|c b]; [done|]. cbn [to_ascii_uppercase ends_word next_is]. unfold non_ascii. intros Hc%negb_false_iff.
  rewrite upper_byte_ascii, Hc. rewrite ascii_word_byte by (by rewrite upper_byte_ascii). by rewrite upper_byte_word.
Qed.

Lemma pg_word_app a b : next_is pg_word_start a = true → str_forall pg_word_byte a = true →
  pg_word (a +:+ b) = a +:+ (str_span pg_word_byte b).1.
Proof.
  intros H1 H2. destruct a as [|c a]; [done|]. simpl in H1. unfold pg_word.
  replace (String c a +:+ b) with (String c (a +:+ b)) by (by rewrite str_app_cons). rewrite H1.
  change (String c (a +:+ b)) with (String c a +:+ b). revert H2. generalize (String c a). clear. intros a H.
  induction a as [|c a IH]; [done|]. simpl in *. apply andb_true_iff in H as [Hc H]. rewrite str_app_cons. simpl. rewrite Hc.
  specialize (IH H). destruct (str_span pg_word_byte (a +:+ b)) as [x y]. simpl in *. by rewrite IH.
Qed.

Lemma allowed_prefix_word head :
  allowed_prefix (to_ascii_uppercase head) = true →
  str_forall is_ascii (pg_word head) = false ∨ to_ascii_uppercase (pg_word head) ∈ ALLOWED_PREFIXES.
Proof.
  intros (kw & Hkw%list_elem_of_In & H)%existsb_exists.
  destruct (strip_prefix kw _) as [r|] eqn:E; [|done]. apply strip_prefix_Some in E.
  apply upper_split in E as (a & b & -> & <- & <-). destruct (keyword_bytes _ Hkw) as (H1 & H2 & _).
  rewrite upper_next in H1 by apply upper_byte_start. rewrite upper_forall in H2 by apply upper_byte_word.
  rewrite pg_word_app by done. destruct (next_is non_ascii b) eqn:Hb.
  - left. destruct b as [|c b]; [done|]. simpl in Hb. clear -Hb. induction a as [|d a IH].
    + rewrite str_app_nil_l. simpl. replace (pg_word_byte c) with true.
      * destruct (str_span _ b). simpl. unfold non_ascii in Hb. by apply negb_true_iff in Hb as ->.
      * unfold pg_word_byte, pg_word_start. fold (non_ascii c). rewrite Hb. by rewrite !orb_true_r.
    + rewrite str_app_cons. cbn [str_forall]. by rewrite IH, andb_false_r.
  - rewrite ends_word_ascii in H by done. apply negb_true_iff in H. right.
    replace (str_span pg_word_byte b).1 with ""; [by rewrite str_app_nil_r|].
    destruct b as [|c b]; [done|]. simpl in *. by rewrite H.
Qed.

Lemma word_allowed_prefix rest :
  to_ascii_uppercase (pg_word rest) ∈ ALLOWED_PREFIXES →
  next_is non_ascii rest = false ∧ allowed_prefix (to_ascii_uppercase rest) = true.
Proof.
  intros H. destruct (keyword_bytes _ H) as (H1 & _ & H3).
  rewrite upper_next in H1 by apply upper_byte_start. rewrite upper_next in H3 by apply upper_byte_ascii.
  unfold pg_word in *. destruct rest as [|c rest]; [done|]. destruct (pg_word_start c) eqn:Hc; [|done].
  destruct (str_span pg_word_byte (String c rest)) as [w b] eqn:E. apply str_span_spec in E as (E & Hw & Hb). cbn [fst] in *.
  destruct w as [|d w]; [done|]. assert (d = c) as -> by (by rewrite str_app_cons in E; injection E as <- _).
  split; [cbn [next_is] in H3 |- *; unfold non_ascii; by rewrite H3|]. rewrite E. apply existsb_exists.
  exists (to_ascii_uppercase (String c w)). split; [by apply list_elem_of_In|].
  rewrite upper_app. replace (strip_prefix _ _) with (Some (to_ascii_uppercase b)) by (symmetry; by apply strip_prefix_Some).
  assert (next_is non_ascii b = false) as Hn.
  { destruct b as [|e b]; [done|]. simpl in *. unfold pg_word_byte, pg_word_start in Hb. fold (non_ascii e) in Hb.
    by apply orb_false_iff in Hb as [[[_ ?]%orb_false_iff _]%orb_false_iff _]. }
  rewrite ends_word_ascii by done. by rewrite Hb.
Qed.

(** [C15] [validate_sql] answers on every text and classifies by the first token
    PostgreSQL reads: what it admits starts, after white space and nested comments
    as the server skips them, with a bracket or an allowed keyword (or with a word
    that is not ASCII, which no statement starts with), so never with SET, RESET or
    any other utility statement; and it admits every statement that starts with a
    bracket or an allowed keyword. *)
Theorem validate_sql_decides sql :
  (∃ r, validate_sql sql = Some r)
  ∧ (validate_sql sql = Some (Ok tt) →
       ∃ rest, pg_noise sql rest ∧ (∀ r, pg_noise sql r → r = rest)
         ∧ (starts_with "(" rest = true ∨ str_forall is_ascii (pg_word rest) = false
            ∨ to_ascii_uppercase (pg_word rest) ∈ ALLOWED_PREFIXES))
  ∧ ∀ rest, pg_noise sql rest →
      starts_with "(" rest = true ∨ to_ascii_uppercase (pg_word rest) ∈ ALLOWED_PREFIXES →
      validate_sql sql = Some (Ok tt).
Proof.
  unfold SqlGuard.validate_sql, strip_leading_noise. pose proof (trim_left_len sql) as Hl. split_and!.
  - destruct (strip_noise _ _) eqn:E; [by eexists|]. exfalso. revert E. apply strip_noise_total. lia.
  - destruct (strip_noise _ _) as [[head|e]|] eqn:E; [|done..]. apply strip_noise_pg in E as (r & Hr & Hh).
    intros [= H]. exists r. split_and!; [done|by intros; eapply pg_noise_det|]. destruct Hh as [->|Hh].
    + cbn [result_bind] in H. destruct (starts_with "(" head); [by left|]. right. apply allowed_prefix_word.
      by destruct (allowed_prefix _).
    + right; left. destruct r as [|c r]; [done|]. simpl in Hh. unfold pg_word.
      destruct (pg_word_start c) eqn:Hc; [|unfold pg_word_start in Hc; fold (non_ascii c) in Hc; by rewrite Hh, orb_true_r in Hc].
      cbn [str_span]. replace (pg_word_byte c) with true by (unfold pg_word_byte; by rewrite Hc).
      destruct (str_span _ r). cbn [fst str_forall].
      unfold non_ascii in Hh. by apply negb_true_iff in Hh as ->.
  - intros rest Hn Hok. assert (next_is non_ascii rest = false) as Ha.
    { destruct Hok as [[u ->]%starts_with_iff|Hok]; [done|]. by apply word_allowed_prefix in Hok as [? _]. }
    rewrite (pg_strip_noise _ rest) by (done || lia). cbn [mbind option_bind result_bind]. f_equal.
    destruct (starts_with "(" rest) eqn:E; [done|]. destruct Hok as [?|Hok]; [done|].
    apply word_allowed_prefix in Hok as [_ ->]. done.
Qed.
End Decides.

(** ** Parameters and rows *)

Inductive PgArg :=
  | ANullNumeric | ANullText | ABool (b : bool)
  | AInt2 (z : Z) | AInt4 (z : Z) | AInt8 (z : Z)
  | AFloat4 (f : string) | AFloat8 (f : string) | ANumeric (d : string)
  | AUuid (u : string) | ATimestamptz (t : string) | ATimestamp (t : string) | ADate (d : string)
  | AJson (v : JsonValue) | ATextArray (l : list string) | AUuidArray (l : list string) | AText (s : string).

(** [v as iN] on a wider integer: the value modulo [2 ^ n], between [- 2 ^ (n-1)]
    and [2 ^ (n-1)]. *)
Definition as_int (n : Z) (v : Z) : Z := ((v + 2 ^ (n - 1)) mod 2 ^ n - 2 ^ (n - 1))%Z.

Section Binding.
(** The parsers of the types ([BigDecimal], [Uuid], [chrono]), each with its error
    text, [f64 as f32], and [Value::to_string]. *)
Context (parse_decimal : string → option string) (parse_uuid parse_timestamptz parse_timestamp parse_date : string → result string string)
  (as_f32 : string → string) (json_to_string : JsonValue → string).

Definition parsed (what : string) (p : string → result string string) (label : string) (c : string → PgArg) (v : JsonValue) :
    result string PgArg :=
  let? s := ok_or (as_str v) ("expected string for " +:+ what) in
  result_map c (map_err (λ e, label +:+ e) (p s)).

Definition bind_typed_value (v : JsonValue) (type_name : string) : result string PgArg :=
  match v with
  | JNull => Ok (if decide (type_name = "NUMERIC") then ANullNumeric else ANullText)
  | _ =>
      let ty t := bool_decide (type_name = t) in
      if ty "BOOL" then
        match v with JBool b => Ok (ABool b) | _ => Err "expected bool" end
      else if ty "INT2" then result_map (λ z, AInt2 (as_int 16 z)) (ok_or (as_i64 v) "expected integer")
      else if ty "INT4" then result_map (λ z, AInt4 (as_int 32 z)) (ok_or (as_i64 v) "expected integer")
      else if ty "INT8" then result_map AInt8 (ok_or (as_i64 v) "expected integer")
      else if ty "FLOAT4" then result_map (λ f, AFloat4 (as_f32 f)) (ok_or (as_f64 v) "expected number")
      else if ty "FLOAT8" then result_map AFloat8 (ok_or (as_f64 v) "expected number")
      else if ty "NUMERIC" then
        let? literal := ok_or (as_str v) "expected string for exact decimal" in
        result_map ANumeric (ok_or (parse_decimal literal) ("invalid decimal: '" +:+ literal +:+ "'"))
      else if ty "UUID" then parsed "uuid" parse_uuid "invalid uuid: " AUuid v
      else if ty "TIMESTAMPTZ" then parsed "timestamptz" parse_timestamptz "invalid timestamptz: " ATimestamptz v
      else if ty "TIMESTAMP" then parsed "timestamp" parse_timestamp "invalid timestamp: " ATimestamp v
      else if ty "DATE" then parsed "date" parse_date "invalid date: " ADate v
      else if ty "JSONB" || ty "JSON" then Ok (AJson v)
      else if ty "TEXT[]" then
        match v with JArray a => Ok (ATextArray (map (λ x, default "" (as_str x)) a))
        | _ => Err "expected array for TEXT[]" end
      else if ty "UUID[]" then
        match v with
        | JArray a => result_map AUuidArray (map_err (λ e, "invalid uuid in array: " +:+ e)
                        (try_map (λ x, parse_uuid (default "" (as_str x))) a))
        | _ => Err "expected array for UUID[]" end
      else Ok (AText (default (json_to_string v) (as_str v)))
  end.

(** [types] is what [describe] inferred for [$1], [$2], ... *)
Definition build_typed_args (types : list string) (params : list JsonValue) : result string (list PgArg) :=
  try_map (λ '(i, v), map_err (λ e, "param $" +:+ pretty (S i) +:+ ": " +:+ e)
    (bind_typed_value v (default "TEXT" (types !! i)))) (imap pair params).
End Binding.

Definition MAX_ROWS : nat := 1000.
Record SqlOk := { sql_columns : list string; sql_rows : list (list JsonValue); row_count : nat }.
(** A row as its columns' names and values. *)
Definition serialize_rows (rows : list (list (string * JsonValue))) : result string SqlOk :=
  match rows with
  | [] => Ok {| sql_columns := []; sql_rows := []; row_count := 0 |}
  | row :: _ =>
      if bool_decide (MAX_ROWS < length rows) then
        Err ("query returned " +:+ pretty (length rows) +:+ " rows, exceeds limit " +:+ pretty MAX_ROWS
             +:+ "; add LIMIT or paginate")
      else Ok {| sql_columns := row.*1; sql_rows := map (λ r, r.*2) rows; row_count := length rows |}
  end.

Lemma as_int_range n v : (0 < n)%Z → (- 2 ^ (n - 1) ≤ as_int n v < 2 ^ (n - 1))%Z.
Proof.
  intros Hn. unfold as_int. assert (2 ^ n = 2 * 2 ^ (n - 1))%Z as E.
  { rewrite <-Z.pow_succ_r by lia. f_equal. lia. }
  pose proof (Z.mod_pos_bound (v + 2 ^ (n - 1)) (2 ^ n)) as H. assert (0 < 2 ^ (n - 1))%Z by (apply Z.pow_pos_nonneg; lia). lia.
Qed.
Lemma as_int_exact n v : (0 < n)%Z → as_int n v = v ↔ (- 2 ^ (n - 1) ≤ v < 2 ^ (n - 1))%Z.
Proof.
  intros Hn. split; [intros <-; by apply as_int_range|]. intros Hv. unfold as_int.
  assert (2 ^ n = 2 * 2 ^ (n - 1))%Z as E.
  { rewrite <-Z.pow_succ_r by lia. f_equal. lia. }
  rewrite Z.mod_small by lia. lia.
Qed.

Section IntegerParameters.
Context (parse_decimal : string → option string) (parse_uuid parse_timestamptz parse_timestamp parse_date : string → result string string)
  (as_f32 : string → string) (json_to_string : JsonValue → string).
Notation bind := (bind_typed_value parse_decimal parse_uuid parse_timestamptz parse_timestamp parse_date as_f32 json_to_string).

(** An integer bound to a smallint or an integer column is never refused and
    reaches PostgreSQL as sent exactly when it fits: any other is replaced, without
    an error, by its remainder modulo the width. *)
Theorem integer_parameters_wrap n v :
  num_i64 n = Some v →
  bind (JNumber n) "INT2" = Ok (AInt2 (as_int 16 v)) ∧ bind (JNumber n) "INT4" = Ok (AInt4 (as_int 32 v))
  ∧ bind (JNumber n) "INT8" = Ok (AInt8 v)
  ∧ (as_int 16 v = v ↔ (-32768 ≤ v < 32768)%Z) ∧ (as_int 32 v = v ↔ (-2147483648 ≤ v < 2147483648)%Z).
Proof.
  intros Hv. unfold bind_typed_value, as_i64. cbv zeta beta. rewrite Hv. split_and!; [done..| |].
  - by apply (as_int_exact 16).
  - by apply (as_int_exact 32).
Qed.
End IntegerParameters.

Lemma integer_parameters_wrap_witness :
  bind_typed_value (λ _, None) Ok Ok Ok Ok (λ f, f) (λ _, "") (JNumber {| num_text := "4294967303"; num_i64 := Some 4294967303%Z; num_f64 := None |}) "INT4"
    = Ok (AInt4 7).
Proof.
  apply (integer_parameters_wrap (λ _, None) Ok Ok Ok Ok (λ f, f) (λ _, "")
    {| num_text := "4294967303"; num_i64 := Some 4294967303%Z; num_f64 := None |} 4294967303). reflexivity.
Defined.
