(* ===== verification/TxSession.v ===== *)
(** * Multi-statement transactions (core/src/governance/enforcement/sql_proxy.rs, [TxSession])

    A transaction runs on its own task, which takes commands from a queue and races
    three things: cancellation, a deadline and the next command.  Cancelling and
    finalising meet on one atomic phase.  The task, its callers, the clock and
    PostgreSQL's answers are the steps of a relation; what a command does is a
    function of the state and of PostgreSQL's answer to it. *)

From stdpp Require Import base numbers gmap strings sets list.
From S2P Require Import Prelude Str Ident Json DataTypes SqlGuard.

(** ** The lifecycle *)

Inductive Phase := TX_ACTIVE | TX_FINALIZING | TX_CANCEL_REQUESTED | TX_FINISHED.
#[export] Instance Phase_eq_dec : EqDecision Phase.
Proof. solve_decision. Defined.

Definition TX_CANCELLED : string := "transaction invocation closed".
Definition TX_DEADLINE : string := "transaction deadline exceeded".
Definition TX_MAX_CONCURRENT : nat := 8.
Definition TX_QUEUE : nat := 8.

(** [cancelling]: [cancel] has won its exchange and not yet fired the token. *)
Record TxLifecycle := { phase : Phase; cancelling : bool; cancellation : bool; completion : bool }.
Definition new_lifecycle : TxLifecycle :=
  {| phase := TX_ACTIVE; cancelling := false; cancellation := false; completion := false |}.

(** [compare_exchange] *)
Definition exchange (from to : Phase) (l : TxLifecycle) : option TxLifecycle :=
  if decide (phase l = from)
  then Some {| phase := to; cancelling := cancelling l; cancellation := cancellation l; completion := completion l |}
  else None.
(** The two halves of [cancel]. *)
Definition cancel_exchange (l : TxLifecycle) : TxLifecycle :=
  match exchange TX_ACTIVE TX_CANCEL_REQUESTED l with
  | Some l => {| phase := phase l; cancelling := true; cancellation := cancellation l; completion := completion l |}
  | None => l
  end.
Definition cancel_fire (l : TxLifecycle) : TxLifecycle :=
  if cancelling l
  then {| phase := phase l; cancelling := false; cancellation := true; completion := completion l |} else l.
(** [cancel] on the task itself, of which nobody sees the middle. *)
Definition cancel (l : TxLifecycle) : TxLifecycle :=
  match exchange TX_ACTIVE TX_CANCEL_REQUESTED l with
  | Some l => {| phase := phase l; cancelling := cancelling l; cancellation := true; completion := completion l |}
  | None => l
  end.
Definition begin_finalization (l : TxLifecycle) : bool * TxLifecycle :=
  match exchange TX_ACTIVE TX_FINALIZING l with Some l => (true, l) | None => (false, l) end.
Definition mark_finished (l : TxLifecycle) : TxLifecycle :=
  {| phase := TX_FINISHED; cancelling := cancelling l; cancellation := cancellation l; completion := true |}.

(** ** The task *)

Inductive TxCmd := Exec (sql : string) (params : list JsonValue) | Poison (error : string) | Commit | Rollback.
Inductive Reply := RRows (r : result string SqlOk) | RUnit (r : result string unit).

(** PostgreSQL's side: open with the statements it has run, committed, left in
    doubt by a COMMIT that returned an error, or rolled back. *)
Inductive Pg := PgOpen (log : list string) | PgCommitted (log : list string) | PgInDoubt (log : list string) | PgRolledBack.

Record Tx := {
  lifecycle : TxLifecycle; pg : Pg; failed : option string; queue : list TxCmd; senders : bool;
  deadline : bool; running : option (string * list JsonValue); replies : list (TxCmd * Reply); alive : bool }.
Definition new_tx : Tx :=
  {| lifecycle := new_lifecycle; pg := PgOpen []; failed := None; queue := []; senders := true; deadline := false;
     running := None; replies := []; alive := true |}.

Definition with_lifecycle (f : TxLifecycle → TxLifecycle) (x : Tx) : Tx :=
  {| lifecycle := f (lifecycle x); pg := pg x; failed := failed x; queue := queue x; senders := senders x;
     deadline := deadline x; running := running x; replies := replies x; alive := alive x |}.
Definition with_queue (q : list TxCmd) (x : Tx) : Tx :=
  {| lifecycle := lifecycle x; pg := pg x; failed := failed x; queue := q; senders := senders x;
     deadline := deadline x; running := running x; replies := replies x; alive := alive x |}.
Definition with_failed (e : string) (x : Tx) : Tx :=
  {| lifecycle := lifecycle x; pg := pg x; failed := Some e; queue := queue x; senders := senders x;
     deadline := deadline x; running := running x; replies := replies x; alive := alive x |}.
Definition with_running (r : option (string * list JsonValue)) (x : Tx) : Tx :=
  {| lifecycle := lifecycle x; pg := pg x; failed := failed x; queue := queue x; senders := senders x;
     deadline := deadline x; running := r; replies := replies x; alive := alive x |}.
Definition with_pg (p : Pg) (x : Tx) : Tx :=
  {| lifecycle := lifecycle x; pg := p; failed := failed x; queue := queue x; senders := senders x;
     deadline := deadline x; running := running x; replies := replies x; alive := alive x |}.
Definition reply (c : TxCmd) (r : Reply) (x : Tx) : Tx :=
  {| lifecycle := lifecycle x; pg := pg x; failed := failed x; queue := queue x; senders := senders x;
     deadline := deadline x; running := running x; replies := replies x ++ [(c, r)]; alive := alive x |}.
Definition with_env (open dl : bool) (x : Tx) : Tx :=
  {| lifecycle := lifecycle x; pg := pg x; failed := failed x; queue := queue x; senders := open;
     deadline := dl; running := running x; replies := replies x; alive := alive x |}.

(** Leaving the loop: the queue is dropped, the permit released, completion
    signalled. *)
Definition exit_task (x : Tx) : Tx :=
  {| lifecycle := mark_finished (lifecycle x); pg := pg x; failed := failed x; queue := []; senders := senders x;
     deadline := deadline x; running := None; replies := replies x; alive := false |}.
(** [pg_tx.rollback().await]: closed whatever it answers (dropping it rolls back too). *)
Definition rollback (x : Tx) : Tx := with_pg PgRolledBack x.
Definition run_statement (sql : string) (x : Tx) : Tx :=
  match pg x with PgOpen log => with_pg (PgOpen (log ++ [sql])) x | _ => x end.

Section Actor.
Context (unicode_alphanumeric : string → bool)
  (parse_decimal : string → option string) (parse_uuid parse_timestamptz parse_timestamp parse_date : string → result string string)
  (as_f32 : string → string) (json_to_string : JsonValue → string).

(** What PostgreSQL answers to a statement: the types [describe] infers, then the
    rows. *)
Record Answers := { a_types : result string (list string); a_rows : result string (list (list (string * JsonValue))) }.

(** The [execution] block: its result, and whether the statement ran. *)
Definition execution (sql : string) (params : list JsonValue) (a : Answers) : result string SqlOk * bool :=
  match validate_sql unicode_alphanumeric sql with
  | Some (Ok _) =>
      match (let? types := map_err (λ e, "describe: " +:+ e) (a_types a) in
             build_typed_args parse_decimal parse_uuid parse_timestamptz parse_timestamp parse_date as_f32
               json_to_string types params) with
      | Ok _ => match a_rows a with Ok rows => (serialize_rows rows, true) | Err e => (Err e, false) end
      | Err e => (Err e, false)
      end
  | Some (Err e) => (Err e, false)
  | None => (Err EmptyString, false)
  end.

Definition exec_done (sql : string) (params : list JsonValue) (a : Answers) (x : Tx) : Tx :=
  let '(r, ran) := execution sql params a in
  let x := if ran then run_statement sql x else x in
  let x := match r with Err e => with_failed e x | Ok _ => x end in
  reply (Exec sql params) (RRows r) (with_running None x).

(** [pg_answer] is what the commit or rollback returns. *)
Definition on_command (c : TxCmd) (pg_answer : result string unit) (x : Tx) : Tx :=
  match c with
  | Exec sql params =>
      match failed x with
      | Some reason => reply c (RRows (Err ("transaction is aborted: " +:+ reason))) x
      | None => with_running (Some (sql, params)) x
      end
  | Poison error =>
      reply c (RUnit (Ok tt)) (match failed x with None => with_failed error x | Some _ => x end)
  | Commit =>
      let '(won, l) := begin_finalization (lifecycle x) in
      let x := with_lifecycle (λ _, l) x in
      exit_task
        (if negb won then reply c (RUnit (Err TX_CANCELLED)) (rollback x)
         else match failed x with
         | Some reason =>
             reply c (RUnit (Err match pg_answer with
               | Ok _ => "transaction rolled back after statement error: " +:+ reason
               | Err e => "transaction failed (" +:+ reason +:+ ") and rollback failed (" +:+ e +:+ ")"
               end)) (rollback x)
         | None =>
             match pg x, pg_answer with
             | PgOpen log, Ok _ => reply c (RUnit (Ok tt)) (with_pg (PgCommitted log) x)
             | PgOpen log, Err e => reply c (RUnit (Err e)) (with_pg (PgInDoubt log) x)
             | _, _ => x
             end
         end)
  | Rollback =>
      let '(_, l) := begin_finalization (lifecycle x) in
      exit_task (reply c (RUnit pg_answer) (rollback (with_lifecycle (λ _, l) x)))
  end.

(** The callers, the clock and the task.  The task takes a command even when
    cancellation was requested since it last looked. *)
Inductive tx_step : Tx → Tx → Prop :=
  | t_send c x : alive x = true → senders x = true → length (queue x) < TX_QUEUE → tx_step x (with_queue (queue x ++ [c]) x)
  | t_drop x : tx_step x (with_env false (deadline x) x)
  | t_time x : tx_step x (with_env (senders x) true x)
  | t_cancel_exchange x : tx_step x (with_lifecycle cancel_exchange x)
  | t_cancel_fire x : tx_step x (with_lifecycle cancel_fire x)
  | t_cancelled x : alive x = true → running x = None → cancellation (lifecycle x) = true → tx_step x (exit_task (rollback x))
  | t_deadline x : alive x = true → running x = None → deadline x = true →
      tx_step x (exit_task (rollback (with_lifecycle cancel x)))
  | t_command c q a x : alive x = true → running x = None → queue x = c :: q → tx_step x (on_command c a (with_queue q x))
  | t_closed x : alive x = true → running x = None → queue x = [] → senders x = false → tx_step x (exit_task (rollback x))
  | t_exec_done sql params a x : alive x = true → running x = Some (sql, params) → tx_step x (exec_done sql params a x)
  | t_exec_cancelled sql params x : alive x = true → running x = Some (sql, params) → cancellation (lifecycle x) = true →
      tx_step x (exit_task (rollback (reply (Exec sql params) (RRows (Err TX_CANCELLED)) (with_lifecycle cancel x))))
  | t_exec_deadline sql params x : alive x = true → running x = Some (sql, params) → deadline x = true →
      tx_step x (exit_task (rollback (reply (Exec sql params) (RRows (Err TX_DEADLINE)) (with_lifecycle cancel x)))).
End Actor.

(** ** What the transaction promises *)

(** The statements answered with rows, in order, and whether some statement was
    answered with an error. *)
Definition ok_statement (cr : TxCmd * Reply) : option string :=
  match cr with (Exec sql _, RRows (Ok _)) => Some sql | _ => None end.
Definition is_error (cr : TxCmd * Reply) : bool :=
  match cr with (Exec _ _, RRows (Err _)) => true | _ => false end.
Definition commit_ok (cr : TxCmd * Reply) : bool :=
  match cr with (Commit, RUnit (Ok _)) => true | _ => false end.
Definition admitted_statement (unicode_alphanumeric : string → bool) (sql : string) : Prop :=
  validate_sql unicode_alphanumeric sql = Some (Ok tt).

(** The statements are the ones answered with rows, all admitted, and no statement
    failed. *)
Definition clean (u : string → bool) (log : list string) (x : Tx) : Prop :=
  failed x = None ∧ log = omap ok_statement (replies x) ∧ existsb is_error (replies x) = false
  ∧ Forall (admitted_statement u) log.

Definition Inv (u : string → bool) (x : Tx) : Prop :=
  let l := lifecycle x in
  match pg x with
  | PgOpen log =>
      alive x = true ∧ completion l = false ∧ existsb commit_ok (replies x) = false
      ∧ (failed x = None → clean u log x)
      ∧ ((phase l = TX_ACTIVE ∧ cancelling l = false ∧ cancellation l = false) ∨ phase l = TX_CANCEL_REQUESTED)
  | p =>
      alive x = false ∧ completion l = true ∧ phase l = TX_FINISHED
      ∧ match p with
        | PgCommitted log => clean u log x ∧ existsb commit_ok (replies x) = true ∧ cancelling l = false ∧ cancellation l = false
        | PgInDoubt log => clean u log x ∧ existsb commit_ok (replies x) = false ∧ cancelling l = false ∧ cancellation l = false
        | _ => existsb commit_ok (replies x) = false
        end
  end.

Section Invariant.
Context (unicode_alphanumeric : string → bool)
  (parse_decimal : string → option string) (parse_uuid parse_timestamptz parse_timestamp parse_date : string → result string string)
  (as_f32 : string → string) (json_to_string : JsonValue → string).
Notation tx_step := (tx_step unicode_alphanumeric parse_decimal parse_uuid parse_timestamptz parse_timestamp parse_date as_f32 json_to_string).
Notation execution := (execution unicode_alphanumeric parse_decimal parse_uuid parse_timestamptz parse_timestamp parse_date as_f32 json_to_string).
Notation Inv := (Inv unicode_alphanumeric).

Lemma inv_new : Inv new_tx.
Proof. unfold TxSession.Inv, clean. simpl. naive_solver. Qed.

Lemma inv_alive x : Inv x → alive x = true → ∃ log, pg x = PgOpen log.
Proof. unfold TxSession.Inv. destruct (pg x); intros [? ?] ?; [eauto|congruence..]. Qed.

Lemma execution_ok sql params a r ran :
  execution sql params a = (r, ran) →
  (ran = true → admitted_statement unicode_alphanumeric sql) ∧ (∀ v, r = Ok v → ran = true).
Proof.
  unfold TxSession.execution, admitted_statement.
  destruct (validate_sql _ sql) as [[[]|e]|]; [|by intros [= <- <-]..].
  destruct (result_bind _ _); [|by intros [= <- <-]]. destruct (a_rows a); by intros [= <- <-].
Qed.

(** Rolling back and leaving keeps the invariant when nothing was committed. *)
Lemma inv_rolled_back x : existsb commit_ok (replies x) = false → Inv (exit_task (rollback x)).
Proof. intros H. unfold TxSession.Inv. simpl. by split_and!. Qed.

Lemma inv_not_committed x log : Inv x → pg x = PgOpen log → existsb commit_ok (replies x) = false.
Proof. unfold TxSession.Inv. intros H E. rewrite E in H. apply H. Qed.

Lemma replies_snoc_error l cr : existsb commit_ok l = false → commit_ok cr = false → existsb commit_ok (l ++ [cr]) = false.
Proof. intros H1 H2. rewrite existsb_app. simpl. by rewrite H1, H2. Qed.

Lemma clean_reply u log x c r :
  ok_statement (c, r) = None → is_error (c, r) = false → clean u log x → clean u log (reply c r x).
Proof.
  intros H1 H2 (? & ? & ? & ?). unfold clean. cbn [replies reply failed].
  rewrite omap_app, existsb_app. cbn [omap list_omap existsb]. rewrite H1, H2.
  split_and!; try done; [by rewrite app_nil_r|by apply orb_false_iff].
Qed.

Lemma inv_exec_done sql params a x :
  Inv x → alive x = true →
  Inv (exec_done unicode_alphanumeric parse_decimal parse_uuid parse_timestamptz parse_timestamp parse_date as_f32 json_to_string
        sql params a x).
Proof.
  intros HI Ha. destruct (inv_alive _ HI Ha) as [log E]. unfold exec_done. fold execution.
  destruct (execution sql params a) as [r ran] eqn:Hx. apply execution_ok in Hx as [Hadm Hran].
  unfold TxSession.Inv in *. rewrite E in HI. destruct HI as (_ & Hc & Hk & Hcl & Hp).
  assert (∀ y, pg y = PgOpen log → pg (if ran then run_statement sql y else y) = PgOpen (if ran then log ++ [sql] else log)) as Hpg.
  { intros y Hy. unfold run_statement. destruct ran; [by rewrite Hy|done]. }
  destruct r as [v|e]; simpl.
  - pose proof (Hran v eq_refl) as ->. unfold run_statement. rewrite E. simpl. split_and!; try done.
    + by apply replies_snoc_error.
    + intros Hf. destruct (Hcl Hf) as (_ & Hlog & Herr & Hadms). unfold clean. simpl.
      rewrite omap_app, existsb_app. simpl. rewrite Hlog. split_and!; try done; [by rewrite Herr|].
      apply Forall_app_2; [by rewrite <-Hlog|]. apply Forall_singleton. by apply Hadm.
  - rewrite (Hpg x E). destruct ran; unfold run_statement; rewrite ?E; simpl; split_and!; try done;
      by apply replies_snoc_error.
Qed.

(** Steps that touch only the queue, the clock or the callers. *)
Lemma inv_same x y :
  lifecycle y = lifecycle x → pg y = pg x → failed y = failed x → replies y = replies x → alive y = alive x →
  Inv x → Inv y.
Proof. unfold TxSession.Inv, clean. intros -> -> -> -> ->. done. Qed.

Lemma inv_lifecycle x l :
  completion l = completion (lifecycle x) →
  (phase l = phase (lifecycle x) ∧ cancelling l = false ∧ cancellation l = cancelling (lifecycle x) || cancellation (lifecycle x)
   ∨ phase l = TX_CANCEL_REQUESTED ∧ phase (lifecycle x) = TX_ACTIVE) →
  Inv x → Inv (with_lifecycle (λ _, l) x).
Proof.
  unfold TxSession.Inv, clean. cbn [pg lifecycle with_lifecycle alive failed replies]. intros Hc Hl.
  destruct (pg x) as [log|log|log|]; intros H; destruct_and!.
  - split_and!; [done|congruence|done|done|]. destruct Hl as [(E1 & E2 & E3)|[E1 E2]]; [|by right].
    match goal with H : _ ∨ _ |- _ => destruct H as [(F1 & F2 & F3)|F] end.
    + left. rewrite E1, E3, F2, F3. done.
    + right. congruence.
  - destruct Hl as [(E1 & E2 & E3)|[E1 E2]]; [|congruence]. split_and!; try congruence. by rewrite E3; apply orb_false_iff.
  - destruct Hl as [(E1 & E2 & E3)|[E1 E2]]; [|congruence]. split_and!; try congruence. by rewrite E3; apply orb_false_iff.
  - destruct Hl as [(E1 & E2 & E3)|[E1 E2]]; [|congruence]. split_and!; congruence.
Qed.

Lemma with_lifecycle_const f x : with_lifecycle f x = with_lifecycle (λ _, f (lifecycle x)) x.
Proof. done. Qed.

Lemma inv_cancel_exchange x : Inv x → Inv (with_lifecycle cancel_exchange x).
Proof.
  intros H. rewrite with_lifecycle_const. unfold cancel_exchange, exchange.
  case_decide as Hp; [|by eapply inv_same; [..|exact H]]. apply inv_lifecycle; [done|by right|done].
Qed.
Lemma inv_cancel_fire x : Inv x → Inv (with_lifecycle cancel_fire x).
Proof.
  intros H. rewrite with_lifecycle_const. unfold cancel_fire.
  destruct (cancelling (lifecycle x)) eqn:Hc; [|by eapply inv_same; [..|exact H]].
  apply inv_lifecycle; [done| |done]. left. cbn. by rewrite Hc.
Qed.

Lemma inv_on_command c a x : Inv x → alive x = true → Inv (on_command c a x).
Proof.
  intros HI Ha. destruct (inv_alive _ HI Ha) as [log E]. pose proof (inv_not_committed _ _ HI E) as Hk.
  pose proof HI as HI'. unfold TxSession.Inv in HI'. rewrite E in HI'. destruct HI' as (_ & Hc & _ & Hcl & Hp).
  destruct c as [sql params|e| |]; unfold on_command.
  - destruct (failed x) eqn:Hf.
    + unfold TxSession.Inv. cbn. rewrite E. split_and!; try done; [by apply replies_snoc_error|].
      intros Hf'. cbn in Hf'. congruence.
    + by eapply inv_same; [..|exact HI].
  - unfold TxSession.Inv. destruct (failed x) eqn:Hf; cbn; rewrite E; split_and!; try done;
      try (by apply replies_snoc_error); intros Hf'; cbn in Hf'; congruence.
  - unfold begin_finalization, exchange. case_decide as Hph; cbn [negb].
    2: { apply (inv_rolled_back (reply _ _ (with_lifecycle _ x))). by apply replies_snoc_error. }
    cbn [failed with_lifecycle]. destruct (failed x) eqn:Hf.
    { apply (inv_rolled_back (reply _ _ (with_lifecycle _ x))). by apply replies_snoc_error. }
    destruct Hp as [(_ & Hl1 & Hl2)|Hp]; [|congruence]. pose proof (Hcl eq_refl) as Hclean.
    cbn [pg with_lifecycle]. rewrite E.
    destruct a as [[]|e]; unfold TxSession.Inv; cbn [pg with_pg reply exit_task lifecycle mark_finished alive completion phase
      cancelling cancellation replies failed with_lifecycle]; split_and!; try done.
    + by apply (clean_reply _ _ (with_pg (PgCommitted log) x)).
    + rewrite existsb_app. cbn. by rewrite orb_true_r.
    + by apply (clean_reply _ _ (with_pg (PgCommitted log) x)).
    + by apply replies_snoc_error.
  - destruct (begin_finalization _) as [b l].
    apply (inv_rolled_back (reply _ _ (with_lifecycle _ x))). by apply replies_snoc_error.
Qed.

Lemma inv_step x y : tx_step x y → Inv x → Inv y.
Proof.
  intros Hs HI. assert (∀ z, alive z = true → pg z = pg x → replies z = replies x → alive x = true →
    existsb commit_ok (replies z) = false) as Hk.
  { intros z _ _ Hr Ha. rewrite Hr. destruct (inv_alive _ HI Ha) as [log E]. by eapply inv_not_committed. }
  destruct Hs.
  - by eapply inv_same; [..|exact HI].
  - by eapply inv_same; [..|exact HI].
  - by eapply inv_same; [..|exact HI].
  - by apply inv_cancel_exchange.
  - by apply inv_cancel_fire.
  - apply inv_rolled_back. by apply (Hk x).
  - apply inv_rolled_back. by apply (Hk x).
  - apply inv_on_command; [by eapply inv_same; [..|exact HI]|done].
  - apply inv_rolled_back. by apply (Hk x).
  - by apply inv_exec_done.
  - apply inv_rolled_back, replies_snoc_error; [by apply (Hk x)|done].
  - apply inv_rolled_back, replies_snoc_error; [by apply (Hk x)|done].
Qed.
Lemma inv_steps x y : rtc tx_step x y → Inv x → Inv y.
Proof. induction 1; eauto using inv_step. Qed.

(** [C16] What a transaction commits is what its caller was told: a transaction is
    committed exactly when a commit was answered with success; what it committed
    (or left in doubt) is the statements answered with rows, in order, each
    admitted by [validate_sql], with no statement answered with an error, no poison
    and no cancellation; and its task signals completion only once the transaction
    is closed. *)
Theorem tx_commits_what_it_answered x :
  rtc tx_step new_tx x →
  (existsb commit_ok (replies x) = true ↔ ∃ log, pg x = PgCommitted log)
  ∧ (∀ log, pg x = PgCommitted log ∨ pg x = PgInDoubt log →
       log = omap ok_statement (replies x) ∧ Forall (admitted_statement unicode_alphanumeric) log
       ∧ existsb is_error (replies x) = false ∧ failed x = None ∧ cancellation (lifecycle x) = false)
  ∧ (completion (lifecycle x) = true ↔ ∀ log, pg x ≠ PgOpen log).
Proof.
  intros Hs. pose proof (inv_steps _ _ Hs inv_new) as HI. unfold TxSession.Inv, clean in HI.
  destruct (pg x) as [log|log|log|]; destruct_and!; split_and!; try (split; [intros H'|intros [? [=]]]; congruence || eauto).
  all: try (intros log' [[= <-]|[= <-]]; by split_and!).
  1: { split; [congruence|]. intros H'. by destruct (H' log). }
  all: by split.
Qed.

(** A transaction whose cancellation was requested in time. *)
Definition lost (x : Tx) : Prop :=
  match pg x with PgOpen _ => phase (lifecycle x) = TX_CANCEL_REQUESTED | PgRolledBack => True | _ => False end.
Lemma lost_lifecycle f x : phase (f (lifecycle x)) = phase (lifecycle x) → lost x → lost (with_lifecycle f x).
Proof. unfold lost. cbn. intros ->. done. Qed.
Lemma lost_step x y : tx_step x y → lost x → lost y.
Proof.
  intros Hs Hx. destruct Hs as [| | | | | | |c q a x| |sql params a x| |]; try done.
  - unfold lost in *. cbn. destruct (pg x) as [log| | |]; try done. unfold cancel_exchange, exchange. by rewrite decide_False by congruence.
  - apply lost_lifecycle; [|done]. unfold cancel_fire. by destruct (cancelling _).
  - unfold lost in Hx. destruct c as [sql params|e| |]; unfold on_command; cbn.
    + by destruct (failed x).
    + unfold lost. by destruct (failed x).
    + unfold lost, begin_finalization, exchange. cbn. destruct (pg x) as [log| | |] eqn:E; try done.
      * by rewrite decide_False by congruence.
      * case_decide; cbn; [|done]. destruct (failed x); cbn; [done|]. by rewrite E.
    + by destruct (begin_finalization _).
  - unfold lost, exec_done in *. destruct (TxSession.execution _ _ _ _ _ _ _ _ _ _ _) as [r ran].
    destruct ran, r; cbn; unfold run_statement; destruct (pg x) eqn:E; cbn; rewrite ?E; done.
Qed.

(** Cancellation and COMMIT cannot both win: a transaction whose cancellation
    was requested before it began to finalise is never committed nor left in doubt,
    whatever comes after, and once the token has fired its task can leave at once
    with the transaction rolled back. *)
Theorem tx_cancel_wins x y :
  rtc tx_step new_tx x → phase (lifecycle x) = TX_CANCEL_REQUESTED → rtc tx_step x y →
  (∀ log, pg y ≠ PgCommitted log ∧ pg y ≠ PgInDoubt log)
  ∧ (cancellation (lifecycle y) = true → alive y = true → ∃ z, tx_step y z ∧ alive z = false ∧ pg z = PgRolledBack).
Proof.
  intros H0 Hp Hs. pose proof (inv_steps _ _ H0 inv_new) as HI.
  assert (lost y) as Hy.
  { assert (lost x) as Hx.
    { unfold TxSession.Inv in HI. unfold lost. destruct (pg x); destruct_and!; try done; congruence. }
    clear -Hx Hs. induction Hs; eauto using lost_step. }
  split.
  - intros log. unfold lost in Hy. split; intros E; by rewrite E in Hy.
  - intros Hc Ha. destruct (running y) as [[sql params]|] eqn:Hr; eexists; (split; [by econstructor|done]).
Qed.

(** ** The slots of all transactions

    A transaction begins when a permit is free, and its task gives it back on the
    way out. *)
Record Slots := { available : nat; txs : list Tx }.
Definition alive_count (l : list Tx) : nat := length (List.filter alive l).
Definition freed (x y : Tx) : nat := if alive x && negb (alive y) then 1 else 0.
(** [TX_SEMAPHORE.try_acquire()] *)
Definition begin_session (s : Slots) : result string Slots :=
  match available s with
  | 0 => Err "too many concurrent transactions; retry"
  | S n => Ok {| available := n; txs := txs s ++ [new_tx] |}
  end.
Inductive slot_step : Slots → Slots → Prop :=
  | slot_begin s s' : begin_session s = Ok s' → slot_step s s'
  | slot_tx i x y s : txs s !! i = Some x → tx_step x y →
      slot_step s {| available := available s + freed x y; txs := <[i:=y]> (txs s) |}.

Lemma alive_back x y : tx_step x y → alive y = true → alive x = true.
Proof. intros []; done. Qed.
Lemma alive_count_insert l i x y :
  l !! i = Some x → (alive y = true → alive x = true) →
  alive_count (<[i:=y]> l) + freed x y = alive_count l.
Proof.
  unfold alive_count, freed. revert i. induction l as [|z l IH]; intros [|i] Hi H; try done; cbn in *.
  - injection Hi as ->. destruct (alive x), (alive y); cbn; lia || naive_solver.
  - specialize (IH i Hi H). destruct (alive z); rewrite ?length_cons; [|exact IH]. rewrite Nat.add_succ_l. by f_equal.
Qed.

(** At most [TX_MAX_CONCURRENT] transactions are open at any time, and a permit
    is never lost: the free permits and the open transactions always add up. *)
Theorem tx_slots_bounded s :
  rtc slot_step {| available := TX_MAX_CONCURRENT; txs := [] |} s →
  available s + alive_count (txs s) = TX_MAX_CONCURRENT.
Proof.
  assert (∀ a b, rtc slot_step a b → available a + alive_count (txs a) = TX_MAX_CONCURRENT →
    available b + alive_count (txs b) = TX_MAX_CONCURRENT) as H; [|by intros Hs; apply (H _ _ Hs)].
  induction 1 as [|a b c Hs _ IH]; [done|]. intros Ha. apply IH. destruct Hs as [a b Hb|i x y a Hi Hxy].
  - unfold begin_session in Hb. destruct (available a) eqn:E; [done|]. injection Hb as <-. cbn in *.
    unfold alive_count in *. rewrite List.filter_app, length_app. cbn. lia.
  - cbn [available txs]. pose proof (alive_count_insert (txs a) i x y Hi (alive_back x y Hxy)). lia.
Qed.
End Invariant.

(** ** Examples *)

Module TxExamples.
Notation step := (tx_step (λ _, false) (λ _, None) Ok Ok Ok Ok (λ f, f) (λ _, EmptyString)).
Definition one_row : Answers := {| a_types := Ok []; a_rows := Ok [[("n", JBool true)]] |}.
Definition ex_running : Tx := with_running (Some ("INSERT INTO t", [])) new_tx.
Definition ex_ran : Tx :=
  exec_done (λ _, false) (λ _, None) Ok Ok Ok Ok (λ f, f) (λ _, EmptyString) "INSERT INTO t" [] one_row ex_running.

Lemma ex_ran_reached : rtc step new_tx (with_queue [] ex_ran).
Proof.
  eapply rtc_l; [apply (t_send _ _ _ _ _ _ _ _ (Exec "INSERT INTO t" [])); [done|done|vm_compute; lia]|].
  eapply rtc_l; [eapply (t_command _ _ _ _ _ _ _ _ (Exec "INSERT INTO t" []) [] (Ok tt)); done|].
  eapply rtc_l; [eapply (t_exec_done _ _ _ _ _ _ _ _ "INSERT INTO t" [] one_row); done|].
  vm_compute. apply rtc_refl.
Qed.

Lemma tx_commits_what_it_answered_witness :
  ∃ x, rtc step new_tx x ∧ pg x = PgCommitted ["INSERT INTO t"] ∧ existsb commit_ok (replies x) = true.
Proof.
  eexists (on_command Commit (Ok tt) (with_queue [] ex_ran)).
  assert (rtc step new_tx (on_command Commit (Ok tt) (with_queue [] ex_ran))) as H.
  { etrans; [apply ex_ran_reached|].
    eapply rtc_l; [apply (t_send _ _ _ _ _ _ _ _ Commit); [done|done|vm_compute; lia]|].
    eapply rtc_l; [eapply (t_command _ _ _ _ _ _ _ _ Commit [] (Ok tt)); done|]. vm_compute. apply rtc_refl. }
  split; [exact H|]. split; [vm_compute; reflexivity|].
  apply (proj1 (tx_commits_what_it_answered _ _ _ _ _ _ _ _ _ H)). eexists. vm_compute. reflexivity.
Defined.

Lemma tx_cancel_wins_witness :
  ∃ x y, phase (lifecycle x) = TX_CANCEL_REQUESTED ∧ rtc step x y ∧ replies y = [(Commit, RUnit (Err TX_CANCELLED))]
    ∧ pg y ≠ PgCommitted [].
Proof.
  pose (x := with_queue [Commit] (with_lifecycle cancel_exchange new_tx)).
  exists x, (on_command Commit (Ok tt) (with_queue [] x)).
  assert (rtc step new_tx x) as H0.
  { eapply rtc_l; [apply t_cancel_exchange|]. apply rtc_once.
    apply (t_send _ _ _ _ _ _ _ _ Commit (with_lifecycle cancel_exchange new_tx)); [done|done|vm_compute; lia]. }
  assert (rtc step x (on_command Commit (Ok tt) (with_queue [] x))) as Hs.
  { apply rtc_once. by apply (t_command _ _ _ _ _ _ _ _ Commit []). }
  split; [reflexivity|]. split; [exact Hs|]. split; [vm_compute; reflexivity|].
  apply (proj1 (tx_cancel_wins _ _ _ _ _ _ _ _ _ _ H0 eq_refl Hs) []).
Defined.

Lemma tx_slots_bounded_witness :
  available {| available := 7; txs := [new_tx] |} + alive_count [new_tx] = TX_MAX_CONCURRENT.
Proof.
  apply (tx_slots_bounded (λ _, false) (λ _, None) Ok Ok Ok Ok (λ f, f) (λ _, EmptyString) {| available := 7; txs := [new_tx] |}).
  apply rtc_once, slot_begin. reflexivity.
Defined.
End TxExamples.
