(* ===== verification/Ownership.v ===== *)
(** * Who owns a row (core/src/governance/row_access)

    The declarations of ownership in a manifest and their validation
    (ownership.rs, the data half of [validate_stored_manifest] in manifest.rs), and
    the chains reconciliation walks from a table to the entity that holds a user
    id, with the resolvers of their links (policies.rs). *)

From stdpp Require Import base numbers pretty gmap strings sets list.
From S2P Require Import Prelude Str Ident Json DataTypes.

(** The parts of a manifest access rules are made of. *)
Record AppManifest := { app_id : string; data_contract : list EntityContract }.

(** [.collect::<HashMap<_, _>>()]: the last entry of a key stays. *)
Definition collect_map {A} (l : list (string * A)) : gmap string A := foldl (λ m kv, <[kv.1 := kv.2]> m) ∅ l.

(** ** Declarations *)

Definition owner_column (e : EntityContract) : option FieldContract := List.find owner (entity_fields e).
Definition owner_field (e : EntityContract) : option string := fname <$> owner_column e.
Definition is_local (target : string) : bool := match parse_entity_ref target with RefLocal _ => true | _ => false end.
Definition owner_parent (e : EntityContract) : option string :=
  f ← owner_column e;
  r ← references f;
  if bool_decide (field_type f = "entity_link") && is_local (ref_entity r) then Some (ref_entity r) else None.

Definition OwnerMap := gmap string (string * option string).
Definition owner_map (entities : list EntityContract) : OwnerMap :=
  collect_map (omap (λ e, column ← owner_field e; Some (entity_name e, (column, owner_parent e))) entities).

Definition MAX_OWNER_CHAIN : nat := 4.

Definition owner_resolver_name (schema entity : string) : string := "rootcx_own." +:+ schema +:+ "." +:+ entity.
Definition fits_ident_limit (name : string) : bool := String.length name <=? 63.

Definition primary_name (e : EntityContract) : string :=
  default "id" (fname <$> List.find (λ f, bool_decide (is_primary_key f = Some true) || bool_decide (fname f = "id")) (entity_fields e)).

(** ** Validation *)

Definition validate_owner_field (e : EntityContract) : result string unit :=
  match List.filter owner (entity_fields e) with
  | [] => Ok tt
  | [o] =>
      let prefix := "entity '" +:+ entity_name e +:+ "': owner field '" +:+ fname o +:+ "' is " in
      try? ensure (bool_decide (field_type o ∈ ["entity_link"; "uuid"; "text"]))
        (prefix +:+ "'" +:+ field_type o +:+ "'; must be entity_link, uuid or text to hold a user id") in
      if decide (field_type o = "entity_link") then
        match references o with
        | None => Err (prefix +:+ "an entity_link with no 'references'; point it at 'core:users' to hold a user id, or at the entity that owns the row")
        | Some r =>
            match parse_entity_ref (ref_entity r) with
            | RefCore _ =>
                ensure (bool_decide (ref_entity r = "core:users") && bool_decide (ref_field r = "id"))
                  ("entity '" +:+ entity_name e +:+ "': direct ownership must reference core:users.id")
            | _ => Ok tt
            end
        end
      else Ok tt
  | owners =>
      Err ("entity '" +:+ entity_name e +:+ "' marks " +:+ pretty (length owners) +:+ " fields as owner ("
           +:+ join ", " (fname <$> owners) +:+ "); exactly one column may own a row")
  end.

(** [None] is a panic (indexing a missing entity) or the fuel running out; neither
    happens ([validate_owner_chains_total]). *)
Fixpoint walk_chain (fuel : nat) (app : string) (by_name : gmap string EntityContract) (start : string) (chain : list string)
    (parent : string) : option (result string unit) :=
  match fuel with
  | 0 => None
  | S fuel =>
      let shown l := join " -> " l in
      if bool_decide (parent ∈ chain) then
        Some (Err ("entity '" +:+ start +:+ "' delegates ownership in a loop (" +:+ shown (chain ++ [parent])
                   +:+ "); a chain must end on a column holding a user id"))
      else
        let chain := chain ++ [parent] in
        if bool_decide (MAX_OWNER_CHAIN < length chain) then
          Some (Err ("entity '" +:+ start +:+ "' delegates ownership through " +:+ pretty (length chain) +:+ " entities ("
                     +:+ shown chain +:+ "); at most " +:+ pretty MAX_OWNER_CHAIN +:+ " are allowed"))
        else
          let resolver := owner_resolver_name app parent in
          if negb (fits_ident_limit resolver) then
            Some (Err ("entity '" +:+ parent +:+ "' of app '" +:+ app +:+ "' needs an ownership resolver named '" +:+ resolver
                       +:+ "', which exceeds PostgreSQL's 63-byte identifier limit; shorten the app or entity name"))
          else
            target ← by_name !! parent;
            match owner_field target with
            | None => Some (Err ("entity '" +:+ start +:+ "' delegates ownership to '" +:+ parent
                        +:+ "', which declares no owner field; mark the column that owns a '" +:+ parent
                        +:+ "' row with " +:+ String DQUOTE ("owner" +:+ String DQUOTE ": true")))
            | Some _ =>
                match owner_parent target with
                | Some next => walk_chain fuel app by_name start chain next
                | None => Some (Ok tt)
                end
            end
  end.

Definition validate_owner_chain (app : string) (by_name : gmap string EntityContract) (e : EntityContract) :
    option (result string unit) :=
  match owner_parent e with
  | None => Some (Ok tt)
  | Some parent =>
      match by_name !! parent with
      | None => Some (Err ("entity '" +:+ entity_name e +:+ "' delegates ownership to unknown entity '" +:+ parent +:+ "'"))
      | Some target =>
          reference ← (f ← owner_column e; references f);
          if negb (bool_decide (ref_field reference = primary_name target)) then
            Some (Err ("entity '" +:+ entity_name e +:+ "': ownership must reference primary key '" +:+ parent +:+ "."
                       +:+ primary_name target +:+ "'"))
          else walk_chain (S (S MAX_OWNER_CHAIN)) app by_name (entity_name e) [entity_name e] parent
      end
  end.

Fixpoint all_ok {A} (f : A → option (result string unit)) (l : list A) : option (result string unit) :=
  match l with
  | [] => Some (Ok tt)
  | x :: l => r ← f x; match r with Ok _ => all_ok f l | Err e => Some (Err e) end
  end.
Definition by_name (m : AppManifest) : gmap string EntityContract :=
  collect_map ((λ e, (entity_name e, e)) <$> data_contract m).
Definition validate_owner_chains (m : AppManifest) : option (result string unit) :=
  all_ok (validate_owner_chain (app_id m) (by_name m)) (data_contract m).

(** The data half of [validate_stored_manifest]: names, duplicates, references. *)
Definition validate_field_names (e : EntityContract) : result RuntimeError unit :=
  foldl (λ r i,
    try? r in
    match entity_fields e !! i with
    | None => Ok tt
    | Some f =>
        try? validate_ident (fname f) "field name" in
        try? ensure (negb (bool_decide (fname f ∈ take i (fname <$> entity_fields e))))
          (Invalid ("entity '" +:+ entity_name e +:+ "': duplicate field '" +:+ fname f +:+ "'")) in
        ensure (negb (is_system_field (fname f) && sensitive f))
          (Invalid ("entity '" +:+ entity_name e +:+ "': system field '" +:+ fname f +:+ "' cannot be sensitive"))
    end) (Ok tt) (seq 0 (length (entity_fields e))).
Definition validate_reference (names : list string) (f : FieldContract) : result RuntimeError unit :=
  if negb (bool_decide (field_type f = "entity_link")) then Ok tt
  else match references f with
  | None => Ok tt
  | Some r =>
      match parse_entity_ref (ref_entity r) with
      | RefCore name =>
          ensure (bool_decide (is_Some (resolve_core_entity name)))
            (Invalid ("field '" +:+ fname f +:+ "' references 'core:" +:+ name +:+ "' — unknown core entity"))
      | RefApp app ent =>
          Err (Invalid ("field '" +:+ fname f +:+ "' references '" +:+ app +:+ ":" +:+ ent
                        +:+ "' — cross-app references not yet supported"))
      | RefLocal target =>
          ensure (bool_decide (target ∈ names))
            (Invalid ("field '" +:+ fname f +:+ "' references entity '" +:+ target +:+ "' which is not defined in this manifest"))
      end
  end.
Definition validate_entities (m : AppManifest) : result RuntimeError unit :=
  let names := entity_name <$> data_contract m in
  try? ensure (bool_decide (NoDup names)) (Invalid "dataContract contains duplicate entity names") in
  try_for_each (λ e,
    try? validate_ident (entity_name e) "entity name" in
    try? validate_field_names e in
    try_for_each (validate_reference names) (entity_fields e)) (data_contract m).

(** ** Chains and resolvers (policies.rs) *)

Fixpoint owner_chain_from (fuel : nat) (schema table : string) (owners : OwnerMap) (chain : list (string * string))
    (current : string) : option (result RuntimeError (list (string * string))) :=
  match fuel with
  | 0 => None
  | S fuel =>
      let at_ := "'" +:+ schema +:+ "." +:+ table +:+ "'" in
      match owners !! current with
      | None =>
          Some (match chain with
                | [] => Ok chain
                | _ => Err (Invalid ("governance: " +:+ at_ +:+ " delegates to '" +:+ current +:+ "' with no owner"))
                end)
      | Some (column, parent) =>
          if bool_decide (current ∈ chain.*1) then
            Some (Err (Invalid ("governance: ownership of " +:+ at_ +:+ " loops at '" +:+ current +:+ "'")))
          else
            let chain := chain ++ [(current, column)] in
            match parent with
            | None => Some (Ok chain)
            | Some parent =>
                if bool_decide (MAX_OWNER_CHAIN ≤ length chain) then
                  Some (Err (Invalid ("governance: ownership of " +:+ at_ +:+ " exceeds MAX_OWNER_CHAIN")))
                else owner_chain_from fuel schema table owners chain parent
            end
      end
  end.
(** The length of the chain bounds the loop. *)
Definition owner_chain (schema table : string) (owners : OwnerMap) : option (result RuntimeError (list (string * string))) :=
  owner_chain_from (S MAX_OWNER_CHAIN) schema table owners [] table.

Record LinkFacts := { lf_parent : string; lf_link : string; lf_resolver : string; lf_pk : string; lf_pk_type : string }.
Record OwnerFacts := { root_column : string; root_type : string; links : list LinkFacts }.

(** What the catalog answers on the tables of the schema: the type of a column and
    the single-column primary key. *)
Record Catalog := { column_type : string → string → option string; primary_key : string → option string; columns_of : string → list string }.

Definition link_facts (cat : Catalog) (schema : string) (child parent : string * string) : result RuntimeError LinkFacts :=
  match primary_key cat parent.1, column_type cat child.1 child.2 with
  | Some pk, Some _ =>
      let? pk_type := ok_or (column_type cat parent.1 pk)
        (Invalid ("governance: key '" +:+ schema +:+ "." +:+ parent.1 +:+ "." +:+ pk +:+ "' is missing")) in
      let resolver := owner_resolver_name schema parent.1 in
      try? ensure (fits_ident_limit resolver)
        (Invalid ("governance: resolver '" +:+ resolver +:+ "' exceeds PostgreSQL identifier limit")) in
      Ok {| lf_parent := parent.1; lf_link := child.2; lf_resolver := resolver; lf_pk := pk; lf_pk_type := pk_type |}
  | _, _ => Err (Invalid ("governance: link '" +:+ schema +:+ "." +:+ child.1 +:+ "." +:+ child.2 +:+ "' or primary key of '"
                          +:+ parent.1 +:+ "' is missing"))
  end.

(** The consecutive pairs of a chain, from the root down to the table. *)
Fixpoint chain_pairs (chain : list (string * string)) : list ((string * string) * (string * string)) :=
  match chain with
  | child :: (parent :: _) as rest => chain_pairs rest ++ [(child, parent)]
  | _ => []
  end.

Definition owner_facts (cat : Catalog) (schema table : string) (owners : OwnerMap) :
    option (result RuntimeError (option OwnerFacts)) :=
  r ← owner_chain schema table owners;
  Some (let? chain := r in
    match last chain with
    | None => Ok None
    | Some (root, column) =>
        let at_ := "governance: owner column '" +:+ schema +:+ "." +:+ root +:+ "." +:+ column +:+ "'" in
        let? ty := ok_or (column_type cat root column) (Invalid (at_ +:+ " is missing")) in
        try? ensure (bool_decide (ty ∈ ["uuid"; "text"])) (Invalid (at_ +:+ " must be uuid or text, found " +:+ ty)) in
        let? ls := try_map (λ '(child, parent), link_facts cat schema child parent) (chain_pairs chain) in
        Ok (Some {| root_column := column; root_type := ty; links := ls |})
    end).

(** [prune_owner_resolvers_tx]: the resolvers dropped, of the functions of
    [rootcx_system] whose name starts with [rootcx_own.]. *)
Definition prunes (schema : string) (keep : list string) (name : string) : bool :=
  match strip_prefix "rootcx_own." name with
  | Some rest =>
      match split_once "." rest with
      | Some (owner_schema, entity) => bool_decide (owner_schema = schema) && negb (bool_decide (entity ∈ keep))
      | None => false
      end
  | None => false
  end.
Definition prune_owner_resolvers (schema : string) (keep : list string) (functions : list string) : list string :=
  List.filter (λ n, negb (prunes schema keep n)) functions.

(** ** Chains as a relation *)

Section Chains.
Context (owners : OwnerMap).

(** From an entity, through the entities its ownership is deferred to, to the one
    that holds a user id. *)
Inductive Chain : string → list (string * string) → Prop :=
  | chain_root e column : owners !! e = Some (column, None) → Chain e [(e, column)]
  | chain_link e column p c : owners !! e = Some (column, Some p) → Chain p c → Chain e ((e, column) :: c).
Inductive Path : string → list (string * string) → string → Prop :=
  | path_nil e : Path e [] e
  | path_link e column p a x : owners !! e = Some (column, Some p) → Path p a x → Path e ((e, column) :: a) x.

Lemma chain_det e c1 c2 : Chain e c1 → Chain e c2 → c1 = c2.
Proof.
  intros H. revert c2. induction H as [e col Ho|e col p c Ho _ IH]; intros c2 H2; inversion H2; simplify_eq; try done.
  f_equal. auto.
Qed.
Lemma chain_nonempty e c : Chain e c → ∃ column, head c = Some (e, column) ∧ is_Some (owners !! e).
Proof. intros []; eauto. Qed.
Lemma path_chain e a x c : Path e a x → Chain x c → Chain e (a ++ c).
Proof. induction 1; simpl; eauto using chain_link. Qed.
Lemma path_chain_inv e a x c : Path e a x → Chain e c → ∃ c', c = a ++ c' ∧ Chain x c'.
Proof.
  intros H. revert c. induction H as [|e col p a x Ho _ IH]; intros c Hc; [eauto|].
  inversion Hc; simplify_eq. destruct (IH c0) as (c' & -> & ?); [done|]. eauto.
Qed.
Lemma path_snoc e a x column p : Path e a x → owners !! x = Some (column, Some p) → Path e (a ++ [(x, column)]) p.
Proof. induction 1; simpl; eauto using path_link, path_nil. Qed.
Lemma path_from e a x y : Path e a x → y ∈ a.*1 → ∃ a1 a2, a = a1 ++ a2 ∧ a2 ≠ [] ∧ Path y a2 x.
Proof.
  induction 1 as [|e col p a x Ho Hp IH]; [by intros ?%not_elem_of_nil|].
  intros [->|Hy]%elem_of_cons.
  - exists [], ((e, col) :: a). split_and!; try done. by eapply path_link.
  - destruct (IH Hy) as (a1 & a2 & -> & ? & ?). exists ((e, col) :: a1), a2. by split_and!.
Qed.
(** A loop has no chain. *)
Lemma path_loop e a c : Path e a e → a ≠ [] → ¬ Chain e c.
Proof.
  intros Hp Ha Hc. pose proof (chain_det _ _ _ (path_chain _ _ _ _ Hp Hc) Hc) as E.
  apply (f_equal length) in E. rewrite length_app in E. destruct a; [done|]. simpl in E. lia.
Qed.

Lemma owner_chain_from_spec schema table fuel acc cur :
  Path table acc cur → length acc < MAX_OWNER_CHAIN → MAX_OWNER_CHAIN < length acc + fuel →
  (∃ r, owner_chain_from fuel schema table owners acc cur = Some r)
  ∧ ∀ c, owner_chain_from fuel schema table owners acc cur = Some (Ok c) ↔
      (acc = [] ∧ owners !! cur = None ∧ c = []) ∨ (Chain table c ∧ length c ≤ MAX_OWNER_CHAIN).
Proof.
  revert acc cur. induction fuel as [|fuel IH]; intros acc cur Hp Hl Hf; [lia|]. cbn [owner_chain_from].
  destruct (owners !! cur) as [[column parent]|] eqn:Ho.
  2: { split; [eauto|]. intros c. assert (¬ ∃ c', Chain cur c') as Hno.
       { intros (c' & (col & _ & [? ?])%chain_nonempty). congruence. }
       split.
       - destruct acc; [|done]. intros [= <-]. by left.
       - intros [(-> & _ & ->)|[Hc _]]; [done|]. exfalso. apply Hno.
         destruct (path_chain_inv _ _ _ _ Hp Hc) as (c' & _ & ?). eauto. }
  case_bool_decide as Hin.
  { split; [eauto|]. intros c. split; [done|]. intros [(-> & Hn & _)|[Hc _]]; [done|]. exfalso.
    destruct (path_chain_inv _ _ _ _ Hp Hc) as (c' & _ & Hc').
    destruct (path_from _ _ _ _ Hp Hin) as (a1 & a2 & _ & Hne & Hloop). by eapply path_loop. }
  destruct parent as [parent|].
  - assert (Path table (acc ++ [(cur, column)]) parent) as Hp' by (by eapply path_snoc).
    case_bool_decide as Hmax.
    + split; [eauto|]. intros c. split; [done|]. intros [(-> & Hn & _)|[Hc Hlen]]; [done|]. exfalso.
      destruct (path_chain_inv _ _ _ _ Hp' Hc) as (c' & -> & Hc'). destruct (chain_nonempty _ _ Hc') as (col & Hh & _).
      rewrite length_app in Hlen. destruct c'; [done|]. simpl in Hlen. lia.
    + rewrite length_app in Hmax. simpl in Hmax.
      destruct (IH (acc ++ [(cur, column)]) parent Hp') as [Hs Hiff]; [rewrite length_app; simpl; lia..|].
      split; [done|]. intros c. rewrite Hiff. split; intros [(E & Hn & _)|?]; [by destruct acc|by right|done|by right].
  - split; [eauto|]. intros c. assert (Chain table (acc ++ [(cur, column)])) as Hc.
    { eapply path_chain; [done|]. by apply chain_root. }
    split.
    + intros [= <-]. right. split; [done|]. rewrite length_app. simpl. lia.
    + intros [(-> & Hn & _)|[Hc2 _]]; [done|]. by rewrite (chain_det _ _ _ Hc Hc2).
Qed.
End Chains.

Lemma owner_chain_spec schema table owners :
  (∃ r, owner_chain schema table owners = Some r)
  ∧ ∀ c, owner_chain schema table owners = Some (Ok c) ↔
      (owners !! table = None ∧ c = []) ∨ (Chain owners table c ∧ length c ≤ MAX_OWNER_CHAIN).
Proof.
  unfold owner_chain. destruct (owner_chain_from_spec owners schema table (S MAX_OWNER_CHAIN) [] table) as [H1 H2];
    [apply path_nil|vm_compute; lia|vm_compute; lia|]. split; [done|]. intros c. rewrite H2.
  split; (intros [?|?]; [left|by right]); [naive_solver|]. by split.
Qed.

(** Walking a table's ownership ends, within its bound, with the right answer:
    the chain returned is the one from the table to an entity that holds a user id,
    of at most [MAX_OWNER_CHAIN] entities, and exists exactly when the declarations
    give one (a table with no declaration has none); a loop, a dead end and a
    longer chain are refused. *)
Theorem owner_chain_decides schema table owners :
  (∃ r, owner_chain schema table owners = Some r)
  ∧ ∀ c, owner_chain schema table owners = Some (Ok c) ↔
      (owners !! table = None ∧ c = []) ∨ (Chain owners table c ∧ length c ≤ MAX_OWNER_CHAIN).
Proof. apply owner_chain_spec. Qed.

(** ** What an accepted manifest guarantees *)

Lemma collect_lookup_from {A} (l : list (string * A)) (m : gmap string A) k v :
  NoDup l.*1 →
  foldl (λ m kv, <[kv.1 := kv.2]> m) m l !! k = Some v ↔ (k, v) ∈ l ∨ (k ∉ l.*1 ∧ m !! k = Some v).
Proof.
  revert m. induction l as [|[k' v'] l IH]; intros m Hnd; simpl.
  - split; [intros; right; split; [apply not_elem_of_nil|done]|intros [?%not_elem_of_nil|[_ ?]]; done].
  - apply NoDup_cons in Hnd as [Hk Hnd]. rewrite IH by done. rewrite not_elem_of_cons, elem_of_cons.
    destruct (decide (k = k')) as [->|Hne].
    + rewrite lookup_insert_eq. split.
      * intros [?|[? [= ->]]]; [by left; right|by left; left].
      * intros [[[= <-]|?]|[[? _] _]]; [by right|by left|done].
    + rewrite lookup_insert_ne by done. split.
      * intros [?|[? ?]]; [by left; right|by right].
      * intros [[[= -> _]|?]|[[_ ?] ?]]; [done|by left|by right].
Qed.
Lemma collect_lookup {A} (l : list (string * A)) k v : NoDup l.*1 → collect_map l !! k = Some v ↔ (k, v) ∈ l.
Proof.
  intros H. unfold collect_map. rewrite collect_lookup_from by done. split; [intros [?|[_ ?]]; [done|by rewrite lookup_empty in *]|by left].
Qed.

Section Accepted.
Context (m : AppManifest) (Hm : validate_entities m = Ok tt).
Notation owners := (owner_map (data_contract m)).

Lemma accepted_names : NoDup (entity_name <$> data_contract m).
Proof. unfold validate_entities in Hm. inv_ok. by bool_hyps. Qed.

Lemma by_name_lookup n e : by_name m !! n = Some e ↔ e ∈ data_contract m ∧ entity_name e = n.
Proof.
  unfold by_name. rewrite collect_lookup.
  - rewrite list_elem_of_fmap. split; [intros (e' & [= -> ->] & ?); done|intros [? <-]; eauto].
  - rewrite <-list_fmap_compose. apply accepted_names.
Qed.

Lemma owner_entries_names l :
  NoDup (entity_name <$> l) →
  NoDup (omap (λ e, column ← owner_field e; Some (entity_name e, (column, owner_parent e))) l).*1.
Proof.
  intros H. eapply sublist_NoDup; [exact H|]. clear H. induction l as [|e l IH]; simpl; [constructor|].
  destruct (owner_field e); simpl; by constructor.
Qed.
Lemma owners_lookup n column parent :
  owners !! n = Some (column, parent) ↔
  ∃ e, e ∈ data_contract m ∧ entity_name e = n ∧ owner_field e = Some column ∧ owner_parent e = parent.
Proof.
  unfold owner_map. rewrite collect_lookup by (apply owner_entries_names, accepted_names).
  rewrite list_elem_of_omap. split.
  - intros (e & He & H). destruct (owner_field e) as [c|] eqn:Ho; [|done]. simpl in H. simplify_eq. eauto.
  - intros (e & He & <- & Ho & <-). exists e. split; [done|]. by rewrite Ho.
Qed.

Lemma owner_parent_field e p : owner_parent e = Some p → ∃ column, owner_field e = Some column.
Proof. unfold owner_parent, owner_field. destruct (owner_column e); simpl; [eauto|done]. Qed.

(** The target of a local link is an entity of the manifest. *)
Lemma parent_declared e p : e ∈ data_contract m → owner_parent e = Some p → ∃ t, by_name m !! p = Some t.
Proof.
  intros He Hp. unfold owner_parent in Hp. destruct (owner_column e) as [f|] eqn:Hf; [|done]. simpl in Hp.
  destruct (references f) as [r|] eqn:Hr; [|done]. simpl in Hp. destruct (_ && _) eqn:Hb; [|done]. injection Hp as <-.
  bool_hyps. pose proof Hm as Hm'. unfold validate_entities in Hm'. apply bind_ok_iff in Hm' as (? & _ & Hm').
  rewrite try_for_each_ok_iff, Forall_forall in Hm'. specialize (Hm' e He).
  apply bind_ok_iff in Hm' as (? & _ & Hm'). apply bind_ok_iff in Hm' as (? & _ & Hm'). apply List.find_some in Hf as [Hf _]. apply list_elem_of_In in Hf.
  rewrite try_for_each_ok_iff, Forall_forall in Hm'. pose proof (Hm' f Hf) as Hv.
  unfold validate_reference in Hv. rewrite Hr in Hv. rewrite bool_decide_true in Hv by done. simpl in Hv.
  unfold is_local in *. destruct (parse_entity_ref (ref_entity r)) as [t| |] eqn:Ht; try done.
  assert (t = ref_entity r) as ->.
  { unfold parse_entity_ref in Ht. destruct (split_once _ _) as [[? ?]|]; [by case_decide|congruence]. }
  apply ensure_ok_iff in Hv. bool_hyps. apply list_elem_of_fmap in Hv as (t & Ht' & Hin).
  exists t. by apply by_name_lookup.
Qed.

Lemma walk_chain_total fuel start chain parent :
  length chain ≤ MAX_OWNER_CHAIN → MAX_OWNER_CHAIN < length chain + fuel → is_Some (by_name m !! parent) →
  walk_chain fuel (app_id m) (by_name m) start chain parent ≠ None.
Proof.
  revert chain parent. induction fuel as [|fuel IH]; intros chain parent Hl Hf [t Ht]; [lia|]. cbn [walk_chain].
  case_bool_decide; [done|]. case_bool_decide as Hmax; [done|]. destruct (negb _); [done|]. rewrite Ht. simpl.
  destruct (owner_field t); [|done]. destruct (owner_parent t) as [next|] eqn:Hn; [|done].
  rewrite length_app in Hmax. simpl in Hmax. apply IH; [rewrite length_app; simpl; lia..|].
  apply by_name_lookup in Ht as [Hin _]. by eapply parent_declared.
Qed.

Lemma walk_chain_accepts fuel start chain parent :
  walk_chain fuel (app_id m) (by_name m) start chain parent = Some (Ok tt) →
  ∃ c, Chain owners parent c ∧ length chain + length c ≤ MAX_OWNER_CHAIN
    ∧ Forall (λ ec, fits_ident_limit (owner_resolver_name (app_id m) ec.1) = true) c.
Proof.
  revert chain parent. induction fuel as [|fuel IH]; intros chain parent H; [done|]. cbn [walk_chain] in H.
  case_bool_decide; [done|]. case_bool_decide as Hmax; [done|]. destruct (fits_ident_limit _) eqn:Hfit; [|done].
  simpl in H. destruct (by_name m !! parent) as [t|] eqn:Ht; [|done]. simpl in H. rewrite length_app in Hmax. simpl in Hmax.
  destruct (owner_field t) as [column|] eqn:Ho; [|done]. apply by_name_lookup in Ht as [Hin Hname].
  destruct (owner_parent t) as [next|] eqn:Hn.
  - apply IH in H as (c & Hc & Hlen & Hfits). rewrite length_app in Hlen. simpl in Hlen.
    exists ((parent, column) :: c). split_and!; [|simpl; lia|by constructor].
    eapply chain_link; [|done]. apply owners_lookup. eauto 6.
  - exists [(parent, column)]. split_and!; [|simpl; lia|by repeat constructor].
    apply chain_root, owners_lookup. eauto 6.
Qed.

Lemma accepted_chain e :
  e ∈ data_contract m → validate_owner_chain (app_id m) (by_name m) e = Some (Ok tt) →
  (owner_field e = None ∧ owners !! entity_name e = None)
  ∨ ∃ c, Chain owners (entity_name e) c ∧ length c ≤ MAX_OWNER_CHAIN
      ∧ Forall (λ ec, fits_ident_limit (owner_resolver_name (app_id m) ec.1) = true) (tail c).
Proof.
  intros He H. unfold validate_owner_chain in H. destruct (owner_field e) as [column|] eqn:Ho.
  2: { left. split; [done|]. apply eq_None_not_Some. intros [[col par] (e' & He' & Hn & Ho' & _)%owners_lookup].
       assert (Some e = Some e') as [= <-]; [|congruence].
       rewrite <-(proj2 (by_name_lookup (entity_name e) e)), <-(proj2 (by_name_lookup (entity_name e) e')); done. }
  right. destruct (owner_parent e) as [p|] eqn:Hp.
  - destruct (by_name m !! p) as [t|]; [|done]. destruct (f ← owner_column e; references f) as [r|]; [|done].
    cbn [mbind option_bind] in H. destruct (negb _); [done|]. apply walk_chain_accepts in H as (c & Hc & Hlen & Hf).
    exists ((entity_name e, column) :: c). split_and!; [|simpl in *; lia|done].
    eapply chain_link; [|done]. apply owners_lookup. eauto 6.
  - exists [(entity_name e, column)]. split_and!; [|simpl; vm_compute; lia|constructor].
    apply chain_root, owners_lookup. eauto 6.
Qed.
End Accepted.

Lemma all_ok_total {A} (f : A → option (result string unit)) l : (∀ x, x ∈ l → f x ≠ None) → all_ok f l ≠ None.
Proof.
  induction l as [|x l IH]; intros H; [done|]. simpl. destruct (f x) as [[]|] eqn:E; simpl; [|done|].
  - apply IH. intros y Hy. apply H. by right.
  - exfalso. apply (H x); [by left|done].
Qed.
Lemma all_ok_ok {A} (f : A → option (result string unit)) l : all_ok f l = Some (Ok tt) → ∀ x, x ∈ l → f x = Some (Ok tt).
Proof.
  induction l as [|x l IH]; intros H y; [by intros ?%not_elem_of_nil|]. simpl in H.
  destruct (f x) as [[[]|]|] eqn:E; simpl in H; try done. intros [->|Hy]%elem_of_cons; [done|auto].
Qed.

(** A manifest that is accepted can be reconciled: once names and references
    are valid, checking the ownership chains never panics and always answers, and
    when it accepts, reconciliation finds for every entity the chain to its owner
    (or that it has none), with a resolver name PostgreSQL stores whole for every
    entity the chain defers to. *)
Theorem accepted_ownership_reconciles m :
  validate_entities m = Ok tt →
  validate_owner_chains m ≠ None
  ∧ (validate_owner_chains m = Some (Ok tt) →
     ∀ e, e ∈ data_contract m → ∃ c,
       owner_chain (app_id m) (entity_name e) (owner_map (data_contract m)) = Some (Ok c)
       ∧ (c = [] ↔ owner_field e = None)
       ∧ Forall (λ ec, fits_ident_limit (owner_resolver_name (app_id m) ec.1) = true) (tail c)).
Proof.
  intros Hm. split.
  - apply all_ok_total. intros e He. unfold validate_owner_chain. destruct (owner_parent e) as [p|] eqn:Hp; [|done].
    destruct (parent_declared m Hm e p He Hp) as [t Ht]. rewrite Ht.
    unfold owner_parent in Hp. destruct (owner_column e) as [f|]; [|done]. cbn [mbind option_bind] in *.
    destruct (references f) as [r|]; [|done]. cbn [mbind option_bind] in *. destruct (negb _); [done|].
    apply walk_chain_total; [done|vm_compute; lia..|by rewrite Ht].
  - intros Hok e He. pose proof (all_ok_ok _ _ Hok e He) as H.
    destruct (owner_chain_spec (app_id m) (entity_name e) (owner_map (data_contract m))) as [_ Hiff].
    destruct (accepted_chain m Hm e He H) as [[Ho Hn]|(c & Hc & Hlen & Hf)].
    + exists []. split_and!; [by apply Hiff; left|done|constructor].
    + exists c. split_and!; [by apply Hiff; right| |done]. destruct (chain_nonempty _ _ _ Hc) as (col & Hh & [[col' par] Hs]).
      apply (owners_lookup m Hm) in Hs as (e' & He' & Hn & Ho' & _).
      assert (e' = e) as -> by (assert (Some e' = Some e) as [= ->]; [|done];
        rewrite <-(proj2 (by_name_lookup m Hm (entity_name e) e')), <-(proj2 (by_name_lookup m Hm (entity_name e) e)); done).
      split; intros E; [by subst|congruence].
Qed.

(** ** Resolver names *)

Lemma split_once_at c a b : str_mem c a = false → split_once c (a +:+ String c b) = Some (a, b).
Proof.
  induction a as [|d a IH]; intros H.
  - change (split_once c (String c b) = Some (EmptyString, b)). cbn [split_once]. by rewrite decide_True.
  - cbn in H. apply orb_false_iff in H as [Hd H]. apply bool_decide_eq_false in Hd. rewrite str_app_cons. simpl.
    rewrite decide_False by done. by rewrite IH.
Qed.
Lemma ident_bytes_no_dot s :
  str_forall (λ b, is_ascii_lowercase b || is_ascii_digit b || bool_decide (b = "_"%char)) s = true → str_mem "." s = false.
Proof.
  induction s as [|c s IH]; [done|]. simpl. intros [Hc H]%andb_true_iff. rewrite IH by done.
  rewrite orb_false_r. apply bool_decide_eq_false. intros ->. done.
Qed.
Lemma ident_no_dot value label : validate_ident value label = Ok tt → str_mem "." value = false.
Proof.
  unfold validate_ident. intros H. apply ident_bytes_no_dot.
  match type of H with (if ?a && ?b then _ else _) = _ => destruct a; [|done]; by destruct b end.
Qed.

(** A schema's resolvers are its own: no two pairs of a validated schema and an
    entity share a resolver name, and pruning a schema drops exactly its resolvers
    of entities no chain defers to any more, leaving those of every other schema. *)
Theorem prune_keeps_exactly schema keep functions s1 e1 s2 e2 :
  validate_ident s1 "appId" = Ok tt → validate_ident s2 "appId" = Ok tt →
  (owner_resolver_name s1 e1 = owner_resolver_name s2 e2 → s1 = s2 ∧ e1 = e2)
  ∧ (owner_resolver_name s1 e1 ∈ prune_owner_resolvers schema keep functions ↔
     owner_resolver_name s1 e1 ∈ functions ∧ (s1 = schema → e1 ∈ keep)).
Proof.
  intros H1%ident_no_dot H2%ident_no_dot. split.
  - unfold owner_resolver_name. intros E%str_app_inv_head.
    pose proof (split_once_at "." s1 e1 H1) as E1. pose proof (split_once_at "." s2 e2 H2) as E2.
    change (String "." e1) with ("." +:+ e1) in E1. change (String "." e2) with ("." +:+ e2) in E2.
    rewrite E in E1. rewrite E1 in E2. by injection E2.
  - unfold prune_owner_resolvers. rewrite !list_elem_of_In, filter_In.
    assert (prunes schema keep (owner_resolver_name s1 e1) = bool_decide (s1 = schema) && negb (bool_decide (e1 ∈ keep))) as ->.
    { unfold prunes, owner_resolver_name.
      replace (strip_prefix _ _) with (Some (s1 +:+ "." +:+ e1)) by (symmetry; by apply strip_prefix_Some).
      change ("." +:+ e1) with (String "." e1). by rewrite split_once_at. }
    split; intros [Hf Hk]; (split; [done|]).
    + intros ->. rewrite bool_decide_true in Hk by done.
      destruct (bool_decide (e1 ∈ keep)) eqn:Hb; [|done].
      apply list_elem_of_In. by apply bool_decide_eq_true in Hb.
    + apply negb_true_iff, andb_false_iff. destruct (decide (s1 = schema)) as [E|E]; [right|left; by apply bool_decide_eq_false].
      apply negb_false_iff, bool_decide_eq_true, list_elem_of_In. auto.
Qed.

(** ** Examples *)

Module OwnershipExamples.
Definition link_to (name target : string) : FieldContract :=
  {| fname := name; field_type := "entity_link"; precision := None; scale := None; required := false;
     default_value := None; enum_values := None; references := Some {| ref_entity := target; ref_field := "id" |};
     is_primary_key := None; sensitive := false; owner := true; rules := no_rules; on_delete := None; field_unknown := [] |}.
Definition entity_of (name : string) (f : FieldContract) : EntityContract :=
  {| entity_name := name; entity_fields := [f]; share := None; entity_indexes := []; entity_checks := []; derived_from := None;
     identity_kind := None; identity_key := None; entity_unknown := [] |}.
Definition tasks : AppManifest :=
  {| app_id := "hr"; data_contract := [entity_of "task" (link_to "project_id" "project");
                                       entity_of "project" (link_to "lead" "core:users")] |}.
Definition looping : OwnerMap := owner_map [entity_of "a" (link_to "b_id" "b"); entity_of "b" (link_to "a_id" "a")].

Lemma ex_chain : owner_chain "hr" "task" (owner_map (data_contract tasks)) = Some (Ok [("task", "project_id"); ("project", "lead")]).
Proof. by vm_compute. Qed.
Lemma ex_loop : owner_chain "hr" "a" looping = Some (Err (Invalid "governance: ownership of 'hr.a' loops at 'a'")).
Proof. by vm_compute. Qed.

Lemma accepted_ownership_reconciles_witness :
  ∃ c, owner_chain "hr" "task" (owner_map (data_contract tasks)) = Some (Ok c).
Proof.
  destruct (accepted_ownership_reconciles tasks ltac:(vm_compute; reflexivity)) as [_ H].
  destruct (H ltac:(vm_compute; reflexivity) (entity_of "task" (link_to "project_id" "project"))) as (c & Hc & _).
  - apply elem_of_cons. left. reflexivity.
  - exists c. exact Hc.
Defined.

Lemma prune_keeps_exactly_witness :
  owner_resolver_name "hr" "old" ∈ prune_owner_resolvers "hr" ["project"] ["rootcx_own.hr.old"; "rootcx_own.crm.old"] ↔
  owner_resolver_name "hr" "old" ∈ ["rootcx_own.hr.old"; "rootcx_own.crm.old"] ∧ ("hr" = "hr" → "old" ∈ ["project"]).
Proof.
  apply (prune_keeps_exactly "hr" ["project"] ["rootcx_own.hr.old"; "rootcx_own.crm.old"] "hr" "old" "crm" "old");
    vm_compute; reflexivity.
Defined.
End OwnershipExamples.
