(* ===== verification/RowPlan.v ===== *)
(** * Row access as statements (core/src/governance/row_access/plan.rs)

    [table_rls] computes, from catalog facts, the statements that bring one table's
    access rules to their declared state.  Statements and predicates are trees here,
    with the SQL they are written as ([stmt_sql], [pred_sql]); a catalog executes
    them as PostgreSQL does, and a row policy is evaluated on a row.  The theorems
    say what the executed plan leaves behind and who it lets through. *)

From Stdlib Require Import Btauto.
From stdpp Require Import base numbers pretty gmap strings sets list.
From S2P Require Import Prelude Str Ident Json DataTypes Ownership.

Definition OWN_SCOPE : string := "own".

(** ** Predicates *)

Inductive Pred :=
  | PAccess (key : string)              (* check_access *)
  | PCross (key : string)               (* check_cross_app_access *)
  | PPublication (key : string)         (* check_publication_access *)
  | PApproved (key : string)            (* check_approved_action_access *)
  | PMine (column ty : string)          (* the column holds the caller's id *)
  | PVia (link resolver : string)       (* the column is among the resolver's keys *)
  | PShared (sql : string)              (* a shared-read predicate of sharing.rs *)
  | PReleased                           (* the publication releases ownership *)
  | PNoPublication                      (* no publication is executing *)
  | PFalse
  | PAnd (a b : Pred)
  | POr (a b : Pred)
  | PParen (a : Pred).

Fixpoint pred_sql (p : Pred) : string :=
  let call f key := "(SELECT rootcx_system." +:+ f +:+ "(" +:+ quote_literal key +:+ "))" in
  match p with
  | PAccess key => call "check_access" key
  | PCross key => call "check_cross_app_access" key
  | PPublication key => call "check_publication_access" key
  | PApproved key => call "check_approved_action_access" key
  | PMine column ty =>
      quote_ident column +:+ " = (SELECT nullif(current_setting('rootcx.user_id', true), ''))::" +:+ ty
  | PVia link resolver =>
      quote_ident link +:+ " = ANY (ARRAY(SELECT rootcx_system." +:+ quote_ident resolver +:+ "()))"
  | PShared sql => sql
  | PReleased => "current_setting('rootcx.publication_release_ownership', true) = '1'"
  | PNoPublication => "coalesce(current_setting('rootcx.publication_id', true), '') = ''"
  | PFalse => "FALSE"
  | PAnd a b => pred_sql a +:+ " AND " +:+ pred_sql b
  | POr a b => pred_sql a +:+ " OR " +:+ pred_sql b
  | PParen a => "(" +:+ pred_sql a +:+ ")"
  end.

(** ** Statements *)

(** [ALL] is for policies of others. *)
Inductive Command := SELECT | INSERT | DELETE | UPDATE | ALL.
Inductive Clause := USING | WITH_CHECK.
#[export] Instance Command_eq_dec : EqDecision Command.
Proof. solve_decision. Defined.
#[export] Instance Clause_eq_dec : EqDecision Clause.
Proof. solve_decision. Defined.
Definition command_sql (c : Command) : string :=
  match c with SELECT => "SELECT" | INSERT => "INSERT" | DELETE => "DELETE" | UPDATE => "UPDATE" | ALL => "ALL" end.
Definition clause_sql (c : Clause) : string := match c with USING => "USING" | WITH_CHECK => "WITH CHECK" end.

Definition qt (schema table : string) : string := quote_ident schema +:+ "." +:+ quote_ident table.
Definition quoted_list (columns : list string) : string := join ", " (quote_ident <$> columns).

Inductive Stmt :=
  | GrantUsage (schema : string)
  | RevokeSelect (schema table : string)
  | RevokeSelectColumns (schema table : string) (columns : list string)
  | GrantSelect (schema table : string)
  | GrantSelectColumns (schema table : string) (columns : list string)
  | GrantWrites (schema table : string)
  | RevokeDefaults (schema : string)
  | EnableRls (schema table : string)
  | ForceRls (schema table : string)
  | CreateResolver (schema : string) (link : LinkFacts) (mine : Pred)
  | RevokeResolver (resolver : string)
  | GrantResolver (resolver : string)
  | DropPolicy (schema table name : string)
  | CreatePolicy (schema table name : string) (restrictive : bool) (command : Command) (body : list (Clause * Pred)).

Definition resolver_signature (resolver : string) : string := "rootcx_system." +:+ quote_ident resolver +:+ "()".

Definition stmt_sql (s : Stmt) : string :=
  match s with
  | GrantUsage schema => "GRANT USAGE ON SCHEMA " +:+ quote_ident schema +:+ " TO rootcx_app_executor"
  | RevokeSelect schema table => "REVOKE SELECT ON " +:+ qt schema table +:+ " FROM PUBLIC, rootcx_app_executor"
  | RevokeSelectColumns schema table columns =>
      "REVOKE SELECT (" +:+ quoted_list columns +:+ ") ON " +:+ qt schema table +:+ " FROM PUBLIC, rootcx_app_executor"
  | GrantSelect schema table => "GRANT SELECT ON " +:+ qt schema table +:+ " TO rootcx_app_executor"
  | GrantSelectColumns schema table columns =>
      "GRANT SELECT (" +:+ quoted_list columns +:+ ") ON " +:+ qt schema table +:+ " TO rootcx_app_executor"
  | GrantWrites schema table => "GRANT INSERT, UPDATE, DELETE ON " +:+ qt schema table +:+ " TO rootcx_app_executor"
  | RevokeDefaults schema =>
      "ALTER DEFAULT PRIVILEGES IN SCHEMA " +:+ quote_ident schema +:+ " REVOKE ALL ON TABLES FROM PUBLIC, rootcx_app_executor"
  | EnableRls schema table => "ALTER TABLE " +:+ qt schema table +:+ " ENABLE ROW LEVEL SECURITY"
  | ForceRls schema table => "ALTER TABLE " +:+ qt schema table +:+ " FORCE ROW LEVEL SECURITY"
  | CreateResolver schema link mine =>
      let own_app := quote_literal schema in
      "CREATE OR REPLACE FUNCTION " +:+ resolver_signature (lf_resolver link) +:+ " RETURNS SETOF " +:+ lf_pk_type link
      +:+ " LANGUAGE sql STABLE SECURITY DEFINER SET search_path = pg_catalog AS $rootcx$ SELECT " +:+ quote_ident (lf_pk link)
      +:+ " FROM " +:+ qt schema (lf_parent link)
      +:+ " WHERE (current_setting('rootcx.human_data_request', true) = '1' OR coalesce(nullif(current_setting('rootcx.app_id', true), ''), "
      +:+ own_app +:+ ") = " +:+ own_app
      +:+ ") AND (coalesce(current_setting('rootcx.approved_action_id', true), '') = '' OR rootcx_system.check_approved_action_access("
      +:+ quote_literal ("app:" +:+ schema +:+ ":" +:+ lf_parent link +:+ ".read") +:+ ")) AND " +:+ pred_sql mine +:+ " $rootcx$"
  | RevokeResolver resolver => "REVOKE ALL ON FUNCTION " +:+ resolver_signature resolver +:+ " FROM PUBLIC"
  | GrantResolver resolver => "GRANT EXECUTE ON FUNCTION " +:+ resolver_signature resolver +:+ " TO rootcx_app_executor"
  | DropPolicy schema table name => "DROP POLICY IF EXISTS " +:+ name +:+ " ON " +:+ qt schema table
  | CreatePolicy schema table name restrictive command body =>
      "CREATE POLICY " +:+ name +:+ " ON " +:+ qt schema table +:+ " " +:+ (if restrictive then "AS RESTRICTIVE" else EmptyString)
      +:+ " FOR " +:+ command_sql command +:+ " "
      +:+ join " " ((λ '(c, p), clause_sql c +:+ " (" +:+ pred_sql p +:+ ")") <$> body)
  end.

(** ** The plan *)

Definition RLS_POLICIES : list (string * Command * string * list Clause) :=
  [("rootcx_rls_select", SELECT, "read", [USING]);
   ("rootcx_rls_insert", INSERT, "create", [WITH_CHECK]);
   ("rootcx_rls_delete", DELETE, "delete", [USING]);
   ("rootcx_rls_update", UPDATE, "update", [USING; WITH_CHECK])].

Record TableFacts := { facts_columns : list string; facts_owner : option OwnerFacts }.

Section Plan.
Context (schema table : string).

Definition emit (name : string) (command : Command) (clauses : list Clause) (predicate : option Pred) (restrictive : bool) :
    list Stmt :=
  DropPolicy schema table name ::
  match predicate with
  | None => []
  | Some p => [CreatePolicy schema table name restrictive command ((λ c, (c, p)) <$> clauses)]
  end.
Definition policy (name : string) (command : Command) (clauses : list Clause) (predicate : option Pred) : list Stmt :=
  emit name command clauses predicate false.
Definition restrictive_policy (name : string) (command : Command) (clauses : list Clause) (predicate : Pred) : list Stmt :=
  emit name command clauses (Some predicate) true.

Definition collection_gate (key : string) (mine : option Pred) : Pred :=
  match mine with
  | Some mine =>
      PParen (POr (PAccess key)
        (PParen (PAnd (PParen (POr (PCross key) (PCross (key +:+ "." +:+ OWN_SCOPE)))) mine)))
  | None => PParen (POr (PAccess key) (PCross key))
  end.
Definition publication_gate (key : string) (mine : option Pred) : Pred :=
  match mine with
  | Some mine => PAnd (PPublication key) (PParen (POr PReleased (PParen mine)))
  | None => PPublication key
  end.

Definition privileges (columns sensitive : list string) : list Stmt :=
  let readable := List.filter (λ c, negb (bool_decide (c ∈ sensitive))) columns in
  [RevokeSelect schema table]
  ++ (if bool_decide (quoted_list columns = EmptyString) then [] else [RevokeSelectColumns schema table columns])
  ++ (if bool_decide (sensitive = []) then [GrantSelect schema table]
      else if bool_decide (quoted_list readable = EmptyString) then [] else [GrantSelectColumns schema table readable])
  ++ [GrantWrites schema table; RevokeDefaults schema].

Definition resolver (link : LinkFacts) (mine : Pred) : list Stmt :=
  [CreateResolver schema link mine; RevokeResolver (lf_resolver link); GrantResolver (lf_resolver link)].
Fixpoint ownership_links (ls : list LinkFacts) (mine : Pred) : list Stmt * Pred :=
  match ls with
  | [] => ([], mine)
  | link :: ls =>
      let '(out, mine') := ownership_links ls (PVia (lf_link link) (lf_resolver link)) in
      (resolver link mine ++ out, mine')
  end.
Definition ownership (owner : OwnerFacts) : list Stmt * Pred :=
  ownership_links (links owner) (PMine (root_column owner) (root_type owner)).

Definition action_policies (guard : string) (mine : option Pred) (p : string * Command * string * list Clause) : list Stmt :=
  let '(name, command, action, clauses) := p in
  let key := "app:" +:+ schema +:+ ":" +:+ guard +:+ "." +:+ action in
  let scoped := (λ m, PAnd (PAccess ("app:" +:+ schema +:+ ":" +:+ table +:+ "." +:+ action +:+ "." +:+ OWN_SCOPE)) m) <$> mine in
  let public := if decide (action = "read") then publication_gate key mine else PFalse in
  policy name command clauses (Some (collection_gate key mine))
  ++ policy (name +:+ "_own") command clauses scoped
  ++ restrictive_policy (name +:+ "_publication_ceiling") command clauses (POr PNoPublication (PParen public)).

Definition table_rls (guard : string) (facts : TableFacts) (shared : option string) (sensitive : list string)
    (approved_read : bool) : result RuntimeError (list Stmt) :=
  try? try_for_each (λ field,
    ensure (bool_decide (field ∈ facts_columns facts))
      (Invalid ("governance: sensitive column '" +:+ schema +:+ "." +:+ table +:+ "." +:+ field +:+ "' is missing"))) sensitive in
  let '(resolvers, mine) := match facts_owner facts with
    | Some owner => let '(out, m) := ownership owner in (out, Some m)
    | None => ([], None)
    end in
  let shared_pred := (λ p, PAnd (PAccess ("app:" +:+ schema +:+ ":" +:+ table +:+ ".read.shared")) (PShared p)) <$> shared in
  Ok ([GrantUsage schema] ++ privileges (facts_columns facts) sensitive
      ++ [EnableRls schema table; ForceRls schema table]
      ++ resolvers
      ++ policy "rootcx_rls_select_shared" SELECT [USING] shared_pred
      ++ mjoin (action_policies guard mine <$> RLS_POLICIES)
      ++ policy "rootcx_rls_select_publication" SELECT [USING]
           (Some (publication_gate ("app:" +:+ schema +:+ ":" +:+ guard +:+ ".read") mine))
      ++ [DropPolicy schema table "rootcx_rls_action_lock"]
      ++ (if approved_read
          then [CreatePolicy schema table "rootcx_rls_action_lock" false UPDATE
                  [(USING, PApproved ("app:" +:+ schema +:+ ":" +:+ table +:+ ".read")); (WITH_CHECK, PFalse)]]
          else [])).
End Plan.

(** ** The catalog that executes it *)

Definition EXECUTOR : string := "rootcx_app_executor".
Definition PUBLIC : string := "PUBLIC".

Record Policy := { po_restrictive : bool; po_command : Command; po_body : list (Clause * Pred) }.
Record TableState := {
  t_columns : list string; t_rls : bool; t_forced : bool; t_policies : gmap string Policy;
  (** who may select the whole table, or a column of it *)
  t_select : gset string; t_select_columns : gset (string * string) }.
Record FunctionDef := { fd_schema : string; fd_link : LinkFacts; fd_mine : Pred; fd_execute : gset string }.
Record Cat := { tables : gmap (string * string) TableState; functions : gmap string FunctionDef }.

Definition on_table (schema table : string) (f : TableState → option TableState) (cat : Cat) : option Cat :=
  t ← tables cat !! (schema, table);
  t ← f t;
  Some {| tables := <[(schema, table) := t]> (tables cat); functions := functions cat |}.
Definition set_policies (m : gmap string Policy) (t : TableState) : TableState :=
  {| t_columns := t_columns t; t_rls := t_rls t; t_forced := t_forced t; t_policies := m;
     t_select := t_select t; t_select_columns := t_select_columns t |}.
Definition set_rls (rls forced : bool) (t : TableState) : TableState :=
  {| t_columns := t_columns t; t_rls := rls; t_forced := forced; t_policies := t_policies t;
     t_select := t_select t; t_select_columns := t_select_columns t |}.
Definition set_select (sel : gset string) (cols : gset (string * string)) (t : TableState) : TableState :=
  {| t_columns := t_columns t; t_rls := t_rls t; t_forced := t_forced t; t_policies := t_policies t;
     t_select := sel; t_select_columns := cols |}.
Definition set_function (name : string) (f : FunctionDef) (cat : Cat) : Cat :=
  {| tables := tables cat; functions := <[name := f]> (functions cat) |}.
Definition columns_known (t : TableState) (columns : list string) : bool := forallb (λ c, bool_decide (c ∈ t_columns t)) columns.

(** A statement, or its error.  Revoking a table privilege revokes it on the columns
    too; replacing a function keeps its grants and cannot change its type; a new
    function is executable by everyone. *)
Definition exec (s : Stmt) (cat : Cat) : option Cat :=
  match s with
  | GrantUsage _ | RevokeDefaults _ => Some cat
  | RevokeSelect schema table =>
      on_table schema table (λ t, Some (set_select (t_select t ∖ {[PUBLIC; EXECUTOR]})
        (filter (λ rc, rc.1 ∉ [PUBLIC; EXECUTOR]) (t_select_columns t)) t)) cat
  | RevokeSelectColumns schema table columns =>
      on_table schema table (λ t, if columns_known t columns
        then Some (set_select (t_select t) (filter (λ rc, ¬ (rc.1 ∈ [PUBLIC; EXECUTOR] ∧ rc.2 ∈ columns)) (t_select_columns t)) t)
        else None) cat
  | GrantSelect schema table =>
      on_table schema table (λ t, Some (set_select ({[EXECUTOR]} ∪ t_select t) (t_select_columns t) t)) cat
  | GrantSelectColumns schema table columns =>
      on_table schema table (λ t, if columns_known t columns
        then Some (set_select (t_select t) (list_to_set ((λ c, (EXECUTOR, c)) <$> columns) ∪ t_select_columns t) t)
        else None) cat
  | GrantWrites schema table => on_table schema table Some cat
  | EnableRls schema table => on_table schema table (λ t, Some (set_rls true (t_forced t) t)) cat
  | ForceRls schema table => on_table schema table (λ t, Some (set_rls (t_rls t) true t)) cat
  | CreateResolver schema link mine =>
      match functions cat !! lf_resolver link with
      | Some f =>
          if decide (lf_pk_type (fd_link f) = lf_pk_type link)
          then Some (set_function (lf_resolver link) {| fd_schema := schema; fd_link := link; fd_mine := mine; fd_execute := fd_execute f |} cat)
          else None
      | None => Some (set_function (lf_resolver link) {| fd_schema := schema; fd_link := link; fd_mine := mine; fd_execute := {[PUBLIC]} |} cat)
      end
  | RevokeResolver r =>
      f ← functions cat !! r;
      Some (set_function r {| fd_schema := fd_schema f; fd_link := fd_link f; fd_mine := fd_mine f; fd_execute := fd_execute f ∖ {[PUBLIC]} |} cat)
  | GrantResolver r =>
      f ← functions cat !! r;
      Some (set_function r {| fd_schema := fd_schema f; fd_link := fd_link f; fd_mine := fd_mine f; fd_execute := {[EXECUTOR]} ∪ fd_execute f |} cat)
  | DropPolicy schema table name => on_table schema table (λ t, Some (set_policies (delete name (t_policies t)) t)) cat
  | CreatePolicy schema table name restrictive command body =>
      on_table schema table (λ t,
        match t_policies t !! name with
        | Some _ => None
        | None => Some (set_policies (<[name := {| po_restrictive := restrictive; po_command := command; po_body := body |}]> (t_policies t)) t)
        end) cat
  end.
Fixpoint execs (ss : list Stmt) (cat : Cat) : option Cat :=
  match ss with [] => Some cat | s :: ss => cat ← exec s cat; execs ss cat end.

(** A column the executor may read. *)
Definition readable (t : TableState) (c : string) : Prop :=
  (∃ r, r ∈ [PUBLIC; EXECUTOR] ∧ (r ∈ t_select t ∨ (r, c) ∈ t_select_columns t)) ∧ c ∈ t_columns t.

(** ** Who a policy set lets through *)

(** The atoms of predicates, for one row in one transaction.  No predicate negates,
    so an SQL condition that is unknown can be read as one that is false. *)
Record Atoms := {
  at_access : string → bool; at_cross : string → bool; at_publication : string → bool; at_approved : string → bool;
  at_mine : string → string → bool; at_via : string → string → bool; at_shared : string → bool;
  at_released : bool; at_no_publication : bool }.
Fixpoint eval (a : Atoms) (p : Pred) : bool :=
  match p with
  | PAccess key => at_access a key
  | PCross key => at_cross a key
  | PPublication key => at_publication a key
  | PApproved key => at_approved a key
  | PMine column ty => at_mine a column ty
  | PVia link resolver => at_via a link resolver
  | PShared sql => at_shared a sql
  | PReleased => at_released a
  | PNoPublication => at_no_publication a
  | PFalse => false
  | PAnd p q => eval a p && eval a q
  | POr p q => eval a p || eval a q
  | PParen p => eval a p
  end.

Definition applies (p : Policy) (cmd : Command) : bool := bool_decide (po_command p = cmd) || bool_decide (po_command p = ALL).
(** The expressions of a policy for one clause. *)
Definition clause_preds (p : Policy) (cl : Clause) : list Pred := (List.filter (λ cq, bool_decide (cq.1 = cl)) (po_body p)).*2.
Definition permits (a : Atoms) (cmd : Command) (cl : Clause) (p : Policy) : bool :=
  negb (po_restrictive p) && applies p cmd && existsb (eval a) (clause_preds p cl).
Definition restrains (a : Atoms) (cmd : Command) (cl : Clause) (p : Policy) : bool :=
  po_restrictive p && applies p cmd && negb (forallb (eval a) (clause_preds p cl)).
(** PostgreSQL's rule: some permissive policy lets the row through and no
    restrictive one holds it back. *)
Definition passes (a : Atoms) (pols : gmap string Policy) (cmd : Command) (cl : Clause) : bool :=
  existsb (λ np, permits a cmd cl np.2) (map_to_list pols) && negb (existsb (λ np, restrains a cmd cl np.2) (map_to_list pols)).

(** ** What the plan declares *)

Section Declared.
Context (schema table guard : string) (mine : option Pred).

Definition all_clauses (r : bool) (command : Command) (clauses : list Clause) (p : Pred) : Policy :=
  {| po_restrictive := r; po_command := command; po_body := (λ c, (c, p)) <$> clauses |}.
Definition shared_policy (shared : option string) : option Policy :=
  (λ p, all_clauses false SELECT [USING] (PAnd (PAccess ("app:" +:+ schema +:+ ":" +:+ table +:+ ".read.shared")) (PShared p))) <$> shared.
Definition declared_action (p : string * Command * string * list Clause) : list (string * option Policy) :=
  let '(name, command, action, clauses) := p in
  let key := "app:" +:+ schema +:+ ":" +:+ guard +:+ "." +:+ action in
  let public := if decide (action = "read") then publication_gate key mine else PFalse in
  [(name, Some (all_clauses false command clauses (collection_gate key mine)));
   (name +:+ "_own", (λ m, all_clauses false command clauses
      (PAnd (PAccess ("app:" +:+ schema +:+ ":" +:+ table +:+ "." +:+ action +:+ "." +:+ OWN_SCOPE)) m)) <$> mine);
   (name +:+ "_publication_ceiling", Some (all_clauses true command clauses (POr PNoPublication (PParen public))))].
(** Every policy the plan settles: the one it leaves, or none. *)
Definition declared (shared : option string) (approved_read : bool) : list (string * option Policy) :=
  ("rootcx_rls_select_shared", shared_policy shared)
  :: mjoin (declared_action <$> RLS_POLICIES)
  ++ [("rootcx_rls_select_publication",
        Some (all_clauses false SELECT [USING] (publication_gate ("app:" +:+ schema +:+ ":" +:+ guard +:+ ".read") mine)));
      ("rootcx_rls_action_lock",
        if approved_read
        then Some {| po_restrictive := false; po_command := UPDATE;
                     po_body := [(USING, PApproved ("app:" +:+ schema +:+ ":" +:+ table +:+ ".read")); (WITH_CHECK, PFalse)] |}
        else None)].

Definition settle (np : string * option Policy) : list Stmt :=
  DropPolicy schema table np.1 ::
  match np.2 with
  | Some p => [CreatePolicy schema table np.1 (po_restrictive p) (po_command p) (po_body p)]
  | None => []
  end.
Definition settled (m : gmap string Policy) (np : string * option Policy) : gmap string Policy :=
  match np.2 with Some p => <[np.1 := p]> m | None => delete np.1 m end.

Lemma emit_settle name command clauses p r :
  emit schema table name command clauses p r = settle (name, all_clauses r command clauses <$> p).
Proof. by destruct p. Qed.
Lemma action_settle p : action_policies schema table guard mine p = mjoin (settle <$> declared_action p).
Proof. destruct p as [[[name command] action] clauses]. unfold action_policies, policy, restrictive_policy. cbn. by destruct mine. Qed.

Definition set_table (t : TableState) (cat : Cat) : Cat :=
  {| tables := <[(schema, table) := t]> (tables cat); functions := functions cat |}.
Lemma set_table_twice t t' cat : set_table t (set_table t' cat) = set_table t cat.
Proof. unfold set_table. cbn. f_equal. apply insert_insert_eq. Qed.
Lemma set_table_same t cat : tables cat !! (schema, table) = Some t → set_table t cat = cat.
Proof. intros H. destruct cat as [ts fs]. unfold set_table. cbn in *. f_equal. by apply insert_id. Qed.
Lemma set_table_lookup t cat : tables (set_table t cat) !! (schema, table) = Some t.
Proof. apply lookup_insert_eq. Qed.

Lemma on_table_set f t cat :
  tables cat !! (schema, table) = Some t → on_table schema table f cat = (λ t, set_table t cat) <$> f t.
Proof. intros H. unfold on_table. rewrite H. cbn. by destruct (f t). Qed.

Lemma execs_app l1 l2 cat : execs (l1 ++ l2) cat = (execs l1 cat ≫= execs l2).
Proof. revert cat. induction l1 as [|s l1 IH]; intros cat; [done|]. cbn. destruct (exec s cat); cbn; [apply IH|done]. Qed.

Lemma execs_settle l t cat :
  tables cat !! (schema, table) = Some t →
  execs (mjoin (settle <$> l)) cat = Some (set_table (set_policies (foldl settled (t_policies t) l) t) cat).
Proof.
  revert t cat. induction l as [|[n po] l IH]; intros t cat Ht.
  { cbn. f_equal. symmetry. destruct t. by apply set_table_same. }
  cbn [fmap list_fmap mjoin list_join]. rewrite execs_app. unfold settle. cbn [fst snd].
  cbn [execs exec]. rewrite (on_table_set _ _ _ Ht). cbn [fmap option_fmap option_map mbind option_bind].
  destruct po as [p|]; cbn [execs exec mbind option_bind].
  - rewrite (on_table_set _ _ _ (set_table_lookup _ _)). cbn [t_policies set_policies]. rewrite lookup_delete_eq.
    cbn [fmap option_fmap option_map mbind option_bind]. rewrite set_table_twice.
    rewrite (IH _ _ (set_table_lookup _ _)), set_table_twice. cbn [t_policies set_policies foldl settled fst snd].
    rewrite insert_delete_eq. by destruct p.
  - rewrite (IH _ _ (set_table_lookup _ _)), set_table_twice. done.
Qed.

Lemma settled_lookup l m n :
  NoDup l.*1 →
  foldl settled m l !! n = match List.find (λ np, bool_decide (np.1 = n)) l with Some np => np.2 | None => m !! n end.
Proof.
  revert m. induction l as [|[k po] l IH]; intros m Hnd; [done|]. apply NoDup_cons in Hnd as [Hk Hnd]. cbn.
  rewrite IH by done. case_bool_decide as E; cbn in E.
  - subst. destruct (List.find _ l) as [np|] eqn:Hf.
    + apply find_some in Hf as [Hin%list_elem_of_In Hb]. bool_hyps. exfalso. apply Hk. cbn. rewrite <-Hb. by apply list_elem_of_fmap_2.
    + unfold settled. cbn. destruct po; [apply lookup_insert_eq|apply lookup_delete_eq].
  - destruct (List.find _ l); [done|]. unfold settled. cbn. destruct po; [by rewrite lookup_insert_ne|by rewrite lookup_delete_ne].
Qed.
Lemma declared_names shared approved : NoDup (declared shared approved).*1.
Proof. apply (bool_decide_unpack _). by vm_compute. Qed.
End Declared.

(** ** Executing the plan *)

(** Each resolver with the predicate it evaluates on its parent's rows. *)
Fixpoint link_preds (ls : list LinkFacts) (mine : Pred) : list (LinkFacts * Pred) :=
  match ls with [] => [] | l :: ls => (l, mine) :: link_preds ls (PVia (lf_link l) (lf_resolver l)) end.
Fixpoint mine_after (ls : list LinkFacts) (mine : Pred) : Pred :=
  match ls with [] => mine | l :: ls => mine_after ls (PVia (lf_link l) (lf_resolver l)) end.
Definition owner_pred (o : OwnerFacts) : Pred := mine_after (links o) (PMine (root_column o) (root_type o)).

Lemma ownership_links_split schema ls m :
  ownership_links schema ls m = (mjoin ((λ lp, resolver schema lp.1 lp.2) <$> link_preds ls m), mine_after ls m).
Proof. revert m. induction ls as [|l ls IH]; intros m; [done|]. cbn. by rewrite IH. Qed.

(** The function a resolver is, executable by the executor and not by everyone. *)
Definition resolver_is (schema : string) (lp : LinkFacts * Pred) (f : FunctionDef) : Prop :=
  fd_schema f = schema ∧ fd_link f = lp.1 ∧ fd_mine f = lp.2 ∧ EXECUTOR ∈ fd_execute f ∧ PUBLIC ∉ fd_execute f.
(** A function in the way keeps its type. *)
Definition compatible (cat : Cat) (l : LinkFacts) : Prop :=
  ∀ f, functions cat !! lf_resolver l = Some f → lf_pk_type (fd_link f) = lf_pk_type l.

Lemma exec_resolver schema l m cat :
  compatible cat l →
  ∃ f, execs (resolver schema l m) cat = Some (set_function (lf_resolver l) f cat) ∧ resolver_is schema (l, m) f.
Proof.
  intros Hc. unfold resolver. cbn [execs exec].
  assert (∃ f0, (match functions cat !! lf_resolver l with
    | Some f => if decide (lf_pk_type (fd_link f) = lf_pk_type l)
        then Some (set_function (lf_resolver l) {| fd_schema := schema; fd_link := l; fd_mine := m; fd_execute := fd_execute f |} cat)
        else None
    | None => Some (set_function (lf_resolver l) {| fd_schema := schema; fd_link := l; fd_mine := m; fd_execute := {[PUBLIC]} |} cat)
    end) = Some (set_function (lf_resolver l) f0 cat) ∧ fd_schema f0 = schema ∧ fd_link f0 = l ∧ fd_mine f0 = m)
    as (f0 & -> & E1 & E2 & E3).
  { destruct (functions cat !! lf_resolver l) as [f|] eqn:E; [|by eexists]. rewrite decide_True by (by apply Hc). by eexists. }
  cbn [mbind option_bind set_function functions]. rewrite lookup_insert_eq. cbn [mbind option_bind set_function functions].
  rewrite lookup_insert_eq. cbn [mbind option_bind]. eexists. split.
  - unfold set_function. cbn [tables functions]. by rewrite !insert_insert_eq.
  - unfold resolver_is. cbn. split_and!; try done; [set_solver|].
    intros [H|H]%elem_of_union; [by apply elem_of_singleton in H|set_solver].
Qed.

Lemma exec_resolvers schema lps cat :
  NoDup ((λ lp, lf_resolver lp.1) <$> lps) → Forall (λ lp, compatible cat lp.1) lps →
  ∃ cat', execs (mjoin ((λ lp, resolver schema lp.1 lp.2) <$> lps)) cat = Some cat'
    ∧ tables cat' = tables cat
    ∧ (∀ lp, lp ∈ lps → ∃ f, functions cat' !! lf_resolver lp.1 = Some f ∧ resolver_is schema lp f)
    ∧ ∀ n, n ∉ (λ lp, lf_resolver lp.1) <$> lps → functions cat' !! n = functions cat !! n.
Proof.
  revert cat. induction lps as [|[l m] lps IH]; intros cat Hnd Hc.
  { exists cat. split_and!; try done. by intros lp ?%not_elem_of_nil. }
  apply NoDup_cons in Hnd as [Hn Hnd]. apply Forall_cons in Hc as [Hl Hc]. cbn [fst] in *.
  destruct (exec_resolver schema l m cat Hl) as (f & E & Hf).
  destruct (IH (set_function (lf_resolver l) f cat) Hnd) as (cat' & E' & Ht & Hin & Hout).
  { apply Forall_forall. intros lp Hlp f'. cbn [set_function functions]. rewrite lookup_insert_ne.
    - by apply (proj1 (Forall_forall _ _) Hc).
    - intros Heq. apply Hn. rewrite Heq. by apply (list_elem_of_fmap_2 (λ lp, lf_resolver lp.1)). }
  exists cat'. split_and!.
  - cbn [fmap list_fmap mjoin list_join fst snd]. rewrite execs_app, E. done.
  - done.
  - intros lp [->|Hlp]%elem_of_cons; [|by apply Hin]. exists f. split; [|done]. cbn [fst].
    rewrite Hout by done. apply lookup_insert_eq.
  - intros n Hn'. cbn in Hn'. apply not_elem_of_cons in Hn' as [Hne Hn']. rewrite Hout by done.
    cbn [set_function functions]. by rewrite lookup_insert_ne.
Qed.

(** *** Privileges *)

Lemma quoted_list_empty columns : quoted_list columns = EmptyString ↔ columns = [].
Proof.
  split; [|by intros ->]. destruct columns as [|c cs]; [done|]. unfold quoted_list, quote_ident, quote_with. by destruct cs.
Qed.

(** The read privileges alone: what a step may change. *)
Definition same_but_select (t t' : TableState) : Prop :=
  t_columns t' = t_columns t ∧ t_policies t' = t_policies t ∧ t_rls t' = t_rls t ∧ t_forced t' = t_forced t.
Lemma columns_known_filter t cs : columns_known t (List.filter cs (t_columns t)) = true.
Proof.
  unfold columns_known. apply forallb_forall. intros c [Hc _]%filter_In. apply bool_decide_eq_true. by apply list_elem_of_In.
Qed.
Lemma columns_known_all t t' : t_columns t' = t_columns t → columns_known t' (t_columns t) = true.
Proof.
  intros E. unfold columns_known. rewrite E. apply forallb_forall. intros c Hc. apply bool_decide_eq_true.
  by apply list_elem_of_In.
Qed.

(** Revoking both shapes of grant leaves the executor nothing to read. *)
Definition unreadable (t : TableState) : Prop :=
  PUBLIC ∉ t_select t ∧ EXECUTOR ∉ t_select t ∧ ∀ rc, rc ∈ t_select_columns t → rc.1 ∉ [PUBLIC; EXECUTOR].
Lemma exec_revokes schema table t cat :
  tables cat !! (schema, table) = Some t →
  ∃ t', execs (RevokeSelect schema table :: (if bool_decide (quoted_list (t_columns t) = EmptyString) then []
      else [RevokeSelectColumns schema table (t_columns t)])) cat = Some (set_table schema table t' cat)
    ∧ same_but_select t t' ∧ unreadable t'.
Proof.
  intros Ht. cbn [execs exec]. rewrite (on_table_set _ _ _ _ _ Ht). cbn [fmap option_fmap option_map mbind option_bind].
  set (t1 := set_select _ _ t).
  assert (unreadable t1) as H1.
  { unfold unreadable, t1. cbn. split_and!; [set_solver..|]. intros rc [? _]%elem_of_filter. done. }
  destruct (bool_decide _); cbn [execs exec]; [by exists t1|].
  rewrite (on_table_set _ _ _ _ _ (set_table_lookup _ _ _ _)), (columns_known_all t t1) by done.
  cbn [fmap option_fmap option_map mbind option_bind]. rewrite set_table_twice. eexists. split_and!; [done..|].
  destruct H1 as (? & ? & Hc). split_and!; [done..|]. cbn. intros rc [_ Hrc]%elem_of_filter. by apply Hc.
Qed.

Lemma unreadable_readable t c : unreadable t → ¬ readable t c.
Proof.
  intros (H1 & H2 & H3) [(r & Hr & [Hs|Hs]) _]; [|by apply (H3 _ Hs)].
  apply elem_of_cons in Hr as [->|Hr]; [done|]. apply list_elem_of_singleton in Hr. by subst r.
Qed.
Lemma exec_grants schema table sensitive t cat :
  unreadable t →
  ∃ t', execs (if bool_decide (sensitive = []) then [GrantSelect schema table]
      else if bool_decide (quoted_list (List.filter (λ c, negb (bool_decide (c ∈ sensitive))) (t_columns t)) = EmptyString) then []
      else [GrantSelectColumns schema table (List.filter (λ c, negb (bool_decide (c ∈ sensitive))) (t_columns t))])
      (set_table schema table t cat) = Some (set_table schema table t' cat)
    ∧ same_but_select t t' ∧ ∀ c, readable t' c ↔ c ∈ t_columns t ∧ c ∉ sensitive.
Proof.
  intros Hu. set (cs := List.filter _ _).
  assert (∀ c, c ∈ cs ↔ c ∈ t_columns t ∧ c ∉ sensitive) as Hcs.
  { intros c. rewrite !list_elem_of_In. unfold cs. rewrite filter_In. rewrite negb_true_iff, bool_decide_eq_false, list_elem_of_In. done. }
  destruct (bool_decide_reflect (sensitive = [])) as [->|_]; [|destruct (bool_decide_reflect (quoted_list cs = EmptyString)) as [E|_]];
    cbn [execs exec].
  - rewrite (on_table_set _ _ _ _ _ (set_table_lookup _ _ _ _)). cbn [fmap option_fmap option_map mbind option_bind].
    rewrite set_table_twice. eexists. split_and!; [done..|]. intros c. unfold readable. cbn. split.
    + intros [_ ?]. split; [done|]. apply not_elem_of_nil.
    + intros [? _]. split; [|done]. exists EXECUTOR. split; [set_solver|]. left. set_solver.
  - apply quoted_list_empty in E. eexists. split_and!; [done..|]. intros c. rewrite <-Hcs, E. split.
    + by intros ?%unreadable_readable.
    + by intros ?%not_elem_of_nil.
  - rewrite (on_table_set _ _ _ _ _ (set_table_lookup _ _ _ _)), (columns_known_filter t _ : columns_known t cs = true).
    cbn [fmap option_fmap option_map mbind option_bind]. rewrite set_table_twice. eexists. split_and!; [done..|].
    intros c. rewrite <-Hcs. destruct Hu as (H1 & H2 & H3). split.
    + intros [(r & Hr & Hrc) _]. cbn in Hrc. rewrite elem_of_union, elem_of_list_to_set in Hrc.
      destruct Hrc as [Hs|[(c' & [= -> ->] & ?)%list_elem_of_fmap|Hs]]; [|done|by destruct (H3 _ Hs)].
      apply elem_of_cons in Hr as [->|Hr]; [done|]. apply list_elem_of_singleton in Hr. by subst r.
    + intros Hc. split; [|by apply Hcs]. exists EXECUTOR. split; [set_solver|]. right. cbn.
      rewrite elem_of_union, elem_of_list_to_set. left. by apply (list_elem_of_fmap_2 (λ c, (EXECUTOR, c))).
Qed.

Lemma exec_privileges schema table sensitive t cat :
  tables cat !! (schema, table) = Some t →
  ∃ t', execs (privileges schema table (t_columns t) sensitive) cat = Some (set_table schema table t' cat)
    ∧ same_but_select t t' ∧ ∀ c, readable t' c ↔ c ∈ t_columns t ∧ c ∉ sensitive.
Proof.
  intros Ht. unfold privileges. rewrite app_assoc, execs_app.
  destruct (exec_revokes _ _ _ _ Ht) as (t2 & E2 & (Hc & Hp & Hr & Hf) & Hu). cbn [app]. rewrite E2. cbn [mbind option_bind].
  rewrite execs_app. destruct (exec_grants schema table sensitive t2 cat Hu) as (t3 & E3 & (Hc3 & Hp3 & Hr3 & Hf3) & Hread).
  rewrite Hc in E3. rewrite E3.
  cbn [mbind option_bind execs exec]. rewrite (on_table_set _ _ _ _ _ (set_table_lookup _ _ _ _)).
  cbn [fmap option_fmap option_map mbind option_bind]. exists t3. rewrite set_table_twice. unfold same_but_select.
  rewrite Hc3, Hp3, Hr3, Hf3, Hc, Hp, Hr, Hf. split_and!; try done. intros c. by rewrite Hread, Hc.
Qed.

(** *** The whole plan *)

Definition owner_links (facts : TableFacts) : list (LinkFacts * Pred) :=
  match facts_owner facts with
  | Some o => link_preds (links o) (PMine (root_column o) (root_type o))
  | None => []
  end.
Definition facts_mine (facts : TableFacts) : option Pred := owner_pred <$> facts_owner facts.

Lemma declared_plan schema table guard mine shared (approved_read : bool) :
  policy schema table "rootcx_rls_select_shared" SELECT [USING]
    ((λ p, PAnd (PAccess ("app:" +:+ schema +:+ ":" +:+ table +:+ ".read.shared")) (PShared p)) <$> shared)
  ++ mjoin (action_policies schema table guard mine <$> RLS_POLICIES)
  ++ policy schema table "rootcx_rls_select_publication" SELECT [USING]
       (Some (publication_gate ("app:" +:+ schema +:+ ":" +:+ guard +:+ ".read") mine))
  ++ [DropPolicy schema table "rootcx_rls_action_lock"]
  ++ (if approved_read
      then [CreatePolicy schema table "rootcx_rls_action_lock" false UPDATE
              [(USING, PApproved ("app:" +:+ schema +:+ ":" +:+ table +:+ ".read")); (WITH_CHECK, PFalse)]]
      else [])
  = mjoin (settle schema table <$> declared schema table guard mine shared approved_read).
Proof.
  unfold policy. rewrite !emit_settle. rewrite (list_fmap_ext _ _ _ (λ _ p _, action_settle schema table guard mine p)).
  destruct mine, shared, approved_read; reflexivity.
Qed.

Lemma table_rls_ok schema table guard facts shared sensitive approved_read plan :
  table_rls schema table guard facts shared sensitive approved_read = Ok plan ↔
  Forall (λ c, c ∈ facts_columns facts) sensitive
  ∧ plan = GrantUsage schema :: privileges schema table (facts_columns facts) sensitive
      ++ [EnableRls schema table; ForceRls schema table]
      ++ mjoin ((λ lp, resolver schema lp.1 lp.2) <$> owner_links facts)
      ++ mjoin (settle schema table <$> declared schema table guard (facts_mine facts) shared approved_read).
Proof.
  unfold table_rls, owner_links, facts_mine. rewrite <-declared_plan.
  assert (∀ E : string → RuntimeError, try_for_each (λ field, ensure (bool_decide (field ∈ facts_columns facts)) (E field)) sensitive = Ok tt
    ↔ Forall (λ c, c ∈ facts_columns facts) sensitive) as Hs.
  { intros E. induction sensitive as [|c cs IH]; [done|]. cbn. rewrite Forall_cons. case_bool_decide; cbn; [|naive_solver].
    rewrite IH. naive_solver. }
  destruct (try_for_each _ sensitive) as [[]|e] eqn:Htry.
  - apply Hs in Htry. destruct (facts_owner facts) as [o|]; cbn [fmap option_fmap option_map].
    + unfold ownership. rewrite ownership_links_split. split; [intros [= <-]; done|by intros [_ ->]].
    + split; [intros [= <-]; done|by intros [_ ->]].
  - split; [done|]. intros [Hf _]. rewrite (proj2 (Hs _) Hf) in Htry. done.
Qed.

(** What an executed plan leaves of the catalog it ran on. *)
Record Installed (schema table guard : string) (facts : TableFacts) (shared : option string) (sensitive : list string)
    (approved_read : bool) (cat : Cat) (t : TableState) (cat' : Cat) (t' : TableState) : Prop := {
  in_tables : tables cat' = <[(schema, table) := t']> (tables cat);
  in_columns : t_columns t' = t_columns t;
  in_enabled : t_rls t' = true;
  in_forced : t_forced t' = true;
  in_policies : t_policies t' = foldl settled (t_policies t) (declared schema table guard (facts_mine facts) shared approved_read);
  in_readable : ∀ c, readable t' c ↔ c ∈ t_columns t ∧ c ∉ sensitive;
  in_resolvers : ∀ lp, lp ∈ owner_links facts → ∃ f, functions cat' !! lf_resolver lp.1 = Some f ∧ resolver_is schema lp f;
  in_functions : ∀ n, n ∉ (λ lp, lf_resolver lp.1) <$> owner_links facts → functions cat' !! n = functions cat !! n }.

(** The resolvers of a plan can be defined in a catalog. *)
Definition definable (facts : TableFacts) (cat : Cat) : Prop :=
  NoDup ((λ lp, lf_resolver lp.1) <$> owner_links facts) ∧ Forall (λ lp, compatible cat lp.1) (owner_links facts).

Section Install.
Context (schema table guard : string) (facts : TableFacts) (shared : option string) (sensitive : list string)
  (approved_read : bool) (plan : list Stmt).
Hypothesis Hplan : table_rls schema table guard facts shared sensitive approved_read = Ok plan.

Lemma execs_plan cat t :
  tables cat !! (schema, table) = Some t → t_columns t = facts_columns facts → definable facts cat →
  ∃ cat' t', execs plan cat = Some cat' ∧ Installed schema table guard facts shared sensitive approved_read cat t cat' t'.
Proof.
  intros Ht Hcols [Hnd Hcomp]. apply table_rls_ok in Hplan as [_ ->]. rewrite <-Hcols. cbn [execs exec mbind option_bind].
  rewrite execs_app. destruct (exec_privileges schema table sensitive t cat Ht) as (t1 & -> & (Hc & Hp & _ & _) & Hread).
  cbn [mbind option_bind]. rewrite execs_app. cbn [execs exec].
  rewrite (on_table_set _ _ _ _ _ (set_table_lookup _ _ _ _)). cbn [fmap option_fmap option_map mbind option_bind].
  rewrite (on_table_set _ _ _ _ _ (set_table_lookup _ _ _ _)). cbn [fmap option_fmap option_map mbind option_bind].
  rewrite !set_table_twice. set (t2 := set_rls _ _ _). rewrite execs_app.
  destruct (exec_resolvers schema (owner_links facts) (set_table schema table t2 cat) Hnd Hcomp) as (cat' & -> & Hts & Hres & Hfun).
  cbn [mbind option_bind]. rewrite (execs_settle _ _ _ t2) by (rewrite Hts; apply set_table_lookup).
  eexists _, (set_policies (foldl settled (t_policies t2) _) t2). split; [done|]. constructor; cbn -[declared foldl settled]; try done.
  - rewrite Hts. apply insert_insert_eq.
  - by rewrite Hp.
Qed.

Lemma settled_twice (m : gmap string Policy) l : NoDup l.*1 → foldl settled (foldl settled m l) l = foldl settled m l.
Proof. intros Hnd. apply map_eq. intros n. rewrite !settled_lookup by done. by destruct (List.find _ l). Qed.

Lemma definable_again cat t cat' t' :
  definable facts cat → Installed schema table guard facts shared sensitive approved_read cat t cat' t' → definable facts cat'.
Proof.
  intros [Hnd _] Hi. split; [done|]. apply Forall_forall. intros lp Hlp f Hf.
  destruct (in_resolvers _ _ _ _ _ _ _ _ _ _ _ Hi lp Hlp) as (f' & Hf' & _ & Hl & _). congruence.
Qed.
End Install.

(** A table's plan runs and settles the table, whatever state an earlier version
    left it in: row security is on and forced, the executor reads exactly the
    columns that are not sensitive, every resolver is defined for the executor and
    closed to everyone else, exactly the declared policies are there beside those
    of others, and nothing else changes; running it again succeeds and changes no
    policy, no readable column and no resolver. *)
Theorem plan_installs schema table guard facts shared sensitive approved_read plan cat t :
  table_rls schema table guard facts shared sensitive approved_read = Ok plan →
  tables cat !! (schema, table) = Some t → t_columns t = facts_columns facts → definable facts cat →
  ∃ cat' t', execs plan cat = Some cat'
    ∧ Installed schema table guard facts shared sensitive approved_read cat t cat' t'
    ∧ (∀ n, t_policies t' !! n =
         match List.find (λ np, bool_decide (np.1 = n)) (declared schema table guard (facts_mine facts) shared approved_read) with
         | Some np => np.2 | None => t_policies t !! n end)
    ∧ ∃ cat'' t'', execs plan cat' = Some cat''
        ∧ Installed schema table guard facts shared sensitive approved_read cat' t' cat'' t''
        ∧ t_policies t'' = t_policies t' ∧ ∀ c, readable t'' c ↔ readable t' c.
Proof.
  intros Hplan Ht Hcols Hd. destruct (execs_plan _ _ _ _ _ _ _ _ Hplan cat t Ht Hcols Hd) as (cat' & t' & E & Hi).
  exists cat', t'. split_and!; [done..| |].
  { intros n. rewrite (in_policies _ _ _ _ _ _ _ _ _ _ _ Hi). apply settled_lookup, declared_names. }
  destruct (execs_plan _ _ _ _ _ _ _ _ Hplan cat' t') as (cat'' & t'' & E' & Hi').
  - rewrite (in_tables _ _ _ _ _ _ _ _ _ _ _ Hi). apply lookup_insert_eq.
  - by rewrite (in_columns _ _ _ _ _ _ _ _ _ _ _ Hi).
  - by eapply definable_again.
  - exists cat'', t''. split_and!; try done.
    + rewrite (in_policies _ _ _ _ _ _ _ _ _ _ _ Hi'), (in_policies _ _ _ _ _ _ _ _ _ _ _ Hi).
      apply settled_twice, declared_names.
    + intros c. by rewrite (in_readable _ _ _ _ _ _ _ _ _ _ _ Hi'), (in_readable _ _ _ _ _ _ _ _ _ _ _ Hi),
        (in_columns _ _ _ _ _ _ _ _ _ _ _ Hi).
Qed.

(** ** Who the settled policies let through *)

Lemma NoDup_fst_eq {A} (l : list (string * A)) k x y : NoDup l.*1 → (k, x) ∈ l → (k, y) ∈ l → x = y.
Proof.
  intros Hnd Hx Hy. apply (elem_of_list_to_map_1 (M:=gmap string) _ _ _ Hnd) in Hx, Hy. congruence.
Qed.

(** The policies that a list does not settle. *)
Definition foreign (l : list (string * option Policy)) (pols : gmap string Policy) : gmap string Policy :=
  filter (λ np, np.1 ∉ l.*1) pols.

Section Settled.
Context (l : list (string * option Policy)) (Hnd : NoDup l.*1).

Lemma settled_some pols n p :
  foldl settled pols l !! n = Some p ↔ (n, Some p) ∈ l ∨ foreign l pols !! n = Some p.
Proof.
  rewrite (settled_lookup _ _ _ Hnd). unfold foreign. rewrite map_lookup_filter_Some. cbn.
  destruct (List.find (λ np, bool_decide (np.1 = n)) l) as [[k po]|] eqn:Hf.
  - apply find_some in Hf as [Hin%list_elem_of_In Hk]. cbn in Hk. bool_hyps. subst k. cbn. split.
    + intros ->. by left.
    + intros [H|[_ H]].
      * by apply (NoDup_fst_eq _ _ _ _ Hnd Hin H).
      * exfalso. apply H. by apply (list_elem_of_fmap_2 fst _ _ Hin).
  - assert (n ∉ l.*1) as Hn.
    { intros ([k po] & -> & Hin%list_elem_of_In)%list_elem_of_fmap. pose proof (find_none _ _ Hf _ Hin) as Hk. cbn in Hk.
      by rewrite bool_decide_true in Hk. }
    split; [by right|]. intros [H|[H _]]; [|done]. exfalso. apply Hn. by apply (list_elem_of_fmap_2 fst _ _ H).
Qed.

Lemma settled_existsb (f : Policy → bool) pols :
  existsb (λ np, f np.2) (map_to_list (foldl settled pols l))
  = existsb (λ np, from_option f false np.2) l || existsb (λ np, f np.2) (map_to_list (foreign l pols)).
Proof.
  apply eq_true_iff_eq. rewrite orb_true_iff, !existsb_exists. split.
  - intros ([n p] & Hin%list_elem_of_In & Hf). apply elem_of_map_to_list, settled_some in Hin as [Hin|Hin].
    + left. exists (n, Some p). by rewrite <-list_elem_of_In.
    + right. exists (n, p). by rewrite <-list_elem_of_In, elem_of_map_to_list.
  - intros [([n [p|]] & Hin%list_elem_of_In & Hf)|([n p] & Hin%list_elem_of_In & Hf)]; [|done|]; exists (n, p);
      rewrite <-list_elem_of_In, elem_of_map_to_list, settled_some; [by split; [left|]|].
    apply elem_of_map_to_list in Hin. by split; [right|].
Qed.
End Settled.

Section Decision.
Context (schema table guard : string) (mine : option Pred) (shared : option string) (approved_read : bool) (a : Atoms).
Local Notation D := (declared schema table guard mine shared approved_read).

(** The decision, without policies: the collection's keys are the guard's, the own
    and shared scopes are the table's. *)
Definition is_mine : bool := from_option (eval a) false mine.
Definition collection_open (action : string) : bool :=
  let key := "app:" +:+ schema +:+ ":" +:+ guard +:+ "." +:+ action in
  at_access a key
  || match mine with
     | None => at_cross a key
     | Some _ => (at_cross a key || at_cross a (key +:+ "." +:+ OWN_SCOPE)) && is_mine
     end.
Definition own_open (action : string) : bool :=
  at_access a ("app:" +:+ schema +:+ ":" +:+ table +:+ "." +:+ action +:+ "." +:+ OWN_SCOPE) && is_mine.
Definition shared_open : bool :=
  match shared with
  | Some p => at_access a ("app:" +:+ schema +:+ ":" +:+ table +:+ ".read.shared") && at_shared a p
  | None => false
  end.
Definition published : bool :=
  at_publication a ("app:" +:+ schema +:+ ":" +:+ guard +:+ ".read")
  && match mine with Some _ => at_released a || is_mine | None => true end.
Definition lockable : bool := approved_read && at_approved a ("app:" +:+ schema +:+ ":" +:+ table +:+ ".read").

Definition opens (cmd : Command) (cl : Clause) : bool :=
  match cmd, cl with
  | SELECT, USING => collection_open "read" || own_open "read" || shared_open || published
  | INSERT, WITH_CHECK => collection_open "create" || own_open "create"
  | DELETE, USING => collection_open "delete" || own_open "delete"
  | UPDATE, USING => collection_open "update" || own_open "update" || lockable
  | UPDATE, WITH_CHECK => collection_open "update" || own_open "update"
  | _, _ => false
  end.
(** A public execution only reads what is published. *)
Definition under_ceiling (cmd : Command) (cl : Clause) : bool :=
  match cmd, cl with
  | SELECT, USING => at_no_publication a || published
  | INSERT, WITH_CHECK | DELETE, USING | UPDATE, _ => at_no_publication a
  | _, _ => true
  end.

Definition applies_to (c cmd : Command) (clauses : list Clause) (cl : Clause) : bool :=
  (bool_decide (c = cmd) || bool_decide (c = ALL)) && existsb (λ k, bool_decide (k = cl)) clauses.
Lemma clause_preds_all r c clauses p cl :
  existsb (eval a) (clause_preds (all_clauses r c clauses p) cl) = existsb (λ k, bool_decide (k = cl)) clauses && eval a p
  ∧ forallb (eval a) (clause_preds (all_clauses r c clauses p) cl) = negb (existsb (λ k, bool_decide (k = cl)) clauses) || eval a p.
Proof.
  unfold clause_preds, all_clauses. cbn [po_body]. induction clauses as [|k ks [IH1 IH2]]; [done|]. cbn.
  destruct (bool_decide (k = cl)); cbn; [|by rewrite IH1, IH2]. rewrite IH1, IH2. split; btauto.
Qed.
Lemma permits_all cmd cl r c clauses p :
  permits a cmd cl (all_clauses r c clauses p) = negb r && (applies_to c cmd clauses cl && eval a p).
Proof.
  unfold permits, applies, applies_to. rewrite (proj1 (clause_preds_all _ _ _ _ _)). cbn [po_restrictive po_command all_clauses]. btauto.
Qed.
Lemma restrains_all cmd cl r c clauses p :
  restrains a cmd cl (all_clauses r c clauses p) = r && (applies_to c cmd clauses cl && negb (eval a p)).
Proof.
  unfold restrains, applies, applies_to. rewrite (proj2 (clause_preds_all _ _ _ _ _)). cbn [po_restrictive po_command all_clauses]. btauto.
Qed.

Definition action_lock (key : string) : Policy :=
  {| po_restrictive := false; po_command := UPDATE; po_body := [(USING, PApproved key); (WITH_CHECK, PFalse)] |}.
Lemma permits_lock cmd cl key :
  permits a cmd cl (action_lock key) = applies_to UPDATE cmd [USING] cl && at_approved a key.
Proof. destruct cmd, cl; try reflexivity. exact (orb_false_r (at_approved a key)). Qed.
Lemma restrains_lock cmd cl key : restrains a cmd cl (action_lock key) = false.
Proof. done. Qed.

Ltac settle_bool :=
  rewrite ?permits_all, ?restrains_all, ?permits_lock, ?restrains_lock;
  repeat match goal with
  | |- context [applies_to ?c ?d ?l ?k] => let b := eval vm_compute in (applies_to c d l k) in change (applies_to c d l k) with b
  end;
  repeat match goal with |- context [decide (?x = ?y :> string)] => destruct (decide (x = y)); [|done] || (destruct (decide (x = y)); [done|]) end;
  cbn [eval negb andb orb collection_gate publication_gate from_option];
  btauto.

Lemma declared_permits cmd cl :
  cmd ≠ ALL → existsb (λ np, from_option (permits a cmd cl) false np.2) D = opens cmd cl.
Proof.
  intros Hc. unfold opens, collection_open, own_open, shared_open, published, lockable, is_mine, declared, shared_policy.
  fold (action_lock ("app:" +:+ schema +:+ ":" +:+ table +:+ ".read")).
  destruct mine as [m|], shared as [sh|], approved_read, cmd, cl; try done; cbn -[permits String.append action_lock];
    settle_bool.
Qed.
Lemma declared_restrains cmd cl :
  cmd ≠ ALL → existsb (λ np, from_option (restrains a cmd cl) false np.2) D = negb (under_ceiling cmd cl).
Proof.
  intros Hc. unfold under_ceiling, published, is_mine, declared, shared_policy.
  fold (action_lock ("app:" +:+ schema +:+ ":" +:+ table +:+ ".read")). change ".read" with ("." +:+ "read").
  destruct mine as [m|], shared as [sh|], approved_read, cmd, cl; try done; cbn -[restrains String.append action_lock];
    settle_bool.
Qed.
End Decision.

(** Whether a policy of others lets the row through, or holds it back. *)
Definition others_permit (a : Atoms) (pols : gmap string Policy) (cmd : Command) (cl : Clause) : bool :=
  existsb (λ np, permits a cmd cl np.2) (map_to_list pols).
Definition others_restrain (a : Atoms) (pols : gmap string Policy) (cmd : Command) (cl : Clause) : bool :=
  existsb (λ np, restrains a cmd cl np.2) (map_to_list pols).

Lemma passes_settled schema table guard mine shared approved_read a pols cmd cl :
  cmd ≠ ALL →
  passes a (foldl settled pols (declared schema table guard mine shared approved_read)) cmd cl =
  (opens schema table guard mine shared approved_read a cmd cl
     || others_permit a (foreign (declared schema table guard mine shared approved_read) pols) cmd cl)
  && under_ceiling schema guard mine a cmd cl
  && negb (others_restrain a (foreign (declared schema table guard mine shared approved_read) pols) cmd cl).
Proof.
  intros Hc. unfold passes.
  rewrite (settled_existsb _ (declared_names _ _ _ _ _ _) (permits a cmd cl)),
    (settled_existsb _ (declared_names _ _ _ _ _ _) (restrains a cmd cl)), declared_permits, declared_restrains by done.
  unfold others_permit, others_restrain. btauto.
Qed.

(** The clauses PostgreSQL evaluates for a command. *)
Definition clauses_of (cmd : Command) : list Clause :=
  match cmd with SELECT | DELETE => [USING] | INSERT => [WITH_CHECK] | UPDATE | ALL => [USING; WITH_CHECK] end.

(** [C3] The installed policies decide as documented: a row passes when the
    collection's key is held, or the cross-app grant's (on an owned entity, for the
    caller's own rows), or the own-scoped key and the row is the caller's, or the
    shared-read key and the row is shared, or it is published, or, to lock it, the
    approved action may read it; a policy of others can add rows or remove rows,
    except in a public execution, where writes never pass and reads only what is
    published, whatever others added. *)
Theorem installed_policies_decide schema table guard facts shared sensitive approved_read plan cat t :
  table_rls schema table guard facts shared sensitive approved_read = Ok plan →
  tables cat !! (schema, table) = Some t → t_columns t = facts_columns facts → definable facts cat →
  ∃ cat' t', execs plan cat = Some cat' ∧ tables cat' !! (schema, table) = Some t' ∧ t_rls t' = true ∧ t_forced t' = true
  ∧ ∀ a cmd cl, cmd ≠ ALL →
      let others := foreign (declared schema table guard (facts_mine facts) shared approved_read) (t_policies t) in
      passes a (t_policies t') cmd cl =
        (opens schema table guard (facts_mine facts) shared approved_read a cmd cl || others_permit a others cmd cl)
        && under_ceiling schema guard (facts_mine facts) a cmd cl && negb (others_restrain a others cmd cl)
      ∧ (at_no_publication a = false → cl ∈ clauses_of cmd → passes a (t_policies t') cmd cl = true →
         cmd = SELECT ∧ published schema guard (facts_mine facts) a = true).
Proof.
  intros Hplan Ht Hcols Hd. destruct (execs_plan _ _ _ _ _ _ _ _ Hplan cat t Ht Hcols Hd) as (cat' & t' & E & Hi).
  exists cat', t'. split_and!; [done| |apply Hi..|].
  { rewrite (in_tables _ _ _ _ _ _ _ _ _ _ _ Hi). apply lookup_insert_eq. }
  intros a cmd cl Hc others. rewrite (in_policies _ _ _ _ _ _ _ _ _ _ _ Hi), (passes_settled _ _ _ _ _ _ _ _ _ _ Hc).
  split; [done|]. intros Hnp Hcl [[_ Hce]%andb_true_iff _]%andb_true_iff. unfold under_ceiling in Hce. rewrite Hnp in Hce.
  destruct cmd, cl; try done; cbn in Hcl; set_solver.
Qed.

Module PlanExamples.
Definition task_facts : TableFacts :=
  {| facts_columns := ["id"; "project_id"; "notes"];
     facts_owner := Some {| root_column := "lead"; root_type := "uuid";
       links := [{| lf_parent := "project"; lf_link := "project_id"; lf_resolver := "rootcx_own.hr.project"; lf_pk := "id"; lf_pk_type := "uuid" |}] |} |}.
(** A table an older plan left: readable as a whole, with a policy of that plan and
    one of the provider's. *)
Definition old_policy : Policy := {| po_restrictive := false; po_command := SELECT; po_body := [(USING, PAccess "app:hr:old.read")] |}.
Definition provider_policy : Policy := {| po_restrictive := false; po_command := ALL; po_body := [(USING, PReleased); (WITH_CHECK, PReleased)] |}.
Definition task_table : TableState :=
  {| t_columns := ["id"; "project_id"; "notes"]; t_rls := false; t_forced := false;
     t_policies := {["rootcx_rls_select_shared" := old_policy; "provider" := provider_policy]};
     t_select := {["rootcx_app_executor"]}; t_select_columns := ∅ |}.
Definition hr : Cat := {| tables := {[("hr", "task") := task_table]}; functions := ∅ |}.
Definition task_plan : list Stmt :=
  match table_rls "hr" "task" "task" task_facts None ["notes"] true with Ok p => p | Err _ => [] end.
Lemma task_planned : table_rls "hr" "task" "task" task_facts None ["notes"] true = Ok task_plan.
Proof. reflexivity. Qed.
Lemma task_definable : definable task_facts hr.
Proof.
  split; [apply (bool_decide_unpack _); by vm_compute|].
  apply Forall_singleton. intros f Hf. cbn [hr functions] in Hf. by rewrite lookup_empty in Hf.
Qed.
Lemma task_there : tables hr !! ("hr", "task") = Some task_table.
Proof. reflexivity. Qed.

Lemma plan_installs_witness :
  ∃ cat' t', execs task_plan hr = Some cat' ∧ tables cat' !! ("hr", "task") = Some t'
    ∧ readable t' "id" ∧ ¬ readable t' "notes"
    ∧ t_policies t' !! "rootcx_rls_select_shared" = None ∧ t_policies t' !! "provider" = Some provider_policy.
Proof.
  destruct (plan_installs "hr" "task" "task" task_facts None ["notes"] true task_plan hr task_table
    task_planned task_there eq_refl task_definable) as (cat' & t' & E & Hi & Hp & _).
  exists cat', t'. split_and!; [exact E| | | | |].
  - rewrite (in_tables _ _ _ _ _ _ _ _ _ _ _ Hi). apply lookup_insert_eq.
  - apply (in_readable _ _ _ _ _ _ _ _ _ _ _ Hi). split; apply (bool_decide_unpack _); vm_compute; exact I.
  - intros [_ H]%(in_readable _ _ _ _ _ _ _ _ _ _ _ Hi). by apply H, list_elem_of_singleton.
  - rewrite Hp. reflexivity.
  - rewrite Hp. reflexivity.
Defined.

(** A public execution that released ownership: the provider's policy passes in it
    and the write is still refused. *)
Definition public_atoms : Atoms :=
  {| at_access := λ _, false; at_cross := λ _, false; at_publication := λ k, bool_decide (k = "app:hr:task.read");
     at_approved := λ _, false; at_mine := λ _ _, false; at_via := λ _ _, false; at_shared := λ _, false;
     at_released := true; at_no_publication := false |}.
Lemma installed_policies_decide_witness :
  ∃ cat' t', execs task_plan hr = Some cat' ∧ tables cat' !! ("hr", "task") = Some t'
    ∧ passes public_atoms (t_policies t') SELECT USING = true ∧ passes public_atoms (t_policies t') DELETE USING = false.
Proof.
  destruct (installed_policies_decide "hr" "task" "task" task_facts None ["notes"] true task_plan hr task_table
    task_planned task_there eq_refl task_definable) as (cat' & t' & E & Hl & _ & _ & Hp).
  exists cat', t'. split_and!; [exact E|exact Hl| |].
  - rewrite (proj1 (Hp public_atoms SELECT USING ltac:(discriminate))). vm_compute. reflexivity.
  - rewrite (proj1 (Hp public_atoms DELETE USING ltac:(discriminate))). vm_compute. reflexivity.
Defined.
End PlanExamples.
