(* ===== verification/RowAccess.v ===== *)
(** * Who reaches a row

    The parts of row access together: the transaction [begin] opens (Gates), the
    policies and resolvers a plan installed (RowPlan), the owner chains of the
    manifest (Ownership) and the rows themselves.  A resolver is evaluated as the
    SQL function plan.rs writes; the theorems say that it answers by the ownership
    the data holds, and what a row that passes a table's policies shows of its
    caller. *)

From stdpp Require Import base numbers gmap strings sets list.
From S2P Require Import Prelude Str Ident Perms Roles Authority Delegation Gates Json DataTypes Ownership RowPlan.

(** A row: its columns that are not null, as text. *)
Definition Row := gmap string string.

Section Evaluate.
Context (y : Sys) (s : Settings) (cat : Cat) (data : string → string → list Row) (shared_row : string → Row → bool).

(** [column = (SELECT nullif(current_setting('rootcx.user_id', true), ''))::ty] *)
Definition holds_caller (row : Row) (column : string) : bool :=
  match nonempty (current_setting "rootcx.user_id" s), row !! column with
  | Some u, Some v => bool_decide (v = u)
  | _, _ => false
  end.
(** The first two conditions of a resolver's WHERE. *)
Definition resolver_open (f : FunctionDef) : bool :=
  (setting_is "rootcx.human_data_request" "1" s
   || bool_decide (default (fd_schema f) (nonempty (current_setting "rootcx.app_id" s)) = fd_schema f))
  && (negb (is_set "rootcx.approved_action_id" s)
      || check_approved_action_access y s ("app:" +:+ fd_schema f +:+ ":" +:+ lf_parent (fd_link f) +:+ ".read")).

(** The atoms of one row's predicates; [fuel] bounds the resolvers crossed. *)
Fixpoint row_atoms (fuel : nat) (row : Row) : Atoms :=
  {| at_access := check_access y s; at_cross := check_cross_app_access y s;
     at_publication := check_publication_access y s; at_approved := check_approved_action_access y s;
     at_mine := λ column _, holds_caller row column;
     at_via := λ link r,
       match fuel with
       | O => false
       | S fuel =>
           match row !! link, functions cat !! r with
           | Some v, Some f =>
               existsb (λ p, bool_decide (p !! lf_pk (fd_link f) = Some v) && resolver_open f && eval (row_atoms fuel p) (fd_mine f))
                 (data (fd_schema f) (lf_parent (fd_link f)))
           | _, _ => false
           end
       end;
     at_shared := λ p, shared_row p row;
     at_released := setting_is "rootcx.publication_release_ownership" "1" s;
     at_no_publication := negb (is_set "rootcx.publication_id" s) |}.

Lemma row_atoms_gates fuel row :
  at_access (row_atoms fuel row) = check_access y s ∧ at_cross (row_atoms fuel row) = check_cross_app_access y s
  ∧ at_publication (row_atoms fuel row) = check_publication_access y s
  ∧ at_approved (row_atoms fuel row) = check_approved_action_access y s ∧ at_shared (row_atoms fuel row) = λ p, shared_row p row.
Proof. by destruct fuel. Qed.

(** ** Ownership, as the data holds it *)

(** [up] lists the links from the table towards the root. *)
Fixpoint owned (schema root u : string) (up : list LinkFacts) (row : Row) : Prop :=
  match up with
  | [] => row !! root = Some u
  | l :: up => ∃ v p, row !! lf_link l = Some v ∧ p ∈ data schema (lf_parent l) ∧ p !! lf_pk l = Some v ∧ owned schema root u up p
  end.

(** The resolvers of a chain are the ones the catalog holds. *)
Definition resolvers_in (schema : string) (o : OwnerFacts) : Prop :=
  ∀ lp, lp ∈ link_preds (links o) (PMine (root_column o) (root_type o)) →
    ∃ f, functions cat !! lf_resolver lp.1 = Some f ∧ resolver_is schema lp f.

Lemma link_preds_app l1 l2 m : link_preds (l1 ++ l2) m = link_preds l1 m ++ link_preds l2 (mine_after l1 m).
Proof. revert m. induction l1 as [|l l1 IH]; intros m; [done|]. cbn. by rewrite IH. Qed.
Lemma mine_after_app l1 l2 m : mine_after (l1 ++ l2) m = mine_after l2 (mine_after l1 m).
Proof. revert m. induction l1 as [|l l1 IH]; intros m; [done|]. cbn. by rewrite IH. Qed.

Section Chain.
Context (schema root ty : string) (u : uuid).
Hypothesis Huser : nonempty (current_setting "rootcx.user_id" s) = Some u.

Lemma eval_owned ls :
  (∀ lp, lp ∈ link_preds ls (PMine root ty) → ∃ f, functions cat !! lf_resolver lp.1 = Some f ∧ resolver_is schema lp f) →
  (∀ l f, l ∈ ls → fd_schema f = schema → fd_link f = l → resolver_open f = true) →
  ∀ fuel row, length ls ≤ fuel →
  eval (row_atoms fuel row) (mine_after ls (PMine root ty)) = true ↔ owned schema root u (rev ls) row.
Proof.
  induction ls as [|l ls IH] using rev_ind; intros Hres Hopen fuel row Hfuel.
  { cbn. destruct fuel; cbn; unfold holds_caller; rewrite Huser; (destruct (row !! root) as [v|] eqn:E; [rewrite bool_decide_eq_true|]);
      (split; [congruence|intros [=]; congruence]) || (split; intros [=]; congruence). }
  rewrite length_app in Hfuel. cbn in Hfuel. destruct fuel as [|fuel]; [lia|].
  rewrite mine_after_app, rev_app_distr. cbn [mine_after rev app owned eval].
  destruct (Hres (l, mine_after ls (PMine root ty))) as (f & Hf & Hs & Hl & Hm & _).
  { rewrite link_preds_app. apply elem_of_app. right. by apply list_elem_of_singleton. }
  cbn [fst snd] in *. cbn [row_atoms at_via]. rewrite Hf, Hs, Hl, Hm.
  assert (resolver_open f = true) as Ho by (apply (Hopen l); [apply elem_of_app; right; by left|done..]).
  assert (∀ p, eval (row_atoms fuel p) (mine_after ls (PMine root ty)) = true ↔ owned schema root u (rev ls) p) as IH'.
  { intros p. apply IH; [|intros; eapply Hopen; [apply elem_of_app; by left|done..]|lia].
    intros lp Hlp. apply Hres. rewrite link_preds_app. apply elem_of_app. by left. }
  rewrite Ho. destruct (row !! lf_link l) as [v|] eqn:Hv.
  - rewrite existsb_exists. split.
    + intros (p & Hp%list_elem_of_In & [[Hk%bool_decide_eq_true _]%andb_true_iff Ho'%IH']%andb_true_iff). by exists v, p.
    + intros (v' & p & [= ->] & Hp & Hk & Ho'%IH'). exists p. rewrite <-list_elem_of_In. split; [done|].
      by rewrite bool_decide_true, Ho'.
  - split; [intros [=]|]. by intros (v & p & [=] & _).
Qed.
End Chain.
End Evaluate.

Section Access.
Context {FieldTypes : Type} `{!EqDecision FieldTypes}
  (manifest_types : string → string → option FieldTypes)
  (publication_locked : Sys → ApprovedPublication → result string unit).
Local Notation begin := (begin_tx manifest_types publication_locked).
Local Notation Access := (@DataAccess FieldTypes).

(** The transaction may ask the resolvers of an app. *)
Definition serves (a : Access) (schema : string) : Prop := origin_ a = HumanHttp ∨ app_schema a = schema.

Section Tx.
Context (role_name : uuid → string) (a : Access) (y0 : Sys) (s s' : Settings) (role : string).
Context (Hbegin : begin role_name a y0 s = Ok (s', role)) (Happroved : approved_action (state a) = None).
Context (y : Sys).

Lemma opened_user u : cx_user_id (state a) = Some u → u ≠ EmptyString → nonempty (current_setting "rootcx.user_id" s') = Some u.
Proof.
  intros Hu Hne. rewrite (opened_setting _ _ _ _ _ _ _ _ Hbegin _ _ (setting_user manifest_types a)), Hu. cbn. by rewrite decide_False.
Qed.
Lemma opened_no_action : is_set "rootcx.approved_action_id" s' = false.
Proof. rewrite (opened_is_set _ _ _ _ _ _ _ _ Hbegin _ _ (setting_approved manifest_types a)), Happroved. cbn. by rewrite bool_decide_true. Qed.
Lemma opened_resolver f : serves a (fd_schema f) → resolver_open y s' f = true.
Proof.
  intros Ha. unfold resolver_open. rewrite opened_no_action. cbn [negb orb]. rewrite andb_true_r.
  rewrite (opened_setting_is _ _ _ _ _ _ _ _ Hbegin _ _ _ (setting_human manifest_types a)), (opened_setting _ _ _ _ _ _ _ _ Hbegin _ _ (setting_app manifest_types a)).
  destruct Ha as [->|<-]; [by rewrite bool_decide_true|]. apply orb_true_iff. right. apply bool_decide_eq_true. cbn.
  by destruct (decide (app_schema a = EmptyString)).
Qed.
Lemma closed_resolver f :
  ¬ serves a (fd_schema f) → app_schema a ≠ EmptyString → resolver_open y s' f = false.
Proof.
  intros Ha Hne. unfold resolver_open, serves in *.
  rewrite (opened_setting_is _ _ _ _ _ _ _ _ Hbegin _ _ _ (setting_human manifest_types a)), (opened_setting _ _ _ _ _ _ _ _ Hbegin _ _ (setting_app manifest_types a)).
  cbn. rewrite decide_False by done. cbn. destruct (origin_ a); [|destruct Ha; by left].
  rewrite bool_decide_false by done. rewrite bool_decide_false; [done|]. intros E. apply Ha. by right.
Qed.

Lemma owner_pred_owned cat data sh schema o u fuel row :
  cx_user_id (state a) = Some u → u ≠ EmptyString → serves a schema → resolvers_in cat schema o → length (links o) ≤ fuel →
  eval (row_atoms y s' cat data sh fuel row) (owner_pred o) = true ↔ owned data schema (root_column o) u (rev (links o)) row.
Proof.
  intros Hu Hne Hs Hres Hfuel. apply eval_owned; [by apply opened_user|done| |done].
  intros l f _ <- _. by apply opened_resolver.
Qed.
Lemma owner_pred_foreign cat data sh schema o fuel row :
  ¬ serves a schema → app_schema a ≠ EmptyString → resolvers_in cat schema o → links o ≠ [] →
  eval (row_atoms y s' cat data sh fuel row) (owner_pred o) = false.
Proof.
  intros Hs Hne Hres Hl. unfold owner_pred. destruct (links o) as [|l ls _] eqn:Hls using rev_ind; [done|].
  rewrite mine_after_app. cbn [mine_after eval]. destruct fuel as [|fuel]; [done|]. cbn [row_atoms at_via].
  destruct (row !! lf_link l) as [v|]; [|done]. destruct (functions cat !! lf_resolver l) as [f|] eqn:Hf; [|done].
  apply not_true_is_false. intros (p & _ & [[_ Ho]%andb_true_iff _]%andb_true_iff)%existsb_exists.
  destruct (Hres (l, mine_after ls (PMine (root_column o) (root_type o)))) as (f' & Hf' & Hsch & _).
  { rewrite Hls, link_preds_app. apply elem_of_app. right. by apply list_elem_of_singleton. }
  assert (f' = f) as -> by (cbn in Hf'; congruence). rewrite closed_resolver in Ho; [done| |done]. by rewrite Hsch.
Qed.

Lemma opened_no_lock key : check_approved_action_access y s' key = false.
Proof.
  unfold check_approved_action_access.
  rewrite (opened_setting _ _ _ _ _ _ _ _ Hbegin _ _ (setting_approved manifest_types a)), Happroved. done.
Qed.
End Tx.

(** What the caller of a transaction holds: frozen with the request when it is
    delegated, the user's permissions now when it is not. *)
Definition holds_key (a : Access) (y : Sys) (u : uuid) (key : string) : Prop :=
  if cx_is_delegated (state a)
  then has_permission (cx_effective_perms (state a)) (operation_key a key) = true
  else has_permission (sql_resolve_permissions (sdb y) u) key = true.
Definition collection_action (cmd : Command) : string :=
  match cmd with SELECT => "read" | INSERT => "create" | DELETE => "delete" | UPDATE | ALL => "update" end.

(** Why a row passes, outside public executions and approved actions. *)
Inductive Justified (a : Access) (y : Sys) (data : string → string → list Row) (sh : string → Row → bool)
    (schema table guard : string) (facts : TableFacts) (shared : option string) (row : Row) (u : uuid) (cmd : Command) : Prop :=
  | JKey : serves a schema → holds_key a y u ("app:" +:+ schema +:+ ":" +:+ guard +:+ "." +:+ collection_action cmd) →
      Justified a y data sh schema table guard facts shared row u cmd
  | JOwn o : serves a schema →
      holds_key a y u ("app:" +:+ schema +:+ ":" +:+ table +:+ "." +:+ collection_action cmd +:+ "." +:+ OWN_SCOPE) →
      facts_owner facts = Some o → owned data schema (root_column o) u (rev (links o)) row →
      Justified a y data sh schema table guard facts shared row u cmd
  | JShared p : serves a schema → holds_key a y u ("app:" +:+ schema +:+ ":" +:+ table +:+ ".read.shared") →
      cmd = SELECT → shared = Some p → sh p row = true →
      Justified a y data sh schema table guard facts shared row u cmd
  | JGrant x g key : cross_app a = Some x → g ∈ cross_app_collection_grants y → grant_covers a y g x (collection_key key) →
      key = "app:" +:+ schema +:+ ":" +:+ guard +:+ "." +:+ collection_action cmd
        ∨ is_Some (facts_owner facts) ∧ key = ("app:" +:+ schema +:+ ":" +:+ guard +:+ "." +:+ collection_action cmd) +:+ "." +:+ OWN_SCOPE →
      (∀ o, facts_owner facts = Some o → serves a schema → owned data schema (root_column o) u (rev (links o)) row) →
      Justified a y data sh schema table guard facts shared row u cmd.

Lemma app_key_of schema rest : str_mem ":" schema = false → split_part2 ("app:" +:+ schema +:+ ":" +:+ rest) = schema.
Proof.
  intros Hs. unfold split_part2. change ("app:" +:+ schema +:+ ":" +:+ rest) with ("app" +:+ String ":" (schema +:+ String ":" rest)).
  rewrite split_byte_app by done. cbn [lookup list_lookup]. by rewrite split_byte_app.
Qed.

Section Passing.
Context (role_name : uuid → string) (a : Access) (y0 : Sys) (s s' : Settings) (role : string).
Context (Hbegin : begin role_name a y0 s = Ok (s', role)) (Happroved : approved_action (state a) = None).
Context (Hperms : Forall (λ k, validate_perm_key k = Ok tt) (cx_effective_perms (state a))).
Context (y : Sys) (cat : Cat) (data : string → string → list Row) (sh : string → Row → bool) (fuel : nat) (row : Row).
Context (schema : string) (Hschema : str_mem ":" schema = false).
Local Notation atoms := (row_atoms y s' cat data sh fuel row).

Lemma access_held key rest :
  key = "app:" +:+ schema +:+ ":" +:+ rest → check_access y s' key = true →
  ∃ u, cx_user_id (state a) = Some u ∧ u ≠ EmptyString ∧ serves a schema ∧ holds_key a y u key.
Proof.
  intros -> Hk. destruct (opened_access _ _ _ _ _ _ _ _ Hbegin y _ Happroved Hk) as (_ & u & Hu & Happ & Hh).
  exists u. split_and!; [done| | |].
  - intros ->. revert Hk. unfold check_access. rewrite (opened_no_action _ _ _ _ _ _ Hbegin Happroved).
    rewrite (opened_setting _ _ _ _ _ _ _ _ Hbegin _ _ (setting_user manifest_types a)), Hu. cbn [default from_option id nonempty].
    repeat (match goal with |- (if ?c then _ else _) = _ → _ => destruct c; try (intros [=]; fail) end).
    all: intros [=].
  - destruct (Happ eq_refl) as [[H|H] _]; [by left|]. right. by rewrite app_key_of in H.
  - unfold holds_key. destruct (cx_is_delegated _); [|done]. by rewrite decode_encode_perms in Hh.
Qed.

Lemma cross_held key :
  check_cross_app_access y s' key = true →
  ∃ u x g, cx_user_id (state a) = Some u ∧ u ≠ EmptyString ∧ cross_app a = Some x ∧ g ∈ cross_app_collection_grants y
    ∧ grant_covers a y g x (collection_key key).
Proof.
  intros Hk. destruct (opened_cross _ _ _ _ _ _ _ _ Hbegin y _ Hk) as (x & g & Hx & Hg & Hc & [u Hu] & _).
  exists u, x, g. split_and!; try done. intros ->. revert Hk. unfold check_cross_app_access.
  rewrite (opened_is_set _ _ _ _ _ _ _ _ Hbegin _ _ (setting_user manifest_types a)), Hu. cbn [default from_option id].
  rewrite (bool_decide_true (_ = _)) by done. cbn [negb]. by destruct (is_set _ _); [|destruct (is_set _ _)].
Qed.

Context (table guard : string) (facts : TableFacts) (shared : option string) (approved_read : bool).
Context (Hres : ∀ o, facts_owner facts = Some o → resolvers_in cat schema o ∧ length (links o) ≤ fuel).
Local Notation opening f := (f schema table guard (facts_mine facts) shared approved_read atoms).

Lemma opens_cases cmd cl :
  opening opens cmd cl = true →
  collection_open schema guard (facts_mine facts) atoms (collection_action cmd) = true
  ∨ own_open schema table (facts_mine facts) atoms (collection_action cmd) = true
  ∨ cmd = SELECT ∧ shared_open schema table shared atoms = true
  ∨ published schema guard (facts_mine facts) atoms = true
  ∨ lockable schema table approved_read atoms = true.
Proof. unfold opens. destruct cmd, cl; cbn [collection_action]; rewrite ?orb_true_iff; tauto || (intros HH; discriminate HH). Qed.

Lemma is_mine_owned u :
  cx_user_id (state a) = Some u → u ≠ EmptyString → serves a schema → is_mine (facts_mine facts) atoms = true →
  ∃ o, facts_owner facts = Some o ∧ owned data schema (root_column o) u (rev (links o)) row.
Proof.
  intros Hu Hne Hs. unfold is_mine, facts_mine. destruct (facts_owner facts) as [o|] eqn:Ho; [|by intros HH; discriminate HH].
  cbn [fmap option_fmap option_map from_option]. intros H. exists o. split; [done|]. destruct (Hres o eq_refl) as [Hr Hf].
  by apply (owner_pred_owned _ _ _ _ _ _ Hbegin Happroved y cat data sh schema o u fuel row).
Qed.

(** The grant's key a collection gate found open. *)
Lemma granted key :
  match facts_mine facts with
  | None => check_cross_app_access y s' key
  | Some _ => (check_cross_app_access y s' key || check_cross_app_access y s' (key +:+ "." +:+ OWN_SCOPE))
              && is_mine (facts_mine facts) atoms
  end = true →
  ∃ k, check_cross_app_access y s' k = true
    ∧ (k = key ∨ is_Some (facts_owner facts) ∧ k = key +:+ "." +:+ OWN_SCOPE)
    ∧ (is_Some (facts_owner facts) → is_mine (facts_mine facts) atoms = true).
Proof.
  unfold facts_mine. destruct (facts_owner facts) as [o|]; cbn [fmap option_fmap option_map].
  - intros [[H|H]%orb_true_iff Hm]%andb_true_iff; eexists; (split; [exact H|]); eauto.
  - intros H. eexists. split; [exact H|]. split; [by left|by intros [? [=]]].
Qed.

Lemma opens_justified cmd cl :
  publication a = None → opening opens cmd cl = true →
  ∃ u, cx_user_id (state a) = Some u ∧ Justified a y data sh schema table guard facts shared row u cmd.
Proof.
  destruct (row_atoms_gates y s' cat data sh fuel row) as (Ea & Ec & Ep & El & Esh).
  intros Hpub [H|[H|[[-> H]|[H|H]]]]%opens_cases.
  - unfold collection_open in H. rewrite Ea, Ec in H. apply orb_true_iff in H as [H|H].
    { destruct (access_held _ _ eq_refl H) as (u & Hu & Hne & Hs & Hh). exists u. split; [done|by apply JKey]. }
    destruct (granted _ H) as (key & Hk & Hkey & Hm).
    destruct (cross_held _ Hk) as (u & x & g & Hu & Hne & Hx & Hg & Hc). exists u. split; [done|].
    eapply (JGrant _ _ _ _ _ _ _ _ _ _ _ _ x g key); try done. intros o Ho Hs.
    destruct (is_mine_owned u Hu Hne Hs (Hm ltac:(by eexists))) as (o' & Ho' & ?). congruence.
  - unfold own_open in H. rewrite Ea in H. apply andb_true_iff in H as [H Hm].
    destruct (access_held _ _ eq_refl H) as (u & Hu & Hne & Hs & Hh).
    destruct (is_mine_owned u Hu Hne Hs Hm) as (o & Ho & Hown). exists u. split; [done|by eapply JOwn].
  - unfold shared_open in H. rewrite Ea, Esh in H. destruct shared as [p|] eqn:Hsh; [|discriminate H].
    apply andb_true_iff in H as [H Hp]. destruct (access_held _ _ eq_refl H) as (u & Hu & Hne & Hs & Hh).
    exists u. split; [done|by eapply JShared].
  - exfalso. unfold published in H. rewrite Ep in H. apply andb_true_iff in H as [H _].
    destruct (opened_publication_gate _ _ _ _ _ _ _ _ Hbegin y _ H) as (p & row' & u & Hp & _). congruence.
  - exfalso. unfold lockable in H. rewrite El in H. apply andb_true_iff in H as [_ H].
    by rewrite (opened_no_lock _ _ _ _ _ _ Hbegin Happroved) in H.
Qed.
End Passing.

(** [C4] Ownership is a property of the data: in a transaction [begin] opened for
    the app of the table or for a direct human request, the owner predicate of an
    installed plan holds of a row exactly when the row's links lead, through rows
    of the parents, to one whose owner column is the caller, whatever the caller
    may read of the parents; a transaction of another app finds nothing through a
    resolver. *)
Theorem owner_predicate_is_ownership role_name a y0 s s' role y cat data sh schema o fuel row :
  begin role_name a y0 s = Ok (s', role) → approved_action (state a) = None → resolvers_in cat schema o →
  length (links o) ≤ fuel →
  (∀ u, cx_user_id (state a) = Some u → u ≠ EmptyString → serves a schema →
     eval (row_atoms y s' cat data sh fuel row) (owner_pred o) = true ↔ owned data schema (root_column o) u (rev (links o)) row)
  ∧ (¬ serves a schema → app_schema a ≠ EmptyString → links o ≠ [] →
     eval (row_atoms y s' cat data sh fuel row) (owner_pred o) = false).
Proof.
  intros Hb Ha Hr Hf. split.
  - intros u Hu Hne Hs. by apply (owner_pred_owned role_name a y0 s s' role Hb Ha).
  - intros Hs Hne Hl. by apply (owner_pred_foreign role_name a y0 s s' role Hb y cat data sh schema).
Qed.

(** [C2] Every row an application reaches is justified: when a row passes the
    policies an installed plan left on a table nobody else added policies to, in a
    transaction [begin] opened for no publication and no approved action, the
    caller is identified and holds the collection's permission in the table's app,
    or the own-scoped one on a row the data says is theirs, or the shared-read one
    on a shared row, or the transaction carries a cross-app grant that is active
    and covers the operation (on an owned entity, for the caller's own rows). *)
Theorem passing_row_is_justified role_name a y0 s s' role y schema table guard facts shared sensitive approved_read
    cat0 t0 cat t data sh fuel row cmd cl :
  begin role_name a y0 s = Ok (s', role) → approved_action (state a) = None → publication a = None →
  Forall (λ k, validate_perm_key k = Ok tt) (cx_effective_perms (state a)) → str_mem ":" schema = false →
  Installed schema table guard facts shared sensitive approved_read cat0 t0 cat t →
  foreign (declared schema table guard (facts_mine facts) shared approved_read) (t_policies t0) = ∅ →
  (∀ o, facts_owner facts = Some o → length (links o) ≤ fuel) → cmd ≠ ALL →
  passes (row_atoms y s' cat data sh fuel row) (t_policies t) cmd cl = true →
  ∃ u, cx_user_id (state a) = Some u ∧ Justified a y data sh schema table guard facts shared row u cmd.
Proof.
  intros Hb Ha Hp Hv Hs Hi Hf Hfuel Hc. rewrite (in_policies _ _ _ _ _ _ _ _ _ _ _ Hi), passes_settled, Hf by done.
  unfold others_permit. rewrite map_to_list_empty. cbn [existsb]. rewrite orb_false_r.
  intros [[H _]%andb_true_iff _]%andb_true_iff. revert H.
  apply (opens_justified role_name a y0 s s' role Hb Ha Hv y cat data sh fuel row schema Hs); [|done].
  intros o Ho. split; [|by apply Hfuel]. intros lp Hlp. apply (in_resolvers _ _ _ _ _ _ _ _ _ _ _ Hi).
  unfold owner_links. by rewrite Ho.
Qed.
End Access.

Module AccessExamples.
Import GateExamples.
(** [crm.note] defers to [crm.c], whose [owner] is the root. *)
Definition c_link : LinkFacts :=
  {| lf_parent := "c"; lf_link := "c_id"; lf_resolver := "rootcx_own.crm.c"; lf_pk := "id"; lf_pk_type := "uuid" |}.
Definition note_owner : OwnerFacts := {| root_column := "owner"; root_type := "uuid"; links := [c_link] |}.
Definition rows (schema table : string) : list Row :=
  if decide (table = "c") then [{["id" := "c1"; "owner" := "u1"]}; {["id" := "c2"; "owner" := "u2"]}] else [].
Definition crm_cat : Cat :=
  {| tables := ∅; functions := {["rootcx_own.crm.c" := {| fd_schema := "crm"; fd_link := c_link; fd_mine := PMine "owner" "uuid";
       fd_execute := {[EXECUTOR]} |}]} |}.
Definition none_shared (p : string) (row : Row) : bool := false.

Lemma crm_resolvers : resolvers_in crm_cat "crm" note_owner.
Proof.
  intros lp Hlp. apply list_elem_of_singleton in Hlp as ->. eexists. split; [by vm_compute|].
  unfold resolver_is. split_and!; try reflexivity; apply (bool_decide_unpack _); vm_compute; exact I.
Qed.
Lemma owner_predicate_is_ownership_witness :
  owned rows "crm" "owner" "u1" [c_link] {["c_id" := "c1"]}
  ∧ eval (row_atoms ex_sys (opened_from ∅ ex_app) crm_cat rows none_shared 1 {["c_id" := "c1"]}) (owner_pred note_owner) = true
  ∧ eval (row_atoms ex_sys (opened_from ∅ ex_app) crm_cat rows none_shared 1 {["c_id" := "c2"]}) (owner_pred note_owner) = false.
Proof.
  assert (∃ role, ex_begin ∅ ex_app = Ok (opened_from ∅ ex_app, role)) as [role Hb] by (apply ex_opened; vm_compute; reflexivity).
  assert (eval (row_atoms ex_sys (opened_from ∅ ex_app) crm_cat rows none_shared 1 {["c_id" := "c1"]}) (owner_pred note_owner) = true)
    as He by (vm_compute; reflexivity).
  split; [|split; [exact He|vm_compute; reflexivity]].
  exact (proj1 (proj1 (owner_predicate_is_ownership (λ _ _, Some tt) (λ _ _, Ok tt) (λ id, "role:" +:+ id) ex_app ex_sys ∅ (opened_from ∅ ex_app)
    role ex_sys crm_cat rows none_shared "crm" note_owner 1 {["c_id" := "c1"]} Hb eq_refl crm_resolvers (le_n 1))
    "u1" eq_refl ltac:(discriminate) ltac:(right; reflexivity)) He).
Defined.

Definition c_facts : TableFacts :=
  {| facts_columns := ["id"; "owner"]; facts_owner := Some {| root_column := "owner"; root_type := "uuid"; links := [] |} |}.
Definition c_table : TableState :=
  {| t_columns := ["id"; "owner"]; t_rls := false; t_forced := false; t_policies := ∅; t_select := ∅; t_select_columns := ∅ |}.
Definition crm : Cat := {| tables := {[("crm", "c") := c_table]}; functions := ∅ |}.
Definition c_plan : list Stmt := match table_rls "crm" "c" "c" c_facts None [] false with Ok p => p | Err _ => [] end.
Lemma c_planned : table_rls "crm" "c" "c" c_facts None [] false = Ok c_plan.
Proof. reflexivity. Qed.
Lemma c_definable : definable c_facts crm.
Proof. split; constructor. Qed.

Lemma passing_row_is_justified_witness :
  ∃ cat t, execs c_plan crm = Some cat
    ∧ passes (row_atoms ex_sys (opened_from ∅ ex_app) cat rows none_shared 0 {["id" := "c2"; "owner" := "u2"]}) (t_policies t) SELECT USING = true
    ∧ Justified ex_app ex_sys rows none_shared "crm" "c" "c" c_facts None {["id" := "c2"; "owner" := "u2"]} "u1" SELECT.
Proof.
  assert (∃ role, ex_begin ∅ ex_app = Ok (opened_from ∅ ex_app, role)) as [role Hb] by (apply ex_opened; vm_compute; reflexivity).
  destruct (execs_plan _ _ _ _ _ _ _ _ c_planned crm c_table eq_refl eq_refl c_definable) as (cat & t & E & Hi).
  assert (passes (row_atoms ex_sys (opened_from ∅ ex_app) cat rows none_shared 0 {["id" := "c2"; "owner" := "u2"]}) (t_policies t) SELECT USING = true) as Hp
    by (rewrite (in_policies _ _ _ _ _ _ _ _ _ _ _ Hi); vm_compute; reflexivity).
  exists cat, t. split; [exact E|]. split; [exact Hp|].
  destruct (passing_row_is_justified (λ _ _, Some tt) (λ _ _, Ok tt) (λ id, "role:" +:+ id) ex_app ex_sys ∅ (opened_from ∅ ex_app)
    role ex_sys "crm" "c" "c" c_facts None [] false crm c_table cat t rows none_shared 0 {["id" := "c2"; "owner" := "u2"]} SELECT USING
    Hb eq_refl eq_refl (Forall_nil_2 _) eq_refl Hi eq_refl) as (u & Hu & Hj); [| |exact Hp|].
  - intros o [= <-]. apply le_n.
  - discriminate.
  - injection Hu as <-. exact Hj.
Defined.
End AccessExamples.
