(* ===== verification/SqlScan.v ===== *)
(** * A scanner of SQL text

    What emitted SQL is read as: the promises of the emitters (RuleEmit, Filters) are
    stated against it. *)

From stdpp Require Import base numbers pretty gmap strings sets list.
From S2P Require Import Prelude Str Ident.

(** Quoted identifiers and string literals (a doubled quote stands for itself),
    bare words and numbers, and single symbols; blanks separate. *)

Inductive STok := SIdent (s : string) | SStr (s : string) | SBare (s : string) | SSym (c : ascii).

Inductive SState :=
| Idle
| Bare (acc : string)
| Quoted (ident : bool) (acc : string)
| Closing (ident : bool) (acc : string).  (* a quote was read: the end, or a doubled one *)

Definition is_bare (c : ascii) : bool := is_word_byte c || is_dot c.
Definition quote_of (ident : bool) : ascii := if ident then DQUOTE else QUOTE.
Definition quoted_tok (ident : bool) (s : string) : STok := if ident then SIdent s else SStr s.

Definition flush (st : SState) : list STok :=
  match st with
  | Idle => []
  | Bare acc => [SBare acc]
  | Quoted ident acc => [quoted_tok ident acc]
  | Closing ident acc => [quoted_tok ident acc]
  end.

Definition snoc (s : string) (c : ascii) : string := s +:+ String c "".

(** One byte read between tokens. *)
Definition step_idle (c : ascii) : list STok * SState :=
  if decide (c = DQUOTE) then ([], Quoted true "")
  else if decide (c = QUOTE) then ([], Quoted false "")
  else if is_bare c then ([], Bare (String c ""))
  else if decide (c = " "%char) then ([], Idle)
  else ([SSym c], Idle).

Definition sql_step (st : SState) (c : ascii) : list STok * SState :=
  match st with
  | Idle => step_idle c
  | Bare acc =>
      if is_bare c then ([], Bare (snoc acc c))
      else let '(ts, st') := step_idle c in (SBare acc :: ts, st')
  | Quoted ident acc =>
      if decide (c = quote_of ident) then ([], Closing ident acc) else ([], Quoted ident (snoc acc c))
  | Closing ident acc =>
      if decide (c = quote_of ident) then ([], Quoted ident (snoc acc c))
      else let '(ts, st') := step_idle c in (quoted_tok ident acc :: ts, st')
  end.

Fixpoint sql_run (st : SState) (s : string) : list STok * SState :=
  match s with
  | "" => ([], st)
  | String c s =>
      let '(ts, st) := sql_step st c in
      let '(ts', st) := sql_run st s in (ts ++ ts', st)
  end.

Definition sql_scan (s : string) : list STok := let '(ts, st) := sql_run Idle s in ts ++ flush st.

Fixpoint comma_toks (l : list (list STok)) : list STok :=
  match l with
  | [] => []
  | [ts] => ts
  | ts :: l => ts ++ SSym "," :: comma_toks l
  end.
Definition paren (ts : list STok) : list STok := SSym "(" :: ts ++ [SSym ")"].

(** ** Scanning emitted text *)

(** The scan of [s] from state [st]. *)
Definition scan_from (st : SState) (s : string) : list STok :=
  let '(ts, st') := sql_run st s in ts ++ flush st'.

Lemma sql_run_app st s1 s2 ts1 st1 ts2 st2 :
  sql_run st s1 = (ts1, st1) → sql_run st1 s2 = (ts2, st2) → sql_run st (s1 +:+ s2) = (ts1 ++ ts2, st2).
Proof.
  revert st ts1. induction s1 as [|c s1 IH]; intros st ts1 H1 H2; str_simpl.
  - simplify_eq. by rewrite app_nil_l.
  - destruct (sql_step st c) as [o st'], (sql_run st' s1) as [o' st''] eqn:H. simplify_eq.
    rewrite (IH st' o' H H2). by rewrite app_assoc.
Qed.

Lemma scan_static st p ts st' rest :
  sql_run st p = (ts, st') → scan_from st (p +:+ rest) = ts ++ scan_from st' rest.
Proof.
  intros Hp. unfold scan_from. destruct (sql_run st' rest) as [ts2 st2] eqn:Hr.
  rewrite (sql_run_app _ _ _ _ _ _ _ Hp Hr). by rewrite app_assoc.
Qed.

(** A byte that ends any word or literal before it. *)
Definition sep (c : ascii) : bool :=
  negb (is_bare c) && negb (bool_decide (c = DQUOTE)) && negb (bool_decide (c = QUOTE)).
Definition bnd (rest : string) : Prop := match rest with "" => True | String c _ => sep c = true end.

(** [s] scans to [ts], whatever separated text follows. *)
Definition emits (s : string) (ts : list STok) : Prop :=
  ∀ rest, bnd rest → scan_from Idle (s +:+ rest) = ts ++ scan_from Idle rest.

Lemma scan_closing ident acc rest :
  bnd rest → scan_from (Closing ident acc) rest = quoted_tok ident acc :: scan_from Idle rest.
Proof.
  unfold scan_from. destruct rest as [|c rest]; [done|]. intros Hs. cbn [sql_run].
  unfold bnd, sep in Hs. bool_hyps. cbn [sql_step].
  destruct (decide (c = quote_of ident)); [by destruct ident|].
  destruct (step_idle c) as [o st']. by destruct (sql_run st' rest).
Qed.

Lemma scan_bare acc w rest :
  str_forall is_bare w = true → bnd rest →
  scan_from (Bare acc) (w +:+ rest) = SBare (acc +:+ w) :: scan_from Idle rest.
Proof.
  revert acc. induction w as [|c w IH]; intros acc Hw Hb; str_simpl.
  - unfold scan_from. destruct rest as [|c rest]; [done|]. cbn [sql_run sql_step].
    unfold bnd, sep in Hb. bool_hyps. destruct (is_bare c); [done|].
    destruct (step_idle c) as [o st']. by destruct (sql_run st' rest).
  - apply andb_true_iff in Hw as [Hc Hw]. specialize (IH (snoc acc c) Hw Hb). unfold scan_from in *.
    cbn [sql_run sql_step]. rewrite Hc. destruct (sql_run _ _). rewrite app_nil_l, IH.
    unfold snoc. by rewrite str_app_assoc.
Qed.

Lemma bare_not_quote c : is_bare c = true → c ≠ DQUOTE ∧ c ≠ QUOTE.
Proof. intros H. split; intros ->; by vm_compute in H. Qed.

Lemma emits_bare w : w ≠ "" → str_forall is_bare w = true → emits w [SBare w].
Proof.
  intros Hne Hw rest Hb. destruct w as [|c w]; [done|]. simpl in Hw. apply andb_true_iff in Hw as [Hc Hw].
  destruct (bare_not_quote c Hc) as [H1 H2]. str_simpl.
  pose proof (scan_bare (String c "") w rest Hw Hb) as Hs. unfold scan_from in *. cbn [sql_run sql_step].
  unfold step_idle. rewrite !decide_False, Hc by done. destruct (sql_run _ _). by rewrite app_nil_l, Hs.
Qed.

Lemma scan_quoted_body ident v acc rest :
  bnd rest →
  scan_from (Quoted ident acc)
    (replace_byte (quote_of ident) (String (quote_of ident) (String (quote_of ident) "")) v
     +:+ String (quote_of ident) rest)
  = quoted_tok ident (acc +:+ v) :: scan_from Idle rest.
Proof.
  intros Hb. revert acc. induction v as [|c v IH]; intros acc; cbn [replace_byte].
  - rewrite str_app_nil_l, str_app_nil_r, <-(scan_closing ident acc rest Hb).
    unfold scan_from. cbn [sql_run sql_step]. rewrite decide_True by done. by destruct (sql_run _ rest).
  - specialize (IH (snoc acc c)). unfold snoc in IH. rewrite str_app_assoc, str_app_cons, str_app_nil_l in IH.
    rewrite <-IH. unfold scan_from. destruct (decide (c = quote_of ident)) as [->|Hq]; rewrite !str_app_cons.
    + cbn [sql_run sql_step]. rewrite decide_True by done. cbn [sql_step]. rewrite decide_True by done.
      rewrite str_app_nil_l. unfold snoc. by destruct (sql_run _ _).
    + cbn [sql_run sql_step]. rewrite decide_False by done. unfold snoc. rewrite ?str_app_nil_l.
      by destruct (sql_run _ _).
Qed.

Lemma emits_quoted ident v : emits (quote_with (quote_of ident) v) [quoted_tok ident v].
Proof.
  intros rest Hb. pose proof (scan_quoted_body ident v "" rest Hb) as H.
  unfold quote_with. rewrite str_app_cons, str_app_assoc, str_app_cons, !str_app_nil_l in *.
  cbn [app]. rewrite <-H. unfold scan_from. cbn [sql_run sql_step]. unfold step_idle.
  destruct ident; cbn [quote_of]; [rewrite decide_True by done|rewrite decide_False, decide_True by done];
    by destruct (sql_run _ _).
Qed.
Lemma emits_ident v : emits (quote_ident v) [SIdent v].
Proof. apply (emits_quoted true). Qed.
Lemma emits_literal v : emits (quote_literal v) [SStr v].
Proof. apply (emits_quoted false). Qed.

(** Scan the known text in front, then the sub-expressions that emit. *)
Ltac scan_static_step :=
  match goal with
  | |- context [scan_from ?st (?p +:+ ?rest)] =>
      let r := eval vm_compute in (sql_run st p) in
      lazymatch r with
      | (?ts, Idle) => rewrite (scan_static st p ts Idle rest eq_refl)
      | (?ts, Bare ?acc) => rewrite (scan_static st p ts (Bare acc) rest eq_refl)
      end
  end.
Ltac scan_tac :=
  repeat (rewrite ?str_app_assoc;
    first [ scan_static_step
          | match goal with H : emits ?s _ |- context [scan_from Idle (?s +:+ _)] => rewrite H by done end ]);
  repeat progress (simpl; rewrite <-?app_assoc); try done.

Lemma emits_join ss tss : Forall2 emits ss tss → emits (join ", " ss) (comma_toks tss).
Proof.
  induction 1 as [|s ts ss tss Hs Hss IH]; intros rest Hb; [done|].
  destruct Hss as [|s2 ts2 ss tss Hs2 Hss]; [by apply Hs|].
  change (join ", " (s :: s2 :: ss)) with (s +:+ ", " +:+ join ", " (s2 :: ss)).
  change (comma_toks (ts :: ts2 :: tss)) with (ts ++ SSym "," :: comma_toks (ts2 :: tss)).
  rewrite !str_app_assoc, Hs by done.
  rewrite (scan_static Idle ", " [SSym ","] Idle _ eq_refl), (IH rest Hb).
  simpl. by rewrite <-app_assoc.
Qed.

(** ** Balance *)

(** The nesting depth after reading the tokens; [None] once a bracket closes one
    that was not opened here. *)
Fixpoint nesting (d : nat) (ts : list STok) : option nat :=
  match ts with
  | [] => Some d
  | SSym c :: ts =>
      if decide (c = "("%char ∨ c = "["%char) then nesting (S d) ts
      else if decide (c = ")"%char ∨ c = "]"%char) then match d with 0 => None | S d => nesting d ts end
      else nesting d ts
  | _ :: ts => nesting d ts
  end.

Definition balanced (ts : list STok) : Prop := ∀ d, nesting d ts = Some d.

Lemma nesting_app d ts1 ts2 : nesting d (ts1 ++ ts2) = match nesting d ts1 with Some d => nesting d ts2 | None => None end.
Proof.
  revert d. induction ts1 as [|t ts1 IH]; intros d; simpl; [done|].
  destruct t; auto. repeat case_decide; auto. by destruct d.
Qed.
Lemma balanced_app ts1 ts2 : balanced ts1 → balanced ts2 → balanced (ts1 ++ ts2).
Proof. intros H1 H2 d. by rewrite nesting_app, H1, H2. Qed.
Lemma balanced_paren ts : balanced ts → balanced (paren ts).
Proof. intros H d. unfold paren. simpl. by rewrite nesting_app, H. Qed.
Lemma balanced_cons t ts : balanced [t] → balanced ts → balanced (t :: ts).
Proof. apply (balanced_app [t]). Qed.
Lemma balanced_comma tss : Forall balanced tss → balanced (comma_toks tss).
Proof.
  induction 1 as [|ts tss Hts H IH]; [done|]. destruct H as [|ts2 tss]; [done|].
  change (comma_toks (ts :: ts2 :: tss)) with (ts ++ SSym "," :: comma_toks (ts2 :: tss)).
  apply balanced_app; [done|]. by apply balanced_cons.
Qed.
