(* ===== verification/RuleAst.v ===== *)
(** * The rule syntax tree (core/src/rules/ast.rs)

    The closed expression language apps write checks and index predicates in:
    the tree, its operators and functions, and the fields a tree reads. *)

From stdpp Require Import base numbers strings sets list.
From S2P Require Import Prelude Str.

Inductive LiteralType := LDate | LTimestamp | LUuid.

Inductive IntervalUnit := Days | Hours | Minutes | Seconds.

Inductive BinOp := Or | And | Eq | Ne | Lt | Le | Gt | Ge | Match | Add | Sub | Mul.

Inductive Func :=
| Length | Btrim | Upper | Lower | Coalesce | Scale | Trunc | Abs | JsonbTypeof | JsonbArrayLength.

Inductive Expr :=
| EField (name : string)
| EText (value : string)
| ENumber (value : string)
| EBool (value : bool)
| ETyped (ty : LiteralType) (value : string)
| EInterval (amount : N) (unit : IntervalUnit)
| ENot (e : Expr)
| ENeg (e : Expr)
| EBinary (op : BinOp) (l r : Expr)
| EIsNull (e : Expr) (negated : bool)
| EBetween (e lo hi : Expr) (negated : bool)
| EIn (e : Expr) (list_ : list Expr) (negated : bool)
| ECall (func : Func) (args : list Expr)
| EArrayWithin (field : string) (values : list string)
| EFinite (e : Expr) (numeric : bool).

#[export] Instance LiteralType_eq_dec : EqDecision LiteralType.
Proof. solve_decision. Defined.
#[export] Instance IntervalUnit_eq_dec : EqDecision IntervalUnit.
Proof. solve_decision. Defined.
#[export] Instance BinOp_eq_dec : EqDecision BinOp.
Proof. solve_decision. Defined.
#[export] Instance Func_eq_dec : EqDecision Func.
Proof. solve_decision. Defined.

Definition unit_as_str (u : IntervalUnit) : string :=
  match u with Days => "days" | Hours => "hours" | Minutes => "minutes" | Seconds => "seconds" end.

Definition op_sql (op : BinOp) : string :=
  match op with
  | Or => "OR" | And => "AND" | Eq => "=" | Ne => "<>" | Lt => "<" | Le => "<="
  | Gt => ">" | Ge => ">=" | Match => "~" | Add => "+" | Sub => "-" | Mul => "*"
  end.

Definition is_comparison (op : BinOp) : bool :=
  match op with Eq | Ne | Lt | Le | Gt | Ge => true | _ => false end.

Definition FUNC_NAMES : string :=
  "length, btrim, trim, upper, lower, coalesce, scale, trunc, abs, jsonb_typeof, jsonb_array_length".

Definition func_from_name (name : string) : option Func :=
  if decide (name = "length") then Some Length
  else if decide (name = "btrim" ∨ name = "trim") then Some Btrim
  else if decide (name = "upper") then Some Upper
  else if decide (name = "lower") then Some Lower
  else if decide (name = "coalesce") then Some Coalesce
  else if decide (name = "scale") then Some Scale
  else if decide (name = "trunc") then Some Trunc
  else if decide (name = "abs") then Some Abs
  else if decide (name = "jsonb_typeof") then Some JsonbTypeof
  else if decide (name = "jsonb_array_length") then Some JsonbArrayLength
  else None.

Definition func_sql_name (f : Func) : string :=
  match f with
  | Length => "length" | Btrim => "btrim" | Upper => "upper" | Lower => "lower"
  | Coalesce => "coalesce" | Scale => "scale" | Trunc => "trunc" | Abs => "abs"
  | JsonbTypeof => "jsonb_typeof" | JsonbArrayLength => "jsonb_array_length"
  end.

Definition func_arity (f : Func) : nat := match f with Coalesce => 2 | _ => 1 end.

(** [Expr::fields]: push every field the tree reads, once, in reading order. *)
Fixpoint expr_fields (e : Expr) (out : list string) : list string :=
  let push name := if decide (name ∈ out) then out else out ++ [name] in
  match e with
  | EField name => push name
  | EArrayWithin field _ => push field
  | EText _ | ENumber _ | EBool _ | ETyped _ _ | EInterval _ _ => out
  | ENot e | ENeg e | EIsNull e _ | EFinite e _ => expr_fields e out
  | EBinary _ l r => expr_fields r (expr_fields l out)
  | EBetween e lo hi _ => expr_fields hi (expr_fields lo (expr_fields e out))
  | EIn e items _ => fold_left (λ out item, expr_fields item out) items (expr_fields e out)
  | ECall _ args => fold_left (λ out arg, expr_fields arg out) args out
  end.

(** ** Induction over trees with lists of children *)

Section ExprInd.
Variable P : Expr → Prop.
Hypothesis HField : ∀ n, P (EField n).
Hypothesis HText : ∀ v, P (EText v).
Hypothesis HNumber : ∀ v, P (ENumber v).
Hypothesis HBool : ∀ b, P (EBool b).
Hypothesis HTyped : ∀ t v, P (ETyped t v).
Hypothesis HInterval : ∀ a u, P (EInterval a u).
Hypothesis HNot : ∀ e, P e → P (ENot e).
Hypothesis HNeg : ∀ e, P e → P (ENeg e).
Hypothesis HBinary : ∀ op l r, P l → P r → P (EBinary op l r).
Hypothesis HIsNull : ∀ e n, P e → P (EIsNull e n).
Hypothesis HBetween : ∀ e lo hi n, P e → P lo → P hi → P (EBetween e lo hi n).
Hypothesis HIn : ∀ e l n, P e → Forall P l → P (EIn e l n).
Hypothesis HCall : ∀ f args, Forall P args → P (ECall f args).
Hypothesis HArray : ∀ f vs, P (EArrayWithin f vs).
Hypothesis HFinite : ∀ e n, P e → P (EFinite e n).

Fixpoint Expr_nested_ind (e : Expr) : P e :=
  let fix all (l : list Expr) : Forall P l :=
    match l with
    | [] => Forall_nil_2 P
    | x :: l => Forall_cons_2 P x l (Expr_nested_ind x) (all l)
    end in
  match e with
  | EField n => HField n
  | EText v => HText v
  | ENumber v => HNumber v
  | EBool b => HBool b
  | ETyped t v => HTyped t v
  | EInterval a u => HInterval a u
  | ENot e => HNot e (Expr_nested_ind e)
  | ENeg e => HNeg e (Expr_nested_ind e)
  | EBinary op l r => HBinary op l r (Expr_nested_ind l) (Expr_nested_ind r)
  | EIsNull e n => HIsNull e n (Expr_nested_ind e)
  | EBetween e lo hi n => HBetween e lo hi n (Expr_nested_ind e) (Expr_nested_ind lo) (Expr_nested_ind hi)
  | EIn e l n => HIn e l n (Expr_nested_ind e) (all l)
  | ECall f args => HCall f args (all args)
  | EArrayWithin f vs => HArray f vs
  | EFinite e n => HFinite e n (Expr_nested_ind e)
  end.
End ExprInd.

(** The fields a tree reads, as a relation. *)
Fixpoint mentions (e : Expr) (x : string) : Prop :=
  match e with
  | EField name => x = name
  | EArrayWithin field _ => x = field
  | EText _ | ENumber _ | EBool _ | ETyped _ _ | EInterval _ _ => False
  | ENot e | ENeg e | EIsNull e _ | EFinite e _ => mentions e x
  | EBinary _ l r => mentions l x ∨ mentions r x
  | EBetween e lo hi _ => mentions e x ∨ mentions lo x ∨ mentions hi x
  | EIn e items _ => mentions e x ∨ foldr (λ item acc, mentions item x ∨ acc) False items
  | ECall _ args => foldr (λ arg acc, mentions arg x ∨ acc) False args
  end.

Lemma foldr_mentions l x :
  foldr (λ a acc, mentions a x ∨ acc) False l ↔ ∃ a, a ∈ l ∧ mentions a x.
Proof. induction l; simpl; set_solver. Qed.

Lemma fields_fold items x :
  Forall (λ e, ∀ out, x ∈ expr_fields e out ↔ x ∈ out ∨ mentions e x) items →
  ∀ out, x ∈ fold_left (λ out item, expr_fields item out) items out ↔
    x ∈ out ∨ foldr (λ a acc, mentions a x ∨ acc) False items.
Proof.
  induction 1 as [|e l He Hl IH]; intros out; simpl; [tauto|]. rewrite IH, He. tauto.
Qed.

Lemma elem_of_expr_fields e out x : x ∈ expr_fields e out ↔ x ∈ out ∨ mentions e x.
Proof.
  revert out. induction e using Expr_nested_ind; intros out; simpl; try tauto; try (by rewrite IHe).
  all: try (case_decide; set_solver).
  - rewrite IHe2, IHe1. tauto.
  - rewrite IHe3, IHe2, IHe1. tauto.
  - rewrite (fields_fold _ _ H), IHe. tauto.
  - by apply fields_fold.
Qed.

Lemma fields_nodup_fold items :
  Forall (λ e, ∀ out, NoDup out → NoDup (expr_fields e out)) items →
  ∀ out, NoDup out → NoDup (fold_left (λ out item, expr_fields item out) items out).
Proof. induction 1; intros out Hout; simpl; eauto. Qed.

Lemma NoDup_expr_fields e out : NoDup out → NoDup (expr_fields e out).
Proof.
  revert out. induction e using Expr_nested_ind; intros out Hout; simpl; eauto using fields_nodup_fold.
  all: case_decide; [done|]; apply NoDup_app; split_and!; [done|set_solver|apply NoDup_singleton].
Qed.

(** The number of nodes of a tree. *)
Fixpoint expr_size (e : Expr) : nat :=
  match e with
  | ENot e | ENeg e | EIsNull e _ | EFinite e _ => S (expr_size e)
  | EBinary _ l r => S (expr_size l + expr_size r)
  | EBetween e lo hi _ => S (expr_size e + expr_size lo + expr_size hi)
  | EIn e items _ => S (expr_size e + sum_list_with expr_size items)
  | ECall _ args => S (sum_list_with expr_size args)
  | _ => 1
  end.
