(* ===== verification/RuleLexer.v ===== *)
(** * The rule lexer (core/src/rules/parser.rs, [Lexer])

    The lexer keeps the source text and a byte position; here the position is
    carried with the suffix it points at.  A refusal carries its line and
    column.  Tokens are read ahead until the end or the first bad one, which is
    kept as a token, as in the source. *)

From stdpp Require Import base numbers pretty strings sets list.
From S2P Require Import Prelude Str Ident RuleAst.

Definition MAX_SOURCE_BYTES : nat := 2048.
Definition MAX_DEPTH : nat := 24.
Definition MAX_NODES : nat := 256.
Definition MAX_IN_ITEMS : nat := 100.
Definition MAX_STRING_BYTES : nat := 256.

Record SyntaxError := { err_line : nat; err_column : nat; err_message : string }.

Inductive Kw := KAnd | KOr | KNot | KIs | KNull | KTrue | KFalse | KBetween | KIn | KInterval.

Inductive Tok :=
| TIdent (name : string)
| TKw (kw : Kw)
| TNumber (n : string)
| TStr (s : string)
| TOp (op : BinOp)
| TMinus
| TLParen
| TRParen
| TComma
| TEof
| TBad (error : SyntaxError).

#[export] Instance SyntaxError_eq_dec : EqDecision SyntaxError.
Proof. solve_decision. Defined.
#[export] Instance Kw_eq_dec : EqDecision Kw.
Proof. solve_decision. Defined.
#[export] Instance Tok_eq_dec : EqDecision Tok.
Proof. solve_decision. Defined.

Definition quoted (s : string) : string := "'" +:+ s +:+ "'".

Definition describe (t : Tok) : string :=
  match t with
  | TIdent name => quoted name
  | TKw KAnd => "AND" | TKw KOr => "OR" | TKw KNot => "NOT" | TKw KIs => "IS"
  | TKw KNull => "NULL" | TKw KTrue => "TRUE" | TKw KFalse => "FALSE"
  | TKw KBetween => "BETWEEN" | TKw KIn => "IN" | TKw KInterval => "INTERVAL"
  | TNumber n => n
  | TStr _ => "a string"
  | TOp op => quoted (op_sql op)
  | TMinus => "'-'"
  | TLParen => "'('"
  | TRParen => "')'"
  | TComma => "','"
  | TEof => "end of rule"
  | TBad error => err_message error
  end.

Definition OP_CHARS : string := "+-*/<>=~!@#%^&|`?".
Definition is_op_char (c : ascii) : bool := str_mem c OP_CHARS.

Definition keyword (word : string) : option Kw :=
  let w := to_ascii_lowercase word in
  if decide (w = "and") then Some KAnd
  else if decide (w = "or") then Some KOr
  else if decide (w = "not") then Some KNot
  else if decide (w = "is") then Some KIs
  else if decide (w = "null") then Some KNull
  else if decide (w = "true") then Some KTrue
  else if decide (w = "false") then Some KFalse
  else if decide (w = "between") then Some KBetween
  else if decide (w = "in") then Some KIn
  else if decide (w = "interval") then Some KInterval
  else None.

Definition RESERVED : list string :=
  [ "all"; "any"; "array"; "asymmetric"; "both"; "case"; "cast"; "collate"; "current_date";
    "current_role"; "current_time"; "current_timestamp"; "current_user"; "distinct"; "else";
    "end"; "exists"; "extract"; "from"; "ilike"; "isnull"; "leading"; "like"; "localtime";
    "localtimestamp"; "notnull"; "overlaps"; "row"; "select"; "session_user"; "similar"; "some";
    "symmetric"; "then"; "trailing"; "unknown"; "user"; "values"; "when"; "where" ].

Definition NEWLINE : ascii := "010".
Definition NUL : ascii := "000".

(** [Lexer::error]: the line and column of byte [at], both from one. *)
Definition lex_error (src : string) (at_ : nat) (message : string) : SyntaxError :=
  let before := str_take at_ src in
  let lines := split_byte NEWLINE before in
  {| err_line := (length lines - 1) + 1;
     err_column := chars_count (List.last lines "") + 1;
     err_message := message |}.

Definition is_lex_space (c : ascii) : bool :=
  bool_decide (c = " "%char) || bool_decide (c = "009"%char)
  || bool_decide (c = NEWLINE) || bool_decide (c = "013"%char).
Definition is_word_start (c : ascii) : bool :=
  is_ascii_lowercase c || is_ascii_uppercase c || bool_decide (c = "_"%char).
Definition is_quote (c : ascii) : bool := bool_decide (c = QUOTE).
Definition is_dollar (c : ascii) : bool := bool_decide (c = "$"%char).

(** The outcome of one lexing routine: the value, the new position and what is
    left of the text. *)
Notation lexed A := (result SyntaxError (A * nat * string)).

(** The loop of [Lexer::string], from byte [i] on. *)
Fixpoint string_body (src : string) (start i : nat) (rest : string) : lexed string :=
  match rest with
  | "" => Err (lex_error src start "unterminated string literal")
  | String c tail =>
      if is_quote c then
        match tail with
        | String d tail' =>
            if is_quote d then
              let? '(v, i, r) := string_body src start (i + 2) tail' in Ok (String QUOTE v, i, r)
            else Ok ("", i + 1, tail)
        | "" => Ok ("", i + 1, "")
        end
      else if bool_decide (c = NUL) then Err (lex_error src i "NUL is not allowed in a string literal")
      else let? '(v, i, r) := string_body src start (i + 1) tail in Ok (String c v, i, r)
  end.

Definition lex_string (src : string) (start : nat) (tail : string) : lexed string :=
  let? '(value, pos, rest) := string_body src start (start + 1) tail in
  if MAX_STRING_BYTES <? String.length value
  then Err (lex_error src start ("string literals are limited to " +:+ pretty MAX_STRING_BYTES +:+ " bytes"))
  else Ok (value, pos, rest).

Definition number_message : string :=
  "write numbers as digits with an optional fraction, like 12 or 0.5".

Definition lex_number (src : string) (start : nat) (text : string) : lexed string :=
  let '(whole, rest) := str_span is_ascii_digit text in
  let? '(value, rest) :=
    (match rest with
     | String c tail =>
         if is_dot c then
           let '(fraction, rest') := str_span is_ascii_digit tail in
           if decide (fraction = "") then Err (lex_error src start number_message)
           else Ok (whole +:+ String "." fraction, rest')
         else Ok (whole, rest)
     | "" => Ok (whole, rest)
     end : result SyntaxError (string * string)) in
  if next_is (λ b, is_word_byte b || is_dot b) rest
  then Err (lex_error src start number_message)
  else if 40 <? String.length value
  then Err (lex_error src start "numeric literals are limited to 40 characters")
  else Ok (value, start + String.length value, rest).

Definition lex_word (src : string) (start : nat) (text : string) : lexed Tok :=
  let '(word, rest) := str_span is_word_byte text in
  let end_ := start + String.length word in
  if next_is is_dollar rest then Err (lex_error src end_ "'$' is not allowed in names")
  else match keyword word with
  | Some kw =>
      if next_is is_quote rest && negb (bool_decide (kw = KInterval))
      then Err (lex_error src start "prefixed string literals are not allowed")
      else Ok (TKw kw, end_, rest)
  | None =>
      if next_is is_quote rest
      then Err (lex_error src start "prefixed string literals are not allowed")
      else if bool_decide (to_ascii_lowercase word ∈ RESERVED)
      then Err (lex_error src start (quoted word +:+ " is not part of the rule language"))
      else Ok (TIdent word, end_, rest)
  end.

Definition is_sign (c : ascii) : bool := bool_decide (c = "+"%char) || bool_decide (c = "-"%char).

(** [while len > 1 && matches!(bytes[start + len - 1], b'+' | b'-') { len -= 1 }] *)
Fixpoint trim_len (run : string) (len : nat) : nat :=
  match len with
  | S (S _ as n) =>
      match byte_at run n with
      | Some b => if is_sign b then trim_len run n else len
      | None => len
      end
  | _ => len
  end.

Definition lex_operator (src : string) (start : nat) (text : string) : lexed Tok :=
  let '(run, _) := str_span is_op_char text in
  if str_contains "--" run || str_contains "/*" run
  then Err (lex_error src start "comments are not allowed")
  else
  let len :=
    if (1 <? String.length run) && (ends_with "+" run || ends_with "-" run)
       && str_forall (λ c, negb (str_mem c "~!@#^&|`?%")) run
    then trim_len run (String.length run) else String.length run in
  let op := str_take len run in
  let done t : lexed Tok := Ok (t, start + len, str_drop len text) in
  if decide (op = "=") then done (TOp Eq)
  else if decide (op = "<>" ∨ op = "!=") then done (TOp Ne)
  else if decide (op = "<") then done (TOp Lt)
  else if decide (op = "<=") then done (TOp Le)
  else if decide (op = ">") then done (TOp Gt)
  else if decide (op = ">=") then done (TOp Ge)
  else if decide (op = "~") then done (TOp Match)
  else if decide (op = "+") then done (TOp Add)
  else if decide (op = "-") then done TMinus
  else if decide (op = "*") then done (TOp Mul)
  else Err (lex_error src start ("operator " +:+ quoted op +:+
         " is not allowed; allowed: = <> != < <= > >= + - * ~")).

(** [Lexer::next]: the token, the byte it starts at, the new position and the
    text that is left. *)
Definition lex_next (src : string) (pos : nat) (text : string) : result SyntaxError (Tok * nat * nat * string) :=
  let '(blank, text) := str_span is_lex_space text in
  let start := pos + String.length blank in
  match text with
  | "" => Ok (TEof, start, start, "")
  | String c tail =>
      let one t : lexed Tok := Ok (t, start + 1, tail) in
      let not_allowed : lexed Tok := Err (lex_error src start (quoted (String c "") +:+ " is not allowed")) in
      let? '(tok, pos, rest) :=
        (if negb (is_ascii c) then Err (lex_error src start "only ASCII is allowed outside string literals")
         else if decide (c = "("%char) then one TLParen
         else if decide (c = ")"%char) then one TRParen
         else if decide (c = ","%char) then one TComma
         else if is_quote c then
           let? '(v, pos, rest) := lex_string src start tail in Ok (TStr v, pos, rest)
         else if decide (c = DQUOTE) then
           Err (lex_error src start "quoted identifiers are not allowed; use the field name")
         else if is_dollar c then
           Err (lex_error src start "'$' is not allowed (no parameters or dollar quoting)")
         else if decide (c = ":"%char) then
           Err (lex_error src start "casts are not allowed; Core types literals itself")
         else if is_dot c then Err (lex_error src start "qualified names and '.' are not allowed")
         else if str_mem c ";[]{}\" then not_allowed
         else if is_ascii_digit c then
           let? '(v, pos, rest) := lex_number src start text in Ok (TNumber v, pos, rest)
         else if is_word_start c then lex_word src start text
         else if is_op_char c then lex_operator src start text
         else not_allowed : lexed Tok) in
      Ok (tok, start, pos, rest)
  end.

Definition is_last (t : Tok) : bool := match t with TEof | TBad _ => true | _ => false end.

(** [Lexer::tokens].  One step of fuel reads one token. *)
Fixpoint lex_tokens (fuel : nat) (src : string) (pos : nat) (text : string) : option (list (Tok * nat)) :=
  match fuel with
  | 0 => None
  | S fuel =>
      match lex_next src pos text with
      | Err error => Some [(TBad error, String.length src)]
      | Ok (tok, at_, pos, rest) =>
          if is_last tok then Some [(tok, at_)]
          else match lex_tokens fuel src pos rest with
               | Some l => Some ((tok, at_) :: l)
               | None => None
               end
      end
  end.

Definition tokens (src : string) : option (list (Tok * nat)) :=
  lex_tokens (S (String.length src)) src 0 src.

(** ** What a token holds *)

(** Digits, with an optional fraction. *)
Definition number_shape (n : string) : Prop :=
  ∃ whole fraction, whole ≠ "" ∧ str_forall is_ascii_digit whole = true
    ∧ str_forall is_ascii_digit fraction = true
    ∧ (n = whole ∧ fraction = "" ∨ n = whole +:+ String "." fraction ∧ fraction ≠ "").

(** The bytes of a number: digits and dots, and at least one. *)
Definition bare_number (n : string) : bool :=
  negb (bool_decide (n = "")) && str_forall (λ c, is_ascii_digit c || is_dot c) n.

Lemma str_forall_impl (f g : ascii → bool) s :
  (∀ c, f c = true → g c = true) → str_forall f s = true → str_forall g s = true.
Proof. intros H. induction s; simpl; [done|]. rewrite !andb_true_iff. naive_solver. Qed.

Lemma number_shape_bare n : number_shape n → bare_number n = true.
Proof.
  intros (w & f & Hw & Hdw & Hdf & Hn).
  assert (∀ s, str_forall is_ascii_digit s = true →
    str_forall (λ c, is_ascii_digit c || is_dot c) s = true) as Hd.
  { intros s. apply str_forall_impl. by intros c ->. }
  unfold bare_number. apply andb_true_iff. destruct Hn as [[-> ->]|[-> Hf]].
  - split; [by rewrite bool_decide_eq_false_2|auto].
  - split; [by rewrite bool_decide_eq_false_2; [|destruct w]|].
    rewrite str_forall_app. simpl. rewrite (Hd w Hdw), (Hd f Hdf). done.
Qed.

Definition tok_ok (t : Tok) : Prop :=
  match t with
  | TIdent w => w ≠ "" ∧ str_forall is_word_byte w = true ∧ keyword w = None
                ∧ to_ascii_lowercase w ∉ RESERVED
  | TNumber n => number_shape n ∧ String.length n ≤ 40
  | TStr s => str_mem NUL s = false ∧ String.length s ≤ MAX_STRING_BYTES
  | TOp op => op ∉ [Or; And; Sub]
  | _ => True
  end.

Lemma string_body_spec src start i rest v j r :
  string_body src start i rest = Ok (v, j, r) →
  String.length r < String.length rest ∧ str_mem NUL v = false ∧ next_is is_quote r = false.
Proof.
  assert (∀ n rest v i j r, String.length rest ≤ n →
    string_body src start i rest = Ok (v, j, r) →
    String.length r < String.length rest ∧ str_mem NUL v = false ∧ next_is is_quote r = false) as H.
  { clear. induction n as [|n IH]; intros [|c tail] v i j r Hn; simpl in *; try done; [lia|].
    unfold is_quote at 1. case_bool_decide as Hc.
    - destruct tail as [|d tail']; simpl in *; [intros [= <- <- <-]; simpl; split_and!; auto; lia|].
      destruct (is_quote d) eqn:Hd.
      + intros Hok. inv_ok. destruct a as [[v' i'] r']. simplify_eq/=.
        destruct (IH tail' v' (i + 2) j r) as (? & ? & ?); [lia|done|].
        simpl. split_and!; auto; lia.
      + intros [= <- <- <-]. simpl. split_and!; auto; lia.
    - case_bool_decide as Hz; [done|].
      intros Hok. inv_ok. destruct a as [[v' i'] r']. simplify_eq/=.
      destruct (IH tail v' (i + 1) j r) as (? & ? & ?); [lia|done|].
      cbn [str_mem]. rewrite (bool_decide_false (c = NUL)) by done. split_and!; auto; lia. }
  by eapply H.
Qed.

Lemma lex_string_spec src start tail v j r :
  lex_string src start tail = Ok (v, j, r) →
  String.length r < String.length tail ∧ tok_ok (TStr v).
Proof.
  unfold lex_string. intros H. inv_ok. destruct a as [[v' i'] r'].
  apply string_body_spec in Hok as (? & ? & ?).
  destruct (Nat.ltb_spec MAX_STRING_BYTES (String.length v')); [done|].
  injection Hk as <- <- <-. done.
Qed.

Lemma digit_start c tail whole rest :
  is_ascii_digit c = true → str_span is_ascii_digit (String c tail) = (whole, rest) → whole ≠ "".
Proof. simpl. intros ->. destruct (str_span _ tail). by intros [= <- <-]. Qed.

Lemma lex_number_spec src start c tail v j r :
  is_ascii_digit c = true →
  lex_number src start (String c tail) = Ok (v, j, r) →
  String c tail = v +:+ r ∧ tok_ok (TNumber v) ∧ v ≠ "".
Proof.
  intros Hc. unfold lex_number.
  destruct (str_span is_ascii_digit (String c tail)) as [whole rest] eqn:Hs.
  pose proof (digit_start _ _ _ _ Hc Hs) as Hne.
  apply str_span_spec in Hs as (-> & Hw & _). intros H. inv_ok. destruct a as [value rest'].
  assert (whole +:+ rest = value +:+ rest' ∧ number_shape value ∧ value ≠ "") as (-> & Hshape & Hv).
  { destruct rest as [|d rest]; [|destruct (is_dot d) eqn:Hd].
    - injection Hok as <- <-. split_and!; [done| |done]. exists whole, "". split_and!; auto.
    - apply bool_decide_eq_true_1 in Hd as ->.
      destruct (str_span is_ascii_digit rest) as [fraction rest''] eqn:Hf.
      apply str_span_spec in Hf as (-> & Hf & _). case_decide; [done|]. injection Hok as <- <-.
      split_and!; [by str_simpl| |by destruct whole].
      exists whole, fraction. split_and!; auto.
    - injection Hok as <- <-. split_and!; [done| |done]. exists whole, "". split_and!; auto. }
  clear Hok Hne Hw. case_match; [done|].
  destruct (Nat.ltb_spec 40 (String.length value)); [done|]. injection Hk as <- <- <-. done.
Qed.

Lemma lex_word_spec src start c tail t j r :
  is_word_start c = true →
  lex_word src start (String c tail) = Ok (t, j, r) →
  String.length r < String.length (String c tail) ∧ tok_ok t ∧ is_last t = false.
Proof.
  intros Hc. unfold lex_word.
  destruct (str_span is_word_byte (String c tail)) as [word rest] eqn:Hs.
  assert (word ≠ "") as Hne.
  { revert Hs. simpl. replace (is_word_byte c) with true; [|symmetry].
    - destruct (str_span _ tail). by intros [= <- <-].
    - revert Hc. unfold is_word_start, is_word_byte, is_ascii_alphanumeric,
        is_ascii_lowercase, is_ascii_uppercase.
      destruct (byte_between 97 122 c), (byte_between 65 90 c), (is_ascii_digit c),
        (bool_decide (c = "_"%char)); simpl; done. }
  apply str_span_spec in Hs as (-> & Hw & _).
  assert (String.length rest < String.length (word +:+ rest)) as Hlen.
  { str_simpl. destruct word; [done|simpl; lia]. }
  destruct (next_is is_dollar rest); [done|]. destruct (keyword word) as [kw|] eqn:Hk.
  - destruct (_ && _); [done|]. by intros [= <- <- <-].
  - destruct (next_is is_quote rest); [done|]. case_bool_decide; [done|]. by intros [= <- <- <-].
Qed.

Lemma trim_len_pos run len : 0 < len → 0 < trim_len run len ≤ len.
Proof.
  induction len as [|[|n] IH]; simpl in *; [lia|lia|]. intros _.
  destruct (byte_at run (S n)) as [b|]; [|lia]. destruct (is_sign b); [|lia].
  specialize (IH ltac:(lia)). lia.
Qed.

Lemma lex_operator_spec src start c tail t j r :
  is_op_char c = true →
  lex_operator src start (String c tail) = Ok (t, j, r) →
  String.length r < String.length (String c tail) ∧ tok_ok t ∧ is_last t = false.
Proof.
  intros Hc. unfold lex_operator.
  destruct (str_span is_op_char (String c tail)) as [run rest] eqn:Hs.
  assert (0 < String.length run) as Hpos.
  { revert Hs. cbn [str_span]. rewrite Hc. destruct (str_span _ tail).
    intros [= <- <-]. simpl. lia. }
  apply str_span_spec in Hs as (Htext & _ & _). rewrite Htext.
  destruct (_ || _); [done|].
  match goal with |- context [str_take ?l _] => set (len := l) end.
  assert (0 < len) as Hlen.
  { subst len. destruct (_ && _); [|done]. by apply trim_len_pos. }
  assert (String.length (str_drop len (run +:+ rest)) < String.length (run +:+ rest)).
  { rewrite str_length_drop. str_simpl. lia. }
  clearbody len.
  repeat (case_decide; [intros [= <- <- <-]; split_and!; [done| |done]; simpl; set_solver|]). done.
Qed.

(** Every token but the last leaves less text than it found. *)
Lemma lex_next_spec src pos text t at_ pos' rest :
  lex_next src pos text = Ok (t, at_, pos', rest) →
  tok_ok t ∧ (is_last t = false → String.length rest < String.length text).
Proof.
  unfold lex_next. destruct (str_span is_lex_space text) as [blank text'] eqn:Hs.
  apply str_span_spec in Hs as (-> & _ & _). rewrite str_length_app.
  destruct text' as [|c tail]; [by intros [= <- <- <- <-]|]. intros H. inv_ok.
  destruct a as [[tok p] r]. injection Hk as -> <- -> ->.
  assert (tok_ok t ∧ String.length rest < String.length (String c tail)); [|split; [tauto|lia]].
  destruct (negb (is_ascii c)); [done|].
  do 3 (case_decide; [injection Hok as <- <- <-; simpl; split; [done|lia]|]).
  destruct (is_quote c).
  { inv_ok. destruct a as [[v p'] r']. injection Hk as <- <- <-.
    apply lex_string_spec in Hok0 as [? ?]. simpl. split; [done|lia]. }
  case_decide; [done|]. destruct (is_dollar c); [done|]. case_decide; [done|].
  destruct (is_dot c); [done|]. destruct (str_mem c _); [done|].
  destruct (is_ascii_digit c) eqn:Hdig.
  { inv_ok. destruct a as [[v p'] r']. injection Hk as <- <- <-.
    apply lex_number_spec in Hok0 as (-> & ? & Hv); [|done]. split; [done|].
    str_simpl. destruct v; [done|simpl; lia]. }
  destruct (is_word_start c) eqn:Hw; [by apply lex_word_spec in Hok as (? & ? & _)|].
  destruct (is_op_char c) eqn:Ho; [by apply lex_operator_spec in Hok as (? & ? & _)|done].
Qed.

(** The token lists the parser works on: non-empty, ended by the one [TEof] or
    [TBad] token they hold. *)
Inductive tokens_ok : list (Tok * nat) → Prop :=
| tokens_ok_last t at_ : is_last t = true → tokens_ok [(t, at_)]
| tokens_ok_cons t at_ l : is_last t = false → tok_ok t → tokens_ok l → tokens_ok ((t, at_) :: l).

Lemma lex_tokens_total fuel src pos text :
  String.length text < fuel →
  ∃ l, lex_tokens fuel src pos text = Some l ∧ tokens_ok l ∧ length l ≤ S (String.length text).
Proof.
  revert pos text. induction fuel as [|fuel IH]; intros pos text Hf; [lia|]. simpl.
  destruct (lex_next src pos text) as [[[[t at_] pos'] rest]|e] eqn:Hn.
  - apply lex_next_spec in Hn as [Ht Hr]. destruct (is_last t) eqn:Hl.
    + eexists. split_and!; [done|by constructor|simpl; lia].
    + specialize (Hr eq_refl). destruct (IH pos' rest) as (l & -> & Hl' & ?); [lia|].
      eexists. split_and!; [done|by constructor|simpl; lia].
  - eexists. split_and!; [done|by constructor|simpl; lia].
Qed.

Lemma tokens_total src :
  ∃ l, tokens src = Some l ∧ tokens_ok l ∧ length l ≤ S (String.length src).
Proof. apply lex_tokens_total. lia. Qed.

(** A quoted literal is read back by the loop of [Lexer::string]. *)
Lemma string_body_quote src start v i rest :
  str_mem NUL v = false → next_is is_quote rest = false →
  string_body src start i (replace_byte QUOTE (String QUOTE (String QUOTE "")) v +:+ String QUOTE rest)
  = Ok (v, i + String.length (replace_byte QUOTE (String QUOTE (String QUOTE "")) v) + 1, rest).
Proof.
  intros Hn Hr. revert i Hn. induction v as [|c v IH]; intros i Hn.
  - str_simpl. destruct rest as [|d rest]; simpl in *; [by rewrite Nat.add_0_r|].
    rewrite Hr. by rewrite Nat.add_0_r.
  - cbn [str_mem] in Hn. apply orb_false_iff in Hn as [Hc Hn]. cbn [replace_byte].
    destruct (decide (c = QUOTE)) as [->|Hq]; str_simpl.
    + rewrite (IH (i + 2) Hn). simpl. do 3 f_equal. lia.
    + unfold is_quote. rewrite (bool_decide_false (c = QUOTE)) by done.
      rewrite Hc, (IH (i + 1) Hn). simpl. do 3 f_equal. lia.
Qed.

(** Quoting a value as a literal and lexing it gives the value back as one
    string token, and leaves exactly the text that followed. *)
Theorem string_literal_roundtrip src pos v rest :
  str_mem NUL v = false → String.length v ≤ MAX_STRING_BYTES → next_is is_quote rest = false →
  lex_next src pos (quote_literal v +:+ rest)
  = Ok (TStr v, pos, pos + String.length (quote_literal v), rest).
Proof.
  intros Hn Hl Hr. unfold lex_next, quote_literal, quote_with. str_simpl.
  rewrite Nat.add_0_r. unfold lex_string.
  rewrite string_body_quote by done. simpl.
  destruct (Nat.ltb_spec MAX_STRING_BYTES (String.length v)); [lia|]. simpl. do 3 f_equal. lia.
Qed.

Lemma string_literal_roundtrip_witness :
  lex_next "x" 4 (quote_literal "it's" +:+ " and") = Ok (TStr "it's", 4, 11, " and").
Proof. apply (string_literal_roundtrip "x" 4 "it's" " and"); vm_compute; (reflexivity || lia). Defined.
