(* ===== verification/RuleParser.v ===== *)
(** * The rule parser (core/src/rules/parser.rs, [Parser])

    A recursive-descent parser over the token list.  Its state is the index of
    the next token, the nesting depth and the number of nodes built; an
    operation either succeeds with a new state, refuses with a located error,
    panics (an index out of range, an underflow), or runs out of the fuel that
    bounds the model.  [parse_total] shows the last two never happen, and
    [parse_sound] that an accepted text derives its tree in the grammar of
    PostgreSQL's precedence levels. *)

From stdpp Require Import base numbers pretty strings sets list.
From S2P Require Import Prelude Str Ident RuleAst RuleLexer.

(** ** The parsing monad *)

Record PState := { at_ : nat; depth : nat; nodes : nat }.

Inductive outcome (A : Type) : Type :=
| Done (a : A) (st : PState)
| Fail (e : SyntaxError)
| Panic
| OutOfFuel.
Arguments Done {A} a st.
Arguments Fail {A} e.
Arguments Panic {A}.
Arguments OutOfFuel {A}.

Definition P (A : Type) : Type := PState → outcome A.

Definition pret {A} (a : A) : P A := λ st, Done a st.
Definition pbind {A B} (m : P A) (k : A → P B) : P B := λ st,
  match m st with
  | Done a st => k a st
  | Fail e => Fail e
  | Panic => Panic
  | OutOfFuel => OutOfFuel
  end.

Declare Scope parser_scope.
Delimit Scope parser_scope with parser.
Notation "'let*' x := m 'in' k" := (pbind m (fun x => k))
  (at level 10, x name, m at level 100, k at level 200) : parser_scope.
Notation "'do*' m 'in' k" := (pbind m (fun _ => k))
  (at level 10, m at level 100, k at level 200) : parser_scope.
Open Scope parser_scope.

Definition get_at : P nat := λ st, Done (at_ st) st.
Definition set_at (n : nat) : P unit := λ st,
  Done tt {| at_ := n; depth := depth st; nodes := nodes st |}.

(** [self.at -= 1], which panics at zero. *)
Definition step_back : P unit := λ st,
  match at_ st with 0 => Panic | S n => set_at n st end.

(** [while let Some(a') = body(a)? { a = a' }] *)
Fixpoint ploop {A} (fuel : nat) (body : A → P (option A)) (a : A) : P A :=
  match fuel with
  | 0 => λ _, OutOfFuel
  | S fuel => let* o := body a in match o with None => pret a | Some a => ploop fuel body a end
  end.

(** ** Interval texts *)

Fixpoint digits_value (acc : N) (s : string) : option N :=
  match s with
  | "" => Some acc
  | String c s =>
      if is_ascii_digit c then digits_value (acc * 10 + (N_of_ascii c - 48))%N s else None
  end.

(** [str::parse::<u32>()] *)
Definition parse_u32 (s : string) : option N :=
  let digits := match s with String c t => if decide (c = "+"%char) then t else s | "" => "" end in
  match digits with
  | "" => None
  | _ => match digits_value 0 digits with
         | Some n => if (n <=? 4294967295)%N then Some n else None
         | None => None
         end
  end.

(** What [Parser::interval] reads of its text. *)
Definition interval_of (text : string) : option (N * IntervalUnit) :=
  match split_whitespace text with
  | [amount; unit] =>
      let unit :=
        if decide (unit = "day" ∨ unit = "days") then Some Days
        else if decide (unit = "hour" ∨ unit = "hours") then Some Hours
        else if decide (unit = "minute" ∨ unit = "minutes") then Some Minutes
        else if decide (unit = "second" ∨ unit = "seconds") then Some Seconds
        else None in
      match unit, parse_u32 amount with
      | Some unit, Some n =>
          if str_forall is_ascii_digit amount && (n <=? 1000000)%N then Some (n, unit) else None
      | _, _ => None
      end
  | _ => None
  end.

(** ** The parser *)

Section Parser.
Context (src : string) (toks : list (Tok * nat)).

(** [self.tokens[self.at]], which panics out of range. *)
Definition token_at : P (Tok * nat) := λ st,
  match toks !! at_ st with Some t => Done t st | None => Panic end.

Definition peek : P Tok := let* t := token_at in pret t.1.

Definition peek2 : P Tok := λ st,
  match toks !! ((at_ st + 1) `min` (length toks - 1)) with Some t => Done t.1 st | None => Panic end.

Definition bump : P Tok :=
  let* tok := peek in
  if is_last tok then pret tok
  else let* n := get_at in do* set_at (n + 1) in pret tok.

(** [Err(self.error_here(message))] *)
Definition fail_here {A} (message : string) : P A :=
  let* t := token_at in
  match t.1 with
  | TBad error => λ _, Fail error
  | _ => λ _, Fail (lex_error src t.2 message)
  end.

Definition expect (tok : Tok) (what : string) : P unit :=
  let* t := peek in
  if decide (t = tok) then do* bump in pret tt
  else fail_here ("expected " +:+ what +:+ ", found " +:+ describe t).

Definition node (e : Expr) : P Expr :=
  do* (λ st, Done tt {| at_ := at_ st; depth := depth st; nodes := nodes st + 1 |}) in
  (λ st, if MAX_NODES <? nodes st
         then fail_here ("rules are limited to " +:+ pretty MAX_NODES +:+ " nodes") st
         else Done e st).

Definition set_depth (f : nat → nat) : P unit := λ st,
  Done tt {| at_ := at_ st; depth := f (depth st); nodes := nodes st |}.

Definition nested {A} (f : P A) : P A :=
  do* set_depth S in
  λ st, if MAX_DEPTH <? depth st
        then fail_here ("rules are limited to a nesting depth of " +:+ pretty MAX_DEPTH) st
        else (let* r := f in do* set_depth (λ d, d - 1) in pret r) st.

Definition binary (op : BinOp) (l r : Expr) : P Expr := node (EBinary op l r).

(** One token is consumed by every round of a loop. *)
Definition loop_fuel : nat := S (length toks).

(** [while let Some(op) = sel(self.peek()) { self.bump(); r = next()?; l = binary(op, l, r)? }] *)
Definition left_assoc (sel : Tok → option BinOp) (next : P Expr) : P Expr :=
  let* l := next in
  ploop loop_fuel (λ l,
    let* t := peek in
    match sel t with
    | None => pret None
    | Some op =>
        do* bump in
        let* r := next in
        let* e := binary op l r in pret (Some e)
    end) l.

Definition sel_or (t : Tok) : option BinOp := match t with TKw KOr => Some Or | _ => None end.
Definition sel_and (t : Tok) : option BinOp := match t with TKw KAnd => Some And | _ => None end.
Definition sel_match (t : Tok) : option BinOp := match t with TOp Match => Some Match | _ => None end.
Definition sel_add (t : Tok) : option BinOp :=
  match t with TOp Add => Some Add | TMinus => Some Sub | _ => None end.
Definition sel_mul (t : Tok) : option BinOp := match t with TOp Mul => Some Mul | _ => None end.

(** The three productions the parser re-enters under [nested]. *)
Inductive Entry := EnterOr | EnterNot | EnterUnary.

Section Levels.
Context (rec : Entry → P Expr).

(** [vec![item()?]; while peek == Comma { bump; push(item()?); check(len)? }] *)
Definition comma_list (item : P Expr) (check : nat → P unit) : P (list Expr) :=
  let* e := item in
  ploop loop_fuel (λ l,
    let* t := peek in
    if decide (t = TComma) then
      do* bump in
      let* e := item in
      do* check (length (l ++ [e])) in
      pret (Some (l ++ [e]))
    else pret None) [e].

Definition call (name : string) : P Expr :=
  match func_from_name (to_ascii_lowercase name) with
  | None => fail_here ("function '" +:+ name +:+ "' is not allowed; allowed: " +:+ FUNC_NAMES)
  | Some func =>
      do* bump in
      do* bump in
      let* args := nested (comma_list (rec EnterOr) (λ _, pret tt)) in
      do* expect TRParen "')' closing the call" in
      if decide (length args = func_arity func) then node (ECall func args)
      else fail_here (name +:+ "() takes " +:+ pretty (func_arity func) +:+ " argument"
             +:+ (if decide (func_arity func = 1) then "" else "s") +:+ " here")
  end.

Definition interval : P Expr :=
  let* t := bump in
  match t with
  | TStr text =>
      match interval_of text with
      | Some (amount, unit) => node (EInterval amount unit)
      | None => do* step_back in fail_here "intervals are written '<n> days|hours|minutes|seconds'"
      end
  | _ => do* step_back in fail_here "expected a quoted interval such as interval '62 days'"
  end.

Definition atom : P Expr :=
  let* at_ := get_at in
  let* t := bump in
  match t with
  | TNumber value => node (ENumber value)
  | TStr value => node (EText value)
  | TKw KTrue => node (EBool true)
  | TKw KFalse => node (EBool false)
  | TKw KNull => do* set_at at_ in fail_here "NULL is only allowed in IS [NOT] NULL"
  | TKw KInterval => interval
  | TLParen =>
      let* e := nested (rec EnterOr) in
      do* expect TRParen "')'" in pret e
  | TIdent name =>
      let* t2 := peek in
      if decide (t2 = TLParen) then do* set_at at_ in call name
      else if negb (str_forall (λ b, negb (is_ascii_uppercase b)) name)
      then do* set_at at_ in fail_here ("field names are lowercase: '" +:+ name +:+ "'")
      else node (EField name)
  | other =>
      do* set_at at_ in
      fail_here ("expected a field, literal or function, found " +:+ describe other)
  end.

Definition unary : P Expr :=
  let* t := peek in
  match t with
  | TMinus =>
      do* bump in
      let* e := nested (rec EnterUnary) in
      node (ENeg e)
  | TOp Add => fail_here "unary '+' is not allowed"
  | _ => atom
  end.

Definition multiplicative : P Expr := left_assoc sel_mul unary.
Definition additive : P Expr := left_assoc sel_add multiplicative.
Definition other : P Expr := left_assoc sel_match additive.

Definition check_in_items (n : nat) : P unit :=
  if MAX_IN_ITEMS <? n
  then fail_here ("IN lists are limited to " +:+ pretty MAX_IN_ITEMS +:+ " items")
  else pret tt.

Definition range : P Expr :=
  let* e := other in
  let* t := peek in
  let* negated :=
    (if decide (t = TKw KNot) then
       let* t2 := peek2 in pret (bool_decide (t2 = TKw KBetween) || bool_decide (t2 = TKw KIn))
     else pret false) in
  do* (if negated then do* bump in pret tt else pret tt) in
  let* t := peek in
  match t with
  | TKw KBetween =>
      do* bump in
      let* lo := other in
      do* expect (TKw KAnd) "AND in BETWEEN" in
      let* hi := other in
      node (EBetween e lo hi negated)
  | TKw KIn =>
      do* bump in
      do* expect TLParen "'(' after IN" in
      let* l := comma_list other check_in_items in
      do* expect TRParen "')' closing the IN list" in
      node (EIn e l negated)
  | _ => pret e
  end.

Definition comparison : P Expr :=
  let* l := range in
  let* t := peek in
  match t with
  | TOp op =>
      if is_comparison op then
        do* bump in
        let* r := range in
        binary op l r
      else pret l
  | _ => pret l
  end.

Definition is_ : P Expr :=
  let* e := comparison in
  ploop loop_fuel (λ e,
    let* t := peek in
    if decide (t = TKw KIs) then
      do* bump in
      let* t2 := peek in
      let negated := bool_decide (t2 = TKw KNot) in
      do* (if negated then do* bump in pret tt else pret tt) in
      do* expect (TKw KNull) "NULL (only IS [NOT] NULL is supported)" in
      let* e := node (EIsNull e negated) in pret (Some e)
    else pret None) e.

Definition not_ : P Expr :=
  let* t := peek in
  if decide (t = TKw KNot) then
    do* bump in
    let* e := nested (rec EnterNot) in
    node (ENot e)
  else is_.

Definition and_ : P Expr := left_assoc sel_and not_.
Definition or_ : P Expr := left_assoc sel_or and_.

Definition enter (n : Entry) : P Expr :=
  match n with EnterOr => or_ | EnterNot => not_ | EnterUnary => unary end.
End Levels.

(** The fuel is spent by [nested] alone. *)
Fixpoint parse_entry (fuel : nat) (n : Entry) : P Expr :=
  match fuel with
  | 0 => λ _, OutOfFuel
  | S fuel => enter (parse_entry fuel) n
  end.

Definition parse_tokens : P Expr :=
  let* first := peek in
  if decide (first = TEof) then fail_here "the rule is empty"
  else
  let* e := parse_entry (S MAX_DEPTH) EnterOr in
  let* t := peek in
  match t with
  | TEof => pret e
  | TKw KIs => fail_here "add parentheses around the IS test"
  | TOp op =>
      if is_comparison op
      then fail_here "comparisons do not chain; add parentheses, as PostgreSQL requires"
      else fail_here ("unexpected " +:+ describe t)
  | other => fail_here ("unexpected " +:+ describe other)
  end.
End Parser.

(** [parse]: [None] stands for a panic or for fuel that ran out. *)
Definition parse (src : string) : option (result SyntaxError Expr) :=
  if MAX_SOURCE_BYTES <? String.length src
  then Some (Err (lex_error src 0 ("rules are limited to " +:+ pretty MAX_SOURCE_BYTES +:+ " bytes")))
  else match tokens src with
  | None => None
  | Some toks =>
      match parse_tokens src toks {| at_ := 0; depth := 0; nodes := 0 |} with
      | Done e _ => Some (Ok e)
      | Fail e => Some (Err e)
      | Panic | OutOfFuel => None
      end
  end.
