(* ===== verification/RuleGrammar.v ===== *)
(** * The grammar of rules, and what the parser promises of it

    [gram n ts e] says the tokens [ts] derive the tree [e] at precedence level
    [n], from OR down to atoms, with PostgreSQL's associativity: the binary
    levels associate to the left, comparisons do not associate. *)

From stdpp Require Import base numbers pretty strings sets list.
From S2P Require Import Prelude Str Ident RuleAst RuleLexer RuleParser.

Inductive Nonterm :=
| NOr | NAnd | NNot | NIs | NCmp | NRange | NOther | NAdd | NMul | NUnary | NAtom.

(** The next level down: what binds tighter. *)
Definition tighter (n : Nonterm) : option Nonterm :=
  match n with
  | NOr => Some NAnd | NAnd => Some NNot | NNot => Some NIs | NIs => Some NCmp
  | NCmp => Some NRange | NRange => Some NOther | NOther => Some NAdd | NAdd => Some NMul
  | NMul => Some NUnary | NUnary => Some NAtom | NAtom => None
  end.

(** The operators that associate to the left at a level. *)
Definition infix (n : Nonterm) (t : Tok) : option BinOp :=
  match n with
  | NOr => sel_or t | NAnd => sel_and t | NOther => sel_match t
  | NAdd => sel_add t | NMul => sel_mul t | _ => None
  end.

Definition not_toks (negated : bool) : list Tok := if negated then [TKw KNot] else [].

Inductive gram : Nonterm → list Tok → Expr → Prop :=
| g_tighter n m ts e : tighter n = Some m → gram m ts e → gram n ts e
| g_infix n m t op ts1 ts2 l r :
    tighter n = Some m → infix n t = Some op → gram n ts1 l → gram m ts2 r →
    gram n (ts1 ++ t :: ts2) (EBinary op l r)
| g_not ts e : gram NNot ts e → gram NNot (TKw KNot :: ts) (ENot e)
| g_is_null ts e negated :
    gram NIs ts e → gram NIs (ts ++ TKw KIs :: not_toks negated ++ [TKw KNull]) (EIsNull e negated)
| g_compare op ts1 ts2 l r :
    is_comparison op = true → gram NRange ts1 l → gram NRange ts2 r →
    gram NCmp (ts1 ++ TOp op :: ts2) (EBinary op l r)
| g_between ts1 ts2 ts3 e lo hi negated :
    gram NOther ts1 e → gram NOther ts2 lo → gram NOther ts3 hi →
    gram NRange (ts1 ++ not_toks negated ++ TKw KBetween :: ts2 ++ TKw KAnd :: ts3)
      (EBetween e lo hi negated)
| g_in ts1 ts2 e items negated :
    gram NOther ts1 e → gram_list NOther ts2 items → length items ≤ MAX_IN_ITEMS →
    gram NRange (ts1 ++ not_toks negated ++ TKw KIn :: TLParen :: ts2 ++ [TRParen]) (EIn e items negated)
| g_neg ts e : gram NUnary ts e → gram NUnary (TMinus :: ts) (ENeg e)
| g_number v : gram NAtom [TNumber v] (ENumber v)
| g_text v : gram NAtom [TStr v] (EText v)
| g_true : gram NAtom [TKw KTrue] (EBool true)
| g_false : gram NAtom [TKw KFalse] (EBool false)
| g_interval text amount unit :
    interval_of text = Some (amount, unit) →
    gram NAtom [TKw KInterval; TStr text] (EInterval amount unit)
| g_paren ts e : gram NOr ts e → gram NAtom (TLParen :: ts ++ [TRParen]) e
| g_field name :
    str_forall (λ b, negb (is_ascii_uppercase b)) name = true → gram NAtom [TIdent name] (EField name)
| g_call name func ts args :
    func_from_name (to_ascii_lowercase name) = Some func → gram_list NOr ts args →
    length args = func_arity func →
    gram NAtom (TIdent name :: TLParen :: ts ++ [TRParen]) (ECall func args)
with gram_list : Nonterm → list Tok → list Expr → Prop :=
| gl_one n ts e : gram n ts e → gram_list n ts [e]
| gl_snoc n ts l ts' e :
    gram_list n ts l → gram n ts' e → gram_list n (ts ++ TComma :: ts') (l ++ [e]).

Create HintDb gram.
#[export] Hint Constructors gram gram_list : gram.

(** ** A program logic for the parser *)

(** [m] run from [st] neither panics nor runs out of fuel, and [Q] holds if it
    succeeds. *)
Definition wp {A} (m : P A) (Q : A → PState → Prop) (st : PState) : Prop :=
  match m st with Done a st' => Q a st' | Fail _ => True | Panic | OutOfFuel => False end.

Lemma wp_ret {A} (a : A) (Q : A → PState → Prop) st : Q a st → wp (pret a) Q st.
Proof. done. Qed.
Lemma wp_bind {A B} (m : P A) (k : A → P B) Q st :
  wp m (λ a st', wp (k a) Q st') st → wp (pbind m k) Q st.
Proof. unfold wp, pbind. by destruct (m st). Qed.
Lemma wp_mono {A} (m : P A) (Q Q' : A → PState → Prop) st :
  wp m Q st → (∀ a st', Q a st' → Q' a st') → wp m Q' st.
Proof. unfold wp. destruct (m st); auto. Qed.

Section Soundness.
Context (src : string) (toks : list (Tok * nat)) (Htoks : tokens_ok toks).

Record st_ok (st : PState) : Prop := {
  st_at : at_ st < length toks;
  st_depth : depth st ≤ MAX_DEPTH;
  st_nodes : nodes st ≤ MAX_NODES }.

(** The tokens from index [a] up to index [b]. *)
Definition seg (a b : nat) : list Tok := take (b - a) (drop a (fst <$> toks)).

Lemma seg_app a b c : a ≤ b → b ≤ c → seg a c = seg a b ++ seg b c.
Proof.
  intros H1 H2. unfold seg. replace (c - a) with ((b - a) + (c - b)) by lia.
  rewrite <-take_take_drop, drop_drop. do 3 f_equal. lia.
Qed.
Lemma seg_one a t p : toks !! a = Some (t, p) → seg a (a + 1) = [t].
Proof.
  intros H. unfold seg. replace (a + 1 - a) with 1 by lia.
  assert ((fst <$> toks) !! a = Some t) as H' by (by rewrite list_lookup_fmap, H).
  by rewrite (drop_S _ _ _ H').
Qed.

Lemma seg_snoc a b t p : a ≤ b → toks !! b = Some (t, p) → seg a (b + 1) = seg a b ++ [t].
Proof. intros. rewrite (seg_app a b (b + 1)) by lia. by erewrite (seg_one b) by done. Qed.
Lemma seg_nil a : seg a a = [].
Proof. unfold seg. by rewrite Nat.sub_diag. Qed.

Lemma tokens_ok_lookup l i t p :
  tokens_ok l → l !! i = Some (t, p) → is_last t = false → i + 1 < length l ∧ tok_ok t.
Proof.
  intros H. revert i. induction H as [t' a Hl|t' a l Hl Hok H IH]; intros i Hi Ht.
  - destruct i; simplify_eq/=; congruence.
  - destruct i as [|i]; simpl in *.
    + simplify_eq. destruct H; simpl; split; auto; lia.
    + destruct (IH i Hi Ht). split; [lia|done].
Qed.

(** [st'] is [st] moved on to token [n]. *)
Definition moved (st : PState) (n : nat) : PState := {| at_ := n; depth := depth st; nodes := nodes st |}.

Lemma wp_token_at Q st :
  st_ok st → (∀ t p, toks !! at_ st = Some (t, p) → Q (t, p) st) → wp (token_at toks) Q st.
Proof.
  intros [Ha _ _] H. unfold wp, token_at. apply lookup_lt_is_Some in Ha as [[t p] Ht].
  rewrite Ht. eauto.
Qed.

Lemma wp_peek Q st :
  st_ok st → (∀ t p, toks !! at_ st = Some (t, p) → Q t st) → wp (peek toks) Q st.
Proof. intros Hst H. apply wp_bind, wp_token_at; [done|]. intros t p Ht. apply wp_ret. eauto. Qed.

Lemma wp_peek2 t p Q st :
  st_ok st → toks !! at_ st = Some (t, p) → is_last t = false →
  (∀ t2 p2, toks !! (at_ st + 1) = Some (t2, p2) → Q t2 st) → wp (peek2 toks) Q st.
Proof.
  intros [Ha _ _] Ht Hl H. destruct (tokens_ok_lookup _ _ _ _ Htoks Ht Hl) as [Hn _].
  unfold wp, peek2. rewrite Nat.min_l by lia.
  destruct (lookup_lt_is_Some_2 toks (at_ st + 1) Hn) as [[t2 p2] Ht2]. rewrite Ht2. eauto.
Qed.

Lemma wp_fail_here {A} msg (Q : A → PState → Prop) st : st_ok st → wp (fail_here src toks msg) Q st.
Proof.
  intros Hst. apply wp_bind, wp_token_at; [done|]. intros t p _. unfold wp. by destruct t.
Qed.

Lemma moved_ok st n : st_ok st → n < length toks → st_ok (moved st n).
Proof. intros [] ?. by constructor. Qed.

(** Reading a token that is not the last one moves past it. *)
Lemma wp_bump Q st :
  st_ok st →
  (∀ t p, toks !! at_ st = Some (t, p) → is_last t = false → tok_ok t →
    st_ok (moved st (at_ st + 1)) → Q t (moved st (at_ st + 1))) →
  (∀ t p, toks !! at_ st = Some (t, p) → is_last t = true → Q t st) →
  wp (bump toks) Q st.
Proof.
  intros Hst Hmove Hstay. apply wp_bind, wp_peek; [done|]. intros t p Ht.
  destruct (is_last t) eqn:Hl; [by apply wp_ret; eauto|].
  destruct (tokens_ok_lookup _ _ _ _ Htoks Ht Hl) as [Hn Hok].
  unfold wp, pbind; simpl. eauto using moved_ok.
Qed.

(** The same, where the next token is already known. *)
Lemma wp_bump_known t p Q st :
  st_ok st → toks !! at_ st = Some (t, p) → is_last t = false →
  (tok_ok t → st_ok (moved st (at_ st + 1)) → Q t (moved st (at_ st + 1))) →
  wp (bump toks) Q st.
Proof. intros Hst Ht Hl H. apply wp_bump; [done| |]; intros; simplify_eq; auto. congruence. Qed.

Lemma wp_expect t what (Q : unit → PState → Prop) st :
  st_ok st → is_last t = false →
  (∀ p, toks !! at_ st = Some (t, p) → st_ok (moved st (at_ st + 1)) → Q tt (moved st (at_ st + 1))) →
  wp (expect src toks t what) Q st.
Proof.
  intros Hst Hl H. apply wp_bind, wp_peek; [done|]. intros t' p Ht.
  case_decide; [subst t'|by apply wp_fail_here].
  apply wp_bind. eapply wp_bump_known; eauto. intros. apply wp_ret. eauto.
Qed.

Lemma wp_node e (Q : Expr → PState → Prop) st :
  st_ok st →
  (let st' := {| at_ := at_ st; depth := depth st; nodes := nodes st + 1 |} in st_ok st' → Q e st') →
  wp (node src toks e) Q st.
Proof.
  intros [Ha Hd Hn] H. apply wp_bind. unfold wp at 1. unfold wp; simpl.
  set (st' := {| at_ := at_ st; depth := depth st; nodes := nodes st + 1 |}).
  destruct (Nat.ltb_spec MAX_NODES (nodes st + 1)).
  - unfold fail_here, pbind, token_at; simpl.
    destruct (lookup_lt_is_Some_2 _ _ Ha) as [[t p] ->]. simpl. by destruct t.
  - apply H. by constructor.
Qed.

Lemma wp_nested {A} (m : P A) (Q : A → PState → Prop) st :
  st_ok st →
  (let st1 := {| at_ := at_ st; depth := S (depth st); nodes := nodes st |} in
   st_ok st1 →
   wp m (λ a st2, Q a {| at_ := at_ st2; depth := depth st2 - 1; nodes := nodes st2 |}) st1) →
  wp (nested src toks m) Q st.
Proof.
  intros [Ha Hd Hn] H. apply wp_bind. unfold wp at 1; simpl.
  set (st1 := {| at_ := at_ st; depth := S (depth st); nodes := nodes st |}) in *.
  unfold wp. destruct (Nat.ltb_spec MAX_DEPTH (depth st1)).
  - unfold fail_here, pbind, token_at; simpl.
    destruct (lookup_lt_is_Some_2 _ _ Ha) as [[t p] ->]. simpl. by destruct t.
  - assert (st_ok st1) as Hok by by constructor. specialize (H Hok). revert H.
    unfold wp, pbind. destruct (m st1); auto.
Qed.

(** A loop whose every round moves on never runs out of [loop_fuel]. *)
Lemma wp_ploop {A} (body : A → P (option A)) (I Q : A → PState → Prop) :
  (∀ a st, I a st → at_ st < length toks) →
  (∀ a st, I a st → wp (body a) (λ o st', match o with
     | None => Q a st'
     | Some a' => I a' st' ∧ at_ st < at_ st' end) st) →
  ∀ fuel a st, I a st → length toks - at_ st < fuel → wp (ploop fuel body a) Q st.
Proof.
  intros Hlt Hbody fuel. induction fuel as [|fuel IH]; intros a st HI Hf; [lia|].
  apply wp_bind. eapply wp_mono; [by apply Hbody|]. intros [a'|] st'; [|by intros; apply wp_ret].
  intros [HI' Hlt']. apply IH; [done|]. pose proof (Hlt _ _ HI). lia.
Qed.

(** From [st] the tokens up to [st'] were read, they derive [e], and the nodes
    of [e] were counted. *)
Record built (n : Nonterm) (st : PState) (e : Expr) (st' : PState) : Prop := {
  b_ok : st_ok st';
  b_at : at_ st < at_ st';
  b_depth : depth st' = depth st;
  b_nodes : nodes st' = nodes st + expr_size e;
  b_gram : gram n (seg (at_ st) (at_ st')) e }.

Definition parses (fuel : nat) (n : Nonterm) (m : P Expr) : Prop :=
  ∀ st, st_ok st → MAX_DEPTH < depth st + fuel → wp m (built n st) st.

Lemma built_tighter n m st e st' : tighter n = Some m → built m st e st' → built n st e st'.
Proof. intros ? []. split; eauto with gram. Qed.

(** The result of a constructor applied to what was read between [st] and
    [st1]. *)
Lemma wp_node_built n st st1 e (Q : Expr → PState → Prop) :
  st_ok st1 → at_ st < at_ st1 → depth st1 = depth st →
  nodes st1 + 1 = nodes st + expr_size e → gram n (seg (at_ st) (at_ st1)) e →
  (∀ st', built n st e st' → at_ st' = at_ st1 → Q e st') →
  wp (node src toks e) Q st1.
Proof. intros Hok ? ? ? ? HQ. apply wp_node; [done|]. intros st' Hst'. by apply HQ. Qed.

Lemma parses_left_assoc fuel n m sel next :
  tighter n = Some m → (∀ t, infix n t = sel t) → (∀ t op, sel t = Some op → is_last t = false) →
  parses fuel m next → parses fuel n (left_assoc src toks sel next).
Proof.
  intros Hnm Hsel Hlast Hnext st Hst Hf. apply wp_bind. eapply wp_mono; [by apply Hnext|].
  intros l st1 Hl. apply (built_tighter n) in Hl; [|done].
  apply (wp_ploop _ (built n st)); [intros ? ? []; apply st_at; done| |done|unfold loop_fuel; lia].
  clear l st1 Hl. intros l st1 [Hok Hat Hd Hn Hg]. apply wp_bind, wp_peek; [done|]. intros t p Ht.
  destruct (sel t) as [op|] eqn:Hop; [|by apply wp_ret].
  apply wp_bind. eapply wp_bump_known; eauto. intros _ Hok1.
  apply wp_bind. eapply wp_mono; [apply Hnext; simpl; [done|lia]|].
  intros r st2 [Hok2 Hat2 Hd2 Hn2 Hg2]. simpl in *. apply wp_bind.
  apply (wp_node_built n st); simpl; try (done || lia || congruence).
  - rewrite (seg_app _ (at_ st1)), (seg_app (at_ st1) (at_ st1 + 1)), (seg_one _ _ _ Ht) by lia.
    eapply g_infix; eauto. by rewrite Hsel.
  - intros st3 Hb Heq. apply wp_ret. split; [done|lia].
Qed.

Section Levels.
Context (rec : Entry → P Expr) (fuel : nat).

Definition entry_nonterm (n : Entry) : Nonterm :=
  match n with EnterOr => NOr | EnterNot => NNot | EnterUnary => NUnary end.

Hypothesis Hrec : ∀ n, parses fuel (entry_nonterm n) (rec n).

(** Re-entering the grammar one level deeper. *)
Lemma wp_nested_rec n (Q : Expr → PState → Prop) st :
  st_ok st → MAX_DEPTH < depth st + S fuel →
  (∀ e st', built (entry_nonterm n) st e st' → Q e st') →
  wp (nested src toks (rec n)) Q st.
Proof.
  intros Hst Hf HQ. apply wp_nested; [done|]. intros st1 Hst1.
  eapply wp_mono; [apply Hrec; [done|simpl; lia]|]. intros e st2 [[] ? Hd ? ?]. simpl in *.
  apply HQ. split; simpl; try (done || lia). constructor; simpl; (done || lia).
Qed.

Lemma wp_comma_list fu n item check (ok : nat → Prop) st (Q : list Expr → PState → Prop) :
  parses fu n item → st_ok st → MAX_DEPTH < depth st + fu → ok 1 →
  (∀ k st (R : unit → PState → Prop), st_ok st → (ok k → R tt st) → wp (check k) R st) →
  (∀ l st', st_ok st' → at_ st < at_ st' → depth st' = depth st →
     nodes st' = nodes st + sum_list_with expr_size l → ok (length l) →
     gram_list n (seg (at_ st) (at_ st')) l → Q l st') →
  wp (comma_list toks item check) Q st.
Proof.
  intros Hitem Hst Hf Hok1 Hcheck HQ. apply wp_bind. eapply wp_mono; [by apply Hitem|].
  intros e st1 [Ho Ha Hd Hn Hg].
  apply (wp_ploop _ (λ l st', st_ok st' ∧ at_ st < at_ st' ∧ depth st' = depth st ∧
    nodes st' = nodes st + sum_list_with expr_size l ∧ ok (length l) ∧
    gram_list n (seg (at_ st) (at_ st')) l)).
  - by intros ? ? ([] & _).
  - clear e st1 Ho Ha Hd Hn Hg. intros l st1 (Ho & Ha & Hd & Hn & Hk & Hg).
    apply wp_bind, wp_peek; [done|]. intros t p Ht. case_decide; [subst t|by apply wp_ret, HQ].
    apply wp_bind. eapply wp_bump_known; eauto. intros _ Ho1.
    apply wp_bind. eapply wp_mono; [apply Hitem; simpl; [done|lia]|].
    intros e st2 [Ho2 Ha2 Hd2 Hn2 Hg2]. simpl in *. apply wp_bind, Hcheck; [done|]. intros Hk2.
    apply wp_ret. split; [|lia]. split_and!; try (done || lia || congruence).
    + rewrite sum_list_with_app. simpl. lia.
    + rewrite (seg_app _ (at_ st1)), (seg_app (at_ st1) (at_ st1 + 1)), (seg_one _ _ _ Ht) by lia.
      by constructor.
  - split_and!; eauto with gram. simpl. lia.
  - unfold loop_fuel. lia.
Qed.

Lemma wp_call name p p2 (st : PState) :
  st_ok st → MAX_DEPTH < depth st + S fuel →
  toks !! at_ st = Some (TIdent name, p) → toks !! (at_ st + 1) = Some (TLParen, p2) →
  wp (call src toks rec name) (built NAtom st) st.
Proof.
  intros Hst Hf Ht1 Ht2. unfold call.
  destruct (func_from_name (to_ascii_lowercase name)) as [func|] eqn:Hfunc; [|by apply wp_fail_here].
  apply wp_bind. eapply wp_bump_known; [done|done|done|]. intros _ Hst1.
  apply wp_bind. eapply (wp_bump_known TLParen p2); [done|done|done|]. intros _ Hst2.
  apply wp_bind, wp_nested; [done|]. intros st3 Hst3.
  apply (wp_comma_list fuel NOr) with (ok := λ _, True);
    [exact (Hrec EnterOr)|done|simpl; lia|done|by intros; apply wp_ret; auto|].
  intros args st4 Ho Ha Hd Hn _ Hg. simpl in *. apply wp_bind, wp_expect; [|done|].
  { destruct Ho. split; simpl; lia. }
  intros p5 Ht5 Hst5. simpl in *. case_decide; [|by apply wp_fail_here].
  apply (wp_node_built NAtom st); simpl; [done|lia|lia|lia| |auto].
  rewrite (λ H, seg_snoc (at_ st) _ _ _ H Ht5), (seg_app _ (at_ st + 1)),
    (seg_app (at_ st + 1) (at_ st + 1 + 1)), (seg_one _ _ _ Ht1), (seg_one _ _ _ Ht2) by lia.
  simpl. by constructor.
Qed.

Lemma wp_interval p st st1 :
  st_ok st → toks !! at_ st = Some (TKw KInterval, p) →
  st1 = moved st (at_ st + 1) → st_ok st1 → wp (interval src toks) (built NAtom st) st1.
Proof.
  intros Hst Ht -> Hst1.
  assert (∀ st2 msg, st_ok st2 → 0 < at_ st2 →
    wp (do* step_back in fail_here src toks msg) (built NAtom st) st2) as Hback.
  { intros st2 msg Hst2 Hpos. apply wp_bind. unfold wp at 1, step_back.
    destruct (at_ st2) as [|k] eqn:Hk; [lia|]. apply wp_fail_here.
    destruct Hst2. split; simpl; lia. }
  apply wp_bind, wp_bump; [done| |].
  - intros t p2 Ht2 _ _ Hst2. simpl in *.
    destruct t; try (apply Hback; simpl; [done|lia]).
    destruct (interval_of s) as [[amount unit]|] eqn:Hi; [|apply Hback; simpl; [done|lia]].
    apply (wp_node_built NAtom st); simpl; [done|lia|done|lia| |auto].
    rewrite (λ H, seg_snoc (at_ st) _ _ _ H Ht2), (seg_one _ _ _ Ht) by lia. by apply g_interval.
  - intros t p2 Ht2 Hl. destruct t; try done; apply Hback; simpl; (done || lia).
Qed.

Lemma parses_atom : parses (S fuel) NAtom (atom src toks rec).
Proof.
  intros st Hst Hf. apply wp_bind. unfold wp at 1, get_at. apply wp_bind, wp_bump; [done| |].
  2:{ intros t p Ht Hl. destruct t; try done; apply wp_bind; unfold wp at 1, set_at;
      apply wp_fail_here; by apply moved_ok; destruct Hst. }
  intros t p Ht Hl Hok Hst1.
  assert (∀ msg, wp (do* set_at (at_ st) in fail_here src toks msg) (built NAtom st) (moved st (at_ st + 1))) as Hfail.
  { intros msg. apply wp_bind. unfold wp at 1, set_at. apply wp_fail_here, moved_ok; [done|by destruct Hst]. }
  assert (∀ e, expr_size e = 1 → gram NAtom [t] e →
    wp (node src toks e) (built NAtom st) (moved st (at_ st + 1))) as Hleaf.
  { intros e Hs Hg. apply (wp_node_built NAtom st); simpl; [done|lia|done|lia| |auto].
    by rewrite (seg_one _ _ _ Ht). }
  destruct t as [name|kw|n|s|op| | | | | |]; try done; try apply Hfail; try (apply Hleaf; [done|constructor]).
  - apply wp_bind, wp_peek; [done|]. intros t2 p2 Ht2. simpl in Ht2. case_decide as Hp; [subst t2|].
    { apply wp_bind. unfold wp at 1, set_at.
      replace {| at_ := _; depth := _; nodes := _ |} with st by (by destruct st).
      by eapply wp_call. }
    destruct (str_forall _ name) eqn:Hlow; simpl; [|apply Hfail].
    apply Hleaf; [done|by constructor].
  - destruct kw; try apply Hfail; try (apply Hleaf; [done|constructor]). by eapply wp_interval.
  - apply wp_bind, wp_nested_rec; [done|done|]. intros e st2 [Ho Ha Hd Hn Hg]. simpl in *.
    apply wp_bind, wp_expect; [done|done|]. intros p3 Ht3 Hst3. apply wp_ret.
    split; simpl; try (done || lia).
    rewrite (λ H, seg_snoc (at_ st) _ _ _ H Ht3), (seg_app _ (at_ st + 1)), (seg_one _ _ _ Ht) by lia.
    by apply g_paren.
Qed.

Lemma parses_tighter f n m k : tighter n = Some m → parses f m k → parses f n k.
Proof. intros Hn Hk st Hst Hf. eapply wp_mono; [by apply Hk|]. eauto using built_tighter. Qed.

Lemma parses_unary : parses (S fuel) NUnary (unary src toks rec).
Proof.
  intros st Hst Hf. apply wp_bind, wp_peek; [done|]. intros t p Ht.
  destruct (decide (t = TMinus)) as [->|Hm].
  - apply wp_bind. eapply wp_bump_known; [done|done|done|]. intros _ Hst1.
    apply wp_bind, wp_nested_rec; [done|done|]. intros e st2 [Ho Ha Hd Hn Hg]. simpl in *.
    apply (wp_node_built NUnary st); simpl; [done|lia|lia|lia| |auto].
    rewrite (seg_app _ (at_ st + 1)), (seg_one _ _ _ Ht) by lia. by apply g_neg.
  - assert (wp (atom src toks rec) (built NUnary st) st)
      by (eapply wp_mono; [by apply parses_atom|]; eauto using built_tighter).
    destruct t as [| | | |[]| | | | | |]; try done. by apply wp_fail_here.
Qed.

Lemma parses_multiplicative : parses (S fuel) NMul (multiplicative src toks rec).
Proof.
  eapply parses_left_assoc; [done|done| |apply parses_unary]. intros t op. by destruct t.
Qed.
Lemma parses_additive : parses (S fuel) NAdd (additive src toks rec).
Proof.
  eapply parses_left_assoc; [done|done| |apply parses_multiplicative]. intros t op. by destruct t.
Qed.
Lemma parses_other : parses (S fuel) NOther (other src toks rec).
Proof.
  eapply parses_left_assoc; [done|done| |apply parses_additive]. intros t op. by destruct t.
Qed.

(** An optional NOT, read when [negated]. *)
Lemma wp_optional_not negated p (Q : unit → PState → Prop) st :
  st_ok st → (negated = true → toks !! at_ st = Some (TKw KNot, p)) →
  (∀ st', st_ok st' → at_ st ≤ at_ st' → depth st' = depth st → nodes st' = nodes st →
     seg (at_ st) (at_ st') = not_toks negated →
     at_ st' = at_ st + length (not_toks negated) → Q tt st') →
  wp (if negated then do* bump toks in pret tt else pret tt) Q st.
Proof.
  intros Hst Ht HQ. destruct negated.
  - specialize (Ht eq_refl). apply wp_bind. eapply wp_bump_known; [done|done|done|].
    intros _ Hst1. apply wp_ret, HQ; simpl; [done|lia|done|done| |done]. by rewrite (seg_one _ _ _ Ht).
  - apply wp_ret, HQ; simpl; [done|done|done|done|apply seg_nil|lia].
Qed.

Lemma wp_check_in_items k st (R : unit → PState → Prop) :
  st_ok st → (k ≤ MAX_IN_ITEMS → R tt st) → wp (check_in_items src toks k) R st.
Proof.
  intros Hst HR. unfold check_in_items.
  destruct (Nat.ltb_spec MAX_IN_ITEMS k); [by apply wp_fail_here|by apply wp_ret, HR].
Qed.

(** What follows the first operand of [range]. *)
Lemma wp_range_between st st1 st2 e negated p :
  built NOther st e st1 → MAX_DEPTH < depth st + S fuel →
  st_ok st2 → at_ st1 ≤ at_ st2 → depth st2 = depth st1 → nodes st2 = nodes st1 →
  seg (at_ st1) (at_ st2) = not_toks negated →
  toks !! at_ st2 = Some (TKw KBetween, p) →
  wp (do* bump toks in
      let* lo := other src toks rec in
      do* expect src toks (TKw KAnd) "AND in BETWEEN" in
      let* hi := other src toks rec in
      node src toks (EBetween e lo hi negated)) (built NRange st) st2.
Proof.
  intros [Ho Ha Hd Hn Hg] Hf Ho2 Ha2 Hd2 Hn2 Hnot Ht.
  apply wp_bind. eapply wp_bump_known; [done|done|done|]. intros _ Hst3.
  apply wp_bind. eapply wp_mono; [apply parses_other; simpl; [done|lia]|].
  intros lo st3 [Ho3 Ha3 Hd3 Hn3 Hg3]. simpl in *.
  apply wp_bind, wp_expect; [done|done|]. intros p4 Ht4 Hst4. simpl in *.
  apply wp_bind. eapply wp_mono; [apply parses_other; simpl; [done|lia]|].
  intros hi st5 [Ho5 Ha5 Hd5 Hn5 Hg5]. simpl in *.
  apply (wp_node_built NRange st); simpl; [done|lia|lia|lia| |auto].
  rewrite (seg_app _ (at_ st1)), (seg_app (at_ st1) (at_ st2)), (seg_app (at_ st2) (at_ st2 + 1)),
    (seg_app (at_ st2 + 1) (at_ st3)), (seg_app (at_ st3) (at_ st3 + 1)),
    (seg_one _ _ _ Ht), (seg_one _ _ _ Ht4), Hnot by lia.
  by apply g_between.
Qed.

Lemma wp_range_in st st1 st2 e negated p :
  built NOther st e st1 → MAX_DEPTH < depth st + S fuel →
  st_ok st2 → at_ st1 ≤ at_ st2 → depth st2 = depth st1 → nodes st2 = nodes st1 →
  seg (at_ st1) (at_ st2) = not_toks negated →
  toks !! at_ st2 = Some (TKw KIn, p) →
  wp (do* bump toks in
      do* expect src toks TLParen "'(' after IN" in
      let* l := comma_list toks (other src toks rec) (check_in_items src toks) in
      do* expect src toks TRParen "')' closing the IN list" in
      node src toks (EIn e l negated)) (built NRange st) st2.
Proof.
  intros [Ho Ha Hd Hn Hg] Hf Ho2 Ha2 Hd2 Hn2 Hnot Ht.
  apply wp_bind. eapply wp_bump_known; [done|done|done|]. intros _ Hst3.
  apply wp_bind, wp_expect; [done|done|]. intros p3 Ht3 Hst4. simpl in *.
  apply wp_bind. eapply (wp_comma_list _ NOther) with (ok := λ k, k ≤ MAX_IN_ITEMS);
    [apply parses_other|done|simpl; lia|unfold MAX_IN_ITEMS; lia|apply wp_check_in_items|].
  intros items st5 Ho5 Ha5 Hd5 Hn5 Hk5 Hg5. simpl in *.
  apply wp_bind, wp_expect; [done|done|]. intros p6 Ht6 Hst6. simpl in *.
  apply (wp_node_built NRange st); simpl; [done|lia|lia|lia| |auto].
  rewrite (λ H, seg_snoc (at_ st) _ _ _ H Ht6), (seg_app _ (at_ st1)), (seg_app (at_ st1) (at_ st2)),
    (seg_app (at_ st2) (at_ st2 + 1)), (seg_app (at_ st2 + 1) (at_ st2 + 1 + 1)),
    (seg_one _ _ _ Ht), (seg_one _ _ _ Ht3), Hnot by lia.
  rewrite <-!(assoc_L (++)). simpl. by apply g_in.
Qed.

Lemma parses_range : parses (S fuel) NRange (range src toks rec).
Proof.
  intros st Hst Hf. apply wp_bind. eapply wp_mono; [by apply parses_other|].
  intros e st1 Hb. pose proof (b_ok _ _ _ _ Hb) as Ho. apply wp_bind, wp_peek; [done|]. intros t p Ht.
  apply wp_bind. apply (wp_mono _ (λ negated st', st' = st1 ∧ (negated = true → t = TKw KNot ∧
    ∃ t2 p2, toks !! (at_ st1 + 1) = Some (t2, p2) ∧ (t2 = TKw KBetween ∨ t2 = TKw KIn)))).
  { case_decide; [subst t|by apply wp_ret]. apply wp_bind, (wp_peek2 (TKw KNot) p); [done..|].
    intros t2 p2 Ht2. apply wp_ret. split; [done|]. intros Hor. split; [done|]. exists t2, p2.
    apply orb_true_iff in Hor as [?%bool_decide_eq_true_1|?%bool_decide_eq_true_1]; auto. }
  intros negated ? [-> Hneg]. apply wp_bind.
  apply (wp_optional_not _ p); [done|by intros [-> _]%Hneg|].
  intros st2 Ho2 Ha2 Hd2 Hn2 Hnot Hat. apply wp_bind, wp_peek; [done|]. intros t2 p2 Ht2.
  destruct (decide (t2 = TKw KBetween)) as [->|]; [by eapply wp_range_between|].
  destruct (decide (t2 = TKw KIn)) as [->|]; [by eapply wp_range_in|].
  assert (wp (pret e) (built NRange st) st2) as Hplain.
  { destruct negated; simpl in Hat.
    - destruct (Hneg eq_refl) as (_ & t3 & p3 & Ht3 & Hor). rewrite <-Hat in Ht3.
      destruct Hor; congruence.
    - destruct Hb. apply wp_ret. split; try (done || lia).
      rewrite (seg_app _ (at_ st1)), Hnot, app_nil_r by lia. by eapply g_tighter. }
  destruct t2 as [|[]| | | | | | | | |]; done.
Qed.

Lemma parses_comparison : parses (S fuel) NCmp (comparison src toks rec).
Proof.
  intros st Hst Hf. apply wp_bind. eapply wp_mono; [by apply parses_range|].
  intros l st1 Hb. pose proof (b_ok _ _ _ _ Hb) as Ho. apply wp_bind, wp_peek; [done|]. intros t p Ht.
  assert (wp (pret l) (built NCmp st) st1) as Hplain
    by (apply wp_ret; eauto using built_tighter).
  destruct t as [| | | |op| | | | | |]; try done. destruct (is_comparison op) eqn:Hop; [|done].
  apply wp_bind. eapply wp_bump_known; [done|done|done|]. intros _ Hst2.
  apply wp_bind. destruct Hb. eapply wp_mono; [apply parses_range; simpl; [done|lia]|].
  intros r st3 [Ho3 Ha3 Hd3 Hn3 Hg3]. simpl in *.
  apply (wp_node_built NCmp st); simpl; [done|lia|lia|lia| |auto].
  rewrite (seg_app _ (at_ st1)), (seg_app (at_ st1) (at_ st1 + 1)), (seg_one _ _ _ Ht) by lia.
  by apply g_compare.
Qed.

Lemma parses_is : parses (S fuel) NIs (is_ src toks rec).
Proof.
  intros st Hst Hf. apply wp_bind. eapply wp_mono; [by apply parses_comparison|].
  intros e st1 Hb. apply (built_tighter NIs) in Hb; [|done].
  apply (wp_ploop _ (built NIs st)); [intros ? ? []; apply st_at; done| |done|unfold loop_fuel; lia].
  clear e st1 Hb. intros e st1 Hb. pose proof (b_ok _ _ _ _ Hb) as Ho.
  apply wp_bind, wp_peek; [done|]. intros t p Ht. case_decide; [subst t|by apply wp_ret].
  destruct Hb. apply wp_bind. eapply wp_bump_known; [done|done|done|]. intros _ Hst2.
  apply wp_bind, wp_peek; [done|]. intros t2 p2 Ht2. simpl in Ht2.
  apply wp_bind, (wp_optional_not _ p2); [done|by intros ->%bool_decide_eq_true_1|].
  intros st3 Ho3 Ha3 Hd3 Hn3 Hnot Hat. simpl in *.
  apply wp_bind, wp_expect; [done|done|]. intros p4 Ht4 Hst4. apply wp_bind. simpl in *.
  apply (wp_node_built NIs st); simpl; [done|lia|lia|lia| |].
  - rewrite (λ H, seg_snoc (at_ st) _ _ _ H Ht4), (seg_app _ (at_ st1)),
      (seg_app (at_ st1) (at_ st1 + 1)), (seg_one _ _ _ Ht), Hnot by lia.
    rewrite <-!(assoc_L (++)). simpl. by apply g_is_null.
  - intros st5 Hb5 Heq. apply wp_ret. split; [done|lia].
Qed.

Lemma parses_not : parses (S fuel) NNot (not_ src toks rec).
Proof.
  intros st Hst Hf. apply wp_bind, wp_peek; [done|]. intros t p Ht.
  case_decide; [subst t|by apply (parses_tighter _ NNot NIs _ eq_refl parses_is)].
  apply wp_bind. eapply wp_bump_known; [done|done|done|]. intros _ Hst1.
  apply wp_bind, wp_nested_rec; [done|done|]. intros e st2 [Ho Ha Hd Hn Hg]. simpl in *.
  apply (wp_node_built NNot st); simpl; [done|lia|lia|lia| |auto].
  rewrite (seg_app _ (at_ st + 1)), (seg_one _ _ _ Ht) by lia. by apply g_not.
Qed.

Lemma parses_or : parses (S fuel) NOr (or_ src toks rec).
Proof.
  eapply parses_left_assoc; [done|done|intros t op; by destruct t|].
  eapply parses_left_assoc; [done|done|intros t op; by destruct t|apply parses_not].
Qed.
End Levels.

Lemma parses_entry fuel n : parses fuel (entry_nonterm n) (parse_entry src toks fuel n).
Proof.
  revert n. induction fuel as [|fuel IH]; intros n.
  - intros st [] ?. lia.
  - destruct n; [apply parses_or|apply parses_not|apply parses_unary]; exact IH.
Qed.

Lemma tokens_ok_last_index l i t p :
  tokens_ok l → l !! i = Some (t, p) → is_last t = true → S i = length l.
Proof.
  intros H. revert i. induction H as [t' a Hl|t' a l Hl Hok H IH]; intros [|i] Hi Ht;
    simplify_eq/=; try congruence. f_equal. by apply IH.
Qed.

(** The state the parser stops in once the whole text is read. *)
Record accepted (e : Expr) (st : PState) : Prop := {
  a_toks : fst <$> toks = seg 0 (at_ st) ++ [TEof];
  a_gram : gram NOr (seg 0 (at_ st)) e;
  a_size : expr_size e ≤ MAX_NODES }.

Lemma wp_parse_tokens :
  wp (parse_tokens src toks) accepted {| at_ := 0; depth := 0; nodes := 0 |}.
Proof.
  set (st := {| at_ := 0; depth := 0; nodes := 0 |}).
  assert (st_ok st) as Hst.
  { split; simpl; [destruct Htoks; simpl; lia|lia|lia]. }
  apply wp_bind, wp_peek; [done|]. intros t p Ht. case_decide; [by apply wp_fail_here|].
  apply wp_bind. eapply wp_mono; [apply (parses_entry (S MAX_DEPTH) EnterOr); [done|simpl; lia]|].
  intros e st1 [Ho Ha Hd Hn Hg]. simpl in *. apply wp_bind, wp_peek; [done|]. intros t1 p1 Ht1.
  destruct (decide (t1 = TEof)) as [->|Hne].
  - pose proof (tokens_ok_last_index _ _ _ _ Htoks Ht1 eq_refl) as Hlen. apply wp_ret. split.
    + rewrite <-(seg_snoc 0 _ _ _ ltac:(lia) Ht1). unfold seg. symmetry.
      rewrite drop_0. apply take_ge. rewrite length_fmap. lia.
    + done.
    + destruct Ho. lia.
  - destruct t1 as [|[]| | |op| | | | | |]; try done; try by apply wp_fail_here.
    destruct (is_comparison op); by apply wp_fail_here.
Qed.
End Soundness.

(** ** Well-formed trees *)

(** What every tree the parser builds satisfies: the shape of its literals and
    names, the arity of its calls, the bounds on its lists.  The nodes only
    type checking introduces do not occur. *)
Inductive expr_ok : Expr → Prop :=
| ok_field name : tok_ok (TIdent name) → str_forall (λ b, negb (is_ascii_uppercase b)) name = true →
    expr_ok (EField name)
| ok_text v : tok_ok (TStr v) → expr_ok (EText v)
| ok_number v : tok_ok (TNumber v) → expr_ok (ENumber v)
| ok_bool b : expr_ok (EBool b)
| ok_interval n u : (n ≤ 1000000)%N → expr_ok (EInterval n u)
| ok_not e : expr_ok e → expr_ok (ENot e)
| ok_neg e : expr_ok e → expr_ok (ENeg e)
| ok_binary op l r : expr_ok l → expr_ok r → expr_ok (EBinary op l r)
| ok_is_null e n : expr_ok e → expr_ok (EIsNull e n)
| ok_between e lo hi n : expr_ok e → expr_ok lo → expr_ok hi → expr_ok (EBetween e lo hi n)
| ok_in e l n : expr_ok e → Forall expr_ok l → 0 < length l ≤ MAX_IN_ITEMS → expr_ok (EIn e l n)
| ok_call f args : Forall expr_ok args → length args = func_arity f → expr_ok (ECall f args).

Create HintDb expr_ok.
#[export] Hint Constructors expr_ok : expr_ok.

Scheme gram_both := Minimality for gram Sort Prop
with gram_list_both := Minimality for gram_list Sort Prop.

Lemma interval_of_bound text n u : interval_of text = Some (n, u) → (n ≤ 1000000)%N.
Proof.
  unfold interval_of. destruct (split_whitespace text) as [|a [|b [|? ?]]]; try done.
  cbv zeta. destruct (parse_u32 a) as [k|]; repeat case_match; intros; simplify_eq; bool_hyps;
    try done; by apply N.leb_le.
Qed.

Lemma gram_expr_ok n ts e : gram n ts e → Forall tok_ok ts → expr_ok e.
Proof.
  apply (gram_both (λ _ ts e, Forall tok_ok ts → expr_ok e)
    (λ _ ts l, Forall tok_ok ts → Forall expr_ok l ∧ 0 < length l)); clear; intros;
    repeat match goal with
    | H : Forall _ (_ ++ _) |- _ => apply Forall_app in H as [? ?]
    | H : Forall _ (_ :: _) |- _ => apply Forall_cons in H as [? ?]
    | H : Forall tok_ok ?ts → _ , H' : Forall tok_ok ?ts |- _ => specialize (H H')
    | H : _ ∧ _ |- _ => destruct H
    end; eauto using interval_of_bound with expr_ok.
  rewrite length_app. split; [|lia]. apply Forall_app; auto.
Qed.

Lemma tokens_ok_front l ts :
  tokens_ok l → fst <$> l = ts ++ [TEof] → Forall tok_ok ts.
Proof.
  intros H. revert ts. induction H as [t a Hl|t a l Hl Hok H IH]; intros ts Hts.
  - destruct ts as [|t' [|? ?]]; simplify_eq/=. by constructor.
  - destruct ts as [|t' ts]; simplify_eq/=; try done. constructor; [done|]. by apply IH.
Qed.

(** ** The promises of [parse] *)

Lemma parse_run src toks :
  tokens src = Some toks →
  wp (parse_tokens src toks) (accepted toks) {| at_ := 0; depth := 0; nodes := 0 |}.
Proof.
  intros Ht. apply wp_parse_tokens. by destruct (tokens_total src) as (l & ? & ? & _); simplify_eq.
Qed.

Lemma parse_cases src : (∃ e, parse src = Some (Ok e)) ∨ ∃ e, parse src = Some (Err e).
Proof.
  unfold parse. destruct (MAX_SOURCE_BYTES <? _); [eauto|].
  destruct (tokens_total src) as (toks & Ht & _ & _). rewrite Ht.
  pose proof (parse_run src toks Ht) as Hwp. unfold wp in Hwp.
  destruct (parse_tokens _ _ _); [eauto|eauto|done|done].
Qed.

(** [C11] Parsing always answers: on any text whatever, it neither panics nor
    leaves the fuel bounds of the model, so its recursion never goes deeper
    than the nesting limit. *)
Theorem parse_total src : ∃ r, parse src = Some r.
Proof. destruct (parse_cases src) as [[e ->]|[e ->]]; eauto. Qed.

Lemma parse_ok_inv src e :
  parse src = Some (Ok e) →
  ∃ toks ts, tokens src = Some toks ∧ fst <$> toks = ts ++ [TEof] ∧ gram NOr ts e
    ∧ expr_size e ≤ MAX_NODES ∧ expr_ok e.
Proof.
  unfold parse. destruct (MAX_SOURCE_BYTES <? _); [done|].
  destruct (tokens_total src) as (toks & Ht & Hok & _). rewrite Ht.
  pose proof (parse_run src toks Ht) as Hwp. unfold wp in Hwp.
  destruct (parse_tokens _ _ _) as [e' st| | |]; try done. intros [= ->].
  destruct Hwp as [Htoks Hg Hs]. exists toks, (seg toks 0 (at_ st)).
  split_and!; try done. eauto using gram_expr_ok, tokens_ok_front.
Qed.

(** [C12] An accepted rule is derived from the whole of its tokens in the grammar
    of PostgreSQL's precedence levels: OR, AND, NOT, IS, comparisons (which do
    not chain), BETWEEN and IN, then the operators, sums, products, signs. *)
Theorem parse_sound src e :
  parse src = Some (Ok e) →
  ∃ toks ts, tokens src = Some toks ∧ fst <$> toks = ts ++ [TEof] ∧ gram NOr ts e.
Proof. intros (toks & ts & ? & ? & ? & _)%parse_ok_inv. eauto. Qed.

Lemma parse_sound_witness :
  ∃ toks ts, tokens "a = 1 or not b in (2, 3)" = Some toks ∧ fst <$> toks = ts ++ [TEof]
    ∧ gram NOr ts (EBinary Or (EBinary Eq (EField "a") (ENumber "1"))
                     (ENot (EIn (EField "b") [ENumber "2"; ENumber "3"] false))).
Proof. apply parse_sound. vm_compute. reflexivity. Defined.

(** An accepted rule has at most [MAX_NODES] nodes, and every node is within
    its bounds: literals of the allowed shapes and sizes, lower-case names, IN
    lists of at most [MAX_IN_ITEMS] items, calls at the arity of their function. *)
Theorem parse_bounds src e :
  parse src = Some (Ok e) → expr_size e ≤ MAX_NODES ∧ expr_ok e.
Proof. intros (toks & ts & _ & _ & _ & ? & ?)%parse_ok_inv. done. Qed.

Lemma parse_bounds_witness :
  parse "coalesce(a, 'x') <> 'y' is not null"
    = Some (Ok (EIsNull (EBinary Ne (ECall Coalesce [EField "a"; EText "x"]) (EText "y")) true))
  ∧ expr_size (EIsNull (EBinary Ne (ECall Coalesce [EField "a"; EText "x"]) (EText "y")) true) ≤ MAX_NODES.
Proof.
  split; [vm_compute; reflexivity|].
  apply (parse_bounds "coalesce(a, 'x') <> 'y' is not null"). vm_compute. reflexivity.
Defined.
