(* ===== verification/RulePattern.v ===== *)
(** * Patterns of [~] (core/src/rules/pattern.rs)

    The validator walks the tree the [regex-syntax] crate parses a pattern
    into.  The parser is a parameter; the tree has the constructors the walk
    matches on, which are all of them. *)

From stdpp Require Import base numbers pretty strings sets list.
From S2P Require Import Prelude Str.

Inductive SpecialLiteralKind := Tab | LineFeed | CarriageReturn | OtherSpecial.
Inductive LiteralKind := Verbatim | Meta | Special (kind : SpecialLiteralKind) | OtherLiteral.
Inductive AssertionKind := StartLine | EndLine | OtherAssertion.
Inductive RepetitionRange := Exactly (n : N) | AtLeast (n : N) | Bounded (m n : N).
Inductive RepetitionKind := OtherRepetition | RRange (range : RepetitionRange).
Inductive GroupKind := CaptureIndex | NonCapturing (flags : nat) | CaptureName.

Inductive ClassSetItem :=
| CEmpty
| CLiteral (kind : LiteralKind)
| CRange (start end_ : LiteralKind)
| CAscii (negated : bool)
| CUnicode
| CPerl
| CBracketed
| CUnion (items : list ClassSetItem).
Inductive ClassSet := ClassItem (item : ClassSetItem) | ClassBinaryOp.

Inductive Ast :=
| AEmpty
| AFlags
| ALiteral (kind : LiteralKind)
| ADot
| AAssertion (kind : AssertionKind)
| AClassUnicode
| AClassPerl
| AClassBracketed (class : ClassSet)
| ARepetition (op : RepetitionKind) (ast : Ast)
| AGroup (kind : GroupKind) (ast : Ast)
| AAlternation (asts : list Ast)
| AConcat (asts : list Ast).

Definition MAX_PATTERN_CHARS : nat := 128.
Definition MAX_REPEAT : N := 100.

Definition literal_ok (kind : LiteralKind) : result string unit :=
  match kind with
  | Verbatim | Meta => Ok tt
  | Special (Tab | LineFeed | CarriageReturn) => Ok tt
  | _ => Err "only plain characters, escaped metacharacters and \t \n \r are allowed"
  end.

Fixpoint item_ok (item : ClassSetItem) : result string unit :=
  match item with
  | CEmpty | CPerl => Ok tt
  | CLiteral kind => literal_ok kind
  | CRange start end_ => try? literal_ok start in literal_ok end_
  | CAscii false => Ok tt
  | CAscii true => Err "negated POSIX classes are not allowed"
  | CUnicode => Err "Unicode classes are not allowed"
  | CBracketed => Err "nested brackets are not allowed"
  | CUnion items => try_for_each item_ok items
  end.

Definition class_ok (set : ClassSet) : result string unit :=
  match set with
  | ClassBinaryOp => Err "class set operations are not allowed"
  | ClassItem item => item_ok item
  end.

(** The count the limit is checked on: the largest of a range. *)
Definition range_limit (r : RepetitionRange) : N :=
  match r with Exactly n | AtLeast n | Bounded _ n => n end.

Fixpoint walk (ast : Ast) (repeated : bool) : result string unit :=
  match ast with
  | AEmpty | ADot | AClassPerl => Ok tt
  | AFlags => Err "inline flags are not allowed"
  | ALiteral kind => literal_ok kind
  | AAssertion (StartLine | EndLine) => Ok tt
  | AAssertion OtherAssertion => Err "only the ^ and $ anchors are allowed"
  | AClassUnicode => Err "Unicode classes are not allowed"
  | AClassBracketed class => class_ok class
  | ARepetition op ast =>
      if repeated then Err "a quantifier cannot apply to an expression that already has one"
      else if match op with RRange range => (MAX_REPEAT <? range_limit range)%N | OtherRepetition => false end
      then Err "counted repetition is limited to 100"
      else walk ast true
  | AGroup CaptureIndex ast => walk ast repeated
  | AGroup (NonCapturing 0) ast => walk ast repeated
  | AGroup (NonCapturing _) _ => Err "inline flags are not allowed"
  | AGroup CaptureName _ => Err "named groups are not allowed"
  | AAlternation asts => try_for_each (λ ast, walk ast repeated) asts
  | AConcat asts => try_for_each (λ ast, walk ast repeated) asts
  end.

Section Validate.
Context (regex_parse : string → result string Ast).

Definition validate (pattern : string) : result string unit :=
  let refuse why : result string unit := Err ("pattern '" +:+ pattern +:+ "': " +:+ why) in
  if decide (pattern = "") then refuse "the pattern is empty"
  else if MAX_PATTERN_CHARS <? chars_count pattern
  then refuse ("patterns are limited to " +:+ pretty MAX_PATTERN_CHARS +:+ " characters")
  else if starts_with "***" pattern then refuse "'***' directors are not allowed"
  else match regex_parse pattern with
  | Err error => refuse error
  | Ok ast => match walk ast false with Ok u => Ok u | Err why => refuse why end
  end.
End Validate.

(** ** What an accepted pattern cannot do *)

(** The depth of quantifiers nested under one another. *)
Fixpoint star_height (ast : Ast) : nat :=
  match ast with
  | ARepetition _ ast => S (star_height ast)
  | AGroup _ ast => star_height ast
  | AAlternation asts | AConcat asts => foldr (λ a h, star_height a `max` h) 0 asts
  | _ => 0
  end.

(** The largest count written in a repetition. *)
Fixpoint max_repeat (ast : Ast) : N :=
  match ast with
  | ARepetition (RRange range) ast => N.max (range_limit range) (max_repeat ast)
  | ARepetition OtherRepetition ast => max_repeat ast
  | AGroup _ ast => max_repeat ast
  | AAlternation asts | AConcat asts => foldr (λ a h, N.max (max_repeat a) h) 0%N asts
  | _ => 0%N
  end.

Definition is_leaf (ast : Ast) : bool :=
  match ast with ARepetition _ _ | AGroup _ _ | AAlternation _ | AConcat _ => false | _ => true end.

Section AstInd.
Variable Q : Ast → Prop.
Hypothesis Hleaf : ∀ a, is_leaf a = true → Q a.
Hypothesis Hrep : ∀ op a, Q a → Q (ARepetition op a).
Hypothesis Hgroup : ∀ k a, Q a → Q (AGroup k a).
Hypothesis Halt : ∀ l, Forall Q l → Q (AAlternation l).
Hypothesis Hconcat : ∀ l, Forall Q l → Q (AConcat l).

Fixpoint Ast_nested_ind (a : Ast) : Q a :=
  let fix all (l : list Ast) : Forall Q l :=
    match l with
    | [] => Forall_nil_2 Q
    | x :: l => Forall_cons_2 Q x l (Ast_nested_ind x) (all l)
    end in
  match a with
  | AEmpty => Hleaf AEmpty eq_refl | AFlags => Hleaf AFlags eq_refl | ALiteral k => Hleaf (ALiteral k) eq_refl
  | ADot => Hleaf ADot eq_refl | AAssertion k => Hleaf (AAssertion k) eq_refl | AClassUnicode => Hleaf AClassUnicode eq_refl
  | AClassPerl => Hleaf AClassPerl eq_refl | AClassBracketed c => Hleaf (AClassBracketed c) eq_refl
  | ARepetition op a => Hrep op a (Ast_nested_ind a)
  | AGroup k a => Hgroup k a (Ast_nested_ind a)
  | AAlternation l => Halt l (all l)
  | AConcat l => Hconcat l (all l)
  end.
End AstInd.

(** The height a walk still allows. *)
Definition allowed_height (repeated : bool) : nat := if repeated then 0 else 1.

Lemma walk_list (Q : Ast → bool → Prop) repeated l :
  Forall (λ a, ∀ b, walk a b = Ok tt → Q a b) l →
  try_for_each (λ a, walk a repeated) l = Ok tt → Forall (λ a, Q a repeated) l.
Proof.
  rewrite try_for_each_ok_iff, !Forall_forall. intros IH Hw a Ha. apply (IH a Ha), (Hw a Ha).
Qed.

Lemma foldr_max_le l k : Forall (λ a, star_height a ≤ k) l → foldr (λ a h, star_height a `max` h) 0 l ≤ k.
Proof. induction 1; simpl; lia. Qed.
Lemma foldr_Nmax_le l k : Forall (λ a, (max_repeat a ≤ k)%N) l → (foldr (λ a h, N.max (max_repeat a) h) 0 l ≤ k)%N.
Proof. induction 1; simpl; lia. Qed.

Lemma walk_bounds ast repeated :
  walk ast repeated = Ok tt →
  star_height ast ≤ allowed_height repeated ∧ (max_repeat ast ≤ MAX_REPEAT)%N.
Proof.
  revert repeated. induction ast as [a Ha|op a IH|k a IH|l IH|l IH] using Ast_nested_ind; intros repeated.
  - destruct a; try done; simpl; intros; split; lia.
  - simpl. destruct repeated; [done|]. destruct op as [|range].
    + intros [? ?]%IH. simpl in *. split; lia.
    + destruct (N.ltb_spec MAX_REPEAT (range_limit range)); [done|].
      intros [? ?]%IH. simpl in *. split; lia.
  - simpl. destruct k as [|[|flags]|]; try done; apply IH.
  - simpl. intros Hw.
    apply (walk_list (λ a b, star_height a ≤ allowed_height b ∧ (max_repeat a ≤ MAX_REPEAT)%N)) in Hw; [|done].
    apply Forall_and in Hw as [? ?]. split; [by apply foldr_max_le|by apply foldr_Nmax_le].
  - simpl. intros Hw.
    apply (walk_list (λ a b, star_height a ≤ allowed_height b ∧ (max_repeat a ≤ MAX_REPEAT)%N)) in Hw; [|done].
    apply Forall_and in Hw as [? ?]. split; [by apply foldr_max_le|by apply foldr_Nmax_le].
Qed.

(** A pattern the validator admits is not empty, is short, parses, and its
    tree has no quantifier under another (star height at most one) and no
    counted repetition above the limit: it cannot backtrack catastrophically. *)
Theorem validate_star_height regex_parse pattern :
  validate regex_parse pattern = Ok tt →
  pattern ≠ "" ∧ chars_count pattern ≤ MAX_PATTERN_CHARS ∧
  ∃ ast, regex_parse pattern = Ok ast ∧ star_height ast ≤ 1 ∧ (max_repeat ast ≤ MAX_REPEAT)%N.
Proof.
  unfold validate. case_decide; [done|]. destruct (Nat.ltb_spec MAX_PATTERN_CHARS (chars_count pattern)); [done|].
  destruct (starts_with _ _); [done|]. destruct (regex_parse pattern) as [ast|] eqn:Hp; [|done].
  destruct (walk ast false) as [[]|] eqn:Hw; [|done]. intros _. split_and!; [done|done|].
  exists ast. split; [done|]. apply (walk_bounds ast false Hw).
Qed.

(** The tree of [^(a{2,5}|b+)$], as a parser that only knows that pattern gives it. *)
Definition demo_regex_parse (pattern : string) : result string Ast :=
  if decide (pattern = "^(a{2,5}|b+)$")
  then Ok (AConcat [AAssertion StartLine;
                    AGroup CaptureIndex (AAlternation
                      [ARepetition (RRange (Bounded 2 5)) (ALiteral Verbatim);
                       ARepetition OtherRepetition (ALiteral Verbatim)]);
                    AAssertion EndLine])
  else Err "unclosed group".

Lemma validate_star_height_witness :
  "^(a{2,5}|b+)$" ≠ "" ∧ chars_count "^(a{2,5}|b+)$" ≤ MAX_PATTERN_CHARS ∧
  ∃ ast, demo_regex_parse "^(a{2,5}|b+)$" = Ok ast ∧ star_height ast ≤ 1 ∧ (max_repeat ast ≤ MAX_REPEAT)%N.
Proof. apply (validate_star_height demo_regex_parse "^(a{2,5}|b+)$"). vm_compute. reflexivity. Defined.
