(* ===== verification/RuleTyping.v ===== *)
(** * Type resolution of rules (core/src/rules/typing.rs)

    Checking a tree resolves its operand types and turns text literals met by
    dates, timestamps or uuids into typed literals.  Parsing those literals is
    the business of the [chrono] and [uuid] crates, and patterns that of
    [regex-syntax]: parameters.  A check refuses with a message, or panics (an
    index out of range, an [unreachable!]); [NoFuel] bounds the recursion of the
    model, because one rule checks an already resolved operand again. *)

From stdpp Require Import base numbers pretty gmap strings sets list.
From S2P Require Import Prelude Str Ident Json DataTypes RuleAst RuleLexer RuleParser RuleGrammar RulePattern.

Inductive Ty :=
| TyBool | TyText | TyInt | TyFloat | TyNumeric | TyDate | TyTimestamp | TyInterval | TyJson | TyUuid
| TyArray | TyNumLit | TyTextLit.

#[export] Instance Ty_eq_dec : EqDecision Ty.
Proof. solve_decision. Defined.

Definition ty_name (t : Ty) : string :=
  match t with
  | TyBool => "boolean" | TyText | TyTextLit => "text" | TyInt => "integer" | TyFloat => "number"
  | TyNumeric => "decimal" | TyDate => "date" | TyTimestamp => "timestamp" | TyInterval => "interval"
  | TyJson => "json" | TyUuid => "uuid" | TyArray => "array" | TyNumLit => "number literal"
  end.

Definition ty_numeric (t : Ty) : bool :=
  match t with TyInt | TyFloat | TyNumeric | TyNumLit => true | _ => false end.
Definition ty_text (t : Ty) : bool := match t with TyText | TyTextLit => true | _ => false end.
Definition ty_orderable (t : Ty) : bool :=
  ty_numeric t || match t with TyDate | TyTimestamp | TyInterval => true | _ => false end.

Definition ty_of (t : FieldType) : Ty :=
  match t with
  | FText | FFile => TyText
  | FNumber => TyFloat
  | FDecimal _ => TyNumeric
  | FBoolean => TyBool
  | FDate => TyDate
  | FTimestamp => TyTimestamp
  | FJson => TyJson
  | FUuid | FEntityLink => TyUuid
  | FTextArray | FNumberArray => TyArray
  end.

(** [typing::Field] *)
Record RField := { rf_ty : Ty; rf_sensitive : bool; rf_pg : string }.
Notation Fields := (gmap string RField).

Inductive failure :=
| Refused (message : string)
| Panicked
| NoFuel.

Definition expect_ (ok : bool) (message : string) : result failure unit := ensure ok (Refused message).

Definition is_literal (e : Expr) : bool :=
  match e with
  | EText _ | ENumber _ | EBool _ => true
  | ENeg (ENumber _) => true
  | _ => false
  end.

Definition arithmetic (a b : Ty) : Ty :=
  if bool_decide (a = TyFloat) || bool_decide (b = TyFloat) then TyFloat
  else if bool_decide (a = TyNumeric) || bool_decide (b = TyNumeric) then TyNumeric
  else if bool_decide (a = TyInt) || bool_decide (b = TyInt) then TyInt
  else TyNumLit.

Definition compatible (a b : Ty) : bool :=
  let same_family := (ty_numeric a && ty_numeric b) || (ty_text a && ty_text b) || bool_decide (a = b) in
  same_family && negb (bool_decide (a = TyTextLit) && bool_decide (b = TyTextLit)).

Definition literal_ty (t : LiteralType) : Ty :=
  match t with LDate => TyDate | LTimestamp => TyTimestamp | LUuid => TyUuid end.

Section Checker.
(** [NaiveDate::parse_from_str(v, "%Y-%m-%d").is_ok()]; an RFC 3339 text, in UTC
    and canonical form; a uuid text, hyphenated; the pattern parser. *)
Context (date_ok : string → bool) (rfc3339 uuid_parse : string → option string)
        (regex_parse : string → result string Ast).
Context (fields : Fields).

Definition typed_literal (ty : Ty) (value : string) : result failure Expr :=
  match ty with
  | TyDate =>
      try? expect_ ((String.length value =? 10) && date_ok value)
        (quoted value +:+ " is not a date; write 'YYYY-MM-DD'") in
      Ok (ETyped LDate value)
  | TyTimestamp =>
      let? parsed := ok_or (rfc3339 value) (Refused (quoted value +:+
        " is not a timestamp; write RFC 3339 with an offset, like '2026-01-01T00:00:00Z'")) in
      Ok (ETyped LTimestamp parsed)
  | TyUuid =>
      let? parsed := ok_or (if String.length value =? 36 then uuid_parse value else None)
        (Refused (quoted value +:+ " is not a canonical uuid")) in
      Ok (ETyped LUuid parsed)
  | _ => Err Panicked
  end.

Section Check.
Context (check : Expr → result failure (Expr * Ty)).

Definition unify (ty : Ty) (other : Expr) (what : string) : result failure (Expr * Ty) :=
  let? '(other, oty) := check other in
  let? '(other, oty) :=
    match ty, oty, other with
    | TyDate, TyTextLit, EText value | TyTimestamp, TyTextLit, EText value
    | TyUuid, TyTextLit, EText value => let? typed := typed_literal ty value in Ok (typed, ty)
    | _, _, _ => Ok (other, oty)
    end in
  try? expect_ (compatible ty oty)
    (what +:+ " cannot compare " +:+ ty_name ty +:+ " with " +:+ ty_name oty) in
  Ok (other, oty).

Definition check_comparison (op : BinOp) (l r : Expr) (lty : Ty) : result failure (Expr * Ty) :=
  let? '(l, r, lty, rty) :=
    (if bool_decide (lty = TyTextLit) then
       let? '(r, rty) := check r in
       let? '(l, lty) := unify rty l (op_sql op) in Ok (l, r, lty, rty)
     else
       let? '(r, rty) := unify lty r (op_sql op) in Ok (l, r, lty, rty)
     : result failure (Expr * Expr * Ty * Ty)) in
  try? (match op with
        | Eq | Ne => Ok tt
        | _ => expect_ (ty_orderable lty && ty_orderable rty)
                 (if ty_text lty || ty_text rty
                  then quoted (op_sql op) +:+ " cannot order text: the result would depend on collation"
                  else quoted (op_sql op) +:+ " cannot order " +:+ ty_name lty)
        end) in
  try? expect_ (match lty with TyJson | TyArray => false | _ => true end)
    (quoted (op_sql op) +:+ " cannot compare " +:+ ty_name lty) in
  Ok (EBinary op l r, TyBool).

Definition arithmetic_ty (op : BinOp) (lty rty : Ty) : option Ty :=
  match op, lty, rty with
  | Sub, TyTimestamp, TyTimestamp => Some TyInterval
  | Sub, TyDate, TyDate => Some TyInt
  | _, a, b => if ty_numeric a && ty_numeric b then Some (arithmetic a b) else None
  end.

Definition check_binary (op : BinOp) (l r : Expr) : result failure (Expr * Ty) :=
  let? '(l, lty) := check l in
  match op with
  | And | Or =>
      let? '(r, rty) := check r in
      try? expect_ (bool_decide (lty = TyBool) && bool_decide (rty = TyBool))
        (op_sql op +:+ " needs booleans") in
      Ok (EBinary op l r, TyBool)
  | Eq | Ne | Lt | Le | Gt | Ge => check_comparison op l r lty
  | Match =>
      try? expect_ (bool_decide (lty = TyText)) ("'~' needs a text field, not " +:+ ty_name lty) in
      match r with
      | EText value =>
          try? map_err Refused (validate regex_parse value) in
          Ok (EBinary op l r, TyBool)
      | _ => Err (Refused "'~' needs a quoted pattern on its right")
      end
  | Add | Sub | Mul =>
      let? '(r, rty) := check r in
      let? ty := ok_or (arithmetic_ty op lty rty)
        (Refused (quoted (op_sql op) +:+ " cannot combine " +:+ ty_name lty +:+ " and " +:+ ty_name rty)) in
      Ok (EBinary op l r, ty)
  end.

(** [types[0]] and the arguments, out of range a panic. *)
Definition check_call (func : Func) (args : list Expr) : result failure (Expr * Ty) :=
  let? checked := try_map check args in
  let resolved := checked.*1 in
  let types := checked.*2 in
  let name := func_sql_name func in
  match types with
  | [] => Err Panicked
  | t0 :: _ =>
      let wrong := name +:+ "() does not accept " +:+ ty_name t0 in
      let plain (ok : bool) message ty : result failure (Expr * Ty) :=
        try? expect_ ok message in Ok (ECall func resolved, ty) in
      match func with
      | Length => plain (ty_text t0) wrong TyInt
      | Btrim | Upper | Lower => plain (ty_text t0) wrong TyText
      | Scale => plain (bool_decide (t0 = TyNumeric))
                   ("scale() needs a decimal field, not " +:+ ty_name t0) TyInt
      | Trunc => plain (bool_decide (t0 = TyFloat) || bool_decide (t0 = TyNumeric)) wrong t0
      | Abs => plain (bool_decide (t0 = TyFloat) || bool_decide (t0 = TyNumeric)
                      || bool_decide (t0 = TyInt)) wrong t0
      | JsonbTypeof => plain (bool_decide (t0 = TyJson)) wrong TyText
      | JsonbArrayLength => plain (bool_decide (t0 = TyJson)) wrong TyInt
      | Coalesce =>
          try? expect_ (match t0 with TyNumLit | TyTextLit | TyJson | TyArray => false | _ => true end)
            "coalesce() starts with a text, number, date, timestamp, uuid or boolean field" in
          match args with
          | _ :: arg1 :: _ =>
              let? '(fallback, fty) := unify t0 arg1 "coalesce()" in
              Ok (ECall func (<[1 := fallback]> resolved),
                  if ty_numeric t0 then arithmetic t0 fty else t0)
          | _ => Err Panicked
          end
      end
  end.
End Check.

Fixpoint check_n (fuel : nat) (e : Expr) : result failure (Expr * Ty) :=
  match fuel with
  | 0 => Err NoFuel
  | S fuel =>
      let check := check_n fuel in
      match e with
      | EField name =>
          let? field := ok_or (fields !! name) (Refused ("unknown field '" +:+ name +:+ "'")) in
          Ok (e, rf_ty field)
      | EText _ => Ok (e, TyTextLit)
      | ENumber _ => Ok (e, TyNumLit)
      | EBool _ => Ok (e, TyBool)
      | EInterval _ _ => Ok (e, TyInterval)
      | ETyped ty _ => Ok (e, literal_ty ty)
      | ENot e =>
          let? '(e, ty) := check e in
          try? expect_ (bool_decide (ty = TyBool)) ("NOT needs a boolean, not " +:+ ty_name ty) in
          Ok (ENot e, TyBool)
      | ENeg e =>
          let? '(e, ty) := check e in
          try? expect_ (ty_numeric ty) ("unary '-' needs a number, not " +:+ ty_name ty) in
          Ok (ENeg e, ty)
      | EIsNull e negated =>
          let? '(e, _) := check e in
          Ok (EIsNull e negated, TyBool)
      | EBinary op l r => check_binary check op l r
      | EBetween e lo hi negated =>
          let? '(e, ety) := check e in
          try? expect_ (ty_orderable ety)
            ("BETWEEN needs numbers, dates, timestamps or intervals, not " +:+ ty_name ety) in
          let? '(lo, _) := unify check ety lo "BETWEEN" in
          let? '(hi, _) := unify check ety hi "BETWEEN" in
          Ok (EBetween e lo hi negated, TyBool)
      | EIn e items negated =>
          let? '(e, ety) := check e in
          try? expect_ (ty_numeric ety || ty_text ety
              || bool_decide (ety = TyDate) || bool_decide (ety = TyUuid))
            ("IN needs text, numbers, dates or uuids, not " +:+ ty_name ety) in
          let? items := try_map (λ item,
              try? expect_ (is_literal item) "IN lists contain literals only" in
              let? '(item, _) := unify check ety item "IN" in Ok item) items in
          Ok (EIn e items negated, TyBool)
      | ECall func args => check_call check func args
      | EArrayWithin _ _ => Ok (e, TyBool)
      | EFinite e numeric =>
          let? '(e, _) := check e in
          Ok (EFinite e numeric, TyBool)
      end
  end.

Definition check (e : Expr) : result failure (Expr * Ty) := check_n (expr_size e) e.

(** [Checker::boolean] and [Checker::scalar] *)
Definition check_boolean (e : Expr) : result failure Expr :=
  let? '(e, ty) := check e in
  if decide (ty = TyBool) then Ok e
  else Err (Refused ("the rule must be a boolean condition, not " +:+ ty_name ty)).

Definition check_scalar (e : Expr) : result failure Expr :=
  let? '(e, ty) := check e in
  if bool_decide (expr_fields e [] = []) || bool_decide (ty = TyNumLit) || bool_decide (ty = TyTextLit)
  then Err (Refused "an index expression must use at least one field")
  else Ok e.

(** ** The typing of resolved trees *)

Definition canonical (t : LiteralType) (v : string) : Prop :=
  match t with
  | LDate => String.length v = 10 ∧ date_ok v = true
  | LTimestamp => ∃ s, rfc3339 s = Some v
  | LUuid => ∃ s, String.length s = 36 ∧ uuid_parse s = Some v
  end.

Definition not_literal (t : Ty) : bool :=
  match t with TyNumLit | TyTextLit | TyJson | TyArray => false | _ => true end.
Definition comparable (t : Ty) : bool := match t with TyJson | TyArray => false | _ => true end.

(** The result type of a function applied to one argument. *)
Definition func_ty (f : Func) (t : Ty) : option Ty :=
  match f with
  | Length => if ty_text t then Some TyInt else None
  | Btrim | Upper | Lower => if ty_text t then Some TyText else None
  | Scale => if decide (t = TyNumeric) then Some TyInt else None
  | Trunc => if decide (t ∈ [TyFloat; TyNumeric]) then Some t else None
  | Abs => if decide (t ∈ [TyFloat; TyNumeric; TyInt]) then Some t else None
  | JsonbTypeof => if decide (t = TyJson) then Some TyText else None
  | JsonbArrayLength => if decide (t = TyJson) then Some TyInt else None
  | Coalesce => None
  end.

(** Types of resolved trees.  Operands of a comparison belong to one family,
    text is never ordered, dates, timestamps and uuids only meet literals typed
    and normalised as such, patterns are validated. *)
Inductive has_ty : Expr → Ty → Prop :=
| t_field name f : fields !! name = Some f → has_ty (EField name) (rf_ty f)
| t_text v : has_ty (EText v) TyTextLit
| t_number v : bare_number v = true → has_ty (ENumber v) TyNumLit
| t_bool b : has_ty (EBool b) TyBool
| t_interval n u : has_ty (EInterval n u) TyInterval
| t_typed t v : canonical t v → has_ty (ETyped t v) (literal_ty t)
| t_not e : has_ty e TyBool → has_ty (ENot e) TyBool
| t_neg e t : has_ty e t → ty_numeric t = true → has_ty (ENeg e) t
| t_is_null e t n : has_ty e t → has_ty (EIsNull e n) TyBool
| t_logic op l r : op ∈ [And; Or] → has_ty l TyBool → has_ty r TyBool → has_ty (EBinary op l r) TyBool
| t_equal op l r a b : op ∈ [Eq; Ne] → has_ty l a → has_ty r b →
    compatible a b = true → comparable a = true → has_ty (EBinary op l r) TyBool
| t_order op l r a b : op ∈ [Lt; Le; Gt; Ge] → has_ty l a → has_ty r b →
    compatible a b = true → ty_orderable a = true → ty_orderable b = true →
    has_ty (EBinary op l r) TyBool
| t_match l v : has_ty l TyText → validate regex_parse v = Ok tt →
    has_ty (EBinary Match l (EText v)) TyBool
| t_arith op l r a b t : op ∈ [Add; Sub; Mul] → has_ty l a → has_ty r b →
    arithmetic_ty op a b = Some t → has_ty (EBinary op l r) t
| t_between e lo hi n a b c : has_ty e a → ty_orderable a = true →
    has_ty lo b → compatible a b = true → has_ty hi c → compatible a c = true →
    has_ty (EBetween e lo hi n) TyBool
| t_in e items n a : has_ty e a →
    ty_numeric a || ty_text a || bool_decide (a = TyDate) || bool_decide (a = TyUuid) = true →
    Forall (λ i, ∃ b, has_ty i b ∧ compatible a b = true) items → has_ty (EIn e items n) TyBool
| t_call f arg a t : has_ty arg a → func_ty f a = Some t → has_ty (ECall f [arg]) t
| t_coalesce e1 e2 a b : has_ty e1 a → not_literal a = true → has_ty e2 b → compatible a b = true →
    has_ty (ECall Coalesce [e1; e2]) (if ty_numeric a then arithmetic a b else a)
| t_finite e t n : has_ty e t → has_ty (EFinite e n) TyBool.

(** Trees as the parser and the shorthands build them: no typed literal yet, no
    array rule, numbers in digits, calls at their arity. *)
Fixpoint source_ok (e : Expr) : bool :=
  match e with
  | ETyped _ _ | EArrayWithin _ _ => false
  | ENumber v => bare_number v
  | EField _ | EText _ | EBool _ | EInterval _ _ => true
  | ENot e | ENeg e | EIsNull e _ | EFinite e _ => source_ok e
  | EBinary _ l r => source_ok l && source_ok r
  | EBetween e lo hi _ => source_ok e && source_ok lo && source_ok hi
  | EIn e items _ => source_ok e && forallb source_ok items
  | ECall f args => (length args =? func_arity f) && forallb source_ok args
  end.

Lemma expr_ok_source e : expr_ok e → source_ok e = true.
Proof.
  assert (∀ l, Forall (λ e, expr_ok e → source_ok e = true) l → Forall expr_ok l →
    forallb source_ok l = true) as Hall.
  { induction 1; inversion 1; subst; simpl; [done|]. by rewrite andb_true_iff; auto. }
  induction e using Expr_nested_ind; inversion 1; subst; simpl; rewrite ?andb_true_iff; auto 6.
  - apply number_shape_bare. by destruct H1.
  - split; [by apply Nat.eqb_eq|auto].
Qed.

(** ** A check refuses or resolves *)

Definition holds {A} (r : result failure A) (Q : A → Prop) : Prop :=
  match r with Ok a => Q a | Err (Refused _) => True | Err _ => False end.

Lemma holds_bind {A B} (r : result failure A) (k : A → result failure B) Q :
  holds r (λ a, holds (k a) Q) → holds (result_bind r k) Q.
Proof. by destruct r. Qed.
Lemma holds_mono {A} (r : result failure A) (Q Q' : A → Prop) :
  holds r Q → (∀ a, Q a → Q' a) → holds r Q'.
Proof. destruct r as [|[]]; simpl; auto. Qed.
Lemma holds_expect b msg (Q : unit → Prop) : (b = true → Q tt) → holds (expect_ b msg) Q.
Proof. destruct b; simpl; auto. Qed.
Lemma holds_ok_or {A} (o : option A) msg (Q : A → Prop) :
  (∀ a, o = Some a → Q a) → holds (ok_or o (Refused msg)) Q.
Proof. destruct o; simpl; auto. Qed.
Lemma holds_try_map {A B} (f : A → result failure B) (R : A → B → Prop) l :
  (∀ x, x ∈ l → holds (f x) (R x)) → holds (try_map f l) (Forall2 R l).
Proof.
  induction l as [|x l IH]; intros H; simpl; [constructor|].
  apply holds_bind. eapply holds_mono; [apply H; left|]. intros y Hy.
  apply holds_bind. eapply holds_mono; [apply IH; intros z Hz; apply H; by right|]. intros ys Hys.
  by constructor.
Qed.

Definition same_fields (e e' : Expr) : Prop := ∀ x, mentions e' x ↔ mentions e x.

Record resolves (e e' : Expr) (t : Ty) : Prop := {
  r_ty : has_ty e' t;
  r_fields : same_fields e e';
  r_lit : t = TyTextLit → ∃ v, e' = EText v }.

Lemma compatible_sym a b : compatible a b = compatible b a.
Proof. by destruct a, b. Qed.
Lemma compatible_text_lit a : compatible TyTextLit a = true → a = TyText.
Proof. by destruct a. Qed.

Section Spec.
Context (chk : Expr → result failure (Expr * Ty)) (fuel : nat).
Hypothesis Hchk : ∀ e, source_ok e = true → expr_size e ≤ fuel →
  holds (chk e) (λ r, resolves e r.1 r.2).

Lemma typed_literal_spec ty v :
  ty ∈ [TyDate; TyTimestamp; TyUuid] →
  holds (typed_literal ty v) (λ e, has_ty e ty ∧ (∀ x, ¬ mentions e x) ∧ ty ≠ TyTextLit).
Proof.
  intros Hty. destruct ty; try (exfalso; set_solver); unfold typed_literal.
  - apply holds_bind, holds_expect. intros [Hl%Nat.eqb_eq Hd]%andb_true_iff.
    split_and!; [by apply (t_typed LDate)|naive_solver|done].
  - apply holds_bind, holds_ok_or. intros p Hp.
    split_and!; [apply (t_typed LTimestamp); by exists v|naive_solver|done].
  - apply holds_bind, holds_ok_or. intros p Hp. destruct (Nat.eqb_spec (String.length v) 36); [|done].
    split_and!; [apply (t_typed LUuid); by exists v|naive_solver|done].
Qed.

Lemma unify_spec ty other what :
  source_ok other = true → expr_size other ≤ fuel →
  holds (unify chk ty other what) (λ r, resolves other r.1 r.2 ∧ compatible ty r.2 = true).
Proof.
  intros Hs Hf. apply holds_bind. eapply holds_mono; [by apply Hchk|]. intros [o' oty] [Ht Hm Hl].
  simpl in *. apply holds_bind.
  apply (holds_mono _ (λ r, resolves other r.1 r.2)).
  - assert (resolves other o' oty) as Hsame by done.
    destruct (decide (ty ∈ [TyDate; TyTimestamp; TyUuid])) as [Hty|Hty].
    + destruct oty; try (by destruct ty). destruct (Hl eq_refl) as [v ->].
      assert (holds (let? typed := typed_literal ty v in Ok (typed, ty)) (λ r, resolves other r.1 r.2)) as Hlit.
      { apply holds_bind. eapply holds_mono; [by apply typed_literal_spec|]. intros e (He & Hno & Hne).
        split; simpl; [done| |done]. intros x. rewrite <-(Hm x). simpl. split; [apply Hno|done]. }
      destruct ty; try done; exact Hlit.
    + destruct ty; try done; set_solver.
  - intros [e t] Hr. apply holds_bind, holds_expect. intros Hc. done.
Qed.

Lemma check_comparison_spec op l l' r lty :
  is_comparison op = true → resolves l l' lty → expr_size r ≤ fuel → source_ok r = true →
  holds (check_comparison chk op l' r lty) (λ o, resolves (EBinary op l r) o.1 o.2).
Proof.
  intros Hop Hl Hf Hs. apply holds_bind.
  apply (holds_mono _ (λ o, let '(l2, r2, lty2, rty2) := o in
    resolves l l2 lty2 ∧ resolves r r2 rty2 ∧ compatible lty2 rty2 = true)).
  - case_bool_decide as Hlit.
    + destruct (r_lit _ _ _ Hl Hlit) as [v ->].
      apply holds_bind. eapply holds_mono; [by apply Hchk|]. intros [r' rty] Hr. simpl in *.
      apply holds_bind. eapply holds_mono; [apply unify_spec; [done|destruct r; simpl in *; lia]|].
      intros [l2 lty2] [[Ht2 Hm2 Hl2] Hc]. simpl in *. split_and!; [|done|by rewrite compatible_sym].
      split; [done| |done]. intros x. rewrite (Hm2 x). by apply (r_fields _ _ _ Hl).
    + apply holds_bind. eapply holds_mono; [by apply unify_spec|]. intros [r' rty] [Hr Hc]. done.
  - intros [[[l2 r2] lty2] rty2] ([Htl Hml _] & [Htr Hmr _] & Hc).
    assert (∀ x, mentions (EBinary op l2 r2) x ↔ mentions (EBinary op l r) x) as Hm.
    { intros x. simpl. by rewrite (Hml x), (Hmr x). }
    apply holds_bind. destruct (decide (op ∈ [Eq; Ne])) as [He|He].
    + apply (holds_mono _ (λ _, True)); [by destruct op; try (apply holds_expect)|]. intros _ _.
      apply holds_bind, holds_expect. intros Hj. split; simpl; [by eapply t_equal|done|done].
    + apply (holds_mono _ (λ _, ty_orderable lty2 = true ∧ ty_orderable rty2 = true)).
      { destruct op; try done; try (exfalso; apply He; first [by left | by right; left]);
          apply holds_expect; intros [? ?]%andb_true_iff; done. }
      intros _ [Ho1 Ho2]. apply holds_bind, holds_expect. intros _. split; simpl; [|done|done].
      eapply t_order; eauto. destruct op; try done; try (exfalso; apply He; first [by left | by right; left]); repeat first [by left | right].
Qed.

Lemma arithmetic_ty_not_lit op a b t : arithmetic_ty op a b = Some t → t ≠ TyTextLit.
Proof. destruct op, a, b; simpl; intros; simplify_eq; done. Qed.

Lemma check_binary_spec op l r :
  source_ok l = true → source_ok r = true → expr_size l ≤ fuel → expr_size r ≤ fuel →
  holds (check_binary chk op l r) (λ o, resolves (EBinary op l r) o.1 o.2).
Proof.
  intros Hsl Hsr Hfl Hfr. apply holds_bind. eapply holds_mono; [by apply Hchk|].
  intros [l' lty] Hl. simpl in Hl. destruct (is_comparison op) eqn:Hop.
  { assert (holds (check_comparison chk op l' r lty) (λ o, resolves (EBinary op l r) o.1 o.2))
      by by apply check_comparison_spec. by destruct op. }
  destruct (decide (op = Match)) as [->|Hm].
  { apply holds_bind, holds_expect. intros ->%bool_decide_eq_true_1. destruct r; try done.
    apply holds_bind. destruct (validate regex_parse value) as [[]|] eqn:Hv; simpl; [|done].
    destruct Hl as [Ht Hf _]. split; simpl; [by apply t_match| |done]. intros x. simpl. by rewrite (Hf x). }
  assert (∀ r' rty t, resolves r r' rty → has_ty (EBinary op l' r') t → t ≠ TyTextLit →
    resolves (EBinary op l r) (EBinary op l' r') t) as Hres.
  { intros r' rty t [Ht Hf _] Ht' Hne. split; [done| |done].
    intros x. simpl. by rewrite (Hf x), (r_fields _ _ _ Hl x). }
  destruct (decide (op ∈ [And; Or])) as [Hlog|Hlog].
  - assert (holds (let? '(r, rty) := chk r in
      try? expect_ (bool_decide (lty = TyBool) && bool_decide (rty = TyBool)) (op_sql op +:+ " needs booleans") in
      Ok (EBinary op l' r, TyBool)) (λ o, resolves (EBinary op l r) o.1 o.2)) as H.
    { apply holds_bind. eapply holds_mono; [by apply Hchk|]. intros [r' rty] Hr.
      apply holds_bind, holds_expect. intros Hb. bool_hyps. subst.
      eapply Hres; [done| |done]. apply t_logic; [done|by destruct Hl|by destruct Hr]. }
    destruct op; try done; set_solver.
  - assert (op ∈ [Add; Sub; Mul]) as Har by (destruct op; try done; set_solver).
    assert (holds (let? '(r, rty) := chk r in
      let? ty := ok_or (arithmetic_ty op lty rty)
        (Refused (quoted (op_sql op) +:+ " cannot combine " +:+ ty_name lty +:+ " and " +:+ ty_name rty)) in
      Ok (EBinary op l' r, ty)) (λ o, resolves (EBinary op l r) o.1 o.2)) as H.
    { apply holds_bind. eapply holds_mono; [by apply Hchk|]. intros [r' rty] Hr.
      apply holds_bind, holds_ok_or. intros ty Hty. eapply Hres; [done| |by eapply arithmetic_ty_not_lit].
      eapply t_arith; [done|by destruct Hl|by destruct Hr|done]. }
    destruct op; try done; set_solver.
Qed.

Lemma check_call_one f arg :
  func_arity f = 1 → source_ok arg = true → expr_size arg ≤ fuel →
  holds (check_call chk f [arg]) (λ o, resolves (ECall f [arg]) o.1 o.2).
Proof.
  intros Ha Hs Hf. apply holds_bind. simpl. apply holds_bind.
  eapply holds_mono; [by apply Hchk|]. intros [arg' a] [Ht Hm _]. simpl in *.
  assert (∀ t, func_ty f a = Some t → t ≠ TyTextLit → resolves (ECall f [arg]) (ECall f [arg']) t) as Hres.
  { intros t Hft Hne. split; [by eapply t_call|intros x; simpl; by rewrite (Hm x)|done]. }
  destruct f; try discriminate Ha; apply holds_bind, holds_expect; intros Hb; apply Hres; simpl;
    repeat match goal with
    | H : ty_text a = true |- _ => rewrite H
    | H : _ || _ = true |- _ => apply orb_true_iff in H as [?|?]
    | H : bool_decide _ = true |- _ => apply bool_decide_eq_true_1 in H; subst a
    end; done.
Qed.

Lemma check_coalesce e1 e2 :
  source_ok e1 = true → source_ok e2 = true → expr_size e1 ≤ fuel → expr_size e2 ≤ fuel →
  holds (check_call chk Coalesce [e1; e2]) (λ o, resolves (ECall Coalesce [e1; e2]) o.1 o.2).
Proof.
  intros Hs1 Hs2 Hf1 Hf2. apply holds_bind. simpl. apply holds_bind.
  eapply holds_mono; [by apply Hchk|]. intros [e1' a] [Ht1 Hm1 _]. simpl.
  apply holds_bind, holds_bind. eapply holds_mono; [by apply Hchk|]. intros [e2' b] _. simpl.
  apply holds_bind, holds_expect. intros Hnl.
  apply holds_bind. eapply holds_mono; [by apply unify_spec|]. intros [fb fty] [[Htf Hmf _] Hc]. simpl in *.
  split.
  - by apply t_coalesce.
  - intros x. simpl. by rewrite (Hm1 x), (Hmf x).
  - intros Hlit. exfalso. destruct a; simpl in *; try done; revert Hlit; clear; by destruct fty.
Qed.

Lemma check_call_spec f args :
  (length args =? func_arity f) && forallb source_ok args = true →
  sum_list_with expr_size args ≤ fuel →
  holds (check_call chk f args) (λ o, resolves (ECall f args) o.1 o.2).
Proof.
  intros [Hlen%Nat.eqb_eq Hs]%andb_true_iff Hf.
  destruct (decide (f = Coalesce)) as [->|Hne].
  - destruct args as [|e1 [|e2 [|? ?]]]; try done. simpl in *. bool_hyps.
    apply check_coalesce; (done || lia).
  - assert (func_arity f = 1) as Ha by by destruct f.
    rewrite Ha in Hlen. destruct args as [|e1 [|? ?]]; try done. simpl in *. bool_hyps.
    apply check_call_one; (done || lia).
Qed.

Lemma same_fields_list items items' :
  Forall2 same_fields items items' → ∀ x,
  foldr (λ a acc, mentions a x ∨ acc) False items' ↔ foldr (λ a acc, mentions a x ∨ acc) False items.
Proof. intros H x. induction H as [|e e' l l' He Hl IH]; simpl; [done|]. by rewrite IH, (He x). Qed.
End Spec.

Lemma elem_size e items : e ∈ items → expr_size e ≤ sum_list_with expr_size items.
Proof. intros H. induction H; simpl; lia. Qed.

(** The types of declared fields are those of [ty_of]. *)
Definition fields_ok : Prop := map_Forall (λ _ f, ∃ t, rf_ty f = ty_of t) fields.

Lemma check_leaf_spec fuel e :
  fields_ok → source_ok e = true → match e with EField _ | EText _ | ENumber _ | EBool _ | EInterval _ _ => True
              | _ => False end →
  holds (check_n (S fuel) e) (λ o, resolves e o.1 o.2).
Proof.
  intros Hfok Hs He. destruct e; try done; cbn [check_n]; try (split; simpl; [by constructor|done|by eauto]).
  apply holds_bind, holds_ok_or. intros f Hfld. split; [by apply t_field|done|].
  destruct (Hfok _ _ Hfld) as [t Ht]. simpl. rewrite Ht. by destruct t.
Qed.

Lemma check_n_spec fuel e :
  fields_ok → source_ok e = true → expr_size e ≤ fuel → holds (check_n fuel e) (λ o, resolves e o.1 o.2).
Proof.
  intros Hfok. revert e. induction fuel as [|fuel IH]; intros e Hs Hf; [destruct e; simpl in Hf; lia|].
  assert (∀ e e' t, has_ty e' t → same_fields e e' → t ≠ TyTextLit → resolves e e' t) as Hres
    by by constructor.
  destruct e; simpl in Hs, Hf; try (by apply check_leaf_spec); try done; cbn [check_n]; bool_hyps.
  - apply holds_bind. eapply holds_mono; [apply IH; (done || lia)|]. intros [e' t] [Ht Hm _]. simpl in *.
    apply holds_bind, holds_expect. intros ->%bool_decide_eq_true_1. apply Hres; simpl; [by constructor|done|done].
  - apply holds_bind. eapply holds_mono; [apply IH; (done || lia)|]. intros [e' t] [Ht Hm _]. simpl in *.
    apply holds_bind, holds_expect. intros Hn. apply Hres; simpl; [by constructor|done|by intros ->].
  - apply (check_binary_spec (check_n fuel) fuel); (done || lia || exact IH).
  - apply holds_bind. eapply holds_mono; [apply IH; (done || lia)|]. intros [e' t] [Ht Hm _]. simpl in *.
    apply Hres; simpl; [by econstructor|done|done].
  - apply holds_bind. eapply holds_mono; [apply IH; (done || lia)|]. intros [e' t] [Ht Hm _]. simpl in *.
    apply holds_bind, holds_expect. intros Ho.
    apply holds_bind. eapply holds_mono; [apply (unify_spec (check_n fuel) fuel); (done || lia || exact IH)|].
    intros [lo' b] [[Htl Hml _] Hcl]. simpl in *.
    apply holds_bind. eapply holds_mono; [apply (unify_spec (check_n fuel) fuel); (done || lia || exact IH)|].
    intros [hi' c] [[Hth Hmh _] Hch]. simpl in *. apply Hres; simpl; [by econstructor| |done].
    intros x. simpl. by rewrite (Hm x), (Hml x), (Hmh x).
  - apply holds_bind. eapply holds_mono; [apply IH; (done || lia)|]. intros [e' t] [Ht Hm _]. simpl in *.
    apply holds_bind, holds_expect. intros Hok. apply holds_bind.
    eapply holds_mono; [apply (holds_try_map _ (λ i i', same_fields i i' ∧
      ∃ b, has_ty i' b ∧ compatible t b = true))|].
    + intros item Hin. apply holds_bind, holds_expect. intros _. apply holds_bind.
      eapply holds_mono; [apply (unify_spec (check_n fuel) fuel); [exact IH| |]|].
      * eapply (proj1 (forallb_forall _ _)); [done|]. by apply list_elem_of_In.
      * pose proof (elem_size _ _ Hin). lia.
      * intros [i' b] [[Hti Hmi _] Hci]. simpl in *. eauto.
    + intros items' Hitems. apply Hres; simpl; [| |done].
      * apply (t_in _ _ _ t); [done|done|]. clear -Hitems.
        induction Hitems as [|? ? ? ? [_ ?] ? ?]; constructor; auto.
      * intros x. simpl. rewrite (Hm x). f_equiv. apply same_fields_list.
        eapply Forall2_impl; [done|]. by intros ? ? [? _].
  - apply (check_call_spec (check_n fuel) fuel); [exact IH| |lia]. by apply andb_true_iff.
  - apply holds_bind. eapply holds_mono; [apply IH; (done || lia)|]. intros [e' t] [Ht Hm _]. simpl in *.
    apply Hres; simpl; [by econstructor|done|done].
Qed.

Lemma check_spec e :
  fields_ok → source_ok e = true → holds (check e) (λ o, resolves e o.1 o.2).
Proof. intros. by apply check_n_spec. Qed.

Lemma check_boolean_spec e :
  fields_ok → source_ok e = true → holds (check_boolean e) (λ e', resolves e e' TyBool).
Proof.
  intros Hf Hs. apply holds_bind. eapply holds_mono; [by apply check_spec|]. intros [e' t] Hr. simpl in *.
  by case_decide; subst.
Qed.

Lemma check_scalar_spec e :
  fields_ok → source_ok e = true →
  holds (check_scalar e) (λ e', (∃ t, resolves e e' t) ∧ ∃ x, mentions e' x).
Proof.
  intros Hf Hs. apply holds_bind. eapply holds_mono; [by apply check_spec|]. intros [e' t] Hr. simpl in *.
  destruct (_ || _) eqn:Hb; [done|]. bool_hyps. split; [eauto|].
  destruct (expr_fields e' []) as [|x l] eqn:Hfs; [done|]. exists x.
  assert (x ∈ expr_fields e' []) as Hx by (rewrite Hfs; left).
  apply elem_of_expr_fields in Hx as [Hx|Hx]; [by apply elem_of_nil in Hx|done].
Qed.

(** A resolved tree reads declared fields only. *)
Lemma has_ty_declared e t x : has_ty e t → mentions e x → is_Some (fields !! x).
Proof.
  revert t. induction e using Expr_nested_ind; intros ty Hty; inversion Hty; subst; simpl; try done; try naive_solver.
  - intros [?|Hm]; [by eapply IHe|]. apply foldr_mentions in Hm as (i & Hi & Hm).
    rewrite Forall_forall in *.
    match goal with Hi' : ∀ y, y ∈ _ → ∃ b, _ |- _ => destruct (Hi' i Hi) as (b & Hb & _) end.
    by eapply H.
  - intros [?|[]]. inversion H; subst. eauto.
  - intros [?|[?|[]]]; inversion H as [|? ? ? H']; inversion H'; subst; eauto.
Qed.
End Checker.

(** ** The promises of the checker *)

(** Concrete stand-ins for the literal parsers, used by the witnesses. *)
Definition demo_date (s : string) : bool :=
  match split_byte "-" s with
  | [y; m; d] => (String.length y =? 4) && (String.length m =? 2) && (String.length d =? 2)
      && str_forall is_ascii_digit (y +:+ m +:+ d)
  | _ => false
  end.
Definition demo_id (s : string) : option string := Some s.

Definition demo_rfields : Fields :=
  <["born" := {| rf_ty := TyDate; rf_sensitive := false; rf_pg := "DATE" |}]>
  (<["age" := {| rf_ty := TyFloat; rf_sensitive := false; rf_pg := "DOUBLE PRECISION" |}]>
  (<["name" := {| rf_ty := TyText; rf_sensitive := true; rf_pg := "TEXT" |}]> ∅)).

Lemma demo_rfields_ok : fields_ok demo_rfields.
Proof.
  repeat apply map_Forall_insert_2; [by exists FDate|by exists FNumber|by exists FText|apply map_Forall_empty].
Defined.

(** [C8] Resolving a parsed rule as a condition always answers: it refuses with a
    message or gives a tree of boolean type in the declared typing, which reads
    exactly the fields the source reads, all of them declared. *)
Theorem check_boolean_sound date_ok rfc3339 uuid_parse regex_parse fields src e :
  fields_ok fields → parse src = Some (Ok e) →
  match check_boolean date_ok rfc3339 uuid_parse regex_parse fields e with
  | Ok e' => has_ty date_ok rfc3339 uuid_parse regex_parse fields e' TyBool
             ∧ (∀ x, mentions e' x ↔ mentions e x)
             ∧ (∀ x, mentions e' x → is_Some (fields !! x))
  | Err (Refused _) => True
  | Err _ => False
  end.
Proof.
  intros Hf (_ & _ & _ & _ & _ & _ & Hok)%parse_ok_inv.
  pose proof (check_boolean_spec date_ok rfc3339 uuid_parse regex_parse fields e Hf (expr_ok_source e Hok)) as H.
  destruct (check_boolean _ _ _ _ _ _) as [e'|[]]; simpl in *; try done. destruct H as [Ht Hm _].
  split_and!; [done|done|]. intros x. by eapply has_ty_declared.
Qed.

Lemma check_boolean_sound_witness :
  has_ty demo_date demo_id demo_id demo_regex_parse demo_rfields
    (EBinary And (EBinary Ge (EField "born") (ETyped LDate "2000-01-31"))
                 (EBetween (EField "age") (ENumber "0") (ENumber "150") false)) TyBool.
Proof.
  apply (check_boolean_sound demo_date demo_id demo_id demo_regex_parse demo_rfields
    "born >= '2000-01-31' and age between 0 and 150"
    (EBinary And (EBinary Ge (EField "born") (EText "2000-01-31"))
                 (EBetween (EField "age") (ENumber "0") (ENumber "150") false))
    demo_rfields_ok). vm_compute. reflexivity.
Defined.

(** Resolving a parsed index expression always answers, and what it accepts
    has a type and reads at least one declared field. *)
Theorem check_scalar_sound date_ok rfc3339 uuid_parse regex_parse fields src e :
  fields_ok fields → parse src = Some (Ok e) →
  match check_scalar date_ok rfc3339 uuid_parse regex_parse fields e with
  | Ok e' => ∃ t x, has_ty date_ok rfc3339 uuid_parse regex_parse fields e' t
             ∧ mentions e x ∧ is_Some (fields !! x)
  | Err (Refused _) => True
  | Err _ => False
  end.
Proof.
  intros Hf (_ & _ & _ & _ & _ & _ & Hok)%parse_ok_inv.
  pose proof (check_scalar_spec date_ok rfc3339 uuid_parse regex_parse fields e Hf (expr_ok_source e Hok)) as H.
  destruct (check_scalar _ _ _ _ _ _) as [e'|[]]; simpl in *; try done.
  destruct H as [[t [Ht Hm _]] [x Hx]]. exists t, x. split_and!; [done|by apply Hm|by eapply has_ty_declared].
Qed.

Lemma check_scalar_sound_witness :
  ∃ t x, has_ty demo_date demo_id demo_id demo_regex_parse demo_rfields (ECall Lower [EField "name"]) t
    ∧ mentions (ECall Lower [EField "name"]) x ∧ is_Some (demo_rfields !! x).
Proof.
  apply (check_scalar_sound demo_date demo_id demo_id demo_regex_parse demo_rfields "lower(name)"
    (ECall Lower [EField "name"]) demo_rfields_ok). vm_compute. reflexivity.
Defined.
