(* ===== verification/RuleEmit.v ===== *)
(** * SQL emission (core/src/rules/emit.rs)

    The emitter prints a resolved tree.  Its promise is stated against a scanner
    of SQL text: the tokens of the output are those of the tree, names only ever
    occur as quoted identifiers, values as string literals, and the parentheses
    balance, so no rule can reach outside the place it is spliced into. *)

From stdpp Require Import base numbers pretty gmap strings sets list.
From S2P Require Import Prelude Str Ident Json DataTypes RuleAst RuleLexer RuleParser RuleGrammar RulePattern RuleTyping SqlScan.

Definition literal_sql (t : LiteralType) : string :=
  match t with LDate => "date" | LTimestamp => "timestamptz" | LUuid => "uuid" end.

Definition not_sql (negated : bool) : string := if negated then "NOT " else "".

(** [args[0]], [args[1]] panic out of range. *)
Fixpoint sql (e : Expr) : option string :=
  match e with
  | EField name => Some (quote_ident name)
  | EText value => Some (quote_literal value)
  | ENumber value => Some value
  | EBool value => Some (if value then "TRUE" else "FALSE")
  | ETyped ty value => Some (quote_literal value +:+ "::pg_catalog." +:+ literal_sql ty)
  | EInterval amount unit =>
      Some ("'" +:+ pretty amount +:+ " " +:+ unit_as_str unit +:+ "'::pg_catalog.interval")
  | ENot e => s ← sql e; Some ("(NOT " +:+ s +:+ ")")
  | ENeg e => s ← sql e; Some ("(- " +:+ s +:+ ")")
  | EBinary op l r =>
      sl ← sql l; sr ← sql r; Some ("(" +:+ sl +:+ " " +:+ op_sql op +:+ " " +:+ sr +:+ ")")
  | EIsNull e negated => s ← sql e; Some ("(" +:+ s +:+ " IS " +:+ not_sql negated +:+ "NULL)")
  | EBetween e lo hi negated =>
      s ← sql e; slo ← sql lo; shi ← sql hi;
      Some ("(" +:+ s +:+ " " +:+ not_sql negated +:+ "BETWEEN " +:+ slo +:+ " AND " +:+ shi +:+ ")")
  | EIn e items negated =>
      s ← sql e; ss ← mapM sql items;
      Some ("(" +:+ s +:+ " " +:+ not_sql negated +:+ "IN (" +:+ join ", " ss +:+ "))")
  | ECall func args =>
      ss ← mapM sql args;
      match func, ss with
      | Coalesce, a :: b :: _ => Some ("COALESCE(" +:+ a +:+ ", " +:+ b +:+ ")")
      | Coalesce, _ => None
      | JsonbArrayLength, arg :: _ =>
          Some ("(CASE WHEN pg_catalog.jsonb_typeof(" +:+ arg
                +:+ ") = 'array' THEN pg_catalog.jsonb_array_length(" +:+ arg +:+ ") END)")
      | JsonbArrayLength, [] => None
      | _, _ => Some ("pg_catalog." +:+ func_sql_name func +:+ "(" +:+ join ", " ss +:+ ")")
      end
  | EArrayWithin field values =>
      Some ("(" +:+ quote_ident field +:+ " <@ ARRAY[" +:+ join ", " (map quote_literal values)
            +:+ "]::pg_catalog.text[])")
  | EFinite e numeric =>
      let ty := if numeric then "numeric" else "float8" in
      s ← sql e;
      Some ("(" +:+ s +:+ " < 'Infinity'::pg_catalog." +:+ ty +:+ " AND " +:+ s
            +:+ " > '-Infinity'::pg_catalog." +:+ ty +:+ ")")
  end.

(** ** The tokens of a tree *)

Definition cast_toks (ty : string) : list STok := [SSym ":"; SSym ":"; SBare ("pg_catalog." +:+ ty)].
Definition not_stoks (negated : bool) : list STok := if negated then [SBare "NOT"] else [].
Definition op_toks (op : BinOp) : list STok := sql_scan (op_sql op).
Fixpoint sql_toks (e : Expr) : list STok :=
  match e with
  | EField name => [SIdent name]
  | EText value => [SStr value]
  | ENumber value => [SBare value]
  | EBool value => [SBare (if value then "TRUE" else "FALSE")]
  | ETyped ty value => SStr value :: cast_toks (literal_sql ty)
  | EInterval amount unit => SStr (pretty amount +:+ " " +:+ unit_as_str unit) :: cast_toks "interval"
  | ENot e => paren (SBare "NOT" :: sql_toks e)
  | ENeg e => paren (SSym "-" :: sql_toks e)
  | EBinary op l r => paren (sql_toks l ++ op_toks op ++ sql_toks r)
  | EIsNull e negated => paren (sql_toks e ++ SBare "IS" :: not_stoks negated ++ [SBare "NULL"])
  | EBetween e lo hi negated =>
      paren (sql_toks e ++ not_stoks negated ++ SBare "BETWEEN" :: sql_toks lo ++ SBare "AND" :: sql_toks hi)
  | EIn e items negated =>
      paren (sql_toks e ++ not_stoks negated ++ SBare "IN" :: paren (comma_toks (map sql_toks items)))
  | ECall Coalesce args => SBare "COALESCE" :: paren (comma_toks (map sql_toks args))
  | ECall JsonbArrayLength args =>
      let arg := comma_toks (map sql_toks args) in
      paren (SBare "CASE" :: SBare "WHEN" :: SBare "pg_catalog.jsonb_typeof" :: paren arg
             ++ SSym "=" :: SStr "array" :: SBare "THEN" :: SBare "pg_catalog.jsonb_array_length" :: paren arg
             ++ [SBare "END"])
  | ECall func args =>
      SBare ("pg_catalog." +:+ func_sql_name func) :: paren (comma_toks (map sql_toks args))
  | EArrayWithin field values =>
      paren (SIdent field :: SSym "<" :: SSym "@" :: SBare "ARRAY" :: SSym "["
             :: comma_toks (map (λ v, [SStr v]) values)
             ++ SSym "]" :: cast_toks "text" ++ [SSym "["; SSym "]"])
  | EFinite e numeric =>
      let ty := if numeric then "numeric" else "float8" in
      paren (sql_toks e ++ SSym "<" :: SStr "Infinity" :: cast_toks ty
             ++ SBare "AND" :: sql_toks e ++ SSym ">" :: SStr "-Infinity" :: cast_toks ty)
  end.

(** ** The scanner reads the emitted text as the tokens of the tree *)

Lemma pretty_N_no_quote (n : N) : str_mem QUOTE (pretty n) = false.
Proof.
  destruct (pretty_N_digits n) as [H _]. induction (pretty n) as [|c s IH]; simpl in *; [done|].
  bool_hyps. rewrite IH, orb_false_r by done. by apply bool_decide_eq_false_2; intros ->.
Qed.

Lemma replace_byte_none c w s : str_mem c s = false → replace_byte c w s = s.
Proof.
  induction s as [|d s IH]; simpl; [done|]. intros [Hd Hs]%orb_false_iff.
  apply bool_decide_eq_false_1 in Hd. rewrite decide_False by done. by rewrite IH.
Qed.

(** Trees that emit: numbers in digits and dots, calls at their arity. *)
Fixpoint emit_ok (e : Expr) : bool :=
  match e with
  | ENumber v => bare_number v
  | EField _ | EText _ | EBool _ | ETyped _ _ | EInterval _ _ | EArrayWithin _ _ => true
  | ENot e | ENeg e | EIsNull e _ | EFinite e _ => emit_ok e
  | EBinary _ l r => emit_ok l && emit_ok r
  | EBetween e lo hi _ => emit_ok e && emit_ok lo && emit_ok hi
  | EIn e items _ => emit_ok e && forallb emit_ok items
  | ECall f args => (length args =? func_arity f) && forallb emit_ok args
  end.

Definition emits_expr (e : Expr) : Prop := ∃ s, sql e = Some s ∧ emits s (sql_toks e).

Lemma emits_exprs l :
  Forall (λ e, emit_ok e = true → emits_expr e) l → forallb emit_ok l = true →
  ∃ ss, mapM sql l = Some ss ∧ Forall2 emits ss (map sql_toks l).
Proof.
  induction 1 as [|e l He Hl IH]; simpl; intros Hok; [by exists []|]. bool_hyps.
  destruct He as (s & Hs & He); [done|]. destruct IH as (ss & Hss & IH); [done|].
  exists (s :: ss). split; [by simplify_option_eq|by constructor].
Qed.

Lemma bare_number_bare v : bare_number v = true → v ≠ "" ∧ str_forall is_bare v = true.
Proof.
  unfold bare_number. intros H. bool_hyps. split; [done|]. eapply str_forall_impl; [|done].
  intros c. unfold is_bare, is_word_byte, is_ascii_alphanumeric.
  destruct (is_ascii_digit c); rewrite ?orb_true_r; simpl; [done|]. intros ->. by rewrite ?orb_true_r.
Qed.

Lemma emits_interval amount unit : emits_expr (EInterval amount unit).
Proof.
  eexists. split; [done|]. intros rest Hb.
  assert (emits (quote_literal (pretty amount +:+ " " +:+ unit_as_str unit))
    [SStr (pretty amount +:+ " " +:+ unit_as_str unit)]) as Hq by apply emits_literal.
  pose proof (scan_bare "pg_catalog.interval" "" rest eq_refl Hb) as Hw.
  unfold quote_literal, quote_with in Hq.
  rewrite replace_byte_none in Hq
    by (rewrite !str_mem_app, pretty_N_no_quote; by destruct unit).
  specialize (Hq ("::pg_catalog.interval" +:+ rest) eq_refl).
  cbn [sql_toks]. replace (("'" +:+ _) +:+ rest) with
    (String QUOTE ((pretty amount +:+ " " +:+ unit_as_str unit) +:+ String QUOTE "")
      +:+ "::pg_catalog.interval" +:+ rest).
  - rewrite Hq. rewrite (scan_static Idle "::pg_catalog.interval" [SSym ":"; SSym ":"]
      (Bare "pg_catalog.interval") rest eq_refl).
    change (scan_from (Bare "pg_catalog.interval") rest)
      with (scan_from (Bare "pg_catalog.interval") ("" +:+ rest)). by rewrite Hw.
  - by repeat (rewrite ?str_app_cons, ?str_app_assoc, ?str_app_nil_l; simpl).
Qed.

Lemma emits_typed ty v : emits_expr (ETyped ty v).
Proof.
  eexists. split; [done|]. intros rest Hb. rewrite !str_app_assoc, emits_literal by done.
  rewrite (scan_static Idle "::pg_catalog." [SSym ":"; SSym ":"] (Bare "pg_catalog.") _ eq_refl).
  rewrite scan_bare by (by destruct ty). done.
Qed.

Lemma emits_call func args :
  Forall (λ e, emit_ok e = true → emits_expr e) args → emit_ok (ECall func args) = true →
  emits_expr (ECall func args).
Proof.
  intros IH Hok. simpl in Hok. apply andb_true_iff in Hok as [Hlen%Nat.eqb_eq Hok].
  destruct (emits_exprs args IH Hok) as (ss & Hss & HF).
  assert (Hj := emits_join _ _ HF). unfold emits_expr. cbn [sql]. rewrite Hss. cbn [mbind option_bind].
  destruct func; simpl in Hlen.
  all: try (eexists; split; [done|]; intros rest Hb; cbn [func_sql_name sql_toks]; scan_tac).
  - destruct args as [|e1 [|e2 [|? ?]]]; try done. inversion HF as [|s1 ? ? ? Hs1 HF2]; subst.
    inversion HF2 as [|s2 ? ? ? Hs2 HF3]; subst. inversion HF3; subst.
    eexists. split; [done|]. intros rest Hb. cbn [sql_toks map comma_toks]. unfold paren. scan_tac.
  - destruct args as [|e1 [|? ?]]; try done. inversion HF as [|s1 ? ? ? Hs1 HF2]; subst. inversion HF2; subst.
    eexists. split; [done|]. intros rest Hb. cbn [sql_toks map comma_toks]. unfold paren. scan_tac.
Qed.

Lemma scan_op op rest :
  scan_from Idle (" " +:+ op_sql op +:+ " " +:+ rest) = op_toks op ++ scan_from Idle rest.
Proof.
  rewrite <-!str_app_assoc. erewrite (scan_static Idle _ (op_toks op) Idle); [done|]. by destruct op.
Qed.

Lemma emits_all e : emit_ok e = true → emits_expr e.
Proof.
  induction e using Expr_nested_ind; intros Hok; simpl in Hok; bool_hyps;
    repeat match goal with IH : ?P → emits_expr ?e, H : ?P |- _ => destruct (IH H) as (? & ? & ?); clear IH end.
  - eexists; split; [done|apply emits_ident].
  - eexists; split; [done|apply emits_literal].
  - eexists; split; [done|]. apply bare_number_bare in Hok as [? ?]. by apply emits_bare.
  - eexists; split; [done|]. destruct b; by apply emits_bare.
  - apply emits_typed.
  - apply emits_interval.
  - unfold emits_expr; cbn [sql]; simplify_option_eq. eexists; split; [done|]. intros rest Hb.
    cbn [sql_toks]. unfold paren. scan_tac.
  - unfold emits_expr; cbn [sql]; simplify_option_eq. eexists; split; [done|]. intros rest Hb.
    cbn [sql_toks]. unfold paren. scan_tac.
  - unfold emits_expr; cbn [sql]; simplify_option_eq. eexists; split; [done|]. intros rest Hb.
    cbn [sql_toks]. unfold paren. rewrite !str_app_assoc.
    rewrite (scan_static Idle "(" [SSym "("] Idle _ eq_refl).
    match goal with Hl : emits ?s (sql_toks e1) |- _ => rewrite Hl by done end.
    rewrite scan_op.
    match goal with Hr : emits ?s (sql_toks e2) |- _ => rewrite Hr by done end.
    rewrite (scan_static Idle ")" [SSym ")"] Idle _ eq_refl). simpl. by rewrite <-!app_assoc.
  - unfold emits_expr; cbn [sql]; simplify_option_eq. eexists; split; [done|]. intros rest Hb.
    cbn [sql_toks]. unfold paren. destruct n; cbn [not_sql]; scan_tac.
  - unfold emits_expr; cbn [sql]; simplify_option_eq. eexists; split; [done|]. intros rest Hb.
    cbn [sql_toks]. unfold paren. destruct n; cbn [not_sql]; scan_tac.
  - destruct (emits_exprs l H ltac:(done)) as (ss & Hss & HF). assert (Hj := emits_join _ _ HF).
    unfold emits_expr. cbn [sql]. rewrite Hss. simplify_option_eq.
    eexists; split; [done|]. intros rest Hb. cbn [sql_toks]. unfold paren. destruct n; cbn [not_sql]; scan_tac.
  - apply emits_call; [done|]. simpl. by apply andb_true_iff.
  - eexists; split; [done|]. intros rest Hb. cbn [sql_toks]. unfold paren.
    assert (Hi := emits_ident f).
    assert (emits (join ", " (map quote_literal vs)) (comma_toks (map (λ v, [SStr v]) vs))) as Hj.
    { apply emits_join. induction vs; constructor; [apply emits_literal|done]. }
    scan_tac.
  - unfold emits_expr; cbn [sql]; simplify_option_eq. eexists; split; [done|]. intros rest Hb.
    cbn [sql_toks]. unfold paren. destruct n; scan_tac.
Qed.

(** ** Balance *)

Lemma balanced_map l : Forall (λ e, balanced (sql_toks e)) l → balanced (comma_toks (map sql_toks l)).
Proof. intros H. apply balanced_comma. induction H; by constructor. Qed.

Create HintDb balanced.
#[export] Hint Resolve balanced_app balanced_paren balanced_cons balanced_map : balanced.

Lemma balanced_not n : balanced (not_stoks n).
Proof. by destruct n. Qed.
Lemma balanced_op op : balanced (op_toks op).
Proof. by destruct op. Qed.
#[export] Hint Resolve balanced_not balanced_op : balanced.
#[export] Hint Extern 1 (balanced _) => reflexivity : balanced.
#[export] Hint Extern 0 (balanced [_]) => done : balanced.

Lemma balanced_toks e : balanced (sql_toks e).
Proof.
  induction e using Expr_nested_ind; cbn [sql_toks]; try done; unfold cast_toks;
    auto 25 with balanced.
  - destruct f; auto 25 with balanced.
  - assert (balanced (comma_toks (map (λ v, [SStr v]) vs))) as Hvs.
    { apply balanced_comma. induction vs; by constructor. }
    apply balanced_paren. intros d. simpl. by rewrite nesting_app, Hvs.
Qed.

(** ** The promises of the emitter *)

Lemma has_ty_emit_ok date_ok rfc uuid rx fields e t :
  has_ty date_ok rfc uuid rx fields e t → emit_ok e = true.
Proof.
  revert t. induction e using Expr_nested_ind; intros ty Hty; inversion Hty; subst; simpl;
    rewrite ?andb_true_iff; try naive_solver.
  - split; [by eapply IHe|]. apply forallb_forall. intros i Hi%list_elem_of_In.
    rewrite Forall_forall in *.
    match goal with Hi' : ∀ y, y ∈ _ → ∃ b, _ |- _ => destruct (Hi' i Hi) as (b & Hb & _) end.
    by eapply H.
  - inversion H; subst. split_and!; eauto. by destruct f; simplify_eq/=; repeat case_match.
  - inversion H as [|? ? ? H']; inversion H'; subst. split_and!; eauto.
Qed.

Lemma sql_emits e :
  emit_ok e = true →
  ∃ s, sql e = Some s ∧ balanced (sql_toks e)
    ∧ ∀ rest, bnd rest → sql_scan (s +:+ rest) = sql_toks e ++ sql_scan rest.
Proof.
  intros (s & Hs & He)%emits_all. exists s. split_and!; [done|apply balanced_toks|]. intros rest. apply He.
Qed.

(** [C7] An accepted rule always emits, and PostgreSQL's scanner reads the text as
    precisely the tokens of the resolved tree, whatever separated text follows:
    names as quoted identifiers, values as string literals, brackets balanced.
    Nothing a manifest writes can become SQL syntax. *)
Theorem emitted_sql_is_the_tree date_ok rfc3339 uuid_parse regex_parse fields src e e' :
  fields_ok fields → parse src = Some (Ok e) →
  check_boolean date_ok rfc3339 uuid_parse regex_parse fields e = Ok e' →
  ∃ s, sql e' = Some s ∧ balanced (sql_toks e')
    ∧ ∀ rest, bnd rest → sql_scan (s +:+ rest) = sql_toks e' ++ sql_scan rest.
Proof.
  intros Hf (_ & _ & _ & _ & _ & _ & Hok)%parse_ok_inv Hc.
  pose proof (check_boolean_spec date_ok rfc3339 uuid_parse regex_parse fields e Hf (expr_ok_source e Hok)) as H.
  rewrite Hc in H. destruct H as [Ht _ _]. apply sql_emits. by eapply has_ty_emit_ok.
Qed.

Lemma emitted_sql_is_the_tree_witness :
  ∃ s, sql (EBinary Ne (EField "name") (EText "x'); DROP TABLE a --")) = Some s
    ∧ balanced (sql_toks (EBinary Ne (EField "name") (EText "x'); DROP TABLE a --")))
    ∧ ∀ rest, bnd rest → sql_scan (s +:+ rest)
        = sql_toks (EBinary Ne (EField "name") (EText "x'); DROP TABLE a --")) ++ sql_scan rest.
Proof.
  apply (emitted_sql_is_the_tree demo_date demo_id demo_id demo_regex_parse demo_rfields
    "name <> 'x''); DROP TABLE a --'" (EBinary Ne (EField "name") (EText "x'); DROP TABLE a --"))
    _ demo_rfields_ok); vm_compute; reflexivity.
Defined.
