(* ===== verification/Filters.v ===== *)
(** * Collection queries

    The filters of a collection read (core/src/routes/crud.rs) and the fields they
    name (core/src/governance/cross_app.rs).  A condition is a tree with the SQL it is
    written as; values only ever become parameters.  The theorems say that the text is read as the tree, that the tree
    with its parameters means the filter, and which columns it names. *)

From stdpp Require Import base numbers pretty gmap strings sets list.
From S2P Require Import Prelude Str Ident Json DataTypes Perms Roles Authority SqlScan.

(** ** Conditions *)

Inductive Atom :=
  | ANull (field : string) (is_null : bool)
  | ACompare (field : string) (as_text : bool) (op : string) (n : nat) (cast : string)
  | AIn (field : string) (negated : bool) (ns : list nat) (cast : string)
  | AContains (field : string) (ns : list nat) (cast : string)
  | AConst (b : bool)
  | AAll (l : list Atom)                       (* the conditions on one field *)
  | AGroup (disjunction : bool) (l : list (list Atom))
  | ANot (c : list Atom).
(** A clause: the conditions that all hold. *)
Notation Cond := (list Atom).

Definition placeholder (n : nat) : string := "$" +:+ pretty n.
Definition bool_sql (b : bool) : string := if b then "TRUE" else "FALSE".
Fixpoint atom_sql (a : Atom) : string :=
  match a with
  | ANull field is_null => quote_ident field +:+ (if is_null then " IS NULL" else " IS NOT NULL")
  | ACompare field as_text op n cast =>
      quote_ident field +:+ (if as_text then "::text" else EmptyString) +:+ " " +:+ op +:+ " " +:+ placeholder n +:+ cast
  | AIn field negated ns cast =>
      quote_ident field +:+ " " +:+ (if negated then "NOT IN" else "IN") +:+ " ("
      +:+ join ", " (map (λ n, placeholder n +:+ cast) ns) +:+ ")"
  | AContains field ns cast => quote_ident field +:+ " @> ARRAY[" +:+ join ", " (map placeholder ns) +:+ "]" +:+ cast
  | AConst b => bool_sql b
  | AAll l => join " AND " (map atom_sql l)
  | AGroup disjunction l =>
      "(" +:+ join (if disjunction then " OR " else " AND ") (map (λ c, join " AND " (map atom_sql c)) l) +:+ ")"
  | ANot c => "NOT (" +:+ join " AND " (map atom_sql c) +:+ ")"
  end.
Definition cond_sql (c : Cond) : string := join " AND " (map atom_sql c).

(** ** Building them *)

(** [binds] and [idx] *)
Definition Params : Type := list string * nat.
Definition push_bind (v : string) (s : Params) : nat * Params := (S s.2, (s.1 ++ [v], S s.2)).

Section Build.
(** [Value::to_string] *)
Context (json_to_string : JsonValue → string) (types : FieldTypes).

Definition json_value_to_string (v : JsonValue) : string :=
  match v with
  | JString s => s
  | JNumber n => num_text n
  | JBool b => if b then "true" else "false"
  | JNull => EmptyString
  | _ => json_to_string v
  end.
Definition is_null (v : JsonValue) : bool := match v with JNull => true | _ => false end.
Definition is_string (v : JsonValue) : bool := match v with JString _ => true | _ => false end.

Definition manifest_type (field : string) : option FieldType := f_type <$> types !! field.
Definition pg_cast_suffix (t : option FieldType) : string := from_option parameter_cast EmptyString t.
Definition is_jsonb_type (t : option FieldType) : bool := from_option is_json false t.
Definition filter_bind_value (v : JsonValue) (t : option FieldType) : result ApiError string :=
  if from_option is_decimal false t && negb (is_string v) then Err (BadRequest "decimal filter values must be JSON strings")
  else Ok (json_value_to_string v).
Definition is_sensitive (field : string) : bool := from_option f_sensitive false (types !! field).

(** [iter().map(..).collect::<Result<_, _>>()] over the elements of a list *)
Fixpoint bind_each (f : JsonValue → result ApiError string) (l : list JsonValue) (s : Params) :
    result ApiError (list nat * Params) :=
  match l with
  | [] => Ok ([], s)
  | v :: l =>
      let? b := f v in
      let '(n, s) := push_bind b s in
      let? '(ns, s) := bind_each f l s in Ok (n :: ns, s)
  end.

Definition compare_with (field : string) (as_text : bool) (op cast : string) (value : result ApiError string) (s : Params) :
    result ApiError (list Atom * Params) :=
  let? v := value in
  let '(n, s) := push_bind v s in Ok ([ACompare field as_text op n cast], s).

(** One operator of a field's condition. *)
Definition build_operator (field op : string) (operand : JsonValue) (s : Params) : result ApiError (list Atom * Params) :=
  let t := manifest_type field in
  let cast := pg_cast_suffix t in
  let is_jsonb := is_jsonb_type t in
  if decide (op = "$eq") then
    if is_null operand then Ok ([ANull field true], s)
    else compare_with field false "=" cast (filter_bind_value operand t) s
  else if decide (op = "$ne") then
    if is_null operand then Ok ([ANull field false], s)
    else compare_with field false "!=" cast (filter_bind_value operand t) s
  else if bool_decide (op ∈ ["$gt"; "$gte"; "$lt"; "$lte"]) then
    let sql_op := if decide (op = "$gt") then ">" else if decide (op = "$gte") then ">="
                  else if decide (op = "$lt") then "<" else "<=" in
    compare_with field false sql_op cast (filter_bind_value operand t) s
  else if bool_decide (op ∈ ["$like"; "$ilike"]) then
    compare_with field is_jsonb (if decide (op = "$like") then "LIKE" else "ILIKE") EmptyString
      (Ok (json_value_to_string operand)) s
  else if bool_decide (op ∈ ["$in"; "$nin"]) then
    match operand with
    | JArray [] => Ok ([AConst (negb (bool_decide (op = "$in")))], s)
    | JArray arr =>
        let? '(ns, s) := bind_each (λ v, filter_bind_value v t) arr s in
        Ok ([AIn field (negb (bool_decide (op = "$in"))) ns cast], s)
    | _ => Err (BadRequest (op +:+ " must be an array"))
    end
  else if decide (op = "$contains") then
    match operand with
    | JArray [] => Ok ([], s)
    | JArray arr =>
        if is_jsonb then compare_with field false "@>" "::jsonb" (Ok (json_to_string operand)) s
        else let? '(ns, s) := bind_each (λ v, Ok (json_value_to_string v)) arr s in Ok ([AContains field ns cast], s)
    | _ => Err (BadRequest "$contains must be an array")
    end
  else if decide (op = "$isNull") then Ok ([ANull field (default true (as_bool operand))], s)
  else Err (BadRequest ("unknown operator: '" +:+ op +:+ "'")).

Fixpoint build_operators (field : string) (ops : list (string * JsonValue)) (s : Params) : result ApiError (list Atom * Params) :=
  match ops with
  | [] => Ok ([], s)
  | (op, operand) :: ops =>
      let? '(c, s) := build_operator field op operand s in
      let? '(cs, s) := build_operators field ops s in Ok (c ++ cs, s)
  end.

Definition build_field_condition (field : string) (val : JsonValue) (s : Params) : result ApiError (Atom * Params) :=
  if is_sensitive field then Err (BadRequest ("field '" +:+ field +:+ "' is sensitive and cannot be used as a filter"))
  else
  let t := manifest_type field in
  match val with
  | JObject ops =>
      if existsb (λ kv, starts_with "$" kv.1) ops
      then let? '(cs, s) := build_operators field ops s in Ok (AAll cs, s)
      else let? '(c, s) := compare_with field false "=" "::jsonb" (Ok (json_to_string val)) s in Ok (AAll c, s)
  | JNull => Ok (ANull field true, s)
  | _ => let? '(c, s) := compare_with field false "=" (pg_cast_suffix t) (filter_bind_value val t) s in Ok (AAll c, s)
  end.

(** The parts of a clause, [build_where_clause] on its sub-clauses. *)
Fixpoint build_where_clause (clause : JsonValue) (s : Params) : result ApiError (Cond * Params) :=
  let fix each (arr : list JsonValue) (s : Params) : result ApiError (list Cond * Params) :=
    match arr with
    | [] => Ok ([], s)
    | v :: arr =>
        let? '(c, s) := build_where_clause v s in
        let? '(cs, s) := each arr s in Ok (c :: cs, s)
    end in
  let fix parts (obj : list (string * JsonValue)) (s : Params) : result ApiError (list Atom * Params) :=
    match obj with
    | [] => Ok ([], s)
    | (key, val) :: obj =>
        let? '(p, s) :=
          (if bool_decide (key ∈ ["$and"; "$or"]) then
             match val with
             | JArray arr =>
                 let? '(subs, s) := each arr s in
                 Ok (match subs with [] => AConst true | _ => AGroup (bool_decide (key = "$or")) subs end, s)
             | _ => Err (BadRequest (key +:+ " must be an array"))
             end
           else if decide (key = "$not") then
             let? '(sub, s) := build_where_clause val s in Ok (ANot sub, s)
           else build_field_condition key val s) in
        let? '(ps, s) := parts obj s in Ok (p :: ps, s)
    end in
  match clause with
  | JObject obj =>
      let? '(ps, s) := parts obj s in
      Ok (match ps with [] => [AConst true] | _ => ps end, s)
  | _ => Err (BadRequest "where clause must be a JSON object")
  end.
End Build.

(** ** What a filter means *)

(** SQL's three-valued logic: [None] is unknown. *)
Definition and3 (a b : option bool) : option bool :=
  match a, b with
  | Some false, _ | _, Some false => Some false
  | Some true, Some true => Some true
  | _, _ => None
  end.
Definition or3 (a b : option bool) : option bool :=
  match a, b with
  | Some true, _ | _, Some true => Some true
  | Some false, Some false => Some false
  | _, _ => None
  end.
Definition not3 (a : option bool) : option bool := negb <$> a.
Definition all3 (l : list (option bool)) : option bool := foldr and3 (Some true) l.
Definition any3 (l : list (option bool)) : option bool := foldr or3 (Some false) l.

Lemma and3_assoc a b c : and3 a (and3 b c) = and3 (and3 a b) c.
Proof. by destruct a as [[]|], b as [[]|], c as [[]|]. Qed.
Lemma and3_true_l a : and3 (Some true) a = a.
Proof. by destruct a as [[]|]. Qed.
Lemma and3_true_r a : and3 a (Some true) = a.
Proof. by destruct a as [[]|]. Qed.
Lemma all3_app l1 l2 : all3 (l1 ++ l2) = and3 (all3 l1) (all3 l2).
Proof.
  unfold all3. induction l1 as [|a l1 IH]; [by rewrite and3_true_l|]. cbn [app foldr]. by rewrite IH, and3_assoc.
Qed.

Section Meaning.
Context (json_to_string : JsonValue → string) (types : FieldTypes).
(** What PostgreSQL answers of a row: whether a column is null, a comparison of a
    column (as text or not) with a parameter cast to a type, and whether an array
    column holds all the parameters. *)
Context {Row : Type} (null_at : Row → string → bool)
  (compare : Row → string → bool → string → string → string → option bool)
  (contains : Row → string → string → list string → option bool).

Definition bind_at (binds : list string) (n : nat) : option string :=
  match n with O => None | S k => binds !! k end.
Fixpoint eval_atom (binds : list string) (row : Row) (a : Atom) : option bool :=
  match a with
  | ANull field b => Some (Bool.eqb (null_at row field) b)
  | ACompare field as_text op n cast => v ← bind_at binds n; compare row field as_text op v cast
  | AIn field negated ns cast =>
      let r := any3 (map (λ n, v ← bind_at binds n; compare row field false "=" v cast) ns) in
      if negated then not3 r else r
  | AContains field ns cast => vs ← mapM (bind_at binds) ns; contains row field cast vs
  | AConst b => Some b
  | AAll l => all3 (map (eval_atom binds row) l)
  | AGroup disjunction l =>
      (if disjunction then any3 else all3) (map (λ c, all3 (map (eval_atom binds row) c)) l)
  | ANot c => not3 (all3 (map (eval_atom binds row) c))
  end.
Definition eval_cond (binds : list string) (row : Row) (c : Cond) : option bool := all3 (map (eval_atom binds row) c).

(** The filter itself, without parameters. *)
Local Notation text := (json_value_to_string json_to_string).
Definition operator_matches (row : Row) (field op : string) (v : JsonValue) : option bool :=
  let t := manifest_type types field in
  let cast := pg_cast_suffix t in
  if decide (op = "$eq") then
    if is_null v then Some (null_at row field) else compare row field false "=" (text v) cast
  else if decide (op = "$ne") then
    if is_null v then Some (negb (null_at row field)) else compare row field false "!=" (text v) cast
  else if decide (op = "$gt") then compare row field false ">" (text v) cast
  else if decide (op = "$gte") then compare row field false ">=" (text v) cast
  else if decide (op = "$lt") then compare row field false "<" (text v) cast
  else if decide (op = "$lte") then compare row field false "<=" (text v) cast
  else if decide (op = "$like") then compare row field (is_jsonb_type t) "LIKE" (text v) EmptyString
  else if decide (op = "$ilike") then compare row field (is_jsonb_type t) "ILIKE" (text v) EmptyString
  else if decide (op = "$in") then
    any3 (map (λ w, compare row field false "=" (text w) cast) (default [] (as_array v)))
  else if decide (op = "$nin") then
    not3 (any3 (map (λ w, compare row field false "=" (text w) cast) (default [] (as_array v))))
  else if decide (op = "$contains") then
    match default [] (as_array v) with
    | [] => Some true
    | ws => if is_jsonb_type t then compare row field false "@>" (json_to_string v) "::jsonb"
            else contains row field cast (map text ws)
    end
  else Some (Bool.eqb (null_at row field) (default true (as_bool v))).
Definition field_matches (row : Row) (field : string) (v : JsonValue) : option bool :=
  match v with
  | JObject ops =>
      if existsb (λ kv, starts_with "$" kv.1) ops
      then all3 (map (λ kv, operator_matches row field kv.1 kv.2) ops)
      else compare row field false "=" (json_to_string v) "::jsonb"
  | JNull => Some (null_at row field)
  | _ => compare row field false "=" (text v) (pg_cast_suffix (manifest_type types field))
  end.
(** An empty [$or] holds, as an empty [$and] does. *)
Fixpoint matches (row : Row) (clause : JsonValue) : option bool :=
  match clause with
  | JObject obj =>
      all3 (map (λ '(key, val),
        if bool_decide (key ∈ ["$and"; "$or"]) then
          match val with
          | JArray [] => Some true
          | JArray arr => (if bool_decide (key = "$or") then any3 else all3) (map (matches row) arr)
          | _ => None
          end
        else if decide (key = "$not") then not3 (matches row val)
        else field_matches row key val) obj)
  | _ => None
  end.

(** ** The tree with its parameters means the filter *)

(** Parameters are numbered from one, in the order they are bound. *)
Definition extends (s s' : Params) : Prop := s.2 = length s.1 → s'.2 = length s'.1 ∧ ∃ b, s'.1 = s.1 ++ b.
Lemma extends_refl s : extends s s.
Proof. intros H. split; [done|]. exists []. by rewrite app_nil_r. Qed.
Lemma extends_trans s1 s2 s3 : extends s1 s2 → extends s2 s3 → extends s1 s3.
Proof.
  intros H12 H23 H. destruct (H12 H) as [H2 [b E]]. destruct (H23 H2) as [H3 [b' E']]. split; [done|].
  exists (b ++ b'). by rewrite E', E, app_assoc.
Qed.

(** [c], built between two states of the parameters, means [m] whatever is bound
    after it. *)
Definition means (s : Params) (m : Row → option bool) (c : Cond) (s' : Params) : Prop :=
  extends s s' ∧ (s.2 = length s.1 → ∀ extra row, eval_cond (s'.1 ++ extra) row c = m row).

Lemma eval_cond_app binds row c1 c2 : eval_cond binds row (c1 ++ c2) = and3 (eval_cond binds row c1) (eval_cond binds row c2).
Proof.
  unfold eval_cond. rewrite map_app. apply all3_app.
Qed.
Lemma means_app s1 s2 s3 m1 m2 c1 c2 :
  means s1 m1 c1 s2 → means s2 m2 c2 s3 → means s1 (λ row, and3 (m1 row) (m2 row)) (c1 ++ c2) s3.
Proof.
  intros [E1 H1] [E2 H2]. split; [by eapply extends_trans|]. intros H extra row. rewrite eval_cond_app.
  destruct (E1 H) as [Hs2 _]. destruct (E2 Hs2) as [_ [b Hb]]. rewrite (H2 Hs2). f_equal.
  rewrite Hb, <-app_assoc. by apply H1.
Qed.
Lemma means_ext s s' m m' c : (∀ row, m row = m' row) → means s m c s' → means s m' c s'.
Proof. intros E [H1 H2]. split; [done|]. intros H extra row. by rewrite <-E, H2. Qed.
Lemma means_const s c m : (∀ binds row, eval_cond binds row c = m row) → means s m c s.
Proof. intros H. split; [apply extends_refl|]. intros _ extra row. apply H. Qed.

Lemma push_bind_extends v s : extends s (push_bind v s).2.
Proof. intros H. cbn. rewrite length_app, H. cbn. split; [lia|]. by exists [v]. Qed.
Lemma bind_at_pushed b0 v extra : bind_at ((b0 ++ [v]) ++ extra) (S (length b0)) = Some v.
Proof. cbn. rewrite <-app_assoc. by apply list_lookup_middle. Qed.

Lemma compare_with_means field as_text op cast value s c s' :
  compare_with field as_text op cast value s = Ok (c, s') →
  ∃ v, value = Ok v ∧ means s (λ row, compare row field as_text op v cast) c s'.
Proof.
  unfold compare_with. destruct value as [v|e]; [|done]. cbn. intros [= <- <-]. exists v. split; [done|].
  split; [apply push_bind_extends|]. intros H extra row. unfold eval_cond. cbn [map eval_atom all3 foldr push_bind fst snd].
  rewrite H, bind_at_pushed. cbn. apply and3_true_r.
Qed.

Lemma bind_each_bound f l s ns s' :
  bind_each f l s = Ok (ns, s') →
  ∃ vs, Forall2 (λ v b, f v = Ok b) l vs ∧ extends s s'
    ∧ (s.2 = length s.1 → ∀ extra, map (bind_at (s'.1 ++ extra)) ns = map Some vs).
Proof.
  revert s ns. induction l as [|v l IH]; intros s ns H; cbn in H.
  { injection H as <- <-. exists []. split_and!; [constructor|apply extends_refl|done]. }
  destruct (f v) as [b|e] eqn:Hf; [|done]. cbn in H.
  destruct (bind_each f l (s.1 ++ [b], S s.2)) as [[ns' s1]|e] eqn:Hb; [|done]. injection H as <- <-.
  destruct (IH _ _ Hb) as (vs & Hvs & Hext & Hbind). exists (b :: vs). split_and!.
  - by constructor.
  - eapply extends_trans; [apply (push_bind_extends b)|done].
  - intros Hs extra. destruct (push_bind_extends b s Hs) as [Hs1 _]. destruct (Hext Hs1) as [_ [b' E]]. cbn [map].
    rewrite (Hbind Hs1 extra). f_equal. rewrite E. cbn [fst]. rewrite <-app_assoc, Hs. apply bind_at_pushed.
Qed.
Lemma mapM_map_some {A B} (f : A → option B) l vs : map f l = map Some vs → mapM f l = Some vs.
Proof. revert vs. induction l as [|a l IH]; intros [|v vs] H; try done. cbn in H. injection H as H1 H2. cbn. by rewrite H1, (IH _ H2). Qed.

Lemma filter_bind_text v t b : filter_bind_value json_to_string v t = Ok b → b = text v.
Proof. unfold filter_bind_value. destruct (_ && _); [done|]. by intros [= <-]. Qed.
Lemma bind_texts f l vs : (∀ v b, f v = Ok b → b = text v) → Forall2 (λ v b, f v = Ok (E:=ApiError) b) l vs → vs = map text l.
Proof. intros Hf. induction 1 as [|v b l vs Hv _ IH]; [done|]. cbn. by rewrite (Hf _ _ Hv), IH. Qed.

Lemma map_bound {B} (g : option string → B) binds ns vs :
  map (bind_at binds) ns = map Some vs → map (λ n, g (bind_at binds n)) ns = map (λ v, g (Some v)) vs.
Proof. revert vs. induction ns as [|n ns IH]; intros [|v vs] H; try done. cbn in *. injection H as H1 H2. by rewrite H1, (IH vs H2). Qed.

Lemma in_means field t arr s ns s' negated cast :
  bind_each (λ v, filter_bind_value json_to_string v t) arr s = Ok (ns, s') →
  means s (λ row, let r := any3 (map (λ w, compare row field false "=" (text w) cast) arr) in if negated : bool then not3 r else r)
    [AIn field negated ns cast] s'.
Proof.
  intros (vs & Hvs & Hext & Hb)%bind_each_bound. apply bind_texts in Hvs as ->; [|intros v b; apply filter_bind_text].
  split; [done|]. intros Hs extra row. unfold eval_cond. cbn [map all3 foldr eval_atom]. rewrite and3_true_r.
  rewrite (map_bound (λ o, o ≫= λ v, compare row field false "=" v cast) _ _ _ (Hb Hs extra)), map_map. done.
Qed.
Lemma contains_means field arr s ns s' cast :
  bind_each (λ v, Ok (text v)) arr s = Ok (ns, s') →
  means s (λ row, contains row field cast (map text arr)) [AContains field ns cast] s'.
Proof.
  intros (vs & Hvs & Hext & Hb)%bind_each_bound. apply bind_texts in Hvs as ->; [|by intros v b [= <-]].
  split; [done|]. intros Hs extra row. unfold eval_cond. cbn [map all3 foldr eval_atom]. rewrite and3_true_r.
  by rewrite (mapM_map_some _ _ _ (Hb Hs extra)).
Qed.

Lemma compare_text_means field as_text op cast v t s c s' :
  compare_with field as_text op cast (filter_bind_value json_to_string v t) s = Ok (c, s') →
  means s (λ row, compare row field as_text op (text v) cast) c s'.
Proof. by intros (b & ->%filter_bind_text & H)%compare_with_means. Qed.
Lemma compare_plain_means field as_text op cast v s c s' :
  compare_with field as_text op cast (Ok v) s = Ok (c, s') → means s (λ row, compare row field as_text op v cast) c s'.
Proof. by intros (b & [= <-] & H)%compare_with_means. Qed.
Lemma null_means field b s : means s (λ row, Some (Bool.eqb (null_at row field) b)) [ANull field b] s.
Proof. apply means_const. intros binds row. apply and3_true_r. Qed.

Lemma build_operator_means field op v s c s' :
  build_operator json_to_string types field op v s = Ok (c, s') →
  means s (λ row, operator_matches row field op v) c s'.
Proof.
  unfold build_operator. cbv zeta.
  destruct (decide (op = "$eq")) as [->|H1].
  { destruct (is_null v) eqn:E; [intros [= <- <-]|intros H%compare_text_means].
    - eapply means_ext, null_means. intros row. unfold operator_matches. rewrite decide_True, E by done. by destruct (null_at row field).
    - eapply means_ext, H. intros row. unfold operator_matches. by rewrite decide_True, E by done. }
  destruct (decide (op = "$ne")) as [->|H2].
  { destruct (is_null v) eqn:E; [intros [= <- <-]|intros H%compare_text_means].
    - eapply means_ext, null_means. intros row. unfold operator_matches. cbn. rewrite E. by destruct (null_at row field).
    - eapply means_ext, H. intros row. unfold operator_matches. cbn. by rewrite E. }
  destruct (bool_decide (op ∈ ["$gt"; "$gte"; "$lt"; "$lte"])) eqn:Hg.
  { intros H%compare_text_means. apply bool_decide_eq_true in Hg. eapply means_ext, H. intros row.
    repeat (apply elem_of_cons in Hg as [->|Hg]; [by vm_compute|]). by apply not_elem_of_nil in Hg. }
  destruct (bool_decide (op ∈ ["$like"; "$ilike"])) eqn:Hl.
  { intros H%compare_plain_means. apply bool_decide_eq_true in Hl. eapply means_ext, H. intros row.
    repeat (apply elem_of_cons in Hl as [->|Hl]; [by vm_compute|]). by apply not_elem_of_nil in Hl. }
  destruct (bool_decide (op ∈ ["$in"; "$nin"])) eqn:Hi.
  { apply bool_decide_eq_true in Hi. destruct v as [| | | |arr|]; try done. destruct arr as [|w arr].
    - intros [= <- <-]. apply means_const. intros binds row. unfold eval_cond. cbn [map all3 foldr eval_atom]. rewrite and3_true_r.
      repeat (apply elem_of_cons in Hi as [->|Hi]; [by vm_compute|]). by apply not_elem_of_nil in Hi.
    - destruct (bind_each _ (w :: arr) s) as [[ns s1]|e] eqn:Hb; [|done]. intros [= <- <-]. eapply means_ext, in_means, Hb.
      intros row. repeat (apply elem_of_cons in Hi as [->|Hi]; [by vm_compute|]). by apply not_elem_of_nil in Hi. }
  destruct (decide (op = "$contains")) as [->|H6].
  { destruct v as [| | | |arr|]; try done. destruct arr as [|w arr]; [intros [= <- <-]; apply means_const; intros binds row; by vm_compute|].
    assert (∀ row, operator_matches row field "$contains" (JArray (w :: arr)) =
      if is_jsonb_type (manifest_type types field) then compare row field false "@>" (json_to_string (JArray (w :: arr))) "::jsonb"
      else contains row field (pg_cast_suffix (manifest_type types field)) (map text (w :: arr))) as Hm by reflexivity.
    destruct (is_jsonb_type (manifest_type types field)).
    - intros H%compare_plain_means. by eapply means_ext, H.
    - destruct (bind_each _ (w :: arr) s) as [[ns s1]|e] eqn:Hb; [|done]. intros [= <- <-].
      eapply means_ext; [|by eapply contains_means]. done. }
  destruct (decide (op = "$isNull")) as [->|H7]; [|done]. intros [= <- <-]. apply null_means.
Qed.

Lemma build_operators_means field ops s c s' :
  build_operators json_to_string types field ops s = Ok (c, s') →
  means s (λ row, all3 (map (λ kv, operator_matches row field kv.1 kv.2) ops)) c s'.
Proof.
  revert s c. induction ops as [|[op v] ops IH]; intros s c H; cbn [build_operators] in H.
  { injection H as <- <-. by apply means_const. }
  destruct (build_operator _ _ field op v s) as [[c1 s1]|e] eqn:H1; [|done]. cbn in H.
  destruct (build_operators _ _ field ops s1) as [[c2 s2]|e] eqn:H2; [|done]. injection H as <- <-.
  by eapply means_app; [apply build_operator_means|apply IH].
Qed.

Lemma means_all s m c s' : means s m c s' → means s m [AAll c] s'.
Proof. intros [H1 H2]. split; [done|]. intros H extra row. rewrite <-(H2 H extra row). apply and3_true_r. Qed.

Lemma build_field_condition_means field v s a s' :
  build_field_condition json_to_string types field v s = Ok (a, s') → means s (λ row, field_matches row field v) [a] s'.
Proof.
  unfold build_field_condition. destruct (is_sensitive types field); [done|]. cbv zeta.
  destruct v as [|b|n|t|arr|ops].
  - intros [= <- <-]. eapply means_ext, null_means. intros row. cbn. by destruct (null_at row field).
  - destruct (compare_with _ _ _ _ _ _) as [[c s1]|e] eqn:H; [|done]. intros [= <- <-]. by eapply means_all, compare_text_means.
  - destruct (compare_with _ _ _ _ _ _) as [[c s1]|e] eqn:H; [|done]. intros [= <- <-]. by eapply means_all, compare_text_means.
  - destruct (compare_with _ _ _ _ _ _) as [[c s1]|e] eqn:H; [|done]. intros [= <- <-]. by eapply means_all, compare_text_means.
  - destruct (compare_with _ _ _ _ _ _) as [[c s1]|e] eqn:H; [|done]. intros [= <- <-]. by eapply means_all, compare_text_means.
  - cbn [field_matches]. destruct (existsb _ ops).
    + destruct (build_operators _ _ field ops s) as [[c s1]|e] eqn:H; [|done]. intros [= <- <-]. by apply means_all, build_operators_means.
    + destruct (compare_with _ _ _ _ _ _) as [[c s1]|e] eqn:H; [|done]. intros [= <- <-]. by eapply means_all, compare_plain_means.
Qed.

(** The parts of a clause, as functions of their own. *)
Fixpoint build_each (arr : list JsonValue) (s : Params) : result ApiError (list Cond * Params) :=
  match arr with
  | [] => Ok ([], s)
  | v :: arr =>
      let? '(c, s) := build_where_clause json_to_string types v s in
      let? '(cs, s) := build_each arr s in Ok (c :: cs, s)
  end.
Definition build_part (key : string) (val : JsonValue) (s : Params) : result ApiError (Atom * Params) :=
  if bool_decide (key ∈ ["$and"; "$or"]) then
    match val with
    | JArray arr =>
        let? '(subs, s) := build_each arr s in
        Ok (match subs with [] => AConst true | _ => AGroup (bool_decide (key = "$or")) subs end, s)
    | _ => Err (BadRequest (key +:+ " must be an array"))
    end
  else if decide (key = "$not") then
    let? '(sub, s) := build_where_clause json_to_string types val s in Ok (ANot sub, s)
  else build_field_condition json_to_string types key val s.
Fixpoint build_parts (obj : list (string * JsonValue)) (s : Params) : result ApiError (list Atom * Params) :=
  match obj with
  | [] => Ok ([], s)
  | (key, val) :: obj =>
      let? '(p, s) := build_part key val s in
      let? '(ps, s) := build_parts obj s in Ok (p :: ps, s)
  end.
Lemma build_where_object obj s :
  build_where_clause json_to_string types (JObject obj) s =
  let? '(ps, s) := build_parts obj s in Ok (match ps with [] => [AConst true] | _ => ps end, s).
Proof.
  reflexivity.
Qed.

Definition clause_means (v : JsonValue) : Prop :=
  ∀ s c s', build_where_clause json_to_string types v s = Ok (c, s') → means s (λ row, matches row v) c s'.

Lemma build_each_means arr s cs s' :
  Forall clause_means arr → build_each arr s = Ok (cs, s') →
  extends s s' ∧ length cs = length arr
  ∧ (s.2 = length s.1 → ∀ extra row, map (eval_cond (s'.1 ++ extra) row) cs = map (matches row) arr).
Proof.
  intros Ha. revert s cs. induction Ha as [|v arr Hv _ IH]; intros s cs H; cbn [build_each] in H.
  { injection H as <- <-. split_and!; [apply extends_refl|done..]. }
  destruct (build_where_clause _ _ v s) as [[c s1]|e] eqn:H1; [|done]. cbn in H.
  destruct (build_each arr s1) as [[cs' s2]|e] eqn:H2; [|done]. injection H as <- <-.
  destruct (Hv _ _ _ H1) as [E1 M1]. destruct (IH _ _ H2) as (E2 & Hlen & M2).
  split_and!; [by eapply extends_trans|cbn; by rewrite Hlen|]. intros Hs extra row. destruct (E1 Hs) as [Hs1 _].
  cbn [map]. rewrite (M2 Hs1). f_equal. destruct (E2 Hs1) as [_ [b E]]. rewrite E, <-app_assoc. by apply M1.
Qed.

Lemma means_one s m c s' (f : list string → Row → option bool) :
  extends s s' → (s.2 = length s.1 → ∀ extra row, f (s'.1 ++ extra) row = m row) →
  (∀ binds row, eval_atom binds row c = f binds row) → means s m [c] s'.
Proof.
  intros E H Hf. split; [done|]. intros Hs extra row. unfold eval_cond. cbn [map all3 foldr]. by rewrite and3_true_r, Hf, H.
Qed.

Lemma build_part_means key val s a s' :
  (∀ arr, val = JArray arr → Forall clause_means arr) → clause_means val →
  build_part key val s = Ok (a, s') →
  means s (λ row, matches row (JObject [(key, val)])) [a] s'.
Proof.
  intros Harr Hval. unfold build_part. cbn [matches map].
  destruct (bool_decide (key ∈ ["$and"; "$or"])) eqn:Hk.
  - destruct val as [| | | |arr|]; try (by intros HH; discriminate HH). specialize (Harr arr eq_refl).
    destruct (build_each arr s) as [[cs s1]|e] eqn:He; [|by intros HH; discriminate HH]. cbn. intros [= <- <-].
    destruct (build_each_means _ _ _ _ Harr He) as (E & Hlen & M).
    destruct cs as [|c cs], arr as [|v arr]; try (by cbn in Hlen; lia).
    + apply (means_one _ _ _ _ (λ _ _, Some true)); [done|by intros|done].
    + apply (means_one _ _ _ _ (λ binds row, (if bool_decide (key = "$or") then any3 else all3) (map (eval_cond binds row) (c :: cs))));
        [done| |done].
      intros Hs extra row. rewrite (M Hs). by rewrite and3_true_r.
  - destruct (decide (key = "$not")) as [Hn|Hn].
    + destruct (build_where_clause _ _ val s) as [[c s1]|e] eqn:Hb; [|by intros HH; discriminate HH]. cbn. intros [= <- <-].
      destruct (Hval _ _ _ Hb) as [E M]. apply (means_one _ _ _ _ (λ binds row, not3 (eval_cond binds row c))); [done| |done].
      intros Hs extra row. by rewrite (M Hs), and3_true_r.
    + intros H%build_field_condition_means. eapply means_ext, H. intros row. symmetry. apply and3_true_r.
Qed.

Lemma matches_cons row key val obj :
  matches row (JObject ((key, val) :: obj)) = and3 (matches row (JObject [(key, val)])) (matches row (JObject obj)).
Proof. cbn [matches map all3 foldr]. by rewrite and3_true_r. Qed.

Lemma build_parts_means obj s ps s' :
  Forall (λ e, clause_means e.2 ∧ ∀ arr, e.2 = JArray arr → Forall clause_means arr) obj →
  build_parts obj s = Ok (ps, s') → means s (λ row, matches row (JObject obj)) ps s'.
Proof.
  intros IH. revert s ps. induction IH as [|[key val] obj [Hv Ha] _ IHo]; intros s ps H; cbn [build_parts] in H.
  { injection H as <- <-. by apply means_const. }
  destruct (build_part key val s) as [[a s2]|e] eqn:H1; [|done]. cbn in H.
  destruct (build_parts obj s2) as [[ps' s3]|e] eqn:H2; [|done]. injection H as <- <-.
  eapply means_ext; [intros row; symmetry; apply matches_cons|].
  apply (means_app s s2 s3 _ _ [a] ps'); [|by apply IHo]. by apply build_part_means.
Qed.

Lemma build_where_means clause : clause_means clause.
Proof.
  assert (clause_means clause ∧ ∀ arr, clause = JArray arr → Forall clause_means arr) as [H _]; [|done].
  induction clause as [|b|n|t|arr IH|obj IH] using json_ind; (split; [|try done]); try (intros s c s' H; done).
  - intros arr' [= <-]. eapply Forall_impl; [exact IH|]. by intros v [? _].
  - intros s c s' H. rewrite build_where_object in H. destruct (build_parts obj s) as [[ps s1]|e] eqn:Hp; [|done]. cbn in H.
    injection H as <- <-. destruct (build_parts_means _ _ _ _ IH Hp) as [E M].
    split; [done|]. intros Hs extra row. rewrite <-(M Hs extra row). by destruct ps.
Qed.
End Meaning.

(** ** The text is read as the tree *)

Fixpoint join_toks (sp : list STok) (l : list (list STok)) : list STok :=
  match l with [] => [] | [t] => t | t :: l => t ++ sp ++ join_toks sp l end.
Definition placeholder_toks (n : nat) : list STok := [SSym "$"; SBare (pretty n)].
Definition AND_ : list STok := [SBare "AND"].
Definition OR_ : list STok := [SBare "OR"].
Definition COMMA : list STok := [SSym ","].
Fixpoint atom_toks (a : Atom) : list STok :=
  match a with
  | ANull field is_null => SIdent field :: SBare "IS" :: (if is_null then [] else [SBare "NOT"]) ++ [SBare "NULL"]
  | ACompare field as_text op n cast =>
      SIdent field :: (if as_text then sql_scan "::text" else []) ++ sql_scan op ++ placeholder_toks n ++ sql_scan cast
  | AIn field negated ns cast =>
      SIdent field :: (if negated then [SBare "NOT"] else []) ++ SBare "IN" ::
        paren (join_toks COMMA (map (λ n, placeholder_toks n ++ sql_scan cast) ns))
  | AContains field ns cast =>
      SIdent field :: sql_scan "@> ARRAY[" ++ join_toks COMMA (map placeholder_toks ns) ++ SSym "]" :: sql_scan cast
  | AConst b => [SBare (bool_sql b)]
  | AAll l => join_toks AND_ (map atom_toks l)
  | AGroup disjunction l => paren (join_toks (if disjunction then OR_ else AND_) (map (λ c, join_toks AND_ (map atom_toks c)) l))
  | ANot c => SBare "NOT" :: paren (join_toks AND_ (map atom_toks c))
  end.
Definition cond_toks (c : Cond) : list STok := join_toks AND_ (map atom_toks c).

(** The operators and casts a condition is built with. *)
Definition OPERATORS : list string := ["="; "!="; ">"; ">="; "<"; "<="; "LIKE"; "ILIKE"; "@>"].
Definition CASTS : list string :=
  [EmptyString; "::float8"; "::numeric"; "::boolean"; "::date"; "::timestamptz"; "::uuid"; "::jsonb"; "::text[]"; "::float8[]"].
Fixpoint atom_ok (a : Atom) : bool :=
  match a with
  | ANull _ _ | AConst _ => true
  | ACompare _ _ op _ cast => bool_decide (op ∈ OPERATORS) && bool_decide (cast ∈ CASTS)
  | AIn _ _ _ cast | AContains _ _ cast => bool_decide (cast ∈ CASTS)
  | AAll l | ANot l => forallb atom_ok l
  | AGroup _ l => forallb (forallb atom_ok) l
  end.

Lemma emits_join_sep sp st ss tss :
  (∀ rest, bnd (sp +:+ rest)) → (∀ rest, scan_from Idle (sp +:+ rest) = st ++ scan_from Idle rest) →
  Forall2 emits ss tss → emits (join sp ss) (join_toks st tss).
Proof.
  intros Hb Hs. induction 1 as [|s ts ss tss H Hss IH]; intros rest Hr; [done|].
  destruct Hss as [|s2 ts2 ss tss H2 Hss]; [by apply H|].
  change (join sp (s :: s2 :: ss)) with (s +:+ sp +:+ join sp (s2 :: ss)).
  change (join_toks st (ts :: ts2 :: tss)) with (ts ++ st ++ join_toks st (ts2 :: tss)).
  rewrite !str_app_assoc, H by (apply Hb). by rewrite Hs, (IH rest Hr), <-!app_assoc.
Qed.
Lemma emits_and ss tss : Forall2 emits ss tss → emits (join " AND " ss) (join_toks AND_ tss).
Proof. apply emits_join_sep; [done|]. intros rest. by rewrite (scan_static Idle " AND " [SBare "AND"] Idle _ eq_refl). Qed.
Lemma emits_or ss tss : Forall2 emits ss tss → emits (join " OR " ss) (join_toks OR_ tss).
Proof. apply emits_join_sep; [done|]. intros rest. by rewrite (scan_static Idle " OR " [SBare "OR"] Idle _ eq_refl). Qed.
Lemma emits_commas ss tss : Forall2 emits ss tss → emits (join ", " ss) (join_toks COMMA tss).
Proof. apply emits_join_sep; [done|]. intros rest. by rewrite (scan_static Idle ", " [SSym ","] Idle _ eq_refl). Qed.

Lemma emits_placeholder n : emits (placeholder n) (placeholder_toks n).
Proof.
  intros rest Hb. unfold placeholder. rewrite str_app_assoc, (scan_static Idle "$" [SSym "$"] Idle _ eq_refl).
  destruct (pretty_N_digits (N.of_nat n)) as [Hd Hn]. change (pretty (N.of_nat n)) with (pretty n) in *.
  rewrite (emits_bare (pretty n)); [done|done| |done].
  clear Hn Hb. induction (pretty n) as [|c w IH]; [done|]. cbn in *. bool_hyps. rewrite IH by done.
  unfold is_bare, is_word_byte, is_ascii_alphanumeric. by rewrite H.
Qed.

(** A text whose scan ends between tokens, or in a bare word. *)
Lemma emits_text s : match (sql_run Idle s).2 with Idle | Bare _ => True | _ => False end → emits s (sql_scan s).
Proof.
  intros H rest Hb. unfold sql_scan. destruct (sql_run Idle s) as [ts st] eqn:E. cbn in H.
  rewrite (scan_static _ _ _ _ rest E). destruct st as [|acc| |]; try done; cbn [flush].
  - by rewrite app_nil_r.
  - pose proof (scan_bare acc EmptyString rest eq_refl Hb) as Hs. rewrite str_app_nil_l, str_app_nil_r in Hs.
    rewrite Hs. by rewrite <-app_assoc.
Qed.
Lemma emits_app_text s t ts tt : emits s ts → (∀ rest, bnd (t +:+ rest)) → emits t tt → emits (s +:+ t) (ts ++ tt).
Proof. intros Hs Hb Ht rest Hr. by rewrite str_app_assoc, Hs, Ht, <-app_assoc by done. Qed.
Lemma emits_cast cast : cast ∈ CASTS → emits cast (sql_scan cast).
Proof. intros H. apply emits_text. repeat (apply elem_of_cons in H as [->|H]; [by vm_compute|]). by apply not_elem_of_nil in H. Qed.
Lemma bnd_cast cast rest : cast ∈ CASTS → bnd rest → bnd (cast +:+ rest).
Proof. intros H Hb. repeat (apply elem_of_cons in H as [->|H]; [done|]). by apply not_elem_of_nil in H. Qed.
Lemma scan_operator op rest : op ∈ OPERATORS → scan_from Idle (" " +:+ op +:+ " " +:+ rest) = sql_scan op ++ scan_from Idle rest.
Proof.
  intros H. repeat (apply elem_of_cons in H as [->|H];
    [match goal with |- scan_from Idle (" " +:+ ?o +:+ " " +:+ _) = _ => exact (scan_static Idle (" " +:+ o +:+ " ") (sql_scan o) Idle rest eq_refl) end|]).
  by apply not_elem_of_nil in H.
Qed.
Lemma bnd_operator op rest : bnd (" " +:+ op +:+ rest).
Proof. done. Qed.

Lemma emits_compare field as_text op n cast :
  atom_ok (ACompare field as_text op n cast) = true → emits (atom_sql (ACompare field as_text op n cast)) (atom_toks (ACompare field as_text op n cast)).
Proof.
  cbn [atom_ok]. intros [Hop%bool_decide_eq_true Hc%bool_decide_eq_true]%andb_true_iff rest Hb.
  cbn [atom_sql atom_toks]. rewrite !str_app_assoc. destruct as_text.
  - rewrite emits_ident, (emits_text "::text") by done. rewrite scan_operator by done.
    rewrite emits_placeholder by (by apply bnd_cast). rewrite (emits_cast cast Hc rest Hb). cbn [app]. by rewrite <-!app_assoc.
  - rewrite str_app_nil_l, emits_ident by done. rewrite scan_operator by done.
    rewrite emits_placeholder by (by apply bnd_cast). rewrite (emits_cast cast Hc rest Hb). cbn [app]. by rewrite <-!app_assoc.
Qed.

Section AtomInd.
Context (P : Atom → Prop).
Context (Hnull : ∀ f b, P (ANull f b)) (Hcmp : ∀ f t o n c, P (ACompare f t o n c)) (Hin : ∀ f b ns c, P (AIn f b ns c))
  (Hcont : ∀ f ns c, P (AContains f ns c)) (Hconst : ∀ b, P (AConst b)).
Context (Hall : ∀ l, Forall P l → P (AAll l)) (Hgroup : ∀ d l, Forall (Forall P) l → P (AGroup d l)) (Hnot : ∀ l, Forall P l → P (ANot l)).
Fixpoint atom_ind (a : Atom) : P a :=
  let fix each (l : list Atom) : Forall P l :=
    match l with [] => List.Forall_nil _ | a :: l => List.Forall_cons _ _ _ (atom_ind a) (each l) end in
  let fix eaches (l : list (list Atom)) : Forall (Forall P) l :=
    match l with [] => List.Forall_nil _ | c :: l => List.Forall_cons _ _ _ (each c) (eaches l) end in
  match a with
  | ANull f b => Hnull f b | ACompare f t o n c => Hcmp f t o n c | AIn f b ns c => Hin f b ns c
  | AContains f ns c => Hcont f ns c | AConst b => Hconst b
  | AAll l => Hall l (each l) | AGroup d l => Hgroup d l (eaches l) | ANot l => Hnot l (each l)
  end.
End AtomInd.

Definition emits_atom (a : Atom) : Prop := atom_ok a = true → emits (atom_sql a) (atom_toks a).
Lemma emits_atoms l : Forall emits_atom l → forallb atom_ok l = true → Forall2 emits (map atom_sql l) (map atom_toks l).
Proof. induction 1 as [|a l Ha _ IH]; cbn; [constructor|]. intros [H1 H2]%andb_true_iff. constructor; auto. Qed.
Lemma emits_conds l :
  Forall (Forall emits_atom) l → forallb (forallb atom_ok) l = true →
  Forall2 emits (map (λ c, join " AND " (map atom_sql c)) l) (map (λ c, join_toks AND_ (map atom_toks c)) l).
Proof.
  induction 1 as [|c l Hc _ IH]; cbn; [constructor|]. intros [H1 H2]%andb_true_iff.
  constructor; [by apply emits_and, emits_atoms|auto].
Qed.
Lemma emits_paren s ts : emits s ts → emits ("(" +:+ s +:+ ")") (paren ts).
Proof.
  intros H rest Hb. rewrite !str_app_assoc, (scan_static Idle "(" [SSym "("] Idle _ eq_refl), H by done.
  rewrite (scan_static Idle ")" [SSym ")"] Idle _ eq_refl). unfold paren. cbn [app]. by rewrite <-app_assoc.
Qed.
Lemma emits_pre pre ts s us :
  sql_run Idle pre = (ts, Idle) → emits s us → emits (pre +:+ s) (ts ++ us).
Proof. intros H Hs rest Hb. rewrite str_app_assoc, (scan_static _ _ _ _ _ H), Hs by done. by rewrite <-app_assoc. Qed.
Lemma emits_placeholders cast ns :
  cast ∈ CASTS → Forall2 emits (map (λ n, placeholder n +:+ cast) ns) (map (λ n, placeholder_toks n ++ sql_scan cast) ns).
Proof.
  intros Hc. induction ns as [|n ns IH]; cbn [map]; constructor; [|done]. intros rest Hb.
  rewrite str_app_assoc, emits_placeholder by (by apply bnd_cast). by rewrite (emits_cast cast Hc rest Hb), <-app_assoc.
Qed.

Lemma emits_ident_then field t tt : (∀ rest, bnd (t +:+ rest)) → emits t tt → emits (quote_ident field +:+ t) (SIdent field :: tt).
Proof. intros Hb Ht. by apply (emits_app_text _ _ [SIdent field] tt (emits_ident field)). Qed.
Lemma emits_in field negated ns cast : emits_atom (AIn field negated ns cast).
Proof.
  intros Hc%bool_decide_eq_true. cbn [atom_sql atom_toks]. apply emits_ident_then; [done|].
  pose proof (emits_paren _ _ (emits_commas _ _ (emits_placeholders cast ns Hc))) as Hp. destruct negated.
  - exact (emits_pre " NOT IN " [SBare "NOT"; SBare "IN"] _ _ eq_refl Hp).
  - exact (emits_pre " IN " [SBare "IN"] _ _ eq_refl Hp).
Qed.
Lemma emits_contains field ns cast : emits_atom (AContains field ns cast).
Proof.
  intros Hc%bool_decide_eq_true. cbn [atom_sql atom_toks]. apply emits_ident_then; [done|].
  assert (emits (join ", " (map placeholder ns)) (join_toks COMMA (map placeholder_toks ns))) as Hj.
  { apply emits_commas. induction ns; constructor; [apply emits_placeholder|done]. }
  apply (emits_pre " @> ARRAY[" (sql_scan "@> ARRAY[") _ _ eq_refl). intros rest Hb.
  rewrite !str_app_assoc, Hj by done. rewrite (scan_static Idle "]" [SSym "]"] Idle _ eq_refl), (emits_cast cast Hc rest Hb).
  by rewrite <-app_assoc.
Qed.

Lemma emits_all_atoms a : emits_atom a.
Proof.
  induction a as [f b|f t o n c|f b ns c|f ns c|b|l IH|d l IH|l IH] using atom_ind; intros Hok; cbn [atom_ok] in Hok.
  - cbn [atom_sql atom_toks]. apply emits_ident_then; [by destruct b|]. destruct b; apply emits_text; by vm_compute.
  - by apply emits_compare.
  - by apply emits_in.
  - by apply emits_contains.
  - destruct b; apply emits_text; by vm_compute.
  - cbn [atom_sql atom_toks]. by apply emits_and, emits_atoms.
  - cbn [atom_sql atom_toks]. apply emits_paren. destruct d; [apply emits_or|apply emits_and]; by apply emits_conds.
  - cbn [atom_sql atom_toks]. apply (emits_pre "NOT " [SBare "NOT"] _ _ eq_refl), emits_paren. by apply emits_and, emits_atoms.
Qed.
Lemma emits_cond c : forallb atom_ok c = true → emits (cond_sql c) (cond_toks c).
Proof. intros H. apply emits_and, emits_atoms; [|done]. apply Forall_forall. intros a _. apply emits_all_atoms. Qed.

(** *** The tokens of a condition: its fields, its placeholders and fixed words *)

Fixpoint atom_fields (a : Atom) : list string :=
  match a with
  | ANull f _ | ACompare f _ _ _ _ | AIn f _ _ _ | AContains f _ _ => [f]
  | AConst _ => []
  | AAll l | ANot l => mjoin (map atom_fields l)
  | AGroup _ l => mjoin (map (λ c, mjoin (map atom_fields c)) l)
  end.
Definition cond_fields (c : Cond) : list string := mjoin (map atom_fields c).
Definition WORDS : list string :=
  ["IS"; "NOT"; "NULL"; "IN"; "AND"; "OR"; "TRUE"; "FALSE"; "LIKE"; "ILIKE"; "ARRAY"; "text"; "float8"; "numeric"; "boolean";
   "date"; "timestamptz"; "uuid"; "jsonb"].
(** No text of a filter: a quoted field, a number, a fixed word or a symbol. *)
Definition inert (fields : list string) (t : STok) : Prop :=
  match t with
  | SIdent f => f ∈ fields
  | SStr _ => False
  | SBare w => w ∈ WORDS ∨ ∃ n : nat, w = pretty n
  | SSym _ => True
  end.
Definition tidy (fields : list string) (ts : list STok) : Prop := balanced ts ∧ Forall (inert fields) ts.

Lemma tidy_app fs t1 t2 : tidy fs t1 → tidy fs t2 → tidy fs (t1 ++ t2).
Proof. intros [? ?] [? ?]. split; [by apply balanced_app|by apply Forall_app]. Qed.
Lemma tidy_paren fs ts : tidy fs ts → tidy fs (paren ts).
Proof. intros [Hb Hi]. split; [by apply balanced_paren|]. constructor; [done|]. apply Forall_app. split; [done|]. by repeat constructor. Qed.
Lemma tidy_weaken fs fs' ts : (∀ f, f ∈ fs → f ∈ fs') → tidy fs ts → tidy fs' ts.
Proof.
  intros Hf [Hb Hi]. split; [done|]. eapply Forall_impl; [exact Hi|]. intros t Ht. destruct t as [f|w|w|c]; cbn in *; auto.
Qed.
Lemma tidy_join fs sp l : tidy fs sp → Forall (tidy fs) l → tidy fs (join_toks sp l).
Proof.
  intros Hsp. induction 1 as [|t l Ht Hl IH]; [by split|]. destruct l as [|t2 l]; [done|].
  change (join_toks sp (t :: t2 :: l)) with (t ++ sp ++ join_toks sp (t2 :: l)). auto using tidy_app.
Qed.
Lemma tidy_field fs f : f ∈ fs → tidy fs [SIdent f].
Proof. intros H. split; [done|by repeat constructor]. Qed.
Ltac fixed :=
  split; [intros ?; reflexivity|];
  match goal with |- Forall _ ?l => let l' := eval vm_compute in l in change l with l' end;
  repeat (apply List.Forall_cons; [first [exact I | left; apply (bool_decide_unpack _); vm_compute; exact I]|]);
  apply List.Forall_nil.
Lemma tidy_cast fs cast : cast ∈ CASTS → tidy fs (sql_scan cast).
Proof.
  intros H. apply (tidy_weaken []); [by intros f ?%not_elem_of_nil|].
  repeat (apply elem_of_cons in H as [->|H]; [fixed|]). by apply not_elem_of_nil in H.
Qed.
Lemma tidy_operator fs op : op ∈ OPERATORS → tidy fs (sql_scan op).
Proof.
  intros H. apply (tidy_weaken []); [by intros f ?%not_elem_of_nil|].
  repeat (apply elem_of_cons in H as [->|H]; [fixed|]). by apply not_elem_of_nil in H.
Qed.
Lemma tidy_placeholder fs n : tidy fs (placeholder_toks n).
Proof. split; [done|]. constructor; [done|]. constructor; [|done]. right. by exists n. Qed.

Lemma tidy_compare field as_text op n cast fs :
  field ∈ fs → op ∈ OPERATORS → cast ∈ CASTS → tidy fs (atom_toks (ACompare field as_text op n cast)).
Proof.
  intros Hf Ho Hc. cbn [atom_toks]. apply (tidy_app fs [SIdent field]); [by apply tidy_field|].
  apply tidy_app; [|apply tidy_app; [by apply tidy_operator|apply tidy_app; [apply tidy_placeholder|by apply tidy_cast]]].
  destruct as_text; [|by split]. apply (tidy_weaken []); [by intros f ?%not_elem_of_nil|fixed].
Qed.
Lemma tidy_in field negated ns cast fs : field ∈ fs → cast ∈ CASTS → tidy fs (atom_toks (AIn field negated ns cast)).
Proof.
  intros Hf Hc. cbn [atom_toks]. apply (tidy_app fs [SIdent field]); [by apply tidy_field|].
  apply tidy_app; [destruct negated; [fixed|by split]|]. apply (tidy_app fs [SBare "IN"]); [fixed|]. apply tidy_paren, tidy_join; [fixed|].
  induction ns; constructor; [|done]. apply tidy_app; [apply tidy_placeholder|by apply tidy_cast].
Qed.
Lemma tidy_contains field ns cast fs : field ∈ fs → cast ∈ CASTS → tidy fs (atom_toks (AContains field ns cast)).
Proof.
  intros Hf Hc. cbn [atom_toks]. apply (tidy_app fs [SIdent field]); [by apply tidy_field|].
  assert (tidy fs (join_toks COMMA (map placeholder_toks ns))) as [Hb Hi].
  { apply tidy_join; [fixed|]. induction ns; constructor; [apply tidy_placeholder|done]. }
  destruct (tidy_cast fs cast Hc) as [Hcb Hci]. split.
  - intros d. rewrite nesting_app. change (nesting d (sql_scan "@> ARRAY[")) with (Some (S d)). cbv iota beta.
    rewrite nesting_app, Hb. apply Hcb.
  - apply Forall_app. split; [|apply Forall_app; split; [done|by constructor]].
    match goal with |- Forall _ ?l => let l' := eval vm_compute in l in change l with l' end.
    repeat (apply List.Forall_cons; [first [exact I | left; apply (bool_decide_unpack _); vm_compute; exact I]|]). apply List.Forall_nil.
Qed.

Lemma tidy_list fs sp l :
  tidy fs sp → (∀ a, a ∈ l → ∀ f, f ∈ atom_fields a → f ∈ fs) → Forall (λ a, tidy (atom_fields a) (atom_toks a)) l →
  tidy fs (join_toks sp (map atom_toks l)).
Proof.
  intros Hsp Hf Hl. apply tidy_join; [done|]. induction Hl as [|a l Ha _ IH]; constructor.
  - eapply tidy_weaken; [|exact Ha]. apply Hf. by left.
  - apply IH. intros a' Ha'. apply Hf. by right.
Qed.
Lemma elem_of_fields {A} (g : A → list string) l f : f ∈ mjoin (map g l) ↔ ∃ x, x ∈ l ∧ f ∈ g x.
Proof.
  induction l as [|x l IH]; cbn [map mjoin list_join].
  - split; [by intros ?%not_elem_of_nil|by intros (x & ?%not_elem_of_nil & _)].
  - rewrite elem_of_app, IH. split.
    + intros [H|(y & Hy & H)]; [exists x; split; [by left|done]|exists y; split; [by right|done]].
    + intros (y & [->|Hy]%elem_of_cons & H); [by left|right; by exists y].
Qed.
Lemma tidy_AND fs : tidy fs AND_.
Proof. fixed. Qed.
Lemma tidy_OR fs : tidy fs OR_.
Proof. fixed. Qed.

Lemma tidy_atoms sp l :
  tidy (mjoin (map atom_fields l)) sp → Forall (λ a, tidy (atom_fields a) (atom_toks a)) l →
  tidy (mjoin (map atom_fields l)) (join_toks sp (map atom_toks l)).
Proof. intros Hsp Hl. apply tidy_list; [done| |done]. intros a Ha f Hf. apply elem_of_fields. by exists a. Qed.
Lemma oks l :
  Forall (λ a, atom_ok a = true → tidy (atom_fields a) (atom_toks a)) l → forallb atom_ok l = true →
  Forall (λ a, tidy (atom_fields a) (atom_toks a)) l.
Proof. induction 1 as [|a l Ha _ IH]; cbn; [constructor|]. intros [? ?]%andb_true_iff. constructor; auto. Qed.

Lemma tidy_atom a : atom_ok a = true → tidy (atom_fields a) (atom_toks a).
Proof.
  induction a as [f b|f t o n c|f b ns c|f ns c|b|l IH|d l IH|l IH] using atom_ind; intros Hok; cbn [atom_ok atom_fields] in *.
  - cbn [atom_toks]. apply (tidy_app _ [SIdent f]); [apply tidy_field; by left|]. destruct b; fixed.
  - bool_hyps. apply tidy_compare; [by left|done..].
  - bool_hyps. apply tidy_in; [by left|done].
  - bool_hyps. apply tidy_contains; [by left|done].
  - destruct b; fixed.
  - apply tidy_atoms; [apply tidy_AND|]. by apply oks.
  - cbn [atom_toks]. apply tidy_paren, tidy_join; [destruct d; [apply tidy_OR|apply tidy_AND]|].
    rewrite forallb_forall in Hok. apply Forall_forall. intros ts (c & -> & Hc)%list_elem_of_fmap.
    eapply tidy_weaken; [|apply tidy_atoms; [apply tidy_AND|apply oks; [by apply (proj1 (Forall_forall _ _) IH)|by apply Hok, list_elem_of_In]]].
    intros f Hf. apply elem_of_fields. by exists c.
  - cbn [atom_toks]. apply (tidy_app _ [SBare "NOT"]); [fixed|]. apply tidy_paren, tidy_atoms; [apply tidy_AND|]. by apply oks.
Qed.
Lemma tidy_cond c : forallb atom_ok c = true → tidy (cond_fields c) (cond_toks c).
Proof.
  intros H. apply tidy_atoms; [apply tidy_AND|]. apply oks; [|done]. apply Forall_forall. intros a _ Ha. by apply tidy_atom.
Qed.

(** ** The fields a filter names (cross_app.rs) *)

Fixpoint collect_filter_fields (value : JsonValue) : list string :=
  match value with
  | JObject obj =>
      mjoin (map (λ '(key, val),
        if negb (starts_with "$" key) then [key]
        else if bool_decide (key ∈ ["$and"; "$or"; "$not"]) then
          match val with JArray items => mjoin (map collect_filter_fields items) | _ => collect_filter_fields val end
        else []) obj)
  | _ => []
  end.

Section Built.
Context (json_to_string : JsonValue → string) (types : FieldTypes).

(** A condition that can be written, over fields of a list that are not sensitive. *)
Definition good (fs : list string) (a : Atom) : Prop :=
  atom_ok a = true ∧ ∀ f, f ∈ atom_fields a → is_sensitive types f = false ∧ (f ∈ fs ∨ starts_with "$" f = true).

Lemma cast_known t : pg_cast_suffix t ∈ CASTS.
Proof. apply (bool_decide_unpack _). destruct t as [[]|]; by vm_compute. Qed.
Lemma good_weaken fs fs' a : (∀ f, f ∈ fs → f ∈ fs') → good fs a → good fs' a.
Proof. intros H [Hok Hf]. split; [done|]. intros f Hin. destruct (Hf f Hin) as [? [?|?]]; auto. Qed.
Lemma good_all fs l : Forall (good fs) l → good fs (AAll l) ∧ good fs (ANot l).
Proof.
  intros H. assert (forallb atom_ok l = true) as Hok.
  { apply forallb_forall. intros a Ha. by apply (proj1 (Forall_forall _ _) H), list_elem_of_In. }
  assert (∀ f, f ∈ mjoin (map atom_fields l) → is_sensitive types f = false ∧ (f ∈ fs ∨ starts_with "$" f = true)) as Hf.
  { intros f (a & Ha & Hin)%elem_of_fields. by apply (proj1 (Forall_forall _ _) H a Ha). }
  by split.
Qed.
Lemma good_group fs d l : Forall (Forall (good fs)) l → good fs (AGroup d l).
Proof.
  intros H. split.
  - cbn. apply forallb_forall. intros c Hc. apply forallb_forall. intros a Ha.
    apply (proj1 (Forall_forall _ _) (proj1 (Forall_forall _ _) H c (proj2 (list_elem_of_In _ _) Hc))). by apply list_elem_of_In.
  - cbn. intros f (c & Hc & Hin)%elem_of_fields. apply elem_of_fields in Hin as (a & Ha & Hin).
    by apply (proj1 (Forall_forall _ _) (proj1 (Forall_forall _ _) H c Hc) a Ha).
Qed.

Section Field.
Context (field : string) (Hs : is_sensitive types field = false) (fs : list string) (Hin : field ∈ fs ∨ starts_with "$" field = true).

Lemma good_one a : atom_ok a = true → (∀ f, f ∈ atom_fields a → f = field) → good fs a.
Proof. intros Hok Hf. split; [done|]. by intros f ->%Hf. Qed.
Lemma compare_with_good as_text op cast v s c s' :
  op ∈ OPERATORS → cast ∈ CASTS → compare_with field as_text op cast v s = Ok (c, s') → Forall (good fs) c.
Proof.
  intros Ho Hc. unfold compare_with. destruct v as [v|]; [|done]. cbn. intros [= <- _]. constructor; [|done].
  apply good_one; [cbn; by rewrite !bool_decide_true|]. by intros f ?%list_elem_of_singleton.
Qed.
Ltac known := first [apply (bool_decide_unpack _); vm_compute; exact I | apply cast_known].

Lemma build_operator_good op v s c s' : build_operator json_to_string types field op v s = Ok (c, s') → Forall (good fs) c.
Proof.
  unfold build_operator. cbv zeta.
  assert (∀ b, Forall (good fs) [ANull field b]) as Hn by (intros b; constructor; [apply good_one; [done|by intros f ?%list_elem_of_singleton]|done]).
  destruct (decide (op = "$eq")); [destruct (is_null v); [intros [= <- _]; apply Hn|apply compare_with_good; known]|].
  destruct (decide (op = "$ne")); [destruct (is_null v); [intros [= <- _]; apply Hn|apply compare_with_good; known]|].
  destruct (bool_decide (op ∈ ["$gt"; _; _; _])).
  { apply compare_with_good; [|known]. repeat (destruct (decide _); [known|]). known. }
  destruct (bool_decide (op ∈ ["$like"; _])).
  { apply compare_with_good; [|known]. destruct (decide _); known. }
  destruct (bool_decide (op ∈ ["$in"; _])).
  { destruct v as [| | | |arr|]; try (by intros HH; discriminate HH). destruct arr as [|w arr].
    - intros [= <- _]. constructor; [|done]. apply good_one; [done|]. by intros f ?%not_elem_of_nil.
    - destruct (bind_each _ _ _) as [[ns s1]|]; [|by intros HH; discriminate HH]. intros [= <- _]. constructor; [|done].
      apply good_one; [cbn; by rewrite bool_decide_true by apply cast_known|]. by intros f ?%list_elem_of_singleton. }
  destruct (decide (op = "$contains")).
  { destruct v as [| | | |arr|]; try (by intros HH; discriminate HH). destruct arr as [|w arr]; [by intros [= <- _]|].
    destruct (is_jsonb_type _); [apply compare_with_good; known|].
    destruct (bind_each _ _ _) as [[ns s1]|]; [|by intros HH; discriminate HH]. intros [= <- _]. constructor; [|done].
    apply good_one; [cbn; by rewrite bool_decide_true by apply cast_known|]. by intros f ?%list_elem_of_singleton. }
  destruct (decide (op = "$isNull")); [|by intros HH; discriminate HH]. intros [= <- _]. apply Hn.
Qed.
Lemma build_operators_good ops s c s' : build_operators json_to_string types field ops s = Ok (c, s') → Forall (good fs) c.
Proof.
  revert s c. induction ops as [|[op v] ops IH]; intros s c H; cbn [build_operators] in H; [by injection H as <- _|].
  destruct (build_operator _ _ field op v s) as [[c1 s1]|e] eqn:H1; [|done]. cbn in H.
  destruct (build_operators _ _ field ops s1) as [[c2 s2]|e] eqn:H2; [|done]. injection H as <- <-.
  apply Forall_app. split; [by eapply build_operator_good|by eapply IH].
Qed.
Lemma build_field_good v s a s' : build_field_condition json_to_string types field v s = Ok (a, s') → good fs a.
Proof.
  unfold build_field_condition. rewrite Hs. cbv zeta.
  assert (∀ as_text op cast v s c s', op ∈ OPERATORS → cast ∈ CASTS →
    (let? '(c, s) := compare_with field as_text op cast v s in Ok (AAll c, s)) = Ok (c, s') → good fs c) as Hc.
  { intros as_text op cast w s1 c s2 Ho Hca. destruct (compare_with _ _ _ _ _ _) as [[cs s3]|] eqn:E; [|by intros HH; discriminate HH].
    intros [= <- _]. by eapply good_all, compare_with_good. }
  destruct v as [|b|n|t|arr|ops]; try (apply Hc; known).
  - intros [= <- _]. apply good_one; [done|]. by intros f ?%list_elem_of_singleton.
  - destruct (existsb _ ops); [|apply Hc; known].
    destruct (build_operators _ _ field ops s) as [[c s1]|e] eqn:H; [|by intros HH; discriminate HH]. intros [= <- _].
    by eapply good_all, build_operators_good.
Qed.
End Field.

Lemma build_field_inv field v s a s' :
  build_field_condition json_to_string types field v s = Ok (a, s') → is_sensitive types field = false.
Proof. unfold build_field_condition. by destruct (is_sensitive types field). Qed.

Definition clause_good (v : JsonValue) : Prop :=
  ∀ s c s', build_where_clause json_to_string types v s = Ok (c, s') → Forall (good (collect_filter_fields v)) c.
Lemma build_each_good arr s cs s' :
  Forall clause_good arr → build_each json_to_string types arr s = Ok (cs, s') →
  Forall (Forall (good (mjoin (map collect_filter_fields arr)))) cs.
Proof.
  intros Ha. revert s cs. induction Ha as [|v arr Hv _ IH]; intros s cs H; cbn [build_each] in H; [by injection H as <- _|].
  destruct (build_where_clause _ _ v s) as [[c s1]|e] eqn:H1; [|done]. cbn in H.
  destruct (build_each _ _ arr s1) as [[cs' s2]|e] eqn:H2; [|done]. injection H as <- <-. cbn [map mjoin list_join].
  constructor.
  - eapply Forall_impl; [by eapply Hv|]. intros a. apply good_weaken. intros f ?. apply elem_of_app. by left.
  - eapply Forall_impl; [by eapply IH|]. intros c' Hc. eapply Forall_impl; [exact Hc|]. intros a. apply good_weaken.
    intros f ?. apply elem_of_app. by right.
Qed.
Lemma build_part_good key val s a s' :
  clause_good val → (∀ arr, val = JArray arr → Forall clause_good arr) →
  build_part json_to_string types key val s = Ok (a, s') → good (collect_filter_fields (JObject [(key, val)])) a.
Proof.
  intros Hv Ha. unfold build_part. cbn [collect_filter_fields map mjoin list_join].
  destruct (bool_decide (key ∈ ["$and"; "$or"])) eqn:Hk.
  - destruct val as [| | | |arr|]; try (by intros HH; discriminate HH).
    destruct (build_each _ _ arr s) as [[cs s1]|e] eqn:He; [|by intros HH; discriminate HH]. intros [= <- _].
    pose proof (build_each_good _ _ _ _ (Ha arr eq_refl) He) as Hg. apply bool_decide_eq_true in Hk.
    assert (starts_with "$" key = true ∧ bool_decide (key ∈ ["$and"; "$or"; "$not"]) = true) as [-> ->].
    { repeat (apply elem_of_cons in Hk as [->|Hk]; [done|]). by apply not_elem_of_nil in Hk. }
    cbn [negb]. rewrite app_nil_r. destruct cs as [|c cs]; [|by apply good_group]. split; [done|]. by intros f ?%not_elem_of_nil.
  - destruct (decide (key = "$not")) as [->|Hn].
    + destruct (build_where_clause _ _ val s) as [[c s1]|e] eqn:Hb; [|by intros HH; discriminate HH]. intros [= <- _].
      apply good_all. eapply Forall_impl; [by eapply Hv|]. intros a. apply good_weaken. cbn -[collect_filter_fields]. rewrite app_nil_r.
      by destruct val.
    + intros H. eapply build_field_good; [by eapply build_field_inv| |exact H].
      destruct (starts_with "$" key); [by right|left]. by left.
Qed.

Lemma build_where_good clause : clause_good clause.
Proof.
  assert (clause_good clause ∧ ∀ arr, clause = JArray arr → Forall clause_good arr) as [H _]; [|done].
  induction clause as [|b|n|t|arr IH|obj IH] using json_ind; (split; [|try done]); try (intros s c s' H; done).
  - intros arr' [= <-]. eapply Forall_impl; [exact IH|]. by intros v [? _].
  - intros s c s' H. rewrite build_where_object in H.
    destruct (build_parts _ _ obj s) as [[ps s1]|e] eqn:Hp; [|done]. cbn in H. injection H as <- _.
    assert (Forall (good (collect_filter_fields (JObject obj))) ps) as Hg.
    { clear s'. revert s ps Hp. induction IH as [|[key val] obj [Hv Ha] _ IHo]; intros s ps H; cbn [build_parts] in H; [by injection H as <- _|].
      destruct (build_part _ _ key val s) as [[a s2]|e] eqn:H1; [|done]. cbn in H.
      destruct (build_parts _ _ obj s2) as [[ps' s3]|e] eqn:H2; [|done]. injection H as <- <-. constructor.
      - eapply good_weaken, build_part_good, H1; [|done..]. intros f. cbn [collect_filter_fields map mjoin list_join].
        rewrite app_nil_r, elem_of_app. by left.
      - eapply Forall_impl; [by eapply IHo|]. intros a'. apply good_weaken. intros f ?.
        cbn [collect_filter_fields map mjoin list_join]. apply elem_of_app. by right. }
    destruct ps as [|p ps]; [|done]. constructor; [|done]. split; [done|]. by intros f ?%not_elem_of_nil.
Qed.

Lemma build_where_written clause s c s' :
  build_where_clause json_to_string types clause s = Ok (c, s') →
  forallb atom_ok c = true
  ∧ ∀ f, f ∈ cond_fields c → is_sensitive types f = false ∧ (f ∈ collect_filter_fields clause ∨ starts_with "$" f = true).
Proof.
  intros H%build_where_good. split.
  - apply forallb_forall. intros a Ha. by apply (proj1 (Forall_forall _ _) H), list_elem_of_In.
  - intros f (a & Ha & Hin)%elem_of_fields. by apply (proj1 (Forall_forall _ _) H a Ha).
Qed.
End Built.


(** No text of a filter becomes SQL: in any separated context the condition's
    text is scanned back as exactly the tokens of its tree, which are balanced, hold
    no literal, and consist of fixed words, symbols, parameter numbers and quoted
    names of fields that are not sensitive and that the filter was collected (and so
    authorised) for, or that begin with a dollar, as no column does. *)
Theorem where_sql_is_the_tree json_to_string types clause s c s' :
  build_where_clause json_to_string types clause s = Ok (c, s') →
  emits (cond_sql c) (cond_toks c) ∧ balanced (cond_toks c) ∧ Forall (inert (cond_fields c)) (cond_toks c)
  ∧ ∀ f, f ∈ cond_fields c → is_sensitive types f = false ∧ (f ∈ collect_filter_fields clause ∨ starts_with "$" f = true).
Proof.
  intros [Hok Hf]%build_where_written. destruct (tidy_cond c Hok) as [Hb Hi]. split_and!; [by apply emits_cond|done..].
Qed.

(** An empty [$contains] alone in a field's condition adds no condition, and the
    field's text is empty: the statement around it does not parse, whereas the empty
    [$in] and [$nin] are written as constants. *)
Lemma empty_contains_is_no_text json_to_string types field s :
  is_sensitive types field = false →
  build_where_clause json_to_string types (JObject [(field, JObject [("$contains", JArray [])])]) s
    = Ok ([AAll []], s)
  ∨ starts_with "$" field = true.
Proof.
  intros Hs. destruct (starts_with "$" field) eqn:Hd; [by right|left].
  assert (bool_decide (field ∈ ["$and"; "$or"]) = false ∧ field ≠ "$not") as [Hk Hn].
  { split; [apply bool_decide_eq_false|]; intros H; [|by subst].
    repeat (apply elem_of_cons in H as [->|H]; [done|]). by apply not_elem_of_nil in H. }
  rewrite build_where_object. cbn [build_parts]. unfold build_part. rewrite Hk, decide_False by done.
  unfold build_field_condition. by rewrite Hs.
Qed.

Module FilterExamples.
(** Rows of columns with text, compared for equality only. *)
Definition FRow : Type := list (string * string).
Definition cell (row : FRow) (f : string) : option string := snd <$> List.find (λ kv, bool_decide (kv.1 = f)) row.
Definition null_cell (row : FRow) (f : string) : bool := bool_decide (cell row f = None).
Definition compare_cell (row : FRow) (f : string) (_ : bool) (op v _ : string) : option bool :=
  x ← cell row f;
  if decide (op = "=") then Some (bool_decide (x = v)) else if decide (op = "!=") then Some (bool_decide (x ≠ v)) else None.
Definition contains_cells (_ : FRow) (_ _ : string) (_ : list string) : option bool := None.
Definition show (_ : JsonValue) : string := "{}".

Definition types : FieldTypes :=
  {[ "status" := {| f_type := FText; f_sensitive := false |}; "owner" := {| f_type := FUuid; f_sensitive := false |};
     "salary" := {| f_type := FNumber; f_sensitive := true |} ]}.
(** Open tickets that are somebody's and not of that one person. *)
Definition clause : JsonValue :=
  JObject [("$or", JArray [JObject [("owner", JObject [("$ne", JNull)]); ("status", JString "open")];
                           JObject [("$not", JObject [("owner", JObject [("$in", JArray [JString "a"; JString "b'; --"])])])]])].

Example text_of_clause :
  (λ x, (cond_sql x.1, x.2)) <$> (match build_where_clause show types clause (["first"], 1) with Ok x => Some x | Err _ => None end)
  = Some ("(" +:+ quote_ident "owner" +:+ " IS NOT NULL AND " +:+ quote_ident "status" +:+ " = $2 OR NOT ("
          +:+ quote_ident "owner" +:+ " IN ($3::uuid, $4::uuid)))", (["first"; "open"; "a"; "b'; --"], 4)).
Proof. vm_compute. reflexivity. Qed.
Example sensitive_filter_refused :
  build_where_clause show types (JObject [("$not", JObject [("salary", JNull)])]) ([], 0)
  = Err (BadRequest "field 'salary' is sensitive and cannot be used as a filter").
Proof. vm_compute. reflexivity. Qed.

Definition built : Cond :=
  [AGroup true [[AAll [ANull "owner" false]; AAll [ACompare "status" false "=" 2 EmptyString]];
                [ANot [AAll [AIn "owner" false [3; 4] "::uuid"]]]]].
Lemma where_sql_is_the_tree_witness : emits (cond_sql built) (cond_toks built) ∧ balanced (cond_toks built).
Proof.
  destruct (where_sql_is_the_tree show types clause (["first"], 1) built (["first"; "open"; "a"; "b'; --"], 4)
              ltac:(vm_compute; reflexivity)) as (? & ? & _). by split.
Defined.
End FilterExamples.
