(* ===== verification/Records.v ===== *)
(** * Records over HTTP (core/src/routes/crud.rs)

    How the CRUD routes read and write the records of an entity: values bound with
    their column's type (core/src/data_types.rs), the entities a route reaches
    (core/src/manifest.rs), and each handler as the statement it prepares and what
    PostgreSQL answers to it on a table, under the row policies of the transaction
    it opened.  A statement is a tree with its text and its parameters. *)

From stdpp Require Import base numbers pretty gmap strings sets list.
From S2P Require Import Prelude Str Ident Json DataTypes Perms Roles Authority Gates Ownership SqlScan Filters.

(** ** Typed parameters *)

(** What is bound for a column; [None] is NULL.  Numbers, decimals, uuids, dates and
    times are kept as their canonical text. *)
Inductive Bound :=
  | BNumber (v : option string) | BDecimal (v : option string) | BBoolean (v : option bool) | BUuid (v : option uuid)
  | BDate (v : option string) | BTimestamp (v : option string) | BJson (v : option JsonValue)
  | BTextArray (v : option (list string)) | BNumberArray (v : option (list string)) | BText (v : option string).

(** Parsing of the types bound: [f64], [BigDecimal], [Uuid], [NaiveDate] and
    [DateTime<Utc>], whether a float is finite, and [Value::to_string]. *)
Class Parsers := {
  parse_f64 : string → option string; is_finite : string → bool; parse_bigdecimal : string → option string;
  parse_uuid : string → option uuid; parse_date : string → option string; parse_timestamp : string → option string;
  show_json : JsonValue → string }.

Section Bind.
Context `{!Parsers}.

Definition coerce_f64 (value : JsonValue) : result string string :=
  let number := match value with
                | JNumber n => num_f64 n
                | JString s => parse_f64 (trim s)
                | JBool b => Some (if b then "1" else "0")
                | _ => None
                end in
  match number with
  | Some x => if is_finite x then Ok x else Err ("invalid number value: " +:+ show_json value)
  | None => Err ("invalid number value: " +:+ show_json value)
  end.
Definition coerce_bool (value : JsonValue) : bool :=
  match value with
  | JBool b => b
  | JNumber n => match num_i64 n with Some z => bool_decide (z ≠ 0%Z) | None => false end
  | JString s => bool_decide (s ∈ ["true"; "1"])
  | _ => false
  end.
Definition coerce_parsed (parse : string → option string) (value : JsonValue) (label : string) : result string string :=
  ok_or (as_str value ≫= parse) ("invalid " +:+ label +:+ ": " +:+ show_json value).
Definition coerce_str_vec (value : JsonValue) : list string :=
  match value with JArray l => omap as_str l | _ => [] end.
Definition coerce_f64_vec (value : JsonValue) : result string (list string) :=
  match value with
  | JArray l => try_map coerce_f64 l
  | _ => Err ("invalid number array value: " +:+ show_json value)
  end.
Definition TIMESTAMP_LABEL : string :=
  "timestamp (expected RFC 3339 with a timezone, e.g. 2026-01-31T09:30:00Z)".
Definition bind_typed (value : JsonValue) (t : option FieldType) : result string Bound :=
  match value with
  | JNull =>
      Ok match t with
         | Some FNumber => BNumber None
         | Some (FDecimal _) => BDecimal None
         | Some FBoolean => BBoolean None
         | Some (FUuid | FEntityLink) => BUuid None
         | Some FDate => BDate None
         | Some FTimestamp => BTimestamp None
         | Some FJson => BJson None
         | Some FTextArray => BTextArray None
         | Some FNumberArray => BNumberArray None
         | _ => BText None
         end
  | _ =>
      match t with
      | Some FNumber => result_map (λ x, BNumber (Some x)) (coerce_f64 value)
      | Some (FDecimal _) =>
          let? literal := ok_or (as_str value) "decimal value must be a JSON string" in
          result_map (λ x, BDecimal (Some x)) (parse_decimal parse_bigdecimal literal "value")
      | Some FBoolean => Ok (BBoolean (Some (coerce_bool value)))
      | Some (FUuid | FEntityLink) => result_map (λ x, BUuid (Some x)) (coerce_parsed parse_uuid value "uuid")
      | Some FDate => result_map (λ x, BDate (Some x)) (coerce_parsed parse_date value "date (expected YYYY-MM-DD)")
      | Some FTimestamp => result_map (λ x, BTimestamp (Some x)) (coerce_parsed parse_timestamp value TIMESTAMP_LABEL)
      | Some FJson => Ok (BJson (Some value))
      | Some FTextArray => Ok (BTextArray (Some (coerce_str_vec value)))
      | Some FNumberArray => result_map (λ l, BNumberArray (Some l)) (coerce_f64_vec value)
      | _ => Ok (BText (Some (json_value_to_string show_json value)))
      end
  end.
End Bind.

(** The type of parameter a column of a type takes. *)
Definition takes (t : option FieldType) (b : Bound) : bool :=
  match t, b with
  | Some FNumber, BNumber _ | Some (FDecimal _), BDecimal _ | Some FBoolean, BBoolean _
  | Some (FUuid | FEntityLink), BUuid _ | Some FDate, BDate _ | Some FTimestamp, BTimestamp _ | Some FJson, BJson _
  | Some FTextArray, BTextArray _ | Some FNumberArray, BNumberArray _ | (None | Some (FText | FFile)), BText _ => true
  | _, _ => false
  end.
Definition bound_null (b : Bound) : bool :=
  match b with
  | BNumber None | BDecimal None | BBoolean None | BUuid None | BDate None | BTimestamp None | BJson None
  | BTextArray None | BNumberArray None | BText None => true
  | _ => false
  end.

Lemma bind_typed_takes `{!Parsers} value t b :
  bind_typed value t = Ok b → takes t b = true ∧ bound_null b = is_null value.
Proof.
  intros Hb. unfold bind_typed in Hb.
  destruct value, t as [[]|]; cbv beta iota in Hb; first [by injection Hb as <-|idtac]; inv_ok; by subst.
Qed.

(** A number reaches PostgreSQL finite or not at all: neither an infinity nor a NaN,
    which order above every number there, is bound. *)
Lemma bind_typed_finite `{!Parsers} value x :
  bind_typed value (Some FNumber) = Ok (BNumber (Some x)) → is_finite x = true.
Proof.
  unfold bind_typed, coerce_f64. intros Hb.
  destruct value; cbv beta iota zeta in Hb; first [by injection Hb as Hb|idtac]; repeat case_match; cbn in Hb; congruence.
Qed.

(** An array of text loses the elements that are not strings, without an error. *)
Lemma text_array_drops_elements `{!Parsers} n s :
  bind_typed (JArray [JNumber n; JString s; JNull]) (Some FTextArray) = Ok (BTextArray (Some [s])).
Proof. done. Qed.

(** ** The entities a route reaches *)

(** The stored manifests, an app's [None] when it does not deserialise, and the error
    reading them fails with, if any. *)
Record Catalog := { manifests : gmap string (option AppManifest); catalog_fault : option string }.

Definition is_derived (e : EntityContract) : bool := match derived_from e with Some _ => true | None => false end.
Definition load_entity (c : Catalog) (app entity : string) : result RuntimeError (option EntityContract) :=
  match catalog_fault c with
  | Some e => Err (Schema e)
  | None =>
      Ok (match manifests c !! app with
          | Some (Some m) => List.find (λ e, bool_decide (entity_name e = entity)) (data_contract m)
          | _ => None
          end)
  end.
Definition load_reachable_entity (c : Catalog) (app entity : string) : result RuntimeError (option EntityContract) :=
  let? found := load_entity c app entity in
  match found with
  | Some e =>
      if is_derived e
      then Err (PermissionDenied ("entity '" +:+ entity +:+ "' of app '" +:+ app
                  +:+ "' is derived: only the app's worker reaches it, through SQL"))
      else Ok found
  | None => Ok None
  end.
Definition entity_exists (c : Catalog) (app entity : string) : result RuntimeError bool :=
  result_map (λ e, match e with Some _ => true | None => false end) (load_reachable_entity c app entity).
Definition field_type_map `{!Parsers} (c : Catalog) (app entity : string) : result RuntimeError FieldTypes :=
  let? found := load_reachable_entity c app entity in
  match found with
  | None => Ok (extend ∅ system_field_types)
  | Some e => map_err Invalid (field_types parse_bigdecimal e)
  end.

(** The kind of a record and the field that identifies it across apps. *)
Definition entity_identity (c : Catalog) (app entity : string) : result RuntimeError (option (string * string)) :=
  result_map (λ found, e ← found; kind ← identity_kind e; key ← identity_key e; Some (kind, key)) (load_entity c app entity).
Definition identity_entry (kind : string) (app : string) (e : EntityContract) : option (string * string * string) :=
  k ← identity_kind e; if bool_decide (k = kind) then key ← identity_key e; Some (app, entity_name e, key) else None.
Definition find_entities_by_identity (c : Catalog) (kind : string) (exclude : option string) : result RuntimeError (list (string * string * string)) :=
  match catalog_fault c with
  | Some e => Err (Schema e)
  | None =>
      Ok (mjoin (map (λ '(id, m), if bool_decide (exclude = Some id) then []
                                  else match m with Some m => omap (identity_entry kind (app_id m)) (data_contract m) | None => [] end)
                     (map_to_list (manifests c))))
  end.

(** [ApiError::from(RuntimeError)] *)
Definition api_error_of (e : RuntimeError) : ApiError :=
  match e with
  | PermissionDenied _ => Forbidden (runtime_error_text e)
  | RuntimeConflict _ => Conflict (runtime_error_text e)
  | RuntimeNotFound _ => NotFound (runtime_error_text e)
  | Cron _ | Invalid _ => BadRequest (runtime_error_text e)
  | Capacity _ => Unavailable (runtime_error_text e)
  | Worker _ | Ident.Job _ | Ipc _ => Internal (runtime_error_text e)
  | _ => Internal "internal error"
  end.

Definition validate_app_id (app : string) : result ApiError unit :=
  if bool_decide (app ∈ ["rootcx_system"; "pg_catalog"; "information_schema"]) || starts_with "pg_" app
  then Err (Forbidden ("access to schema '" +:+ app +:+ "' is blocked")) else Ok tt.
Definition ensure_entity (c : Catalog) (app entity : string) : result ApiError unit :=
  let? found := map_err api_error_of (entity_exists c app entity) in
  if found then Ok tt else Err (NotFound ("entity '" +:+ entity +:+ "' not found in app '" +:+ app +:+ "'")).
Definition require_object (body : JsonValue) : result ApiError (list (string * JsonValue)) :=
  let? obj := ok_or (as_object body) (BadRequest "body must be a JSON object") in
  match obj with [] => Err (BadRequest "body must not be empty") | _ => Ok obj end.
Definition filter_writable_fields (obj : list (string * JsonValue)) : list (string * JsonValue) :=
  List.filter (λ kv, negb (is_system_field kv.1)) obj.
(** The column, which the statement quotes. *)
Definition validate_sort_field (field : option string) (types : FieldTypes) : string :=
  match field with
  | Some f => match types !! f with
              | Some t => if f_sensitive t then "created_at" else f
              | None => "created_at"
              end
  | None => "created_at"
  end.
Definition validate_order (s : option string) : string :=
  match s with Some o => if bool_decide (o ∈ ["asc"; "ASC"]) then "ASC" else "DESC" | None => "DESC" end.

(** [str::parse::<i64>] *)
Fixpoint parse_digits (s : string) (acc : Z) : option Z :=
  match s with
  | EmptyString => Some acc
  | String c s =>
      let d := (Z.of_N (N_of_ascii c) - 48)%Z in
      if bool_decide (0 ≤ d ≤ 9)%Z then parse_digits s (acc * 10 + d)%Z else None
  end.
Definition in_i64 (z : Z) : bool := bool_decide (- 2 ^ 63 ≤ z < 2 ^ 63)%Z.
Definition parse_i64 (s : string) : option Z :=
  let '(neg, digits) := match s with
                        | String "-" r => (true, r)
                        | String "+" r => (false, r)
                        | _ => (false, s)
                        end in
  match digits with
  | EmptyString => None
  | _ => z ← parse_digits digits 0%Z; let z := if neg then (- z)%Z else z in if in_i64 z then Some z else None
  end.

(** ** Statements

    The table a statement is on, with the types of its columns. *)
Record Source := { src_app : string; src_entity : string; src_types : FieldTypes }.
Inductive Stmt :=
  | SelectRows (t : Source) (wh : Cond) (sort order : string) (limit offset : option Z) (binds : list string)
  | SelectCounted (t : Source) (wh : Cond) (sort order : string) (limit offset : Z) (binds : list string)
  | SelectById (t : Source) (id : uuid)
  | InsertRow (t : Source) (cols : list string) (binds : list Bound)
  | InsertRows (t : Source) (cols : list string) (n : nat) (binds : list Bound)
  | UpdateById (t : Source) (cols : list string) (binds : list Bound)   (* the last parameter is the id *)
  | DeleteById (t : Source) (id : uuid)
  | SelectUnion (branches : list (Source * Cond * nat)) (sort order : string) (limit offset : Z) (binds : list string).

Definition table (app entity : string) : string := quote_ident app +:+ "." +:+ quote_ident entity.
Definition src_table (t : Source) : string := table (src_app t) (src_entity t).
Definition join_where (conditions : list string) : string :=
  match conditions with [] => EmptyString | _ => " WHERE " +:+ join " AND " conditions end.
Definition where_sql (c : Cond) : string := join_where (map atom_sql c).
Definition opt_sql (kw : string) (n : option Z) : string :=
  match n with Some z => " " +:+ kw +:+ " " +:+ pretty z | None => EmptyString end.
(** [$base .. $(base + n - 1)] *)
Definition placeholders (base n : nat) : list string := map placeholder (seq base n).

Definition stmt_sql (s : Stmt) : string :=
  match s with
  | SelectRows t wh sort order limit offset _ =>
      "SELECT " +:+ row_json "t" (src_types t) +:+ " AS row FROM " +:+ src_table t +:+ " t" +:+ where_sql wh
      +:+ " ORDER BY " +:+ quote_ident sort +:+ " " +:+ order +:+ opt_sql "LIMIT" limit +:+ opt_sql "OFFSET" offset
  | SelectCounted t wh sort order limit offset _ =>
      "SELECT " +:+ row_json "t" (src_types t) +:+ " AS row, COUNT(*) OVER() AS total FROM " +:+ src_table t +:+ " t"
      +:+ where_sql wh +:+ " ORDER BY " +:+ quote_ident sort +:+ " " +:+ order +:+ ", t.id ASC LIMIT " +:+ pretty limit
      +:+ " OFFSET " +:+ pretty offset
  | SelectById t _ => "SELECT " +:+ row_json "t" (src_types t) +:+ " AS row FROM " +:+ src_table t +:+ " t WHERE t.id = $1"
  | InsertRow t cols _ =>
      "INSERT INTO " +:+ src_table t +:+ " (" +:+ join ", " (map quote_ident cols) +:+ ") VALUES ("
      +:+ join ", " (placeholders 1 (length cols)) +:+ ") RETURNING " +:+ row_json (src_table t) (src_types t) +:+ " AS row"
  | InsertRows t cols n _ =>
      "INSERT INTO " +:+ src_table t +:+ " (" +:+ join "," (map quote_ident cols) +:+ ") VALUES "
      +:+ join "," (map (λ i, "(" +:+ join "," (placeholders (i * length cols + 1) (length cols)) +:+ ")") (seq 0 n))
      +:+ " RETURNING " +:+ row_json (src_table t) (src_types t) +:+ " AS row"
  | UpdateById t cols _ =>
      "UPDATE " +:+ src_table t +:+ " SET "
      +:+ join ", " (imap (λ i c, quote_ident c +:+ " = " +:+ placeholder (S i)) cols ++ [quote_ident "updated_at" +:+ " = now()"])
      +:+ " WHERE id = " +:+ placeholder (S (length cols)) +:+ " RETURNING " +:+ row_json (src_table t) (src_types t) +:+ " AS row"
  | DeleteById t _ => "DELETE FROM " +:+ src_table t +:+ " WHERE id = $1"
  | SelectUnion branches sort order limit offset _ =>
      "SELECT row, COUNT(*) OVER() AS total FROM ("
      +:+ join " UNION ALL " (map (λ '(t, wh, n),
            "SELECT " +:+ row_json "t" (src_types t) +:+ " || jsonb_build_object('_source', jsonb_build_object('app', "
            +:+ placeholder n +:+ "::text, 'entity', " +:+ placeholder (S n) +:+ "::text)) AS row FROM " +:+ src_table t +:+ " t"
            +:+ where_sql wh) branches)
      +:+ ") sub ORDER BY row->>'" +:+ sort +:+ "' " +:+ order +:+ ", row->>'id' ASC LIMIT " +:+ pretty limit
      +:+ " OFFSET " +:+ pretty offset
  end.

(** ** What PostgreSQL answers *)

Notation Cells := (gmap string Bound).
Notation Rows := (gmap uuid Cells).
Notation Tables := (gmap (string * string) Rows).

#[export] Instance on_delete_eq_dec : EqDecision OnDeletePolicy.
Proof. solve_decision. Defined.
(** A foreign key of a table, from one of its columns to the [id] of another table. *)
Record Link := { ln_table : string * string; ln_column : string; ln_target : string * string; ln_rule : OnDeletePolicy; ln_required : bool }.

(** How values print and compare, the order a clause sorts rows in, the values
    columns take by default, and the identifiers generated. *)
Class Postgres := {
  to_jsonb : Bound → JsonValue;
  text_jsonb : Bound → JsonValue;                          (* of the value cast to text *)
  compare_cell : Cells → string → bool → string → string → string → option bool;
  contains_cell : Cells → string → string → list string → option bool;
  ordered : string → string → list (uuid * Cells) → list (uuid * Cells);
  json_ordered : string → string → list JsonValue → list JsonValue;
  column_defaults : string → string → Cells;
  now_value : Bound;
  (* the foreign keys of the tables of apps, which [generate_foreign_keys] makes between
     tables of one app only, and whether a key that restricts finds a row before a cascade
     has removed it *)
  links : list Link;
  meets_restrict : Tables → string * string → uuid → bool;
  links_local : ∀ l, l ∈ links → (ln_table l).1 = (ln_target l).1;
  ordered_permutation : ∀ sort order l, Permutation (ordered sort order l) l;
  json_ordered_permutation : ∀ sort order l, Permutation (json_ordered sort order l) l }.

(** The policies in force in a transaction: the rows it reads, those it may change
    or remove, and what a new row is refused with by a policy or a constraint. *)
Record Policies := {
  sees : string * string → uuid → Cells → bool;
  may_change : string * string → uuid → Cells → bool;
  may_remove : string * string → uuid → Cells → bool;
  refuses : string * string → uuid → Cells → option ApiError }.

Section Run.
Context `{!Postgres}.

Definition null_cell (row : Cells) (f : string) : bool := match row !! f with Some b => bound_null b | None => true end.
Definition cell_json (types : FieldTypes) (row : Cells) (name : string) : JsonValue :=
  match row !! name with
  | None => JNull
  | Some b => if from_option (λ f, is_decimal (f_type f)) false (types !! name) then text_jsonb b else to_jsonb b
  end.
(** The JSON [row_json] builds of a row. *)
Definition readable_names (types : FieldTypes) : list string := sorted_names types (λ f, negb (f_sensitive f)).
Definition row_object (types : FieldTypes) (row : Cells) : JsonValue :=
  JObject (map (λ name, (name, cell_json types row name)) (readable_names types)).

Definition rows_of (tbls : Tables) (k : string * string) : Rows := default ∅ (tbls !! k).
Definition selects (pol : Policies) (k : string * string) (wh : Cond) (binds : list string) (e : uuid * Cells) : bool :=
  sees pol k e.1 e.2 && bool_decide (eval_cond null_cell compare_cell contains_cell binds e.2 wh = Some true).
Definition selected (pol : Policies) (tbls : Tables) (k : string * string) (wh : Cond) (binds : list string) : list (uuid * Cells) :=
  List.filter (selects pol k wh binds) (map_to_list (rows_of tbls k)).
Definition window {A} (limit offset : option Z) (l : list A) : list A :=
  let l := match offset with Some o => drop (Z.to_nat o) l | None => l end in
  match limit with Some n => take (Z.to_nat n) l | None => l end.

(** The row an INSERT proposes: the columns given, defaults elsewhere. *)
Definition proposed (k : string * string) (id : uuid) (given : Cells) : Cells :=
  <["id" := BUuid (Some id)]> (given ∪ column_defaults k.1 k.2).
Definition insert_one (pol : Policies) (k : string * string) (tbl : Rows) (id : uuid) (given : Cells) :
    result ApiError (Rows * Cells) :=
  let row := proposed k id given in
  match refuses pol k id row with
  | Some e => Err e
  | None => match tbl !! id with
            | Some _ => Err (UniqueViolation k.2 (k.2 +:+ "_pkey"))
            | None => Ok (<[id := row]> tbl, row)
            end
  end.
Fixpoint insert_all (pol : Policies) (k : string * string) (tbl : Rows) (news : list (uuid * Cells)) :
    result ApiError (Rows * list Cells) :=
  match news with
  | [] => Ok (tbl, [])
  | (id, given) :: news =>
      let? '(tbl, row) := insert_one pol k tbl id given in
      let? '(tbl, rows) := insert_all pol k tbl news in Ok (tbl, row :: rows)
  end.
(** The columns of tuple [i], each from the parameter its placeholder names. *)
Definition tuple_cells (cols : list string) (binds : list Bound) (i : nat) : Cells :=
  list_to_map (omap (λ '(j, c), pair c <$> binds !! (i * length cols + j)%nat) (imap pair cols)).
Definition update_one (pol : Policies) (k : string * string) (tbl : Rows) (id : uuid) (given : Cells) :
    result ApiError (Rows * option Cells) :=
  match tbl !! id with
  | Some row =>
      if sees pol k id row && may_change pol k id row then
        let row' := given ∪ row in
        match refuses pol k id row' with
        | Some e => Err e
        | None => Ok (<[id := row']> tbl, Some row')
        end
      else Ok (tbl, None)
  | None => Ok (tbl, None)
  end.

(** *** What goes with a row

    [ON DELETE]: the rows that refer to a row that is removed go with it, lose the
    reference or keep it from being removed, whatever the policies of the transaction. *)

Definition points_into (D : gset ((string * string) * uuid)) (l : Link) (row : Cells) : bool :=
  match row !! ln_column l with Some (BUuid (Some id)) => bool_decide ((ln_target l, id) ∈ D) | _ => false end.
(** The rows that refer to one of [D] by a key of that rule. *)
Definition referring (tbls : Tables) (D : gset ((string * string) * uuid)) (rule : OnDeletePolicy) : list ((string * string) * uuid) :=
  mjoin (map (λ l, if bool_decide (ln_rule l = rule)
                   then map (λ e, (ln_table l, e.1)) (List.filter (λ e, points_into D l e.2) (map_to_list (rows_of tbls (ln_table l))))
                   else []) links).
Definition grow (tbls : Tables) (D : gset ((string * string) * uuid)) : gset ((string * string) * uuid) :=
  D ∪ list_to_set (referring tbls D Cascade).
Definition all_rows (tbls : Tables) : gset ((string * string) * uuid) :=
  list_to_set (mjoin (map (λ '(k, rows), map (λ e, (k, e.1)) (map_to_list (rows : Rows))) (map_to_list tbls))).
(** The rows that go: as many rounds as there are rows are enough. *)
Definition doomed (tbls : Tables) (k : string * string) (id : uuid) : gset ((string * string) * uuid) :=
  Nat.iter (size (all_rows tbls)) (grow tbls) {[ (k, id) ]}.
Definition clear_link (D : gset ((string * string) * uuid)) (k : string * string) (row : Cells) (l : Link) : Cells :=
  if bool_decide (ln_table l = k) && bool_decide (ln_rule l = SetNull) && points_into D l row then <[ln_column l := BUuid None]> row else row.
Definition clear_links (D : gset ((string * string) * uuid)) (k : string * string) (row : Cells) : Cells := foldl (clear_link D k) row links.
Definition without (D : gset ((string * string) * uuid)) (tbls : Tables) : Tables :=
  map_imap (λ k rows, Some (map_imap (λ id row, if decide ((k, id) ∈ D) then None else Some (clear_links D k row)) (rows : Rows))) tbls.
(** A row that stays refers to one that goes by a key that restricts, or that may not be
    cleared. *)
Definition restricted (tbls : Tables) (D : gset ((string * string) * uuid)) : bool :=
  existsb (λ e, bool_decide (e ∉ D) || meets_restrict tbls e.1 e.2) (referring tbls D Restrict)
  || existsb (λ l, bool_decide (ln_rule l = SetNull) && ln_required l
                   && existsb (λ e, bool_decide ((ln_table l, e.1) ∉ D) && points_into D l e.2) (map_to_list (rows_of tbls (ln_table l)))) links.
Definition delete_one (pol : Policies) (k : string * string) (tbls : Tables) (id : uuid) : result ApiError (Tables * nat) :=
  match rows_of tbls k !! id with
  | Some row =>
      if sees pol k id row && may_remove pol k id row
      then let D := doomed tbls k id in if restricted tbls D then Err (Internal "internal database error") else Ok (without D tbls, 1)
      else Ok (tbls, 0)
  | None => Ok (tbls, 0)
  end.
End Run.

(** ** What goes with a row, exactly *)

Section References.
Context `{!Postgres}.
Notation RowId := ((string * string) * uuid)%type.

(** The rows that refer to a row by keys that cascade, through any number of them. *)
Inductive reached (tbls : Tables) (x : RowId) : RowId → Prop :=
  | reached_itself : reached tbls x x
  | reached_by l target id row : l ∈ links → ln_rule l = Cascade → reached tbls x (ln_target l, target) →
      rows_of tbls (ln_table l) !! id = Some row → row !! ln_column l = Some (BUuid (Some target)) → reached tbls x (ln_table l, id).

Lemma points_into_true D l row : points_into D l row = true ↔ ∃ id, row !! ln_column l = Some (BUuid (Some id)) ∧ (ln_target l, id) ∈ D.
Proof.
  unfold points_into. split; [|by intros (id & -> & Hid); apply bool_decide_eq_true].
  destruct (row !! ln_column l) as [[| | |[id|]| | | | | |]|]; try done. intros Hb%bool_decide_eq_true. by exists id.
Qed.
Lemma elem_of_referring tbls D rule x : x ∈ referring tbls D rule ↔
  ∃ l row, l ∈ links ∧ ln_rule l = rule ∧ x.1 = ln_table l ∧ rows_of tbls (ln_table l) !! x.2 = Some row ∧ points_into D l row = true.
Proof.
  unfold referring. rewrite list_elem_of_join. split.
  - intros (xs & Hx & (l & -> & Hl)%list_elem_of_fmap). case_bool_decide as Hr; [|by apply elem_of_nil in Hx].
    apply list_elem_of_fmap in Hx as ([id row] & -> & Hin). rewrite list_elem_of_In, filter_In, <-list_elem_of_In, elem_of_map_to_list in Hin. destruct Hin. by exists l, row.
  - intros (l & row & Hl & Hr & Hk & Hrow & Hp). eexists. split; [|apply list_elem_of_fmap; exists l; split; [reflexivity|done]].
    rewrite bool_decide_eq_true_2 by done. apply list_elem_of_fmap. exists (x.2, row). split; [destruct x; cbn in *; by subst|].
    by rewrite list_elem_of_In, filter_In, <-list_elem_of_In, elem_of_map_to_list.
Qed.
Lemma elem_of_all_rows tbls x : x ∈ all_rows tbls ↔ is_Some (rows_of tbls x.1 !! x.2).
Proof.
  unfold all_rows. rewrite elem_of_list_to_set, list_elem_of_join. unfold rows_of. split.
  - intros (xs & Hx & ([k rows] & -> & Hl%elem_of_map_to_list)%list_elem_of_fmap). apply list_elem_of_fmap in Hx as ([id row] & -> & Hin%elem_of_map_to_list). cbn. rewrite Hl. cbn. eauto.
  - destruct x as [k id]. cbn. destruct (tbls !! k) as [rows|] eqn:Hk; cbn; [|by rewrite lookup_empty; intros []]. intros [row Hrow].
    eexists. split; [|apply list_elem_of_fmap; exists (k, rows); split; [reflexivity|by apply elem_of_map_to_list]]. apply list_elem_of_fmap. exists (id, row). split; [done|]. by apply elem_of_map_to_list.
Qed.
Lemma elem_of_grow tbls D y : y ∈ grow tbls D ↔ y ∈ D ∨ y ∈ referring tbls D Cascade.
Proof. unfold grow. by rewrite elem_of_union, elem_of_list_to_set. Qed.
Lemma iter_S (tbls : Tables) (n : nat) (D : gset RowId) : Nat.iter (Datatypes.S n) (grow tbls) D = grow tbls (Nat.iter n (grow tbls) D).
Proof. done. Qed.
Lemma iter_reached tbls x n y : y ∈ Nat.iter n (grow tbls) {[ x ]} → reached tbls x y.
Proof.
  revert y. induction n as [|n IH]; intros y; [cbn; intros ->%elem_of_singleton; constructor|]. rewrite iter_S, elem_of_grow. intros [Hy|Hy]; [by apply IH|].
  apply elem_of_referring in Hy as (l & row & Hl & Hr & Hk & Hrow & Hp). apply points_into_true in Hp as (id & Hc & Hin). destruct y as [k i]. cbn [fst snd] in *. subst k.
  eapply reached_by; [done|done|by apply IH|done|done].
Qed.
(** Rounds that add nothing come within as many as there are rows. *)
Lemma iter_grow tbls x n : x ∈ all_rows tbls → let D := Nat.iter n (grow tbls) {[ x ]} in D ⊆ all_rows tbls ∧ (grow tbls D = D ∨ n < size D).
Proof.
  intros Hx. cbv zeta. induction n as [|n [Hsub Hor]]; [cbn; split; [set_solver|right; rewrite size_singleton; lia]|]. rewrite !iter_S.
  assert (grow tbls (Nat.iter n (grow tbls) {[x]}) ⊆ all_rows tbls) as Hs.
  { intros y [Hy|(l & row & _ & _ & Hk & Hrow & _)%elem_of_referring]%elem_of_grow; [by apply Hsub|]. apply elem_of_all_rows. rewrite Hk. by exists row. }
  split; [done|]. destruct Hor as [Hfix|Hlt]; [left; by rewrite Hfix|].
  destruct (decide (grow tbls (Nat.iter n (grow tbls) {[x]}) ⊆ Nat.iter n (grow tbls) {[x]})) as [Hle|Hnle].
  - left. assert (grow tbls (Nat.iter n (grow tbls) {[x]}) = Nat.iter n (grow tbls) {[x]}) as E by (apply leibniz_equiv; unfold grow in *; set_solver). by rewrite !E.
  - right. assert (Nat.iter n (grow tbls) {[x]} ⊂ grow tbls (Nat.iter n (grow tbls) {[x]})) as Hss by (split; [unfold grow; set_solver|done]). apply subset_size in Hss. lia.
Qed.
Lemma doomed_closed tbls k id : is_Some (rows_of tbls k !! id) → grow tbls (doomed tbls k id) = doomed tbls k id.
Proof.
  intros Hr. destruct (iter_grow tbls (k, id) (size (all_rows tbls))) as [Hsub [?|Hlt]]; [by apply elem_of_all_rows|done|]. apply subseteq_size in Hsub. unfold doomed in *. lia.
Qed.
Lemma doomed_itself tbls k id : (k, id) ∈ doomed tbls k id.
Proof. unfold doomed. generalize (size (all_rows tbls)). intros n. induction n as [|n IH]; [cbn; set_solver|]. rewrite iter_S. apply elem_of_grow. by left. Qed.

Lemma clear_links_spec D k row col : clear_links D k row !! col = row !! col ∨
  ∃ l id, l ∈ links ∧ ln_table l = k ∧ ln_rule l = SetNull ∧ ln_column l = col ∧ row !! col = Some (BUuid (Some id)) ∧ (ln_target l, id) ∈ D ∧ clear_links D k row !! col = Some (BUuid None).
Proof.
  unfold clear_links. assert (∀ ls, (∀ l, l ∈ ls → l ∈ links) → ∀ r, (r !! col = row !! col ∨ ∃ l id, l ∈ links ∧ ln_table l = k ∧ ln_rule l = SetNull ∧ ln_column l = col ∧ row !! col = Some (BUuid (Some id)) ∧ (ln_target l, id) ∈ D ∧ r !! col = Some (BUuid None)) →
    foldl (clear_link D k) r ls !! col = row !! col ∨ ∃ l id, l ∈ links ∧ ln_table l = k ∧ ln_rule l = SetNull ∧ ln_column l = col ∧ row !! col = Some (BUuid (Some id)) ∧ (ln_target l, id) ∈ D ∧ foldl (clear_link D k) r ls !! col = Some (BUuid None)) as Hall.
  2:{ apply Hall; [done|by left]. }
  induction ls as [|l ls IH]; intros Hls r Hr; [done|]. cbn. apply IH; [set_solver|]. unfold clear_link. destruct (_ && _ && _) eqn:Hb; [|done]. apply andb_true_iff in Hb as [[Hk Hru]%andb_true_iff Hp].
  apply bool_decide_eq_true in Hk, Hru. apply points_into_true in Hp as (id & Hc & Hin). destruct (decide (ln_column l = col)) as [<-|Hne]; [|by rewrite lookup_insert_ne].
  right. destruct Hr as [Hr|(? & ? & _ & _ & _ & _ & _ & _ & Hr)]; [|congruence]. exists l, id. rewrite lookup_insert_eq. split_and!; try done; [set_solver|congruence].
Qed.
Lemma clear_links_clears D k row l : l ∈ links → ln_table l = k → ln_rule l = SetNull → points_into D l (clear_links D k row) = false.
Proof.
  unfold clear_links. intros Hl Hk Hr. assert (∀ l', ln_table l' = k → ∀ r, points_into D l r = false → points_into D l (clear_link D k r l') = false) as Hstay.
  { intros l' _ r Hp. unfold clear_link. destruct (_ && _ && _); [|done]. unfold points_into in *. destruct (decide (ln_column l' = ln_column l)) as [->|Hne]; [by rewrite lookup_insert_eq|by rewrite lookup_insert_ne]. }
  assert (∀ l' r, points_into D l r = false → points_into D l (clear_link D k r l') = false) as Hstep.
  { intros l' r Hp. destruct (decide (ln_table l' = k)); [by apply Hstay|]. unfold clear_link. by rewrite bool_decide_eq_false_2. }
  revert row. induction links as [|l' ls IH]; intros row; [by apply elem_of_nil in Hl|]. cbn. apply elem_of_cons in Hl as [<-|Hl]; [|by apply IH].
  assert (points_into D l (clear_link D k row l) = false) as H0.
  { unfold clear_link. rewrite !bool_decide_eq_true_2 by done. cbn. destruct (points_into D l row) eqn:Hp; [|done]. unfold points_into. by rewrite lookup_insert_eq. }
  clear IH. revert H0. generalize (clear_link D k row l). induction ls as [|l2 ls IH2]; intros r H0; [done|]. cbn. apply IH2. by apply Hstep.
Qed.
Lemma rows_of_without D tbls k id : rows_of (without D tbls) k !! id = if decide ((k, id) ∈ D) then None else clear_links D k <$> rows_of tbls k !! id.
Proof.
  unfold rows_of, without. rewrite map_lookup_imap. destruct (tbls !! k) as [rows|]; cbn; [|rewrite lookup_empty; by case_decide].
  rewrite map_lookup_imap. destruct (rows !! id) as [row|]; cbn; [|by case_decide]. by case_decide.
Qed.

(** What the removal of a row comes to: the row is gone; every other row is as it was, or
    was reached by keys that cascade and is gone, or has lost references to rows that are
    gone, and nothing else; and only rows of the same app are concerned. *)
Definition removed_with (k : string * string) (id : uuid) (tbls tbls' : Tables) : Prop :=
  rows_of tbls' k !! id = None ∧
  (∀ k' i, k'.1 ≠ k.1 → rows_of tbls' k' !! i = rows_of tbls k' !! i) ∧
  ∀ k' i, rows_of tbls' k' !! i = rows_of tbls k' !! i
    ∨ (reached tbls (k, id) (k', i) ∧ rows_of tbls' k' !! i = None)
    ∨ ∃ row row', rows_of tbls k' !! i = Some row ∧ rows_of tbls' k' !! i = Some row' ∧
        ∀ col, row' !! col = row !! col ∨
          ∃ l j, l ∈ links ∧ ln_table l = k' ∧ ln_rule l = SetNull ∧ ln_column l = col ∧ reached tbls (k, id) (ln_target l, j)
            ∧ row !! col = Some (BUuid (Some j)) ∧ row' !! col = Some (BUuid None).
Lemma reached_local tbls x y : reached tbls x y → y.1.1 = x.1.1.
Proof. induction 1 as [|l target id row Hl _ _ IH _ _]; [done|]. cbn in *. rewrite <-IH. by apply links_local. Qed.
Lemma clear_links_far D k row : (∀ j k', (k', j) ∈ D → k'.1 ≠ k.1) → clear_links D k row = row.
Proof.
  intros Hfar. apply map_eq. intros col. destruct (clear_links_spec D k row col) as [?|(l & id & Hl & Hk & _ & _ & _ & Hin & _)]; [done|].
  destruct (Hfar _ _ Hin). rewrite <-Hk. symmetry. by apply links_local.
Qed.
Lemma doomed_removed tbls k id : removed_with k id tbls (without (doomed tbls k id) tbls).
Proof.
  assert (∀ y, y ∈ doomed tbls k id → reached tbls (k, id) y) as Hr by (intros y; apply iter_reached). split_and!.
  - rewrite rows_of_without, decide_True; [done|apply doomed_itself].
  - intros k' i Hne. rewrite rows_of_without, decide_False; [|intros Hin%Hr%reached_local; cbn in Hin; congruence].
    destruct (rows_of tbls k' !! i) as [row|]; [|done]. cbn. rewrite clear_links_far; [done|]. intros j k2 Hin%Hr%reached_local. cbn in Hin. congruence.
  - intros k' i. rewrite rows_of_without. case_decide as Hd; [right; left; split; [by apply Hr|done]|]. destruct (rows_of tbls k' !! i) as [row|]; [|by left]. right. right.
    exists row, (clear_links (doomed tbls k id) k' row). split_and!; [done|done|]. intros col. destruct (clear_links_spec (doomed tbls k id) k' row col) as [?|(l & j & Hl & Hk & Hru & Hc & Hrow & Hin & Hn)]; [by left|right].
    exists l, j. split_and!; try done. by apply Hr.
Qed.
Lemma delete_one_ok pol k tbls id tbls' n : delete_one pol k tbls id = Ok (tbls', n) →
  (n = 0 ∧ tbls' = tbls) ∨ (n = 1 ∧ ∃ row, rows_of tbls k !! id = Some row ∧ sees pol k id row = true ∧ may_remove pol k id row = true ∧ removed_with k id tbls tbls').
Proof.
  unfold delete_one. destruct (rows_of tbls k !! id) as [row|]; [|intros [= <- <-]; by left]. destruct (_ && _) eqn:Hb; [|intros [= <- <-]; by left].
  apply andb_true_iff in Hb as [Hs Hm]. destruct (restricted _ _); [done|]. intros [= <- <-]. right. split; [done|]. exists row. split_and!; try done. apply doomed_removed.
Qed.
(** After a removal no key refers to a row that is gone. *)
Theorem removal_leaves_no_reference pol k tbls id tbls' l i row : delete_one pol k tbls id = Ok (tbls', 1) → l ∈ links →
  rows_of tbls' (ln_table l) !! i = Some row → ∀ j, row !! ln_column l = Some (BUuid (Some j)) → is_Some (rows_of tbls (ln_target l) !! j) → is_Some (rows_of tbls' (ln_target l) !! j).
Proof.
  unfold delete_one. destruct (rows_of tbls k !! id) as [row0|] eqn:H0; [|done]. destruct (_ && _); [|done]. destruct (restricted _ _) eqn:Hres; [done|]. intros [= <-] Hl Hrow j Hj [old Hold].
  rewrite rows_of_without in Hrow |- *. case_decide as Hd; [done|]. destruct (rows_of tbls (ln_table l) !! i) as [r|] eqn:Hr; [|done]. injection Hrow as <-. set (D := doomed tbls k id) in *.
  case_decide as Hin; [|rewrite Hold; by eexists]. exfalso. assert (points_into D l (clear_links D (ln_table l) r) = true) as Hp by (apply points_into_true; eauto).
  assert (points_into D l r = true) as Hpr. { apply points_into_true. destruct (clear_links_spec D (ln_table l) r (ln_column l)) as [E|(? & ? & _ & _ & _ & _ & _ & _ & E)]; [exists j; split; [congruence|done]|congruence]. }
  destruct (ln_rule l) eqn:Hrule.
  - apply Hd. unfold D. rewrite <-doomed_closed by (rewrite H0; by eexists). apply elem_of_union. right. apply elem_of_list_to_set, elem_of_referring. exists l, r. by split_and!.
  - apply orb_false_iff in Hres as [Hres _]. rewrite <-not_true_iff_false in Hres. apply Hres, existsb_exists. exists (ln_table l, i). split; [|by rewrite bool_decide_eq_true_2].
    apply list_elem_of_In, elem_of_referring. exists l, r. by split_and!.
  - rewrite clear_links_clears in Hp; done.
Qed.
End References.

(** The rows a statement returns, the count beside each of them, and the number of
    rows it affected. *)
Record Reply := { rp_rows : list JsonValue; rp_total : nat; rp_affected : nat }.
Definition row_reply (l : list JsonValue) : Reply := {| rp_rows := l; rp_total := 0; rp_affected := length l |}.

Section Statements.
Context `{!Postgres}.
(** The identifiers [gen_random_uuid()] gives the rows of one statement. *)
Context (fresh : nat → uuid).

Definition src_key (t : Source) : string * string := (src_app t, src_entity t).
Definition source_object (app entity : string) : JsonValue := JObject [("app", JString app); ("entity", JString entity)].
Definition union_branch (pol : Policies) (tbls : Tables) (binds : list string) (b : Source * Cond * nat) : list JsonValue :=
  let '(t, wh, n) := b in
  map (λ e, match row_object (src_types t) e.2 with
            | JObject o => JObject (obj_insert "_source"
                (source_object (default EmptyString (bind_at binds n)) (default EmptyString (bind_at binds (S n)))) o)
            | v => v
            end) (selected pol tbls (src_key t) wh binds).

Definition run_stmt (pol : Policies) (s : Stmt) (tbls : Tables) : result ApiError (Tables * Reply) :=
  match s with
  | SelectRows t wh sort order limit offset binds =>
      Ok (tbls, row_reply (map (λ e, row_object (src_types t) e.2)
                             (window limit offset (ordered sort order (selected pol tbls (src_key t) wh binds)))))
  | SelectCounted t wh sort order limit offset binds =>
      let rows := selected pol tbls (src_key t) wh binds in
      let page := window (Some limit) (Some offset) (ordered sort order rows) in
      Ok (tbls, {| rp_rows := map (λ e, row_object (src_types t) e.2) page; rp_total := length rows; rp_affected := length page |})
  | SelectById t id =>
      Ok (tbls, row_reply (match rows_of tbls (src_key t) !! id with
                           | Some row => if sees pol (src_key t) id row then [row_object (src_types t) row] else []
                           | None => []
                           end))
  | InsertRow t cols binds =>
      let? '(tbl, row) := insert_one pol (src_key t) (rows_of tbls (src_key t)) (fresh 0) (tuple_cells cols binds 0) in
      Ok (<[src_key t := tbl]> tbls, row_reply [row_object (src_types t) row])
  | InsertRows t cols n binds =>
      let? '(tbl, rows) := insert_all pol (src_key t) (rows_of tbls (src_key t))
                             (map (λ i, (fresh i, tuple_cells cols binds i)) (seq 0 n)) in
      Ok (<[src_key t := tbl]> tbls, row_reply (map (row_object (src_types t)) rows))
  | UpdateById t cols binds =>
      match binds !! length cols with
      | Some (BUuid (Some id)) =>
          let? '(tbl, row) := update_one pol (src_key t) (rows_of tbls (src_key t)) id
                                (<["updated_at" := now_value]> (tuple_cells cols binds 0)) in
          Ok (<[src_key t := tbl]> tbls, row_reply (match row with Some r => [row_object (src_types t) r] | None => [] end))
      | _ => Ok (tbls, row_reply [])
      end
  | DeleteById t id =>
      let? '(tbls, n) := delete_one pol (src_key t) tbls id in
      Ok (tbls, {| rp_rows := []; rp_total := 0; rp_affected := n |})
  | SelectUnion branches sort order limit offset binds =>
      let rows := mjoin (map (union_branch pol tbls binds) branches) in
      let page := window (Some limit) (Some offset) (json_ordered sort order rows) in
      Ok (tbls, {| rp_rows := page; rp_total := length rows; rp_affected := length page |})
  end.
End Statements.

(** ** The handlers *)

(** [DataAccess::audited] *)
Definition audited (a : @DataAccess FieldTypes) (u : Audit) : @DataAccess FieldTypes :=
  {| app_schema := app_schema a; state := state a; invocation := invocation a; audit := u; trigger_ref_ := trigger_ref_ a;
     timeout_ms := timeout_ms a; cross_app := cross_app a; origin_ := origin_ a;
     delegated_collection := delegated_collection a; publication := publication a |}.
Definition TIMEOUT_INTERACTIVE_MS : Z := 8000.
Definition http_context (user : uuid) : ContextState :=
  {| cx_user_id := Some user; cx_is_delegated := false; cx_effective_perms := []; cx_connection_id := None;
     audit_actor_id := Some user; audit_delegator_id := None; public_execution := None; approved_action := None |}.
(** [Identity::actor_pair] *)
Definition actor_pair (user : uuid) : Audit := {| actor := Some user; delegator := None |}.
Definition http_access (app : string) (user : uuid) : DataAccess :=
  audited (data_human app (http_context user) "api" TIMEOUT_INTERACTIVE_MS) (actor_pair user).

(** The apps whose records of the same identity go with the answer. *)
Inductive LinkedOption := LinkedAll (all : bool) | LinkedApps (apps : list string).
Record QueryRequest := {
  where_clause : option JsonValue; order_by : option string; order : option string; q_limit : Z; q_offset : Z; linked : option LinkedOption }.
Definition MAX_BULK_SIZE : nat := 1000.
Definition PG_PARAM_LIMIT : Z := 65535.
Definition RESERVED_PARAMS : list string := ["limit"; "offset"; "sort"; "order"; "linked"].
Definition clamp_limit (l : Z) : Z := Z.max (Z.min l 1000) 1.
Definition clamp_offset (o : Z) : Z := Z.max o 0.

Fixpoint union_keys_from (seen : list string) (ks : list string) : list string :=
  match ks with
  | [] => []
  | k :: ks =>
      if is_system_field k || bool_decide (k ∈ seen) then union_keys_from seen ks else k :: union_keys_from (k :: seen) ks
  end.
Definition union_keys (objects : list (list (string * JsonValue))) : list string :=
  union_keys_from [] (mjoin (map (map fst) objects)).

Section Handlers.
Context `{!Parsers} `{!Postgres}.
(** What opening a transaction for an access gives: its policies, or why not. *)
Context (begins : @DataAccess FieldTypes → result ApiError Policies) (fresh : nat → uuid).
Context (cat : Catalog).

Definition types_of (app entity : string) : result ApiError FieldTypes := map_err api_error_of (field_type_map cat app entity).

(** A transaction: its effects stay when it succeeds, and nothing does otherwise. *)
Definition transaction {A : Type} (a : @DataAccess FieldTypes) (body : Policies → Tables → result ApiError (Tables * A))
    (tbls : Tables) : Tables * result ApiError A :=
  match (let? pol := begins a in body pol tbls) with
  | Ok (tbls', x) => (tbls', Ok x)
  | Err e => (tbls, Err e)
  end.
Definition fail {A : Type} (tbls : Tables) (e : ApiError) : Tables * result ApiError A := (tbls, Err e).
Definition after {A B : Type} (r : result ApiError A) (k : A → Tables → Tables * result ApiError B) (tbls : Tables) :
    Tables * result ApiError B :=
  match r with Ok x => k x tbls | Err e => fail tbls e end.

Definition lookup_param (k : string) (params : list (string * string)) : option string :=
  snd <$> List.find (λ kv, bool_decide (kv.1 = k)) params.
Fixpoint param_conditions (types : FieldTypes) (params : list (string * string)) (s : Params) : result ApiError (Cond * Params) :=
  match params with
  | [] => Ok ([], s)
  | (key, val) :: params =>
      if bool_decide (key ∈ RESERVED_PARAMS) then param_conditions types params s
      else let? '(a, s) := build_field_condition show_json types key (JString val) s in
           let? '(c, s) := param_conditions types params s in Ok (a :: c, s)
  end.
(** *** Records of the same identity in other apps *)

(** [refused]: PostgreSQL refuses the query of an entity's records by their key, because
    the table is not there or its key does not compare with text. *)
Context (refused : string → string → bool).

Definition linked_sql (app entity key : string) (types : FieldTypes) (n : nat) : string :=
  "SELECT " +:+ row_json "t" types +:+ " AS row FROM " +:+ quote_ident app +:+ "." +:+ quote_ident entity +:+ " t WHERE t." +:+ quote_ident key
  +:+ " IN (" +:+ join "," (placeholders 1 n) +:+ ")".
(** What it selects: the rows seen whose key is among the values. *)
Definition linked_rows (pol : Policies) (tbls : Tables) (app entity key : string) (types : FieldTypes) (values : list string) : list JsonValue :=
  map (λ e, row_object types e.2)
    (List.filter (λ e, sees pol (app, entity) e.1 e.2 && existsb (λ v, bool_decide (compare_cell e.2 key false "=" v EmptyString = Some true)) values)
       (map_to_list (rows_of tbls (app, entity)))).
Definition link_object (entity : string) (r : JsonValue) : JsonValue :=
  JObject [("data", r); ("entity", JString entity); ("recordId", default JNull (get r "id"))].
Definition key_text (key : string) (row : JsonValue) : string := default EmptyString (get row key ≫= as_str).
(** One row of the answer with the record of its key; of records with the same key, the
    last.  [None] is a panic: the row has a field of that name that is no object. *)
Definition attach (app entity key target_key : string) (found : list JsonValue) (row : JsonValue) : option JsonValue :=
  match List.find (λ r, bool_decide ((get r target_key ≫= as_str) = Some (key_text key row))) (rev found) with
  | None => Some row
  | Some r =>
      o ← as_object row;
      l ← match obj_get "_linked" o with None => Some [] | Some v => as_object v end;
      Some (JObject (obj_insert "_linked" (JObject (obj_insert app (link_object entity r) l)) o))
  end.
(** A panic ends the request. *)
Definition PANICKED : ApiError := Internal "panicked".
(** After a query that is refused the transaction is aborted, and the others are too. *)
Fixpoint attach_targets (pol : Policies) (tbls : Tables) (key : string) (values : list string) (targets : list (string * string * string)) (aborted : bool)
    (rows : list JsonValue) : result ApiError (list JsonValue) :=
  match targets with
  | [] => Ok rows
  | (app, entity, target_key) :: targets =>
      let? types := types_of app entity in
      if aborted || refused app entity then attach_targets pol tbls key values targets true rows
      else let? rows := ok_or (mapM (attach app entity key target_key (linked_rows pol tbls app entity target_key types values)) rows) PANICKED in
           attach_targets pol tbls key values targets false rows
  end.
Definition wants (l : LinkedOption) (app : string) : bool :=
  match l with LinkedAll all => all | LinkedApps apps => bool_decide (app ∈ apps) end.
Definition internal_error (e : RuntimeError) : ApiError := Internal (runtime_error_text e).
Definition enrich_linked (pol : Policies) (tbls : Tables) (app entity : string) (rows : list JsonValue) (l : LinkedOption) : result ApiError (list JsonValue) :=
  let? identity := map_err internal_error (entity_identity cat app entity) in
  match identity with
  | None => Ok rows
  | Some (kind, key) =>
      let? found := map_err internal_error (find_entities_by_identity cat kind (Some app)) in
      let targets := List.filter (λ t, wants l t.1.1) found in
      let values := omap (λ r, get r key ≫= as_str) rows in
      if bool_decide (targets = []) || bool_decide (values = []) then Ok rows
      else attach_targets pol tbls key values targets false rows
  end.
Definition with_linked (pol : Policies) (tbls : Tables) (app entity : string) (l : option LinkedOption) (rows : list JsonValue) : result ApiError (list JsonValue) :=
  match l with Some l => enrich_linked pol tbls app entity rows l | None => Ok rows end.
Definition linked_param (p : string) : LinkedOption := if bool_decide (p = "true") then LinkedAll true else LinkedApps (split_byte "," p).

(** [params] in the order the map is iterated. *)
Definition list_stmt (app entity : string) (params : list (string * string)) : result ApiError Stmt :=
  try? validate_app_id app in
  try? ensure_entity cat app entity in
  let? types := types_of app entity in
  let? '(c, (binds, _)) := param_conditions types params ([], 0) in
  Ok (SelectRows {| src_app := app; src_entity := entity; src_types := types |} c
        (validate_sort_field (lookup_param "sort" params) types) (validate_order (lookup_param "order" params))
        ((λ l, clamp_limit (default 100%Z (parse_i64 l))) <$> lookup_param "limit" params)
        ((λ o, clamp_offset (default 0%Z (parse_i64 o))) <$> lookup_param "offset" params) binds).
Definition list_records (app entity : string) (user : uuid) (params : list (string * string)) :
    Tables → Tables * result ApiError (list JsonValue) :=
  after (list_stmt app entity params) (λ s,
    transaction (http_access app user) (λ pol tbls,
      let? '(tbls, r) := run_stmt fresh pol s tbls in
      let? data := with_linked pol tbls app entity (linked_param <$> lookup_param "linked" params) (rp_rows r) in
      Ok (tbls, data))).

(** The condition of a filter; the text TRUE is no condition. *)
Definition where_conditions (types : FieldTypes) (w : option JsonValue) (s : Params) : result ApiError (Cond * Params) :=
  match w with
  | None => Ok ([], s)
  | Some w => let? '(c, s) := build_where_clause show_json types w s in
              Ok (if decide (cond_sql c = "TRUE") then [] else c, s)
  end.
Definition query_stmt (app entity : string) (body : QueryRequest) : result ApiError Stmt :=
  try? validate_app_id app in
  try? ensure_entity cat app entity in
  let? types := types_of app entity in
  let? '(c, (binds, _)) := where_conditions types (where_clause body) ([], 0) in
  Ok (SelectCounted {| src_app := app; src_entity := entity; src_types := types |} c
        (validate_sort_field (order_by body) types) (validate_order (order body))
        (clamp_limit (q_limit body)) (clamp_offset (q_offset body)) binds).
(** The count beside the first row. *)
Definition counted (r : Reply) : list JsonValue * nat :=
  (rp_rows r, match rp_rows r with [] => 0 | _ => rp_total r end).
Definition query_records (app entity : string) (user : uuid) (body : QueryRequest) :
    Tables → Tables * result ApiError (list JsonValue * nat) :=
  after (query_stmt app entity body) (λ s,
    transaction (http_access app user) (λ pol tbls,
      let? '(tbls, r) := run_stmt fresh pol s tbls in
      let '(rows, total) := counted r in
      let? data := with_linked pol tbls app entity (linked body) rows in
      Ok (tbls, (data, total)))).

Definition bind_all (types : FieldTypes) (entries : list (string * JsonValue)) : result ApiError (list Bound) :=
  try_map (λ '(k, v), map_err BadRequest (bind_typed v (manifest_type types k))) entries.
Definition first_row (r : Reply) (missing : ApiError) : result ApiError JsonValue := ok_or (head (rp_rows r)) missing.

Definition create_record (app entity : string) (user : uuid) (body : JsonValue) : Tables → Tables * result ApiError JsonValue :=
  after (try? validate_app_id app in
         try? ensure_entity cat app entity in
         let? obj := require_object body in
         let? types := types_of app entity in
         match filter_writable_fields obj with
         | [] => Err (BadRequest "body must contain at least one writable field")
         | entries => Ok (types, entries)
         end) (λ '(types, entries),
    transaction (http_access app user) (λ pol tbls,
      let? binds := bind_all types entries in
      let? '(tbls, r) := run_stmt fresh pol
          (InsertRow {| src_app := app; src_entity := entity; src_types := types |} (map fst entries) binds) tbls in
      let? row := first_row r (Internal "internal database error") in
      Ok (tbls, row))).

Definition bulk_stmt (app entity : string) (types : FieldTypes) (objects : list (list (string * JsonValue))) : result ApiError Stmt :=
  let keys := union_keys objects in
  match keys with
  | [] => Err (BadRequest "each record must contain at least one writable field")
  | _ =>
      let total_params := (length objects * length keys)%nat in
      if bool_decide (PG_PARAM_LIMIT < Z.of_nat total_params)%Z then
        Err (BadRequest ("bulk insert requires " +:+ pretty total_params +:+ " params, limit is " +:+ pretty PG_PARAM_LIMIT))
      else
        let? binds := try_map (λ obj, bind_all types (map (λ k, (k, default JNull (obj_get k obj))) keys)) objects in
        Ok (InsertRows {| src_app := app; src_entity := entity; src_types := types |} keys (length objects) (mjoin binds))
  end.
Definition bulk_insert (app entity : string) (types : FieldTypes) (objects : list (list (string * JsonValue)))
    (a : @DataAccess FieldTypes) : Tables → Tables * result ApiError (list JsonValue) :=
  after (bulk_stmt app entity types objects) (λ s,
    transaction a (λ pol tbls, let? '(tbls, r) := run_stmt fresh pol s tbls in Ok (tbls, rp_rows r))).
Definition bulk_create_records (app entity : string) (user : uuid) (body : JsonValue) :
    Tables → Tables * result ApiError (list JsonValue) :=
  after (try? validate_app_id app in
         try? ensure_entity cat app entity in
         let? records := ok_or (as_array body) (BadRequest "body must be a JSON array") in
         match records with
         | [] => Err (BadRequest "array must not be empty")
         | _ =>
             if bool_decide (MAX_BULK_SIZE < length records)
             then Err (BadRequest ("batch size " +:+ pretty (length records) +:+ " exceeds max " +:+ pretty MAX_BULK_SIZE))
             else
               let? objects := try_map require_object records in
               let? types := types_of app entity in Ok (objects, types)
         end) (λ '(objects, types),
    bulk_insert app entity types objects
      (audited (data_app app (http_context user) "api" TIMEOUT_INTERACTIVE_MS) (actor_pair user))).

Definition parse_id (id : string) : result ApiError uuid := ok_or (parse_uuid id) (BadRequest ("invalid UUID: '" +:+ id +:+ "'")).
Definition missing (id : string) : ApiError := NotFound ("record '" +:+ id +:+ "' not found").
Definition get_record (app entity id : string) (user : uuid) : Tables → Tables * result ApiError JsonValue :=
  after (try? validate_app_id app in
         let? u := parse_id id in
         try? ensure_entity cat app entity in
         let? types := types_of app entity in Ok (u, types)) (λ '(u, types),
    transaction (http_access app user) (λ pol tbls,
      let? '(tbls, r) := run_stmt fresh pol (SelectById {| src_app := app; src_entity := entity; src_types := types |} u) tbls in
      let? row := first_row r (missing id) in
      Ok (tbls, row))).
Definition update_record (app entity id : string) (user : uuid) (body : JsonValue) : Tables → Tables * result ApiError JsonValue :=
  after (try? validate_app_id app in
         let? u := parse_id id in
         try? ensure_entity cat app entity in
         let? obj := require_object body in
         let? types := types_of app entity in Ok (u, types, filter_writable_fields obj)) (λ '(u, types, entries),
    transaction (http_access app user) (λ pol tbls,
      let? binds := bind_all types entries in
      let? '(tbls, r) := run_stmt fresh pol
          (UpdateById {| src_app := app; src_entity := entity; src_types := types |} (map fst entries) (binds ++ [BUuid (Some u)])) tbls in
      let? row := first_row r (missing id) in
      Ok (tbls, row))).
Definition delete_record (app entity id : string) (user : uuid) : Tables → Tables * result ApiError string :=
  after (try? validate_app_id app in
         let? u := parse_id id in
         try? ensure_entity cat app entity in Ok u) (λ u,
    transaction (http_access app user) (λ pol tbls,
      let? '(tbls, r) := run_stmt fresh pol
          (DeleteById {| src_app := app; src_entity := entity; src_types := ∅ |} u) tbls in
      if bool_decide (rp_affected r = 0) then Err (missing id)
      else Ok (tbls, "record '" +:+ id +:+ "' deleted"))).

(** [targets]: the entities of the identity ([find_entities_by_identity]). *)
Fixpoint federated_branches (targets : list (string * string)) (w : option JsonValue) (offset : nat) :
    result ApiError (list (Source * Cond * nat) * list string) :=
  match targets with
  | [] => Ok ([], [])
  | (app, entity) :: targets =>
      let? types := types_of app entity in
      let? '(c, (binds, idx)) := where_conditions types w ([], offset) in
      let? '(bs, rest) := federated_branches targets w (idx + 2) in
      Ok (({| src_app := app; src_entity := entity; src_types := types |}, c, S idx) :: bs, (binds ++ [app; entity]) ++ rest)
  end.
Definition sort_byte (c : ascii) : bool :=
  let n := N_of_ascii c in
  bool_decide (97 ≤ n ≤ 122)%N || bool_decide (48 ≤ n ≤ 57)%N || bool_decide (c = "_"%char).
Definition federated_stmt (targets : list (string * string)) (body : QueryRequest) : result ApiError (option Stmt) :=
  let? '(bs, binds) := federated_branches targets (where_clause body) 0 in
  match bs with
  | [] => Ok None
  | _ =>
      let sort := default "created_at" (order_by body) in
      if negb (str_forall sort_byte sort) then Err (BadRequest ("invalid sort field: '" +:+ sort +:+ "'"))
      else Ok (Some (SelectUnion bs sort (validate_order (order body)) (clamp_limit (q_limit body)) (clamp_offset (q_offset body)) binds))
  end.
Definition federated_query (targets : list (string * string)) (user : uuid) (body : QueryRequest) :
    Tables → Tables * result ApiError (list JsonValue * nat) :=
  after (federated_stmt targets body) (λ s,
    match s with
    | None => λ tbls, (tbls, Ok ([], 0))
    | Some s =>
        transaction (http_access "public" user) (λ pol tbls,
          let? '(tbls, r) := run_stmt fresh pol s tbls in Ok (tbls, counted r))
    end).
End Handlers.

(** ** Conditions without their bind offset *)

(** A step of building a condition depends on what is bound before only by its count. *)
Definition oblivious {X : Type} (f : Params → result ApiError (X * Params)) : Prop :=
  ∀ p b n, f (p ++ b, n) = result_map (λ '(x, (b', n')), (x, (p ++ b', n'))) (f (b, n)).
Lemma oblivious_ok {X : Type} (x : X) : oblivious (λ s, Ok (x, s)).
Proof. by intros p b n. Qed.
Lemma oblivious_err {X : Type} e : oblivious (λ _, Err e : result ApiError (X * Params)).
Proof. by intros p b n. Qed.
Lemma oblivious_bind {X Y : Type} (f : Params → result ApiError (X * Params)) (g : X → Params → result ApiError (Y * Params)) :
  oblivious f → (∀ x, oblivious (g x)) → oblivious (λ s, let? '(x, s) := f s in g x s).
Proof.
  intros Hf Hg p b n. rewrite Hf. destruct (f (b, n)) as [[x [b' n']]|e]; [|done]. apply Hg.
Qed.
Lemma oblivious_ext {X : Type} (f g : Params → result ApiError (X * Params)) : (∀ s, f s = g s) → oblivious g → oblivious f.
Proof. intros E H p b n. rewrite !E. apply H. Qed.
Lemma oblivious_map {X Y : Type} (f : Params → result ApiError (X * Params)) (h : X → Y) :
  oblivious f → oblivious (λ s, let? '(x, s) := f s in Ok (h x, s)).
Proof. intros Hf. apply (oblivious_bind f (λ x s, Ok (h x, s)) Hf). intros x. apply oblivious_ok. Qed.

Section Oblivious.
Context (show : JsonValue → string) (types : FieldTypes).

Lemma oblivious_compare field as_text op cast value : oblivious (compare_with field as_text op cast value).
Proof. intros p b n. unfold compare_with. destruct value; [|done]. cbn. by rewrite app_assoc. Qed.
Lemma oblivious_bind_each f l : oblivious (bind_each f l).
Proof.
  induction l as [|v l IH]; intros p b n; [done|]. cbn [bind_each]. destruct (f v) as [x|e]; [|done]. cbn.
  specialize (IH p (b ++ [x]) (S n)). cbn in IH. rewrite <-app_assoc, IH.
  by destruct (bind_each f l (b ++ [x], S n)) as [[ns [b' n']]|].
Qed.
Lemma oblivious_operator field op operand : oblivious (build_operator show types field op operand).
Proof.
  unfold build_operator. cbv zeta. destruct (decide (op = "$eq")).
  { destruct (is_null operand); [apply oblivious_ok|apply oblivious_compare]. }
  destruct (decide (op = "$ne")).
  { destruct (is_null operand); [apply oblivious_ok|apply oblivious_compare]. }
  destruct (bool_decide (op ∈ ["$gt"; "$gte"; "$lt"; "$lte"])); [apply oblivious_compare|].
  destruct (bool_decide (op ∈ ["$like"; "$ilike"])); [apply oblivious_compare|].
  destruct (bool_decide (op ∈ ["$in"; "$nin"])).
  { destruct operand as [| | | |[|v l]|]; try apply oblivious_err; [apply oblivious_ok|]. apply oblivious_map, oblivious_bind_each. }
  destruct (decide (op = "$contains")).
  { destruct operand as [| | | |[|v l]|]; try apply oblivious_err; [apply oblivious_ok|].
    destruct (is_jsonb_type _); [apply oblivious_compare|apply oblivious_map, oblivious_bind_each]. }
  destruct (decide (op = "$isNull")); [apply oblivious_ok|apply oblivious_err].
Qed.
Lemma oblivious_operators field ops : oblivious (build_operators show types field ops).
Proof.
  induction ops as [|[op operand] ops IH]; [apply oblivious_ok|]. cbn [build_operators].
  apply (oblivious_bind _ (λ c s, let? '(cs, s) := build_operators show types field ops s in Ok (c ++ cs, s)));
    [apply oblivious_operator|]. intros c. by apply oblivious_map.
Qed.
Lemma oblivious_field field val : oblivious (build_field_condition show types field val).
Proof.
  unfold build_field_condition. case_match; [apply oblivious_err|]. cbv zeta.
  destruct val as [| | | | |ops]; try apply oblivious_ok; try case_match;
    apply oblivious_map; first [apply oblivious_compare|apply oblivious_operators].
Qed.

Lemma oblivious_each arr : Forall (λ v, oblivious (build_where_clause show types v)) arr → oblivious (build_each show types arr).
Proof.
  induction 1 as [|v arr Hv _ IH]; [apply oblivious_ok|]. cbn [build_each].
  apply (oblivious_bind _ (λ c s, let? '(cs, s) := build_each show types arr s in Ok (c :: cs, s))); [done|].
  intros c. by apply oblivious_map.
Qed.
Lemma oblivious_part key val :
  oblivious (build_where_clause show types val) → (∀ arr, val = JArray arr → Forall (λ v, oblivious (build_where_clause show types v)) arr) →
  oblivious (build_part show types key val).
Proof.
  intros Hv Ha. unfold build_part. destruct (bool_decide (key ∈ ["$and"; "$or"])).
  - destruct val; try apply oblivious_err. by apply oblivious_map, oblivious_each, Ha.
  - destruct (decide (key = "$not")); [by apply oblivious_map|apply oblivious_field].
Qed.
Lemma oblivious_where clause : oblivious (build_where_clause show types clause).
Proof.
  assert (oblivious (build_where_clause show types clause)
          ∧ ∀ arr, clause = JArray arr → Forall (λ v, oblivious (build_where_clause show types v)) arr) as [H _]; [|done].
  induction clause as [|b|n|t|arr IH|obj IH] using json_ind; (split; [|try done]); try apply oblivious_err.
  - intros arr' [= <-]. eapply Forall_impl; [exact IH|]. by intros v [? _].
  - apply (oblivious_ext _ _ (build_where_object show types obj)). apply oblivious_map.
    induction IH as [|[key val] obj [Hv Ha] _ IHo]; [apply oblivious_ok|]. cbn [build_parts].
    apply (oblivious_bind _ (λ p s, let? '(ps, s) := build_parts show types obj s in Ok (p :: ps, s))).
    + by apply oblivious_part.
    + intros p. by apply oblivious_map.
Qed.
End Oblivious.

(** ** What a filter of a request selects *)

Section Selecting.
Context {Row : Type} (null_at : Row → string → bool)
  (compare : Row → string → bool → string → string → string → option bool)
  (contains : Row → string → string → list string → option bool).

Lemma join_one_tok sp l t : join_toks [sp] l = [t] → t ≠ sp → l = [[t]].
Proof.
  destruct l as [|ts [|ts' l]]; [done| |]; cbn [join_toks]; intros H Hne; [by f_equal|].
  destruct ts as [|x ts]; cbn in H; injection H as -> H; [by destruct Hne|].
  by destruct ts.
Qed.
(** A condition written TRUE holds of every row. *)
Lemma true_atom a : atom_toks a = [SBare "TRUE"] → ∀ binds row, eval_atom null_at compare contains binds row a = Some true.
Proof.
  induction a as [| | | |b|l IH| |] using atom_ind; cbn [atom_toks]; try done.
  - destruct b; [done|]. intros H. discriminate H.
  - intros H%join_one_tok binds row; [|done]. destruct l as [|a [|a' l]]; [done| |done].
    cbn in H. injection H as H. cbn. apply List.Forall_cons_iff in IH as [IH _]. rewrite IH by done. done.
Qed.
Lemma true_cond c : forallb atom_ok c = true → cond_sql c = "TRUE" →
  ∀ binds row, eval_cond null_at compare contains binds row c = Some true.
Proof.
  intros Hok Ht binds row. pose proof (emits_cond c Hok EmptyString I) as E. rewrite Ht, app_nil_r in E.
  apply (true_atom (AAll c)). cbn [atom_toks]. unfold cond_toks in E. rewrite <-E. by vm_compute.
Qed.

Context `{!Parsers}.
Lemma where_conditions_means types w b0 c binds idx :
  where_conditions types w (b0, length b0) = Ok (c, (binds, idx)) →
  idx = length binds ∧ (∃ b, binds = b0 ++ b)
  ∧ ∀ extra row, eval_cond null_at compare contains (binds ++ extra) row c
      = match w with Some w => matches show_json types null_at compare contains row w | None => Some true end.
Proof.
  destruct w as [w|]; cbn; [|intros [= <- <- <-]; split_and!; [done|exists []; by rewrite app_nil_r|done]].
  destruct (build_where_clause _ _ w _) as [[c0 [b1 i1]]|e] eqn:Hw; [|by intros HH; discriminate HH]. cbn. intros [= <- <- <-].
  destruct (build_where_means show_json types null_at compare contains _ _ _ _ Hw) as [E M].
  destruct (E eq_refl) as [Hi Hb]. split_and!; [done|done|]. intros extra row. rewrite <-(M eq_refl extra row). cbn.
  destruct (decide (cond_sql c0 = "TRUE")) as [Ht|]; [|done]. symmetry. apply true_cond; [|done].
  by eapply build_where_written.
Qed.
End Selecting.

(** ** What the values of a statement are stored as *)

Section Stored.
Context `{!Parsers} `{!Postgres}.

Lemma omap_zip {B : Type} (cols : list string) (binds : list B) off m :
  off + m + length cols ≤ length binds →
  omap (λ '(j, c), pair c <$> binds !! (off + j)%nat) (imap (λ j c, ((m + j)%nat, c)) cols) = zip cols (drop (off + m) binds).
Proof.
  revert m. induction cols as [|c cols IH]; intros m Hl; [done|]. cbn in Hl.
  destruct (lookup_lt_is_Some_2 binds (off + m)) as [b Hb]; [lia|]. rewrite (drop_S _ _ _ Hb). csimpl.
  rewrite Nat.add_0_r, Hb. cbn. f_equal. rewrite <-Nat.add_succ_r, <-IH by lia. f_equal.
  apply imap_ext. intros j d _. cbn. f_equal. lia.
Qed.
Lemma tuple_zip cols binds i :
  i * length cols + length cols ≤ length binds → tuple_cells cols binds i = list_to_map (zip cols (drop (i * length cols) binds)).
Proof.
  intros Hl. unfold tuple_cells. pose proof (omap_zip cols binds (i * length cols) 0) as E. rewrite !Nat.add_0_r in E.
  rewrite <-E by done. done.
Qed.

(** What [bind_all] makes of a key. *)
Definition bound_for (types : FieldTypes) (entries : list (string * JsonValue)) (k : string) : option Bound :=
  v ← obj_get k entries; ok (bind_typed v (manifest_type types k)).
Lemma zip_bound types entries bs rest k :
  bind_all types entries = Ok bs →
  list_to_map (M := Cells) (zip (map fst entries) (bs ++ rest)) !! k = bound_for types entries k.
Proof.
  unfold bind_all. rewrite try_map_ok_iff. intros HF. induction HF as [|[k0 v] b entries bs Hb HF IH]; [done|].
  unfold bound_for in *. cbn [map fst app zip zip_with list_to_map foldr obj_get uncurry].
  destruct (decide (k0 = k)) as [->|Hne].
  - rewrite lookup_insert_eq. cbn. apply map_err_ok_iff in Hb. by rewrite Hb.
  - rewrite lookup_insert_ne by done. exact IH.
Qed.
Lemma bind_all_length types entries bs : bind_all types entries = Ok bs → length bs = length entries.
Proof. unfold bind_all. rewrite try_map_ok_iff. intros Hl%Forall2_length. done. Qed.
Lemma tuple_bound types entries bs rest k :
  bind_all types entries = Ok bs → tuple_cells (map fst entries) (bs ++ rest) 0 !! k = bound_for types entries k.
Proof.
  intros Hb. pose proof (bind_all_length _ _ _ Hb). rewrite tuple_zip by (rewrite length_map, length_app; lia).
  cbn [Nat.mul drop]. by apply zip_bound.
Qed.

(** The parameters of the tuples of a bulk insert, one object after another. *)
Lemma mjoin_drop {A : Type} n (ls : list (list A)) i l :
  Forall (λ l, length l = n) ls → ls !! i = Some l → ∃ rest, drop (i * n) (mjoin ls) = l ++ rest.
Proof.
  intros HF. revert i. induction HF as [|l0 ls Hl HF IH]; intros i Hi; [done|]. destruct i as [|i]; cbn in Hi.
  - injection Hi as ->. by exists (mjoin ls).
  - destruct (IH i Hi) as [rest Hr]. exists rest. rewrite <-Hr. change (mjoin (l0 :: ls)) with (l0 ++ mjoin ls).
    rewrite drop_app_ge by lia. f_equal. lia.
Qed.
Lemma length_mjoin_uniform {A : Type} n (ls : list (list A)) :
  Forall (λ l, length l = n) ls → length (mjoin ls) = (length ls * n)%nat.
Proof. induction 1 as [|l ls Hl HF IH]; [done|]. change (mjoin (l :: ls)) with (l ++ mjoin ls).
  rewrite length_app, Hl, IH. done.
Qed.
Lemma obj_get_map (g : string → JsonValue) keys k :
  obj_get k (map (λ k, (k, g k)) keys) = if decide (k ∈ keys) then Some (g k) else None.
Proof.
  induction keys as [|k0 keys IH]; [by rewrite decide_False by apply not_elem_of_nil|]. cbn [map obj_get].
  destruct (decide (k0 = k)) as [->|Hne]; [by rewrite decide_True by left|]. rewrite IH.
  destruct (decide (k ∈ keys)); [by rewrite decide_True by (by right)|].
  rewrite decide_False; [done|]. by intros [->|?]%elem_of_cons.
Qed.

(** The cells of tuple [i] are those of object [i]. *)
Definition object_cell (types : FieldTypes) (keys : list string) (obj : list (string * JsonValue)) (k : string) : option Bound :=
  if decide (k ∈ keys) then ok (bind_typed (default JNull (obj_get k obj)) (manifest_type types k)) else None.
Lemma tuple_of_object types keys objects binds i obj k :
  try_map (λ obj, bind_all types (map (λ k, (k, default JNull (obj_get k obj))) keys)) objects = Ok binds →
  objects !! i = Some obj → tuple_cells keys (mjoin binds) i !! k = object_cell types keys obj k.
Proof.
  rewrite try_map_ok_iff. intros HF Hi. destruct (Forall2_lookup_l _ _ _ _ _ HF Hi) as (bs & Hbs & Hb).
  assert (Forall (λ l, length l = length keys) binds) as Hlen.
  { apply Forall_forall. intros l (j & Hj)%list_elem_of_lookup. destruct (Forall2_lookup_r _ _ _ _ _ HF Hj) as (o & _ & Ho).
    apply bind_all_length in Ho. by rewrite length_map in Ho. }
  destruct (mjoin_drop (length keys) binds i bs Hlen Hbs) as [rest Hr].
  rewrite tuple_zip, Hr.
  - pose proof (zip_bound types _ bs rest k Hb) as Hz. rewrite map_map, map_id in Hz. rewrite Hz.
    unfold bound_for, object_cell. rewrite obj_get_map. by destruct (decide (k ∈ keys)).
  - rewrite (length_mjoin_uniform _ _ Hlen). apply lookup_lt_Some in Hbs. nia.
Qed.

Lemma insert_all_spec pol key tbl news tbl' rows :
  insert_all pol key tbl news = Ok (tbl', rows) →
  length rows = length news
  ∧ (∀ i id given, news !! i = Some (id, given) →
       ∃ row, rows !! i = Some row ∧ row = proposed key id given ∧ tbl !! id = None ∧ tbl' !! id = Some row ∧ refuses pol key id row = None)
  ∧ (∀ id, id ∉ news.*1 → tbl' !! id = tbl !! id).
Proof.
  revert tbl rows. induction news as [|[id given] news IH]; intros tbl rows; cbn [insert_all].
  { intros [= <- <-]. split_and!; [done|intros i ?? Hi; done|done]. }
  intros Hi. apply bind_ok_iff in Hi as ([tbl1 row] & H1 & Hi). apply bind_ok_iff in Hi as ([tbl2 rows2] & H2 & Hi).
  injection Hi as <- <-. unfold insert_one in H1. destruct (refuses pol key id _) as [e|] eqn:Hr; [done|].
  destruct (tbl !! id) eqn:Hid; [done|]. injection H1 as <- <-. destruct (IH _ _ H2) as (Hlen & Hin & Hout). split_and!.
  - cbn. by rewrite Hlen.
  - assert (id ∉ news.*1) as Hn.
    { intros ([id' g] & Hid' & Hj)%list_elem_of_fmap. apply list_elem_of_lookup in Hj as [j Hj]. cbn in Hid'. subst id'.
      destruct (Hin j id g Hj) as (r & _ & _ & Hnone & _). by rewrite lookup_insert_eq in Hnone. }
    intros [|i] id' given' Hl; cbn in Hl.
    + injection Hl as <- <-. exists (proposed key id given). split_and!; [done..| |done]. rewrite (Hout id Hn). apply lookup_insert_eq.
    + destruct (Hin i id' given' Hl) as (r & ? & ? & Hnone & ? & ?). exists r. split_and!; [done..| |done|done].
      rewrite lookup_insert_ne in Hnone; [done|]. intros ->. by rewrite lookup_insert_eq in Hnone.
  - intros id' Hid'. cbn in Hid'. apply not_elem_of_cons in Hid' as [Hne Hn]. rewrite (Hout id' Hn). by apply lookup_insert_ne.
Qed.
End Stored.

(** ** The handlers are exact *)

Section Exact.
Context `{!Parsers} `{!Postgres}.
Context (begins : @DataAccess FieldTypes → result ApiError Policies) (fresh : nat → uuid) (cat : Catalog) (refused : string → string → bool).

Lemma transaction_ok {A : Type} (a : @DataAccess FieldTypes) (body : Policies → Tables → result ApiError (Tables * A)) tbls tbls' x :
  transaction begins a body tbls = (tbls', Ok x) → ∃ pol, begins a = Ok pol ∧ body pol tbls = Ok (tbls', x).
Proof.
  unfold transaction. destruct (begins a) as [pol|e]; cbn; [|done]. destruct (body pol tbls) as [[t y]|e] eqn:Hb; [|done].
  intros [= <- <-]. eauto.
Qed.
Lemma transaction_err {A : Type} (a : @DataAccess FieldTypes) (body : Policies → Tables → result ApiError (Tables * A)) tbls tbls' e :
  transaction begins a body tbls = (tbls', Err e) → tbls' = tbls.
Proof. unfold transaction. destruct (result_bind _ _) as [[t y]|]; [done|]. by intros [= <- _]. Qed.
Lemma after_err {A B : Type} (r : result ApiError A) (k : A → Tables → Tables * result ApiError B) tbls tbls' e :
  (∀ x, k x tbls = (tbls', Err e) → tbls' = tbls) → after r k tbls = (tbls', Err e) → tbls' = tbls.
Proof. unfold after, fail. intros Hk. destruct r; [apply Hk|]. by intros [= <- _]. Qed.
Lemma after_ok {A B : Type} (r : result ApiError A) (k : A → Tables → Tables * result ApiError B) tbls tbls' x :
  after r k tbls = (tbls', Ok x) → ∃ y, r = Ok y ∧ k y tbls = (tbls', Ok x).
Proof. unfold after, fail. destruct r; [eauto|done]. Qed.

Lemma elem_of_filter_rows (P : uuid * Cells → bool) tbls k id row :
  (id, row) ∈ List.filter P (map_to_list (rows_of tbls k)) ↔ rows_of tbls k !! id = Some row ∧ P (id, row) = true.
Proof. by rewrite list_elem_of_In, filter_In, <-list_elem_of_In, elem_of_map_to_list. Qed.
Lemma NoDup_filter_rows (P : uuid * Cells → bool) tbls k : NoDup (List.filter P (map_to_list (rows_of tbls k))).*1.
Proof.
  pose proof (NoDup_fst_map_to_list (rows_of tbls k)) as HN. revert HN.
  induction (map_to_list (rows_of tbls k)) as [|e l IH]; [done|]. cbn. intros [Hn Hl]%NoDup_cons.
  destruct (P e); [|by apply IH]. cbn. apply NoDup_cons. split; [|by apply IH].
  intros Hin. apply Hn. apply list_elem_of_fmap in Hin as (e' & -> & He'). apply list_elem_of_In, filter_In in He' as [He' _].
  apply list_elem_of_fmap. exists e'. split; [done|]. by apply list_elem_of_In.
Qed.
Lemma elem_of_selected pol tbls k wh binds id row :
  (id, row) ∈ selected pol tbls k wh binds
  ↔ rows_of tbls k !! id = Some row ∧ sees pol k id row = true
    ∧ eval_cond null_cell compare_cell contains_cell binds row wh = Some true.
Proof. unfold selected. rewrite elem_of_filter_rows. unfold selects. cbn. by rewrite andb_true_iff, bool_decide_eq_true. Qed.
Lemma NoDup_selected pol tbls k wh binds : NoDup (selected pol tbls k wh binds).*1.
Proof. apply NoDup_filter_rows. Qed.

Definition object_keys (v : JsonValue) : list string := match v with JObject o => o.*1 | _ => [] end.
Lemma row_object_keys types row : object_keys (row_object types row) = readable_names types.
Proof.
  unfold row_object. cbn. change (map ?f ?l) with (f <$> l). rewrite <-list_fmap_compose. apply list_fmap_id.
Qed.

(** What a filter of a request holds of a row. *)
Definition wanted (types : FieldTypes) (w : option JsonValue) (row : Cells) : option bool :=
  match w with Some w => matches show_json types null_cell compare_cell contains_cell row w | None => Some true end.

(** [link] is a record of the same kind in [app'], one of the apps asked for, that the caller
    sees and whose key is that of the row [r]. *)
Definition links_to (pol : Policies) (tbls : Tables) (app entity : string) (l : LinkedOption) (r : JsonValue) (app' : string) (link : JsonValue) : Prop :=
  ∃ kind key targets entity' key' types id row,
    entity_identity cat app entity = Ok (Some (kind, key)) ∧ find_entities_by_identity cat kind (Some app) = Ok targets
    ∧ (app', entity', key') ∈ targets ∧ wants l app' = true ∧ field_type_map cat app' entity' = Ok types
    ∧ rows_of tbls (app', entity') !! id = Some row ∧ sees pol (app', entity') id row = true
    ∧ (get (row_object types row) key' ≫= as_str) = Some (key_text key r) ∧ link = link_object entity' (row_object types row).
(** A row of the answer: the row itself, or the row with the field [_linked] in which every
    entry that it did not have of itself is such a link. *)
Definition enriched (ok : JsonValue → string → JsonValue → Prop) (r v : JsonValue) : Prop :=
  v = r ∨ ∃ o own links, r = JObject o ∧ (obj_get "_linked" o = Some (JObject own) ∨ obj_get "_linked" o = None ∧ own = [])
    ∧ v = JObject (obj_insert "_linked" (JObject links) o)
    ∧ ∀ app x, obj_get app links = Some x → obj_get app own = Some x ∨ ok r app x.

Lemma obj_insert_twice k v w o : obj_insert k w (obj_insert k v o) = obj_insert k w o.
Proof.
  assert (∀ a, String.compare a a = Datatypes.Eq) as Hrefl by (intros a; by apply string_compare_eq).
  induction o as [|[k' v'] o IH]; cbn [obj_insert]; [by rewrite Hrefl|].
  destruct (String.compare k k') eqn:Hc; cbn [obj_insert]; rewrite ?Hrefl; [done|done|]. by rewrite Hc, IH.
Qed.
Lemma key_text_enriched ok key r v : enriched ok r v → key_text key v = key_text key r.
Proof.
  intros [->|(o & own & links & -> & Ho & -> & _)]; [done|]. unfold key_text, get. cbn. rewrite obj_get_insert.
  destruct (decide ("_linked" = key)) as [<-|]; [|done]. cbn. by destruct Ho as [->|[-> _]].
Qed.
Lemma attach_enriched (ok : JsonValue → string → JsonValue → Prop) app entity key target_key found r v v' :
  (∀ x, x ∈ found → (get x target_key ≫= as_str) = Some (key_text key r) → ok r app (link_object entity x)) →
  enriched ok r v → attach app entity key target_key found v = Some v' → enriched ok r v'.
Proof.
  intros Hok Hv Ha. unfold attach in Ha. rewrite (key_text_enriched _ _ _ _ Hv) in Ha. destruct (List.find _ _) as [x|] eqn:Hf; [|by injection Ha as <-].
  apply find_some in Hf as [Hin Hx]. rewrite <-in_rev, <-list_elem_of_In in Hin. apply bool_decide_eq_true in Hx. specialize (Hok x Hin Hx).
  right. destruct Hv as [->|(o & own & links & -> & Ho & -> & Hl)].
  - destruct r as [| | | | |o]; try done. cbn in Ha. destruct (obj_get "_linked" o) as [w|] eqn:Hw.
    + destruct w as [| | | | |own]; try done. cbn in Ha. injection Ha as <-. exists o, own. eexists. split_and!; [done|by left|done|].
      intros a y. rewrite obj_get_insert. destruct (decide (app = a)) as [<-|]; [intros [= <-]; by right|by left].
    + cbn in Ha. injection Ha as <-. exists o, []. eexists. split_and!; [done|by right|done|].
      intros a y. cbn. destruct (decide (app = a)) as [<-|]; [intros [= <-]; by right|done].
  - cbn in Ha. rewrite obj_get_insert, decide_True in Ha by done. cbn in Ha. injection Ha as <-. exists o, own. eexists. split_and!; [done|done|by rewrite obj_insert_twice|].
    intros a y. rewrite obj_get_insert. destruct (decide (app = a)) as [<-|]; [intros [= <-]; by right|by apply Hl].
Qed.
Lemma elem_of_linked_rows pol tbls app entity key types values x :
  x ∈ linked_rows pol tbls app entity key types values → ∃ id row, rows_of tbls (app, entity) !! id = Some row ∧ sees pol (app, entity) id row = true ∧ x = row_object types row.
Proof.
  unfold linked_rows. intros ([id row] & -> & Hin)%list_elem_of_fmap. rewrite list_elem_of_In, filter_In, <-list_elem_of_In, elem_of_map_to_list in Hin.
  destruct Hin as [Hr Hs]. apply andb_true_iff in Hs as [Hs _]. by exists id, row.
Qed.
Lemma attach_targets_enriched ok pol tbls key values targets aborted page rows data :
  (∀ app entity key' types x r, (app, entity, key') ∈ targets → field_type_map cat app entity = Ok types → x ∈ linked_rows pol tbls app entity key' types values →
     (get x key' ≫= as_str) = Some (key_text key r) → ok r app (link_object entity x)) →
  Forall2 (enriched ok) page rows → attach_targets cat refused pol tbls key values targets aborted rows = Ok data → Forall2 (enriched ok) page data.
Proof.
  revert aborted rows. induction targets as [|[[app entity] key'] targets IH]; intros aborted rows Hok Hp Ht; cbn in Ht; [by injection Ht as <-|].
  apply bind_ok_iff in Ht as (types & Hty & Ht). apply map_err_ok_iff in Hty.
  assert (∀ a e k t x r, (a, e, k) ∈ targets → field_type_map cat a e = Ok t → x ∈ linked_rows pol tbls a e k t values → (get x k ≫= as_str) = Some (key_text key r) → ok r a (link_object e x)) as Hrest.
  { intros a e k t x r Hin. apply Hok. by apply elem_of_cons; right. }
  destruct (aborted || refused app entity); [by eapply IH|]. apply bind_ok_iff in Ht as (rows1 & Hm & Ht). destruct (mapM _ rows) as [rows2|] eqn:Hr; [|done]. injection Hm as ->.
  eapply (IH false rows1); [done| |done]. apply mapM_Some in Hr. clear Ht IH. revert rows1 Hr. induction Hp as [|r v page rows Hv _ IHp]; intros rows1 Hr; inversion Hr; subst; constructor; [|by apply IHp].
  eapply attach_enriched; [|exact Hv|done]. intros x Hin Hx. eapply Hok; [by apply elem_of_cons; left|done..].
Qed.
Lemma with_linked_enriched pol tbls app entity l page data : with_linked cat refused pol tbls app entity l page = Ok data →
  match l with None => data = page | Some l => Forall2 (enriched (links_to pol tbls app entity l)) page data end.
Proof.
  unfold with_linked, enrich_linked. destruct l as [l|]; [|by intros [= <-]]. intros Ht.
  assert (∀ ok, Forall2 (enriched ok) page page) as Hsame by (intros ok; apply Forall_Forall2_diag, Forall_true; intros r; by left).
  apply bind_ok_iff in Ht as (identity & Hid & Ht). apply map_err_ok_iff in Hid. destruct identity as [[kind key]|]; [|by injection Ht as <-].
  apply bind_ok_iff in Ht as (found & Hf & Ht). apply map_err_ok_iff in Hf. cbv zeta in Ht. destruct (_ || _); [by injection Ht as <-|].
  eapply attach_targets_enriched; [|apply Hsame|exact Ht]. intros app' entity' key' types x r Hin Hty Hx Hk.
  rewrite list_elem_of_In, filter_In, <-list_elem_of_In in Hin. destruct Hin as [Hin Hw]. apply elem_of_linked_rows in Hx as (id & row & Hr & Hs & ->).
  exists kind, key, found, entity', key', types, id, row. by split_and!.
Qed.

(** [C19] A query answers with exactly the records its filter holds of, among those
    the caller's policies let it see: a page of at most a thousand of them, in the
    order asked, each with exactly the readable fields; the total counts them all,
    unless the page is empty; and nothing is changed.  Where records of other apps are
    asked for, a row may carry them in its field [_linked]: each is of the same kind,
    seen by the caller, in an app asked for, and has the row's key. *)
Theorem query_answers_the_filter app entity user body tbls tbls' data total :
  query_records begins fresh cat refused app entity user body tbls = (tbls', Ok (data, total)) →
  tbls' = tbls ∧ ∃ types pol rows sort dir page,
    field_type_map cat app entity = Ok types ∧ begins (http_access app user) = Ok pol
    ∧ NoDup rows.*1
    ∧ (∀ id row, (id, row) ∈ rows ↔ rows_of tbls (app, entity) !! id = Some row
         ∧ sees pol (app, entity) id row = true ∧ wanted types (where_clause body) row = Some true)
    ∧ page = map (λ e, row_object types e.2)
               (take (Z.to_nat (clamp_limit (q_limit body))) (drop (Z.to_nat (clamp_offset (q_offset body))) (ordered sort dir rows)))
    ∧ match linked body with None => data = page | Some l => Forall2 (enriched (links_to pol tbls app entity l)) page data end
    ∧ length data ≤ 1000 ∧ Forall (λ v, object_keys v = readable_names types) page
    ∧ (sort = "created_at" ∨ ∃ f, order_by body = Some sort ∧ types !! sort = Some f ∧ f_sensitive f = false)
    ∧ total = match data with [] => 0 | _ => length rows end.
Proof.
  intros (s & Hs & Ht)%after_ok. apply transaction_ok in Ht as (pol & Hpol & Ht). unfold query_stmt in Hs.
  apply bind_ok_iff in Hs as ([] & _ & Hs). apply bind_ok_iff in Hs as ([] & _ & Hs).
  apply bind_ok_iff in Hs as (types & Hty & Hs). apply map_err_ok_iff in Hty.
  apply bind_ok_iff in Hs as ([c [binds idx]] & Hw & Hs). injection Hs as <-. cbn [run_stmt result_bind] in Ht. unfold counted in Ht. cbv zeta in Ht. cbn [rp_rows rp_total] in Ht.
  apply bind_ok_iff in Ht as (data' & Hl & Ht). injection Ht as <- <- Htot. split; [done|]. apply with_linked_enriched in Hl.
  destruct (where_conditions_means null_cell compare_cell contains_cell types (where_clause body) [] c binds idx Hw) as (_ & _ & M).
  exists types, pol, (selected pol tbls (app, entity) c binds), (validate_sort_field (order_by body) types), (validate_order (order body)). eexists.
  assert (∀ page, match linked body with None => data' = page | Some l => Forall2 (enriched (links_to pol tbls app entity l)) page data' end → length data' = length page) as Hlen.
  { intros page Hd. destruct (linked body); [symmetry; by eapply Forall2_length|by subst]. }
  apply Hlen in Hl as Hn. split_and!; [done|done|apply NoDup_selected| |reflexivity|exact Hl| | | |].
  - intros id row. rewrite elem_of_selected. unfold wanted. specialize (M [] row). rewrite app_nil_r in M. by rewrite M.
  - rewrite Hn, length_map. unfold window. rewrite length_take. unfold clamp_limit. lia.
  - apply Forall_map, Forall_forall. intros e _. apply row_object_keys.
  - unfold validate_sort_field. destruct (order_by body) as [f|]; [|by left]. destruct (types !! f) as [t|] eqn:Hf; [|by left].
    destruct (f_sensitive t) eqn:Hse; [by left|]. right. eauto.
  - rewrite <-Htot. destruct data' as [|v data'], (map _ _) as [|w page]; done.
Qed.

Lemma bulk_stmt_ok app entity types objects s :
  bulk_stmt app entity types objects = Ok s →
  (Z.of_nat (length objects * length (union_keys objects)) ≤ 65535)%Z
  ∧ ∃ binds, try_map (λ obj, bind_all types (map (λ k, (k, default JNull (obj_get k obj))) (union_keys objects))) objects = Ok binds
      ∧ s = InsertRows {| src_app := app; src_entity := entity; src_types := types |} (union_keys objects) (length objects) (mjoin binds).
Proof.
  unfold bulk_stmt. intros Hs. assert (union_keys objects ≠ []) as Hne by (by intros E; rewrite E in Hs).
  destruct (union_keys objects) as [|k0 ks]; [done|]. cbv zeta in Hs.
  destruct (bool_decide (PG_PARAM_LIMIT < _)%Z) eqn:Hl; [done|]. apply bool_decide_eq_false in Hl. unfold PG_PARAM_LIMIT in Hl.
  split; [lia|]. apply bind_ok_iff in Hs as (binds & Hb & Hs). injection Hs as <-. eauto.
Qed.
Lemma stored_or_default types keys objects binds i obj k (defaults : Cells) :
  try_map (λ obj, bind_all types (map (λ k, (k, default JNull (obj_get k obj))) keys)) objects = Ok binds →
  objects !! i = Some obj →
  (tuple_cells keys (mjoin binds) i ∪ defaults) !! k
  = if decide (k ∈ keys) then ok (bind_typed (default JNull (obj_get k obj)) (manifest_type types k)) else defaults !! k.
Proof.
  intros Hb Hobj. pose proof (tuple_of_object _ _ _ _ _ _ k Hb Hobj) as Ht. unfold object_cell in Ht.
  rewrite lookup_union, Ht. destruct (decide (k ∈ keys)) as [Hk|Hk]; [|by rewrite left_id_L by apply _].
  assert (∃ b, bind_typed (default JNull (obj_get k obj)) (manifest_type types k) = Ok b) as [b ->].
  { apply try_map_ok_iff in Hb. destruct (Forall2_lookup_l _ _ _ _ _ Hb Hobj) as (bs & _ & Hbs).
    unfold bind_all in Hbs. apply try_map_ok_iff in Hbs. apply list_elem_of_lookup in Hk as [j Hj].
    destruct (Forall2_lookup_l _ _ _ j (k, default JNull (obj_get k obj)) Hbs) as (b & _ & Hbd).
    { change (map ?f ?l) with (f <$> l). by rewrite list_lookup_fmap, Hj. }
    apply map_err_ok_iff in Hbd. eauto. }
  cbn. by destruct (defaults !! k).
Qed.

(** A bulk insert stores every object or none: record [i] of the answer is row
    [i] of the table's new rows, holding, for every key of any object, the value
    object [i] binds to it with the column's type (NULL when it has none), the defaults
    elsewhere and a generated id; no other row and no other table changes, and the
    statement stays within the number of parameters PostgreSQL takes. *)
Theorem bulk_stores_each_object app entity types objects a tbls tbls' r :
  bulk_insert begins fresh app entity types objects a tbls = (tbls', r) →
  (∃ e, r = Err e ∧ tbls' = tbls)
  ∨ ∃ pol rows, begins a = Ok pol ∧ r = Ok (map (row_object types) rows) ∧ length rows = length objects
      ∧ (Z.of_nat (length objects * length (union_keys objects)) ≤ 65535)%Z
      ∧ (∀ i obj, objects !! i = Some obj → ∃ row, rows !! i = Some row
           ∧ rows_of tbls (app, entity) !! fresh i = None ∧ rows_of tbls' (app, entity) !! fresh i = Some row
           ∧ refuses pol (app, entity) (fresh i) row = None
           ∧ ∀ k, row !! k = if decide (k = "id") then Some (BUuid (Some (fresh i)))
                             else if decide (k ∈ union_keys objects)
                             then ok (bind_typed (default JNull (obj_get k obj)) (manifest_type types k))
                             else column_defaults app entity !! k)
      ∧ (∀ id, id ∉ map fresh (seq 0 (length objects)) → rows_of tbls' (app, entity) !! id = rows_of tbls (app, entity) !! id)
      ∧ ∀ k, k ≠ (app, entity) → tbls' !! k = tbls !! k.
Proof.
  intros Hb. destruct r as [data|e].
  2:{ left. exists e. split; [done|]. eapply after_err; [|exact Hb]. intros x. apply transaction_err. }
  right. apply after_ok in Hb as (s & Hs & Ht). apply transaction_ok in Ht as (pol & Hpol & Ht).
  destruct (bulk_stmt_ok _ _ _ _ _ Hs) as (Hn & binds & Hbinds & ->). cbn [run_stmt] in Ht. unfold src_key in Ht. cbn [src_app src_entity src_types] in Ht.
  destruct (insert_all _ _ _ _) as [[tbl rows]|e] eqn:Hi; [|done]. cbn in Ht. injection Ht as <- <-.
  destruct (insert_all_spec _ _ _ _ _ _ Hi) as (Hlen & Hin & Hout). rewrite length_map, length_seq in Hlen.
  exists pol, rows. split_and!; [done..| | |].
  - intros i obj Hobj. pose proof (lookup_lt_Some _ _ _ Hobj) as Hlt.
    destruct (Hin i (fresh i) (tuple_cells (union_keys objects) (mjoin binds) i)) as (row & Hr & Hrow & H1 & H2 & H3).
    { change (map ?f ?l) with (f <$> l). rewrite list_lookup_fmap, lookup_seq_lt by done. done. }
    exists row. unfold rows_of. rewrite lookup_insert_eq. split_and!; [done..|]. intros k. rewrite Hrow.
    unfold proposed. cbn [fst snd]. destruct (decide (k = "id")) as [->|Hk]; [apply lookup_insert_eq|].
    rewrite lookup_insert_ne by done. apply (stored_or_default types _ _ _ _ _ _ _ Hbinds Hobj).
  - intros id Hid. unfold rows_of. rewrite lookup_insert_eq. apply Hout. rewrite <-list_fmap_compose.
    exact Hid.
  - intros k Hk. by apply lookup_insert_ne.
Qed.

Lemma obj_get_writable obj k :
  obj_get k (filter_writable_fields obj) = if is_system_field k then None else obj_get k obj.
Proof.
  unfold filter_writable_fields. induction obj as [|[k0 v] obj IH]; [by destruct (is_system_field k)|]. cbn [List.filter obj_get fst].
  destruct (is_system_field k0) eqn:Hs; cbn [negb].
  - rewrite IH. destruct (decide (k0 = k)) as [->|]; [by rewrite Hs|done].
  - cbn [obj_get]. destruct (decide (k0 = k)) as [->|]; [by rewrite Hs|done].
Qed.
(** The value a request's object gives a column, when it gives one. *)
Definition sent (types : FieldTypes) (obj : list (string * JsonValue)) (k : string) : option Bound :=
  if is_system_field k then None else bound_for types obj k.
Lemma bound_sent types obj k : bound_for types (filter_writable_fields obj) k = sent types obj k.
Proof. unfold bound_for, sent. rewrite obj_get_writable. by destruct (is_system_field k). Qed.

Lemma update_one_ok pol key tbl id given tbl' r :
  update_one pol key tbl id given = Ok (tbl', r) →
  (r = None ∧ tbl' = tbl)
  ∨ ∃ row row', tbl !! id = Some row ∧ sees pol key id row = true ∧ may_change pol key id row = true
      ∧ refuses pol key id row' = None ∧ tbl' = <[id := row']> tbl ∧ r = Some row' ∧ row' = given ∪ row.
Proof.
  unfold update_one. destruct (tbl !! id) as [row|] eqn:Hrow; [|by intros [= <- <-]; left].
  destruct (sees pol key id row) eqn:Hse, (may_change pol key id row) eqn:Hm; cbn [andb]; try (by intros [= <- <-]; left).
  destruct (refuses pol key id (given ∪ row)) eqn:Hr; [done|]. intros [= <- <-]. right. eexists _, _. by split_and!.
Qed.

(** An update changes one record that the caller sees and may change: its fields
    become the values sent, bound with their types, its date of update now, and every
    other field, its id and its date of creation stay; no other record changes.  When
    it fails, nothing has changed. *)
Theorem update_changes_only_what_was_sent app entity id user body tbls tbls' r :
  update_record begins fresh cat app entity id user body tbls = (tbls', r) →
  (∃ e, r = Err e ∧ tbls' = tbls)
  ∨ ∃ u obj types pol row row', parse_uuid id = Some u ∧ body = JObject obj ∧ field_type_map cat app entity = Ok types
      ∧ begins (http_access app user) = Ok pol ∧ rows_of tbls (app, entity) !! u = Some row
      ∧ sees pol (app, entity) u row = true ∧ may_change pol (app, entity) u row = true ∧ refuses pol (app, entity) u row' = None
      ∧ tbls' = <[(app, entity) := <[u := row']> (rows_of tbls (app, entity))]> tbls ∧ r = Ok (row_object types row')
      ∧ ∀ k, row' !! k = if decide (k = "updated_at") then Some now_value
                         else match sent types obj k with Some b => Some b | None => row !! k end.
Proof.
  intros Hb. destruct r as [data|e].
  2:{ left. exists e. split; [done|]. eapply after_err; [|exact Hb]. intros [[u types] entries]. apply transaction_err. }
  right. apply after_ok in Hb as ([[u types] entries] & Hs & Ht). apply transaction_ok in Ht as (pol & Hpol & Ht).
  apply bind_ok_iff in Hs as ([] & _ & Hs). apply bind_ok_iff in Hs as (u' & Hu & Hs). apply bind_ok_iff in Hs as ([] & _ & Hs).
  apply bind_ok_iff in Hs as (obj & Hobj & Hs). apply bind_ok_iff in Hs as (types' & Hty & Hs). injection Hs as <- <- <-.
  apply ok_or_ok_iff in Hu. apply map_err_ok_iff in Hty.
  assert (body = JObject obj) as ->.
  { unfold require_object in Hobj. destruct body; try done. cbn in Hobj. destruct entries; [done|]. by injection Hobj as <-. }
  apply bind_ok_iff in Ht as (binds & Hbinds & Ht). pose proof (bind_all_length _ _ _ Hbinds) as Hlen.
  apply bind_ok_iff in Ht as ([tbls1 rp] & Hrun & Ht). apply bind_ok_iff in Ht as (row1 & Hrow & Ht). injection Ht as <- <-.
  cbn [run_stmt] in Hrun. rewrite length_map, <-Hlen, lookup_app_r, Nat.sub_diag in Hrun by done. cbn [lookup list_lookup] in Hrun.
  unfold src_key in Hrun. cbn [src_app src_entity src_types] in Hrun.
  apply bind_ok_iff in Hrun as ([tbl row] & Hup & Hrun). injection Hrun as <- <-.
  destruct (update_one_ok _ _ _ _ _ _ _ Hup) as [(-> & ->)|(row0 & row' & H1 & H2 & H3 & H4 & -> & -> & Hr)]; [done|].
  cbn in Hrow. injection Hrow as <-.
  exists u', obj, types', pol, row0, row'. split_and!; [done..|]. intros k. rewrite Hr, lookup_union.
  destruct (decide (k = "updated_at")) as [->|Hk]; [rewrite lookup_insert_eq; by destruct (row0 !! _)|].
  rewrite lookup_insert_ne, (tuple_bound types' _ _ _ k Hbinds), bound_sent by done.
  destruct (sent types' obj k), (row0 !! k); done.
Qed.

(** Creating a record stores one new row with a generated id and the values sent. *)
Lemma create_stores_what_was_sent app entity user body tbls tbls' r :
  create_record begins fresh cat app entity user body tbls = (tbls', r) →
  (∃ e, r = Err e ∧ tbls' = tbls)
  ∨ ∃ obj types pol row, body = JObject obj ∧ field_type_map cat app entity = Ok types
      ∧ begins (http_access app user) = Ok pol ∧ rows_of tbls (app, entity) !! fresh 0 = None
      ∧ refuses pol (app, entity) (fresh 0) row = None
      ∧ tbls' = <[(app, entity) := <[fresh 0 := row]> (rows_of tbls (app, entity))]> tbls ∧ r = Ok (row_object types row)
      ∧ ∀ k, row !! k = if decide (k = "id") then Some (BUuid (Some (fresh 0)))
                        else match sent types obj k with Some b => Some b | None => column_defaults app entity !! k end.
Proof.
  intros Hb. destruct r as [data|e].
  2:{ left. exists e. split; [done|]. eapply after_err; [|exact Hb]. intros [types entries]. apply transaction_err. }
  right. apply after_ok in Hb as ([types entries] & Hs & Ht). apply transaction_ok in Ht as (pol & Hpol & Ht).
  apply bind_ok_iff in Hs as ([] & _ & Hs). apply bind_ok_iff in Hs as ([] & _ & Hs).
  apply bind_ok_iff in Hs as (obj & Hobj & Hs). apply bind_ok_iff in Hs as (types' & Hty & Hs). apply map_err_ok_iff in Hty.
  assert (body = JObject obj) as ->.
  { unfold require_object in Hobj. destruct body as [| | | | |o]; try done. cbn in Hobj. destruct o; [done|]. by injection Hobj as <-. }
  assert (types' = types ∧ filter_writable_fields obj = entries) as [-> <-].
  { destruct (filter_writable_fields obj); [done|]. by injection Hs as -> <-. }
  clear Hs. apply bind_ok_iff in Ht as (binds & Hbinds & Ht).
  apply bind_ok_iff in Ht as ([tbls1 rp] & Hrun & Ht). apply bind_ok_iff in Ht as (row1 & Hrow & Ht). injection Ht as <- <-.
  cbn [run_stmt] in Hrun. unfold src_key in Hrun. cbn [src_app src_entity src_types] in Hrun.
  apply bind_ok_iff in Hrun as ([tbl row] & Hin & Hrun). injection Hrun as <- <-. cbn in Hrow. injection Hrow as <-.
  unfold insert_one in Hin. destruct (refuses pol _ _ _) eqn:Hr; [done|]. destruct (rows_of tbls (app, entity) !! fresh 0) eqn:Hf; [done|].
  injection Hin as <- <-. exists obj, types, pol, (proposed (app, entity) (fresh 0) (tuple_cells (map fst (filter_writable_fields obj)) binds 0)).
  split_and!; [done..|]. intros k. unfold proposed. cbn [fst snd]. destruct (decide (k = "id")) as [->|Hk]; [apply lookup_insert_eq|].
  rewrite lookup_insert_ne, lookup_union by done. pose proof (tuple_bound types _ _ [] k Hbinds) as Hk'. rewrite app_nil_r in Hk'.
  rewrite Hk', bound_sent. destruct (sent types obj k), (column_defaults app entity !! k); done.
Qed.
(** A deletion removes the one record named, which the caller sees and may remove, with
    what its references take along. *)
Lemma delete_removes_one app entity id user tbls tbls' r :
  delete_record begins fresh cat app entity id user tbls = (tbls', r) →
  (∃ e, r = Err e ∧ tbls' = tbls)
  ∨ ∃ u pol row, parse_uuid id = Some u ∧ begins (http_access app user) = Ok pol
      ∧ rows_of tbls (app, entity) !! u = Some row ∧ sees pol (app, entity) u row = true ∧ may_remove pol (app, entity) u row = true
      ∧ removed_with (app, entity) u tbls tbls'.
Proof.
  intros Hb. destruct r as [data|e].
  2:{ left. exists e. split; [done|]. eapply after_err; [|exact Hb]. intros u. apply transaction_err. }
  right. apply after_ok in Hb as (u & Hs & Ht). apply transaction_ok in Ht as (pol & Hpol & Ht).
  apply bind_ok_iff in Hs as ([] & _ & Hs). apply bind_ok_iff in Hs as (u' & Hu & Hs). apply bind_ok_iff in Hs as ([] & _ & Hs).
  injection Hs as <-. apply ok_or_ok_iff in Hu. cbn [run_stmt] in Ht. apply bind_ok_iff in Ht as ([t1 rp] & Ht1 & Ht). apply bind_ok_iff in Ht1 as ([t2 n] & Hd & Ht1). injection Ht1 as <- <-.
  unfold src_key in Hd. cbn [src_app src_entity] in Hd. apply delete_one_ok in Hd as [[-> ->]|(-> & row & Hrow & Hse & Hm & Hx)]; [done|]. cbn in Ht. injection Ht as <- _. exists u', pol, row. by split_and!.
Qed.

(** ** One query over the apps that share an identity *)

Definition with_source (app entity : string) (v : JsonValue) : JsonValue :=
  match v with JObject o => JObject (obj_insert "_source" (source_object app entity) o) | v => v end.
(** The rows of one target, as the answer has them. *)
Definition target_rows (pol : Policies) (tbls : Tables) (w : option JsonValue) (target : string * string) (l : list JsonValue) : Prop :=
  ∃ types rows, field_type_map cat target.1 target.2 = Ok types ∧ NoDup rows.*1
    ∧ (∀ id row, (id, row) ∈ rows ↔ rows_of tbls target !! id = Some row ∧ sees pol target id row = true
         ∧ wanted types w row = Some true)
    ∧ l = map (λ e, with_source target.1 target.2 (row_object types e.2)) rows.

Lemma oblivious_conditions types w : oblivious (where_conditions types w).
Proof.
  destruct w as [w|]; [|apply oblivious_ok]. cbn [where_conditions].
  apply (oblivious_map _ (λ c, if decide (cond_sql c = "TRUE") then [] else c)), oblivious_where.
Qed.
Lemma federated_branches_mean pol tbls targets w bs binds pre extra :
  federated_branches cat targets w (length pre) = Ok (bs, binds) →
  Forall2 (target_rows pol tbls w) targets (map (union_branch pol tbls ((pre ++ binds) ++ extra)) bs).
Proof.
  revert bs binds pre. induction targets as [|[app entity] targets IH]; intros bs binds pre Hb; cbn [federated_branches] in Hb.
  { by injection Hb as <- <-. }
  apply bind_ok_iff in Hb as (types & Hty & Hb). apply map_err_ok_iff in Hty.
  apply bind_ok_iff in Hb as ([c [b1 idx]] & Hw & Hb). apply bind_ok_iff in Hb as ([bs1 rest] & Hrest & Hb). injection Hb as <- <-.
  pose proof (oblivious_conditions types w pre [] (length pre)) as Ho. rewrite Hw, app_nil_r in Ho. cbn in Ho.
  destruct (where_conditions_means null_cell compare_cell contains_cell types w pre c (pre ++ b1) idx Ho) as (-> & _ & M).
  assert (federated_branches cat targets w (length ((pre ++ b1) ++ [app; entity])) = Ok (bs1, rest)) as Hrest'.
  { rewrite <-Hrest. f_equal. rewrite length_app. done. }
  specialize (IH _ _ _ Hrest'). cbn [map]. constructor.
  - exists types, (selected pol tbls (app, entity) c ((pre ++ (b1 ++ [app; entity]) ++ rest) ++ extra)). split_and!; [done|apply NoDup_selected| |].
    + intros id row. rewrite elem_of_selected. unfold wanted. rewrite <-(M (([app; entity] ++ rest) ++ extra) row). by rewrite <-!app_assoc.
    + cbn [union_branch]. unfold src_key. cbn [src_app src_entity src_types fst snd].
      assert (bind_at ((pre ++ (b1 ++ [app; entity]) ++ rest) ++ extra) (S (length (pre ++ b1))) = Some app) as ->.
      { cbn [bind_at]. rewrite <-!app_assoc, app_assoc. by apply (list_lookup_middle (pre ++ b1) (entity :: rest ++ extra)). }
      assert (bind_at ((pre ++ (b1 ++ [app; entity]) ++ rest) ++ extra) (S (S (length (pre ++ b1)))) = Some entity) as ->.
      { cbn [bind_at]. replace ((pre ++ (b1 ++ [app; entity]) ++ rest) ++ extra) with (((pre ++ b1) ++ [app]) ++ entity :: (rest ++ extra)).
        - apply list_lookup_middle. rewrite (length_app _ [app]). cbn. lia.
        - rewrite <-!app_assoc. cbn. done. }
      done.
  - replace ((pre ++ (b1 ++ [app; entity]) ++ rest) ++ extra) with ((((pre ++ b1) ++ [app; entity]) ++ rest) ++ extra); [done|].
    by rewrite <-!app_assoc.
Qed.

(** A federated query answers, from every app of the identity, exactly the
    records the filter holds of with that app's types and that the caller sees there,
    each marked with its source: the parameters of one branch never reach another's
    condition.  The page has at most a thousand of them. *)
Theorem federated_answers_every_source targets user body tbls tbls' data total :
  federated_query begins fresh cat targets user body tbls = (tbls', Ok (data, total)) →
  tbls' = tbls
  ∧ ((targets = [] ∧ data = [] ∧ total = 0)
     ∨ ∃ pol sort ls, begins (http_access "public" user) = Ok pol
         ∧ Forall2 (target_rows pol tbls (where_clause body)) targets ls
         ∧ data = take (Z.to_nat (clamp_limit (q_limit body))) (drop (Z.to_nat (clamp_offset (q_offset body)))
                    (json_ordered sort (validate_order (order body)) (mjoin ls)))
         ∧ str_forall sort_byte sort = true
         ∧ length data ≤ 1000 ∧ total = match data with [] => 0 | _ => length (mjoin ls) end).
Proof.
  intros (s & Hs & Ht)%after_ok. apply bind_ok_iff in Hs as ([bs binds] & Hbr & Hs).
  pose proof (federated_branches_mean) as M. destruct bs as [|b bs].
  - injection Hs as <-. injection Ht as <- <- <-. split; [done|]. left. split_and!; [|done..].
    destruct targets as [|[app entity] targets]; [done|]. cbn [federated_branches] in Hbr.
    apply bind_ok_iff in Hbr as (? & _ & Hbr). apply bind_ok_iff in Hbr as ([? [? ?]] & _ & Hbr).
    by apply bind_ok_iff in Hbr as ([? ?] & _ & Hbr).
  - cbv zeta in Hs. destruct (str_forall sort_byte _) eqn:Hsort; [|done]. injection Hs as <-. apply transaction_ok in Ht as (pol & Hpol & Ht).
    cbn [run_stmt result_bind] in Ht. injection Ht as <- Hd Htot. split; [done|]. right.
    exists pol, (default "created_at" (order_by body)), (map (union_branch pol tbls binds) (b :: bs)). split_and!; [done| | |done| |].
    + specialize (M pol tbls targets (where_clause body) (b :: bs) binds [] [] Hbr). by rewrite app_nil_r in M.
    + by rewrite <-Hd.
    + rewrite <-Hd. unfold window. rewrite length_take. unfold clamp_limit. lia.
    + rewrite <-Hd in *. by rewrite <-Htot.
Qed.
End Exact.

Module RecordExamples.
#[local] Instance toy_parsers : Parsers :=
  {| parse_f64 s := Some s; is_finite s := negb (bool_decide (s ∈ ["NaN"; "inf"])); parse_bigdecimal := Some; parse_uuid := Some;
     parse_date := Some; parse_timestamp := Some; show_json _ := "{}" |}.
Definition cell_text (b : Bound) : option string :=
  match b with BText v | BNumber v | BUuid v | BTimestamp v => v | _ => None end.
Definition toy_links : list Link :=
  [{| ln_table := ("crm", "note"); ln_column := "person"; ln_target := ("crm", "person"); ln_rule := Cascade; ln_required := true |};
   {| ln_table := ("crm", "task"); ln_column := "note"; ln_target := ("crm", "note"); ln_rule := SetNull; ln_required := false |}].
Lemma toy_links_local l : l ∈ toy_links → (ln_table l).1 = (ln_target l).1.
Proof. intros [->|[->|[]%elem_of_nil]%elem_of_cons]%elem_of_cons; reflexivity. Qed.
#[local] Instance toy_postgres : Postgres :=
  {| to_jsonb b := from_option JString JNull (cell_text b); text_jsonb b := from_option JString JNull (cell_text b);
     compare_cell row f _ op v _ := x ← row !! f ≫= cell_text; if decide (op = "=") then Some (bool_decide (x = v)) else None;
     contains_cell _ _ _ _ := None; ordered _ _ l := l; json_ordered _ _ l := l;
     column_defaults _ _ := {[ "created_at" := BTimestamp (Some "t0"); "updated_at" := BTimestamp (Some "t0") ]};
     now_value := BTimestamp (Some "t1"); links := toy_links; meets_restrict _ _ _ := false; links_local := toy_links_local;
     ordered_permutation := λ _ _ _, reflexivity _; json_ordered_permutation := λ _ _ _, reflexivity _ |}.

Definition person_app (name : string) : AppManifest := {| app_id := name; data_contract := [demo_entity] |}.
Definition toy_catalog : Catalog :=
  {| manifests := {[ "crm" := Some (person_app "crm"); "hr" := Some (person_app "hr") ]}; catalog_fault := None |}.
Definition open_policies : Policies :=
  {| sees _ _ _ := true; may_change _ _ _ := true; may_remove _ _ _ := true; refuses _ _ _ := None |}.
Definition toy_begins (_ : @DataAccess FieldTypes) : result ApiError Policies := Ok open_policies.
Definition none_refused (_ _ : string) : bool := false.
Definition toy_fresh (i : nat) : uuid := "new-" +:+ pretty i.
Definition person (id name : string) : Cells := {[ "id" := BUuid (Some id); "name" := BText (Some name); "secret" := BText (Some "s") ]}.
Definition toy_tables : Tables :=
  {[ ("crm", "person") := {[ "u1" := person "u1" "ada"; "u2" := person "u2" "bob" ]}; ("hr", "person") := {[ "u9" := person "u9" "ada" ]} ]}.
Definition ada : QueryRequest :=
  {| where_clause := Some (JObject [("name", JString "ada")]); order_by := Some "secret"; order := None; q_limit := 100000; q_offset := 0; linked := None |}.
Lemma query_answers_the_filter_witness :
  ∃ data total types pol, (query_records toy_begins toy_fresh toy_catalog none_refused "crm" "person" "me" ada toy_tables).2 = Ok (data, total)
    ∧ Forall (λ v, object_keys v = readable_names types) data ∧ toy_begins (http_access "crm" "me") = Ok pol ∧ total = 1.
Proof.
  destruct (query_records toy_begins toy_fresh toy_catalog none_refused "crm" "person" "me" ada toy_tables) as [tbls' [[data total]|e]] eqn:Hq.
  - destruct (query_answers_the_filter toy_begins toy_fresh toy_catalog none_refused "crm" "person" "me" ada toy_tables tbls' data total Hq)
      as (_ & types & pol & rows & sort & dir & page & _ & Hpol & _ & _ & _ & Hd & _ & Hk & _ & _). cbn [linked ada] in Hd. subst page.
    exists data, total, types, pol. split; [reflexivity|]. split; [exact Hk|]. split; [exact Hpol|].
    apply (f_equal (λ x, snd <$> ok x.2)) in Hq. vm_compute in Hq. injection Hq as <-. reflexivity.
  - exfalso. apply (f_equal (λ x, is_ok x.2)) in Hq. vm_compute in Hq. discriminate Hq.
Defined.

(** Past the last record the page is empty, and so is the count of the records. *)
Example total_lost_past_the_end :
  (query_records toy_begins toy_fresh toy_catalog none_refused "crm" "person" "me"
    {| where_clause := None; order_by := None; order := None; q_limit := 10; q_offset := 2; linked := None |} toy_tables).2
  = Ok ([], 0) ∧ length (map_to_list (rows_of toy_tables ("crm", "person"))) = 2.
Proof. by vm_compute. Qed.

(** A person of one app goes with the person of the same name in another. *)
Definition identified (e : EntityContract) : EntityContract :=
  {| entity_name := entity_name e; entity_fields := entity_fields e; share := share e; entity_indexes := entity_indexes e; entity_checks := entity_checks e;
     derived_from := derived_from e; identity_kind := Some "person"; identity_key := Some "name"; entity_unknown := entity_unknown e |}.
Definition linked_catalog : Catalog :=
  let m name := Some {| app_id := name; data_contract := [identified demo_entity] |} in
  {| manifests := {[ "crm" := m "crm"; "hr" := m "hr" ]}; catalog_fault := None |}.
Example linked_record_is_attached :
  match (query_records toy_begins toy_fresh linked_catalog none_refused "crm" "person" "me"
           {| where_clause := where_clause ada; order_by := None; order := None; q_limit := 10; q_offset := 0; linked := Some (LinkedApps ["hr"]) |} toy_tables).2 with
  | Ok (data, total) => (map (λ v, get v "_linked" ≫= λ l, get l "hr" ≫= λ h, get h "recordId") data, total) = ([Some (JString "u9")], 1)
  | Err _ => False
  end.
Proof. by vm_compute. Qed.

(** The notes on a person go with the person, and a task loses its note. *)
Definition with_notes : Tables :=
  <[("crm", "note") := {[ "n1" := {[ "person" := BUuid (Some "u1") ]}; "n2" := {[ "person" := BUuid (Some "u2") ]} ]}]>
  (<[("crm", "task") := {[ "t1" := {[ "note" := BUuid (Some "n1"); "name" := BText (Some "call") ]} ]}]> toy_tables).
Example deletion_takes_along :
  let t := (delete_record toy_begins toy_fresh toy_catalog "crm" "person" "u1" "me" with_notes).1 in
  (map (λ k, elements (dom (rows_of t k))) [("crm", "person"); ("crm", "note"); ("crm", "task"); ("hr", "person")], rows_of t ("crm", "task") !! "t1" ≫= (!!) "note")
  = ([["u2"]; ["n2"]; ["t1"]; ["u9"]], Some (BUuid None)).
Proof. by vm_compute. Qed.

Definition two_objects : list (list (string * JsonValue)) := [[("id", JString "mine"); ("name", JString "cy")]; [("age", JString "7")]].
Definition demo_types : FieldTypes := match field_type_map toy_catalog "crm" "person" with Ok t => t | Err _ => ∅ end.
Definition bulk_access : @DataAccess FieldTypes := data_app "crm" (http_context "me") "api" TIMEOUT_INTERACTIVE_MS.
Lemma bulk_stores_each_object_witness :
  (∃ row, rows_of (bulk_insert toy_begins toy_fresh "crm" "person" demo_types two_objects bulk_access toy_tables).1 ("crm", "person")
            !! "new-1" = Some row ∧ row !! "age" = Some (BNumber (Some "7")) ∧ row !! "name" = Some (BText None)).
Proof.
  destruct (bulk_insert toy_begins toy_fresh "crm" "person" demo_types two_objects bulk_access toy_tables) as [tbls' r] eqn:Hb.
  destruct (bulk_stores_each_object toy_begins toy_fresh "crm" "person" demo_types two_objects bulk_access toy_tables tbls' r Hb)
    as [(e & -> & _)|(pol & rows & _ & _ & _ & _ & Hrow & _)].
  - exfalso. apply (f_equal (λ x, is_ok x.2)) in Hb. vm_compute in Hb. discriminate Hb.
  - destruct (Hrow 1 [("age", JString "7")] eq_refl) as (row & _ & _ & Hrow' & _ & Hcells). exists row. split; [exact Hrow'|].
    split; [rewrite Hcells; vm_compute; reflexivity|rewrite Hcells; vm_compute; reflexivity].
Defined.

Definition eve : JsonValue := JObject [("id", JString "u1"); ("name", JString "eve")].
Lemma update_changes_only_what_was_sent_witness :
  ∃ row, rows_of (update_record toy_begins toy_fresh toy_catalog "crm" "person" "u2" "me" eve toy_tables).1 ("crm", "person") !! "u2" = Some row
         ∧ row !! "updated_at" = Some (BTimestamp (Some "t1")).
Proof.
  destruct (update_record toy_begins toy_fresh toy_catalog "crm" "person" "u2" "me" eve toy_tables) as [tbls' r] eqn:Hu.
  destruct (update_changes_only_what_was_sent toy_begins toy_fresh toy_catalog "crm" "person" "u2" "me" eve toy_tables tbls' r Hu)
    as [(e & -> & _)|(u & obj & types & pol & row & row' & Hp & Hobj & Hty & _ & Hrow & _ & _ & _ & -> & -> & Hcells)].
  - exfalso. apply (f_equal (λ x, is_ok x.2)) in Hu. vm_compute in Hu. discriminate Hu.
  - injection Hp as <-. exists row'. cbn [fst].
    split; [unfold rows_of; rewrite lookup_insert_eq; apply lookup_insert_eq|]. rewrite Hcells. reflexivity.
Defined.

Lemma federated_answers_every_source_witness :
  length (default [] ((λ r, r.1) <$> ok (federated_query toy_begins toy_fresh toy_catalog [("crm", "person"); ("hr", "person")] "me" ada toy_tables).2)) = 2.
Proof.
  destruct (federated_query toy_begins toy_fresh toy_catalog [("crm", "person"); ("hr", "person")] "me" ada toy_tables) as [tbls' [[data total]|e]] eqn:Hf.
  - destruct (federated_answers_every_source toy_begins toy_fresh toy_catalog [("crm", "person"); ("hr", "person")] "me" ada toy_tables tbls' data total Hf)
      as (_ & _). apply (f_equal (λ x, length (default [] (fst <$> ok x.2)))) in Hf. vm_compute in Hf. cbn. exact (eq_sym Hf).
  - exfalso. apply (f_equal (λ x, is_ok x.2)) in Hf. vm_compute in Hf. discriminate Hf.
Defined.
End RecordExamples.
