(* ===== verification/CrossApp.v ===== *)
(** * Grants between apps (core/src/governance/cross_app.rs)

    The installations of apps, the collection grants one app gives another and their
    history, with every transaction that changes them, and the handlers as programs
    of such transactions between which anything else may happen.  The theorems are
    about all interleavings. *)

From stdpp Require Import base numbers pretty gmap strings sets relations list.
From S2P Require Import Prelude Str Json DataTypes Perms Roles Authority Delegation Gates Ownership Ident Records Procs.

(** ** State *)

Record InstRow := { inst : Installation; generation : Z }.
(** A row of [cross_app_collection_grants]: what the gates read, and the rest. *)
Record GrantRow := {
  grant : CollectionGrant; requested_by : uuid; approved_by : option uuid; gr_reason : string;
  gr_created_at : Z; gr_updated_at : Z; gr_revoked_at : option Z }.
(** A row of [cross_app_grant_audit], with the states it serialises. *)
Record GrantAudit := {
  ga_grant : uuid; ga_operation : string; ga_actor : option uuid; ga_reason : string;
  ga_before : option GrantRow; ga_after : GrantRow }.

Record XState := {
  base : Sys;                                   (* the other tables and the clock *)
  installations : gmap uuid InstRow;
  grants : gmap uuid GrantRow;
  history : list GrantAudit }.
Definition now (x : XState) : Z := clock (sgov (base x)).
(** The tables as the gates read them. *)
Definition view (x : XState) : Sys :=
  {| sgov := sgov (base x); app_installations := map (λ e, inst e.2) (map_to_list (installations x)); apps := apps (base x);
     cross_app_collection_grants := map (λ e, grant e.2) (map_to_list (grants x));
     publications := publications (base x); public_principals := public_principals (base x);
     action_approvals := action_approvals (base x); backend_releases := backend_releases (base x) |}.
Definition set_grants (g : gmap uuid GrantRow) (h : list GrantAudit) (x : XState) : XState :=
  {| base := base x; installations := installations x; grants := g; history := h |}.

Definition LIVE : list string := ["pending"; "active"; "disabled"].
Definition is_live (g : GrantRow) : bool := bool_decide (g_status (grant g) ∈ LIVE).
Definition unexpired_row (x : XState) (g : GrantRow) : bool := unexpired_at (base x) (g_expires_at (grant g)).
Definition same_scope (g h : GrantRow) : bool :=
  bool_decide (g_consumer_installation (grant g) = g_consumer_installation (grant h))
  && bool_decide (g_provider_installation (grant g) = g_provider_installation (grant h))
  && bool_decide (g_entity (grant g) = g_entity (grant h)).
(** Within the unique index [cross_app_collection_grants_one_active]. *)
Definition indexed (g : GrantRow) : bool := bool_decide (g_status (grant g) ∈ ["pending"; "active"]).
Definition index_conflict (id : uuid) (g : GrantRow) (gs : gmap uuid GrantRow) : bool :=
  indexed g && existsb (λ e, bool_decide (e.1 ≠ id) && indexed e.2 && same_scope g e.2) (map_to_list gs).

Definition stable_not_found : ApiError := NotFound "requested collection is not available".
(** [load_grant] and [load_grant_tx]: the row with its two installations. *)
Definition load_grant (x : XState) (id : uuid) : result ApiError GrantRow :=
  match grants x !! id with
  | Some g =>
      match installations x !! g_consumer_installation (grant g), installations x !! g_provider_installation (grant g) with
      | Some _, Some _ => Ok g
      | _, _ => Err stable_not_found
      end
  | None => Err stable_not_found
  end.

(** ** Transitions of a grant *)

Definition moved (status : string) (at_ : Z) (g : GrantRow) : GrantRow :=
  let c := grant g in
  {| grant := {| g_id := g_id c; g_consumer_app := g_consumer_app c; g_provider_app := g_provider_app c;
                 g_consumer_installation := g_consumer_installation c; g_provider_installation := g_provider_installation c;
                 g_entity := g_entity c; g_actions := g_actions c; g_fields := g_fields c; g_write_fields := g_write_fields c;
                 g_status := status; g_version := (g_version c + 1)%Z; g_expires_at := g_expires_at c |};
     requested_by := requested_by g; approved_by := approved_by g; gr_reason := gr_reason g; gr_created_at := gr_created_at g;
     gr_updated_at := at_; gr_revoked_at := gr_revoked_at g |}.
(** [reason = CASE WHEN $ = '' THEN reason ELSE $ END] *)
Definition with_reason (reason : string) (g : GrantRow) : GrantRow :=
  {| grant := grant g; requested_by := requested_by g; approved_by := approved_by g;
     gr_reason := if decide (reason = EmptyString) then gr_reason g else reason; gr_created_at := gr_created_at g;
     gr_updated_at := gr_updated_at g; gr_revoked_at := gr_revoked_at g |}.
Definition with_approver (user : uuid) (g : GrantRow) : GrantRow :=
  {| grant := grant g; requested_by := requested_by g; approved_by := Some user; gr_reason := gr_reason g;
     gr_created_at := gr_created_at g; gr_updated_at := gr_updated_at g; gr_revoked_at := gr_revoked_at g |}.
Definition with_revoked_at (at_ : Z) (g : GrantRow) : GrantRow :=
  {| grant := grant g; requested_by := requested_by g; approved_by := approved_by g; gr_reason := gr_reason g;
     gr_created_at := gr_created_at g; gr_updated_at := gr_updated_at g; gr_revoked_at := Some at_ |}.

(** The part the transitions share: the row is locked and loaded, the UPDATE applies
    under its condition, and the change is recorded in the same transaction. *)
Definition transition (op : string) (actor : option uuid) (reason : string) (guard : GrantRow → bool)
    (change : GrantRow → GrantRow) (refused duplicate : ApiError) (id : uuid) (x : XState) : XState * result ApiError GrantRow :=
  match load_grant x id with
  | Err e => (x, Err e)
  | Ok before =>
      if guard before then
        let after := change before in
        if index_conflict id after (grants x) then (x, Err duplicate)
        else (set_grants (<[id := after]> (grants x))
                (history x ++ [{| ga_grant := id; ga_operation := op; ga_actor := actor; ga_reason := reason;
                                  ga_before := Some before; ga_after := after |}]) x, Ok after)
      else (x, Err refused)
  end.

Definition INTERNAL_DB : ApiError := Internal "internal database error".
Definition DUPLICATE : ApiError := Conflict "an active or pending grant already exists for this collection".
Definition status_is (s : string) (g : GrantRow) : bool := bool_decide (g_status (grant g) = s).
Definition approve_tx (user id : uuid) (reason : string) (x : XState) : XState * result ApiError GrantRow :=
  transition "approved" (Some user) reason (λ g, status_is "pending" g && unexpired_row x g)
    (λ g, with_reason reason (with_approver user (moved "active" (now x) g)))
    (Conflict "grant is no longer pending") INTERNAL_DB id x.
Definition disable_tx (user id : uuid) (reason : string) (x : XState) : XState * result ApiError GrantRow :=
  transition "disabled" (Some user) reason (λ g, status_is "active" g || status_is "disabled" g)
    (λ g, with_reason reason (moved (if status_is "active" g then "disabled" else g_status (grant g)) (now x) g))
    (Conflict "grant cannot be disabled") INTERNAL_DB id x.
Definition enable_tx (user id : uuid) (reason : string) (x : XState) : XState * result ApiError GrantRow :=
  transition "enabled" (Some user) reason (λ g, status_is "disabled" g && unexpired_row x g)
    (λ g, with_reason reason (moved "active" (now x) g))
    (Conflict "grant cannot be enabled (it may be expired or terminal)") DUPLICATE id x.
Definition revoke_tx (user id : uuid) (reason : string) (x : XState) : XState * result ApiError GrantRow :=
  transition "revoked" (Some user) reason (λ g, negb (status_is "revoked" g || status_is "expired" g))
    (λ g, with_reason reason (with_revoked_at (now x) (moved "revoked" (now x) g)))
    (Conflict "grant is already terminal") INTERNAL_DB id x.

(** [expire_grants_tx] and the loop of [deactivate_installation_tx]: each grant that
    still qualifies moves; an error abandons the whole transaction. *)
Fixpoint move_each (op : string) (actor : option uuid) (reason : string) (guard : GrantRow → bool) (change : GrantRow → GrantRow)
    (ids : list uuid) (x : XState) : result ApiError XState :=
  match ids with
  | [] => Ok x
  | id :: ids =>
      let? before := load_grant x id in
      if guard before then
        let '(x', r) := transition op actor reason guard change INTERNAL_DB INTERNAL_DB id x in
        let? _ := r in move_each op actor reason guard change ids x'
      else move_each op actor reason guard change ids x
  end.
(** [SELECT id ... ORDER BY id] *)
Definition ids_where (pick : GrantRow → bool) (x : XState) : list uuid :=
  sort_strings (map fst (List.filter (λ e, pick e.2) (map_to_list (grants x)))).
Definition or_rollback (x : XState) (r : result ApiError XState) : XState * result ApiError unit :=
  match r with Ok x' => (x', Ok tt) | Err e => (x, Err e) end.

Definition stale (x : XState) (g : GrantRow) : bool := is_live g && negb (unexpired_row x g).
Definition expire_each (pick : GrantRow → bool) (x : XState) : result ApiError XState :=
  move_each "expired" None "grant expired" (stale x) (moved "expired" (now x)) (ids_where pick x) x.
Definition expire_stale_grants (x : XState) : XState * result ApiError unit := or_rollback x (expire_each (stale x) x).

(** ** Installations *)

Definition app_of (r : InstRow) : string := i_app_id (inst r).
Definition current (app : string) (r : InstRow) : bool := bool_decide (app_of r = app) && i_active (inst r).
(** [ORDER BY generation DESC LIMIT 1] *)
Definition latest (l : list (uuid * InstRow)) : option (uuid * InstRow) :=
  foldr (λ e acc, match acc with
                  | Some a => if (generation a.2 <? generation e.2)%Z then Some e else acc
                  | None => Some e
                  end) None l.
Definition active_of (app : string) (x : XState) : option (uuid * InstRow) :=
  latest (List.filter (λ e, current app e.2) (map_to_list (installations x))).
Definition next_generation (app : string) (x : XState) : Z :=
  (foldr (λ e m, Z.max (generation e.2) m) 0 (List.filter (λ e, bool_decide (app_of e.2 = app)) (map_to_list (installations x))) + 1)%Z.
Definition set_installations (i : gmap uuid InstRow) (x : XState) : XState :=
  {| base := base x; installations := i; grants := grants x; history := history x |}.

(** [id] is the identifier a new installation takes. *)
Definition register_installation_tx (app : string) (id : uuid) (x : XState) : XState * result RuntimeError uuid :=
  match active_of app x with
  | Some (found, _) => (x, Ok found)
  | None =>
      match installations x !! id with
      | Some _ => (x, Err (Schema "duplicate key"))
      | None =>
          (set_installations (<[id := {| inst := {| i_id := id; i_app_id := app; i_active := true |};
                                         generation := next_generation app x |}]> (installations x)) x, Ok id)
      end
  end.
Definition deactivated (app : string) (r : InstRow) : InstRow :=
  if current app r then {| inst := {| i_id := i_id (inst r); i_app_id := i_app_id (inst r); i_active := false |}; generation := generation r |}
  else r.
(** [approved_actions::revoke_app] *)
Definition revoke_approval (app : string) (a : ActionApproval) : ActionApproval :=
  if bool_decide (aa_app_id a = app) then
    {| aa_id := aa_id a; aa_app_id := aa_app_id a; aa_action_id := aa_action_id a; aa_installation := aa_installation a;
       aa_revision := aa_revision a; aa_digest := aa_digest a; aa_manifest := aa_manifest a; aa_permissions := aa_permissions a;
       aa_revoked := true |}
  else a.
Definition revoke_app (app : string) (y : Sys) : Sys :=
  {| sgov := sgov y; app_installations := app_installations y; apps := apps y;
     cross_app_collection_grants := cross_app_collection_grants y; publications := publications y;
     public_principals := public_principals y; action_approvals := map (revoke_approval app) (action_approvals y);
     backend_releases := backend_releases y |}.
(** A grant one of whose installations, of whatever generation, is the app's. *)
Definition involves (app : string) (x : XState) (g : GrantRow) : bool :=
  let is_app id := match installations x !! id with Some r => bool_decide (app_of r = app) | None => false end in
  is_app (g_consumer_installation (grant g)) || is_app (g_provider_installation (grant g)).
Definition deactivate_installation_tx (app : string) (actor : option uuid) (reason : string) (x : XState) :
    XState * result ApiError unit :=
  let x1 := {| base := revoke_app app (base x); installations := deactivated app <$> installations x; grants := grants x;
               history := history x |} in
  or_rollback x (move_each "auto_revoked" actor reason is_live
                   (λ g, with_revoked_at (now x) (moved "revoked" (now x) g))
                   (ids_where (λ g, is_live g && involves app x1 g) x1) x1).

(** ** Creating a grant *)

Definition first_lower (s : string) : bool :=
  match s with String c _ => let n := N_of_ascii c in bool_decide (97 ≤ n ≤ 122)%N | EmptyString => false end.
Definition valid_identifier (value label : string) : result ApiError unit :=
  if first_lower value && str_forall sort_byte value then Ok tt
  else Err (BadRequest (label +:+ " '" +:+ value +:+ "' must be snake_case")).
Definition valid_app_id (value label : string) : result ApiError unit :=
  if first_lower value && str_forall (λ c, sort_byte c || bool_decide (c = "-"%char)) value then Ok tt
  else Err (BadRequest (label +:+ " '" +:+ value +:+ "' must be a safe app identifier")).
Definition ACTIONS : list string := ["list"; "read"; "create"; "update"; "delete"].
Definition valid_action (action : string) : bool := bool_decide (action ∈ ACTIONS).

(** Elements in the order they come, each once. *)
Fixpoint push_new (seen : list string) (l : list string) : list string :=
  match l with
  | [] => rev seen
  | a :: l => if bool_decide (a ∈ seen) then push_new seen l else push_new (a :: seen) l
  end.
Definition validate_actions (actions : list string) : result ApiError (list string) :=
  match actions with
  | [] => Err (BadRequest "actions must not be empty")
  | _ =>
      if forallb valid_action actions then Ok (sort_strings (push_new [] actions))
      else Err (BadRequest "cross-app grants support list, read, create, update and delete only")
  end.
Definition is_readable (types : FieldTypes) (field : string) : bool :=
  match types !! field with Some f => negb (f_sensitive f) | None => false end.
Definition validate_requested_fields (types : FieldTypes) (requested : option (list string)) : result ApiError (list string) :=
  let? fields := match requested with
                 | Some [] => Err (BadRequest "fields must not be empty when supplied")
                 | Some fields => Ok fields
                 | None => Ok (readable_names types)   (* in the order of the map, sorted below *)
                 end in
  try? try_for_each (λ f, if is_readable types f then Ok tt else Err (BadRequest ("field '" +:+ f +:+ "' is not readable"))) fields in
  let result := push_new [] fields in
  Ok (sort_strings (result ++ List.filter (λ r, bool_decide (is_Some (types !! r)) && negb (bool_decide (r ∈ fields))) SYSTEM_FIELDS)).
Definition WRITING : list string := ["create"; "update"].
Definition validate_write_fields (types : FieldTypes) (actions : list string) (requested : option (list string)) : result ApiError (list string) :=
  if negb (existsb (λ a, bool_decide (a ∈ WRITING)) actions) then
    match requested with
    | Some (_ :: _) => Err (BadRequest "writeFields requires create or update actions")
    | _ => Ok []
    end
  else
    match requested with
    | Some ((_ :: _) as fields) =>
        try? try_for_each (λ f, if is_system_field f || negb (is_readable types f)
                               then Err (BadRequest ("field '" +:+ f +:+ "' is not writable")) else Ok tt) fields in
        Ok (sort_strings (push_new [] fields))
    | _ => Err (BadRequest "create/update grants require explicit nonempty writeFields")
    end.

Record CreateGrantRequest := {
  cg_consumer_app : string; cg_provider_app : string; cg_entity : string; cg_actions : list string;
  cg_fields : option (list string); cg_write_fields : option (list string); cg_expires_at : option Z; cg_reason : string }.

(** The CHECK constraints of the table. *)
Definition overlaps (a b : list string) : bool := existsb (λ x, bool_decide (x ∈ b)) a.
Definition row_checks (g : GrantRow) : bool :=
  let c := grant g in
  bool_decide (g_status c ∈ ["pending"; "active"; "disabled"; "revoked"; "expired"]) && bool_decide (0 < g_version c)%Z
  && negb (bool_decide (g_consumer_app c = g_provider_app c)) && forallb valid_action (g_actions c) && negb (bool_decide (g_actions c = []))
  && negb (bool_decide (g_fields c = []))
  && Bool.eqb (overlaps (g_actions c) WRITING) (negb (bool_decide (g_write_fields c = [])))
  && negb (overlaps (g_write_fields c) SYSTEM_FIELDS)
  && match g_expires_at c with Some t => (gr_created_at g <? t)%Z | None => true end.

Section Creation.
Context `{!Parsers}.
(** The manifest a stored document deserialises to. *)
Context (parse_manifest : string → option AppManifest).

Definition provider_types (x : XState) (app entity : string) : result ApiError FieldTypes :=
  let? m := ok_or (if installed (base x) app then (apps (base x) !! app) ≫= λ a, parse_manifest (a_manifest a) else None) stable_not_found in
  let? e := ok_or (List.find (λ e, bool_decide (entity_name e = entity)) (data_contract m)) stable_not_found in
  map_err BadRequest (field_types parse_bigdecimal e).
(** The transaction of [create_grant], once it has the locks of both apps. *)
Definition create_tx (user id : uuid) (actions : list string) (body : CreateGrantRequest) (x : XState) : XState * result ApiError GrantRow :=
  let outcome :=
    let? '(consumer_id, _) := ok_or (active_of (cg_consumer_app body) x) stable_not_found in
    let? '(provider_id, _) := ok_or (active_of (cg_provider_app body) x) stable_not_found in
    let? types := provider_types x (cg_provider_app body) (cg_entity body) in
    let? fields := validate_requested_fields types (cg_fields body) in
    let? write_fields := validate_write_fields types actions (cg_write_fields body) in
    let? x1 := expire_each (λ g, stale x g && bool_decide (g_consumer_installation (grant g) = consumer_id)
                                  && bool_decide (g_provider_installation (grant g) = provider_id)
                                  && bool_decide (g_entity (grant g) = cg_entity body)) x in
    let row := {| grant := {| g_id := id; g_consumer_app := cg_consumer_app body; g_provider_app := cg_provider_app body;
                              g_consumer_installation := consumer_id; g_provider_installation := provider_id;
                              g_entity := cg_entity body; g_actions := actions; g_fields := fields; g_write_fields := write_fields;
                              g_status := "pending"; g_version := 1; g_expires_at := cg_expires_at body |};
                  requested_by := user; approved_by := None; gr_reason := cg_reason body; gr_created_at := now x;
                  gr_updated_at := now x; gr_revoked_at := None |} in
    if negb (row_checks row) then Err (Internal "check constraint violated")
    else if bool_decide (is_Some (grants x1 !! id)) then Err (Internal "duplicate key")
    else if index_conflict id row (grants x1) then Err DUPLICATE
    else Ok (set_grants (<[id := row]> (grants x1))
               (history x1 ++ [{| ga_grant := id; ga_operation := "created"; ga_actor := Some user; ga_reason := cg_reason body;
                                  ga_before := None; ga_after := row |}]) x1, row) in
  match outcome with Ok (x', row) => (x', Ok row) | Err e => (x, Err e) end.
End Creation.

(** ** Handlers *)

Notation XProc := (Proc XState).

Definition xpool (x : XState) : Pool := gpool (sgov (base x)).
Definition holds (user : uuid) (key : string) : XProc (result ApiError bool) := query (λ x, has_permission_db (xpool x) user key).
Definition require (user : uuid) (key : string) : XProc (result ApiError unit) := query (λ x, require_perm (xpool x) user key).
Definition MANAGEMENT_PERMISSION : string := "admin:cross_app.grants.manage".
Definition APPROVE_PERMISSION : string := "admin:cross_app.grants.approve".
Definition provider_key (app : string) : string := "app:" +:+ app +:+ ":cross_app.approve".
Definition ADMIN_DENIED : ApiError := Forbidden "cross-app grant administration denied".
Definition admin_or_provider_admin (user : uuid) (app : string) : XProc (result ApiError unit) :=
  do global <- holds user APPROVE_PERMISSION;
  do provider <- holds user (provider_key app);
  pure (if global || provider then Ok tt else Err ADMIN_DENIED).
Definition can_view_grants (user : uuid) (app : string) : XProc (result ApiError unit) :=
  do manage <- holds user MANAGEMENT_PERMISSION;
  do approve <- holds user APPROVE_PERMISSION;
  do provider <- holds user (provider_key app);
  pure (if manage || approve || provider then Ok tt else Err ADMIN_DENIED).

Definition approve_grant (user id : uuid) (reason : string) : XProc (result ApiError GrantRow) :=
  do _ <- atomic expire_stale_grants;
  do g <- query (λ x, load_grant x id);
  do _ <- admin_or_provider_admin user (g_provider_app (grant g));
  atomic (approve_tx user id reason).
Definition enable_grant (user id : uuid) (reason : string) : XProc (result ApiError GrantRow) :=
  do _ <- atomic expire_stale_grants;
  do g <- query (λ x, load_grant x id);
  do _ <- admin_or_provider_admin user (g_provider_app (grant g));
  atomic (enable_tx user id reason).
Definition disable_grant (user id : uuid) (reason : string) : XProc (result ApiError GrantRow) :=
  do _ <- require user MANAGEMENT_PERMISSION; atomic (disable_tx user id reason).
Definition revoke_grant (user id : uuid) (reason : string) : XProc (result ApiError GrantRow) :=
  do _ <- require user MANAGEMENT_PERMISSION; atomic (revoke_tx user id reason).
Definition get_grant (user id : uuid) : XProc (result ApiError GrantRow) :=
  do _ <- atomic expire_stale_grants;
  do g <- query (λ x, load_grant x id);
  do _ <- can_view_grants user (g_provider_app (grant g));
  pure (Ok g).

Section Handlers.
Context `{!Parsers} (parse_manifest : string → option AppManifest).

(** [locked]: whether the locks of both apps came before the deadline. *)
Definition create_grant (user id : uuid) (locked : bool) (body : CreateGrantRequest) : XProc (result ApiError GrantRow) :=
  do _ <- require user MANAGEMENT_PERMISSION;
  do actions <- query (λ x,
    try? valid_app_id (cg_consumer_app body) "consumer app" in
    try? valid_app_id (cg_provider_app body) "provider app" in
    try? valid_identifier (cg_entity body) "entity" in
    try? ensure (negb (bool_decide (cg_consumer_app body = cg_provider_app body))) (BadRequest "consumer and provider apps must differ") in
    try? ensure (unexpired_at (base x) (cg_expires_at body)) (BadRequest "expiresAt must be in the future") in
    validate_actions (cg_actions body));
  if locked then atomic (create_tx parse_manifest user id actions body)
  else pure (Err (Conflict "application lifecycle is busy; retry grant creation")).

(** ** Authorising an operation *)

Definition NOT_AUTHORIZED : ApiError := Forbidden "cross-app collection access is not authorized".
(** The grants the query joins, and the one of the highest version. *)
Definition grant_matches (y : Sys) (consumer provider entity action : string) (g : CollectionGrant) : bool :=
  bool_decide (g_consumer_app g = consumer) && bool_decide (g_provider_app g = provider) && bool_decide (g_entity g = entity)
  && bool_decide (g_status g = "active") && unexpired_at y (g_expires_at g)
  && active_installation y (g_consumer_installation g) (g_consumer_app g)
  && active_installation y (g_provider_installation g) (g_provider_app g)
  && installed y (g_consumer_app g) && installed y (g_provider_app g) && bool_decide (action ∈ g_actions g).
Definition highest (l : list CollectionGrant) : option CollectionGrant :=
  foldr (λ g acc, match acc with Some h => if (g_version h <? g_version g)%Z then Some g else acc | None => Some g end) None l.
Definition is_nil (u : uuid) : bool := bool_decide (u = "00000000-0000-0000-0000-000000000000").
Definition scope_of (requested written : list string) (action : string) (g : CollectionGrant) : result ApiError AuthorizedRead :=
  if is_nil (g_consumer_installation g) || is_nil (g_provider_installation g) then Err NOT_AUTHORIZED
  else if negb (forallb (λ f, bool_decide (f ∈ g_fields g)) requested) then Err (Forbidden "requested collection scope is not authorized")
  else if negb (bool_decide (action ∈ WRITING)) && negb (bool_decide (written = [])) then Err (Forbidden "this operation cannot write fields")
  else if existsb (λ f, negb (bool_decide (f ∈ g_write_fields g)) || is_system_field f) written
  then Err (Forbidden "requested writable collection scope is not authorized")
  else Ok {| ar_grant_id := g_id g; ar_grant_version := g_version g; ar_consumer_app := g_consumer_app g;
             ar_provider_app := g_provider_app g; ar_consumer_installation := g_consumer_installation g;
             ar_provider_installation := g_provider_installation g; ar_entity := g_entity g; ar_action := action;
             ar_fields := g_fields g; ar_write_fields := g_write_fields g |}.
Definition target_exists (x : XState) (provider entity : string) : bool :=
  installed (base x) provider
  && match (apps (base x) !! provider) ≫= (λ a, parse_manifest (a_manifest a)) with
     | Some m => existsb (λ e, bool_decide (entity_name e = entity)) (data_contract m)
     | None => false
     end.
Definition authorize_cross_app_operation (consumer provider entity action : string) (requested written : list string) :
    XProc (result ApiError AuthorizedRead) :=
  do _ <- atomic expire_stale_grants;
  do _ <- pure (try? valid_app_id consumer "consumer app" in
                try? valid_app_id provider "provider app" in
                try? valid_identifier entity "entity" in
                try? ensure (negb (bool_decide (consumer = provider))) (Forbidden "cross-app grants cannot target the consumer app") in
                ensure (valid_action action) (Forbidden "cross-app action is not allowed"));
  do _ <- query (λ x, ensure (target_exists x provider entity) stable_not_found);
  do g <- query (λ x, ok_or (highest (List.filter (grant_matches (view x) consumer provider entity action)
                                       (cross_app_collection_grants (view x)))) NOT_AUTHORIZED);
  pure (scope_of requested written action g).
Definition authorize_cross_app_read (consumer provider entity action : string) (requested : list string) :
    XProc (result ApiError AuthorizedRead) :=
  if bool_decide (action ∈ ["list"; "read"]) then authorize_cross_app_operation consumer provider entity action requested []
  else pure (Err (Forbidden "cross-app read action is not allowed")).
End Handlers.

(** ** All that may happen *)

Inductive Tx :=
| TExpire
| TCreate (user id : uuid) (actions : list string) (body : CreateGrantRequest)
| TApprove (user id : uuid) (reason : string)
| TDisable (user id : uuid) (reason : string)
| TEnable (user id : uuid) (reason : string)
| TRevoke (user id : uuid) (reason : string)
| TRegister (app : string) (id : uuid)
| TDeactivate (app : string) (actor : option uuid) (reason : string).
Section World.
Context `{!Parsers} (parse_manifest : string → option AppManifest).
Definition run_tx (t : Tx) (x : XState) : XState :=
  match t with
  | TExpire => (expire_stale_grants x).1
  | TCreate user id actions body => (create_tx parse_manifest user id actions body x).1
  | TApprove user id reason => (approve_tx user id reason x).1
  | TDisable user id reason => (disable_tx user id reason x).1
  | TEnable user id reason => (enable_tx user id reason x).1
  | TRevoke user id reason => (revoke_tx user id reason x).1
  | TRegister app id => (register_installation_tx app id x).1
  | TDeactivate app actor reason => (deactivate_installation_tx app actor reason x).1
  end.
(** A transaction, or any change elsewhere while time passes. *)
Inductive xstep : XState → XState → Prop :=
| xs_tx t x : xstep x (run_tx t x)
| xs_world y x : (now x ≤ clock (sgov y))%Z →
    xstep x {| base := y; installations := installations x; grants := grants x; history := history x |}.
End World.

(** ** One grant at a time *)

(** The terms of a grant, which no transition changes. *)
Definition same_terms (g h : GrantRow) : Prop :=
  ∃ s v, grant h = {| g_id := g_id (grant g); g_consumer_app := g_consumer_app (grant g); g_provider_app := g_provider_app (grant g);
    g_consumer_installation := g_consumer_installation (grant g); g_provider_installation := g_provider_installation (grant g);
    g_entity := g_entity (grant g); g_actions := g_actions (grant g); g_fields := g_fields (grant g);
    g_write_fields := g_write_fields (grant g); g_status := s; g_version := v; g_expires_at := g_expires_at (grant g) |}
  ∧ requested_by h = requested_by g ∧ gr_created_at h = gr_created_at g.
#[export] Instance same_terms_pre : PreOrder same_terms.
Proof.
  split.
  - intros g. exists (g_status (grant g)), (g_version (grant g)). by destruct g as [[]].
  - intros g h k (s & v & Hh & Hr & Hc) (s' & v' & Hk & Hr' & Hc'). exists s', v'. rewrite Hk, Hr', Hc', Hh. done.
Qed.
Definition STATUSES : list string := ["pending"; "active"; "disabled"; "revoked"; "expired"].
(** What a transition makes of a live grant. *)
Record successor (g h : GrantRow) : Prop := {
  s_terms : same_terms g h;
  s_version : g_version (grant h) = (g_version (grant g) + 1)%Z;
  s_status : g_status (grant h) ∈ STATUSES;
  s_indexed : indexed h = true → is_live g = true;
  s_approved : g_status (grant h) ∈ ["active"; "disabled"] →
               is_Some (approved_by h) ∨ (approved_by h = approved_by g ∧ g_status (grant g) ∈ ["active"; "disabled"]) }.
Definition entry (id : uuid) (op : string) (actor : option uuid) (reason : string) (before : option GrantRow) (after : GrantRow) : GrantAudit :=
  {| ga_grant := id; ga_operation := op; ga_actor := actor; ga_reason := reason; ga_before := before; ga_after := after |}.
Inductive gmove : XState → XState → Prop :=
| gmove_intro id g h op actor reason x :
    grants x !! id = Some g → is_live g = true → successor g h → index_conflict id h (grants x) = false →
    gmove x (set_grants (<[id := h]> (grants x)) (history x ++ [entry id op actor reason (Some g) h]) x).

Lemma load_grant_ok x id g : load_grant x id = Ok g → grants x !! id = Some g.
Proof. unfold load_grant. destruct (grants x !! id); [|done]. repeat case_match; congruence. Qed.
Lemma transition_cases op actor reason guard change refused duplicate id x x' r :
  transition op actor reason guard change refused duplicate id x = (x', r) →
  (∃ e, r = Err e ∧ x' = x)
  ∨ ∃ g, load_grant x id = Ok g ∧ guard g = true ∧ index_conflict id (change g) (grants x) = false ∧ r = Ok (change g)
      ∧ x' = set_grants (<[id := change g]> (grants x)) (history x ++ [entry id op actor reason (Some g) (change g)]) x.
Proof.
  unfold transition. destruct (load_grant x id) as [g|e]; [|by intros [= <- <-]; left; eexists].
  destruct (guard g) eqn:Hg; [|by intros [= <- <-]; left; eexists]. cbv zeta.
  destruct (index_conflict id (change g) (grants x)) eqn:Hi; [by intros [= <- <-]; left; eexists|].
  intros [= <- <-]. right. exists g. by split_and!.
Qed.
Lemma transition_move op actor reason guard change refused duplicate id x :
  (∀ g, grants x !! id = Some g → guard g = true → is_live g = true ∧ successor g (change g)) →
  rtc gmove x (transition op actor reason guard change refused duplicate id x).1.
Proof.
  intros H. destruct (transition _ _ _ _ _ _ _ _ _) as [x' r] eqn:E. cbn.
  apply transition_cases in E as [(e & _ & ->)|(g & Hg & Hgd & Hi & _ & ->)]; [reflexivity|].
  apply load_grant_ok in Hg. destruct (H g Hg Hgd). apply rtc_once. by econstructor.
Qed.
Lemma move_each_moves op actor reason guard change ids x x' :
  (∀ g, guard g = true → is_live g = true ∧ successor g (change g)) →
  move_each op actor reason guard change ids x = Ok x' → rtc gmove x x'.
Proof.
  intros H. revert x. induction ids as [|id ids IH]; intros x; cbn [move_each]; [by intros [= <-]|].
  destruct (load_grant x id) as [g|e]; [|done]. cbn [result_bind]. destruct (guard g); [|apply IH].
  pose proof (transition_move op actor reason guard change INTERNAL_DB INTERNAL_DB id x (λ g _, H g)) as Hm.
  destruct (transition _ _ _ _ _ _ _ _ _) as [x1 [h|e]]; cbn in *; [|done]. intros Hr. etrans; [exact Hm|by apply IH].
Qed.

(** [moved] and the fields beside it make a successor. *)
Ltac terms := cbn; eexists _, _; split_and!; reflexivity.
Lemma successor_moved g s t :
  s ∈ ["expired"; "revoked"] → successor g (moved s t g) ∧ successor g (with_revoked_at t (moved s t g)).
Proof.
  intros Hs. assert (s ∈ STATUSES ∧ s ∉ ["active"; "disabled"] ∧ bool_decide (s ∈ ["pending"; "active"]) = false) as (H1 & H2 & H3).
  { repeat (apply elem_of_cons in Hs as [->|Hs]; [split_and!; [by apply (bool_decide_unpack _)|by apply (bool_decide_unpack _)|done]|]).
    by apply not_elem_of_nil in Hs. }
  split; (split; [terms|done|done|unfold indexed; cbn; by rewrite H3|done]).
Qed.
Lemma live_status g s : g_status (grant g) = s → bool_decide (s ∈ LIVE) = true → is_live g = true.
Proof. unfold is_live. by intros ->. Qed.

Section Steps.
Context `{!Parsers} (parse_manifest : string → option AppManifest).

Lemma approve_moves user id reason x : rtc gmove x (approve_tx user id reason x).1.
Proof.
  apply transition_move. intros g _ Hg. unfold status_is in Hg. bool_hyps. split; [by eapply live_status|].
  split; [terms|done|by apply (bool_decide_unpack _)|by intros _; eapply live_status|]. intros _. left. cbn. by eexists.
Qed.
Lemma disable_moves user id reason x : rtc gmove x (disable_tx user id reason x).1.
Proof.
  apply transition_move. intros g _ Hg. unfold status_is in *.
  assert (g_status (grant g) ∈ ["active"; "disabled"]) as Hs.
  { apply orb_true_iff in Hg as [Hg|Hg]; apply bool_decide_eq_true in Hg; rewrite Hg; by apply (bool_decide_unpack _). }
  assert ((if bool_decide (g_status (grant g) = "active") then "disabled" else g_status (grant g)) = "disabled") as E.
  { apply orb_true_iff in Hg as [Hg|Hg]; [by rewrite Hg|]. apply bool_decide_eq_true in Hg. by rewrite Hg. }
  split; [|rewrite E; split; [terms|done|by apply (bool_decide_unpack _)|done|by right]].
  repeat (apply elem_of_cons in Hs as [Hs|Hs]; [by eapply live_status|]). by apply not_elem_of_nil in Hs.
Qed.
Lemma enable_moves user id reason x : rtc gmove x (enable_tx user id reason x).1.
Proof.
  apply transition_move. intros g _ Hg. unfold status_is in Hg. bool_hyps. split; [by eapply live_status|].
  split; [terms|done|by apply (bool_decide_unpack _)|by intros _; eapply live_status|]. intros _. right. split; [done|].
  match goal with E : g_status _ = _ |- _ => rewrite E end. by apply (bool_decide_unpack _).
Qed.
Lemma revoke_moves user id reason x :
  (∀ g, grants x !! id = Some g → g_status (grant g) ∈ STATUSES) → rtc gmove x (revoke_tx user id reason x).1.
Proof.
  intros Hst. apply transition_move. intros g Hg Hgd. unfold status_is in Hgd. bool_hyps. specialize (Hst g Hg). split.
  - unfold is_live. apply bool_decide_eq_true. repeat (apply elem_of_cons in Hst as [Hst|Hst]; [rewrite Hst; try by apply (bool_decide_unpack _)|]);
      try done. by apply not_elem_of_nil in Hst.
  - split; [terms|done|by apply (bool_decide_unpack _)|done|]. intros Hin. exfalso. revert Hin.
    change ("revoked" ∉ ["active"; "disabled"]). by apply (bool_decide_unpack _).
Qed.
Lemma stale_moves x x1 pick x' : move_each "expired" None "grant expired" (stale x) (moved "expired" (now x)) (ids_where pick x1) x1 = Ok x' → rtc gmove x1 x'.
Proof.
  apply move_each_moves. intros g Hg. unfold stale in Hg. bool_hyps. split; [done|].
  by apply (successor_moved g "expired" (now x)), (bool_decide_unpack _).
Qed.
Lemma expire_moves x : rtc gmove x (expire_stale_grants x).1.
Proof.
  unfold expire_stale_grants, or_rollback, expire_each. destruct (move_each _ _ _ _ _ _ _) as [x'|] eqn:E; [|reflexivity].
  by eapply stale_moves.
Qed.
End Steps.

(** ** The invariant *)

(** The history of one grant, from its creation to the row it is now. *)
Fixpoint chain (prev : option GrantRow) (l : list GrantAudit) (last : option GrantRow) : Prop :=
  match l with
  | [] => prev = last
  | a :: l => ga_before a = prev ∧ chain (Some (ga_after a)) l last
  end.
Definition history_of (id : uuid) (h : list GrantAudit) : list GrantAudit := List.filter (λ a, bool_decide (ga_grant a = id)) h.
Definition refers (x : XState) (id : uuid) (app : string) (active : bool) : Prop :=
  ∃ r, installations x !! id = Some r ∧ app_of r = app ∧ (active = true → i_active (inst r) = true).

Record Core (x : XState) : Prop := {
  c_grant_ids : ∀ id g, grants x !! id = Some g → g_id (grant g) = id;
  c_inst_ids : ∀ id r, installations x !! id = Some r → i_id (inst r) = id;
  (** one active installation per app, and generations that never repeat *)
  c_one_active : ∀ i j r s, installations x !! i = Some r → installations x !! j = Some s → app_of r = app_of s →
                   i_active (inst r) = true → i_active (inst s) = true → i = j;
  c_generations : ∀ i j r s, installations x !! i = Some r → installations x !! j = Some s → app_of r = app_of s →
                   generation r = generation s → i = j;
  (** one pending or active grant per pair of installations and entity *)
  c_one_grant : ∀ i j g h, grants x !! i = Some g → grants x !! j = Some h → indexed g = true → indexed h = true →
                   same_scope g h = true → i = j;
  c_refers : ∀ id g, grants x !! id = Some g → refers x (g_consumer_installation (grant g)) (g_consumer_app (grant g)) false
                   ∧ refers x (g_provider_installation (grant g)) (g_provider_app (grant g)) false;
  c_checks : ∀ id g, grants x !! id = Some g → row_checks g = true;
  c_approved : ∀ id g, grants x !! id = Some g → g_status (grant g) ∈ ["active"; "disabled"] → is_Some (approved_by g);
  (** the history replays to the table *)
  c_history : ∀ id, chain None (history_of id (history x)) (grants x !! id) }.
(** A grant that is not at its end ties two installations that are both current. *)
Definition Live (x : XState) : Prop :=
  ∀ id g, grants x !! id = Some g → is_live g = true →
    refers x (g_consumer_installation (grant g)) (g_consumer_app (grant g)) true
    ∧ refers x (g_provider_installation (grant g)) (g_provider_app (grant g)) true.

Lemma chain_snoc prev l last a : chain prev l last → ga_before a = last → chain prev (l ++ [a]) (Some (ga_after a)).
Proof. revert prev. induction l as [|b l IH]; intros prev; cbn; [by intros -> ->|]. intros [? ?] ?. split; [done|by apply IH]. Qed.
Lemma history_of_app id h1 h2 : history_of id (h1 ++ h2) = history_of id h1 ++ history_of id h2.
Proof. unfold history_of. apply List.filter_app. Qed.
Lemma chain_set id g op actor reason h0 (gs : gmap uuid GrantRow) hist id' :
  chain None (history_of id' hist) (gs !! id') → gs !! id = g →
  chain None (history_of id' (hist ++ [entry id op actor reason g h0])) (<[id := h0]> gs !! id').
Proof.
  intros Hc Hg. rewrite history_of_app. destruct (decide (id = id')) as [<-|Hne].
  - rewrite lookup_insert_eq. unfold history_of at 2. cbn [List.filter entry ga_grant]. rewrite bool_decide_true by done.
    eapply (chain_snoc _ _ _ (entry id op actor reason g h0)); [exact Hc|]. by subst g.
  - rewrite lookup_insert_ne by done. unfold history_of at 2. cbn [List.filter entry ga_grant]. rewrite bool_decide_false by done.
    by rewrite app_nil_r.
Qed.
Lemma index_free id h (gs : gmap uuid GrantRow) j g :
  index_conflict id h gs = false → gs !! j = Some g → indexed h = true → indexed g = true → same_scope h g = true → j = id.
Proof.
  unfold index_conflict. intros Hc Hg Hh Hgi Hs. rewrite Hh in Hc. cbn in Hc.
  destruct (decide (j = id)) as [|Hne]; [done|]. exfalso. apply Bool.not_true_iff_false in Hc. apply Hc.
  apply existsb_exists. exists (j, g). split; [by apply list_elem_of_In, elem_of_map_to_list|]. cbn.
  by rewrite bool_decide_true, Hgi, Hs.
Qed.
Lemma same_scope_sym g h : same_scope g h = same_scope h g.
Proof. unfold same_scope. f_equal; [f_equal|]; apply bool_decide_ext; split; by symmetry. Qed.

(** Storing a row keeps the core, whether it is new or a successor. *)
Lemma core_set x id h op actor reason :
  Core x → index_conflict id h (grants x) = false →
  g_id (grant h) = id → row_checks h = true →
  (g_status (grant h) ∈ ["active"; "disabled"] → is_Some (approved_by h)) →
  refers x (g_consumer_installation (grant h)) (g_consumer_app (grant h)) false →
  refers x (g_provider_installation (grant h)) (g_provider_app (grant h)) false →
  Core (set_grants (<[id := h]> (grants x)) (history x ++ [entry id op actor reason (grants x !! id) h]) x).
Proof.
  intros [] Hi Hid Hck Hap Hc Hp. split; cbn [set_grants grants installations history]; try done.
  - intros j g [[<- <-]|[? ?]]%lookup_insert_Some; eauto.
  - intros i j g k [[<- <-]|[Hne Hg]]%lookup_insert_Some [[<- <-]|[Hne' Hk]]%lookup_insert_Some Hgi Hki Hs; try done; eauto.
    + symmetry. by eapply (index_free id h).
    + eapply (index_free id h (grants x)); [done|exact Hg|done..|]. by rewrite same_scope_sym.
  - intros j g [[<- <-]|[? ?]]%lookup_insert_Some; [by split|eauto].
  - intros j g [[<- <-]|[? ?]]%lookup_insert_Some; eauto.
  - intros j g [[<- <-]|[? ?]]%lookup_insert_Some; eauto.
  - intros j. by apply chain_set.
Qed.

Lemma successor_checks g h : successor g h → row_checks g = true → row_checks h = true.
Proof.
  intros [(s & v & Hh & _ & Hcr) Hv Hst _ _] Hg. unfold row_checks in *. rewrite Hh in *. cbn in *. subst v. rewrite Hcr.
  rewrite !andb_true_iff in *. destruct_and!. split_and!; try done; apply bool_decide_eq_true; [done|].
  match goal with V : bool_decide (0 < _)%Z = true |- _ => apply bool_decide_eq_true in V; lia end.
Qed.
Lemma gmove_core x x' : gmove x x' → Core x → Core x'.
Proof.
  intros [id g h op actor reason x0 Hg Hl Hs Hi] HC. pose proof HC as [].
  rewrite <-Hg. pose proof (s_terms g h Hs) as (s & v & Hh & _ & _). apply core_set; try done.
  - rewrite Hh. cbn. eauto.
  - eapply successor_checks; eauto.
  - intros Hin. destruct (s_approved g h Hs Hin) as [?|[-> Hin']]; eauto.
  - rewrite Hh. cbn. by eapply c_refers0.
  - rewrite Hh. cbn. by eapply c_refers0.
Qed.
Lemma gmove_live x x' : gmove x x' → Live x → Live x'.
Proof.
  intros [id g h op actor reason x0 Hg Hl Hs Hi] HL j k. cbn [set_grants grants].
  intros [[<- <-]|[? ?]]%lookup_insert_Some Hk; [|by eapply HL].
  destruct (s_terms g h Hs) as (s & v & Hh & _ & _). rewrite Hh. cbn. by eapply (HL _ g).
Qed.
Lemma gmoves_core x x' : rtc gmove x x' → Core x → Core x'.
Proof. induction 1; eauto using gmove_core. Qed.
Lemma gmoves_live x x' : rtc gmove x x' → Live x → Live x'.
Proof. induction 1; eauto using gmove_live. Qed.

Lemma gmoves_same x x' : rtc gmove x x' → installations x' = installations x ∧ base x' = base x.
Proof. induction 1 as [|x y z Hm _ IH]; [done|]. destruct Hm. exact IH. Qed.
Lemma refers_same x x' id app a : installations x' = installations x → refers x id app a → refers x' id app a.
Proof. unfold refers. by intros ->. Qed.
Lemma refers_weaken x id app : refers x id app true → refers x id app false.
Proof. intros (r & ? & ? & ?). exists r. by split_and!. Qed.

Lemma latest_None l : latest l = None → l = [].
Proof.
  destruct l as [|e l]; [done|].
  change (latest (e :: l)) with (match latest l with Some b => if (generation b.2 <? generation e.2)%Z then Some e else latest l | None => Some e end).
  destruct (latest l) as [b|]; [|done]. by destruct (_ <? _)%Z.
Qed.
Lemma latest_In l e : latest l = Some e → In e l.
Proof.
  revert e. induction l as [|a l IH]; intros e; [done|].
  change (latest (a :: l)) with (match latest l with Some b => if (generation b.2 <? generation a.2)%Z then Some a else latest l | None => Some a end).
  destruct (latest l) as [b|]; [|by intros [= ->]; left].
  destruct (generation b.2 <? generation a.2)%Z; intros [= ->]; [by left|right; by apply IH].
Qed.
Lemma active_of_Some app x id r : active_of app x = Some (id, r) → installations x !! id = Some r ∧ app_of r = app ∧ i_active (inst r) = true.
Proof.
  unfold active_of. intros H%latest_In. apply filter_In in H as [Hin Hc]. apply list_elem_of_In, elem_of_map_to_list in Hin.
  unfold current in Hc. cbn in Hc. bool_hyps. done.
Qed.
Lemma active_of_refers app x id r : active_of app x = Some (id, r) → refers x id app true.
Proof. intros (? & ? & ?)%active_of_Some. exists r. by split_and!. Qed.
Lemma active_of_None app x id r : active_of app x = None → installations x !! id = Some r → app_of r = app → i_active (inst r) = false.
Proof.
  unfold active_of. intros H%latest_None Hr Ha. destruct (i_active (inst r)) eqn:E; [|done]. exfalso.
  assert (In (id, r) (List.filter (λ e, current app e.2) (map_to_list (installations x)))) as Hin.
  { apply filter_In. split; [by apply list_elem_of_In, elem_of_map_to_list|]. unfold current. cbn. by rewrite Ha, bool_decide_true, E. }
  by rewrite H in Hin.
Qed.
Lemma next_generation_above app x id r : installations x !! id = Some r → app_of r = app → (generation r < next_generation app x)%Z.
Proof.
  intros Hr Ha. unfold next_generation.
  assert (In (id, r) (List.filter (λ e, bool_decide (app_of e.2 = app)) (map_to_list (installations x)))) as Hin.
  { apply filter_In. split; [by apply list_elem_of_In, elem_of_map_to_list|]. cbn. by rewrite Ha, bool_decide_true. }
  induction (List.filter _ _) as [|e l IH]; [done|]. cbn [foldr]. destruct Hin as [->|Hin]; [cbn; lia|]. specialize (IH Hin). lia.
Qed.

Lemma register_core app id x : Core x → Core (register_installation_tx app id x).1.
Proof.
  intros HC. unfold register_installation_tx. destruct (active_of app x) as [[? ?]|] eqn:Ha; [done|].
  destruct (installations x !! id) eqn:Hid; [done|]. pose proof HC as []. split; cbn [fst set_installations installations grants history]; try done.
  - intros j r [[<- <-]|[? ?]]%lookup_insert_Some; eauto.
  - intros i j r s [[<- <-]|[? Hr]]%lookup_insert_Some [[<- <-]|[? Hs]]%lookup_insert_Some Happ Hra Hsa; try done; eauto; exfalso.
    + rewrite (active_of_None app x j s Ha Hs) in Hsa; [done|]. by rewrite <-Happ.
    + rewrite (active_of_None app x i r Ha Hr) in Hra; done.
  - intros i j r s [[<- <-]|[? Hr]]%lookup_insert_Some [[<- <-]|[? Hs]]%lookup_insert_Some Happ Hg; try done; eauto; exfalso; cbn in *.
    + pose proof (next_generation_above app x j s Hs (eq_sym Happ)). lia.
    + pose proof (next_generation_above app x i r Hr Happ). lia.
  - assert (∀ i a b, refers x i a b → refers (register_installation_tx app id x).1 i a b) as Hm.
    { intros i a b (r & Hr & ? & ?). exists r. unfold register_installation_tx. rewrite Ha, Hid. cbn. split_and!; [|done..].
      rewrite lookup_insert_ne; [done|]. intros ->. by rewrite Hid in Hr. }
    unfold register_installation_tx in Hm. rewrite Ha, Hid in Hm. intros j g Hg. destruct (c_refers0 j g Hg). split; by apply Hm.
Qed.
Lemma register_live app id x : Live x → Live (register_installation_tx app id x).1.
Proof.
  intros HL. unfold register_installation_tx. destruct (active_of app x) as [[? ?]|] eqn:Ha; [done|].
  destruct (installations x !! id) eqn:Hid; [done|]. intros j g Hg Hl. cbn in Hg. destruct (HL j g Hg Hl) as [(r & Hr & ? & ?) (s & Hs & ? & ?)].
  split; [exists r|exists s]; cbn; (split_and!; [|done..]); (rewrite lookup_insert_ne; [done|]); intros ->; congruence.
Qed.

Section Preserved.
Context `{!Parsers} (parse_manifest : string → option AppManifest).

Lemma create_tx_cases user id actions body x x' r :
  create_tx parse_manifest user id actions body x = (x', r) →
  (∃ e, r = Err e ∧ x' = x)
  ∨ ∃ x1 row types, r = Ok row ∧ rtc gmove x x1 ∧ grants x1 !! id = None ∧ index_conflict id row (grants x1) = false
      ∧ g_id (grant row) = id ∧ row_checks row = true ∧ g_status (grant row) = "pending" ∧ g_version (grant row) = 1%Z
      ∧ refers x (g_consumer_installation (grant row)) (g_consumer_app (grant row)) true
      ∧ refers x (g_provider_installation (grant row)) (g_provider_app (grant row)) true
      ∧ provider_types parse_manifest x (g_provider_app (grant row)) (g_entity (grant row)) = Ok types
      ∧ validate_requested_fields types (cg_fields body) = Ok (g_fields (grant row))
      ∧ validate_write_fields types actions (cg_write_fields body) = Ok (g_write_fields (grant row))
      ∧ x' = set_grants (<[id := row]> (grants x1)) (history x1 ++ [entry id "created" (Some user) (cg_reason body) (grants x1 !! id) row]) x1.
Proof.
  unfold create_tx. intros Hc. match type of Hc with match ?o with Ok _ => _ | Err _ => _ end = _ => destruct o as [[x2 row2]|e] eqn:Ho end;
    [|injection Hc as <- <-; left; by eexists].
  injection Hc as <- <-. right. cbv zeta in Ho.
  apply bind_ok_iff in Ho as ([ci cr] & Hci & Ho). apply ok_or_ok_iff in Hci. apply bind_ok_iff in Ho as ([pi pr] & Hpi & Ho). apply ok_or_ok_iff in Hpi.
  apply bind_ok_iff in Ho as (types & Hty & Ho). apply bind_ok_iff in Ho as (fields & Hf & Ho). apply bind_ok_iff in Ho as (wfields & Hw & Ho).
  apply bind_ok_iff in Ho as (x1 & Hx1 & Ho). destruct (negb (row_checks _)) eqn:Hck; [done|]. apply negb_false_iff in Hck.
  destruct (bool_decide (is_Some (grants x1 !! id))) eqn:Hid; [done|]. apply bool_decide_eq_false, eq_None_not_Some in Hid.
  destruct (index_conflict _ _ _) eqn:Hi; [done|]. injection Ho as <- <-.
  eexists x1, _, types. split_and!; [done| |done|exact Hi|done|exact Hck|done|done| | |exact Hty|exact Hf|exact Hw|].
  - eapply stale_moves. exact Hx1.
  - by eapply active_of_refers.
  - by eapply active_of_refers.
  - by rewrite Hid.
Qed.
Lemma create_core user id actions body x : Core x → Core (create_tx parse_manifest user id actions body x).1.
Proof.
  intros HC. destruct (create_tx _ _ _ _ _ _) as [x' r] eqn:E. cbn.
  apply create_tx_cases in E as [(e & _ & ->)|(x1 & row & types & _ & Hm & Hn & Hi & Hid & Hck & Hs & _ & Hc & Hp & _ & _ & _ & ->)]; [done|].
  destruct (gmoves_same _ _ Hm) as [E _]. apply core_set; [by eapply gmoves_core|done..| | |].
  - rewrite Hs. intros Hin. exfalso. revert Hin. change ("pending" ∉ ["active"; "disabled"]). by apply (bool_decide_unpack _).
  - by eapply refers_same, refers_weaken.
  - by eapply refers_same, refers_weaken.
Qed.
Lemma create_live user id actions body x : Live x → Live (create_tx parse_manifest user id actions body x).1.
Proof.
  intros HL. destruct (create_tx _ _ _ _ _ _) as [x' r] eqn:E. cbn.
  apply create_tx_cases in E as [(e & _ & ->)|(x1 & row & types & _ & Hm & _ & _ & _ & _ & _ & _ & Hc & Hp & _ & _ & _ & ->)]; [done|].
  destruct (gmoves_same _ _ Hm) as [E _]. pose proof (gmoves_live _ _ Hm HL) as HL1. intros j g. cbn [set_grants grants].
  intros [[<- <-]|[? ?]]%lookup_insert_Some Hg; [|by eapply HL1]. split; by eapply refers_same.
Qed.
End Preserved.

(** ** Removing an app *)

(** A move that ends grants ends every one it is asked to, and leaves those that are
    still live as they were. *)
Lemma move_each_ends op actor reason change ids x x' :
  (∀ g, is_live (change g) = false) →
  move_each op actor reason is_live change ids x = Ok x' →
  (∀ id g, grants x' !! id = Some g → is_live g = true → grants x !! id = Some g ∧ id ∉ ids).
Proof.
  intros Hch. revert x. induction ids as [|i ids IH]; intros x; cbn [move_each].
  { intros [= <-] id g Hg _. split; [done|]. apply not_elem_of_nil. }
  destruct (load_grant x i) as [g0|e] eqn:Hl; [|done]. cbn [result_bind]. apply load_grant_ok in Hl.
  destruct (is_live g0) eqn:Hlive.
  - destruct (transition _ _ _ _ _ _ _ _ _) as [x1 r] eqn:Ht. destruct r as [h|e]; cbn [result_bind]; [|done].
    intros Hm id g Hg Hgl. destruct (IH x1 Hm id g Hg Hgl) as [H1 H2].
    apply transition_cases in Ht as [(e & ? & _)|(g1 & _ & _ & _ & _ & ->)]; [done|]. cbn in H1.
    apply lookup_insert_Some in H1 as [[<- <-]|[Hne H1]]; [by rewrite Hch in Hgl|]. split; [done|]. by apply not_elem_of_cons.
  - intros Hm id g Hg Hgl. destruct (IH x Hm id g Hg Hgl) as [H1 H2]. split; [done|]. apply not_elem_of_cons. split; [|done].
    intros ->. rewrite Hl in H1. injection H1 as ->. by rewrite Hlive in Hgl.
Qed.
Lemma elem_of_ids_where pick x id : id ∈ ids_where pick x ↔ ∃ g, grants x !! id = Some g ∧ pick g = true.
Proof.
  unfold ids_where. rewrite elem_of_sort_strings. change (map fst ?l) with (l.*1). rewrite list_elem_of_fmap. split.
  - intros ([i g] & -> & Hin). apply list_elem_of_In, filter_In in Hin as [Hin Hp]. apply list_elem_of_In, elem_of_map_to_list in Hin. eauto.
  - intros (g & Hg & Hp). exists (id, g). split; [done|]. apply list_elem_of_In, filter_In. split; [|done].
    by apply list_elem_of_In, elem_of_map_to_list.
Qed.
Definition ended (t : Z) (g : GrantRow) : GrantRow := with_revoked_at t (moved "revoked" t g).
Lemma deactivate_cases app actor reason x :
  let x1 := {| base := revoke_app app (base x); installations := deactivated app <$> installations x; grants := grants x; history := history x |} in
  (deactivate_installation_tx app actor reason x).1 = x ∧ is_ok (deactivate_installation_tx app actor reason x).2 = false
  ∨ ∃ x', (deactivate_installation_tx app actor reason x).1 = x' ∧ rtc gmove x1 x'
      ∧ ∀ id g, grants x' !! id = Some g → is_live g = true → grants x !! id = Some g ∧ involves app x1 g = false.
Proof.
  intros x1. unfold deactivate_installation_tx, or_rollback. fold x1. cbv zeta.
  destruct (move_each _ _ _ _ _ _ _) as [x'|e] eqn:E; [right|by left]. exists x'. split; [done|]. split.
  - eapply move_each_moves; [|exact E]. intros g Hg. split; [done|]. by apply successor_moved, (bool_decide_unpack _).
  - intros id g Hg Hl. destruct (move_each_ends _ _ _ (ended (now x)) _ _ _ (λ _, eq_refl) E id g Hg Hl) as [H1 H2]. split; [done|].
    apply Bool.not_true_iff_false. intros Hi. apply H2, elem_of_ids_where. exists g. split; [done|]. by rewrite Hl, Hi.
Qed.
Lemma deactivated_keeps app r : app_of (deactivated app r) = app_of r ∧ i_id (inst (deactivated app r)) = i_id (inst r)
  ∧ generation (deactivated app r) = generation r ∧ (i_active (inst (deactivated app r)) = true → i_active (inst r) = true ∧ app_of r ≠ app).
Proof.
  unfold deactivated, current. destruct (bool_decide (app_of r = app)) eqn:E, (i_active (inst r)) eqn:Ha; cbn [andb]; split_and!; try done.
  all: intros Hf; try done; cbn in Hf; try congruence. split; [done|]. by apply bool_decide_eq_false in E.
Qed.
Lemma deactivated_core app x :
  Core x → Core {| base := revoke_app app (base x); installations := deactivated app <$> installations x; grants := grants x; history := history x |}.
Proof.
  intros HC. pose proof HC as []. split; cbn [installations grants history]; try done.
  - intros id r. rewrite lookup_fmap. intros (r0 & Hr & ->)%fmap_Some. destruct (deactivated_keeps app r0) as (_ & -> & _). eauto.
  - intros i j r s. rewrite !lookup_fmap. intros (r0 & Hr & ->)%fmap_Some (s0 & Hs & ->)%fmap_Some.
    destruct (deactivated_keeps app r0) as (-> & _ & _ & Hra), (deactivated_keeps app s0) as (-> & _ & _ & Hsa).
    intros Happ [H1 _]%Hra [H2 _]%Hsa. eauto.
  - intros i j r s. rewrite !lookup_fmap. intros (r0 & Hr & ->)%fmap_Some (s0 & Hs & ->)%fmap_Some.
    destruct (deactivated_keeps app r0) as (-> & _ & -> & _), (deactivated_keeps app s0) as (-> & _ & -> & _). eauto.
  - intros id g Hg. destruct (c_refers0 id g Hg) as [(r & Hr & Ha & _) (s & Hs & Hb & _)].
    split; [exists (deactivated app r)|exists (deactivated app s)]; cbn; rewrite lookup_fmap; [rewrite Hr|rewrite Hs]; split_and!; try done;
      by rewrite (proj1 (deactivated_keeps app _)).
Qed.
Lemma deactivate_core app actor reason x : Core x → Core (deactivate_installation_tx app actor reason x).1.
Proof.
  intros HC. destruct (deactivate_cases app actor reason x) as [[-> _]|(x' & -> & Hm & _)]; [done|]. eapply gmoves_core; [exact Hm|].
  by apply deactivated_core.
Qed.
Lemma deactivate_live app actor reason x : Core x → Live x → Live (deactivate_installation_tx app actor reason x).1.
Proof.
  intros HC HL. destruct (deactivate_cases app actor reason x) as [[-> _]|(x' & -> & Hm & Hk)]; [done|]. intros id g Hg Hl.
  destruct (Hk id g Hg Hl) as [Hg0 Hi]. destruct (HL id g Hg0 Hl) as [(r & Hr & Ha & Hra) (s & Hs & Hb & Hsb)].
  destruct (gmoves_same _ _ Hm) as [E _]. cbn in E. unfold involves in Hi. cbn in Hi. rewrite !lookup_fmap, Hr, Hs in Hi. cbn in Hi.
  apply orb_false_iff in Hi as [Hi1 Hi2]. apply bool_decide_eq_false in Hi1, Hi2.
  rewrite (proj1 (deactivated_keeps app _)) in Hi1. rewrite (proj1 (deactivated_keeps app _)) in Hi2.
  split; [exists r|exists s]; rewrite E, lookup_fmap; [rewrite Hr|rewrite Hs]; split_and!; try done; cbn; f_equal; unfold deactivated, current;
    by rewrite bool_decide_false.
Qed.

Lemma core_loads x id g : Core x → grants x !! id = Some g → load_grant x id = Ok g.
Proof.
  intros HC Hg. destruct (c_refers x HC id g Hg) as [(r & Hr & _) (s & Hs & _)]. unfold load_grant. by rewrite Hg, Hr, Hs.
Qed.
Lemma move_each_total op actor reason guard change ids x :
  Core x → (∀ g, indexed (change g) = false) → (∀ g, guard g = true → is_live g = true ∧ successor g (change g)) →
  (∀ id, id ∈ ids → is_Some (grants x !! id)) → ∃ x', move_each op actor reason guard change ids x = Ok x'.
Proof.
  intros HC Hch Hgd. revert x HC. induction ids as [|i ids IH]; intros x HC Hids; [by eexists|]. cbn [move_each].
  destruct (Hids i) as [g Hg]; [by left|]. rewrite (core_loads x i g HC Hg). cbn [result_bind].
  destruct (guard g) eqn:E; [|apply IH; [done|]; intros id Hid; apply Hids; by right].
  pose proof (transition_move op actor reason guard change INTERNAL_DB INTERNAL_DB i x (λ g _, Hgd g)) as Hm.
  unfold transition in *. rewrite (core_loads x i g HC Hg), E in *. unfold index_conflict in *. rewrite Hch in *. cbn in Hm |- *.
  apply IH; [by eapply gmoves_core|]. intros id Hid. cbn. destruct (decide (i = id)) as [<-|Hne]; [rewrite lookup_insert_eq; by eexists|].
  rewrite lookup_insert_ne by done. apply Hids. by right.
Qed.

(** ** Through any sequence of transactions *)

(** What a grant may have become: the same terms, and a higher version unless it is
    the same row; a grant at its end stays as it is. *)
Definition later (x x' : XState) : Prop :=
  ∀ id g, grants x !! id = Some g →
    ∃ h, grants x' !! id = Some h ∧ same_terms g h
         ∧ (h = g ∨ (is_live g = true ∧ (g_version (grant g) < g_version (grant h))%Z)).
#[export] Instance later_pre : PreOrder later.
Proof.
  split.
  - intros x id g Hg. exists g. split_and!; [done|reflexivity|by left].
  - intros x y z Hxy Hyz id g Hg. destruct (Hxy id g Hg) as (h & Hh & Ht & Hc). destruct (Hyz id h Hh) as (k & Hk & Ht' & Hc').
    exists k. split_and!; [done|by etrans|]. destruct Hc as [->|[Hl Hv]]; [done|]. right. split; [done|].
    destruct Hc' as [->|[_ Hv']]; lia.
Qed.
Lemma gmove_later x x' : gmove x x' → later x x'.
Proof.
  intros [id g h op actor reason x0 Hg Hl Hs Hi] j k Hk. cbn [set_grants grants]. destruct (decide (id = j)) as [<-|Hne].
  - rewrite Hg in Hk. injection Hk as <-. exists h. rewrite lookup_insert_eq. split_and!; [done|by apply s_terms|]. right. split; [done|].
    rewrite (s_version g h Hs). lia.
  - exists k. rewrite lookup_insert_ne by done. split_and!; [done|reflexivity|by left].
Qed.
Lemma gmoves_later x x' : rtc gmove x x' → later x x'.
Proof. induction 1 as [|x y z H _ IH]; [reflexivity|]. etrans; [by apply gmove_later|done]. Qed.

Section Reachable.
Context `{!Parsers} (parse_manifest : string → option AppManifest).
Notation xstep := (xstep parse_manifest).

Lemma checks_status g : row_checks g = true → g_status (grant g) ∈ STATUSES.
Proof. unfold row_checks. intros H'. rewrite !andb_true_iff in H'. destruct_and!. by eapply bool_decide_eq_true. Qed.
Lemma tx_moves_or t x : Core x →
  rtc gmove x (run_tx parse_manifest t x) ∨ (∃ app id, t = TRegister app id) ∨ (∃ app actor reason, t = TDeactivate app actor reason)
  ∨ ∃ user id actions body, t = TCreate user id actions body.
Proof.
  intros HC. destruct t; cbn [run_tx].
  1: left; apply expire_moves.
  1: right; right; right; by eauto 10.
  1: left; apply approve_moves.
  1: left; apply disable_moves.
  1: left; apply enable_moves.
  1: left; apply revoke_moves; intros g Hg; eapply checks_status, c_checks; eauto.
  1: right; left; by eauto.
  right; right; left; by eauto.
Qed.
Lemma xstep_inv x x' : xstep x x' → Core x → Live x → Core x' ∧ Live x'.
Proof.
  intros [t x0|y x0 Ht] HC HL.
  - destruct (tx_moves_or t x0 HC) as [Hm|[(app & id & ->)|[(app & actor & reason & ->)|(user & id & actions & body & ->)]]].
    + split; [by eapply gmoves_core|by eapply gmoves_live].
    + split; [by apply register_core|by apply register_live].
    + split; [by apply deactivate_core|by apply deactivate_live].
    + split; [by apply create_core|by apply create_live].
  - split; [destruct HC; by split|done].
Qed.
Lemma xsteps_inv x x' : rtc xstep x x' → Core x → Live x → Core x' ∧ Live x'.
Proof. induction 1 as [|x y z Hs _ IH]; [done|]. intros HC HL. destruct (xstep_inv _ _ Hs HC HL). auto. Qed.
Lemma xstep_later x x' : xstep x x' → Core x → later x x'.
Proof.
  intros [t x0|y x0 Ht] HC.
  - destruct (tx_moves_or t x0 HC) as [Hm|[(app & id & ->)|[(app & actor & reason & ->)|(user & id & actions & body & ->)]]].
    + by apply gmoves_later.
    + cbn. unfold register_installation_tx. repeat case_match; cbn; intros j k Hg; exists k; split_and!; first [done|reflexivity|by left].
    + cbn [run_tx]. destruct (deactivate_cases app actor reason x0) as [[-> _]|(x2 & -> & Hm & _)]; [reflexivity|].
      intros id g Hg. exact (gmoves_later _ _ Hm id g Hg).
    + cbn [run_tx]. destruct (create_tx _ _ _ _ _ _) as [x2 r] eqn:E. cbn [fst].
      apply create_tx_cases in E as [(e & _ & ->)|(x1 & row & types & _ & Hm & Hn & _ & _ & _ & _ & _ & _ & _ & _ & _ & _ & ->)]; [reflexivity|].
      intros j g Hg. destruct (gmoves_later _ _ Hm j g Hg) as (h & Hh & Ht & Hc). exists h. cbn [set_grants grants].
      rewrite lookup_insert_ne; [done|]. intros <-. by rewrite Hn in Hh.
  - intros id g Hg. exists g. split_and!; [done|reflexivity|by left].
Qed.
Lemma xsteps_later x x' : rtc xstep x x' → Core x → Live x → later x x'.
Proof.
  induction 1 as [|x y z H1 _ IH]; intros HC HL; [reflexivity|]. destruct (xstep_inv _ _ H1 HC HL).
  etrans; [by apply xstep_later|auto].
Qed.

(** No app is installed and nothing is granted. *)
Definition start (y : Sys) : XState := {| base := y; installations := ∅; grants := ∅; history := [] |}.
Lemma start_inv y : Core (start y) ∧ Live (start y).
Proof. split; [split|]; try (by intros id; cbn; rewrite lookup_empty); intros *; cbn; try rewrite lookup_empty; done. Qed.

(** [C20] Whatever is requested, in any order and number, from an empty system on: an
    app has at most one active installation and its generations never repeat; two
    installations have at most one pending or active grant for an entity; a grant that
    is pending, active or disabled ties two active installations of its two apps, and
    an active or disabled one was approved by someone; every row keeps the table's
    checks; and the history of each grant replays, state by state, to the row it is. *)
Theorem grants_invariant y x : rtc xstep (start y) x → Core x ∧ Live x.
Proof. intros H'. destruct (start_inv y). by eapply xsteps_inv. Qed.

(** ** Programs among everything else *)

Notation runs := (runs xstep).
Lemma runs_tx {A : Type} t (f : XState → XState * A) x x' r :
  (∀ x, run_tx parse_manifest t x = (f x).1) → runs (atomic f) x x' r → rtc xstep x x'.
Proof.
  intros E (x1 & H1 & _ & H3)%runs_atomic. etrans; [exact H1|]. eapply rtc_l; [|exact H3]. rewrite <-E. constructor.
Qed.
Lemma runs_expire x x' u : runs (atomic expire_stale_grants) x x' (Ok u) → rtc xstep x x'.
Proof. by apply (runs_tx TExpire). Qed.

(** ** Operations under a grant *)

Lemma in_view_grants x c : In c (cross_app_collection_grants (view x)) ↔ ∃ id g, grants x !! id = Some g ∧ c = grant g.
Proof.
  cbn. rewrite in_map_iff. split.
  - intros ([id g] & <- & Hin). exists id, g. split; [|done]. by apply elem_of_map_to_list, list_elem_of_In.
  - intros (id & g & Hg & ->). exists (id, g). split; [done|]. by apply list_elem_of_In, elem_of_map_to_list.
Qed.
Lemma highest_In l c : highest l = Some c → In c l.
Proof.
  revert c. induction l as [|a l IH]; intros c; [done|].
  change (highest (a :: l)) with (match highest l with Some h => if (g_version h <? g_version a)%Z then Some a else highest l | None => Some a end).
  destruct (highest l) as [h|]; [|by intros [= ->]; left]. destruct (_ <? _)%Z; intros [= ->]; [by left|right; by apply IH].
Qed.
Lemma scope_of_ok requested written action c a :
  scope_of requested written action c = Ok a →
  a = {| ar_grant_id := g_id c; ar_grant_version := g_version c; ar_consumer_app := g_consumer_app c;
         ar_provider_app := g_provider_app c; ar_consumer_installation := g_consumer_installation c;
         ar_provider_installation := g_provider_installation c; ar_entity := g_entity c; ar_action := action;
         ar_fields := g_fields c; ar_write_fields := g_write_fields c |}
  ∧ (∀ f, f ∈ requested → f ∈ g_fields c) ∧ (∀ f, f ∈ written → f ∈ g_write_fields c ∧ is_system_field f = false)
  ∧ (action ∉ WRITING → written = []).
Proof.
  unfold scope_of. destruct (_ || _); [done|]. destruct (forallb _ requested) eqn:Hr; cbn [negb]; [|done].
  destruct (negb (bool_decide (action ∈ WRITING)) && _) eqn:Hw; [done|]. destruct (existsb _ written) eqn:He; [done|].
  intros [= <-]. split_and!; [done|..].
  - intros f Hf. rewrite forallb_forall in Hr. by eapply bool_decide_eq_true_1, Hr, list_elem_of_In.
  - intros f Hf. apply Bool.not_true_iff_false in He. destruct (bool_decide (f ∈ g_write_fields c)) eqn:E1, (is_system_field f) eqn:E2;
      try (exfalso; apply He, existsb_exists; exists f; split; [by apply list_elem_of_In|by rewrite E1, E2]).
    by apply bool_decide_eq_true in E1.
  - intros Hn. rewrite bool_decide_false in Hw by done. cbn in Hw. by apply negb_false_iff, bool_decide_eq_true in Hw.
Qed.
Lemma authorize_ok consumer provider entity action requested written x x' a :
  runs (authorize_cross_app_operation parse_manifest consumer provider entity action requested written) x x' (Ok a) →
  ∃ x1 c, rtc xstep x x1 ∧ rtc xstep x1 x' ∧ In c (cross_app_collection_grants (view x1))
    ∧ grant_matches (view x1) consumer provider entity action c = true ∧ scope_of requested written action c = Ok a ∧ valid_action action = true.
Proof.
  unfold authorize_cross_app_operation. intros (? & x1 & H1 & Hr)%runs_bind. apply runs_bind in Hr as ([] & x2 & H2 & Hr).
  apply runs_bind in Hr as ([] & x3 & H3 & Hr). apply runs_bind in Hr as (c & x4 & H4 & Hr). apply runs_pure in Hr as [Hs H5].
  apply runs_expire in H1. apply runs_pure in H2 as [Hv H2]. apply runs_query in H3 as (y3 & H3 & _ & H3').
  apply runs_query in H4 as (y4 & H4 & Hc & H4'). apply ok_or_ok_iff, highest_In, filter_In in Hc as [Hin Hm].
  exists y4, c. split_and!; [|by etrans|done|done|done|].
  { etrans; [exact H1|]. etrans; [exact H2|]. etrans; [exact H3|]. by etrans. }
  symmetry in Hv. do 4 apply bind_ok_iff in Hv as (? & _ & Hv). by apply ensure_ok_iff in Hv.
Qed.

Lemma operation_granted consumer provider entity action requested written x x1 x2 a :
  Core x → Live x →
  runs (authorize_cross_app_operation parse_manifest consumer provider entity action requested written) x x1 (Ok a) →
  rtc xstep x1 x2 → lock_cross_app_read_in_tx (view x2) a = Ok tt →
  ∃ g, grants x2 !! ar_grant_id a = Some g ∧ g_status (grant g) = "active" ∧ unexpired_row x2 g = true ∧ is_Some (approved_by g)
    ∧ g_consumer_app (grant g) = consumer ∧ g_provider_app (grant g) = provider ∧ g_entity (grant g) = entity ∧ action ∈ g_actions (grant g)
    ∧ refers x2 (g_consumer_installation (grant g)) consumer true ∧ refers x2 (g_provider_installation (grant g)) provider true
    ∧ ar_fields a = g_fields (grant g) ∧ (∀ f, f ∈ requested → f ∈ ar_fields a)
    ∧ (∀ f, f ∈ written → f ∈ g_write_fields (grant g) ∧ is_system_field f = false) ∧ (action ∉ WRITING → written = [])
    ∧ ∃ y, rtc xstep x y ∧ rtc xstep y x1 ∧ grants y !! ar_grant_id a = Some g.
Proof.
  intros HC HL (y & c & Hxy & Hyx & Hin & Hm & Hs & _)%authorize_ok H12 Hlock.
  destruct (xsteps_inv _ _ Hxy HC HL) as [HCy HLy]. assert (rtc xstep y x2) as Hy2 by (by etrans).
  destruct (xsteps_inv _ _ Hy2 HCy HLy) as [HC2 HL2]. pose proof (xsteps_later _ _ Hy2 HCy HLy) as Hlat.
  destruct (scope_of_ok _ _ _ _ _ Hs) as (-> & Hreq & Hwr & Hno). cbn [ar_grant_id ar_fields].
  apply in_view_grants in Hin as (id & g & Hg & ->). rewrite (c_grant_ids y HCy id g Hg).
  apply ensure_ok_iff, existsb_exists in Hlock as (c2 & Hin2 & Hv). apply in_view_grants in Hin2 as (id2 & g2 & Hg2 & ->).
  cbn [ar_grant_id ar_consumer_app ar_provider_app ar_entity ar_grant_version] in Hv. unfold grant_matches in Hm. bool_hyps.
  assert (id2 = id) as ->.
  { pose proof (c_grant_ids x2 HC2 id2 g2 Hg2). pose proof (c_grant_ids y HCy id g Hg). congruence. }
  destruct (Hlat id g Hg) as (h & Hh & Ht & Hch). rewrite Hg2 in Hh. injection Hh as <-.
  assert (g2 = g) as -> by (destruct Hch as [?|[_ Hlt]]; [done|lia]).
  assert (is_live g = true) as Hl by (by eapply live_status).
  destruct (HL2 id g Hg2 Hl) as [Hr1 Hr2]. exists g. split_and!; try done; try congruence.
  - eapply (c_approved x2 HC2); [done|]. by match goal with E : g_status _ = _ |- _ => rewrite E end; apply (bool_decide_unpack _).
  - exists y. by split_and!.
Qed.

(** An operation that passes the check inside its transaction runs under a grant
    that is active, unexpired and approved by someone at that moment, between two
    active installations of exactly the apps, entity and action it was authorised for,
    covering every field it reads and writes: the very row, unchanged, it was
    authorised with, whatever was requested in between. *)
Theorem authorized_operation_is_granted consumer provider entity action requested written x x1 x2 a :
  Core x → Live x →
  runs (authorize_cross_app_operation parse_manifest consumer provider entity action requested written) x x1 (Ok a) →
  rtc xstep x1 x2 → lock_cross_app_read_in_tx (view x2) a = Ok tt →
  ∃ g, grants x2 !! ar_grant_id a = Some g ∧ g_status (grant g) = "active" ∧ unexpired_row x2 g = true ∧ is_Some (approved_by g)
    ∧ g_consumer_app (grant g) = consumer ∧ g_provider_app (grant g) = provider ∧ g_entity (grant g) = entity ∧ action ∈ g_actions (grant g)
    ∧ refers x2 (g_consumer_installation (grant g)) consumer true ∧ refers x2 (g_provider_installation (grant g)) provider true
    ∧ ar_fields a = g_fields (grant g) ∧ (∀ f, f ∈ requested → f ∈ ar_fields a)
    ∧ (∀ f, f ∈ written → f ∈ g_write_fields (grant g) ∧ is_system_field f = false) ∧ (action ∉ WRITING → written = [])
    ∧ ∃ y, rtc xstep x y ∧ rtc xstep y x1 ∧ grants y !! ar_grant_id a = Some g.
Proof. apply operation_granted. Qed.

Lemma involves_deactivated app x g :
  involves app {| base := revoke_app app (base x); installations := deactivated app <$> installations x; grants := grants x; history := history x |} g
  = involves app x g.
Proof.
  unfold involves. cbn. rewrite !lookup_fmap. f_equal;
    (destruct (installations x !! _) as [r|]; cbn; [|done]; by rewrite (proj1 (deactivated_keeps app r))).
Qed.
(** Deactivation ends every grant of the app, for good. *)
Lemma deactivation_final app actor reason x x2 id g :
  Core x → Live x → rtc xstep (deactivate_installation_tx app actor reason x).1 x2 →
  grants x !! id = Some g → involves app x g = true →
  (deactivate_installation_tx app actor reason x).2 = Ok tt
  ∧ (∃ h, grants x2 !! id = Some h ∧ same_terms g h ∧ is_live h = false)
  ∧ ∀ a, ar_grant_id a = id → lock_cross_app_read_in_tx (view x2) a ≠ Ok tt.
Proof.
  intros HC HL H12 Hg Hi. pose proof (deactivate_core app actor reason x HC) as HC1. pose proof (deactivate_live app actor reason x HC HL) as HL1.
  destruct (xsteps_inv _ _ H12 HC1 HL1) as [HC2 _].
  assert ((deactivate_installation_tx app actor reason x).2 = Ok tt) as Hok.
  { unfold deactivate_installation_tx, or_rollback. cbv zeta.
    destruct (move_each_total "auto_revoked" actor reason is_live (ended (now x))
                (ids_where (λ g, is_live g && involves app {| base := revoke_app app (base x); installations := deactivated app <$> installations x;
                                   grants := grants x; history := history x |} g)
                   {| base := revoke_app app (base x); installations := deactivated app <$> installations x; grants := grants x; history := history x |})
                {| base := revoke_app app (base x); installations := deactivated app <$> installations x; grants := grants x; history := history x |})
      as [x' E].
    - by apply deactivated_core.
    - done.
    - intros k Hk. split; [done|]. by apply successor_moved, (bool_decide_unpack _).
    - intros i (k & Hk & _)%elem_of_ids_where. by eexists.
    - unfold ended in E. by rewrite E. }
  split; [done|].
  assert (∃ h, grants (deactivate_installation_tx app actor reason x).1 !! id = Some h ∧ same_terms g h ∧ is_live h = false) as (h & Hh & Ht & Hlh).
  { assert (later x (deactivate_installation_tx app actor reason x).1) as Hlat by (apply (xstep_later _ _ (xs_tx _ (TDeactivate app actor reason) x) HC)).
    destruct (Hlat id g Hg) as (h & Hh & Ht & _). exists h. split_and!; [done|done|]. apply Bool.not_true_iff_false. intros Hl.
    destruct (deactivate_cases app actor reason x) as [[_ E]|(x' & E & _ & Hk)]; [by rewrite Hok in E|].
    rewrite E in Hh. destruct (Hk id h Hh Hl) as [Hg' Hn]. rewrite Hg in Hg'. injection Hg' as <-.
    rewrite involves_deactivated in Hn. congruence. }
  pose proof (xsteps_later _ _ H12 HC1 HL1 id h Hh) as (k & Hk & Htk & [->|[Hl _]]); [|congruence].
  split; [exists h; by split_and!|]. intros a Ha Hlock.
  apply ensure_ok_iff, existsb_exists in Hlock as (c & Hin & Hv). apply in_view_grants in Hin as (i & g2 & Hg2 & ->). bool_hyps.
  assert (i = id) as -> by (pose proof (c_grant_ids x2 HC2 i g2 Hg2); congruence). rewrite Hk in Hg2. injection Hg2 as <-.
  assert (is_live h = true) by (by eapply live_status). congruence.
Qed.
(** [C21] Uninstalling an app always succeeds and is final: every grant an installation
    of it had part in is at its end and stays so, through reinstallations and anything
    else, and no capability for it passes the check again. *)
Theorem uninstall_is_final app actor reason x x2 id g :
  Core x → Live x → rtc xstep (deactivate_installation_tx app actor reason x).1 x2 →
  grants x !! id = Some g → involves app x g = true →
  (deactivate_installation_tx app actor reason x).2 = Ok tt
  ∧ (∃ h, grants x2 !! id = Some h ∧ same_terms g h ∧ is_live h = false)
  ∧ ∀ a, ar_grant_id a = id → lock_cross_app_read_in_tx (view x2) a ≠ Ok tt.
Proof. apply deactivation_final. Qed.

(** ** Who decides *)

Lemma runs_admin user app x x' u :
  runs (admin_or_provider_admin user app) x x' (Ok u) →
  ∃ y, rtc xstep x y ∧ rtc xstep y x'
    ∧ (has_permission_db (xpool y) user APPROVE_PERMISSION = Ok true ∨ has_permission_db (xpool y) user (provider_key app) = Ok true).
Proof.
  unfold admin_or_provider_admin. intros (global & x1 & H1 & Hr)%runs_bind. apply runs_bind in Hr as (provider & x2 & H2 & Hr).
  apply runs_query in H1 as (y1 & H1 & Hg & H1'). apply runs_query in H2 as (y2 & H2 & Hp & H2').
  apply runs_pure in Hr as [Ho H3]. destruct global.
  - exists y1. split_and!; [done| |by left]. etrans; [exact H1'|]. etrans; [exact H2|]. by etrans.
  - destruct provider; [|done]. exists y2. split_and!; [|by etrans|by right]. etrans; [exact H1|]. by etrans.
Qed.
(** A grant is approved only by someone who, during that very request, holds the
    permission to approve grants or to approve those of the providing app, and only
    while it is pending and unexpired; what is approved are the terms requested. *)
Theorem only_the_authorised_approve user id reason x x' h :
  Core x → Live x → runs (approve_grant user id reason) x x' (Ok h) →
  ∃ y z g, rtc xstep x y ∧ rtc xstep y z
    ∧ (has_permission_db (xpool y) user APPROVE_PERMISSION = Ok true
       ∨ has_permission_db (xpool y) user (provider_key (g_provider_app (grant h))) = Ok true)
    ∧ grants z !! id = Some g ∧ g_status (grant g) = "pending" ∧ unexpired_row z g = true
    ∧ same_terms g h ∧ g_status (grant h) = "active" ∧ g_version (grant h) = (g_version (grant g) + 1)%Z ∧ approved_by h = Some user
    ∧ grants (approve_tx user id reason z).1 !! id = Some h ∧ rtc xstep (approve_tx user id reason z).1 x'.
Proof.
  intros HC HL. unfold approve_grant. intros (u & x1 & H1 & Hr)%runs_bind. apply runs_bind in Hr as (g0 & x2 & H2 & Hr).
  apply runs_bind in Hr as (u2 & x3 & H3 & Hr). apply runs_expire in H1. apply runs_query in H2 as (y2 & H2 & Hg0 & H2').
  apply runs_admin in H3 as (y & H3 & H3' & Hperm). apply runs_atomic in Hr as (z & Hz & Htx & Hx').
  destruct (xsteps_inv _ _ H1 HC HL) as [HC1 HL1]. destruct (xsteps_inv _ _ H2 HC1 HL1) as [HCy2 HLy2].
  assert (rtc xstep y2 z) as Hy2z. { etrans; [exact H2'|]. etrans; [exact H3|]. by etrans. }
  apply load_grant_ok in Hg0. destruct (xsteps_later _ _ Hy2z HCy2 HLy2 id g0 Hg0) as (g & Hg & Ht & _).
  destruct (approve_tx user id reason z) as [x4 r] eqn:E. pose proof E as E0. cbn in Htx. subst r. unfold approve_tx in E.
  apply transition_cases in E as [(e & ? & _)|(g1 & Hl & Hgd & _ & Hh & ->)]; [done|]. injection Hh as ->.
  apply load_grant_ok in Hl. rewrite Hg in Hl. injection Hl as <-. unfold status_is in Hgd. bool_hyps.
  assert (same_terms g (with_reason reason (with_approver user (moved "active" (now z) g)))) as Hsame by terms.
  exists y, z, g. split_and!; try done.
  - etrans; [exact H1|]. etrans; [exact H2|]. etrans; [exact H2'|exact H3].
  - etrans; [exact H3'|exact Hz].
  - destruct Ht as (s & v & E & _). cbn. rewrite E. exact Hperm.
  - rewrite E0. cbn [fst set_grants grants]. apply lookup_insert_eq.
  - by rewrite E0.
Qed.

Lemma elem_of_push_new a seen l : a ∈ push_new seen l ↔ a ∈ seen ∨ a ∈ l.
Proof.
  revert seen. induction l as [|b l IH]; intros seen; cbn [push_new].
  - rewrite list_elem_of_In, <-in_rev, <-list_elem_of_In. split; [by left|]. intros [?|?%not_elem_of_nil]; done.
  - destruct (bool_decide (b ∈ seen)) eqn:E; rewrite IH, elem_of_cons.
    + apply bool_decide_eq_true in E. split; [intros [?|?]; auto|]. intros [?|[->|?]]; auto.
    + rewrite elem_of_cons. tauto.
Qed.
Lemma ok_inj {E A : Type} (a b : A) : Ok (E := E) a = Ok b → a = b.
Proof. by intros [= ->]. Qed.
Lemma requested_fields_ok types requested fields :
  validate_requested_fields types requested = Ok fields →
  (∀ f, f ∈ fields → ∃ t, types !! f = Some t ∧ (f_sensitive t = false ∨ f ∈ SYSTEM_FIELDS))
  ∧ (∀ f, f ∈ SYSTEM_FIELDS → is_Some (types !! f) → f ∈ fields)
  ∧ (∀ l f, requested = Some l → f ∈ l → f ∈ fields).
Proof.
  unfold validate_requested_fields. intros Hv. apply bind_ok_iff in Hv as (l & Hl & Hv). apply bind_ok_iff in Hv as ([] & Hall & Hv).
  apply ok_inj in Hv. subst fields. apply try_for_each_ok_iff in Hall. rewrite Forall_forall in Hall. split_and!.
  - intros f. rewrite elem_of_sort_strings, elem_of_app, elem_of_push_new. intros [[?%not_elem_of_nil|Hf]|Hf]; [done| |].
    + specialize (Hall f Hf). cbv beta in Hall. unfold is_readable in Hall. destruct (types !! f) as [t|]; [|done]. exists t. split; [done|left]. by destruct (f_sensitive t).
    + apply list_elem_of_In, filter_In in Hf as [Hin Hf]. bool_hyps.
      match goal with S : is_Some (types !! f) |- _ => destruct S as [t Ht] end.
      exists t. split; [done|right]. by apply list_elem_of_In.
  - intros f Hf Hs. rewrite elem_of_sort_strings, elem_of_app, elem_of_push_new. destruct (decide (f ∈ l)); [by left; right|right].
    apply list_elem_of_In, filter_In. split; [by apply list_elem_of_In|]. by rewrite bool_decide_true, bool_decide_false.
  - intros l' f -> Hf. rewrite elem_of_sort_strings, elem_of_app, elem_of_push_new. left. right. destruct l' as [|a l']; [done|]. by injection Hl as <-.
Qed.
Lemma write_fields_ok types actions requested fields :
  validate_write_fields types actions requested = Ok fields →
  ∀ f, f ∈ fields → is_readable types f = true ∧ is_system_field f = false ∧ overlaps actions WRITING = true.
Proof.
  unfold validate_write_fields. fold (overlaps actions WRITING). destruct (overlaps actions WRITING); cbn [negb].
  - destruct requested as [[|a l]|]; try done. intros Hv. apply bind_ok_iff in Hv as ([] & Hall & Hv). apply ok_inj in Hv. subst fields.
    apply try_for_each_ok_iff in Hall. rewrite Forall_forall in Hall. intros f. rewrite elem_of_sort_strings, elem_of_push_new.
    intros [?%not_elem_of_nil|Hf]; [done|]. specialize (Hall f Hf). cbv beta in Hall. by destruct (is_system_field f), (is_readable types f).
  - destruct requested as [[|a l]|]; try done; intros [= <-] f Hf; by apply not_elem_of_nil in Hf.
Qed.
Lemma provider_system_readable x app entity types f :
  provider_types parse_manifest x app entity = Ok types → f ∈ SYSTEM_FIELDS →
  types !! f = Some (readable (if decide (f = "id") then FUuid else FTimestamp)).
Proof.
  unfold provider_types. intros Hp. apply bind_ok_iff in Hp as (m & _ & Hp). apply bind_ok_iff in Hp as (e & _ & Hp).
  apply map_err_ok_iff in Hp. destruct (field_types_system_readable _ _ _ Hp) as (H1 & H2 & H3). intros Hf.
  repeat (apply elem_of_cons in Hf as [->|Hf]; [done|]). by apply not_elem_of_nil in Hf.
Qed.
(** A grant is created only by someone who may manage grants, as a pending first
    version between two different apps' active installations, with explicit fields of
    the provider's entity: readable ones, the system fields always among them, and for
    writing only readable fields that are not the system's. *)
Theorem created_grant_is_scoped user id locked body x x' row :
  Core x → Live x → runs (create_grant parse_manifest user id locked body) x x' (Ok row) →
  ∃ y z types, rtc xstep x y ∧ rtc xstep y z ∧ rtc xstep z x' ∧ require_perm (xpool y) user MANAGEMENT_PERMISSION = Ok tt
    ∧ provider_types parse_manifest z (g_provider_app (grant row)) (g_entity (grant row)) = Ok types
    ∧ grants z !! id = None ∧ g_status (grant row) = "pending" ∧ g_version (grant row) = 1%Z ∧ row_checks row = true
    ∧ refers z (g_consumer_installation (grant row)) (g_consumer_app (grant row)) true
    ∧ refers z (g_provider_installation (grant row)) (g_provider_app (grant row)) true
    ∧ (∀ f, f ∈ g_fields (grant row) → is_readable types f = true) ∧ (∀ f, f ∈ SYSTEM_FIELDS → f ∈ g_fields (grant row))
    ∧ (∀ f, f ∈ g_write_fields (grant row) → is_readable types f = true ∧ is_system_field f = false).
Proof.
  intros HC HL. unfold create_grant. intros ([] & x1 & H1 & Hr)%runs_bind. apply runs_bind in Hr as (actions & x2 & H2 & Hr).
  apply runs_query in H1 as (y & H1 & Hp & H1'). apply runs_query in H2 as (y2 & H2 & _ & H2'). destruct locked; [|by apply runs_pure in Hr as [? _]].
  pose proof (runs_tx (TCreate user id actions body) _ _ _ _ (λ _, eq_refl) Hr) as H3. apply runs_atomic in Hr as (z & Hz & Htx & Hx').
  destruct (create_tx _ _ _ _ _ _) as [x4 r] eqn:E. cbn in Htx. subst r.
  assert (rtc xstep y z) as Hyz. { etrans; [exact H1'|]. etrans; [exact H2|]. by etrans. }
  assert (rtc xstep x z) as Hxz by (by etrans). destruct (xsteps_inv _ _ Hxz HC HL) as [HCz HLz].
  assert (rtc xstep z x') as Hzx. { eapply rtc_l; [|exact Hx']. change x4 with (x4, Ok row : result ApiError GrantRow).1. rewrite <-E. apply (xs_tx _ (TCreate user id actions body)). }
  apply create_tx_cases in E as [(e & ? & _)|(x5 & row' & types & Hrow & Hm & Hn & _ & _ & Hck & Hs & Hv & Hc & Hpr & Hty & Hf & Hw & _)]; [done|].
  injection Hrow as ->. destruct (requested_fields_ok _ _ _ Hf) as (Hf1 & Hf2 & _). exists y, z, types. split_and!; try done.
  - destruct (grants z !! id) as [g|] eqn:Hg; [|done]. destruct (gmoves_later _ _ Hm id g Hg) as (h & Hh & _). by rewrite Hn in Hh.
  - intros f Hff. destruct (Hf1 f Hff) as (t & Ht & Hsys). unfold is_readable. rewrite Ht. destruct Hsys as [->|Hsys]; [done|].
    rewrite (provider_system_readable _ _ _ _ f Hty Hsys) in Ht. by injection Ht as <-.
  - intros f Hff. apply Hf2; [done|]. rewrite (provider_system_readable _ _ _ _ f Hty Hff). by eexists.
  - intros f Hff. by destruct (write_fields_ok _ _ _ _ Hw f Hff) as (? & ? & _).
Qed.
End Reachable.

Module CrossAppExamples.
Import RecordExamples.
#[local] Existing Instance toy_parsers.
Definition parse (s : string) : option AppManifest := Some (person_app s).
Definition y0 : Sys :=
  {| sgov := {| gpool := {| db := {| users := ∅; public_execution_principals := ∅;
                                     rbac_roles := {[ "admin" := {| description := None; role_inherits := []; role_permissions := ["*"] |} ]};
                                     rbac_assignments := [("root", "admin")] |}; fault _ := None |};
                delegations := []; clock := 10 |};
     app_installations := []; apps := {[ "crm" := {| a_status := "installed"; a_manifest := "crm" |};
                                         "hr" := {| a_status := "installed"; a_manifest := "hr" |} ]};
     cross_app_collection_grants := []; publications := []; public_principals := []; action_approvals := []; backend_releases := [] |}.
Definition request : CreateGrantRequest :=
  {| cg_consumer_app := "hr"; cg_provider_app := "crm"; cg_entity := "person"; cg_actions := ["list"; "update"; "list"];
     cg_fields := Some ["name"]; cg_write_fields := Some ["name"]; cg_expires_at := Some 20%Z; cg_reason := "sync" |}.
Definition x_installed : XState := run_tx parse (TRegister "hr" "i2") (run_tx parse (TRegister "crm" "i1") (start y0)).
Definition x_pending : XState := run_tx parse (TCreate "root" "g1" ["list"; "update"] request) x_installed.
Definition x_active : XState := run_tx parse (TApprove "root" "g1" EmptyString) x_pending.

Lemma steps_installed : rtc (xstep parse) (start y0) x_installed.
Proof.
  eapply (rtc_l _ _ (run_tx parse (TRegister "crm" "i1") (start y0))); [apply xs_tx|].
  apply rtc_once. exact (xs_tx parse (TRegister "hr" "i2") _).
Qed.
Lemma steps_pending : rtc (xstep parse) (start y0) x_pending.
Proof. etrans; [exact steps_installed|]. apply rtc_once. exact (xs_tx parse (TCreate "root" "g1" ["list"; "update"] request) _). Qed.
Lemma steps_active : rtc (xstep parse) (start y0) x_active.
Proof. etrans; [exact steps_pending|]. apply rtc_once. exact (xs_tx parse (TApprove "root" "g1" EmptyString) _). Qed.

Lemma grants_invariant_witness : Core x_active ∧ (g_status ∘ grant) <$> grants x_active !! "g1" = Some "active".
Proof. split; [exact (proj1 (grants_invariant parse y0 x_active steps_active))|]. vm_compute. reflexivity. Defined.

Definition read_names : XProc (result ApiError AuthorizedRead) := authorize_cross_app_operation parse "hr" "crm" "person" "list" ["name"] [].
Lemma authorized_operation_is_granted_witness :
  ∃ x a g, exec 9 read_names x_active = Some (x, Ok a) ∧ grants x !! ar_grant_id a = Some g ∧ g_status (grant g) = "active".
Proof.
  destruct (exec 9 read_names x_active) as [[x [a|e]]|] eqn:E.
  - assert (lock_cross_app_read_in_tx (view x) a = Ok tt) as Hl.
    { apply (f_equal (λ o, match o with Some (x, Ok a) => lock_cross_app_read_in_tx (view x) a | _ => Err EmptyString end)) in E.
      cbv beta iota in E. rewrite <-E. vm_compute. reflexivity. }
    destruct (xsteps_inv parse _ _ steps_active (proj1 (start_inv y0)) (proj2 (start_inv y0))) as [HC HL].
    destruct (authorized_operation_is_granted parse "hr" "crm" "person" "list" ["name"] [] x_active x x a HC HL
                (exec_runs (xstep parse) 9 read_names x_active x (Ok a) E) (rtc_refl _ _) Hl) as (g & Hg & Hs & _).
    exists x, a, g. split; [reflexivity|]. split; [exact Hg|exact Hs].
  - exfalso. apply (f_equal (λ o, match o with Some (_, Ok _) => true | _ => false end)) in E. vm_compute in E. discriminate E.
  - exfalso. apply (f_equal (λ o, match o with Some (_, Ok _) => true | _ => false end)) in E. vm_compute in E. discriminate E.
Defined.

Lemma uninstall_is_final_witness : (deactivate_installation_tx "crm" None "removed" x_active).2 = Ok tt.
Proof.
  destruct (xsteps_inv parse _ _ steps_active (proj1 (start_inv y0)) (proj2 (start_inv y0))) as [HC HL].
  destruct (grants x_active !! "g1") as [g|] eqn:Hg.
  - assert (involves "crm" x_active g = true) as Hi.
    { apply (f_equal (λ o, from_option (involves "crm" x_active) true o)) in Hg. cbv beta iota in Hg. unfold from_option in Hg.
      rewrite <-Hg. vm_compute. reflexivity. }
    exact (proj1 (uninstall_is_final parse "crm" None "removed" x_active _ "g1" g HC HL (rtc_refl _ _) Hg Hi)).
  - exfalso. apply (f_equal (λ o, match o with Some _ => true | None => false end)) in Hg. vm_compute in Hg. discriminate Hg.
Defined.

Lemma only_the_authorised_approve_witness :
  ∃ x h, exec 9 (approve_grant "root" "g1" "fine") x_pending = Some (x, Ok h) ∧ approved_by h = Some "root".
Proof.
  destruct (exec 9 (approve_grant "root" "g1" "fine") x_pending) as [[x [h|e]]|] eqn:E.
  - destruct (xsteps_inv parse _ _ steps_pending (proj1 (start_inv y0)) (proj2 (start_inv y0))) as [HC HL].
    destruct (only_the_authorised_approve parse "root" "g1" "fine" x_pending x h HC HL (exec_runs (xstep parse) 9 _ x_pending x (Ok h) E))
      as (y & z & g & _ & _ & _ & _ & _ & _ & _ & _ & _ & Ha & _). exists x, h. split; [reflexivity|exact Ha].
  - exfalso. apply (f_equal (λ o, match o with Some (_, Ok _) => true | _ => false end)) in E. vm_compute in E. discriminate E.
  - exfalso. apply (f_equal (λ o, match o with Some (_, Ok _) => true | _ => false end)) in E. vm_compute in E. discriminate E.
Defined.

Lemma created_grant_is_scoped_witness :
  ∃ x row, exec 9 (create_grant parse "root" "g1" true request) x_installed = Some (x, Ok row) ∧ "updated_at" ∈ g_fields (grant row).
Proof.
  destruct (exec 9 (create_grant parse "root" "g1" true request) x_installed) as [[x [row|e]]|] eqn:E.
  - destruct (xsteps_inv parse _ _ steps_installed (proj1 (start_inv y0)) (proj2 (start_inv y0))) as [HC HL].
    destruct (created_grant_is_scoped parse "root" "g1" true request x_installed x row HC HL (exec_runs (xstep parse) 9 _ x_installed x (Ok row) E))
      as (y & z & types & _ & _ & _ & _ & _ & _ & _ & _ & _ & _ & _ & _ & Hsys & _).
    exists x, row. split; [reflexivity|]. apply Hsys. right. right. left.
  - exfalso. apply (f_equal (λ o, match o with Some (_, Ok _) => true | _ => false end)) in E. vm_compute in E. discriminate E.
  - exfalso. apply (f_equal (λ o, match o with Some (_, Ok _) => true | _ => false end)) in E. vm_compute in E. discriminate E.
Defined.
End CrossAppExamples.
