(* ===== verification/Collections.v ===== *)
(** * Collections on a governed connection

    Reads and writes of a collection inside a transaction that is already
    authorised: core/src/governance/collection_reads.rs (equality and page reads,
    and the reads of a publication) and cross_app_mutations.rs, with the fields a
    request names, the options of a page and the projection of answers of
    cross_app.rs and cross_app_operations.rs.  Each function builds a statement and
    hands it to the database, which may refuse any statement. *)

From stdpp Require Import base numbers pretty gmap strings sets list.
From S2P Require Import Prelude Str Ident Json DataTypes Perms Roles Authority Gates Ownership SqlScan Filters Records.

(** ** What a request names *)

(** [sort_unstable(); dedup()] *)
Definition sorted_unique (l : list string) : list string := dedup (sort_strings l).
Definition query_field_names (where_clause : option JsonValue) (order_by : option string) : list string :=
  sorted_unique (from_option collect_filter_fields [] where_clause ++ from_option (λ o, [o]) [] order_by).

Definition parse_query_options (object : list (string * JsonValue)) : result string (option string * string * Z * Z) :=
  let? order_by := match obj_get "orderBy" object with
                   | None => Ok None
                   | Some v => result_map Some (ok_or (as_str v) "orderBy must be a string")
                   end in
  let? direction := match obj_get "order" object with
                    | None => Ok "DESC"
                    | Some v => match as_str v with
                                | Some s => if bool_decide (s ∈ ["asc"; "ASC"]) then Ok "ASC"
                                            else if bool_decide (s ∈ ["desc"; "DESC"]) then Ok "DESC"
                                            else Err "order must be 'asc' or 'desc'"
                                | None => Err "order must be 'asc' or 'desc'"
                                end
                    end in
  let? limit := match obj_get "limit" object with
                | None => Ok 100%Z
                | Some v => ok_or (as_i64 v) "limit must be an integer"
                end in
  try? ensure (bool_decide (1 ≤ limit ≤ 1000)%Z) "limit must be between 1 and 1000" in
  let? offset := match obj_get "offset" object with
                 | None => Ok 0%Z
                 | Some v => ok_or (as_i64 v) "offset must be an integer"
                 end in
  try? ensure (negb (bool_decide (offset < 0)%Z)) "offset must be non-negative" in
  Ok (order_by, direction, limit, offset).

Definition PAGE_OPTION_KEYS : list string := ["where"; "orderBy"; "order"; "limit"; "offset"].
Definition is_option_key (k : string) : bool := bool_decide (k ∈ PAGE_OPTION_KEYS).
Definition has_options (object : list (string * JsonValue)) : bool :=
  existsb (λ key, bool_decide (is_Some (obj_get key object))) PAGE_OPTION_KEYS.

Definition remote_written_fields (op : string) (data : JsonValue) : list string :=
  let records := if bool_decide (op ∈ ["create"; "insert"]) then [data]
                 else if decide (op = "update") then from_option (λ v, [v]) [] (get data "data")
                 else if decide (op = "bulk_create") then default [] (as_array data)
                 else [] in
  sorted_unique (mjoin (map (map fst) (omap as_object records))).
Definition remote_requested_fields (op : string) (data : JsonValue) : list string :=
  match as_object data with
  | None => []
  | Some object =>
      if bool_decide (op ∈ ["findOne"; "findAll"]) then map fst object
      else if bool_decide (op = "findPage") || has_options object
      then query_field_names (obj_get "where" object) (obj_get "orderBy" object ≫= as_str)
      else map fst object
  end.

(** ** Projection of answers *)

Definition project_record (record : JsonValue) (snapshot : list string) : JsonValue :=
  match record with
  | JObject object => JObject (List.filter (λ kv, bool_decide (kv.1 ∈ snapshot)) object)
  | _ => record
  end.
Definition project_records (records : JsonValue) (snapshot : list string) : JsonValue :=
  match records with
  | JArray rows => JArray (map (λ row, project_record row snapshot) rows)
  | row => project_record row snapshot
  end.
Definition obj_remove (k : string) (l : list (string * JsonValue)) : list (string * JsonValue) :=
  List.filter (λ kv, negb (bool_decide (kv.1 = k))) l.
Definition project_query_result (result : JsonValue) (snapshot : list string) : JsonValue :=
  match result with
  | JObject object =>
      match obj_get "data" object with
      | Some data => JObject (obj_insert "data" (project_records data snapshot) (obj_remove "data" object))
      | None => project_record (JObject object) snapshot
      end
  | _ => project_records result snapshot
  end.

(** ** Statements *)

Inductive EqualityMode := EqAll | NewestFirst | EqOne.
Inductive PublicationRead := PubAll | PubOne | PubPage.
#[export] Instance PublicationRead_eq_dec : EqDecision PublicationRead.
Proof. solve_decision. Defined.

Inductive CStmt :=
  | SelectEqual (t : Source) (cols : list string) (mode : EqualityMode) (binds : list Bound)
  | SelectPage (t : Source) (wh : Cond) (sort direction : string) (limit offset : Z) (binds : list string)
  | SelectPublished (t : Source) (fields : list string) (fixed requested : Cond) (sort direction : string) (limit offset : Z)
      (mode : PublicationRead) (binds : list string)
  | InsertOnce (t : Source) (cols : list string) (id : option uuid) (binds : list Bound)
  | SelectConflict (t : Source) (id : uuid)
  | UpdateOne (t : Source) (cols : list string) (id : uuid) (binds : list Bound)
  | DeleteOne (t : Source) (id : uuid).

Definition equal_columns (cols : list string) : list string := imap (λ i c, quote_ident c +:+ " = " +:+ placeholder (S i)) cols.
Definition publication_projection (types : FieldTypes) (fields : list string) : string :=
  join " || " (map (λ chunk,
    "jsonb_build_object(" +:+ join ", " (map (λ name,
       quote_literal name +:+ ", t." +:+ quote_ident name
       +:+ (if from_option (λ f, is_decimal (f_type f)) false (types !! name) then "::text" else EmptyString)) chunk) +:+ ")")
    (chunks 40 fields)).
Definition paged (row from where_ sort direction : string) (limit offset : Z) : string :=
  "WITH page AS (SELECT " +:+ row +:+ " AS row, " +:+ sort +:+ " AS sort_value FROM " +:+ from +:+ " t" +:+ where_
  +:+ " ORDER BY " +:+ sort +:+ " " +:+ direction +:+ " LIMIT " +:+ pretty limit +:+ " OFFSET " +:+ pretty offset
  +:+ ") SELECT jsonb_build_object('data', COALESCE((SELECT jsonb_agg(row ORDER BY sort_value " +:+ direction
  +:+ ") FROM page), '[]'::jsonb), 'total', (SELECT count(*) FROM " +:+ from +:+ " t" +:+ where_ +:+ "))".

Definition cstmt_sql (s : CStmt) : string :=
  match s with
  | SelectEqual t cols mode _ =>
      "SELECT " +:+ row_json (src_table t) (src_types t) +:+ " AS row FROM " +:+ src_table t +:+ join_where (equal_columns cols)
      +:+ match mode with
          | EqAll => EmptyString
          | NewestFirst => " ORDER BY " +:+ quote_ident "created_at" +:+ " DESC"
          | EqOne => " LIMIT 1"
          end
  | SelectPage t wh sort direction limit offset _ =>
      paged (row_json "t" (src_types t)) (src_table t) (where_sql wh) (quote_ident sort) direction limit offset
  | SelectPublished t fields fixed requested sort direction limit offset mode _ =>
      let projection := publication_projection (src_types t) fields in
      let scope := " WHERE (" +:+ cond_sql fixed +:+ ") AND (" +:+ cond_sql requested +:+ ")" in
      match mode with
      | PubPage => paged projection (src_table t) scope (quote_ident sort) direction limit offset
      | PubOne => "SELECT " +:+ projection +:+ " FROM " +:+ src_table t +:+ " t" +:+ scope +:+ " LIMIT 1"
      | PubAll => "SELECT " +:+ projection +:+ " FROM " +:+ src_table t +:+ " t" +:+ scope +:+ " ORDER BY " +:+ quote_ident sort
                  +:+ " " +:+ direction +:+ " LIMIT 10001"
      end
  | InsertOnce t cols id _ =>
      let extra := match id with Some _ => ["id"] | None => [] end in
      "INSERT INTO " +:+ src_table t +:+ " AS t (" +:+ join ", " (map quote_ident (cols ++ extra)) +:+ ") VALUES ("
      +:+ join ", " (placeholders 1 (length (cols ++ extra))) +:+ ") "
      +:+ (match id with Some _ => "ON CONFLICT (" +:+ quote_ident "id" +:+ ") DO NOTHING" | None => EmptyString end)
      +:+ " RETURNING " +:+ row_json "t" (src_types t)
  | SelectConflict t _ =>
      "SELECT " +:+ row_json "t" (src_types t) +:+ " FROM " +:+ src_table t +:+ " AS t WHERE t." +:+ quote_ident "id" +:+ " = $1"
  | UpdateOne t cols _ _ =>
      "UPDATE " +:+ src_table t +:+ " AS t SET " +:+ join ", " (equal_columns cols ++ [quote_ident "updated_at" +:+ " = now()"])
      +:+ " WHERE t." +:+ quote_ident "id" +:+ " = " +:+ placeholder (S (length cols)) +:+ " RETURNING " +:+ row_json "t" (src_types t)
  | DeleteOne t _ => "DELETE FROM " +:+ src_table t +:+ " WHERE " +:+ quote_ident "id" +:+ " = $1"
  end.

(** ** What the database answers *)

(** The comparison of a column with a typed parameter, and the order of rows nothing
    orders. *)
Class Collation `{!Postgres} := {
  equal_cell : Cells → string → Bound → option bool;
  scanned : list (uuid * Cells) → list (uuid * Cells);
  scanned_permutation : ∀ l, Permutation (scanned l) l }.

(** The rows of a statement as JSON, and how many it affected. *)
Definition Answer : Type := list JsonValue * nat.
Definition json_count (n : nat) : JsonValue :=
  JNumber {| num_text := pretty n; num_i64 := Some (Z.of_nat n); num_f64 := Some (pretty n) |}.

Section RunCollection.
Context `{!Postgres} `{!Collation}.
(** What the database refuses a statement with, if it does. *)
Context (fault : CStmt → option string).

(** The JSON a publication's projection builds of a row. *)
Definition published_object (types : FieldTypes) (fields : list string) (row : Cells) : JsonValue :=
  JObject (map (λ name, (name, cell_json types row name)) fields).
Definition page_object (rows : list JsonValue) (total : nat) : JsonValue := JObject [("data", JArray rows); ("total", json_count total)].
Definition all_equal (cols : list string) (binds : list Bound) (row : Cells) : bool :=
  bool_decide (all3 (zip_with (equal_cell row) cols binds) = Some true).
Definition equal_rows (pol : Policies) (tbls : Tables) (k : string * string) (cols : list string) (binds : list Bound) : list (uuid * Cells) :=
  List.filter (λ e, sees pol k e.1 e.2 && all_equal cols binds e.2) (map_to_list (rows_of tbls k)).
Definition scoped_rows (pol : Policies) (tbls : Tables) (k : string * string) (fixed requested : Cond) (binds : list string) : list (uuid * Cells) :=
  List.filter (λ e, sees pol k e.1 e.2
    && bool_decide (and3 (eval_cond null_cell compare_cell contains_cell binds e.2 fixed)
                         (eval_cond null_cell compare_cell contains_cell binds e.2 requested) = Some true))
    (map_to_list (rows_of tbls k)).
Definition page_of (sort direction : string) (limit offset : Z) (rows : list (uuid * Cells)) : list (uuid * Cells) :=
  ordered sort direction (window (Some limit) (Some offset) (ordered sort direction rows)).

Definition answer_rows (l : list JsonValue) : Answer := (l, length l).
Definition inserted (t : Source) (r : result ApiError (Rows * Cells)) (tbls : Tables) : result string (Tables * Answer) :=
  let? '(tbl, row) := map_err (λ _, "refused") r in
  Ok (<[src_key t := tbl]> tbls, answer_rows [row_object (src_types t) row]).
(** [new]: the identifier a row without one is given. *)
Definition run_cstmt (pol : Policies) (new : uuid) (s : CStmt) (tbls : Tables) : result string (Tables * Answer) :=
  match fault s with
  | Some e => Err e
  | None =>
      match s with
      | SelectEqual t cols mode binds =>
          let rows := equal_rows pol tbls (src_key t) cols binds in
          let rows := match mode with
                      | EqAll => scanned rows
                      | NewestFirst => ordered "created_at" "DESC" rows
                      | EqOne => take 1 (scanned rows)
                      end in
          Ok (tbls, answer_rows (map (λ e, row_object (src_types t) e.2) rows))
      | SelectPage t wh sort direction limit offset binds =>
          let rows := selected pol tbls (src_key t) wh binds in
          Ok (tbls, answer_rows [page_object (map (λ e, row_object (src_types t) e.2) (page_of sort direction limit offset rows)) (length rows)])
      | SelectPublished t fields fixed requested sort direction limit offset mode binds =>
          let rows := scoped_rows pol tbls (src_key t) fixed requested binds in
          let object := λ e : uuid * Cells, published_object (src_types t) fields e.2 in
          Ok (tbls, answer_rows match mode with
                                | PubPage => [page_object (map object (page_of sort direction limit offset rows)) (length rows)]
                                | PubOne => map object (take 1 (scanned rows))
                                | PubAll => map object (window (Some 10001%Z) None (ordered sort direction rows))
                                end)
      | InsertOnce t cols id binds =>
          let tbl := rows_of tbls (src_key t) in
          let given := tuple_cells cols binds 0 in
          match id with
          | Some id =>
              (* the policies on the proposed row come before the conflict *)
              match refuses pol (src_key t) id (proposed (src_key t) id given), tbl !! id with
              | None, Some _ => Ok (tbls, answer_rows [])
              | _, _ => inserted t (insert_one pol (src_key t) tbl id given) tbls
              end
          | None => inserted t (insert_one pol (src_key t) tbl new given) tbls
          end
      | SelectConflict t id =>
          Ok (tbls, answer_rows (match rows_of tbls (src_key t) !! id with
                                 | Some row => if sees pol (src_key t) id row then [row_object (src_types t) row] else []
                                 | None => []
                                 end))
      | UpdateOne t cols id binds =>
          let? '(tbl, row) := map_err (λ _, "refused") (update_one pol (src_key t) (rows_of tbls (src_key t)) id
                                (<["updated_at" := now_value]> (tuple_cells cols binds 0))) in
          Ok (<[src_key t := tbl]> tbls, answer_rows (match row with Some r => [row_object (src_types t) r] | None => [] end))
      | DeleteOne t id =>
          let? '(tbls, n) := map_err (λ _, "refused") (delete_one pol (src_key t) tbls id) in
          Ok (tbls, ([], n))
      end
  end.
End RunCollection.

(** ** Reads (collection_reads.rs) *)

Section Reads.
Context `{!Parsers} `{!Postgres} `{!Collation} (fault : CStmt → option string) (new : uuid).
(** [format!("{error:?}")] *)
Context (debug_error : ApiError → string).

Definition validate_field (types : FieldTypes) (name : string) : result string unit :=
  match types !! name with
  | Some f => if f_sensitive f then Err ("field '" +:+ name +:+ "' is sensitive and cannot be queried") else Ok tt
  | None => Err ("unknown field '" +:+ name +:+ "'")
  end.
Definition bind_entries (types : FieldTypes) (entries : list (string * JsonValue)) : result string (list Bound) :=
  try_map (λ '(k, v), bind_typed v (manifest_type types k)) entries.
Definition NOT_AN_OBJECT : string := "data must be a JSON object (where clause)".

Definition equality_stmt (types : FieldTypes) (app entity : string) (data : JsonValue) (mode : EqualityMode) : result string CStmt :=
  let? object := ok_or (as_object data) NOT_AN_OBJECT in
  try? try_for_each (validate_field types) (map fst object) in
  let? binds := bind_entries types object in
  Ok (SelectEqual {| src_app := app; src_entity := entity; src_types := types |} (map fst object) mode binds).
(** A read: nothing of the tables changes. *)
Definition fetch (pol : Policies) (tbls : Tables) (s : CStmt) : result string (list JsonValue) :=
  let? '(_, a) := run_cstmt fault pol new s tbls in Ok a.1.
Definition equality (pol : Policies) (tbls : Tables) (types : FieldTypes) (app entity : string) (data : JsonValue) (mode : EqualityMode) :
    result string JsonValue :=
  let? s := equality_stmt types app entity data mode in
  let? rows := fetch pol tbls s in
  Ok match mode with EqOne => default JNull (head rows) | _ => JArray rows end.

Definition page_filter (legacy : bool) (object : list (string * JsonValue)) : JsonValue :=
  if negb legacy || has_options object then default (JObject []) (obj_get "where" object) else JObject object.
Definition page_stmt (types : FieldTypes) (app entity : string) (data : JsonValue) (legacy : bool) : result string CStmt :=
  let? object := ok_or (as_object data) NOT_AN_OBJECT in
  let uses_query_options := negb legacy || has_options object in
  try? ensure (negb (uses_query_options && existsb (λ kv, negb (is_option_key kv.1)) object))
    "query options cannot be mixed with legacy equality fields; put filters under 'where'" in
  let where_clause := page_filter legacy object in
  try? try_for_each (validate_field types) (query_field_names (Some where_clause) (obj_get "orderBy" object ≫= as_str)) in
  let? '(c, (binds, _)) := map_err debug_error (where_conditions types (Some where_clause) ([], 0)) in
  let? '(order_by, direction, limit, offset) := parse_query_options object in
  Ok (SelectPage {| src_app := app; src_entity := entity; src_types := types |} c (validate_sort_field order_by types) direction limit offset binds).
Definition page (pol : Policies) (tbls : Tables) (types : FieldTypes) (app entity : string) (data : JsonValue) (legacy : bool) :
    result string JsonValue :=
  let? s := page_stmt types app entity data legacy in
  let? rows := fetch pol tbls s in
  ok_or (head rows) "no rows returned by a query that expected to return at least one row".

Definition published_stmt (types : FieldTypes) (app entity : string) (fields : list string) (predicate filter : JsonValue)
    (options : list (string * JsonValue)) (mode : PublicationRead) : result string CStmt :=
  let? '(fixed, s) := map_err debug_error (build_where_clause show_json types predicate ([], 0)) in
  let? '(requested, (binds, _)) := map_err debug_error (build_where_clause show_json types filter s) in
  let? '(order_by, direction, limit, offset) := parse_query_options options in
  let? sort := match order_by with
               | Some o => Ok o
               | None => ok_or (head fields) "index out of bounds"        (* [fields[0]]; the callers pass some *)
               end in
  try? ensure (bool_decide (sort ∈ fields)) "publication does not allow this sort field" in
  Ok (SelectPublished {| src_app := app; src_entity := entity; src_types := types |} fields fixed requested sort direction limit offset mode binds).
Definition MAX_RESPONSE : Z := 4 * 1024 * 1024.
Definition published (pol : Policies) (tbls : Tables) (types : FieldTypes) (app entity : string) (fields : list string)
    (predicate filter : JsonValue) (options : list (string * JsonValue)) (mode : PublicationRead) : result string JsonValue :=
  let? s := published_stmt types app entity fields predicate filter options mode in
  let? rows := fetch pol tbls s in
  let? result := match mode with
                 | PubOne => Ok (default JNull (head rows))
                 | PubPage => ok_or (head rows) "no rows returned by a query that expected to return at least one row"
                 | PubAll => if bool_decide (10000 < Z.of_nat (length rows))%Z then Err "public read exceeds 10000 rows; use findPage" else Ok (JArray rows)
                 end in
  if bool_decide (MAX_RESPONSE < Z.of_nat (String.length (show_json result)))%Z
  then Err "public read exceeds the 4 MiB response limit; use a smaller page" else Ok result.
End Reads.

(** ** Writes (cross_app_mutations.rs) *)

Inductive Mutation :=
  | MCreate (o : list (string * JsonValue)) | MBulkCreate (l : list (list (string * JsonValue)))
  | MUpdate (id : uuid) (o : list (string * JsonValue)) | MDelete (id : uuid).

Section Writes.
Context `{!Parsers} `{!Postgres} `{!Collation} (fault : CStmt → option string) (fresh : nat → uuid).
(** [Uuid::new_v5(&Uuid::NAMESPACE_OID, key)] *)
Context (new_v5 : string → uuid).

Definition check_writable (types : FieldTypes) (name : string) : result string unit :=
  if bool_decide (name ∈ ["id"; "created_at"; "updated_at"]) then Err ("field '" +:+ name +:+ "' is system-managed")
  else match types !! name with
       | None => Err ("unknown field '" +:+ name +:+ "'")
       | Some f => if f_sensitive f then Err ("field '" +:+ name +:+ "' is sensitive and cannot be written") else Ok tt
       end.
Definition writable_object (value : JsonValue) (types : FieldTypes) : result string (list (string * JsonValue)) :=
  let? object := ok_or (as_object value) "data must be an object" in
  match object with
  | [] => Err "data must contain at least one writable field"
  | _ => try? try_for_each (check_writable types) (map fst object) in Ok object
  end.

Definition validate (types : FieldTypes) (op : string) (data : JsonValue) (idempotency_key : option string) : result string Mutation :=
  if decide (op = "create") then result_map MCreate (writable_object data types)
  else if decide (op = "bulk_create") then
    match idempotency_key with
    | Some _ => Err "bulk_create is not allowed inside a workflow; use per-item create"
    | None =>
        let? rows := ok_or (as_array data) "bulk_create data must be an array of objects" in
        try? ensure (bool_decide (1 ≤ length rows ≤ MAX_BULK_SIZE)) ("bulk_create requires 1..=" +:+ pretty MAX_BULK_SIZE +:+ " objects") in
        result_map MBulkCreate (try_map (λ row, writable_object row types) rows)
    end
  else if bool_decide (op ∈ ["update"; "delete"]) then
    let? object := ok_or (as_object data) "mutation data must be an object" in
    try? try_for_each (λ name,
      if negb (bool_decide (name = "id")) && negb (bool_decide (op = "update") && bool_decide (name = "data"))
      then Err ("unexpected mutation argument '" +:+ name +:+ "'") else Ok tt) (map fst object) in
    let? text := ok_or (obj_get "id" object ≫= as_str) "id must be an explicit UUID string" in
    let? id := ok_or (parse_uuid text) "id must be a valid UUID" in
    if decide (op = "delete") then Ok (MDelete id)
    else let? patch := ok_or (obj_get "data" object) "update requires a data object" in
         result_map (MUpdate id) (writable_object patch types)
  else Err ("unsupported mutation operation '" +:+ op +:+ "'").

Definition not_found (id : uuid) : string := "record '" +:+ id +:+ "' not found".
Definition insert_object (pol : Policies) (types : FieldTypes) (t : Source) (new : uuid) (object : list (string * JsonValue))
    (idempotency_key : option string) (tbls : Tables) : result string (Tables * JsonValue) :=
  let id := new_v5 <$> idempotency_key in
  let? binds := bind_entries types object in
  let? '(tbls, a) := run_cstmt fault pol new (InsertOnce t (map fst object) id binds) tbls in
  match a.1, id with
  | row :: _, _ => Ok (tbls, row)
  | [], None => Err "create returned no row"
  | [], Some id =>
      let? '(tbls, a) := run_cstmt fault pol new (SelectConflict t id) tbls in
      let? row := ok_or (head a.1) (not_found id) in Ok (tbls, row)
  end.
Fixpoint insert_objects (pol : Policies) (types : FieldTypes) (t : Source) (i : nat) (objects : list (list (string * JsonValue))) (tbls : Tables) :
    result string (Tables * list JsonValue) :=
  match objects with
  | [] => Ok (tbls, [])
  | object :: objects =>
      let? '(tbls, row) := insert_object pol types t (fresh i) object None tbls in
      let? '(tbls, rows) := insert_objects pol types t (S i) objects tbls in Ok (tbls, row :: rows)
  end.
Definition deleted_object (id : uuid) : JsonValue := JObject [("deleted", JBool true); ("id", JString id)].
Definition execute_mutation (pol : Policies) (types : FieldTypes) (app entity op : string) (data : JsonValue) (idempotency_key : option string)
    (tbls : Tables) : result string (Tables * JsonValue) :=
  let t := {| src_app := app; src_entity := entity; src_types := types |} in
  let? mutation := validate types op data idempotency_key in
  match mutation with
  | MCreate object => insert_object pol types t (fresh 0) object idempotency_key tbls
  | MBulkCreate objects => let? '(tbls, rows) := insert_objects pol types t 0 objects tbls in Ok (tbls, JArray rows)
  | MUpdate id object =>
      let? binds := bind_entries types object in
      let? '(tbls, a) := run_cstmt fault pol (fresh 0) (UpdateOne t (map fst object) id binds) tbls in
      let? row := ok_or (head a.1) (not_found id) in Ok (tbls, row)
  | MDelete id =>
      let? '(tbls, a) := run_cstmt fault pol (fresh 0) (DeleteOne t id) tbls in
      try? ensure (negb (bool_decide (a.2 = 0) && bool_decide (idempotency_key = None))) (not_found id) in
      Ok (tbls, deleted_object id)
  end.
End Writes.

(** ** Reads answer exactly what was asked *)

Lemma bind_entries_all `{!Parsers} types entries bs :
  bind_entries types entries = Ok bs → bind_all types entries = Ok bs.
Proof.
  unfold bind_entries, bind_all. rewrite !try_map_ok_iff. intros HF. eapply Forall2_impl; [exact HF|].
  intros [k v] b Hb. by rewrite Hb.
Qed.
Lemma parse_query_options_bounds object order_by direction limit offset :
  parse_query_options object = Ok (order_by, direction, limit, offset) →
  (1 ≤ limit ≤ 1000)%Z ∧ (0 ≤ offset)%Z ∧ (direction = "ASC" ∨ direction = "DESC")
  ∧ order_by = (obj_get "orderBy" object ≫= as_str).
Proof.
  unfold parse_query_options. intros Hp.
  apply bind_ok_iff in Hp as (o & Ho & Hp). apply bind_ok_iff in Hp as (d & Hd & Hp). apply bind_ok_iff in Hp as (l & Hl & Hp).
  apply bind_ok_iff in Hp as ([] & H1 & Hp). apply bind_ok_iff in Hp as (f & Hf & Hp). apply bind_ok_iff in Hp as ([] & H2 & Hp).
  injection Hp as <- <- <- <-. apply ensure_ok_iff, bool_decide_eq_true in H1. apply ensure_ok_iff, negb_true_iff, bool_decide_eq_false in H2.
  split_and!; [lia..| |].
  - destruct (obj_get "order" object) as [v|]; [|injection Hd as <-; by right]. destruct (as_str v); [|done].
    destruct (bool_decide _); [injection Hd as <-; by left|]. destruct (bool_decide _); [injection Hd as <-; by right|done].
  - destruct (obj_get "orderBy" object) as [v|]; [|by injection Ho as <-]. cbn. apply result_map_ok_iff in Ho as (s & Hs & <-).
    by apply ok_or_ok_iff in Hs.
Qed.

Section ReadsExact.
Context `{!Parsers} `{!Postgres} `{!Collation} (fault : CStmt → option string) (new : uuid) (debug_error : ApiError → string).

Lemma fetch_ok pol tbls s rows : fetch fault new pol tbls s = Ok rows → ∃ tbls' n, run_cstmt fault pol new s tbls = Ok (tbls', (rows, n)).
Proof. unfold fetch. intros Hf. apply bind_ok_iff in Hf as ([t [r n]] & Hr & Hf). injection Hf as <-. eauto. Qed.
Lemma validate_field_ok types name : validate_field types name = Ok tt ↔ ∃ f, types !! name = Some f ∧ f_sensitive f = false.
Proof.
  unfold validate_field. destruct (types !! name) as [f|]; [|by split; [|intros (? & ? & _)]].
  destruct (f_sensitive f) eqn:Hs; split; try done; eauto. intros (? & [= <-] & ?). congruence.
Qed.
Lemma elem_of_query_fields w o f : f ∈ query_field_names w o ↔ f ∈ from_option collect_filter_fields [] w ∨ o = Some f.
Proof.
  unfold query_field_names, sorted_unique. rewrite elem_of_dedup, elem_of_sort_strings, elem_of_app.
  destruct o; cbn; [rewrite list_elem_of_singleton|rewrite elem_of_nil]; naive_solver.
Qed.

(** A declared field that may be read. *)
Definition readable_field (types : FieldTypes) (f : string) : Prop := ∃ t, types !! f = Some t ∧ f_sensitive t = false.

Lemma page_stmt_inv types app entity data legacy s :
  page_stmt debug_error types app entity data legacy = Ok s →
  ∃ object c binds idx order_by direction limit offset,
    data = JObject object
    ∧ (negb legacy || has_options object = true → Forall (λ kv, is_option_key kv.1 = true) object)
    ∧ Forall (readable_field types) (query_field_names (Some (page_filter legacy object)) (obj_get "orderBy" object ≫= as_str))
    ∧ where_conditions types (Some (page_filter legacy object)) ([], 0) = Ok (c, (binds, idx))
    ∧ parse_query_options object = Ok (order_by, direction, limit, offset)
    ∧ s = SelectPage {| src_app := app; src_entity := entity; src_types := types |} c (validate_sort_field order_by types) direction limit offset binds.
Proof.
  unfold page_stmt. intros Hp. apply bind_ok_iff in Hp as (object & Ho & Hp). apply ok_or_ok_iff in Ho.
  destruct data as [| | | | |o]; try done. injection Ho as ->. cbv zeta in Hp.
  apply bind_ok_iff in Hp as ([] & Hm & Hp). apply bind_ok_iff in Hp as ([] & Hv & Hp).
  apply bind_ok_iff in Hp as ([c [binds idx]] & Hw & Hp). apply bind_ok_iff in Hp as ([[[order_by direction] limit] offset] & Hq & Hp).
  injection Hp as <-. exists object, c, binds, idx, order_by, direction, limit, offset. apply map_err_ok_iff in Hw. split_and!; try done.
  - intros Hu. apply ensure_ok_iff in Hm. rewrite Hu in Hm. cbn in Hm. apply negb_true_iff in Hm.
    apply Forall_forall. intros kv Hin. destruct (is_option_key kv.1) eqn:E; [done|]. apply Bool.not_true_iff_false in Hm. destruct Hm.
    apply existsb_exists. exists kv. split; [by apply list_elem_of_In|]. by rewrite E.
  - apply try_for_each_ok_iff in Hv. eapply Forall_impl; [exact Hv|]. intros f. apply validate_field_ok.
Qed.

(** A page read answers exactly the visible records its filter holds of: one
    page of them, with at least one and at most a thousand rows asked for or the
    request is refused, sorted by a readable field, and the total of all of them,
    whatever the page; each row has exactly the readable fields. *)
Theorem page_answers_the_filter pol tbls types app entity data legacy v :
  page fault new debug_error pol tbls types app entity data legacy = Ok v →
  ∃ object rows sort direction limit offset,
    data = JObject object ∧ (1 ≤ limit ≤ 1000)%Z ∧ (0 ≤ offset)%Z ∧ (direction = "ASC" ∨ direction = "DESC")
    ∧ (sort = "created_at" ∨ (obj_get "orderBy" object ≫= as_str) = Some sort ∧ readable_field types sort)
    ∧ NoDup rows.*1
    ∧ (∀ id row, (id, row) ∈ rows ↔ rows_of tbls (app, entity) !! id = Some row ∧ sees pol (app, entity) id row = true
         ∧ wanted types (Some (page_filter legacy object)) row = Some true)
    ∧ v = page_object (map (λ e, row_object types e.2) (page_of sort direction limit offset rows)) (length rows).
Proof.
  unfold page. intros Hp. apply bind_ok_iff in Hp as (s & Hs & Hp). apply bind_ok_iff in Hp as (rows & Hr & Hp).
  apply page_stmt_inv in Hs as (object & c & binds & idx & order_by & direction & limit & offset & -> & _ & _ & Hw & Hq & ->).
  apply fetch_ok in Hr as (t & n & Hr). unfold run_cstmt in Hr. destruct (fault _); [done|]. injection Hr as _ <- _. injection Hp as <-.
  destruct (parse_query_options_bounds _ _ _ _ _ Hq) as (Hl & Hof & Hd & ->).
  destruct (where_conditions_means null_cell compare_cell contains_cell types _ [] _ _ _ Hw) as (_ & _ & M).
  eexists object, _, _, direction, limit, offset. split_and!; [done|lia|lia|lia|done| | | |reflexivity].
  - unfold validate_sort_field. destruct (obj_get "orderBy" object ≫= as_str) as [f|]; [|by left].
    destruct (types !! f) as [t'|] eqn:Ht; [|by left]. destruct (f_sensitive t') eqn:Hs; [by left|]. right. split; [done|]. by exists t'.
  - apply NoDup_selected.
  - intros id row. unfold src_key. cbn [src_app src_entity]. rewrite elem_of_selected. specialize (M [] row). rewrite app_nil_r in M.
    cbn [wanted]. by rewrite M.
Qed.

Lemma page_form pol tbls types app entity data legacy v :
  page fault new debug_error pol tbls types app entity data legacy = Ok v → ∃ rows total, v = page_object rows total.
Proof.
  unfold page. intros Hp. apply bind_ok_iff in Hp as (s & Hs & Hp). apply bind_ok_iff in Hp as (rows & Hr & Hp).
  apply page_stmt_inv in Hs as (object & c & binds & idx & order_by & direction & limit & offset & _ & _ & _ & _ & _ & ->).
  apply fetch_ok in Hr as (t & n & Hr). unfold run_cstmt in Hr. destruct (fault _); [done|]. injection Hr as _ <- _. injection Hp as <-. eauto.
Qed.
(** The columns the conditions and the order of a statement name. *)
Definition stmt_columns (s : CStmt) : list string :=
  match s with
  | SelectEqual _ cols _ _ => cols
  | SelectPage _ wh sort _ _ _ _ => sort :: cond_fields wh
  | SelectPublished _ _ fixed requested sort _ _ _ _ _ => sort :: cond_fields fixed ++ cond_fields requested
  | InsertOnce _ cols _ _ | UpdateOne _ cols _ _ => cols
  | SelectConflict _ _ | DeleteOne _ _ => []
  end.
(** The statement of a remote read ([cross_app_operations::execute]). *)
Definition read_stmt (types : FieldTypes) (app entity op : string) (data : JsonValue) (mode : EqualityMode) : result string CStmt :=
  if bool_decide (op ∈ ["findAll"; "findOne"]) then equality_stmt types app entity data mode
  else page_stmt debug_error types app entity data (negb (bool_decide (op = "findPage"))).

Lemma where_conditions_fields types w c binds idx f :
  where_conditions types (Some w) ([], 0) = Ok (c, (binds, idx)) → f ∈ cond_fields c →
  f ∈ collect_filter_fields w ∨ starts_with "$" f = true.
Proof.
  cbn [where_conditions]. destruct (build_where_clause _ _ w _) as [[c0 s]|] eqn:Hb; [|done]. cbn. intros [= <- _] Hf.
  destruct (decide (cond_sql c0 = "TRUE")); [by apply elem_of_nil in Hf|]. by destruct (proj2 (build_where_written _ _ _ _ _ _ Hb) f Hf).
Qed.
Lemma legacy_filter_fields object f :
  f ∈ collect_filter_fields (JObject object) → Forall (λ k, starts_with "$" k = false) (map fst object) → f ∈ map fst object.
Proof.
  cbn [collect_filter_fields]. intros ([k v] & Hin & Hf)%elem_of_fields HF.
  assert (k ∈ map fst object) as Hk. { change (map fst object) with (object.*1). apply list_elem_of_fmap. by exists (k, v). }
  rewrite (proj1 (Forall_forall _ _) HF k Hk) in Hf. cbn in Hf. by apply list_elem_of_singleton in Hf as ->.
Qed.

(** A remote read names no declared column that was not asked for when it was
    authorised: when every field the request names is in the snapshot of a grant,
    every column its condition and its order name is, or is the creation time. *)
Theorem remote_read_stays_in_scope types app entity op data mode s (snapshot : list string) :
  (∀ f, readable_field types f → starts_with "$" f = false) →
  (∀ f, f ∈ snapshot → starts_with "$" f = false) →
  (∀ f, f ∈ remote_requested_fields op data → f ∈ snapshot) →
  read_stmt types app entity op data mode = Ok s →
  ∀ f, f ∈ stmt_columns s → f ∈ snapshot ∨ f = "created_at" ∨ types !! f = None.
Proof.
  intros Hty Hsn Hreq Hs f Hf. unfold read_stmt in Hs. destruct (bool_decide (op ∈ ["findAll"; "findOne"])) eqn:Hop.
  - apply bind_ok_iff in Hs as (object & Ho & Hs). apply bind_ok_iff in Hs as ([] & _ & Hs). apply bind_ok_iff in Hs as (bs & _ & Hs).
    injection Hs as <-. apply ok_or_ok_iff in Ho. left. apply Hreq. unfold remote_requested_fields. rewrite Ho.
    rewrite bool_decide_true; [done|]. apply bool_decide_eq_true in Hop. set_solver.
  - apply page_stmt_inv in Hs as (object & c & binds & idx & order_by & direction & limit & offset & -> & Hopt & Hread & Hw & Hq & ->).
    destruct (parse_query_options_bounds _ _ _ _ _ Hq) as (_ & _ & _ & ->).
    assert (∀ g, g ∈ query_field_names (Some (page_filter (negb (bool_decide (op = "findPage"))) object)) (obj_get "orderBy" object ≫= as_str) →
              g ∈ snapshot) as Hin.
    { intros g Hg. unfold page_filter in Hg. rewrite negb_involutive in Hg. unfold remote_requested_fields in Hreq. cbn [as_object] in Hreq.
      rewrite bool_decide_false in Hreq by (intros Hi; apply bool_decide_eq_false in Hop; apply Hop; set_solver).
      destruct (bool_decide (op = "findPage") || has_options object) eqn:Hu.
      - apply Hreq. apply elem_of_query_fields. apply elem_of_query_fields in Hg as [Hg|Hg]; [|by right]. left.
        by destruct (obj_get "where" object).
      - apply elem_of_query_fields in Hg as [Hg|Hg].
        + apply Hreq, legacy_filter_fields; [done|]. apply Forall_forall. intros k Hk. by apply Hsn, Hreq.
        + exfalso. apply orb_false_iff in Hu as [_ Hu]. apply Bool.not_true_iff_false in Hu. apply Hu. unfold has_options.
          apply existsb_exists. exists "orderBy". split; [by right; left|]. apply bool_decide_eq_true. by destruct (obj_get "orderBy" object). }
    cbn [stmt_columns] in Hf. apply elem_of_cons in Hf as [->|Hf].
    + unfold validate_sort_field. destruct (obj_get "orderBy" object ≫= as_str) as [o|] eqn:Ho; [|by right; left].
      destruct (types !! o) as [t|]; [|by right; left]. destruct (f_sensitive t); [by right; left|]. left. apply Hin, elem_of_query_fields. by right.
    + destruct (where_conditions_fields _ _ _ _ _ _ Hw Hf) as [Hc|Hd]; [left; apply Hin, elem_of_query_fields; by left|].
      right; right. destruct (types !! f) as [t|] eqn:Ht; [|done]. exfalso.
      assert (is_sensitive types f = false) as Hns.
      { cbn [where_conditions] in Hw. destruct (build_where_clause _ _ _ _) as [[c0 s0]|] eqn:Hb; [|done]. cbn in Hw. injection Hw as <- _.
        destruct (decide (cond_sql c0 = "TRUE")); [by apply elem_of_nil in Hf|]. by destruct (proj2 (build_where_written _ _ _ _ _ _ Hb) f Hf). }
      unfold is_sensitive in Hns. rewrite Ht in Hns. cbn in Hns. rewrite (Hty f) in Hd; [done|by exists t].
Qed.
End ReadsExact.

(** ** Publications *)

Section PublishedExact.
Context `{!Parsers} `{!Postgres} `{!Collation} (fault : CStmt → option string) (new : uuid) (debug_error : ApiError → string).

Lemma published_conditions_mean types predicate filter fixed requested s binds idx :
  build_where_clause show_json types predicate ([], 0) = Ok (fixed, s) →
  build_where_clause show_json types filter s = Ok (requested, (binds, idx)) →
  ∀ row, eval_cond null_cell compare_cell contains_cell binds row fixed = wanted types (Some predicate) row
       ∧ eval_cond null_cell compare_cell contains_cell binds row requested = wanted types (Some filter) row.
Proof.
  intros Hb1 Hb2 row. destruct s as [b1 i1].
  destruct (build_where_means show_json types null_cell compare_cell contains_cell _ _ _ _ Hb1) as [E1 M1].
  destruct (E1 eq_refl) as [Hi _]. cbn in Hi.
  destruct (build_where_means show_json types null_cell compare_cell contains_cell _ _ _ _ Hb2) as [E2 M2].
  destruct (E2 Hi) as [Hi2 [b Hb]]. cbn in Hi2, Hb. split.
  - specialize (M1 eq_refl b row). cbn in M1. by rewrite Hb, M1.
  - specialize (M2 Hi [] row). cbn in M2. by rewrite app_nil_r in M2.
Qed.
Lemma and3_true_iff a b : and3 a b = Some true ↔ a = Some true ∧ b = Some true.
Proof. destruct a as [[]|], b as [[]|]; cbn; naive_solver. Qed.
(** The answer a mode makes of the rows in scope. *)
Definition published_answer (types : FieldTypes) (fields : list string) (sort direction : string) (limit offset : Z) (mode : PublicationRead)
    (rows : list (uuid * Cells)) (v : JsonValue) : Prop :=
  let object := λ e : uuid * Cells, published_object types fields e.2 in
  match mode with
  | PubPage => v = page_object (map object (page_of sort direction limit offset rows)) (length rows)
  | PubOne => match rows with [] => v = JNull | _ => ∃ e, e ∈ rows ∧ v = object e end
  | PubAll => v = JArray (map object (ordered sort direction rows)) ∧ (Z.of_nat (length rows) ≤ 10000)%Z
  end.

Lemma published_exact pol tbls types app entity fields predicate filter options mode v :
  published fault new debug_error pol tbls types app entity fields predicate filter options mode = Ok v →
  ∃ rows sort direction limit offset,
    NoDup rows.*1
    ∧ (∀ id row, (id, row) ∈ rows ↔ rows_of tbls (app, entity) !! id = Some row ∧ sees pol (app, entity) id row = true
         ∧ wanted types (Some predicate) row = Some true ∧ wanted types (Some filter) row = Some true)
    ∧ sort ∈ fields ∧ (1 ≤ limit ≤ 1000)%Z ∧ (0 ≤ offset)%Z
    ∧ published_answer types fields sort direction limit offset mode rows v
    ∧ (Z.of_nat (String.length (show_json v)) ≤ MAX_RESPONSE)%Z.
Proof.
  unfold published, published_stmt. intros Hp. apply bind_ok_iff in Hp as (s & Hs & Hp). apply bind_ok_iff in Hp as (rs & Hr & Hp).
  apply bind_ok_iff in Hs as ([fixed s1] & Hb1 & Hs). apply bind_ok_iff in Hs as ([requested [binds idx]] & Hb2 & Hs).
  apply bind_ok_iff in Hs as ([[[order_by direction] limit] offset] & Hq & Hs). apply bind_ok_iff in Hs as (sort & _ & Hs).
  apply bind_ok_iff in Hs as ([] & Hsort & Hs). injection Hs as <-. apply ensure_ok_iff, bool_decide_eq_true in Hsort.
  apply map_err_ok_iff in Hb1, Hb2. pose proof (published_conditions_mean _ _ _ _ _ _ _ _ Hb1 Hb2) as M.
  destruct (parse_query_options_bounds _ _ _ _ _ Hq) as (Hl & Ho & _ & _).
  apply fetch_ok in Hr as (t & n & Hr). unfold run_cstmt in Hr. destruct (fault _); [done|]. injection Hr as _ Hrs _.
  unfold src_key in Hrs. cbn [src_app src_entity src_types] in Hrs.
  apply bind_ok_iff in Hp as (w & Hw & Hp). destruct (bool_decide (MAX_RESPONSE < _)%Z) eqn:Hmax; [done|]. injection Hp as ->.
  apply bool_decide_eq_false in Hmax.
  exists (scoped_rows pol tbls (app, entity) fixed requested binds), sort, direction, limit, offset.
  split_and!; [apply NoDup_filter_rows| |done|lia|lia|lia| |lia].
  - intros id row. unfold scoped_rows. rewrite elem_of_filter_rows. cbn [fst snd]. destruct (M row) as [-> ->].
    rewrite andb_true_iff, bool_decide_eq_true, and3_true_iff. naive_solver.
  - revert Hrs Hw. generalize (scoped_rows pol tbls (app, entity) fixed requested binds). intros rows <- Hw.
    unfold published_answer. destruct mode; cbn [answer_rows fst] in *.
    + cbn [window] in Hw. rewrite length_map, length_take in Hw. rewrite (Permutation_length (ordered_permutation _ _ _)) in Hw.
      destruct (bool_decide _) eqn:Hlen; [done|]. injection Hw as <-. apply bool_decide_eq_false in Hlen. split; [|lia].
      rewrite take_ge; [done|]. rewrite (Permutation_length (ordered_permutation _ _ _)). lia.
    + injection Hw as <-. pose proof (scanned_permutation rows) as HP. destruct rows as [|e rows].
      { apply Permutation_nil_r in HP. by rewrite HP. }
      destruct (scanned (e :: rows)) as [|e' l]; [by apply Permutation_nil_l in HP|]. exists e'. split; [|done]. rewrite <-HP. by left.
    + by injection Hw as <-.
Qed.
(** A read of a publication answers with the records that satisfy both the
    publication's own predicate and the caller's filter, and nothing else of them
    than the published fields: whatever the caller asks, the predicate stands and a
    field that is not published neither sorts nor shows.  An answer that would pass
    ten thousand records or four mebibytes is an error, never a part of the answer. *)
Theorem publication_read_is_scoped pol tbls types app entity fields predicate filter options mode v :
  published fault new debug_error pol tbls types app entity fields predicate filter options mode = Ok v →
  ∃ rows sort direction limit offset,
    NoDup rows.*1
    ∧ (∀ id row, (id, row) ∈ rows ↔ rows_of tbls (app, entity) !! id = Some row ∧ sees pol (app, entity) id row = true
         ∧ wanted types (Some predicate) row = Some true ∧ wanted types (Some filter) row = Some true)
    ∧ sort ∈ fields ∧ (1 ≤ limit ≤ 1000)%Z ∧ (0 ≤ offset)%Z
    ∧ published_answer types fields sort direction limit offset mode rows v
    ∧ (Z.of_nat (String.length (show_json v)) ≤ MAX_RESPONSE)%Z.
Proof. apply published_exact. Qed.
End PublishedExact.

(** ** Writes touch only what they name *)

Section WritesExact.
Context `{!Parsers} `{!Postgres} `{!Collation} (fault : CStmt → option string) (fresh : nat → uuid) (new_v5 : string → uuid).

Definition mutation_objects (m : Mutation) : list (list (string * JsonValue)) :=
  match m with MCreate o | MUpdate _ o => [o] | MBulkCreate l => l | MDelete _ => [] end.
(** [execute] takes "insert" for "create". *)
Definition mutation_op (op : string) : string := if decide (op = "insert") then "create" else op.

Lemma check_writable_ok types k : check_writable types k = Ok tt → readable_field types k ∧ is_system_field k = false.
Proof.
  unfold check_writable. destruct (bool_decide (k ∈ _)) eqn:Hs; [done|]. destruct (types !! k) as [f|] eqn:Hk; [|done].
  destruct (f_sensitive f) eqn:Hf; [done|]. intros _. split; [by exists f|]. exact Hs.
Qed.
Lemma writable_object_ok value types o :
  writable_object value types = Ok o →
  value = JObject o ∧ o ≠ [] ∧ ∀ k, k ∈ map fst o → readable_field types k ∧ is_system_field k = false.
Proof.
  unfold writable_object. intros Hw. apply bind_ok_iff in Hw as (o' & Ho & Hw). apply ok_or_ok_iff in Ho.
  destruct value; try done. injection Ho as ->. destruct o' as [|e o']; [done|]. apply bind_ok_iff in Hw as ([] & Hf & Hw).
  injection Hw as <-. split_and!; [done..|]. intros k Hk. apply try_for_each_ok_iff in Hf. apply check_writable_ok.
  by apply (proj1 (Forall_forall _ _) Hf k).
Qed.
Lemma elem_of_written op data records k :
  (if bool_decide (op ∈ ["create"; "insert"]) then [data]
   else if decide (op = "update") then from_option (λ v, [v]) [] (get data "data")
   else if decide (op = "bulk_create") then default [] (as_array data) else []) = records →
  k ∈ remote_written_fields op data ↔ ∃ o, JObject o ∈ records ∧ k ∈ map fst o.
Proof.
  intros <-. unfold remote_written_fields, sorted_unique. rewrite elem_of_dedup, elem_of_sort_strings.
  rewrite elem_of_fields. setoid_rewrite list_elem_of_omap. split.
  - intros (o & (v & Hv & Ho) & Hk). destruct v; try done. injection Ho as ->. eauto.
  - intros (o & Ho & Hk). exists o. split; [|done]. by exists (JObject o).
Qed.

(** A mutation that is accepted writes only fields that were named when it was
    authorised, that the entity declares and that are neither sensitive nor the
    system's; a batch has between one and a thousand objects, and none of them is
    empty. *)
Lemma writes_authorised types op data key m :
  validate types (mutation_op op) data key = Ok m →
  (∀ o, o ∈ mutation_objects m → o ≠ [] ∧ ∀ k, k ∈ map fst o →
     k ∈ remote_written_fields op data ∧ readable_field types k ∧ is_system_field k = false)
  ∧ length (mutation_objects m) ≤ MAX_BULK_SIZE.
Proof using Type.
  clear fault fresh new_v5.
  unfold validate, mutation_op. intros Hv.
  destruct (decide ((if decide (op = "insert") then "create" else op) = "create")) as [Hc|Hc].
  { apply result_map_ok_iff in Hv as (o & Ho & <-). apply writable_object_ok in Ho as (-> & Hne & Hk). split; [|cbn; unfold MAX_BULK_SIZE; lia].
    intros o' ->%list_elem_of_singleton. split; [done|]. intros k Hin. split; [|by apply Hk].
    apply (elem_of_written op (JObject o) [JObject o]).
    - rewrite bool_decide_true; [done|]. destruct (decide (op = "insert")) as [->|]; [set_solver|]. subst. set_solver.
    - exists o. split; [by left|done]. }
  destruct (decide (op = "insert")) as [->|Hi]; [done|]. assert (bool_decide (op ∈ ["create"; "insert"]) = false) as Hn.
  { apply bool_decide_eq_false. set_solver. }
  destruct (decide (op = "bulk_create")) as [->|Hb].
  { destruct key; [done|]. apply bind_ok_iff in Hv as (rows & Hrows & Hv). apply ok_or_ok_iff in Hrows. destruct data; try done. injection Hrows as ->.
    apply bind_ok_iff in Hv as ([] & Hlen & Hv). apply ensure_ok_iff, bool_decide_eq_true in Hlen. apply result_map_ok_iff in Hv as (os & Hos & <-).
    apply try_map_ok_iff in Hos. split; [|cbn; rewrite <-(Forall2_length _ _ _ Hos); lia]. intros o Ho.
    apply list_elem_of_lookup in Ho as [i Hio]. destruct (Forall2_lookup_r _ _ _ _ _ Hos Hio) as (v & Hiv & Hw).
    apply writable_object_ok in Hw as (-> & Hne & Hk). split; [done|]. intros k Hin. split; [|by apply Hk].
    apply (elem_of_written "bulk_create" (JArray rows) rows); [done|]. exists o. split; [|done]. by eapply list_elem_of_lookup_2. }
  destruct (bool_decide (op ∈ ["update"; "delete"])) eqn:Hud; [|done]. apply bind_ok_iff in Hv as (object & Hobj & Hv). apply ok_or_ok_iff in Hobj.
  apply bind_ok_iff in Hv as ([] & _ & Hv). apply bind_ok_iff in Hv as (text & _ & Hv). apply bind_ok_iff in Hv as (id & _ & Hv).
  destruct (decide (op = "delete")); [injection Hv as <-; split; [by intros o ?%elem_of_nil|cbn; lia]|].
  apply bind_ok_iff in Hv as (patch & Hpatch & Hv). apply ok_or_ok_iff in Hpatch. apply result_map_ok_iff in Hv as (o & Ho & <-).
  apply writable_object_ok in Ho as (-> & Hne & Hk). split; [|cbn; unfold MAX_BULK_SIZE; lia]. intros o' ->%list_elem_of_singleton.
  split; [done|]. intros k Hin. split; [|by apply Hk]. apply (elem_of_written op data [JObject o]); [|exists o; split; [by left|done]].
  rewrite Hn, decide_True by (apply bool_decide_eq_true in Hud; set_solver). unfold get. rewrite Hobj. cbn. by rewrite Hpatch.
Qed.

(** How a mutation may change the row of an identifier. *)
Inductive changes (pol : Policies) (types : FieldTypes) (app entity : string) (m : Mutation) (id : uuid) : option Cells → option Cells → Prop :=
  | Created o row : (m = MCreate o ∨ ∃ l, m = MBulkCreate l ∧ o ∈ l) → refuses pol (app, entity) id row = None →
      (∀ k, row !! k = if decide (k = "id") then Some (BUuid (Some id))
                       else match bound_for types o k with Some b => Some b | None => column_defaults app entity !! k end) →
      changes pol types app entity m id None (Some row)
  | Updated o row row' : m = MUpdate id o → sees pol (app, entity) id row = true → may_change pol (app, entity) id row = true →
      refuses pol (app, entity) id row' = None →
      (∀ k, row' !! k = if decide (k = "updated_at") then Some now_value
                        else match bound_for types o k with Some b => Some b | None => row !! k end) →
      changes pol types app entity m id (Some row) (Some row').
(** Tables that differ, if at all, in rows of one table, changed so; or, for a deletion, in
    the row it names, which its policies let it see and remove, and in what the references
    to that row make of others ([removed_with]). *)
Definition confined_rows (pol : Policies) (types : FieldTypes) (app entity : string) (m : Mutation) (tbls tbls' : Tables) : Prop :=
  (∀ k, k ≠ (app, entity) → tbls' !! k = tbls !! k)
  ∧ ∀ id, rows_of tbls' (app, entity) !! id = rows_of tbls (app, entity) !! id
        ∨ changes pol types app entity m id (rows_of tbls (app, entity) !! id) (rows_of tbls' (app, entity) !! id).
Definition confined (pol : Policies) (types : FieldTypes) (app entity : string) (m : Mutation) (tbls tbls' : Tables) : Prop :=
  match m with
  | MDelete id => tbls' = tbls ∨ ∃ row, rows_of tbls (app, entity) !! id = Some row
      ∧ sees pol (app, entity) id row = true ∧ may_remove pol (app, entity) id row = true ∧ removed_with (app, entity) id tbls tbls'
  | _ => confined_rows pol types app entity m tbls tbls'
  end.

Lemma confined_refl pol types app entity m tbls : confined_rows pol types app entity m tbls tbls.
Proof. split; [done|]. intros id. by left. Qed.
Lemma rows_of_insert tbls k tbl : rows_of (<[k := tbl]> tbls) k = tbl.
Proof. unfold rows_of. by rewrite lookup_insert_eq. Qed.
Lemma confined_set pol types app entity m tbls tbl id :
  (∀ j, j ≠ id → tbl !! j = rows_of tbls (app, entity) !! j) →
  tbl !! id = rows_of tbls (app, entity) !! id ∨ changes pol types app entity m id (rows_of tbls (app, entity) !! id) (tbl !! id) →
  confined_rows pol types app entity m tbls (<[(app, entity) := tbl]> tbls).
Proof.
  intros Hne Hid. split; [intros k Hk; by apply lookup_insert_ne|]. intros j. rewrite rows_of_insert.
  destruct (decide (j = id)) as [->|Hj]; [done|]. left. by apply Hne.
Qed.
Lemma proposed_cells types o bs app entity id k :
  bind_entries types o = Ok bs →
  proposed (app, entity) id (tuple_cells (map fst o) bs 0) !! k
  = if decide (k = "id") then Some (BUuid (Some id))
    else match bound_for types o k with Some b => Some b | None => column_defaults app entity !! k end.
Proof.
  intros Hb%bind_entries_all. unfold proposed. cbn [fst snd]. destruct (decide (k = "id")) as [->|Hk]; [apply lookup_insert_eq|].
  rewrite lookup_insert_ne, lookup_union by done. pose proof (tuple_bound types _ _ [] k Hb) as E. rewrite app_nil_r in E.
  rewrite E. by destruct (bound_for types o k), (column_defaults app entity !! k).
Qed.

(** What storing one object does: a new row of it, or nothing when the key of the
    request already has a row. *)
Lemma insert_object_spec pol types app entity new o key tbls tbls' v :
  insert_object fault new_v5 pol types {| src_app := app; src_entity := entity; src_types := types |} new o key tbls = Ok (tbls', v) →
  let id := default new (new_v5 <$> key) in
  ∃ row, rows_of tbls' (app, entity) !! id = Some row ∧ v = row_object types row
    ∧ ((rows_of tbls (app, entity) !! id = None ∧ tbls' = <[(app, entity) := <[id := row]> (rows_of tbls (app, entity))]> tbls
        ∧ refuses pol (app, entity) id row = None
        ∧ ∀ k, row !! k = if decide (k = "id") then Some (BUuid (Some id))
                          else match bound_for types o k with Some b => Some b | None => column_defaults app entity !! k end)
       ∨ (is_Some key ∧ tbls' = tbls ∧ sees pol (app, entity) id row = true)).
Proof.
  unfold insert_object. intros Hi. apply bind_ok_iff in Hi as (bs & Hbs & Hi). apply bind_ok_iff in Hi as ([t1 [rows n]] & Hr & Hi). cbn [fst] in Hi.
  assert (∀ id, inserted {| src_app := app; src_entity := entity; src_types := types |}
            (insert_one pol (app, entity) (rows_of tbls (app, entity)) id (tuple_cells (map fst o) bs 0)) tbls = Ok (t1, (rows, n)) →
          ∃ row, rows = [row_object types row] ∧ rows_of tbls (app, entity) !! id = None
            ∧ t1 = <[(app, entity) := <[id := row]> (rows_of tbls (app, entity))]> tbls ∧ refuses pol (app, entity) id row = None
            ∧ row = proposed (app, entity) id (tuple_cells (map fst o) bs 0)) as Hnew.
  { intros id Hins. unfold inserted in Hins. apply bind_ok_iff in Hins as ([tbl row] & Ho & Hins). injection Hins as <- <- _.
    apply map_err_ok_iff in Ho. unfold insert_one in Ho. destruct (refuses pol (app, entity) id _) eqn:Hre; [done|].
    destruct (rows_of tbls (app, entity) !! id) eqn:Hid; [done|]. injection Ho as <- <-. eexists. by split_and!. }
  unfold run_cstmt in Hr. destruct (fault _); [done|]. unfold src_key in Hr. cbn [src_app src_entity] in Hr.
  destruct key as [key|]; cbn [fmap option_fmap option_map default from_option id] in *.
  - destruct (refuses pol (app, entity) (new_v5 key) _) eqn:Hre.
    { apply Hnew in Hr as (row & -> & Hn & -> & Hrow & ->). congruence. }
    destruct (rows_of tbls (app, entity) !! new_v5 key) as [old|] eqn:Hold.
    + injection Hr as <- <- <-. apply bind_ok_iff in Hi as ([t2 [rows2 n2]] & Hr2 & Hi). apply bind_ok_iff in Hi as (row & Hrow & Hi).
      injection Hi as <- <-. unfold run_cstmt in Hr2. destruct (fault _); [done|]. injection Hr2 as <- <- _. apply ok_or_ok_iff in Hrow.
      unfold src_key in Hrow. cbn [src_app src_entity src_types fst answer_rows] in Hrow. rewrite Hold in Hrow.
      destruct (sees pol (app, entity) (new_v5 key) old) eqn:Hse; [|done]. injection Hrow as <-. exists old. split_and!; [done..|]. right. eauto.
    + apply Hnew in Hr as (row & -> & Hn & -> & Hrow & Hp). injection Hi as <- <-. exists row.
      rewrite rows_of_insert, lookup_insert_eq. split_and!; [done..|]. left. split_and!; try done. intros k. rewrite Hp. by apply proposed_cells.
  - apply Hnew in Hr as (row & -> & Hn & -> & Hrow & Hp). injection Hi as <- <-. exists row.
    rewrite rows_of_insert, lookup_insert_eq. split_and!; [done..|]. left. split_and!; try done. intros k. rewrite Hp. by apply proposed_cells.
Qed.

(** The row stored of an object. *)
Definition stored (types : FieldTypes) (app entity : string) (tbls : Tables) (o : list (string * JsonValue)) (v : JsonValue) : Prop :=
  ∃ id row, rows_of tbls (app, entity) !! id = Some row ∧ v = row_object types row
    ∧ ∀ k, row !! k = if decide (k = "id") then Some (BUuid (Some id))
                      else match bound_for types o k with Some b => Some b | None => column_defaults app entity !! k end.
Lemma insert_objects_spec pol types app entity all objects i tbls tbls' vs :
  (∀ o, o ∈ objects → o ∈ all) →
  insert_objects fault fresh new_v5 pol types {| src_app := app; src_entity := entity; src_types := types |} i objects tbls = Ok (tbls', vs) →
  confined_rows pol types app entity (MBulkCreate all) tbls tbls'
  ∧ (∀ id row, rows_of tbls (app, entity) !! id = Some row → rows_of tbls' (app, entity) !! id = Some row)
  ∧ Forall2 (stored types app entity tbls') objects vs.
Proof.
  revert i tbls vs. induction objects as [|o objects IH]; intros i tbls vs Hall Hi; cbn [insert_objects] in Hi.
  { injection Hi as <- <-. split_and!; [apply confined_refl|done|done]. }
  apply bind_ok_iff in Hi as ([t1 v] & Ho & Hi). apply bind_ok_iff in Hi as ([t2 vs2] & Hrest & Hi). injection Hi as <- <-.
  apply insert_object_spec in Ho as (row & Hrow & -> & [(Hnone & -> & Href & Hcells)|([? ?] & _)]); [|done]. cbn in Hnone, Href, Hrow, Hcells.
  destruct (IH _ _ _ (λ o' Ho', Hall o' (list_elem_of_further _ _ _ Ho')) Hrest) as ([Hfr Hid] & Hkeep & Hst). split_and!.
  - split; [intros k Hk; rewrite (Hfr k Hk); by apply lookup_insert_ne|]. intros j. rewrite rows_of_insert in Hid, Hkeep, Hrow.
    destruct (decide (j = fresh i)) as [->|Hj].
    + right. rewrite Hnone, (Hkeep (fresh i) row) by apply lookup_insert_eq. eapply Created; [|done|done]. right. exists all. split; [done|].
      apply Hall. by left.
    + specialize (Hid j). by rewrite lookup_insert_ne in Hid by done.
  - intros j r Hj. apply Hkeep. rewrite rows_of_insert. rewrite lookup_insert_ne; [done|]. intros Heq. cbn in Heq. subst j. by rewrite Hj in Hnone.
  - constructor; [|done]. exists (fresh i), row. split_and!; [by apply Hkeep|done|done].
Qed.

Lemma mutation_confined pol types app entity op data key tbls tbls' v :
  execute_mutation fault fresh new_v5 pol types app entity op data key tbls = Ok (tbls', v) →
  ∃ m, validate types op data key = Ok m ∧ confined pol types app entity m tbls tbls'
    ∧ match m with
      | MBulkCreate l => ∃ vs, v = JArray vs ∧ Forall2 (stored types app entity tbls') l vs
      | MUpdate id _ => ∃ row, rows_of tbls' (app, entity) !! id = Some row ∧ v = row_object types row
      | MDelete id => key = None → rows_of tbls' (app, entity) !! id = None ∧ is_Some (rows_of tbls (app, entity) !! id)
      | MCreate _ => ∃ id row, rows_of tbls' (app, entity) !! id = Some row ∧ v = row_object types row
      end.
Proof.
  unfold execute_mutation. cbv zeta. intros Hx. apply bind_ok_iff in Hx as (m & Hm & Hx). exists m. split; [done|].
  destruct m as [o|l|id o|id].
  - apply insert_object_spec in Hx as (row & Hrow & -> & Hcase). split; [|eauto].
    destruct Hcase as [(Hnone & -> & Href & Hcells)|(_ & -> & _)]; [|apply confined_refl].
    eapply confined_set; [intros j Hj; by apply lookup_insert_ne|]. right. rewrite Hnone, lookup_insert_eq. eapply Created; [by left|done|done].
  - apply bind_ok_iff in Hx as ([t2 vs] & Hins & Hx). injection Hx as <- <-.
    apply (insert_objects_spec _ _ _ _ l) in Hins as (Hc & _ & Hst); [|done]. split; [done|]. eauto.
  - apply bind_ok_iff in Hx as (bs & Hbs & Hx). apply bind_ok_iff in Hx as ([t2 [rows n]] & Hr & Hx). apply bind_ok_iff in Hx as (w & Hw & Hx).
    injection Hx as <- <-. apply ok_or_ok_iff in Hw. unfold run_cstmt in Hr. destruct (fault _); [done|]. unfold src_key in Hr. cbn [src_app src_entity src_types] in Hr.
    apply bind_ok_iff in Hr as ([tbl row'] & Hu & Hr). apply map_err_ok_iff in Hu. injection Hr as <- <- _.
    unfold update_one in Hu. destruct (rows_of tbls (app, entity) !! id) as [row|] eqn:Hrow; [|by injection Hu as <- <-].
    destruct (sees pol (app, entity) id row) eqn:Hse; [|by injection Hu as <- <-].
    destruct (may_change pol (app, entity) id row) eqn:Hch; [|by injection Hu as <- <-]. cbn [andb] in Hu.
    destruct (refuses pol (app, entity) id _) eqn:Hre; [done|]. injection Hu as <- <-. injection Hw as <-. split.
    + eapply confined_set; [intros j Hj; by apply lookup_insert_ne|]. right. rewrite Hrow, lookup_insert_eq. eapply Updated; [done..|].
      intros k. rewrite lookup_union. destruct (decide (k = "updated_at")) as [->|Hk].
      * rewrite lookup_insert_eq. by destruct (row !! "updated_at").
      * rewrite lookup_insert_ne by done. apply bind_entries_all in Hbs. pose proof (tuple_bound types _ _ [] k Hbs) as E. rewrite app_nil_r in E.
        rewrite E. by destruct (bound_for types o k), (row !! k).
    + rewrite rows_of_insert, lookup_insert_eq. eauto.
  - apply bind_ok_iff in Hx as ([t2 [rows n]] & Hr & Hx). apply bind_ok_iff in Hx as ([] & He & Hx). injection Hx as <- <-. apply ensure_ok_iff in He.
    unfold run_cstmt in Hr. destruct (fault _); [done|]. apply bind_ok_iff in Hr as ([t3 k] & Hd & Hr). apply map_err_ok_iff in Hd. injection Hr as <- <- <-.
    unfold src_key in Hd. cbn [src_app src_entity] in Hd. apply delete_one_ok in Hd as [[-> ->]|(-> & row & Hrow & Hse & Hrm & Hx)].
    + split; [by left|]. intros ->. done.
    + split; [right; by exists row|]. intros _. rewrite Hrow. split; [apply Hx|by eexists].
Qed.

(** A mutation changes nothing but what it names: no other table; of its table
    only rows it creates from its objects, with the values sent and the defaults, the
    one row it updates, in the columns sent and the update time; or the one row it
    deletes, with what the references to it take along or lose; each as the policies of
    the transaction allow.  A batch is stored
    entirely, object by object, or fails. *)
Theorem mutation_touches_only_what_it_names pol types app entity op data key tbls tbls' v :
  execute_mutation fault fresh new_v5 pol types app entity op data key tbls = Ok (tbls', v) →
  ∃ m, validate types op data key = Ok m ∧ confined pol types app entity m tbls tbls'
    ∧ match m with
      | MBulkCreate l => ∃ vs, v = JArray vs ∧ Forall2 (stored types app entity tbls') l vs
      | MUpdate id _ => ∃ row, rows_of tbls' (app, entity) !! id = Some row ∧ v = row_object types row
      | MDelete id => key = None → rows_of tbls' (app, entity) !! id = None ∧ is_Some (rows_of tbls (app, entity) !! id)
      | MCreate _ => ∃ id row, rows_of tbls' (app, entity) !! id = Some row ∧ v = row_object types row
      end.
Proof. apply mutation_confined. Qed.

(** A create under an idempotency key stores at most one row, whatever number of
    times it is retried: after a first success the row of the key is there, and a
    retry that succeeds, with whatever data, changes nothing and answers that row. *)
Theorem keyed_create_is_idempotent pol types app entity data data' key tbls tbls1 v1 tbls2 v2 :
  execute_mutation fault fresh new_v5 pol types app entity "create" data (Some key) tbls = Ok (tbls1, v1) →
  execute_mutation fault fresh new_v5 pol types app entity "create" data' (Some key) tbls1 = Ok (tbls2, v2) →
  tbls2 = tbls1 ∧ v2 = v1 ∧ ∃ row, rows_of tbls1 (app, entity) !! new_v5 key = Some row ∧ v1 = row_object types row.
Proof.
  unfold execute_mutation. cbv zeta. intros Hx1 Hx2.
  apply bind_ok_iff in Hx1 as (m1 & Hm1 & Hx1). apply bind_ok_iff in Hx2 as (m2 & Hm2 & Hx2).
  apply result_map_ok_iff in Hm1 as (o1 & _ & <-). apply result_map_ok_iff in Hm2 as (o2 & _ & <-).
  apply insert_object_spec in Hx1 as (row1 & Hr1 & -> & _). apply insert_object_spec in Hx2 as (row2 & Hr2 & -> & Hcase). cbn in Hr1, Hr2, Hcase.
  destruct Hcase as [(Hnone & _)|(_ & -> & _)]; [congruence|]. split; [done|]. rewrite Hr1 in Hr2. injection Hr2 as <-. eauto.
Qed.
End WritesExact.

(** ** Projections keep only what was granted *)

(** The objects an answer holds, at the depth a projection reaches. *)
Definition answer_objects (v : JsonValue) : list (list (string * JsonValue)) :=
  match v with JArray rows => omap as_object rows | JObject o => [o] | _ => [] end.
Lemma project_record_fields record snapshot o :
  project_record record snapshot = JObject o → ∀ k, k ∈ map fst o → k ∈ snapshot.
Proof.
  destruct record; try done. cbn. intros [= <-] k Hk. change (map fst) with (fmap (M := list) (@fst string JsonValue)) in Hk.
  apply list_elem_of_fmap in Hk as (kv & -> & Hin). apply list_elem_of_In, filter_In in Hin as [_ Hin]. by apply bool_decide_eq_true in Hin.
Qed.
Lemma project_records_fields v snapshot o : o ∈ answer_objects (project_records v snapshot) → ∀ k, k ∈ map fst o → k ∈ snapshot.
Proof.
  destruct v as [| | | |rows|obj]; cbn [project_records answer_objects project_record]; try (by intros ?%elem_of_nil).
  - intros (w & Hw & Ho)%list_elem_of_omap. apply list_elem_of_In, in_map_iff in Hw as (r & Hr & _). destruct w; try done. injection Ho as ->.
    by eapply project_record_fields.
  - intros ->%list_elem_of_singleton. exact (project_record_fields (JObject obj) snapshot _ eq_refl).
Qed.

Module CollectionExamples.
#[local] Existing Instance RecordExamples.toy_parsers.
#[local] Existing Instance RecordExamples.toy_postgres.
#[local] Instance toy_collation : Collation :=
  {| equal_cell row f b := x ← row !! f; Some (bool_decide (RecordExamples.cell_text x = RecordExamples.cell_text b));
     scanned l := l; scanned_permutation := λ _, reflexivity _ |}.
Definition no_fault (_ : CStmt) : option string := None.
Definition debug (_ : ApiError) : string := EmptyString.
Definition key_uuid (k : string) : uuid := "v5-" +:+ k.
Notation types := RecordExamples.demo_types.
Notation tables := RecordExamples.toy_tables.
Notation open := RecordExamples.open_policies.
Definition adas : JsonValue := JObject [("name", JString "ada")].
Definition find_adas : JsonValue := JObject [("orderBy", JString "name"); ("where", adas)].

Lemma page_answers_the_filter_witness :
  ∃ v rows, page no_fault "n" debug open tables types "crm" "person" find_adas false = Ok v ∧ length rows = 1
    ∧ v = page_object (map (λ e, row_object types e.2) (page_of "name" "DESC" 100 0 rows)) (length rows).
Proof.
  destruct (page no_fault "n" debug open tables types "crm" "person" find_adas false) as [v|e] eqn:Hp.
  - destruct (page_answers_the_filter no_fault "n" debug open tables types "crm" "person" find_adas false v Hp) as (_ & _ & _ & _).
    exists v, (selected open tables ("crm", "person") [ACompare "name" false "=" 1 EmptyString] ["ada"]).
    split; [reflexivity|]. split; [vm_compute; reflexivity|]. apply (f_equal ok) in Hp. vm_compute in Hp. injection Hp as <-. vm_compute. reflexivity.
  - exfalso. apply (f_equal is_ok) in Hp. vm_compute in Hp. discriminate Hp.
Defined.

Lemma declared_plain f : readable_field types f → starts_with "$" f = false.
Proof.
  intros (t & Ht & _). apply elem_of_map_to_list in Ht.
  assert (Forall (λ e, starts_with "$" e.1 = false) (map_to_list types)) as HF by (apply (bool_decide_unpack _); vm_compute; exact I).
  exact (proj1 (Forall_forall _ _) HF (f, t) Ht).
Qed.
Lemma remote_read_stays_in_scope_witness :
  ∃ s, read_stmt debug types "crm" "person" "find" find_adas EqAll = Ok s
    ∧ ∀ f, f ∈ stmt_columns s → f ∈ ["created_at"; "name"] ∨ f = "created_at" ∨ types !! f = None.
Proof.
  destruct (read_stmt debug types "crm" "person" "find" find_adas EqAll) as [s|e] eqn:Hs.
  - exists s. split; [reflexivity|]. apply (remote_read_stays_in_scope debug types "crm" "person" "find" find_adas EqAll s ["created_at"; "name"]).
    + exact declared_plain.
    + apply Forall_forall. apply (bool_decide_unpack _). vm_compute. exact I.
    + apply (Forall_forall (λ f, f ∈ ["created_at"; "name"])). apply (bool_decide_unpack _). vm_compute. exact I.
    + exact Hs.
  - exfalso. apply (f_equal is_ok) in Hs. vm_compute in Hs. discriminate Hs.
Defined.

Lemma publication_read_is_scoped_witness :
  ∃ v, published no_fault "n" debug open tables types "crm" "person" ["name"] adas (JObject [("age", JNull)]) [] PubAll = Ok v
    ∧ v = JArray [JObject [("name", JString "ada")]].
Proof.
  destruct (published no_fault "n" debug open tables types "crm" "person" ["name"] adas (JObject [("age", JNull)]) [] PubAll) as [v|e] eqn:Hp.
  - destruct (publication_read_is_scoped no_fault "n" debug open tables types "crm" "person" ["name"] adas (JObject [("age", JNull)]) [] PubAll v Hp)
      as (_ & _ & _). exists v. split; [reflexivity|]. apply (f_equal ok) in Hp. vm_compute in Hp. injection Hp as <-. reflexivity.
  - exfalso. apply (f_equal is_ok) in Hp. vm_compute in Hp. discriminate Hp.
Defined.

Definition patch : JsonValue := JObject [("data", JObject [("name", JString "eve")]); ("id", JString "u1")].

Lemma mutation_touches_only_what_it_names_witness :
  ∃ tbls' v, execute_mutation no_fault RecordExamples.toy_fresh key_uuid open types "crm" "person" "update" patch None tables = Ok (tbls', v)
    ∧ rows_of tbls' ("hr", "person") = rows_of tables ("hr", "person").
Proof.
  destruct (execute_mutation no_fault RecordExamples.toy_fresh key_uuid open types "crm" "person" "update" patch None tables) as [[tbls' v]|e] eqn:Hx.
  - destruct (mutation_touches_only_what_it_names no_fault RecordExamples.toy_fresh key_uuid open types "crm" "person" "update" patch None tables tbls' v Hx)
      as (m & _ & Hc & _). exists tbls', v. split; [reflexivity|].
    destruct m; cbn [confined] in Hc; [destruct Hc as [Hc _]; unfold rows_of; rewrite Hc; [reflexivity|discriminate]..|].
    destruct Hc as [->|(row & _ & _ & _ & _ & Hc & _)]; [reflexivity|]. apply map_eq. intros i. apply Hc. discriminate.
  - exfalso. apply (f_equal is_ok) in Hx. vm_compute in Hx. discriminate Hx.
Defined.

Definition once (data : JsonValue) (tbls : Tables) : result string (Tables * JsonValue) :=
  execute_mutation no_fault RecordExamples.toy_fresh key_uuid open types "crm" "person" "create" data (Some "run-1/step") tbls.
(** The retry is with other data, which is not stored. *)
Lemma keyed_create_is_idempotent_witness :
  ∃ t1 v1 t2 v2, once adas tables = Ok (t1, v1) ∧ once (JObject [("name", JString "bob")]) t1 = Ok (t2, v2) ∧ t2 = t1 ∧ v2 = v1.
Proof.
  destruct (once adas tables) as [[t1 v1]|e] eqn:Ho1; [|exfalso; apply (f_equal is_ok) in Ho1; vm_compute in Ho1; discriminate Ho1].
  destruct (once (JObject [("name", JString "bob")]) t1) as [[t2 v2]|e] eqn:Ho2.
  - destruct (keyed_create_is_idempotent no_fault RecordExamples.toy_fresh key_uuid open types "crm" "person" adas (JObject [("name", JString "bob")])
                "run-1/step" tables t1 v1 t2 v2 Ho1 Ho2) as (Ht & Hv & _). exists t1, v1, t2, v2.
    split; [reflexivity|]. split; [exact Ho2|]. split; [exact Ht|exact Hv].
  - exfalso. assert (is_ok (let? '(t1, _) := once adas tables in once (JObject [("name", JString "bob")]) t1) = true) as Hok by (vm_compute; reflexivity).
    rewrite Ho1 in Hok. cbn [result_bind] in Hok. rewrite Ho2 in Hok. discriminate Hok.
Defined.
End CollectionExamples.
