(* ===== verification/CrossOps.v ===== *)
(** * Operations on another app's collections (core/src/governance/cross_app_operations.rs)

    The one lifecycle of a collection operation across apps: it is authorised,
    audited as started, run in a transaction of the provider that checks its
    authority again, audited, and its answer projected.  [execute] is a program of
    steps on the grants, the records and the audit; between any two of its steps
    others may change all of them, and every step may fail. *)

From stdpp Require Import base numbers pretty gmap strings sets relations list.
From S2P Require Import Prelude Procs Str Ident Json DataTypes Perms Roles Authority Delegation Gates Ownership SqlScan Filters Records CrossApp Collections.

(** ** State *)

(** [rootcx_system.cross_app_read_audit] *)
Record AuditEntry := {
  ae_consumer : string; ae_provider : string; ae_entity : string; ae_action : string; ae_grant : option (uuid * Z);
  ae_installations : option (uuid * uuid); ae_projection : list string; ae_principal : option uuid; ae_human : option uuid;
  ae_outcome : string; ae_category : option string; ae_rows : option nat; ae_correlation : uuid; ae_kind : string }.
Record World := { xs : XState; data : Tables; audits : list AuditEntry }.

(** What becomes of a step: whether the database answers, the settings the pooled
    connection had, which statements it refuses, the identifiers it generates,
    whether the audit inside the transaction is stored, and the commit; a commit may
    be stored and its answer lost. *)
Inductive Commit := Committed | Refused | Lost.
Record Fate := {
  up : bool; conn_settings : Settings; fault_of : CStmt → option string; fresh_of : nat → uuid; audit_up : bool; commit_of : Commit }.

Notation Op := (Procs.Op World Fate (result string JsonValue)).

Definition record (e : AuditEntry) (w : World) : World := {| xs := xs w; data := data w; audits := audits w ++ [e] |}.
(** [record_read_audit], with whether it is stored. *)
Definition recording (e : AuditEntry) (k : bool → Op) : Op := Do (λ f w, if up f then (record e w, k true) else (w, k false)).
Definition set_xs (x : XState) (w : World) : World := {| xs := x; data := data w; audits := audits w |}.
Definition lift {A : Type} (p : XProc (result ApiError A)) (k : result ApiError A → Op) : Op :=
  lift_op xs set_xs up (Err INTERNAL_DB) p k.

(** ** The operation *)

Inductive Origin := Collection | QueryTool | DelegatedAgent.
#[export] Instance Origin_eq_dec : EqDecision Origin.
Proof. solve_decision. Defined.
Record OperationContext := {
  oc_state : option ContextState; oc_invocation : InvocationContext; oc_key : option string; oc_origin : Origin }.
(** [OperationContext::collection], [OperationContext::query_tool] *)
Definition collection_context (st : option ContextState) (inv : InvocationContext) (key : option string) : OperationContext :=
  {| oc_state := st; oc_invocation := inv; oc_key := key; oc_origin := Collection |}.
Definition query_tool_context (st : ContextState) : OperationContext :=
  {| oc_state := Some st; oc_invocation := NoInvocation; oc_key := None; oc_origin := QueryTool |}.

Definition action_of (op : string) : option string :=
  if bool_decide (op ∈ ["find"; "list"; "findAll"; "findPage"]) then Some "list"
  else if decide (op = "findOne") then Some "read"
  else if bool_decide (op ∈ ["create"; "insert"; "bulk_create"]) then Some "create"
  else if decide (op = "update") then Some "update"
  else if decide (op = "delete") then Some "delete"
  else None.
Definition is_mutation (action : string) : bool := bool_decide (action ∈ MUTATIONS).
Definition TIMEOUT_AGENT_TOOL_MS : Z := 30000.
Definition policy_of (o : Origin) : string * Z :=
  match o with Collection => ("cross_app_collection", TIMEOUT_INTERACTIVE_MS) | _ => ("agent_tool", TIMEOUT_AGENT_TOOL_MS) end.
Definition kind_of (o : Origin) : string := match o with DelegatedAgent => "agent_delegation" | _ => "application_grant" end.
Definition AUDIT_UNAVAILABLE : string := "cross-app audit unavailable".

#[export] Instance Field_eq_dec : EqDecision Field.
Proof. solve_decision. Defined.

Section Operations.
Context `{!Parsers} `{!Postgres} `{!Collation} (parse_manifest : string → option AppManifest).
Context (debug_error : ApiError → string) (new_v5 : string → uuid).
(** [publications::lock_in_tx], the role of an approval, and the row policies in force
    under the settings and the role of a transaction. *)
Context (publication_locked : Sys → ApprovedPublication → result string unit) (role_name : uuid → string)
  (rls : Sys → Settings → string → Policies).

Definition catalog_of (x : XState) : Catalog :=
  {| manifests := (λ a, parse_manifest (a_manifest a)) <$> apps (base x); catalog_fault := None |}.
Definition types_in (x : XState) (app entity : string) : option FieldTypes := ok (field_type_map (catalog_of x) app entity).

Section Execute.
Context (consumer provider op entity : string) (payload : JsonValue) (c : OperationContext) (correlation : uuid).

Definition origin_is_agent : bool := bool_decide (oc_origin c = DelegatedAgent).
Definition entry_of (authority : option AuthorizedRead) (action : string) (principal human : option uuid) (outcome : string)
    (category : option string) (rows : option nat) : AuditEntry :=
  {| ae_consumer := consumer; ae_provider := provider; ae_entity := entity; ae_action := action;
     ae_grant := (λ a, (ar_grant_id a, ar_grant_version a)) <$> authority;
     ae_installations := (λ a, (ar_consumer_installation a, ar_provider_installation a)) <$> authority;
     ae_projection := from_option ar_fields [] authority;
     ae_principal := principal; ae_human := human; ae_outcome := outcome; ae_category := category; ae_rows := rows;
     ae_correlation := correlation; ae_kind := kind_of (oc_origin c) |}.
Definition deny (action : string) (principal human : option uuid) (category message : string) : Op :=
  recording (entry_of None action principal human "denied" (Some category) None)
    (λ stored, Done (Err (if stored then message else AUDIT_UNAVAILABLE))).
Definition first_some {A : Type} (a b : option A) : option A := match a with Some _ => a | None => b end.

Definition permits (st : ContextState) (action : string) : bool :=
  let action := if bool_decide (action ∈ ["list"; "read"]) then "read" else action in
  let key := "app:" +:+ provider +:+ ":" +:+ entity +:+ "." +:+ action in
  has_permission (cx_effective_perms st) key || has_permission (cx_effective_perms st) (key +:+ ".own")
  || (bool_decide (action = "read") && has_permission (cx_effective_perms st) (key +:+ ".shared")).
Definition UNAVAILABLE : ApiError := NotFound "collection unavailable".
Definition authorize_agent_collection (st : ContextState) (action : string) : XProc (result ApiError unit) :=
  bindP (pure (try? ensure (permits st action) (Forbidden "delegated collection permission denied") in validate_app_id provider)) (λ _,
  bindP (query (λ x, ensure (installed (view x) provider
                             && existsb (λ i, bool_decide (i_app_id i = provider) && i_active i) (app_installations (view x))) UNAVAILABLE)) (λ _,
  query (λ x, match entity_exists (catalog_of x) provider entity with Ok true => Ok tt | _ => Err UNAVAILABLE end))).
Definition authorization (st : ContextState) (action : string) (k : result ApiError (option AuthorizedRead) → Op) : Op :=
  if origin_is_agent then lift (authorize_agent_collection st action) (λ r, k (result_map (λ _, None) r))
  else lift (authorize_cross_app_operation parse_manifest consumer provider entity action
               (if is_mutation action then [] else remote_requested_fields op payload) (remote_written_fields op payload))
         (λ r, k (result_map Some r)).

Definition denial (e : ApiError) : string * string :=
  match e with
  | NotFound _ => ("target_unavailable", "cross-app collection is not available")
  | _ => if origin_is_agent then ("delegated_permission", "delegated collection permission denied")
         else ("grant_or_scope", "cross-app collection access is not authorized")
  end.

Definition operation_access (st : ContextState) (authority : option AuthorizedRead) (action : string) (types : FieldTypes) :
    @DataAccess FieldTypes :=
  {| app_schema := provider; state := st; invocation := Some (oc_invocation c);
     audit := {| actor := first_some (audit_actor_id st) (cx_user_id st); delegator := audit_delegator_id st |};
     trigger_ref_ := (policy_of (oc_origin c)).1; timeout_ms := (policy_of (oc_origin c)).2; cross_app := authority; origin_ := AppOrigin;
     delegated_collection := if origin_is_agent then Some (entity, action, types) else None; publication := None |}.

(** The statements of the operation, in its transaction. *)
Definition perform (f : Fate) (pol : Policies) (types : FieldTypes) (action : string) (tbls : Tables) : result string (Tables * JsonValue) :=
  if is_mutation action then
    execute_mutation (fault_of f) (fresh_of f) new_v5 pol types provider entity (mutation_op op) payload (oc_key c) tbls
  else if bool_decide (op ∈ ["findAll"; "findOne"]) then
    let mode := if decide (op = "findOne") then EqOne
                else match oc_origin c with Collection => EqAll | _ => NewestFirst end in
    result_map (pair tbls) (equality (fault_of f) (fresh_of f 0) pol tbls types provider entity payload mode)
  else result_map (pair tbls)
         (page (fault_of f) (fresh_of f 0) debug_error pol tbls types provider entity payload (negb (bool_decide (op = "findPage")))).
Definition row_count (action : string) (result : JsonValue) : nat :=
  if is_mutation action || bool_decide (op = "findAll") then from_option length 1 (as_array result)
  else if decide (action = "read") then (if is_null result then 0 else 1)
  else match get result "data" ≫= as_array with
       | Some rows => length rows
       | None => if is_null result then 0 else 1
       end.
Definition project (authority : option AuthorizedRead) (action : string) (result : JsonValue) : JsonValue :=
  match authority with
  | None => result
  | Some a =>
      if decide (action = "delete") then result
      else if is_mutation action || bool_decide (op = "findAll") || bool_decide (action = "read")
      then project_records result (ar_fields a)
      else project_query_result result (ar_fields a)
  end.

(** The transaction and what follows it. *)
Definition transact (st : ContextState) (authority : option AuthorizedRead) (action : string) (types : FieldTypes) : Op :=
  let actor := first_some (audit_actor_id st) (cx_user_id st) in
  let entry := entry_of authority action actor (audit_delegator_id st) in
  let failed := λ category message, recording (entry "error" (Some category) None) (λ _, Done (Err message)) in
  Do (λ f w,
    match (if up f then begin_tx (types_in (xs w)) publication_locked role_name (operation_access st authority action types)
                          (view (xs w)) (conn_settings f) else Err EmptyString) with
    | Err _ => (w, failed "target_unavailable" "cross-app collection is unavailable")
    | Ok (s, role) =>
        match perform f (rls (view (xs w)) s role) types action (data w) with
        | Err _ => (w, failed "query_validation_or_execution" "cross-app collection query failed")
        | Ok (tbls, result) =>
            let success := entry "success" None (Some (row_count action result)) in
            let answer := Done (Ok (project authority action result)) in
            let uncommitted := failed "target_commit" "cross-app collection is unavailable" in
            if is_mutation action then
              if audit_up f then
                let after := {| xs := xs w; data := tbls; audits := audits w ++ [success] |} in
                match commit_of f with
                | Committed => (after, answer)
                | Lost => (after, uncommitted)
                | Refused => (w, uncommitted)
                end
              else (w, failed "audit_unavailable" "cross-app audit unavailable; mutation rolled back")
            else match commit_of f with
                 | Committed => (w, recording success (λ stored, if stored then answer else Done (Err AUDIT_UNAVAILABLE)))
                 | _ => (w, uncommitted)
                 end
        end
    end).

Definition execute : Op :=
  match action_of op with
  | None => deny "unsupported" (oc_state c ≫= λ st, first_some (audit_actor_id st) (cx_user_id st)) (oc_state c ≫= audit_delegator_id)
              "unsupported_operation" "unsupported cross-app collection operation"
  | Some action =>
      match oc_state c with
      | None => deny action None None "no_principal" "cross-app collection access denied: no active principal"
      | Some st =>
          if bool_decide (cx_user_id st = None) && negb (bool_decide (oc_origin c = QueryTool) && bool_decide (action = "list"))
          then deny action None (audit_delegator_id st) "anonymous"
                 "cross-app collection access denied: anonymous principals are not allowed"
          else
            let actor := first_some (audit_actor_id st) (cx_user_id st) in
            authorization st action (λ r,
              match r with
              | Err e => deny action actor (audit_delegator_id st) (denial e).1 (denial e).2
              | Ok authority =>
                  let entry := entry_of authority action actor (audit_delegator_id st) in
                  recording (entry "started" None None) (λ stored,
                    if stored then
                      Do (λ f w,
                        match (if up f then types_in (xs w) provider entity else None) with
                        | None => (w, recording (entry "error" (Some "target_unavailable") None)
                                        (λ _, Done (Err "cross-app collection is not available")))
                        | Some types => (w, transact st authority action types)
                        end)
                    else Done (Err AUDIT_UNAVAILABLE))
              end)
      end
  end.
End Execute.

(** [execute_agent]: [human] is that of the call's delegated authority, if it has one
    ([Execution.delegated_authority]), [revalidated] what revalidating it answers. *)
Definition execute_agent (human : option uuid) (revalidated : result string (list string)) (app_id : string) (user : uuid)
    (invoker : option uuid) (provider op entity : string) (payload : JsonValue) (correlation : uuid) : Op :=
  match human with
  | None => Done (Err "delegated agent authority required")
  | Some human =>
      match (let? permissions := revalidated in
             let key := if bool_decide (op ∈ ["findAll"; "findPage"]) then "tool:query_data" else "tool:mutate_data" in
             try? ensure (has_permission permissions key) ("permission denied: " +:+ key) in Ok permissions) with
      | Err e => Done (Err e)
      | Ok permissions =>
          execute app_id provider op entity payload
            {| oc_state := Some {| cx_user_id := Some human; cx_is_delegated := true; cx_effective_perms := permissions; cx_connection_id := None;
                                   audit_actor_id := Some user; audit_delegator_id := invoker; public_execution := None; approved_action := None |};
               oc_invocation := NoInvocation; oc_key := None; oc_origin := DelegatedAgent |} correlation
      end
  end.
End Operations.

(** ** Runs among everything else *)

Section Runs.
Context `{!Parsers} `{!Postgres} `{!Collation} (parse_manifest : string → option AppManifest).

(** What others do between two steps: to the grants and the installations whatever
    [xstep] allows, to the records anything, and they add to the audit. *)
Inductive env : World → World → Prop :=
| env_x w x : xstep parse_manifest (xs w) x → env w (set_xs x w)
| env_data w t : env w {| xs := xs w; data := t; audits := audits w |}
| env_audit w l : env w {| xs := xs w; data := data w; audits := audits w ++ l |}.

Local Notation oruns := (oruns env).
Lemma env_xs w w' : rtc env w w' → rtc (xstep parse_manifest) (xs w) (xs w').
Proof.
  induction 1 as [|w w1 w' He _ IH]; [done|]. destruct He as [w x Hx|w t|w l]; [|exact IH|exact IH].
  eapply rtc_l; [exact Hx|exact IH].
Qed.
(** Own steps that leave the records alone. *)
Definition quiet (l : list (World * World)) : Prop := Forall (λ s, data s.2 = data s.1) l.

Lemma oruns_recording e k w l w' r :
  oruns (recording e k) w l w' r →
  ∃ w1 b l', rtc env w w1 ∧ oruns (k b) (if b : bool then record e w1 else w1) l' w' r
    ∧ l = (w1, if b then record e w1 else w1) :: l'.
Proof.
  intros (w1 & fate & w2 & p & l' & He & Hf & Hr & ->)%oruns_do_inv. destruct (up fate); injection Hf as <- <-.
  - exists w1, true, l'. eauto.
  - exists w1, false, l'. eauto.
Qed.
(** Recording an outcome and stopping. *)
Lemma oruns_record_stop e m w l w' r :
  oruns (recording e (λ b, Done (m b))) w l w' r → quiet l ∧ ∃ b, r = m b.
Proof.
  intros (w1 & b & l' & _ & Hr & ->)%oruns_recording. apply oruns_done_inv in Hr as (-> & -> & _).
  split; [|eauto]. constructor; [by destruct b|constructor].
Qed.
Lemma oruns_deny consumer provider entity ctx correlation action principal human category message w l w' r :
  oruns (deny consumer provider entity ctx correlation action principal human category message) w l w' r → quiet l ∧ ∃ e, r = Err e.
Proof.
  unfold deny. intros Hr. apply (oruns_record_stop _ (λ b : bool, Err (if b then message else AUDIT_UNAVAILABLE))) in Hr as [Hq [b ->]].
  eauto.
Qed.
Lemma oruns_lift {A : Type} (p : XProc (result ApiError A)) k w l w' r :
  oruns (lift p k) w l w' r →
  ∃ l1 l2 w1 a, l = l1 ++ l2 ∧ quiet l1 ∧ oruns (k a) w1 l2 w' r
    ∧ ∀ y, a = Ok y → runs (xstep parse_manifest) p (xs w) (xs w1) (Ok y).
Proof.
  unfold lift. intros Hr. eapply (oruns_lift_op xs set_xs up _ _ (xstep parse_manifest) (λ s, data s.2 = data s.1)) in Hr; [|done|exact env_xs|done|done].
  destruct Hr as (l1 & l2 & w1 & a & -> & Hq & Hk & Ha). exists l1, l2, w1, a. split_and!; [done..|]. intros y ->. by destruct Ha.
Qed.
End Runs.

(** ** The lifecycle *)

Section Lifecycle.
Context `{!Parsers} `{!Postgres} `{!Collation} (parse_manifest : string → option AppManifest).
Context (debug_error : ApiError → string) (new_v5 : string → uuid)
  (publication_locked : Sys → ApprovedPublication → result string unit) (role_name : uuid → string)
  (rls : Sys → Settings → string → Policies).
Context (consumer provider op entity : string) (payload : JsonValue) (c : OperationContext) (correlation : uuid).

Local Notation oruns := (oruns (env parse_manifest)).
Local Notation xstep := (xstep parse_manifest).
Local Notation execute := (execute parse_manifest debug_error new_v5 publication_locked role_name rls consumer provider op entity payload c correlation).
Local Notation transact := (transact parse_manifest debug_error new_v5 publication_locked role_name rls consumer provider op entity payload c correlation).
Local Notation perform := (perform debug_error new_v5 provider op entity payload c).
Local Notation authorised := (authorize_cross_app_operation parse_manifest consumer provider entity).

(** The entries of the operation's audit. *)
Definition entry_at (st : ContextState) (authority : option AuthorizedRead) (action : string) : string → option string → option nat → AuditEntry :=
  entry_of consumer provider entity c correlation authority action (first_some (audit_actor_id st) (cx_user_id st)) (audit_delegator_id st).
(** The step of the transaction, performed under the policies [pol]. *)
Record performed (st : ContextState) (authority : option AuthorizedRead) (action : string) (types : FieldTypes) (before : World)
    (fate : Fate) (pol : Policies) (tbls : Tables) (result : JsonValue) : Prop := {
  pf_begin : ∃ s role, begin_tx (types_in parse_manifest (xs before)) publication_locked role_name
               (operation_access provider entity c st authority action types) (view (xs before)) (conn_settings fate) = Ok (s, role)
               ∧ pol = rls (view (xs before)) s role;
  pf_perform : perform fate pol types action (data before) = Ok (tbls, result) }.

Lemma perform_reads fate pol types action tbls tbls' result :
  is_mutation action = false → perform fate pol types action tbls = Ok (tbls', result) → tbls' = tbls.
Proof.
  unfold CrossOps.perform. intros ->. destruct (bool_decide _); intros (v & _ & E)%result_map_ok_iff; congruence.
Qed.

(** A branch that records a failure and stops. *)
Ltac fails Hfail Hf w1 rest :=
  apply Hfail in Hf as (Hq & -> & Herr); exists w1, w1, rest; split_and!; [done|done|done|left; done].
Lemma transact_cases st authority action types w l w' r :
  oruns (transact st authority action types) w l w' r →
  ∃ before after rest, rtc (env parse_manifest) w before ∧ l = (before, after) :: rest ∧ quiet rest
    ∧ ((data after = data before ∧ ∃ e, r = Err e)
       ∨ ∃ fate pol tbls result, performed st authority action types before fate pol tbls result
           ∧ let success := entry_at st authority action "success" None (Some (row_count op action result)) in
             if is_mutation action
             then after = {| xs := xs before; data := tbls; audits := audits before ++ [success] |}
                  ∧ (r = Ok (project op authority action result) ∨ ∃ e, r = Err e)
             else after = before ∧ r = Ok (project op authority action result)
                  ∧ ∃ w1, In (w1, record success w1) rest).
Proof.
  unfold CrossOps.transact. cbv zeta. intros (w1 & fate & w2 & p & rest & He & Hf & Hr & ->)%oruns_do_inv.
  assert (∀ category message, (w1, recording (entry_at st authority action "error" (Some category) None) (λ _, Done (Err message))) = (w2, p) →
    quiet rest ∧ w2 = w1 ∧ ∃ e, r = Err e) as Hfail.
  { intros category message [= <- <-]. apply (oruns_record_stop _ _ (λ _, Err message)) in Hr as [Hq [_ ->]]. eauto. }
  destruct (if up fate then _ else _) as [[s role]|e] eqn:Hb; [|fails Hfail Hf w1 rest].
  destruct (up fate); [|done].
  destruct (perform fate (rls (view (xs w1)) s role) types action (data w1)) as [[tbls result]|e] eqn:Hp; [|fails Hfail Hf w1 rest].
  assert (performed st authority action types w1 fate (rls (view (xs w1)) s role) tbls result) as Hperf by (constructor; [by exists s, role|done]).
  destruct (is_mutation action) eqn:Hmut.
  - destruct (audit_up fate); [|fails Hfail Hf w1 rest].
    destruct (commit_of fate); [|fails Hfail Hf w1 rest|].
    + injection Hf as <- <-. apply oruns_done_inv in Hr as (-> & -> & _).
      eexists _, _, []. split_and!; [done|done|constructor|]. right. exists fate, (rls (view (xs w1)) s role), tbls, result. split; [done|]. split; [done|]. by left.
    + injection Hf as <- <-. apply (oruns_record_stop _ _ (λ _, Err "cross-app collection is unavailable")) in Hr as [Hq [_ ->]].
      eexists _, _, rest. split_and!; [done|done|done|]. right. exists fate, (rls (view (xs w1)) s role), tbls, result. split; [done|]. split; [done|]. right. eauto.
  - destruct (commit_of fate); [|fails Hfail Hf w1 rest|fails Hfail Hf w1 rest].
    injection Hf as <- <-. apply oruns_recording in Hr as (w3 & b & l' & _ & Hr & ->). destruct b.
    + apply oruns_done_inv in Hr as (-> & -> & _). eexists _, _, _. split_and!; [done|done|by constructor|]. right.
      exists fate, (rls (view (xs w1)) s role), tbls, result. split; [done|]. split_and!; [done|done|]. exists w3. by left.
    + apply oruns_done_inv in Hr as (-> & -> & _). eexists _, _, _. split_and!; [done|done|by constructor|]. left. eauto.
Qed.

(** How an operation comes to its transaction. *)
Record admitted (st : ContextState) (authority : option AuthorizedRead) (action : string) (w before : World) : Prop := {
  ad_action : action_of op = Some action;
  ad_state : oc_state c = Some st;
  ad_user : cx_user_id st = None → oc_origin c = QueryTool ∧ action = "list";
  ad_agent : oc_origin c = DelegatedAgent → authority = None;
  ad_grant : oc_origin c ≠ DelegatedAgent → ∃ a x, authority = Some a
    ∧ runs xstep (authorised action (if is_mutation action then [] else remote_requested_fields op payload) (remote_written_fields op payload))
        (xs w) x (Ok a) ∧ rtc xstep x (xs before) }.

Lemma authorization_cases st action k w l w' r :
  oruns (authorization parse_manifest consumer provider op entity payload c st action k) w l w' r →
  ∃ l1 l2 w1 a, l = l1 ++ l2 ∧ quiet l1 ∧ oruns (k a) w1 l2 w' r
    ∧ (∀ authority, a = Ok authority →
        (oc_origin c = DelegatedAgent → authority = None)
        ∧ (oc_origin c ≠ DelegatedAgent → ∃ a', authority = Some a'
            ∧ runs xstep (authorised action (if is_mutation action then [] else remote_requested_fields op payload)
                                     (remote_written_fields op payload)) (xs w) (xs w1) (Ok a'))).
Proof.
  unfold authorization, origin_is_agent. destruct (bool_decide (oc_origin c = DelegatedAgent)) eqn:Ho.
  - apply bool_decide_eq_true in Ho. intros (l1 & l2 & w1 & a & -> & Hq & Hr & _)%oruns_lift. eexists l1, l2, w1, _. split_and!; [done|done|exact Hr|].
    intros authority (u & _ & <-)%result_map_ok_iff. by split.
  - apply bool_decide_eq_false in Ho. intros (l1 & l2 & w1 & a & -> & Hq & Hr & Hruns)%oruns_lift. eexists l1, l2, w1, _. split_and!; [done|done|exact Hr|].
    intros authority (u & Hu & <-)%result_map_ok_iff. split; [done|]. intros _. exists u. split; [done|]. by apply Hruns.
Qed.

Lemma operation_cases w l w' r :
  oruns execute w l w' r →
  (quiet l ∧ ∃ e, r = Err e)
  ∨ ∃ action st authority types l1 w0 w1 before after rest,
      l = l1 ++ (w0, record (entry_at st authority action "started" None None) w0) :: (w1, w1) :: (before, after) :: rest
      ∧ quiet l1 ∧ quiet rest ∧ admitted st authority action w before ∧ types_in parse_manifest (xs w1) provider entity = Some types
      ∧ ∃ fate pol tbls result, performed st authority action types before fate pol tbls result
          ∧ let success := entry_at st authority action "success" None (Some (row_count op action result)) in
            if is_mutation action
            then after = {| xs := xs before; data := tbls; audits := audits before ++ [success] |}
                 ∧ (r = Ok (project op authority action result) ∨ ∃ e, r = Err e)
            else after = before ∧ r = Ok (project op authority action result) ∧ ∃ w2, In (w2, record success w2) rest.
Proof.
  unfold CrossOps.execute. destruct (action_of op) as [action|] eqn:Hact; [|intros ?%oruns_deny; by left].
  destruct (oc_state c) as [st|] eqn:Hst; [|intros ?%oruns_deny; by left].
  destruct (bool_decide (cx_user_id st = None) && _) eqn:Hanon; [intros ?%oruns_deny; by left|]. cbv zeta.
  intros (l1 & l' & wa & a & -> & Hq1 & Hr & Ha)%authorization_cases. destruct a as [authority|e].
  2:{ apply oruns_deny in Hr as [Hq2 He]. left. split; [by apply Forall_app|done]. }
  destruct (Ha authority eq_refl) as [Hag Hgr]. apply oruns_recording in Hr as (w0 & b & l2 & He0 & Hr & ->). destruct b.
  2:{ apply oruns_done_inv in Hr as (-> & -> & _). left. split; [|eauto]. apply Forall_app. split; [done|]. by repeat constructor. }
  apply oruns_do_inv in Hr as (w1 & fate & w2 & p & l3 & He1 & Hf & Hr & ->).
  destruct (if up fate then _ else _) as [types|] eqn:Hty.
  2:{ injection Hf as <- <-. apply (oruns_record_stop _ _ (λ _, Err "cross-app collection is not available")) in Hr as [Hq3 [_ ->]].
      left. split; [|eauto]. apply Forall_app. split; [done|]. by repeat constructor. }
  destruct (up fate); [|done]. injection Hf as <- <-.
  apply transact_cases in Hr as (before & after & rest & He2 & -> & Hq3 & [[Hd Herr]|Hperf]).
  { left. split; [|done]. apply Forall_app. split; [done|]. by repeat constructor. }
  right. exists action, st, authority, types, l1, w0, w1, before, after, rest. split_and!; try done.
  assert (rtc xstep (xs wa) (xs before)) as Hx.
  { etrans; [exact (env_xs _ _ _ He0)|]. change (xs w0) with (xs (record (entry_at st authority action "started" None None) w0)).
    etrans; [exact (env_xs _ _ _ He1)|exact (env_xs _ _ _ He2)]. }
  constructor; try done.
  - intros Hn. rewrite bool_decide_true in Hanon by done. cbn in Hanon. apply negb_false_iff, andb_true_iff in Hanon as [H1' H2'].
    by apply bool_decide_eq_true in H1', H2'.
  - intros Hna. destruct (Hgr Hna) as (a' & -> & Hruns). eauto.
Qed.

(** A grant that is in force for an action of the operation. *)
Definition in_force (x : XState) (a : AuthorizedRead) (action : string) (g : GrantRow) : Prop :=
  grants x !! ar_grant_id a = Some g ∧ g_status (grant g) = "active" ∧ unexpired_row x g = true ∧ is_Some (approved_by g)
  ∧ g_consumer_app (grant g) = consumer ∧ g_provider_app (grant g) = provider ∧ g_entity (grant g) = entity ∧ action ∈ g_actions (grant g)
  ∧ ar_fields a = g_fields (grant g).

Lemma admitted_grant st authority action types w before fate pol tbls result :
  Core (xs w) → Live (xs w) → admitted st authority action w before →
  performed st authority action types before fate pol tbls result → oc_origin c ≠ DelegatedAgent →
  ∃ a g, authority = Some a ∧ in_force (xs before) a action g
    ∧ (is_mutation action = false → ∀ f, f ∈ remote_requested_fields op payload → f ∈ g_fields (grant g))
    ∧ (∀ f, f ∈ remote_written_fields op payload → f ∈ g_write_fields (grant g)).
Proof.
  intros HC HL Had [(s & role & Hb & _) _] Ho. destruct (ad_grant _ _ _ _ _ Had Ho) as (a & x & -> & Hruns & Hsteps).
  apply begin_posed in Hb as (_ & _ & Hop). pose proof (op_cross _ _ _ _ Hop a eq_refl) as Hv.
  destruct (operation_granted parse_manifest consumer provider entity action _ _ _ _ _ a HC HL Hruns Hsteps)
    as (g & Hg & Hs & Hu & Hap & Hc & Hp & He & Hac & _ & _ & Hf & Hreq & Hwr & _); [by apply ensure_ok_iff|].
  exists a, g. split_and!; [done|by split_and!| |].
  - intros Hm f Hin. rewrite <-Hf. apply Hreq. by rewrite Hm.
  - intros f Hin. by apply Hwr.
Qed.

Lemma quiet_step l b a : quiet l → In (b, a) l → data a = data b.
Proof. intros Hq Hin. exact (proj1 (Forall_forall _ _) Hq (b, a) (proj2 (list_elem_of_In _ _) Hin)). Qed.
Lemma mutation_not_list action : is_mutation action = true → action ≠ "list".
Proof. by intros Hm ->. Qed.

(** [C22] A record of another app changes only in one step of the operation, which
    stores the audit of its success with it: either both are stored or neither is,
    after an audit that it started.  At that very moment the change is confined to
    what the mutation names and, for a deletion, to the rows of the same app that refer
    to the row it removes, which go with it or lose the reference as their keys say;
    it is for an identified user, and, unless a delegated agent
    runs it, a grant between these two apps for this entity and action is active,
    unexpired and approved, and covers every field written. *)
Theorem write_is_stored_with_its_audit w l w' r b a :
  Core (xs w) → Live (xs w) → oruns execute w l w' r → In (b, a) l → data a ≠ data b →
  ∃ st authority action types pol m l1 l2,
    l = l1 ++ (b, a) :: l2 ∧ quiet l1 ∧ quiet l2
    ∧ (∃ w0, In (w0, record (entry_at st authority action "started" None None) w0) l1)
    ∧ (∃ rows, audits a = audits b ++ [entry_at st authority action "success" None (Some rows)]) ∧ xs a = xs b
    ∧ action ∈ MUTATIONS ∧ is_Some (cx_user_id st)
    ∧ validate types (mutation_op op) payload (oc_key c) = Ok m ∧ confined pol types provider entity m (data b) (data a)
    ∧ (oc_origin c ≠ DelegatedAgent → ∃ auth g, authority = Some auth ∧ in_force (xs b) auth action g
         ∧ ∀ o k, o ∈ mutation_objects m → k ∈ map fst o → k ∈ g_write_fields (grant g)).
Proof.
  intros HC HL Hr Hin Hne. apply operation_cases in Hr as [[Hq _]|Hx]; [by destruct Hne; eapply quiet_step|].
  destruct Hx as (action & st & authority & types & l1 & w0 & w1 & before & after & rest & -> & Hq1 & Hq2 & Had & Hty & fate & pol & tbls & result & Hperf & Hcase).
  assert (∀ l', quiet l' → ¬ In (b, a) l') as Hnot by (intros l' Hl' Hi; by destruct Hne; eapply quiet_step).
  apply in_app_or in Hin as [Hi|Hin]; [by destruct (Hnot l1 Hq1)|].
  destruct Hin as [[= <- <-]|[[= <- <-]|[[= <- <-]|Hi]]]; [done|done| |by destruct (Hnot rest Hq2)].
  cbv zeta in Hcase. destruct (is_mutation action) eqn:Hm; [|destruct Hcase as (-> & _); by destruct Hne]. destruct Hcase as [-> _].
  pose proof (pf_perform _ _ _ _ _ _ _ _ _ Hperf) as Hp. unfold CrossOps.perform in Hp. rewrite Hm in Hp.
  apply mutation_confined in Hp as (m & Hval & Hconf & _).
  exists st, authority, action, types, pol, m,
    (l1 ++ [(w0, record (entry_at st authority action "started" None None) w0); (w1, w1)]), rest. split_and!; try done.
  - by rewrite <-app_assoc.
  - apply Forall_app. split; [done|]. by repeat constructor.
  - exists w0. apply in_or_app. right. by left.
  - by eexists.
  - by apply bool_decide_eq_true in Hm.
  - destruct (cx_user_id st) eqn:Hu; [done|]. destruct (ad_user _ _ _ _ _ Had Hu) as [_ ->]. done.
  - intros Ho. destruct (admitted_grant _ _ _ _ _ _ _ _ _ _ HC HL Had Hperf Ho) as (auth & g & -> & Hf & _ & Hw).
    exists auth, g. split_and!; [done|done|]. intros o k Hom Hk. apply Hw. by apply (writes_authorised _ _ _ _ _ Hval) in Hom as [_ Hom]; apply Hom.
Qed.

(** The records an answer shows. *)
Definition page_op (action : string) : bool := negb (is_mutation action) && negb (bool_decide (op ∈ ["findAll"; "findOne"])).
Definition shown (action : string) (v : JsonValue) : list (list (string * JsonValue)) :=
  if page_op action then from_option answer_objects [] (get v "data") else answer_objects v.

Lemma action_read_op action : action_of op = Some action → action = "read" → op = "findOne".
Proof.
  unfold action_of. intros Ha ->. repeat (first [destruct (bool_decide _)|destruct (decide _)]; try done).
Qed.
Lemma action_list_op action : action_of op = Some action → is_mutation action = false → action ≠ "read" → action = "list" ∧ op ≠ "findOne".
Proof.
  unfold action_of. intros Ha Hm Hr. destruct (bool_decide (op ∈ ["find"; _; _; _])) eqn:E.
  - injection Ha as <-. split; [done|]. intros ->. done.
  - exfalso. destruct (decide (op = "findOne")); [congruence|]. repeat case_match; simplify_eq; done.
Qed.
Lemma project_page rows total snapshot :
  project_query_result (page_object rows total) snapshot = page_object (map (λ row, project_record row snapshot) rows) total.
Proof. done. Qed.

(** [C23] Whatever an operation under a grant answers, apart from the identifier of a
    deleted record, shows no field outside the grant that was in force when its
    statements ran; the request named none either; and the answer is given only after
    its start and its success were audited. *)
Theorem answer_is_within_the_grant w l w' v :
  Core (xs w) → Live (xs w) → oc_origin c ≠ DelegatedAgent → oruns execute w l w' (Ok v) →
  ∃ st a action g before after, In (before, after) l ∧ action_of op = Some action ∧ in_force (xs before) a action g
    ∧ (action ≠ "delete" → ∀ o k, o ∈ shown action v → k ∈ map fst o → k ∈ g_fields (grant g))
    ∧ (is_mutation action = false → ∀ f, f ∈ remote_requested_fields op payload → f ∈ g_fields (grant g))
    ∧ (∃ w0, In (w0, record (entry_at st (Some a) action "started" None None) w0) l)
    ∧ ∃ rows w1 w2, In (w1, w2) l ∧ audits w2 = audits w1 ++ [entry_at st (Some a) action "success" None (Some rows)].
Proof.
  intros HC HL Ho Hr. apply operation_cases in Hr as [[_ [e He]]|Hx]; [done|].
  destruct Hx as (action & st & authority & types & l1 & w0 & w1 & before & after & rest & -> & _ & _ & Had & Hty & fate & pol & tbls & result & Hperf & Hcase).
  destruct (admitted_grant _ _ _ _ _ _ _ _ _ _ HC HL Had Hperf Ho) as (a & g & -> & Hf & Hreq & _).
  exists st, a, action, g, before, after. pose proof (ad_action _ _ _ _ _ Had) as Hact.
  assert (v = project op (Some a) action result) as ->.
  { cbv zeta in Hcase. destruct (is_mutation action); [destruct Hcase as (_ & [E|[e E]])|destruct Hcase as (_ & E & _)]; congruence. }
  split_and!; try done.
  - apply in_or_app. right. right. right. by left.
  - intros Hd o k. destruct Hf as (_ & _ & _ & _ & _ & _ & _ & _ & <-). unfold shown, project. rewrite decide_False by done.
    unfold page_op. destruct (is_mutation action) eqn:Hm; cbn [negb andb orb]; [intros Hs Hk; by eapply project_records_fields|].
    destruct (decide (action = "read")) as [->|Hrd].
    { rewrite (action_read_op _ Hact eq_refl). intros Hs Hk. exact (project_records_fields result (ar_fields a) o Hs k Hk). }
    destruct (action_list_op _ Hact Hm Hrd) as [-> Hone]. destruct (decide (op = "findAll")) as [->|Hall].
    { intros Hs Hk. exact (project_records_fields result (ar_fields a) o Hs k Hk). }
    rewrite !bool_decide_false by (first [done|set_solver]). cbn [negb orb]. pose proof (pf_perform _ _ _ _ _ _ _ _ _ Hperf) as Hp.
    unfold CrossOps.perform in Hp. rewrite Hm, bool_decide_false in Hp by set_solver. apply result_map_ok_iff in Hp as (v & Hv & [= _ <-]).
    apply page_form in Hv as (rows & total & ->). rewrite project_page. cbn. intros Hs Hk.
    exact (project_records_fields (JArray rows) (ar_fields a) o Hs k Hk).
  - exists w0. apply in_or_app. right. by left.
  - cbv zeta in Hcase. destruct (is_mutation action).
    + destruct Hcase as [-> _]. eexists _, before, _. split; [apply in_or_app; right; right; right; by left|done].
    + destruct Hcase as (_ & _ & w2 & Hin). eexists _, w2, _. split; [apply in_or_app; right; right; right; right; exact Hin|done].
Qed.
End Lifecycle.

Module CrossOpExamples.
#[local] Existing Instance RecordExamples.toy_parsers.
#[local] Existing Instance RecordExamples.toy_postgres.
#[local] Existing Instance CollectionExamples.toy_collation.
Import CrossAppExamples.
Definition fine : Fate :=
  {| up := true; conn_settings := ∅; fault_of := CollectionExamples.no_fault; fresh_of := RecordExamples.toy_fresh; audit_up := true; commit_of := Committed |}.
Definition unlocked (_ : Sys) (_ : ApprovedPublication) : result string unit := Err EmptyString.
Definition role_of (a : uuid) : string := a.
Definition everything (_ : Sys) (_ : Settings) (_ : string) : Policies := RecordExamples.open_policies.
Definition w0 : World := {| xs := x_active; data := RecordExamples.toy_tables; audits := [] |}.
Definition as_root : OperationContext := collection_context (Some (Records.http_context "root")) NoInvocation None.
Definition update_name : Op :=
  execute parse CollectionExamples.debug CollectionExamples.key_uuid unlocked role_of everything "hr" "crm" "update" "person"
    CollectionExamples.patch as_root "c1".
Definition list_names : Op :=
  execute parse CollectionExamples.debug CollectionExamples.key_uuid unlocked role_of everything "hr" "crm" "find" "person"
    CollectionExamples.find_adas as_root "c2".
Definition name_of_u1 (w : World) : option Bound := rows_of (data w) ("crm", "person") !! "u1" ≫= (!!) "name".
Lemma x_active_inv : Core x_active ∧ Live x_active.
Proof. exact (xsteps_inv parse _ _ steps_active (proj1 (start_inv y0)) (proj2 (start_inv y0))). Qed.

Lemma write_is_stored_with_its_audit_witness :
  ∃ l w' v b a, alone 9 fine update_name w0 = Some (l, w', Ok v) ∧ In (b, a) l ∧ data a ≠ data b
    ∧ ∃ e, audits a = audits b ++ [e] ∧ ae_outcome e = "success".
Proof.
  destruct (alone 9 fine update_name w0) as [[[l w'] [v|e]]|] eqn:Hr.
  - destruct (last l) as [[b a]|] eqn:Hl.
    + exists l, w', v, b, a. split; [reflexivity|].
      assert (In (b, a) l) as Hin by (apply list_elem_of_In; eapply last_Some_elem_of; exact Hl).
      assert (data a ≠ data b) as Hd.
      { intros Hd. assert (name_of_u1 a = name_of_u1 b) as Hn by (unfold name_of_u1; rewrite Hd; reflexivity).
        apply (f_equal (λ o, match o with Some (l, _, _) => from_option (λ s, (name_of_u1 s.1, name_of_u1 s.2)) (None, None) (last l) | None => (None, None) end)) in Hr.
        cbv beta iota in Hr. rewrite Hl in Hr. cbn [from_option fst snd] in Hr. rewrite Hn in Hr. vm_compute in Hr. congruence. }
      split; [exact Hin|]. split; [exact Hd|].
      destruct (write_is_stored_with_its_audit parse CollectionExamples.debug CollectionExamples.key_uuid unlocked role_of everything "hr" "crm" "update"
                  "person" CollectionExamples.patch as_root "c1" w0 l w' (Ok v) b a (proj1 x_active_inv) (proj2 x_active_inv)
                  (alone_runs (env parse) 9 fine update_name w0 l w' (Ok v) Hr) Hin Hd)
        as (st & authority & action & types & pol & m & l1 & l2 & _ & _ & _ & _ & [rows Ha] & _).
      eexists. split; [exact Ha|reflexivity].
    + exfalso. apply (f_equal (λ o, match o with Some (l, _, _) => match last l with Some _ => true | None => false end | None => false end)) in Hr.
      cbv beta iota in Hr. rewrite Hl in Hr. vm_compute in Hr. discriminate Hr.
  - exfalso. apply (f_equal (λ o, match o with Some (_, _, Ok _) => true | _ => false end)) in Hr. vm_compute in Hr. discriminate Hr.
  - exfalso. apply (f_equal (λ o, match o with Some (_, _, Ok _) => true | _ => false end)) in Hr. vm_compute in Hr. discriminate Hr.
Defined.

Lemma answer_is_within_the_grant_witness :
  ∃ l w' v g, alone 9 fine list_names w0 = Some (l, w', Ok v) ∧ ∀ o k, o ∈ shown "find" "list" v → k ∈ map fst o → k ∈ g_fields (grant g).
Proof.
  destruct (alone 9 fine list_names w0) as [[[l w'] [v|e]]|] eqn:Hr.
  - assert (oc_origin as_root ≠ DelegatedAgent) as Ho by discriminate.
    destruct (answer_is_within_the_grant parse CollectionExamples.debug CollectionExamples.key_uuid unlocked role_of everything "hr" "crm" "find"
                "person" CollectionExamples.find_adas as_root "c2" w0 l w' v (proj1 x_active_inv) (proj2 x_active_inv) Ho
                (alone_runs (env parse) 9 fine list_names w0 l w' (Ok v) Hr)) as (st & a & action & g & before & after & _ & Hact & _ & Hs & _).
    assert (action = "list") as -> by (vm_compute in Hact; congruence).
    exists l, w', v, g. split; [reflexivity|]. apply Hs. discriminate.
  - exfalso. apply (f_equal (λ o, match o with Some (_, _, Ok _) => true | _ => false end)) in Hr. vm_compute in Hr. discriminate Hr.
  - exfalso. apply (f_equal (λ o, match o with Some (_, _, Ok _) => true | _ => false end)) in Hr. vm_compute in Hr. discriminate Hr.
Defined.
End CrossOpExamples.
