(* ===== verification/Publications.v ===== *)
(** * Publications (core/src/governance/publications.rs)

    A publication lets anyone read some fields of some records of an app.  An app
    declares it in its manifest, the provider approves exactly that declaration, and
    every use of the approval checks again, under locks, that nothing changed.  This
    file has the validation of declarations, the transactions of approvals with their
    audit, and the resolution of what a public execution may read.

    The definition of an approval is stored as JSON and read back as the declaration
    it was written from; the model keeps the declaration.  From its locks on, a
    transaction is one step. *)

From stdpp Require Import base numbers gmap strings sets relations list.
From S2P Require Import Prelude Str Json DataTypes Perms Roles Authority Delegation Gates Ownership Ident SqlScan Filters Records Procs CrossApp Collections.

(** ** Declarations *)

Record PublicPublication := {
  pub_name : string; pub_app : option string; pub_entity : string; pub_actions : list string; pub_fields : list string;
  pub_where : JsonValue; pub_release : bool }.
#[export] Instance PublicPublication_eq_dec : EqDecision PublicPublication.
Proof. solve_decision. Defined.
Record PublicRpc := { rpc_name : string; rpc_publications : list string; rpc_scope : list string }.
Record PublicCollection := { col_entity : string; col_publication : option string; col_actions : list string }.
Record PublicSurface := { publications_ : list PublicPublication; rpcs : list PublicRpc; collections : list PublicCollection }.
(** A manifest with its public surface. *)
Record PublicManifest := { contract : AppManifest; public : option PublicSurface }.

Definition lower_byte (c : ascii) : bool := let n := N_of_ascii c in bool_decide (97 ≤ n ≤ 122)%N.
Definition digit_byte (c : ascii) : bool := let n := N_of_ascii c in bool_decide (48 ≤ n ≤ 57)%N.
Definition identifier_byte (c : ascii) : bool := bool_decide (c = "_"%char) || lower_byte c.
Definition identifier (value : string) : result string unit :=
  ensure (match value with
          | EmptyString => false
          | String c s => bool_decide (String.length value ≤ 63) && identifier_byte c && str_forall (λ b, identifier_byte b || digit_byte b) s
          end) ("invalid publication identifier '" +:+ value +:+ "'").
Definition has_duplicates (l : list string) : bool := negb (bool_decide (NoDup l)).

Definition validate_definition (d : PublicPublication) : result string unit :=
  try? identifier (pub_name d) in
  try? identifier (pub_entity d) in
  try? match pub_app d with
       | Some app =>
           ensure (match app with String c _ => lower_byte c | EmptyString => false end
                   && str_forall (λ b, lower_byte b || digit_byte b || bool_decide (b ∈ ["_"; "-"]%char)) app)
             ("invalid publication app identifier '" +:+ app +:+ "'")
       | None => Ok tt
       end in
  try? ensure (negb (bool_decide (pub_actions d = [])) && forallb (λ a, bool_decide (a ∈ ["list"; "read"])) (pub_actions d))
    "publication actions must be a nonempty list of list/read" in
  try? ensure (negb (bool_decide (pub_fields d = []))) "publication fields must be explicit and nonempty" in
  try? try_for_each identifier (pub_fields d) in
  try? ensure (negb (has_duplicates (pub_fields d) || has_duplicates (pub_actions d))) "duplicate publication field or action" in
  ensure (match pub_where d with JObject _ => true | _ => false end) "publication where must be an object".

Section Validation.
Context `{!Parsers} (debug_error : ApiError → string).

Definition str_parses {A : Type} (parse : string → option A) (v : JsonValue) : bool :=
  match v with JString s => match parse s with Some _ => true | None => false end | _ => false end.
Definition is_number (v : JsonValue) : bool := match v with JNumber _ => true | _ => false end.
Definition is_boolean (v : JsonValue) : bool := match v with JBool _ => true | _ => false end.
Definition validate_filter_value (name : string) (t : FieldType) (value : JsonValue) : result string unit :=
  if is_null value then Ok tt
  else ensure (match t with
               | FText | FFile => is_string value
               | FNumber => is_number value
               | FBoolean => is_boolean value
               | FDecimal _ => str_parses parse_bigdecimal value
               | FUuid | FEntityLink => str_parses parse_uuid value
               | FDate => str_parses parse_date value
               | FTimestamp => str_parses parse_timestamp value
               | _ => false
               end) ("invalid typed publication filter for '" +:+ name +:+ "'").

Definition validate_operator (name : string) (t : FieldType) (operator : string) (operand : JsonValue) : result string unit :=
  try? ensure (negb (is_null operand && negb (bool_decide (operator ∈ ["$eq"; "$ne"])))) "null publication filter requires $eq or $ne" in
  if decide (operator = "$isNull") then ensure (is_boolean operand) "$isNull must be a boolean"
  else if decide (operator = "$contains") then
    let? values := ok_or (as_array operand) "$contains must be an array" in
    try? ensure (negb (bool_decide (values = []))) "$contains must be nonempty" in
    ensure (match t with
            | FTextArray => forallb is_string values
            | FNumberArray => forallb is_number values
            | _ => false
            end) ("invalid array publication filter for '" +:+ name +:+ "'")
  else if bool_decide (operator ∈ ["$in"; "$nin"]) then
    let? items := ok_or (as_array operand) "membership filter must be an array" in
    try_for_each (λ item,
      try? ensure (negb (is_null item)) "membership filter values cannot be null" in
      validate_filter_value name t item) items
  else if bool_decide (operator ∈ ["$like"; "$ilike"]) && negb (match t with FText | FFile => true | _ => false end)
  then Err "pattern filters require text fields"
  else validate_filter_value name t operand.
Definition validate_field_filter (types : FieldTypes) (name : string) (value : JsonValue) : result string unit :=
  let? field := ok_or (types !! name) ("unknown publication filter '" +:+ name +:+ "'") in
  match value with
  | JObject [] => Err "publication filter operator object cannot be empty"
  | JObject operators => try_for_each (λ '(operator, operand), validate_operator name (f_type field) operator operand) operators
  | _ => validate_filter_value name (f_type field) value
  end.
Fixpoint validate_filter (types : FieldTypes) (clause : JsonValue) : result string unit :=
  let fix each (items : list JsonValue) : result string unit :=
    match items with
    | [] => Ok tt
    | item :: items => try? validate_filter types item in each items
    end in
  let fix parts (object : list (string * JsonValue)) : result string unit :=
    match object with
    | [] => Ok tt
    | (name, value) :: object =>
        try? (if bool_decide (name ∈ ["$and"; "$or"]) then
                match value with JArray items => each items | _ => Err "logical filter must be an array" end
              else if decide (name = "$not") then validate_filter types value
              else validate_field_filter types name value) in
        parts object
    end in
  match clause with
  | JObject object => parts object
  | _ => Err "publication where must be an object"
  end.

Definition publishable (types : FieldTypes) (name : string) : result string unit :=
  let? field := ok_or (types !! name) ("unknown publication field '" +:+ name +:+ "'") in
  ensure (negb (f_sensitive field || is_json (f_type field))) ("publication field '" +:+ name +:+ "' cannot be sensitive or json").
Definition validate_provider (d : PublicPublication) (provider : AppManifest) : result string unit :=
  let? entity := ok_or (List.find (λ e, bool_decide (entity_name e = pub_entity d)) (data_contract provider))
                   ("unknown publication entity '" +:+ pub_entity d +:+ "'") in
  let? types := field_types parse_bigdecimal entity in
  try? try_for_each (publishable types) (pub_fields d ++ query_field_names (Some (pub_where d)) None) in
  try? validate_filter types (pub_where d) in
  result_map (λ _, tt) (map_err (λ e, "invalid publication where: " +:+ debug_error e) (build_where_clause show_json types (pub_where d) ([], 0))).

Definition provider_of (consumer : string) (d : PublicPublication) : string := default consumer (pub_app d).
(** The scope of a profile: the provider, entity and action of each permission to read. *)
Definition scope_entries (consumer : string) (ds : list PublicPublication) : list (string * string * string) :=
  mjoin (map (λ d, map (λ a, (provider_of consumer d, pub_entity d, a)) (pub_actions d)) ds).
Definition validate_profile (consumer : string) (ds : list PublicPublication) : result string unit :=
  ensure (bool_decide (NoDup (scope_entries consumer ds))) "ambiguous publication profile for the same provider/entity/action".

Definition find_definition (name : string) (ds : list PublicPublication) : option PublicPublication :=
  List.find (λ d, bool_decide (pub_name d = name)) ds.
Definition lookup_definition (ds : list PublicPublication) (name : string) : result string PublicPublication :=
  ok_or (find_definition name ds) ("unknown publication reference '" +:+ name +:+ "'").
Fixpoint validate_definitions (m : PublicManifest) (seen : list string) (ds : list PublicPublication) : result string unit :=
  match ds with
  | [] => Ok tt
  | d :: ds =>
      try? validate_definition d in
      try? ensure (negb (bool_decide (pub_name d ∈ seen))) ("duplicate publication '" +:+ pub_name d +:+ "'") in
      try? (if decide (provider_of (app_id (contract m)) d = app_id (contract m)) then validate_provider d (contract m) else Ok tt) in
      validate_definitions m (pub_name d :: seen) ds
  end.
Fixpoint resolve_names (ds : list PublicPublication) (seen names : list string) : result string (list PublicPublication) :=
  match names with
  | [] => Ok []
  | name :: names =>
      try? ensure (negb (bool_decide (name ∈ seen))) ("duplicate publication reference '" +:+ name +:+ "'") in
      let? d := lookup_definition ds name in
      let? rest := resolve_names ds (name :: seen) names in Ok (d :: rest)
  end.
Fixpoint validate_rpcs (m : PublicManifest) (ds : list PublicPublication) (seen : list string) (rs : list PublicRpc) : result string unit :=
  match rs with
  | [] => Ok tt
  | r :: rs =>
      try? ensure (bool_decide (rpc_scope r = []) || bool_decide (rpc_publications r = []))
        ("public RPC '" +:+ rpc_name r +:+ "' cannot combine scope and publications") in
      try? ensure (negb (bool_decide (rpc_name r ∈ seen))) ("duplicate public RPC '" +:+ rpc_name r +:+ "'") in
      let? profile := resolve_names ds [] (rpc_publications r) in
      try? validate_profile (app_id (contract m)) profile in
      validate_rpcs m ds (rpc_name r :: seen) rs
  end.
Fixpoint validate_collections (ds : list PublicPublication) (seen : list string) (cs : list PublicCollection) : result string unit :=
  match cs with
  | [] => Ok tt
  | c :: cs =>
      try? ensure (negb (bool_decide (col_entity c ∈ seen))) ("duplicate public collection '" +:+ col_entity c +:+ "'") in
      try? match col_publication c with
           | Some name =>
               let? d := lookup_definition ds name in
               ensure (bool_decide (pub_entity d = col_entity c) && negb (bool_decide (col_actions c = []))
                       && forallb (λ a, bool_decide (a ∈ pub_actions d)) (col_actions c))
                 ("public collection '" +:+ col_entity c +:+ "' exceeds its publication")
           | None => Ok tt
           end in
      validate_collections ds (col_entity c :: seen) cs
  end.
Definition validate_manifest (m : PublicManifest) : result string unit :=
  match public m with
  | None => Ok tt
  | Some surface =>
      try? validate_definitions m [] (publications_ surface) in
      try? validate_rpcs m (publications_ surface) [] (rpcs surface) in
      validate_collections (publications_ surface) [] (collections surface)
  end.
End Validation.

(** ** Approvals *)

(** A row of [rootcx_system.publications] *)
Record PubRow := {
  pub : PublicationRow; name_ : string; definition : PublicPublication; pub_approved_by : uuid; pub_reason : string;
  pub_created_at : Z; pub_revoked_at : option Z }.
(** [rootcx_system.publication_audit] *)
Record PubAudit := { pa_publication : uuid; pa_actor : uuid; pa_operation : string; pa_reason : string; pa_snapshot : PubRow }.
(** A principal of public executions, and whether its user is still a service of the
    system that is not disabled. *)
Record Principal := { pp_user : uuid; pp_valid : bool }.
Record PState := { px : XState; pubs : gmap uuid PubRow; principals : gmap uuid Principal; plog : list PubAudit }.

Definition pnow (s : PState) : Z := now (px s).
Definition set_pubs (m : gmap uuid PubRow) (l : list PubAudit) (s : PState) : PState :=
  {| px := px s; pubs := m; principals := principals s; plog := l |}.
(** The system tables as the gates read them. *)
Definition pview (s : PState) : Sys :=
  let y := view (px s) in
  {| sgov := sgov y; app_installations := app_installations y; apps := apps y; cross_app_collection_grants := cross_app_collection_grants y;
     publications := map (λ e, pub e.2) (map_to_list (pubs s)); public_principals := map (λ e, (e.1, pp_user e.2)) (map_to_list (principals s));
     action_approvals := action_approvals y; backend_releases := backend_releases y |}.

Definition p_nonterminal (r : PubRow) : bool := bool_decide (p_status (pub r) ∈ ["active"; "disabled"]).
Definition p_unexpired (s : PState) (r : PubRow) : bool := unexpired_at (base (px s)) (p_expires_at (pub r)).
Definition restatus (status : string) (revoked : option Z) (r : PubRow) : PubRow :=
  {| pub := {| p_id := p_id (pub r); p_consumer_app := p_consumer_app (pub r); p_provider_app := p_provider_app (pub r);
               p_consumer_installation := p_consumer_installation (pub r); p_provider_installation := p_provider_installation (pub r);
               p_entity := p_entity (pub r); p_release_ownership := p_release_ownership (pub r); p_status := status;
               p_version := (p_version (pub r) + 1)%Z; p_expires_at := p_expires_at (pub r) |};
     name_ := name_ r; definition := definition r; pub_approved_by := pub_approved_by r; pub_reason := pub_reason r;
     pub_created_at := pub_created_at r; pub_revoked_at := match revoked with Some t => Some t | None => pub_revoked_at r end |}.
(** The trigger [guard_publication_snapshot]; the statements change nothing but the
    status, the version and the time of revocation. *)
Definition guard_status (s : PState) (r : PubRow) (status : string) : bool :=
  (if decide (p_status (pub r) = "active") then bool_decide (status ∈ ["disabled"; "revoked"; "expired"])
   else bool_decide (p_status (pub r) = "disabled") && bool_decide (status ∈ ["active"; "revoked"; "expired"]))
  && negb (bool_decide (status ∈ ["active"; "disabled"]) && negb (p_unexpired s r)).
(** An update of a row with the audit of what it became. *)
Definition update_pub (id : uuid) (status operation : string) (revoked : option Z) (actor : uuid) (reason : string) (s : PState) :
    result ApiError PState :=
  match pubs s !! id with
  | Some r =>
      if guard_status s r status then
        let r' := restatus status revoked r in
        Ok (set_pubs (<[id := r']> (pubs s))
              (plog s ++ [{| pa_publication := id; pa_actor := actor; pa_operation := operation; pa_reason := reason; pa_snapshot := r' |}]) s)
      else Err INTERNAL_DB
  | None => Err INTERNAL_DB
  end.
Definition terminate_tx (id actor : uuid) (status reason : string) (s : PState) : result ApiError PState :=
  match pubs s !! id with
  | Some r => if p_nonterminal r then update_pub id status status (Some (pnow s)) actor reason s
              else Err (Conflict "publication is already terminal")
  | None => Err (Conflict "publication is already terminal")
  end.

(** An approval as a capability, with the definition it froze. *)
Record Approved := { approved : ApprovedPublication; frozen : PublicPublication }.
Definition snapshot (r : PubRow) : Approved :=
  {| approved := {| ap_id := p_id (pub r); ap_version := p_version (pub r); ap_consumer_app := p_consumer_app (pub r);
                    ap_provider_app := p_provider_app (pub r); ap_consumer_installation := p_consumer_installation (pub r);
                    ap_provider_installation := p_provider_installation (pub r); ap_entity := p_entity (pub r);
                    ap_release_ownership := p_release_ownership (pub r) |};
     frozen := definition r |}.
Definition set_version (v : Z) (p : Approved) : Approved :=
  {| approved := {| ap_id := ap_id (approved p); ap_version := v; ap_consumer_app := ap_consumer_app (approved p);
                    ap_provider_app := ap_provider_app (approved p); ap_consumer_installation := ap_consumer_installation (approved p);
                    ap_provider_installation := ap_provider_installation (approved p); ap_entity := ap_entity (approved p);
                    ap_release_ownership := ap_release_ownership (approved p) |};
     frozen := frozen p |}.
Record ApprovalRequest := { ar_consumer : uuid; ar_provider : uuid; ar_reason : string; ar_expires_at : option Z }.
Inductive Transition := Disable | Enable | Revoke.
#[export] Instance Transition_eq_dec : EqDecision Transition.
Proof. solve_decision. Defined.
Record Execution := { ex_consumer_app : string; ex_installation : uuid; ex_principal : uuid; ex_publications : list Approved }.

Definition require_reason (reason : string) : result ApiError unit :=
  ensure (negb (bool_decide (trim reason = EmptyString))) (BadRequest "reason is required").
Definition PUBLICATIONS_MANAGE : string := "admin:publications.manage".
Definition publications_key (app : string) : string := "app:" +:+ app +:+ ":publications.approve".
Definition can_manage_tx (s : PState) (actor : uuid) (provider : string) : bool :=
  sql_has_permission (pview s) actor PUBLICATIONS_MANAGE || sql_has_permission (pview s) actor (publications_key provider).
Definition require_provider (s : PState) (actor : uuid) (provider : string) : result ApiError unit :=
  ensure (can_manage_tx s actor provider) (Forbidden "provider publication approval permission required").
Definition installation_tx (s : PState) (app : string) : result ApiError uuid :=
  ok_or (fst <$> active_of app (px s)) (Conflict ("app '" +:+ app +:+ "' has no active installation")).
Definition lock_installations (s : PState) (consumer provider : string) : result ApiError (uuid * uuid) :=
  match String.compare consumer provider with
  | Datatypes.Gt => let? p := installation_tx s provider in let? c := installation_tx s consumer in Ok (c, p)
  | Datatypes.Eq => let? c := installation_tx s consumer in Ok (c, c)
  | Datatypes.Lt => let? c := installation_tx s consumer in let? p := installation_tx s provider in Ok (c, p)
  end.

Section Approvals.
Context `{!Parsers} (debug_error : ApiError → string).
(** Deserialising a stored manifest. *)
Context (parse_public : string → option PublicManifest).

Definition manifest_tx (s : PState) (app : string) : result ApiError PublicManifest :=
  let? a := ok_or (match apps (base (px s)) !! app with
                   | Some a => if installed (base (px s)) app then Some a else None
                   | None => None
                   end) (NotFound ("active app '" +:+ app +:+ "' not found")) in
  ok_or (parse_public (a_manifest a)) (Forbidden "invalid installed manifest").
Definition declaration (m : PublicManifest) (name : string) : result ApiError PublicPublication :=
  ok_or (public m ≫= λ surface, find_definition name (publications_ surface)) (NotFound ("publication '" +:+ name +:+ "' is not declared")).

Definition row_current (s : PState) (p : Approved) (r : PubRow) : bool :=
  bool_decide (p_version (pub r) = ap_version (approved p)) && bool_decide (p_status (pub r) = "active")
  && bool_decide (p_consumer_app (pub r) = ap_consumer_app (approved p)) && bool_decide (p_provider_app (pub r) = ap_provider_app (approved p))
  && bool_decide (p_consumer_installation (pub r) = ap_consumer_installation (approved p))
  && bool_decide (p_provider_installation (pub r) = ap_provider_installation (approved p))
  && bool_decide (definition r = frozen p) && p_unexpired s r.
Definition validate_locked_publication (s : PState) (p : Approved) : result ApiError unit :=
  let valid := match pubs s !! ap_id (approved p) with Some r => row_current s p r | None => false end in
  let? consumer := manifest_tx s (ap_consumer_app (approved p)) in
  try? map_err Forbidden (validate_manifest debug_error consumer) in
  try? ensure valid (Forbidden "publication authority is no longer current") in
  let? declared := declaration consumer (pub_name (frozen p)) in
  try? ensure (bool_decide (declared = frozen p)) (Forbidden "publication authority is no longer current") in
  let? provider := manifest_tx s (ap_provider_app (approved p)) in
  map_err Forbidden (validate_provider debug_error (frozen p) (contract provider)).
Definition lock_in_tx (s : PState) (p : Approved) : result ApiError unit :=
  let? ids := lock_installations s (ap_consumer_app (approved p)) (ap_provider_app (approved p)) in
  try? ensure (bool_decide (ids = (ap_consumer_installation (approved p), ap_provider_installation (approved p))))
    (Forbidden "publication installation changed") in
  validate_locked_publication s p.

(** The approval that holds the name, if any. *)
Definition previous (s : PState) (consumer_id : uuid) (name : string) : option PubRow :=
  snd <$> List.find (λ e, bool_decide (p_consumer_installation (pub e.2) = consumer_id) && bool_decide (name_ e.2 = name) && p_nonterminal e.2)
            (map_to_list (pubs s)).
Definition supersede (actor : uuid) (provider_id : uuid) (d : PublicPublication) (r : PubRow) (s : PState) : result ApiError PState :=
  let expired := negb (p_unexpired s r) in
  if decide (p_status (pub r) = "disabled") then Err (Conflict "publication is disabled; explicitly enable or revoke it")
  else if negb expired && bool_decide (p_provider_installation (pub r) = provider_id) && bool_decide (definition r = d)
  then Err (Conflict "publication is already approved")
  else terminate_tx (p_id (pub r)) actor (if expired then "expired" else "revoked") "superseded by a fresh approval" s.
Definition fresh_row (s : PState) (id : uuid) (name app provider_app : string) (consumer_id provider_id : uuid) (d : PublicPublication)
    (actor : uuid) (body : ApprovalRequest) : PubRow :=
  {| pub := {| p_id := id; p_consumer_app := app; p_provider_app := provider_app; p_consumer_installation := consumer_id;
               p_provider_installation := provider_id; p_entity := pub_entity d; p_release_ownership := pub_release d;
               p_status := "active"; p_version := 1; p_expires_at := ar_expires_at body |};
     name_ := name; definition := d; pub_approved_by := actor; pub_reason := ar_reason body; pub_created_at := pnow s; pub_revoked_at := None |}.
Definition insert_pub (r : PubRow) (actor : uuid) (reason : string) (s : PState) : result ApiError PState :=
  match pubs s !! p_id (pub r), previous s (p_consumer_installation (pub r)) (name_ r) with
  | None, None =>
      Ok (set_pubs (<[p_id (pub r) := r]> (pubs s))
            (plog s ++ [{| pa_publication := p_id (pub r); pa_actor := actor; pa_operation := "approved"; pa_reason := reason; pa_snapshot := r |}]) s)
  | _, _ => Err INTERNAL_DB
  end.
Definition approve_tx (actor id : uuid) (app name : string) (body : ApprovalRequest) (requested : PublicPublication) (s : PState) :
    PState * result ApiError Approved :=
  let provider_app := provider_of app requested in
  let outcome :=
    let? ids := lock_installations s app provider_app in
    try? ensure (bool_decide (ids = (ar_consumer body, ar_provider body))) (Conflict "installation IDs are stale; reload publications") in
    let? consumer := manifest_tx s app in
    try? map_err BadRequest (validate_manifest debug_error consumer) in
    let? d := declaration consumer name in
    try? ensure (bool_decide (d = requested)) (Conflict "publication declaration changed") in
    let? provider := manifest_tx s provider_app in
    try? map_err BadRequest (validate_provider debug_error d (contract provider)) in
    let? s1 := match previous s ids.1 name with
               | Some r => supersede actor ids.2 d r s
               | None => Ok s
               end in
    let r := fresh_row s id name app provider_app ids.1 ids.2 d actor body in
    let? s2 := insert_pub r actor (ar_reason body) s1 in
    Ok (s2, snapshot r) in
  match outcome with Ok (s', p) => (s', Ok p) | Err e => (s, Err e) end.

(** The status a transition leads to, and its name in the audit. *)
Definition next_status (t : Transition) (r : PubRow) : option (string * string) :=
  match t with
  | Disable => if decide (p_status (pub r) = "active") then Some ("disabled", "disabled") else None
  | Enable => if decide (p_status (pub r) = "disabled") then Some ("active", "enabled") else None
  | Revoke => Some ("revoked", "revoked")
  end.
(** The row of a capability under the locks. *)
Definition locked_row (p : Approved) (t : Transition) (s : PState) : result ApiError PubRow :=
  try? (if decide (t = Enable) then
          let? ids := lock_installations s (ap_consumer_app (approved p)) (ap_provider_app (approved p)) in
          ensure (bool_decide (ids = (ap_consumer_installation (approved p), ap_provider_installation (approved p))))
            (Conflict "publication installations changed; obtain a new approval")
        else Ok tt) in
  let? r := ok_or (pubs s !! ap_id (approved p)) INTERNAL_DB in
  try? ensure (p_nonterminal r) (Conflict "publication is already terminal") in Ok r.
Definition move_row (actor : uuid) (p : Approved) (t : Transition) (reason : string) (r : PubRow) (s : PState) : result ApiError (PState * string) :=
  let id := ap_id (approved p) in
  let? '(status, operation) := ok_or (next_status t r) (Conflict "publication is not in the required state") in
  if decide (status = "revoked") then
    let? s' := terminate_tx id actor status reason s in Ok (s', status)
  else
    let? s' := update_pub id status operation None actor reason s in
    try? (if decide (t = Enable) then
            map_err (λ _, Conflict "publication installation or frozen declaration changed; obtain a new approval")
              (validate_locked_publication s' (set_version (p_version (pub r) + 1) p))
          else Ok tt) in
    Ok (s', status).
(** An approval that has expired is ended before the request is refused. *)
Definition transition_tx (actor : uuid) (p : Approved) (t : Transition) (reason : string) (s : PState) :
    PState * result ApiError (uuid * Z * string) :=
  match locked_row p t s with
  | Err e => (s, Err e)
  | Ok r =>
      if negb (p_unexpired s r) then
        match terminate_tx (ap_id (approved p)) actor "expired" reason s with
        | Ok s' => (s', Err (Conflict "publication has expired"))
        | Err e => (s, Err e)
        end
      else
        match move_row actor p t reason r s with
        | Ok (s', status) => (s', Ok (ap_id (approved p), (p_version (pub r) + 1)%Z, status))
        | Err e => (s, Err e)
        end
  end.

(** ** Requests *)

Notation PProc := (Proc PState).
Definition approve_publication (actor id : uuid) (app name : string) (body : ApprovalRequest) : PProc (result ApiError Approved) :=
  do _ <- query (λ s, try? require_reason (ar_reason body) in
                      ensure (unexpired_at (base (px s)) (ar_expires_at body)) (BadRequest "expiresAt must be in the future"));
  do requested <- query (λ s, let? initial := manifest_tx s app in declaration initial name);
  do _ <- query (λ s, require_provider s actor (provider_of app requested));
  atomic (approve_tx actor id app name body requested).

(** [ORDER BY created_at DESC, id DESC LIMIT 1] *)
Definition later_pub (a b : PubRow) : bool :=
  (pub_created_at b <? pub_created_at a)%Z
  || bool_decide (pub_created_at b = pub_created_at a) && match String.compare (p_id (pub a)) (p_id (pub b)) with Datatypes.Gt => true | _ => false end.
Definition newest (l : list PubRow) : option PubRow :=
  foldr (λ r acc, match acc with Some a => if later_pub r a then Some r else acc | None => Some r end) None l.
Definition held_by (s : PState) (app name : string) : option PubRow :=
  newest (List.filter (λ r, bool_decide (p_consumer_app (pub r) = app) && bool_decide (name_ r = name) && p_nonterminal r) (map snd (map_to_list (pubs s)))).
Definition transition_publication (actor : uuid) (app name : string) (t : Transition) (reason : string) :
    PProc (result ApiError (uuid * Z * string)) :=
  do _ <- pure (require_reason reason);
  do r <- query (λ s, ok_or (held_by s app name) (Conflict "publication has no nonterminal approval"));
  do _ <- query (λ s, require_provider s actor (p_provider_app (pub r)));
  atomic (transition_tx actor (snapshot r) t reason).

(** [principal_tx]: the principal of an installation, made on first use with the
    identifier [user]. *)
Definition principal_tx (installation user : uuid) (s : PState) : PState * result ApiError uuid :=
  let '(s', p) := match principals s !! installation with
                  | Some p => (s, p)
                  | None => let p := {| pp_user := user; pp_valid := true |} in
                            ({| px := px s; pubs := pubs s; principals := <[installation := p]> (principals s); plog := plog s |}, p)
                  end in
  if pp_valid p then (s', Ok (pp_user p)) else (s, Err (Forbidden "public execution principal is disabled or invalid")).
Definition in_use (s : PState) (installation : uuid) (name : string) : option PubRow :=
  snd <$> List.find (λ e, bool_decide (p_consumer_installation (pub e.2) = installation) && bool_decide (name_ e.2 = name)
                          && bool_decide (p_status (pub e.2) = "active") && p_unexpired s e.2) (map_to_list (pubs s)).
Definition resolve_one (s : PState) (installation : uuid) (name : string) : result ApiError Approved :=
  let? r := ok_or (in_use s installation name) (Forbidden ("publication '" +:+ name +:+ "' requires approval")) in
  try? map_err (λ _, Forbidden ("publication '" +:+ name +:+ "' is no longer current")) (lock_in_tx s (snapshot r)) in
  Ok (snapshot r).
Definition resolve_tx (app : string) (names : list string) (ds : list PublicPublication) (user : uuid) (s : PState) :
    PState * result ApiError Execution :=
  match (try? try_for_each (λ a, result_map (λ _, tt) (installation_tx s a)) (sorted_unique (map (provider_of app) ds ++ [app])) in
         let? installation := installation_tx s app in
         let? current := manifest_tx s app in
         try? try_for_each (λ d, let? declared := declaration current (pub_name d) in
                                 ensure (bool_decide (declared = d)) (Forbidden "publication profile changed while resolving")) ds in
         let? ps := try_map (resolve_one s installation) (sort_strings names) in Ok (installation, ps)) with
  | Err e => (s, Err e)
  | Ok (installation, ps) =>
      match principal_tx installation user s with
      | (s', Ok principal) => (s', Ok {| ex_consumer_app := app; ex_installation := installation; ex_principal := principal; ex_publications := ps |})
      | (_, Err e) => (s, Err e)
      end
  end.
Fixpoint declared_names (m : PublicManifest) (seen names : list string) : result ApiError (list PublicPublication) :=
  match names with
  | [] => Ok []
  | name :: names =>
      try? ensure (negb (bool_decide (name ∈ seen))) (Forbidden "duplicate publication reference") in
      let? d := declaration m name in
      let? rest := declared_names m (name :: seen) names in Ok (d :: rest)
  end.
Definition resolve (app : string) (names : list string) (user : uuid) : PProc (result ApiError Execution) :=
  do ds <- query (λ s, let? consumer := manifest_tx s app in
                       try? map_err Forbidden (validate_manifest debug_error consumer) in
                       let? ds := declared_names consumer [] names in
                       try? map_err Forbidden (validate_profile app ds) in Ok ds);
  atomic (resolve_tx app names ds user).

(** [publication_history]: the audit of the approvals a manager of their provider, or of
    publications, may see, the latest entries first. *)
Definition visible_to (s : PState) (actor : uuid) (app name : string) (r : PubRow) : bool :=
  bool_decide (p_consumer_app (pub r) = app) && bool_decide (name_ r = name) && can_manage_tx s actor (p_provider_app (pub r)).
Definition publication_history (s : PState) (actor : uuid) (app name : string) : result ApiError (list PubAudit) :=
  let allowed := existsb (λ e, visible_to s actor app name e.2) (map_to_list (pubs s)) in
  try? (if allowed then Ok tt
        else let? m := manifest_tx s app in let? d := declaration m name in require_provider s actor (provider_of app d)) in
  Ok (take 1000 (List.filter (λ a, match pubs s !! pa_publication a with Some r => visible_to s actor app name r | None => false end) (rev (plog s)))).

(** [list]: each declaration with its newest approval and what became of it. *)
Definition listed_before (a b : PubRow) : bool :=
  (pub_created_at b <? pub_created_at a)%Z
  || bool_decide (pub_created_at b = pub_created_at a) && match String.compare (p_id (pub a)) (p_id (pub b)) with Datatypes.Lt => true | _ => false end.
Definition latest_approval (s : PState) (installation : uuid) (name : string) : option PubRow :=
  foldr (λ r acc, match acc with Some a => if listed_before r a then Some r else acc | None => Some r end) None
    (List.filter (λ r, bool_decide (p_consumer_installation (pub r) = installation) && bool_decide (name_ r = name)) (map snd (map_to_list (pubs s)))).
Definition listed_status (s : PState) (approval : option PubRow) (d : PublicPublication) (provider_id : option uuid) : string :=
  match approval with
  | None => "pending"
  | Some r =>
      if decide (p_status (pub r) = "revoked") then "revoked"
      else if bool_decide (p_status (pub r) = "expired") || negb (p_unexpired s r) then "expired"
      else if decide (p_status (pub r) = "disabled") then "disabled"
      else if bool_decide (definition r = d) && bool_decide (Some (p_provider_installation (pub r)) = provider_id) then "active"
      else "pending"
  end.
Record Listed := { ls_definition : PublicPublication; ls_provider : string; ls_provider_id : option uuid; ls_status : string; ls_approval : option PubRow }.
Definition list_publications (s : PState) (actor : uuid) (app : string) : result ApiError (list Listed) :=
  let all := can_manage_tx s actor app in
  let? consumer := manifest_tx s app in
  let? consumer_id := installation_tx s app in
  let rows := omap (λ d,
    let provider := provider_of app d in
    if all || can_manage_tx s actor provider then
      let provider_id := if installed (base (px s)) provider then fst <$> active_of provider (px s) else None in
      let approval := latest_approval s consumer_id (pub_name d) in
      Some {| ls_definition := d; ls_provider := provider; ls_provider_id := provider_id; ls_status := listed_status s approval d provider_id; ls_approval := approval |}
    else None) (from_option publications_ [] (public consumer)) in
  try? ensure (all || negb (bool_decide (rows = []))) (Forbidden "provider publication approval permission required") in
  Ok rows.
End Approvals.

(** ** Everything that may happen *)

Inductive PTx :=
| PApprove (actor id : uuid) (app name : string) (body : ApprovalRequest) (requested : PublicPublication)
| PTransition (actor : uuid) (p : Approved) (t : Transition) (reason : string)
| PResolve (app : string) (names : list string) (ds : list PublicPublication) (user : uuid).

Section PWorld.
Context `{!Parsers} (debug_error : ApiError → string) (parse_public : string → option PublicManifest).
Definition parse_contract (text : string) : option AppManifest := contract <$> parse_public text.
Definition run_ptx (t : PTx) (s : PState) : PState :=
  match t with
  | PApprove actor id app name body requested => (approve_tx debug_error parse_public actor id app name body requested s).1
  | PTransition actor p t reason => (transition_tx debug_error parse_public actor p t reason s).1
  | PResolve app names ds user => (resolve_tx debug_error parse_public app names ds user s).1
  end.
Inductive pstep : PState → PState → Prop :=
| ps_tx t s : pstep s (run_ptx t s)
| ps_x s x : xstep parse_contract (px s) x → pstep s {| px := x; pubs := pubs s; principals := principals s; plog := plog s |}
| ps_user s m : pstep s {| px := px s; pubs := pubs s; principals := m; plog := plog s |}.
End PWorld.

(** One change of the approvals: an update that the trigger lets pass, or a new row of
    a valid declaration that no other approval holds the name of; each with its audit. *)
Definition audited_as (id actor : uuid) (operation reason : string) (r : PubRow) : PubAudit :=
  {| pa_publication := id; pa_actor := actor; pa_operation := operation; pa_reason := reason; pa_snapshot := r |}.
Definition operation_of (status operation : string) : Prop := operation = status ∨ (operation = "enabled" ∧ status = "active").
Record is_fresh (s : PState) (r : PubRow) : Prop := {
  if_absent : pubs s !! p_id (pub r) = None;
  if_free : previous s (p_consumer_installation (pub r)) (name_ r) = None;
  if_active : p_status (pub r) = "active";
  if_version : p_version (pub r) = 1%Z;
  if_entity : p_entity (pub r) = pub_entity (definition r);
  if_release : p_release_ownership (pub r) = pub_release (definition r);
  if_name : name_ r = pub_name (definition r);
  if_provider : p_provider_app (pub r) = provider_of (p_consumer_app (pub r)) (definition r);
  if_valid : validate_definition (definition r) = Ok tt }.
Inductive pmove : PState → PState → Prop :=
| pm_update s id r status operation revoked actor reason :
    pubs s !! id = Some r → guard_status s r status = true → operation_of status operation →
    pmove s (set_pubs (<[id := restatus status revoked r]> (pubs s)) (plog s ++ [audited_as id actor operation reason (restatus status revoked r)]) s)
| pm_insert s r actor reason : is_fresh s r →
    pmove s (set_pubs (<[p_id (pub r) := r]> (pubs s)) (plog s ++ [audited_as (p_id (pub r)) actor "approved" reason r]) s).

Lemma update_pub_move id status operation revoked actor reason s s' :
  operation_of status operation → update_pub id status operation revoked actor reason s = Ok s' → pmove s s'.
Proof.
  unfold update_pub. intros Ho. destruct (pubs s !! id) as [r|] eqn:Hr; [|done]. destruct (guard_status s r status) eqn:Hg; [|done].
  intros [= <-]. by apply (pm_update s id r status operation revoked actor reason).
Qed.
Lemma terminate_move id actor status reason s s' : terminate_tx id actor status reason s = Ok s' → pmove s s'.
Proof.
  unfold terminate_tx. destruct (pubs s !! id) as [r|]; [|done]. destruct (p_nonterminal r); [|done]. apply update_pub_move. by left.
Qed.
Lemma pmove_px s s' : pmove s s' → px s' = px s ∧ principals s' = principals s.
Proof. by destruct 1. Qed.

Section Moves.
Context `{!Parsers} (debug_error : ApiError → string) (parse_public : string → option PublicManifest).

Lemma find_definition_name name ds d : find_definition name ds = Some d → d ∈ ds ∧ pub_name d = name.
Proof. intros [Hin Hn]%find_some. apply bool_decide_eq_true in Hn. split; [by apply list_elem_of_In|done]. Qed.
Lemma declaration_ok m name d : declaration m name = Ok d → pub_name d = name ∧ ∃ surface, public m = Some surface ∧ d ∈ publications_ surface.
Proof.
  unfold declaration. intros Hd%ok_or_ok_iff. destruct (public m) as [surface|]; [|done]. cbn in Hd.
  apply find_definition_name in Hd as [Hin Hn]. split; [done|]. by exists surface.
Qed.
Lemma validate_definitions_ok m seen ds d : validate_definitions debug_error m seen ds = Ok tt → d ∈ ds → validate_definition d = Ok tt.
Proof.
  revert seen. induction ds as [|d0 ds IH]; intros seen Hv Hin; [by apply elem_of_nil in Hin|]. cbn [validate_definitions] in Hv.
  apply bind_ok_iff in Hv as ([] & Hd & Hv). apply bind_ok_iff in Hv as ([] & _ & Hv). apply bind_ok_iff in Hv as ([] & _ & Hv).
  apply elem_of_cons in Hin as [->|Hin]; [done|]. by eapply IH.
Qed.
Lemma validate_manifest_definition m name d :
  validate_manifest debug_error m = Ok tt → declaration m name = Ok d → validate_definition d = Ok tt.
Proof.
  unfold validate_manifest. intros Hv (_ & surface & Hs & Hin)%declaration_ok. rewrite Hs in Hv. apply bind_ok_iff in Hv as ([] & Hd & _).
  by eapply validate_definitions_ok.
Qed.

Lemma lock_installations_ok s consumer provider ids :
  lock_installations s consumer provider = Ok ids → installation_tx s consumer = Ok ids.1 ∧ installation_tx s provider = Ok ids.2.
Proof.
  unfold lock_installations. destruct (String.compare consumer provider) eqn:E; intros Hl.
  - apply string_compare_eq in E as ->. apply bind_ok_iff in Hl as (c & Hc & Hl). by injection Hl as <-.
  - apply bind_ok_iff in Hl as (c & Hc & Hl). apply bind_ok_iff in Hl as (p & Hp & Hl). by injection Hl as <-.
  - apply bind_ok_iff in Hl as (c & Hc & Hl). apply bind_ok_iff in Hl as (p & Hp & Hl). by injection Hl as <-.
Qed.

(** An approval that succeeds, step by step. *)
Lemma approve_tx_ok actor id app name body requested s s' p :
  approve_tx debug_error parse_public actor id app name body requested s = (s', Ok p) →
  ∃ consumer provider s1 r, lock_installations s app (provider_of app requested) = Ok (ar_consumer body, ar_provider body)
    ∧ manifest_tx parse_public s app = Ok consumer ∧ validate_manifest debug_error consumer = Ok tt ∧ declaration consumer name = Ok requested
    ∧ manifest_tx parse_public s (provider_of app requested) = Ok provider ∧ validate_provider debug_error requested (contract provider) = Ok tt
    ∧ r = fresh_row s id name app (provider_of app requested) (ar_consumer body) (ar_provider body) requested actor body ∧ p = snapshot r
    ∧ (s1 = s ∨ pmove s s1) ∧ is_fresh s1 r
    ∧ s' = set_pubs (<[id := r]> (pubs s1)) (plog s1 ++ [audited_as id actor "approved" (ar_reason body) r]) s1.
Proof.
  unfold approve_tx. cbv zeta. intros Ha. destruct (result_bind _ _) as [[s2 q]|e] eqn:Ho; [|done]. injection Ha as <- <-.
  apply bind_ok_iff in Ho as (ids & Hl & Ho). apply bind_ok_iff in Ho as ([] & Hs & Ho). apply ensure_ok_iff, bool_decide_eq_true in Hs as ->.
  apply bind_ok_iff in Ho as (consumer & Hc & Ho). apply bind_ok_iff in Ho as ([] & Hv & Ho). apply map_err_ok_iff in Hv.
  apply bind_ok_iff in Ho as (d & Hd & Ho). apply bind_ok_iff in Ho as ([] & He & Ho). apply ensure_ok_iff, bool_decide_eq_true in He as ->.
  apply bind_ok_iff in Ho as (provider & Hp & Ho). apply bind_ok_iff in Ho as ([] & Hvp & Ho). apply map_err_ok_iff in Hvp.
  apply bind_ok_iff in Ho as (s1 & Hs1 & Ho). apply bind_ok_iff in Ho as (s3 & Hi & Ho). apply ok_inj in Ho. injection Ho as <- <-.
  unfold insert_pub in Hi. cbn [fst snd] in Hi. set (r := fresh_row s id name app _ _ _ requested actor body) in *.
  destruct (pubs s1 !! p_id (pub r)) eqn:Hid; [done|]. destruct (previous s1 _ _) eqn:Hpr; [done|]. injection Hi as <-.
  exists consumer, provider, s1, r. split_and!; try done.
  - destruct (previous s _ _) as [old|]; [|left; by injection Hs1]. right. unfold supersede in Hs1. cbv zeta in Hs1.
    destruct (decide _); [done|]. destruct (_ && _); [done|]. by apply terminate_move in Hs1.
  - destruct (declaration_ok _ _ _ Hd) as [Hn _]. constructor; try done. by eapply validate_manifest_definition.
Qed.

Lemma move_row_move actor p t reason r s s' status :
  move_row debug_error parse_public actor p t reason r s = Ok (s', status) → pmove s s'.
Proof.
  unfold move_row. cbv zeta. intros Ho. apply bind_ok_iff in Ho as ([st op] & Hn & Ho). apply ok_or_ok_iff in Hn. destruct (decide (st = "revoked")).
  - apply bind_ok_iff in Ho as (s2 & Ht & Ho). injection Ho as <- _. by eapply terminate_move.
  - apply bind_ok_iff in Ho as (s2 & Hu & Ho). apply bind_ok_iff in Ho as ([] & _ & Ho). injection Ho as <- _.
    eapply update_pub_move; [|exact Hu]. destruct t; cbn [next_status] in Hn; repeat (destruct (decide _); [|done]); injection Hn as <- <-; [by left|by right|done].
Qed.
Lemma run_ptx_moves t s :
  rtc pmove s (run_ptx debug_error parse_public t s)
  ∨ ∃ m, run_ptx debug_error parse_public t s = {| px := px s; pubs := pubs s; principals := m; plog := plog s |}.
Proof.
  destruct t as [actor id app name body requested|actor p t reason|app names ds user]; cbn [run_ptx].
  - left. destruct (approve_tx _ _ actor id app name body requested s) as [s' [p|e]] eqn:Ha; cbn [fst].
    + apply approve_tx_ok in Ha as (consumer & provider & s1 & r & _ & _ & _ & _ & _ & _ & Hr & _ & Hs1 & Hf & ->).
      assert (pmove s1 (set_pubs (<[id := r]> (pubs s1)) (plog s1 ++ [audited_as id actor "approved" (ar_reason body) r]) s1)) as Hm.
      { assert (id = p_id (pub r)) as -> by (by rewrite Hr). by constructor. }
      destruct Hs1 as [->|Hs1]; [by apply rtc_once|]. eapply rtc_l; [exact Hs1|]. by apply rtc_once.
    + unfold approve_tx in Ha. cbv zeta in Ha. destruct (result_bind _ _) as [[s2 q]|e']; [done|]. injection Ha as <- _. done.
  - left. unfold transition_tx. destruct (locked_row p t s) as [r|e]; [|done]. destruct (negb (p_unexpired s r)).
    + destruct (terminate_tx _ _ _ _ _) as [s1|e] eqn:Ht; [|done]. apply terminate_move in Ht. by apply rtc_once.
    + destruct (move_row _ _ actor p t reason r s) as [[s1 status]|e] eqn:Ho; [|done]. apply rtc_once. by eapply move_row_move.
  - right. unfold resolve_tx, principal_tx. destruct (result_bind _ _) as [[installation ps]|e]; [|by exists (principals s); destruct s].
    destruct (principals s !! installation) as [q|]; cbv zeta iota beta.
    + exists (principals s). destruct (pp_valid q); by destruct s.
    + cbn [pp_valid]. eexists. reflexivity.
Qed.
End Moves.

(** ** The invariant of approvals *)

Definition log_of (id : uuid) (l : list PubAudit) : list PubAudit := List.filter (λ a, bool_decide (pa_publication a = id)) l.
(** An audit that tells how a row came to be: approved once, then changed only while
    it was active or disabled, one version at a time. *)
Inductive pchain : list PubAudit → option PubRow → Prop :=
| pc_nil : pchain [] None
| pc_approved a : pa_operation a = "approved" → p_version (pub (pa_snapshot a)) = 1%Z → p_status (pub (pa_snapshot a)) = "active" →
    pchain [a] (Some (pa_snapshot a))
| pc_next l r a status revoked : pchain l (Some r) → p_nonterminal r = true → p_status (pub r) ≠ status →
    pa_snapshot a = restatus status revoked r → operation_of status (pa_operation a) → pchain (l ++ [a]) (Some (pa_snapshot a)).
Definition same_holder (r q : PubRow) : Prop := p_consumer_installation (pub r) = p_consumer_installation (pub q) ∧ name_ r = name_ q.
Record PInv (s : PState) : Prop := {
  pi_ids : ∀ id r, pubs s !! id = Some r → p_id (pub r) = id;
  pi_one : ∀ i j r q, pubs s !! i = Some r → pubs s !! j = Some q → p_nonterminal r = true → p_nonterminal q = true → same_holder r q → i = j;
  pi_status : ∀ id r, pubs s !! id = Some r → p_status (pub r) ∈ ["active"; "disabled"; "revoked"; "expired"];
  pi_frozen : ∀ id r, pubs s !! id = Some r → p_entity (pub r) = pub_entity (definition r)
    ∧ p_release_ownership (pub r) = pub_release (definition r) ∧ name_ r = pub_name (definition r)
    ∧ p_provider_app (pub r) = provider_of (p_consumer_app (pub r)) (definition r) ∧ validate_definition (definition r) = Ok tt;
  pi_log : ∀ id, pchain (log_of id (plog s)) (pubs s !! id) }.

Lemma log_of_app id l1 l2 : log_of id (l1 ++ l2) = log_of id l1 ++ log_of id l2.
Proof. apply List.filter_app. Qed.
Lemma guard_nonterminal s r status : guard_status s r status = true → p_nonterminal r = true ∧ p_status (pub r) ≠ status
  ∧ status ∈ ["active"; "disabled"; "revoked"; "expired"].
Proof.
  unfold guard_status, p_nonterminal. intros [Hg _]%andb_true_iff. destruct (decide (p_status (pub r) = "active")) as [->|Hne].
  - apply bool_decide_eq_true in Hg. split_and!; [done|set_solver|set_solver].
  - apply andb_true_iff in Hg as [Hd Hg]. apply bool_decide_eq_true in Hd, Hg. rewrite Hd. split_and!; [done|set_solver|set_solver].
Qed.
Lemma previous_none s installation name id r :
  previous s installation name = None → pubs s !! id = Some r → p_nonterminal r = true → p_consumer_installation (pub r) = installation →
  name_ r = name → False.
Proof.
  unfold previous. intros Hp Hr Hn Hi Hname. destruct (List.find _ _) as [e|] eqn:Hf; [done|].
  apply elem_of_map_to_list, list_elem_of_In in Hr. pose proof (find_none _ _ Hf _ Hr) as Hx. cbn in Hx.
  rewrite Hn, !bool_decide_true in Hx by done. done.
Qed.

Lemma pmove_inv s s' : pmove s s' → PInv s → PInv s'.
Proof.
  intros Hm HI. destruct Hm as [s id r status operation revoked actor reason Hr Hg Ho|s r actor reason Hf].
  - destruct (guard_nonterminal _ _ _ Hg) as (Hn & Hne & Hst). constructor; cbn [set_pubs pubs plog].
    + intros j q Hq. destruct (decide (j = id)) as [->|Hj]; [rewrite lookup_insert_eq in Hq; injection Hq as <-; by apply (pi_ids s HI id r)|].
      rewrite lookup_insert_ne in Hq by done. by apply (pi_ids s HI).
    + assert (∀ j q, <[id := restatus status revoked r]> (pubs s) !! j = Some q → p_nonterminal q = true →
                ∃ q0, pubs s !! j = Some q0 ∧ p_nonterminal q0 = true ∧ same_holder q q0) as Hback.
      { intros j q Hq Hqn. destruct (decide (j = id)) as [->|Hj].
        - rewrite lookup_insert_eq in Hq. injection Hq as <-. by exists r.
        - rewrite lookup_insert_ne in Hq by done. by exists q. }
      intros i j q1 q2 H1 H2 Hn1 Hn2 [Hs1 Hs2]. destruct (Hback i q1 H1 Hn1) as (a & Ha & Hna & [Ea Ea']).
      destruct (Hback j q2 H2 Hn2) as (b & Hb & Hnb & [Eb Eb']). apply (pi_one s HI i j a b); try done. split; congruence.
    + intros j q Hq. destruct (decide (j = id)) as [->|Hj]; [rewrite lookup_insert_eq in Hq; by injection Hq as <-|].
      rewrite lookup_insert_ne in Hq by done. by eapply (pi_status s HI).
    + intros j q Hq. destruct (decide (j = id)) as [->|Hj]; [rewrite lookup_insert_eq in Hq; injection Hq as <-; exact (pi_frozen s HI id r Hr)|].
      rewrite lookup_insert_ne in Hq by done. by apply (pi_frozen s HI j).
    + intros j. rewrite log_of_app. pose proof (pi_log s HI j) as Hl. destruct (decide (j = id)) as [->|Hj].
      * rewrite lookup_insert_eq. cbn [log_of List.filter audited_as pa_publication]. rewrite bool_decide_true by done. rewrite Hr in Hl.
        by eapply (pc_next _ r (audited_as id actor operation reason (restatus status revoked r)) status revoked).
      * rewrite lookup_insert_ne by done. cbn [log_of List.filter audited_as pa_publication]. rewrite bool_decide_false by done. by rewrite app_nil_r.
  - destruct Hf as [Habs Hfree Hact Hver Hent Hrel Hname Hprov Hval]. constructor; cbn [set_pubs pubs plog].
    + intros j q Hq. destruct (decide (j = p_id (pub r))) as [->|Hj]; [rewrite lookup_insert_eq in Hq; by injection Hq as <-|].
      rewrite lookup_insert_ne in Hq by done. by apply (pi_ids s HI).
    + assert (∀ j q, j ≠ p_id (pub r) → pubs s !! j = Some q → p_nonterminal q = true → same_holder r q → False) as Hfresh.
      { intros j q _ Hq Hqn [Hs1 Hs2]. by eapply previous_none. }
      intros i j q1 q2 H1 H2 Hn1 Hn2 Hs. destruct (decide (i = p_id (pub r))) as [->|Hi], (decide (j = p_id (pub r))) as [->|Hj]; [done|..].
      * rewrite lookup_insert_eq in H1. rewrite lookup_insert_ne in H2 by done. injection H1 as <-. by destruct (Hfresh j q2).
      * rewrite lookup_insert_eq in H2. rewrite lookup_insert_ne in H1 by done. injection H2 as <-. destruct Hs as [Hs1 Hs2].
        by destruct (Hfresh i q1 Hi H1 Hn1 (conj (eq_sym Hs1) (eq_sym Hs2))).
      * rewrite lookup_insert_ne in H1, H2 by done. by apply (pi_one s HI i j q1 q2).
    + intros j q Hq. destruct (decide (j = p_id (pub r))) as [->|Hj]; [rewrite lookup_insert_eq in Hq; injection Hq as <-; rewrite Hact; by left|].
      rewrite lookup_insert_ne in Hq by done. by eapply (pi_status s HI).
    + intros j q Hq. destruct (decide (j = p_id (pub r))) as [->|Hj]; [rewrite lookup_insert_eq in Hq; by injection Hq as <-|].
      rewrite lookup_insert_ne in Hq by done. by apply (pi_frozen s HI j).
    + intros j. rewrite log_of_app. pose proof (pi_log s HI j) as Hl. destruct (decide (j = p_id (pub r))) as [->|Hj].
      * rewrite lookup_insert_eq. cbn [log_of List.filter audited_as pa_publication]. rewrite bool_decide_true by done. rewrite Habs in Hl.
        inversion Hl as [E| |]. cbn [app]. by apply (pc_approved (audited_as (p_id (pub r)) actor "approved" reason r)).
      * rewrite lookup_insert_ne by done. cbn [log_of List.filter audited_as pa_publication]. rewrite bool_decide_false by done. by rewrite app_nil_r.
Qed.
Lemma pmoves_inv s s' : rtc pmove s s' → PInv s → PInv s'.
Proof. induction 1 as [|s s1 s' Hm _ IH]; [done|]. intros HI. by apply IH, (pmove_inv s). Qed.
Lemma inv_same_pubs s s' : pubs s' = pubs s → plog s' = plog s → PInv s → PInv s'.
Proof.
  intros Hp Hl [H1 H2 H3 H4 H5]. constructor; rewrite ?Hp, ?Hl; try done.
Qed.

(** Later states: no approval is lost, its frozen part never changes, and it is the
    very same or of a later version. *)
Definition plater (s s' : PState) : Prop :=
  ∀ id r, pubs s !! id = Some r → ∃ r', pubs s' !! id = Some r' ∧ definition r' = definition r ∧ p_provider_app (pub r') = p_provider_app (pub r)
    ∧ (r' = r ∨ p_version (pub r) < p_version (pub r'))%Z.
Lemma plater_refl s : plater s s.
Proof. intros id r Hr. exists r. split_and!; [done..|by left]. Qed.
Lemma plater_trans s1 s2 s3 : plater s1 s2 → plater s2 s3 → plater s1 s3.
Proof.
  intros H12 H23 id r Hr. destruct (H12 id r Hr) as (r2 & Hr2 & Hd2 & Hp2 & Hc2). destruct (H23 id r2 Hr2) as (r3 & Hr3 & Hd3 & Hp3 & Hc3).
  exists r3. split_and!; [done|congruence|congruence|]. destruct Hc2 as [->|?]; [done|]. destruct Hc3 as [->|?]; [by right|]. right. lia.
Qed.
Lemma pmove_later s s' : pmove s s' → plater s s'.
Proof.
  intros Hm id r Hr. destruct Hm as [s i q status operation revoked actor reason Hq Hg Ho|s q actor reason Hf]; cbn [set_pubs pubs].
  - destruct (decide (id = i)) as [->|Hi].
    + rewrite lookup_insert_eq. rewrite Hq in Hr. injection Hr as ->. exists (restatus status revoked r). split_and!; [done..|]. right. cbn. lia.
    + rewrite lookup_insert_ne by done. exists r. split_and!; [done..|by left].
  - rewrite lookup_insert_ne by (intros E; pose proof (if_absent _ _ Hf) as E'; rewrite E, Hr in E'; done). exists r. split_and!; [done..|by left].
Qed.

Section PReachable.
Context `{!Parsers} (debug_error : ApiError → string) (parse_public : string → option PublicManifest).
Local Notation pstep := (pstep debug_error parse_public).
Local Notation lock_in_tx := (lock_in_tx debug_error parse_public).

Lemma pstep_cases s s' : pstep s s' → rtc pmove s s' ∨ (pubs s' = pubs s ∧ plog s' = plog s).
Proof.
  intros Hs. destruct Hs as [t s|s x Hx|s m]; [|by right|by right].
  destruct (run_ptx_moves debug_error parse_public t s) as [Hm|[m ->]]; [by left|by right].
Qed.
Lemma pstep_inv s s' : pstep s s' → PInv s → PInv s'.
Proof. intros [Hm|[Hp Hl]]%pstep_cases HI; [by eapply pmoves_inv|by eapply inv_same_pubs]. Qed.
Lemma psteps_inv s s' : rtc pstep s s' → PInv s → PInv s'.
Proof. induction 1 as [|s s1 s' Hm _ IH]; [done|]. intros HI. by apply IH, (pstep_inv s). Qed.
Lemma pstep_later s s' : pstep s s' → plater s s'.
Proof.
  intros [Hm|[Hp Hl]]%pstep_cases.
  - induction Hm as [|s s1 s' Hm _ IH]; [apply plater_refl|]. eapply plater_trans; [by apply pmove_later|done].
  - intros id r Hr. rewrite Hp. exists r. split_and!; [done..|by left].
Qed.
Lemma psteps_later s s' : rtc pstep s s' → plater s s'.
Proof. induction 1 as [|s s1 s' Hm _ IH]; [apply plater_refl|]. eapply plater_trans; [by apply pstep_later|done]. Qed.

(** A system before anything is approved. *)
Definition unpublished (x : XState) : PState := {| px := x; pubs := ∅; principals := ∅; plog := [] |}.
Lemma unpublished_inv x : PInv (unpublished x).
Proof.
  constructor; cbn [unpublished pubs plog]; [intros ?? Hr|intros ???? Hr|intros ?? Hr|intros ?? Hr|intros id; constructor]; by rewrite lookup_empty in Hr.
Qed.

(** [C24] Whatever is requested of publications, in whatever order and whatever else
    happens: at most one approval that is not ended holds a name of an installation;
    what was approved never changes and is a valid declaration, only its status does,
    one version at a time and never once it is revoked or expired; and the audit of
    each approval replays to its row. *)
Theorem publications_invariant x s : rtc pstep (unpublished x) s → PInv s.
Proof. intros Hs. exact (psteps_inv _ _ Hs (unpublished_inv x)). Qed.

Lemma lock_in_tx_ok s p :
  lock_in_tx s p = Ok tt →
  ∃ r consumer provider, installation_tx s (ap_consumer_app (approved p)) = Ok (ap_consumer_installation (approved p))
    ∧ installation_tx s (ap_provider_app (approved p)) = Ok (ap_provider_installation (approved p))
    ∧ pubs s !! ap_id (approved p) = Some r ∧ row_current s p r = true
    ∧ manifest_tx parse_public s (ap_consumer_app (approved p)) = Ok consumer ∧ validate_manifest debug_error consumer = Ok tt
    ∧ declaration consumer (pub_name (frozen p)) = Ok (frozen p)
    ∧ manifest_tx parse_public s (ap_provider_app (approved p)) = Ok provider ∧ validate_provider debug_error (frozen p) (contract provider) = Ok tt.
Proof.
  unfold Publications.lock_in_tx, validate_locked_publication. cbv zeta. intros Hl. apply bind_ok_iff in Hl as (ids & Hi & Hl).
  apply bind_ok_iff in Hl as ([] & He & Hl). apply ensure_ok_iff, bool_decide_eq_true in He as ->. apply lock_installations_ok in Hi as [Hc Hp].
  apply bind_ok_iff in Hl as (consumer & Hcm & Hl). apply bind_ok_iff in Hl as ([] & Hv & Hl). apply map_err_ok_iff in Hv.
  apply bind_ok_iff in Hl as ([] & Hr & Hl). apply ensure_ok_iff in Hr. apply bind_ok_iff in Hl as (d & Hd & Hl).
  apply bind_ok_iff in Hl as ([] & Hd' & Hl). apply ensure_ok_iff, bool_decide_eq_true in Hd' as ->. apply bind_ok_iff in Hl as (provider & Hpm & Hl).
  apply map_err_ok_iff in Hl. destruct (pubs s !! ap_id (approved p)) as [r|] eqn:Hrow; [|done]. by exists r, consumer, provider.
Qed.

(** [C25] A capability to read a publication that held at one moment and holds at a
    later one is of an approval that did not change in between: one that was disabled,
    revoked or replaced meanwhile, even if it was enabled again, is dead for good. *)
Theorem suspended_capability_is_dead s1 s2 s3 p :
  rtc pstep s1 s2 → rtc pstep s2 s3 → lock_in_tx s1 p = Ok tt → lock_in_tx s3 p = Ok tt →
  ∃ r, pubs s1 !! ap_id (approved p) = Some r ∧ pubs s2 !! ap_id (approved p) = Some r ∧ pubs s3 !! ap_id (approved p) = Some r
    ∧ p_status (pub r) = "active".
Proof.
  intros H12 H23 (r1 & _ & _ & _ & _ & Hr1 & Hc1 & _)%lock_in_tx_ok (r3 & _ & _ & _ & _ & Hr3 & Hc3 & _)%lock_in_tx_ok.
  destruct (psteps_later _ _ H12 _ _ Hr1) as (r2 & Hr2 & _ & _ & Hv2). destruct (psteps_later _ _ H23 _ _ Hr2) as (r3' & Hr3' & _ & _ & Hv3).
  rewrite Hr3 in Hr3'. injection Hr3' as <-. unfold row_current in Hc1, Hc3. bool_hyps.
  assert (p_version (pub r1) = p_version (pub r3)) as Hv by congruence.
  destruct Hv2 as [->|?]; [|destruct Hv3 as [->|?]; lia]. destruct Hv3 as [->|?]; [|lia]. by exists r1.
Qed.

Lemma pchain_approved l r : pchain l (Some r) → ∃ a, In a l ∧ pa_operation a = "approved" ∧ definition (pa_snapshot a) = definition r.
Proof.
  remember (Some r) as o eqn:Ho. intros Hc. revert r Ho. induction Hc as [|a Hop Hv Hst|l q a status revoked Hc IH Hn Hne Hsn Ho']; intros r [= <-].
  - exists a. split_and!; [by left|done|done].
  - destruct (IH q eq_refl) as (a0 & Hin & Hop & Hd). exists a0. split_and!; [apply in_or_app; by left|done|]. by rewrite Hd, Hsn.
Qed.
Lemma publishable_ok types f : publishable types f = Ok tt → ∃ t, types !! f = Some t ∧ f_sensitive t = false ∧ is_json (f_type t) = false.
Proof.
  unfold publishable. intros Hp. apply bind_ok_iff in Hp as (t & Ht & Hp). apply ok_or_ok_iff in Ht. apply ensure_ok_iff, negb_true_iff, orb_false_iff in Hp as [? ?].
  by exists t.
Qed.
Lemma validate_provider_ok d m :
  validate_provider debug_error d m = Ok tt →
  ∃ e types, e ∈ data_contract m ∧ entity_name e = pub_entity d ∧ field_types parse_bigdecimal e = Ok types
    ∧ (∀ f, f ∈ pub_fields d ∨ f ∈ collect_filter_fields (pub_where d) → ∃ t, types !! f = Some t ∧ f_sensitive t = false ∧ is_json (f_type t) = false)
    ∧ ∃ c binds, build_where_clause show_json types (pub_where d) ([], 0) = Ok (c, binds).
Proof.
  unfold validate_provider. intros Hv. apply bind_ok_iff in Hv as (e & He & Hv). apply ok_or_ok_iff, find_some in He as [Hin Hn].
  apply bool_decide_eq_true in Hn. apply bind_ok_iff in Hv as (types & Hty & Hv). apply bind_ok_iff in Hv as ([] & Hf & Hv).
  apply bind_ok_iff in Hv as ([] & _ & Hv). apply result_map_ok_iff in Hv as ([c binds] & Hb & _). apply map_err_ok_iff in Hb.
  exists e, types. split_and!; [by apply list_elem_of_In|done|done| |by eexists _, _]. intros f Hin'. apply publishable_ok.
  apply try_for_each_ok_iff in Hf. apply (proj1 (Forall_forall _ _) Hf). apply elem_of_app. destruct Hin' as [?|?]; [by left|right].
  apply elem_of_query_fields. by left.
Qed.

(** A publication that is read is, at that moment, approved, active and
    unexpired; its consumer still declares exactly what was approved, both apps are
    installed as they were then, and its provider still has the entity, with every
    published field and every field of its predicate declared, not sensitive and not
    a document. *)
Theorem locked_publication_is_current s p :
  PInv s → lock_in_tx s p = Ok tt →
  ∃ r consumer provider e types,
    pubs s !! ap_id (approved p) = Some r ∧ p_status (pub r) = "active" ∧ p_unexpired s r = true ∧ definition r = frozen p
    ∧ p_version (pub r) = ap_version (approved p)
    ∧ (∃ a, In a (plog s) ∧ pa_publication a = ap_id (approved p) ∧ pa_operation a = "approved" ∧ definition (pa_snapshot a) = frozen p)
    ∧ fst <$> active_of (ap_consumer_app (approved p)) (px s) = Some (ap_consumer_installation (approved p))
    ∧ fst <$> active_of (ap_provider_app (approved p)) (px s) = Some (ap_provider_installation (approved p))
    ∧ manifest_tx parse_public s (ap_consumer_app (approved p)) = Ok consumer ∧ declaration consumer (pub_name (frozen p)) = Ok (frozen p)
    ∧ manifest_tx parse_public s (ap_provider_app (approved p)) = Ok provider
    ∧ e ∈ data_contract (contract provider) ∧ entity_name e = pub_entity (frozen p) ∧ field_types parse_bigdecimal e = Ok types
    ∧ ∀ f, f ∈ pub_fields (frozen p) ∨ f ∈ collect_filter_fields (pub_where (frozen p)) →
        ∃ t, types !! f = Some t ∧ f_sensitive t = false ∧ is_json (f_type t) = false.
Proof.
  intros HI (r & consumer & provider & Hc & Hp & Hr & Hcur & Hcm & _ & Hd & Hpm & Hvp)%lock_in_tx_ok.
  destruct (validate_provider_ok _ _ Hvp) as (e & types & He & Hn & Hty & Hf & _). unfold row_current in Hcur. bool_hyps.
  exists r, consumer, provider, e, types. apply ok_or_ok_iff in Hc, Hp. split_and!; try done.
  pose proof (pi_log s HI (ap_id (approved p))) as Hl. rewrite Hr in Hl. apply pchain_approved in Hl as (a & Hin & Hop & Hda).
  apply filter_In in Hin as [Hin Hpub]. apply bool_decide_eq_true in Hpub. exists a. split_and!; [done|done|done|congruence].
Qed.

(** A publication is approved only by someone who may publish the provider's
    data during the request, with a reason, of exactly the declaration the consumer's
    manifest holds at that moment, which the provider's manifest satisfies, for the
    installations named in the request; and the approval is audited in the same
    step. *)
Theorem only_the_provider_publishes actor id app name body s s' p :
  runs pstep (approve_publication debug_error parse_public actor id app name body) s s' (Ok p) →
  ∃ y z z' d consumer provider r, rtc pstep s y ∧ rtc pstep y z ∧ pstep z z' ∧ rtc pstep z' s'
    ∧ can_manage_tx y actor (provider_of app d) = true ∧ trim (ar_reason body) ≠ EmptyString
    ∧ manifest_tx parse_public z app = Ok consumer ∧ declaration consumer name = Ok d ∧ validate_definition d = Ok tt
    ∧ manifest_tx parse_public z (provider_of app d) = Ok provider ∧ validate_provider debug_error d (contract provider) = Ok tt
    ∧ lock_installations z app (provider_of app d) = Ok (ar_consumer body, ar_provider body)
    ∧ pubs z !! id = None ∧ pubs z' !! id = Some r ∧ p = snapshot r ∧ definition r = d ∧ pub_approved_by r = actor ∧ p_status (pub r) = "active"
    ∧ ∃ l, plog z' = l ++ [audited_as id actor "approved" (ar_reason body) r].
Proof.
  unfold approve_publication. intros (u & y1 & Hq1 & Hr)%runs_bind. apply runs_bind in Hr as (d & y2 & Hq2 & Hr).
  apply runs_bind in Hr as (u' & y3 & Hq3 & Hr). apply runs_query in Hq1 as (x1 & Ha1 & Hb1 & Hc1). apply runs_query in Hq2 as (x2 & Ha2 & Hb2 & Hc2).
  apply runs_query in Hq3 as (y & Ha3 & Hb3 & Hc3). apply runs_atomic in Hr as (z & Hz & Htx & Hs').
  destruct (approve_tx _ _ actor id app name body d z) as [z' r'] eqn:Happ. cbn [fst snd] in Htx, Hs'. subst r'.
  pose proof Happ as Hst. apply approve_tx_ok in Happ as (consumer & provider & z1 & r & Hl & Hcm & Hv & Hd & Hpm & Hvp & Hr & -> & Hz1 & Hf & Hz').
  exists y, z, z', d, consumer, provider, r. apply bind_ok_iff in Hb1 as ([] & Hb1 & _). apply ensure_ok_iff, negb_true_iff, bool_decide_eq_false in Hb1.
  apply ensure_ok_iff in Hb3. assert (p_id (pub r) = id) as Hid by (by rewrite Hr). split_and!; try done.
  - etrans; [exact Ha1|]. etrans; [exact Hc1|]. etrans; [exact Ha2|]. etrans; [exact Hc2|exact Ha3].
  - by etrans.
  - pose proof (ps_tx debug_error parse_public (PApprove actor id app name body d) z) as Hp. cbn [run_ptx] in Hp. by rewrite Hst in Hp.
  - by eapply validate_manifest_definition.
  - pose proof (if_absent _ _ Hf) as Hab. rewrite Hid in Hab. destruct Hz1 as [->|Hm]; [done|].
    destruct (pubs z !! id) as [q|] eqn:Hq; [|done]. destruct (pmove_later _ _ Hm id q Hq) as (q' & Hq' & _). congruence.
  - rewrite Hz'. cbn. by rewrite lookup_insert_eq.
  - by rewrite Hr.
  - by rewrite Hr.
  - by rewrite Hr.
  - exists (plog z1). by rewrite Hz'.
Qed.

(** What the listing shows as active is what a resolution finds under that name. *)
Lemma latest_approval_In s installation name r :
  latest_approval s installation name = Some r → ∃ id, pubs s !! id = Some r ∧ p_consumer_installation (pub r) = installation ∧ name_ r = name.
Proof.
  unfold latest_approval. intros Hf.
  assert (∀ l, foldr (λ r acc, match acc with Some a => if listed_before r a then Some r else acc | None => Some r end) None l = Some r → In r l) as Hin.
  { clear. induction l as [|q l IH]; cbn; [done|]. destruct (foldr _ _ l) as [a|]; [destruct (listed_before q a)|]; intros [= <-]; auto. }
  apply Hin, filter_In in Hf as [Hm Hb]. bool_hyps. apply in_map_iff in Hm as ([id q] & <- & Hm). apply list_elem_of_In, elem_of_map_to_list in Hm. by exists id.
Qed.
Lemma listed_active_is_in_use s installation name d provider_id :
  PInv s → listed_status s (latest_approval s installation name) d provider_id = "active" →
  ∃ r, in_use s installation name = Some r ∧ definition r = d ∧ Some (p_provider_installation (pub r)) = provider_id.
Proof.
  intros HI. unfold listed_status. destruct (latest_approval s installation name) as [r|] eqn:Hl; [|done].
  apply latest_approval_In in Hl as (id & Hr & Hi & Hn). destruct (decide (_ = "revoked")) as [|Hrev]; [done|].
  destruct (_ || _) eqn:Hx; [done|]. apply orb_false_iff in Hx as [Hex Hun]. apply bool_decide_eq_false in Hex. apply negb_false_iff in Hun.
  destruct (decide (_ = "disabled")) as [|Hdis]; [done|]. destruct (_ && _) eqn:Hb; [|done]. bool_hyps. intros _.
  assert (p_status (pub r) = "active") as Hact by (pose proof (pi_status s HI id r Hr); set_solver). exists r. split_and!; try done. unfold in_use.
  assert (∀ f, (∀ e, f e = true ↔ p_consumer_installation (pub e.2) = installation ∧ name_ e.2 = name ∧ p_status (pub e.2) = "active" ∧ p_unexpired s e.2 = true) →
            snd <$> List.find f (map_to_list (pubs s)) = Some r) as Hfind.
  { intros f Hf. destruct (List.find f (map_to_list (pubs s))) as [[j q]|] eqn:E.
    - apply find_some in E as [Hin Hq]. apply Hf in Hq as (Hq1 & Hq2 & Hq3 & _). cbn in *. apply list_elem_of_In, elem_of_map_to_list in Hin.
      assert (j = id) as -> by (apply (pi_one s HI j id q r); try done; [unfold p_nonterminal; by rewrite Hq3|unfold p_nonterminal; by rewrite Hact|split; congruence]).
      congruence.
    - exfalso. apply elem_of_map_to_list, list_elem_of_In in Hr. pose proof (find_none _ _ E _ Hr) as Hfr. rewrite (proj2 (Hf (id, r))) in Hfr by done. done. }
  apply Hfind. intros e. rewrite !andb_true_iff, !bool_decide_eq_true. naive_solver.
Qed.

(** A profile that was resolved is exactly what its names declare, as approved. *)
Lemma declared_names_ok m seen names ds :
  declared_names m seen names = Ok ds → Forall2 (λ n d, declaration m n = Ok d) names ds ∧ NoDup names.
Proof.
  intros Hd. enough (Forall2 (λ n d, declaration m n = Ok d) names ds ∧ NoDup names ∧ ∀ n, n ∈ names → n ∉ seen) as (? & ? & _) by done.
  revert seen ds Hd. induction names as [|n names IH]; intros seen ds Hd; cbn [declared_names] in Hd.
  - injection Hd as <-. split_and!; [constructor|constructor|]. by intros n ?%elem_of_nil.
  - apply bind_ok_iff in Hd as ([] & Hs & Hd). apply ensure_ok_iff, negb_true_iff, bool_decide_eq_false in Hs.
    apply bind_ok_iff in Hd as (d & Hn & Hd). apply bind_ok_iff in Hd as (rest & Hr & Hd). injection Hd as <-.
    destruct (IH _ _ Hr) as (HF & Hnd & Hout). split_and!; [by constructor|constructor; [|done]|].
    + intros Hin. by destruct (Hout n Hin); left.
    + intros k [->|Hin]%elem_of_cons; [done|]. intros Hk. destruct (Hout k Hin). by right.
Qed.
Lemma installation_apps s app app' id : installation_tx s app = Ok id → installation_tx s app' = Ok id → app' = app.
Proof.
  intros H1%ok_or_ok_iff H2%ok_or_ok_iff. apply fmap_Some in H1 as ([i r] & H1 & ->). apply fmap_Some in H2 as ([i' r'] & H2 & E). cbn in E. subst i'.
  apply active_of_Some in H1 as (H1 & <- & _). apply active_of_Some in H2 as (H2 & <- & _). congruence.
Qed.
Lemma resolve_one_ok s installation name p :
  PInv s → resolve_one debug_error parse_public s installation name = Ok p →
  lock_in_tx s p = Ok tt ∧ ap_consumer_installation (approved p) = installation ∧ pub_name (frozen p) = name
    ∧ ap_provider_app (approved p) = provider_of (ap_consumer_app (approved p)) (frozen p) ∧ ap_entity (approved p) = pub_entity (frozen p)
    ∧ ap_release_ownership (approved p) = pub_release (frozen p).
Proof.
  unfold resolve_one. intros HI Hr. apply bind_ok_iff in Hr as (r & Hu & Hr). apply bind_ok_iff in Hr as ([] & Hl & Hr). injection Hr as <-.
  apply map_err_ok_iff in Hl. apply ok_or_ok_iff in Hu. unfold in_use in Hu. apply fmap_Some in Hu as ([id r'] & Hf & ->). cbn [snd] in *.
  apply find_some in Hf as [Hin Hb]. cbn [snd] in Hb. bool_hyps. apply list_elem_of_In, elem_of_map_to_list in Hin.
  destruct (pi_frozen s HI id r' Hin) as (He & Hre & Hn & Hp & _). split_and!; try done. cbn. congruence.
Qed.
Lemma scope_entries_perm app ds es : Permutation ds es → NoDup (scope_entries app ds) → NoDup (scope_entries app es).
Proof.
  intros Hp. unfold scope_entries. apply NoDup_Permutation_proper. induction Hp; cbn; [done|by f_equiv| |by etrans].
  rewrite !(assoc (++)). f_equiv. apply Permutation_app_comm.
Qed.
Lemma resolved_profile app names user s s' ex :
  PInv s → runs pstep (resolve debug_error parse_public app names user) s s' (Ok ex) →
  ∃ z, rtc pstep s z ∧ ex_consumer_app ex = app ∧ installation_tx z app = Ok (ex_installation ex)
    ∧ map (pub_name ∘ frozen) (ex_publications ex) = sort_strings names ∧ NoDup names
    ∧ Forall (λ p, lock_in_tx z p = Ok tt ∧ ap_consumer_app (approved p) = app ∧ ap_consumer_installation (approved p) = ex_installation ex
                ∧ ap_provider_app (approved p) = provider_of app (frozen p) ∧ ap_entity (approved p) = pub_entity (frozen p)
                ∧ ap_release_ownership (approved p) = pub_release (frozen p)) (ex_publications ex)
    ∧ NoDup (scope_entries app (map frozen (ex_publications ex))).
Proof.
  intros HI. unfold resolve. intros (ds & y & Hq & Hr)%runs_bind. apply runs_query in Hq as (x & Hx & Hds & Hxy). apply runs_atomic in Hr as (z & Hyz & Htx & _).
  assert (rtc pstep s z) as Hsz by (do 2 (etrans; [eassumption|]); done). exists z. split; [done|].
  pose proof (psteps_inv _ _ Hsz HI) as HIz. clear Hx Hxy Hyz. apply bind_ok_iff in Hds as (consumer & _ & Hds). apply bind_ok_iff in Hds as ([] & _ & Hds).
  apply bind_ok_iff in Hds as (ds' & Hnames & Hds). apply bind_ok_iff in Hds as ([] & Hprof & Hds). injection Hds as ->. apply map_err_ok_iff in Hprof.
  apply ensure_ok_iff, bool_decide_eq_true in Hprof. apply declared_names_ok in Hnames as [HF Hnd].
  unfold resolve_tx in Htx. destruct (result_bind _ _) as [[installation ps]|e] eqn:Ho; [|done].
  destruct (principal_tx installation user z) as [z' [principal|e]]; [|done]. cbn in Htx. injection Htx as <-. cbn [ex_consumer_app ex_installation ex_publications].
  apply bind_ok_iff in Ho as ([] & _ & Ho). apply bind_ok_iff in Ho as (i & Hi & Ho). apply bind_ok_iff in Ho as (current & Hm & Ho).
  apply bind_ok_iff in Ho as ([] & Hsame & Ho). apply bind_ok_iff in Ho as (qs & Hps & Ho). injection Ho as -> ->.
  apply try_map_ok_iff in Hps. apply try_for_each_ok_iff in Hsame.
  assert (Forall2 (λ n p, declaration current n = Ok (frozen p) ∧ pub_name (frozen p) = n ∧ lock_in_tx z p = Ok tt ∧ ap_consumer_app (approved p) = app
            ∧ ap_consumer_installation (approved p) = installation ∧ ap_provider_app (approved p) = provider_of app (frozen p)
            ∧ ap_entity (approved p) = pub_entity (frozen p) ∧ ap_release_ownership (approved p) = pub_release (frozen p)) (sort_strings names) ps) as HP.
  { eapply Forall2_impl; [exact Hps|]. intros n p Hp. apply resolve_one_ok in Hp as (Hl & Hinst & Hn & Hprov & Hent & Hrel); [|done].
    pose proof Hl as (r & c & pr & Hci & _ & _ & _ & Hcm & _ & Hdecl & _)%lock_in_tx_ok.
    assert (ap_consumer_app (approved p) = app) as Ha by (eapply installation_apps; [exact Hi|congruence]). rewrite Ha in Hcm, Hprov.
    split_and!; try done. congruence. }
  split_and!; try done.
  - clear -HP. by induction HP as [|n p ns ps (_ & <- & _) _ IH]; [|cbn; f_equal].
  - apply Forall_forall. intros p Hin. apply list_elem_of_lookup in Hin as (k & Hk). destruct (Forall2_lookup_r _ _ _ _ _ HP Hk) as (n & _ & _ & _ & Hrest). naive_solver.
  - eapply scope_entries_perm; [|exact Hprof].
    assert (Forall2 (λ n d, declaration current n = Ok d) names ds) as HF'.
    { eapply Forall2_impl; [exact (Forall2_and_r _ _ _ _ HF Hsame)|]. cbv beta. intros n d [Hd Hs]. apply bind_ok_iff in Hs as (d' & Hd' & E).
      apply ensure_ok_iff, bool_decide_eq_true in E as ->. by rewrite (proj1 (declaration_ok _ _ _ Hd)) in Hd'. }
    assert (Forall2 (λ n d, declaration current n = Ok d) (sort_strings names) (map frozen ps)) as HQ.
    { apply Forall2_fmap_r. eapply Forall2_impl; [exact HP|]. naive_solver. }
    destruct (Permutation_Forall2 (Permutation_sym (sort_strings_perm names)) HF') as (es & Hp & HE). etrans; [exact Hp|].
    by rewrite (Forall2_functional _ _ _ _ (λ n a b Ha Hb, ok_inj _ _ (eq_trans (eq_sym Ha) Hb)) HE HQ).
Qed.
End PReachable.

Module PublicationExamples.
Import RecordExamples CrossAppExamples.
#[local] Existing Instance toy_parsers.
Notation debug := CollectionExamples.debug.
Definition people : PublicPublication :=
  {| pub_name := "people"; pub_app := None; pub_entity := "person"; pub_actions := ["list"; "read"]; pub_fields := ["name"];
     pub_where := JObject [("name", JString "ada")]; pub_release := false |}.
Definition surface : PublicSurface :=
  {| publications_ := [people]; rpcs := [{| rpc_name := "who"; rpc_publications := ["people"]; rpc_scope := [] |}];
     collections := [{| col_entity := "person"; col_publication := Some "people"; col_actions := ["list"; "read"] |}] |}.
Definition read_manifest (s : string) : option PublicManifest := Some {| contract := person_app s; public := Some surface |}.
Definition body : ApprovalRequest := {| ar_consumer := "i1"; ar_provider := "i1"; ar_reason := "directory"; ar_expires_at := Some 20%Z |}.
Notation steps := (pstep debug read_manifest).
Definition p0 : PState := unpublished x_installed.
Definition tx_approve : PTx := PApprove "root" "p1" "crm" "people" body people.
Definition p_approved : PState := run_ptx debug read_manifest tx_approve p0.
Lemma steps_approved : rtc steps p0 p_approved.
Proof. apply rtc_once. exact (ps_tx debug read_manifest tx_approve p0). Qed.
Lemma approved_inv : PInv p_approved.
Proof. exact (psteps_inv debug read_manifest _ _ steps_approved (unpublished_inv x_installed)). Qed.

Lemma publications_invariant_witness : PInv p_approved ∧ (p_status ∘ pub) <$> pubs p_approved !! "p1" = Some "active" ∧ length (plog p_approved) = 1.
Proof. split; [exact (publications_invariant debug read_manifest x_installed p_approved steps_approved)|]. vm_compute. split; reflexivity. Defined.

Definition capability : Approved := match pubs p_approved !! "p1" with Some r => snapshot r | None => set_version 0 (snapshot (fresh_row p0 "p1" EmptyString EmptyString EmptyString "i1" "i1" people "root" body)) end.
Lemma capability_holds : lock_in_tx debug read_manifest p_approved capability = Ok tt.
Proof. vm_compute. reflexivity. Qed.
Lemma suspended_capability_is_dead_witness : ∃ r, pubs p_approved !! ap_id (approved capability) = Some r ∧ p_status (pub r) = "active".
Proof.
  destruct (suspended_capability_is_dead debug read_manifest p_approved p_approved p_approved capability (rtc_refl _ _) (rtc_refl _ _)
              capability_holds capability_holds) as (r & Hr & _ & _ & Hs). exists r. split; [exact Hr|exact Hs].
Defined.
Lemma locked_publication_is_current_witness :
  ∃ r, pubs p_approved !! ap_id (approved capability) = Some r ∧ definition r = frozen capability ∧ p_unexpired p_approved r = true.
Proof.
  destruct (locked_publication_is_current debug read_manifest p_approved capability approved_inv capability_holds)
    as (r & _ & _ & _ & _ & Hr & _ & Hu & Hd & _). exists r. split; [exact Hr|]. split; [exact Hd|exact Hu].
Defined.
Notation approving := (approve_publication debug read_manifest "root" "p1" "crm" "people" body).
Lemma only_the_provider_publishes_witness : ∃ s p r, exec 9 approving p0 = Some (s, Ok p) ∧ p = snapshot r ∧ pub_approved_by r = "root".
Proof.
  destruct (exec 9 approving p0) as [[s [p|e]]|] eqn:E.
  - destruct (only_the_provider_publishes debug read_manifest "root" "p1" "crm" "people" body p0 s p (exec_runs steps 9 approving p0 s (Ok p) E))
      as (y & z & z' & d & consumer & provider & r & _ & _ & _ & _ & _ & _ & _ & _ & _ & _ & _ & _ & _ & _ & Hp & _ & Hby & _).
    exists s, p, r. split; [reflexivity|]. split; [exact Hp|exact Hby].
  - exfalso. apply (f_equal (λ o, match o with Some (_, Ok _) => true | _ => false end)) in E. vm_compute in E. discriminate E.
  - exfalso. apply (f_equal (λ o, match o with Some (_, Ok _) => true | _ => false end)) in E. vm_compute in E. discriminate E.
Defined.
(** Disabling and enabling again makes the capability that was held worthless. *)
Definition suspend (t : Transition) (s : PState) : PState := run_ptx debug read_manifest (PTransition "root" (set_version 0 capability) t "review") s.
Example revived_under_a_new_version :
  let s := suspend Enable (suspend Disable p_approved) in
  (p_status ∘ pub) <$> pubs s !! "p1" = Some "active" ∧ lock_in_tx debug read_manifest s (set_version 3 capability) = Ok tt
  ∧ is_ok (lock_in_tx debug read_manifest s capability) = false.
Proof. vm_compute. split_and!; reflexivity. Qed.
End PublicationExamples.
