(* ===== verification/PublicReads.v ===== *)
(** * Public reads (core/src/governance/publication_reads.rs)

    What anyone may read through an execution of resolved publications: which
    publication serves a request, which fields a request may name, the grant it needs
    in another app, the read in a transaction that checks all of it again, and the
    audit of every attempt.  A read is a program of steps between which anything may
    happen, as in CrossOps; it ends by handing its outcome to the rest of the program
    it is part of. *)

From stdpp Require Import base numbers pretty gmap strings sets relations list.
From S2P Require Import Prelude Procs Str Ident Json DataTypes Perms Roles Authority Delegation Gates Ownership SqlScan Filters Records CrossApp Collections.
From S2P Require CrossOps.
From S2P Require Import Publications.
Import CrossOps(Fate, up, conn_settings, fault_of, fresh_of, audit_up, commit_of, Commit, Committed, Refused, Lost, types_in, catalog_of).
#[local] Existing Instance CrossOps.Field_eq_dec.

(** ** State *)

(** [rootcx_system.publication_read_audit] *)
Record ReadEntry := {
  re_publication : uuid; re_version : Z; re_principal : uuid; re_consumer : string; re_provider : string; re_entity : string;
  re_action : string; re_grant : option (uuid * Z); re_projection : list string; re_outcome : string; re_rows : option nat;
  re_correlation : uuid }.
(** [permits]: what is left of the semaphore of public reads. *)
Record PWorld := { pst : PState; pdata : Tables; reads : list ReadEntry; permits : nat }.
Definition PUBLIC_READS : nat := 32.
Definition set_pst (s : PState) (w : PWorld) : PWorld := {| pst := s; pdata := pdata w; reads := reads w; permits := permits w |}.
Definition add_read (e : ReadEntry) (w : PWorld) : PWorld := {| pst := pst w; pdata := pdata w; reads := reads w ++ [e]; permits := permits w |}.
Definition set_permits (n : nat) (w : PWorld) : PWorld := {| pst := pst w; pdata := pdata w; reads := reads w; permits := n |}.
Definition set_px (x : XState) (s : PState) : PState := {| px := x; pubs := pubs s; principals := principals s; plog := plog s |}.

(** ** What a request asks *)

Definition mode_of (own : bool) (op : string) : option (string * PublicationRead) :=
  if bool_decide (op ∈ ["findOne"; "read"]) then Some ("read", PubOne)
  else if decide (op = "findAll") then Some ("list", PubAll)
  else if bool_decide (op = "find") && own then Some ("list", PubAll)
  else if bool_decide (op ∈ ["find"; "list"; "findPage"]) then Some ("list", PubPage)
  else None.
Definition serves (provider entity action : string) (p : Approved) : bool :=
  bool_decide (ap_provider_app (approved p) = provider) && bool_decide (pub_entity (frozen p) = entity) && bool_decide (action ∈ pub_actions (frozen p)).
Definition NOT_PUBLISHED : string := "collection is not published for this execution".
Definition select_publication (ex : Execution) (provider entity action : string) : result string Approved :=
  match List.filter (serves provider entity action) (ex_publications ex) with
  | [] => Err NOT_PUBLISHED
  | p :: rest =>
      if negb (bool_decide (rest = [])) || negb (bool_decide (ap_consumer_app (approved p) = ex_consumer_app ex))
         || negb (bool_decide (ap_consumer_installation (approved p) = ex_installation ex))
      then Err "ambiguous or mismatched publication authority" else Ok p
  end.
(** The filter and the options of a request. *)
Definition read_query (mode : PublicationRead) (op : string) (data : JsonValue) : result string (JsonValue * list (string * JsonValue)) :=
  let? object := ok_or (as_object data) "collection query must be an object" in
  match mode with
  | PubPage =>
      if bool_decide (op = "findPage") || has_options object then
        try? ensure (negb (existsb (λ kv, negb (is_option_key kv.1)) object)) "put collection filters under where" in
        Ok (default (JObject []) (obj_get "where" object), object)
      else Ok (data, [])
  | _ => Ok (data, [])
  end.
Definition id_lookup (mode : PublicationRead) (filter : JsonValue) : bool :=
  bool_decide (mode = PubOne) && match as_object filter with
                                 | Some o => bool_decide (length o = 1) && bool_decide (is_Some (obj_get "id" o))
                                 | None => false
                                 end.

(** The part of a [ReadAudit] that changes: the grant and the projected fields. *)
Record ReadAudit := { ra_grant : option (uuid * Z); ra_fields : list string }.

Section PublicReads.
Context `{!Parsers} `{!Postgres} `{!Collation} (debug_error : ApiError → string) (parse_public : string → option PublicManifest).
Context (role_name : uuid → string) (rls : Sys → Settings → string → Policies).
Local Notation parse_contract := (parse_contract parse_public).

Definition admit_fields (types : FieldTypes) (d : PublicPublication) (mode : PublicationRead) (filter : JsonValue)
    (options : list (string * JsonValue)) : result string (list string) :=
  let? order_by := match obj_get "orderBy" options with
                   | None => Ok None
                   | Some v => result_map Some (ok_or (as_str v) "orderBy must be a string")
                   end in
  let requested := query_field_names (Some filter) order_by in
  try? try_for_each (λ f, ensure (bool_decide (is_Some (types !! f))
                                  && (bool_decide (f ∈ pub_fields d) || (id_lookup mode filter && bool_decide (f = "id"))))
                            "query field is outside the publication") requested in
  try? (if id_lookup mode filter then ensure (from_option (str_parses parse_uuid) false (get filter "id")) "record id must be a UUID" else Ok tt) in
  Ok requested.

(** ** The read *)

Section Execute.
Context {R : Type} (ex : Execution).
Notation Op := (Procs.Op PWorld Fate R).

Definition execution_of : PublicExecution :=
  {| pe_consumer_app := ex_consumer_app ex; pe_installation_id := ex_installation ex; pe_principal_id := ex_principal ex;
     pe_publications := map approved (ex_publications ex) |}.

Section Read.
Context (p : Approved) (action : string) (correlation : uuid).
Definition entry (ra : ReadAudit) (outcome : string) (rows : option nat) : ReadEntry :=
  {| re_publication := ap_id (approved p); re_version := ap_version (approved p); re_principal := ex_principal ex;
     re_consumer := ap_consumer_app (approved p); re_provider := ap_provider_app (approved p); re_entity := pub_entity (frozen p);
     re_action := action; re_grant := ra_grant ra; re_projection := ra_fields ra; re_outcome := outcome; re_rows := rows;
     re_correlation := correlation |}.
(** [record_attempt] *)
Definition record_attempt (ra : ReadAudit) (outcome : string) (k : bool → Op) : Op :=
  Do (λ f w, if up f then (add_read (entry ra outcome None) w, k true) else (w, k false)).
Definition count_rows (mode : PublicationRead) (v : JsonValue) : nat :=
  match mode with
  | PubOne => if is_null v then 0 else 1
  | PubAll => from_option length 0 (as_array v)
  | PubPage => from_option length 0 (get v "data" ≫= as_array)
  end.

(** The transaction. *)
Definition read_tx (mode : PublicationRead) (types : FieldTypes) (filter : JsonValue) (options : list (string * JsonValue))
    (grant : option AuthorizedRead) (ra : ReadAudit) (k : ReadAudit → result string JsonValue → Op) : Op :=
  Do (λ f w,
    let failed := λ e, (w, k ra (Err e)) in
    let provider := ap_provider_app (approved p) in
    let locked := λ _ _, map_err debug_error (lock_in_tx debug_error parse_public (pst w) p) in
    match (if up f then begin_tx (types_in parse_contract (px (pst w))) locked role_name (publication_access execution_of (approved p) grant)
                          (pview (pst w)) (conn_settings f) else Err EmptyString) with
    | Err _ => failed "publication is no longer authorized"
    | Ok (s, role) =>
        match published (fault_of f) (fresh_of f 0) debug_error (rls (pview (pst w)) s role) (pdata w) types provider (pub_entity (frozen p))
                (ra_fields ra) (pub_where (frozen p)) filter options mode with
        | Err _ => failed "public collection query is invalid or exceeds its limits"
        | Ok v =>
            let after := add_read (entry ra "success" (Some (count_rows mode v))) w in
            if audit_up f then
              match commit_of f with
              | Committed => (after, k ra (Ok v))
              | Lost => (after, k ra (Err "public read could not commit"))
              | Refused => failed "public read could not commit"
              end
            else failed "public audit unavailable"
        end
    end).
(** The fields of the answer. *)
Definition readable (grant : option AuthorizedRead) : list string :=
  match grant with
  | Some g => List.filter (λ f, bool_decide (f ∈ ar_fields g)) (pub_fields (frozen p))
  | None => pub_fields (frozen p)
  end.
Definition with_grant (mode : PublicationRead) (types : FieldTypes) (filter : JsonValue) (options : list (string * JsonValue))
    (grant : option AuthorizedRead) (k : ReadAudit → result string JsonValue → Op) : Op :=
  let fields := readable grant in
  let noted := (λ g, (ar_grant_id g, ar_grant_version g)) <$> grant in
  if bool_decide (fields = []) then k {| ra_grant := noted; ra_fields := fields |} (Err "publication has no readable fields within the approved grant")
  else read_tx mode types filter options grant {| ra_grant := noted; ra_fields := sort_strings fields |} k.
Definition lift_x {A : Type} (q : XProc (result ApiError A)) (k : result ApiError A → Op) : Op :=
  lift_op (λ w, px (pst w)) (λ x w, set_pst (set_px x (pst w)) w) up (Err INTERNAL_DB) q k.
Definition initial : ReadAudit := {| ra_grant := None; ra_fields := pub_fields (frozen p) |}.
Definition authorised (mode : PublicationRead) (types : FieldTypes) (filter : JsonValue) (options : list (string * JsonValue))
    (requested : list string) (k : ReadAudit → result string JsonValue → Op) : Op :=
  if decide (ap_consumer_app (approved p) = ap_provider_app (approved p)) then with_grant mode types filter options None k
  else
    lift_x (authorize_cross_app_read parse_contract (ap_consumer_app (approved p)) (ap_provider_app (approved p)) (pub_entity (frozen p)) action
              (requested ++ query_field_names (Some (pub_where (frozen p))) None))
      (λ r, match r with
            | Err _ => k initial (Err "public cross-app read requires an active grant for this scope")
            | Ok g =>
                if bool_decide (ar_consumer_installation g = ap_consumer_installation (approved p))
                   && bool_decide (ar_provider_installation g = ap_provider_installation (approved p))
                then with_grant mode types filter options (Some g) k
                else k initial (Err "publication and grant installations differ")
            end).
Definition read (op : string) (mode : PublicationRead) (data : JsonValue) (k : ReadAudit → result string JsonValue → Op) : Op :=
  match read_query mode op data with
  | Err e => k initial (Err e)
  | Ok (filter, options) =>
      Do (λ f w, match (if up f then types_in parse_contract (px (pst w)) (ap_provider_app (approved p)) (pub_entity (frozen p)) else None) with
                 | None => (w, k initial (Err "published collection is unavailable"))
                 | Some types =>
                     match admit_fields types (frozen p) mode filter options with
                     | Err e => (w, k initial (Err e))
                     | Ok requested => (w, authorised mode types filter options requested k)
                     end
                 end)
  end.
End Read.

Definition AUDIT_UNAVAILABLE : string := "public audit unavailable".
(** The permit is given back when the call ends. *)
Definition release (r : result string JsonValue) (k : result string JsonValue → Op) : Op :=
  Do (λ _ w, (set_permits (S (permits w)) w, k r)).
Definition execute (provider op entity : string) (data : JsonValue) (correlation : uuid) (k : result string JsonValue → Op) : Op :=
  Do (λ _ w,
    match permits w with
    | O => (w, k (Err "public read capacity exceeded"))
    | S n =>
        (set_permits n w,
         match mode_of (bool_decide (provider = ex_consumer_app ex)) op with
         | None => release (Err "publications permit collection reads only") k
         | Some (action, mode) =>
             match select_publication ex provider entity action with
             | Err e => release (Err e) k
             | Ok p =>
                 record_attempt p action correlation (initial p) "started" (λ stored,
                   if stored then
                     read p action correlation op mode data (λ ra r,
                       match r with
                       | Ok _ => release r k
                       | Err _ => record_attempt p action correlation ra "denied" (λ stored, release (if stored then r else Err AUDIT_UNAVAILABLE) k)
                       end)
                   else release (Err AUDIT_UNAVAILABLE) k)
             end
         end)
    end).
End Execute.

(** ** The routes *)

(** [serde_json::from_str] *)
Context (parse_json : string → option JsonValue).
Definition json_i64 (z : Z) : JsonValue := JNumber {| num_text := pretty z; num_i64 := Some z; num_f64 := Some (pretty z) |}.
Definition public_option (key value : string) : result ApiError JsonValue :=
  if decide (key = "where") then ok_or (parse_json value) (BadRequest "where must be a JSON object")
  else if bool_decide (key ∈ ["limit"; "offset"]) then ok_or (json_i64 <$> parse_i64 value) (BadRequest (key +:+ " must be an integer"))
  else if bool_decide (key ∈ ["orderBy"; "order"]) then Ok (JString value)
  else Err (BadRequest "unknown public query option").
Definition public_query (params : list (string * string)) : result ApiError (list (string * JsonValue)) :=
  try_map (λ '(key, value), result_map (pair key) (public_option key value)) params.

Definition public_declaration (app entity action : string) (s : PState) : result ApiError string :=
  let? m := match apps (base (px s)) !! app with
            | Some a => ok_or (parse_public (a_manifest a)) (Internal ("malformed manifest for app '" +:+ app +:+ "'"))
            | None => Err (NotFound "publication not found")
            end in
  let? c := ok_or (public m ≫= λ surface,
                     List.find (λ c, bool_decide (col_entity c = entity) && bool_decide (action ∈ col_actions c)) (collections surface))
              (NotFound "publication not found") in
  ok_or (col_publication c) (Forbidden "collection has no approved publication").
Definition direct (app entity action : string) (user : uuid) : Proc PState (result ApiError (Execution * string * string)) :=
  do name <- query (public_declaration app entity action);
  do ex <- resolve debug_error parse_public app [name] user;
  pure (match ex_publications ex with
        | p :: _ => Ok (ex, ap_provider_app (approved p), pub_entity (frozen p))
        | [] => Err (Internal "index out of bounds")        (* [publications[0]]; [resolve] answers one for the one name *)
        end).
Notation Route := (Procs.Op PWorld Fate (result ApiError JsonValue)).
Definition lift_p {A : Type} (q : Proc PState (result ApiError A)) (k : result ApiError A → Route) : Route :=
  lift_op pst set_pst up (Err INTERNAL_DB) q k.
Definition list_public (app entity : string) (params : list (string * string)) (user correlation : uuid) : Route :=
  lift_p (direct app entity "list" user) (λ r,
    match r with
    | Err e => Done (Err e)
    | Ok (ex, provider, target) =>
        match public_query params with
        | Err e => Done (Err e)
        | Ok q => execute ex provider "findPage" target (JObject q) correlation (λ r, Done (map_err Forbidden r))
        end
    end).
Definition get_public (app entity id : string) (user correlation : uuid) : Route :=
  lift_p (direct app entity "read" user) (λ r,
    match r with
    | Err e => Done (Err e)
    | Ok (ex, provider, target) =>
        execute ex provider "read" target (JObject [("id", JString id)]) correlation (λ r,
          Done (let? v := map_err Forbidden r in if is_null v then Err (NotFound "record not found") else Ok v))
    end).
End PublicReads.

(** ** Among everything else *)

Section Among.
Context `{!Parsers} (debug_error : ApiError → string) (parse_public : string → option PublicManifest).
Local Notation pstep := (pstep debug_error parse_public).
Local Notation xstep := (xstep (parse_contract parse_public)).

Inductive penv : PWorld → PWorld → Prop :=
| penv_state w s : pstep (pst w) s → penv w (set_pst s w)
| penv_data w t : penv w {| pst := pst w; pdata := t; reads := reads w; permits := permits w |}
| penv_reads w l : penv w {| pst := pst w; pdata := pdata w; reads := reads w ++ l; permits := permits w |}
| penv_permits w n : penv w (set_permits n w).

Lemma pmoves_px s s' : rtc pmove s s' → px s' = px s.
Proof. induction 1 as [|s s1 s' Hm _ IH]; [done|]. by rewrite IH, (proj1 (pmove_px _ _ Hm)). Qed.
Lemma pstep_px s s' : pstep s s' → rtc xstep (px s) (px s').
Proof.
  intros Hs. destruct Hs as [t s|s x Hx|s m]; [|by apply rtc_once|done].
  destruct (run_ptx_moves debug_error parse_public t s) as [Hm|[m ->]]; [|done]. by rewrite (pmoves_px _ _ Hm).
Qed.
Lemma penv_pst w w' : rtc penv w w' → rtc pstep (pst w) (pst w').
Proof.
  induction 1 as [|w w1 w' He _ IH]; [done|]. destruct He as [w s Hs|w t|w l|w n]; [|exact IH..]. eapply rtc_l; [exact Hs|exact IH].
Qed.
Lemma penv_px w w' : rtc penv w w' → rtc xstep (px (pst w)) (px (pst w')).
Proof.
  intros He%penv_pst. induction He as [|s s1 s' Hs _ IH]; [done|]. etrans; [by apply pstep_px|exact IH].
Qed.
(** Own steps that change neither records nor approvals. *)
Definition harmless (s : PWorld * PWorld) : Prop := pdata s.2 = pdata s.1 ∧ pubs (pst s.2) = pubs (pst s.1) ∧ plog (pst s.2) = plog (pst s.1).
Definition quietly (s : PWorld * PWorld) : Prop := harmless s ∧ permits s.2 = permits s.1.
Lemma quietly_harmless l : Forall quietly l → Forall harmless l.
Proof. intros Hl. eapply Forall_impl; [exact Hl|]. by intros s []. Qed.
(** The permits own steps took and did not give back. *)
Definition net_permits (l : list (PWorld * PWorld)) : Z := foldr (λ s n, (Z.of_nat (permits s.2) - Z.of_nat (permits s.1) + n)%Z) 0%Z l.
Lemma net_permits_app l1 l2 : net_permits (l1 ++ l2) = (net_permits l1 + net_permits l2)%Z.
Proof. induction l1 as [|s l1 IH]; cbn; [done|]. unfold net_permits in *. rewrite IH. lia. Qed.
Lemma net_permits_quietly l : Forall quietly l → net_permits l = 0%Z.
Proof. induction 1 as [|s l [_ Hs] _ IH]; [done|]. unfold net_permits in *. cbn. rewrite IH, Hs. lia. Qed.
End Among.

(** ** What a read does *)

Section Served.
Context `{!Parsers} `{!Postgres} `{!Collation} (debug_error : ApiError → string) (parse_public : string → option PublicManifest).
Context (role_name : uuid → string) (rls : Sys → Settings → string → Policies).
Context {R : Type} (ex : Execution).
Local Notation penv := (penv debug_error parse_public).
Local Notation pruns := (oruns (W := PWorld) (F := Fate) (R := R) penv).
Local Notation xstep := (xstep (parse_contract parse_public)).
Local Notation lock_in_tx := (lock_in_tx debug_error parse_public).
Local Notation Op := (Procs.Op PWorld Fate R).

Section OneRead.
Context (p : Approved) (action : string) (correlation : uuid).
Let consumer := ap_consumer_app (approved p).
Let provider := ap_provider_app (approved p).
Let d := frozen p.

(** The statement of a read that answered, in the state it ran in. *)
Definition answered (op : string) (mode : PublicationRead) (data : JsonValue) (fields : list string) (before : PWorld) (v : JsonValue) : Prop :=
  ∃ filter options types requested fate pol,
    read_query mode op data = Ok (filter, options) ∧ admit_fields types d mode filter options = Ok requested
    ∧ published (fault_of fate) (fresh_of fate 0) debug_error pol (pdata before) types provider (pub_entity d) fields (pub_where d) filter options mode = Ok v.
(** The grant of a read in another app, in force. *)
Definition under_grant (ra : ReadAudit) (x : XState) : Prop :=
  match ra_grant ra with
  | None => consumer = provider
  | Some (id, version) =>
      consumer ≠ provider
      ∧ ∃ g, grants x !! id = Some g ∧ g_version (grant g) = version ∧ g_status (grant g) = "active" ∧ unexpired_row x g = true
        ∧ g_consumer_app (grant g) = consumer ∧ g_provider_app (grant g) = provider ∧ g_entity (grant g) = pub_entity d
        ∧ action ∈ g_actions (grant g)
        ∧ (∀ f, f ∈ ra_fields ra → f ∈ g_fields (grant g)) ∧ (∀ f, f ∈ collect_filter_fields (pub_where d) → f ∈ g_fields (grant g))
  end.
Record served (op : string) (mode : PublicationRead) (data : JsonValue) (before after : PWorld) (ra : ReadAudit) (v : JsonValue) : Prop := {
  sv_lock : lock_in_tx (pst before) p = Ok tt;
  sv_grant : under_grant ra (px (pst before));
  sv_fields : ∀ f, f ∈ ra_fields ra → f ∈ pub_fields d;
  sv_answer : answered op mode data (ra_fields ra) before v;
  sv_after : after = add_read (entry ex p action correlation ra "success" (Some (count_rows mode v))) before }.
(** What a part of the program leaves behind: it ran to its outcome without touching
    records or approvals, and if that is an answer its last step served it. *)
Definition outcome (op : string) (mode : PublicationRead) (data : JsonValue) (k : ReadAudit → result string JsonValue → Op)
    (l : list (PWorld * PWorld)) (w' : PWorld) (r : R) : Prop :=
  ∃ l1 l2 w1 ra res, l = l1 ++ l2 ∧ pruns (k ra res) w1 l2 w' r ∧ Forall quietly l1
    ∧ ∀ v, res = Ok v → ∃ l0 before after, l1 = l0 ++ [(before, after)] ∧ served op mode data before after ra v.

Lemma outcome_err op mode data k w l w' r ra e : pruns (k ra (Err e)) w l w' r → outcome op mode data k l w' r.
Proof. intros Hr. exists [], l, w, ra, (Err e). split_and!; [done|done|constructor|done]. Qed.
Lemma outcome_step op mode data k l w' r s : quietly s → outcome op mode data k l w' r → outcome op mode data k (s :: l) w' r.
Proof.
  intros Hs (l1 & l2 & w1 & ra & res & -> & Hr & Hq & Hv). exists (s :: l1), l2, w1, ra, res. split_and!; [done|done|by constructor|].
  intros v E. destruct (Hv v E) as (l0 & b & a & -> & Hsv). by exists (s :: l0), b, a.
Qed.
Lemma outcome_steps op mode data k l0 l w' r : Forall quietly l0 → outcome op mode data k l w' r → outcome op mode data k (l0 ++ l) w' r.
Proof. induction 1; [done|]. intros Ho. apply outcome_step; auto. Qed.

Lemma oruns_read_tx op mode types filter options requested grant ra data k w l w' r :
  read_query mode op data = Ok (filter, options) → admit_fields types d mode filter options = Ok requested →
  (∀ f, f ∈ ra_fields ra → f ∈ pub_fields d) →
  (∀ x, rtc xstep (px (pst w)) x → (∀ g, grant = Some g → lock_cross_app_read_in_tx (view x) g = Ok tt) → under_grant ra x) →
  pruns (read_tx debug_error parse_public role_name rls ex p action correlation mode types filter options grant ra k) w l w' r →
  outcome op mode data k l w' r.
Proof.
  intros Hq Hf Hsub Hg (before & fate & w2 & q & l' & He & Hs & Hr & ->)%oruns_do_inv. cbv zeta in Hs.
  assert (∀ e, (before, k ra (Err e)) = (w2, q) → outcome op mode data k ((before, w2) :: l') w' r) as Hfail.
  { intros e [= <- <-]. apply outcome_step; [done|]. by eapply outcome_err. }
  destruct (if up fate then _ else _) as [[s role]|e] eqn:Hb; [|by eapply Hfail]. destruct (up fate); [|done].
  destruct (published _ _ _ _ _ _ _ _ _ _ _ _ _) as [v|e] eqn:Hp; [|by eapply Hfail]. destruct (audit_up fate); [|by eapply Hfail].
  set (after := add_read _ _) in Hs.
  assert (quietly (before, after)) as Hh by done.
  destruct (commit_of fate); [|by eapply Hfail|].
  - injection Hs as <- <-. exists [(before, after)], l', after, ra, (Ok v). split_and!; [done|done|by constructor|].
    intros v' [= <-]. exists [], before, after. split; [done|]. apply begin_posed in Hb as (_ & _ & Hop). constructor; [..|done].
    + pose proof (op_published _ _ _ _ Hop (approved p) eq_refl) as Hl. by apply map_err_ok_iff in Hl.
    + apply Hg; [by eapply penv_px|]. intros g ->. unfold lock_cross_app_read_in_tx. apply ensure_ok_iff. exact (op_cross _ _ _ _ Hop g eq_refl).
    + done.
    + by eexists _, _, _, _, _, _.
  - injection Hs as <- <-. apply outcome_step; [done|]. by eapply outcome_err.
Qed.

Lemma oruns_with_grant op mode types filter options requested grant data k w l w' r :
  read_query mode op data = Ok (filter, options) → admit_fields types d mode filter options = Ok requested →
  (∀ ra x, (∀ f, f ∈ ra_fields ra → from_option (λ g, f ∈ ar_fields g) True grant) →
     ra_grant ra = (λ g, (ar_grant_id g, ar_grant_version g)) <$> grant → rtc xstep (px (pst w)) x →
     (∀ g, grant = Some g → lock_cross_app_read_in_tx (view x) g = Ok tt) → under_grant ra x) →
  pruns (with_grant debug_error parse_public role_name rls ex p action correlation mode types filter options grant k) w l w' r →
  outcome op mode data k l w' r.
Proof.
  intros Hq Hf Hg. unfold with_grant. cbv zeta. case_bool_decide; [intros Hr; by eapply outcome_err|].
  assert (∀ f, f ∈ sort_strings (readable p grant) → f ∈ pub_fields d ∧ from_option (λ g, f ∈ ar_fields g) True grant) as Hsub.
  { intros f Hin. rewrite elem_of_sort_strings in Hin. unfold readable in Hin. destruct grant as [g|]; [|by split]. apply list_elem_of_In, filter_In in Hin as [Hin Hb].
    apply bool_decide_eq_true in Hb. split; [by apply list_elem_of_In|done]. }
  apply oruns_read_tx with requested; [done|done|intros f Hin; by apply Hsub|]. intros x Hx Hl. apply Hg; [|done|done|done]. intros f Hin. by apply Hsub.
Qed.
Lemma lock_version x g : Core x → lock_cross_app_read_in_tx (view x) g = Ok tt →
  ∀ row, grants x !! ar_grant_id g = Some row → g_version (grant row) = ar_grant_version g.
Proof.
  intros HC Hl row Hrow. apply ensure_ok_iff, existsb_exists in Hl as (c & Hin & Hv). apply in_view_grants in Hin as (id & h & Hh & ->).
  bool_hyps. pose proof (c_grant_ids x HC id h Hh). assert (id = ar_grant_id g) as -> by congruence. congruence.
Qed.
Lemma oruns_authorised op mode types filter options requested data k w l w' r :
  action ∈ ["list"; "read"] → Core (px (pst w)) → Live (px (pst w)) →
  read_query mode op data = Ok (filter, options) → admit_fields types d mode filter options = Ok requested →
  pruns (authorised debug_error parse_public role_name rls ex p action correlation mode types filter options requested k) w l w' r →
  outcome op mode data k l w' r.
Proof.
  intros Hact HC HL Hq Hf. unfold authorised. destruct (decide _) as [Hsame|Hdiff].
  { apply oruns_with_grant with requested; [done|done|]. intros ra x _ Hn _ _. unfold under_grant. by rewrite Hn. }
  intros Hr. unfold lift_x in Hr.
  eapply (oruns_lift_op (λ w, px (pst w)) (λ x w, set_pst (set_px x (pst w)) w) up _ _ xstep quietly) in Hr; [|done|exact (penv_px debug_error parse_public)|done|done].
  destruct Hr as (l1 & l2 & w1 & a & -> & Hq1 & Hr & Ha). apply outcome_steps; [done|]. destruct a as [g|e]; [|by eapply outcome_err].
  destruct Ha as [?|Ha]; [done|]. unfold authorize_cross_app_read in Ha. rewrite bool_decide_true in Ha by done.
  destruct (_ && _) eqn:Hi; [|by eapply outcome_err]. clear Hi. revert Hr. apply oruns_with_grant with requested; [done|done|].
  intros ra x Hin Hn Hx Hl. unfold under_grant. rewrite Hn. cbn. split; [done|].
  destruct (operation_granted _ _ _ _ _ _ _ _ _ _ _ HC HL Ha Hx (Hl g eq_refl)) as (row & Hrow & Hst & Hun & _ & Hc & Hp & He & Hac & _ & _ & Hfs & Hreq & _ & _ & y & Hy1 & Hy2 & _).
  exists row. split_and!; try done.
  - eapply lock_version; [|by apply Hl|done]. assert (rtc xstep (px (pst w)) x) as Hwx by (etrans; [exact Hy1|]; by etrans). by apply (xsteps_inv _ _ _ Hwx).
  - intros f Hf'. rewrite <-Hfs. exact (Hin f Hf').
  - intros f Hf'. rewrite <-Hfs. apply Hreq. apply elem_of_app. right. apply elem_of_query_fields. by left.
Qed.
Lemma oruns_read op mode data k w l w' r :
  action ∈ ["list"; "read"] → Core (px (pst w)) → Live (px (pst w)) →
  pruns (read debug_error parse_public role_name rls ex p action correlation op mode data k) w l w' r → outcome op mode data k l w' r.
Proof.
  intros Hact HC HL. unfold read. destruct (read_query mode op data) as [[filter options]|e] eqn:Hq; [|intros Hr; by eapply outcome_err].
  intros (w1 & fate & w2 & q & l' & He & Hs & Hr & ->)%oruns_do_inv.
  destruct (if up fate then _ else _) as [types|]; [|injection Hs as <- <-; apply outcome_step; [done|]; by eapply outcome_err].
  destruct (admit_fields _ _ _ _ _) as [requested|e] eqn:Hf; injection Hs as <- <-; (apply outcome_step; [done|]); [|by eapply outcome_err].
  destruct (xsteps_inv _ _ _ (penv_px _ _ _ _ He) HC HL) as [HC1 HL1]. by eapply oruns_authorised in Hr.
Qed.
End OneRead.

Context (provider op entity : string) (data : JsonValue) (correlation : uuid).
Definition started_at (p : Approved) (action : string) (w : PWorld) : PWorld * PWorld :=
  (w, add_read (entry ex p action correlation (initial p) "started" None) w).
(** What a call of [execute] did when it hands on its outcome. *)
Definition concluded (l : list (PWorld * PWorld)) (res : result string JsonValue) : Prop :=
  match res with
  | Ok v => ∃ action mode p ra l0 w0 mid before after tail,
      mode_of (bool_decide (provider = ex_consumer_app ex)) op = Some (action, mode) ∧ select_publication ex provider entity action = Ok p
      ∧ l = l0 ++ started_at p action w0 :: mid ++ (before, after) :: tail ∧ served p action correlation op mode data before after ra v
  | Err e => Forall (λ s, reads s.2 = reads s.1) l ∨ e = AUDIT_UNAVAILABLE
      ∨ ∃ action mode p ra w0 w1, mode_of (bool_decide (provider = ex_consumer_app ex)) op = Some (action, mode)
          ∧ select_publication ex provider entity action = Ok p ∧ In (started_at p action w0) l
          ∧ In (w1, add_read (entry ex p action correlation ra "denied" None) w1) l
  end.
Definition finished (k : result string JsonValue → Op) (l : list (PWorld * PWorld)) (w' : PWorld) (r : R) : Prop :=
  ∃ l1 l2 w1 res, l = l1 ++ l2 ∧ pruns (k res) w1 l2 w' r ∧ Forall harmless l1 ∧ net_permits l1 = 0%Z ∧ concluded l1 res.

Lemma mode_action own action mode : mode_of own op = Some (action, mode) → action ∈ ["list"; "read"].
Proof. unfold mode_of. intros Hm. repeat case_match; simplify_eq; set_solver. Qed.
Lemma oruns_release res k w l w' r :
  pruns (release res k) w l w' r → ∃ w1 l', l = (w1, set_permits (S (permits w1)) w1) :: l' ∧ pruns (k res) (set_permits (S (permits w1)) w1) l' w' r.
Proof. intros (w1 & fate & w2 & q & l' & _ & Hs & Hr & ->)%oruns_do_inv. injection Hs as <- <-. by exists w1, l'. Qed.
Lemma oruns_attempt p action ra outcome k w l w' r :
  pruns (record_attempt ex p action correlation ra outcome k) w l w' r →
  ∃ w1 (stored : bool) l', l = (w1, if stored then add_read (entry ex p action correlation ra outcome None) w1 else w1) :: l'
    ∧ rtc penv w w1 ∧ pruns (k stored) (if stored then add_read (entry ex p action correlation ra outcome None) w1 else w1) l' w' r.
Proof.
  intros (w1 & fate & w2 & q & l' & He & Hs & Hr & ->)%oruns_do_inv. destruct (up fate); injection Hs as <- <-.
  - by exists w1, true, l'.
  - by exists w1, false, l'.
Qed.
(** The steps between the two that take and give back the permit. *)
Lemma finished_around k w0 n l w1 l2 w' r res :
  permits w0 = S n → Forall quietly l → concluded ((w0, set_permits n w0) :: l ++ [(w1, set_permits (S (permits w1)) w1)]) res →
  pruns (k res) (set_permits (S (permits w1)) w1) l2 w' r →
  finished k ((w0, set_permits n w0) :: l ++ (w1, set_permits (S (permits w1)) w1) :: l2) w' r.
Proof.
  intros Hn Hl Hc Hr. exists ((w0, set_permits n w0) :: l ++ [(w1, set_permits (S (permits w1)) w1)]), l2, (set_permits (S (permits w1)) w1), res.
  split_and!; [by rewrite <-app_comm_cons, <-app_assoc|done| | |done].
  - constructor; [done|]. apply Forall_app. split; [by apply quietly_harmless|by constructor].
  - change ((w0, set_permits n w0) :: l ++ [(w1, set_permits (S (permits w1)) w1)])
      with ([(w0, set_permits n w0)] ++ l ++ [(w1, set_permits (S (permits w1)) w1)]). rewrite !net_permits_app, (net_permits_quietly l) by done. cbn. lia.
Qed.
Lemma oruns_execute k w l w' r :
  Core (px (pst w)) → Live (px (pst w)) →
  pruns (execute debug_error parse_public role_name rls ex provider op entity data correlation k) w l w' r → finished k l w' r.
Proof.
  intros HC HL (w0 & fate & w2 & q & l' & He & Hs & Hr & ->)%oruns_do_inv.
  destruct (permits w0) as [|n] eqn:Hn; injection Hs as <- <-.
  { exists [(w0, w0)], l', w0, (Err "public read capacity exceeded"). split_and!; [done|done|by constructor|cbn; lia|]. left. by constructor. }
  assert (∀ e, pruns (release (Err e) k) (set_permits n w0) l' w' r → finished k ((w0, set_permits n w0) :: l') w' r) as Hnothing.
  { intros e Hre. apply oruns_release in Hre as (w1 & l2 & -> & Hk). apply (finished_around k w0 n [] w1 l2 w' r (Err e)); [done|constructor| |done].
    left. by repeat constructor. }
  destruct (mode_of _ _) as [[action mode]|] eqn:Hm; [|by eapply Hnothing].
  destruct (select_publication _ _ _ _) as [p|e] eqn:Hsel; [|by eapply Hnothing]. clear Hnothing.
  apply oruns_attempt in Hr as (ws & stored & l2 & -> & He2 & Hr). destruct stored.
  2:{ apply oruns_release in Hr as (w1 & l3 & -> & Hk). apply (finished_around k w0 n [(ws, ws)] w1 l3 w' r (Err AUDIT_UNAVAILABLE)); [done|by repeat constructor| |done].
      left. by repeat constructor. }
  assert (rtc xstep (px (pst w)) (px (pst ws))) as Hx.
  { etrans; [by eapply penv_px|]. change (px (pst w0)) with (px (pst (set_permits n w0))). by eapply penv_px. }
  destruct (xsteps_inv _ _ _ Hx HC HL) as [HC1 HL1].
  apply oruns_read in Hr as (l3 & l4 & w3 & ra & res & -> & Hr & Hq & Hv); [|by eapply mode_action|done|done].
  destruct res as [v|e].
  - apply oruns_release in Hr as (w4 & l5 & -> & Hk). destruct (Hv v eq_refl) as (l0 & before & after & -> & Hsv).
    rewrite app_comm_cons. apply (finished_around k w0 n (started_at p action ws :: l0 ++ [(before, after)]) w4 l5 w' r (Ok v)); [done|by constructor| |done].
    exists action, mode, p, ra, [(w0, set_permits n w0)], ws, l0, before, after, [(w4, set_permits (S (permits w4)) w4)]. split_and!; [done|done| |done].
    cbn. by rewrite <-app_assoc.
  - apply oruns_attempt in Hr as (w4 & stored & l5 & -> & _ & Hr). apply oruns_release in Hr as (w5 & l6 & -> & Hk).
    rewrite app_comm_cons, (cons_middle _ (_ :: l3)), app_assoc.
    apply (finished_around k w0 n ((started_at p action ws :: l3) ++ [(w4, if stored then _ else w4)]) w5 l6 w' r (if stored then Err e else Err AUDIT_UNAVAILABLE));
      [done| | |done].
    + apply Forall_app. split; [by constructor|]. constructor; [by destruct stored|constructor].
    + destruct stored; [|right; by left]. right. right. exists action, mode, p, ra, ws, w4. split_and!; [done|done|right; by left|].
      right. apply in_or_app. left. apply in_or_app. right. by left.
Qed.
End Served.

Section Answers.
Context `{!Parsers} `{!Postgres} `{!Collation} (debug_error : ApiError → string) (parse_public : string → option PublicManifest).
Context (role_name : uuid → string) (rls : Sys → Settings → string → Policies).
Local Notation penv := (penv debug_error parse_public).
Local Notation pstep := (pstep debug_error parse_public).
Local Notation execute := (execute debug_error parse_public role_name rls).
Local Notation served := (served debug_error parse_public).

(** The records an answer shows and what it shows of them. *)
Definition shows (p : Approved) (mode : PublicationRead) (fields : list string) (tbls : Tables) (v : JsonValue) : Prop :=
  ∃ types pol filter rows sort direction limit offset,
    (∀ f, f ∈ collect_filter_fields filter → f ∈ pub_fields (frozen p) ∨ (f = "id" ∧ mode = PubOne))
    ∧ NoDup rows.*1
    ∧ (∀ id row, (id, row) ∈ rows ↔ rows_of tbls (ap_provider_app (approved p), pub_entity (frozen p)) !! id = Some row
         ∧ sees pol (ap_provider_app (approved p), pub_entity (frozen p)) id row = true
         ∧ wanted types (Some (pub_where (frozen p))) row = Some true ∧ wanted types (Some filter) row = Some true)
    ∧ sort ∈ fields ∧ published_answer types fields sort direction limit offset mode rows v
    ∧ (Z.of_nat (String.length (show_json v)) ≤ MAX_RESPONSE)%Z.
Lemma admit_fields_ok types d mode filter options requested f :
  admit_fields types d mode filter options = Ok requested → f ∈ collect_filter_fields filter → f ∈ pub_fields d ∨ (f = "id" ∧ mode = PubOne).
Proof.
  unfold admit_fields. intros Ha Hf. apply bind_ok_iff in Ha as (order_by & _ & Ha). apply bind_ok_iff in Ha as ([] & Hall & _).
  apply try_for_each_ok_iff in Hall. rewrite Forall_forall in Hall. specialize (Hall f). cbv beta in Hall.
  rewrite ensure_ok_iff, andb_true_iff, orb_true_iff, andb_true_iff, !bool_decide_eq_true in Hall.
  destruct Hall as [_ [?|[Hi ?]]]; [apply elem_of_query_fields; by left|by left|right]. split; [done|].
  unfold id_lookup in Hi. apply andb_true_iff in Hi as [Hi _]. by apply bool_decide_eq_true in Hi.
Qed.
Lemma answered_shows p op mode data fields before v : answered debug_error p op mode data fields before v → shows p mode fields (pdata before) v.
Proof.
  intros (filter & options & types & requested & fate & pol & _ & Hf & Hp).
  apply published_exact in Hp as (rows & sort & direction & limit & offset & Hnd & Hrows & Hsort & _ & _ & Ha & Hmax).
  exists types, pol, filter, rows, sort, direction, limit, offset. split_and!; try done. intros f Hin. by eapply admit_fields_ok.
Qed.
Lemma select_ok ex provider entity action p :
  select_publication ex provider entity action = Ok p →
  p ∈ ex_publications ex ∧ serves provider entity action p = true ∧ (∀ q, q ∈ ex_publications ex → serves provider entity action q = true → q = p)
  ∧ ap_consumer_app (approved p) = ex_consumer_app ex ∧ ap_consumer_installation (approved p) = ex_installation ex.
Proof.
  unfold select_publication. destruct (List.filter _ _) as [|q rest] eqn:Hf; [done|]. destruct (_ || _) eqn:Hb; [done|]. intros [= ->].
  apply orb_false_iff in Hb as [Hb Hi]. apply orb_false_iff in Hb as [Hr Hc]. apply negb_false_iff, bool_decide_eq_true in Hr, Hc, Hi. subst rest.
  assert (∀ q, In q (List.filter (serves provider entity action) (ex_publications ex)) ↔ q = p) as Hq by (intros q; rewrite Hf; cbn; naive_solver).
  setoid_rewrite filter_In in Hq. destruct (proj2 (Hq p) eq_refl) as [Hin Hs]. split_and!; try done; [by apply list_elem_of_In|].
  intros q Hq1 Hq2. apply Hq. split; [by apply list_elem_of_In|done].
Qed.

(** The answer to a public read is made of records of the provider's collection
    that satisfy the approved predicate and the caller's filter, with no field outside
    the approved ones and, in another app, none outside a grant in force; the caller's
    filter names only published fields or is by identifier.  It is read under the one
    publication of the execution that serves the request, which is still approved as
    it was at that moment, and only after the attempt was audited and together with
    the audit of its success. *)
Theorem public_answer_is_published ex provider op entity data correlation w l w' v :
  Core (px (pst w)) → Live (px (pst w)) → oruns penv (execute ex provider op entity data correlation Done) w l w' (Ok v) →
  ∃ p action mode ra l0 w0 mid before after tail,
    mode_of (bool_decide (provider = ex_consumer_app ex)) op = Some (action, mode)
    ∧ p ∈ ex_publications ex ∧ serves provider entity action p = true ∧ (∀ q, q ∈ ex_publications ex → serves provider entity action q = true → q = p)
    ∧ l = l0 ++ started_at ex correlation p action w0 :: mid ++ (before, after) :: tail
    ∧ lock_in_tx debug_error parse_public (pst before) p = Ok tt ∧ under_grant p action ra (px (pst before))
    ∧ (∀ f, f ∈ ra_fields ra → f ∈ pub_fields (frozen p)) ∧ shows p mode (ra_fields ra) (pdata before) v
    ∧ reads after = reads before ++ [entry ex p action correlation ra "success" (Some (count_rows mode v))].
Proof.
  intros HC HL Hr. apply oruns_execute in Hr as (l1 & l2 & w1 & res & -> & Hr & _ & _ & Hc); [|done|done].
  apply oruns_done_inv in Hr as (<- & -> & _). destruct Hc as (action & mode & p & ra & l0 & w0 & mid & before & after & tail & Hm & Hsel & -> & Hsv).
  destruct (select_ok _ _ _ _ _ Hsel) as (Hin & Hs & Huniq & _). destruct Hsv as [Hlock Hg Hsub Hans ->].
  exists p, action, mode, ra, l0, w0, mid, before, (add_read (entry ex p action correlation ra "success" (Some (count_rows mode v))) before), tail.
  split_and!; try done; [by rewrite app_nil_r|by eapply answered_shows].
Qed.

(** However a public read ends, it changes no record and no approval and gives
    back the permit it took; and one that is refused after it was admitted leaves the
    audit of its start and of its refusal, unless the audit itself could not be
    stored. *)
Theorem public_read_only_audits ex provider op entity data correlation w l w' r :
  Core (px (pst w)) → Live (px (pst w)) → oruns penv (execute ex provider op entity data correlation Done) w l w' r →
  Forall harmless l ∧ net_permits l = 0%Z ∧ concluded debug_error parse_public ex provider op entity data correlation l r.
Proof.
  intros HC HL Hr. apply oruns_execute in Hr as (l1 & l2 & w1 & res & -> & Hr & Hh & Hn & Hc); [|done|done].
  apply oruns_done_inv in Hr as (-> & -> & _). by rewrite app_nil_r.
Qed.

Lemma NoDup_app_l {A : Type} (l k : list A) : NoDup (l ++ k) → NoDup l ∧ NoDup k ∧ ∀ x, x ∈ l → x ∉ k.
Proof. rewrite NoDup_app. naive_solver. Qed.
Lemma elem_of_scope app ds e : e ∈ scope_entries app ds ↔ ∃ d, d ∈ ds ∧ e.1 = (provider_of app d, pub_entity d) ∧ e.2 ∈ pub_actions d.
Proof.
  unfold scope_entries. rewrite list_elem_of_join. setoid_rewrite list_elem_of_fmap. destruct e as [[pr en] ac]. cbn. split.
  - intros (l & Hin & d & -> & Hd). apply list_elem_of_fmap in Hin as (a & [= -> -> ->] & Ha). by exists d.
  - intros (d & Hd & [= -> ->] & Ha). eexists. split; [|by exists d]. apply list_elem_of_fmap. by exists ac.
Qed.
Lemma scope_filter app provider entity action ps :
  NoDup (scope_entries app (map frozen ps)) → Forall (λ p, ap_provider_app (approved p) = provider_of app (frozen p)) ps →
  length (List.filter (serves provider entity action) ps) ≤ 1.
Proof.
  induction ps as [|p ps IH]; cbn; [lia|]. intros (_ & Hnd & Hdisj)%NoDup_app_l [Hp Hps]%Forall_cons. specialize (IH Hnd Hps).
  destruct (serves provider entity action p) eqn:Hs; [|done]. cbn. destruct (List.filter _ ps) as [|q rest] eqn:Hf; cbn; [lia|exfalso].
  assert (In q (List.filter (serves provider entity action) ps)) as Hq by (rewrite Hf; by left). apply filter_In in Hq as [Hin Hq].
  unfold serves in Hs, Hq. bool_hyps. apply (Hdisj (provider, entity, action)).
  - apply list_elem_of_fmap. exists action. split; [congruence|done].
  - apply elem_of_scope. exists (frozen q). split; [by apply list_elem_of_fmap; exists q; rewrite list_elem_of_In|]. cbn. split; [|done].
    apply list_elem_of_In in Hin. rewrite Forall_forall in Hps. rewrite <-(Hps q Hin). congruence.
Qed.
(** An execution that was resolved is never ambiguous: for any request at most one
    of its publications serves it, and that one is of the execution's own app and
    installation. *)
Theorem resolved_execution_is_unambiguous app names user s s' ex provider entity action :
  PInv s → runs pstep (resolve debug_error parse_public app names user) s s' (Ok ex) →
  select_publication ex provider entity action = Err NOT_PUBLISHED
  ∨ ∃ p, select_publication ex provider entity action = Ok p ∧ pub_name (frozen p) ∈ names.
Proof.
  intros HI Hr. apply resolved_profile in Hr as (z & _ & Happ & _ & Hnames & _ & Hall & Hnd); [|done]. rewrite Forall_forall in Hall.
  assert (length (List.filter (serves provider entity action) (ex_publications ex)) ≤ 1) as Hlen.
  { eapply scope_filter; [exact Hnd|]. apply Forall_forall. intros p Hp. by destruct (Hall p Hp) as (_ & _ & _ & ? & _). }
  unfold select_publication. destruct (List.filter _ _) as [|p rest] eqn:Hf; [by left|right]. destruct rest; [|cbn in Hlen; lia].
  assert (In p (List.filter (serves provider entity action) (ex_publications ex))) as Hp by (rewrite Hf; by left).
  apply filter_In in Hp as [Hp _]. apply list_elem_of_In in Hp. destruct (Hall p Hp) as (_ & -> & -> & _). exists p.
  rewrite !bool_decide_true by done. split; [done|]. rewrite <-elem_of_sort_strings, <-Hnames. apply list_elem_of_fmap. by exists p.
Qed.

Context (parse_json : string → option JsonValue).
Local Notation direct := (direct debug_error parse_public).
Lemma resolve_steps app names user s s' ex : runs pstep (resolve debug_error parse_public app names user) s s' (Ok ex) → rtc pstep s s'.
Proof.
  unfold resolve. intros (ds & y & Hq & Hr)%runs_bind. apply runs_query in Hq as (x & Hx & _ & Hxy). apply runs_atomic in Hr as (z & Hyz & _ & Hz).
  etrans; [exact Hx|]. etrans; [exact Hxy|]. etrans; [exact Hyz|]. eapply rtc_l; [|exact Hz]. exact (ps_tx debug_error parse_public (PResolve app names ds user) z).
Qed.
Lemma direct_ok app entity action user s s' ex provider target :
  PInv s → runs pstep (direct app entity action user) s s' (Ok (ex, provider, target)) →
  rtc pstep s s' ∧ ∃ y name p, rtc pstep s y ∧ public_declaration parse_public app entity action y = Ok name
    ∧ ex_publications ex = [p] ∧ pub_name (frozen p) = name ∧ ap_consumer_app (approved p) = app.
Proof.
  intros HI. unfold PublicReads.direct. intros (name & y & Hq & Hr)%runs_bind. apply runs_bind in Hr as (ex' & z & Hr & Hp).
  apply runs_query in Hq as (x & Hsx & Hd & Hxy). apply runs_pure in Hp as [Hp Hz]. pose proof (resolve_steps _ _ _ _ _ _ Hr) as Hyz.
  assert (rtc pstep s y) as Hsy by (by etrans). split; [by do 2 (etrans; [eassumption|])|].
  apply resolved_profile in Hr as (z0 & _ & _ & _ & Hn & _ & Hall & _); [|by eapply psteps_inv].
  destruct (ex_publications ex') as [|p rest] eqn:Hps; [done|]. apply ok_inj in Hp. injection Hp as <- _ _.
  exists x, name, p. rewrite Hps. cbn in Hn. destruct rest; [|done]. injection Hn as Hn. apply Forall_cons in Hall as [(_ & Ha & _) _]. split_and!; done.
Qed.

(** A request to read a collection of an app, as a list or by identifier, and what it
    does with the outcome. *)
Definition route_of (app entity : string) (user correlation : uuid) (action : string) (route : Procs.Op PWorld Fate (result ApiError JsonValue)) : Prop :=
  (∃ params, action = "list" ∧ route = list_public debug_error parse_public role_name rls parse_json app entity params user correlation)
  ∨ (∃ id, action = "read" ∧ route = get_public debug_error parse_public role_name rls app entity id user correlation).
Lemma route_runs app entity user correlation action route w l w' v :
  route_of app entity user correlation action route → oruns penv route w l w' (Ok v) →
  ∃ l1 l2 w1 ex provider target op mode data (k : result string JsonValue → result ApiError JsonValue), l = l1 ++ l2 ∧ runs pstep (direct app entity action user) (pst w) (pst w1) (Ok (ex, provider, target))
    ∧ oruns penv (execute ex provider op target data correlation (λ r, Done (k r))) w1 l2 w' (Ok v)
    ∧ (∀ own, mode_of own op = Some (action, mode)) ∧ ∀ r, k r = Ok v → r = Ok v.
Proof.
  intros Hroute Hr.
  assert (∃ kr, route = lift_p (direct app entity action user) kr ∧ ∀ res w1 l2, oruns penv (kr res) w1 l2 w' (Ok v) →
            ∃ ex provider target op mode data (k : result string JsonValue → result ApiError JsonValue), res = Ok (ex, provider, target)
              ∧ oruns penv (execute ex provider op target data correlation (λ r, Done (k r))) w1 l2 w' (Ok v)
              ∧ (∀ own, mode_of own op = Some (action, mode)) ∧ ∀ r, k r = Ok v → r = Ok v) as (kr & -> & Hk).
  { destruct Hroute as [[params [-> ->]]|[id [-> ->]]]; eexists; (split; [reflexivity|]); intros [[[ex provider] target]|e] w1 l2 Hk;
      try (by apply oruns_done_inv in Hk as [? _]).
    - destruct (public_query parse_json params) as [q|e]; [|by apply oruns_done_inv in Hk as [? _]].
      exists ex, provider, target, "findPage", PubPage, (JObject q), (map_err Forbidden). split_and!; [done|done|done|]. by intros r ?%map_err_ok_iff.
    - exists ex, provider, target, "read", PubOne, (JObject [("id", JString id)]),
        (λ r, let? v := map_err Forbidden r in if is_null v then Err (NotFound "record not found") else Ok v). split_and!; [done|done|done|].
      intros r Hv. apply bind_ok_iff in Hv as (v' & Hv' & Hv). apply map_err_ok_iff in Hv'. destruct (is_null v'); [done|]. congruence. }
  unfold lift_p in Hr. eapply (oruns_lift_op pst set_pst up _ _ pstep (λ _, True)) in Hr; [|done|exact (penv_pst debug_error parse_public)|done|done].
  destruct Hr as (l1 & l2 & w1 & a & -> & _ & Hr & Ha). destruct (Hk _ _ _ Hr) as (ex & provider & target & op & mode & data & k & -> & Hx & Hm & Hv).
  destruct Ha as [?|Ha]; [done|]. by exists l1, l2, w1, ex, provider, target, op, mode, data, k.
Qed.

(** [C26] What anyone is answered at the public address of a collection is published:
    the app's manifest declared that collection public under a publication, and the
    answer is read under that publication of the app, approved and current when it was
    read, showing of the records within its predicate only its fields. *)
Theorem anonymous_answer_is_declared_and_approved app entity user correlation action route w l w' v :
  PInv (pst w) → Core (px (pst w)) → Live (px (pst w)) → route_of app entity user correlation action route → oruns penv route w l w' (Ok v) →
  ∃ y name p mode ra before after, rtc pstep (pst w) y ∧ public_declaration parse_public app entity action y = Ok name
    ∧ pub_name (frozen p) = name ∧ ap_consumer_app (approved p) = app ∧ action ∈ pub_actions (frozen p)
    ∧ In (before, after) l ∧ lock_in_tx debug_error parse_public (pst before) p = Ok tt ∧ under_grant p action ra (px (pst before))
    ∧ (∀ f, f ∈ ra_fields ra → f ∈ pub_fields (frozen p)) ∧ shows p mode (ra_fields ra) (pdata before) v.
Proof.
  intros HI HC HL Hroute Hr. destruct (route_runs _ _ _ _ _ _ _ _ _ _ Hroute Hr) as (l1 & l2 & w1 & ex & provider & target & op & mode & data & k & -> & Hd & Hx & Hm & Hk).
  apply direct_ok in Hd as (Hsteps & y & name & p & Hy & Hdecl & Hps & Hn & Ha); [|done].
  assert (rtc (xstep (parse_contract parse_public)) (px (pst w)) (px (pst w1))) as Hxs.
  { clear -Hsteps. induction Hsteps as [|s s1 s2 Hs _ IH]; [done|]. etrans; [by eapply pstep_px|exact IH]. }
  destruct (xsteps_inv _ _ _ Hxs HC HL) as [HC1 HL1].
  apply oruns_execute in Hx as (l3 & l4 & w2 & res & -> & Hdone & _ & _ & Hc); [|done|done]. apply oruns_done_inv in Hdone as (Hres & -> & _).
  rewrite (Hk res (eq_sym Hres)) in Hc. destruct Hc as (action' & mode' & p' & ra & l0 & w0 & mid & before & after & tail & Hm' & Hsel & -> & Hsv).
  rewrite Hm in Hm'. injection Hm' as <- <-. destruct (select_ok _ _ _ _ _ Hsel) as (Hin & Hs & _). rewrite Hps in Hin. apply list_elem_of_singleton in Hin as ->.
  destruct Hsv as [Hlock Hg Hsub Hans _]. unfold serves in Hs. bool_hyps. exists y, name, p, mode, ra, before, after. split_and!; try done.
  - apply in_or_app. right. rewrite app_nil_r. apply in_or_app. right. right. apply in_or_app. right. by left.
  - by eapply answered_shows.
Qed.
End Answers.

Module PublicReadExamples.
Import RecordExamples CrossAppExamples PublicationExamples CrossOps.CrossOpExamples.
#[local] Existing Instance toy_parsers.
#[local] Existing Instance toy_postgres.
#[local] Existing Instance CollectionExamples.toy_collation.
Definition parse_object (_ : string) : option JsonValue := Some (JObject []).
Definition pw0 : PWorld := {| pst := p_approved; pdata := toy_tables; reads := []; permits := PUBLIC_READS |}.
Notation envs := (penv debug read_manifest).
Lemma installed_inv : Core x_installed ∧ Live x_installed.
Proof. exact (xsteps_inv parse _ _ steps_installed (proj1 (start_inv y0)) (proj2 (start_inv y0))). Qed.
Notation resolving := (resolve debug read_manifest "crm" ["people"] "anyone").
Definition executing (ex : Execution) (id : string) : Procs.Op PWorld Fate (result string JsonValue) :=
  execute debug read_manifest role_of everything ex "crm" "read" "person" (JObject [("id", JString id)]) "c1" Done.
Definition resolved : Execution :=
  {| ex_consumer_app := "crm"; ex_installation := "i1"; ex_principal := "anyone"; ex_publications := [capability] |}.

Lemma resolved_execution_is_unambiguous_witness :
  ∃ s ex p, exec 9 resolving p_approved = Some (s, Ok ex) ∧ select_publication ex "crm" "person" "list" = Ok p ∧ pub_name (frozen p) ∈ ["people"].
Proof.
  destruct (exec 9 resolving p_approved) as [[s [ex|e]]|] eqn:E.
  - destruct (resolved_execution_is_unambiguous debug read_manifest "crm" ["people"] "anyone" p_approved s ex "crm" "person" "list" approved_inv
                (exec_runs steps 9 resolving p_approved s (Ok ex) E)) as [Hn|(p & Hp & Hin)]; [|exists s, ex, p; split; [reflexivity|split; [exact Hp|exact Hin]]].
    exfalso. apply (f_equal (λ o, match o with Some (_, Ok ex) => is_ok (select_publication ex "crm" "person" "list") | _ => false end)) in E.
    cbv beta iota in E. rewrite Hn in E. vm_compute in E. discriminate E.
  - exfalso. apply (f_equal (λ o, match o with Some (_, Ok _) => true | _ => false end)) in E. vm_compute in E. discriminate E.
  - exfalso. apply (f_equal (λ o, match o with Some (_, Ok _) => true | _ => false end)) in E. vm_compute in E. discriminate E.
Defined.
Definition answer_of (o : option (list (PWorld * PWorld) * PWorld * result string JsonValue)) : option JsonValue :=
  match o with Some (_, _, Ok v) => Some v | _ => None end.
Lemma public_answer_is_published_witness :
  ∃ l w' p mode ra before, alone 9 fine (executing resolved "u1") pw0 = Some (l, w', Ok (JObject [("name", JString "ada")]))
    ∧ p = capability ∧ lock_in_tx debug read_manifest (pst before) p = Ok tt ∧ shows p mode (ra_fields ra) (pdata before) (JObject [("name", JString "ada")]).
Proof.
  destruct (alone 9 fine (executing resolved "u1") pw0) as [[[l w'] [v|e]]|] eqn:Hr.
  - assert (v = JObject [("name", JString "ada")]) as -> by (apply (f_equal answer_of) in Hr; vm_compute in Hr; congruence).
    destruct (public_answer_is_published debug read_manifest role_of everything resolved "crm" "read" "person" (JObject [("id", JString "u1")]) "c1" pw0 l w'
                (JObject [("name", JString "ada")]) (proj1 installed_inv) (proj2 installed_inv) (alone_runs envs 9 fine (executing resolved "u1") pw0 l w' _ Hr))
      as (p & action & mode & ra & l0 & w0 & mid & before & after & tail & _ & Hin & _ & _ & _ & Hl & _ & _ & Hs & _).
    exists l, w', p, mode, ra, before. split; [reflexivity|]. split; [|split; [exact Hl|exact Hs]].
    apply list_elem_of_singleton in Hin. exact Hin.
  - exfalso. apply (f_equal answer_of) in Hr. vm_compute in Hr. discriminate Hr.
  - exfalso. apply (f_equal answer_of) in Hr. vm_compute in Hr. discriminate Hr.
Defined.
Definition busy : PWorld := set_permits 1 pw0.
Definition refused_query : Procs.Op PWorld Fate (result string JsonValue) :=
  execute debug read_manifest role_of everything resolved "crm" "list" "person" (JObject [("age", JNull)]) "c2" Done.
Lemma public_read_only_audits_witness : ∃ l w' e, alone 9 fine refused_query busy = Some (l, w', Err e) ∧ Forall harmless l ∧ net_permits l = 0%Z.
Proof.
  destruct (alone 9 fine refused_query busy) as [[[l w'] [v|e]]|] eqn:Hr.
  - exfalso. apply (f_equal answer_of) in Hr. vm_compute in Hr. discriminate Hr.
  - destruct (public_read_only_audits debug read_manifest role_of everything resolved "crm" "list" "person" (JObject [("age", JNull)]) "c2" busy l w' (Err e)
                (proj1 installed_inv) (proj2 installed_inv) (alone_runs envs 9 fine refused_query busy l w' (Err e) Hr)) as (Hh & Hn & _).
    exists l, w', e. split; [reflexivity|]. split; [exact Hh|exact Hn].
  - exfalso. apply (f_equal (λ o, match o with Some _ => true | None => false end)) in Hr. vm_compute in Hr. discriminate Hr.
Defined.
Notation reading := (get_public debug read_manifest role_of everything "crm" "person" "u1" "anyone" "c1").
Lemma anonymous_answer_is_declared_and_approved_witness :
  ∃ l w' v p, alone 12 fine reading pw0 = Some (l, w', Ok v) ∧ pub_name (frozen p) = "people" ∧ "read" ∈ pub_actions (frozen p).
Proof.
  destruct (alone 12 fine reading pw0) as [[[l w'] [v|e]]|] eqn:Hr.
  - assert (route_of debug read_manifest role_of everything parse_object "crm" "person" "anyone" "c1" "read" reading) as Hroute
      by (right; exists "u1"; split; reflexivity).
    destruct (anonymous_answer_is_declared_and_approved debug read_manifest role_of everything parse_object "crm" "person" "anyone" "c1" "read" reading
                pw0 l w' v approved_inv (proj1 installed_inv) (proj2 installed_inv) Hroute (alone_runs envs 12 fine reading pw0 l w' (Ok v) Hr))
      as (y & name & p & mode & ra & before & after & _ & Hd & Hn & _ & Hact & _). exists l, w', v, p. split; [reflexivity|]. split; [|exact Hact].
    rewrite Hn. unfold public_declaration in Hd. apply bind_ok_iff in Hd as (m & Hm & Hd).
    destruct (apps (base (px y)) !! "crm") as [a|]; [|discriminate Hm]. injection Hm as <-. vm_compute in Hd. congruence.
  - exfalso. apply (f_equal (λ o, match o with Some (_, _, Ok _) => true | _ => false end)) in Hr. vm_compute in Hr. discriminate Hr.
  - exfalso. apply (f_equal (λ o, match o with Some (_, _, Ok _) => true | _ => false end)) in Hr. vm_compute in Hr. discriminate Hr.
Defined.
End PublicReadExamples.
