(* ===== verification/Sharing.v ===== *)
(** * Shares and calls (core/src/extensions/sharing, core/src/routes/workers.rs)

    Share tokens: how they are made, found, listed and revoked; who a request comes
    from; and what [rpc_proxy] lets that caller run, with which authority.  Handlers
    are programs among everything else.  The hash of a token and of a context are
    parameters; random tokens and identifiers are arguments. *)

From stdpp Require Import base numbers pretty gmap strings sets relations list.
From S2P Require Import Prelude Procs Str Json Perms Roles Authority Delegation Gates Ownership DataTypes Ident SqlScan Filters Records CrossApp Collections Publications.

(** ** Tokens (core/src/auth/secure_tokens.rs) *)

Definition TOKEN_LEN : nat := 43.
Definition is_well_formed (raw : string) : bool :=
  bool_decide (String.length raw = TOKEN_LEN) && str_forall (λ c, is_ascii_alphanumeric c || bool_decide (c ∈ ["-"; "_"]%char)) raw.
(** The first eight characters; a generated token is ASCII. *)
Definition token_prefix_of (raw : string) : string := String.substring 0 8 raw.

(** ** State *)

(** [rootcx_system.public_shares] *)
Record ShareRow := {
  sh_app : string; token_hash : string; token_prefix : string; context : JsonValue; sh_created_by : uuid; sh_created_at : Z;
  sh_revoked_at : option Z; last_accessed_at : option Z; access_count : Z; sh_expires_at : option Z }.
Record ShState := { pubst : PState; shares : gmap uuid ShareRow }.
Definition set_shares (m : gmap uuid ShareRow) (s : ShState) : ShState := {| pubst := pubst s; shares := m |}.
Definition set_pubst (p : PState) (s : ShState) : ShState := {| pubst := p; shares := shares s |}.
Definition snow (s : ShState) : Z := pnow (pubst s).
Definition spool (s : ShState) : Pool := gpool (sgov (base (px (pubst s)))).
Definition is_active (r : ShareRow) : bool := bool_decide (sh_revoked_at r = None).
Definition usable (s : ShState) (r : ShareRow) : bool := is_active r && unexpired_at (base (px (pubst s))) (sh_expires_at r).

Record ResolvedShare := { share_id : uuid; share_app : string; share_creator : uuid; share_context : JsonValue }.
Record Identity := { id_user : uuid; id_email : string }.
Inductive CallerAuth := User (i : Identity) | ShareToken (s : ResolvedShare) | Anonymous.
Record CreatedShare := { cs_id : uuid; cs_url : string; cs_token : string; cs_prefix : string; cs_context : JsonValue; cs_created_at : Z }.
Record ShareListing := { sl_id : uuid; sl_app : string; sl_context : JsonValue; sl_prefix : string; sl_created_at : Z; sl_accessed : option Z; sl_count : Z }.

Definition touch (now : Z) (r : ShareRow) : ShareRow :=
  {| sh_app := sh_app r; token_hash := token_hash r; token_prefix := token_prefix r; context := context r; sh_created_by := sh_created_by r;
     sh_created_at := sh_created_at r; sh_revoked_at := sh_revoked_at r; last_accessed_at := Some now; access_count := (access_count r + 1)%Z;
     sh_expires_at := sh_expires_at r |}.
Definition revoked (now : Z) (r : ShareRow) : ShareRow :=
  {| sh_app := sh_app r; token_hash := token_hash r; token_prefix := token_prefix r; context := context r; sh_created_by := sh_created_by r;
     sh_created_at := sh_created_at r; sh_revoked_at := Some now; last_accessed_at := last_accessed_at r; access_count := access_count r;
     sh_expires_at := sh_expires_at r |}.
Definition BIGINT_MAX : Z := 2 ^ 63 - 1.

Section Sharing.
(** SHA-256, and [md5(context::text)]. *)
Context (hash : string → string) (md5_text : JsonValue → string).
Notation SProc := (Proc ShState).

(** The share of a token: the lookup, and the count of accesses, which may fail. *)
Definition find_share (raw : string) (s : ShState) : option (uuid * ShareRow) :=
  if is_well_formed raw then List.find (λ e, bool_decide (token_hash e.2 = hash raw) && usable s e.2) (map_to_list (shares s)) else None.
Definition resolved_of (e : uuid * ShareRow) : ResolvedShare :=
  {| share_id := e.1; share_app := sh_app e.2; share_creator := sh_created_by e.2; share_context := context e.2 |}.
Definition bump (id : uuid) (s : ShState) : ShState :=
  match shares s !! id with
  | Some r => if (access_count r <? BIGINT_MAX)%Z then set_shares (<[id := touch (snow s) r]> (shares s)) s else s
  | None => s
  end.
Definition resolve_token (raw : string) : SProc (result ApiError (option ResolvedShare)) :=
  do found <- query (λ s, Ok (find_share raw s));
  match found with
  | None => pure (Ok None)
  | Some e => atomic (λ s, (bump e.1 s, Ok (Some (resolved_of e))))
  end.
(** [resolve_app_id] *)
Definition resolve_app_id (raw : string) (s : ShState) : option string := (λ e, sh_app e.2) <$> find_share raw s.

(** Who a request comes from; [authenticate] is the outcome of checking a JWT. *)
Definition from_request_parts (authorization : option string) (authenticate : result ApiError Identity) : SProc (result ApiError CallerAuth) :=
  match authorization ≫= strip_prefix "Bearer " with
  | None => pure (Ok Anonymous)
  | Some bearer =>
      if str_contains "." bearer then pure (result_map User authenticate)
      else do found <- resolve_token bearer; pure (ok_or (ShareToken <$> found) (Unauthorized "invalid token"))
  end.

Fixpoint trim_end_matches (c : ascii) (s : string) : string :=
  match s with
  | EmptyString => EmptyString
  | String d s => match trim_end_matches c s with
                  | EmptyString => if decide (d = c) then EmptyString else String d EmptyString
                  | t => String d t
                  end
  end.
Definition share_key (app : string) : string := "app:" +:+ app +:+ ":public.share".
Definition require_share_perm (s : ShState) (user : uuid) (app : string) : result ApiError unit :=
  let? '(_, perms) := resolve_permissions (spool s) user in
  ensure (has_permission perms (share_key app)) (Forbidden ("permission denied: " +:+ share_key app)).
Definition build_share_url (runtime_url token : string) : string := trim_end_matches "/"%char runtime_url +:+ "/share/" +:+ token.

Definition same_share (app : string) (user : uuid) (c : JsonValue) (r : ShareRow) : bool :=
  bool_decide (sh_app r = app) && bool_decide (sh_created_by r = user) && bool_decide (md5_text (context r) = md5_text c) && is_active r.
Definition fresh_share (s : ShState) (app raw : string) (c : JsonValue) (user : uuid) : ShareRow :=
  {| sh_app := app; token_hash := hash raw; token_prefix := token_prefix_of raw; context := c; sh_created_by := user; sh_created_at := snow s;
     sh_revoked_at := None; last_accessed_at := None; access_count := 0; sh_expires_at := None |}.
(** The insertion, which the key and the two unique indexes may refuse. *)
Definition insert_share (id : uuid) (app raw : string) (c : JsonValue) (user : uuid) (s : ShState) : ShState * result ApiError Z :=
  let clash := existsb (λ e, same_share app user c e.2 || (bool_decide (token_hash e.2 = hash raw) && is_active e.2)) (map_to_list (shares s)) in
  match shares s !! id with
  | Some _ => (s, Err INTERNAL_DB)
  | None => if clash then (s, Err INTERNAL_DB) else (set_shares (<[id := fresh_share s app raw c user]> (shares s)) s, Ok (snow s))
  end.
Definition create_share (runtime_url : string) (user : uuid) (app : string) (c : JsonValue) (id : uuid) (raw : string) :
    SProc (result ApiError CreatedShare) :=
  do _ <- query (λ s, require_share_perm s user app);
  do existing <- query (λ s, Ok (List.find (λ e, same_share app user c e.2) (map_to_list (shares s))));
  match existing with
  | Some (found, r) =>
      pure (Ok {| cs_id := found; cs_url := build_share_url runtime_url EmptyString; cs_token := EmptyString; cs_prefix := token_prefix r;
                  cs_context := c; cs_created_at := sh_created_at r |})
  | None =>
      do created_at <- atomic (insert_share id app raw c user);
      pure (Ok {| cs_id := id; cs_url := build_share_url runtime_url raw; cs_token := raw; cs_prefix := token_prefix_of raw; cs_context := c;
                  cs_created_at := created_at |})
  end.
(** [ORDER BY created_at DESC] is left to the caller of the model. *)
Definition list_shares (user : uuid) (app : string) : SProc (result ApiError (list ShareListing)) :=
  do _ <- query (λ s, require_share_perm s user app);
  query (λ s, Ok (map (λ e, {| sl_id := e.1; sl_app := sh_app e.2; sl_context := context e.2; sl_prefix := token_prefix e.2; sl_created_at := sh_created_at e.2;
                               sl_accessed := last_accessed_at e.2; sl_count := access_count e.2 |})
                    (List.filter (λ e, bool_decide (sh_app e.2 = app) && bool_decide (sh_created_by e.2 = user) && is_active e.2) (map_to_list (shares s))))).
Definition share_info (auth : CallerAuth) : result ApiError (string * JsonValue) :=
  match auth with ShareToken s => Ok (share_app s, share_context s) | _ => Err (Unauthorized "share token required") end.
Definition revoke_tx (user : uuid) (app : string) (id : uuid) (s : ShState) : ShState * result ApiError unit :=
  match shares s !! id with
  | Some r => if bool_decide (sh_app r = app) && bool_decide (sh_created_by r = user) && is_active r
              then (set_shares (<[id := revoked (snow s) r]> (shares s)) s, Ok tt)
              else (s, Err (NotFound ("share '" +:+ id +:+ "' not found")))
  | None => (s, Err (NotFound ("share '" +:+ id +:+ "' not found")))
  end.
Definition revoke_share (user : uuid) (app : string) (id : uuid) : SProc (result ApiError unit) :=
  do _ <- query (λ s, require_share_perm s user app); atomic (revoke_tx user app id).

(** ** Calls *)

Definition share_app_id (auth : CallerAuth) : option string := match auth with ShareToken s => Some (share_app s) | _ => None end.
Definition scope_matches (share_context params : JsonValue) (key : string) : bool :=
  match get share_context key, get params key with Some e, Some a => bool_decide (e = a) | _, _ => false end.
Definition authorize_public_rpc (decl : PublicRpc) (auth : CallerAuth) (app : string) (params : JsonValue) : result ApiError unit :=
  match rpc_scope decl with
  | [] => match share_app_id auth with
          | Some share_app => ensure (bool_decide (share_app = app)) (Forbidden ("share token belongs to app '" +:+ share_app +:+ "', not '" +:+ app +:+ "'"))
          | None => Ok tt
          end
  | scope =>
      match auth with
      | ShareToken share =>
          try? ensure (bool_decide (share_app share = app)) (Forbidden ("share token belongs to app '" +:+ share_app share +:+ "', not '" +:+ app +:+ "'")) in
          try_for_each (λ key, ensure (scope_matches (share_context share) params key) (Forbidden ("share scope mismatch on key '" +:+ key +:+ "'"))) scope
      | _ => Err (Unauthorized "this endpoint requires a share token")
      end
  end.

(** What the manifest says of its actions: identifier, isolation, requested authority. *)
Record ActionDefinition := { act_id : string; isolated_scope : bool; has_authority : bool }.
Context `{!Parsers} (debug_error : ApiError → string) (parse_public : string → option PublicManifest) (manifest_actions : string → list ActionDefinition).

Definition load_manifest (s : ShState) (app : string) : result ApiError (option PublicManifest) :=
  match apps (base (px (pubst s))) !! app with
  | None => Ok None
  | Some a => result_map Some (ok_or (parse_public (a_manifest a)) (Internal ("malformed manifest for app '" +:+ app +:+ "'")))
  end.
Definition find_public_rpc_full (app method : string) (s : ShState) : result ApiError (option (PublicManifest * PublicRpc)) :=
  let? found := load_manifest s app in
  Ok (m ← found; (λ r, (m, r)) <$> (public m ≫= λ surface, List.find (λ r, bool_decide (rpc_name r = method)) (rpcs surface))).
Definition find_public_rpc (app method : string) (s : ShState) : result ApiError (option PublicRpc) :=
  result_map (fmap snd) (find_public_rpc_full app method s).
Definition declared_action (app method : string) (s : ShState) : option (bool * bool) :=
  a ← apps (base (px (pubst s))) !! app;
  (λ d, (isolated_scope d, has_authority d)) <$> List.find (λ d, bool_decide (act_id d = method)) (manifest_actions (a_manifest a)).

(** What is run: a call of a public execution, of an action in its own scope, or a
    plain call; each with its caller. *)
Inductive Dispatch :=
| RpcPublic (method : string) (params : JsonValue) (ex : Execution)
| RpcAction (action : string) (params : JsonValue) (caller : RpcCaller)
| Rpc (method : string) (params : JsonValue) (caller : RpcCaller).
Definition action_key (app method : string) : string := "app:" +:+ app +:+ ":action:" +:+ method.
Definition denied_call (app method : string) (declaration : option (bool * bool)) : ApiError :=
  Forbidden ("permission denied: " +:+
    match declaration with
    | Some (_, true) => action_key app method
    | Some (_, false) => invoke_key app +:+ " or " +:+ action_key app method
    | None => invoke_key app
    end).
Definition permitted (user : uuid) (key : string) : SProc (result ApiError bool) := query (λ s, has_permission_db (spool s) user key).
Definition user_allowed (user : uuid) (app method : string) (declaration : option (bool * bool)) : SProc (result ApiError bool) :=
  match declaration with
  | Some (_, true) => permitted user (action_key app method)
  | _ =>
      do invoke <- permitted user (invoke_key app);
      if invoke : bool then pure (Ok true)
      else match declaration with Some _ => permitted user (action_key app method) | None => pure (Ok false) end
  end.
Definition user_call (i : Identity) (app method : string) (params : JsonValue) : SProc (result ApiError Dispatch) :=
  do declaration <- query (λ s, Ok (declared_action app method s));
  do allowed <- user_allowed (id_user i) app method declaration;
  do _ <- pure (ensure allowed (denied_call app method declaration));
  let caller := {| rc_user_id := id_user i; rc_email := id_email i; rc_effective_perms := None; rc_connection_id := None |} in
  pure (Ok (match declaration with
            | Some (isolated, authority) => if isolated || authority then RpcAction method params caller else Rpc method params caller
            | None => Rpc method params caller
            end)).
Definition share_call (share : ResolvedShare) (app method : string) (params : JsonValue) : SProc (result ApiError Dispatch) :=
  do found <- query (find_public_rpc_full app method);
  do md <- pure (ok_or found (Forbidden ("rpc '" +:+ method +:+ "' is not public")));
  do _ <- pure (authorize_public_rpc md.2 (ShareToken share) app params);
  do perms <- query (λ s, share_read_perms (spool s) app (share_creator share) (map entity_name (data_contract (contract md.1))));
  pure (Ok (Rpc method params {| rc_user_id := share_creator share; rc_email := EmptyString; rc_effective_perms := Some perms; rc_connection_id := None |})).
Definition anonymous_call (app method : string) (params : JsonValue) : SProc (result ApiError Dispatch) :=
  do found <- query (find_public_rpc app method);
  do decl <- pure (ok_or found (Unauthorized "missing or invalid authorization header"));
  do _ <- pure (authorize_public_rpc decl Anonymous app params);
  pure (Ok (Rpc method params {| rc_user_id := EmptyString; rc_email := EmptyString; rc_effective_perms := None; rc_connection_id := None |})).
Definition public_call (decl : PublicRpc) (auth : CallerAuth) (app method : string) (params : JsonValue) (user : uuid) :
    SProc (result ApiError Dispatch) :=
  do _ <- pure (ensure (bool_decide (rpc_scope decl = [])) (Forbidden "scoped RPCs cannot use public publications"));
  do _ <- pure (authorize_public_rpc decl auth app params);
  do ex <- zoom pubst set_pubst (resolve debug_error parse_public app (rpc_publications decl) user);
  pure (Ok (RpcPublic method params ex)).
Definition rpc_proxy (auth : CallerAuth) (app : string) (body : JsonValue) (user : uuid) : SProc (result ApiError Dispatch) :=
  do method <- pure (ok_or (get body "method" ≫= as_str) (BadRequest "missing 'method'"));
  let params := default (JObject []) (get body "params") in
  do decl <- query (find_public_rpc app method);
  match decl with
  | Some ({| rpc_publications := _ :: _ |} as decl) => public_call decl auth app method params user
  | _ =>
      match auth with
      | User i => user_call i app method params
      | ShareToken share => share_call share app method params
      | Anonymous => anonymous_call app method params
      end
  end.
End Sharing.

(** ** Shares among everything else *)

Section Shares.
Context (hash : string → string) (md5_text : JsonValue → string).
Context `{!Parsers} (debug_error : ApiError → string) (parse_public : string → option PublicManifest).
Local Notation pstep := (pstep debug_error parse_public).
(** The users that are deleted at some time. *)
Context (removed : uuid → bool).

(** The shares of a user go with the user's row ([ON DELETE CASCADE]). *)
Definition creator_gone (user : uuid) (s : ShState) : ShState := set_shares (filter (λ e, sh_created_by e.2 ≠ user) (shares s)) s.
Inductive sstep : ShState → ShState → Prop :=
| ss_insert s id app raw c user : sstep s (insert_share hash md5_text id app raw c user s).1
| ss_revoke s user app id : sstep s (revoke_tx user app id s).1
| ss_bump s id : sstep s (bump id s)
| ss_pub s p : pstep (pubst s) p → sstep s (set_pubst p s)
| ss_gone s user : removed user = true → sstep s (creator_gone user s).
Lemma ssteps_pub s s' : rtc sstep s s' → rtc pstep (pubst s) (pubst s').
Proof.
  induction 1 as [|s s1 s' Hs _ IH]; [done|]. etrans; [|exact IH]. destruct Hs as [s id app raw c user|s user app id|s id|s p Hp|s user Hu].
  - unfold insert_share. destruct (shares s !! id); [done|]. by destruct (existsb _ _).
  - unfold revoke_tx. destruct (shares s !! id); [|done]. by destruct (_ && _).
  - unfold bump. destruct (shares s !! id); [|done]. by destruct (_ <? _)%Z.
  - by apply rtc_once.
  - done.
Qed.

(** What never changes of a share. *)
Definition same_terms (r q : ShareRow) : Prop :=
  sh_app q = sh_app r ∧ token_hash q = token_hash r ∧ context q = context r ∧ sh_created_by q = sh_created_by r ∧ sh_expires_at q = sh_expires_at r.
(** A change of the shares: one row keeps its terms and is at most revoked, a new
    active row clashes with none, or those of a user who is deleted go. *)
Inductive smove : ShState → ShState → Prop :=
| sm_same s s' : shares s' = shares s → smove s s'
| sm_row s s' id r q : shares s !! id = Some r → shares s' = <[id := q]> (shares s) → same_terms r q → (is_active q = true → is_active r = true) → smove s s'
| sm_new s s' id q : shares s !! id = None → shares s' = <[id := q]> (shares s) → is_active q = true →
    (∀ j r, shares s !! j = Some r → same_share md5_text (sh_app q) (sh_created_by q) (context q) r = false
       ∧ (token_hash r = token_hash q → is_active r = false)) → smove s s'
| sm_gone s s' user : removed user = true → shares s' = filter (λ e, sh_created_by e.2 ≠ user) (shares s) → smove s s'.
Lemma existsb_false {A : Type} (f : A → bool) l x : existsb f l = false → In x l → f x = false.
Proof. intros He Hin. destruct (f x) eqn:Hf; [|done]. assert (existsb f l = true) by (apply existsb_exists; eauto). congruence. Qed.
Lemma insert_share_ok id app raw c user s s' t :
  insert_share hash md5_text id app raw c user s = (s', Ok t) →
  shares s !! id = None ∧ shares s' = <[id := fresh_share hash s app raw c user]> (shares s)
  ∧ ∀ j r, shares s !! j = Some r → same_share md5_text app user c r = false ∧ (token_hash r = hash raw → is_active r = false).
Proof.
  unfold insert_share. cbv zeta. destruct (shares s !! id) eqn:Hid; [done|]. destruct (existsb _ _) eqn:He; [done|]. intros [= <- _]. split_and!; [done|done|].
  intros j r Hr. apply elem_of_map_to_list, list_elem_of_In in Hr. pose proof (existsb_false _ _ _ He Hr) as Hb. cbn [snd] in Hb.
  apply orb_false_iff in Hb as [Hs Hh]. split; [done|]. intros E. by rewrite bool_decide_true in Hh.
Qed.
Lemma revoke_tx_ok user app id s s' :
  revoke_tx user app id s = (s', Ok tt) →
  ∃ r, shares s !! id = Some r ∧ sh_app r = app ∧ sh_created_by r = user ∧ is_active r = true ∧ s' = set_shares (<[id := revoked (snow s) r]> (shares s)) s.
Proof.
  unfold revoke_tx. destruct (shares s !! id) as [r|]; [|done]. destruct (_ && _) eqn:Hb; [|done]. intros [= <-]. bool_hyps. by exists r.
Qed.
Lemma sstep_move s s' : sstep s s' → smove s s'.
Proof.
  destruct 1 as [s id app raw c user|s user app id|s id|s p Hp|s user Hu]; [..|by apply sm_same|by eapply sm_gone].
  - destruct (insert_share hash md5_text id app raw c user s) as [s' [t|e]] eqn:Hi.
    + apply insert_share_ok in Hi as (Hn & Hs & Hall). by eapply (sm_new s s' id).
    + apply sm_same. unfold insert_share in Hi. destruct (shares s !! id); [|destruct (existsb _ _)]; by simplify_eq.
  - unfold revoke_tx. destruct (shares s !! id) as [r|] eqn:Hr; [|by apply sm_same]. destruct (_ && _) eqn:Hb; [|by apply sm_same]. bool_hyps.
    by eapply (sm_row s _ id r).
  - unfold bump. destruct (shares s !! id) as [r|] eqn:Hr; [|by apply sm_same]. destruct (_ <? _)%Z; [|by apply sm_same]. by eapply (sm_row s _ id r).
Qed.

Record SInv (s : ShState) : Prop := {
  si_one : ∀ i j r q, shares s !! i = Some r → shares s !! j = Some q → is_active r = true →
    same_share md5_text (sh_app r) (sh_created_by r) (context r) q = true → i = j;
  si_token : ∀ i j r q, shares s !! i = Some r → shares s !! j = Some q → is_active r = true → is_active q = true → token_hash r = token_hash q → i = j }.
Lemma same_share_iff app user c r :
  same_share md5_text app user c r = true ↔ sh_app r = app ∧ sh_created_by r = user ∧ md5_text (context r) = md5_text c ∧ is_active r = true.
Proof. unfold same_share. rewrite !andb_true_iff, !bool_decide_eq_true. naive_solver. Qed.
Lemma smove_inv s s' : smove s s' → SInv s → SInv s'.
Proof.
  intros [s1 s2 E|s1 s2 id r q Hr E (T1 & T2 & T3 & T4 & T5) Ha|s1 s2 id q Hn E Ha Hfresh|s1 s2 user _ E] [H1 H2].
  - constructor; rewrite E; done.
  - assert (∀ j x, shares s2 !! j = Some x → ∃ y, shares s1 !! j = Some y ∧ sh_app x = sh_app y ∧ token_hash x = token_hash y ∧ context x = context y
             ∧ sh_created_by x = sh_created_by y ∧ (is_active x = true → is_active y = true)) as Hback.
    { intros j x Hx. rewrite E in Hx. destruct (decide (j = id)) as [->|Hj].
      - rewrite lookup_insert_eq in Hx. injection Hx as <-. exists r. by split_and!.
      - rewrite lookup_insert_ne in Hx by done. exists x. by split_and!. }
    constructor; intros i j x y Hx Hy Hax; destruct (Hback i x Hx) as (x' & Hx' & Ex1 & Ex2 & Ex3 & Ex4 & Hax'), (Hback j y Hy) as (y' & Hy' & Ey1 & Ey2 & Ey3 & Ey4 & Hay').
    + rewrite same_share_iff. intros (S1 & S2 & S3 & S4). apply (H1 i j x' y'); auto. apply same_share_iff. split_and!; [congruence..|by apply Hay'].
    + intros Hay Et. apply (H2 i j x' y'); auto. congruence.
  - assert (∀ j x, j ≠ id → shares s1 !! j = Some x → same_share md5_text (sh_app q) (sh_created_by q) (context q) x = true → False) as Hno1.
    { intros j x _ Hx Hs. destruct (Hfresh j x Hx) as [Hf _]. congruence. }
    assert (∀ j x, j ≠ id → shares s1 !! j = Some x → is_active x = true → token_hash x = token_hash q → False) as Hno2.
    { intros j x _ Hx Hax Et. destruct (Hfresh j x Hx) as [_ Hf]. rewrite (Hf Et) in Hax. done. }
    constructor; intros i j x y Hx Hy Hax; rewrite E in Hx, Hy; destruct (decide (i = id)) as [->|Hi], (decide (j = id)) as [->|Hj]; try done;
      simplify_map_eq.
    + intros Hs. by destruct (Hno1 j y).
    + intros Hs. destruct (Hno1 i x); [done..|]. rewrite same_share_iff in *. naive_solver.
    + intros Hs. by eapply H1.
    + intros Hay Et. by destruct (Hno2 j y).
    + intros Hay Et. by destruct (Hno2 i x).
    + intros Hay Et. by eapply H2.
  - constructor; rewrite E; intros i j x y [Hx _]%map_lookup_filter_Some [Hy _]%map_lookup_filter_Some; [by eapply H1|by eapply H2].
Qed.
Lemma ssteps_inv s s' : rtc sstep s s' → SInv s → SInv s'.
Proof. induction 1 as [|s s1 s' Hs _ IH]; [done|]. intros HI. apply IH. eapply smove_inv; [by apply sstep_move|done]. Qed.
(** No share of a user who stays is lost, none changes its terms, and none is active again. *)
Lemma ssteps_later s s' id r : rtc sstep s s' → shares s !! id = Some r → removed (sh_created_by r) = false →
  ∃ q, shares s' !! id = Some q ∧ same_terms r q ∧ (is_active q = true → is_active r = true).
Proof.
  intros Hs. revert r. induction Hs as [|s s1 s' Hs _ IH]; intros r Hr Hstay; [by exists r|].
  assert (∃ x, shares s1 !! id = Some x ∧ same_terms r x ∧ (is_active x = true → is_active r = true)) as (x & Hx & Tx & Ax).
  { destruct (sstep_move _ _ Hs) as [s2 s3 E|s2 s3 j y q Hy E T Ha|s2 s3 j q Hn E _ _|s2 s3 user Hu E]; rewrite E.
    - by exists r.
    - destruct (decide (id = j)) as [->|Hj]; [rewrite lookup_insert_eq; exists q; naive_solver|]. rewrite lookup_insert_ne by done. by exists r.
    - rewrite lookup_insert_ne by congruence. by exists r.
    - exists r. split; [|done]. apply map_lookup_filter_Some. split; [done|]. cbn. congruence. }
  destruct (IH x Hx) as (q & Hq & Tq & Aq); [unfold same_terms in Tx; naive_solver congruence|]. exists q. split_and!; [done| |auto]. unfold same_terms in *. naive_solver congruence.
Qed.

Lemma find_share_ok raw s id r : find_share hash raw s = Some (id, r) →
  is_well_formed raw = true ∧ shares s !! id = Some r ∧ token_hash r = hash raw ∧ usable s r = true.
Proof.
  unfold find_share. destruct (is_well_formed raw) eqn:Hw; [|done]. intros [Hin Hb]%find_some. cbn in Hb. bool_hyps.
  split_and!; try done. by apply elem_of_map_to_list, list_elem_of_In.
Qed.
(** A token finds the active share of its hash, the only one there is. *)
Lemma find_share_active raw s id r :
  SInv s → is_well_formed raw = true → shares s !! id = Some r → token_hash r = hash raw → usable s r = true → find_share hash raw s = Some (id, r).
Proof.
  intros HI Hw Hr Hh Hu. destruct (find_share hash raw s) as [[j q]|] eqn:Hf.
  - apply find_share_ok in Hf as (_ & Hq & Hhq & Huq). unfold usable in Hu, Huq. bool_hyps.
    assert (j = id) as -> by (apply (si_token s HI j id q r); try done; congruence). congruence.
  - exfalso. unfold find_share in Hf. rewrite Hw in Hf. apply elem_of_map_to_list, list_elem_of_In in Hr. pose proof (find_none _ _ Hf _ Hr) as Hn. cbn in Hn.
    by rewrite bool_decide_true, Hu in Hn.
Qed.
Lemma require_share_perm_ok s user app : require_share_perm s user app = Ok tt → has_permission (perms_or_none (spool s) user) (share_key app) = true.
Proof.
  unfold require_share_perm, perms_or_none. intros Hp. apply bind_ok_iff in Hp as ([roles perms] & Hr & Hp). rewrite Hr. by apply ensure_ok_iff in Hp.
Qed.

(** A share is revoked only by its creator, while the creator may share data of
    the app, and then for good: whatever happens later, as long as the creator is not
    deleted, no token, its own included, is ever taken for it again. *)
Theorem revocation_is_final user app id s s' :
  runs sstep (revoke_share user app id) s s' (Ok tt) →
  (∃ y z r, rtc sstep s y ∧ rtc sstep y z ∧ has_permission (perms_or_none (spool y) user) (share_key app) = true
     ∧ shares z !! id = Some r ∧ sh_app r = app ∧ sh_created_by r = user ∧ is_active r = true)
  ∧ (removed user = false → ∀ s2 raw r, rtc sstep s' s2 → find_share hash raw s2 ≠ Some (id, r)).
Proof.
  unfold revoke_share. intros (u & y & Hq & Hr)%runs_bind. apply runs_query in Hq as (y0 & Hy0 & Hp & Hy). destruct u.
  apply runs_atomic in Hr as (z & Hz & Htx & Hs'). destruct (revoke_tx user app id z) as [z' res] eqn:Ht. cbn [fst snd] in Htx, Hs'. subst res.
  apply revoke_tx_ok in Ht as (r & Hr & Happ & Hby & Hact & ->). split.
  - exists y0, z, r. split_and!; try done; [by etrans|]. by apply require_share_perm_ok.
  - intros Hstay s2 raw q Hs2 Hf. apply find_share_ok in Hf as (_ & Hq & _ & Hu). assert (rtc sstep (set_shares (<[id := revoked (snow z) r]> (shares z)) z) s2) as Hall by (by etrans).
    destruct (ssteps_later _ _ id (revoked (snow z) r) Hall) as (q' & Hq' & _ & Ha); [apply lookup_insert_eq|cbn; congruence|].
    rewrite Hq in Hq'. injection Hq' as <-. unfold usable in Hu. apply andb_true_iff in Hu as [Hu _]. by specialize (Ha Hu).
Qed.

Lemma create_share_steps url user app c id raw s s' cr :
  runs sstep (create_share hash md5_text url user app c id raw) s s' (Ok cr) → cs_token cr = raw → raw ≠ EmptyString →
  ∃ z z' t, rtc sstep s z ∧ insert_share hash md5_text id app raw c user z = (z', Ok t) ∧ rtc sstep z' s' ∧ cs_id cr = id.
Proof.
  unfold create_share. intros (u & y & Hq & Hr)%runs_bind Htok Hne. apply runs_query in Hq as (y0 & Hy0 & _ & Hy). apply runs_bind in Hr as (e & y1 & Hq & Hr).
  apply runs_query in Hq as (y2 & Hy2 & _ & Hy1). destruct e as [[found r]|].
  { apply runs_pure in Hr as [E _]. apply ok_inj in E. subst cr. cbn in Htok. congruence. }
  apply runs_bind in Hr as (t & y3 & Hi & Hr). apply runs_pure in Hr as [E Hs']. apply ok_inj in E. subst cr. apply runs_atomic in Hi as (z & Hz & Ht & Hz').
  destruct (insert_share _ _ id app raw c user z) as [z' res] eqn:Hins. cbn [fst snd] in Ht, Hz'. subst res. exists z, z', t. split_and!; try done; [|by etrans].
  do 4 (etrans; [eassumption|]). done.
Qed.
Lemma creator_gone_finds user s raw id q : find_share hash raw (creator_gone user s) = Some (id, q) → sh_created_by q ≠ user.
Proof. intros (_ & Hq & _)%find_share_ok. by apply map_lookup_filter_Some in Hq as [_ ?]. Qed.
(** [C28] The token a share is created with is found again, at any later time, with the
    app, the creator and the very context it was created for, as long as the share is
    not revoked and its creator not deleted, and never after a revocation.  The shares of
    a user who is deleted go with the user: no token finds one of them. *)
Theorem share_token_roundtrip url user app c id raw s s' s2 cr :
  SInv s → is_well_formed raw = true → runs sstep (create_share hash md5_text url user app c id raw) s s' (Ok cr) → cs_token cr = raw → rtc sstep s' s2 →
  (removed user = false →
   ∃ r, shares s2 !! id = Some r ∧ resolved_of (id, r) = {| share_id := id; share_app := app; share_creator := user; share_context := c |}
     ∧ (is_active r = true → find_share hash raw s2 = Some (id, r)) ∧ (is_active r = false → ∀ q, find_share hash raw s2 ≠ Some (id, q)))
  ∧ (∀ raw' id' q, find_share hash raw' (creator_gone user s2) = Some (id', q) → sh_created_by q ≠ user).
Proof.
  intros HI Hw Hr Htok H2. split; [intros Hstay|intros raw' id' q; apply creator_gone_finds]. apply create_share_steps in Hr as (z & z' & t & Hz & Hins & Hz' & Hid); [|done|by intros ->].
  pose proof (ss_insert z id app raw c user) as Hst. rewrite Hins in Hst. cbn [fst] in Hst. apply insert_share_ok in Hins as (Hn & Hsh & _).
  assert (rtc sstep z' s2) as Hz2 by (by etrans). assert (SInv s2) as HI2 by (eapply ssteps_inv; [exact Hz2|]; eapply smove_inv; [by apply sstep_move|]; by eapply ssteps_inv).
  destruct (ssteps_later z' s2 id (fresh_share hash z app raw c user) Hz2) as (r & Hr & (T1 & T2 & T3 & T4 & T5) & _); [rewrite Hsh; apply lookup_insert_eq|done|].
  exists r. split_and!; [done| | |].
  - unfold resolved_of. cbn. by rewrite T1, T3, T4.
  - intros Ha. apply find_share_active; try done. unfold usable. rewrite Ha, T5. done.
  - intros Ha q Hf. apply find_share_ok in Hf as (_ & Hq & _ & Hu). rewrite Hr in Hq. injection Hq as <-. unfold usable in Hu. by rewrite Ha in Hu.
Qed.
End Shares.

(** ** What a call may do *)

Section Calls.
Context (hash : string → string) (md5_text : JsonValue → string).
Context `{!Parsers} (debug_error : ApiError → string) (parse_public : string → option PublicManifest) (manifest_actions : string → list ActionDefinition) (removed : uuid → bool).
Local Notation sstep := (sstep hash md5_text debug_error parse_public removed).
Local Notation pstep := (pstep debug_error parse_public).
Local Notation find_public_rpc := (find_public_rpc parse_public).
Local Notation find_public_rpc_full := (find_public_rpc_full parse_public).
Local Notation declared_action := (declared_action manifest_actions).

Definition own_caller (i : Identity) : RpcCaller :=
  {| rc_user_id := id_user i; rc_email := id_email i; rc_effective_perms := None; rc_connection_id := None |}.
Definition nobody : RpcCaller := {| rc_user_id := EmptyString; rc_email := EmptyString; rc_effective_perms := None; rc_connection_id := None |}.
Definition holds (s : ShState) (user : uuid) (key : string) : Prop := has_permission_db (spool s) user key = Ok true.

Lemma authorize_public_rpc_ok decl auth app params :
  authorize_public_rpc decl auth app params = Ok tt →
  (share_app_id auth = None ∧ rpc_scope decl = [])
  ∨ ∃ share, auth = ShareToken share ∧ share_app share = app ∧ ∀ key, key ∈ rpc_scope decl → scope_matches (share_context share) params key = true.
Proof.
  unfold authorize_public_rpc. destruct (rpc_scope decl) as [|k scope].
  - destruct auth as [i|share|]; cbn; [by left| |by left]. intros Ha%ensure_ok_iff%bool_decide_eq_true. right. exists share. split_and!; [done..|].
    by intros key ?%elem_of_nil.
  - destruct auth as [i|share|]; [done| |done]. intros Ha. apply bind_ok_iff in Ha as ([] & Ha & Hall). apply ensure_ok_iff, bool_decide_eq_true in Ha.
    right. exists share. split_and!; [done..|]. apply try_for_each_ok_iff in Hall. rewrite Forall_forall in Hall. intros key Hk. specialize (Hall key Hk). by apply ensure_ok_iff in Hall.
Qed.
Lemma user_allowed_ok user app method declaration s s' :
  runs sstep (user_allowed user app method declaration) s s' (Ok true) →
  ∃ z, rtc sstep s z ∧ match declaration with
                       | Some (_, true) => holds z user (action_key app method)
                       | Some (_, false) => holds z user (invoke_key app) ∨ holds z user (action_key app method)
                       | None => holds z user (invoke_key app)
                       end.
Proof.
  assert (∀ key y y', runs sstep (permitted user key) y y' (Ok true) → ∃ z, rtc sstep y z ∧ holds z user key) as Hperm.
  { intros key y y' Hr. apply runs_query in Hr as (z & Hz & Hh & _). by exists z. }
  assert (∀ y y' k (P : Prop), runs sstep (do invoke <- permitted user (invoke_key app); if invoke : bool then pure (Ok true) else k) y y' (Ok true) →
            (∃ z, rtc sstep y z ∧ holds z user (invoke_key app)) ∨ ∃ z, rtc sstep y z ∧ runs sstep k z y' (Ok true)) as Hinvoke.
  { intros y y' k P Hr. apply runs_bind in Hr as ([] & z & Hr & Hk); [left; by eapply Hperm|right]. apply runs_query in Hr as (z1 & H1 & _ & H2). exists z. split; [by etrans|done]. }
  unfold user_allowed. destruct declaration as [[isolated []]|].
  - intros Hr. destruct (Hperm _ _ _ Hr) as (z & Hz & Hh). by exists z.
  - intros Hr. destruct (Hinvoke _ _ _ True Hr) as [(z & Hz & Hh)|(z & Hz & Hk)]; [exists z; eauto|].
    destruct (Hperm _ _ _ Hk) as (z2 & Hz2 & Hh). exists z2. split; [by etrans|by right].
  - intros Hr. destruct (Hinvoke _ _ _ True Hr) as [(z & Hz & Hh)|(z & Hz & Hk)]; [exists z; eauto|]. apply runs_pure in Hk as [? _]. done.
Qed.

(** The authority a dispatched call has, by who called. *)
Definition within_authority (auth : CallerAuth) (app method : string) (params : JsonValue) (user : uuid) (s : ShState) (d : Dispatch) : Prop :=
  match d with
  | RpcPublic m p ex =>
      m = method ∧ p = params ∧ (share_app_id auth = None ∨ share_app_id auth = Some app)
      ∧ ∃ y z z' decl, rtc sstep s y ∧ find_public_rpc app method y = Ok (Some decl) ∧ rpc_scope decl = [] ∧ rpc_publications decl ≠ []
        ∧ rtc sstep y z ∧ runs pstep (resolve debug_error parse_public app (rpc_publications decl) user) (pubst z) (pubst z') (Ok ex)
  | RpcAction m p caller =>
      m = method ∧ p = params ∧ ∃ i y z isolated authority, auth = User i ∧ caller = own_caller i ∧ rtc sstep s y ∧ rtc sstep y z
        ∧ declared_action app method y = Some (isolated, authority) ∧ isolated || authority = true
        ∧ (holds z (id_user i) (action_key app method) ∨ (authority = false ∧ holds z (id_user i) (invoke_key app)))
  | Rpc m p caller =>
      m = method ∧ p = params ∧
      match auth with
      | User i => caller = own_caller i ∧ ∃ y z, rtc sstep s y ∧ rtc sstep y z
          ∧ (holds z (id_user i) (invoke_key app) ∨ (declared_action app method y = Some (false, false) ∧ holds z (id_user i) (action_key app method)))
      | ShareToken share => share_app share = app ∧ ∃ y z manifest decl perms, rtc sstep s y ∧ rtc sstep y z
          ∧ find_public_rpc_full app method y = Ok (Some (manifest, decl))
          ∧ (∀ key, key ∈ rpc_scope decl → scope_matches (share_context share) params key = true)
          ∧ caller = {| rc_user_id := share_creator share; rc_email := EmptyString; rc_effective_perms := Some perms; rc_connection_id := None |}
          ∧ ∀ k, k ∈ perms → Allows (perms_or_none (spool z) (share_creator share)) k
              ∧ ∃ e, e ∈ map entity_name (data_contract (contract manifest))
                  ∧ let key := "app:" +:+ app +:+ ":" +:+ e +:+ ".read" in k = key ∨ k = key +:+ ".own"
      | Anonymous => caller = nobody ∧ ∃ y decl, rtc sstep s y ∧ find_public_rpc app method y = Ok (Some decl) ∧ rpc_scope decl = []
      end
  end.
Lemma user_call_ok i app method params user s s' d :
  runs sstep (user_call manifest_actions i app method params) s s' (Ok d) → within_authority (User i) app method params user s d.
Proof.
  unfold user_call. intros (declaration & y1 & Hq & Hr)%runs_bind. apply runs_query in Hq as (y & Hy & Hd & Hy1). apply ok_inj in Hd. subst declaration.
  apply runs_bind in Hr as (allowed & y2 & Ha & Hr). apply runs_bind in Hr as ([] & y3 & He & Hr). apply runs_pure in He as [He _]. symmetry in He.
  apply ensure_ok_iff in He as ->. apply user_allowed_ok in Ha as (z & Hz & Hh). apply runs_pure in Hr as [E _]. apply ok_inj in E. subst d.
  assert (rtc sstep y z) as Hyz by (by etrans). change {| rc_user_id := id_user i; rc_email := id_email i; rc_effective_perms := None; rc_connection_id := None |} with (own_caller i).
  destruct (declared_action app method y) as [[isolated authority]|] eqn:Hdecl.
  - destruct (isolated || authority) eqn:Hor.
    + cbn. split_and!; [done..|]. exists i, y, z, isolated, authority. split_and!; try done. destruct authority; [by left|]. destruct Hh; [right|left]; done.
    + apply orb_false_iff in Hor as [-> ->]. cbn. split_and!; [done..|]. exists y, z. split_and!; try done. destruct Hh; [by left|by right].
  - cbn. split_and!; [done..|]. exists y, z. split_and!; try done. by left.
Qed.
Lemma share_call_ok share app method params user s s' d :
  runs sstep (share_call parse_public share app method params) s s' (Ok d) → within_authority (ShareToken share) app method params user s d.
Proof.
  unfold share_call. intros (found & y1 & Hq & Hr)%runs_bind. apply runs_query in Hq as (y & Hy & Hf & Hy1). apply runs_bind in Hr as ([manifest decl] & y2 & Hp & Hr).
  apply runs_pure in Hp as [Hp Hy2]. symmetry in Hp. apply ok_or_ok_iff in Hp as ->. apply runs_bind in Hr as ([] & y3 & Ha & Hr). apply runs_pure in Ha as [Ha Hy3].
  symmetry in Ha. cbn [fst snd] in *. apply authorize_public_rpc_ok in Ha as [[Hno _]|(share' & [= <-] & Happ & Hsc)]; [done|].
  apply runs_bind in Hr as (perms & y4 & Hq & Hr). apply runs_query in Hq as (z & Hz & Hperms & _). apply runs_pure in Hr as [E _]. apply ok_inj in E. subst d.
  cbn. split_and!; [done..|]. exists y, z, manifest, decl, perms. split_and!; try done.
  - do 3 (etrans; [eassumption|]). done.
  - intros k Hk. by apply (share_read_perms_bounded _ _ _ _ _ _ Hperms).
Qed.
Lemma anonymous_call_ok app method params user s s' d :
  runs sstep (anonymous_call parse_public app method params) s s' (Ok d) → within_authority Anonymous app method params user s d.
Proof.
  unfold anonymous_call. intros (found & y1 & Hq & Hr)%runs_bind. apply runs_query in Hq as (y & Hy & Hf & Hy1). apply runs_bind in Hr as (decl & y2 & Hp & Hr).
  apply runs_pure in Hp as [Hp _]. symmetry in Hp. apply ok_or_ok_iff in Hp as ->. apply runs_bind in Hr as ([] & y3 & Ha & Hr). apply runs_pure in Ha as [Ha _].
  symmetry in Ha. apply authorize_public_rpc_ok in Ha as [[_ Hsc]|(share' & ? & _)]; [|done]. apply runs_pure in Hr as [E _]. apply ok_inj in E. subst d.
  cbn. split_and!; [done..|]. by exists y, decl.
Qed.
Lemma public_call_ok decl auth app method params user s s' d :
  runs sstep (public_call debug_error parse_public decl auth app method params user) s s' (Ok d) →
  ∃ ex z z', d = RpcPublic method params ex ∧ rpc_scope decl = [] ∧ (share_app_id auth = None ∨ share_app_id auth = Some app) ∧ rtc sstep s z
    ∧ runs pstep (resolve debug_error parse_public app (rpc_publications decl) user) (pubst z) (pubst z') (Ok ex).
Proof.
  unfold public_call. intros ([] & y1 & Hp & Hr)%runs_bind. apply runs_pure in Hp as [Hp Hy1]. symmetry in Hp. apply ensure_ok_iff, bool_decide_eq_true in Hp.
  apply runs_bind in Hr as ([] & y2 & Ha & Hr). apply runs_pure in Ha as [Ha Hy2]. symmetry in Ha. apply runs_bind in Hr as (ex & y3 & Hx & Hr).
  apply runs_pure in Hr as [E _]. apply ok_inj in E. subst d. exists ex, y2, y3. split_and!; try done.
  - apply authorize_public_rpc_ok in Ha as [[? _]|(share & -> & <- & _)]; [by left|by right].
  - by etrans.
  - eapply (runs_zoom pubst set_pubst sstep pstep) in Hx; [exact Hx|done|]. intros ?? Hs. by eapply ssteps_pub.
Qed.

(** [C27] Whatever a call of an app's method is made with, it runs only with the
    authority its caller has.  A signed-in user holds the app's invoke key or, for a
    declared action, that action's own key, which alone suffices where the action asks
    for authority of its own, and runs as themself.  The bearer of a share token
    reaches only methods declared public, of the share's app, with the parameters the
    share fixes, and with permissions to read declared entities that the creator of
    the share holds at that moment.  Anyone else reaches only public methods without a
    scope, as nobody; and a method with publications runs, for anyone, under exactly
    those publications as resolved. *)
Theorem rpc_runs_within_authority auth app body user s s' d :
  runs sstep (rpc_proxy debug_error parse_public manifest_actions auth app body user) s s' (Ok d) →
  ∃ method, get body "method" ≫= as_str = Some method ∧ within_authority auth app method (default (JObject []) (get body "params")) user s d.
Proof.
  unfold rpc_proxy. intros (method & y1 & Hp & Hr)%runs_bind. apply runs_pure in Hp as [Hp Hy1]. symmetry in Hp. apply ok_or_ok_iff in Hp. exists method. split; [done|].
  apply runs_bind in Hr as (decl & y2 & Hq & Hr). apply runs_query in Hq as (y & Hy & Hd & Hy2). set (params := default _ _) in *.
  assert (rtc sstep s y) as Hsy by (by etrans). assert (rtc sstep s y2) as Hs2 by (by etrans).
  assert (∀ a, within_authority a app method params user y2 d → within_authority a app method params user s d) as Hmono.
  { intros a Hw. destruct d as [m p ex|m p caller|m p caller]; cbn in *; destruct Hw as (-> & -> & Hw); (split; [done|split; [done|]]).
    - destruct Hw as (Ha & y0 & z & z' & dc & H1 & Hrest). split; [done|]. exists y0, z, z', dc. split; [by etrans|done].
    - destruct Hw as (i & y0 & z & iso & au & -> & -> & H1 & Hrest). exists i, y0, z, iso, au. split_and!; try done; [by etrans|naive_solver..].
    - destruct a as [i|share|].
      + destruct Hw as (-> & y0 & z & H1 & Hrest). split; [done|]. exists y0, z. split; [by etrans|done].
      + destruct Hw as (? & y0 & z & mf & dc & pm & H1 & Hrest). split; [done|]. exists y0, z, mf, dc, pm. split; [by etrans|done].
      + destruct Hw as (-> & y0 & dc & H1 & Hrest). split; [done|]. exists y0, dc. split; [by etrans|done]. }
  assert (runs sstep (match auth with
                      | User i => user_call manifest_actions i app method params
                      | ShareToken share => share_call parse_public share app method params
                      | Anonymous => anonymous_call parse_public app method params
                      end) y2 s' (Ok d) → within_authority auth app method params user s d) as Hplain.
  { intros Hc. apply Hmono. destruct auth; [by eapply user_call_ok|by eapply share_call_ok|by eapply anonymous_call_ok]. }
  destruct decl as [[name pubs scope]|]; [|by apply Hplain]. destruct pubs as [|pb pubs]; [by apply Hplain|].
  apply public_call_ok in Hr as (ex & z & z' & -> & Hsc & Hsh & Hz & Hx). cbn. split_and!; try done.
  exists y, z, z', {| rpc_name := name; rpc_publications := pb :: pubs; rpc_scope := scope |}. split_and!; try done. by etrans.
Qed.
End Calls.

Module ShareExamples.
Import RecordExamples CrossAppExamples PublicationExamples.
#[local] Existing Instance toy_parsers.
Definition hash (s : string) : string := "sha:" +:+ s.
Definition md5 (v : JsonValue) : string := match get v "board_id" ≫= as_str with Some b => b | None => EmptyString end.
Definition no_actions (_ : string) : list ActionDefinition := [].
Definition with_board (s : string) : option PublicManifest :=
  Some {| contract := person_app s;
          public := Some {| publications_ := [people]; rpcs := [{| rpc_name := "board"; rpc_publications := []; rpc_scope := ["board_id"] |}];
                            collections := [] |} |}.
Definition nobody_leaves (_ : uuid) : bool := false.
Notation moves := (sstep hash md5 debug with_board nobody_leaves).
Definition s0 : ShState := {| pubst := unpublished x_installed; shares := ∅ |}.
Definition board : JsonValue := JObject [("board_id", JString "b7")].
Definition raw : string := "abcdefghijklmnopqrstuvwxyz-0123456789_ABCDE".
Lemma s0_inv : SInv md5 s0.
Proof. constructor; intros i j r q Hr; cbn [s0 shares] in Hr; rewrite lookup_empty in Hr; discriminate Hr. Qed.
Notation sharing := (create_share hash md5 "https://core/" "root" "crm" board "s1" raw).

Lemma share_token_roundtrip_witness :
  ∃ s cr r, exec 9 sharing s0 = Some (s, Ok cr) ∧ shares s !! "s1" = Some r ∧ context r = board ∧ (is_active r = true → find_share hash raw s = Some ("s1", r)).
Proof.
  destruct (exec 9 sharing s0) as [[s [cr|e]]|] eqn:E.
  - assert (cs_token cr = raw) as Ht.
    { apply (f_equal (λ o, match o with Some (_, Ok cr) => cs_token cr | _ => EmptyString end)) in E. cbv beta iota in E. rewrite <-E. vm_compute. reflexivity. }
    destruct (proj1 (share_token_roundtrip hash md5 debug with_board nobody_leaves "https://core/" "root" "crm" board "s1" raw s0 s s cr s0_inv ltac:(vm_compute; reflexivity)
                (exec_runs moves 9 sharing s0 s (Ok cr) E) Ht (rtc_refl _ _)) eq_refl) as (r & Hr & Hc & Ha & _).
    exists s, cr, r. split; [reflexivity|]. split; [exact Hr|]. split; [|exact Ha]. apply (f_equal share_context) in Hc. exact Hc.
  - exfalso. apply (f_equal (λ o, match o with Some (_, Ok _) => true | _ => false end)) in E. vm_compute in E. discriminate E.
  - exfalso. apply (f_equal (λ o, match o with Some (_, Ok _) => true | _ => false end)) in E. vm_compute in E. discriminate E.
Defined.
Definition s1 : ShState := (insert_share hash md5 "s1" "crm" raw board "root" s0).1.
Notation revoking := (revoke_share "root" "crm" "s1").
Lemma revocation_is_final_witness : ∃ s, exec 9 revoking s1 = Some (s, Ok tt) ∧ ∀ r, find_share hash raw s ≠ Some ("s1", r).
Proof.
  destruct (exec 9 revoking s1) as [[s [[]|e]]|] eqn:E.
  - exists s. split; [reflexivity|]. intros r.
    exact (proj2 (revocation_is_final hash md5 debug with_board nobody_leaves "root" "crm" "s1" s1 s (exec_runs moves 9 revoking s1 s (Ok tt) E)) eq_refl s raw r (rtc_refl _ _)).
  - exfalso. apply (f_equal (λ o, match o with Some (_, Ok _) => true | _ => false end)) in E. vm_compute in E. discriminate E.
  - exfalso. apply (f_equal (λ o, match o with Some (_, Ok _) => true | _ => false end)) in E. vm_compute in E. discriminate E.
Defined.
Definition bearer : ResolvedShare := {| share_id := "s1"; share_app := "crm"; share_creator := "root"; share_context := board |}.
Definition call : JsonValue := JObject [("method", JString "board"); ("params", board)].
Notation calling := (rpc_proxy debug with_board no_actions (ShareToken bearer) "crm" call "anyone").
Lemma rpc_runs_within_authority_witness :
  ∃ s perms, exec 9 calling s1 = Some (s, Ok (Rpc "board" board {| rc_user_id := "root"; rc_email := EmptyString; rc_effective_perms := Some perms; rc_connection_id := None |}))
    ∧ perms = ["app:crm:person.read"] ∧ ∃ z, Allows (perms_or_none (spool z) "root") "app:crm:person.read".
Proof.
  destruct (exec 9 calling s1) as [[s [d|e]]|] eqn:E.
  - assert (d = Rpc "board" board {| rc_user_id := "root"; rc_email := EmptyString; rc_effective_perms := Some ["app:crm:person.read"]; rc_connection_id := None |}) as ->.
    { apply (f_equal (λ o, match o with Some (_, Ok d) => Some d | _ => None end)) in E. cbv beta iota in E. vm_compute in E. injection E as <-. vm_compute. reflexivity. }
    exists s, ["app:crm:person.read"]. split; [reflexivity|]. split; [reflexivity|].
    destruct (rpc_runs_within_authority hash md5 debug with_board no_actions nobody_leaves (ShareToken bearer) "crm" call "anyone" s1 s _ (exec_runs moves 9 calling s1 s _ E))
      as (method & _ & _ & _ & _ & y & z & manifest & decl & perms & _ & _ & _ & _ & Hc & Hp).
    exists z. apply Hp. injection Hc as <-. left.
  - exfalso. apply (f_equal (λ o, match o with Some (_, Ok _) => true | _ => false end)) in E. vm_compute in E. discriminate E.
  - exfalso. apply (f_equal (λ o, match o with Some (_, Ok _) => true | _ => false end)) in E. vm_compute in E. discriminate E.
Defined.
End ShareExamples.
