(* ===== verification/RuleShorthand.v ===== *)
(** * Field shorthands (core/src/rules/shorthand.rs)

    Single-field rules declared on a field, compiled through the same checker as
    written rules. *)

From stdpp Require Import base numbers pretty gmap strings sets list.
From S2P Require Import Prelude Str Ident Json DataTypes RuleAst RuleLexer RuleParser RuleGrammar RulePattern RuleTyping.

Definition EMAIL_PATTERN : string := "^[^[:space:]@]+@[^[:space:]@]+\.[^[:space:]@]+$".
Definition JSON_TYPES : list string := ["object"; "array"; "string"; "number"; "boolean"; "null"].

Record Shorthand := { sh_kind : string; sh_tree : Expr }.

Definition bound_valid (digits : string) : bool :=
  let '(whole, fraction) :=
    match split_once "." digits with
    | Some (whole, fraction) => (whole, Some fraction)
    | None => (digits, None)
    end in
  negb (bool_decide (whole = "")) && str_forall is_ascii_digit whole
  && match fraction with
     | None => true
     | Some f => negb (bool_decide (f = "")) && str_forall is_ascii_digit f
     end
  && (String.length digits <=? 40).

Definition bound (name key : string) (value : JsonValue) (ty : Ty) : result failure Expr :=
  let? text :=
    match ty, value with
    | TyNumeric, JString text => Ok (trim text)
    | TyNumeric, _ => Err (Refused ("field '" +:+ name +:+ "': decimal '" +:+ key
        +:+ "' must be a JSON string such as " +:+ String DQUOTE "0.01" +:+ String DQUOTE ""))
    | _, JNumber number =>
        Ok (match num_i64 number with
            | Some i => pretty i
            | None => default "" (num_f64 number)
            end)
    | _, _ => Err (Refused ("field '" +:+ name +:+ "': number '" +:+ key +:+ "' must be a JSON number"))
    end in
  let '(negative, digits) :=
    match strip_prefix "-" text with Some rest => (true, rest) | None => (false, text) end in
  if bound_valid digits
  then Ok (if negative then ENeg (ENumber digits) else ENumber digits)
  else Err (Refused ("field '" +:+ name +:+ "': '" +:+ key
         +:+ "' must be a finite number written in digits, not '" +:+ text +:+ "'")).

Section Compile.
Context (date_ok : string → bool) (rfc3339 uuid_parse : string → option string)
        (regex_parse : string → result string Ast).
Context (fields : Fields) (field : FieldContract) (ty : Ty).

Definition this : Expr := EField (fname field).
Definition finite : Expr := EFinite this (bool_decide (ty = TyNumeric)).
Definition number_lit (n : N) : Expr := ENumber (pretty n).

Definition needs (ok : bool) (key what : string) : result failure unit :=
  expect_ ok ("field '" +:+ fname field +:+ "': '" +:+ key +:+ "' applies to " +:+ what +:+ " fields").

Definition in_field (e : failure) : failure :=
  match e with Refused m => Refused ("field '" +:+ fname field +:+ "': " +:+ m) | e => e end.

Definition push (kind : string) (tree : Expr) : result failure (list Shorthand) :=
  let? tree := map_err in_field (check_boolean date_ok rfc3339 uuid_parse regex_parse fields tree) in
  Ok [{| sh_kind := kind; sh_tree := tree |}].

(** A rule compiled when it is declared. *)
Definition when {A} (o : option A) (k : A → result failure (list Shorthand)) : result failure (list Shorthand) :=
  match o with Some a => k a | None => Ok [] end.
Definition flag (b : bool) : option unit := if b then Some tt else None.

Definition numeric : bool := bool_decide (ty = TyFloat) || bool_decide (ty = TyNumeric).

Definition bound_rule (r : string * string * BinOp * option JsonValue) : result failure (list Shorthand) :=
  let '(key, kind, op, value) := r in
  when value (λ value,
    try? needs numeric key "number and decimal" in
    let? b := bound (fname field) key value ty in
    push kind (EBinary And (EBinary op this b) finite)).

Definition compile : result failure (list Shorthand) :=
  let r := rules field in
  let text := bool_decide (ty = TyText) in
  let? bounds := try_map bound_rule
    [("minimum", "min", Ge, minimum r); ("maximum", "max", Le, maximum r);
     ("exclusive_minimum", "xmin", Gt, exclusive_minimum r);
     ("exclusive_maximum", "xmax", Lt, exclusive_maximum r)] in
  let? int := when (flag (integer r)) (λ _,
    try? needs numeric "integer" "number and decimal" in
    push "int" (EBinary And (EBinary Eq this (ECall Trunc [this])) finite)) in
  let? sc := when (max_scale r) (λ n,
    try? needs (bool_decide (ty = TyNumeric)) "max_scale" "decimal" in
    push "scale" (EBinary And (EBinary Le (ECall Scale [this]) (number_lit n)) finite)) in
  try? match min_length r, max_length r with
       | Some min, Some max =>
           expect_ (negb (max <? min)%N)
             ("field '" +:+ fname field +:+ "': min_length exceeds max_length")
       | _, _ => Ok tt
       end in
  let? minlen := when (min_length r) (λ min,
    try? needs text "min_length" "text" in
    push "minlen" (EBinary Ge (ECall Length [this]) (number_lit min))) in
  let? maxlen := when (max_length r) (λ max,
    try? needs text "max_length" "text" in
    push "maxlen" (EBinary Le (ECall Length [this]) (number_lit max))) in
  let? notblank := when (flag (not_blank r)) (λ _,
    try? needs text "not_blank" "text" in
    push "notblank" (EBinary Gt (ECall Length [ECall Btrim [this]]) (number_lit 0))) in
  let? fmt := when (format r) (λ f,
    try? needs text "format" "text" in
    try? expect_ (bool_decide (f = "email"))
      ("field '" +:+ fname field +:+ "': unknown format '" +:+ f +:+ "'; supported: email") in
    push "format" (EBinary Match this (EText EMAIL_PATTERN))) in
  let? pat := when (pattern r) (λ p,
    try? needs text "pattern" "text" in
    push "pattern" (EBinary Match this (EText p))) in
  let? jt := when (json_type r) (λ t,
    try? needs (bool_decide (ty = TyJson)) "json_type" "json" in
    try? expect_ (bool_decide (t ∈ JSON_TYPES))
      ("field '" +:+ fname field +:+ "': json_type must be one of " +:+ join ", " JSON_TYPES) in
    push "jsontype" (EBinary Eq (ECall JsonbTypeof [this]) (EText t))) in
  let? items := when (max_items r) (λ max,
    try? needs (bool_decide (ty = TyJson)) "max_items" "json" in
    push "maxitems" (EBinary Le (ECall JsonbArrayLength [this]) (number_lit max))) in
  Ok (concat bounds ++ int ++ sc ++ minlen ++ maxlen ++ notblank ++ fmt ++ pat ++ jt ++ items).

(** ** What a shorthand compiles to *)

(** A boolean tree that reads its field and no other, filed under one of [kinds]. *)
Definition shorthand_ok (kinds : list string) (s : Shorthand) : Prop :=
  sh_kind s ∈ kinds
  ∧ has_ty date_ok rfc3339 uuid_parse regex_parse fields (sh_tree s) TyBool
  ∧ ∀ x, mentions (sh_tree s) x → x = fname field.

(** At most one rule of each kind, in order. *)
Definition shorthands_ok (kinds : list string) (l : list Shorthand) : Prop :=
  (map sh_kind l) `sublist_of` kinds ∧ Forall (shorthand_ok kinds) l.

Hypothesis Hfields : fields_ok fields.

Lemma holds_push kind tree :
  source_ok tree = true → (∀ x, mentions tree x → x = fname field) →
  holds (push kind tree) (shorthands_ok [kind]).
Proof.
  intros Hs Hm. apply holds_bind.
  pose proof (check_boolean_spec date_ok rfc3339 uuid_parse regex_parse fields tree Hfields Hs) as H.
  destruct (check_boolean _ _ _ _ _ _) as [e|[]]; simpl in *; try done. destruct H as [Ht Hf _].
  split; simpl; [done|]. constructor; [|constructor]. split_and!; simpl; [by left|done|].
  intros x. rewrite (Hf x). apply Hm.
Qed.

Lemma holds_when {A} kind (o : option A) k :
  (∀ a, holds (k a) (shorthands_ok [kind])) → holds (when o k) (shorthands_ok [kind]).
Proof. intros H. destruct o; simpl; [apply H|]. split; [apply sublist_nil_l|constructor]. Qed.

Lemma holds_needs {A} b key what (k : unit → result failure A) (Q : A → Prop) :
  holds (k tt) Q → holds (result_bind (needs b key what) k) Q.
Proof. intros H. by apply holds_bind, holds_expect. Qed.

Lemma shorthands_ok_app ks1 ks2 l1 l2 :
  shorthands_ok ks1 l1 → shorthands_ok ks2 l2 → shorthands_ok (ks1 ++ ks2) (l1 ++ l2).
Proof.
  intros [H1 F1] [H2 F2]. split; [rewrite map_app; by apply sublist_app|].
  apply Forall_app; split.
  - eapply Forall_impl; [done|]. intros s (? & ? & ?). split_and!; [set_solver|done|done].
  - eapply Forall_impl; [done|]. intros s (? & ? & ?). split_and!; [set_solver|done|done].
Qed.

Lemma split_once_parts c s a b : split_once c s = Some (a, b) → s = a +:+ String c b.
Proof. intros H. apply split_once_Some in H. tauto. Qed.

Lemma bound_valid_bare digits : bound_valid digits = true → bare_number digits = true.
Proof.
  unfold bound_valid. intros H. apply number_shape_bare.
  destruct (split_once "." digits) as [[w f]|] eqn:Hs; bool_hyps.
  - apply split_once_parts in Hs as ->. exists w, f. split_and!; try done. by right.
  - exists digits, "". split_and!; try done. by left.
Qed.

Lemma holds_bound name key value :
  holds (bound name key value ty) (λ e, source_ok e = true ∧ ∀ x, ¬ mentions e x).
Proof.
  unfold bound. apply holds_bind.
  assert (∀ text, holds (let '(negative, digits) :=
    match strip_prefix "-" text with Some rest => (true, rest) | None => (false, text) end in
    if bound_valid digits then Ok (if negative then ENeg (ENumber digits) else ENumber digits)
    else Err (Refused ("field '" +:+ name +:+ "': '" +:+ key
         +:+ "' must be a finite number written in digits, not '" +:+ text +:+ "'")))
    (λ e, source_ok e = true ∧ ∀ x, ¬ mentions e x)) as H.
  { intros text. destruct (match strip_prefix "-" text with Some _ => _ | None => _ end) as [negative digits].
    destruct (bound_valid digits) eqn:Hv; [|done]. apply bound_valid_bare in Hv.
    destruct negative; simpl; rewrite Hv; naive_solver. }
  destruct ty, value; (exact I || apply H).
Qed.

Lemma bare_number_pretty (n : N) : bare_number (pretty n) = true.
Proof.
  apply number_shape_bare. destruct (pretty_N_digits n) as [Hd Hne].
  exists (pretty n), "". split_and!; auto.
Qed.

Lemma holds_bound_rule r : holds (bound_rule r) (shorthands_ok [r.1.1.2]).
Proof.
  destruct r as [[[key kind] op] value]. apply holds_when. intros v. apply holds_needs, holds_bind.
  eapply holds_mono; [apply holds_bound|]. intros e [Hs Hm]. apply holds_push; simpl.
  - by rewrite Hs.
  - intros x [[?|?%Hm]|?]; done.
Qed.

Definition ALL_KINDS : list string :=
  ["min"; "max"; "xmin"; "xmax"; "int"; "scale"; "minlen"; "maxlen"; "notblank"; "format"; "pattern";
   "jsontype"; "maxitems"].

Lemma shorthands_ok_concat (rs : list (string * string * BinOp * option JsonValue)) ls :
  Forall2 (λ r l, shorthands_ok [r.1.1.2] l) rs ls → shorthands_ok (map (λ r, r.1.1.2) rs) (concat ls).
Proof.
  induction 1 as [|r l rs ls H HF IH]; simpl; [split; [done|constructor]|].
  by apply (shorthands_ok_app [r.1.1.2]).
Qed.

(** One step of [compile]: a declared rule is compiled to one tree. *)
Ltac shorthand_step :=
  apply holds_bind; eapply holds_mono;
  [ apply holds_when; intros; apply holds_needs; 
    lazymatch goal with
    | |- holds (result_bind (expect_ _ _) _) _ => apply holds_bind, holds_expect; intros _
    | _ => idtac
    end;
    apply holds_push; [cbn [source_ok]; simpl; rewrite ?bare_number_pretty; done | simpl; naive_solver]
  | intros ? ? ].

Lemma compile_spec : holds compile (shorthands_ok ALL_KINDS).
Proof.
  unfold compile. apply holds_bind.
  eapply holds_mono; [apply (holds_try_map _ (λ r l, shorthands_ok [r.1.1.2] l)); intros; apply holds_bound_rule|].
  intros bounds Hb. apply shorthands_ok_concat in Hb.
  do 2 shorthand_step. apply holds_bind.
  apply (holds_mono _ (λ _, True)); [destruct (min_length (rules field)), (max_length (rules field)); try done; by apply holds_expect|].
  intros _ _. do 7 shorthand_step. simpl.
  change ALL_KINDS with (["min"; "max"; "xmin"; "xmax"] ++ ["int"] ++ ["scale"] ++ ["minlen"] ++ ["maxlen"]
    ++ ["notblank"] ++ ["format"] ++ ["pattern"] ++ ["jsontype"] ++ ["maxitems"]).
  repeat apply shorthands_ok_app; done.
Qed.
End Compile.
