(* ===== verification/RuleCompile.v ===== *)
(** * Compiling the rules of an entity (core/src/rules/mod.rs)

    Checks, shorthands, enums and indexes of an entity compiled to named SQL
    objects, each with a tag that identifies what it was compiled from.  The
    digest of a tag (JSON and SHA-256), the digest of a shortened name and the
    [Debug] printing of strings are parameters. *)

From stdpp Require Import base numbers pretty gmap strings sets list.
From S2P Require Import Prelude Str Ident Json DataTypes RuleAst RuleLexer RuleParser RuleGrammar.
From S2P Require Import RulePattern RuleTyping RuleEmit RuleShorthand.

Definition GRAMMAR_VERSION : string := "r1".
Definition MAX_CHECKS : nat := 64.
Definition MAX_INDEXES : nat := 64.
Definition EXTENSION_SCHEMA : string := "rootcx_ext".

Inductive Origin :=
| OCheck (expr : string)
| OEnum (field : string)
| OShorthand.

Record CompiledCheck := {
  cc_name : string; cc_sql : string; cc_tag : string; cc_legacy_tag : option string; cc_origin : Origin }.

Record CompiledIndex := {
  ci_name : string; ci_unique : bool; ci_trigram : bool; ci_method : string;
  ci_keys : list string; ci_key_values : list string; ci_predicate : option string;
  ci_tag : string; ci_legacy_tag : string; ci_declared : IndexContract; ci_columns : list string }.

Record EntityRules := { er_checks : list CompiledCheck; er_indexes : list CompiledIndex }.

(** [CompiledIndex::create_sql] *)
Definition create_sql (ix : CompiledIndex) (schema table name : string) (concurrently : bool) (trigram : string) : string :=
  let keys :=
    if ci_trigram ix
    then map (λ column, quote_ident column +:+ " " +:+ quote_ident trigram +:+ ".gin_trgm_ops") (ci_columns ix)
    else ci_keys ix in
  "CREATE " +:+ (if ci_unique ix then "UNIQUE " else "") +:+ "INDEX "
  +:+ (if concurrently then "CONCURRENTLY " else "") +:+ quote_ident name
  +:+ " ON " +:+ quote_ident schema +:+ "." +:+ quote_ident table
  +:+ " USING " +:+ ci_method ix +:+ " (" +:+ join ", " keys +:+ ")"
  +:+ match ci_predicate ix with Some predicate => " WHERE " +:+ predicate | None => "" end.

(** ** Hashes *)

Definition hex_digit (n : N) : ascii :=
  if (n <? 10)%N then ascii_of_N (48 + n) else ascii_of_N (87 + n).

(** [{n:x}]: hexadecimal without leading zeros, from at most [fuel] digits. *)
Fixpoint hex_from (fuel : nat) (n : N) (acc : string) : string :=
  match fuel with
  | 0 => acc
  | S fuel =>
      let acc := String (hex_digit (n mod 16)) acc in
      if (n / 16 =? 0)%N then acc else hex_from fuel (n / 16) acc
  end.
Definition hex (n : N) : string := hex_from 16 n "".

(** [{h:016x}] *)
Fixpoint hex16_from (digits : nat) (n : N) (acc : string) : string :=
  match digits with
  | 0 => acc
  | S k => hex16_from k (n / 16) (String (hex_digit (n mod 16)) acc)
  end.
Definition hex16 (n : N) : string := hex16_from 16 n "".

(** A [u64] result, wrapped around. *)
Definition wrap64 (n : N) : N := (n mod 18446744073709551616)%N.

Fixpoint fnv1a (h : N) (s : string) : N :=
  match s with
  | "" => h
  | String b s => fnv1a (wrap64 (N.lxor h (N_of_ascii b) * 1099511628211)) s
  end.
Definition fnv1a_hex (s : string) : string := hex16 (fnv1a 14695981039346656037 s).

Definition legacy_check_tag (expr : string) : string := fnv1a_hex (join " " (split_whitespace expr)).

(** [schema_sync::index_spec_hash] *)
Definition index_spec_hash (ix : IndexContract) : string :=
  let column c :=
    match c with
    | IxName n => n
    | IxSpec sp =>
        String.concat "" (map (λ f, default "" f +:+ ":")
          [ix_column sp; ix_expr sp; ix_sort sp; ix_nulls sp; ix_ops sp])
    end +:+ "," in
  fnv1a_hex
    ((if idx_unique ix then "u|" else "_|") +:+ default "btree" (idx_using ix) +:+ "|"
     +:+ String.concat "" (map column (idx_columns ix)) +:+ "|"
     +:+ default "" (idx_where ix) +:+ "|"
     +:+ String.concat "" (map (λ kv, kv.1 +:+ "=" +:+ kv.2 +:+ ";") (idx_with ix))).

Fixpoint poly31 (h : N) (s : string) : N :=
  match s with
  | "" => h
  | String b s => poly31 (wrap64 (wrap64 (h * 31) + N_of_ascii b)) s
  end.

(** [chars().take(n)], on UTF-8 bytes. *)
Fixpoint take_chars (n : nat) (s : string) : string :=
  match s with
  | "" => ""
  | String c t =>
      if is_continuation c then String c (take_chars n t)
      else match n with 0 => "" | S n => String c (take_chars n t) end
  end.

Inductive KeyTree := KName (name : string) | KExpr (tree : Expr).

(** What a tag identifies: the JSON array it is the digest of. *)
Inductive Canonical :=
| CanonRule (kind : string) (resolved : Expr) (types : list (string * string))
| CanonIndex (unique : bool) (using_ : string) (keys : list (KeyTree * option string * option string))
             (predicate : option Expr) (types : list (string * string)).

Definition is_sensitive (fields : Fields) (name : string) : bool :=
  match fields !! name with Some f => rf_sensitive f | None => false end.

Definition sensitive_scope (e : Expr) (fields : Fields) (index : bool) : result failure unit :=
  let used := expr_fields e [] in
  match List.find (is_sensitive fields) used with
  | Some name =>
      if index then
        Err (Refused ("field '" +:+ name +:+ "' is sensitive; index predicates and expressions cannot use it"))
      else if 1 <? length used then
        Err (Refused ("field '" +:+ name +:+ "' is sensitive; it can only appear in single-field rules"))
      else Ok tt
  | None => Ok tt
  end.

Definition column_value (name : string) (fields : Fields) : result failure string :=
  if negb (is_system_field name) && negb (bool_decide (is_Some (fields !! name)))
  then Err (Refused ("column '" +:+ name +:+ "' is not a declared or system field"))
  else Ok (quote_ident name).

(** A panic where the source panics: [None]. *)
Definition or_panic {A} (o : option A) : result failure A := ok_or o Panicked.

Definition failure_map (f : string → string) {A} (r : result failure A) : result failure A :=
  map_err (λ e, match e with Refused m => Refused (f m) | e => e end) r.

(** [parser::parse(..).map_err(|e| f(e.to_string()))] *)
Definition syntax_text (e : SyntaxError) : string :=
  pretty (err_line e) +:+ ":" +:+ pretty (err_column e) +:+ ": " +:+ err_message e.
Definition parse_with (f : string → string) (src : string) : result failure Expr :=
  match parse src with
  | Some (Ok e) => Ok e
  | Some (Err e) => Err (Refused (f (syntax_text e)))
  | None => Err Panicked
  end.

Section Compile.
Context (bigdecimal : string → option string) (date_ok : string → bool)
        (rfc3339 uuid_parse : string → option string) (regex_parse : string → result string Ast).
(** [digest4] shortens names, [digest] is the hex of a tag's SHA-256, [debug_list]
    and [debug_option] are [{:?}]. *)
Context (digest4 : string → string) (digest : Canonical → string)
        (debug_list : list string → string) (debug_option : option string → string).

Definition rule_field (t : FieldType) (sens : bool) : RField :=
  {| rf_ty := ty_of t; rf_sensitive := sens; rf_pg := postgres_type t |}.

(** [rules::field_types]: declared fields, then the system ones not declared. *)
Definition rule_field_types (entity : EntityContract) : result failure Fields :=
  let? declared := try_fold (λ (fields : Fields) field,
      let? t := map_err Refused (from_field bigdecimal field) in
      Ok (<[fname field := rule_field t (sensitive field)]> fields)) ∅ (entity_fields entity) in
  Ok (fold_left (λ fields nt, match fields !! nt.1 with
        | Some _ => fields
        | None => <[nt.1 := rule_field nt.2 false]> fields end)
      [("id", FUuid); ("created_at", FTimestamp); ("updated_at", FTimestamp)] declared).

Definition digest_tag (canonical : Canonical) : string := GRAMMAR_VERSION +:+ "-" +:+ digest canonical.

Definition tag (kind : string) (resolved : Expr) (fields : Fields) : result failure string :=
  let used := sort_strings (expr_fields resolved []) in
  let? types := try_map (λ name, let? f := or_panic (fields !! name) in Ok (name, rf_pg f)) used in
  Ok (digest_tag (CanonRule kind resolved types)).

(** The text of a tree; it panics where [sql] does. *)
Definition emit (e : Expr) : result failure string := or_panic (sql e).

Definition enum_check (entity : EntityContract) (field : FieldContract) (fields : Fields)
    : result failure (option CompiledCheck) :=
  match enum_values field with
  | None | Some [] => Ok None
  | Some values =>
      let? t := map_err Refused (from_field bigdecimal field) in
      let resolved :=
        match t with
        | FTextArray => EArrayWithin (fname field) values
        | _ => EIn (EField (fname field)) (map EText values) false
        end in
      let? name := or_panic (fit_ident digest4 ("chk_" +:+ entity_name entity +:+ "_" +:+ fname field)) in
      let? s := emit resolved in
      let? tg := tag "chk" resolved fields in
      Ok (Some {| cc_name := name; cc_sql := s; cc_tag := tg;
                  cc_legacy_tag := option_map legacy_check_tag (enum_check_expr bigdecimal field);
                  cc_origin := OEnum (fname field) |})
  end.

Definition compile_shorthand (entity : EntityContract) (field : FieldContract) (fields : Fields)
    (rule : Shorthand) : result failure CompiledCheck :=
  let? name := or_panic (fit_ident digest4
    ("chk_" +:+ entity_name entity +:+ "_" +:+ fname field +:+ "_" +:+ sh_kind rule)) in
  let? s := emit (sh_tree rule) in
  let? tg := tag "chk" (sh_tree rule) fields in
  Ok {| cc_name := name; cc_sql := s; cc_tag := tg; cc_legacy_tag := None; cc_origin := OShorthand |}.

Definition compile_field (entity : EntityContract) (fields : Fields) (field : FieldContract)
    : result failure (list CompiledCheck) :=
  let? enum := enum_check entity field fields in
  let? f := or_panic (fields !! fname field) in
  let? shorthands := compile date_ok rfc3339 uuid_parse regex_parse fields field (rf_ty f) in
  let? compiled := try_map (compile_shorthand entity field fields) shorthands in
  Ok (match enum with Some c => [c] | None => [] end ++ compiled).

Definition validate_name (value label : string) : result failure unit :=
  map_err (λ e, Refused (runtime_error_text e)) (validate_new_ident value label).

Definition compile_check (fields : Fields) (ic : nat * CheckContract) : result failure CompiledCheck :=
  let '(i, check) := ic in
  let label := default (pretty i) (chk_name check) in
  let at_ message := "checks[" +:+ label +:+ "].expr " +:+ message in
  let? name := ok_or (chk_name check) (Refused ("checks[" +:+ pretty i +:+ "]: every check needs a 'name'")) in
  try? validate_name name "check name" in
  let? parsed := parse_with at_ (chk_expr check) in
  let? resolved := failure_map at_ (check_boolean date_ok rfc3339 uuid_parse regex_parse fields parsed) in
  try? failure_map at_ (sensitive_scope resolved fields false) in
  let? tg := tag "chk" resolved fields in
  let? s := emit resolved in
  Ok {| cc_name := name; cc_sql := s; cc_tag := tg;
        cc_legacy_tag := Some (legacy_check_tag (chk_expr check)); cc_origin := OCheck (chk_expr check) |}.

(** The first name that repeats an earlier one. *)
Fixpoint first_duplicate (seen l : list string) : option string :=
  match l with
  | [] => None
  | n :: l => if decide (n ∈ seen) then Some n else first_duplicate (n :: seen) l
  end.

(** [schema_sync::resolve_index_name] *)
Definition resolve_index_name (entity : string) (ix : IndexContract) : string :=
  match idx_name ix with
  | Some n => n
  | None =>
      let parts := map (λ c, match c with IxName n => n | IxSpec s => default "expr" (ix_column s) end)
                     (idx_columns ix) in
      let hash := poly31 0 (debug_list parts +:+ (if idx_unique ix then "true" else "false")
                            +:+ debug_option (idx_where ix)) in
      let base := "ix_" +:+ entity +:+ "_" +:+ join "_" parts +:+ (if idx_unique ix then "_uq" else "") in
      let suffix := "_" +:+ hex (N.land hash 16777215) in
      take_chars (63 - String.length suffix) base +:+ suffix
  end.

Record IndexKey := { k_key : string; k_value : string; k_tree : KeyTree * option string * option string;
                     k_column : option string }.

Definition index_method (using_ : string) : result failure string :=
  if decide (using_ ∈ ["btree"; "hash"; "gist"; "spgist"; "brin"]) then Ok using_
  else if decide (using_ = "gin" ∨ using_ = "trigram") then Ok "gin"
  else Err (Refused ("unknown index method '" +:+ using_ +:+ "'")).

Definition compile_key (fields : Fields) (trigram : bool) (column : IndexColumn) : result failure IndexKey :=
  let? '(value, tree, sort, nulls) :=
    (match column with
     | IxName name => let? v := column_value name fields in Ok (v, KName name, None, None)
     | IxSpec spec =>
         if is_some (ix_ops spec)
         then Err (Refused ("operator classes ('ops') are not allowed; use " +:+ String DQUOTE "using" +:+ String DQUOTE ": " +:+ String DQUOTE "trigram" +:+ String DQUOTE " for trigram search"))
         else
         let? '(value, tree) :=
           (match ix_column spec, ix_expr spec with
            | Some name, None => let? v := column_value name fields in Ok (v, KName name)
            | None, Some expr =>
                let? parsed := parse_with (λ e, "expr " +:+ e) expr in
                let? resolved := failure_map (λ e, "expr " +:+ e)
                  (check_scalar date_ok rfc3339 uuid_parse regex_parse fields parsed) in
                try? sensitive_scope resolved fields true in
                let? s := emit resolved in
                Ok ("(" +:+ s +:+ ")", KExpr resolved)
            | Some _, Some _ => Err (Refused "a column has both 'column' and 'expr'")
            | None, None => Err (Refused "a column has neither 'column' nor 'expr'")
            end : result failure (string * KeyTree)) in
         Ok (value, tree, ix_sort spec, ix_nulls spec)
     end : result failure (string * KeyTree * option string * option string)) in
  let? plain :=
    (if trigram then
       let? name := ok_or (match column with
           | IxName name => Some name
           | IxSpec {| ix_column := Some name; ix_expr := None; ix_sort := None; ix_nulls := None |} => Some name
           | _ => None
           end) (Refused "trigram indexes take plain text columns") in
       try? expect_ (bool_decide (rf_ty <$> fields !! name = Some TyText))
         ("trigram index column '" +:+ name +:+ "' must be text") in
       Ok (Some name)
     else Ok None : result failure (option string)) in
  let? order :=
    (match to_ascii_lowercase <$> sort with
     | None => Ok ""
     | Some s => if decide (s = "asc") then Ok " ASC" else if decide (s = "desc") then Ok " DESC"
                 else Err (Refused ("invalid sort '" +:+ s +:+ "' (asc|desc)"))
     end : result failure string) in
  let? place :=
    (match to_ascii_lowercase <$> nulls with
     | None => Ok ""
     | Some s => if decide (s = "first") then Ok " NULLS FIRST" else if decide (s = "last") then Ok " NULLS LAST"
                 else Err (Refused ("invalid nulls '" +:+ s +:+ "' (first|last)"))
     end : result failure string) in
  Ok {| k_key := value +:+ order +:+ place; k_value := value;
        k_tree := (tree, to_ascii_lowercase <$> sort, to_ascii_lowercase <$> nulls); k_column := plain |}.

Definition plain_columns (ix : IndexContract) : list string :=
  omap (λ c, match c with IxName n => Some n | IxSpec s => ix_column s end) (idx_columns ix).

Definition compile_index (entity : EntityContract) (ix : IndexContract) (fields : Fields)
    : result failure CompiledIndex :=
  if decide (idx_columns ix = []) then Err (Refused "has no columns")
  else if negb (bool_decide (idx_with ix = [])) then Err (Refused "storage parameters ('with') are not allowed")
  else
  let using_ := to_ascii_lowercase (default "btree" (idx_using ix)) in
  let trigram := bool_decide (using_ = "trigram") in
  let? method := index_method using_ in
  if trigram && idx_unique ix then Err (Refused "a trigram index cannot be unique")
  else
  let? keys := try_map (compile_key fields trigram) (idx_columns ix) in
  let? predicate :=
    (match idx_where ix with
     | None => Ok None
     | Some source =>
         let? parsed := parse_with (λ e, "where " +:+ e) source in
         let? resolved := failure_map (λ e, "where " +:+ e)
           (check_boolean date_ok rfc3339 uuid_parse regex_parse fields parsed) in
         try? sensitive_scope resolved fields true in
         Ok (Some resolved)
     end : result failure (option Expr)) in
  try? match idx_name ix with Some name => validate_name name "index name" | None => Ok tt end in
  let name := resolve_index_name (entity_name entity) ix in
  let used := dedup (sort_strings (plain_columns ix
    ++ match predicate with Some p => expr_fields p [] | None => [] end)) in
  let types := omap (λ n, (λ f, (n, rf_pg f)) <$> fields !! n) used in
  let? predicate_sql := (match predicate with
    | Some p => let? s := emit p in Ok (Some s)
    | None => Ok None end : result failure (option string)) in
  Ok {| ci_name := name; ci_unique := idx_unique ix; ci_trigram := trigram; ci_method := method;
        ci_keys := map k_key keys; ci_key_values := map k_value keys; ci_predicate := predicate_sql;
        ci_tag := digest_tag (CanonIndex (idx_unique ix) using_ (map k_tree keys) predicate types);
        ci_legacy_tag := index_spec_hash ix; ci_declared := ix;
        ci_columns := omap k_column keys |}.

(** The loop over the indexes: each name is new. *)
Fixpoint compile_indexes (entity : EntityContract) (fields : Fields) (seen : list string) (i : nat)
    (l : list IndexContract) : result failure (list CompiledIndex) :=
  match l with
  | [] => Ok []
  | ix :: l =>
      let? compiled := failure_map (λ e, "indexes[" +:+ default (pretty i) (idx_name ix) +:+ "] " +:+ e)
        (compile_index entity ix fields) in
      if decide (ci_name compiled ∈ seen)
      then Err (Refused ("duplicate index name '" +:+ ci_name compiled +:+ "'"))
      else let? rest := compile_indexes entity fields (ci_name compiled :: seen) (S i) l in
           Ok (compiled :: rest)
  end.

Definition compile_entity (entity : EntityContract) : result failure EntityRules :=
  let? fields := rule_field_types entity in
  if MAX_CHECKS <? length (entity_checks entity)
  then Err (Refused ("entities are limited to " +:+ pretty MAX_CHECKS +:+ " checks"))
  else if MAX_INDEXES <? length (entity_indexes entity)
  then Err (Refused ("entities are limited to " +:+ pretty MAX_INDEXES +:+ " indexes"))
  else
  let? of_fields := try_map (compile_field entity fields) (entity_fields entity) in
  let? of_checks := try_map (compile_check fields) (imap pair (entity_checks entity)) in
  let checks := concat of_fields ++ of_checks in
  match first_duplicate [] (map cc_name checks) with
  | Some name => Err (Refused ("duplicate check name '" +:+ name +:+ "'"))
  | None =>
      let? indexes := compile_indexes entity fields [] 0 (entity_indexes entity) in
      Ok {| er_checks := checks; er_indexes := indexes |}
  end.

(** ** What compiling guarantees *)

Lemma holds_failure_map {A} f (r : result failure A) Q : holds r Q → holds (failure_map f r) Q.
Proof. by destruct r as [|[]]. Qed.
Lemma holds_refused {E A} (f : E → string) (r : result E A) (Q : A → Prop) :
  (∀ a, r = Ok a → Q a) → holds (map_err (λ e, Refused (f e)) r) Q.
Proof. destruct r; simpl; auto. Qed.
Lemma holds_or_panic {A} (o : option A) (Q : A → Prop) a : o = Some a → Q a → holds (or_panic o) Q.
Proof. by intros ->. Qed.
Lemma holds_try_fold {A S} (f : S → A → result failure S) (I : list A → S → Prop) l s :
  I [] s → (∀ done x s, x ∈ l → I done s → holds (f s x) (I (done ++ [x]))) →
  holds (try_fold f s l) (I l).
Proof.
  intros H0 Hstep. assert (∀ l' don s, don ++ l' = l → I don s → holds (try_fold f s l') (I l)) as H;
    [|by apply (H l [])].
  induction l' as [|x l' IH]; intros don s' Heq HI; simpl.
  - rewrite app_nil_r in Heq. by subst.
  - apply holds_bind. eapply holds_mono; [apply Hstep; [|done]|].
    + rewrite <-Heq. set_solver.
    + intros s'' HI'. apply (IH (don ++ [x])); [|done]. by rewrite <-Heq, <-app_assoc.
Qed.

Lemma sensitive_scope_single e fields :
  sensitive_scope e fields false = Ok tt →
  ∀ x y, mentions e x → is_sensitive fields x = true → mentions e y → y = x.
Proof.
  unfold sensitive_scope. intros H x y Hx Hs Hy.
  assert (∀ z, mentions e z → z ∈ expr_fields e []) as Hin.
  { intros z Hz. apply elem_of_expr_fields. by right. }
  destruct (List.find _ _) as [name|] eqn:Hf.
  - destruct (Nat.ltb_spec 1 (length (expr_fields e []))) as [|Hlen]; [done|].
    pose proof (Hin x Hx) as Hx'. pose proof (Hin y Hy) as Hy'.
    destruct (expr_fields e []) as [|z [|? ?]]; simpl in Hlen; [set_solver|set_solver|lia].
  - rewrite (find_none _ _ Hf x) in Hs; [done|]. by apply list_elem_of_In, Hin.
Qed.

Lemma sensitive_scope_none e fields :
  sensitive_scope e fields true = Ok tt → ∀ x, mentions e x → is_sensitive fields x = false.
Proof.
  unfold sensitive_scope. intros H x Hx. destruct (List.find _ _) as [name|] eqn:Hf; [done|].
  apply (find_none _ _ Hf x). apply list_elem_of_In, elem_of_expr_fields. by right.
Qed.

Lemma holds_tag kind e fields (Q : string → Prop) :
  (∀ x, mentions e x → is_Some (fields !! x)) → (∀ s, Q s) → holds (tag kind e fields) Q.
Proof.
  intros Hd HQ. apply holds_bind. eapply holds_mono; [apply (holds_try_map _ (λ _ _, True))|].
  - intros x Hx. rewrite elem_of_sort_strings in Hx.
    apply elem_of_expr_fields in Hx as [Hx|Hx]; [by apply elem_of_nil in Hx|].
    apply holds_bind. destruct (Hd x Hx) as [f Hf]. by eapply holds_or_panic.
  - intros; apply HQ.
Qed.

Lemma holds_emit e (Q : string → Prop) : emit_ok e = true → (∀ s, sql e = Some s → Q s) → holds (emit e) Q.
Proof. intros (s & Hs & _)%sql_emits HQ. eapply holds_or_panic; eauto. Qed.

Lemma holds_parse_with f src (Q : Expr → Prop) :
  (∀ e, parse src = Some (Ok e) → expr_ok e → Q e) → holds (parse_with f src) Q.
Proof.
  intros HQ. unfold parse_with. destruct (parse_cases src) as [[e He]|[e He]]; rewrite He; [|done].
  apply HQ; [done|]. by destruct (parse_ok_inv _ _ He) as (_ & _ & _ & _ & _ & _ & ?).
Qed.

(** The tree behind a compiled check: it emits, reads declared fields, and reads
    nothing else once it reads a sensitive one. *)
Definition check_tree_ok (fields : Fields) (e : Expr) : Prop :=
  emit_ok e = true
  ∧ (∀ x, mentions e x → is_Some (fields !! x))
  ∧ (∀ x y, mentions e x → is_sensitive fields x = true → mentions e y → y = x).

(** A check is a boolean of the rule language, or the test of an enum, which is the one
    tree that is not type-checked: its values are text whatever the field's type. *)
Definition enum_tree (e : Expr) (field : string) : Prop :=
  ∃ values, e = EArrayWithin field values ∨ e = EIn (EField field) (map EText values) false.
Definition check_ok (fields : Fields) (c : CompiledCheck) : Prop :=
  String.length (cc_name c) ≤ MAX_IDENT_BYTES
  ∧ ∃ e, check_tree_ok fields e ∧ sql e = Some (cc_sql c)
      ∧ (has_ty date_ok rfc3339 uuid_parse regex_parse fields e TyBool ∨ ∃ field, cc_origin c = OEnum field ∧ enum_tree e field).

Definition names_ascii (entity : EntityContract) : Prop :=
  str_forall is_ascii (entity_name entity) = true
  ∧ Forall (λ f, str_forall is_ascii (fname f) = true) (entity_fields entity).

Hypothesis Hdigest4 : ∀ s, String.length (digest4 s) = 8.

Lemma holds_fit_ident name (Q : string → Prop) :
  str_forall is_ascii name = true → (∀ n, String.length n ≤ MAX_IDENT_BYTES → Q n) →
  holds (or_panic (fit_ident digest4 name)) Q.
Proof.
  intros Ha HQ. destruct (fit_ident_fits digest4 name Hdigest4 Ha) as (out & Ho & Hlen & _).
  eapply holds_or_panic; eauto.
Qed.

Lemma holds_validate_name v label (Q : unit → Prop) :
  (String.length v ≤ MAX_IDENT_BYTES → Q tt) → holds (validate_name v label) Q.
Proof.
  intros HQ. apply holds_refused. intros [] H. apply HQ. unfold validate_new_ident in H. inv_ok.
  by destruct (Nat.ltb_spec MAX_IDENT_BYTES (String.length v)).
Qed.

Lemma rule_field_types_spec entity :
  holds (rule_field_types entity) (λ fields, fields_ok fields
    ∧ ∀ f, f ∈ entity_fields entity → is_Some (fields !! fname f)).
Proof.
  apply holds_bind. eapply holds_mono; [apply (holds_try_fold _
    (λ don fields, fields_ok fields ∧ ∀ f, f ∈ don → is_Some (fields !! fname f)))|].
  - split; [apply map_Forall_empty|set_solver].
  - intros don f fields _ [Hok Hin]. apply holds_bind, (holds_refused id). intros t _. split.
    + apply map_Forall_insert_2; [by exists t|done].
    + intros g [Hg| ->%list_elem_of_singleton]%elem_of_app; apply lookup_insert_is_Some'; auto.
  - intros fields [Hok Hin].
    assert (∀ l (fs : Fields), fields_ok fs → (∀ f, f ∈ entity_fields entity → is_Some (fs !! fname f)) →
      let fs' := fold_left (λ fields nt, match fields !! nt.1 with Some _ => fields
        | None => <[nt.1 := rule_field nt.2 false]> fields end) l fs in
      fields_ok fs' ∧ ∀ f, f ∈ entity_fields entity → is_Some (fs' !! fname f)) as H; [|by apply H].
    induction l as [|[n t] l IH]; intros fs Hfs Hfin; simpl; [done|]. apply IH.
    + destruct (fs !! n); [done|]. apply map_Forall_insert_2; [by exists t|done].
    + intros f Hf. destruct (fs !! n); [by apply Hfin|]. apply lookup_insert_is_Some'; auto.
Qed.

Lemma has_ty_check_tree fields e t :
  has_ty date_ok rfc3339 uuid_parse regex_parse fields e t →
  (∀ x y, mentions e x → is_sensitive fields x = true → mentions e y → y = x) → check_tree_ok fields e.
Proof.
  intros Ht Hs. split_and!; [by eapply has_ty_emit_ok| |done]. intros x. by eapply has_ty_declared.
Qed.

Lemma holds_compile_check fields ic :
  fields_ok fields → holds (compile_check fields ic) (check_ok fields).
Proof.
  intros Hf. destruct ic as [i check]. apply holds_bind, holds_ok_or. intros name _.
  apply holds_bind, holds_validate_name. intros Hlen.
  apply holds_bind, holds_parse_with. intros e _ Hok.
  apply holds_bind, holds_failure_map.
  eapply holds_mono; [apply check_boolean_spec; [done|by apply expr_ok_source]|]. intros e' [Ht _ _].
  apply holds_bind, holds_failure_map.
  destruct (sensitive_scope e' fields false) as [[]|err] eqn:Hs;
    [|unfold sensitive_scope in Hs; by repeat case_match; simplify_eq].
  pose proof (has_ty_check_tree _ _ _ Ht (sensitive_scope_single _ _ Hs)) as He. simpl.
  destruct He as (He1 & He2 & He3).
  apply holds_bind, holds_tag; [done|]. intros tg. apply holds_bind, holds_emit; [done|]. intros s Hsql.
  split; [done|]. exists e'. split_and!; [done|done|by left].
Qed.

Lemma holds_compile_shorthand entity field fields s kinds :
  names_ascii entity → str_forall is_ascii (fname field) = true →
  shorthand_ok date_ok rfc3339 uuid_parse regex_parse fields field kinds s →
  Forall (λ k, str_forall is_ascii k = true) kinds →
  holds (compile_shorthand entity field fields s) (check_ok fields).
Proof.
  intros [Ha _] Hn (Hk & Ht & Hm) Hks. rewrite Forall_forall in Hks.
  assert (check_tree_ok fields (sh_tree s)) as (He1 & He2 & He3).
  { eapply has_ty_check_tree; [done|]. intros x y Hx _ Hy. by rewrite (Hm x Hx), (Hm y Hy). }
  apply holds_bind, holds_fit_ident.
  { rewrite !str_forall_app, Ha, Hn, (Hks _ Hk). done. }
  intros name Hlen. apply holds_bind, holds_emit; [done|]. intros q Hq.
  apply holds_bind, holds_tag; [done|]. intros tg. split; [done|]. exists (sh_tree s). split_and!; [done|done|by left].
Qed.

Lemma mentions_texts values x : ¬ foldr (λ a acc, mentions a x ∨ acc) False (map EText values).
Proof. induction values; simpl; tauto. Qed.

Lemma emit_ok_texts values : forallb emit_ok (map EText values) = true.
Proof. by induction values. Qed.

Lemma holds_enum_check entity field fields :
  names_ascii entity → str_forall is_ascii (fname field) = true → is_Some (fields !! fname field) →
  holds (enum_check entity field fields) (λ o, ∀ c, o = Some c → check_ok fields c).
Proof.
  intros [Ha _] Hn Hd. unfold enum_check. destruct (enum_values field) as [[|v vs]|]; try done.
  apply holds_bind, (holds_refused id). intros t _.
  match goal with |- context [emit ?e] => set (e0 := e) end.
  assert (enum_tree e0 (fname field)) as Het by (exists (v :: vs); subst e0; destruct t; auto).
  assert (emit_ok e0 = true ∧ ∀ x, mentions e0 x → x = fname field) as [He Hm].
  { subst e0. clear Het. destruct t; simpl; try (by auto); (split; [apply emit_ok_texts|]);
      intros x [?|[[]|Hx%mentions_texts]]; done. }
  clearbody e0. assert (check_tree_ok fields e0) as (He1 & He2 & He3).
  { split_and!; [done| |]; intros x; [by intros ->%Hm|]. intros y Hx _ Hy. by rewrite (Hm x Hx), (Hm y Hy). }
  apply holds_bind, holds_fit_ident; [by rewrite !str_forall_app, Ha, Hn|]. intros name Hlen.
  apply holds_bind, holds_emit; [done|]. intros q Hq. apply holds_bind, holds_tag; [done|]. intros tg.
  intros c [= <-]. split; [done|]. exists e0. split_and!; [done|done|right; by exists (fname field)].
Qed.

Lemma holds_compile_field entity fields field :
  fields_ok fields → names_ascii entity → str_forall is_ascii (fname field) = true →
  is_Some (fields !! fname field) →
  holds (compile_field entity fields field) (Forall (check_ok fields)).
Proof.
  intros Hf Ha Hn [f Hfld]. apply holds_bind.
  eapply holds_mono; [apply holds_enum_check; [done|done|by exists f]|]. intros enum Henum.
  apply holds_bind. eapply holds_or_panic; [done|].
  apply holds_bind. eapply holds_mono; [by apply compile_spec|]. intros sh [_ Hsh].
  apply holds_bind. eapply holds_mono; [apply (holds_try_map _ (λ _ c, check_ok fields c))|].
  - intros s Hs. rewrite Forall_forall in Hsh. eapply holds_compile_shorthand; [done|done|by apply Hsh|].
    by repeat constructor.
  - intros cs Hcs. apply Forall_app. split.
    + destruct enum; constructor; auto.
    + clear -Hcs. induction Hcs; constructor; auto.
Qed.

(** The tree behind an index predicate or key expression reads no sensitive field. *)
Definition index_tree_ok (fields : Fields) (e : Expr) : Prop :=
  emit_ok e = true ∧ ∀ x, mentions e x → is_Some (fields !! x) ∧ is_sensitive fields x = false.

Definition key_ok (fields : Fields) (value : string) : Prop :=
  (∃ name, value = quote_ident name ∧ (is_system_field name = true ∨ is_Some (fields !! name)))
  ∨ ∃ e s, value = "(" +:+ s +:+ ")" ∧ sql e = Some s ∧ index_tree_ok fields e.

(** A key is its value with an order and a place for nulls. *)
Definition key_text (key value : string) : Prop :=
  ∃ order place, order ∈ ["" ; " ASC"; " DESC"] ∧ place ∈ [""; " NULLS FIRST"; " NULLS LAST"] ∧ key = value +:+ order +:+ place.
Definition index_ok (fields : Fields) (ix : CompiledIndex) : Prop :=
  Forall (key_ok fields) (ci_key_values ix) ∧ Forall2 key_text (ci_keys ix) (ci_key_values ix)
  ∧ (∀ name, idx_name (ci_declared ix) = Some name → ci_name ix = name ∧ String.length name ≤ MAX_IDENT_BYTES)
  ∧ (∀ p, ci_predicate ix = Some p → ∃ e, sql e = Some p ∧ index_tree_ok fields e)
  ∧ (ci_trigram ix = true → ci_unique ix = false).

Lemma has_ty_index_tree fields e t :
  has_ty date_ok rfc3339 uuid_parse regex_parse fields e t →
  sensitive_scope e fields true = Ok tt → index_tree_ok fields e.
Proof.
  intros Ht Hs. split; [by eapply has_ty_emit_ok|]. intros x Hx.
  split; [by eapply has_ty_declared|by eapply sensitive_scope_none].
Qed.

Lemma holds_sensitive_scope e fields index (Q : unit → Prop) :
  (sensitive_scope e fields index = Ok tt → Q tt) → holds (sensitive_scope e fields index) Q.
Proof.
  intros HQ. destruct (sensitive_scope e fields index) as [[]|err] eqn:Hs; simpl; [auto|].
  unfold sensitive_scope in Hs. by repeat case_match; simplify_eq.
Qed.

Lemma holds_column_value name fields (Q : string → Prop) :
  (key_ok fields (quote_ident name) → Q (quote_ident name)) → holds (column_value name fields) Q.
Proof.
  intros HQ. unfold column_value. destruct (_ && _) eqn:Hb; [done|]. apply HQ. left. exists name.
  split; [done|]. apply andb_false_iff in Hb as [?|Hb]; bool_hyps; auto.
Qed.

Lemma holds_compile_key fields trigram column :
  fields_ok fields → holds (compile_key fields trigram column) (λ k, key_ok fields (k_value k) ∧ key_text (k_key k) (k_value k)).
Proof.
  intros Hf. apply holds_bind. apply (holds_mono _ (λ r, key_ok fields r.1.1.1)).
  - destruct column as [name|spec].
    { apply holds_bind, holds_column_value. done. }
    destruct (is_some (ix_ops spec)); [done|]. apply holds_bind.
    apply (holds_mono _ (λ r, key_ok fields r.1)); [|by intros [v t]].
    destruct (ix_column spec) as [name|], (ix_expr spec) as [expr|]; try done.
    + apply holds_bind, holds_column_value. done.
    + apply holds_bind, holds_parse_with. intros e _ Hok. apply holds_bind, holds_failure_map.
      eapply holds_mono; [apply check_scalar_spec; [done|by apply expr_ok_source]|].
      intros e' [[t [Ht _ _]] _]. apply holds_bind, holds_sensitive_scope. intros Hs.
      apply holds_bind, holds_emit; [by eapply has_ty_emit_ok|]. intros s Hsql. right.
      exists e', s. split_and!; [done|done|]. by eapply has_ty_index_tree.
  - intros [[[value tree] sort] nulls] Hk. simpl in Hk. apply holds_bind. apply (holds_mono _ (λ _, True)).
    { destruct trigram; [|done]. apply holds_bind, holds_ok_or. intros name _.
      apply holds_bind, holds_expect. done. }
    intros plain _. apply holds_bind. apply (holds_mono _ (λ o, o ∈ ["" ; " ASC"; " DESC"])); [repeat case_match; simpl; try done; set_solver|].
    intros order Ho. apply holds_bind. apply (holds_mono _ (λ p, p ∈ [""; " NULLS FIRST"; " NULLS LAST"])); [repeat case_match; simpl; try done; set_solver|].
    intros place Hp. split; [done|]. by exists order, place.
Qed.

Lemma holds_compile_index entity ix fields :
  fields_ok fields → holds (compile_index entity ix fields) (index_ok fields).
Proof.
  intros Hf. unfold compile_index. case_decide; [done|]. destruct (negb _); [done|].
  set (using_ := to_ascii_lowercase _). apply holds_bind. apply (holds_mono _ (λ _, True)).
  { unfold index_method. by repeat case_decide. }
  intros method _. destruct (_ && _) eqn:Htri; [done|]. apply holds_bind.
  eapply holds_mono; [apply (holds_try_map _ (λ _ k, key_ok fields (k_value k) ∧ key_text (k_key k) (k_value k))); intros; by apply holds_compile_key|].
  intros keys Hkeys. apply holds_bind.
  apply (holds_mono _ (λ o, ∀ p, o = Some p → index_tree_ok fields p)).
  { destruct (idx_where ix) as [src|]; [|done]. apply holds_bind, holds_parse_with. intros e _ Hok.
    apply holds_bind, holds_failure_map.
    eapply holds_mono; [apply check_boolean_spec; [done|by apply expr_ok_source]|]. intros e' [Ht _ _].
    apply holds_bind, holds_sensitive_scope. intros Hs p [= <-]. by eapply has_ty_index_tree. }
  intros predicate Hp. apply holds_bind. apply (holds_mono _ (λ _, ∀ name, idx_name ix = Some name → String.length name ≤ MAX_IDENT_BYTES)).
  { destruct (idx_name ix); [|done]. apply holds_validate_name. by intros ? name [= <-]. }
  intros _ Hname. apply holds_bind.
  apply (holds_mono _ (λ o, ∀ q, o = Some q → ∃ e, sql e = Some q ∧ index_tree_ok fields e)).
  { destruct predicate as [p|]; [|done]. specialize (Hp p eq_refl). destruct Hp as [He ?].
    apply holds_bind, holds_emit; [done|]. intros s Hs q [= <-]. by exists p. }
  intros psql Hpsql. split_and!; simpl; [| | |done|].
  - clear -Hkeys. induction Hkeys; destruct_and?; constructor; auto.
  - clear -Hkeys. induction Hkeys; destruct_and?; constructor; auto.
  - intros name Hn. split; [unfold resolve_index_name; by rewrite Hn|by apply Hname].
  - intros Ht. rewrite Ht in Htri. by destruct (idx_unique ix).
Qed.

Lemma holds_compile_indexes entity fields seen i l :
  fields_ok fields →
  holds (compile_indexes entity fields seen i l) (λ ixs,
    Forall (index_ok fields) ixs ∧ NoDup (map ci_name ixs) ∧ ∀ n, n ∈ map ci_name ixs → n ∉ seen).
Proof.
  intros Hf. revert seen i. induction l as [|ix l IH]; intros seen i; simpl.
  { split_and!; [constructor|constructor|set_solver]. }
  apply holds_bind, holds_failure_map. eapply holds_mono; [by apply holds_compile_index|]. intros c Hc.
  case_decide as Hin; [done|]. apply holds_bind. eapply holds_mono; [apply IH|].
  intros rest (HF & Hnd & Hseen). simpl. split_and!.
  - by constructor.
  - constructor; [|done]. intros Hd%Hseen. set_solver.
  - intros n [->|Hn%Hseen]%elem_of_cons; [done|set_solver].
Qed.

Lemma first_duplicate_None seen l :
  first_duplicate seen l = None → NoDup l ∧ ∀ n, n ∈ l → n ∉ seen.
Proof.
  clear Hdigest4.
  revert seen. induction l as [|n l IH]; intros seen; simpl; [split; [constructor|set_solver]|].
  case_decide; [done|]. intros [Hnd Hseen]%IH. split.
  - constructor; [|done]. intros Hn%Hseen. set_solver.
  - intros m [->|Hm%Hseen]%elem_of_cons; [done|set_solver].
Qed.

Record entity_rules_ok (fields : Fields) (r : EntityRules) : Prop := {
  er_check_names : NoDup (map cc_name (er_checks r));
  er_index_names : NoDup (map ci_name (er_indexes r));
  er_checks_ok : Forall (check_ok fields) (er_checks r);
  er_indexes_ok : Forall (index_ok fields) (er_indexes r) }.

Lemma compile_entity_spec entity :
  names_ascii entity →
  holds (compile_entity entity) (λ r, ∃ fields,
    rule_field_types entity = Ok fields ∧ fields_ok fields ∧ entity_rules_ok fields r).
Proof.
  intros Ha. unfold compile_entity. pose proof (rule_field_types_spec entity) as Hft.
  destruct (rule_field_types entity) as [fields|[]]; simpl in *; try done. destruct Hft as [Hf Hdecl].
  destruct (MAX_CHECKS <? _); [done|]. destruct (MAX_INDEXES <? _); [done|].
  apply holds_bind. eapply holds_mono; [apply (holds_try_map _ (λ _ cs, Forall (check_ok fields) cs))|].
  { intros f Hin. destruct Ha as [Ha1 Ha2]. rewrite Forall_forall in Ha2.
    apply holds_compile_field; [done|split; [done|by rewrite Forall_forall]|by apply Ha2|by apply Hdecl]. }
  intros of_fields Hoff. apply holds_bind.
  eapply holds_mono; [apply (holds_try_map _ (λ _ c, check_ok fields c)); intros; by apply holds_compile_check|].
  intros of_checks Hofc. destruct (first_duplicate _ _) eqn:Hd; [done|].
  apply first_duplicate_None in Hd as [Hnd _]. apply holds_bind.
  eapply holds_mono; [by apply holds_compile_indexes|]. intros ixs (Hix & Hixn & _).
  exists fields. split_and!; [done|done|]. constructor; simpl; try done.
  apply Forall_app. split.
  - clear -Hoff. induction Hoff; simpl; [constructor|]. by apply Forall_app.
  - clear -Hofc. induction Hofc; constructor; auto.
Qed.

(** The names of what compiles are unique, whatever the entity. *)
Lemma compile_indexes_names entity fields seen i l ixs :
  compile_indexes entity fields seen i l = Ok ixs →
  NoDup (map ci_name ixs) ∧ ∀ n, n ∈ map ci_name ixs → n ∉ seen.
Proof.
  clear Hdigest4.
  revert seen i ixs. induction l as [|ix l IH]; intros seen i ixs; simpl.
  { intros [= <-]. split; [constructor|set_solver]. }
  intros H. inv_ok. case_decide as Hin; [done|]. inv_ok. destruct (IH _ _ _ Hok0) as [Hnd Hseen].
  subst ixs. split; simpl.
  - constructor; [|done]. intros Hd%Hseen. set_solver.
  - intros n [->|Hn%Hseen]%elem_of_cons; [done|set_solver].
Qed.

Lemma compile_entity_names entity r :
  compile_entity entity = Ok r → NoDup (map cc_name (er_checks r)) ∧ NoDup (map ci_name (er_indexes r)).
Proof.
  clear Hdigest4.
  unfold compile_entity. intros H. inv_ok. destruct (MAX_CHECKS <? _); [done|].
  destruct (MAX_INDEXES <? _); [done|]. inv_ok. destruct (first_duplicate _ _) eqn:Hd; [done|].
  apply first_duplicate_None in Hd as [Hnd _]. inv_ok. subst r. split; [done|].
  by eapply compile_indexes_names.
Qed.
End Compile.

(** ** The promises of [compile_entity] *)

(** [C13] Compiling an entity with ASCII names never panics: it refuses with a
    message, or its rules are sound.  Check names are unique and fit PostgreSQL's limit,
    index names are unique, and those that are declared fit it.  The SQL of a check is the
    emission of a tree over declared fields that reads nothing beside a sensitive field: a
    boolean of the rule language or the test of an enum, whose values are not typed.  Index
    predicates and key expressions read no sensitive field, and a key is a column or such an
    expression with nothing but an order and a place for nulls. *)
Theorem compile_entity_sound bigdecimal date_ok rfc3339 uuid_parse regex_parse digest4 digest
    debug_list debug_option entity :
  (∀ s, String.length (digest4 s) = 8) → names_ascii entity →
  match compile_entity bigdecimal date_ok rfc3339 uuid_parse regex_parse digest4 digest
          debug_list debug_option entity with
  | Ok r => ∃ fields, rule_field_types bigdecimal entity = Ok fields ∧ entity_rules_ok date_ok rfc3339 uuid_parse regex_parse fields r
  | Err (Refused _) => True
  | Err _ => False
  end.
Proof.
  intros Hd Ha. pose proof (compile_entity_spec bigdecimal date_ok rfc3339 uuid_parse regex_parse digest4
    digest debug_list debug_option Hd entity Ha) as H.
  destruct (compile_entity _ _ _ _ _ _ _ _ _ _) as [r|[]]; simpl in *; try done.
  destruct H as (fields & ? & _ & ?). eauto.
Qed.

Definition demo_rules_entity : EntityContract :=
  {| entity_name := "person";
     entity_fields :=
       [ {| fname := "name"; field_type := "text"; precision := None; scale := None; required := true;
            default_value := None; enum_values := Some ["ada"; "bob's"]; references := None; is_primary_key := None;
            sensitive := true; owner := false;
            rules := {| minimum := None; maximum := None; exclusive_minimum := None; exclusive_maximum := None;
                        integer := false; max_scale := None; min_length := Some 1%N; max_length := Some 40%N;
                        not_blank := true; format := None; pattern := None; json_type := None; max_items := None |};
            on_delete := None; field_unknown := [] |};
         demo_field "age" "number" false ];
     entity_indexes :=
       [ {| idx_name := None; idx_columns := [IxName "age"]; idx_unique := false; idx_using := None;
            idx_where := Some "age > 17"; idx_with := []; idx_unknown := [] |} ];
     entity_checks := [ {| chk_name := Some "adult"; chk_expr := "age >= 18"; chk_unknown := [] |} ];
     share := None; derived_from := None; identity_kind := None; identity_key := None; entity_unknown := [] |}.

Definition demo_compile : EntityContract → result failure EntityRules :=
  compile_entity (λ _, None) demo_date demo_id demo_id demo_regex_parse (λ _, "deadbeef") (λ _, "0")
    (join ",") (default "").

Lemma compile_entity_sound_witness :
  ∃ r, demo_compile demo_rules_entity = Ok r
    ∧ map cc_name (er_checks r)
      = ["chk_person_name"; "chk_person_name_minlen"; "chk_person_name_maxlen"; "chk_person_name_notblank"; "adult"]
    ∧ ∃ fields, rule_field_types (λ _, None) demo_rules_entity = Ok fields
        ∧ entity_rules_ok demo_date demo_id demo_id demo_regex_parse fields r.
Proof.
  eexists. split; [vm_compute; reflexivity|]. split; [reflexivity|].
  eapply (compile_entity_sound (λ _, None) demo_date demo_id demo_id demo_regex_parse
    (λ _, "deadbeef") (λ _, "0") (join ",") (default "") demo_rules_entity).
  - reflexivity.
  - split; [reflexivity|]. repeat constructor.
Defined.

(** ** Two limits of the compiled names and tags *)

Definition expression_index (expr : string) : IndexContract :=
  {| idx_name := None;
     idx_columns := [IxSpec {| ix_column := None; ix_expr := Some expr; ix_sort := None; ix_nulls := None; ix_ops := None; ix_unknown := [] |}];
     idx_unique := false; idx_using := None; idx_where := None; idx_with := []; idx_unknown := [] |}.

Definition text_field (pg : string) : Fields :=
  <["name" := {| rf_ty := TyText; rf_sensitive := false; rf_pg := pg |}]> ∅.

(** The tag of an index does not identify the types of the fields its key
    expressions read: it is the same for two types of the column. *)
Lemma index_tag_ignores_expression_types digest :
  ∃ ix1 ix2,
    compile_index demo_date demo_id demo_id demo_regex_parse digest (join ",") (default "")
      demo_rules_entity (expression_index "lower(name)") (text_field "TEXT") = Ok ix1
    ∧ compile_index demo_date demo_id demo_id demo_regex_parse digest (join ",") (default "")
      demo_rules_entity (expression_index "lower(name)") (text_field "VARCHAR(10)") = Ok ix2
    ∧ ci_tag ix1 = ci_tag ix2.
Proof. eexists _, _. split_and!; [vm_compute; reflexivity|vm_compute; reflexivity|reflexivity]. Qed.

(** Two unnamed indexes on different expressions get the same derived name. *)
Lemma unnamed_expression_indexes_collide debug_list debug_option entity :
  resolve_index_name debug_list debug_option entity (expression_index "lower(name)")
  = resolve_index_name debug_list debug_option entity (expression_index "upper(name)").
Proof. reflexivity. Qed.
