(* ===== verification/RuleReconcile.v ===== *)
(** * Reconciling compiled rules with the database (core/src/rules/reconcile.rs)

    The catalog is modelled as the objects Core reads and writes: check
    constraints of a table, indexes of the schema, extensions.  Every statement
    may fail: the database's reply to each step is an arbitrary function of the
    step number, so a theorem about all replies covers violated rows, lock
    timeouts, lost connections and a process that dies half way.  A transaction
    takes effect at its commit or not at all; every catalog that becomes visible
    is recorded, so that what holds "at every moment" can be stated. *)

From stdpp Require Import base numbers pretty gmap strings sets list.
From S2P Require Import Prelude Str Ident Json DataTypes RuleAst RuleLexer RuleParser RuleGrammar.
From S2P Require Import RulePattern RuleTyping RuleEmit RuleShorthand RuleCompile.

Definition CHECK_TAG : string := "rootcx:chk:".
Definition INDEX_TAG : string := "rootcx:idx:".
Definition PENDING : string := "pending-".
Definition NEXT_PREFIX : string := "rootcx_next_".
Definition SESSION : list string :=
  [ "SET search_path = pg_catalog, pg_temp"; "SET standard_conforming_strings = on";
    "SET lock_timeout = '30s'"; "SET statement_timeout = '15min'" ].

Inductive Plan := Keep | Adopt | Create | Replace.
#[export] Instance Plan_eq_dec : EqDecision Plan.
Proof. solve_decision. Defined.

Definition verb (p : Plan) : option string :=
  match p with Keep => None | Adopt => Some "adopt" | Create => Some "add" | Replace => Some "replace" end.

(** ** The catalog *)

(** A check constraint belongs to a table, an index name to the schema. *)
Inductive Key := KCheck (table name : string) | KIndex (name : string).
#[export] Instance Key_eq_dec : EqDecision Key.
Proof. solve_decision. Defined.
#[export] Instance Key_countable : Countable Key.
Proof.
  refine (inj_countable' (λ k, match k with KCheck t n => inl (t, n) | KIndex n => inr n end)
    (λ s, match s with inl (t, n) => KCheck t n | inr n => KIndex n end) _). by intros [].
Defined.

Record Obj := {
  o_table : string;
  o_def : string;                          (* the condition of a check, the definition of an index *)
  o_comment : option string;
  o_valid : bool }.

Record Catalog := {
  objs : gmap Key Obj;
  extensions : gmap string (string * bool) (* schema, relocatable *) }.

Inductive Stmt :=
| SSession (setting : string)
| SAddCheck (table name sql : string)                    (* ... NOT VALID *)
| SValidate (table name : string)
| SDropCheck (table name : string) (if_exists : bool)
| SRenameCheck (table from to : string)
| SCommentCheck (table name text : string)
| SCreateIndex (table name def : string) (concurrently : bool) (text : string)
| SDropIndex (name : string) (if_exists : bool)
| SRenameIndex (from to : string)
| SCommentIndex (name text : string)
| SCreateSchema (name : string)
| SCreateExtension (name schema : string)
| SMoveExtension (name schema : string).

Definition set_objs (f : gmap Key Obj → gmap Key Obj) (c : Catalog) : Catalog :=
  {| objs := f (objs c); extensions := extensions c |}.
Definition set_exts (f : gmap string (string * bool) → gmap string (string * bool)) (c : Catalog) : Catalog :=
  {| objs := objs c; extensions := f (extensions c) |}.

Definition add_obj (k : Key) (o : Obj) (c : Catalog) : option Catalog :=
  match objs c !! k with Some _ => None | None => Some (set_objs <[k := o]> c) end.
Definition drop_obj (k : Key) (if_exists : bool) (c : Catalog) : option Catalog :=
  match objs c !! k with
  | Some _ => Some (set_objs (delete k) c)
  | None => if if_exists then Some c else None
  end.
Definition rename_obj (from to : Key) (c : Catalog) : option Catalog :=
  match objs c !! from, objs c !! to with
  | Some o, None => Some (set_objs (λ m, <[to := o]> (delete from m)) c)
  | _, _ => None
  end.
Definition update_obj (k : Key) (f : Obj → Obj) (c : Catalog) : option Catalog :=
  match objs c !! k with Some o => Some (set_objs <[k := f o]> c) | None => None end.

Definition with_comment (text : string) (o : Obj) : Obj :=
  {| o_table := o_table o; o_def := o_def o; o_comment := Some text; o_valid := o_valid o |}.
Definition validated (o : Obj) : Obj :=
  {| o_table := o_table o; o_def := o_def o; o_comment := o_comment o; o_valid := true |}.
Definition new_obj (table def : string) (valid : bool) : Obj :=
  {| o_table := table; o_def := def; o_comment := None; o_valid := valid |}.

(** The text sent to the database, for the tables and indexes of [schema]. *)
Definition stmt_sql (schema : string) (s : Stmt) : string :=
  let fq t := quote_ident schema +:+ "." +:+ quote_ident t in
  match s with
  | SSession setting => setting
  | SAddCheck t n sql =>
      "ALTER TABLE " +:+ fq t +:+ " ADD CONSTRAINT " +:+ quote_ident n +:+ " CHECK (" +:+ sql +:+ ") NOT VALID"
  | SValidate t n => "ALTER TABLE " +:+ fq t +:+ " VALIDATE CONSTRAINT " +:+ quote_ident n
  | SDropCheck t n ie =>
      "ALTER TABLE " +:+ fq t +:+ " DROP CONSTRAINT " +:+ (if ie then "IF EXISTS " else "") +:+ quote_ident n
  | SRenameCheck t a b =>
      "ALTER TABLE " +:+ fq t +:+ " RENAME CONSTRAINT " +:+ quote_ident a +:+ " TO " +:+ quote_ident b
  | SCommentCheck t n text =>
      "COMMENT ON CONSTRAINT " +:+ quote_ident n +:+ " ON " +:+ fq t +:+ " IS " +:+ quote_literal text
  | SCreateIndex _ _ _ _ text => text
  | SDropIndex n ie => "DROP INDEX " +:+ (if ie then "IF EXISTS " else "") +:+ fq n
  | SRenameIndex a b => "ALTER INDEX " +:+ fq a +:+ " RENAME TO " +:+ quote_ident b
  | SCommentIndex n text => "COMMENT ON INDEX " +:+ fq n +:+ " IS " +:+ quote_literal text
  | SCreateSchema n => "CREATE SCHEMA IF NOT EXISTS " +:+ quote_ident n
  | SCreateExtension n s => "CREATE EXTENSION IF NOT EXISTS " +:+ n +:+ " WITH SCHEMA " +:+ quote_ident s
  | SMoveExtension n s => "ALTER EXTENSION " +:+ quote_ident n +:+ " SET SCHEMA " +:+ quote_ident s
  end.

(** What a statement does to the catalog; [None] is an error of the database. *)
Definition exec (s : Stmt) (c : Catalog) : option Catalog :=
  match s with
  | SSession _ | SCreateSchema _ => Some c
  | SAddCheck t n sql => add_obj (KCheck t n) (new_obj t sql false) c
  | SValidate t n => update_obj (KCheck t n) validated c
  | SDropCheck t n ie => drop_obj (KCheck t n) ie c
  | SRenameCheck t a b => rename_obj (KCheck t a) (KCheck t b) c
  | SCommentCheck t n text => update_obj (KCheck t n) (with_comment text) c
  | SCreateIndex t n def _ _ => add_obj (KIndex n) (new_obj t def true) c
  | SDropIndex n ie => drop_obj (KIndex n) ie c
  | SRenameIndex a b => rename_obj (KIndex a) (KIndex b) c
  | SCommentIndex n text => update_obj (KIndex n) (with_comment text) c
  | SCreateExtension n schema =>
      Some (match extensions c !! n with Some _ => c | None => set_exts <[n := (schema, true)]> c end)
  | SMoveExtension n schema =>
      match extensions c !! n with Some (_, r) => Some (set_exts <[n := (schema, r)]> c) | None => None end
  end.

(** ** Running statements *)

(** An error with its SQLSTATE. *)
Record DbError := { db_code : option string; db_text : string }.

(** What [pg_index] and its joins tell of an index: access method, whether it has
    no predicate, its columns, operator classes and their schemas. *)
Record IndexShape := {
  sh_am : string; sh_no_predicate : bool; sh_keys : list string;
  sh_opclasses : list string; sh_namespaces : list string }.

(** The reply to a step: an error, or what a query answers with.  A failed step
    may have taken effect all the same when its acknowledgement was lost, and a
    failed concurrent index build may leave an invalid index behind. *)
Record Reply := {
  r_error : option DbError;
  r_count : N;
  r_ids : list string;
  r_flag : bool;
  r_shape : option IndexShape;
  r_lost : bool;
  r_residue : bool }.

Record Env := { cat : Catalog; tick : nat; seen : list Catalog }.

Definition M (A : Type) : Type := Env → result RuntimeError A * Env.

Definition mret {A} (a : A) : M A := λ env, (Ok a, env).
Definition mfail {A} (e : RuntimeError) : M A := λ env, (Err e, env).
Definition mbind_ {A B} (m : M A) (k : A → M B) : M B := λ env,
  match m env with (Ok a, env) => k a env | (Err e, env) => (Err e, env) end.

Declare Scope session_scope.
Notation "'let^' x := m 'in' k" := (mbind_ m (fun x => k))
  (at level 10, x name, m at level 100, k at level 200) : session_scope.
Notation "'do^' m 'in' k" := (mbind_ m (fun _ : unit => k))
  (at level 10, m at level 100, k at level 200) : session_scope.
Open Scope session_scope.

Fixpoint mfor {A} (l : list A) (f : A → M unit) : M unit :=
  match l with [] => mret tt | x :: l => do^ f x in mfor l f end.
Fixpoint mmap {A B} (l : list A) (f : A → M B) : M (list B) :=
  match l with
  | [] => mret []
  | x :: l => let^ y := f x in let^ ys := mmap l f in mret (y :: ys)
  end.

Definition schema_err (e : DbError) : RuntimeError := Schema (db_text e).
(** The error of a statement the catalog refuses: a duplicate or missing object. *)
Definition refused : DbError := {| db_code := Some "42P07"; db_text := "refused by the catalog" |}.

(** ** What reconciliation relies on of the compiler *)

Class RuleCompiler (compile : EntityContract → result string EntityRules) : Prop := {
  compile_check_names e rules : compile e = Ok rules → NoDup (map cc_name (er_checks rules));
  compile_index_names e rules : compile e = Ok rules → NoDup (map ci_name (er_indexes rules)) }.

Section Session.
Context (reply : nat → Reply).

Definition next_tick (env : Env) : Env := {| cat := cat env; tick := S (tick env); seen := seen env |}.
(** A catalog that became visible. *)
Definition commit_cat (c : Catalog) (env : Env) : Env :=
  {| cat := c; tick := tick env; seen := c :: seen env |}.

(** One statement outside a transaction, and its [sqlx::Error]. *)
Definition run (s : Stmt) : Env → result DbError unit * Env := λ env,
  let r := reply (tick env) in
  let env := next_tick env in
  match r_error r with
  | Some e =>
      let after := if r_lost r then exec s (cat env) else
        match s with
        | SCreateIndex t n def true _ =>
            if r_residue r then add_obj (KIndex n) (new_obj t def false) (cat env) else None
        | _ => None
        end in
      (Err e, match after with Some c => commit_cat c env | None => env end)
  | None =>
      match exec s (cat env) with
      | Some c => (Ok tt, commit_cat c env)
      | None => (Err refused, env)
      end
  end.

Definition run_stmt (s : Stmt) : M unit := λ env,
  let '(r, env) := run s env in (map_err schema_err r, env).

(** A read of the database. *)
Definition ask : M Reply := λ env,
  let r := reply (tick env) in
  match r_error r with
  | Some e => (Err (schema_err e), next_tick env)
  | None => (Ok r, next_tick env)
  end.
Definition read {A} (f : Catalog → A) : M A := let^ _ := ask in λ env, (Ok (f (cat env)), env).

(** The statements of a transaction on a private catalog. *)
Fixpoint in_tx (stmts : list Stmt) (c : Catalog) (env : Env) : result RuntimeError Catalog * Env :=
  match stmts with
  | [] => (Ok c, env)
  | s :: stmts =>
      let r := reply (tick env) in
      let env := next_tick env in
      match r_error r with
      | Some e => (Err (schema_err e), env)
      | None =>
          match exec s c with
          | Some c => in_tx stmts c env
          | None => (Err (schema_err refused), env)
          end
      end
  end.

(** [execute]: begin, the statements, commit. *)
Definition execute (stmts : list Stmt) : M unit :=
  let^ _ := ask in
  λ env,
    match in_tx stmts (cat env) env with
    | (Ok c, env) =>
        let r := reply (tick env) in
        match r_error r with
        | Some e => (Err (schema_err e), if r_lost r then commit_cat c (next_tick env) else next_tick env)
        | None => (Ok tt, commit_cat c (next_tick env))
        end
    | (Err e, env) => (Err e, env)
    end.

(** ** Planning *)

Record Existing := { ex_comment : option string; ex_valid : bool }.

(** [existing_checks] and [existing_indexes]: the objects of a table by name;
    [pick] tells the name of an object of the table. *)
Definition existing_of (o : Obj) : Existing := {| ex_comment := o_comment o; ex_valid := o_valid o |}.
Definition existing (pick : Key → Obj → option string) (c : Catalog) : gmap string Existing :=
  list_to_map (omap (λ ko, (λ n, (n, existing_of ko.2)) <$> pick ko.1 ko.2) (map_to_list (objs c))).
Definition pick_check (table : string) (k : Key) (_ : Obj) : option string :=
  match k with KCheck t n => if decide (t = table) then Some n else None | KIndex _ => None end.
Definition pick_index (table : string) (k : Key) (o : Obj) : option string :=
  match k with KIndex n => if decide (o_table o = table) then Some n else None | KCheck _ _ => None end.
Definition existing_checks (table : string) : M (gmap string Existing) := read (existing (pick_check table)).
Definition existing_indexes (table : string) : M (gmap string Existing) := read (existing (pick_index table)).

(** [trigram_matches]: the shape of a valid index of plain columns, if any. *)
Definition trigram_matches (name : string) (columns : list string) (trigram : string) : M bool :=
  let^ r := ask in
  mret (match r_shape r with
    | Some sh => bool_decide (sh_am sh = "gin") && sh_no_predicate sh && bool_decide (sh_keys sh = columns)
        && forallb (λ o, bool_decide (o = "gin_trgm_ops")) (sh_opclasses sh)
        && forallb (λ n, bool_decide (n = trigram)) (sh_namespaces sh)
    | None => false
    end).

Definition tag_of (comment : option string) (prefix : string) : option string :=
  comment ≫= strip_prefix prefix.

Definition opt_eqb (o : option string) (s : string) : bool := bool_decide (o = Some s).

Definition check_was_declared (previous : option EntityContract) (current : EntityContract)
    (check : CompiledCheck) : bool :=
  match previous with
  | None => false
  | Some previous =>
      match cc_origin check with
      | OCheck expr => existsb (λ c, opt_eqb (chk_name c) (cc_name check) && bool_decide (chk_expr c = expr))
                         (entity_checks previous)
      | OEnum field =>
          let find e := (λ f, (field_type f, enum_values f))
            <$> List.find (λ f, bool_decide (fname f = field)) (entity_fields e) in
          let before := find previous in
          is_some before && bool_decide (before = find current)
      | OShorthand => false
      end
  end.

(** The name and the JSON of an index declaration, for [index_was_declared]. *)
Context (index_name : string → IndexContract → string) (index_json : IndexContract → string).

Definition index_was_declared (previous : option EntityContract) (index : CompiledIndex) : bool :=
  match previous with
  | None => false
  | Some previous =>
      existsb (λ i, bool_decide (index_name (entity_name previous) i = ci_name index)
                    && bool_decide (index_json i = index_json (ci_declared index)))
        (entity_indexes previous)
  end.

Definition declares_trigram (entities : list EntityContract) : bool :=
  existsb (λ e, existsb (λ i, match idx_using i with
      | Some u => bool_decide (to_ascii_lowercase u = "trigram") | None => false end) (entity_indexes e)) entities.

Definition trigram_schema : M (option string) := read (λ c, fst <$> extensions c !! "pg_trgm").

Definition ensure_trigram : M string :=
  let^ installed := trigram_schema in
  match installed with
  | Some schema => mret schema
  | None =>
      do^ execute [SCreateSchema EXTENSION_SCHEMA; SCreateExtension "pg_trgm" EXTENSION_SCHEMA] in
      mret EXTENSION_SCHEMA
  end.

(** [hex(Sha256(name))[..16]] *)
Context (digest8 : string → string).
Definition next_name (name : string) : string := NEXT_PREFIX +:+ digest8 name.

Record Table := {
  t_schema : string; t_trigram : option string; t_entity : EntityContract;
  t_checks : list (CompiledCheck * Plan); t_indexes : list (CompiledIndex * Plan);
  t_drop_checks : list string; t_drop_indexes : list string;
  t_leftover_checks : list string; t_leftover_indexes : list string }.
Definition t_name (t : Table) : string := entity_name (t_entity t).

Definition names_where (f : string → Existing → bool) (m : gmap string Existing) : list string :=
  omap (λ ne, if f ne.1 ne.2 then Some ne.1 else None) (map_to_list m).

(** The object of that name, unless it is a leftover about to be dropped. *)
Definition current (m : gmap string Existing) (leftovers : list string) (name : string) : option Existing :=
  if decide (name ∈ leftovers) then None else m !! name.

Definition plan_check (previous : option EntityContract) (entity : EntityContract)
    (existing : option Existing) (check : CompiledCheck) : Plan :=
  match existing with
  | None => Create
  | Some existing =>
      match tag_of (ex_comment existing) CHECK_TAG with
      | Some tag =>
          if bool_decide (tag = cc_tag check) && ex_valid existing then Keep
          else if ex_valid existing && opt_eqb (cc_legacy_tag check) tag
                  && check_was_declared previous entity check then Adopt
          else Replace
      | None => Replace
      end
  end.

Definition plan_index (previous : option EntityContract) (trigram : option string)
    (existing : option Existing) (index : CompiledIndex) : M Plan :=
  match existing with
  | None => mret Create
  | Some existing =>
      let tag := tag_of (ex_comment existing) INDEX_TAG in
      if opt_eqb tag (ci_tag index) then mret Keep
      else if opt_eqb tag (ci_legacy_tag index) && index_was_declared previous index then mret Adopt
      else
      let^ same := (match ci_trigram index, trigram with
        | true, Some trigram => trigram_matches (ci_name index) (ci_columns index) trigram
        | _, _ => mret false
        end) in
      mret (if same then Adopt else Replace)
  end.

(** Leftovers of an interrupted run. *)
Definition leftover_check (name : string) (ex : Existing) : bool :=
  match tag_of (ex_comment ex) CHECK_TAG with Some t => starts_with PENDING t | None => false end
  || starts_with NEXT_PREFIX name.
Definition leftover_index (declared : list string) (name : string) (ex : Existing) : bool :=
  let ours := starts_with NEXT_PREFIX name || bool_decide (name ∈ declared)
    || is_some (tag_of (ex_comment ex) INDEX_TAG) in
  starts_with NEXT_PREFIX name || (ours && negb (ex_valid ex)).

Context (compile : EntityContract → result string EntityRules).

Definition plan (schema : string) (entity : EntityContract) (previous : option EntityContract)
    (trigram : option string) : M Table :=
  let^ rules := (match compile entity with
    | Ok r => mret r
    | Err e => mfail (Invalid ("rules for '" +:+ schema +:+ "." +:+ entity_name entity +:+ "': " +:+ e))
    end) in
  let^ checks_now := existing_checks (entity_name entity) in
  let^ indexes_now := existing_indexes (entity_name entity) in
  let leftover_checks := names_where leftover_check checks_now in
  let leftover_indexes := names_where (leftover_index (map ci_name (er_indexes rules))) indexes_now in
  let checks := map (λ c, (c, plan_check previous entity (current checks_now leftover_checks (cc_name c)) c))
    (er_checks rules) in
  let^ indexes := mmap (er_indexes rules) (λ i,
    let^ p := plan_index previous trigram (current indexes_now leftover_indexes (ci_name i)) i in
    mret (i, p)) in
  let undeclared declared leftovers name := negb (bool_decide (name ∈ declared)) && negb (bool_decide (name ∈ leftovers)) in
  mret {| t_schema := schema; t_trigram := trigram; t_entity := entity;
          t_checks := checks; t_indexes := indexes;
          t_drop_checks := names_where (λ name ex, is_some (tag_of (ex_comment ex) CHECK_TAG)
            && undeclared (map (cc_name ∘ fst) checks) leftover_checks name) checks_now;
          t_drop_indexes := names_where (λ name ex, is_some (tag_of (ex_comment ex) INDEX_TAG)
            && undeclared (map (ci_name ∘ fst) indexes) leftover_indexes name) indexes_now;
          t_leftover_checks := leftover_checks; t_leftover_indexes := leftover_indexes |}.

(** ** Preflight *)

Definition not_evaluable_yet (e : DbError) : bool :=
  match db_code e with Some code => starts_with "42" code | None => false end.

(** A count query whose answer depends on the rows: an error, or how many. *)
Definition count_rows (early : bool) (query : string) (violated : Reply → RuntimeError) : M unit := λ env,
  let r := reply (tick env) in
  let env := next_tick env in
  match r_error r with
  | Some e => if early && not_evaluable_yet e then (Ok tt, env) else (Err (schema_err e), env)
  | None => if (0 <? r_count r)%N then (Err (violated r), env) else (Ok tt, env)
  end.

Definition plural (n : N) : string := if decide (n = 1%N) then "" else "s".
Definition changes_rows (p : Plan) : bool := match p with Create | Replace => true | _ => false end.

Definition fq (table : Table) : string := quote_ident (t_schema table) +:+ "." +:+ quote_ident (t_name table).

Definition check_query (table : Table) (check : CompiledCheck) : string :=
  "SELECT count(*), (array_agg(id::text ORDER BY id))[1:5] FROM " +:+ fq table
  +:+ " WHERE (" +:+ cc_sql check +:+ ") IS FALSE".

Definition duplicates_query (table : Table) (index : CompiledIndex) : string :=
  "SELECT count(*) FROM (SELECT 1 FROM " +:+ fq table +:+ " WHERE "
  +:+ join " AND " (map (λ k, k +:+ " IS NOT NULL") (ci_key_values index))
  +:+ match ci_predicate index with Some p => " AND " +:+ p | None => "" end
  +:+ " GROUP BY " +:+ join ", " (ci_key_values index) +:+ " HAVING count(*) > 1) duplicates".

Definition preflight_table (table : Table) (early : bool) : M unit :=
  do^ mfor (t_checks table) (λ cp,
    if changes_rows cp.2 then
      count_rows early (check_query table cp.1) (λ r, Invalid ("rule '" +:+ cc_name cp.1 +:+ "' on '" +:+ t_name table
        +:+ "' is violated by " +:+ pretty (r_count r) +:+ " existing row" +:+ plural (r_count r)
        +:+ " (ids " +:+ join ", " (r_ids r) +:+ "); nothing was changed"))
    else mret tt) in
  mfor (t_indexes table) (λ ip,
    if ci_unique ip.1 && changes_rows ip.2 then
      count_rows early (duplicates_query table ip.1) (λ r, Invalid ("unique index '" +:+ ci_name ip.1 +:+ "' on '" +:+ t_name table
        +:+ "' would reject " +:+ pretty (r_count r) +:+ " group" +:+ plural (r_count r)
        +:+ " of duplicate existing rows; nothing was changed"))
    else mret tt).

(** ** Applying *)

Definition comment_check (table name tag : string) : Stmt := SCommentCheck table name (CHECK_TAG +:+ tag).
Definition comment_index (name tag : string) : Stmt := SCommentIndex name (INDEX_TAG +:+ tag).

(** A statement whose failure is ignored: [let _ = ...]. *)
Definition best_effort (s : Stmt) : M unit := λ env, (Ok tt, (run s env).2).

(** [sqlx::query(..).execute(conn)], recovering from its error. *)
Definition or_recover (s : Stmt) (cleanup : Stmt) (code : string) (violated : RuntimeError) : M unit := λ env,
  match run s env with
  | (Ok _, env) => (Ok tt, env)
  | (Err e, env) =>
      (do^ best_effort cleanup in
       mfail (if bool_decide (db_code e = Some code) then violated else schema_err e)) env
  end.

Definition add_validated_check (table name : string) (check : CompiledCheck) : M unit :=
  do^ execute [SAddCheck table name (cc_sql check); comment_check table name (PENDING +:+ cc_tag check)] in
  or_recover (SValidate table name) (SDropCheck table name true) "23514"
    (Invalid ("rule '" +:+ cc_name check +:+ "' is violated by rows written during the install; nothing was changed")).

(** The definition of an index without its name. *)
Definition index_def (table : Table) (index : CompiledIndex) : string :=
  create_sql index (t_schema table) (t_name table) "" false (default EXTENSION_SCHEMA (t_trigram table)).

Definition build_index (table : Table) (index : CompiledIndex) (name : string) : M unit :=
  let^ has_rows := ask in
  or_recover (SCreateIndex (t_name table) name (index_def table index) (r_flag has_rows)
      (create_sql index (t_schema table) (t_name table) name (r_flag has_rows)
        (default EXTENSION_SCHEMA (t_trigram table))))
    (SDropIndex name true) "23505"
    (Invalid ("unique index '" +:+ ci_name index +:+ "' is violated by rows written during the install; nothing was changed")).

Definition apply_check (table : Table) (cp : CompiledCheck * Plan) : M unit :=
  let '(check, plan) := cp in
  let name := cc_name check in
  match plan with
  | Keep => mret tt
  | Adopt => execute [comment_check (t_name table) name (cc_tag check)]
  | Create =>
      do^ add_validated_check (t_name table) name check in
      execute [comment_check (t_name table) name (cc_tag check)]
  | Replace =>
      let next := next_name name in
      do^ add_validated_check (t_name table) next check in
      execute [SDropCheck (t_name table) name false; SRenameCheck (t_name table) next name;
               comment_check (t_name table) name (cc_tag check)]
  end.

Definition apply_index (table : Table) (ip : CompiledIndex * Plan) : M unit :=
  let '(index, plan) := ip in
  let name := ci_name index in
  match plan with
  | Keep => mret tt
  | Adopt => execute [comment_index name (ci_tag index)]
  | Create =>
      do^ build_index table index name in
      execute [comment_index name (ci_tag index)]
  | Replace =>
      let next := next_name name in
      do^ build_index table index next in
      execute [SDropIndex name false; SRenameIndex next name; comment_index name (ci_tag index)]
  end.

Definition apply (table : Table) : M unit :=
  do^ mfor (t_checks table) (apply_check table) in
  mfor (t_indexes table) (apply_index table).

Definition drop_objects (table : Table) (checks indexes : list string) : M unit :=
  match map (λ n, SDropCheck (t_name table) n true) checks ++ map (λ n, SDropIndex n true) indexes with
  | [] => mret tt
  | statements => execute statements
  end.

Definition find_entity (previous : list EntityContract) (entity : EntityContract) : option EntityContract :=
  List.find (λ e, bool_decide (entity_name e = entity_name entity)) previous.

(** The phases of [reconcile_on] once the tables are planned. *)
Definition reconcile_tables (tables : list Table) : M unit :=
  do^ mfor tables (λ t, drop_objects t (t_leftover_checks t) (t_leftover_indexes t)) in
  do^ mfor tables (λ t, preflight_table t false) in
  do^ mfor tables apply in
  mfor tables (λ t, drop_objects t (t_drop_checks t) (t_drop_indexes t)).

Definition plan_all (app_id : string) (entities previous : list EntityContract) (trigram : option string) : M (list Table) :=
  mmap entities (λ e, plan app_id e (find_entity previous e) trigram).

Definition reconcile_on (app_id : string) (entities previous : list EntityContract) : M unit :=
  do^ mfor SESSION (λ setting, run_stmt (SSession setting)) in
  let^ trigram := (if declares_trigram entities then let^ s := ensure_trigram in mret (Some s) else mret None) in
  let^ tables := plan_all app_id entities previous trigram in
  reconcile_tables tables.

(** The manifest stored for the app, if there is one and it still reads as a
    manifest: [stored] is its data contract. *)
Definition previous_entities (stored : option (list EntityContract)) : M (list EntityContract) :=
  read (λ _, default [] stored).

(** [reconcile]: the previous manifest, a connection of its own, the run. *)
Definition reconcile (app_id : string) (stored : option (list EntityContract)) (entities : list EntityContract) : M unit :=
  let^ previous := previous_entities stored in
  let^ _ := ask in
  reconcile_on app_id entities previous.

(** [preflight], over the entities whose tables, [pg_tables], exist. *)
Definition preflight (app_id : string) (stored : option (list EntityContract)) (entities : list EntityContract)
    (pg_tables : list string) : M unit :=
  let^ previous := previous_entities stored in
  let^ _ := ask in
  let^ tables := read (λ _, pg_tables) in
  let^ trigram := trigram_schema in
  mfor (filter (λ e, entity_name e ∈ tables) entities) (λ e,
    let^ table := plan app_id e (find_entity previous e) trigram in
    preflight_table table true).

Record SchemaChange := { sc_entity : string; sc_type : string; sc_column : string }.

Definition verify (app_id : string) (stored : option (list EntityContract)) (entities : list EntityContract) : M (list SchemaChange) :=
  let^ previous := previous_entities stored in
  let^ _ := ask in
  let^ trigram := trigram_schema in
  let^ per_entity := mmap entities (λ e,
    let^ table := plan app_id e (find_entity previous e) trigram in
    let change (kind name : string) := {| sc_entity := entity_name e; sc_type := kind; sc_column := name |} in
    mret (omap (λ cp, (λ v, change (v +:+ "_check") (cc_name cp.1)) <$> verb cp.2) (t_checks table)
          ++ omap (λ ip, (λ v, change (v +:+ "_index") (ci_name ip.1)) <$> verb ip.2) (t_indexes table)
          ++ map (change "drop_check") (t_drop_checks table ++ t_leftover_checks table)
          ++ map (change "drop_index") (t_drop_indexes table ++ t_leftover_indexes table))) in
  mret (concat per_entity).

(** [evacuate_extensions] *)
Definition evacuate_extensions (app_id : string) : M unit :=
  let^ exts := read (λ c, map_to_list (extensions c)) in
  mfor (filter (λ e : string * (string * bool), e.2.1 = app_id) exts) (λ e : string * (string * bool),
    if e.2.2 then execute [SCreateSchema EXTENSION_SCHEMA; SMoveExtension e.1 EXTENSION_SCHEMA]
    else mfail (RuntimeConflict ("extension '" +:+ e.1 +:+ "' is installed in the schema of '" +:+ app_id
      +:+ "' and cannot be moved; an operator must relocate or drop it before uninstalling"))).
End Session.

(** [compile_entity] is such a compiler. *)
Definition compile_text (r : result failure EntityRules) : result string EntityRules :=
  match r with
  | Ok r => Ok r
  | Err (Refused m) => Err m
  | Err _ => Err "panic"
  end.

#[export] Instance compile_entity_compiler bigdecimal date_ok rfc3339 uuid_parse regex_parse digest4 digest
    debug_list debug_option :
  RuleCompiler (λ e, compile_text (compile_entity bigdecimal date_ok rfc3339 uuid_parse regex_parse digest4 digest
    debug_list debug_option e)).
Proof.
  split; intros e rules; unfold compile_text;
    destruct (compile_entity _ _ _ _ _ _ _ _ _ e) as [r|[]] eqn:H; intros; simplify_eq;
    by apply compile_entity_names in H as [? ?].
Qed.
