(* ===== verification/RuleEnforced.v ===== *)
(** * Reconciling never leaves a declared rule unenforced

    Safety of core/src/rules/reconcile.rs over every sequence of replies of the
    database: what is in the catalog at every moment of a run, whether it
    succeeds, is refused or breaks off, and what a run that succeeds leaves. *)

From stdpp Require Import base numbers pretty gmap strings sets list.
From S2P Require Import Prelude Str Ident Json DataTypes RuleAst RuleLexer RuleParser RuleGrammar.
From S2P Require Import RulePattern RuleTyping RuleEmit RuleShorthand RuleCompile RuleReconcile.

Section Safety.
Context (reply : nat → Reply).

Fixpoint exec_all (stmts : list Stmt) (c : Catalog) : option Catalog :=
  match stmts with
  | [] => Some c
  | s :: stmts => match exec s c with Some c => exec_all stmts c | None => None end
  end.

Lemma in_tx_cases stmts c env r env' :
  in_tx reply stmts c env = (r, env') →
  cat env' = cat env ∧ seen env' = seen env ∧ ∀ c', r = Ok c' → exec_all stmts c = Some c'.
Proof.
  revert c env. induction stmts as [|s stmts IH]; intros c env; simpl.
  - intros [= <- <-]. split_and!; [done|done|]. by intros c' [= <-].
  - destruct (r_error _); [by intros [= <- <-]|].
    destruct (exec s c) as [c1|]; [|by intros [= <- <-]].
    intros (? & ? & ?)%IH. done.
Qed.

(** A transaction is committed whole, even when its acknowledgement is lost, or
    leaves the catalog as it was. *)
Lemma execute_cases stmts env r env' :
  execute reply stmts env = (r, env') →
  (cat env' = cat env ∧ seen env' = seen env ∧ is_ok r = false)
  ∨ ∃ c', exec_all stmts (cat env) = Some c' ∧ cat env' = c' ∧ seen env' = c' :: seen env.
Proof.
  unfold execute, mbind_, ask. destruct (r_error (reply (tick env))); [intros [= <- <-]; by left|].
  destruct (in_tx _ _ _ _) as [r1 env1] eqn:Htx. apply in_tx_cases in Htx as (Hc & Hs & Hok). simpl in *.
  destruct r1 as [c'|e]; [|intros [= <- <-]; by left].
  destruct (r_error _); [destruct (r_lost _)|]; intros [= <- <-]; [|by left|];
    (right; exists c'; simpl; rewrite Hs; auto).
Qed.

(** A statement on its own takes effect, leaves the catalog as it was, or is an
    index build that leaves an invalid index under a new name. *)
Lemma run_cases s env r env' :
  run reply s env = (r, env') →
  (cat env' = cat env ∧ seen env' = seen env ∧ is_ok r = false)
  ∨ (∃ c', exec s (cat env) = Some c' ∧ cat env' = c' ∧ seen env' = c' :: seen env)
  ∨ (∃ t n def text o c', s = SCreateIndex t n def true text
      ∧ add_obj (KIndex n) o (cat env) = Some c' ∧ cat env' = c' ∧ seen env' = c' :: seen env ∧ is_ok r = false).
Proof.
  unfold run. destruct (r_error (reply (tick env))) as [e|].
  - destruct (r_lost _).
    + destruct (exec s _) as [c'|] eqn:He; intros [= <- <-]; [|by left]. right; left. by exists c'.
    + destruct s; try (intros [= <- <-]; by left). destruct concurrently; [|intros [= <- <-]; by left].
      destruct (if r_residue _ then _ else _) as [c'|] eqn:Hr; intros [= <- <-]; [|by left].
      destruct (r_residue _); [|done]. right; right. by repeat eexists.
  - destruct (exec s (cat (next_tick env))) as [c'|] eqn:He; intros [= <- <-]; [|by left].
    right; left. by exists c'.
Qed.

(** ** Protected objects *)

(** [prot k] is what must always hold of the object under [k], in the catalogs
    seen after those of [base]. *)
Context (prot : Key → option (Obj → Prop)) (base : list Catalog).

Definition Inv (c : Catalog) : Prop := ∀ k Q, prot k = Some Q → ∃ o, objs c !! k = Some o ∧ Q o.

Record env_ok (env : Env) : Prop := {
  e_cat : Inv (cat env);
  e_seen : ∃ new, seen env = new ++ base ∧ Forall Inv new }.

Lemma env_ok_commit env c' env' :
  env_ok env → Inv c' → cat env' = c' → seen env' = c' :: seen env → env_ok env'.
Proof.
  intros [_ (new & Hs & HF)] Hc Hc' Hs'. split; [by rewrite Hc'|]. exists (c' :: new).
  rewrite Hs', Hs. split; [done|by constructor].
Qed.
Lemma env_ok_same env env' : env_ok env → cat env' = cat env → seen env' = seen env → env_ok env'.
Proof. intros [Hc Hs] Hc' Hs'. split; [by rewrite Hc'|by rewrite Hs']. Qed.

(** [m] keeps the invariant whatever it returns; [Q] holds when it succeeds. *)
Definition safe {A} (m : M A) (Pre : Env → Prop) (Q : A → Env → Prop) : Prop :=
  ∀ env r env', env_ok env → Pre env → m env = (r, env') →
    env_ok env' ∧ ∀ a, r = Ok a → Q a env'.

Lemma safe_ret {A} (a : A) (Pre : Env → Prop) (Q : A → Env → Prop) :
  (∀ env, Pre env → Q a env) → safe (mret a) Pre Q.
Proof. intros H env r env' Hok Hp [= <- <-]. split; [done|]. intros ? [= <-]. auto. Qed.
Lemma safe_bind {A B} (m : M A) (k : A → M B) Pre Q R :
  safe m Pre Q → (∀ a, safe (k a) (Q a) R) → safe (mbind_ m k) Pre R.
Proof.
  intros Hm Hk env r env' Hok Hp. unfold mbind_. destruct (m env) as [[a|e] env1] eqn:H1.
  - destruct (Hm _ _ _ Hok Hp H1) as [Hok1 HQ]. intros H2. eapply Hk; [exact Hok1|by apply HQ|done].
  - intros [= <- <-]. destruct (Hm _ _ _ Hok Hp H1). split; [done|]. by intros.
Qed.
Lemma safe_weaken {A} (m : M A) (Pre Pre' : Env → Prop) (Q Q' : A → Env → Prop) :
  safe m Pre Q → (∀ env, Pre' env → Pre env) → (∀ a env, Q a env → Q' a env) → safe m Pre' Q'.
Proof. intros H H1 H2 env r env' Hok Hp He. destruct (H env r env'); auto. Qed.

Local Notation any := (λ _ : Env, True).
Local Notation anyr := (λ _ (_ : Env), True).

Lemma safe_for {A} (l : list A) f : (∀ x, x ∈ l → safe (f x) any anyr) → safe (mfor l f) any anyr.
Proof.
  induction l as [|x l IH]; intros H; simpl; [by apply safe_ret|].
  eapply safe_bind; [apply H; left|]. intros []. eapply safe_weaken; [apply IH|done|done].
  intros y Hy. apply H. by right.
Qed.

(** A commit of [stmts] keeps the invariant and leads to [Q]. *)
Lemma safe_execute stmts (Pre : Env → Prop) (Q : Catalog → Prop) :
  (∀ env c', Pre env → Inv (cat env) → exec_all stmts (cat env) = Some c' → Inv c' ∧ Q c') →
  safe (execute reply stmts) Pre (λ _ env, Q (cat env)).
Proof.
  intros H env r env' Hok Hp Hex. pose proof (e_cat _ Hok) as Hinv.
  apply execute_cases in Hex as [(Hc & Hs & Hr)|(c' & He & Hc & Hs)].
  - split; [by eapply env_ok_same|]. intros a ->. done.
  - destruct (H env c' Hp Hinv He) as [Hi HQ]. split; [by eapply env_ok_commit|].
    intros a _. by rewrite Hc.
Qed.

Lemma add_obj_Some k o c c' :
  add_obj k o c = Some c' → objs c !! k = None ∧ objs c' = <[k := o]> (objs c).
Proof. unfold add_obj. destruct (objs c !! k); [done|]. by intros [= <-]. Qed.
Lemma update_obj_Some k f c c' :
  update_obj k f c = Some c' → ∃ o, objs c !! k = Some o ∧ objs c' = <[k := f o]> (objs c).
Proof. unfold update_obj. destruct (objs c !! k) as [o|] eqn:H; [|done]. intros [= <-]. eauto. Qed.

(** A key that is absent is not protected. *)
Lemma Inv_absent c k : Inv c → objs c !! k = None → prot k = None.
Proof.
  intros Hi Hk. destruct (prot k) as [Q|] eqn:Hp; [|done]. destruct (Hi k Q Hp) as (o & Ho & _). congruence.
Qed.

Lemma Inv_insert c c' k o :
  Inv c → (∀ Q, prot k = Some Q → Q o) → objs c' = <[k := o]> (objs c) → Inv c'.
Proof.
  intros Hi Hk Hc k' Q Hp. rewrite Hc. destruct (decide (k = k')) as [->|Hne].
  - exists o. rewrite lookup_insert_eq. split; [done|by apply Hk].
  - rewrite lookup_insert_ne by done. by apply Hi.
Qed.

Lemma Inv_delete c c' k : Inv c → prot k = None → objs c' = delete k (objs c) → Inv c'.
Proof.
  intros Hi Hk Hc k' Q Hp. rewrite Hc. destruct (decide (k = k')) as [->|Hne]; [congruence|].
  rewrite lookup_delete_ne by done. by apply Hi.
Qed.

Lemma Inv_add k o c c' : Inv c → add_obj k o c = Some c' → Inv c' ∧ prot k = None ∧ objs c' !! k = Some o.
Proof.
  intros Hi (Hk & Hc)%add_obj_Some. pose proof (Inv_absent _ _ Hi Hk) as Hp. split_and!; [|done|].
  - eapply Inv_insert; [done|by rewrite Hp|done].
  - by rewrite Hc, lookup_insert_eq.
Qed.

Lemma Inv_update k f c c' :
  Inv c → update_obj k f c = Some c' → (∀ Q o, prot k = Some Q → Q o → Q (f o)) →
  Inv c' ∧ ∃ o, objs c !! k = Some o ∧ objs c' !! k = Some (f o).
Proof.
  intros Hi (o & Ho & Hc)%update_obj_Some Hf. split.
  - eapply Inv_insert; [done| |done]. intros Q Hp. destruct (Hi k Q Hp) as (o' & Ho' & HQ). simplify_eq. by apply (Hf Q).
  - exists o. by rewrite Hc, lookup_insert_eq.
Qed.

Lemma Inv_drop k ie c c' : Inv c → prot k = None → drop_obj k ie c = Some c' → Inv c'.
Proof.
  intros Hi Hp. unfold drop_obj. destruct (objs c !! k).
  - intros [= <-]. by eapply Inv_delete.
  - destruct ie; [|done]. by intros [= <-].
Qed.

(** The swap of a replacement: [next] takes the place of [name] in one step. *)
Lemma Inv_swap name next (txt : string) c c1 c2 c3 o :
  Inv c → prot next = None → objs c !! next = Some o → (∀ Q, prot name = Some Q → Q (with_comment txt o)) →
  drop_obj name false c = Some c1 → rename_obj next name c1 = Some c2 →
  update_obj name (with_comment txt) c2 = Some c3 → Inv c3.
Proof.
  intros Hi Hn Ho Hname Hdrop Hren Hupd. unfold drop_obj in Hdrop.
  destruct (objs c !! name) as [o0|] eqn:Hname0; [|done]. injection Hdrop as <-.
  unfold rename_obj in Hren. simpl in Hren.
  destruct (delete name (objs c) !! next) as [o1|] eqn:H1; [|done].
  destruct (delete name (objs c) !! name) eqn:H2; [done|]. injection Hren as <-.
  destruct (decide (name = next)) as [->|Hne]; [by rewrite lookup_delete_eq in H1|].
  rewrite lookup_delete_ne in H1 by done. simplify_eq.
  apply update_obj_Some in Hupd as (o2 & Ho2 & Hc3). simpl in Ho2, Hc3. rewrite lookup_insert_eq in Ho2.
  simplify_eq. intros k Q Hp. rewrite Hc3. destruct (decide (name = k)) as [->|Hk].
  - rewrite lookup_insert_eq. eexists. split; [done|by apply Hname].
  - rewrite !lookup_insert_ne by done. destruct (decide (next = k)) as [->|]; [congruence|].
    rewrite !lookup_delete_ne by done. by apply Hi.
Qed.

(** [or_recover] keeps the invariant when its cleanup does. *)
Lemma safe_or_recover s cleanup code err (Pre : Env → Prop) (Q : Catalog → Prop) :
  (∀ env c', Pre env → Inv (cat env) → exec s (cat env) = Some c' → Inv c' ∧ Q c') →
  (∀ c c', (∃ env, Pre env) → Inv c → exec cleanup c = Some c' → Inv c') →
  (∀ t n def co text, cleanup ≠ SCreateIndex t n def co text) →
  safe (or_recover reply s cleanup code err) Pre (λ _ env, Q (cat env)).
Proof.
  intros Hs Hclean Hnot env r env' Hok Hp. unfold or_recover.
  destruct (run reply s env) as [r1 env1] eqn:Hrun. intros Hrest.
  assert (env_ok env1 ∧ (r1 = Ok tt → Q (cat env1))) as [Hok1 HQ1].
  { apply run_cases in Hrun as [(Hc & Hse & Hr)|[(c' & He & Hc & Hse)|(t & n & def & text & o & c' & -> & Ha & Hc & Hse & Hr)]].
    - split; [by eapply env_ok_same|]. by intros ->.
    - destruct (Hs env c' Hp (e_cat _ Hok) He). split; [by eapply env_ok_commit|]. by rewrite Hc.
    - destruct (Inv_add _ _ _ _ (e_cat _ Hok) Ha) as [Hi _]. split; [by eapply env_ok_commit|]. by intros ->. }
  destruct r1 as [[]|e].
  - injection Hrest as <- <-. split; [done|]. auto.
  - unfold mbind_, best_effort, mfail in Hrest.
    destruct (run reply cleanup env1) as [r2 env2] eqn:Hrun2. simpl in Hrest. injection Hrest as <- <-.
    split; [|done].
    apply run_cases in Hrun2 as [(Hc & Hse & _)|[(c' & He & Hc & Hse)|(t & n & def & text & o & c' & -> & _)]].
    + by eapply env_ok_same.
    + eapply env_ok_commit; [done| |done|done]. eapply Hclean; [by exists env|apply Hok1|done].
    + exfalso. by eapply Hnot.
Qed.

(** ** The operations *)

(** The object under [k] is the finished new one, and nothing protected. *)
Definition built_at (k : Key) (def : string) (c : Catalog) : Prop :=
  prot k = None ∧ ∃ o, objs c !! k = Some o ∧ o_valid o = true ∧ o_def o = def.

(** The comment of what is under [k] may become [text]. *)
Definition commentable (k : Key) (text : string) : Prop :=
  ∀ Q o, prot k = Some Q → Q o → Q (with_comment text o).

Lemma safe_comment s k text (Pre : Env → Prop) :
  (∀ c, exec s c = update_obj k (with_comment text) c) →
  (∀ env, Pre env → commentable k text) →
  safe (execute reply [s]) Pre anyr.
Proof.
  intros Hs Hcom. eapply safe_weaken; [apply (safe_execute [s] Pre (λ _, True))|done|done].
  intros env c' Hp Hi. simpl. rewrite Hs. destruct (update_obj k _ _) as [c1|] eqn:Hu; [|done].
  intros [= <-]. split; [|done]. eapply Inv_update; [done|done|]. intros Q o. by apply (Hcom env).
Qed.

Lemma built_commentable k def c text : built_at k def c → commentable k text.
Proof. intros [Hp _] Q o. by rewrite Hp. Qed.

Lemma safe_add_validated_check t n check :
  safe (add_validated_check reply t n check) any (λ _ env, built_at (KCheck t n) (cc_sql check) (cat env)).
Proof.
  set (k := KCheck t n). set (added := λ c : Catalog, prot k = None ∧
    ∃ o, objs c !! k = Some o ∧ o_def o = cc_sql check).
  apply (safe_bind _ _ _ (λ _ env, added (cat env))).
  - apply safe_execute. intros env c' _ Hi. simpl.
    destruct (add_obj _ _ _) as [c1|] eqn:Ha; [|done].
    destruct (Inv_add _ _ _ _ Hi Ha) as (Hi1 & Hp & Ho).
    destruct (update_obj _ _ c1) as [c2|] eqn:Hu; [|done]. intros [= <-].
    destruct (Inv_update _ _ _ _ Hi1 Hu) as (Hi2 & o & Ho1 & Ho2); [intros Q o'; unfold k in *; by rewrite Hp|].
    fold k in Ho, Ho1, Ho2. simplify_eq. split; [done|]. split; [done|]. by eexists.
  - intros []. apply safe_or_recover.
    + intros env c' [Hp (o & Ho & Hd)] Hi. simpl. intros Hu.
      destruct (Inv_update _ _ _ _ Hi Hu) as (Hi2 & o' & Ho1 & Ho2); [intros Q o''; unfold k in *; by rewrite Hp|].
      fold k in Ho1, Ho2. simplify_eq. split; [done|]. split; [done|]. by eexists.
    + intros c c' [env [Hp _]] Hi. simpl. by apply Inv_drop.
    + done.
Qed.

Lemma safe_build_index table index n :
  prot (KIndex n) = None →
  safe (build_index reply table index n) any (λ _ env, built_at (KIndex n) (index_def table index) (cat env)).
Proof.
  intros Hp. apply (safe_bind _ _ _ anyr).
  - intros env r env' Hok _. unfold ask. destruct (r_error _); intros [= <- <-]; (split; [by eapply env_ok_same|by intros]).
  - intros has_rows. apply safe_or_recover.
    + intros env c' _ Hi. simpl. intros Ha. destruct (Inv_add _ _ _ _ Hi Ha) as (Hi1 & _ & Ho).
      split; [done|]. split; [done|]. by eexists.
    + intros c c' _ Hi. simpl. by apply Inv_drop.
    + done.
Qed.

(** A finished new object may take the place of what is under [k]. *)
Definition replaceable (k : Key) (def text : string) : Prop :=
  ∀ Q o, prot k = Some Q → o_valid o = true → o_def o = def → o_comment o = Some text → Q o.

Lemma safe_swap name next text def s1 s2 s3 :
  (∀ c, exec s1 c = drop_obj name false c) → (∀ c, exec s2 c = rename_obj next name c) →
  (∀ c, exec s3 c = update_obj name (with_comment text) c) →
  replaceable name def text →
  safe (execute reply [s1; s2; s3]) (λ env, built_at next def (cat env)) anyr.
Proof.
  intros H1 H2 H3 Hrep. eapply safe_weaken; [apply (safe_execute _ (λ env, built_at next def (cat env)) (λ _, True))|done|done].
  intros env c' (Hp & o & Ho & Hv & Hd) Hi. simpl. rewrite H1.
  destruct (drop_obj name false _) as [c1|] eqn:Hc1; [|done]. rewrite H2.
  destruct (rename_obj next name c1) as [c2|] eqn:Hc2; [|done]. rewrite H3.
  destruct (update_obj name _ c2) as [c3|] eqn:Hc3; [|done]. intros [= <-]. split; [|done].
  eapply Inv_swap; [exact Hi|exact Hp|exact Ho| |done|done|done]. intros Q HQ. by eapply Hrep.
Qed.

Context (digest8 : string → string).

(** What applying a plan asks of the protection of its object. *)
Definition plan_ok (p : Plan) (k : Key) (def text : string) : Prop :=
  match p with
  | Keep | Create => True
  | Adopt => commentable k text
  | Replace => replaceable k def text
  end.

Lemma safe_apply_check table cp :
  plan_ok cp.2 (KCheck (t_name table) (cc_name cp.1)) (cc_sql cp.1) (CHECK_TAG +:+ cc_tag cp.1) →
  safe (apply_check reply digest8 table cp) any anyr.
Proof.
  intros Hrep. destruct cp as [check p]. simpl in *. destruct p.
  - by apply safe_ret.
  - by eapply (safe_comment _ (KCheck (t_name table) (cc_name check))).
  - eapply safe_bind; [apply safe_add_validated_check|]. intros [].
    eapply (safe_comment _ (KCheck (t_name table) (cc_name check))); [done|].
    intros env Hb. by eapply built_commentable.
  - eapply safe_bind; [apply safe_add_validated_check|]. intros [].
    by eapply (safe_swap (KCheck (t_name table) (cc_name check))).
Qed.

Lemma safe_apply_index table ip :
  plan_ok ip.2 (KIndex (ci_name ip.1)) (index_def table ip.1) (INDEX_TAG +:+ ci_tag ip.1) →
  (ip.2 = Create → prot (KIndex (ci_name ip.1)) = None) →
  prot (KIndex (next_name digest8 (ci_name ip.1))) = None →
  safe (apply_index reply digest8 table ip) any anyr.
Proof.
  intros Hrep Hcreate Hnext. destruct ip as [index p]. simpl in *. destruct p.
  - by apply safe_ret.
  - by eapply (safe_comment _ (KIndex (ci_name index))).
  - eapply safe_bind; [apply safe_build_index; auto|]. intros [].
    eapply (safe_comment _ (KIndex (ci_name index))); [done|].
    intros env Hb. by eapply built_commentable.
  - eapply safe_bind; [by apply safe_build_index|]. intros [].
    by eapply (safe_swap (KIndex (ci_name index))).
Qed.

Lemma exec_drops stmts c c' :
  (∀ s, s ∈ stmts → ∃ k, prot k = None ∧ ∀ c, exec s c = drop_obj k true c) →
  Inv c → exec_all stmts c = Some c' → Inv c'.
Proof.
  revert c. induction stmts as [|s stmts IH]; intros c Hs Hi; simpl; [by intros [= <-]|].
  destruct (Hs s) as (k & Hk & He); [left|]. rewrite He.
  destruct (drop_obj k true c) as [c1|] eqn:Hd; [|done]. intros Hx.
  eapply IH; [intros s' Hs'; apply Hs; by right| |done]. by eapply Inv_drop.
Qed.

Lemma safe_drop_objects table checks indexes :
  (∀ n, n ∈ checks → prot (KCheck (t_name table) n) = None) →
  (∀ n, n ∈ indexes → prot (KIndex n) = None) →
  safe (drop_objects reply table checks indexes) any anyr.
Proof.
  intros Hc Hix. unfold drop_objects. set (stmts := map _ checks ++ map _ indexes).
  assert (safe (execute reply stmts) any anyr) as H.
  { eapply safe_weaken; [apply (safe_execute stmts any (λ _, True))|done|done].
    intros env c' _ Hi He. split; [|done]. eapply exec_drops; [|done|done].
    intros s [Hs|Hs]%elem_of_app; apply list_elem_of_fmap in Hs as (n & -> & Hn).
    - exists (KCheck (t_name table) n). auto.
    - exists (KIndex n). auto. }
  destruct stmts; [by apply safe_ret|done].
Qed.

Lemma safe_preflight table early : safe (preflight_table reply table early) any anyr.
Proof.
  assert (∀ e q v, safe (count_rows reply e q v) any anyr) as Hcount.
  { intros e q v env r env' Hok _. unfold count_rows.
    repeat case_match; intros [= <- <-]; (split; [by eapply env_ok_same|by intros]). }
  apply (safe_bind _ _ _ anyr).
  - apply safe_for. intros cp _. destruct (changes_rows _); [apply Hcount|by apply safe_ret].
  - intros []. eapply safe_weaken; [apply safe_for|done|done].
    intros ip _. destruct (_ && _); [apply Hcount|by apply safe_ret].
Qed.

(** What the plan of a table must respect. *)
Record table_ok (table : Table) : Prop := {
  to_checks : ∀ cp, cp ∈ t_checks table →
    plan_ok cp.2 (KCheck (t_name table) (cc_name cp.1)) (cc_sql cp.1) (CHECK_TAG +:+ cc_tag cp.1);
  to_indexes : ∀ ip, ip ∈ t_indexes table →
    plan_ok ip.2 (KIndex (ci_name ip.1)) (index_def table ip.1) (INDEX_TAG +:+ ci_tag ip.1)
    ∧ (ip.2 = Create → prot (KIndex (ci_name ip.1)) = None)
    ∧ prot (KIndex (next_name digest8 (ci_name ip.1))) = None;
  to_drop_checks : ∀ n, n ∈ t_leftover_checks table ++ t_drop_checks table →
    prot (KCheck (t_name table) n) = None;
  to_drop_indexes : ∀ n, n ∈ t_leftover_indexes table ++ t_drop_indexes table → prot (KIndex n) = None }.

Lemma safe_apply table : table_ok table → safe (apply reply digest8 table) any anyr.
Proof.
  intros []. apply (safe_bind _ _ _ anyr).
  - apply safe_for. intros cp Hcp. apply safe_apply_check. auto.
  - intros []. eapply safe_weaken; [apply safe_for|done|done]. intros ip Hip.
    destruct (to_indexes0 ip Hip) as (? & ? & ?). by apply safe_apply_index.
Qed.

Lemma safe_reconcile_tables tables :
  Forall table_ok tables → safe (reconcile_tables reply digest8 tables) any anyr.
Proof.
  rewrite Forall_forall. intros Hok.
  assert (∀ f : Table → M unit, (∀ t, table_ok t → safe (f t) any anyr) → safe (mfor tables f) any anyr) as Hfor.
  { intros f Hf. apply safe_for. intros t Ht. auto. }
  apply (safe_bind _ _ _ anyr).
  { apply Hfor. intros t []. apply safe_drop_objects; set_solver. }
  intros []. apply (safe_bind _ _ _ anyr); [apply Hfor; intros; apply safe_preflight|].
  intros []. apply (safe_bind _ _ _ anyr).
  { apply Hfor, safe_apply. }
  intros []. eapply safe_weaken; [apply Hfor|done|done]. intros t []. apply safe_drop_objects; set_solver.
Qed.
End Safety.

(** ** What planning reads *)

Lemma lookup_existing pick c n ex :
  (∀ k o k' o', pick k o = Some n → pick k' o' = Some n → k = k') →
  existing pick c !! n = Some ex ↔ ∃ k o, objs c !! k = Some o ∧ pick k o = Some n ∧ ex = existing_of o.
Proof.
  intros Hinj. unfold existing. set (l := omap _ _).
  assert (∀ x, (n, x) ∈ l ↔ ∃ k o, objs c !! k = Some o ∧ pick k o = Some n ∧ x = existing_of o) as Hl.
  { intros x. unfold l. rewrite list_elem_of_omap. split.
    - intros ([k o] & Hin & Heq). apply elem_of_map_to_list in Hin. simpl in Heq.
      destruct (pick k o) as [n'|] eqn:Hp; simplify_eq/=. eauto 10.
    - intros (k & o & Ho & Hp & ->). exists (k, o). simpl. rewrite Hp.
      split; [by apply elem_of_map_to_list|done]. }
  rewrite <-Hl. split; [by apply elem_of_list_to_map_2|]. intros Hin. apply elem_of_list_to_map_1'; [|done].
  intros y Hy. apply Hl in Hy as (k & o & Ho & Hp & ->). apply Hl in Hin as (k' & o' & Ho' & Hp' & ->).
  assert (k' = k) as -> by (by eapply Hinj). congruence.
Qed.

Lemma lookup_existing_check t c n ex :
  existing (pick_check t) c !! n = Some ex ↔ ∃ o, objs c !! KCheck t n = Some o ∧ ex = existing_of o.
Proof.
  assert (∀ k o, pick_check t k o = Some n ↔ k = KCheck t n) as Hp.
  { intros [t' n'|n'] o; simpl; [|naive_solver]. case_decide; naive_solver. }
  rewrite lookup_existing; [|intros ? ? ? ?; rewrite !Hp; congruence]. setoid_rewrite Hp. naive_solver.
Qed.

Lemma lookup_existing_index t c n ex :
  existing (pick_index t) c !! n = Some ex ↔
  ∃ o, objs c !! KIndex n = Some o ∧ o_table o = t ∧ ex = existing_of o.
Proof.
  assert (∀ k o, pick_index t k o = Some n ↔ k = KIndex n ∧ o_table o = t) as Hp.
  { intros [t' n'|n'] o; simpl; [naive_solver|]. case_decide; naive_solver. }
  rewrite lookup_existing; [|intros ? ? ? ?; rewrite !Hp; naive_solver]. setoid_rewrite Hp. naive_solver.
Qed.

Lemma elem_of_names_where f m n : n ∈ names_where f m ↔ ∃ ex, m !! n = Some ex ∧ f n ex = true.
Proof.
  unfold names_where. rewrite list_elem_of_omap. split.
  - intros ([n' ex] & Hin & Heq). apply elem_of_map_to_list in Hin. simpl in Heq.
    destruct (f n' ex) eqn:Hf; simplify_eq. eauto.
  - intros (ex & Hm & Hf). exists (n, ex). simpl. rewrite Hf. split; [by apply elem_of_map_to_list|done].
Qed.

Section Planning.
Context (reply : nat → Reply).
Context (index_name : string → IndexContract → string) (index_json : IndexContract → string).
Context (compile : EntityContract → result string EntityRules) `{!RuleCompiler compile}.

(** A run that leaves the catalog as it was. *)
Definition reads {A} (m : M A) : Prop :=
  ∀ env r env', m env = (r, env') → cat env' = cat env ∧ seen env' = seen env.

Lemma reads_ret {A} (a : A) : reads (mret a).
Proof. by intros env r env' [= <- <-]. Qed.
Lemma reads_fail {A} e : reads (@mfail A e).
Proof. by intros env r env' [= <- <-]. Qed.
Lemma reads_bind {A B} (m : M A) (k : A → M B) : reads m → (∀ a, reads (k a)) → reads (mbind_ m k).
Proof.
  intros Hm Hk env r env'. unfold mbind_. destruct (m env) as [[a|e] env1] eqn:H1.
  - destruct (Hm _ _ _ H1) as [<- <-]. intros [<- <-]%Hk. done.
  - intros [= <- <-]. by apply Hm in H1.
Qed.
Lemma reads_ask : reads (ask reply).
Proof. intros env r env'. unfold ask. by destruct (r_error _); intros [= <- <-]. Qed.
Lemma reads_read {A} (f : Catalog → A) : reads (read reply f).
Proof. apply reads_bind; [apply reads_ask|]. by intros a env r env' [= <- <-]. Qed.
Lemma reads_map {A B} (l : list A) (f : A → M B) : (∀ x, reads (f x)) → reads (mmap l f).
Proof.
  intros Hf. induction l as [|x l IH]; [apply reads_ret|].
  apply reads_bind; [apply Hf|]. intros y. apply reads_bind; [done|]. intros ys. apply reads_ret.
Qed.

(** The value a read gives is a function of the catalog. *)
Lemma read_value {A} (f : Catalog → A) env a env' : read reply f env = (Ok a, env') → a = f (cat env).
Proof.
  unfold read, mbind_, ask. destruct (r_error _); [done|]. intros [= <- <-]. done.
Qed.

Lemma mmap_fst {A B} (l : list A) (f : A → M B) env r env' :
  mmap l (λ x, let^ y := f x in mret (x, y)) env = (Ok r, env') → map fst r = l.
Proof.
  revert env r. induction l as [|x l IH]; intros env r; simpl.
  - by intros [= <- <-].
  - unfold mbind_, mret. destruct (f x env) as [[y|e] env1]; [|done].
    destruct (mmap l _ env1) as [[ys|e] env2] eqn:H; [|done]. intros [= <- <-]. simpl.
    f_equal. by eapply IH.
Qed.

Lemma bind_ok_inv {A B} (m : M A) (k : A → M B) env b env' :
  mbind_ m k env = (Ok b, env') → ∃ a env1, m env = (Ok a, env1) ∧ k a env1 = (Ok b, env').
Proof. unfold mbind_. destruct (m env) as [[a|e] env1]; [eauto|done]. Qed.

(** A planned table, as the catalog [c] it was planned on determines it. *)
Record plan_of (c : Catalog) (schema : string) (e : EntityContract) (previous : option EntityContract)
    (trigram : option string) (rules : EntityRules) (t : Table) : Prop := {
  po_compile : compile e = Ok rules;
  po_entity : t_entity t = e;
  po_schema : t_schema t = schema;
  po_trigram : t_trigram t = trigram;
  po_checks : t_checks t = map (λ ck, (ck, plan_check previous e
    (current (existing (pick_check (entity_name e)) c) (t_leftover_checks t) (cc_name ck)) ck)) (er_checks rules);
  po_indexes : map fst (t_indexes t) = er_indexes rules;
  po_create : ∀ i, (i, Create) ∈ t_indexes t →
    current (existing (pick_index (entity_name e)) c) (t_leftover_indexes t) (ci_name i) = None;
  po_leftover_checks : t_leftover_checks t = names_where leftover_check (existing (pick_check (entity_name e)) c);
  po_leftover_indexes : t_leftover_indexes t
    = names_where (leftover_index (map ci_name (er_indexes rules))) (existing (pick_index (entity_name e)) c);
  po_drop_checks : ∀ n, n ∈ t_drop_checks t → n ∉ map cc_name (er_checks rules);
  po_drop_indexes : ∀ n, n ∈ t_drop_indexes t → n ∉ map ci_name (er_indexes rules)
    ∧ is_Some (existing (pick_index (entity_name e)) c !! n) }.

Lemma reads_trigram_matches name columns trigram : reads (trigram_matches reply name columns trigram).
Proof. apply reads_bind; [apply reads_ask|]. intros. apply reads_ret. Qed.

Lemma reads_plan_index previous trigram ex i : reads (plan_index reply index_name index_json previous trigram ex i).
Proof.
  unfold plan_index. destruct ex as [ex|]; [|apply reads_ret].
  repeat (case_match; try apply reads_ret); apply reads_bind; try (intros; apply reads_ret);
    repeat case_match; first [apply reads_trigram_matches | apply reads_ret].
Qed.

Lemma plan_index_create previous trigram ex i env env' :
  plan_index reply index_name index_json previous trigram ex i env = (Ok Create, env') → ex = None.
Proof.
  unfold plan_index. destruct ex as [ex|]; [|done].
  destruct (opt_eqb _ _); [done|]. destruct (_ && _); [done|].
  intros (same & env1 & _ & H)%bind_ok_inv. by destruct same.
Qed.

Lemma mmap_elem {A B} (l : list A) (f : A → M B) env r env' x y :
  mmap l (λ x, let^ y := f x in mret (x, y)) env = (Ok r, env') → (x, y) ∈ r →
  ∃ env1 env2, f x env1 = (Ok y, env2).
Proof.
  revert env r. induction l as [|x' l IH]; intros env r; simpl.
  - intros [= <- <-]. set_solver.
  - unfold mbind_, mret. destruct (f x' env) as [[y'|e] env1] eqn:Hf; [|done].
    destruct (mmap l _ env1) as [[ys|e] env2] eqn:H; [|done].
    intros [= <- <-] [?|Hin]%elem_of_cons; simplify_eq; [eauto|]. by eapply IH.
Qed.

Lemma reads_plan schema e previous trigram :
  reads (plan reply index_name index_json compile schema e previous trigram).
Proof.
  unfold plan. apply reads_bind; [destruct (compile e); [apply reads_ret|apply reads_fail]|]. intros rules.
  apply reads_bind; [apply reads_read|]. intros cn. apply reads_bind; [apply reads_read|]. intros ixn.
  apply reads_bind; [|intros; apply reads_ret]. apply reads_map. intros i.
  apply reads_bind; [apply reads_plan_index|]. intros; apply reads_ret.
Qed.

Lemma undeclared_names f (declared leftovers : list string) m n :
  n ∈ names_where (λ name ex, f name ex
    && (negb (bool_decide (name ∈ declared)) && negb (bool_decide (name ∈ leftovers)))) m →
  n ∉ declared ∧ is_Some (m !! n).
Proof. intros (ex & Hm & H)%elem_of_names_where. bool_hyps. eauto. Qed.

Lemma plan_spec schema e previous trigram env t env' :
  plan reply index_name index_json compile schema e previous trigram env = (Ok t, env') →
  ∃ rules, plan_of (cat env) schema e previous trigram rules t.
Proof.
  unfold plan. intros (rules & env1 & Hr & H)%bind_ok_inv.
  assert (compile e = Ok rules ∧ env1 = env) as [Hc ->]
    by (destruct (compile e); simplify_eq/=; by injection Hr as <- <-).
  apply bind_ok_inv in H as (cn & env2 & Hcn & H). pose proof (read_value _ _ _ _ Hcn) as ->.
  apply reads_read in Hcn as [Hcat2 _].
  apply bind_ok_inv in H as (ixn & env3 & Hixn & H). pose proof (read_value _ _ _ _ Hixn) as ->.
  rewrite Hcat2 in H. apply bind_ok_inv in H as (indexes & env4 & Hix & H). injection H as <- <-.
  exists rules. pose proof (mmap_fst _ _ _ _ _ Hix) as Hfst. split; simpl; try done.
  - intros i Hin. destruct (mmap_elem _ _ _ _ _ _ _ Hix Hin) as (e1 & e2 & Hp).
    by apply plan_index_create in Hp.
  - intros n [Hn _]%undeclared_names. by rewrite map_map in Hn.
  - intros n [Hn ?]%undeclared_names. by rewrite <-Hfst, map_map.
Qed.

Lemma plan_all_spec app entities previous trigram env ts env' :
  plan_all reply index_name index_json compile app entities previous trigram env = (Ok ts, env') →
  cat env' = cat env ∧ seen env' = seen env
  ∧ Forall2 (λ e t, ∃ rules, plan_of (cat env) app e (find_entity previous e) trigram rules t) entities ts.
Proof.
  unfold plan_all. revert env ts. induction entities as [|e l IH]; intros env ts; simpl.
  - intros [= <- <-]. auto.
  - intros (t & env1 & Ht & H)%bind_ok_inv. apply bind_ok_inv in H as (ts' & env2 & Hts & H).
    injection H as <- <-. destruct (reads_plan _ _ _ _ _ _ _ Ht) as [Hc Hs].
    destruct (IH _ _ Hts) as (Hc' & Hs' & HF). rewrite Hc in *. rewrite Hs in *.
    split_and!; [done|done|]. constructor; [by eapply plan_spec|done].
Qed.
End Planning.

(** ** At every moment *)

Section Always.
Context (reply : nat → Reply).
Context (index_name : string → IndexContract → string) (index_json : IndexContract → string).
Context (digest8 : string → string).
Context (compile : EntityContract → result string EntityRules) `{!RuleCompiler compile}.

(** Statements that leave every object alone. *)
Definition keeps_objs {A} (m : M A) : Prop :=
  ∀ env r env', m env = (r, env') →
    objs (cat env') = objs (cat env)
    ∧ ∃ new, seen env' = new ++ seen env ∧ Forall (λ c, objs c = objs (cat env)) new.

Lemma keeps_same {A} (m : M A) : reads m → keeps_objs m.
Proof. intros Hm env r env' [Hc Hs]%Hm. rewrite Hc. split; [done|]. by exists []. Qed.
Lemma keeps_bind {A B} (m : M A) (k : A → M B) :
  keeps_objs m → (∀ a, keeps_objs (k a)) → keeps_objs (mbind_ m k).
Proof.
  intros Hm Hk env r env'. unfold mbind_. destruct (m env) as [[a|e] env1] eqn:H1.
  - destruct (Hm _ _ _ H1) as (Ho & new & Hs & HF). intros (Ho2 & new2 & Hs2 & HF2)%Hk.
    rewrite Ho2, Ho. split; [done|]. exists (new2 ++ new). rewrite Hs2, Hs, app_assoc. split; [done|].
    apply Forall_app. split; [by rewrite Ho in HF2|done].
  - intros [= <- <-]. by apply Hm in H1.
Qed.
Lemma keeps_for {A} (l : list A) f : (∀ x, keeps_objs (f x)) → keeps_objs (mfor l f).
Proof.
  intros Hf. induction l as [|x l IH]; [apply keeps_same, reads_ret|].
  apply keeps_bind; [apply Hf|]. by intros [].
Qed.

Lemma keeps_session s : keeps_objs (run_stmt reply (SSession s)).
Proof.
  intros env r env'. unfold run_stmt, run. simpl.
  destruct (r_error _); [destruct (r_lost _)|]; intros [= <- <-]; simpl; (split; [done|]); [|by exists []|];
    (exists [cat env]; split; [done|by constructor]).
Qed.

Lemma keeps_ensure_trigram : keeps_objs (ensure_trigram reply).
Proof.
  apply keeps_bind; [apply keeps_same, reads_read|]. intros [s|]; [apply keeps_same, reads_ret|].
  apply keeps_bind; [|intros []; apply keeps_same, reads_ret].
  intros env r env' [(Hc & Hs & _)|(c' & He & Hc & Hs)]%execute_cases.
  - rewrite Hc. split; [done|]. by exists [].
  - simpl in He. injection He as <-.
    assert (objs (cat env') = objs (cat env)) as Ho by (rewrite Hc; by destruct (extensions _ !! _)).
    split; [done|]. exists [cat env']. rewrite Hs, Hc. split; [done|]. constructor; [|done]. by rewrite <-Hc.
Qed.

(** The start of a run, up to the plans. *)
Definition prelude (entities : list EntityContract) : M (option string) :=
  do^ mfor SESSION (λ setting, run_stmt reply (SSession setting)) in
  if declares_trigram entities then let^ s := ensure_trigram reply in mret (Some s) else mret None.

Lemma keeps_prelude entities : keeps_objs (prelude entities).
Proof.
  apply keeps_bind; [apply keeps_for, keeps_session|]. intros [].
  destruct (declares_trigram entities); [|apply keeps_same, reads_ret].
  apply keeps_bind; [apply keeps_ensure_trigram|]. intros. apply keeps_same, reads_ret.
Qed.

Lemma reconcile_on_prelude app entities previous env :
  reconcile_on reply index_name index_json digest8 compile app entities previous env
  = (let^ trigram := prelude entities in
     let^ tables := plan_all reply index_name index_json compile app entities previous trigram in
     reconcile_tables reply digest8 tables) env.
Proof.
  unfold reconcile_on, prelude, mbind_. destruct (mfor SESSION _ env) as [[[]|e] env1]; [|done].
  destruct (declares_trigram entities); [|done]. by destruct (ensure_trigram reply env1) as [[]].
Qed.

(** A run keeps [prot] at every moment when the plans respect it. *)
Lemma reconcile_on_safe prot app entities previous env r env' :
  (∀ c trigram e rules t, objs c = objs (cat env) → e ∈ entities →
     plan_of compile c app e (find_entity previous e) trigram rules t → table_ok prot digest8 t) →
  Inv prot (cat env) → seen env = [] →
  reconcile_on reply index_name index_json digest8 compile app entities previous env = (r, env') →
  Forall (Inv prot) (cat env' :: seen env').
Proof.
  intros Htab Hinv Hseen. rewrite reconcile_on_prelude. unfold mbind_ at 1.
  assert (∀ c, objs c = objs (cat env) → Inv prot c) as Hsame.
  { intros c Hc k Q Hp. rewrite Hc. by apply Hinv. }
  destruct (prelude entities env) as [r1 env1] eqn:Hpre.
  destruct (keeps_prelude _ _ _ _ Hpre) as (Ho1 & new & Hs1 & HF1). rewrite Hseen, app_nil_r in Hs1.
  assert (env_ok prot [] env1) as Hok1.
  { split; [by apply Hsame|]. exists new. rewrite app_nil_r. split; [done|].
    eapply Forall_impl; [done|]. auto. }
  assert (∀ e, env_ok prot [] e → Forall (Inv prot) (cat e :: seen e)) as Hend.
  { intros e [? (new' & -> & ?)]. rewrite app_nil_r. by constructor. }
  destruct r1 as [trigram|e]; [|intros [= <- <-]; by apply Hend].
  unfold mbind_ at 1. destruct (plan_all _ _ _ _ _ _ _ _ env1) as [r2 env2] eqn:Hplan.
  destruct r2 as [tables|e].
  - apply plan_all_spec in Hplan as (Hc2 & Hs2 & HF); [|done].
    assert (env_ok prot [] env2) as Hok2 by (by eapply env_ok_same).
    intros Hrec. destruct (safe_reconcile_tables reply prot [] digest8 tables) with (env := env2) (r := r) (env' := env')
      as [Hok3 _]; [|done|done|done|by apply Hend].
    rewrite Forall_forall. intros t Ht. apply list_elem_of_lookup in Ht as [i Hi].
    destruct (Forall2_lookup_r _ _ _ _ _ HF Hi) as (e & He & rules & Hpo).
    eapply Htab; [done|by eapply list_elem_of_lookup_2|done].
  - assert (reads (plan_all reply index_name index_json compile app entities previous trigram)) as Hreads
      by (apply reads_map; intros; apply reads_plan; done).
    apply Hreads in Hplan as [Hc2 Hs2]. intros [= <- <-].
    apply Hend. by eapply env_ok_same.
Qed.
End Always.

Definition only (k : Key) (Q : Obj → Prop) (k' : Key) : option (Obj → Prop) :=
  if decide (k' = k) then Some Q else None.
Lemma only_Some k Q k' Q' : only k Q k' = Some Q' → k' = k ∧ Q' = Q.
Proof. unfold only. case_decide; naive_solver. Qed.
Lemma only_None k Q k' : k' ≠ k → only k Q k' = None.
Proof. unfold only. by case_decide. Qed.

Lemma NoDup_map_inj {A B} (f : A → B) l x y : NoDup (map f l) → x ∈ l → y ∈ l → f x = f y → x = y.
Proof.
  induction l as [|z l IH]; simpl; [set_solver|]. intros [Hz Hnd]%NoDup_cons Hx Hy Heq.
  apply elem_of_cons in Hx as [->|Hx]; apply elem_of_cons in Hy as [->|Hy]; auto.
  - exfalso. apply Hz. rewrite Heq. by apply list_elem_of_fmap_2.
  - exfalso. apply Hz. rewrite <-Heq. by apply list_elem_of_fmap_2.
Qed.

(** A valid object whose definition is [old] or one of [new]. *)
Definition enforces (old : string) (new : string → Prop) (o : Obj) : Prop :=
  o_valid o = true ∧ (o_def o = old ∨ new (o_def o)).

(** A declared check through [reconcile_on], at every moment. *)
Lemma check_enforced_on reply index_name index_json digest8 compile app entities previous
    env r env' e rules c o0 :
  RuleCompiler compile → NoDup (map entity_name entities) → e ∈ entities →
  compile e = Ok rules → c ∈ er_checks rules →
  objs (cat env) !! KCheck (entity_name e) (cc_name c) = Some o0 → o_valid o0 = true →
  leftover_check (cc_name c) (existing_of o0) = false → seen env = [] →
  reconcile_on reply index_name index_json digest8 compile app entities previous env = (r, env') →
  Forall (λ ct, ∃ o, objs ct !! KCheck (entity_name e) (cc_name c) = Some o
                 ∧ enforces (o_def o0) (λ d, d = cc_sql c) o) (cat env' :: seen env').
Proof.
  intros Hcomp Hnd He Hrules Hc Ho0 Hv0 Hleft Hseen Hrun.
  set (Q := enforces (o_def o0) (λ d, d = cc_sql c)).
  assert (Forall (Inv (only (KCheck (entity_name e) (cc_name c)) Q)) (cat env' :: seen env')) as H.
  { eapply reconcile_on_safe; [done| | |done|exact Hrun].
    - intros ct trigram e' rules' t Hobjs He' Hpo. destruct Hpo. subst e'. unfold t_name. split.
      + intros cp Hcp. destruct (cp.2) eqn:Hp; try done; [by intros Q' o [_ ->]%only_Some|].
        intros Q' o [Hk ->]%only_Some Hv Hd _. injection Hk as Hn Hcn. clear Hp.
        assert (t_entity t = e) as Heq by (by eapply (NoDup_map_inj entity_name)).
        rewrite Heq in *. assert (rules' = rules) as -> by congruence. rewrite po_checks0 in Hcp.
        apply list_elem_of_fmap in Hcp as (c' & -> & Hc'). simpl in *.
        assert (c' = c) as -> by (eapply (NoDup_map_inj cc_name); [by eapply compile_check_names|done..]).
        split; [done|by right].
      + intros ip _. split_and!; [destruct ip.2; try done; by intros Q' o [? _]%only_Some|by intros; apply only_None|by apply only_None].
      + intros n Hn. apply only_None. intros [= Hn1 ->].
        assert (t_entity t = e) as Heq by (by eapply (NoDup_map_inj entity_name)). rewrite Heq in *. assert (rules' = rules) as -> by congruence.
        apply elem_of_app in Hn as [Hn|Hn].
        * rewrite po_leftover_checks0 in Hn. apply elem_of_names_where in Hn as (ex & Hex & Hl).
          apply lookup_existing_check in Hex as (o & Ho & ->). rewrite Hobjs in Ho. simplify_eq. congruence.
        * apply (po_drop_checks0 _ Hn). by apply list_elem_of_fmap_2.
      + intros n _. by apply only_None.
    - intros k' Q' [-> ->]%only_Some. exists o0. split; [done|]. split; [done|by left]. }
  eapply Forall_impl; [exact H|]. intros ct Hct. apply (Hct _ Q). unfold only. by rewrite decide_True.
Qed.

(** The same for a declared index on its table, when no other entity of the
    app declares an index of that name. *)
Lemma index_enforced_on reply index_name index_json digest8 compile app entities previous
    env r env' e rules i o0 :
  RuleCompiler compile → NoDup (map entity_name entities) → e ∈ entities →
  compile e = Ok rules → i ∈ er_indexes rules →
  (∀ e' rules', e' ∈ entities → compile e' = Ok rules' → ci_name i ∈ map ci_name (er_indexes rules') → e' = e) →
  objs (cat env) !! KIndex (ci_name i) = Some o0 → o_table o0 = entity_name e → o_valid o0 = true →
  starts_with NEXT_PREFIX (ci_name i) = false → seen env = [] →
  reconcile_on reply index_name index_json digest8 compile app entities previous env = (r, env') →
  Forall (λ ct, ∃ o, objs ct !! KIndex (ci_name i) = Some o
                 ∧ enforces (o_def o0) (λ d, ∃ tg, d = create_sql i app (entity_name e) "" false tg) o)
    (cat env' :: seen env').
Proof.
  intros Hcomp Hnd He Hrules Hi Huniq Ho0 Ht0 Hv0 Hpre Hseen Hrun.
  set (Q := enforces (o_def o0) (λ d, ∃ tg, d = create_sql i app (entity_name e) "" false tg)).
  assert (Forall (Inv (only (KIndex (ci_name i)) Q)) (cat env' :: seen env')) as H.
  { eapply reconcile_on_safe; [done| | |done|exact Hrun].
    - intros ct trigram e' rules' t Hobjs He' Hpo. destruct Hpo. subst e'.
      assert (∀ ip, ip ∈ t_indexes t → ci_name ip.1 = ci_name i → t_entity t = e ∧ ip.1 = i) as Hown.
      { intros ip Hip Hn. assert (ip.1 ∈ er_indexes rules') as Hin
          by (rewrite <-po_indexes0; by apply list_elem_of_fmap_2).
        assert (t_entity t = e) as Heq
          by (eapply Huniq; [done|done|rewrite <-Hn; by apply list_elem_of_fmap_2]).
        split; [done|]. rewrite Heq in *. assert (rules' = rules) as -> by congruence.
        eapply (NoDup_map_inj ci_name); [by eapply compile_index_names|done..]. }
      assert (∀ ex, existing (pick_index (entity_name (t_entity t))) ct !! ci_name i = Some ex →
        t_entity t = e ∧ ex = existing_of o0) as Hex.
      { intros ex (o & Ho & Hto & ->)%lookup_existing_index. rewrite Hobjs in Ho. simplify_eq.
        split; [|done]. eapply (NoDup_map_inj entity_name); [done|done|done|congruence]. }
      assert (is_Some (existing (pick_index (entity_name e)) ct !! ci_name i)) as Hsome.
      { exists (existing_of o0). apply lookup_existing_index. exists o0. by rewrite Hobjs. }
      assert (ci_name i ∉ t_leftover_indexes t) as Hleft.
      { rewrite po_leftover_indexes0. intros (ex & Hl & Hb)%elem_of_names_where.
        destruct (Hex _ Hl) as [_ ->]. unfold leftover_index in Hb. rewrite Hpre in Hb. simpl in Hb.
        rewrite Hv0 in Hb. by rewrite andb_false_r in Hb. }
      split.
      + intros cp _. destruct cp.2; try done; by intros Q' o [? _]%only_Some.
      + intros ip Hip. split_and!.
        * destruct ip.2 eqn:Hp; try done; [by intros Q' o [_ ->]%only_Some|]. clear Hp.
          intros Q' o [[= Hn] ->]%only_Some Hv Hd _. destruct (Hown ip Hip Hn) as [Heq Hi'].
          split; [done|right]. rewrite Hd. unfold index_def, t_name. rewrite Heq, Hi', po_schema0. by eexists.
        * intros Hcr. apply only_None. intros [= Hn]. destruct (Hown ip Hip Hn) as [Heq Hi'].
          destruct ip as [i' p]; cbn [fst snd] in Hcr, Hi', Hip; rewrite Hcr, Hi' in Hip. apply po_create0 in Hip. unfold current in Hip.
          rewrite decide_False, Heq in Hip by done. rewrite Hip in Hsome. by destruct Hsome.
        * apply only_None. intros [= Hn]. rewrite <-Hn in Hpre. unfold next_name in Hpre.
          assert (starts_with NEXT_PREFIX (NEXT_PREFIX +:+ digest8 (ci_name ip.1)) = true) as Ht
            by (apply starts_with_iff; eauto). congruence.
      + intros n _. by apply only_None.
      + intros n Hn. apply only_None. intros [= ->]. apply elem_of_app in Hn as [Hn|Hn]; [done|].
        destruct (po_drop_indexes0 _ Hn) as [Hnot [ex Hl]]. destruct (Hex _ Hl) as [Heq _].
        rewrite Heq in *. assert (rules' = rules) as -> by congruence. apply Hnot. by apply list_elem_of_fmap_2.
    - intros k' Q' [-> ->]%only_Some. exists o0. split; [done|]. split; [done|by left]. }
  eapply Forall_impl; [exact H|]. intros ct Hct. apply (Hct _ Q). unfold only. by rewrite decide_True.
Qed.

(** ** What a run that succeeds leaves *)

Lemma mfor_split {A} (l1 l2 : list A) x f env env' :
  mfor (l1 ++ x :: l2) f env = (Ok tt, env') →
  ∃ env1 env2, mfor l1 f env = (Ok tt, env1) ∧ f x env1 = (Ok tt, env2) ∧ mfor l2 f env2 = (Ok tt, env').
Proof.
  revert env. induction l1 as [|y l1 IH]; intros env; simpl.
  - intros ([] & env2 & Hx & Hl)%bind_ok_inv. by exists env, env2.
  - intros ([] & env1 & Hy & (e1 & e2 & H1 & H2 & H3)%IH)%bind_ok_inv. exists e1, e2.
    unfold mbind_. by rewrite Hy.
Qed.

(** Exactly [o] stays under [k] through a safe run. *)
Lemma safe_exact {A} (m : M A) k o env r env' :
  safe (only k (λ o', o' = o)) (seen env) m (λ _, True) (λ _ _, True) →
  objs (cat env) !! k = Some o → m env = (r, env') → objs (cat env') !! k = Some o.
Proof.
  intros Hsafe Ho Hrun. destruct (Hsafe env r env') as [[Hinv _] _]; [|done|done|].
  - split; [|by exists []]. intros k' Q' [-> ->]%only_Some. eauto.
  - destruct (Hinv k (λ o', o' = o)) as (o' & ? & ->); [|done]. unfold only. by rewrite decide_True.
Qed.

Lemma plan_ok_foreign prot p k def text : prot k = None → plan_ok prot p k def text.
Proof. intros Hp. destruct p; try done; intros Q o; by rewrite Hp. Qed.

Lemma table_ok_other digest8 tn n Q t : t_name t ≠ tn → table_ok (only (KCheck tn n) Q) digest8 t.
Proof.
  intros Hne. split.
  - intros cp _. apply plan_ok_foreign, only_None. congruence.
  - intros ip _. split_and!; [apply plan_ok_foreign| |]; intros; by apply only_None.
  - intros m _. apply only_None. congruence.
  - intros m _. by apply only_None.
Qed.

(** A check that is in force, tagged as compiled. *)
Definition in_force (check : CompiledCheck) (o : Obj) : Prop :=
  o_valid o = true ∧ o_comment o = Some (CHECK_TAG +:+ cc_tag check).

Lemma add_validated_check_ok reply t n check env env' :
  add_validated_check reply t n check env = (Ok tt, env') →
  ∃ o, objs (cat env') !! KCheck t n = Some o ∧ o_valid o = true ∧ o_def o = cc_sql check.
Proof.
  intros H. destruct (safe_add_validated_check reply (λ _, None) (seen env) t n check) with
    (env := env) (r := @Ok RuntimeError _ tt) (env' := env') as [_ Hb]; [|done|done|].
  - split; [done|]. by exists [].
  - by destruct (Hb tt eq_refl) as [_ ?].
Qed.

Lemma apply_check_ok reply digest8 table check p env env' :
  apply_check reply digest8 table (check, p) env = (Ok tt, env') →
  match p with
  | Keep => env' = env
  | Adopt => ∃ o0, objs (cat env) !! KCheck (t_name table) (cc_name check) = Some o0
      ∧ objs (cat env') !! KCheck (t_name table) (cc_name check) = Some (with_comment (CHECK_TAG +:+ cc_tag check) o0)
  | Create | Replace => ∃ o, objs (cat env') !! KCheck (t_name table) (cc_name check) = Some o
      ∧ in_force check o ∧ o_def o = cc_sql check
  end.
Proof.
  destruct p; simpl.
  - by intros [= <-].
  - intros [(_ & _ & Hr)|(c' & He & Hc & _)]%execute_cases; [done|]. simpl in He.
    destruct (update_obj _ _ _) as [c1|] eqn:Hu; [|done]. injection He as <-.
    apply update_obj_Some in Hu as (o & Ho & Hobj). exists o.
    by rewrite Hc, Hobj, lookup_insert_eq.
  - intros ([] & env1 & (o & Ho & Hv & Hd)%add_validated_check_ok & H)%bind_ok_inv.
    apply execute_cases in H as [(_ & _ & Hr)|(c' & He & Hc & _)]; [done|]. simpl in He.
    destruct (update_obj _ _ _) as [c1|] eqn:Hu; [|done]. injection He as <-.
    apply update_obj_Some in Hu as (o' & Ho' & Hobj). assert (o' = o) as -> by congruence. eexists.
    by rewrite Hc, Hobj, lookup_insert_eq.
  - intros ([] & env1 & (o & Ho & Hv & Hd)%add_validated_check_ok & H)%bind_ok_inv.
    apply execute_cases in H as [(_ & _ & Hr)|(c' & He & Hc & _)]; [done|]. simpl in He.
    destruct (drop_obj _ _ _) as [c1|] eqn:H1; [|done]. destruct (rename_obj _ _ c1) as [c2|] eqn:H2; [|done].
    destruct (update_obj _ _ c2) as [c3|] eqn:H3; [|done]. injection He as <-.
    apply update_obj_Some in H3 as (o' & Ho' & Hobj). eexists.
    rewrite Hc, Hobj, lookup_insert_eq. split; [done|].
    unfold drop_obj in H1. destruct (objs (cat env1) !! KCheck _ (cc_name check)) eqn:Hd1; [|done]. injection H1 as <-.
    unfold rename_obj in H2. simpl in H2. destruct (delete _ _ !! KCheck _ (next_name _ _)) as [on|] eqn:Hn; [|done].
    destruct (delete _ _ !! KCheck _ (cc_name check)); [done|]. injection H2 as <-. simpl in Ho'.
    rewrite lookup_insert_eq in Ho'. apply lookup_delete_Some in Hn as [_ Hn]. simplify_eq. done.
Qed.

(** The phases of a run before and after one check is applied: [t] is the table
    between [ts1] and [ts2], the check is the one between [cs1] and [cs2]. *)
Section Around.
Context (reply : nat → Reply) (digest8 : string → string).
Context (ts1 ts2 : list Table) (t : Table).
Context (cs1 cs2 : list (CompiledCheck * Plan)) (check : CompiledCheck) (p : Plan).

Definition before_check : M unit :=
  do^ mfor (ts1 ++ t :: ts2) (λ t, drop_objects reply t (t_leftover_checks t) (t_leftover_indexes t)) in
  do^ mfor (ts1 ++ t :: ts2) (λ t, preflight_table reply t false) in
  do^ mfor ts1 (apply reply digest8) in
  mfor cs1 (apply_check reply digest8 t).
Definition after_check : M unit :=
  do^ mfor cs2 (apply_check reply digest8 t) in
  do^ mfor (t_indexes t) (apply_index reply digest8 t) in
  do^ mfor ts2 (apply reply digest8) in
  mfor (ts1 ++ t :: ts2) (λ t, drop_objects reply t (t_drop_checks t) (t_drop_indexes t)).

Lemma reconcile_tables_around env env' :
  t_checks t = cs1 ++ (check, p) :: cs2 →
  reconcile_tables reply digest8 (ts1 ++ t :: ts2) env = (Ok tt, env') →
  ∃ env1 env2, before_check env = (Ok tt, env1) ∧ apply_check reply digest8 t (check, p) env1 = (Ok tt, env2)
    ∧ after_check env2 = (Ok tt, env').
Proof.
  intros Hcs ([] & a & Ha & H)%bind_ok_inv. apply bind_ok_inv in H as ([] & b & Hb & H).
  apply bind_ok_inv in H as ([] & c & Hc & H). apply mfor_split in Hc as (c1 & c2 & Hc1 & Ht & Hc2).
  apply bind_ok_inv in Ht as ([] & d & Hd & Hix). rewrite Hcs in Hd.
  apply mfor_split in Hd as (d1 & d2 & Hd1 & Hd & Hd2). exists d1, d2.
  unfold before_check, after_check, mbind_. by rewrite Ha, Hb, Hc1, Hd2, Hix, Hc2.
Qed.

Context (o : Obj).
Context (Hts : ∀ t', t' ∈ ts1 ++ ts2 → t_name t' ≠ t_name t).
Context (Hcs : ∀ cp, cp ∈ cs1 ++ cs2 → cc_name cp.1 ≠ cc_name check).
Let K := KCheck (t_name t) (cc_name check).
Let prot := only K (λ o', o' = o).
Local Notation quiet m := (∀ base, safe prot base m (λ _, True) (λ _ _, True)).

Lemma quiet_bind (m k : M unit) : quiet m → quiet k → quiet (do^ m in k).
Proof. intros Hm Hk base. by eapply safe_bind; [apply Hm|intros []; eapply safe_weaken; [apply Hk|..]]. Qed.

Lemma quiet_checks cs : (∀ cp, cp ∈ cs → cp ∈ cs1 ++ cs2) → quiet (mfor cs (apply_check reply digest8 t)).
Proof.
  intros Hsub base. apply safe_for. intros cp Hcp. apply safe_apply_check, plan_ok_foreign, only_None.
  intros [= He]. by eapply Hcs; [apply Hsub|].
Qed.

Lemma quiet_tables ts : (∀ t', t' ∈ ts → t' ∈ ts1 ++ ts2) → quiet (mfor ts (apply reply digest8)).
Proof. intros Hsub base. apply safe_for. intros t' Ht'. by apply safe_apply, table_ok_other, Hts, Hsub. Qed.

Lemma quiet_drops (cks ixs : Table → list string) :
  cc_name check ∉ cks t → quiet (mfor (ts1 ++ t :: ts2) (λ t, drop_objects reply t (cks t) (ixs t))).
Proof.
  intros Hn base. apply safe_for. intros t' Ht'. apply safe_drop_objects; [|by intros; apply only_None].
  intros n Hin. apply only_None. intros [= Ht Hc]. subst n.
  apply elem_of_app in Ht' as [Ht'|[->|Ht']%elem_of_cons]; [| |]; try done; (eapply Hts; [|done]; set_solver).
Qed.

Lemma before_check_keeps env r env' :
  cc_name check ∉ t_leftover_checks t → objs (cat env) !! K = Some o →
  before_check env = (r, env') → objs (cat env') !! K = Some o.
Proof.
  intros Hn. apply safe_exact. revert env. assert (quiet before_check) as Hq; [|done].
  repeat apply quiet_bind.
  - by apply quiet_drops.
  - intros base. apply safe_for. intros. apply safe_preflight.
  - apply quiet_tables. set_solver.
  - apply quiet_checks. set_solver.
Qed.

Lemma after_check_keeps env r env' :
  cc_name check ∉ t_drop_checks t → objs (cat env) !! K = Some o →
  after_check env = (r, env') → objs (cat env') !! K = Some o.
Proof.
  intros Hn. apply safe_exact. assert (quiet after_check) as Hq; [|done].
  repeat apply quiet_bind.
  - apply quiet_checks. set_solver.
  - intros base. apply safe_for. intros ip _. apply safe_apply_index; [apply plan_ok_foreign| |]; intros; by apply only_None.
  - apply quiet_tables. set_solver.
  - by apply quiet_drops.
Qed.
End Around.

Lemma others_differ {A B} (f : A → B) l1 x l2 :
  NoDup (map f (l1 ++ x :: l2)) → ∀ y, y ∈ l1 ++ l2 → f y ≠ f x.
Proof.
  intros Hnd y Hy Heq. rewrite (map_app f l1) in Hnd. simpl in Hnd.
  apply NoDup_app in Hnd as (_ & Hdis & Hnd). apply NoDup_cons in Hnd as [Hnot _].
  apply elem_of_app in Hy as [Hy|Hy].
  - apply (Hdis (f y)); [by apply list_elem_of_fmap_2|]. rewrite Heq. left.
  - apply Hnot. rewrite <-Heq. by apply list_elem_of_fmap_2.
Qed.

(** The table of an entity among those planned; the others have other names. *)
Lemma tables_around compile c app entities previous trigram tables e :
  NoDup (map entity_name entities) →
  Forall2 (λ e t, ∃ rules, plan_of compile c app e (find_entity previous e) trigram rules t) entities tables →
  e ∈ entities →
  ∃ ts1 t ts2 rules, tables = ts1 ++ t :: ts2 ∧ plan_of compile c app e (find_entity previous e) trigram rules t
    ∧ ∀ t', t' ∈ ts1 ++ ts2 → t_name t' ≠ t_name t.
Proof.
  intros Hnd HF He.
  assert (map t_name tables = map entity_name entities) as Hn.
  { clear Hnd He. induction HF as [|e' t' l k (rules & Hpo) _ IH]; [done|]. simpl. rewrite IH. f_equal.
    unfold t_name. by rewrite (po_entity _ _ _ _ _ _ _ _ Hpo). }
  apply list_elem_of_lookup in He as [i Hi].
  destruct (Forall2_lookup_l _ _ _ _ _ HF Hi) as (t & Ht & rules & Hpo).
  destruct (list_elem_of_split _ _ (list_elem_of_lookup_2 _ _ _ Ht)) as (ts1 & ts2 & ->).
  exists ts1, t, ts2, rules. split_and!; [done|done|]. apply (others_differ t_name). by rewrite Hn.
Qed.

Lemma tag_of_Some comment pre tag : tag_of comment pre = Some tag ↔ comment = Some (pre +:+ tag).
Proof.
  unfold tag_of. destruct comment as [s|]; simpl; [|naive_solver]. rewrite strip_prefix_Some. naive_solver.
Qed.

Lemma plan_check_keep previous e ex check :
  plan_check previous e ex check = Keep →
  ∃ x, ex = Some x ∧ ex_valid x = true ∧ ex_comment x = Some (CHECK_TAG +:+ cc_tag check).
Proof.
  unfold plan_check. destruct ex as [x|]; [|done].
  destruct (tag_of _ _) as [tag|] eqn:Ht; [|done]. apply tag_of_Some in Ht.
  destruct (bool_decide _ && _) eqn:Hk; [|by destruct (_ && check_was_declared _ _ _)]. bool_hyps. subst tag. eauto.
Qed.

(** What an object Core adopts has to be: valid, tagged by the older compiler for
    the same rule, and declared alike by the manifest installed before. *)
Definition adoptable (previous : option EntityContract) (e : EntityContract) (check : CompiledCheck) (o : Obj) : Prop :=
  o_valid o = true ∧ check_was_declared previous e check = true
  ∧ ∃ tag, cc_legacy_tag check = Some tag ∧ o_comment o = Some (CHECK_TAG +:+ tag).

Lemma plan_check_adopt previous e o check :
  plan_check previous e (Some (existing_of o)) check = Adopt → adoptable previous e check o.
Proof.
  unfold plan_check. destruct (tag_of _ _) as [tag|] eqn:Ht; [|done]. apply tag_of_Some in Ht.
  destruct (bool_decide _ && _); [done|]. destruct (_ && check_was_declared _ _ _) eqn:Ha; [|done]. unfold opt_eqb in Ha. bool_hyps. intros _.
  split_and!; [done|done|eauto].
Qed.

(** The plan of a declared check, against the object in the catalog. *)
Lemma planned_object compile c app e previous trigram rules t check :
  plan_of compile c app e previous trigram rules t → check ∈ er_checks rules →
  ∃ p, (check, p) ∈ t_checks t ∧
  match p with
  | Keep => cc_name check ∉ t_leftover_checks t
      ∧ ∃ o, objs c !! KCheck (entity_name e) (cc_name check) = Some o ∧ in_force check o
  | Adopt => cc_name check ∉ t_leftover_checks t
      ∧ ∃ o, objs c !! KCheck (entity_name e) (cc_name check) = Some o ∧ adoptable previous e check o
  | Create | Replace => True
  end.
Proof.
  intros [] Hc. eexists. split; [rewrite po_checks0; apply list_elem_of_fmap; eauto|].
  unfold current. case_decide as Hl; [done|].
  destruct (existing _ c !! cc_name check) as [ex|] eqn:Hex; [|done].
  apply lookup_existing_check in Hex as (o & Ho & ->).
  destruct (plan_check _ _ _ _) eqn:Hp; try done; (split; [done|]); exists o.
  - apply plan_check_keep in Hp as (x & [= <-] & Hv & Hcm). done.
  - by apply plan_check_adopt in Hp.
Qed.

(** The checks [reconcile_on] leaves when it reports success. *)
Lemma checks_installed_on reply index_name index_json digest8 compile app entities previous
    env env' e rules check :
  RuleCompiler compile → NoDup (map entity_name entities) → e ∈ entities →
  compile e = Ok rules → check ∈ er_checks rules →
  reconcile_on reply index_name index_json digest8 compile app entities previous env = (Ok tt, env') →
  ∃ o, objs (cat env') !! KCheck (entity_name e) (cc_name check) = Some o ∧ in_force check o
    ∧ (o_def o = cc_sql check
       ∨ ∃ o0, objs (cat env) !! KCheck (entity_name e) (cc_name check) = Some o0 ∧ o_def o = o_def o0
           ∧ (in_force check o0 ∨ adoptable (find_entity previous e) e check o0)).
Proof.
  intros Hcomp Hnd He Hrules Hc. rewrite reconcile_on_prelude.
  intros (trigram & env1 & (Hsame & _)%keeps_prelude & H)%bind_ok_inv.
  apply bind_ok_inv in H as (tables & env2 & (Hcat & _ & HF)%plan_all_spec & Hrun); [|done].
  destruct (tables_around _ _ _ _ _ _ _ _ Hnd HF He) as (ts1 & t & ts2 & rules' & -> & Hpo & Hts).
  assert (rules' = rules) as -> by (destruct Hpo; congruence).
  destruct (planned_object _ _ _ _ _ _ _ _ _ Hpo Hc) as (p & Hin & Hp).
  assert (NoDup (map (cc_name ∘ fst) (t_checks t))) as Hnames.
  { rewrite (po_checks _ _ _ _ _ _ _ _ Hpo), map_map. simpl. by eapply compile_check_names. }
  destruct (list_elem_of_split _ _ Hin) as (cs1 & cs2 & Hcs). rewrite Hcs in Hnames.
  pose proof (others_differ _ _ _ _ Hnames) as Hothers. simpl in Hothers.
  assert (t_name t = entity_name e) as Ht by (unfold t_name; by rewrite (po_entity _ _ _ _ _ _ _ _ Hpo)).
  destruct (reconcile_tables_around _ _ _ _ _ _ _ _ _ _ _ Hcs Hrun) as (e1 & e2 & Hb & Ha & Hafter).
  assert (cc_name check ∉ t_drop_checks t) as Hdrop.
  { intros Hd. apply (po_drop_checks _ _ _ _ _ _ _ _ Hpo _ Hd). by apply list_elem_of_fmap_2. }
  apply apply_check_ok in Ha. rewrite <-Ht in *.
  assert (∀ o, objs (cat e2) !! KCheck (t_name t) (cc_name check) = Some o →
    objs (cat env') !! KCheck (t_name t) (cc_name check) = Some o) as Hend
    by (intros o Ho; by eapply after_check_keeps).
  rewrite <-Hcat in Hp. destruct p.
  - destruct Hp as (Hl & o & Ho & Hf). subst e2. exists o. split; [apply Hend; by eapply before_check_keeps|].
    split; [done|right]. exists o. rewrite <-Hsame, <-Hcat. auto.
  - destruct Hp as (Hl & o & Ho & Hf). destruct Ha as (o0 & Ho0 & Ho1).
    pose proof (before_check_keeps _ _ _ _ _ _ _ _ _ Hts Hothers _ _ _ Hl Ho Hb) as Hk. assert (o0 = o) as -> by congruence.
    exists (with_comment (CHECK_TAG +:+ cc_tag check) o). split; [by apply Hend|]. destruct Hf as (Hv & ? & ?).
    split; [done|right]. exists o. rewrite <-Hsame, <-Hcat. split_and!; [done|done|]. right. done.
  - destruct Ha as (o & Ho & ? & ?). exists o. auto.
  - destruct Ha as (o & Ho & ? & ?). exists o. auto.
Qed.

(** ** The entry point *)

(** [reconcile] fails before its run, leaving everything as it was, or runs. *)
Lemma reconcile_cases reply index_name index_json digest8 compile app stored entities env r env' :
  reconcile reply index_name index_json digest8 compile app stored entities env = (r, env') →
  (cat env' = cat env ∧ seen env' = seen env ∧ is_ok r = false)
  ∨ ∃ env1, cat env1 = cat env ∧ seen env1 = seen env
      ∧ reconcile_on reply index_name index_json digest8 compile app entities (default [] stored) env1 = (r, env').
Proof.
  unfold reconcile, mbind_ at 1. destruct (previous_entities reply stored env) as [r1 env1] eqn:H1.
  destruct (reads_read _ _ _ _ _ H1) as [Hc1 Hs1]. destruct r1 as [previous|e]; [|intros [= <- <-]; by left].
  apply read_value in H1 as ->. unfold mbind_ at 1. destruct (ask reply env1) as [r2 env2] eqn:H2.
  destruct (reads_ask _ _ _ _ H2) as [Hc2 Hs2]. rewrite Hc1 in Hc2. rewrite Hs1 in Hs2.
  destruct r2; [|intros [= <- <-]; by left]. intros Hrun. right. by exists env2.
Qed.

(** [C1] Checks stay in force while they are reconciled.  Whatever the database replies
    and wherever the run stops: a declared check whose constraint is in the catalog, valid
    and not a leftover (its name does not begin with [NEXT_PREFIX] and its comment carries
    no pending tag), is enforced in every catalog that becomes visible, by a valid
    constraint of its name with its old condition or the one its declaration compiles to;
    and after a run that succeeds every declared check, a leftover or not, is enforced with
    the compiled condition, or the one that was there under the tag of this or of the older
    compiler.  [next_prefix_check_is_dropped] shows a leftover that is not one. *)
Theorem declared_check_always_enforced reply index_name index_json digest8 compile app stored entities
    env r env' e rules c :
  RuleCompiler compile → NoDup (map entity_name entities) → e ∈ entities →
  compile e = Ok rules → c ∈ er_checks rules → seen env = [] →
  reconcile reply index_name index_json digest8 compile app stored entities env = (r, env') →
  (∀ o0, objs (cat env) !! KCheck (entity_name e) (cc_name c) = Some o0 → o_valid o0 = true →
     leftover_check (cc_name c) (existing_of o0) = false →
     Forall (λ ct, ∃ o, objs ct !! KCheck (entity_name e) (cc_name c) = Some o
                    ∧ enforces (o_def o0) (λ d, d = cc_sql c) o) (cat env' :: seen env'))
  ∧ (r = Ok tt → ∃ o, objs (cat env') !! KCheck (entity_name e) (cc_name c) = Some o ∧ in_force c o
       ∧ (o_def o = cc_sql c
          ∨ ∃ o0, objs (cat env) !! KCheck (entity_name e) (cc_name c) = Some o0 ∧ o_def o = o_def o0
              ∧ (in_force c o0 ∨ adoptable (find_entity (default [] stored) e) e c o0))).
Proof.
  intros Hcomp Hnd He Hrules Hc Hseen [(Hcat & Hs & Hr)|(env1 & Hcat & Hs & Hrun)]%reconcile_cases.
  - split; [|intros ->; done]. intros o0 Ho0 Hv0 _. rewrite Hs, Hseen, Hcat. constructor; [|done]. exists o0. split; [done|]. split; [done|by left].
  - rewrite Hseen in Hs. split.
    + intros o0 Ho0 Hv0 Hleft. rewrite <-Hcat in Ho0. by eapply check_enforced_on.
    + intros ->. rewrite <-Hcat. by eapply checks_installed_on.
Qed.

(** The same for a declared index on its table, when no other entity of the
    app declares an index of that name. *)
Theorem declared_index_always_enforced reply index_name index_json digest8 compile app stored entities
    env r env' e rules i o0 :
  RuleCompiler compile → NoDup (map entity_name entities) → e ∈ entities →
  compile e = Ok rules → i ∈ er_indexes rules →
  (∀ e' rules', e' ∈ entities → compile e' = Ok rules' → ci_name i ∈ map ci_name (er_indexes rules') → e' = e) →
  objs (cat env) !! KIndex (ci_name i) = Some o0 → o_table o0 = entity_name e → o_valid o0 = true →
  starts_with NEXT_PREFIX (ci_name i) = false → seen env = [] →
  reconcile reply index_name index_json digest8 compile app stored entities env = (r, env') →
  Forall (λ ct, ∃ o, objs ct !! KIndex (ci_name i) = Some o
                 ∧ enforces (o_def o0) (λ d, ∃ tg, d = create_sql i app (entity_name e) "" false tg) o)
    (cat env' :: seen env').
Proof.
  intros Hcomp Hnd He Hrules Hi Huniq Ho0 Ht0 Hv0 Hpre Hseen [(Hcat & Hs & _)|(env1 & Hcat & Hs & Hrun)]%reconcile_cases.
  - rewrite Hs, Hseen, Hcat. constructor; [|done]. exists o0. split; [done|]. split; [done|by left].
  - rewrite Hseen in Hs. rewrite <-Hcat in Ho0. by eapply index_enforced_on.
Qed.

(** ** Concrete runs *)

Definition demo_compiler (e : EntityContract) : result string EntityRules := compile_text (demo_compile e).
Lemma demo_compiler_ok : RuleCompiler demo_compiler.
Proof. apply compile_entity_compiler. Defined.

Definition demo_rules : EntityRules :=
  match demo_compiler demo_rules_entity with Ok r => r | Err _ => {| er_checks := []; er_indexes := [] |} end.
Definition no_check : CompiledCheck :=
  {| cc_name := ""; cc_sql := ""; cc_tag := ""; cc_legacy_tag := None; cc_origin := OShorthand |}.
Definition adult : CompiledCheck := List.nth 4 (er_checks demo_rules) no_check.
Definition old_adult : Obj :=
  {| o_table := "person"; o_def := "age >= 16";
     o_comment := Some "rootcx:chk:r1-9"; o_valid := true |}.
Definition no_index : CompiledIndex :=
  {| ci_name := ""; ci_unique := false; ci_trigram := false; ci_method := ""; ci_keys := []; ci_key_values := [];
     ci_predicate := None; ci_tag := ""; ci_legacy_tag := "";
     ci_declared := {| idx_name := None; idx_columns := []; idx_unique := false; idx_using := None;
                       idx_where := None; idx_with := []; idx_unknown := [] |}; ci_columns := [] |}.
Definition by_age : CompiledIndex := List.nth 0 (er_indexes demo_rules) no_index.
Definition old_index : Obj :=
  {| o_table := "person"; o_def := "an older definition"; o_comment := None; o_valid := true |}.

Definition demo_env : Env :=
  {| cat := {| objs := <[KIndex (ci_name by_age) := old_index]> {[KCheck "person" "adult" := old_adult]};
               extensions := ∅ |};
     tick := 0; seen := [] |}.

(** Every statement succeeds until the given step, then every one fails. *)
Definition fails_from (step n : nat) : Reply :=
  {| r_error := if step <=? n then Some {| db_code := None; db_text := "connection lost" |} else None;
     r_count := 0; r_ids := []; r_flag := true; r_shape := None; r_lost := false; r_residue := true |}.

Definition demo_run (step : nat) : result RuntimeError unit * Env :=
  reconcile (fails_from step) (resolve_index_name (join ",") (default "")) (λ _, "") (λ _, "0123456789abcdef")
    demo_compiler "crm" None [demo_rules_entity] demo_env.

Lemma declared_check_always_enforced_witness :
  ((demo_run 100).1 = Ok tt ∧ ∃ o, objs (cat (demo_run 100).2) !! KCheck "person" "adult" = Some o ∧ in_force adult o)
  ∧ Forall (λ ct, ∃ o, objs ct !! KCheck "person" "adult" = Some o
      ∧ enforces "age >= 16" (λ d, d = cc_sql adult) o) (cat (demo_run 30).2 :: seen (demo_run 30).2).
Proof.
  assert (demo_compiler demo_rules_entity = Ok demo_rules) as Hr by (vm_compute; reflexivity).
  assert (adult ∈ er_checks demo_rules) as Ha by (apply (list_elem_of_lookup_2 _ 4); vm_compute; reflexivity).
  pose proof (λ n, declared_check_always_enforced (fails_from n)
    (resolve_index_name (join ",") (default "")) (λ _, "") (λ _, "0123456789abcdef") demo_compiler "crm" None [demo_rules_entity]
    demo_env (demo_run n).1 (demo_run n).2 demo_rules_entity demo_rules adult demo_compiler_ok (NoDup_singleton _) (list_elem_of_here _ _) Hr Ha eq_refl
    (surjective_pairing (demo_run n))) as H.
  assert ((demo_run 100).1 = Ok tt) as Hok by (vm_compute; reflexivity). split; [split; [exact Hok|]|].
  - destruct (proj2 (H 100) Hok) as (o & Ho & Hf & _). exists o. split; [exact Ho|exact Hf].
  - apply (proj1 (H 30) old_adult); vm_compute; reflexivity.
Defined.

Lemma declared_index_always_enforced_witness :
  Forall (λ ct, ∃ o, objs ct !! KIndex (ci_name by_age) = Some o
      ∧ enforces "an older definition" (λ d, ∃ tg, d = create_sql by_age "crm" "person" "" false tg) o)
    (cat (demo_run 40).2 :: seen (demo_run 40).2).
Proof.
  eapply (declared_index_always_enforced (fails_from 40)
    (resolve_index_name (join ",") (default "")) (λ _, "") (λ _, "0123456789abcdef") demo_compiler "crm" None [demo_rules_entity]
    demo_env (demo_run 40).1 (demo_run 40).2 demo_rules_entity demo_rules by_age old_index).
  - exact demo_compiler_ok.
  - apply NoDup_singleton.
  - left.
  - vm_compute. reflexivity.
  - apply (list_elem_of_lookup_2 _ 0). vm_compute. reflexivity.
  - intros e' rules' He' _ _. by apply list_elem_of_singleton in He'.
  - vm_compute. reflexivity.
  - reflexivity.
  - reflexivity.
  - vm_compute. reflexivity.
  - reflexivity.
  - exact (surjective_pairing (demo_run 40)).
Defined.

(** ** Where the promise stops *)

(** A manifest may name a check with the prefix of Core's twins; the check is
    then a leftover to every later install, which drops it before building it
    again. *)
Lemma next_prefix_check_is_dropped :
  ∃ name ex, validate_new_ident name "check name" = Ok tt ∧ ex_valid ex = true
    ∧ tag_of (ex_comment ex) CHECK_TAG = Some "r1-0" ∧ leftover_check name ex = true.
Proof.
  exists "rootcx_next_adult", {| ex_comment := Some "rootcx:chk:r1-0"; ex_valid := true |}.
  split_and!; vm_compute; reflexivity.
Qed.

Definition named_index (table : string) : IndexContract :=
  {| idx_name := Some "by_code"; idx_columns := [IxName "code"]; idx_unique := true; idx_using := None;
     idx_where := None; idx_with := []; idx_unknown := [] |}.
Definition coded (table : string) : EntityContract :=
  {| entity_name := table; entity_fields := [demo_field "code" "text" false];
     entity_indexes := [named_index table]; entity_checks := []; share := None; derived_from := None;
     identity_kind := None; identity_key := None; entity_unknown := [] |}.
Definition coded_index : CompiledIndex :=
  match demo_compiler (coded "a") with Ok r => List.nth 0 (er_indexes r) no_index | Err _ => no_index end.
Definition coded_env : Env :=
  {| cat := {| objs := {[KIndex "by_code" :=
                 {| o_table := "a"; o_def := "unique on code";
                    o_comment := Some (INDEX_TAG +:+ ci_tag coded_index); o_valid := true |}]};
               extensions := ∅ |};
     tick := 0; seen := [] |}.

(** Index names are unique per entity only, while PostgreSQL's are per schema.
    Installing a second entity with an index of the same name fails, and the
    recovery of the failed build drops the first entity's unique index. *)
Lemma duplicate_index_name_drops_the_other :
  let run := reconcile (fails_from 100) (resolve_index_name (join ",") (default "")) (λ _, "")
               (λ _, "0") demo_compiler "crm" None [coded "a"; coded "b"] coded_env in
  is_ok run.1 = false
  ∧ is_Some (objs (cat coded_env) !! KIndex "by_code")
  ∧ objs (cat run.2) !! KIndex "by_code" = None.
Proof. vm_compute. split_and!; [reflexivity|eauto|reflexivity]. Qed.
