(* ===== verification/Workflow.v ===== *)
(** * Workflows: graphs, items and ordering

    The graph of a workflow (crates/shared-types/src/lib.rs) with its validation
    (core/src/extensions/workflows/validate.rs), the items a node passes on
    (items.rs) and the order nodes run in ([topo_sort] of executor.rs).  The
    position of a node on the canvas is left out: nothing reads it. *)

From stdpp Require Import base numbers pretty gmap strings sets list.
From S2P Require Import Prelude Str Ident Json DataTypes.

(** ** Graphs *)

Inductive TriggerKind := Manual | Schedule | Webhook | RecordChange | Channel.
Inductive ControlKind := CIf | CSwitch | CMerge | CSet | CLoop | CWait | CStop.
Inductive WorkflowNodeKind :=
| Trigger (trigger : TriggerKind)
| Tool (tool_name : string)
| Control (control : ControlKind)
| Code
| SubWorkflow (workflow_id : string).

Record WorkflowNode := {
  node_id : string; kind : WorkflowNodeKind; label : option string; params : JsonValue }.
Record WorkflowEdge := { from : string; to : string; from_output : N; to_input : N }.
Record WorkflowGraph := { nodes : list WorkflowNode; edges : list WorkflowEdge }.
Record Item := { item_json : JsonValue }.

Inductive WorkflowExecutionStatus := ExQueued | ExRunning | ExSucceeded | ExFailed | ExCanceled.
Inductive WorkflowNodeRunStatus := NPending | NRunning | NSucceeded | NFailed | NSkipped.
#[export] Instance WorkflowExecutionStatus_eq_dec : EqDecision WorkflowExecutionStatus.
Proof. solve_decision. Defined.
#[export] Instance WorkflowNodeRunStatus_eq_dec : EqDecision WorkflowNodeRunStatus.
Proof. solve_decision. Defined.

Definition execution_as_str (s : WorkflowExecutionStatus) : string :=
  match s with
  | ExQueued => "queued" | ExRunning => "running" | ExSucceeded => "succeeded"
  | ExFailed => "failed" | ExCanceled => "canceled"
  end.
Definition node_run_as_str (s : WorkflowNodeRunStatus) : string :=
  match s with
  | NPending => "pending" | NRunning => "running" | NSucceeded => "succeeded"
  | NFailed => "failed" | NSkipped => "skipped"
  end.

Definition is_trigger (n : WorkflowNode) : bool := match kind n with Trigger _ => true | _ => false end.

(** ** Validation *)

(** [str::find] with what precedes and what follows the match. *)
Fixpoint find_str (pat s : string) : option (string * string) :=
  match strip_prefix pat s with
  | Some rest => Some ("", rest)
  | None =>
      match s with
      | "" => None
      | String c s => match find_str pat s with Some (a, b) => Some (String c a, b) | None => None end
      end
  end.

Definition push_once (msg : string) (errors : list string) : list string :=
  if decide (msg ∈ errors) then errors else errors ++ [msg].

Definition node_pattern (quote : ascii) : string := "$node[" +:+ String quote "".

(** The loop of [extract_node_refs] for one quote; every round drops a match. *)
Fixpoint extract_from (fuel : nat) (quote : ascii) (rest : string) (valid_ids : list string)
    (errors : list string) : list string :=
  match fuel with
  | O => errors
  | S fuel =>
      match find_str (node_pattern quote) rest with
      | None => errors
      | Some (_, after) =>
          match split_once quote after with
          | None => errors
          | Some (node_id, rest) =>
              let errors := if decide (node_id ∈ valid_ids) then errors
                else push_once ("expression references nonexistent node: " +:+ node_id) errors in
              extract_from fuel quote rest valid_ids errors
          end
      end
  end.
Definition extract_node_refs (s : string) (valid_ids errors : list string) : list string :=
  fold_left (λ errors quote, extract_from (String.length s) quote s valid_ids errors) [DQUOTE; QUOTE] errors.

Fixpoint collect_node_refs (v : JsonValue) (valid_ids errors : list string) : list string :=
  match v with
  | JString s => extract_node_refs s valid_ids errors
  | JObject entries => fold_left (λ errors e, collect_node_refs e.2 valid_ids errors) entries errors
  | JArray l => fold_left (λ errors v, collect_node_refs v valid_ids errors) l errors
  | _ => errors
  end.

Fixpoint duplicate_ids (seen ids : list string) : list string :=
  match ids with
  | [] => []
  | id :: ids =>
      if decide (id ∈ seen) then ("duplicate node id: " +:+ id) :: duplicate_ids seen ids
      else duplicate_ids (id :: seen) ids
  end.

Definition dangling (ids : list string) (e : WorkflowEdge) : list string :=
  (if decide (from e ∈ ids) then [] else ["edge references nonexistent source node: " +:+ from e])
  ++ (if decide (to e ∈ ids) then [] else ["edge references nonexistent target node: " +:+ to e]).

Definition node_ids (g : WorkflowGraph) : list string := map node_id (nodes g).

Definition validate (g : WorkflowGraph) : result (list string) unit :=
  let ids := node_ids g in
  let errors := duplicate_ids [] ids in
  let errors := errors ++ (if existsb is_trigger (nodes g) then [] else ["graph has no trigger node"]) in
  let errors := errors ++ concat (map (dangling ids) (edges g)) in
  let errors := fold_left (λ errors n, collect_node_refs (params n) ids errors) (nodes g) errors in
  match errors with [] => Ok tt | _ => Err errors end.

(** ** Items *)

Definition encode (output : list (list Item)) : JsonValue :=
  JArray (map (λ port, JArray (map (λ item, JObject [("json", item_json item)]) port)) output).

Definition decode_port (output : JsonValue) (port : N) : list Item :=
  match output with
  | JArray ports =>
      match ports !! N.to_nat port with
      | Some (JArray items) => map (λ v, {| item_json := default v (get v "json") |}) items
      | _ => []
      end
  | JNull => []
  | _ => [{| item_json := output |}]
  end.

(** [i as u8] *)
Definition as_u8 (i : nat) : N := (N.of_nat i mod 256)%N.

Definition active_ports (output : JsonValue) : list N :=
  match output with
  | JArray ports =>
      omap (λ ip : nat * JsonValue,
        match ip.2 with JArray (_ :: _) => Some (as_u8 ip.1) | _ => None end)
        (imap pair ports)
  | _ => []
  end.

Definition node_item_json (output : JsonValue) (port : N) (index : nat) : JsonValue :=
  default JNull (
    ports ← as_array output; p ← ports !! N.to_nat port; items ← as_array p; item ← items !! index;
    get item "json").

(** ** Ordering *)

Definition in_degrees (g : WorkflowGraph) : gmap string nat :=
  let m := fold_left (λ m n, match m !! node_id n with None => <[node_id n := 0]> m | Some _ => m end)
    (nodes g) ∅ in
  fold_left (λ m e, <[to e := S (default 0 (m !! to e))]> m) (edges g) m.

(** The nodes of degree zero; a hash map yields them in any order. *)
Definition ready (m : gmap string nat) : list string := map fst (filter (λ nd, nd.2 = 0) (map_to_list m)).

(** The edges of [n] taken off; [None] is the panic of [0usize - 1]. *)
Fixpoint relax (n : string) (es : list WorkflowEdge) (m : gmap string nat) (queue : list string) :
    option (gmap string nat * list string) :=
  match es with
  | [] => Some (m, queue)
  | e :: es =>
      if decide (from e = n) then
        match m !! to e with
        | None => relax n es m queue
        | Some O => None
        | Some (S d) => relax n es (<[to e := d]> m) (if decide (d = 0) then queue ++ [to e] else queue)
        end
      else relax n es m queue
  end.

(** [None] also stands for a loop that outlives its fuel. *)
Fixpoint topo_loop (fuel : nat) (g : WorkflowGraph) (queue : list string) (m : gmap string nat)
    (order : list string) : option (list string) :=
  match queue with
  | [] => Some order
  | n :: queue =>
      match fuel with
      | O => None
      | S fuel =>
          match relax n (edges g) m queue with
          | None => None
          | Some (m, queue) => topo_loop fuel g queue m (order ++ [n])
          end
      end
  end.

(** [queue] is the initial queue, in the order the hash map yields it. *)
Definition topo_sort_from (queue : list string) (g : WorkflowGraph) : option (list string) :=
  let m := in_degrees g in topo_loop (size m) g queue m [].
Definition topo_sort (g : WorkflowGraph) : option (list string) := topo_sort_from (ready (in_degrees g)) g.

(** ** What validation establishes *)

Lemma fold_prefix {A} (f : list string → A → list string) l errors :
  Forall (λ x, ∀ errors, errors `prefix_of` f errors x) l → errors `prefix_of` fold_left f l errors.
Proof.
  intros H. revert errors. induction H as [|x l Hx _ IH]; intros errors; simpl; [done|].
  by etrans; [apply Hx|apply IH].
Qed.

Lemma extract_from_prefix fuel quote rest ids errors : errors `prefix_of` extract_from fuel quote rest ids errors.
Proof.
  revert rest errors. induction fuel as [|fuel IH]; intros rest errors; simpl; [done|].
  destruct (find_str _ rest) as [[_a after]|]; [|done]. destruct (split_once quote after) as [[id r]|]; [|done].
  etrans; [|apply IH]. case_decide; [done|]. unfold push_once. case_decide; [done|]. by apply prefix_app_r.
Qed.

Lemma collect_prefix v ids errors : errors `prefix_of` collect_node_refs v ids errors.
Proof.
  revert errors. induction v as [|?|?|s|l IH|l IH] using json_ind; intros errors; simpl; try done.
  - apply fold_prefix. repeat constructor; intros; apply extract_from_prefix.
  - by apply fold_prefix.
  - by apply fold_prefix.
Qed.

Lemma duplicate_ids_nil seen ids : duplicate_ids seen ids = [] → NoDup ids ∧ ∀ id, id ∈ ids → id ∉ seen.
Proof.
  revert seen. induction ids as [|id ids IH]; intros seen; simpl; [intros _; split; [constructor|set_solver]|].
  case_decide; [done|]. intros [Hnd Hout]%IH. split; [constructor; [|done]; intros ?; by eapply Hout; [|left]|].
  intros id' [->|Hin]%elem_of_cons; [done|]. intros ?. eapply Hout; [done|by right].
Qed.

(** The edges join nodes of the graph. *)
Definition closed (g : WorkflowGraph) : Prop := ∀ e, e ∈ edges g → from e ∈ node_ids g ∧ to e ∈ node_ids g.

Lemma validate_ok g :
  validate g = Ok tt →
  NoDup (node_ids g) ∧ closed g ∧ existsb is_trigger (nodes g) = true.
Proof.
  unfold validate. set (errors := (_ ++ _) ++ concat _).
  destruct (fold_left _ (nodes g) errors) eqn:Hf; [|done]. intros _.
  assert (errors = []) as He.
  { assert (errors `prefix_of` []) as Hp by (rewrite <-Hf; apply fold_prefix, Forall_forall; intros; apply collect_prefix).
    by apply prefix_nil_inv in Hp. }
  unfold errors in He. apply app_nil in He as [He Hd]. apply app_nil in He as [Hdup Htr].
  apply duplicate_ids_nil in Hdup as [Hnd _]. split_and!; [done| |by destruct (existsb _ _)].
  intros e He. assert (dangling (node_ids g) e = []) as Hde.
  { apply list_elem_of_split in He as (l1 & l2 & Hl). rewrite Hl, map_app, concat_app in Hd. simpl in Hd.
    apply app_nil in Hd as [_ Hd]. by apply app_nil in Hd as [Hd _]. }
  unfold dangling in Hde. repeat case_decide; done.
Qed.

(** ** The order of [topo_sort] *)

(** How many of [es] go to [v] from a node that is not in [done]. *)
Definition pending (done : list string) (es : list WorkflowEdge) (v : string) : nat :=
  length (filter (λ e, to e = v ∧ from e ∉ done) es).
(** How many of [es] go from [n] to [v]. *)
Definition between (n : string) (es : list WorkflowEdge) (v : string) : nat :=
  length (filter (λ e, to e = v ∧ from e = n) es).

Lemma pending_zero done es v : pending done es v = 0 ↔ ∀ e, e ∈ es → to e = v → from e ∈ done.
Proof.
  unfold pending. rewrite length_zero_iff_nil. split.
  - intros Hf e He Ht. destruct (decide (from e ∈ done)) as [|Hn]; [done|].
    assert (e ∈ filter (λ e, to e = v ∧ from e ∉ done) es) as Hin by (apply list_elem_of_filter; auto).
    rewrite Hf in Hin. by apply elem_of_nil in Hin.
  - intros H. apply elem_of_nil_inv. intros e ((Ht & Hn) & He)%list_elem_of_filter. by apply Hn, H.
Qed.

Lemma pending_pop done es n v : n ∉ done → pending done es v = pending (done ++ [n]) es v + between n es v.
Proof.
  intros Hn. unfold pending, between. induction es as [|e es IH]; [done|].
  rewrite !filter_cons. repeat case_decide; simpl; set_solver by lia.
Qed.

Lemma in_degrees_nodes (ns : list WorkflowNode) (m : gmap string nat) v :
  fold_left (λ m n, match m !! node_id n with None => <[node_id n := 0]> m | Some _ => m end) ns m !! v
  = match m !! v with Some d => Some d | None => if decide (v ∈ map node_id ns) then Some 0 else None end.
Proof.
  revert m. induction ns as [|n ns IH]; intros m; simpl; [by destruct (m !! v)|].
  rewrite IH. destruct (decide (node_id n = v)) as [<-|Hne].
  - destruct (m !! node_id n) eqn:Hm; [by rewrite Hm|]. rewrite lookup_insert_eq, decide_True by left. done.
  - assert (v ∈ node_id n :: map node_id ns ↔ v ∈ map node_id ns) as Hiff by set_solver.
    rewrite (decide_ext _ _ _ _ Hiff). destruct (m !! node_id n); [done|]. by rewrite lookup_insert_ne.
Qed.

Lemma in_degrees_edges (es : list WorkflowEdge) (m : gmap string nat) v :
  fold_left (λ m e, <[to e := S (default 0 (m !! to e))]> m) es m !! v
  = if decide (pending [] es v = 0) then m !! v else Some (default 0 (m !! v) + pending [] es v).
Proof.
  revert m. induction es as [|e es IH]; intros m; simpl; [done|]. rewrite IH.
  destruct (decide (to e = v)) as [<-|Hne].
  - rewrite lookup_insert_eq. assert (pending [] (e :: es) (to e) = S (pending [] es (to e))) as ->.
    { unfold pending. rewrite filter_cons, decide_True; [done|set_solver]. }
    repeat case_decide; simpl in *; try done; f_equal; lia.
  - rewrite lookup_insert_ne by done. assert (pending [] (e :: es) v = pending [] es v) as ->; [|done].
    unfold pending. rewrite filter_cons, decide_False; [done|naive_solver].
Qed.

Lemma in_degrees_lookup g v d : in_degrees g !! v = Some d → d = pending [] (edges g) v.
Proof.
  unfold in_degrees. rewrite in_degrees_edges, in_degrees_nodes, lookup_empty.
  repeat case_decide; simpl; intros; simplify_eq; lia.
Qed.

Lemma in_degrees_key g v : closed g → v ∈ dom (in_degrees g) ↔ v ∈ node_ids g.
Proof.
  intros Hcl. rewrite elem_of_dom. unfold in_degrees. rewrite in_degrees_edges, in_degrees_nodes, lookup_empty.
  fold (node_ids g). case_decide as Hz; [|].
  - case_decide; split; try done.
  - split; [|eauto]. intros _. destruct (decide (v ∈ node_ids g)) as [|Hn]; [done|]. exfalso. apply Hz, pending_zero.
    intros e He <-. exfalso. by apply Hn, Hcl.
Qed.

Lemma elem_of_ready m v : v ∈ ready m ↔ m !! v = Some 0.
Proof.
  unfold ready. rewrite list_elem_of_fmap. split.
  - intros ([v' d] & -> & [Hd Hin]%list_elem_of_filter). apply elem_of_map_to_list in Hin. simpl in *. by subst.
  - intros Hm. exists (v, 0). split; [done|]. apply list_elem_of_filter. split; [done|]. by apply elem_of_map_to_list.
Qed.
Lemma NoDup_ready m : NoDup (ready m).
Proof.
  unfold ready. assert (sublist (filter (λ nd, nd.2 = 0) (map_to_list m)) (map_to_list m)) as Hs by apply sublist_filter.
  eapply sublist_NoDup; [exact (NoDup_fst_map_to_list m)|]. by apply (fmap_sublist fst).
Qed.

(** The nodes of [placed] are those whose edges are all taken off. *)
Record placed_ok (m : gmap string nat) (placed : list string) : Prop := {
  pl_nodup : NoDup placed;
  pl_iff : ∀ v, v ∈ placed ↔ m !! v = Some 0 }.

Lemma relax_ok n es (m : gmap string nat) done queue rest :
  (∀ v d, m !! v = Some d → d = rest v + between n es v) →
  placed_ok m (done ++ n :: queue) →
  ∃ m' queue', relax n es m queue = Some (m', queue')
    ∧ (∀ v d, m' !! v = Some d → d = rest v) ∧ dom m' = dom m ∧ placed_ok m' (done ++ n :: queue').
Proof.
  revert m queue. induction es as [|e es IH]; intros m queue Hdeg Hpl; simpl.
  { exists m, queue. split_and!; try done. intros v d Hv. rewrite (Hdeg _ _ Hv). unfold between. simpl. lia. }
  assert (∀ v, between n (e :: es) v = (if decide (to e = v ∧ from e = n) then 1 else 0) + between n es v) as Hb.
  { intros v. unfold between. rewrite filter_cons. by case_decide. }
  setoid_rewrite Hb in Hdeg. case_decide as Hf; [|apply IH; [|done]; intros v d Hv; specialize (Hdeg v d Hv);
    rewrite decide_False in Hdeg by naive_solver; done].
  destruct (m !! to e) as [d|] eqn:Hm.
  2: { apply IH; [|done]. intros v d Hv. specialize (Hdeg v d Hv).
       rewrite decide_False in Hdeg; [done|]. intros [<- _]. congruence. }
  pose proof (Hdeg _ _ Hm) as Hd. rewrite decide_True in Hd by done. destruct d as [|d]; [lia|].
  destruct Hpl as [Hnd Hiff].
  assert (to e ∉ done ++ n :: queue) as Hout by (rewrite Hiff, Hm; congruence).
  destruct (IH (<[to e := d]> m) (if decide (d = 0) then queue ++ [to e] else queue)) as (m' & q' & Hr & Hdeg' & Hdom & Hpl').
  - intros v d'. destruct (decide (to e = v)) as [<-|Hne].
    + rewrite lookup_insert_eq. intros [= <-]. lia.
    + rewrite lookup_insert_ne by done. intros Hv. specialize (Hdeg _ _ Hv).
      rewrite decide_False in Hdeg by naive_solver. done.
  - split.
    + case_decide; [|done]. assert (done ++ n :: queue ++ [to e] = (done ++ n :: queue) ++ [to e]) as ->
        by (by rewrite <-app_assoc). apply NoDup_app. split_and!; [done|set_solver|apply NoDup_singleton].
    + intros v. destruct (decide (to e = v)) as [<-|Hne].
      * rewrite lookup_insert_eq. case_decide as Hz; [subst d; set_solver|]. split; [done|]. intros [= ->]. done.
      * rewrite lookup_insert_ne, <-Hiff by done. case_decide; set_solver.
  - exists m', q'. split_and!; [done|done| |done]. rewrite Hdom, dom_insert_L.
    assert (to e ∈ dom m) by (apply elem_of_dom; eauto). set_solver.
Qed.

(** Every node of [order] comes after all that lead to it. *)
Definition respects (g : WorkflowGraph) (order : list string) : Prop :=
  ∀ l1 v l2, order = l1 ++ v :: l2 → ∀ e, e ∈ edges g → to e = v → from e ∈ l1.

Lemma respects_snoc g order n :
  respects g order → (∀ e, e ∈ edges g → to e = n → from e ∈ order) → respects g (order ++ [n]).
Proof.
  intros Hr Hn l1 v l2 Heq. destruct l2 as [|x l2 _] using rev_ind.
  - apply app_inj_tail in Heq as [-> ->]. done.
  - rewrite app_comm_cons, app_assoc in Heq. apply app_inj_tail in Heq as [-> _]. by eapply Hr.
Qed.

Lemma topo_loop_ok fuel g queue (m : gmap string nat) order :
  (∀ v d, m !! v = Some d → d = pending order (edges g) v) →
  placed_ok m (order ++ queue) → respects g order → size m ≤ fuel + length order →
  ∃ order', topo_loop fuel g queue m order = Some order' ∧ NoDup order' ∧ respects g order'
    ∧ ∀ v, v ∈ order' ↔ v ∈ dom m ∧ pending order' (edges g) v = 0.
Proof.
  revert queue m order. induction fuel as [|fuel IH]; intros queue m order Hdeg Hpl Hres Hfuel.
  all: destruct queue as [|n queue]; simpl.
  1, 3: rewrite app_nil_r in Hpl; destruct Hpl as [Hnd Hiff]; exists order; split_and!; try done;
    intros v; rewrite Hiff, elem_of_dom; split; [intros Hv; split; [by eexists|by rewrite <-(Hdeg _ _ Hv)]|];
    intros [[d Hd] Hz]; by rewrite Hd, (Hdeg _ _ Hd), Hz.
  all: assert (length (order ++ n :: queue) ≤ size m) as Hlen
    by (rewrite <-size_dom, <-(size_list_to_set (C := gset string)) by apply Hpl; apply subseteq_size;
        intros v Hv%elem_of_list_to_set; apply elem_of_dom; rewrite (pl_iff _ _ Hpl) in Hv; eauto);
    rewrite length_app in Hlen; simpl in Hlen.
  { simpl in Hfuel. lia. }
  assert (n ∉ order) as Hn.
  { pose proof (pl_nodup _ _ Hpl) as (_ & Hdis & _)%NoDup_app. intros Hin. apply (Hdis _ Hin). left. }
  destruct (relax_ok n (edges g) m order queue (pending (order ++ [n]) (edges g))) as (m' & q' & -> & Hdeg' & Hdom & Hpl').
  { intros v d Hv. rewrite (Hdeg _ _ Hv). by apply pending_pop. }
  { done. }
  rewrite <-Hdom. apply IH; [done|by rewrite <-app_assoc| |rewrite length_app, <-!size_dom, Hdom in *; simpl; lia].
  apply respects_snoc; [done|]. intros e He Ht. apply (pending_zero order (edges g) n); [|done|done].
  symmetry. apply Hdeg. apply (pl_iff _ _ Hpl). set_solver.
Qed.

Definition leads_to (g : WorkflowGraph) (u v : string) : Prop := ∃ e, e ∈ edges g ∧ from e = u ∧ to e = v.

Lemma respects_acc g order v : respects g order → v ∈ order → Acc (leads_to g) v.
Proof.
  intros Hr. revert v. induction order as [|n order IH] using rev_ind; intros v; [set_solver|].
  assert (respects g order) as Hr' by (intros l1 w l2 -> ; eapply (Hr l1 w (l2 ++ [n])); by rewrite <-app_assoc).
  intros [Hv|Hv]%elem_of_app; [by apply IH|]. apply list_elem_of_singleton in Hv as ->.
  constructor. intros u (e & He & <- & Ht). apply IH; [done|]. by apply (Hr order n []).
Qed.

Lemma topo_sort_total g queue :
  queue ≡ₚ ready (in_degrees g) →
  ∃ order, topo_sort_from queue g = Some order ∧ NoDup order ∧ respects g order
    ∧ ∀ v, v ∈ order ↔ v ∈ dom (in_degrees g) ∧ pending order (edges g) v = 0.
Proof.
  intros Hq. apply (topo_loop_ok (size (in_degrees g)) g queue (in_degrees g) []).
  - apply in_degrees_lookup.
  - split; simpl; [rewrite Hq; apply NoDup_ready|]. intros v. by rewrite Hq, elem_of_ready.
  - intros l1 v l2 Heq. by destruct l1.
  - simpl. lia.
Qed.
Lemma topo_order_ok g queue order :
  queue ≡ₚ ready (in_degrees g) → topo_sort_from queue g = Some order → NoDup order ∧ respects g order.
Proof. intros (order' & Heq & ? & ? & _)%topo_sort_total. by rewrite Heq; intros [= <-]. Qed.

(** [C10] In whatever order the hash map yields the first nodes, the ordering of a
    graph answers without panic, lists no node twice and puts every node after
    all that lead to it; of a valid graph it lists precisely the nodes no cycle
    leads to, so all of them when there is no cycle. *)
Theorem topo_sort_correct g queue :
  queue ≡ₚ ready (in_degrees g) →
  ∃ order, topo_sort_from queue g = Some order ∧ NoDup order ∧ respects g order
    ∧ (validate g = Ok tt → ∀ v, v ∈ order ↔ v ∈ node_ids g ∧ Acc (leads_to g) v).
Proof.
  intros (order & Hrun & Hnd & Hres & Hiff)%topo_sort_total.
  exists order. split_and!; [done|done|done|]. intros (_ & Hcl & _)%validate_ok v. split.
  - intros Hv. split; [|by eapply respects_acc]. apply Hiff in Hv as [Hv _]. by apply in_degrees_key.
  - intros [Hid Hacc]. revert Hid. induction Hacc as [v _ IH]. intros Hid. apply Hiff.
    rewrite in_degrees_key by done. split; [done|]. apply pending_zero. intros e He <-.
    apply IH; [by exists e|]. by apply Hcl.
Qed.

Definition demo_node (id : string) (k : WorkflowNodeKind) : WorkflowNode :=
  {| node_id := id; kind := k; label := None; params := JObject [] |}.
Definition demo_edge (a b : string) (p : N) : WorkflowEdge :=
  {| from := a; to := b; from_output := p; to_input := 0 |}.
Definition demo_graph : WorkflowGraph :=
  {| nodes := [demo_node "start" (Trigger Manual); demo_node "pick" (Control CIf); demo_node "yes" (Tool "mail");
               demo_node "no" (Control CSet); demo_node "again" (Control CSet)];
     edges := [demo_edge "start" "pick" 0; demo_edge "pick" "yes" 0; demo_edge "pick" "no" 1;
               demo_edge "again" "again" 0] |}.
Lemma topo_sort_correct_witness :
  topo_sort demo_graph = Some ["start"; "pick"; "yes"; "no"]
  ∧ validate demo_graph = Ok tt
  ∧ ∃ order, topo_sort_from ["start"] demo_graph = Some order ∧ NoDup order ∧ respects demo_graph order
    ∧ (validate demo_graph = Ok tt → ∀ v, v ∈ order ↔ v ∈ node_ids demo_graph ∧ Acc (leads_to demo_graph) v).
Proof.
  split_and!; [vm_compute; reflexivity|vm_compute; reflexivity|].
  apply (topo_sort_correct demo_graph ["start"]). replace (ready (in_degrees demo_graph)) with ["start"];
    [reflexivity|vm_compute; reflexivity].
Defined.

(** ** Items survive their encoding *)

Lemma elem_of_active_ports output p :
  p ∈ active_ports (encode output) ↔ ∃ i items, output !! i = Some items ∧ items ≠ [] ∧ p = as_u8 i.
Proof.
  unfold active_ports, encode. rewrite list_elem_of_omap. split.
  - intros ([i v] & Hin & Hv). apply elem_of_lookup_imap in Hin as (i' & v' & [= <- <-] & Hl).
    rewrite list_lookup_fmap in Hl. destruct (output !! i) as [items|] eqn:Hi; [|done]. simpl in Hl. injection Hl as <-.
    simpl in Hv. destruct items as [|x items]; [done|]. simpl in Hv. injection Hv as <-. by exists i, (x :: items).
  - intros (i & items & Hi & Hne & ->). destruct items as [|x items]; [done|].
    exists (i, JArray (map (λ item, JObject [("json", item_json item)]) (x :: items))). split; [|done].
    apply elem_of_lookup_imap. eexists i, _. split; [done|]. rewrite list_lookup_fmap, Hi. done.
Qed.

(** What a node puts on a port is what the nodes it leads to read from it,
    and of an output of at most 256 ports precisely those with an item are
    active. *)
Theorem items_roundtrip output :
  (∀ port, decode_port (encode output) port = default [] (output !! N.to_nat port))
  ∧ (∀ port i item, output !! N.to_nat port ≫= lookup i = Some item →
       node_item_json (encode output) port i = item_json item)
  ∧ (length output ≤ 256 → ∀ port, (port < 256)%N →
       port ∈ active_ports (encode output) ↔ decode_port (encode output) port ≠ []).
Proof.
  assert (∀ port, decode_port (encode output) port = default [] (output !! N.to_nat port)) as Hdec.
  { intros port. simpl. rewrite list_lookup_fmap. destruct (output !! _) as [items|]; [|done]. simpl.
    rewrite map_map. simpl. induction items as [|[j] items IH]; [done|]. simpl. f_equal. apply IH. }
  split_and!; [done| |].
  - intros port i item. unfold node_item_json. simpl. rewrite list_lookup_fmap.
    destruct (output !! _) as [items|]; [|done]. simpl. intros Hi. by rewrite list_lookup_fmap, Hi.
  - intros Hlen port Hport. rewrite elem_of_active_ports, Hdec. unfold as_u8. split.
    + intros (i & items & Hi & Hne & Hp). assert (i < length output) by (by eapply lookup_lt_Some).
      rewrite N.mod_small in Hp by lia. rewrite Hp, Nat2N.id, Hi. done.
    + destruct (output !! N.to_nat port) as [items|] eqn:Hi; [|done]. simpl. intros Hne.
      exists (N.to_nat port), items. split_and!; [done|done|]. rewrite N2Nat.id, N.mod_small by lia. done.
Qed.

(** Ports are numbered by a byte: the port after the last of 256 counts as the
    first. *)
Lemma port_numbers_wrap item :
  let output := replicate 256 [] ++ [[item]] in
  active_ports (encode output) = [0%N] ∧ decode_port (encode output) 0 = [].
Proof. split; reflexivity. Qed.
