(* ===== verification/WorkflowExec.v ===== *)
(** * Workflows: expressions and nodes

    The bindings of a node's parameters (core/src/extensions/workflows/expr.rs)
    and what one node does with its items (executor.rs).  The JavaScript engine
    is a parameter: a context it evaluates text in, which keeps what earlier
    evaluations left behind.  So are the tools, over a state of the world. *)

From stdpp Require Import base numbers pretty gmap strings sets list.
From S2P Require Import Prelude Str Ident Perms Json DataTypes RuleLexer RuleShorthand Workflow.

(** ** Equality and truth of values *)

(** Numbers are equal as their kinds and values are; only the two zeros of a
    float print differently. *)
Definition zero_texts : list string := ["0.0"; "-0.0"].
Definition number_eqb (a b : JsonNumber) : bool :=
  bool_decide (num_text a = num_text b)
  || (bool_decide (num_text a ∈ zero_texts) && bool_decide (num_text b ∈ zero_texts)).

Fixpoint json_eqb (a b : JsonValue) : bool :=
  match a, b with
  | JNull, JNull => true
  | JBool a, JBool b => Bool.eqb a b
  | JNumber a, JNumber b => number_eqb a b
  | JString a, JString b => bool_decide (a = b)
  | JArray a, JArray b =>
      (fix go (a b : list JsonValue) := match a, b with
        | [], [] => true | x :: a, y :: b => json_eqb x y && go a b | _, _ => false end) a b
  | JObject a, JObject b =>
      (fix go (a b : list (string * JsonValue)) := match a, b with
        | [], [] => true
        | (k, x) :: a, (k', y) :: b => bool_decide (k = k') && json_eqb x y && go a b
        | _, _ => false end) a b
  | _, _ => false
  end.

Definition is_truthy (v : JsonValue) : bool :=
  match v with
  | JNull => false
  | JBool b => b
  | JNumber n => match num_f64 n with Some f => negb (bool_decide (f ∈ ["0"; "-0"])) | None => false end
  | JString s => negb (bool_decide (s ∈ [""; "false"; "0"]))
  | JArray l => match l with [] => false | _ => true end
  | JObject l => match l with [] => false | _ => true end
  end.

Definition obj_remove (k : string) (l : list (string * JsonValue)) : list (string * JsonValue) :=
  filter (λ e, e.1 ≠ k) l.

(** [overlay]: the fields of [patch] win. *)
Definition overlay (base patch : JsonValue) : JsonValue :=
  match base, patch with
  | JObject b, JObject p => JObject (fold_left (λ b e, obj_insert e.1 e.2 b) p b)
  | _, _ => base
  end.

(** [merge_args]: the fields of the input fill the gaps of the parameters. *)
Definition merge_args (params input : JsonValue) : JsonValue :=
  match params, input with
  | JObject b, JObject i =>
      JObject (fold_left (λ b e, match obj_get e.1 b with Some _ => b | None => obj_insert e.1 e.2 b end) i b)
  | _, _ => params
  end.

(** ** Expressions *)

Section Expr.
Context {Ctx : Type}.
(** A context with [$json] and [$input], and with [$node]. *)
Context (new_ctx : JsonValue → JsonValue → Ctx).
(** [ctx.eval] and [to_json]: nothing when it throws, is undefined or has no JSON. *)
Context (ctx_eval : string → Ctx → option JsonValue * Ctx).
(** A number that is a whole [f64] within [i64], as an integer. *)
Context (fixup_number : JsonNumber → JsonNumber).
(** [serde_json::Value::to_string]. *)
Context (json_to_string : JsonValue → string).

Fixpoint fixup_integers (v : JsonValue) : JsonValue :=
  match v with
  | JNumber n => JNumber (fixup_number n)
  | JArray l => JArray (map fixup_integers l)
  | JObject l => JObject (map (λ e, (e.1, fixup_integers e.2)) l)
  | other => other
  end.

Definition eval_js (expr : string) (ctx : Ctx) : JsonValue * Ctx :=
  if decide (expr = "") then (JNull, ctx)
  else let '(r, ctx) := ctx_eval expr ctx in
       (match r with Some v => fixup_integers v | None => JNull end, ctx).

Definition shown (v : JsonValue) : string :=
  match v with JString s => s | JNull => "null" | other => json_to_string other end.

(** The loop of [interpolate]; every round drops an opening. *)
Fixpoint interpolate_from (fuel : nat) (rest : string) (ctx : Ctx) : string * Ctx :=
  match fuel with
  | O => (rest, ctx)
  | S fuel =>
      match find_str "{{" rest with
      | None => (rest, ctx)
      | Some (before, after) =>
          match find_str "}}" after with
          | Some (expr, rest) =>
              let '(val, ctx) := eval_js (trim expr) ctx in
              let '(tail, ctx) := interpolate_from fuel rest ctx in
              (before +:+ shown val +:+ tail, ctx)
          | None =>
              let '(tail, ctx) := interpolate_from fuel after ctx in
              (before +:+ "{{" +:+ tail, ctx)
          end
      end
  end.
Definition interpolate (s : string) (ctx : Ctx) : string * Ctx := interpolate_from (String.length s) s ctx.

Definition resolve_string (s : string) (ctx : Ctx) : JsonValue * Ctx :=
  let trimmed := trim s in
  match strip_prefix "{{" trimmed ≫= strip_suffix "}}" with
  | Some expr => eval_js (trim expr) ctx
  | None =>
      if str_contains "{{" trimmed && str_contains "}}" trimmed
      then let '(r, ctx) := interpolate s ctx in (JString r, ctx)
      else (JString s, ctx)
  end.

Fixpoint resolve_tree (v : JsonValue) (ctx : Ctx) : JsonValue * Ctx :=
  match v with
  | JString s => resolve_string s ctx
  | JObject l =>
      let '(l, ctx) := (fix go (l : list (string * JsonValue)) (ctx : Ctx) : list (string * JsonValue) * Ctx :=
        match l with
        | [] => ([], ctx)
        | (k, v) :: l =>
            let '(v, ctx) := resolve_tree v ctx in
            let '(l, ctx) := go l ctx in ((k, v) :: l, ctx)
        end) l ctx in
      (JObject l, ctx)
  | JArray l =>
      let '(l, ctx) := (fix go (l : list JsonValue) (ctx : Ctx) : list JsonValue * Ctx :=
        match l with
        | [] => ([], ctx)
        | v :: l =>
            let '(v, ctx) := resolve_tree v ctx in
            let '(l, ctx) := go l ctx in (v :: l, ctx)
        end) l ctx in
      (JArray l, ctx)
  | other => (other, ctx)
  end.

(** The value of [$node[id].json]: the first item of the first port, or what is
    stored in the older format. *)
Definition node_value (stored : JsonValue) : JsonValue :=
  let first := node_item_json stored 0 0 in
  let per_port := match as_array stored ≫= head with Some p => is_some (as_array p) | None => false end in
  match first with
  | JNull => if per_port then first else stored
  | _ => first
  end.

Definition node_json (outputs : gmap string JsonValue) : JsonValue :=
  JObject (fold_left (λ l e, obj_insert e.1 (JObject [("json", node_value e.2)]) l) (map_to_list outputs) []).

Definition resolve (v input : JsonValue) (outputs : gmap string JsonValue) : JsonValue :=
  (resolve_tree v (new_ctx input (node_json outputs))).1.

(** ** Input *)

Definition inbound (node_id : string) (g : WorkflowGraph) : list WorkflowEdge :=
  filter (λ e, to e = node_id) (edges g).

Definition collect_inputs_by_port (node_id : string) (g : WorkflowGraph) (run_outputs : gmap string JsonValue) :
    list (list Item) :=
  match inbound node_id g with
  | [] => []
  | es =>
      let max_port := fold_right N.max 0%N (map to_input es) in
      fold_left (λ ports e,
        match run_outputs !! from e with
        | Some output => alter (λ l, l ++ decode_port output (from_output e)) (N.to_nat (to_input e)) ports
        | None => ports
        end) es (replicate (S (N.to_nat max_port)) [])
  end.

Definition items_to_json (items : list Item) : JsonValue :=
  match items with
  | [] => JObject []
  | [i] => item_json i
  | _ => JArray (map item_json items)
  end.

(** ** Control nodes *)

Definition Outcome : Type := WorkflowNodeRunStatus * list (list Item) * option string.
Context (outputs : gmap string JsonValue).

Definition condition_of (raw_params : JsonValue) (item : Item) : bool :=
  is_truthy (default JNull (get (resolve raw_params (item_json item) outputs) "condition")).

Definition execute_if (raw_params : JsonValue) (items : list Item) : Outcome :=
  (NSucceeded, [filter (λ i, condition_of raw_params i = true) items;
                filter (λ i, condition_of raw_params i = false) items], None).

Fixpoint position (f : JsonValue → bool) (l : list JsonValue) : option nat :=
  match l with [] => None | x :: l => if f x then Some 0 else S <$> position f l end.

Definition switch_port (raw_params : JsonValue) (item : Item) : nat :=
  let value := default JNull (get (resolve raw_params (item_json item) outputs) "value") in
  match get raw_params "cases" ≫= as_array with
  | Some arr => default (length arr) (position (λ c, json_eqb c value) arr)
  | None => 0
  end.

Definition execute_switch (raw_params : JsonValue) (items : list Item) : Outcome :=
  let num_cases := match get raw_params "cases" ≫= as_array with Some arr => length arr | None => 0 end in
  let ports := fold_left (λ ports item, alter (λ l, l ++ [item]) (switch_port raw_params item) ports)
    items (replicate (S num_cases) []) in
  (NSucceeded, ports, None).

Definition fields_of (resolved : JsonValue) : JsonValue := default (JObject []) (get resolved "fields").

Definition execute_set (raw_params : JsonValue) (items : list Item) : Outcome :=
  let output := match items with
    | [] => [{| item_json := fields_of (resolve raw_params (JObject []) outputs) |}]
    | _ => map (λ item, {| item_json := overlay (item_json item)
                             (fields_of (resolve raw_params (item_json item) outputs)) |}) items
    end in
  (NSucceeded, [output], None).

Definition merge_by_position (ports : list (list Item)) : list Item :=
  let len := fold_right Nat.max 0 (map length ports) in
  map (λ i, {| item_json := fold_left (λ acc (port : list Item),
      match port !! i with Some item => overlay acc (item_json item) | None => acc end) ports (JObject []) |})
    (seq 0 len).

Definition merge_by_field (ports : list (list Item)) (p : JsonValue) : list Item :=
  let f1 := default "id" ((match get p "field1" with Some v => Some v | None => get p "field" end) ≫= as_str) in
  let f2 := default f1 (get p "field2" ≫= as_str) in
  let left := default [] (ports !! 0) in
  let right := default [] (ports !! 1) in
  concat (map (λ l,
    match get (item_json l) f1 with
    | None => []
    | Some key =>
        map (λ r, {| item_json := overlay (item_json l) (item_json r) |})
          (List.filter (λ r, match get (item_json r) f2 with Some v => json_eqb v key | None => false end) right)
    end) left).

Definition execute_merge (raw_params : JsonValue) (input_by_port : list (list Item)) : Outcome :=
  let p := resolve raw_params (JObject []) outputs in
  let mode := default "append" (get p "mode" ≫= as_str) in
  let out := if decide (mode = "combineByPosition") then merge_by_position input_by_port
    else if decide (mode = "combineByField") then merge_by_field input_by_port p
    else concat input_by_port in
  (NSucceeded, [out], None).

Definition execute_control_node (control : ControlKind) (raw_params : JsonValue) (input_items : list Item)
    (input_by_port : list (list Item)) : Outcome :=
  match control with
  | CIf => execute_if raw_params input_items
  | CSwitch => execute_switch raw_params input_items
  | CSet => execute_set raw_params input_items
  | CMerge => execute_merge raw_params input_by_port
  | CStop =>
      let msg := default "workflow stopped" (get (resolve raw_params (JObject []) outputs) "message" ≫= as_str) in
      (NSucceeded, [[{| item_json := JObject [("message", JString msg); ("stopped", JBool true)] |}]], None)
  | CLoop | CWait => (NSkipped, [[]], Some "not implemented")
  end.

(** ** Tool nodes *)

Inductive BatchMode := PerItem | Once.
Definition batch_parse (s : string) : option BatchMode :=
  if decide (s = "once") then Some Once else if decide (s = "perItem") then Some PerItem else None.

(** What a tool is called with; the rest of [ToolContext] is the same for every
    call of a workflow. *)
Record ToolCall := {
  tc_app : string; tc_user : string; tc_permissions : list string; tc_args : JsonValue; tc_key : string }.

Context {W : Type}.
(** The registered tools with their batch modes, and what they do. *)
Context (registry : string → option BatchMode).
Context (tool_execute : string → ToolCall → W → result string JsonValue * W).

(** [tools::dispatch] *)
Definition dispatch (tool_name : string) (call : ToolCall) (w : W) : result string JsonValue * W :=
  let perm_key := "tool:" +:+ tool_name in
  if has_permission (tc_permissions call) perm_key then tool_execute tool_name call w
  else (Err perm_key, w).

Definition normalize_tool_output (value : JsonValue) : list Item :=
  let items := map (λ v, {| item_json := v |}) in
  match value with
  | JArray l => items l
  | JObject l =>
      match omap (λ e, as_array e.2) l with
      | [arr] => items arr
      | _ => [{| item_json := value |}]
      end
  | _ => [{| item_json := value |}]
  end.

Definition idempotency_key (exec_id node_id : string) (i : nat) : string :=
  exec_id +:+ ":" +:+ node_id +:+ ":" +:+ pretty i.

Section ToolNode.
Context (app_id user_id : string) (perms : list string) (exec_id : string).

Definition tool_call (node : WorkflowNode) (params_base : JsonValue) (i : nat) (item : Item) : ToolCall :=
  {| tc_app := app_id; tc_user := user_id; tc_permissions := perms;
     tc_args := merge_args (resolve params_base (item_json item) outputs) (item_json item);
     tc_key := idempotency_key exec_id (node_id node) i |}.

Fixpoint dispatch_items (node : WorkflowNode) (tool_name : string) (params_base : JsonValue) (i : nat)
    (items : list Item) (w : W) : result string (list Item) * W :=
  match items with
  | [] => (Ok [], w)
  | item :: items =>
      match dispatch tool_name (tool_call node params_base i item) w with
      | (Ok v, w) =>
          match dispatch_items node tool_name params_base (S i) items w with
          | (Ok rest, w) => (Ok (normalize_tool_output v ++ rest), w)
          | (Err e, w) => (Err e, w)
          end
      | (Err e, w) => (Err e, w)
      end
  end.

Definition without_batch_mode (params : JsonValue) : JsonValue :=
  match params with JObject l => JObject (obj_remove "batchMode" l) | other => other end.

Definition execute_tool_node (node : WorkflowNode) (tool_name : string) (input_items : list Item) (w : W) : Outcome * W :=
  match registry tool_name with
  | None => ((NFailed, [[]], Some ("unknown tool: " +:+ tool_name)), w)
  | Some declared =>
      let mode := default declared ((get (params node) "batchMode" ≫= as_str) ≫= batch_parse) in
      let blank := [{| item_json := JObject [] |}] in
      let items := match mode, input_items with
        | Once, _ => blank
        | PerItem, [] => blank
        | PerItem, _ => input_items
        end in
      match dispatch_items node tool_name (without_batch_mode (params node)) 0 items w with
      | (Ok output, w) => ((NSucceeded, [output], None), w)
      | (Err e, w) => ((NFailed, [[]], Some e), w)
      end
  end.

(** ** A node *)

Record NodeExecution := {
  ne_status : WorkflowNodeRunStatus; ne_output : JsonValue; ne_input : JsonValue;
  ne_error : option string; ne_halt : bool }.

Definition execute_node (node : WorkflowNode) (g : WorkflowGraph) (w : W) : NodeExecution * W :=
  let input_by_port := collect_inputs_by_port (node_id node) g outputs in
  let input_items := concat input_by_port in
  let '((status, output_items, error), w) :=
    match kind node with
    | Trigger _ => ((NSucceeded, [[{| item_json := params node |}]], None), w)
    | Tool tool_name => execute_tool_node node tool_name input_items w
    | Control control => (execute_control_node control (params node) input_items input_by_port, w)
    | Code | SubWorkflow _ => ((NSkipped, [[]], Some "not implemented"), w)
    end in
  ({| ne_status := status; ne_output := encode output_items; ne_input := items_to_json input_items;
      ne_error := error; ne_halt := match kind node with Control CStop => true | _ => false end |}, w).
End ToolNode.
End Expr.

(** [should_execute] *)
Definition should_execute (id : string) (g : WorkflowGraph) (active : gmap string (list N)) : bool :=
  match inbound id g with
  | [] => match List.find (λ n, bool_decide (node_id n = id)) (nodes g) with Some n => is_trigger n | None => false end
  | es => existsb (λ e, match active !! from e with
      | Some ports => bool_decide (from_output e ∈ ports) | None => false end) es
  end.

(** ** Routing loses nothing *)

Lemma position_lt f l i : position f l = Some i → i < length l.
Proof.
  revert i. induction l as [|x l IH]; intros i; simpl; [done|]. destruct (f x); [intros [= <-]; lia|].
  destruct (position f l) as [j|]; [|done]. intros [= <-]. specialize (IH j eq_refl). lia.
Qed.

(** Items put on ports one after the other. *)
Lemma ports_of_items {A} (port : A → nat) (n : nat) (items : list A) :
  (∀ x, x ∈ items → port x < n) →
  fold_left (λ ports x, alter (λ l, l ++ [x]) (port x) ports) items (replicate n [])
  = map (λ p, filter (λ x, port x = p) items) (seq 0 n).
Proof.
  induction items as [|x items IH] using rev_ind; intros Hp.
  - simpl. apply list_eq. intros i. rewrite list_lookup_fmap. destruct (decide (i < n)).
    + by rewrite lookup_seq_lt, lookup_replicate_2 by lia.
    + rewrite lookup_ge_None_2, (lookup_ge_None_2 (seq 0 n)); [done|rewrite length_seq; lia|rewrite length_replicate; lia].
  - rewrite fold_left_app. simpl. rewrite IH by set_solver. apply list_eq. intros i.
    assert (port x < n) as Hx by (apply Hp; set_solver).
    destruct (decide (i = port x)) as [->|Hne].
    + rewrite list_lookup_alter_eq, !list_lookup_fmap, lookup_seq_lt by done. simpl. f_equal.
      rewrite filter_app, filter_cons_True by done. done.
    + rewrite list_lookup_alter_ne, !list_lookup_fmap by done. destruct (seq 0 n !! i) as [p|] eqn:Hi; [|done].
      apply lookup_seq in Hi as [-> ?]. simpl. f_equal. rewrite filter_app, filter_cons_False by (simpl; lia).
      by rewrite filter_nil, app_nil_r.
Qed.

Lemma ports_permutation {A} (port : A → nat) (n : nat) (items : list A) :
  concat (map (λ p, filter (λ x, port x = p) items) (seq 0 n)) ≡ₚ filter (λ x, port x < n) items.
Proof.
  induction n as [|n IH].
  - simpl. induction items as [|x items IHi]; [done|]. rewrite filter_cons_False by lia. done.
  - rewrite seq_S, map_app, concat_app. simpl. rewrite IH, app_nil_r. clear IH.
    induction items as [|x items IHi]; [done|]. rewrite !filter_cons.
    repeat case_decide; try lia; simpl; [by rewrite IHi|by rewrite <-Permutation_middle, IHi|done].
Qed.

Section Routing.
Context {Ctx : Type} (new_ctx : JsonValue → JsonValue → Ctx) (ctx_eval : string → Ctx → option JsonValue * Ctx).
Context (fixup_number : JsonNumber → JsonNumber) (json_to_string : JsonValue → string).
Context (outputs : gmap string JsonValue) (raw_params : JsonValue).
Let port := switch_port new_ctx ctx_eval fixup_number json_to_string outputs raw_params.
Let cond := condition_of new_ctx ctx_eval fixup_number json_to_string outputs raw_params.

(** The number of ports of a switch: one per case and one for the rest. *)
Definition switch_ports : nat :=
  S (match get raw_params "cases" ≫= as_array with Some arr => length arr | None => 0 end).

Lemma switch_port_lt item : port item < switch_ports.
Proof.
  unfold port, switch_port, switch_ports. destruct (_ ≫= as_array) as [arr|]; [|lia].
  destruct (position _ arr) as [i|] eqn:Hp; simpl; [|lia]. apply position_lt in Hp. lia.
Qed.

(** An If or Switch node puts every item on precisely one port, the one its
    own parameters select, and keeps their order; no index is out of range. *)
Theorem routing_partitions items :
  (let ports := (execute_switch new_ctx ctx_eval fixup_number json_to_string outputs raw_params items).1.2 in
   ports = map (λ p, filter (λ i, port i = p) items) (seq 0 switch_ports) ∧ concat ports ≡ₚ items)
  ∧ (let ports := (execute_if new_ctx ctx_eval fixup_number json_to_string outputs raw_params items).1.2 in
     ports = [filter (λ i, cond i = true) items; filter (λ i, cond i = false) items] ∧ concat ports ≡ₚ items).
Proof.
  split; cbv zeta.
  - assert (∀ x, x ∈ items → port x < switch_ports) as Hlt by (intros; apply switch_port_lt).
    set (ports := (execute_switch _ _ _ _ _ _ _).1.2).
    assert (ports = map (λ p, filter (λ i, port i = p) items) (seq 0 switch_ports)) as ->
      by exact (ports_of_items port switch_ports items Hlt).
    split; [done|]. rewrite ports_permutation. clear -Hlt. induction items as [|x items IH]; [done|].
    rewrite filter_cons_True by (apply Hlt; left). f_equiv. apply IH. intros. apply Hlt. by right.
  - split; [done|]. simpl. rewrite app_nil_r. induction items as [|x items IH]; [done|].
    rewrite !filter_cons. fold (cond x). destruct (cond x); simpl; [by rewrite IH|by rewrite <-Permutation_middle, IH].
Qed.
End Routing.

(** ** Merging objects *)

(** The input of a tool fills the gaps of its parameters and never replaces
    one: a field the parameters have keeps its value, any other is the input's. *)
Theorem merge_args_params_win p i k :
  get (merge_args (JObject p) (JObject i)) k = match obj_get k p with Some v => Some v | None => obj_get k i end.
Proof.
  unfold get, merge_args. simpl. revert p. induction i as [|[k' v] i IH]; intros p; simpl; [by destruct (obj_get k p)|].
  rewrite IH. destruct (obj_get k' p) eqn:Hk'.
  - destruct (obj_get k p) eqn:Hk; [done|]. rewrite decide_False; [done|]. congruence.
  - rewrite obj_get_insert. destruct (decide (k' = k)) as [->|]; [by rewrite Hk'|done].
Qed.

(** ** Tools *)

(** A tool the run's permissions do not allow is not called: the node fails
    and the world is left as it was. *)
Theorem tools_need_permission {Ctx} (new_ctx : JsonValue → JsonValue → Ctx) ctx_eval fixup_number json_to_string
    outputs {W} registry tool_execute app_id user_id perms exec_id node tool_name g (w : W) :
  kind node = Tool tool_name →
  has_permission perms ("tool:" +:+ tool_name) = false →
  let r := execute_node new_ctx ctx_eval fixup_number json_to_string outputs registry tool_execute
             app_id user_id perms exec_id node g w in
  r.2 = w ∧ ne_status r.1 = NFailed.
Proof.
  intros Hk Hp. unfold execute_node. rewrite Hk. unfold execute_tool_node.
  destruct (registry tool_name) as [mode|]; [|done].
  set (items := match default _ _ with PerItem => _ | Once => _ end).
  assert (∃ x l, items = x :: l) as (x & l & ->).
  { unfold items. destruct (default _ _); [|eauto]. destruct (concat _); eauto. }
  simpl. unfold dispatch. simpl. rewrite Hp. done.
Qed.

Lemma pretty_nat_no_colon (i : nat) : str_mem ":" (pretty i) = false.
Proof.
  assert (∀ s, str_forall is_ascii_digit s = true → str_mem ":" s = false) as H.
  { induction s as [|c s IH]; simpl; [done|]. intros [Hc Hs]%andb_true_iff. rewrite IH by done.
    rewrite bool_decide_false; [done|]. by intros ->. }
  apply H. exact (proj1 (pretty_N_digits (N.of_nat i))).
Qed.

(** Within an execution no two calls, for different nodes or items, share an
    idempotency key. *)
Theorem idempotency_key_inj exec_id n m i j :
  idempotency_key exec_id n i = idempotency_key exec_id m j → n = m ∧ i = j.
Proof.
  unfold idempotency_key. intros H. apply str_app_inv_head, str_app_inv_head in H.
  assert (∀ a (k : nat), rsplit_once ":" (a +:+ ":" +:+ pretty k) = Some (a, pretty k)) as Hr
    by (intros; apply rsplit_once_app, pretty_nat_no_colon).
  pose proof (Hr n i) as H1. rewrite H, Hr in H1. injection H1 as -> Hp. split; [done|].
  by apply (inj pretty) in Hp.
Qed.

(** A text with a binding at each end is evaluated as one expression, the braces
    between them included, instead of being interpolated. *)
Lemma two_bindings_are_one_expression {Ctx} ctx_eval fixup_number json_to_string (ctx : Ctx) :
  resolve_string ctx_eval fixup_number json_to_string "{{ $json.a }} {{ $json.b }}" ctx
  = eval_js ctx_eval fixup_number "$json.a }} {{ $json.b" ctx.
Proof. reflexivity. Qed.

Definition demo_tool_node : WorkflowNode :=
  {| node_id := "mail"; kind := Tool "mail"; label := None; params := JObject [] |}.
Lemma tools_need_permission_witness :
  let r := execute_node (λ _ _, tt) (λ _ ctx, (None, ctx)) id (λ _, "") ∅ (λ _, Some PerItem)
             (λ _ _ n, (Ok JNull, S n)) "crm" "u" ["tool:query_data"] "e1" demo_tool_node demo_graph 0 in
  r.2 = 0 ∧ ne_status r.1 = NFailed.
Proof.
  apply (tools_need_permission (λ _ _, tt) (λ _ ctx, (None, ctx)) id (λ _, "") ∅ (λ _, Some PerItem)
    (λ _ _ n, (Ok JNull, S n)) "crm" "u" ["tool:query_data"] "e1" demo_tool_node "mail" demo_graph 0);
    [reflexivity|vm_compute; reflexivity].
Defined.
Lemma idempotency_key_inj_witness : "a:1" = "a:1" ∧ 2 = 2.
Proof. apply (idempotency_key_inj "e1" "a:1" "a:1" 2 2). reflexivity. Defined.
