(* ===== verification/WorkflowRun.v ===== *)
(** * Workflows: the durable runner (core/src/extensions/workflows/runner.rs)

    An execution row and its node runs are the state; a run may be broken off
    anywhere and taken up again from what is stored.  Every statement may fail:
    [db_fails] tells the error of a step, if any.  Tools act on a state of the
    world.  Delays, the renewal of the lease and the channels behind the events
    are not modelled. *)

From stdpp Require Import base numbers pretty gmap strings sets list.
From S2P Require Import Prelude Str Ident Perms Json DataTypes RuleParser RuleShorthand Workflow WorkflowExec.

Record RetryPolicy := { max_attempts : N; backoff_ms : N; continue_on_error : bool }.

(** [Value::as_u64]: an integer that is not negative prints as its digits. *)
Definition as_u64 (v : JsonValue) : option N :=
  match v with
  | JNumber n => if decide (num_text n = "") then None else digits_value 0 (num_text n)
  | _ => None
  end.
Definition as_u32 (n : N) : N := (n mod 4294967296)%N.
Definition as_i32 (n : N) : Z :=
  let z := Z.of_N n in if (z <? 2147483648)%Z then z else (z - 4294967296)%Z.

Definition retry_policy (node : WorkflowNode) : RetryPolicy :=
  let r := get (params node) "retry" in
  {| max_attempts := as_u32 (N.max 1 (default 1%N ((r ≫= λ v, get v "maxAttempts") ≫= as_u64)));
     backoff_ms := default 500%N ((r ≫= λ v, get v "backoffMs") ≫= as_u64);
     continue_on_error := default false (get (params node) "continueOnError" ≫= as_bool) |}.

(** ** The stored state *)

Record Execution := {
  ex_workflow : string; ex_app : string; ex_user : string; ex_trigger : option JsonValue;
  (* the snapshot, or why it does not read as a graph *)
  ex_graph : option (result string WorkflowGraph);
  ex_lease : option Z; ex_status : WorkflowExecutionStatus; ex_error : option string; ex_attempts : N }.
Record NodeRun := {
  nr_status : string; nr_input : JsonValue; nr_output : option JsonValue; nr_error : option string; nr_attempts : Z }.
Record WorkflowRow := { wf_app : string; wf_enabled : bool; wf_graph : result string WorkflowGraph }.
Record WfDb := {
  workflows : gmap string WorkflowRow;
  executions : gmap string Execution;
  node_runs : gmap (string * string) NodeRun }.

Inductive WorkflowEvent :=
| EvNode (node_id status : string) (output : JsonValue) (error : option string)
| EvDone (status : string) (error : option string).

Inductive DbStep := LoadWorkflow | InsertExecution | LoadExecution | MarkRunning | LoadPrior | PersistNode (node_id : string) (attempt : N) | Finish.

Record World (W : Type) := { wdb : WfDb; wtools : W; wevents : list WorkflowEvent }.
Arguments wdb {W} _.
Arguments wtools {W} _.
Arguments wevents {W} _.
Arguments Build_World {W} _ _ _.

Definition set_db {W} (f : WfDb → WfDb) (w : World W) : World W := Build_World (f (wdb w)) (wtools w) (wevents w).
Definition set_tools {W} (t : W) (w : World W) : World W := Build_World (wdb w) t (wevents w).
Definition publish {W} (e : WorkflowEvent) (w : World W) : World W := Build_World (wdb w) (wtools w) (wevents w ++ [e]).

Definition put_execution (id : string) (ex : Execution) (d : WfDb) : WfDb :=
  {| workflows := workflows d; executions := <[id := ex]> (executions d); node_runs := node_runs d |}.
Definition put_node_run (k : string * string) (r : NodeRun) (d : WfDb) : WfDb :=
  {| workflows := workflows d; executions := executions d; node_runs := <[k := r]> (node_runs d) |}.

(** [create_execution]: the trigger's data become its parameters in the snapshot. *)
Fixpoint seed_trigger (data : JsonValue) (ns : list WorkflowNode) : list WorkflowNode :=
  match ns with
  | [] => []
  | n :: ns =>
      if is_trigger n then {| node_id := node_id n; kind := kind n; label := label n; params := data |} :: ns
      else n :: seed_trigger data ns
  end.

Section Runner.
Context {Ctx : Type} (new_ctx : JsonValue → JsonValue → Ctx) (ctx_eval : string → Ctx → option JsonValue * Ctx).
Context (fixup_number : JsonNumber → JsonNumber) (json_to_string : JsonValue → string).
Context {W : Type} (registry : string → option BatchMode).
Context (tool_execute : string → ToolCall → W → result string JsonValue * W).
Context (db_fails : DbStep → option string).

Definition fallible {A} (s : DbStep) (a : A) : result string A :=
  match db_fails s with Some e => Err e | None => Ok a end.

(** [fresh_id] is [gen_random_uuid()]. *)
Definition create_execution (fresh_id workflow_id app_id user_id : string) (trigger_data : option JsonValue)
    (lease_msg_id : option Z) (d : WfDb) : result string string * WfDb :=
  let r :=
    try? fallible LoadWorkflow tt in
    let? row := ok_or (match workflows d !! workflow_id with
      | Some row => if decide (wf_app row = app_id) then if wf_enabled row then Some row else None else None
      | None => None end) "workflow not found or not enabled" in
    let? graph := map_err (λ e, "invalid graph: " +:+ e) (wf_graph row) in
    let graph := match trigger_data with
      | Some td => {| nodes := seed_trigger td (nodes graph); edges := edges graph |}
      | None => graph end in
    try? fallible InsertExecution tt in
    Ok {| ex_workflow := workflow_id; ex_app := app_id; ex_user := user_id; ex_trigger := trigger_data;
          ex_graph := Some (Ok graph); ex_lease := lease_msg_id; ex_status := ExQueued; ex_error := None;
          ex_attempts := 0 |} in
  match r with
  | Ok ex => (Ok fresh_id, put_execution fresh_id ex d)
  | Err e => (Err e, d)
  end.

Section Execution.
Context (exec_id app_id user_id : string) (perms : list string) (g : WorkflowGraph).

Definition run_node (outputs : gmap string JsonValue) (node : WorkflowNode) (t : W) : NodeExecution * W :=
  execute_node new_ctx ctx_eval fixup_number json_to_string outputs registry tool_execute
    app_id user_id perms exec_id node g t.

(** [persist_node_run]: a failure is ignored. *)
Definition persist_node_run (id : string) (status : WorkflowNodeRunStatus) (input output : JsonValue)
    (error : option string) (attempt : N) (w : World W) : World W :=
  match db_fails (PersistNode id attempt) with
  | Some _ => w
  | None => set_db (put_node_run (exec_id, id)
      {| nr_status := node_run_as_str status; nr_input := input; nr_output := Some output;
         nr_error := error; nr_attempts := as_i32 attempt |}) w
  end.

(** The variables of the loop. *)
Record Loop := {
  l_active : gmap string (list N); l_outputs : gmap string JsonValue;
  l_all_succeeded : bool; l_first_error : option string; l_aborted : bool; l_halted : bool;
  l_world : World W }.

(** What [run] records of a node's last attempt. *)
Definition recorded (policy : RetryPolicy) (ex : NodeExecution) : WorkflowNodeRunStatus * JsonValue :=
  if decide (ne_status ex = NFailed) then
    if continue_on_error policy
    then (NSucceeded, JArray [JArray [JObject [("json", JObject [("error", JString (default "" (ne_error ex)))])]]])
    else (ne_status ex, ne_output ex)
  else (ne_status ex, ne_output ex).

Definition settle (id : string) (policy : RetryPolicy) (ex : NodeExecution) (attempt : N) (w : World W) (ls : Loop) : Loop :=
  let '(rec_status, output) := recorded policy ex in
  let w := persist_node_run id rec_status (ne_input ex) output (ne_error ex) attempt w in
  let w := publish (EvNode id (node_run_as_str rec_status) output (ne_error ex)) w in
  if decide (rec_status = NSucceeded) then
    {| l_active := <[id := active_ports output]> (l_active ls); l_outputs := <[id := output]> (l_outputs ls);
       l_all_succeeded := l_all_succeeded ls; l_first_error := l_first_error ls; l_aborted := l_aborted ls;
       l_halted := l_halted ls || ne_halt ex; l_world := w |}
  else
    {| l_active := l_active ls; l_outputs := l_outputs ls; l_all_succeeded := false;
       l_first_error := match l_first_error ls with
         | None => match ne_error ex with Some e => Some e | None => Some "node failed" end
         | some => some end;
       l_aborted := l_aborted ls || bool_decide (rec_status = NFailed);
       l_halted := l_halted ls || ne_halt ex; l_world := w |}.

(** The attempts of a node; [more] is [max_attempts - attempt]. *)
Fixpoint attempts (more : nat) (id : string) (node : WorkflowNode) (policy : RetryPolicy) (attempt : N)
    (w : World W) (ls : Loop) : Loop :=
  let '(ex, t) := run_node (l_outputs ls) node (wtools w) in
  let w := set_tools t w in
  match more with
  | S more =>
      if decide (ne_status ex = NFailed) then
        attempts more id node policy (attempt + 1)
          (persist_node_run id NFailed (ne_input ex) (ne_output ex) (ne_error ex) attempt w) ls
      else settle id policy ex attempt w ls
  | O => settle id policy ex attempt w ls
  end.

(** The node map: of nodes with one id the last. *)
Definition node_of (id : string) : option WorkflowNode :=
  List.find (λ n, bool_decide (node_id n = id)) (rev (nodes g)).

Definition visit (done : gset string) (id : string) (ls : Loop) : Loop :=
  match node_of id with
  | None => ls
  | Some node =>
      if decide (id ∈ done) then ls
      else if should_execute id g (l_active ls)
      then let policy := retry_policy node in
           attempts (N.to_nat (max_attempts policy - 1)) id node policy 1 (l_world ls) ls
      else ls
  end.

Fixpoint run_nodes (done : gset string) (order : list string) (ls : Loop) : Loop :=
  match order with
  | [] => ls
  | id :: order =>
      let ls := visit done id ls in
      if l_aborted ls || l_halted ls then ls else run_nodes done order ls
  end.

(** [seed_resume], on the rows of the execution. *)
Record Resume := {
  rs_active : gmap string (list N); rs_outputs : gmap string JsonValue; rs_done : gset string }.
Definition seed_one (r : Resume) (row : string * NodeRun) : Resume :=
  if decide (nr_status row.2 = node_run_as_str NSucceeded) then
    let r := match nr_output row.2 with
      | Some out => {| rs_active := <[row.1 := active_ports out]> (rs_active r);
                       rs_outputs := <[row.1 := out]> (rs_outputs r); rs_done := rs_done r |}
      | None => r end in
    {| rs_active := rs_active r; rs_outputs := rs_outputs r; rs_done := {[row.1]} ∪ rs_done r |}
  else r.
Definition seed_resume (prior : list (string * NodeRun)) : Resume :=
  fold_left seed_one prior {| rs_active := ∅; rs_outputs := ∅; rs_done := ∅ |}.

Definition prior_rows (d : WfDb) : list (string * NodeRun) :=
  omap (λ kr : (string * string) * NodeRun, if decide (kr.1.1 = exec_id) then Some (kr.1.2, kr.2) else None)
    (map_to_list (node_runs d)).

Definition loop_from (r : Resume) (w : World W) : Loop :=
  {| l_active := rs_active r; l_outputs := rs_outputs r; l_all_succeeded := true; l_first_error := None;
     l_aborted := false; l_halted := false; l_world := w |}.
Definition resume_from (w : World W) : gset string * Loop :=
  let r := seed_resume (prior_rows (wdb w)) in (rs_done r, loop_from r w).
End Execution.

(** [hash_order] is the order a hash map yields the first nodes in. *)
Context (hash_order : gmap string nat → list string).

Definition run (exec_id user_id : string) (perms : list string) (lease_msg_id : Z) (w : World W) :
    result string WorkflowExecutionStatus * World W :=
  let loaded :=
    try? fallible LoadExecution tt in
    let? ex := ok_or (match executions (wdb w) !! exec_id with
      | Some ex => if decide (ex_user ex = user_id ∧ ex_lease ex = Some lease_msg_id
                              ∧ (ex_status ex = ExQueued ∨ ex_status ex = ExRunning)) then Some ex else None
      | None => None end) "execution identity, lease or status mismatch" in
    let? snapshot := ok_or (ex_graph ex) "execution has no graph snapshot" in
    let? g := map_err (λ e, "invalid graph snapshot: " +:+ e) snapshot in
    try? map_err (λ issues, "graph validation failed: " +:+ join "; " issues) (validate g) in
    try? fallible MarkRunning tt in
    Ok (ex, g) in
  match loaded with
  | Err e => (Err e, w)
  | Ok (ex, g) =>
      let ex := {| ex_workflow := ex_workflow ex; ex_app := ex_app ex; ex_user := ex_user ex;
                   ex_trigger := ex_trigger ex; ex_graph := ex_graph ex; ex_lease := ex_lease ex;
                   ex_status := ExRunning; ex_error := ex_error ex; ex_attempts := (ex_attempts ex + 1)%N |} in
      let w := set_db (put_execution exec_id ex) w in
      match topo_sort_from (hash_order (in_degrees g)) g with
      | None => (Err "panicked", w)
      | Some order =>
          match db_fails LoadPrior with
          | Some e => (Err e, w)
          | None =>
              let '(done, ls) := resume_from exec_id w in
              let ls := run_nodes exec_id (ex_app ex) user_id perms g done order ls in
              let w := l_world ls in
              let final := if l_all_succeeded ls then ExSucceeded else ExFailed in
              match db_fails Finish with
              | Some e => (Err e, w)
              | None =>
                  let w := set_db (put_execution exec_id
                    {| ex_workflow := ex_workflow ex; ex_app := ex_app ex; ex_user := ex_user ex;
                       ex_trigger := ex_trigger ex; ex_graph := ex_graph ex; ex_lease := None;
                       ex_status := final; ex_error := l_first_error ls; ex_attempts := ex_attempts ex |}) w in
                  (Ok final, publish (EvDone (execution_as_str final) (l_first_error ls)) w)
              end
          end
      end
  end.
End Runner.

(** ** Taking up a run that broke off *)

Section Resuming.
Context {Ctx : Type} (new_ctx : JsonValue → JsonValue → Ctx) (ctx_eval : string → Ctx → option JsonValue * Ctx).
Context (fixup_number : JsonNumber → JsonNumber) (json_to_string : JsonValue → string).
Context {W : Type} (registry : string → option BatchMode).
Context (tool_execute : string → ToolCall → W → result string JsonValue * W).
Context (db_fails : DbStep → option string).
Context (exec_id app_id user_id : string) (perms : list string) (g : WorkflowGraph).

(** Node tools must be idempotent (the first lines of runner.rs): a call that is made
    again, with the same arguments and idempotency key, is answered as it was. *)
Definition tools_idempotent : Prop :=
  ∀ name call w w', (tool_execute name call w).1 = (tool_execute name call w').1.
(** The rows a run writes are stored: [persist_node_run] ignores a write that fails, and
    then the database is not the source of truth that file says it is. *)
Definition persists : Prop := ∀ id a, db_fails (PersistNode id a) = None.

Local Notation run_node := (run_node new_ctx ctx_eval fixup_number json_to_string registry tool_execute
  exec_id app_id user_id perms g).
Local Notation settle := (settle db_fails exec_id).
Local Notation attempts := (attempts new_ctx ctx_eval fixup_number json_to_string registry tool_execute db_fails
  exec_id app_id user_id perms g).
Local Notation visit := (visit new_ctx ctx_eval fixup_number json_to_string registry tool_execute db_fails
  exec_id app_id user_id perms g).
Local Notation run_nodes := (run_nodes new_ctx ctx_eval fixup_number json_to_string registry tool_execute db_fails
  exec_id app_id user_id perms g).
Local Notation Loop := (Loop (W := W)).

(** The part of the loop's state that decides the result. *)
Definition result_of (ls : Loop) :=
  (l_active ls, l_outputs ls, l_all_succeeded ls, l_first_error ls, l_aborted ls, l_halted ls).
Definition stopped (ls : Loop) : bool := l_aborted ls || l_halted ls.
Definition row (w : World W) (id : string) : option NodeRun := node_runs (wdb w) !! (exec_id, id).

Lemma dispatch_items_stable outputs node name base i items w w' :
  tools_idempotent →
  (dispatch_items new_ctx ctx_eval fixup_number json_to_string outputs tool_execute app_id user_id perms exec_id
     node name base i items w).1
  = (dispatch_items new_ctx ctx_eval fixup_number json_to_string outputs tool_execute app_id user_id perms exec_id
     node name base i items w').1.
Proof.
  intros Hs. revert i w w'. induction items as [|x items IH]; intros i w w'; simpl; [done|].
  unfold dispatch. simpl. destruct (has_permission perms _); [|done].
  set (call := tool_call _ _ _ _ _ _ _ _ _ _ _ _ _). specialize (Hs name call w w').
  destruct (tool_execute name call w) as [r1 w1], (tool_execute name call w') as [r1' w1']. simpl in Hs. subst r1'.
  destruct r1 as [v|e]; [|done]. specialize (IH (S i) w1 w1').
  destruct (dispatch_items _ _ _ _ _ _ _ _ _ _ _ _ _ (S i) items w1) as [r2 w2],
    (dispatch_items _ _ _ _ _ _ _ _ _ _ _ _ _ (S i) items w1') as [r2' w2']. simpl in IH. subst r2'. by destruct r2.
Qed.

Lemma run_node_stable outputs node t t' : tools_idempotent → (run_node outputs node t).1 = (run_node outputs node t').1.
Proof.
  intros Hs. unfold WorkflowRun.run_node, execute_node. destruct (kind node) as [tr|name|c| |wf]; try done.
  2: by destruct (execute_control_node _ _ _ _ _ _ _ _ _) as [[? ?] ?].
  unfold execute_tool_node. destruct (registry name) as [mode|]; [|done].
  set (items := match default _ _ with PerItem => _ | Once => _ end).
  pose proof (dispatch_items_stable outputs node name (without_batch_mode (params node)) 0 items t t' Hs) as H.
  destruct (dispatch_items _ _ _ _ _ _ _ _ _ _ _ _ _ 0 items t) as [r w],
    (dispatch_items _ _ _ _ _ _ _ _ _ _ _ _ _ 0 items t') as [r' w']. simpl in H. subst r'. by destruct r.
Qed.

(** A node that is neither done nor failed is one Core does not run, whatever it
    is given. *)
Lemma run_node_skipped outputs node t outputs' t' :
  ne_status (run_node outputs node t).1 ≠ NSucceeded → ne_status (run_node outputs node t).1 ≠ NFailed →
  let ex := (run_node outputs' node t').1 in
  ne_status ex = NSkipped ∧ ne_error ex = Some "not implemented" ∧ ne_halt ex = false
  ∧ ne_error (run_node outputs node t).1 = Some "not implemented".
Proof.
  unfold WorkflowRun.run_node, execute_node. destruct (kind node) as [tr|name|c| |wf]; try done.
  - unfold execute_tool_node. destruct (registry name) as [mode|]; [|done].
    destruct (dispatch_items _ _ _ _ _ _ _ _ _ _ _ _ _ _ _ _) as [[v|e] w]; done.
  - destruct c; done.
Qed.

Lemma row_persist id status input output error a w id' :
  persists →
  row (persist_node_run db_fails exec_id id status input output error a w) id'
  = if decide (id' = id) then Some {| nr_status := node_run_as_str status; nr_input := input;
      nr_output := Some output; nr_error := error; nr_attempts := as_i32 a |}
    else row w id'.
Proof.
  intros Hp. unfold persist_node_run, row. rewrite Hp. simpl. case_decide as H.
  - subst. by rewrite lookup_insert_eq.
  - rewrite lookup_insert_ne; [done|]. congruence.
Qed.

(** All attempts of a node come to what one of them gives; the rows of the other
    nodes stay. *)
Lemma attempts_settle more id node policy a (w : World W) (ls : Loop) t :
  tools_idempotent → persists →
  ∃ a' w', attempts more id node policy a w ls = settle id policy (run_node (l_outputs ls) node t).1 a' w' ls
    ∧ ∀ id', id' ≠ id → row w' id' = row w id'.
Proof.
  intros Hs Hp. revert a w. induction more as [|more IH]; intros a w; simpl.
  - pose proof (run_node_stable (l_outputs ls) node (wtools w) t Hs) as Hr.
    destruct (run_node (l_outputs ls) node (wtools w)) as [ex t1]. simpl in Hr. subst ex.
    by exists a, (set_tools t1 w).
  - pose proof (run_node_stable (l_outputs ls) node (wtools w) t Hs) as Hr.
    destruct (run_node (l_outputs ls) node (wtools w)) as [ex t1]. simpl in Hr. subst ex.
    case_decide; [|by exists a, (set_tools t1 w)].
    destruct (IH (a + 1)%N (persist_node_run db_fails exec_id id NFailed (ne_input (run_node (l_outputs ls) node t).1)
      (ne_output (run_node (l_outputs ls) node t).1) (ne_error (run_node (l_outputs ls) node t).1) a (set_tools t1 w)))
      as (a' & w' & Heq & Hrows).
    exists a', w'. split; [done|]. intros id' Hne. rewrite Hrows, row_persist by done. by rewrite decide_False.
Qed.

(** What the rows of the execution tell is what the loop holds. *)
Record stored (ls : Loop) : Prop := {
  st_active : l_active ls = active_ports <$> l_outputs ls;
  st_rows : ∀ id out, l_outputs ls !! id = Some out ↔
    ∃ r, row (l_world ls) id = Some r ∧ nr_status r = node_run_as_str NSucceeded ∧ nr_output r = Some out;
  st_some : ∀ id r, row (l_world ls) id = Some r → is_Some (nr_output r) }.

Lemma recorded_cases policy ex :
  (recorded policy ex).1 = NSucceeded ∨ (recorded policy ex).1 = NFailed
  ∨ (recorded policy ex).1 ≠ NSucceeded ∧ (recorded policy ex).1 = ne_status ex ∧ ne_status ex ≠ NFailed
    ∧ ne_status ex ≠ NSucceeded.
Proof.
  unfold recorded. case_decide as H; [destruct (continue_on_error policy); simpl; auto|]. simpl.
  destruct (decide (ne_status ex = NSucceeded)); auto 6.
Qed.

Lemma settle_outputs id policy ex a (w : World W) (ls : Loop) id' :
  id' ≠ id → l_outputs (settle id policy ex a w ls) !! id' = l_outputs ls !! id'
    ∧ l_active (settle id policy ex a w ls) !! id' = l_active ls !! id'.
Proof.
  intros Hne. unfold WorkflowRun.settle. destruct (recorded policy ex) as [st out]. case_decide; simpl; [|done].
  by rewrite !lookup_insert_ne by done.
Qed.

Lemma settle_stored id policy ex a (w : World W) (ls : Loop) :
  persists → stored ls → l_outputs ls !! id = None →
  (∀ id', id' ≠ id → row w id' = row (l_world ls) id') →
  stored (settle id policy ex a w ls).
Proof.
  intros Hp [Hact Hrows Hsome] Hnone Hw. unfold WorkflowRun.settle. destruct (recorded policy ex) as [st out].
  set (w' := publish _ _).
  assert (∀ id', row w' id' = if decide (id' = id) then Some {| nr_status := node_run_as_str st;
    nr_input := ne_input ex; nr_output := Some out; nr_error := ne_error ex; nr_attempts := as_i32 a |}
    else row (l_world ls) id') as Hrow.
  { intros id'. unfold w'. transitivity (row (persist_node_run db_fails exec_id id st (ne_input ex) out (ne_error ex) a w) id'); [done|].
    rewrite row_persist by done. case_decide; [done|]. by apply Hw. }
  assert (∀ id' r, row w' id' = Some r → is_Some (nr_output r)) as Hsome'.
  { intros id' r. rewrite Hrow. case_decide; [intros [= <-]; by eexists|apply Hsome]. }
  case_decide as Hst; split; simpl; [by rewrite fmap_insert, Hact| |done|done| |done].
  - intros id' out'. rewrite Hrow. destruct (decide (id' = id)) as [->|Hne].
    + rewrite lookup_insert_eq. subst st. split; [intros [= <-]; by eexists|]. intros (r & [= <-] & _ & Ho). done.
    + rewrite lookup_insert_ne by done. apply Hrows.
  - intros id' out'. rewrite Hrow. destruct (decide (id' = id)) as [->|Hne]; [|apply Hrows].
    rewrite Hnone. split; [done|]. intros (r & [= <-] & Hr & _). simpl in Hr. by destruct st.
Qed.

(** ** One visit *)

(** What a visit does: nothing, or the node is settled. *)
Lemma visit_cases done id (ls : Loop) t :
  tools_idempotent → persists →
  match node_of g id with
  | None => visit done id ls = ls
  | Some node =>
      if decide (id ∈ done) then visit done id ls = ls
      else if should_execute id g (l_active ls)
      then ∃ a w, visit done id ls = settle id (retry_policy node) (run_node (l_outputs ls) node t).1 a w ls
             ∧ ∀ id', id' ≠ id → row w id' = row (l_world ls) id'
      else visit done id ls = ls
  end.
Proof.
  intros Hs Hp. unfold WorkflowRun.visit. destruct (node_of g id) as [node|]; [|done]. case_decide; [done|].
  destruct (should_execute id g (l_active ls)); [|done]. by apply attempts_settle.
Qed.

Lemma visit_other done id (ls : Loop) id' :
  tools_idempotent → persists → id' ≠ id →
  l_outputs (visit done id ls) !! id' = l_outputs ls !! id' ∧ l_active (visit done id ls) !! id' = l_active ls !! id'.
Proof.
  intros Hs Hp Hne. pose proof (visit_cases done id ls (wtools (l_world ls)) Hs Hp) as H.
  destruct (node_of g id) as [node|]; [|by rewrite H]. case_decide; [by rewrite H|].
  destruct (should_execute id g (l_active ls)); [|by rewrite H]. destruct H as (a & w & -> & _). by apply settle_outputs.
Qed.

Lemma visit_stored done id (ls : Loop) :
  tools_idempotent → persists → stored ls → l_outputs ls !! id = None → stored (visit done id ls).
Proof.
  intros Hs Hp Hst Hn. pose proof (visit_cases done id ls (wtools (l_world ls)) Hs Hp) as H.
  destruct (node_of g id) as [node|]; [|by rewrite H]. case_decide; [by rewrite H|].
  destruct (should_execute id g (l_active ls)); [|by rewrite H]. destruct H as (a & w & -> & Hw). by apply settle_stored.
Qed.

Lemma settle_result id policy ex a w (ls : Loop) a' w' (ls' : Loop) :
  result_of ls = result_of ls' →
  result_of (settle id policy ex a w ls) = result_of (settle id policy ex a' w' ls').
Proof.
  destruct ls, ls'. unfold result_of. simpl. intros [= -> -> -> -> -> ->].
  unfold WorkflowRun.settle. destruct (recorded policy ex) as [st out]. by case_decide.
Qed.

Lemma visit_result done done' id (ls ls' : Loop) :
  tools_idempotent → persists → result_of ls = result_of ls' → (id ∈ done ↔ id ∈ done') →
  result_of (visit done id ls) = result_of (visit done' id ls').
Proof.
  intros Hs Hp Heq Hd. set (t := wtools (l_world ls)).
  pose proof (visit_cases done id ls t Hs Hp) as H. pose proof (visit_cases done' id ls' t Hs Hp) as H'.
  assert (l_active ls = l_active ls' ∧ l_outputs ls = l_outputs ls') as [Ha Ho] by (unfold result_of in Heq; by simplify_eq).
  rewrite <-Ha, <-Ho in H'.
  destruct (node_of g id) as [node|]; [|by rewrite H, H']. rewrite <-(decide_ext _ _ _ _ Hd) in H'.
  case_decide; [by rewrite H, H'|]. destruct (should_execute id g (l_active ls)); [|by rewrite H, H'].
  destruct H as (a & w & -> & _), H' as (a' & w' & -> & _). by apply settle_result.
Qed.

(** ** A list of visits *)

Lemma run_nodes_other done l (ls : Loop) id :
  tools_idempotent → persists → id ∉ l →
  l_outputs (run_nodes done l ls) !! id = l_outputs ls !! id ∧ l_active (run_nodes done l ls) !! id = l_active ls !! id.
Proof.
  intros Hs Hp. revert ls. induction l as [|x l IH]; intros ls Hn; simpl; [done|].
  destruct (visit_other done x ls id Hs Hp) as [H1 H2]; [set_solver|].
  destruct (_ || _); [done|]. rewrite <-H1, <-H2. apply IH. set_solver.
Qed.

Lemma run_nodes_stored done l (ls : Loop) :
  tools_idempotent → persists → NoDup l → stored ls → (∀ id, id ∈ l → l_outputs ls !! id = None) →
  stored (run_nodes done l ls).
Proof.
  intros Hs Hp. revert ls. induction l as [|x l IH]; intros ls Hnd Hst Hn; simpl; [done|].
  apply NoDup_cons in Hnd as [Hx Hnd]. pose proof (visit_stored done x ls Hs Hp Hst (Hn x ltac:(left))) as Hst'.
  destruct (_ || _); [done|]. apply IH; [done|done|]. intros id Hid.
  rewrite (proj1 (visit_other done x ls id Hs Hp ltac:(set_solver))). apply Hn. by right.
Qed.

Lemma run_nodes_app done l1 l2 (ls : Loop) :
  stopped (run_nodes done l1 ls) = false →
  run_nodes done (l1 ++ l2) ls = run_nodes done l2 (run_nodes done l1 ls).
Proof.
  revert ls. induction l1 as [|x l1 IH]; intros ls; simpl; [done|]. unfold stopped in *.
  destruct (l_aborted (visit done x ls) || l_halted (visit done x ls)) eqn:H; [by rewrite H|]. apply IH.
Qed.

Lemma run_nodes_result done done' l (ls ls' : Loop) :
  tools_idempotent → persists → result_of ls = result_of ls' → (∀ id, id ∈ l → id ∈ done ↔ id ∈ done') →
  result_of (run_nodes done l ls) = result_of (run_nodes done' l ls').
Proof.
  intros Hs Hp. revert ls ls'. induction l as [|x l IH]; intros ls ls' Heq Hd; simpl; [done|].
  assert (result_of (visit done x ls) = result_of (visit done' x ls')) as Hv
    by (apply visit_result; auto; apply Hd; left).
  assert (l_aborted (visit done x ls) = l_aborted (visit done' x ls')
    ∧ l_halted (visit done x ls) = l_halted (visit done' x ls')) as [-> ->] by (unfold result_of in Hv; by simplify_eq).
  destruct (_ || _); [done|]. apply IH; [done|]. intros. apply Hd. by right.
Qed.

Lemma should_execute_ext id (a a' : gmap string (list N)) :
  (∀ e, e ∈ edges g → to e = id → a !! from e = a' !! from e) → should_execute id g a = should_execute id g a'.
Proof.
  intros H. unfold should_execute. destruct (inbound id g) as [|e0 es] eqn:Hin; [done|].
  assert (∀ e, e ∈ e0 :: es → a !! from e = a' !! from e) as H'.
  { intros e He. rewrite <-Hin in He. unfold inbound in He. apply list_elem_of_filter in He as [? ?]. by apply H. }
  clear Hin H. induction (e0 :: es) as [|e l IH]; simpl; [done|].
  rewrite H' by left. f_equal. apply IH. intros. apply H'. by right.
Qed.

(** What the loop holds of a node right after its visit is what it holds in the
    end. *)
Lemma run_nodes_head done id l (ls : Loop) :
  tools_idempotent → persists → id ∉ l → stopped (visit done id ls) = false →
  l_outputs (run_nodes done (id :: l) ls) !! id = l_outputs (visit done id ls) !! id.
Proof.
  intros Hs Hp Hn Hst. simpl. unfold stopped in Hst. rewrite Hst. by apply run_nodes_other.
Qed.

(** What visiting a node again does, when the outputs are already those of the
    end: nothing it has not done before. *)
Lemma revisit (ends F R : Loop) id (l1 : list string) :
  tools_idempotent → persists →
  (∀ e, e ∈ edges g → to e = id → from e ∈ l1) →
  (∀ x, x ∈ l1 → l_active ends !! x = l_active F !! x) →
  l_outputs F !! id = None → stopped (visit ∅ id F) = false →
  l_outputs ends !! id = l_outputs (visit ∅ id F) !! id →
  result_of R = (l_active ends, l_outputs ends, l_all_succeeded F, l_first_error F, false, false) →
  result_of (visit (dom (l_outputs ends)) id R)
  = (l_active ends, l_outputs ends, l_all_succeeded (visit ∅ id F), l_first_error (visit ∅ id F), false, false).
Proof.
  intros Hs Hp Hpre Hact Hnone Hstop Hsame HR. set (t := wtools (l_world F)).
  pose proof (visit_cases ∅ id F t Hs Hp) as HF. pose proof (visit_cases (dom (l_outputs ends)) id R t Hs Hp) as HV.
  assert (l_active R = l_active ends) as HRa by (unfold result_of in HR; by simplify_eq).
  rewrite HRa, (should_execute_ext id _ (l_active F)) in HV by (intros; by apply Hact, Hpre).
  destruct (node_of g id) as [node|]; [|by rewrite HV, HF]. rewrite decide_False in HF by set_solver.
  destruct (should_execute id g (l_active F)); [|by case_decide; rewrite HV, HF].
  destruct HF as (a & w & HF & _). rewrite HF in *.
  destruct (recorded_cases (retry_policy node) (run_node (l_outputs F) node t).1) as [Hrec|[Hrec|(Hrec & Heq & Hnf & Hns)]];
    unfold WorkflowRun.settle in *; destruct (recorded _ _) as [st out] eqn:Hr; simpl in Hrec.
  - rewrite decide_True in * by done. simpl in *. rewrite lookup_insert_eq in Hsame.
    rewrite decide_True in HV by (apply elem_of_dom; eauto). rewrite HV. done.
  - rewrite decide_False in * by (by subst). unfold stopped in Hstop. simpl in Hstop. subst st.
    by rewrite orb_true_r in Hstop.
  - rewrite decide_False in * by done. simpl in *. rewrite Hnone in Hsame.
    rewrite decide_False in HV by (rewrite elem_of_dom, Hsame; by intros []).
    destruct HV as (a' & w' & -> & _).
    destruct (run_node_skipped (l_outputs F) node t (l_outputs R) t Hns Hnf) as (Hst' & Herr' & Hh' & Herr).
    unfold recorded. rewrite decide_False by (rewrite Hst'; done). rewrite decide_False by (rewrite Hst'; done).
    unfold result_of in HR |- *. injection HR as HA HO HL HE HB HH. simpl.
    by rewrite Hst', Hh', Herr', Herr, HA, HO, HE, HB, HH.
Qed.

(** A second pass over nodes that were all visited adds nothing. *)
Lemma replay (l1 l2 : list string) (F R : Loop) :
  tools_idempotent → persists → respects g (l1 ++ l2) → NoDup (l1 ++ l2) →
  (∀ id, id ∉ l1 → l_outputs F !! id = None) →
  let ends := run_nodes ∅ l2 F in
  stopped F = false → stopped ends = false →
  result_of R = (l_active ends, l_outputs ends, l_all_succeeded F, l_first_error F, false, false) →
  result_of (run_nodes (dom (l_outputs ends)) l2 R) = result_of ends.
Proof.
  intros Hs Hp. revert l1 F R. induction l2 as [|id l2 IH]; intros l1 F R Hres Hnd Hnone ends HF Hends HR.
  { simpl in *. rewrite HR. unfold result_of, ends. unfold stopped in HF. by apply orb_false_iff in HF as [-> ->]. }
  assert (id ∉ l1 ∧ id ∉ l2) as [Hid1 Hid2].
  { apply NoDup_app in Hnd as (_ & Hdis & [? _]%NoDup_cons). split; [|done]. intros Hi. apply (Hdis _ Hi). left. }
  assert (stopped (visit ∅ id F) = false) as Hv.
  { unfold ends in Hends. simpl in Hends. unfold stopped in *.
    destruct (l_aborted (visit ∅ id F) || l_halted (visit ∅ id F)) eqn:H; [|done]. by rewrite H in Hends. }
  assert (ends = run_nodes ∅ l2 (visit ∅ id F)) as Hends'.
  { unfold ends. simpl. unfold stopped in Hv. by rewrite Hv. }
  assert (result_of (visit (dom (l_outputs ends)) id R)
    = (l_active ends, l_outputs ends, l_all_succeeded (visit ∅ id F), l_first_error (visit ∅ id F), false, false)) as HR'.
  { apply (revisit ends F R id l1); try done.
    - intros e He Ht. by eapply (Hres l1 id l2).
    - intros x Hx. rewrite Hends'. assert (x ∉ l2 ∧ x ≠ id) as [? ?].
      { apply NoDup_app in Hnd as (_ & Hdis & _). specialize (Hdis _ Hx). set_solver. }
      rewrite (proj2 (run_nodes_other _ _ _ _ Hs Hp ltac:(done))). by apply visit_other.
    - by apply Hnone.
    - by apply run_nodes_head. }
  cbn [WorkflowRun.run_nodes]. assert (l_aborted (visit (dom (l_outputs ends)) id R) = false
    ∧ l_halted (visit (dom (l_outputs ends)) id R) = false) as [-> ->] by (unfold result_of in HR'; by simplify_eq).
  simpl. rewrite Hends' in *. apply (IH (l1 ++ [id])); try done; try (by rewrite <-app_assoc).
  intros x Hx. destruct (visit_other ∅ id F x Hs Hp) as [-> _]; [set_solver|]. apply Hnone. set_solver.
Qed.

(** ** What is read back *)

Lemma seed_resume_spec (rows : list (string * NodeRun)) :
  NoDup (map fst rows) →
  let r := seed_resume rows in
  rs_active r = active_ports <$> rs_outputs r
  ∧ (∀ id out, rs_outputs r !! id = Some out ↔
       ∃ nr, (id, nr) ∈ rows ∧ nr_status nr = node_run_as_str NSucceeded ∧ nr_output nr = Some out)
  ∧ (∀ id, id ∈ rs_done r ↔ ∃ nr, (id, nr) ∈ rows ∧ nr_status nr = node_run_as_str NSucceeded).
Proof.
  induction rows as [|[id nr] rows IH] using rev_ind; intros Hnd r.
  { unfold r. simpl. split_and!; [by rewrite fmap_empty| |]; intros; split; set_solver. }
  rewrite map_app in Hnd. simpl in Hnd. apply NoDup_app in Hnd as (Hnd & Hdis & _).
  destruct (IH Hnd) as (Ha & Ho & Hd). unfold r, seed_resume. rewrite fold_left_app. simpl.
  fold (seed_resume rows). set (r0 := seed_resume rows) in *.
  assert (∀ nr', (id, nr') ∉ rows) as Hnew.
  { intros nr' Hin. apply (Hdis id); [by apply (list_elem_of_fmap_2 fst) in Hin|left]. }
  assert (∀ id' nr', (id', nr') ∈ rows ++ [(id, nr)] ↔ (id', nr') ∈ rows ∨ id' = id ∧ nr' = nr) as Hin
    by (intros; rewrite elem_of_app, list_elem_of_singleton; naive_solver).
  setoid_rewrite Hin. unfold seed_one. simpl. case_decide as Hst; [destruct (nr_output nr) as [out|] eqn:Hout|]; simpl.
  - split_and!.
    + by rewrite Ha, fmap_insert.
    + intros id' out'. destruct (decide (id' = id)) as [->|Hne]; [rewrite lookup_insert_eq|rewrite lookup_insert_ne, Ho by done].
      * split; [intros [= <-]; eauto 6|]. intros (nr' & [?|[_ ->]] & _ & ?); [by exfalso; eapply Hnew|congruence].
      * naive_solver.
    + intros id'. rewrite elem_of_union, elem_of_singleton, Hd. naive_solver.
  - split_and!; [done| |].
    + intros id' out'. rewrite Ho. split; [naive_solver|]. intros (nr' & [?|[-> ->]] & ? & ?); [eauto|congruence].
    + intros id'. rewrite elem_of_union, elem_of_singleton, Hd. naive_solver.
  - split_and!; [done| |]; intros; rewrite ?Ho, ?Hd; naive_solver.
Qed.

Lemma elem_of_prior_rows (w : World W) id nr : (id, nr) ∈ prior_rows exec_id (wdb w) ↔ row w id = Some nr.
Proof.
  unfold prior_rows, row. rewrite list_elem_of_omap. split.
  - intros ([[e i] r] & Hin & Heq). apply elem_of_map_to_list in Hin. simpl in Heq. by case_decide; simplify_eq.
  - intros Hr. exists ((exec_id, id), nr). rewrite elem_of_map_to_list. simpl. by rewrite decide_True.
Qed.

Lemma NoDup_prior_rows (w : World W) : NoDup (map fst (prior_rows exec_id (wdb w))).
Proof.
  apply (NoDup_fmap_fst (prior_rows exec_id (wdb w))).
  - intros id nr nr'. rewrite !elem_of_prior_rows. congruence.
  - unfold prior_rows. pose proof (NoDup_map_to_list (node_runs (wdb w))) as Hnd.
    induction (map_to_list (node_runs (wdb w))) as [|[[e i] r] l IH]; simpl; [constructor|].
    apply NoDup_cons in Hnd as [Hx Hnd]. case_decide; [|by apply IH]. constructor; [|by apply IH].
    rewrite list_elem_of_omap. intros ([[e' i'] r'] & Hin & Heq). simpl in Heq. case_decide; simplify_eq. done.
Qed.

(** The rows of a broken-off run give the loop its outputs back. *)
Lemma resume_from_stored (w : World W) (crashed : Loop) :
  stored crashed →
  (∀ id nr, nr_status nr = node_run_as_str NSucceeded → row w id = Some nr ↔ row (l_world crashed) id = Some nr) →
  let again := resume_from exec_id w in
  again.1 = dom (l_outputs crashed)
  ∧ result_of again.2 = (l_active crashed, l_outputs crashed, true, None, false, false).
Proof.
  intros [Hact Hrows Hsome] Hw again. unfold again, resume_from. simpl.
  destruct (seed_resume_spec _ (NoDup_prior_rows w)) as (Ha & Ho & Hd).
  setoid_rewrite elem_of_prior_rows in Ho. setoid_rewrite elem_of_prior_rows in Hd.
  set (r := seed_resume _) in *.
  assert (rs_outputs r = l_outputs crashed) as Hout.
  { apply map_eq. intros id. apply option_eq. intros out. rewrite Ho, Hrows. naive_solver. }
  split; [|unfold result_of; simpl; by rewrite Ha, Hout, Hact].
  apply set_eq. intros id. rewrite Hd, elem_of_dom. split.
  - intros (nr & Hr & Hs). apply Hw in Hr; [|done]. destruct (Hsome _ _ Hr) as [out Hn].
    exists out. apply Hrows. eauto.
  - intros [out Hid]. apply Hrows in Hid as (nr & Hr & Hs & _). exists nr. split; [|done]. by apply Hw.
Qed.

Lemma resume_from_fresh (w : World W) :
  (∀ id, row w id = None) →
  resume_from exec_id w = (∅, loop_from {| rs_active := ∅; rs_outputs := ∅; rs_done := ∅ |} w).
Proof.
  intros Hn. unfold resume_from. assert (prior_rows exec_id (wdb w) = []) as ->; [|done].
  apply elem_of_nil_inv. intros [id nr] Hin%elem_of_prior_rows. by rewrite Hn in Hin.
Qed.

End Resuming.

(** ** The outcome of a run *)

Section Outcome.
Context {Ctx : Type} (new_ctx : JsonValue → JsonValue → Ctx) (ctx_eval : string → Ctx → option JsonValue * Ctx).
Context (fixup_number : JsonNumber → JsonNumber) (json_to_string : JsonValue → string).
Context {W : Type} (registry : string → option BatchMode).
Context (tool_execute : string → ToolCall → W → result string JsonValue * W).
Context (db_fails : DbStep → option string) (hash_order : gmap string nat → list string).

Local Notation run := (run new_ctx ctx_eval fixup_number json_to_string registry tool_execute db_fails hash_order).

(** The message at hand drives the execution: its user, its lease, not over. *)
Definition drives (user_id : string) (lease : Z) (ex : Execution) : Prop :=
  ex_user ex = user_id ∧ ex_lease ex = Some lease ∧ (ex_status ex = ExQueued ∨ ex_status ex = ExRunning).

Lemma run_refused exec_id user_id perms lease (w : World W) :
  (∀ ex, executions (wdb w) !! exec_id = Some ex → ¬ drives user_id lease ex) →
  ∃ e, run exec_id user_id perms lease w = (Err e, w).
Proof.
  intros Hno. unfold WorkflowRun.run, fallible. destruct (db_fails LoadExecution); [by eexists|]. simpl.
  destruct (executions (wdb w) !! exec_id) as [ex|]; simpl; [|by eexists].
  rewrite decide_False by (by apply Hno). simpl. by eexists.
Qed.

(** The loop reports an error exactly when some node did not succeed. *)
Definition consistent (ls : Loop) : Prop := l_all_succeeded (W := W) ls = true ↔ l_first_error ls = None.

Lemma settle_consistent exec_id id policy ex a w (ls : Loop) :
  consistent ls → consistent (settle db_fails exec_id id policy ex a w ls).
Proof.
  unfold consistent, settle. intros H. destruct (recorded policy ex) as [st out]. case_decide; simpl; [done|].
  destruct (l_first_error ls); [done|]. by destruct (ne_error ex).
Qed.

Lemma run_nodes_consistent exec_id app user perms g done order (ls : Loop) :
  consistent ls →
  consistent (run_nodes new_ctx ctx_eval fixup_number json_to_string registry tool_execute db_fails
    exec_id app user perms g done order ls).
Proof.
  assert (∀ more id node policy a w (ls : Loop), consistent ls →
    consistent (attempts new_ctx ctx_eval fixup_number json_to_string registry tool_execute db_fails
      exec_id app user perms g more id node policy a w ls)) as Hatt.
  { induction more as [|more IH]; intros; simpl; destruct (run_node _ _ _ _ _ _ _ _ _ _ _ _ _ _);
      [by apply settle_consistent|]. case_decide; [by apply IH|by apply settle_consistent]. }
  revert ls. induction order as [|id order IH]; intros ls Hc; simpl; [done|].
  assert (consistent (visit new_ctx ctx_eval fixup_number json_to_string registry tool_execute db_fails
    exec_id app user perms g done id ls)) as Hv.
  { unfold visit. destruct (node_of g id); [|done]. case_decide; [done|]. destruct (should_execute _ _ _); [|done].
    by apply Hatt. }
  destruct (_ || _); [done|]. by apply IH.
Qed.

(** A run is driven only by the message that holds its execution: for another
    user, under another lease or after it is over nothing happens at all.  A run
    that reports a status has stored it, with an error exactly when it failed, and
    given the lease up, so that a message delivered again runs nothing more. *)
Theorem run_outcome exec_id user_id perms lease (w : World W) r w' :
  run exec_id user_id perms lease w = (r, w') →
  ((∀ ex, executions (wdb w) !! exec_id = Some ex → ¬ drives user_id lease ex) → is_ok r = false ∧ w' = w)
  ∧ ∀ st, r = Ok st →
      (∃ ex, executions (wdb w') !! exec_id = Some ex ∧ ex_status ex = st ∧ ex_lease ex = None
         ∧ (st = ExSucceeded ∧ ex_error ex = None ∨ st = ExFailed ∧ is_Some (ex_error ex)))
      ∧ ∀ user' perms' lease', ∃ e, run exec_id user' perms' lease' w' = (Err e, w').
Proof.
  intros Hrun. split.
  { intros Hno. destruct (run_refused exec_id user_id perms lease w Hno) as [e He]. rewrite He in Hrun. by simplify_eq. }
  intros st ->.
  assert (∃ ex, executions (wdb w') !! exec_id = Some ex ∧ ex_status ex = st ∧ ex_lease ex = None
         ∧ (st = ExSucceeded ∧ ex_error ex = None ∨ st = ExFailed ∧ is_Some (ex_error ex))) as Hex.
  { revert Hrun. unfold WorkflowRun.run. destruct (result_bind _ _) as [[ex g]|e]; [|done].
    destruct (topo_sort_from _ g) as [order|]; [|done]. destruct (db_fails LoadPrior); [done|].
    set (w1 := set_db _ w). unfold resume_from. set (ls := run_nodes _ _ _ _ _ _ _ _ _ _ _ _ _ _ _).
    assert (consistent ls) as Hc by (by apply run_nodes_consistent).
    destruct (db_fails Finish); [done|]. intros [= <- <-]. eexists. simpl. rewrite lookup_insert_eq.
    split; [done|]. simpl. split_and!; [done|done|]. unfold consistent in Hc.
    destruct (l_all_succeeded ls); [left; split; [done|by apply Hc]|right; split; [done|]].
    destruct (l_first_error ls); [by eexists|]. discriminate (proj2 Hc eq_refl). }
  split; [done|]. intros user' perms' lease'. apply run_refused. destruct Hex as (ex & He & _ & Hl & _).
  intros ex' He' (_ & Hl' & _). congruence.
Qed.
End Outcome.

(** ** Concrete runs *)

Definition demo_registry (name : string) : option BatchMode := Some PerItem.
(** A tool that answers with its own name and counts its calls. *)
Definition demo_tool (name : string) (call : ToolCall) (n : nat) : result string JsonValue * nat := (Ok (JString name), S n).
Definition demo_world (g : WorkflowGraph) : World nat :=
  Build_World
    {| workflows := ∅;
       executions := {["e1" := {| ex_workflow := "w"; ex_app := "crm"; ex_user := "u"; ex_trigger := None;
                                  ex_graph := Some (Ok g); ex_lease := Some 7%Z; ex_status := ExQueued;
                                  ex_error := None; ex_attempts := 0 |}]};
       node_runs := ∅ |} 0 [].
Definition chain : WorkflowGraph :=
  {| nodes := [demo_node "start" (Trigger Manual); demo_node "mail" (Tool "mail"); demo_node "code" Code;
               demo_node "log" (Tool "log")];
     edges := [demo_edge "start" "mail" 0; demo_edge "start" "code" 0; demo_edge "mail" "log" 0] |}.

Definition demo_nodes (g : WorkflowGraph) (done : gset string) (order : list string) (ls : Loop) : Loop :=
  run_nodes (λ _ _, tt) (λ _ ctx, (None, ctx)) id (λ _, "") demo_registry demo_tool (λ _, None)
    "e1" "crm" "u" ["tool:*"] g done order ls.
Definition demo_order : list string := default [] (topo_sort chain).
Definition demo_first := resume_from "e1" (demo_world chain).


Definition demo_run (lease : Z) (w : World nat) : result string WorkflowExecutionStatus * World nat :=
  run (λ _ _, tt) (λ _ ctx, (None, ctx)) id (λ _, "") demo_registry demo_tool (λ _, None) ready
    "e1" "u" ["tool:*"] lease w.
Lemma run_outcome_witness :
  (demo_run 7 (demo_world chain)).1 = Ok ExFailed
  ∧ ((∀ ex, executions (wdb (demo_world chain)) !! "e1" = Some ex → ¬ drives "u" 8 ex) →
       is_ok (demo_run 8 (demo_world chain)).1 = false ∧ (demo_run 8 (demo_world chain)).2 = demo_world chain).
Proof.
  split; [vm_compute; reflexivity|].
  apply (run_outcome (λ _ _, tt) (λ _ ctx, (None, ctx)) id (λ _, "") demo_registry demo_tool (λ _, None) ready
    "e1" "u" ["tool:*"] 8 (demo_world chain)). exact (surjective_pairing (demo_run 8 (demo_world chain))).
Defined.

(** ** Where the promise stops *)

Definition halting : WorkflowGraph :=
  {| nodes := [demo_node "start" (Trigger Manual); demo_node "stop" (Control CStop); demo_node "mail" (Tool "mail")];
     edges := [demo_edge "start" "stop" 0; demo_edge "start" "mail" 0] |}.

(** A Stop node halts the run, but only the process that reached it: when the
    process dies after the node is stored and before the execution is over, the
    run taken up again passes the Stop node and runs what it was to stop. *)
Theorem resume_passes_stop :
  let first := resume_from "e1" (demo_world halting) in
  let ended := demo_nodes halting first.1 ["start"; "stop"; "mail"] first.2 in
  let again := resume_from "e1" (l_world ended) in
  topo_sort halting = Some ["start"; "stop"; "mail"]
  ∧ l_halted ended = true ∧ wtools (l_world ended) = 0
  ∧ wtools (l_world (demo_nodes halting again.1 ["start"; "stop"; "mail"] again.2)) = 1.
Proof. vm_compute. auto. Qed.
