(* ===== verification/Jobs.v ===== *)
(** * Jobs (core/src/jobs.rs)

    The queue of jobs: the messages Core writes on it and reads back, who a job runs
    for, and the operations on leases.  The queue itself is PostgreSQL's pgmq; the
    class [Pgmq] states what its documentation promises and the code relies on. *)

From stdpp Require Import base numbers pretty gmap strings sets relations list sorting.
From S2P Require Import Prelude Procs Str Ident Json Perms Roles Authority Delegation Gates DataTypes SqlScan Filters Records Workflow WorkflowExec WorkflowRun.

(** ** Messages *)

Inductive JobKind := KApp | KCron | KHook | KWorkflowManual.
#[export] Instance JobKind_eq_dec : EqDecision JobKind.
Proof. solve_decision. Defined.
Record JobAuthority := {
  ja_is_delegated : bool; ja_principal : option uuid; ja_requires_delegation : bool; ja_effective_perms : list string;
  ja_connection : option string; ja_audit_actor : option uuid; ja_audit_delegator : option uuid }.
Record JobMessage := {
  jm_kind : option JobKind; jm_authority : option JobAuthority; jm_app : string; jm_payload : JsonValue; jm_user : option uuid;
  jm_cron : option uuid }.

Definition kind_text (k : JobKind) : string :=
  match k with KApp => "app" | KCron => "cron" | KHook => "hook" | KWorkflowManual => "workflow_manual" end.
Definition kind_of_text (s : string) : option JobKind :=
  if decide (s = "app") then Some KApp else if decide (s = "cron") then Some KCron else if decide (s = "hook") then Some KHook
  else if decide (s = "workflow_manual") then Some KWorkflowManual else None.
(** [Serialize] *)
Definition opt_string (o : option string) : JsonValue := from_option JString JNull o.
Definition authority_json (a : JobAuthority) : JsonValue :=
  JObject [("is_delegated", JBool (ja_is_delegated a)); ("principal_id", opt_string (ja_principal a));
           ("requires_delegation", JBool (ja_requires_delegation a)); ("effective_perms", JArray (map JString (ja_effective_perms a)));
           ("connection_id", opt_string (ja_connection a)); ("audit_actor_id", opt_string (ja_audit_actor a));
           ("audit_delegator_id", opt_string (ja_audit_delegator a))].
Definition unless_none (k : string) (o : option string) : list (string * JsonValue) := from_option (λ v, [(k, JString v)]) [] o.
Definition message_json (m : JobMessage) : JsonValue :=
  JObject ([("kind", opt_string (kind_text <$> jm_kind m)); ("authority", from_option authority_json JNull (jm_authority m));
            ("app_id", JString (jm_app m)); ("payload", jm_payload m)] ++ unless_none "user_id" (jm_user m) ++ unless_none "cron_id" (jm_cron m)).

Section Deserialize.
Context `{!Parsers}.
(** [Deserialize]: a field that may be absent or null, and one that may not. *)
Definition optional {A : Type} (read : JsonValue → option A) (v : JsonValue) (k : string) : option (option A) :=
  match get v k with
  | None => Some None
  | Some x => if is_null x then Some None else Some <$> read x
  end.
Definition read_uuid (v : JsonValue) : option uuid := as_str v ≫= parse_uuid.
Definition read_strings (v : JsonValue) : option (list string) := as_array v ≫= mapM as_str.
Definition read_authority (v : JsonValue) : option JobAuthority :=
  delegated ← get v "is_delegated" ≫= as_bool;
  principal ← optional read_uuid v "principal_id";
  requires ← get v "requires_delegation" ≫= as_bool;
  perms ← get v "effective_perms" ≫= read_strings;
  connection ← optional as_str v "connection_id";
  actor ← optional read_uuid v "audit_actor_id";
  delegator ← optional read_uuid v "audit_delegator_id";
  Some {| ja_is_delegated := delegated; ja_principal := principal; ja_requires_delegation := requires; ja_effective_perms := perms;
          ja_connection := connection; ja_audit_actor := actor; ja_audit_delegator := delegator |}.
Definition read_message (v : JsonValue) : option JobMessage :=
  kind ← optional (λ x, as_str x ≫= kind_of_text) v "kind";
  authority ← optional read_authority v "authority";
  app ← get v "app_id" ≫= as_str;
  payload ← get v "payload";
  user ← optional read_uuid v "user_id";
  cron ← optional read_uuid v "cron_id";
  Some {| jm_kind := kind; jm_authority := authority; jm_app := app; jm_payload := payload; jm_user := user; jm_cron := cron |}.
End Deserialize.

(** ** The queue *)

Record Leased := { lm_message : JsonValue; lm_read_ct : Z; lm_vt : Z }.
(** What pgmq documents: messages have increasing identifiers that are not used again,
    a read takes a visible message and hides it for the given time, counting its reads,
    and archived or deleted messages are gone from the queue. *)
Class Pgmq (Q : Type) := {
  messages : Q → gmap Z Leased;
  next_id : Q → Z;
  q_send : Z → JsonValue → Q → Q * Z;
  q_read : Z → Z → Q → Q * option Z;
  q_archive : Z → Q → Q;
  q_delete : Z → Q → Q;
  q_set_vt : Z → Z → Z → Q → Q;
  ids_below : ∀ q id, is_Some (messages q !! id) → (id < next_id q)%Z;
  send_spec : ∀ now m q, (q_send now m q).2 = next_id q ∧ next_id (q_send now m q).1 = (next_id q + 1)%Z
    ∧ messages (q_send now m q).1 = <[next_id q := {| lm_message := m; lm_read_ct := 0; lm_vt := now |}]> (messages q);
  read_spec : ∀ now vt q, match q_read now vt q with
    | (q', Some id) => ∃ l, messages q !! id = Some l ∧ (lm_vt l ≤ now)%Z ∧ next_id q' = next_id q
        ∧ messages q' = <[id := {| lm_message := lm_message l; lm_read_ct := lm_read_ct l + 1; lm_vt := now + vt |}]> (messages q)
    | (q', None) => messages q' = messages q ∧ next_id q' = next_id q ∧ ∀ id l, messages q !! id = Some l → (now < lm_vt l)%Z
    end;
  archive_spec : ∀ id q, messages (q_archive id q) = delete id (messages q) ∧ next_id (q_archive id q) = next_id q;
  delete_spec : ∀ id q, messages (q_delete id q) = delete id (messages q) ∧ next_id (q_delete id q) = next_id q;
  set_vt_spec : ∀ now id vt q, next_id (q_set_vt now id vt q) = next_id q
    ∧ messages (q_set_vt now id vt q)
      = alter (λ l, {| lm_message := lm_message l; lm_read_ct := lm_read_ct l; lm_vt := now + vt |}) id (messages q) }.

Definition VISIBILITY_TIMEOUT_SECS : Z := 120.
Definition MAX_DELIVERIES : Z := 5.
Definition delivery_exhausted (read_count : Z) : bool := (MAX_DELIVERIES <? read_count)%Z.

(** The tables jobs touch; [jdown]: the database does not answer. *)
Record JobsState (Q : Type) := { jgov : Gov; jq : Q; jdlq : list JsonValue; jwf : WfDb; jdown : bool }.
Arguments jgov {Q} _.
Arguments jq {Q} _.
Arguments jdlq {Q} _.
Arguments jwf {Q} _.
Arguments jdown {Q} _.
Arguments Build_JobsState {Q} _ _ _ _ _.

Section Jobs.
Context {Q : Type} `{!Pgmq Q} `{!Parsers}.
Notation JobsState := (JobsState Q).
Definition jnow (s : JobsState) : Z := clock (jgov s).
Definition set_jq (q : Q) (s : JobsState) : JobsState := {| jgov := jgov s; jq := q; jdlq := jdlq s; jwf := jwf s; jdown := jdown s |}.
Definition set_jwf (d : WfDb) (s : JobsState) : JobsState := {| jgov := jgov s; jq := jq s; jdlq := jdlq s; jwf := d; jdown := jdown s |}.
Definition DOWN : RuntimeError := Ident.Job "database unavailable".

Definition enqueue_message (m : JobMessage) (s : JobsState) : JobsState * result RuntimeError Z :=
  if jdown s then (s, Err DOWN) else let '(q, id) := q_send (jnow s) (message_json m) (jq s) in (set_jq q s, Ok id).
Definition enqueue (app : string) (payload : JsonValue) (user : option uuid) : JobsState → JobsState * result RuntimeError Z :=
  enqueue_message {| jm_kind := Some KApp; jm_authority := None; jm_app := app; jm_payload := payload; jm_user := user; jm_cron := None |}.
Definition enqueue_hook (app : string) (payload : JsonValue) (user : option uuid) : JobsState → JobsState * result RuntimeError Z :=
  enqueue_message {| jm_kind := Some KHook; jm_authority := None; jm_app := app; jm_payload := payload; jm_user := user; jm_cron := None |}.
Definition enqueue_cron (app : string) (cron : uuid) (payload : JsonValue) (user : option uuid) : JobsState → JobsState * result RuntimeError Z :=
  enqueue_message {| jm_kind := Some KCron; jm_authority := None; jm_app := app; jm_payload := payload; jm_user := user; jm_cron := Some cron |}.

(** The principal a worker acted as, if it is one, and whether any delegation, revoked
    or not, relates it to the user. *)
Definition frozen_principal (i : ContextState) (s : JobsState) : option uuid :=
  if cx_is_delegated i && negb (bool_decide (audit_actor_id i = cx_user_id i))
  then audit_actor_id i ≫= λ a, if decide (is_Some (users (db (gpool (jgov s))) !! a)) then Some a else None
  else None.
Definition ever_delegated (user actor : uuid) (s : JobsState) : bool :=
  existsb (λ d, bool_decide (delegator_uid d = user) && bool_decide (delegatee_uid d = actor)) (delegations (jgov s)).
Definition frozen_authority (i : ContextState) (principal : option uuid) (requires : bool) : JobAuthority :=
  {| ja_is_delegated := cx_is_delegated i; ja_principal := principal; ja_requires_delegation := requires; ja_effective_perms := cx_effective_perms i;
     ja_connection := cx_connection_id i; ja_audit_actor := audit_actor_id i; ja_audit_delegator := audit_delegator_id i |}.
Definition worker_message (app : string) (payload : JsonValue) (i : ContextState) (user : uuid) (s : JobsState) : JobMessage :=
  let principal := frozen_principal i s in
  {| jm_kind := Some KApp;
     jm_authority := Some (frozen_authority i principal (match principal with Some a => ever_delegated user a s | None => false end));
     jm_app := app; jm_payload := payload; jm_user := Some user; jm_cron := None |}.
(** The three statements read tables only governance changes, as of one moment. *)
Definition enqueue_worker (app : string) (payload : JsonValue) (i : ContextState) (s : JobsState) : JobsState * result RuntimeError Z :=
  match cx_user_id i with
  | None => (s, Err (Ident.Job "enqueueJob requires an authenticated user"))
  | Some user => if jdown s then (s, Err DOWN) else enqueue_message (worker_message app payload i user s) s
  end.

Definition bind_lease (msg : Z) (e : WorkflowRun.Execution) : WorkflowRun.Execution :=
  {| ex_workflow := ex_workflow e; ex_app := ex_app e; ex_user := ex_user e; ex_trigger := ex_trigger e; ex_graph := ex_graph e;
     ex_lease := Some msg; ex_status := ex_status e; ex_error := ex_error e; ex_attempts := ex_attempts e |}.
(** One transaction: the message is sent only together with its binding. *)
Definition enqueue_manual_workflow (app exec_id user : uuid) (s : JobsState) : JobsState * result RuntimeError Z :=
  match enqueue_message {| jm_kind := Some KWorkflowManual; jm_authority := None; jm_app := app; jm_payload := JObject [("execution_id", JString exec_id)];
                           jm_user := Some user; jm_cron := None |} s with
  | (s', Ok msg) =>
      match executions (jwf s) !! exec_id with
      | Some e =>
          if bool_decide (ex_app e = app) && bool_decide (ex_user e = user) && bool_decide (ex_status e = ExQueued) && bool_decide (ex_lease e = None)
          then (set_jwf (put_execution exec_id (bind_lease msg e) (jwf s)) s', Ok msg)
          else (s, Err (Ident.Job "workflow execution binding denied"))
      | None => (s, Err (Ident.Job "workflow execution binding denied"))
      end
  | (_, Err e) => (s, Err e)
  end.

Definition read_next (s : JobsState) : JobsState * result RuntimeError (option (Z * Z * JobMessage)) :=
  if jdown s then (s, Err DOWN)
  else match q_read (jnow s) VISIBILITY_TIMEOUT_SECS (jq s) with
       | (q, None) => (set_jq q s, Ok None)
       | (q, Some id) =>
           (set_jq q s,
            match messages q !! id with
            | Some l => result_map (λ m, Some (id, lm_read_ct l, m)) (ok_or (read_message (lm_message l)) (Ident.Job "malformed message"))
            | None => Ok None
            end)
       end.
Definition complete (msg : Z) (s : JobsState) : JobsState := if jdown s then s else set_jq (q_archive msg (jq s)) s.
Definition fail (msg : Z) (s : JobsState) : JobsState := if jdown s then s else set_jq (q_delete msg (jq s)) s.
Definition extend_lease (msg vt : Z) (s : JobsState) : JobsState := if jdown s then s else set_jq (q_set_vt (jnow s) msg vt (jq s)) s.
Definition json_int (z : Z) : JsonValue := JNumber {| num_text := pretty z; num_i64 := Some z; num_f64 := Some (pretty z) |}.
Definition dlq_entry (msg : Z) (message : JsonValue) (reason : string) : JsonValue :=
  match message with
  | JObject o => JObject (obj_insert "_dlq_msg_id" (json_int msg) (obj_insert "_dlq_reason" (JString reason) o))
  | _ => message
  end.
(** Two statements; the database may stop answering in between. *)
Definition dead_letter (archived : bool) (msg : Z) (message : JsonValue) (reason : string) (s : JobsState) : JobsState :=
  if jdown s then s
  else {| jgov := jgov s; jq := if archived then q_archive msg (jq s) else jq s; jdlq := jdlq s ++ [dlq_entry msg message reason]; jwf := jwf s; jdown := jdown s |}.
(** [list_from] on the queue itself: the app's messages that read as such, latest first. *)
Record Job := { job_msg_id : Z; job_app : string; job_payload : JsonValue; job_user : option uuid; job_read_ct : Z }.
Definition job_of_row (e : Z * Leased) : option Job :=
  m ← read_message (lm_message e.2);
  Some {| job_msg_id := e.1; job_app := jm_app m; job_payload := jm_payload m; job_user := jm_user m; job_read_ct := lm_read_ct e.2 |}.
Definition later (a b : Z * Leased) : Prop := (b.1 ≤ a.1)%Z.
#[local] Instance later_dec : RelDecision later.
Proof. intros a b. apply Z.le_dec. Defined.
Definition rows_for (app : string) (q : Q) : list (Z * Leased) :=
  merge_sort later (List.filter (λ e, bool_decide (get (lm_message e.2) "app_id" ≫= as_str = Some app)) (map_to_list (messages q))).
Definition list_for_app (app : string) (limit : nat) (s : JobsState) : result RuntimeError (list Job) :=
  if jdown s then Err DOWN else Ok (omap job_of_row (take limit (rows_for app (jq s)))).
End Jobs.

(** ** The lease of a running job *)

(** Times are seconds since the handler started; [cancel] is when it finishes, if it does.
    Of several things due at once the end comes first. *)
Definition HEARTBEAT_INTERVAL : Z := 30.
Definition MAX_LEASE_LIFETIME : Z := 6 * 60 * 60.
Inductive Heartbeat := Finished | HeldTooLong | OutOfFuel.
Fixpoint lease_heartbeat (fuel : nat) (lifetime : Z) (cancel : option Z) (t : Z) : list Z * Heartbeat :=
  match fuel with
  | 0 => ([], OutOfFuel)
  | S fuel =>
      let next := (t + HEARTBEAT_INTERVAL)%Z in
      let ends c := (c <=? Z.min lifetime next)%Z in
      if from_option ends false cancel then ([], Finished)
      else if (lifetime <=? next)%Z then ([], HeldTooLong)
      else let '(renewals, e) := lease_heartbeat fuel lifetime cancel next in (next :: renewals, e)
  end.
Definition heartbeat_fuel (lifetime : Z) : nat := Z.to_nat (lifetime / HEARTBEAT_INTERVAL) + 1.

(** The lease is covered from [t] on up to [u]: there is no moment at which the last
    renewal is older than the visibility timeout. *)
Fixpoint covered (t : Z) (renewals : list Z) (u : Z) : Prop :=
  match renewals with
  | [] => (u ≤ t + VISIBILITY_TIMEOUT_SECS)%Z
  | r :: renewals => (t < r ≤ t + VISIBILITY_TIMEOUT_SECS)%Z ∧ covered r renewals u
  end.
Lemma heartbeat_spec fuel lifetime cancel t :
  (0 ≤ t)%Z → (Z.max 0 (lifetime - t) < HEARTBEAT_INTERVAL * Z.of_nat fuel)%Z → (∀ c, cancel = Some c → (t ≤ c)%Z) →
  let '(renewals, e) := lease_heartbeat fuel lifetime cancel t in
  match e with
  | Finished => ∃ c, cancel = Some c ∧ covered t renewals c
  | HeldTooLong => covered t renewals (Z.max t lifetime)
  | OutOfFuel => False
  end ∧ Forall (λ r, (t < r < lifetime)%Z ∧ ∀ c, cancel = Some c → (r < c)%Z) renewals.
Proof.
  revert t. induction fuel as [|fuel IH]; intros t Ht Hf Hc; [unfold HEARTBEAT_INTERVAL in *; lia|]. cbn [lease_heartbeat]. unfold HEARTBEAT_INTERVAL in *.
  destruct cancel as [c|]; cbn [from_option].
  - specialize (Hc c eq_refl). destruct (c <=? Z.min lifetime (t + 30))%Z eqn:He.
    { apply Z.leb_le in He. split; [|constructor]. exists c. split; [done|]. cbn. unfold VISIBILITY_TIMEOUT_SECS. lia. }
    apply Z.leb_gt in He. destruct (lifetime <=? t + 30)%Z eqn:Hl.
    { apply Z.leb_le in Hl. split; [|constructor]. cbn. unfold VISIBILITY_TIMEOUT_SECS. lia. }
    apply Z.leb_gt in Hl. specialize (IH (t + 30)%Z ltac:(lia) ltac:(lia) ltac:(intros ? [= <-]; lia)).
    destruct (lease_heartbeat fuel lifetime (Some c) (t + 30)) as [rs e]. destruct IH as [IH1 IH2]. split.
    + destruct e; [destruct IH1 as (c' & Hc' & Hcov); exists c'; split; [done|]; cbn; unfold VISIBILITY_TIMEOUT_SECS; split; [lia|done]| |done].
      rewrite Z.max_r in IH1 by lia. rewrite Z.max_r by lia. cbn. unfold VISIBILITY_TIMEOUT_SECS. split; [lia|done].
    + constructor; [split; [lia|intros ? [= <-]; lia]|]. eapply Forall_impl; [done|]. cbn. intros r [? ?]. split; [lia|done].
  - destruct (lifetime <=? t + 30)%Z eqn:Hl.
    { apply Z.leb_le in Hl. split; [|constructor]. cbn. unfold VISIBILITY_TIMEOUT_SECS. lia. }
    apply Z.leb_gt in Hl. specialize (IH (t + 30)%Z ltac:(lia) ltac:(lia) ltac:(done)).
    destruct (lease_heartbeat fuel lifetime None (t + 30)) as [rs e]. destruct IH as [IH1 IH2]. split.
    + destruct e; [by destruct IH1 as (c' & Hc' & _)| |done]. rewrite Z.max_r in IH1 by lia. rewrite Z.max_r by lia. cbn. unfold VISIBILITY_TIMEOUT_SECS. split; [lia|done].
    + constructor; [split; [lia|done]|]. eapply Forall_impl; [done|]. cbn. intros r [? ?]. split; [lia|done].
Qed.
(** A lease is held exactly as long as its handler runs, and never for longer than the
    ceiling: the renewals end, they come before the last one has run out, and none comes
    after the handler finished or after the lifetime. *)
Theorem heartbeat_holds_the_lease lifetime cancel :
  (0 ≤ lifetime)%Z → (∀ c, cancel = Some c → (0 ≤ c)%Z) →
  let '(renewals, e) := lease_heartbeat (heartbeat_fuel lifetime) lifetime cancel 0 in
  match e with
  | Finished => ∃ c, cancel = Some c ∧ covered 0 renewals c
  | HeldTooLong => covered 0 renewals lifetime
  | OutOfFuel => False
  end ∧ Forall (λ r, (0 < r < lifetime)%Z ∧ ∀ c, cancel = Some c → (r < c)%Z) renewals.
Proof.
  intros Hl Hc. pose proof (heartbeat_spec (heartbeat_fuel lifetime) lifetime cancel 0 ltac:(done)) as H.
  rewrite Z.max_r in H by lia. destruct (lease_heartbeat _ _ _ _) as [rs e]. rewrite Z.max_r in H by lia. apply H; [|done]. unfold heartbeat_fuel, HEARTBEAT_INTERVAL.
  pose proof (Z.mod_pos_bound lifetime 30 ltac:(done)). pose proof (Z.div_mod lifetime 30 ltac:(done)). rewrite Nat2Z.inj_add, Z2Nat.id by (apply Z.div_pos; lia). lia.
Qed.
Lemma heartbeat_holds_the_lease_witness :
  lease_heartbeat (heartbeat_fuel MAX_LEASE_LIFETIME) MAX_LEASE_LIFETIME (Some 100%Z) 0 = ([30; 60; 90]%Z, Finished) ∧ covered 0 [30; 60; 90]%Z 100.
Proof.
  assert (lease_heartbeat (heartbeat_fuel MAX_LEASE_LIFETIME) MAX_LEASE_LIFETIME (Some 100%Z) 0 = ([30; 60; 90]%Z, Finished)) as He by (vm_compute; reflexivity).
  split; [exact He|]. pose proof (heartbeat_holds_the_lease MAX_LEASE_LIFETIME (Some 100%Z) ltac:(discriminate) ltac:(intros c [= <-]; discriminate)) as H.
  rewrite He in H. destruct H as [(c & [= <-] & Hc) _]. exact Hc.
Defined.

(** ** Messages are read back as they were written *)

Section Roundtrip.
Context `{!Parsers}.
(** A uuid as it is printed. *)
Definition printed (u : uuid) : Prop := parse_uuid u = Some u.
Definition oprinted (o : option uuid) : Prop := ∀ u, o = Some u → printed u.
Record printed_authority (a : JobAuthority) : Prop := {
  pr_principal : oprinted (ja_principal a); pr_actor : oprinted (ja_audit_actor a); pr_delegator : oprinted (ja_audit_delegator a) }.
Record printed_message (m : JobMessage) : Prop := {
  pr_user : oprinted (jm_user m); pr_cron : oprinted (jm_cron m); pr_authority : ∀ a, jm_authority m = Some a → printed_authority a }.

Lemma optional_uuid o v k : oprinted o → get v k = Some (opt_string o) → optional read_uuid v k = Some o.
Proof. intros Hp Hg. unfold optional. rewrite Hg. destruct o as [u|]; [|done]. cbn. by rewrite (Hp u eq_refl). Qed.
Lemma optional_text o v k : get v k = Some (opt_string o) → optional as_str v k = Some o.
Proof. intros Hg. unfold optional. rewrite Hg. by destruct o. Qed.
Lemma optional_absent o v k : oprinted o → get v k = JString <$> o → optional read_uuid v k = Some o.
Proof. intros Hp Hg. unfold optional. rewrite Hg. destruct o as [u|]; [|done]. cbn. by rewrite (Hp u eq_refl). Qed.
Lemma read_strings_ok l : read_strings (JArray (map JString l)) = Some l.
Proof. unfold read_strings. cbn. induction l as [|x l IH]; [done|]. cbn. by rewrite IH. Qed.
Lemma authority_roundtrip a : printed_authority a → read_authority (authority_json a) = Some a.
Proof.
  intros [Hp Ha Hd]. unfold read_authority.
  rewrite (optional_uuid (ja_principal a) (authority_json a) "principal_id" Hp eq_refl), (optional_text (ja_connection a) (authority_json a) "connection_id" eq_refl),
    (optional_uuid (ja_audit_actor a) (authority_json a) "audit_actor_id" Ha eq_refl), (optional_uuid (ja_audit_delegator a) (authority_json a) "audit_delegator_id" Hd eq_refl).
  change (get (authority_json a) "effective_perms") with (Some (JArray (map JString (ja_effective_perms a)))).
  cbn [mbind option_bind]. rewrite read_strings_ok. by destruct a.
Qed.
Lemma kind_roundtrip k : kind_of_text (kind_text k) = Some k.
Proof. by destruct k. Qed.
(** What is sent is read back: the kind, the authority and the provenance of a job are
    those Core wrote, whatever its payload holds. *)
Lemma message_roundtrip m : printed_message m → read_message (message_json m) = Some m.
Proof.
  intros [Hu Hc Ha]. unfold read_message.
  assert (optional (λ x, as_str x ≫= kind_of_text) (message_json m) "kind" = Some (jm_kind m)) as ->.
  { unfold optional. change (get (message_json m) "kind") with (Some (opt_string (kind_text <$> jm_kind m))). destruct (jm_kind m) as [k|]; [|done].
    cbn. by rewrite kind_roundtrip. }
  assert (optional read_authority (message_json m) "authority" = Some (jm_authority m)) as ->.
  { unfold optional. change (get (message_json m) "authority") with (Some (from_option authority_json JNull (jm_authority m))).
    destruct (jm_authority m) as [a|]; [|done]. cbn [from_option]. rewrite authority_roundtrip by (by apply Ha). done. }
  assert (get (message_json m) "user_id" = JString <$> jm_user m) as Hgu by (by destruct m as [????[u|] [c|]]).
  assert (get (message_json m) "cron_id" = JString <$> jm_cron m) as Hgc by (by destruct m as [????[u|] [c|]]).
  rewrite (optional_absent _ _ _ Hu Hgu), (optional_absent _ _ _ Hc Hgc). by destruct m.
Qed.
End Roundtrip.

(** A queue: its messages and the next identifier; what is not below it does not count. *)
Module JobExamples.
Record ToyQueue := { tq : gmap Z Leased; tq_next : Z }.
Definition toy_messages (q : ToyQueue) : gmap Z Leased := filter (λ e, (e.1 < tq_next q)%Z) (tq q).
Definition toy_put (f : gmap Z Leased → gmap Z Leased) (q : ToyQueue) : ToyQueue := {| tq := f (toy_messages q); tq_next := tq_next q |}.
Definition toy_send (now : Z) (m : JsonValue) (q : ToyQueue) : ToyQueue * Z :=
  ({| tq := <[tq_next q := {| lm_message := m; lm_read_ct := 0; lm_vt := now |}]> (toy_messages q); tq_next := tq_next q + 1 |}, tq_next q).
Definition visible (now : Z) (e : Z * Leased) : bool := (lm_vt e.2 <=? now)%Z.
Definition toy_read (now vt : Z) (q : ToyQueue) : ToyQueue * option Z :=
  match List.find (visible now) (map_to_list (toy_messages q)) with
  | Some (id, l) => (toy_put (<[id := {| lm_message := lm_message l; lm_read_ct := lm_read_ct l + 1; lm_vt := now + vt |}]>) q, Some id)
  | None => (q, None)
  end.
Lemma toy_below q id l : toy_messages q !! id = Some l → (id < tq_next q)%Z.
Proof. unfold toy_messages. by intros [_ Hlt]%map_lookup_filter_Some. Qed.
Lemma toy_put_messages f q : (∀ id, is_Some (f (toy_messages q) !! id) → (id < tq_next q)%Z) → toy_messages (toy_put f q) = f (toy_messages q).
Proof.
  intros Hf. apply map_eq. intros id. unfold toy_messages at 1. cbn [toy_put tq tq_next]. apply option_eq. intros l. rewrite map_lookup_filter_Some. cbn.
  split; [by intros [? _]|]. intros Hl. split; [done|]. apply Hf. by exists l.
Qed.
#[local] Program Instance toy_pgmq : Pgmq ToyQueue :=
  {| messages := toy_messages; next_id := tq_next; q_send := toy_send; q_read := toy_read; q_archive id := toy_put (delete id);
     q_delete id := toy_put (delete id);
     q_set_vt now id vt := toy_put (alter (λ l, {| lm_message := lm_message l; lm_read_ct := lm_read_ct l; lm_vt := now + vt |}) id) |}.
Next Obligation. intros q id [l Hl]. by eapply toy_below. Qed.
Next Obligation.
  intros now m q. split_and!; [done|done|]. apply map_eq. intros id. unfold toy_messages at 1. cbn [toy_send fst tq tq_next]. apply option_eq. intros l.
  rewrite map_lookup_filter_Some. cbn. split; [by intros [? _]|]. intros Hl. split; [done|]. destruct (decide (id = tq_next q)) as [->|Hne]; [lia|].
  rewrite lookup_insert_ne in Hl by done. apply toy_below in Hl. lia.
Qed.
Next Obligation.
  intros now vt q. unfold toy_read. destruct (List.find _ _) as [[id l]|] eqn:Hf.
  - apply find_some in Hf as [Hin Hv]. apply list_elem_of_In, elem_of_map_to_list in Hin. apply Z.leb_le in Hv. exists l. split_and!; try done.
    apply toy_put_messages. intros j Hj. apply lookup_insert_is_Some in Hj as [<-|[_ [l' Hl']]]; by eapply toy_below.
  - split_and!; try done. intros id l Hl. apply elem_of_map_to_list, list_elem_of_In in Hl. pose proof (find_none _ _ Hf _ Hl) as Hn. apply Z.leb_gt in Hn. done.
Qed.
Next Obligation.
  intros id q. split; [|done]. apply toy_put_messages. intros j [l Hl]. apply lookup_delete_Some in Hl as [_ Hl]. by eapply toy_below.
Qed.
Next Obligation.
  intros id q. split; [|done]. apply toy_put_messages. intros j [l Hl]. apply lookup_delete_Some in Hl as [_ Hl]. by eapply toy_below.
Qed.
Next Obligation.
  intros now id vt q. split; [done|]. apply toy_put_messages. intros j [l Hl]. apply lookup_alter_Some in Hl as [(-> & l0 & Hl0 & _)|[_ Hl0]]; by eapply toy_below.
Qed.
End JobExamples.
