(* ===== verification/Crons.v ===== *)
(** * Schedules (core/src/crons.rs)

    The schedules of apps, each mirrored by a job of PostgreSQL's pg_cron that puts a
    message on the queue of [Jobs].  pg_cron is outside the repository: the class
    [PgCron] states what its documentation promises of naming and removing jobs.  A
    transaction is one step; functions of several transactions are given as run with
    nothing in between. *)

From stdpp Require Import base numbers pretty gmap strings sets relations list.
From S2P Require Import Prelude Procs Str Ident Json Perms Roles Authority Delegation Gates DataTypes SqlScan Filters Records Workflow WorkflowExec WorkflowRun Jobs.

(** ** Validation *)

Definition validate_name (name : string) : result RuntimeError unit :=
  ensure (negb (bool_decide (name = EmptyString)) && bool_decide (String.length name ≤ 64)
          && str_forall (λ c, is_ascii_alphanumeric c || bool_decide (c ∈ ["_"; "-"]%char)) name)
    (Ident.Cron ("invalid cron name: '" +:+ name +:+ "'")).
(** [str::parse::<u32>] *)
Definition parse_u32 (s : string) : option Z :=
  match s with
  | String "-" _ => None
  | _ => n ← parse_i64 s; if bool_decide (0 ≤ n < 2 ^ 32)%Z then Some n else None
  end.
Definition schedule_byte (c : ascii) : bool :=
  let n := N_of_ascii c in bool_decide (48 ≤ n ≤ 57)%N || bool_decide (c ∈ [" "; "*"; "/"; "-"; ","; "$"]%char).
Definition validate_schedule (schedule : string) : result RuntimeError unit :=
  match split_whitespace schedule with
  | [amount; "seconds"] =>
      let? n := ok_or (parse_u32 amount) (Ident.Cron ("invalid seconds interval: '" +:+ schedule +:+ "'")) in
      ensure (negb (bool_decide (n < 1)%Z || bool_decide (59 < n)%Z)) (Ident.Cron ("seconds must be 1-59, got: " +:+ pretty n))
  | parts =>
      try? ensure (bool_decide (length parts = 5)) (Ident.Cron ("invalid cron schedule: '" +:+ schedule +:+ "' (expected 5 fields or 'N seconds')")) in
      ensure (str_forall schedule_byte schedule) (Ident.Cron ("invalid characters in cron schedule: '" +:+ schedule +:+ "'"))
  end.
Definition validate_overlap (policy : string) : result RuntimeError unit :=
  ensure (bool_decide (policy ∈ ["skip"; "queue"])) (Ident.Cron ("overlap_policy must be 'skip' or 'queue', got: '" +:+ policy +:+ "'")).

(** ** State *)

(** A row of [rootcx_system.cron_schedules] *)
Record CronSchedule := {
  cr_app : string; cr_name : string; cr_schedule : string; cr_timezone : option string; cr_payload : JsonValue; cr_overlap : string;
  cr_enabled : bool; cr_job : option Z; cr_owner : option uuid }.
Record CreateCron := {
  cc_name : string; cc_schedule : string; cc_timezone : option string; cc_payload : JsonValue; cc_overlap : string; cc_owner : option uuid }.
Record CronDefinition := {
  cd_name : string; cd_schedule : string; cd_timezone : option string; cd_method : option string; cd_payload : option JsonValue; cd_overlap : string }.
Record CronJob := { cj_name : string; cj_schedule : string; cj_command : string }.
(** What pg_cron documents: a job of a name that is in use is replaced under its
    number, another gets a number not in use; removing a number that is not there is an
    error; and a schedule it cannot read is refused. *)
Class PgCron (C : Type) := {
  cron_jobs : C → gmap Z CronJob;
  c_schedule : string → string → string → C → option (C * Z);
  c_unschedule : Z → C → option C;
  schedule_spec : ∀ name sched command c c' id, c_schedule name sched command c = Some (c', id) →
    cron_jobs c' = <[id := {| cj_name := name; cj_schedule := sched; cj_command := command |}]> (cron_jobs c)
    ∧ ((∃ j, cron_jobs c !! id = Some j ∧ cj_name j = name)
       ∨ (cron_jobs c !! id = None ∧ ∀ i j, cron_jobs c !! i = Some j → cj_name j ≠ name));
  unschedule_spec : ∀ id c, match c_unschedule id c with
    | Some c' => is_Some (cron_jobs c !! id) ∧ cron_jobs c' = delete id (cron_jobs c)
    | None => cron_jobs c !! id = None
    end }.

(** [capps]: the apps a schedule may refer to; [available]: pg_cron is installed. *)
Record CState (Q C : Type) := { cjobs : JobsState Q; schedules : gmap uuid CronSchedule; pgc : C; capps : gset string; available : bool }.
Arguments cjobs {Q C} _.
Arguments schedules {Q C} _.
Arguments pgc {Q C} _.
Arguments capps {Q C} _.
Arguments available {Q C} _.
Arguments Build_CState {Q C} _ _ _ _ _.

Section Crons.
Context {Q C : Type} `{!Pgmq Q} `{!PgCron C} `{!Parsers}.
Notation CState := (CState Q C).
Definition set_crons (m : gmap uuid CronSchedule) (c : C) (s : CState) : CState :=
  {| cjobs := cjobs s; schedules := m; pgc := c; capps := capps s; available := available s |}.
Definition set_cjobs (j : JobsState Q) (s : CState) : CState :=
  {| cjobs := j; schedules := schedules s; pgc := pgc s; capps := capps s; available := available s |}.

Definition require_pg_cron (s : CState) : result RuntimeError unit :=
  ensure (available s) (Ident.Cron "pg_cron not available").
Definition job_name (id : uuid) : string := "rootcx-" +:+ id.
Definition bool_text (b : bool) : string := if b then "true" else "false".
Definition cron_command (id : uuid) (app : string) (payload : JsonValue) (skip : bool) : string :=
  "SELECT rootcx_system.enqueue_cron(" +:+ quote_literal id +:+ "::uuid, " +:+ quote_literal app +:+ "::text, "
  +:+ quote_literal (show_json payload) +:+ "::jsonb, " +:+ bool_text skip +:+ "::boolean)".
Definition CRON_DB : RuntimeError := Ident.Cron "database error".
Definition schedule_pg_cron (id : uuid) (app schedule : string) (payload : JsonValue) (skip : bool) (c : C) : result RuntimeError (C * Z) :=
  ok_or (c_schedule (job_name id) schedule (cron_command id app payload skip) c) CRON_DB.
Definition unschedule_pg_cron (job : Z) (c : C) : result RuntimeError C := ok_or (c_unschedule job c) CRON_DB.
Definition unschedule_opt (job : option Z) (c : C) : result RuntimeError C :=
  match job with Some j => unschedule_pg_cron j c | None => Ok c end.
Definition is_skip (overlap : string) : bool := bool_decide (overlap = "skip").

Definition has_name (app name : string) (s : CState) : bool :=
  existsb (λ e, bool_decide (cr_app e.2 = app) && bool_decide (cr_name e.2 = name)) (map_to_list (schedules s)).
(** The insertion: the key, the unique name, the reference to the app. *)
Definition created_row (app : string) (c : CreateCron) (job : option Z) : CronSchedule :=
  {| cr_app := app; cr_name := cc_name c; cr_schedule := cc_schedule c; cr_timezone := cc_timezone c; cr_payload := cc_payload c;
     cr_overlap := cc_overlap c; cr_enabled := true; cr_job := job; cr_owner := cc_owner c |}.
Definition create_tx (id : uuid) (app : string) (c : CreateCron) (s : CState) : result RuntimeError (CState * CronSchedule) :=
  try? ensure (bool_decide (schedules s !! id = None) && negb (has_name app (cc_name c) s) && bool_decide (app ∈ capps s)) CRON_DB in
  let? '(pg, job) := schedule_pg_cron id app (cc_schedule c) (cc_payload c) (is_skip (cc_overlap c)) (pgc s) in
  let row := created_row app c (Some job) in
  Ok (set_crons (<[id := row]> (schedules s)) pg s, row).
Definition or_same {A : Type} (s : CState) (r : result RuntimeError (CState * A)) : CState * result RuntimeError A :=
  match r with Ok (s', a) => (s', Ok a) | Err e => (s, Err e) end.
Definition create (id : uuid) (app : string) (c : CreateCron) (s : CState) : CState * result RuntimeError CronSchedule :=
  or_same s (try? require_pg_cron s in try? validate_name (cc_name c) in try? validate_schedule (cc_schedule c) in
             try? validate_overlap (cc_overlap c) in create_tx id app c s).

Definition not_found (id : uuid) : RuntimeError := RuntimeNotFound ("cron '" +:+ id +:+ "' not found").
Definition get_cron (app : string) (id : uuid) (s : CState) : result RuntimeError CronSchedule :=
  ok_or (r ← schedules s !! id; if decide (cr_app r = app) then Some r else None) (not_found id).
Definition updated_row (r : CronSchedule) (schedule : string) (payload : JsonValue) (overlap : string) (enabled : bool) (job : option Z) : CronSchedule :=
  {| cr_app := cr_app r; cr_name := cr_name r; cr_schedule := schedule; cr_timezone := cr_timezone r; cr_payload := payload; cr_overlap := overlap;
     cr_enabled := enabled; cr_job := job; cr_owner := cr_owner r |}.
Definition update_tx (app : string) (id : uuid) (schedule : option string) (payload : option JsonValue) (overlap : option string) (enabled : option bool)
    (s : CState) : result RuntimeError (CState * CronSchedule) :=
  let? current := get_cron app id s in
  let new_schedule := default (cr_schedule current) schedule in
  let new_payload := default (cr_payload current) payload in
  let new_overlap := default (cr_overlap current) overlap in
  let new_enabled := default (cr_enabled current) enabled in
  let? pg := unschedule_opt (cr_job current) (pgc s) in
  let? '(pg, job) := if new_enabled : bool
                     then result_map (λ '(pg, j), (pg, Some j)) (schedule_pg_cron id app new_schedule new_payload (is_skip new_overlap) pg)
                     else Ok (pg, None) in
  let row := updated_row current new_schedule new_payload new_overlap new_enabled job in
  Ok (set_crons (<[id := row]> (schedules s)) pg s, row).
Definition update (app : string) (id : uuid) (schedule : option string) (payload : option JsonValue) (overlap : option string) (enabled : option bool)
    (s : CState) : CState * result RuntimeError CronSchedule :=
  or_same s (try? require_pg_cron s in
             try? match schedule with Some x => validate_schedule x | None => Ok tt end in
             try? match overlap with Some x => validate_overlap x | None => Ok tt end in
             update_tx app id schedule payload overlap enabled s).
Definition delete_tx (app : string) (id : uuid) (s : CState) : result RuntimeError (CState * unit) :=
  let? r := get_cron app id s in
  let? pg := unschedule_opt (cr_job r) (pgc s) in
  Ok (set_crons (base.delete id (schedules s)) pg s, tt).
Definition delete (app : string) (id : uuid) (s : CState) : CState * result RuntimeError unit :=
  or_same s (try? require_pg_cron s in delete_tx app id s).
Fixpoint unschedule_all (jobs : list (option Z)) (c : C) : result RuntimeError C :=
  match jobs with
  | [] => Ok c
  | j :: jobs => let? c := unschedule_opt j c in unschedule_all jobs c
  end.
Definition of_app (app : string) (s : CState) : list (uuid * CronSchedule) := List.filter (λ e, bool_decide (cr_app e.2 = app)) (map_to_list (schedules s)).
Definition delete_all_for_app (app : string) (s : CState) : CState * result RuntimeError unit :=
  if negb (available s) then (s, Ok tt)
  else or_same s (let? pg := unschedule_all (map (λ e, cr_job e.2) (of_app app s)) (pgc s) in
                  Ok (set_crons (filter (λ e, cr_app e.2 ≠ app) (schedules s)) pg s, tt)).
Definition list_crons (app : string) (s : CState) : list (uuid * CronSchedule) := if available s then of_app app s else [].
Definition list_all (full own : list string) (user : uuid) (s : CState) : list (uuid * CronSchedule) :=
  if negb (available s) || (bool_decide (full = []) && bool_decide (own = [])) then []
  else List.filter (λ e, bool_decide (cr_app e.2 ∈ full ++ own) && (bool_decide (cr_app e.2 ∈ full) || bool_decide (cr_owner e.2 = Some user)))
         (map_to_list (schedules s)).
(** A run by hand. *)
Definition trigger (app : string) (id : uuid) (s : CState) : CState * result RuntimeError Z :=
  match (try? require_pg_cron s in get_cron app id s) with
  | Err e => (s, Err e)
  | Ok r => let '(j, res) := enqueue_cron app id (cr_payload r) (cr_owner r) (cjobs s) in (set_cjobs j s, res)
  end.

(** ** What a schedule does when it is due: the plpgsql [enqueue_cron] *)

Definition jsonb_concat (a b : JsonValue) : JsonValue :=
  match a, b with
  | JObject x, JObject y => JObject (foldl (λ o kv, obj_insert kv.1 kv.2 o) x y)
  | JArray x, JArray y => JArray (x ++ y)
  | JArray x, _ => JArray (x ++ [b])
  | _, JArray y => JArray (a :: y)
  | _, _ => JArray [a; b]
  end.
Definition queued_for (id : uuid) (q : Q) : bool :=
  existsb (λ e, bool_decide ((p ← get (lm_message e.2) "payload"; c ← get p "cron_id"; as_str c) = Some id)) (map_to_list (messages q)).
Definition cron_message (id : uuid) (app : string) (payload : JsonValue) (owner : option uuid) : JsonValue :=
  JObject ([("kind", JString "cron"); ("app_id", JString app); ("payload", jsonb_concat payload (JObject [("cron_id", JString id)]));
            ("cron_id", JString id)] ++ unless_none "user_id" owner).
Definition sql_enqueue_cron (id : uuid) (app : string) (payload : JsonValue) (skip : bool) (s : CState) : CState * option Z :=
  if skip && queued_for id (jq (cjobs s)) then (s, None)
  else let '(q, msg) := q_send (jnow (cjobs s)) (cron_message id app payload (schedules s !! id ≫= cr_owner)) (jq (cjobs s)) in
       (set_cjobs (set_jq q (cjobs s)) s, Some msg).

(** ** The manifest *)

Definition def_payload (d : CronDefinition) : result RuntimeError JsonValue :=
  let payload := default (JObject []) (cd_payload d) in
  match cd_method d with
  | None => Ok payload
  | Some method => match payload with
                   | JObject o => Ok (JObject (obj_insert "method" (JString method) o))
                   | _ => Err (Ident.Cron ("cron '" +:+ cd_name d +:+ "': payload must be a JSON object"))
                   end
  end.
Fixpoint delete_missing (app : string) (names : list string) (rows : list (uuid * CronSchedule)) (s : CState) : CState * result RuntimeError unit :=
  match rows with
  | [] => (s, Ok tt)
  | (id, r) :: rows =>
      if bool_decide (cr_name r ∈ names) then delete_missing app names rows s
      else match delete app id s with
           | (s', Ok _) => delete_missing app names rows s'
           | (s', Err e) => (s', Err e)
           end
  end.
(** [fresh i] is the identifier of the [i]-th schedule made. *)
Definition apply_def (app : string) (existing : list (uuid * CronSchedule)) (owner : option uuid) (fresh : uuid) (d : CronDefinition) (s : CState) :
    CState * result RuntimeError unit :=
  match def_payload d with
  | Err e => (s, Err e)
  | Ok payload =>
      match List.find (λ e, bool_decide (cr_name e.2 = cd_name d)) existing with
      | Some (id, _) =>
          let '(s', r) := update app id (Some (cd_schedule d)) (Some payload) (Some (cd_overlap d)) (Some true) s in (s', result_map (λ _, tt) r)
      | None =>
          let '(s', r) := create fresh app {| cc_name := cd_name d; cc_schedule := cd_schedule d; cc_timezone := cd_timezone d; cc_payload := payload;
                                              cc_overlap := cd_overlap d; cc_owner := owner |} s in (s', result_map (λ _, tt) r)
      end
  end.
Fixpoint apply_defs (app : string) (existing : list (uuid * CronSchedule)) (owner : option uuid) (fresh : nat → uuid) (i : nat) (ds : list CronDefinition)
    (s : CState) : CState * result RuntimeError unit :=
  match ds with
  | [] => (s, Ok tt)
  | d :: ds => match apply_def app existing owner (fresh i) d s with
               | (s', Ok _) => apply_defs app existing owner fresh (S i) ds s'
               | (s', Err e) => (s', Err e)
               end
  end.
Definition sync_from_manifest (app : string) (defs : list CronDefinition) (owner : option uuid) (fresh : nat → uuid) (s : CState) :
    CState * result RuntimeError unit :=
  if negb (available s) then (s, Ok tt)
  else
    let existing := list_crons app s in
    match delete_missing app (map cd_name defs) existing s with
    | (s', Ok _) => apply_defs app existing owner fresh 0 defs s'
    | (s', Err e) => (s', Err e)
    end.
End Crons.

(** ** Every schedule has its own pg_cron job

    A schedule that goes with the row of its app ([ON DELETE CASCADE]) leaves its job
    behind; [cascade] says whether that occurs. *)

Section Mirror.
Context {Q C : Type} `{!Pgmq Q} `{!PgCron C} `{!Parsers} (cascade : bool).
Notation CState := (CState Q C).

Definition job_of (id : uuid) (r : CronSchedule) : CronJob :=
  {| cj_name := job_name id; cj_schedule := cr_schedule r; cj_command := cron_command id (cr_app r) (cr_payload r) (is_skip (cr_overlap r)) |}.
Record mirrored (m : gmap uuid CronSchedule) (c : C) : Prop := {
  mi_row : ∀ id r, m !! id = Some r →
    match cr_job r with Some j => cr_enabled r = true ∧ cron_jobs c !! j = Some (job_of id r) | None => cr_enabled r = false end;
  mi_off : ∀ id r j job, m !! id = Some r → cron_jobs c !! j = Some job → cj_name job = job_name id → cr_job r = Some j;
  mi_one : ∀ id j1 j2 job1 job2, cron_jobs c !! j1 = Some job1 → cron_jobs c !! j2 = Some job2 →
    cj_name job1 = job_name id → cj_name job2 = job_name id → j1 = j2;
  mi_job : cascade = false → ∀ j job id, cron_jobs c !! j = Some job → cj_name job = job_name id → is_Some (m !! id) }.

Lemma job_name_inj id id' : job_name id = job_name id' → id = id'.
Proof. unfold job_name. intros Heq. by simplify_eq. Qed.
Lemma unschedule_mirrored m c id r : mirrored m c → m !! id = Some r → ∃ c', unschedule_opt (cr_job r) c = Ok c'.
Proof.
  intros [Hr _ _ _] Hm. specialize (Hr _ _ Hm). unfold unschedule_opt, unschedule_pg_cron. destruct (cr_job r) as [j|]; [|by eexists].
  destruct Hr as [_ Hj]. pose proof (unschedule_spec j c) as Hu. destruct (c_unschedule j c) as [c'|]; [by eexists|congruence].
Qed.
Lemma unschedule_jobs m c c' id r :
  mirrored m c → m !! id = Some r → unschedule_opt (cr_job r) c = Ok c' →
  ∀ j job, cron_jobs c' !! j = Some job ↔ cron_jobs c !! j = Some job ∧ cj_name job ≠ job_name id.
Proof.
  intros [Hr Ho _ _] Hm Hu j job. unfold unschedule_opt, unschedule_pg_cron in Hu. destruct (cr_job r) as [k|] eqn:Hjob; simplify_eq/=.
  - pose proof (unschedule_spec k c) as Hs. destruct (c_unschedule k c) as [c0|]; simplify_eq/=. destruct Hs as [_ ->].
    pose proof (Hr _ _ Hm) as Hown. rewrite Hjob in Hown. destruct Hown as [_ Hown]. rewrite lookup_delete_Some. split.
    + intros [Hne Hl]. split; [done|]. intros Hn. specialize (Ho _ _ _ _ Hm Hl Hn). congruence.
    + intros [Hl Hn]. split; [|done]. intros <-. rewrite Hown in Hl. by simplify_eq.
  - split; [|by intros []]. intros Hl. split; [done|]. intros Hn. specialize (Ho _ _ _ _ Hm Hl Hn). congruence.
Qed.
Lemma remove_mirrored m c c' id r :
  mirrored m c → m !! id = Some r → unschedule_opt (cr_job r) c = Ok c' → mirrored (base.delete id m) c'.
Proof.
  intros HM Hm Hu. pose proof (unschedule_jobs _ _ _ _ _ HM Hm Hu) as Hj. destruct HM as [Hr Ho H1 Hc]. split.
  - intros id' r' [Hne Hm']%lookup_delete_Some. specialize (Hr _ _ Hm'). destruct (cr_job r') as [j'|]; [|done]. destruct Hr as [? Hc']. split; [done|].
    apply Hj. split; [done|]. cbn. by intros ->%job_name_inj.
  - intros id' r' j' job [_ Hm']%lookup_delete_Some [Hl _]%Hj Hn. by eapply Ho.
  - intros id' j1 j2 job1 job2 [Hl1 _]%Hj [Hl2 _]%Hj. by eapply H1.
  - intros Hca j' job id' [Hl Hne]%Hj Hn. rewrite lookup_delete_ne; [by eapply Hc|]. by intros <-.
Qed.
Lemma add_mirrored m c c' id r j :
  mirrored m c → m !! id = None → cr_enabled r = true → cr_job r = Some j →
  schedule_pg_cron id (cr_app r) (cr_schedule r) (cr_payload r) (is_skip (cr_overlap r)) c = Ok (c', j) → mirrored (<[id := r]> m) c'.
Proof.
  intros [Hr Ho H1 Hc] Hm He Hjob Hs. unfold schedule_pg_cron in Hs. destruct (c_schedule _ _ _ c) as [[c0 j0]|] eqn:Hsc; simplify_eq/=.
  destruct (schedule_spec _ _ _ _ _ _ Hsc) as [Hjobs Hfresh]. change {| cj_name := _ |} with (job_of id r) in Hjobs.
  assert (∀ j' job, cron_jobs c !! j' = Some job → cj_name job = job_name id → j' = j) as Hsame.
  { intros j' job Hl Hn. destruct Hfresh as [(job0 & Hl0 & Hn0)|[_ Hno]]; [by eapply H1|by destruct (Hno _ _ Hl)]. }
  assert (∀ job id', cron_jobs c !! j = Some job → cj_name job = job_name id' → id' = id) as Hown.
  { intros job id' Hl Hn. destruct Hfresh as [(job0 & Hl0 & Hn0)|[Hno _]]; [|congruence]. apply job_name_inj. congruence. }
  split.
  - intros id' r' [[<- <-]|[Hne Hm']]%lookup_insert_Some; [rewrite Hjob, Hjobs, lookup_insert_eq; done|].
    specialize (Hr _ _ Hm'). destruct (cr_job r') as [j'|]; [|done]. destruct Hr as [? Hl]. rewrite Hjobs, lookup_insert_ne; [done|].
    intros <-. by destruct (Hown _ id' Hl).
  - intros id' r' j' job Hm'. rewrite Hjobs. intros [[<- <-]|[Hne Hl]]%lookup_insert_Some Hn.
    + apply job_name_inj in Hn as <-. rewrite lookup_insert_eq in Hm'. by simplify_eq.
    + apply lookup_insert_Some in Hm' as [[<- <-]|[Hne' Hm']]; [by destruct Hne; symmetry; eapply Hsame|by eapply Ho].
  - intros id' j1 j2 job1 job2. rewrite Hjobs. intros [[<- <-]|[Hne1 Hl1]]%lookup_insert_Some [[<- <-]|[Hne2 Hl2]]%lookup_insert_Some Hn1 Hn2; [done| | |by eapply H1].
    + apply job_name_inj in Hn1 as <-. symmetry. by eapply Hsame.
    + apply job_name_inj in Hn2 as <-. by eapply Hsame.
  - intros Hca j' job id'. rewrite Hjobs. intros [[<- <-]|[Hne Hl]]%lookup_insert_Some Hn.
    + apply job_name_inj in Hn as <-. rewrite lookup_insert_eq. by eexists.
    + apply lookup_insert_is_Some'. right. by eapply Hc.
Qed.
Lemma disabled_mirrored m c id r :
  mirrored m c → (∀ j job, cron_jobs c !! j = Some job → cj_name job ≠ job_name id) → cr_enabled r = false → cr_job r = None → mirrored (<[id := r]> m) c.
Proof.
  intros [Hr Ho H1 Hc] Hno He Hjob. split; [| |done|].
  - intros id' r' [[<- <-]|[Hne Hm']]%lookup_insert_Some; [by rewrite Hjob|by apply Hr].
  - intros id' r' j' job [[<- <-]|[Hne Hm']]%lookup_insert_Some Hl Hn; [by destruct (Hno _ _ Hl)|by eapply Ho].
  - intros Hca j' job id' Hl Hn. apply lookup_insert_is_Some'. right. by eapply Hc.
Qed.
Lemma unschedule_all_mirrored l m c :
  mirrored m c → NoDup l.*1 → (∀ id r, (id, r) ∈ l → m !! id = Some r) →
  ∃ c', unschedule_all (map (λ e, cr_job e.2) l) c = Ok c' ∧ mirrored (filter (λ e, e.1 ∉ l.*1) m) c'.
Proof.
  revert m c. induction l as [|[id r] l IH]; intros m c Hm Hnd Hin.
  - exists c. split; [done|]. rewrite map_filter_id; [done|]. intros ???. cbn. set_solver.
  - apply NoDup_cons in Hnd as [Hni Hnd]. cbn [map unschedule_all fst snd fmap list_fmap] in *.
    assert (m !! id = Some r) as Hid by (apply Hin; set_solver).
    destruct (unschedule_mirrored _ _ _ _ Hm Hid) as [c1 Hc1]. rewrite Hc1. cbn.
    destruct (IH (base.delete id m) c1) as (c2 & Hc2 & Hm2).
    + by eapply remove_mirrored.
    + done.
    + intros id' r' He. rewrite lookup_delete_ne; [apply Hin; set_solver|]. intros <-. apply Hni. by apply (list_elem_of_fmap_2 fst) in He.
    + exists c2. split; [done|]. replace (filter _ m) with (filter (λ e : uuid * CronSchedule, e.1 ∉ l.*1) (base.delete id m)); [done|].
      apply map_eq. intros i. apply option_eq. intros x. rewrite !map_lookup_filter_Some, lookup_delete_Some. cbn. set_solver.
Qed.

(** What holds of the tables between transactions. *)
Definition row_valid (r : CronSchedule) : Prop :=
  validate_name (cr_name r) = Ok tt ∧ validate_schedule (cr_schedule r) = Ok tt ∧ validate_overlap (cr_overlap r) = Ok tt.
Record CInv (s : CState) : Prop := {
  ci_mirror : mirrored (schedules s) (pgc s);
  ci_valid : ∀ id r, schedules s !! id = Some r → row_valid r ∧ cr_app r ∈ capps s;
  ci_unique : ∀ id1 id2 r1 r2, schedules s !! id1 = Some r1 → schedules s !! id2 = Some r2 → cr_app r1 = cr_app r2 → cr_name r1 = cr_name r2 → id1 = id2 }.

Lemma has_name_false app name (s : CState) :
  has_name app name s = false → ∀ id r, schedules s !! id = Some r → cr_app r = app → cr_name r ≠ name.
Proof.
  unfold has_name. intros Hf id r Hl Ha Hn. apply not_true_iff_false in Hf. apply Hf, existsb_exists. exists (id, r).
  split; [by apply list_elem_of_In, elem_of_map_to_list|]. cbn. by rewrite !bool_decide_eq_true_2.
Qed.

Lemma ensure_ok (b : bool) (e : RuntimeError) u : ensure b e = Ok u → b = true.
Proof. by destruct b. Qed.
Lemma create_inv id app c (s s' : CState) row : create id app c s = (s', Ok row) → CInv s →
  CInv s' ∧ schedules s' = <[id := row]> (schedules s) ∧ schedules s !! id = None ∧ (∃ j, row = created_row app c (Some j)).
Proof.
  unfold create, or_same. intros Hc [Hm Hv Hu]. unfold require_pg_cron in Hc.
  destruct (ensure (available s) _) as [[]|]; [|done]. cbn in Hc.
  destruct (validate_name _) as [[]|] eqn:Hn; [|done]. destruct (validate_schedule _) as [[]|] eqn:Hs; [|done].
  destruct (validate_overlap _) as [[]|] eqn:Ho; [|done]. cbn in Hc. unfold create_tx in Hc.
  destruct (ensure _ CRON_DB) as [[]|] eqn:He; [|done]. apply ensure_ok in He. apply andb_true_iff in He as [[Hid Hname]%andb_true_iff Happ].
  apply bool_decide_eq_true in Hid, Happ. apply negb_true_iff in Hname. cbn in Hc.
  destruct (schedule_pg_cron _ _ _ _ _ _) as [[pg j]|] eqn:Hp; [|done]. cbn in Hc. simplify_eq. cbn.
  split_and!; [|done|done|by eexists]. split; cbn.
  - by eapply add_mirrored.
  - intros id' r [[<- <-]|[Hne Hl]]%lookup_insert_Some; [done|by eapply Hv].
  - intros id1 id2 r1 r2. pose proof (has_name_false _ _ _ Hname) as Hno.
    intros [[<- <-]|[Hne1 Hl1]]%lookup_insert_Some [[<- <-]|[Hne2 Hl2]]%lookup_insert_Some Ha Hnm; cbn in *; [done| | |by eapply Hu].
    + by destruct (Hno _ _ Hl2 (eq_sym Ha)).
    + by destruct (Hno _ _ Hl1 Ha).
Qed.
Lemma get_cron_ok app id (s : CState) r : get_cron app id s = Ok r → schedules s !! id = Some r ∧ cr_app r = app.
Proof. unfold get_cron. destruct (schedules s !! id) as [r0|]; cbn; [|done]. case_decide; cbn; by intros [= <-]. Qed.
Definition valid_or {A : Type} (check : A → result RuntimeError unit) (o : option A) : Prop := ∀ x, o = Some x → check x = Ok tt.
Lemma valid_or_default {A : Type} (check : A → result RuntimeError unit) o d : valid_or check o → check d = Ok tt → check (default d o) = Ok tt.
Proof. destruct o as [x|]; cbn; [intros Hv _; by apply Hv|done]. Qed.
Lemma update_inv app id sched payload overlap enabled (s s' : CState) row :
  update app id sched payload overlap enabled s = (s', Ok row) → CInv s →
  CInv s' ∧ schedules s' = <[id := row]> (schedules s) ∧
  ∃ r j, schedules s !! id = Some r ∧ cr_app r = app
    ∧ row = updated_row r (default (cr_schedule r) sched) (default (cr_payload r) payload) (default (cr_overlap r) overlap) (default (cr_enabled r) enabled) j.
Proof.
  unfold update, or_same. intros Hc [Hm Hv Hu]. unfold require_pg_cron in Hc.
  destruct (ensure (available s) _) as [[]|]; [|done]. cbn in Hc.
  assert (valid_or validate_schedule sched) as Hs by (intros x ->; by destruct (validate_schedule x) as [[]|]).
  destruct (match sched with Some x => validate_schedule x | None => Ok tt end) as [[]|]; [|done].
  assert (valid_or validate_overlap overlap) as Ho by (intros x ->; by destruct (validate_overlap x) as [[]|]).
  destruct (match overlap with Some x => validate_overlap x | None => Ok tt end) as [[]|]; [|done]. cbn in Hc. unfold update_tx in Hc.
  destruct (get_cron app id s) as [r|] eqn:Hg; [|done]. apply get_cron_ok in Hg as [Hr Happ]. cbn in Hc.
  destruct (unschedule_opt _ _) as [pg|] eqn:Hun; [|done]. cbn in Hc. pose proof (remove_mirrored _ _ _ _ _ Hm Hr Hun) as Hrem.
  pose proof (unschedule_jobs _ _ _ _ _ Hm Hr Hun) as Hgone.
  destruct (Hv _ _ Hr) as [(Hvn & Hvs & Hvo) Hva].
  assert (∀ pg' j, mirrored (<[id := updated_row r (default (cr_schedule r) sched) (default (cr_payload r) payload) (default (cr_overlap r) overlap) (default (cr_enabled r) enabled) j]> (schedules s)) pg' →
    CInv (set_crons (<[id := updated_row r (default (cr_schedule r) sched) (default (cr_payload r) payload) (default (cr_overlap r) overlap) (default (cr_enabled r) enabled) j]> (schedules s)) pg' s)) as Hgen.
  { intros pg' j Hmir. split; cbn; [done| |].
    - intros id' r' [[<- <-]|[Hne Hl]]%lookup_insert_Some; [|by eapply Hv]. split; [|done]. split_and!; [done|by apply valid_or_default|by apply valid_or_default].
    - intros id1 id2 r1 r2 [[<- <-]|[Hne1 Hl1]]%lookup_insert_Some [[<- <-]|[Hne2 Hl2]]%lookup_insert_Some Ha Hnm; cbn in *; [done| | |]; by eapply Hu. }
  destruct (default (cr_enabled r) enabled) eqn:Hen.
  - destruct (schedule_pg_cron _ _ _ _ _ _) as [[pg' j]|] eqn:Hp; [|done]. cbn in Hc. simplify_eq.
    split_and!; [|done|exists r, (Some j); by rewrite Hen]. apply Hgen. rewrite <-insert_delete_eq. eapply (add_mirrored _ pg); [done|by rewrite lookup_delete_eq|done|done|done].
  - cbn in Hc. simplify_eq. split_and!; [|done|exists r, None; by rewrite Hen]. apply Hgen. rewrite <-insert_delete_eq. apply disabled_mirrored; [done|by intros j job [_ ?]%Hgone|done|done].
Qed.
Lemma CInv_shrink m c (s : CState) : m ⊆ schedules s → mirrored m c → CInv s → CInv (set_crons m c s).
Proof.
  intros Hsub Hm [_ Hv Hu]. split; cbn; [done| |].
  - intros id r Hl. eapply Hv. by eapply lookup_weaken.
  - intros id1 id2 r1 r2 H1 H2. by eapply Hu; eapply lookup_weaken.
Qed.
Lemma delete_inv app id (s : CState) : CInv s → available s = true →
  match get_cron app id s with
  | Ok r => ∃ s', delete app id s = (s', Ok tt) ∧ CInv s' ∧ schedules s' = base.delete id (schedules s)
  | Err e => delete app id s = (s, Err e)
  end.
Proof.
  intros HI Hav. unfold delete, require_pg_cron. rewrite Hav. cbn. unfold delete_tx. destruct (get_cron app id s) as [r|e] eqn:Hg; [|done].
  apply get_cron_ok in Hg as [Hr _]. destruct (unschedule_mirrored _ _ _ _ (ci_mirror _ HI) Hr) as [c' Hu]. cbn. rewrite Hu. cbn.
  eexists. split_and!; [done| |done]. apply CInv_shrink; [apply delete_subseteq| |done]. by eapply remove_mirrored; [apply HI| |].
Qed.
Lemma elem_of_of_app app id r (s : CState) : (id, r) ∈ of_app app s ↔ schedules s !! id = Some r ∧ cr_app r = app.
Proof. unfold of_app. rewrite list_elem_of_In, filter_In, <-list_elem_of_In, elem_of_map_to_list, bool_decide_eq_true. done. Qed.
Lemma of_app_NoDup app (s : CState) : NoDup (of_app app s).*1.
Proof.
  unfold of_app. pose proof (NoDup_fst_map_to_list (schedules s)) as Hnd. induction (map_to_list (schedules s)) as [|[i x] l IH]; [done|].
  cbn in *. apply NoDup_cons in Hnd as [Hni Hnd]. destruct (bool_decide _); [|by apply IH]. cbn. apply NoDup_cons. split; [|by apply IH].
  intros [[i' x'] [-> Hin]]%list_elem_of_fmap. apply Hni, list_elem_of_fmap. exists (i', x'). split; [done|].
  rewrite list_elem_of_In in Hin |- *. by apply filter_In in Hin as [? _].
Qed.
(** An app's schedules can always be removed, with all their jobs. *)
Lemma delete_all_inv app (s : CState) : CInv s → available s = true →
  ∃ s', delete_all_for_app app s = (s', Ok tt) ∧ CInv s' ∧ schedules s' = filter (λ e, cr_app e.2 ≠ app) (schedules s).
Proof.
  intros HI Hav. unfold delete_all_for_app. rewrite Hav. cbn.
  destruct (unschedule_all_mirrored (of_app app s) _ _ (ci_mirror _ HI) (of_app_NoDup app s)) as (c' & Hu & Hm).
  { intros id r [? _]%elem_of_of_app. done. }
  rewrite Hu. cbn. eexists. split_and!; [done| |done]. apply CInv_shrink; [apply map_filter_subseteq| |done].
  replace (filter _ (schedules s)) with (filter (λ e : uuid * CronSchedule, e.1 ∉ (of_app app s).*1) (schedules s)); [done|].
  apply map_eq. intros i. apply option_eq. intros x. rewrite !map_lookup_filter_Some. cbn. split; intros [Hl Hn]; (split; [done|]).
  - intros Ha. apply Hn, list_elem_of_fmap. exists (i, x). split; [done|]. by apply elem_of_of_app.
  - intros [[i' x'] [-> [Hl' Ha]%elem_of_of_app]]%list_elem_of_fmap. cbn in *. congruence.
Qed.

(** ** The steps on schedules *)

Definition forget_owner (user : uuid) (r : CronSchedule) : CronSchedule :=
  {| cr_app := cr_app r; cr_name := cr_name r; cr_schedule := cr_schedule r; cr_timezone := cr_timezone r; cr_payload := cr_payload r; cr_overlap := cr_overlap r;
     cr_enabled := cr_enabled r; cr_job := cr_job r; cr_owner := if bool_decide (cr_owner r = Some user) then None else cr_owner r |}.
Definition set_capps (apps : gset string) (s : CState) : CState :=
  {| cjobs := cjobs s; schedules := schedules s; pgc := pgc s; capps := apps; available := available s |}.
(** [DELETE FROM rootcx_system.apps]: the app's schedules go with the row, and nothing
    tells pg_cron.  [uninstall_app] comes here long after [delete_all_for_app], and
    [delete_workflow] without it. *)
Definition app_row_gone (app : string) (s : CState) : CState :=
  set_capps (capps s ∖ {[app]}) (set_crons (filter (λ e, cr_app e.2 ≠ app) (schedules s)) (pgc s) s).
(** Requests, runs that are due, apps that come and go, users that leave
    ([ON DELETE SET NULL]), and jobs of pg_cron that are not Core's.  What runs several
    transactions, as [sync_from_manifest] does, is also these steps one by one, with
    others in between. *)
Inductive cstep : CState → CState → Prop :=
| C_create id app c s : cstep s (create id app c s).1
| C_update app id sched payload overlap enabled s : cstep s (update app id sched payload overlap enabled s).1
| C_delete app id s : cstep s (delete app id s).1
| C_sync app defs owner fresh s : cstep s (sync_from_manifest app defs owner fresh s).1
| C_trigger app id s : cstep s (trigger app id s).1
| C_due id app payload skip s : cstep s (sql_enqueue_cron id app payload skip s).1
| C_jobs j s : cstep s (set_cjobs j s)
| C_install app s : cstep s (set_capps ({[app]} ∪ capps s) s)
| C_delete_all app s : cstep s (delete_all_for_app app s).1
| C_app_gone app s : cascade = true ∨ of_app app s = [] → cstep s (app_row_gone app s)
| C_user_gone user s : cstep s (set_crons (forget_owner user <$> schedules s) (pgc s) s)
| C_foreign c s : (∀ j job id, cj_name job = job_name id → cron_jobs c !! j = Some job ↔ cron_jobs (pgc s) !! j = Some job) → cstep s (set_crons (schedules s) c s).

Lemma create_keeps id app c (s : CState) : CInv s → CInv (create id app c s).1.
Proof.
  intros HI. destruct (create id app c s) as [s' [row|e]] eqn:Hc; [by apply create_inv in Hc as [? _]|].
  unfold create, or_same in Hc. by destruct (try? _ in _) as [[]|]; simplify_eq.
Qed.
Lemma update_keeps app id sched payload overlap enabled (s : CState) : CInv s → CInv (update app id sched payload overlap enabled s).1.
Proof.
  intros HI. destruct (update app id sched payload overlap enabled s) as [s' [row|e]] eqn:Hc; [by apply update_inv in Hc as [? _]|].
  unfold update, or_same in Hc. by destruct (try? _ in _) as [[]|]; simplify_eq.
Qed.
Lemma delete_keeps app id (s : CState) : CInv s → CInv (delete app id s).1.
Proof.
  intros HI. destruct (available s) eqn:Hav; [|unfold delete, require_pg_cron; by rewrite Hav].
  pose proof (delete_inv app id s HI Hav) as Hd. destruct (get_cron app id s) as [r|e]; [by destruct Hd as (s' & -> & ? & _)|by rewrite Hd].
Qed.
Lemma delete_missing_keeps app names rows (s : CState) : CInv s → CInv (delete_missing app names rows s).1.
Proof.
  revert s. induction rows as [|[id r] rows IH]; intros s HI; [done|]. cbn. destruct (bool_decide _); [by apply IH|].
  pose proof (delete_keeps app id s HI) as Hd. destruct (delete app id s) as [s' [[]|e]]; [by apply IH|done].
Qed.
Lemma apply_def_keeps app existing owner fresh d (s : CState) : CInv s → CInv (apply_def app existing owner fresh d s).1.
Proof.
  intros HI. unfold apply_def. destruct (def_payload d) as [payload|e]; [|done].
  destruct (List.find _ existing) as [[id r]|].
  - pose proof (update_keeps app id (Some (cd_schedule d)) (Some payload) (Some (cd_overlap d)) (Some true) s HI) as Hu. by destruct (update _ _ _ _ _ _ s).
  - match goal with |- context [create ?a ?b ?c s] => pose proof (create_keeps a b c s HI) as Hu; by destruct (create a b c s) end.
Qed.
Lemma apply_defs_keeps app existing owner fresh i ds (s : CState) : CInv s → CInv (apply_defs app existing owner fresh i ds s).1.
Proof.
  revert i s. induction ds as [|d ds IH]; intros i s HI; [done|]. cbn.
  pose proof (apply_def_keeps app existing owner (fresh i) d s HI) as Hd. destruct (apply_def _ _ _ _ _ s) as [s' [[]|e]]; [by apply IH|done].
Qed.
Lemma sync_keeps app defs owner fresh (s : CState) : CInv s → CInv (sync_from_manifest app defs owner fresh s).1.
Proof.
  intros HI. unfold sync_from_manifest. destruct (available s); [|done]. cbn.
  pose proof (delete_missing_keeps app (map cd_name defs) (list_crons app s) s HI) as Hd.
  destruct (delete_missing _ _ _ s) as [s' [[]|e]]; [by apply apply_defs_keeps|done].
Qed.
Lemma CInv_same (s s' : CState) : schedules s' = schedules s → pgc s' = pgc s → capps s ⊆ capps s' → CInv s → CInv s'.
Proof.
  intros Hs Hc Ha [Hm Hv Hu]. split; rewrite ?Hs, ?Hc; [done| |done]. intros id r Hl. destruct (Hv _ _ Hl). split; [done|set_solver].
Qed.
Lemma jobs_keeps j (s : CState) : CInv s → CInv (set_cjobs j s).
Proof. by apply CInv_same. Qed.
Lemma owner_keeps user (s : CState) : CInv s → CInv (set_crons (forget_owner user <$> schedules s) (pgc s) s).
Proof.
  intros [[Hr Ho H1 Hc] Hv Hu]. split; [split| |]; cbn; [| |done| | |].
  - intros id r Hl. apply lookup_fmap_Some in Hl as (r0 & <- & Hl). by apply Hr in Hl.
  - intros id r j job Hl. apply lookup_fmap_Some in Hl as (r0 & <- & Hl). by apply (Ho _ _ _ _ Hl).
  - intros Hca j job id Hl Hn. rewrite lookup_fmap, fmap_is_Some. by eapply Hc.
  - intros id r Hl. apply lookup_fmap_Some in Hl as (r0 & <- & Hl). by apply Hv in Hl.
  - intros id1 id2 r1 r2 H2 H3. apply lookup_fmap_Some in H2 as (r1' & <- & H2), H3 as (r2' & <- & H3). by apply (Hu id1 id2 r1' r2').
Qed.
Lemma foreign_keeps c (s : CState) :
  (∀ j job id, cj_name job = job_name id → cron_jobs c !! j = Some job ↔ cron_jobs (pgc s) !! j = Some job) → CInv s → CInv (set_crons (schedules s) c s).
Proof.
  intros Hf [[Hr Ho H1 Hc] Hv Hu]. split; [split| |]; cbn; [| | | |done|done].
  - intros id r Hl. specialize (Hr _ _ Hl). destruct (cr_job r) as [j|]; [|done]. destruct Hr as [? Hl']. split; [done|]. by apply (Hf j (job_of id r) id eq_refl).
  - intros id r j job Hm Hl Hn. apply (Ho id r j job); [done|by apply (Hf _ _ id)|done].
  - intros id j1 j2 job1 job2 Hl1 Hl2 Hn1 Hn2. apply (H1 id j1 j2 job1 job2); [by apply (Hf _ _ id)|by apply (Hf _ _ id)|done|done].
  - intros Hca j job id Hl Hn. apply (Hc Hca j job); [by apply (Hf _ _ id)|done].
Qed.
Lemma app_gone_keeps app (s : CState) : cascade = true ∨ of_app app s = [] → CInv s → CInv (app_row_gone app s).
Proof.
  intros Hca [[Hr Ho H1 Hc] Hv Hu]. split; [split| |]; cbn; [| |done| | |].
  - intros id r [Hl _]%map_lookup_filter_Some. by apply Hr.
  - intros id r j job [Hl _]%map_lookup_filter_Some. by eapply Ho.
  - intros Hf j job id Hl Hn. destruct Hca as [?|Hnone]; [congruence|]. destruct (Hc Hf _ _ _ Hl Hn) as [r Hm]. exists r.
    apply map_lookup_filter_Some. split; [done|]. cbn. intros Ha.
    assert ((id, r) ∈ of_app app s) as Hin by by apply elem_of_of_app. rewrite Hnone in Hin. by apply elem_of_nil in Hin.
  - intros id r [Hl Hne]%map_lookup_filter_Some. destruct (Hv _ _ Hl). cbn in Hne. split; [done|set_solver].
  - intros id1 id2 r1 r2 [Hl1 _]%map_lookup_filter_Some [Hl2 _]%map_lookup_filter_Some. by eapply Hu.
Qed.
Lemma delete_all_keeps app (s : CState) : CInv s → CInv (delete_all_for_app app s).1.
Proof.
  intros HI. destruct (available s) eqn:Hav; [|unfold delete_all_for_app; by rewrite Hav].
  by destruct (delete_all_inv app s HI Hav) as (s' & -> & ? & _).
Qed.
Lemma cstep_inv (s s' : CState) : cstep s s' → CInv s → CInv s'.
Proof.
  destruct 1 as [| | | |app id s|id app payload skip s| |app s| |app s Hg| |c s Hf]; intros HI;
    [by apply create_keeps|by apply update_keeps|by apply delete_keeps|by apply sync_keeps| | |by apply jobs_keeps| |by apply delete_all_keeps
    |by apply app_gone_keeps|by apply owner_keeps|by apply foreign_keeps].
  - unfold trigger. destruct (try? _ in _) as [r|e]; [|done]. destruct (enqueue_cron _ _ _ _ _). by apply jobs_keeps.
  - unfold sql_enqueue_cron. destruct (skip && _); [done|]. destruct (q_send _ _ _). by apply jobs_keeps.
  - apply (CInv_same s); [done|done|cbn; set_solver|done].
Qed.

(** ** The text of a job *)

Definition cron_command_toks (id : uuid) (app : string) (payload : JsonValue) (skip : bool) : list STok :=
  [SBare "SELECT"; SBare "rootcx_system.enqueue_cron"; SSym "("; SStr id; SSym ":"; SSym ":"; SBare "uuid"; SSym ",";
   SStr app; SSym ":"; SSym ":"; SBare "text"; SSym ","; SStr (show_json payload); SSym ":"; SSym ":"; SBare "jsonb"; SSym ",";
   SBare (bool_text skip); SSym ":"; SSym ":"; SBare "boolean"; SSym ")"].
Lemma cron_command_scans id app payload skip : sql_scan (cron_command id app payload skip) = cron_command_toks id app payload skip.
Proof.
  change (sql_scan (cron_command id app payload skip)) with (scan_from Idle (cron_command id app payload skip)).
  pose proof (emits_literal id) as H1. pose proof (emits_literal app) as H2. pose proof (emits_literal (show_json payload)) as H3.
  unfold cron_command, cron_command_toks. remember (quote_literal id) as a. remember (quote_literal app) as b. remember (quote_literal (show_json payload)) as c.
  rewrite (scan_static Idle "SELECT rootcx_system.enqueue_cron(" _ Idle _ eq_refl), H1 by done.
  rewrite (scan_static Idle "::uuid, " _ Idle _ eq_refl), H2 by done.
  rewrite (scan_static Idle "::text, " _ Idle _ eq_refl), H3 by done.
  rewrite (scan_static Idle "::jsonb, " _ Idle _ eq_refl). by destruct skip.
Qed.

(** ** A schedule that skips does not pile up *)

Definition holds_run (id : uuid) (v : JsonValue) : Prop := (p ← get v "payload"; c ← get p "cron_id"; as_str c) = Some id.
Lemma cron_message_holds id app o owner : holds_run id (cron_message id app (JObject o) owner).
Proof.
  unfold holds_run. assert (get (cron_message id app (JObject o) owner) "payload" = Some (jsonb_concat (JObject o) (JObject [("cron_id", JString id)]))) as -> by done.
  cbn [mbind option_bind]. assert (get (jsonb_concat (JObject o) (JObject [("cron_id", JString id)])) "cron_id" = Some (JString id)) as ->; [|done].
  cbn. rewrite obj_get_insert. by rewrite decide_True.
Qed.
Lemma queued_for_true id (q : Q) m l : messages q !! m = Some l → holds_run id (lm_message l) → queued_for id q = true.
Proof.
  intros Hl Hh. unfold queued_for. apply existsb_exists. exists (m, l). split; [by apply list_elem_of_In, elem_of_map_to_list|].
  by apply bool_decide_eq_true_2.
Qed.

(** ** The schedules of a manifest *)

Definition carries (app : string) (d : CronDefinition) (r : CronSchedule) : Prop :=
  cr_app r = app ∧ cr_name r = cd_name d ∧ cr_schedule r = cd_schedule d ∧ def_payload d = Ok (cr_payload r) ∧ cr_overlap r = cd_overlap d ∧ cr_enabled r = true.
Lemma apply_def_spec app existing owner fresh d (s s' : CState) :
  CInv s → (∀ id r, (id, r) ∈ existing → cr_name r = cd_name d → ∃ r', schedules s !! id = Some r' ∧ cr_name r' = cr_name r) →
  apply_def app existing owner fresh d s = (s', Ok tt) →
  ∃ id r, schedules s' = <[id := r]> (schedules s) ∧ carries app d r
    ∧ ∀ r0, schedules s !! id = Some r0 → cr_app r0 = app ∧ cr_name r0 = cd_name d.
Proof.
  intros HI Hstable Ha. unfold apply_def in Ha. destruct (def_payload d) as [payload|e] eqn:Hp; [|done].
  destruct (List.find _ existing) as [[id r]|] eqn:Hf.
  - apply find_some in Hf as [Hin Hname]. apply list_elem_of_In in Hin. apply bool_decide_eq_true in Hname. cbn in Hname.
    destruct (update _ _ _ _ _ _ s) as [s1 [row|e]] eqn:Hu; cbn in Ha; simplify_eq.
    apply update_inv in Hu as (_ & Hs & r0 & j & Hr0 & Happ & Hrow); [|done]. exists id, row. destruct (Hstable _ _ Hin Hname) as (r1 & Hr1 & Hn).
    split_and!; [done| |intros r2 Hr2; split; congruence]. subst row. unfold carries. cbn. split_and!; [done|congruence|done|done|done|done].
  - match type of Ha with context [create ?a ?b ?c s] => destruct (create a b c s) as [s1 [row|e]] eqn:Hc end; cbn in Ha; simplify_eq.
    apply create_inv in Hc as (_ & Hs & Hnone & j & Hrow); [|done]. exists fresh, row. split_and!; [done| |congruence]. by subst row.
Qed.

(** What holds between two definitions: [done] are applied. *)
Record applied (app : string) (names : list string) (existing : list (uuid * CronSchedule)) (m0 : gmap uuid CronSchedule) (done : list CronDefinition)
    (m : gmap uuid CronSchedule) : Prop := {
  ap_done : ∀ d, d ∈ done → ∃ id r, m !! id = Some r ∧ carries app d r;
  ap_names : ∀ id r, m !! id = Some r → cr_app r = app → cr_name r ∈ names;
  ap_others : ∀ id r, cr_app r ≠ app → m !! id = Some r ↔ m0 !! id = Some r;
  ap_kept : ∀ id r, (id, r) ∈ existing → cr_name r ∈ names → ∃ r', m !! id = Some r' ∧ cr_name r' = cr_name r }.
Lemma applied_step app names existing m0 dn m d id r :
  applied app names existing m0 dn m → cd_name d ∈ names → cd_name d ∉ map cd_name dn → carries app d r →
  (∀ r0, m !! id = Some r0 → cr_app r0 = app ∧ cr_name r0 = cd_name d) →
  applied app names existing m0 (dn ++ [d]) (<[id := r]> m).
Proof.
  intros [Hd Hn Ho Hk] Hin Hni Hc Hold. destruct Hc as (Ha & Hnm & Hrest).
  split.
  - intros d' [Hd'|Hd'%list_elem_of_singleton]%elem_of_app; [|subst d'; exists id, r; by rewrite lookup_insert_eq].
    destruct (Hd _ Hd') as (id' & r' & Hl & Hc'). exists id', r'. split; [|done]. rewrite lookup_insert_ne; [done|]. intros <-.
    destruct (Hold _ Hl) as [_ Hname]. apply Hni, list_elem_of_fmap. exists d'. split; [|done]. destruct Hc' as (_ & Hc' & _). congruence.
  - intros id' r' [[<- <-]|[Hne Hl]]%lookup_insert_Some; [congruence|by apply (Hn id')].
  - intros id' r' Hne. rewrite <-Ho by done. destruct (decide (id = id')) as [<-|Hd']; [|by rewrite lookup_insert_ne].
    rewrite lookup_insert_eq. split; intros Hl; [congruence|]. by destruct (Hold _ Hl).
  - intros id' r0 He Hi. destruct (Hk _ _ He Hi) as (r' & Hr' & Hn'). destruct (decide (id = id')) as [<-|Hd']; [|exists r'; by rewrite lookup_insert_ne].
    exists r. rewrite lookup_insert_eq. split; [done|]. destruct (Hold _ Hr') as [_ H1]. congruence.
Qed.
Lemma apply_defs_spec app existing owner fresh names m0 ds dn i (s s' : CState) :
  CInv s → applied app names existing m0 dn (schedules s) → names = map cd_name (dn ++ ds) → NoDup names →
  apply_defs app existing owner fresh i ds s = (s', Ok tt) → applied app names existing m0 (dn ++ ds) (schedules s').
Proof.
  revert dn i s. induction ds as [|d ds IH]; intros dn i s HI Hap Hnm Hnd Hrun; cbn in Hrun; [injection Hrun as <-; by rewrite app_nil_r|].
  pose proof (apply_def_keeps app existing owner (fresh i) d s HI) as HI'.
  destruct (apply_def _ _ _ _ _ s) as [s1 [[]|e]] eqn:Hd; [|done]. cbn in HI'.
  pose proof Hnd as Hsplit. rewrite Hnm, map_app, NoDup_app in Hsplit. destruct Hsplit as (_ & Hdis & _).
  assert (cd_name d ∈ names) as Hin by (rewrite Hnm, map_app; cbn; set_solver).
  apply apply_def_spec in Hd as (id & r & Hs1 & Hc & Hold); [|done|].
  - rewrite (cons_middle d dn ds), app_assoc. rewrite (cons_middle d dn ds), app_assoc in Hnm.
    apply (IH (dn ++ [d]) (S i) s1); [done| |done|done|done].
    rewrite Hs1. eapply applied_step; [done|done| |done|done]. intros Hx. specialize (Hdis _ Hx). cbn in Hdis. set_solver.
  - intros id r He Hn. eapply ap_kept; [done|done|]. by rewrite Hn.
Qed.
Lemma delete_missing_spec app names rows (s s' : CState) :
  CInv s → available s = true → delete_missing app names rows s = (s', Ok tt) →
  CInv s' ∧ ∀ id r, schedules s' !! id = Some r ↔ schedules s !! id = Some r ∧ ¬ (∃ r0, (id, r0) ∈ rows ∧ cr_name r0 ∉ names).
Proof.
  revert s. induction rows as [|[id r] rows IH]; intros s HI Hav Hrun; cbn in Hrun; [injection Hrun as <-; split; [done|set_solver]|].
  destruct (bool_decide (cr_name r ∈ names)) eqn:Hb.
  - apply bool_decide_eq_true in Hb. destruct (IH s HI Hav Hrun) as [HI' Hl]. split; [done|]. intros id' r'. rewrite Hl. set_solver.
  - apply bool_decide_eq_false in Hb. pose proof (delete_inv app id s HI Hav) as Hd. destruct (get_cron app id s) as [r1|e]; [|by rewrite Hd in Hrun].
    destruct Hd as (s1 & Hd & HI1 & Hs1). rewrite Hd in Hrun.
    assert (available s1 = true) as Hav1.
    { unfold delete, or_same in Hd. destruct (try? _ in _) as [[s2 []]|] eqn:Ht; simplify_eq. unfold require_pg_cron in Ht. rewrite Hav in Ht. cbn in Ht.
      unfold delete_tx in Ht. destruct (get_cron app id s); [|done]. cbn in Ht. destruct (unschedule_opt _ _); [|done]. cbn in Ht. simplify_eq. exact Hav. }
    destruct (IH s1 HI1 Hav1 Hrun) as [HI' Hl]. split; [done|]. intros id' r'. rewrite Hl, Hs1, lookup_delete_Some. set_solver.
Qed.
Lemma sync_spec app defs owner fresh (s s' : CState) :
  CInv s → available s = true → NoDup (map cd_name defs) → sync_from_manifest app defs owner fresh s = (s', Ok tt) →
  applied app (map cd_name defs) (list_crons app s) (schedules s) defs (schedules s').
Proof.
  intros HI Hav Hnd Hrun. unfold sync_from_manifest in Hrun. rewrite Hav in Hrun. cbn [negb] in Hrun. assert (list_crons app s = of_app app s) as Hl by (unfold list_crons; by rewrite Hav).
  rewrite Hl in *. destruct (delete_missing _ _ _ s) as [s1 [[]|e]] eqn:Hd; [|done].
  apply delete_missing_spec in Hd as [HI1 Hs1]; [|done|done].
  eapply (apply_defs_spec _ _ _ _ _ _ defs [] 0 s1); [done| |done|done|done]. split.
  - set_solver.
  - intros id r [Hr Hno]%Hs1 Ha. apply dec_stable. intros Hni. apply Hno. exists r. split; [by apply elem_of_of_app|done].
  - intros id r Hne. rewrite Hs1. split; [by intros []|]. intros Hr. split; [done|]. intros (r0 & [? Ha]%elem_of_of_app & _). congruence.
  - intros id r [Hr Ha]%elem_of_of_app Hin. exists r. split; [|done]. apply Hs1. split; [done|]. intros (r0 & [? _]%elem_of_of_app & Hn0). congruence.
Qed.

(** ** The theorems *)

(** Nothing scheduled yet. *)
Definition cinit (s : CState) : Prop :=
  schedules s = ∅ ∧ ∀ j job id, cron_jobs (pgc s) !! j = Some job → cj_name job ≠ job_name id.
Lemma cinit_inv (s : CState) : cinit s → CInv s.
Proof.
  intros [Hs Hj]. split; [split| |]; rewrite ?Hs; try done.
  - intros id j1 j2 job1 job2 Hl _ Hn. by destruct (Hj _ _ _ Hl Hn).
  - intros _ j job id Hl Hn. by destruct (Hj _ _ _ Hl Hn).
Qed.
Lemma reachable_inv (s0 s : CState) : cinit s0 → rtc cstep s0 s → CInv s.
Proof. intros Hi Hr. apply cinit_inv in Hi. induction Hr; [done|]. eauto using cstep_inv. Qed.


(** When the schedules of a manifest are installed without an error, the app's
    schedules are then exactly the manifest's: each is there under its name, enabled, with
    its timing, payload and overlap policy, every other schedule of the app is gone, and
    the schedules of other apps are as they were. *)
Theorem sync_installs_manifest (s0 s s' : CState) app defs owner fresh :
  cinit s0 → rtc cstep s0 s → available s = true → NoDup (map cd_name defs) → sync_from_manifest app defs owner fresh s = (s', Ok tt) →
  (∀ d, d ∈ defs → ∃ id r, schedules s' !! id = Some r ∧ carries app d r)
  ∧ (∀ id r, schedules s' !! id = Some r → cr_app r = app → ∃ d, d ∈ defs ∧ carries app d r)
  ∧ (∀ id r, cr_app r ≠ app → schedules s' !! id = Some r ↔ schedules s !! id = Some r).
Proof.
  intros Hi Hr Hav Hnd Hrun. pose proof (reachable_inv _ _ Hi Hr) as HI.
  destruct (sync_spec _ _ _ _ _ _ HI Hav Hnd Hrun) as [Hd Hn Ho _]. split_and!; [done| |done].
  intros id r Hl Ha. destruct (list_elem_of_fmap_1 _ _ _ (Hn _ _ Hl Ha)) as (d & Hname & Hin). exists d. split; [done|].
  destruct (Hd _ Hin) as (id' & r' & Hl' & Hc). pose proof (sync_keeps app defs owner fresh s HI) as HI'. rewrite Hrun in HI'. cbn in HI'.
  assert (id = id') as <- by (eapply (ci_unique _ HI'); [done|done| |]; destruct Hc as (? & ? & _); congruence). by simplify_eq.
Qed.

(** A schedule that skips overlaps puts one run on the queue at a time: as long as the
    message of a due run of it is still there, the next due run adds nothing. *)
Theorem skipping_schedule_waits (s s1 s2 : CState) id app o m l :
  sql_enqueue_cron id app (JObject o) true s = (s1, Some m) → messages (jq (cjobs s1)) !! m = Some l →
  (∃ l', messages (jq (cjobs s2)) !! m = Some l' ∧ lm_message l' = lm_message l) →
  ∀ app' payload', sql_enqueue_cron id app' payload' true s2 = (s2, None).
Proof.
  intros Hrun Hl (l' & Hl' & Hm) app' payload'. unfold sql_enqueue_cron in *. destruct (true && queued_for id (jq (cjobs s))); [done|].
  pose proof (send_spec (jnow (cjobs s)) (cron_message id app (JObject o) (schedules s !! id ≫= cr_owner)) (jq (cjobs s))) as (H1 & _ & H2).
  destruct (q_send _ _ _) as [q msg]. cbn in *. simplify_eq. cbn in Hl. rewrite H2, lookup_insert_eq in Hl. simplify_eq. cbn in Hm.
  erewrite queued_for_true; [done|done|]. rewrite Hm. apply cron_message_holds.
Qed.
End Mirror.

(** ** Examples *)

Module CronExamples.
#[local] Existing Instance JobExamples.toy_pgmq.
#[local] Existing Instance RecordExamples.toy_parsers.
Notation ToyQueue := JobExamples.ToyQueue.
Definition named (name : string) (e : Z * CronJob) : bool := bool_decide (cj_name e.2 = name).
(** The number of the job of that name, or one not in use. *)
Definition toy_number (name : string) (c : gmap Z CronJob) : Z :=
  match List.find (named name) (map_to_list c) with Some (id, _) => id | None => fresh (dom c) end.
Definition toy_schedule (name sched command : string) (c : gmap Z CronJob) : option (gmap Z CronJob * Z) :=
  Some (<[toy_number name c := {| cj_name := name; cj_schedule := sched; cj_command := command |}]> c, toy_number name c).
Definition toy_unschedule (id : Z) (c : gmap Z CronJob) : option (gmap Z CronJob) :=
  match c !! id with Some _ => Some (base.delete id c) | None => None end.
#[local] Program Instance toy_pg_cron : PgCron (gmap Z CronJob) :=
  {| cron_jobs c := c; c_schedule := toy_schedule; c_unschedule := toy_unschedule |}.
Next Obligation.
  intros name sched command c c' id [= <- <-]. split; [done|]. unfold toy_number. destruct (List.find _ _) as [[i j]|] eqn:Hf.
  - left. exists j. apply find_some in Hf as [Hin Hn]. apply list_elem_of_In, elem_of_map_to_list in Hin. by apply bool_decide_eq_true in Hn.
  - right. split; [apply not_elem_of_dom, is_fresh|]. intros i j Hl. apply elem_of_map_to_list, list_elem_of_In in Hl.
    pose proof (find_none _ _ Hf _ Hl) as Hn. by apply bool_decide_eq_false in Hn.
Qed.
Next Obligation. intros id c. unfold toy_unschedule. destruct (c !! id) eqn:Hl; [|done]. split; [by eexists|done]. Qed.

Definition start : CState ToyQueue (gmap Z CronJob) :=
  {| cjobs := {| jgov := demo_gov; jq := {| JobExamples.tq := ∅; JobExamples.tq_next := 1 |}; jdlq := []; jwf := {| workflows := ∅; executions := ∅; node_runs := ∅ |}; jdown := false |};
     schedules := ∅; pgc := ∅; capps := {["crm"]}; available := true |}.
Definition nightly : CreateCron :=
  {| cc_name := "nightly"; cc_schedule := "0 3 * * *"; cc_timezone := None; cc_payload := JObject []; cc_overlap := "skip"; cc_owner := Some "u1" |}.
Definition hourly : CronDefinition :=
  {| cd_name := "hourly"; cd_schedule := "0 * * * *"; cd_timezone := None; cd_method := Some "sweep"; cd_payload := None; cd_overlap := "queue" |}.
Definition scheduled := (create "c1" "crm" nightly start).1.
Definition synced := sync_from_manifest "crm" [hourly] (Some "u1") (λ _, "c2") scheduled.
Lemma start_init : cinit start.
Proof. by split. Qed.
Lemma scheduled_reachable : rtc (cstep false) start scheduled.
Proof. apply rtc_once, C_create. Qed.

(** The schedule made by a request is gone once the manifest is installed. *)
Lemma sync_installs_manifest_witness :
  synced.2 = Ok tt ∧ schedules scheduled !! "c1" ≠ None ∧ schedules synced.1 !! "c1" = None ∧ ∃ id r, schedules synced.1 !! id = Some r ∧ carries "crm" hourly r.
Proof.
  assert (synced.2 = Ok tt) as Hok by (vm_compute; reflexivity).
  split_and!; [exact Hok|vm_compute; discriminate|vm_compute; reflexivity|].
  destruct synced as [s' r] eqn:Hs. cbn in Hok. subst r.
  refine (proj1 (sync_installs_manifest false start scheduled s' "crm" [hourly] (Some "u1") (λ _, "c2") start_init scheduled_reachable _ _ Hs) hourly _);
    [reflexivity|apply NoDup_singleton|apply list_elem_of_here].
Defined.
(** The row of an app that has a schedule is deleted: the schedule is gone, and its job
    still calls the queue for an app that is no longer there. *)
Example deleted_workflow_leaves_its_job :
  let s := app_row_gone "crm" scheduled in
  schedules s = ∅ ∧ map (λ e, cj_command e.2) (map_to_list (cron_jobs (pgc s))) = [cron_command "c1" "crm" (JObject []) true].
Proof. split; vm_compute; reflexivity. Qed.
Definition due := sql_enqueue_cron "c1" "crm" (JObject []) true scheduled.
Lemma skipping_schedule_waits_witness :
  due.2 = Some 1%Z ∧ sql_enqueue_cron "c1" "crm" (JObject []) true due.1 = (due.1, None).
Proof.
  assert (due.2 = Some 1%Z) as Hd by (vm_compute; reflexivity). split; [exact Hd|].
  assert (∃ l, messages (jq (cjobs due.1)) !! 1%Z = Some l) as [l Hl] by (eexists; vm_compute; reflexivity).
  destruct due as [s1 r] eqn:He. cbn in Hd, Hl |- *. subst r.
  apply (skipping_schedule_waits scheduled s1 s1 "c1" "crm" [] 1 l He Hl); exists l; by split.
Defined.
End CronExamples.
