(* ===== verification/JobRoutes.v ===== *)
(** * Requests about schedules and jobs (core/src/routes/crons.rs, core/src/routes/jobs.rs)

    The gates in front of [Crons] and [Jobs], as programs of queries and transactions
    on the database. *)

From stdpp Require Import base numbers pretty gmap strings sets relations list.
From S2P Require Import Prelude Procs Str Ident Json Perms Roles Authority Delegation Gates DataTypes SqlScan Filters Records Workflow WorkflowExec WorkflowRun Jobs Crons.

Section Routes.
Context {Q C : Type} `{!Pgmq Q} `{!PgCron C} `{!Parsers}.
Notation CState := (CState Q C).
Notation Request A := (Proc CState (result ApiError A)).

Definition cgov (s : CState) : Gov := jgov (cjobs s).
Definition cpool (s : CState) : Pool := gpool (cgov s).
Definition set_cgov (g : Gov) (s : CState) : CState :=
  set_cjobs {| jgov := g; jq := jq (cjobs s); jdlq := jdlq (cjobs s); jwf := jwf (cjobs s); jdown := jdown (cjobs s) |} s.
(** An operation of [Crons] or [Jobs], its error as the API's. *)
Definition run_op {A : Type} (f : CState → CState * result RuntimeError A) : Request A :=
  atomic (λ s, let '(s', r) := f s in (s', map_err api_error_of r)).
(** [let _ = ...]: a statement whose failure is ignored. *)
Definition ignore {A : Type} (f : Gov → result RuntimeError A * Gov) : Request unit := atomic (λ s, (set_cgov (f (cgov s)).2 s, Ok tt)).

Definition cron_key (app action : string) : string := "app:" +:+ app +:+ ":cron." +:+ action.
Definition require_cron_perm (user : uuid) (app action : string) : Request (list string) :=
  query (λ s, let? '(_, perms) := resolve_permissions (cpool s) user in
              if has_permission perms (cron_key app action) then Ok perms else Err (Forbidden ("missing " +:+ cron_key app action))).
Definition require_owner (perms : list string) (app : string) (owner : option uuid) (caller : uuid) : result ApiError unit :=
  match owner with
  | Some o => if negb (bool_decide (o = caller)) && negb (has_permission perms (cron_key app "manage_others"))
              then Err (Forbidden "not the cron owner") else Ok tt
  | None => Ok tt
  end.
Definition text_field (v : JsonValue) (k : string) : option string := get v k ≫= as_str.

(** [SELECT id FROM rootcx_system.apps WHERE status != 'system'] *)
Definition readable_apps (perms : list string) (apps : list string) : list string := List.filter (λ a, has_permission perms (cron_key a "read")) apps.
Definition manages (perms : list string) (app : string) : bool := has_permission perms (cron_key app "manage_others").
Definition list_all_crons (caller : uuid) : Request (list (uuid * CronSchedule)) :=
  do perms <- query (λ s, result_map snd (resolve_permissions (cpool s) caller));
  do apps <- query (λ s, Ok (elements (capps s)));
  let readable := readable_apps perms apps in
  query (λ s, Ok (list_all (List.filter (manages perms) readable) (List.filter (λ a, negb (manages perms a)) readable) caller s)).
Definition list_crons_route (caller : uuid) (app : string) : Request (list (uuid * CronSchedule)) :=
  do _ <- pure (validate_app_id app);
  do perms <- require_cron_perm caller app "read";
  do rows <- query (λ s, Ok (list_crons app s));
  pure (Ok (if manages perms app then rows else List.filter (λ e, bool_decide (cr_owner e.2 = Some caller)) rows)).

(** [agent_user_id] is the principal of an app's agent; [fresh_cron] and [fresh_delegation]
    the identifiers Core and the database make. *)
Definition create_cron (agent_user_id : string → uuid) (fresh_cron fresh_delegation : uuid) (caller : uuid) (app : string) (body : JsonValue) : Request CronSchedule :=
  do _ <- pure (validate_app_id app);
  do _ <- require_cron_perm caller app "write";
  do name <- pure (ok_or (text_field body "name") (BadRequest "missing 'name'"));
  do schedule <- pure (ok_or (text_field body "schedule") (BadRequest "missing 'schedule'"));
  do owner <- query (λ s, resolve_owner parse_uuid (cgov s) caller (text_field body "runAs"));
  do row <- run_op (create fresh_cron app
    {| cc_name := name; cc_schedule := schedule; cc_timezone := text_field body "timezone"; cc_payload := default (JObject []) (get body "payload");
       cc_overlap := default "skip" (text_field body "overlapPolicy"); cc_owner := Some owner |});
  do _ <- ignore (Delegation.create fresh_delegation owner (agent_user_id app) "cron" (Some fresh_cron));
  pure (Ok row).
Definition with_owned {A : Type} (caller : uuid) (app id action : string) (k : uuid → Request A) : Request A :=
  do _ <- pure (validate_app_id app);
  do cron <- pure (parse_id id);
  do perms <- require_cron_perm caller app action;
  do existing <- query (λ s, map_err api_error_of (get_cron app cron s));
  do _ <- pure (require_owner perms app (cr_owner existing) caller);
  k cron.
Definition update_cron (caller : uuid) (app id : string) (body : JsonValue) : Request CronSchedule :=
  with_owned caller app id "write" (λ cron,
    run_op (update app cron (text_field body "schedule") (get body "payload") (text_field body "overlapPolicy") (get body "enabled" ≫= as_bool))).
Definition delete_cron (caller : uuid) (app id : string) : Request unit :=
  with_owned caller app id "write" (λ cron,
    do _ <- run_op (delete app cron);
    ignore (revoke_by_trigger "cron" cron)).
Definition trigger_cron (caller : uuid) (app id : string) : Request Z :=
  with_owned caller app id "trigger" (λ cron, run_op (trigger app cron)).
Definition on_jobs_of {A : Type} (f : JobsState Q → JobsState Q * result RuntimeError A) (s : CState) : CState * result RuntimeError A :=
  let '(j, r) := f (cjobs s) in (set_cjobs j s, r).
Definition enqueue_job (caller : uuid) (app : string) (body : JsonValue) : Request Z :=
  do _ <- query (λ s, require_perm (cpool s) caller (invoke_key app));
  do owner <- query (λ s, resolve_owner parse_uuid (cgov s) caller (text_field body "user_id"));
  run_op (on_jobs_of (enqueue app (default (JObject []) (get body "payload")) (Some owner))).

(** ** Who may do what *)

Context (env : CState → CState → Prop).
Notation runs := (runs env).
Definition holds (user : uuid) (key : string) (s : CState) : Prop := ∃ roles perms, resolve_permissions (cpool s) user = Ok (roles, perms) ∧ has_permission perms key = true.
Definition may_act_as (caller owner : uuid) (s : CState) : Prop := owner = caller ∨ assert_can_act_as (cgov s) caller owner = Ok tt.
(** [caller] holds the action's key for the app and is the owner, if the schedule has
    one, or manages those of others. *)
Definition may_touch (caller : uuid) (app : string) (cron : uuid) (action : string) (s0 : CState) : Prop :=
  ∃ y z r, rtc env s0 y ∧ rtc env y z ∧ holds caller (cron_key app action) y ∧ schedules z !! cron = Some r ∧ cr_app r = app
    ∧ (cr_owner r = None ∨ cr_owner r = Some caller ∨ holds caller (cron_key app "manage_others") y).
#[local] Ltac chain := first [assumption | etrans; [eassumption|]; chain].
Lemma runs_cron_perm user app action s s' perms :
  runs (require_cron_perm user app action) s s' (Ok perms) →
  ∃ y roles, rtc env s y ∧ rtc env y s' ∧ resolve_permissions (cpool y) user = Ok (roles, perms) ∧ has_permission perms (cron_key app action) = true.
Proof.
  intros (y & Hy & Hp & Hz)%runs_query. destruct (resolve_permissions _ _) as [[roles p]|e] eqn:Hr; [|done]. cbn in Hp.
  destruct (has_permission p _) eqn:Hh; [|done]. injection Hp as <-. by exists y, roles.
Qed.
Lemma runs_with_owned {A : Type} caller app id action (k : uuid → Request A) s s' a :
  runs (with_owned caller app id action k) s s' (Ok a) →
  ∃ cron x, parse_uuid id = Some cron ∧ may_touch caller app cron action s ∧ rtc env s x ∧ runs (k cron) x s' (Ok a).
Proof.
  unfold with_owned. intros ([] & x0 & Hv & Hr)%runs_bind. apply runs_pure in Hv as [_ H0].
  apply runs_bind in Hr as (cron & x1 & Hc & Hr). apply runs_pure in Hc as [Hc H1]. symmetry in Hc. apply ok_or_ok_iff in Hc.
  apply runs_bind in Hr as (perms & x2 & Hp & Hr). apply runs_cron_perm in Hp as (y & roles & Hy & Hy2 & Hperms & Hkey).
  apply runs_bind in Hr as (r & x3 & Hg & Hr). apply runs_query in Hg as (z & Hz & Hg & Hz3).
  destruct (get_cron app cron z) as [r0|e] eqn:Hget; [|done]. injection Hg as ->. apply get_cron_ok in Hget as [Hrow Happ].
  apply runs_bind in Hr as ([] & x4 & Ho & Hr). apply runs_pure in Ho as [Ho H4]. exists cron, x4. split_and!; [done| |chain|done].
  exists y, z, r. split_and!; [chain|by etrans|by exists roles, perms|done|done|].
  unfold require_owner in Ho. destruct (cr_owner r) as [o|]; [|by left]. right. destruct (bool_decide (o = caller)) eqn:Hb; [apply bool_decide_eq_true in Hb as ->; by left|].
  right. exists roles, perms. split; [done|]. cbn in Ho. by destruct (has_permission perms (cron_key app "manage_others")).
Qed.
Lemma resolve_owner_may caller o owner (s : CState) : resolve_owner parse_uuid (cgov s) caller o = Ok owner → may_act_as caller owner s.
Proof.
  unfold resolve_owner. destruct o as [x|]; [|intros [= ->]; by left]. destruct (parse_uuid x) as [t|]; [|done]. cbn.
  destruct (assert_can_act_as _ _ _) as [[]|] eqn:Ha; [|done]. cbn. intros [= <-]. by right.
Qed.
Lemma runs_op {A : Type} (f : CState → CState * result RuntimeError A) s s' a :
  runs (run_op f) s s' (Ok a) → ∃ x x', rtc env s x ∧ f x = (x', Ok a) ∧ rtc env x' s'.
Proof.
  intros (x & Hx & Hr & Hx')%runs_atomic. destruct (f x) as [x' [b|e]] eqn:Hf; cbn in *; [|done]. injection Hr as ->. by exists x, x'.
Qed.
Lemma create_owner id app c (s s' : CState) row : create id app c s = (s', Ok row) → cr_owner row = cc_owner c ∧ cr_app row = app.
Proof.
  unfold create, or_same, require_pg_cron. destruct (ensure (available s) _) as [[]|]; [|done]. cbn. destruct (validate_name _) as [[]|]; [|done].
  destruct (validate_schedule _) as [[]|]; [|done]. destruct (validate_overlap _) as [[]|]; [|done]. cbn. unfold create_tx.
  destruct (ensure _ CRON_DB) as [[]|]; [|done]. cbn. destruct (schedule_pg_cron _ _ _ _ _ _) as [[pg j]|]; [|done]. cbn. by intros [= _ <-].
Qed.

(** Only those who may, change or run schedules and jobs.  A request that changes,
    removes or runs a schedule succeeds only for a caller who held the app's key for it and
    who owns the schedule, manages those of others, or finds it without an owner; one that
    makes a schedule or a job, only for a caller with the app's write or invoke key, on
    behalf of themself or of a principal they may act as, who then owns it. *)
Theorem job_requests_are_authorised agent_user_id fresh_cron fresh_delegation caller app (s s' : CState) :
  (∀ id body row, runs (update_cron caller app id body) s s' (Ok row) → ∃ cron, parse_uuid id = Some cron ∧ may_touch caller app cron "write" s)
  ∧ (∀ id, runs (delete_cron caller app id) s s' (Ok tt) → ∃ cron, parse_uuid id = Some cron ∧ may_touch caller app cron "write" s)
  ∧ (∀ id msg, runs (trigger_cron caller app id) s s' (Ok msg) → ∃ cron, parse_uuid id = Some cron ∧ may_touch caller app cron "trigger" s)
  ∧ (∀ body row, runs (create_cron agent_user_id fresh_cron fresh_delegation caller app body) s s' (Ok row) →
       ∃ y z owner, rtc env s y ∧ rtc env y z ∧ holds caller (cron_key app "write") y ∧ may_act_as caller owner z ∧ cr_owner row = Some owner ∧ cr_app row = app)
  ∧ (∀ body msg, runs (enqueue_job caller app body) s s' (Ok msg) →
       ∃ y z owner x x', rtc env s y ∧ rtc env y z ∧ rtc env z x ∧ require_perm (cpool y) caller (invoke_key app) = Ok tt ∧ may_act_as caller owner z
         ∧ enqueue app (default (JObject []) (get body "payload")) (Some owner) (cjobs x) = (x', Ok msg)).
Proof.
  split_and!.
  - intros id body row (cron & x & Hc & Hm & _ & _)%runs_with_owned. by exists cron.
  - intros id (cron & x & Hc & Hm & _ & _)%runs_with_owned. by exists cron.
  - intros id msg (cron & x & Hc & Hm & _ & _)%runs_with_owned. by exists cron.
  - intros body row ([] & x0 & Hv & Hr)%runs_bind. apply runs_pure in Hv as [_ H0].
    apply runs_bind in Hr as (perms & x1 & Hp & Hr). apply runs_cron_perm in Hp as (y & roles & Hy & Hy2 & Hperms & Hkey).
    apply runs_bind in Hr as (name & x2 & Hn & Hr). apply runs_pure in Hn as [_ H2]. apply runs_bind in Hr as (sched & x3 & Hn & Hr). apply runs_pure in Hn as [_ H3].
    apply runs_bind in Hr as (owner & x4 & Ho & Hr). apply runs_query in Ho as (z & Hz & Ho & Hz4). apply resolve_owner_may in Ho.
    apply runs_bind in Hr as (row' & x5 & Hc & Hr). apply runs_op in Hc as (u & u' & _ & Hc & _). apply create_owner in Hc as [Hown Happ].
    apply runs_bind in Hr as ([] & x6 & _ & Hr). apply runs_pure in Hr as [Hrow _]. injection Hrow as ->.
    exists y, z, owner. split_and!; [chain|chain|by exists roles, perms|done|done|done].
  - intros body msg ([] & x0 & Hq & Hr)%runs_bind. apply runs_query in Hq as (y & Hy & Hperm & Hy0).
    apply runs_bind in Hr as (owner & x1 & Ho & Hr). apply runs_query in Ho as (z & Hz & Ho & Hz1). apply resolve_owner_may in Ho.
    apply runs_op in Hr as (x & x' & Hx & Hf & _). unfold on_jobs_of in Hf. destruct (enqueue _ _ _ _) as [j r] eqn:He. simplify_eq.
    exists y, z, owner, x, j. split_and!; [done|chain|chain|done|done|done].
Qed.

(** A listing shows exactly the schedules its reader may see: those of apps whose
    schedules the reader may read, and of these only the reader's own unless the reader
    manages those of others. *)
Theorem cron_lists_are_scoped caller (s s' : CState) rows id r :
  runs (list_all_crons caller) s s' (Ok rows) →
  ∃ y z x roles perms, resolve_permissions (cpool y) caller = Ok (roles, perms) ∧ rtc env s y ∧ rtc env y z ∧ rtc env z x
    ∧ ((id, r) ∈ rows ↔ available x = true ∧ schedules x !! id = Some r ∧ cr_app r ∈ capps z ∧ has_permission perms (cron_key (cr_app r) "read") = true
         ∧ (has_permission perms (cron_key (cr_app r) "manage_others") = true ∨ cr_owner r = Some caller)).
Proof.
  intros (perms & x0 & Hp & Hr)%runs_bind. apply runs_query in Hp as (y & Hy & Hp & Hy0). destruct (resolve_permissions _ _) as [[roles p]|e] eqn:Hperms; [|done].
  injection Hp as ->. apply runs_bind in Hr as (apps & x1 & Ha & Hr). apply runs_query in Ha as (z & Hz & Ha & Hz1). injection Ha as <-.
  apply runs_query in Hr as (x & Hx & Hl & _). injection Hl as <-. exists y, z, x, roles, perms. split_and!; [done|done|chain|chain|].
  set (full := List.filter (manages perms) _). set (own := List.filter (λ a, negb (manages perms a)) _).
  assert (∀ a, a ∈ full ↔ a ∈ capps z ∧ has_permission perms (cron_key a "read") = true ∧ manages perms a = true) as Hf.
  { intros a. unfold full, readable_apps. rewrite list_elem_of_In, !filter_In, <-list_elem_of_In, elem_of_elements. tauto. }
  assert (∀ a, a ∈ own ↔ a ∈ capps z ∧ has_permission perms (cron_key a "read") = true ∧ manages perms a = false) as Ho.
  { intros a. unfold own, readable_apps. rewrite list_elem_of_In, !filter_In, <-list_elem_of_In, elem_of_elements, negb_true_iff. tauto. }
  unfold list_all. destruct (available x); cbn [negb orb]; [|split; [by intros []%elem_of_nil|naive_solver]].
  assert ((id, r) ∈ List.filter (λ e, bool_decide (cr_app e.2 ∈ full ++ own) && (bool_decide (cr_app e.2 ∈ full) || bool_decide (cr_owner e.2 = Some caller))) (map_to_list (schedules x))
    ↔ schedules x !! id = Some r ∧ cr_app r ∈ full ++ own ∧ (cr_app r ∈ full ∨ cr_owner r = Some caller)) as Hin.
  { rewrite list_elem_of_In, filter_In, <-list_elem_of_In, elem_of_map_to_list. cbn. rewrite andb_true_iff, orb_true_iff, !bool_decide_eq_true. done. }
  rewrite elem_of_app, Hf, Ho in Hin. unfold manages in Hin.
  destruct (bool_decide (full = []) && bool_decide (own = [])) eqn:He.
  - apply andb_true_iff in He as [Hf0 Ho0]. apply bool_decide_eq_true in Hf0, Ho0. split; [by intros []%elem_of_nil|]. intros (_ & _ & Hc & Hk & _). exfalso.
    destruct (manages perms (cr_app r)) eqn:Hm.
    + assert (cr_app r ∈ full) as Hx' by (by apply Hf). rewrite Hf0 in Hx'. by apply elem_of_nil in Hx'.
    + assert (cr_app r ∈ own) as Hx' by (by apply Ho). rewrite Ho0 in Hx'. by apply elem_of_nil in Hx'.
  - rewrite Hin. destruct (has_permission perms (cron_key (cr_app r) "manage_others")); naive_solver.
Qed.
End Routes.

(** ** Examples *)

Module JobRouteExamples.
#[local] Existing Instance JobExamples.toy_pgmq.
#[local] Existing Instance RecordExamples.toy_parsers.
#[local] Existing Instance CronExamples.toy_pg_cron.
Notation State := (CState JobExamples.ToyQueue (gmap Z CronJob)).
Definition still : State → State → Prop := λ _ _, False.
Definition agent_of_app (app : string) : uuid := "agent:" +:+ app.
Definition is_done {A : Type} (o : option (State * result ApiError A)) : bool := match o with Some (_, Ok _) => true | _ => false end.
Definition removing := exec 20 (delete_cron "root" "crm" "c1") CronExamples.scheduled.
Lemma job_requests_are_authorised_witness : is_done removing = true ∧ ∃ cron, cron = "c1" ∧ may_touch still "root" "crm" cron "write" CronExamples.scheduled.
Proof.
  assert (is_done removing = true) as Hd by (vm_compute; reflexivity). split; [exact Hd|].
  destruct removing as [[s' [[]|e]]|] eqn:Hr; [|discriminate Hd|discriminate Hd].
  destruct (proj1 (proj2 (job_requests_are_authorised still agent_of_app "c9" "d9" "root" "crm" CronExamples.scheduled s')) "c1"
    (exec_runs still 20 (delete_cron "root" "crm" "c1") CronExamples.scheduled s' (Ok tt) Hr)) as (cron & Hc & Hm).
  exists cron. split; [injection Hc as <-; reflexivity|exact Hm].
Defined.
Definition listing := exec 20 (list_all_crons "root") CronExamples.scheduled.
Definition row : CronSchedule := created_row "crm" CronExamples.nightly (Some (fresh (dom (∅ : gmap Z CronJob)))).
Lemma cron_lists_are_scoped_witness :
  ∃ s', listing = Some (s', Ok [("c1", row)]) ∧ ∃ perms, has_permission perms (cron_key "crm" "read") = true.
Proof.
  assert (match listing with Some (_, Ok rows) => rows | _ => [] end = [("c1", row)]) as Hd by (vm_compute; reflexivity).
  destruct listing as [[s' [rows|e]]|] eqn:Hr; [|discriminate Hd|discriminate Hd]. subst rows. exists s'. split; [reflexivity|].
  destruct (cron_lists_are_scoped still "root" CronExamples.scheduled s' [("c1", row)] "c1" row
    (exec_runs still 20 (list_all_crons "root") CronExamples.scheduled s' _ Hr)) as (y & z & x & roles & perms & _ & _ & _ & _ & Hi).
  exists perms. exact (proj1 (proj2 (proj2 (proj2 (proj1 Hi (list_elem_of_here _ _)))))).
Defined.
End JobRouteExamples.
