(* ===== verification/Scheduler.v ===== *)
(** * The scheduler (core/src/scheduler.rs)

    What becomes of a message of the queue: which of the three kinds of run it starts,
    for whom and with which permissions, or how it is disposed of.  The handler of a
    message is a program of statements on the database; other handlers, requests and
    workers run in between.  The processes of workers and agents are outside: whether
    one takes a run is decided by the parameters [worker_takes] and [agent_takes], and
    the runner of workflows is the interface [WorkflowRunner], which WorkflowRun
    implements. *)

From Stdlib Require Import Sorting.Sorted.
From stdpp Require Import base numbers pretty gmap strings sets relations list.
From S2P Require Import Prelude Procs Str Ident Json Perms Roles Authority Delegation Gates DataTypes SqlScan Filters Records Workflow WorkflowExec WorkflowRun Jobs Crons.

(** ** Programs with early returns *)

Section Early.
Context {S A B : Type} (step : S → S → Prop).
Definition ask (f : S → A) (k : A → Proc S B) : Proc S B := Step (λ x, (x, k (f x))).
Definition act (f : S → S) (k : Proc S B) : Proc S B := Step (λ x, (f x, k)).
Lemma runs_ask f k x x' r : runs step (ask f k) x x' r → ∃ y, rtc step x y ∧ runs step (k (f y)) y x' r.
Proof. unfold ask. intros Hr. inversion Hr as [|g y x1 x2 p y' r' H1 H2 H3]; subst. injection H2 as -> <-. by exists x2. Qed.
Lemma runs_act f k x x' r : runs step (act f k) x x' r → ∃ y, rtc step x y ∧ runs step k (f y) x' r.
Proof. unfold act. intros Hr. inversion Hr as [|g y x1 x2 p y' r' H1 H2 H3]; subst. injection H2 as <- <-. by exists x1. Qed.
End Early.

(** ** The runner, as the scheduler sees it *)

Class WorkflowRunner := {
  run_workflow : uuid → uuid → list string → Z → WfDb → result string WorkflowExecutionStatus * WfDb;
  new_execution : uuid → uuid → string → uuid → option JsonValue → option Z → WfDb → result string uuid * WfDb;
  run_refuses : ∀ exec uid perms lease d,
    (∀ ex, executions d !! exec = Some ex → ¬ drives uid lease ex) → (run_workflow exec uid perms lease d).2 = d;
  run_releases : ∀ exec uid perms lease d st d', run_workflow exec uid perms lease d = (Ok st, d') →
    ∃ ex, executions d' !! exec = Some ex ∧ ex_status ex = st ∧ ex_lease ex = None;
  new_is_bound : ∀ fresh wf app uid data lease d exec d', new_execution fresh wf app uid data lease d = (Ok exec, d') →
    exec = fresh ∧ ∃ ex, executions d' !! exec = Some ex ∧ ex_app ex = app ∧ ex_user ex = uid ∧ ex_lease ex = lease ∧ ex_status ex = ExQueued }.

Record SchedState (Q : Type) := {
  sj : JobsState Q; scrons : gmap uuid CronSchedule; smanifests : gmap string JsonValue; sagents : gset string; sinflight : gset Z; sclosed : list uuid }.
Arguments sj {Q} _.
Arguments scrons {Q} _.
Arguments smanifests {Q} _.
Arguments sagents {Q} _.
Arguments sinflight {Q} _.
Arguments sclosed {Q} _.
Arguments Build_SchedState {Q} _ _ _ _ _ _.

(** What a message leads to: a run of an agent, of a workflow or of the app's worker;
    nothing, because it is settled; or nothing, because its run is under way. *)
Record AgentRun := { ar_app : string; ar_message : string; ar_invoker : option uuid; ar_scope : list string }.
Inductive Dispatched :=
| RunAgent (a : AgentRun)
| RunWorkflow (exec uid : uuid) (perms : list string)
| RunWorker (app : string) (payload : JsonValue) (caller : RpcCaller) (identity : ContextState) (cron : option string)
| Settled
| UnderWay.
Inductive AgentEvent := EvDoneAgent | EvErrorAgent | EvOther.

Section Scheduler.
Context {Q : Type} `{!Pgmq Q} `{!Parsers} `{!WorkflowRunner}.
Context (agent_user_id : string → uuid) (debug_error : ApiError → string).
(** The execution rows by creation, latest first; a process for a run; the next uuid. *)
Context (created_desc : list uuid → list uuid).
Context (worker_takes : string → RpcCaller → ContextState → option string → bool) (agent_takes : AgentRun → bool).
Context (fresh : uuid).
Notation SchedState := (SchedState Q).
Notation Program := (Proc SchedState Dispatched).

Definition set_sj (j : JobsState Q) (s : SchedState) : SchedState :=
  {| sj := j; scrons := scrons s; smanifests := smanifests s; sagents := sagents s; sinflight := sinflight s; sclosed := sclosed s |}.
Definition on_jobs (f : JobsState Q → JobsState Q) (s : SchedState) : SchedState := set_sj (f (sj s)) s.
Definition close_stream (exec : uuid) (s : SchedState) : SchedState :=
  {| sj := sj s; scrons := scrons s; smanifests := smanifests s; sagents := sagents s; sinflight := sinflight s; sclosed := sclosed s ++ [exec] |}.
Definition set_inflight (m : gset Z) (s : SchedState) : SchedState :=
  {| sj := sj s; scrons := scrons s; smanifests := smanifests s; sagents := sagents s; sinflight := m; sclosed := sclosed s |}.
Definition gov (s : SchedState) : Gov := jgov (sj s).
Definition spl (s : SchedState) : Pool := gpool (gov s).

(** [let _ = jobs::fail(..).await; return] *)
Definition drop_message (msg : Z) : Program := act (on_jobs (fail msg)) (Stop Settled).
Definition dead (msg : Z) (raw : JsonValue) (reason : string) : Program := act (on_jobs (dead_letter true msg raw reason)) (Stop Settled).

Definition dispatch_agent_job (msg : Z) (target_app message : string) (invoker : option uuid) : Program :=
  ask (λ s, assert_can_fire agent_user_id debug_error (gov s) invoker target_app) (λ r,
    match r with
    | Err _ => drop_message msg
    | Ok _ =>
        let run := {| ar_app := target_app; ar_message := message; ar_invoker := invoker; ar_scope := ["app:" +:+ target_app +:+ ":*"] |} in
        if agent_takes run then Stop (RunAgent run) else drop_message msg
    end).
(** The task that follows the agent's events. *)
Fixpoint agent_task (msg : Z) (events : list AgentEvent) : Program :=
  match events with
  | [] | EvErrorAgent :: _ => drop_message msg
  | EvDoneAgent :: _ => act (on_jobs (complete msg)) (Stop Settled)
  | EvOther :: events => agent_task msg events
  end.

Definition perms_or_fail (msg : Z) (uid : uuid) (otherwise : Program) (k : list string → Program) : Program :=
  ask (λ s, resolve_caller (spl s) uid) (λ caller,
    match caller with
    | None => act (on_jobs (fail msg)) otherwise
    | Some _ => ask (λ s, resolve_permissions (spl s) uid) (λ r,
        match r with
        | Ok (_, perms) => k perms
        | Err _ => act (on_jobs (fail msg)) otherwise
        end)
    end).

Definition terminal (st : WorkflowExecutionStatus) : bool := bool_decide (st ∈ [ExSucceeded; ExFailed; ExCanceled]).
Definition failed_row (reason : string) (e : WorkflowRun.Execution) : WorkflowRun.Execution :=
  {| ex_workflow := ex_workflow e; ex_app := ex_app e; ex_user := ex_user e; ex_trigger := ex_trigger e; ex_graph := ex_graph e; ex_lease := None;
     ex_status := ExFailed; ex_error := Some reason; ex_attempts := ex_attempts e |}.
Definition mark_failed (exec : uuid) (reason : string) (d : WfDb) : WfDb :=
  match executions d !! exec with
  | Some e => if terminal (ex_status e) then d else put_execution exec (failed_row reason e) d
  | None => d
  end.
Definition fail_execution (exec : uuid) (reason : string) (k : Program) : Program :=
  act (λ s, close_stream exec (if jdown (sj s) then s else on_jobs (λ j, set_jwf (mark_failed exec reason (jwf j)) j) s)) k.
Definition EXCEEDED : string := "exceeded max deliveries".
Definition dead_letter_workflow (msg : Z) (exec : option uuid) (raw : JsonValue) : Program :=
  let rest := dead msg raw EXCEEDED in
  match exec with Some id => fail_execution id EXCEEDED rest | None => rest end.

(** The insertion into the in-flight set is one step of a mutex; the run is a task of its own. *)
Definition spawn_workflow_run (msg : Z) (exec uid : uuid) (perms : list string) : Program :=
  Step (λ s, if bool_decide (msg ∈ sinflight s) then (s, Stop UnderWay)
             else (set_inflight ({[msg]} ∪ sinflight s) s, Stop (RunWorkflow exec uid perms))).
Definition run_step (exec uid : uuid) (perms : list string) (msg : Z) (s : SchedState) : SchedState * result string WorkflowExecutionStatus :=
  let '(r, d) := run_workflow exec uid perms msg (jwf (sj s)) in (on_jobs (set_jwf d) s, r).
(** The task: the run, then the message, then the mark (the guard's [Drop]). *)
Definition workflow_task (msg : Z) (exec uid : uuid) (perms : list string) : Program :=
  let leave := act (λ s, set_inflight (sinflight s ∖ {[msg]}) s) (Stop Settled) in
  Step (λ s, let '(s', r) := run_step exec uid perms msg s in
             (s', match r with Ok _ => act (on_jobs (complete msg)) leave | Err _ => leave end)).

Definition inflight_for_lease (msg : Z) (s : SchedState) : option uuid :=
  if jdown (sj s) then None
  else head (created_desc (map fst (List.filter (λ e, bool_decide (ex_lease e.2 = Some msg) && bool_decide (ex_status e.2 ∈ [ExQueued; ExRunning]))
                                      (map_to_list (executions (jwf (sj s))))))).
Definition workflow_app (wf : uuid) (s : SchedState) : option string :=
  if jdown (sj s) then None else wf_app <$> workflows (jwf (sj s)) !! wf.
Definition created (wf : uuid) (app : string) (uid : uuid) (data : JsonValue) (msg : Z) (s : SchedState) : SchedState * result string uuid :=
  let '(r, d) := new_execution fresh wf app uid (Some data) (Some msg) (jwf (sj s)) in (on_jobs (set_jwf d) s, r).

Definition dispatch_workflow_job (msg read_ct : Z) (workflow_id : string) (user : option uuid) (data : JsonValue) : Program :=
  match parse_uuid workflow_id with
  | None => drop_message msg
  | Some wf =>
      ask (workflow_app wf) (λ app,
        match app with
        | None => drop_message msg
        | Some app =>
            if (MAX_DELIVERIES <? read_ct)%Z
            then ask (inflight_for_lease msg) (λ exec,
                   dead_letter_workflow msg exec (JObject [("app_id", JString app); ("user_id", opt_string user); ("workflow_id", JString workflow_id)]))
            else ask (λ s, assert_can_fire_workflow debug_error (gov s) user app) (λ gate,
              match gate with
              | Err _ => drop_message msg
              | Ok uid => perms_or_fail msg uid (Stop Settled) (λ perms,
                  ask (inflight_for_lease msg) (λ inflight,
                    match inflight with
                    | Some exec => spawn_workflow_run msg exec uid perms
                    | None => Step (λ s, let '(s', r) := created wf app uid data msg s in
                        (s', match r with Ok exec => spawn_workflow_run msg exec uid perms | Err _ => drop_message msg end))
                    end))
              end)
        end)
  end.

Definition lease_bound (msg : Z) (exec : uuid) (user : option uuid) (app : string) (s : SchedState) : bool :=
  if jdown (sj s) then false
  else match executions (jwf (sj s)) !! exec with
       | Some e => bool_decide (ex_app e = app) && bool_decide (Some (ex_user e) = user) && bool_decide (ex_lease e = Some msg)
       | None => false
       end.
Definition dispatch_manual_workflow (msg read_ct : Z) (exec : uuid) (user : option uuid) (app : string) : Program :=
  ask (lease_bound msg exec user app) (λ b : bool,
    if negb b then dead msg (JObject [("app_id", JString app)]) "workflow execution binding denied"
    else if (MAX_DELIVERIES <? read_ct)%Z
    then dead_letter_workflow msg (Some exec) (JObject [("execution_id", JString exec); ("manual", JBool true)])
    else match user with
         | None => fail_execution exec "no responsible user" (drop_message msg)
         | Some uid => perms_or_fail msg uid (fail_execution exec "permission resolution failed" (Stop Settled))
                         (λ perms, spawn_workflow_run msg exec uid perms)
         end).

(** [SELECT c.name ...]: the schedule of the app, if the installed manifest isolates it. *)
Definition isolated (name : string) (d : JsonValue) : bool :=
  bool_decide (get d "name" ≫= as_str = Some name) && bool_decide (get d "isolatedScope" ≫= as_bool = Some true).
Definition isolated_cron (app : string) (cron : option uuid) (s : SchedState) : option string :=
  id ← cron;
  if jdown (sj s) then None
  else row ← scrons s !! id;
       manifest ← smanifests s !! app;
       let defs := default (JArray []) (get manifest "crons") in
       l ← as_array defs;
       if bool_decide (cr_app row = app) && existsb (isolated (cr_name row)) l then Some (cr_name row) else None.

(** The identity of an app's job.  What the queue holds narrows what the owner holds now. *)
Definition with_authority (caller : RpcCaller) (a : JobAuthority) (perms : list string) (i : ContextState) : RpcCaller * ContextState :=
  ({| rc_user_id := rc_user_id caller; rc_email := rc_email caller; rc_effective_perms := if ja_is_delegated a then Some perms else None;
      rc_connection_id := ja_connection a |},
   {| cx_user_id := cx_user_id i; cx_is_delegated := ja_is_delegated a; cx_effective_perms := perms; cx_connection_id := ja_connection a;
      audit_actor_id := ja_audit_actor a; audit_delegator_id := ja_audit_delegator a; public_execution := public_execution i;
      approved_action := approved_action i |}).
Definition job_identity (msg : Z) (uid : uuid) (caller : RpcCaller) (authority : option JobAuthority) (k : RpcCaller → ContextState → Program) : Program :=
  let identity := from_caller parse_uuid (Some caller) in
  match authority with
  | None => k caller identity
  | Some a =>
      ask (λ s, resolve_permissions (spl s) uid) (λ r,
        match r with
        | Err _ => drop_message msg
        | Ok (_, current) =>
            let narrowed := intersect_permissions (ja_effective_perms a) current in
            let go perms := let '(c, i) := with_authority caller a perms identity in k c i in
            match ja_principal a with
            | None => go narrowed
            | Some actor =>
                ask (λ s, resolve_caller (spl s) actor) (λ found,
                  match found with
                  | None => drop_message msg
                  | Some _ =>
                      ask (λ s, negb (ja_requires_delegation a) || match is_valid (gov s) uid actor with Ok b => b | Err _ => false end) (λ ok : bool,
                        if ok then ask (λ s, delegated_effective (spl s) actor (Some uid) (Some narrowed)) go else drop_message msg)
                  end)
            end
        end)
  end.
Definition dispatch_worker_job (msg read_ct : Z) (m : JobMessage) : Program :=
  if delivery_exhausted read_ct then dead msg (message_json m) ("exceeded " +:+ pretty MAX_DELIVERIES +:+ " deliveries")
  else match jm_user m with
       | None => drop_message msg
       | Some uid =>
           ask (isolated_cron (jm_app m) (jm_cron m)) (λ cron,
             ask (λ s, resolve_caller (spl s) uid) (λ caller,
               match caller with
               | None => drop_message msg
               | Some caller => job_identity msg uid caller (jm_authority m) (λ caller identity,
                   if worker_takes (jm_app m) caller identity cron
                   then Stop (RunWorker (jm_app m) (jm_payload m) caller identity cron) else drop_message msg)
               end))
       end.

Definition text_at (v : JsonValue) (k : string) : option string := get v k ≫= as_str.
Definition event_message (payload : JsonValue) : string :=
  "Entity event: " +:+ default "unknown" (text_at payload "operation") +:+ " on " +:+ default "unknown" (text_at payload "entity")
  +:+ String "010" (String "010" ("Record:" +:+ String "010" (show_json (default JNull (get payload "record"))))).
Definition or_null (v : JsonValue) (k : string) : JsonValue := default JNull (get v k).
Definition trigger_data (payload : JsonValue) : JsonValue :=
  JObject [("entity", or_null payload "entity"); ("old_record", or_null payload "old_record"); ("operation", or_null payload "operation");
           ("record", or_null payload "record")].
Definition config_text (payload : JsonValue) (k : string) : option string := get payload "action_config" ≫= λ c, text_at c k.

Definition handle (msg read_ct : Z) (m : JobMessage) : Program :=
  let action := text_at (jm_payload m) "action_type" in
  match jm_kind m with
  | None => dead msg (message_json m) "legacy job has no trusted provenance; re-enqueue through Core"
  | Some KWorkflowManual =>
      match text_at (jm_payload m) "execution_id" ≫= parse_uuid with
      | Some exec => dispatch_manual_workflow msg read_ct exec (jm_user m) (jm_app m)
      | None => drop_message msg
      end
  | Some KHook =>
      if bool_decide (action = Some "agent")
      then dispatch_agent_job msg (default (jm_app m) (config_text (jm_payload m) "app_id")) (event_message (jm_payload m)) (jm_user m)
      else if bool_decide (action = Some "workflow")
      then dispatch_workflow_job msg read_ct (default EmptyString (config_text (jm_payload m) "workflow_id")) (jm_user m) (trigger_data (jm_payload m))
      else dispatch_worker_job msg read_ct m
  | Some KCron =>
      match text_at (jm_payload m) "workflow_id" with
      | Some wf => dispatch_workflow_job msg read_ct wf (jm_user m) (JObject [("trigger", JString "schedule")])
      | None => ask (λ s, negb (jdown (sj s)) && bool_decide (jm_app m ∈ sagents s)) (λ agent : bool,
          if agent then dispatch_agent_job msg (jm_app m) (default "Scheduled invocation" (text_at (jm_payload m) "message")) (jm_user m)
          else dispatch_worker_job msg read_ct m)
      end
  | Some KApp => dispatch_worker_job msg read_ct m
  end.
End Scheduler.

(** ** What a run may do *)

Section Authority.
Context {Q : Type} `{!Pgmq Q} `{!Parsers} `{!WorkflowRunner}.
Context (agent_user_id : string → uuid) (debug_error : ApiError → string) (created_desc : list uuid → list uuid).
Context (worker_takes : string → RpcCaller → ContextState → option string → bool) (agent_takes : AgentRun → bool) (fresh : uuid).
(** Whatever else happens to the database. *)
Context (env : SchedState Q → SchedState Q → Prop).
Notation runs := (runs env).
Notation handle := (handle agent_user_id debug_error created_desc worker_takes agent_takes fresh).

(** At some moment since [s]. *)
Definition once (s : SchedState Q) (P : SchedState Q → Prop) : Prop := ∃ y, rtc env s y ∧ P y.
Lemma once_later s y P : rtc env s y → once y P → once s P.
Proof. intros H1 (z & H2 & H3). exists z. split; [by etrans|done]. Qed.

Definition job_authority (uid : uuid) (identity : ContextState) (a : JobAuthority) (s : SchedState Q) : Prop :=
  cx_is_delegated identity = ja_is_delegated a ∧ audit_actor_id identity = ja_audit_actor a ∧ audit_delegator_id identity = ja_audit_delegator a
  ∧ cx_connection_id identity = ja_connection a
  ∧ (∀ r, Allows (cx_effective_perms identity) r → Allows (ja_effective_perms a) r)
  ∧ once s (λ y, ∀ r, Allows (cx_effective_perms identity) r → Allows (perms_or_none (spl y) uid) r)
  ∧ ∀ actor, ja_principal a = Some actor →
      once s (λ y, is_Some (resolve_caller (spl y) actor))
      ∧ (ja_requires_delegation a = true → once s (λ y, is_valid (gov y) uid actor = Ok true))
      ∧ once s (λ y, ∀ r, Allows (cx_effective_perms identity) r → Allows (perms_or_none (spl y) actor) r).
Definition within (msg ct : Z) (m : JobMessage) (s : SchedState Q) (d : Dispatched) : Prop :=
  match d with
  | RunAgent a =>
      (jm_kind m = Some KHook ∨ jm_kind m = Some KCron) ∧ ar_invoker a = jm_user m ∧ ar_scope a = ["app:" +:+ ar_app a +:+ ":*"]
      ∧ once s (λ y, is_ok (assert_can_fire agent_user_id debug_error (gov y) (jm_user m) (ar_app a)) = true)
  | RunWorkflow exec uid perms =>
      jm_user m = Some uid ∧ (ct ≤ MAX_DELIVERIES)%Z ∧ once s (λ y, is_Some (resolve_caller (spl y) uid))
      ∧ once s (λ y, ∃ roles, resolve_permissions (spl y) uid = Ok (roles, perms))
      ∧ match jm_kind m with
        | Some KWorkflowManual => once s (λ y, lease_bound msg exec (Some uid) (jm_app m) y = true)
        | Some KHook | Some KCron => ∃ wf app, once s (λ y, workflow_app wf y = Some app) ∧ once s (λ y, assert_can_fire_workflow debug_error (gov y) (Some uid) app = Ok uid)
        | _ => False
        end
  | RunWorker app payload caller identity cron =>
      app = jm_app m ∧ payload = jm_payload m ∧ (ct ≤ MAX_DELIVERIES)%Z
      ∧ (∃ uid, jm_user m = Some uid ∧ rc_user_id caller = uid ∧ cx_user_id identity = parse_uuid uid ∧ once s (λ y, is_Some (resolve_caller (spl y) uid))
         ∧ match jm_authority m with
           | None => cx_is_delegated identity = false ∧ rc_effective_perms caller = None
           | Some a => job_authority uid identity a s
           end)
      ∧ ∀ name, cron = Some name → once s (λ y, isolated_cron (jm_app m) (jm_cron m) y = Some name)
  | Settled | UnderWay => True
  end.

Lemma resolve_caller_user pool u c : resolve_caller pool u = Some c → rc_user_id c = u ∧ rc_effective_perms c = None.
Proof.
  unfold resolve_caller, resolve_caller_inheriting. destruct (fault pool Users), (fault pool PublicPrincipals); try done.
  destruct (users (db pool) !! u) as [x|]; [|done]. destruct (disabled x); [done|]. case_decide; [done|]. by intros [= <-].
Qed.
Lemma fire_workflow_owner g owner app uid : assert_can_fire_workflow debug_error g owner app = Ok uid → owner = Some uid.
Proof.
  unfold assert_can_fire_workflow. destruct owner as [u|]; [|done]. cbn. destruct (ensure _ _); [|done]. cbn. destruct (map_err _ _); [|done]. cbn.
  destruct (ensure _ _); [|done]. cbn. by intros [= ->].
Qed.
Lemma runs_stop_inv (d d' : Dispatched) (s s' : SchedState Q) : runs (Stop d) s s' d' → d' = d.
Proof. intros Hr. by inversion Hr. Qed.
Lemma runs_drop msg (s s' : SchedState Q) d : runs (drop_message msg) s s' d → d = Settled.
Proof. unfold drop_message. intros (y & _ & Hr)%runs_act. by apply runs_stop_inv in Hr. Qed.
Lemma runs_dead msg raw reason (s s' : SchedState Q) d : runs (dead msg raw reason) s s' d → d = Settled.
Proof. unfold dead. intros (y & _ & Hr)%runs_act. by apply runs_stop_inv in Hr. Qed.
Lemma runs_dead_workflow msg exec raw (s s' : SchedState Q) d : runs (dead_letter_workflow msg exec raw) s s' d → d = Settled.
Proof. unfold dead_letter_workflow, fail_execution. destruct exec; [intros (y & _ & Hr)%runs_act|intros Hr]; by apply runs_dead in Hr. Qed.
Lemma runs_spawn msg exec uid perms (s s' : SchedState Q) d : runs (spawn_workflow_run msg exec uid perms) s s' d → d = UnderWay ∨ d = RunWorkflow exec uid perms.
Proof.
  unfold spawn_workflow_run. intros Hr. inversion Hr as [|g y x1 x2 p y' r' H1 H2 H3]; subst. destruct (bool_decide _); injection H2 as <- <-; apply runs_stop_inv in H3; auto.
Qed.
Lemma runs_perms msg uid otherwise k (s s' : SchedState Q) d :
  runs (perms_or_fail msg uid otherwise k) s s' d →
  (∃ y, runs otherwise y s' d)
  ∨ ∃ perms y, rtc env s y ∧ runs (k perms) y s' d ∧ once s (λ y, is_Some (resolve_caller (spl y) uid)) ∧ once s (λ y, ∃ roles, resolve_permissions (spl y) uid = Ok (roles, perms)).
Proof.
  unfold perms_or_fail. intros (y & Hy & Hr)%runs_ask. destruct (resolve_caller (spl y) uid) as [c|] eqn:Hc.
  - apply runs_ask in Hr as (z & Hz & Hr). destruct (resolve_permissions (spl z) uid) as [[roles perms]|e] eqn:Hp.
    + right. exists perms, z. split_and!; [by etrans|done|exists y; split; [done|by eexists]|exists z; split; [by etrans|by eexists]].
    + apply runs_act in Hr as (w & _ & Hr). left. by eexists.
  - apply runs_act in Hr as (w & _ & Hr). left. by eexists.
Qed.
Lemma agent_within msg ct target text m (s s' : SchedState Q) d :
  jm_kind m = Some KHook ∨ jm_kind m = Some KCron →
  runs (dispatch_agent_job agent_user_id debug_error agent_takes msg target text (jm_user m)) s s' d → within msg ct m s d.
Proof.
  intros Hk (y & Hy & Hr)%runs_ask. destruct (assert_can_fire _ _ _ _ _) as [u|e] eqn:Hf; [|by apply runs_drop in Hr as ->].
  cbv zeta in Hr. destruct (agent_takes _); [|by apply runs_drop in Hr as ->]. apply runs_stop_inv in Hr as ->. cbn.
  split_and!; [done|done|done|]. exists y. by rewrite Hf.
Qed.
Lemma workflow_within msg ct wf data m (s s' : SchedState Q) d :
  jm_kind m = Some KHook ∨ jm_kind m = Some KCron →
  runs (dispatch_workflow_job debug_error created_desc fresh msg ct wf (jm_user m) data) s s' d → within msg ct m s d.
Proof.
  intros Hk Hr. unfold dispatch_workflow_job in Hr. destruct (parse_uuid wf) as [w|]; [|by apply runs_drop in Hr as ->].
  apply runs_ask in Hr as (y & Hy & Hr). destruct (workflow_app w y) as [app|] eqn:Happ; [|by apply runs_drop in Hr as ->].
  destruct (MAX_DELIVERIES <? ct)%Z eqn:Hct; [apply runs_ask in Hr as (y1 & _ & Hr); by apply runs_dead_workflow in Hr as ->|].
  apply Z.ltb_ge in Hct. apply runs_ask in Hr as (y1 & Hy1 & Hr). destruct (assert_can_fire_workflow _ _ _ _) as [uid|e] eqn:Hf; [|by apply runs_drop in Hr as ->].
  pose proof (fire_workflow_owner _ _ _ _ Hf) as Hown. rewrite Hown in Hf.
  apply runs_perms in Hr as [[y2 Hr]|(perms & y2 & Hy2 & Hr & Hcaller & Hperms)]; [by apply runs_stop_inv in Hr as ->|].
  assert (rtc env s y1) as Hs1 by (by etrans).
  assert (within msg ct m s (RunWorkflow fresh uid perms) ∧ ∀ exec, within msg ct m s (RunWorkflow exec uid perms)) as [_ Hin].
  { assert (∀ exec, within msg ct m s (RunWorkflow exec uid perms)) as Hw; [|by split]. intros exec. cbn. split_and!; [done|lia|eauto using once_later|eauto using once_later|].
    destruct Hk as [-> | ->]; exists w, app; (split; [by exists y|by exists y1]). }
  apply runs_ask in Hr as (y3 & _ & Hr). destruct (inflight_for_lease _ msg y3) as [exec|].
  - apply runs_spawn in Hr as [-> | ->]; [done|apply Hin].
  - inversion Hr as [|g z x1 x2 p z' r' H1 H2 H3]; subst. destruct (created _ _ _ _ _ _ x1) as [s2 [exec|e]]; injection H2 as <- <-;
      [apply runs_spawn in H3 as [-> | ->]; [done|apply Hin]|by apply runs_drop in H3 as ->].
Qed.
Lemma manual_within msg ct exec m (s s' : SchedState Q) d :
  jm_kind m = Some KWorkflowManual → runs (dispatch_manual_workflow msg ct exec (jm_user m) (jm_app m)) s s' d → within msg ct m s d.
Proof.
  intros Hk (y & Hy & Hr)%runs_ask. destruct (lease_bound _ _ _ _ y) eqn:Hb; cbn [negb] in Hr; [|by apply runs_dead in Hr as ->].
  destruct (MAX_DELIVERIES <? ct)%Z eqn:Hct; [by apply runs_dead_workflow in Hr as ->|]. apply Z.ltb_ge in Hct.
  destruct (jm_user m) as [uid|] eqn:Hu; [|apply runs_act in Hr as (y1 & _ & Hr); by apply runs_drop in Hr as ->].
  apply runs_perms in Hr as [[y2 Hr]|(perms & y2 & Hy2 & Hr & Hcaller & Hperms)]; [apply runs_act in Hr as (y3 & _ & Hr); by apply runs_stop_inv in Hr as ->|].
  apply runs_spawn in Hr as [-> | ->]; [done|]. cbn. rewrite Hk. split_and!; [done|lia|eauto using once_later|eauto using once_later|by exists y].
Qed.
Lemma identity_within msg uid c0 authority k (s s' : SchedState Q) d :
  rc_user_id c0 = uid → rc_effective_perms c0 = None →
  runs (job_identity msg uid c0 authority k) s s' d →
  d = Settled ∨ ∃ caller identity y, rtc env s y ∧ runs (k caller identity) y s' d ∧ rc_user_id caller = uid ∧ cx_user_id identity = parse_uuid uid
    ∧ match authority with None => cx_is_delegated identity = false ∧ rc_effective_perms caller = None | Some a => job_authority uid identity a s end.
Proof.
  intros Hu Hn Hr. unfold job_identity in Hr. destruct authority as [a|].
  2:{ right. exists c0, (from_caller parse_uuid (Some c0)), s. split_and!; [reflexivity|exact Hr|done|cbn; by rewrite Hu|cbn; by rewrite Hn|done]. }
  apply runs_ask in Hr as (y & Hy & Hr). destruct (resolve_permissions (spl y) uid) as [[roles current]|e] eqn:Hp; [|left; by apply runs_drop in Hr].
  assert (perms_or_none (spl y) uid = current) as Hcur by (unfold perms_or_none; by rewrite Hp).
  destruct (ja_principal a) as [actor|] eqn:Hact.
  - apply runs_ask in Hr as (y1 & Hy1 & Hr). destruct (resolve_caller (spl y1) actor) as [ac|] eqn:Hac; [|left; by apply runs_drop in Hr].
    apply runs_ask in Hr as (y2 & Hy2 & Hr). destruct (negb _ || _) eqn:Hv; [|left; by apply runs_drop in Hr].
    apply runs_ask in Hr as (y3 & Hy3 & Hr). right. cbv zeta in Hr. cbn [with_authority] in Hr.
    set (narrowed := intersect_permissions _ _) in *. set (perms := delegated_effective _ _ _ _) in *.
    assert (∀ r, Allows perms r → Allows (perms_or_none (spl y3) actor) r ∧ Allows narrowed r) as Hnar.
    { intros r Hr'. apply intersect_allows in Hr'. done. }
    assert (∀ r, Allows narrowed r → Allows (ja_effective_perms a) r ∧ Allows current r) as Hnar2 by (intros r; apply intersect_allows).
    assert (rtc env s y1) by (by etrans). assert (rtc env s y2) by (by etrans). assert (rtc env s y3) by (by etrans).
    eexists _, _, y3. split_and!; [done|exact Hr|done|cbn; by rewrite Hu|].
    unfold job_authority. cbn. split_and!; [done|done|done|done| | |].
    + intros r Ha. by apply Hnar in Ha as [_ [? _]%Hnar2].
    + exists y. split; [done|]. intros r Ha. rewrite Hcur. by apply Hnar in Ha as [_ [_ ?]%Hnar2].
    + intros actor' Ha'. rewrite Hact in Ha'. injection Ha' as <-. split_and!; [exists y1; split; [done|by eexists]| |exists y3; split; [done|intros r Ha; by apply Hnar in Ha as [? _]]].
      intros Hreq. rewrite Hreq in Hv. cbn in Hv. exists y2. split; [done|]. destruct (is_valid _ _ _) as [b|]; [by subst|done].
  - right. cbv zeta in Hr. cbn [with_authority] in Hr. set (narrowed := intersect_permissions _ _) in *.
    assert (∀ r, Allows narrowed r → Allows (ja_effective_perms a) r ∧ Allows current r) as Hnar2 by (intros r; apply intersect_allows).
    eexists _, _, y. split_and!; [done|exact Hr|done|cbn; by rewrite Hu|]. unfold job_authority. cbn. split_and!; [done|done|done|done| | |congruence].
    + intros r Ha. by apply Hnar2 in Ha as [? _].
    + exists y. split; [done|]. intros r Ha. rewrite Hcur. by apply Hnar2 in Ha as [_ ?].
Qed.
Lemma authority_later uid identity a (s y : SchedState Q) : rtc env s y → job_authority uid identity a y → job_authority uid identity a s.
Proof.
  intros Hs (H1 & H2 & H3 & H4 & H5 & H6 & H7). unfold job_authority. split_and!; try done; [eauto using once_later|].
  intros actor Ha. destruct (H7 _ Ha) as (A1 & A2 & A3). split_and!; [eauto using once_later|intros Hq; eapply once_later; [done|by apply A2]|eauto using once_later].
Qed.
Lemma worker_within msg ct m (s s' : SchedState Q) d :
  runs (dispatch_worker_job worker_takes msg ct m) s s' d → within msg ct m s d.
Proof.
  unfold dispatch_worker_job. intros Hr. destruct (delivery_exhausted ct) eqn:Hct; [by apply runs_dead in Hr as ->|].
  unfold delivery_exhausted in Hct. apply Z.ltb_ge in Hct.
  destruct (jm_user m) as [uid|] eqn:Hu; [|by apply runs_drop in Hr as ->].
  apply runs_ask in Hr as (y & Hy & Hr). apply runs_ask in Hr as (y1 & Hy1 & Hr). assert (rtc env s y1) as Hs1 by (by etrans).
  destruct (resolve_caller (spl y1) uid) as [c0|] eqn:Hc; [|by apply runs_drop in Hr as ->].
  destruct (resolve_caller_user _ _ _ Hc) as [Hcu Hcn].
  apply identity_within in Hr as [->|(caller & identity & y2 & Hy2 & Hr & Hu1 & Hu2 & Hau)]; [done| |done|done].
  destruct (worker_takes _ _ _ _); [|by apply runs_drop in Hr as ->]. apply runs_stop_inv in Hr as ->. cbn. split_and!; [done|done|lia| |].
  - exists uid. split_and!; [done|done|done|exists y1; split; [done|by eexists]|]. destruct (jm_authority m); [eauto using authority_later|done].
  - intros name Hn. by exists y.
Qed.
Lemma handle_within msg ct m (s s' : SchedState Q) d : runs (handle msg ct m) s s' d → within msg ct m s d.
Proof.
  unfold Scheduler.handle. intros Hr. destruct (jm_kind m) as [[]|] eqn:Hk.
  - by eapply worker_within.
  - destruct (text_at (jm_payload m) "workflow_id") as [wf|]; [eapply workflow_within; [by right|done]|].
    apply runs_ask in Hr as (y & Hy & Hr). assert (∀ d, within msg ct m y d → within msg ct m s d) as Hl.
    { intros d' Hd. destruct d' as [a|exec uid perms|app payload caller identity cron| |]; cbn in *; try done.
      - destruct Hd as (? & ? & ? & ?). split_and!; try done. eauto using once_later.
      - destruct Hd as (? & ? & ? & ? & Hm). split_and!; try done; try eauto using once_later. rewrite Hk in *. destruct Hm as (wf & app & ? & ?). exists wf, app. split; eauto using once_later.
      - destruct Hd as (? & ? & ? & (uid & ? & ? & ? & ? & Ha) & Hc). split_and!; try done; [|intros name Hn; eapply once_later; [done|by apply Hc]].
        exists uid. split_and!; try done; [eauto using once_later|]. destruct (jm_authority m); [eauto using authority_later|done]. }
    apply Hl. destruct (_ && _); [eapply agent_within; [by right|done]|by eapply worker_within].
  - destruct (bool_decide _); [eapply agent_within; [by left|done]|]. destruct (bool_decide _); [eapply workflow_within; [by left|done]|by eapply worker_within].
  - destruct (_ ≫= _) as [exec|]; [by eapply manual_within|by apply runs_drop in Hr as ->].
  - by apply runs_dead in Hr as ->.
Qed.
End Authority.

(** ** A message that is settled is gone *)

Section Settling.
Context {Q : Type} `{!Pgmq Q} `{!Parsers} `{!WorkflowRunner}.
Context (agent_user_id : string → uuid) (debug_error : ApiError → string) (created_desc : list uuid → list uuid).
Context (worker_takes : string → RpcCaller → ContextState → option string → bool) (agent_takes : AgentRun → bool) (fresh : uuid).
Context (env : SchedState Q → SchedState Q → Prop) (msg : Z).
Notation runs := (runs env).
Notation handle := (handle agent_user_id debug_error created_desc worker_takes agent_takes fresh).

(** The database answers, and the message has been sent; and it is on the queue no more. *)
Definition known (s : SchedState Q) : Prop := jdown (sj s) = false ∧ (msg < next_id (jq (sj s)))%Z.
Definition gone (s : SchedState Q) : Prop := known s ∧ messages (jq (sj s)) !! msg = None.
(** Nothing else stops the database or sends a message again under an old identifier. *)
Hypothesis env_known : ∀ s s', env s s' → known s → known s'.
Hypothesis env_gone : ∀ s s', env s s' → gone s → gone s'.

Definition settles (p : Proc (SchedState Q) Dispatched) : Prop := ∀ s s', known s → runs p s s' Settled → gone s'.
Definition stays_gone (p : Proc (SchedState Q) Dispatched) : Prop := ∀ s s' d, gone s → runs p s s' d → gone s'.

Lemma rtc_known s s' : rtc env s s' → known s → known s'.
Proof using env_known. induction 1; eauto. Qed.
Lemma rtc_gone s s' : rtc env s s' → gone s → gone s'.
Proof using env_gone. induction 1; eauto. Qed.
Lemma fail_gone s : known s → gone (on_jobs (fail msg) s).
Proof.
  intros [Hd Hn]. unfold gone, known, on_jobs, fail. cbn. rewrite Hd. cbn. destruct (delete_spec msg (jq (sj s))) as [-> ->]. by rewrite lookup_delete_eq.
Qed.
Lemma dead_gone raw reason s : known s → gone (on_jobs (dead_letter true msg raw reason) s).
Proof.
  intros [Hd Hn]. unfold gone, known, on_jobs, dead_letter. cbn. rewrite Hd. cbn. destruct (archive_spec msg (jq (sj s))) as [-> ->]. by rewrite lookup_delete_eq.
Qed.
Lemma complete_gone s : known s → gone (on_jobs (complete msg) s).
Proof.
  intros [Hd Hn]. unfold gone, known, on_jobs, complete. cbn. rewrite Hd. cbn. destruct (archive_spec msg (jq (sj s))) as [-> ->]. by rewrite lookup_delete_eq.
Qed.
Lemma stop_stays d : stays_gone (Stop d).
Proof using env_gone. intros s s' d' Hg Hr. inversion Hr; subst. by eapply rtc_gone. Qed.
Lemma act_settles f p : (∀ s, known s → gone (f s)) → stays_gone p → settles (act f p).
Proof using env_known. intros Hf Hp s s' Hk (y & Hy & Hr)%runs_act. eapply Hp; [|done]. apply Hf. by eapply rtc_known. Qed.
Lemma act_stays f p : (∀ s, gone s → gone (f s)) → stays_gone p → stays_gone (act f p).
Proof using env_gone. intros Hf Hp s s' d Hk (y & Hy & Hr)%runs_act. eapply Hp; [|done]. apply Hf. by eapply rtc_gone. Qed.
Lemma act_then f p : (∀ s, known s → known (f s)) → settles p → settles (act f p).
Proof using env_known. intros Hf Hp s s' Hk (y & Hy & Hr)%runs_act. eapply Hp; [|done]. apply Hf. by eapply rtc_known. Qed.
Lemma ask_settles {A : Type} (f : SchedState Q → A) k : (∀ a, settles (k a)) → settles (ask f k).
Proof using env_known. intros Hk s s' Hs (y & Hy & Hr)%runs_ask. eapply Hk; [by eapply rtc_known|done]. Qed.
Lemma stop_settles d : d ≠ Settled → settles (Stop d).
Proof. intros Hd s s' Hs Hr. by inversion Hr; subst. Qed.
Lemma step_settles f : (∀ s, known s → known (f s).1 ∧ settles (f s).2) → settles (Step f).
Proof using env_known.
  intros Hf s s' Hs Hr. inversion Hr as [|g y x1 x2 p y' r' H1 H2 H3]; subst. destruct (Hf x1) as [Hk Hp]; [by eapply rtc_known|].
  rewrite H2 in Hk, Hp. by eapply Hp.
Qed.
Lemma drop_settles : settles (drop_message msg).
Proof using env_known env_gone. apply act_settles; [apply fail_gone|apply stop_stays]. Qed.
Lemma dead_settles raw reason : settles (dead msg raw reason).
Proof using env_known env_gone. apply act_settles; [apply dead_gone|apply stop_stays]. Qed.
Lemma fail_execution_then exec reason p : settles p → settles (fail_execution exec reason p).
Proof using env_known. apply act_then. intros s [Hd Hn]. unfold known. rewrite Hd. by split. Qed.
Lemma fail_execution_stays exec reason p : stays_gone p → stays_gone (fail_execution exec reason p).
Proof using env_gone. apply act_stays. intros s [[Hd Hn] Hg]. unfold gone, known. rewrite Hd. done. Qed.
#[local] Hint Resolve drop_settles dead_settles ask_settles stop_settles fail_execution_then : settling.

Lemma spawn_settles exec uid perms : settles (spawn_workflow_run msg exec uid perms).
Proof using env_known. apply step_settles. intros s Hs. destruct (bool_decide _); cbn; (split; [done|by apply stop_settles]). Qed.
Lemma perms_settles uid otherwise k : stays_gone otherwise → (∀ perms, settles (k perms)) → settles (perms_or_fail msg uid otherwise k).
Proof using env_known env_gone.
  intros Ho Hk. apply ask_settles. intros [c|]; [|apply act_settles; [apply fail_gone|done]].
  apply ask_settles. intros [[roles perms]|e]; [done|apply act_settles; [apply fail_gone|done]].
Qed.
Lemma dead_workflow_settles exec raw : settles (dead_letter_workflow msg exec raw).
Proof using env_known env_gone. unfold dead_letter_workflow. destruct exec; auto with settling. Qed.
Lemma agent_job_settles target text user : settles (dispatch_agent_job agent_user_id debug_error agent_takes msg target text user).
Proof using env_known env_gone.
  apply ask_settles. intros [u|e]; [|auto with settling]. cbv zeta. destruct (agent_takes _); [by apply stop_settles|auto with settling].
Qed.
Lemma workflow_job_settles ct wf user data : settles (dispatch_workflow_job debug_error created_desc fresh msg ct wf user data).
Proof using env_known env_gone.
  unfold dispatch_workflow_job. destruct (parse_uuid wf) as [w|]; [|auto with settling]. apply ask_settles. intros [app|]; [|auto with settling].
  destruct (_ <? _)%Z; [apply ask_settles; intros; apply dead_workflow_settles|]. apply ask_settles. intros [uid|e]; [|auto with settling].
  apply perms_settles; [apply stop_stays|]. intros perms. apply ask_settles. intros [exec|]; [apply spawn_settles|].
  apply step_settles. intros s [Hd Hn]. unfold created. destruct (new_execution _ _ _ _ _ _ _) as [[exec|e] d']; cbn; (split; [by split|]); [apply spawn_settles|auto with settling].
Qed.
Lemma manual_settles ct exec user app : settles (dispatch_manual_workflow msg ct exec user app).
Proof using env_known env_gone.
  apply ask_settles. intros b. destruct b; cbn [negb]; [|auto with settling]. destruct (_ <? _)%Z; [apply dead_workflow_settles|].
  destruct user as [uid|]; [|auto with settling]. apply perms_settles; [apply fail_execution_stays, stop_stays|intros; apply spawn_settles].
Qed.
Lemma worker_job_settles ct m : settles (dispatch_worker_job worker_takes msg ct m).
Proof using env_known env_gone.
  unfold dispatch_worker_job. destruct (delivery_exhausted ct); [auto with settling|]. destruct (jm_user m) as [uid|]; [|auto with settling].
  apply ask_settles. intros cron. apply ask_settles. intros [c|]; [|auto with settling].
  assert (∀ caller identity, settles (if worker_takes (jm_app m) caller identity cron then Stop (RunWorker (jm_app m) (jm_payload m) caller identity cron) else drop_message msg)) as Hk.
  { intros caller identity. destruct (worker_takes _ _ _ _); [by apply stop_settles|auto with settling]. }
  unfold job_identity. destruct (jm_authority m) as [a|]; [|apply Hk]. apply ask_settles. intros [[roles current]|e]; [|auto with settling]. cbv zeta.
  destruct (ja_principal a) as [actor|]; [|apply Hk]. apply ask_settles. intros [ac|]; [|auto with settling]. apply ask_settles.
  intros ok. destruct ok; [|auto with settling]. apply ask_settles. intros perms. apply Hk.
Qed.
Lemma handle_settles ct m : settles (handle msg ct m).
Proof using env_known env_gone.
  unfold Scheduler.handle. destruct (jm_kind m) as [[]|].
  - apply worker_job_settles.
  - destruct (text_at _ _); [apply workflow_job_settles|]. apply ask_settles. intros b. destruct b; [apply agent_job_settles|apply worker_job_settles].
  - destruct (bool_decide _); [apply agent_job_settles|]. destruct (bool_decide _); [apply workflow_job_settles|apply worker_job_settles].
  - destruct (_ ≫= _); [apply manual_settles|auto with settling].
  - auto with settling.
Qed.
Lemma agent_task_settles events : settles (agent_task msg events).
Proof using env_known env_gone.
  induction events as [|[] events IH]; cbn; [auto with settling| |auto with settling|done]. apply act_settles; [apply complete_gone|apply stop_stays].
Qed.
End Settling.

(** ** How often a message is delivered *)

Section Deliveries.
Context {Q : Type} `{!Pgmq Q}.

(** Anything done with the queue; a delivery is shown with its count. *)
Inductive qstep : option (Z * Z) → Q → Q → Prop :=
| Q_send now m q : qstep None q (q_send now m q).1
| Q_read now vt q q' id l : q_read now vt q = (q', Some id) → messages q' !! id = Some l → qstep (Some (id, lm_read_ct l)) q q'
| Q_idle now vt q q' : q_read now vt q = (q', None) → qstep None q q'
| Q_archive id q : qstep None q (q_archive id q)
| Q_delete id q : qstep None q (q_delete id q)
| Q_lease now id vt q : qstep None q (q_set_vt now id vt q).
Inductive qtrace : Q → list (Z * Z) → Q → Prop :=
| qt_nil q : qtrace q [] q
| qt_skip q q1 q2 l : qstep None q q1 → qtrace q1 l q2 → qtrace q l q2
| qt_delivery q q1 q2 d l : qstep (Some d) q q1 → qtrace q1 l q2 → qtrace q (d :: l) q2.

(** Message [id] was delivered [c] times at least. *)
Definition delivered_least (id c : Z) (q : Q) : Prop :=
  (∀ l, messages q !! id = Some l → (c ≤ lm_read_ct l)%Z) ∧ ((id < next_id q)%Z ∨ (c ≤ 0)%Z).
Lemma quiet_counted id c q q' : qstep None q q' → delivered_least id c q → delivered_least id c q'.
Proof.
  intros Hs [Hc Hn]. remember None as o eqn:Ho. destruct Hs as [now m q|now vt q q' i l|now vt q q' Hr|i q|i q|now i vt q]; simplify_eq.
  - destruct (send_spec now m q) as (_ & Hnext & Hm). unfold delivered_least. rewrite Hm, Hnext. split; [|destruct Hn; [left; lia|by right]].
    intros l [[<- <-]|[_ Hl]]%lookup_insert_Some; [|by apply Hc]. cbn. destruct Hn; lia.
  - pose proof (read_spec now vt q) as Hq. rewrite Hr in Hq. destruct Hq as (Hm & Hnext & _). unfold delivered_least. by rewrite Hm, Hnext.
  - destruct (archive_spec i q) as [Hm Hnext]. unfold delivered_least. rewrite Hm, Hnext. split; [|done]. intros l [_ Hl]%lookup_delete_Some. by apply Hc.
  - destruct (delete_spec i q) as [Hm Hnext]. unfold delivered_least. rewrite Hm, Hnext. split; [|done]. intros l [_ Hl]%lookup_delete_Some. by apply Hc.
  - destruct (set_vt_spec now i vt q) as [Hnext Hm]. unfold delivered_least. rewrite Hm, Hnext. split; [|done].
    intros l Hl. apply lookup_alter_Some in Hl as [(-> & l0 & Hl & ->)|[_ Hl]]; by apply Hc in Hl.
Qed.
Lemma read_counted id c q q' i n : qstep (Some (i, n)) q q' → delivered_least id c q →
  if decide (i = id) then (c < n)%Z ∧ delivered_least id n q' else delivered_least id c q'.
Proof.
  intros Hs [Hc Hn]. inversion Hs as [|now vt q0 q1 i0 l Hr Hl| | | |]; simplify_eq. pose proof (read_spec now vt q) as Hq. rewrite Hr in Hq.
  destruct Hq as (l0 & Hl0 & _ & Hnext & Hm). rewrite Hm, lookup_insert_eq in Hl. simplify_eq. cbn. case_decide as Hi.
  - subst i. specialize (Hc _ Hl0). split; [lia|]. unfold delivered_least. rewrite Hm, Hnext. split; [|left; apply ids_below; by eexists].
    intros l Hl. rewrite lookup_insert_eq in Hl. simplify_eq. cbn. lia.
  - unfold delivered_least. rewrite Hm, Hnext. split; [|done]. intros l Hl. rewrite lookup_insert_ne in Hl by done. by apply Hc.
Qed.
Definition counts_of (id : Z) (tr : list (Z * Z)) : list Z := map snd (List.filter (λ d, bool_decide (d.1 = id)) tr).
Lemma counts_increase id c q tr q' : qtrace q tr q' → delivered_least id c q → StronglySorted Z.lt (counts_of id tr) ∧ Forall (λ n, (c < n)%Z) (counts_of id tr).
Proof.
  intros Ht. revert c. induction Ht as [q|q q1 q2 l Hs Ht IH|q q1 q2 [i n] l Hs Ht IH]; intros c Hc; [split; constructor|by eapply IH, quiet_counted|].
  pose proof (read_counted id c _ _ _ _ Hs Hc) as Hr. unfold counts_of in *. cbn. case_decide as Hi.
  - rewrite bool_decide_eq_true_2 by done. destruct Hr as [Hlt Hc']. destruct (IH _ Hc') as [Hsort Hall]. cbn. split; constructor; try done.
    eapply Forall_impl; [done|]. cbn. lia.
  - rewrite bool_decide_eq_false_2 by done. by apply IH.
Qed.
Lemma sorted_bounded l c m : StronglySorted Z.lt l → Forall (λ n, (c < n)%Z) l → (c ≤ m)%Z → (Z.of_nat (length (List.filter (λ n, (n <=? m)%Z) l)) ≤ m - c)%Z.
Proof.
  revert c. induction l as [|n l IH]; intros c Hs Ha Hc; cbn; [lia|]. inversion Hs as [|? ? Hs' Hall]; subst. inversion Ha; subst.
  destruct (n <=? m)%Z eqn:Hm.
  - apply Z.leb_le in Hm. cbn. specialize (IH n Hs' Hall Hm). lia.
  - apply Z.leb_gt in Hm. apply IH; [done| |done]. eapply Forall_impl; [exact Hall|]. cbn. lia.
Qed.
End Deliveries.

(** ** The theorems *)

Section Theorems.
Context {Q : Type} `{!Pgmq Q} `{!Parsers} `{!WorkflowRunner}.
Context (agent_user_id : string → uuid) (debug_error : ApiError → string) (created_desc : list uuid → list uuid).
Context (worker_takes : string → RpcCaller → ContextState → option string → bool) (agent_takes : AgentRun → bool) (fresh : uuid).
Context (env : SchedState Q → SchedState Q → Prop).
Notation runs := (runs env).
Notation handle := (handle agent_user_id debug_error created_desc worker_takes agent_takes fresh).
Notation within := (within agent_user_id debug_error env).


(** [C30] A job an app's worker enqueues stays that app's job: read back from the queue it
    starts nothing but the same app's worker, with the payload that was sent, under no
    schedule's name, for the user it was enqueued for and with no permission the worker did
    not have, whatever the payload says. *)
Theorem app_jobs_stay_app_jobs app payload i user (j : JobsState Q) msg ct m (s s' : SchedState Q) d :
  printed_message (worker_message app payload i user j) →
  read_message (message_json (worker_message app payload i user j)) = Some m → runs (handle msg ct m) s s' d →
  d = Settled ∨ ∃ caller identity, d = RunWorker app payload caller identity None ∧ rc_user_id caller = user ∧ cx_is_delegated identity = cx_is_delegated i
    ∧ ∀ r, Allows (cx_effective_perms identity) r → Allows (cx_effective_perms i) r.
Proof.
  intros Hp Hread Hr. rewrite message_roundtrip in Hread by done. injection Hread as <-. pose proof (handle_within _ _ _ _ _ _ _ _ _ _ _ _ _ Hr) as Hw.
  destruct d as [a|exec uid perms|app' payload' caller identity cron| |]; cbn in Hw; [by destruct Hw as [[]]|naive_solver| |by left|].
  - right. destruct Hw as (-> & -> & _ & (uid & Hu & Hcu & _ & _ & Hau) & Hcron). injection Hu as <-. exists caller, identity.
    assert (cron = None) as ->. { destruct cron as [name|]; [|done]. destruct (Hcron _ eq_refl) as (y & _ & Hy). done. }
    destruct Hau as (H1 & _ & _ & _ & H5 & _). by split_and!.
  - exfalso. clear Hw. unfold Scheduler.handle in Hr. cbn [jm_kind worker_message] in Hr. unfold dispatch_worker_job in Hr. cbn [jm_user worker_message jm_authority jm_cron jm_app] in Hr.
    destruct (delivery_exhausted ct); [by apply runs_dead in Hr|]. apply runs_ask in Hr as (y & _ & Hr). apply runs_ask in Hr as (y1 & _ & Hr).
    destruct (resolve_caller _ user) as [c|] eqn:Hc; [|by apply runs_drop in Hr]. destruct (resolve_caller_user _ _ _ Hc).
    apply identity_within in Hr as [?|(caller & identity & y2 & _ & Hr & _)]; [done| |done|done]. destruct (worker_takes _ _ _ _); [by apply runs_stop_inv in Hr|by apply runs_drop in Hr].
Qed.

(** [C32] A message is handed to a worker or a workflow run at most five times: however it is
    sent, leased, renewed and removed, of all its deliveries at most five have a count the
    handler accepts. *)
Theorem deliveries_are_bounded (q q' : Q) (tr : list (Z * Z)) id :
  (∀ i l, messages q !! i = Some l → (0 ≤ lm_read_ct l)%Z) → qtrace q tr q' →
  length (List.filter (λ d, bool_decide (d.1 = id) && negb (delivery_exhausted d.2)) tr) ≤ 5
  ∧ ∀ ct m (s s' : SchedState Q) d, runs (handle id ct m) s s' d →
      match d with RunWorker _ _ _ _ _ | RunWorkflow _ _ _ => delivery_exhausted ct = false | _ => True end.
Proof.
  intros Hq Ht. split.
  - destruct (counts_increase id 0 q tr q' Ht) as [Hs Ha]. { split; [apply Hq|by right]. }
    pose proof (sorted_bounded _ 0 MAX_DELIVERIES Hs Ha ltac:(done)) as Hb. unfold counts_of in Hb.
    assert (length (List.filter (λ n, (n <=? MAX_DELIVERIES)%Z) (map snd (List.filter (λ d, bool_decide (d.1 = id)) tr)))
      = length (List.filter (λ d, bool_decide (d.1 = id) && negb (delivery_exhausted d.2)) tr)) as Hlen; [|rewrite Hlen in Hb; change (MAX_DELIVERIES - 0)%Z with 5%Z in Hb; lia].
    clear. induction tr as [|[i n] tr IH]; [done|]. cbn. destruct (bool_decide (i = id)); cbn; [|done]. unfold delivery_exhausted at 1. rewrite Z.ltb_antisym, negb_involutive.
    destruct (n <=? MAX_DELIVERIES)%Z; cbn; by rewrite IH.
  - intros ct m s s' d Hr. apply handle_within in Hr. destruct d; try done; cbn in Hr; unfold delivery_exhausted; apply Z.ltb_ge; naive_solver.
Qed.

(** [C31] Every path of the handler is terminal for its message: when nothing was started and
    no run of it is under way, the message is off the queue, for good as identifiers are not
    used again; and so it is when the task that follows an agent's events ends, however they
    end. *)
Theorem handled_messages_are_settled msg ct m events (s s' : SchedState Q) :
  (∀ x y, env x y → known msg x → known msg y) → (∀ x y, env x y → gone msg x → gone msg y) → known msg s →
  runs (handle msg ct m) s s' Settled ∨ runs (agent_task msg events) s s' Settled → messages (jq (sj s')) !! msg = None.
Proof.
  intros H1 H2 Hk [Hr|Hr]; [eapply handle_settles in Hr|eapply agent_task_settles in Hr]; try done; apply Hr.
Qed.
End Theorems.

(** ** The supervisor of the loop *)

(** Seconds since the start.  A loop ticks while it waits for a slot; it may end (a panic,
    or of itself once cancelled), and the watchdog looks every [WATCHDOG_INTERVAL]. *)
Definition STALL_AFTER : Z := 120.
Definition WATCHDOG_INTERVAL : Z := 15.
Inductive SupEvent := LoopTicks (now : Z) | LoopEnds (now : Z) | WatchdogLooks (now : Z) | Cancelled.
Record Supervisor := { loop_alive : bool; last_tick : Z; restarts : N; cancelled : bool }.
(** [now_secs(..).saturating_sub(tick)] *)
Definition tick_gap (now tick : Z) : Z := Z.max 0 (now - tick).
Definition stalled_for (now : Z) (s : Supervisor) : option Z :=
  let gap := tick_gap now (last_tick s) in if (STALL_AFTER <? gap)%Z then Some gap else None.
Definition restart (now : Z) (s : Supervisor) : Supervisor :=
  {| loop_alive := true; last_tick := now; restarts := restarts s + 1; cancelled := false |}.
Definition supervise_step (e : SupEvent) (s : Supervisor) : Supervisor :=
  if cancelled s then s
  else match e with
       | LoopTicks now => {| loop_alive := loop_alive s; last_tick := now; restarts := restarts s; cancelled := false |}
       | LoopEnds now => restart now s
       | WatchdogLooks now => if (STALL_AFTER <? tick_gap now (last_tick s))%Z then restart now s else s
       | Cancelled => {| loop_alive := false; last_tick := last_tick s; restarts := restarts s; cancelled := true |}
       end.
Definition supervise (now : Z) (events : list SupEvent) : Supervisor :=
  foldl (λ s e, supervise_step e s) {| loop_alive := true; last_tick := now; restarts := 0; cancelled := false |} events.
Definition is_restart (s s' : Supervisor) : Prop := loop_alive s' = true ∧ restarts s' = (restarts s + 1)%N.

(** Until it is told to stop, the supervisor always has a loop running: one that ended is
    replaced, and so is one that has not ticked for longer than [STALL_AFTER] when the
    watchdog looks, which then finds the health report clear; each replacement is delivered_least,
    and nothing else is. *)
Theorem loop_is_always_replaced now events e :
  Cancelled ∉ events →
  let s := supervise now events in let s' := supervise_step e s in
  loop_alive s = true
  ∧ match e with
    | LoopEnds _ => is_restart s s'
    | WatchdogLooks t => stalled_for t s' = None ∧ (if stalled_for t s then is_restart s s' else s' = s)
    | LoopTicks _ => restarts s' = restarts s
    | Cancelled => ∀ rest, foldl (λ s e, supervise_step e s) s' rest = s'
    end.
Proof.
  intros Hno. cbv zeta. assert (loop_alive (supervise now events) = true ∧ cancelled (supervise now events) = false) as [Ha Hc].
  { unfold supervise. generalize 0%N, now. induction events as [|e0 events IH]; intros n t; [done|]. cbn [foldl].
    apply not_elem_of_cons in Hno as [Hne Hno]. destruct e0; try done; cbn [supervise_step cancelled restart restarts loop_alive]; try by apply IH.
    destruct (_ <? _)%Z; by apply IH. }
  split; [done|]. unfold supervise_step. rewrite Hc. destruct e as [t|t|t|].
  - done.
  - by split.
  - destruct (STALL_AFTER <? tick_gap t (last_tick (supervise now events)))%Z eqn:Hg; unfold stalled_for; cbn [restart last_tick].
    + rewrite Hg. split; [unfold tick_gap; by rewrite Z.sub_diag|by split].
    + by rewrite Hg.
  - intros rest. induction rest as [|e rest IH]; [done|]. cbn [foldl]. exact IH.
Qed.
Lemma loop_is_always_replaced_witness :
  restarts (supervise 0 [LoopTicks 100; LoopEnds 110; LoopTicks 111]) = 1%N ∧ stalled_for 240 (supervise_step (WatchdogLooks 240) (supervise 0 [LoopTicks 100; LoopEnds 110; LoopTicks 111])) = None.
Proof.
  split; [reflexivity|]. refine (proj1 (proj2 (loop_is_always_replaced 0 [LoopTicks 100; LoopEnds 110; LoopTicks 111] (WatchdogLooks 240) _))).
  rewrite !not_elem_of_cons. split_and!; try discriminate. apply not_elem_of_nil.
Defined.

(** ** The runner *)

Section RunnerOf.
Context {Ctx : Type} (new_ctx : JsonValue → JsonValue → Ctx) (ctx_eval : string → Ctx → option JsonValue * Ctx).
Context (fixup_number : JsonNumber → JsonNumber) (json_to_string : JsonValue → string).
Context {W : Type} (registry : string → option BatchMode).
Context (tool_execute : string → ToolCall → W → result string JsonValue * W).
Context (db_fails : DbStep → option string) (hash_order : gmap string nat → list string) (tools : W).
Definition run_on (exec uid : uuid) (perms : list string) (lease : Z) (d : WfDb) : result string WorkflowExecutionStatus * WfDb :=
  let '(r, w) := run new_ctx ctx_eval fixup_number json_to_string registry tool_execute db_fails hash_order exec uid perms lease (Build_World d tools []) in (r, wdb w).
(** The interface is what the runner of WorkflowRun does. *)
Program Definition runner_of : WorkflowRunner :=
  {| run_workflow := run_on; new_execution fresh wf app uid data lease d := create_execution db_fails fresh wf app uid data lease d |}.
Next Obligation.
  intros exec uid perms lease d Hno. unfold run_on.
  destruct (run_refused new_ctx ctx_eval fixup_number json_to_string registry tool_execute db_fails hash_order exec uid perms lease (Build_World d tools []) Hno) as [e ->]. done.
Qed.
Next Obligation.
  intros exec uid perms lease d st d' Hr. unfold run_on in Hr. destruct (run _ _ _ _ _ _ _ _ _ _ _ _ _) as [r w] eqn:Hrun. simplify_eq.
  apply run_outcome in Hrun as [_ Hok]. destruct (Hok st eq_refl) as [(ex & Hex & Hst & Hl & _) _]. by exists ex.
Qed.
Next Obligation.
  intros fresh wf app uid data lease d exec d' Hr. unfold create_execution in Hr. destruct (try? _ in _) as [ex|e] eqn:Hex; simplify_eq.
  split; [done|]. exists ex. cbn. rewrite lookup_insert_eq. split; [done|]. revert Hex. unfold fallible. destruct (db_fails LoadWorkflow); [done|]. cbn.
  destruct (ok_or _ _) as [row|]; [|done]. cbn. destruct (map_err _ _) as [g|]; [|done]. cbn. destruct (db_fails InsertExecution); [done|]. cbn.
  by intros [= <-].
Qed.
End RunnerOf.

(** ** Examples *)

Module SchedulerExamples.
#[local] Existing Instance JobExamples.toy_pgmq.
#[local] Existing Instance RecordExamples.toy_parsers.
#[local] Instance demo_runner : WorkflowRunner :=
  runner_of (λ _ _, tt) (λ _ _, (None, tt)) id (λ _, "{}") demo_registry demo_tool (λ _, None) (λ m, (map_to_list m).*1) 0.
Notation ToyQueue := JobExamples.ToyQueue.
Definition agent_of (app : string) : uuid := "agent:" +:+ app.
Definition show_err (_ : ApiError) : string := "error".
Definition quiet : SchedState ToyQueue → SchedState ToyQueue → Prop := λ _ _, False.
(** A worker acting for [root] under a delegation, with two permissions. *)
Definition acting : ContextState :=
  {| cx_user_id := Some "root"; cx_is_delegated := true; cx_effective_perms := ["app:crm:c.read"; "app:crm:d.read"]; cx_connection_id := None;
     audit_actor_id := None; audit_delegator_id := None; public_execution := None; approved_action := None |}.
Definition owner_pool : Pool :=
  {| db := {| users := {["root" := Build_UserRow "r" "human" false]}; public_execution_principals := ∅;
              rbac_roles := {["reader" := {| description := None; role_inherits := []; role_permissions := ["app:crm:c.read"] |}]};
              rbac_assignments := [("root", "reader")] |};
     fault := λ _, None |}.
Definition jobs0 : JobsState ToyQueue :=
  {| jgov := {| gpool := owner_pool; delegations := []; clock := 0 |}; jq := {| JobExamples.tq := ∅; JobExamples.tq_next := 1 |}; jdlq := [];
     jwf := {| workflows := ∅; executions := ∅; node_runs := ∅ |}; jdown := false |}.
Definition forged : JsonValue := JObject [("action_type", JString "agent"); ("workflow_id", JString "w1")].
Definition sent := (enqueue_worker "crm" forged acting jobs0).1.
Definition state_of (j : JobsState ToyQueue) : SchedState ToyQueue :=
  {| sj := j; scrons := ∅; smanifests := ∅; sagents := {["crm"]}; sinflight := ∅; sclosed := [] |}.
Definition message := worker_message "crm" forged acting "root" jobs0.
Definition handled (ct : Z) (m : JobMessage) := handle agent_of show_err id (λ _ _ _ _, true) (λ _, true) "x1" 1 ct m.
Definition started (d : Dispatched) : option (string * JsonValue * option (list string) * option string) :=
  match d with RunWorker app payload caller _ cron => Some (app, payload, rc_effective_perms caller, cron) | _ => None end.
Definition outcome (ct : Z) := exec 20 (handled ct message) (state_of sent).

Lemma message_printed : printed_message message.
Proof. split; [by intros u|by intros u|]. intros a _. split; by intros u. Qed.
Lemma app_jobs_stay_app_jobs_witness :
  ∃ s d, outcome 1 = Some (s, d) ∧ d ≠ Settled
    ∧ ∃ caller identity, d = RunWorker "crm" forged caller identity None ∧ ∀ r, Allows (cx_effective_perms identity) r → Allows (cx_effective_perms acting) r.
Proof.
  destruct (outcome 1) as [[s d]|] eqn:Ho.
  - assert (started d = Some ("crm", forged, Some ["app:crm:c.read"], None)) as Hd.
    { apply (f_equal (λ o, match o with Some (_, d) => started d | None => None end)) in Ho. vm_compute in Ho. symmetry. exact Ho. }
    exists s, d. split; [reflexivity|]. split; [intros ->; discriminate Hd|].
    destruct (app_jobs_stay_app_jobs agent_of show_err id (λ _ _ _ _, true) (λ _, true) "x1" quiet "crm" forged acting "root" jobs0 1 1 message (state_of sent) s d
      message_printed (message_roundtrip message message_printed) (exec_runs quiet 20 (handled 1 message) (state_of sent) s d Ho)) as [->|(c & i & H1 & _ & _ & H2)];
      [discriminate Hd|exists c, i; exact (conj H1 H2)].
  - exfalso. apply (f_equal (λ o, match o with Some _ => true | None => false end)) in Ho. vm_compute in Ho. discriminate Ho.
Defined.
Definition delivered : ToyQueue := (JobExamples.toy_read 0 120 (jq sent)).1.
Lemma deliveries_are_bounded_witness :
  qtrace (jq jobs0) [(1, 1)]%Z delivered ∧ length (List.filter (λ d : Z * Z, bool_decide (d.1 = 1%Z) && negb (delivery_exhausted d.2)) [(1, 1)]%Z) ≤ 5.
Proof.
  assert (qtrace (jq jobs0) [(1, 1)]%Z delivered) as Ht.
  { eapply qt_skip; [exact (Q_send 0 (message_json message) (jq jobs0))|]. eapply qt_delivery; [|constructor].
    assert (q_read 0 120 (jq sent) = (delivered, Some 1%Z)) as H1 by (vm_compute; reflexivity).
    assert (messages delivered !! 1%Z = Some {| lm_message := message_json message; lm_read_ct := 1; lm_vt := 120 |}) as H2 by (vm_compute; reflexivity).
    exact (Q_read _ _ _ _ _ _ H1 H2). }
  split; [exact Ht|]. refine (proj1 (deliveries_are_bounded agent_of show_err id (λ _ _ _ _, true) (λ _, true) "x1" quiet (jq jobs0) delivered _ 1 _ Ht)).
  intros i l Hl. rewrite (lookup_empty (M := gmap Z) i : messages (jq jobs0) !! i = None) in Hl. discriminate Hl.
Defined.
(** The sixth delivery goes to the dead letters. *)
Lemma handled_messages_are_settled_witness :
  ∃ s, outcome 6 = Some (s, Settled) ∧ length (jdlq (sj s)) = 1 ∧ messages (jq (sj s)) !! 1%Z = None.
Proof.
  destruct (outcome 6) as [[s d]|] eqn:Ho.
  - assert (match d with Settled => length (jdlq (sj s)) | _ => 0 end = 1) as Hd.
    { apply (f_equal (λ o, match o with Some (s, Settled) => length (jdlq (sj s)) | _ => 0 end)) in Ho. vm_compute in Ho. symmetry. exact Ho. }
    destruct d; try discriminate Hd. exists s. split; [reflexivity|]. split; [exact Hd|].
    refine (handled_messages_are_settled agent_of show_err id (λ _ _ _ _, true) (λ _, true) "x1" quiet 1 6 message [] (state_of sent) s _ _ _
      (or_introl (exec_runs quiet 20 (handled 6 message) (state_of sent) s Settled Ho))); [intros ?? []|intros ?? []|split; reflexivity].
  - exfalso. apply (f_equal (λ o, match o with Some _ => true | None => false end)) in Ho. vm_compute in Ho. discriminate Ho.
Defined.
End SchedulerExamples.
