(* ===== verification/SchemaSync.v ===== *)
(** * Tables of an app (core/src/schema_sync.rs; the tables of core/src/manifest.rs)

    How the columns a manifest declares become columns of a table: the statement that
    creates it, the difference between a table and the declaration, and the statements
    that remove it.  What those statements do to a table is written out as PostgreSQL
    documents it; how it shows types and defaults and converts values are parameters. *)

From stdpp Require Import base numbers pretty gmap strings sets list.
From S2P Require Import Prelude Str Ident Json DataTypes Ownership Records.

(** ** What the catalog shows *)

Record FkInfo := { constraint_name : string; delete_rule : string }.
Record DbColumn := { c_name : string; c_type : string; c_not_null : bool; c_default : option string; c_fk : option FkInfo }.

Inductive ColumnDiff :=
| DiffAdd (field : FieldContract) (pg_type : string)
| DiffDrop (column : string)
| DiffAlterType (column from_type to_type : string)
| DiffSetNotNull (column : string)
| DiffDropNotNull (column : string)
| DiffSetDefault (column default_sql : string)
| DiffDropDefault (column : string)
| DiffReplaceFk (column old_name new_name target_table rule : string).
Record TableDiff := { d_schema : string; d_table : string; d_changes : list ColumnDiff }.

Definition normalize_pg_type (t : string) : string :=
  if decide (t = "TIMESTAMPTZ") then "timestamp with time zone" else to_ascii_lowercase t.
(** [split("::").next()] *)
Fixpoint before_cast (s : string) : string :=
  match s with
  | EmptyString => EmptyString
  | String c r => if starts_with "::" s then EmptyString else String c (before_cast r)
  end.
Definition defaults_match (pg_expr desired : string) : bool := bool_decide (trim (before_cast pg_expr) = trim desired).
Definition pg_delete_rule_char_to_str (c : string) : string :=
  if decide (c = "c") then "CASCADE" else if decide (c = "r" ∨ c = "a") then "RESTRICT" else if decide (c = "n") then "SET NULL" else "RESTRICT".
Definition resolve_on_delete (f : FieldContract) : string :=
  match on_delete f with
  | Some Cascade => "CASCADE"
  | Some Restrict => "RESTRICT"
  | Some SetNull => "SET NULL"
  | None => if required f then "RESTRICT" else "SET NULL"
  end.
Definition is_pk (f : FieldContract) : bool := bool_decide (is_primary_key f = Some true) || bool_decide (fname f = "id").
Definition qualified (schema table : string) : string := quote_ident schema +:+ "." +:+ quote_ident table.

Section Diff.
Context (bigdecimal : string → option string) (json_to_string : JsonValue → string).
Notation from_field := (from_field bigdecimal).
Notation sql_default := (sql_default bigdecimal json_to_string).

(** [None] is a panic: the field is of no known type. *)
Definition resolve_pg_type (f : FieldContract) (pk_types : gmap string string) : option string :=
  if decide (field_type f = "entity_link")
  then Some (match references f with Some r => default "UUID" (pk_types !! ref_entity r) | None => "UUID" end)
  else postgres_type <$> ok (from_field f).
(** The default of a declared field; [None] is a panic again. *)
Definition desired_default (f : FieldContract) : option (option string) :=
  match default_value f with
  | None => Some None
  | Some v => t ← ok (from_field f); Some (sql_default v t)
  end.

Definition type_changes (f : FieldContract) (desired : string) (c : DbColumn) : list ColumnDiff :=
  if bool_decide (c_type c = normalize_pg_type desired) then [] else [DiffAlterType (fname f) (c_type c) desired].
Definition null_changes (f : FieldContract) (c : DbColumn) : list ColumnDiff :=
  let want := required f && negb (is_pk f) in
  if want && negb (c_not_null c) then [DiffSetNotNull (fname f)]
  else if negb want && c_not_null c && negb (is_pk f) then [DiffDropNotNull (fname f)] else [].
Definition default_changes (f : FieldContract) (desired : option string) (c : DbColumn) : list ColumnDiff :=
  match c_default c, desired with
  | None, Some sql => [DiffSetDefault (fname f) sql]
  | Some _, None => [DiffDropDefault (fname f)]
  | Some existing, Some sql => if defaults_match existing sql then [] else [DiffSetDefault (fname f) sql]
  | None, None => []
  end.
Definition fk_target (schema : string) (entity : string) : option (string * string) :=
  match parse_entity_ref entity with
  | RefCore name => match resolve_core_entity name with Some (s, t, _, _) => Some (s, t) | None => None end
  | _ => Some (schema, entity)
  end.
Definition fk_changes (schema table : string) (f : FieldContract) (c : DbColumn) : list ColumnDiff :=
  if bool_decide (field_type f = "entity_link")
  then match c_fk c, references f with
       | Some fk, Some r =>
           if bool_decide (pg_delete_rule_char_to_str (delete_rule fk) = resolve_on_delete f) then []
           else match fk_target schema (ref_entity r) with
                | None => []
                | Some (target_schema, target_entity) =>
                    [DiffReplaceFk (fname f) (constraint_name fk)
                       ("fk_" +:+ schema +:+ "_" +:+ table +:+ "_" +:+ fname f +:+ "_" +:+ target_entity)
                       (qualified target_schema target_entity) (resolve_on_delete f)]
                end
       | _, _ => []
       end
  else [].
(** One field of the manifest against the table. *)
Definition field_changes (schema table : string) (pk_types : gmap string string) (column : string → option DbColumn) (f : FieldContract) : option (list ColumnDiff) :=
  if is_system_field (fname f) then Some []
  else desired ← resolve_pg_type f pk_types;
       match column (fname f) with
       | None => Some [DiffAdd f desired]
       | Some c =>
           d ← desired_default f;
           Some (type_changes f desired c ++ null_changes f c ++ default_changes f d c ++ fk_changes schema table f c)
       end.
(** The map of columns; names are those of one table, so no two are the same. *)
Definition column_named (cols : list DbColumn) (name : string) : option DbColumn := List.find (λ c, bool_decide (c_name c = name)) cols.
Definition dropped (fields : list FieldContract) (c : DbColumn) : list ColumnDiff :=
  if is_system_field (c_name c) then [] else if bool_decide (c_name c ∈ map fname fields) then [] else [DiffDrop (c_name c)].
Definition compute_diff (schema table : string) (cols : list DbColumn) (fields : list FieldContract) (pk_types : gmap string string) : option TableDiff :=
  changes ← mapM (field_changes schema table pk_types (column_named cols)) fields;
  Some {| d_schema := schema; d_table := table; d_changes := concat changes ++ concat (map (dropped fields) cols) |}.

(** ** Statements *)

Definition generate_using_clause (col to : string) : string :=
  let c := quote_ident col in
  if starts_with "NUMERIC" to then " USING NULLIF(" +:+ c +:+ "::text, '')::" +:+ to
  else if decide (to = "DOUBLE PRECISION") then " USING NULLIF(" +:+ c +:+ ", '')::DOUBLE PRECISION"
  else if decide (to = "BOOLEAN") then " USING CASE WHEN " +:+ c +:+ " IN ('true','1','yes','t') THEN true WHEN " +:+ c +:+ " IN ('false','0','no','f') THEN false ELSE NULL END"
  else " USING " +:+ c +:+ "::" +:+ to.

(** An [ALTER TABLE] of one table.  [DropConstraint] keeps the column it is about. *)
Inductive Ddl :=
| AddColumn (col pg_type : string)
| SetNotNull_ (col : string)
| DropNotNull_ (col : string)
| SetDefault_ (col sql : string)
| DropDefault_ (col : string)
| DropColumn (col : string)
| AlterType (col to_type using_ : string)
| DropConstraint (col name : string)
| AddForeignKey (col name target rule : string).
Definition ddl_sql (fq : string) (d : Ddl) : string :=
  "ALTER TABLE " +:+ fq +:+
  match d with
  | AddColumn col ty => " ADD COLUMN IF NOT EXISTS " +:+ quote_ident col +:+ " " +:+ ty
  | SetNotNull_ col => " ALTER COLUMN " +:+ quote_ident col +:+ " SET NOT NULL"
  | DropNotNull_ col => " ALTER COLUMN " +:+ quote_ident col +:+ " DROP NOT NULL"
  | SetDefault_ col sql => " ALTER COLUMN " +:+ quote_ident col +:+ " SET DEFAULT " +:+ sql
  | DropDefault_ col => " ALTER COLUMN " +:+ quote_ident col +:+ " DROP DEFAULT"
  | DropColumn col => " DROP COLUMN IF EXISTS " +:+ quote_ident col +:+ " CASCADE"
  | AlterType col ty using_ => " ALTER COLUMN " +:+ quote_ident col +:+ " TYPE " +:+ ty +:+ using_
  | DropConstraint _ name => " DROP CONSTRAINT IF EXISTS " +:+ quote_ident name
  | AddForeignKey col name target rule =>
      " ADD CONSTRAINT " +:+ quote_ident name +:+ " FOREIGN KEY (" +:+ quote_ident col +:+ ") REFERENCES " +:+ target +:+ "(" +:+ quote_ident "id" +:+ ") ON DELETE " +:+ rule
  end.

(** The statements of a change in phase [p]. *)
Definition emit_ddl_phases (change : ColumnDiff) (p : nat) : list Ddl :=
  match change, p with
  | DiffAdd f ty, 2 => [AddColumn (fname f) ty]
  | DiffAdd f ty, 3 => if required f then [SetNotNull_ (fname f)] else []
  | DiffAdd f ty, 4 => match v ← default_value f; t ← ok (from_field f); sql_default v t with
                       | Some sql => [SetDefault_ (fname f) sql]
                       | None => []
                       end
  | DiffDrop col, 6 => [DropColumn col]
  | DiffAlterType col _ to, 1 => [AlterType col to (generate_using_clause col to)]
  | DiffSetNotNull col, 3 => [SetNotNull_ col]
  | DiffDropNotNull col, 3 => [DropNotNull_ col]
  | DiffSetDefault col sql, 4 => [SetDefault_ col sql]
  | DiffDropDefault col, 4 => [DropDefault_ col]
  | DiffReplaceFk col old _ _ _, 0 => [DropConstraint col old]
  | DiffReplaceFk col _ new target rule, 5 => [AddForeignKey col new target rule]
  | _, _ => []
  end.
Definition phases : list nat := seq 0 7.
Definition generate_ddl (d : TableDiff) : list Ddl :=
  concat (map (λ p, concat (map (λ c, emit_ddl_phases c p) (d_changes d))) phases).
Definition ddl_texts (d : TableDiff) : list string := map (ddl_sql (qualified (d_schema d) (d_table d))) (generate_ddl d).
End Diff.

(** ** What the statements do *)

Record Column := { col_name : string; col_type : string; col_not_null : bool; col_default : option string }.
Record ForeignKey := { fk_name : string; fk_column : string; fk_refers : string; fk_rule : string }.
(** A row has the cells that are not null. *)
Record Table := { t_columns : list Column; t_fks : list ForeignKey; t_pk : list string; t_rows : list (gmap string string) }.
(** How PostgreSQL shows a type and a default, what becomes of a default and of a cell
    when the type of its column changes ([None]: the statement fails), and whether the
    table a key refers to has a row. *)
Class Catalog := {
  format_type : string → string;
  show_default : string → string → string;
  alter_default : string → string → string → option string;
  cast_cell : string → option string → option (option string);
  refers_to : string → string → bool }.

Definition rule_char (rule : string) : string :=
  if decide (rule = "CASCADE") then "c" else if decide (rule = "RESTRICT") then "r" else if decide (rule = "SET NULL") then "n" else "a".
Lemma rule_char_back f : pg_delete_rule_char_to_str (rule_char (resolve_on_delete f)) = resolve_on_delete f.
Proof. unfold resolve_on_delete. destruct (on_delete f) as [[]|]; try done. by destruct (required f). Qed.

(** PostgreSQL keeps the first 63 bytes of a name. *)
Definition pg_name (name : string) : string := String.substring 0 MAX_IDENT_BYTES name.
(** What a table shows of a column: itself and its foreign key. *)
Definition find_column (name : string) (t : Table) : option Column := List.find (λ c, bool_decide (col_name c = name)) (t_columns t).
Definition last_fk (name : string) (t : Table) : option ForeignKey := last (List.filter (λ k, bool_decide (fk_column k = name)) (t_fks t)).
Definition db_column (t : Table) (c : Column) : DbColumn :=
  {| c_name := col_name c; c_type := col_type c; c_not_null := col_not_null c; c_default := col_default c;
     c_fk := (λ k, {| constraint_name := fk_name k; delete_rule := fk_rule k |}) <$> last_fk (col_name c) t |}.
Definition introspect_table (t : option Table) : list DbColumn := match t with Some t => map (db_column t) (t_columns t) | None => [] end.

Section Exec.
Context `{!Catalog}.
Definition set_columns (l : list Column) (t : Table) : Table := {| t_columns := l; t_fks := t_fks t; t_pk := t_pk t; t_rows := t_rows t |}.
Definition set_fks (l : list ForeignKey) (t : Table) : Table := {| t_columns := t_columns t; t_fks := l; t_pk := t_pk t; t_rows := t_rows t |}.
Definition set_rows (l : list (gmap string string)) (t : Table) : Table := {| t_columns := t_columns t; t_fks := t_fks t; t_pk := t_pk t; t_rows := l |}.
Definition on_column (name : string) (g : Column → Column) (t : Table) : Table :=
  set_columns (map (λ c, if bool_decide (col_name c = name) then g c else c) (t_columns t)) t.
Definition with_null (b : bool) (c : Column) : Column := {| col_name := col_name c; col_type := col_type c; col_not_null := b; col_default := col_default c |}.
Definition with_default (d : option string) (c : Column) : Column := {| col_name := col_name c; col_type := col_type c; col_not_null := col_not_null c; col_default := d |}.
Definition with_type (ty : string) (d : option string) (c : Column) : Column := {| col_name := col_name c; col_type := ty; col_not_null := col_not_null c; col_default := d |}.
Definition all_set (name : string) (t : Table) : bool := forallb (λ r, bool_decide (is_Some (r !! name))) (t_rows t).
Definition cast_row (using_ name : string) (not_null : bool) (r : gmap string string) : option (gmap string string) :=
  v ← cast_cell using_ (r !! name);
  match v with
  | Some x => Some (<[name := x]> r)
  | None => if not_null then None else Some (delete name r)
  end.

Definition exec_ddl (d : Ddl) (t : Table) : option Table :=
  match d with
  | AddColumn col ty =>
      match find_column col t with
      | Some _ => Some t
      | None => Some (set_columns (t_columns t ++ [{| col_name := col; col_type := format_type ty; col_not_null := false; col_default := None |}]) t)
      end
  | SetNotNull_ col => c ← find_column col t; if all_set col t then Some (on_column col (with_null true) t) else None
  | DropNotNull_ col => c ← find_column col t; if bool_decide (col ∈ t_pk t) then None else Some (on_column col (with_null false) t)
  | SetDefault_ col sql => c ← find_column col t; Some (on_column col (with_default (Some (show_default (col_type c) sql))) t)
  | DropDefault_ col => c ← find_column col t; Some (on_column col (with_default None) t)
  | DropColumn col =>
      Some {| t_columns := List.filter (λ c, negb (bool_decide (col_name c = col))) (t_columns t);
              t_fks := List.filter (λ k, negb (bool_decide (fk_column k = col))) (t_fks t);
              t_pk := if bool_decide (col ∈ t_pk t) then [] else t_pk t; t_rows := map (delete col) (t_rows t) |}
  | AlterType col ty using_ =>
      c ← find_column col t;
      d ← match col_default c with Some d => Some <$> alter_default (col_type c) ty d | None => Some None end;
      rows ← mapM (cast_row using_ col (col_not_null c)) (t_rows t);
      Some (set_rows rows (on_column col (with_type (format_type ty) d) t))
  | DropConstraint _ name => Some (set_fks (List.filter (λ k, negb (bool_decide (fk_name k = name))) (t_fks t)) t)
  | AddForeignKey col name target rule =>
      c ← find_column col t;
      if bool_decide (pg_name name ∈ map fk_name (t_fks t)) then None
      else if forallb (λ r, from_option (refers_to target) true (r !! col)) (t_rows t)
      then Some (set_fks (t_fks t ++ [{| fk_name := pg_name name; fk_column := col; fk_refers := target; fk_rule := rule_char rule |}]) t)
      else None
  end.
Fixpoint exec_all (l : list Ddl) (t : Table) : option Table :=
  match l with [] => Some t | d :: l => t' ← exec_ddl d t; exec_all l t' end.
(** One transaction. *)
Definition apply_ddl (l : list Ddl) (t : Table) : Table * bool := match exec_all l t with Some t' => (t', true) | None => (t, false) end.
End Exec.

(** ** One column at a time *)

Section View.
Context `{!Catalog}.
Definition ddl_col (d : Ddl) : string :=
  match d with
  | AddColumn col _ | SetNotNull_ col | DropNotNull_ col | SetDefault_ col _ | DropDefault_ col | DropColumn col | AlterType col _ _
  | DropConstraint col _ | AddForeignKey col _ _ _ => col
  end.
(** What is seen of a column: [None] if it is not there. *)
Definition view (name : string) (t : Table) : option (Column * option ForeignKey) := (λ c, (c, last_fk name t)) <$> find_column name t.
Definition view_exec (d : Ddl) (v : option (Column * option ForeignKey)) : option (Column * option ForeignKey) :=
  match d, v with
  | AddColumn col ty, None => Some ({| col_name := col; col_type := format_type ty; col_not_null := false; col_default := None |}, None)
  | SetNotNull_ _, Some (c, k) => Some (with_null true c, k)
  | DropNotNull_ _, Some (c, k) => Some (with_null false c, k)
  | SetDefault_ _ sql, Some (c, k) => Some (with_default (Some (show_default (col_type c) sql)) c, k)
  | DropDefault_ _, Some (c, k) => Some (with_default None c, k)
  | DropColumn _, _ => None
  | AlterType _ ty _, Some (c, k) => Some (with_type (format_type ty) (d ← col_default c; alter_default (col_type c) ty d) c, k)
  | DropConstraint _ _, Some (c, _) => Some (c, None)
  | AddForeignKey col name target rule, Some (c, _) => Some (c, Some {| fk_name := pg_name name; fk_column := col; fk_refers := target; fk_rule := rule_char rule |})
  | _, v => v
  end.

(** Names of columns and of keys are unique, a key is on a column that is there, and a
    column has one key at most. *)
Record table_ok (t : Table) : Prop := {
  ok_columns : NoDup (map col_name (t_columns t));
  ok_fk_names : NoDup (map fk_name (t_fks t));
  ok_fk_columns : NoDup (map fk_column (t_fks t));
  ok_fk_on : ∀ k, k ∈ t_fks t → fk_column k ∈ map col_name (t_columns t) }.

Lemma find_column_Some name t c : table_ok t → find_column name t = Some c ↔ c ∈ t_columns t ∧ col_name c = name.
Proof.
  intros Hok. unfold find_column. split.
  - intros [Hin Hn]%find_some. apply bool_decide_eq_true in Hn. by rewrite list_elem_of_In.
  - intros [Hin Hn]. destruct (List.find _ _) as [c'|] eqn:Hf.
    + apply find_some in Hf as [Hin' Hn']. apply bool_decide_eq_true in Hn'. rewrite <-list_elem_of_In in Hin'. f_equal. pose proof (ok_columns _ Hok) as Hnd.
      apply list_elem_of_lookup in Hin as [i Hi], Hin' as [j Hj]. rewrite NoDup_alt in Hnd.
      assert (i = j) as -> by (apply (Hnd i j name); rewrite list_lookup_fmap, ?Hi, ?Hj; cbn; congruence). congruence.
    + rewrite list_elem_of_In in Hin. apply (find_none _ _ Hf) in Hin. by apply bool_decide_eq_false in Hin.
Qed.
Lemma find_column_None name t : find_column name t = None ↔ name ∉ map col_name (t_columns t).
Proof.
  unfold find_column. split.
  - intros Hf [c [-> Hin]]%list_elem_of_fmap. rewrite list_elem_of_In in Hin. apply (find_none _ _ Hf) in Hin. by apply bool_decide_eq_false in Hin.
  - intros Hni. destruct (List.find _ _) as [c|] eqn:Hf; [|done]. exfalso. apply find_some in Hf as [Hin Hn]. apply bool_decide_eq_true in Hn.
    apply Hni, list_elem_of_fmap. exists c. rewrite list_elem_of_In. by split.
Qed.
Lemma last_fk_Some name t k : table_ok t → last_fk name t = Some k ↔ k ∈ t_fks t ∧ fk_column k = name.
Proof.
  intros Hok. unfold last_fk. set (l := List.filter _ _).
  assert (∀ k, k ∈ l ↔ k ∈ t_fks t ∧ fk_column k = name) as Hl.
  { intros k'. unfold l. rewrite list_elem_of_In, filter_In, <-list_elem_of_In. by rewrite bool_decide_eq_true. }
  assert (∀ k1 k2, k1 ∈ l → k2 ∈ l → k1 = k2) as Huniq.
  { intros k1 k2 [H1 E1]%Hl [H2 E2]%Hl. pose proof (ok_fk_columns _ Hok) as Hnd. apply list_elem_of_lookup in H1 as [i Hi], H2 as [j Hj]. rewrite NoDup_alt in Hnd.
    assert (i = j) as -> by (apply (Hnd i j name); rewrite list_lookup_fmap, ?Hi, ?Hj; cbn; congruence). congruence. }
  rewrite <-Hl. split.
  - intros Hlast. apply last_Some in Hlast as [l' ->]. set_solver.
  - intros Hin. destruct (last l) as [k'|] eqn:Hlast.
    + f_equal. apply Huniq; [|done]. apply last_Some in Hlast as [l' ->]. set_solver.
    + apply last_None in Hlast. rewrite Hlast in Hin. by apply elem_of_nil in Hin.
Qed.
Lemma last_fk_None name t : table_ok t → last_fk name t = None ↔ ∀ k, k ∈ t_fks t → fk_column k ≠ name.
Proof.
  intros Hok. split.
  - intros Hn k Hin He. assert (last_fk name t = Some k) by (by apply last_fk_Some). congruence.
  - intros Hno. destruct (last_fk name t) as [k|] eqn:Hk; [|done]. apply last_fk_Some in Hk as [Hin He]; [|done]. by destruct (Hno k Hin).
Qed.
End View.

Section Effects.
Context `{!Catalog}.
Lemma find_on_column name m g t : (∀ c, col_name (g c) = col_name c) →
  find_column name (on_column m g t) = if decide (m = name) then g <$> find_column name t else find_column name t.
Proof.
  intros Hg. unfold find_column, on_column. cbn. induction (t_columns t) as [|c l IH]; cbn [map List.find]; [by case_decide|].
  destruct (bool_decide (col_name c = m)) eqn:Hm.
  - apply bool_decide_eq_true in Hm. rewrite Hg. destruct (bool_decide (col_name c = name)) eqn:Hn.
    + apply bool_decide_eq_true in Hn. rewrite decide_True by congruence. done.
    + done.
  - apply bool_decide_eq_false in Hm. destruct (bool_decide (col_name c = name)) eqn:Hn; [|done].
    apply bool_decide_eq_true in Hn. by rewrite decide_False by congruence.
Qed.
Lemma on_column_names m g t : (∀ c, col_name (g c) = col_name c) → map col_name (t_columns (on_column m g t)) = map col_name (t_columns t).
Proof. intros Hg. cbn. rewrite map_map. apply map_ext. intros c. destruct (bool_decide _); [apply Hg|done]. Qed.
Lemma on_column_ok m g t : (∀ c, col_name (g c) = col_name c) → table_ok t → table_ok (on_column m g t).
Proof. intros Hg [H1 H2 H3 H4]. split; rewrite ?on_column_names by done; done. Qed.
Lemma find_column_app name t c : find_column name (set_columns (t_columns t ++ [c]) t) =
  match find_column name t with Some x => Some x | None => if bool_decide (col_name c = name) then Some c else None end.
Proof. unfold find_column. cbn. induction (t_columns t) as [|x l IH]; cbn; [done|]. by destruct (bool_decide (col_name x = name)). Qed.

Definition fits (d : Ddl) (v : option (Column * option ForeignKey)) : Prop :=
  match d with
  | DropConstraint col name => ∃ c k, v = Some (c, Some k) ∧ fk_name k = name
  | AddForeignKey _ _ _ _ => ∃ c, v = Some (c, None)
  | _ => True
  end.
(** What a statement that went through shows of the column before it. *)
Definition went (d : Ddl) (v : option (Column * option ForeignKey)) : Prop :=
  match d, v with
  | AlterType _ ty _, Some (c, _) => ∀ x, col_default c = Some x → is_Some (alter_default (col_type c) ty x)
  | _, _ => True
  end.
Lemma exec_went d t t' : exec_ddl d t = Some t' → went d (view (ddl_col d) t).
Proof.
  destruct d as [| | | | | |col ty using_| |]; try done. cbn. unfold view. destruct (find_column col t) as [c|]; [|done]. cbn. intros He x Hx. rewrite Hx in He.
  destruct (alter_default (col_type c) ty x); [by eexists|done].
Qed.
Lemma map_view name (t t' : Table) (g : Column → Column) m :
  (∀ c, col_name (g c) = col_name c) → t_columns t' = t_columns (on_column m g t) → t_fks t' = t_fks t →
  view name t' = if decide (m = name) then (λ '(c, k), (g c, k)) <$> view name t else view name t.
Proof.
  intros Hg Hc Hk. unfold view. assert (find_column name t' = find_column name (on_column m g t)) as -> by (unfold find_column; by rewrite Hc).
  assert (last_fk name t' = last_fk name t) as -> by (unfold last_fk; by rewrite Hk). rewrite find_on_column by done. case_decide; [|done]. by destruct (find_column name t).
Qed.
Lemma same_ok (t t' : Table) : t_columns t' = t_columns t → t_fks t' = t_fks t → table_ok t → table_ok t'.
Proof. intros H1 H2 [????]. split; by rewrite ?H1, ?H2. Qed.
Lemma filter_fk_sub (P : ForeignKey → bool) t k : k ∈ List.filter P (t_fks t) ↔ k ∈ t_fks t ∧ P k = true.
Proof. by rewrite list_elem_of_In, filter_In, <-list_elem_of_In. Qed.
Lemma filter_map_NoDup {A B : Type} (P : A → bool) (f : A → B) l : NoDup (map f l) → NoDup (map f (List.filter P l)).
Proof.
  induction l as [|x l IH]; [done|]. cbn. intros [Hni Hnd]%NoDup_cons. destruct (P x); [|by apply IH]. cbn. apply NoDup_cons. split; [|by apply IH].
  intros [y [Hy Hin]]%list_elem_of_fmap. apply Hni, list_elem_of_fmap. exists y. split; [done|]. rewrite list_elem_of_In in Hin |- *. by apply filter_In in Hin as [? _].
Qed.
(** Keys removed that are all on column [m], or on a column that is gone. *)
Lemma filter_fks_view name (P : ForeignKey → bool) t t' m :
  table_ok t → table_ok t' → (∀ c, find_column name t' = Some c → find_column name t = Some c) → name ≠ m →
  find_column name t' = find_column name t → t_fks t' = List.filter P (t_fks t) → (∀ k, k ∈ t_fks t → P k = false → fk_column k = m) →
  view name t' = view name t.
Proof.
  intros Hok Hok' _ Hne Hc Hk HP. unfold view. rewrite Hc. destruct (find_column name t) as [c|]; [|done]. cbn. do 2 f_equal. apply option_eq. intros k.
  rewrite !last_fk_Some by done. rewrite Hk, filter_fk_sub. split; [tauto|]. intros [Hin He]. split_and!; try done. destruct (P k) eqn:HPk; [done|].
  exfalso. apply Hne. rewrite <-He. by apply HP.
Qed.
(** What a statement does, seen column by column. *)
Definition does (d : Ddl) (t t' : Table) : Prop :=
  table_ok t' ∧ ∀ name, view name t' = if decide (ddl_col d = name) then view_exec d (view name t) else view name t.
Lemma add_column_does col ty t t' : table_ok t → fits (AddColumn col ty) (view col t) → exec_ddl (AddColumn col ty) t = Some t' → does (AddColumn col ty) t t'.
Proof.
  intros Hok Hfit He. unfold does. cbn [exec_ddl ddl_col fits] in *.
  destruct (find_column col t) as [c|] eqn:Hc; simplify_eq.
  + split; [done|]. intros name. case_decide as Hn; [|done]. subst. unfold view. by rewrite Hc.
  + pose proof Hc as Hni. apply find_column_None in Hni. destruct Hok as [H1 H2 H3 H4]. assert (table_ok t) as Hok by done.
    split; [split; cbn; [rewrite map_app; apply NoDup_app; split_and!; [done| |apply NoDup_singleton]|done|done|]|].
    * intros x Hx Hx'. cbn in Hx'. apply list_elem_of_singleton in Hx' as ->. done.
    * intros k Hk. rewrite map_app. apply elem_of_app. left. by apply H4.
    * intros name. unfold view. rewrite find_column_app. cbn [col_name]. case_decide as Hn.
      -- subst name. rewrite Hc. cbn. rewrite bool_decide_eq_true_2 by done. cbn. do 2 f_equal.
         assert (last_fk col t = None) as Hk; [|done]. apply last_fk_None; [done|]. intros k Hk Hkc. apply Hni. rewrite <-Hkc. by apply H4.
      -- rewrite bool_decide_eq_false_2 by done. by destruct (find_column name t).
Qed.
Lemma drop_column_does col t t' : table_ok t → fits (DropColumn col) (view col t) → exec_ddl (DropColumn col) t = Some t' → does (DropColumn col) t t'.
Proof.
  intros Hok Hfit He. unfold does. cbn [exec_ddl ddl_col fits] in *.
  simplify_eq. set (t' := {| t_columns := _ |}).
  assert (∀ name, find_column name t' = if decide (col = name) then None else find_column name t) as Hf.
  { intros name. unfold find_column, t'. cbn. induction (t_columns t) as [|x l IH]; cbn; [by case_decide|]. destruct (bool_decide (col_name x = col)) eqn:Hx; cbn.
    - apply bool_decide_eq_true in Hx. rewrite IH. case_decide as Hn; [done|]. by rewrite bool_decide_eq_false_2 by congruence.
    - apply bool_decide_eq_false in Hx. rewrite IH. destruct (bool_decide (col_name x = name)) eqn:Hxn; [|done]. apply bool_decide_eq_true in Hxn.
      by rewrite decide_False by congruence. }
  destruct Hok as [H1 H2 H3 H4]. assert (table_ok t) as Hok by done.
  assert (table_ok t') as Hok'.
  { split; cbn; try by apply filter_map_NoDup. intros k [Hk Hc]%filter_fk_sub. apply negb_true_iff, bool_decide_eq_false in Hc.
    apply H4 in Hk. apply list_elem_of_fmap in Hk as (c & Hkc & Hin). apply list_elem_of_fmap. exists c. split; [done|].
    rewrite list_elem_of_In in Hin |- *. apply filter_In. split; [done|]. apply negb_true_iff, bool_decide_eq_false. congruence. }
  split; [done|]. intros name. case_decide as Hn.
  + subst name. unfold view. rewrite Hf, decide_True by done. done.
  + apply (filter_fks_view name (λ k, negb (bool_decide (fk_column k = col))) t t' col); try done.
    * intros c. by rewrite Hf, decide_False by done.
    * by rewrite Hf, decide_False by done.
    * intros k _ Hk. by apply negb_false_iff, bool_decide_eq_true in Hk.
Qed.
Lemma alter_type_does col ty using_ t t' : table_ok t → fits (AlterType col ty using_) (view col t) → exec_ddl (AlterType col ty using_) t = Some t' → does (AlterType col ty using_) t t'.
Proof.
  intros Hok Hfit He. unfold does. cbn [exec_ddl ddl_col fits] in *.
  destruct (find_column col t) as [c|] eqn:Hc; [|done]. cbn in He. destruct (match col_default c with Some d => _ | None => Some None end) as [dd|] eqn:Hd; [|done]. cbn in He.
  destruct (mapM _ _) as [rows|]; [|done]. cbn in He. simplify_eq. split; [apply (same_ok (on_column col (with_type (format_type ty) dd) t)); [done|done|by apply on_column_ok]|].
  intros name. rewrite (map_view name t _ (with_type (format_type ty) dd) col) by done. case_decide; [|done]. subst. unfold view. rewrite Hc. cbn. do 3 f_equal.
  destruct (col_default c) as [d0|]; [|by injection Hd as <-]. change (Some <$> alter_default (col_type c) ty d0 = Some dd) in Hd.
  cbn [mbind option_bind]. destruct (alter_default (col_type c) ty d0); [by injection Hd as <-|done].
Qed.
Lemma drop_constraint_does col name t t' : table_ok t → fits (DropConstraint col name) (view col t) → exec_ddl (DropConstraint col name) t = Some t' → does (DropConstraint col name) t t'.
Proof.
  intros Hok Hfit He. unfold does. cbn [exec_ddl ddl_col fits] in *.
  simplify_eq. destruct Hfit as (c & k0 & Hv & Hk0). assert (last_fk col t = Some k0) as Hl by (unfold view in Hv; destruct (find_column col t); simplify_eq/=; done).
  apply last_fk_Some in Hl as [Hin Hcol]; [|done]. destruct Hok as [H1 H2 H3 H4]. assert (table_ok t) as Hok by done.
  assert (∀ k, k ∈ t_fks t → fk_name k = name → k = k0) as Huniq.
  { intros k Hk Hkn. apply list_elem_of_lookup in Hk as [i Hi], Hin as [j Hj]. rewrite NoDup_alt in H2.
    assert (i = j) as -> by (apply (H2 i j name); rewrite list_lookup_fmap, ?Hi, ?Hj; cbn; congruence). congruence. }
  set (t' := set_fks _ t). assert (table_ok t') as Hok'.
  { split; cbn; try done; try by apply filter_map_NoDup. intros k [Hk _]%filter_fk_sub. by apply H4. }
  split; [done|]. intros m. case_decide as Hn.
  + subst m. assert (last_fk col t' = None) as Hnone.
    { apply last_fk_None; [done|]. intros k [Hk Hkn]%filter_fk_sub Hkc. assert (k = k0) as ->; [|by rewrite bool_decide_eq_true_2 in Hkn].
      assert (last_fk col t = Some k) as Hlk by (by apply last_fk_Some). assert (last_fk col t = Some k0) by (by apply last_fk_Some). congruence. }
    rewrite Hv. unfold view in Hv |- *. change (find_column col t') with (find_column col t). rewrite Hnone. destruct (find_column col t) as [c'|]; [|done].
    cbn in Hv |- *. by simplify_eq.
  + apply (filter_fks_view m (λ k, negb (bool_decide (fk_name k = name))) t t' col); try done.
    intros k Hk Hkn. apply negb_false_iff, bool_decide_eq_true in Hkn. by rewrite (Huniq k Hk Hkn).
Qed.
Lemma add_key_does col fname target rule t t' : table_ok t → fits (AddForeignKey col fname target rule) (view col t) → exec_ddl (AddForeignKey col fname target rule) t = Some t' → does (AddForeignKey col fname target rule) t t'.
Proof.
  intros Hok Hfit He. unfold does. cbn [exec_ddl ddl_col fits] in *.
  destruct (find_column col t) as [c|] eqn:Hc; [|done]. cbn in He. destruct (bool_decide (pg_name fname ∈ _)) eqn:Hnm; [done|]. destruct (forallb _ _); [|done]. simplify_eq.
  apply bool_decide_eq_false in Hnm. destruct Hfit as [c' Hv]. unfold view in Hv. rewrite Hc in Hv. cbn in Hv. injection Hv as <- Hnone.
  rewrite last_fk_None in Hnone by done. destruct Hok as [H1 H2 H3 H4]. assert (table_ok t) as Hok by done. set (t' := set_fks _ t).
  assert (table_ok t') as Hok'.
  { split; cbn; [done| | |].
    - rewrite map_app. apply NoDup_app. split_and!; [done| |apply NoDup_singleton]. intros x Hx Hx'%list_elem_of_singleton. cbn in Hx'. by subst.
    - rewrite map_app. apply NoDup_app. split_and!; [done| |apply NoDup_singleton]. intros x Hx Hx'%list_elem_of_singleton. cbn in Hx'. subst.
      apply list_elem_of_fmap in Hx as (k & Hk & Hin). by destruct (Hnone k Hin).
    - intros k [Hk|Hk%list_elem_of_singleton]%elem_of_app; [by apply H4|]. subst k. cbn. apply find_column_Some in Hc as [Hin <-]; [|done]. apply list_elem_of_fmap. by exists c. }
  split; [done|]. intros m. unfold view. change (find_column m t') with (find_column m t). case_decide as Hn.
  + subst m. rewrite Hc. cbn -[last_fk]. do 2 f_equal. apply last_fk_Some; [done|]. split; [|done]. cbn. apply elem_of_app. right. by apply list_elem_of_singleton.
  + destruct (find_column m t) as [x|]; [|done]. cbn -[last_fk]. do 2 f_equal. apply option_eq. intros k. rewrite !last_fk_Some by done. cbn. rewrite elem_of_app, list_elem_of_singleton.
    split; [intros [[Hk|Hk] Hkc]; [done|subst k; cbn in Hkc; congruence]|tauto].
Qed.
Lemma on_column_does col g t d : ddl_col d = col → (∀ c, col_name (g c) = col_name c) → table_ok t → view_exec d (view col t) = (λ '(c, k), (g c, k)) <$> view col t →
  does d t (on_column col g t).
Proof.
  intros Hd Hg Hok Hv. split; [by apply on_column_ok|]. intros name. rewrite (map_view name t _ g col) by done. rewrite Hd. case_decide; [|done]. by subst.
Qed.
Lemma exec_view d t t' : table_ok t → fits d (view (ddl_col d) t) → exec_ddl d t = Some t' → does d t t'.
Proof.
  intros Hok Hfit He. destruct d as [col ty|col|col|col sql|col|col|col ty using_|col name|col fname target rule].
  - by apply add_column_does.
  - cbn in He. destruct (find_column col t) as [c|]; [|done]. cbn in He. destruct (all_set col t); [|done]. injection He as <-. apply on_column_does; try done. by destruct (view col t) as [[]|].
  - cbn in He. destruct (find_column col t) as [c|]; [|done]. cbn in He. destruct (bool_decide _); [done|]. injection He as <-. apply on_column_does; try done. by destruct (view col t) as [[]|].
  - cbn in He. destruct (find_column col t) as [c|] eqn:Hc; [|done]. cbn in He. injection He as <-. apply on_column_does; try done. unfold view. by rewrite Hc.
  - cbn in He. destruct (find_column col t) as [c|]; [|done]. cbn in He. injection He as <-. apply on_column_does; try done. by destruct (view col t) as [[]|].
  - by apply drop_column_does.
  - by apply (alter_type_does col ty using_).
  - by apply drop_constraint_does.
  - by apply add_key_does.
Qed.
End Effects.
