(* ===== verification/SchemaConverge.v ===== *)
(** * A table and its declaration (core/src/schema_sync.rs)

    The statements that [generate_ddl] writes for the difference that [compute_diff] finds,
    once they have gone through, leave none; and what they make of every cell of every row. *)

From stdpp Require Import base numbers pretty gmap strings sets list.
From S2P Require Import Prelude Str Ident Json DataTypes Ownership Records SchemaSync.

(** ** The difference is removed *)

Section Converge.
Context `{!Catalog} (bigdecimal : string → option string) (json_to_string : JsonValue → string).
Notation field_changes := (field_changes bigdecimal json_to_string).
Notation compute_diff := (compute_diff bigdecimal json_to_string).
Notation emit := (emit_ddl_phases bigdecimal json_to_string).
Notation generate_ddl := (generate_ddl bigdecimal json_to_string).
Notation desired_default := (desired_default bigdecimal json_to_string).
Notation resolve_pg_type := (resolve_pg_type bigdecimal).

Definition about (name : string) (l : list Ddl) : list Ddl := List.filter (λ d, bool_decide (ddl_col d = name)) l.
Fixpoint fits_all (l : list Ddl) (v : option (Column * option ForeignKey)) : Prop :=
  match l with [] => True | d :: l => fits d v ∧ fits_all l (view_exec d v) end.
Fixpoint went_all (l : list Ddl) (v : option (Column * option ForeignKey)) : Prop :=
  match l with [] => True | d :: l => went d v ∧ went_all l (view_exec d v) end.
Lemma exec_all_view l t t' : table_ok t → (∀ name, fits_all (about name l) (view name t)) → exec_all l t = Some t' →
  table_ok t' ∧ ∀ name, went_all (about name l) (view name t) ∧ view name t' = foldl (λ v d, view_exec d v) (view name t) (about name l).
Proof.
  revert t. induction l as [|d l IH]; intros t Hok Hfit He; cbn in He; [simplify_eq; by split|].
  destruct (exec_ddl d t) as [t1|] eqn:Hd; [|done]. cbn in He.
  assert (fits d (view (ddl_col d) t)) as Hf. { specialize (Hfit (ddl_col d)). unfold about in Hfit. cbn in Hfit. rewrite bool_decide_eq_true_2 in Hfit by done. apply Hfit. }
  destruct (exec_view d t t1 Hok Hf Hd) as [Hok1 Hv]. destruct (IH t1 Hok1) as [Hok' Hv']; [|done|split; [done|]].
  - intros name. specialize (Hfit name). unfold about in Hfit. cbn in Hfit. rewrite Hv. case_decide as Hn.
    + rewrite bool_decide_eq_true_2 in Hfit by done. apply Hfit.
    + by rewrite bool_decide_eq_false_2 in Hfit by done.
  - intros name. destruct (Hv' name) as [Hw ->]. rewrite Hv in Hw |- *. unfold about. cbn. case_decide as Hn.
    + rewrite bool_decide_eq_true_2 by done. cbn. split; [|done]. split; [|done]. subst name. by eapply exec_went.
    + by rewrite bool_decide_eq_false_2 by done.
Qed.

Definition diff_col (c : ColumnDiff) : string :=
  match c with
  | DiffAdd f _ => fname f
  | DiffDrop col | DiffAlterType col _ _ | DiffSetNotNull col | DiffDropNotNull col | DiffSetDefault col _ | DiffDropDefault col | DiffReplaceFk col _ _ _ _ => col
  end.
Definition ddl_of (cs : list ColumnDiff) : list Ddl := concat (map (λ p, concat (map (λ c, emit c p) cs)) phases).
Lemma emit_col c p d : d ∈ emit c p → ddl_col d = diff_col c.
Proof.
  destruct c; do 7 (destruct p as [|p]; [cbn; repeat case_match; try (by intros []%elem_of_nil); by intros ->%list_elem_of_singleton|]); by intros []%elem_of_nil.
Qed.
Lemma filter_all {A : Type} (P : A → bool) l : (∀ x, x ∈ l → P x = true) → List.filter P l = l.
Proof. induction l as [|x l IH]; intros Hp; [done|]. cbn. rewrite Hp by set_solver. f_equal. apply IH. set_solver. Qed.
Lemma filter_none {A : Type} (P : A → bool) l : (∀ x, x ∈ l → P x = false) → List.filter P l = [].
Proof. induction l as [|x l IH]; intros Hp; [done|]. cbn. rewrite Hp by set_solver. apply IH. set_solver. Qed.
Lemma filter_concat {A : Type} (P : A → bool) ll : List.filter P (concat ll) = concat (map (List.filter P) ll).
Proof. induction ll as [|l ll IH]; [done|]. cbn. by rewrite List.filter_app, IH. Qed.
Definition changes_of (name : string) (cs : list ColumnDiff) : list ColumnDiff := List.filter (λ c, bool_decide (diff_col c = name)) cs.
Lemma about_ddl name cs : about name (ddl_of cs) = ddl_of (changes_of name cs).
Proof.
  unfold about, ddl_of, changes_of. rewrite filter_concat, map_map. f_equal. apply map_ext. intros p. rewrite filter_concat, map_map.
  induction cs as [|c cs IH]; [done|]. cbn. destruct (bool_decide (diff_col c = name)) eqn:Hc; cbn; rewrite <-IH.
  - f_equal. apply filter_all. intros d Hd. apply emit_col in Hd. by rewrite Hd.
  - rewrite (filter_none _ (emit c p)); [done|]. intros d Hd. apply emit_col in Hd. by rewrite Hd.
Qed.

(** What is introspected of a column. *)
Definition shown (v : Column * option ForeignKey) : DbColumn :=
  {| c_name := col_name v.1; c_type := col_type v.1; c_not_null := col_not_null v.1; c_default := col_default v.1;
     c_fk := (λ k, {| constraint_name := fk_name k; delete_rule := fk_rule k |}) <$> v.2 |}.
Lemma column_named_view t name : column_named (introspect_table (Some t)) name = shown <$> view name t.
Proof.
  unfold column_named, view, find_column. cbn. assert (∀ l, List.find (λ c, bool_decide (c_name c = name)) (map (db_column t) l)
    = shown <$> ((λ c, (c, last_fk name t)) <$> List.find (λ c, bool_decide (col_name c = name)) l)) as Hg; [|apply Hg].
  induction l as [|c l IH]; [done|]. cbn. destruct (bool_decide (col_name c = name)) eqn:Hn; [|done]. apply bool_decide_eq_true in Hn. cbn. unfold db_column, shown. cbn. by rewrite Hn.
Qed.

Context (schema table : string) (pk_types : gmap string string) (fields : list FieldContract).
(** PostgreSQL shows the types of the declared fields as [normalize_pg_type] writes them,
    and a default that is set, or carried through a change of type, as one that matches. *)
Record shows_declared : Prop := {
  sd_valid : ∀ f, f ∈ fields → is_Some (desired_default f);
  sd_type : ∀ f ty, f ∈ fields → resolve_pg_type f pk_types = Some ty → format_type ty = normalize_pg_type ty;
  sd_default : ∀ f ty sql, f ∈ fields → desired_default f = Some (Some sql) → defaults_match (show_default ty sql) sql = true;
  sd_alter : ∀ f from to d d' sql, f ∈ fields → desired_default f = Some (Some sql) → defaults_match d sql = true → alter_default from to d = Some d' → defaults_match d' sql = true }.

Lemma field_changes_col column f l c : field_changes schema table pk_types column f = Some l → c ∈ l → diff_col c = fname f.
Proof.
  unfold SchemaSync.field_changes. destruct (is_system_field _); [by intros [= <-] []%elem_of_nil|]. destruct (SchemaSync.resolve_pg_type _ _ _) as [ty|]; [|done]. cbn.
  destruct (column (fname f)) as [x|]; [|intros [= <-]; by intros ->%list_elem_of_singleton]. destruct (SchemaSync.desired_default _ _ _) as [d|]; [|done]. cbn. intros [= <-].
  unfold type_changes, null_changes, default_changes, fk_changes. rewrite !elem_of_app.
  intros [Hc|[Hc|[Hc|Hc]]]; repeat case_match; try (by apply elem_of_nil in Hc); by apply list_elem_of_singleton in Hc as ->.
Qed.

(** The statements for a field that is there, in the order of the phases. *)
Definition alter_part (f : FieldContract) (ty : string) (c : Column) : list Ddl :=
  if bool_decide (col_type c = normalize_pg_type ty) then [] else [AlterType (fname f) ty (generate_using_clause (fname f) ty)].
Definition null_part (f : FieldContract) (c : Column) : list Ddl :=
  let want := required f && negb (is_pk f) in
  if want && negb (col_not_null c) then [SetNotNull_ (fname f)] else if negb want && col_not_null c && negb (is_pk f) then [DropNotNull_ (fname f)] else [].
Definition default_part (f : FieldContract) (desired : option string) (c : Column) : list Ddl :=
  match col_default c, desired with
  | None, Some sql => [SetDefault_ (fname f) sql]
  | Some _, None => [DropDefault_ (fname f)]
  | Some existing, Some sql => if defaults_match existing sql then [] else [SetDefault_ (fname f) sql]
  | None, None => []
  end.
Definition fk_part (f : FieldContract) (v : Column * option ForeignKey) (p : nat) : list Ddl := concat (map (λ c, emit c p) (fk_changes schema table f (shown v))).
Lemma ddl_of_field f ty dd c k :
  ddl_of (type_changes f ty (shown (c, k)) ++ null_changes f (shown (c, k)) ++ default_changes f dd (shown (c, k)) ++ fk_changes schema table f (shown (c, k)))
  = fk_part f (c, k) 0 ++ alter_part f ty c ++ null_part f c ++ default_part f dd c ++ fk_part f (c, k) 5.
Proof.
  unfold fk_part, alter_part, null_part, default_part, ddl_of, phases.
  assert (∃ K, fk_changes schema table f (shown (c, k)) = K ∧ (K = [] ∨ ∃ a b d e g, K = [DiffReplaceFk a b d e g])) as (K & -> & HK).
  { eexists. split; [done|]. unfold fk_changes. repeat case_match; eauto 10. }
  unfold type_changes, null_changes, default_changes. cbn [shown c_type c_not_null c_default fst snd].
  destruct (bool_decide (col_type c = normalize_pg_type ty)), (required f && negb (is_pk f)), (is_pk f), (col_not_null c); cbn [andb negb];
    destruct (col_default c) as [d0|], dd as [sql|]; try destruct (defaults_match d0 sql); destruct HK as [->|(?&?&?&?&?&->)]; reflexivity.
Qed.
Notation seen_after l v := (foldl (λ x d, view_exec d x) v l).
Lemma went_all_app l1 l2 v : went_all (l1 ++ l2) v ↔ went_all l1 v ∧ went_all l2 (seen_after l1 v).
Proof. revert v. induction l1 as [|d l1 IH]; intros v; cbn; [tauto|]. rewrite IH. tauto. Qed.
Lemma fits_all_app l1 l2 v : fits_all (l1 ++ l2) v ↔ fits_all l1 v ∧ fits_all l2 (seen_after l1 v).
Proof. revert v. induction l1 as [|d l1 IH]; intros v; cbn; [tauto|]. rewrite IH. tauto. Qed.
Lemma fk_drop_effect f c k : fits_all (fk_part f (c, k) 0) (Some (c, k)) ∧
  seen_after (fk_part f (c, k) 0) (Some (c, k)) = Some (c, match fk_part f (c, k) 0 with nil => k | cons _ _ => None end).
Proof.
  unfold fk_part, fk_changes. destruct (bool_decide (field_type f = _)); [|done]. cbn [shown c_fk snd]. destruct k as [k|]; cbn [fmap option_fmap option_map]; [|done].
  destruct (references f) as [r|]; [|done]. cbn [delete_rule]. destruct (bool_decide _); [done|]. destruct (fk_target _ _) as [[s e]|]; [|done]. cbn. split; [|done]. split; [|done]. by exists c, k.
Qed.
Lemma alter_effect f ty c k : format_type ty = normalize_pg_type ty → went_all (alter_part f ty c) (Some (c, k)) →
  ∃ c1, seen_after (alter_part f ty c) (Some (c, k)) = Some (c1, k) ∧ col_name c1 = col_name c ∧ col_type c1 = normalize_pg_type ty ∧ col_not_null c1 = col_not_null c
    ∧ (col_default c1 = col_default c ∨ ∃ x y, col_default c = Some x ∧ alter_default (col_type c) ty x = Some y ∧ col_default c1 = Some y).
Proof.
  intros Hty. unfold alter_part. destruct (bool_decide _) eqn:He; [apply bool_decide_eq_true in He; intros _; exists c; by split_and!; [..|left]|].
  cbn. intros [Hw _]. eexists. split; [done|]. cbn. split_and!; [done|done|done|]. destruct (col_default c) as [x|]; [|by left]. right.
  destruct (Hw x eq_refl) as [y Hy]. by exists x, y.
Qed.
Lemma null_effect f c k : ∃ c1, seen_after (null_part f c) (Some (c, k)) = Some (c1, k) ∧ col_type c1 = col_type c ∧ col_default c1 = col_default c
  ∧ null_changes f (shown (c1, k)) = [] ∧ fits_all (null_part f c) (Some (c, k)).
Proof.
  unfold null_part, null_changes. destruct (required f && negb (is_pk f)) eqn:Hw, (col_not_null c) eqn:Hn; cbn [andb negb].
  - exists c. cbn. by rewrite Hn.
  - exists (with_null true c). by cbn.
  - destruct (is_pk f) eqn:Hp; cbn [negb]; [exists c; cbn; by rewrite Hn|exists (with_null false c); by cbn].
  - exists c. cbn. by rewrite Hn.
Qed.
Lemma default_effect f c0 c k dd : shows_declared → f ∈ fields → desired_default f = Some dd →
  col_default c = col_default c0 ∨ (∃ from ty x y, col_default c0 = Some x ∧ alter_default from ty x = Some y ∧ col_default c = Some y) →
  ∃ c1, seen_after (default_part f dd c0) (Some (c, k)) = Some (c1, k) ∧ col_type c1 = col_type c ∧ col_not_null c1 = col_not_null c
    ∧ default_changes f dd (shown (c1, k)) = [] ∧ fits_all (default_part f dd c0) (Some (c, k)).
Proof.
  intros Hs Hf Hdd Hd. unfold default_part. destruct (col_default c0) as [x|] eqn:H0, dd as [sql|].
  - destruct (defaults_match x sql) eqn:Hm.
    + exists c. split_and!; [done|done|done| |done]. unfold default_changes. cbn. destruct Hd as [->|(from & ty & x' & y & [= <-] & Hy & ->)]; [by rewrite Hm|].
      by rewrite (sd_alter Hs f from ty x y sql Hf Hdd Hm Hy).
    + exists (with_default (Some (show_default (col_type c) sql)) c). split_and!; [done|done|done| |done]. unfold default_changes. cbn. by rewrite (sd_default Hs f _ sql Hf Hdd).
  - exists (with_default None c). by split_and!.
  - exists (with_default (Some (show_default (col_type c) sql)) c). split_and!; [done|done|done| |done]. unfold default_changes. cbn. by rewrite (sd_default Hs f _ sql Hf Hdd).
  - exists c. split_and!; [done|done|done| |done]. unfold default_changes. cbn. destruct Hd as [->|(from & ty & x' & y & [=] & _)]. done.
Qed.
Lemma fk_add_effect f c0 k c : let k0 := match fk_part f (c0, k) 0 with nil => k | cons _ _ => None end in
  ∃ k1, seen_after (fk_part f (c0, k) 5) (Some (c, k0)) = Some (c, k1) ∧ fk_changes schema table f (shown (c, k1)) = [] ∧ fits_all (fk_part f (c0, k) 5) (Some (c, k0)).
Proof.
  cbv zeta. unfold fk_part. assert (fk_changes schema table f (shown (c0, k)) = fk_changes schema table f (shown (c, k))) as -> by done.
  destruct (fk_changes schema table f (shown (c, k))) as [|x l] eqn:Hk; [exists k; by split_and!|].
  unfold fk_changes in Hk. destruct (bool_decide (field_type f = "entity_link")) eqn:Hl; [|done]. cbn [shown c_fk snd] in Hk. destruct k as [k|]; [|done].
  cbn [fmap option_fmap option_map] in Hk. destruct (references f) as [r|] eqn:Hr; [|done]. cbn [delete_rule] in Hk. destruct (bool_decide (pg_delete_rule_char_to_str (fk_rule k) = resolve_on_delete f)); [done|].
  destruct (fk_target schema (ref_entity r)) as [[ts te]|] eqn:Ht; [|done]. injection Hk as <- <-. cbn [map concat emit_ddl_phases app].
  eexists. split; [done|]. split; [|cbn; split; [by exists c|done]]. unfold fk_changes. rewrite Hl. cbn [shown c_fk snd]. cbn [fmap option_fmap option_map delete_rule fk_rule]. rewrite Hr.
  by rewrite bool_decide_eq_true_2 by apply rule_char_back.
Qed.
(** The statements for a field leave nothing to do. *)
Lemma field_settled f v l : shows_declared → f ∈ fields → field_changes schema table pk_types (λ _, shown <$> v) f = Some l → went_all (ddl_of l) v →
  field_changes schema table pk_types (λ _, shown <$> seen_after (ddl_of l) v) f = Some [].
Proof.
  intros Hs Hf Hl Hw. unfold SchemaSync.field_changes in Hl |- *. destruct (is_system_field (fname f)); [done|].
  destruct (SchemaSync.resolve_pg_type _ f pk_types) as [ty|] eqn:Hres; [|done]. cbn [mbind option_bind] in Hl |- *. pose proof (sd_type Hs f ty Hf Hres) as Hty.
  destruct (sd_valid Hs f Hf) as [dd Hdd]. rewrite Hdd in Hl |- *.
  destruct v as [[c k]|]; cbn [fmap option_fmap option_map mbind option_bind] in Hl; injection Hl as <-.
  - rewrite ddl_of_field in Hw |- *. rewrite !went_all_app in Hw. destruct Hw as (_ & Hw & _). rewrite !foldl_app.
    destruct (fk_drop_effect f c k) as [_ E0]. rewrite E0 in Hw |- *.
    destruct (alter_effect f ty c (match fk_part f (c, k) 0 with nil => k | cons _ _ => None end) Hty Hw) as (c1 & E1 & _ & Ht1 & Hn1 & Hd1). rewrite E1.
    assert (null_part f c = null_part f c1) as -> by (unfold null_part; by rewrite Hn1).
    destruct (null_effect f c1 (match fk_part f (c, k) 0 with nil => k | cons _ _ => None end)) as (c2 & E2 & Ht2 & Hd2 & Hn2 & _). rewrite E2.
    destruct (default_effect f c c2 (match fk_part f (c, k) 0 with nil => k | cons _ _ => None end) dd Hs Hf Hdd) as (c3 & E3 & Ht3 & Hn3 & Hd3 & _).
    { rewrite Hd2. destruct Hd1 as [->|(x & y & H1 & H2 & H3)]; [by left|right]. by exists (col_type c), ty, x, y. }
    rewrite E3. destruct (fk_add_effect f c k c3) as (k1 & E4 & Hk & _). rewrite E4. cbn [fmap option_fmap option_map mbind option_bind].
    assert (type_changes f ty (shown (c3, k1)) = []) as -> by (unfold type_changes; cbn; rewrite bool_decide_eq_true_2; congruence).
    assert (null_changes f (shown (c3, k1)) = []) as -> by (unfold null_changes in *; cbn in *; by rewrite Hn3).
    assert (default_changes f dd (shown (c3, k1)) = []) as -> by done. by rewrite Hk.
  - unfold ddl_of, phases in Hw |- *. cbn [seq map concat emit_ddl_phases app] in Hw |- *. rewrite !app_nil_r. cbn [foldl view_exec]. rewrite foldl_app.
    set (c0 := {| col_name := _ |}).
    assert (∃ c1, seen_after (if required f then [SetNotNull_ (fname f)] else []) (Some (c0, None)) = Some (c1, None) ∧ col_type c1 = format_type ty ∧ col_default c1 = None
      ∧ null_changes f (shown (c1, None)) = []) as (c1 & E1 & Ht1 & Hd1 & Hn1).
    { unfold null_changes. destruct (required f); [exists (with_null true c0)|exists c0]; cbn; split_and!; try done. by destruct (is_pk f). }
    rewrite E1.
    assert (∃ c2, seen_after (match (v ← default_value f; t ← ok (from_field bigdecimal f); sql_default bigdecimal json_to_string v t) with Some sql => [SetDefault_ (fname f) sql] | None => [] end)
        (Some (c1, None)) = Some (c2, None) ∧ col_type c2 = format_type ty ∧ col_not_null c2 = col_not_null c1 ∧ default_changes f dd (shown (c2, None)) = []) as (c2 & E2 & Ht2 & Hn2 & Hd2).
    { pose proof Hdd as Hx. unfold SchemaSync.desired_default in Hx. destruct (default_value f) as [v|]; cbn [mbind option_bind] in Hx |- *.
      - destruct (ok (from_field bigdecimal f)) as [t|]; [|done]. cbn [mbind option_bind] in Hx |- *. injection Hx as <-.
        destruct (sql_default bigdecimal json_to_string v t) as [sql|]; [|exists c1; unfold default_changes; cbn; by rewrite Hd1].
        exists (with_default (Some (show_default (col_type c1) sql)) c1). unfold default_changes. cbn. split_and!; [done|done|done|]. by rewrite (sd_default Hs f _ sql Hf Hdd).
      - injection Hx as <-. exists c1. unfold default_changes. cbn. by rewrite Hd1. }
    rewrite E2. cbn [fmap option_fmap option_map mbind option_bind].
    assert (type_changes f ty (shown (c2, None)) = []) as -> by (unfold type_changes; cbn; rewrite bool_decide_eq_true_2; congruence).
    assert (null_changes f (shown (c2, None)) = []) as -> by (unfold null_changes in *; cbn in *; by rewrite Hn2).
    rewrite Hd2. unfold fk_changes. by destruct (bool_decide _).
Qed.

Definition plain (d : Ddl) : bool := match d with AlterType _ _ _ | SetNotNull_ _ | DropNotNull_ _ | SetDefault_ _ _ | DropDefault_ _ => true | _ => false end.
Definition no_key (d : Ddl) : bool := match d with DropConstraint _ _ | AddForeignKey _ _ _ _ => false | _ => true end.
Lemma plain_keeps l c k : forallb plain l = true → ∃ c', seen_after l (Some (c, k)) = Some (c', k).
Proof.
  revert c. induction l as [|d l IH]; intros c; cbn; [by exists c|]. intros [Hd Hl]%andb_true_iff. destruct d; cbn in *; try done; by apply IH.
Qed.
Lemma no_key_fits l v : forallb no_key l = true → fits_all l v.
Proof. revert v. induction l as [|d l IH]; intros v; cbn; [done|]. intros [Hd Hl]%andb_true_iff. split; [by destruct d|by apply IH]. Qed.
Lemma plain_no_key l : forallb plain l = true → forallb no_key l = true.
Proof. intros Hp. apply forallb_forall. intros d Hd. rewrite forallb_forall in Hp. specialize (Hp d Hd). by destruct d. Qed.
Lemma parts_plain f ty c dd : forallb plain (alter_part f ty c ++ null_part f c ++ default_part f dd c) = true.
Proof. unfold alter_part, null_part, default_part. rewrite !forallb_app. repeat case_match; done. Qed.
Lemma field_fits f v l : field_changes schema table pk_types (λ _, shown <$> v) f = Some l → fits_all (ddl_of l) v.
Proof.
  intros Hl. unfold SchemaSync.field_changes in Hl. destruct (is_system_field (fname f)); [by simplify_eq|]. destruct (SchemaSync.resolve_pg_type _ f pk_types) as [ty|]; [|done].
  cbn [mbind option_bind] in Hl. destruct v as [[c k]|]; cbn [fmap option_fmap option_map] in Hl.
  - destruct (SchemaSync.desired_default _ _ f) as [dd|]; [|done]. cbn [mbind option_bind] in Hl. injection Hl as <-. rewrite ddl_of_field.
    pose proof (parts_plain f ty c dd) as Hp. rewrite (app_assoc (null_part f c)), (app_assoc (alter_part f ty c)).
    set (pl := alter_part f ty c ++ _) in *. rewrite fits_all_app. destruct (fk_drop_effect f c k) as [F0 ->].
    rewrite fits_all_app. destruct (plain_keeps _ c (match fk_part f (c, k) 0 with nil => k | cons _ _ => None end) Hp) as [c' ->].
    split_and!; [done|by apply no_key_fits, plain_no_key|]. destruct (fk_add_effect f c k c') as (k1 & _ & _ & F). exact F.
  - injection Hl as <-. apply no_key_fits. unfold ddl_of, phases. cbn [seq map concat emit_ddl_phases app]. rewrite !app_nil_r. cbn. rewrite forallb_app. repeat case_match; done.
Qed.
Lemma field_changes_ext col1 col2 f : col1 (fname f) = col2 (fname f) → field_changes schema table pk_types col1 f = field_changes schema table pk_types col2 f.
Proof. intros He. unfold SchemaSync.field_changes. by rewrite He. Qed.
Lemma changes_none name column fs changes : mapM (field_changes schema table pk_types column) fs = Some changes → name ∉ map fname fs → changes_of name (concat changes) = [].
Proof.
  intros Hm Hni. apply filter_none. intros c Hc. apply bool_decide_eq_false. intros <-. apply Hni.
  apply list_elem_of_In, in_concat in Hc as (l & Hl & Hc). rewrite <-list_elem_of_In in Hc. apply list_elem_of_In in Hl.
  apply mapM_Some in Hm. apply list_elem_of_lookup in Hl as [i Hi]. destruct (Forall2_lookup_r _ _ _ _ _ Hm Hi) as (f & Hf & Hfc).
  rewrite (field_changes_col _ _ _ _ Hfc Hc). apply list_elem_of_fmap. exists f. split; [done|]. by eapply list_elem_of_lookup_2.
Qed.
Lemma changes_one f column fs changes l : mapM (field_changes schema table pk_types column) fs = Some changes → NoDup (map fname fs) → f ∈ fs →
  field_changes schema table pk_types column f = Some l → changes_of (fname f) (concat changes) = l.
Proof.
  revert changes. induction fs as [|g fs IH]; intros changes Hm Hnd Hin Hl; [by apply elem_of_nil in Hin|]. cbn in Hm, Hnd. apply NoDup_cons in Hnd as [Hni Hnd].
  destruct (field_changes schema table pk_types column g) as [lg|] eqn:Hg; [|done]. cbn in Hm. destruct (mapM _ fs) as [ls|] eqn:Hfs; [|done]. cbn in Hm. injection Hm as <-. cbn.
  unfold changes_of. rewrite List.filter_app. apply elem_of_cons in Hin as [->|Hin].
  - rewrite Hg in Hl. injection Hl as ->. pose proof (changes_none _ _ _ _ Hfs Hni) as Hno. unfold changes_of in Hno. rewrite Hno, app_nil_r.
    apply filter_all. intros c Hc. apply bool_decide_eq_true. by eapply field_changes_col.
  - rewrite (filter_none _ lg); [by apply IH|]. intros c Hc. apply bool_decide_eq_false. rewrite (field_changes_col _ _ _ _ Hg Hc). intros He. apply Hni. rewrite He.
    by apply list_elem_of_fmap_2.
Qed.
Lemma drops_of name cols : changes_of name (concat (map (dropped fields) cols)) =
  if is_system_field name || bool_decide (name ∈ map fname fields) then [] else map DiffDrop (List.filter (λ n, bool_decide (n = name)) (map c_name cols)).
Proof.
  induction cols as [|c cols IH]; cbn; [by case_match|]. unfold changes_of in *. rewrite List.filter_app, IH. unfold dropped.
  destruct (bool_decide (c_name c = name)) eqn:Hn.
  - apply bool_decide_eq_true in Hn. subst name. destruct (is_system_field (c_name c)); cbn; [done|]. destruct (bool_decide (c_name c ∈ _)); cbn; [done|]. by rewrite bool_decide_eq_true_2 by done.
  - destruct (is_system_field (c_name c)); cbn; [done|]. destruct (bool_decide (c_name c ∈ map fname fields)); cbn; [done|]. rewrite Hn. done.
Qed.
(** What the statements of a whole difference are for one column. *)
Lemma ddl_of_drops name n : ddl_of (map DiffDrop (repeat name n)) = repeat (DropColumn name) n.
Proof.
  unfold ddl_of, phases. cbn [seq map concat app]. rewrite app_nil_r. do 6 (rewrite (proj2 (concat_nil_Forall _)); [cbn [app]|apply List.Forall_map, List.Forall_map, List.Forall_forall; done]).
  induction n as [|n IH]; [done|]. cbn in *. by rewrite IH.
Qed.
Lemma filter_repeat name (l : list string) : ∃ n, List.filter (λ m, bool_decide (m = name)) l = repeat name n ∧ (name ∈ l ↔ n ≠ 0).
Proof.
  induction l as [|m l (n & E & Hn)]; [by exists 0; split; [|split; [intros []%elem_of_nil|]]|]. cbn. destruct (bool_decide (m = name)) eqn:Hm.
  - apply bool_decide_eq_true in Hm as ->. exists (S n). cbn. rewrite E. split; [done|]. split; [done|]. intros _. apply elem_of_cons. by left.
  - apply bool_decide_eq_false in Hm. exists n. split; [done|]. rewrite <-Hn, elem_of_cons. split; [by intros [->|?]|by right].
Qed.
Lemma diff_column t d name : NoDup (map fname fields) → compute_diff schema table (introspect_table (Some t)) fields pk_types = Some d →
  (∃ f l, f ∈ fields ∧ fname f = name ∧ field_changes schema table pk_types (λ _, shown <$> view name t) f = Some l ∧ about name (generate_ddl d) = ddl_of l)
  ∨ (name ∉ map fname fields ∧ is_system_field name = true ∧ about name (generate_ddl d) = [])
  ∨ (name ∉ map fname fields ∧ is_system_field name = false ∧ ∃ n, about name (generate_ddl d) = repeat (DropColumn name) n ∧ (name ∈ map col_name (t_columns t) ↔ n ≠ 0)).
Proof.
  intros Hnd Hd. unfold SchemaSync.compute_diff in Hd. destruct (mapM _ fields) as [changes|] eqn:Hm; [|done]. cbn [mbind option_bind] in Hd. injection Hd as <-.
  change (SchemaSync.generate_ddl _ _ ?d) with (ddl_of (d_changes d)). cbn [d_changes]. rewrite about_ddl. unfold changes_of. rewrite List.filter_app. fold (changes_of name (concat changes)).
  change (List.filter _ (concat (map _ _))) with (changes_of name (concat (map (dropped fields) (introspect_table (Some t))))). rewrite drops_of.
  destruct (decide (name ∈ map fname fields)) as [Hin|Hni].
  - left. apply list_elem_of_fmap in Hin as (f & -> & Hf). pose proof Hm as Hm'. apply mapM_Some in Hm'. apply list_elem_of_lookup in Hf as [i Hi].
    destruct (Forall2_lookup_l _ _ _ _ _ Hm' Hi) as (l & _ & Hl). apply list_elem_of_lookup_2 in Hi. exists f, l. split_and!; [done|done| |].
    + rewrite <-Hl. apply field_changes_ext. by rewrite column_named_view.
    + rewrite (changes_one f _ _ _ l Hm Hnd Hi Hl). rewrite (bool_decide_eq_true_2 (fname f ∈ _)) by (by apply list_elem_of_fmap_2). by rewrite orb_true_r, app_nil_r.
  - right. rewrite (changes_none _ _ _ _ Hm Hni). rewrite (bool_decide_eq_false_2 _ Hni), orb_false_r. destruct (is_system_field name); [left|right]; split_and!; try done.
    assert (map c_name (introspect_table (Some t)) = map col_name (t_columns t)) as -> by (cbn; by rewrite map_map).
    destruct (filter_repeat name (map col_name (t_columns t))) as (n & E & Hn). exists n. split; [|done]. rewrite E. cbn [app]. apply ddl_of_drops.
Qed.
Lemma drop_fits n name v : fits_all (repeat (DropColumn name) n) v.
Proof. apply no_key_fits. by induction n. Qed.
Lemma drop_gone n name v : n ≠ 0 → seen_after (repeat (DropColumn name) n) v = None.
Proof.
  destruct n as [|n]; [done|]. intros _. destruct v as [[]|]; cbn; by induction n.
Qed.
Lemma diff_fits t d : NoDup (map fname fields) → compute_diff schema table (introspect_table (Some t)) fields pk_types = Some d →
  ∀ name, fits_all (about name (generate_ddl d)) (view name t).
Proof.
  intros Hnd Hd name. destruct (diff_column t d name Hnd Hd) as [(f & l & _ & <- & Hl & ->)|[(_ & _ & ->)|(_ & _ & n & -> & _)]]; [by eapply field_fits|done|apply drop_fits].
Qed.
(** The table after the statements, seen through [introspect_table], differs in nothing
    from the declaration. *)
Lemma synced t d t' : table_ok t → NoDup (map fname fields) → shows_declared →
  compute_diff schema table (introspect_table (Some t)) fields pk_types = Some d → exec_all (generate_ddl d) t = Some t' →
  table_ok t' ∧ compute_diff schema table (introspect_table (Some t')) fields pk_types = Some {| d_schema := schema; d_table := table; d_changes := [] |}.
Proof.
  intros Hok Hnd Hs Hd He. destruct (exec_all_view _ _ _ Hok (diff_fits t d Hnd Hd) He) as [Hok' Hv]. split; [done|].
  assert (∀ f, f ∈ fields → field_changes schema table pk_types (column_named (introspect_table (Some t'))) f = Some []) as Hf.
  { intros f Hf. rewrite (field_changes_ext _ (λ _, shown <$> view (fname f) t')) by apply column_named_view. destruct (Hv (fname f)) as [Hw E].
    destruct (diff_column t d (fname f) Hnd Hd) as [(g & l & Hg & Hgf & Hl & Ha)|[(Hni & _)|(Hni & _)]]; [|by destruct Hni; apply list_elem_of_fmap_2..].
    assert (g = f) as ->. { apply list_elem_of_lookup in Hf as [i Hi], Hg as [j Hj]. rewrite NoDup_alt in Hnd.
      assert (i = j) as -> by (apply (Hnd i j (fname f)); rewrite list_lookup_fmap, ?Hi, ?Hj; cbn; congruence). congruence. }
    rewrite Ha in Hw, E. rewrite E. by apply field_settled. }
  assert (concat (map (dropped fields) (introspect_table (Some t'))) = []) as Hdr.
  { apply concat_nil_Forall, List.Forall_map, List.Forall_forall. intros x Hx. cbn in Hx. apply in_map_iff in Hx as (c & <- & Hc). rewrite <-list_elem_of_In in Hc. cbn.
    unfold dropped. cbn. destruct (is_system_field (col_name c)) eqn:Hsys; [done|]. destruct (bool_decide _) eqn:Hin; [done|]. apply bool_decide_eq_false in Hin. exfalso.
    assert (view (col_name c) t' ≠ None) as Hsome. { unfold view. rewrite (proj2 (find_column_Some (col_name c) t' c Hok')) by done. done. }
    apply Hsome. destruct (Hv (col_name c)) as [_ ->].
    destruct (diff_column t d (col_name c) Hnd Hd) as [(g & l & Hg & Hgf & _)|[(_ & Hsys' & _)|(_ & _ & n & -> & Hn)]].
    - destruct Hin. rewrite <-Hgf. by apply list_elem_of_fmap_2.
    - congruence.
    - destruct (decide (col_name c ∈ map col_name (t_columns t))) as [Ht|Ht]; [by apply drop_gone, Hn|].
      unfold view. rewrite (proj2 (find_column_None _ _) Ht). cbn. clear. by induction n. }
  unfold SchemaSync.compute_diff. rewrite Hdr.
  assert (∃ ls, mapM (field_changes schema table pk_types (column_named (introspect_table (Some t')))) fields = Some ls ∧ concat ls = []) as (ls & -> & Hc); [|cbn [mbind option_bind]; by rewrite Hc].
  exists (map (λ _, []) fields). split; [apply mapM_Some_2, Forall2_fmap_r, Forall_Forall2_diag, Forall_forall, Hf|clear; by induction fields].
Qed.

(** ** What becomes of the rows *)

(** What a statement makes of the cell of its column. *)
Definition cell_exec (d : Ddl) (v : option string) : option (option string) :=
  match d with AlterType _ _ using_ => cast_cell using_ v | DropColumn _ => Some None | _ => Some v end.
Fixpoint cells_exec (l : list Ddl) (v : option string) : option (option string) :=
  match l with [] => Some v | d :: l => v' ← cell_exec d v; cells_exec l v' end.
Lemma exec_cells d t t' : exec_ddl d t = Some t' →
  Forall2 (λ r r' : gmap string string, ∀ name, if decide (ddl_col d = name) then cell_exec d (r !! name) = Some (r' !! name) else r' !! name = r !! name) (t_rows t) (t_rows t').
Proof.
  assert (∀ rows, (∀ v, cell_exec d v = Some v) → Forall2 (λ r r' : gmap string string, ∀ name, if decide (ddl_col d = name) then cell_exec d (r !! name) = Some (r' !! name) else r' !! name = r !! name) rows rows) as Hsame.
  { intros rows Hd. apply Forall_Forall2_diag, Forall_true. intros r name. case_decide; [apply Hd|done]. }
  destruct d as [col ty|col|col|col sql|col|col|col ty using_|col name|col fname target rule]; cbn [exec_ddl]; intros He.
  6: { injection He as <-. cbn. apply Forall2_fmap_r, Forall_Forall2_diag, Forall_true. intros r name. case_decide as Hn; [subst; by rewrite lookup_delete_eq|by rewrite lookup_delete_ne]. }
  6: { destruct (find_column col t) as [c|]; [|done]. cbn [mbind option_bind] in He. destruct (match col_default c with Some d => _ | None => _ end) as [dd|]; [|done]. cbn [mbind option_bind] in He.
       destruct (mapM _ _) as [rows|] eqn:Hm; [|done]. injection He as <-. cbn. apply mapM_Some_1 in Hm. eapply Forall2_impl; [exact Hm|]. intros r r' Hc name. unfold cast_row in Hc.
       destruct (cast_cell using_ (r !! col)) as [[x|]|] eqn:Hx; cbn [mbind option_bind] in Hc; [injection Hc as <-| |done]; [case_decide as Hn; [subst; by rewrite lookup_insert_eq|by rewrite lookup_insert_ne]|].
       destruct (col_not_null c); [done|]. injection Hc as <-. case_decide as Hn; [subst; by rewrite lookup_delete_eq|by rewrite lookup_delete_ne]. }
  all: assert (t_rows t' = t_rows t) as ->; [|by apply Hsame]; try (by injection He as <-);
    destruct (find_column col t) as [c|]; cbn [mbind option_bind] in He; try done; repeat case_match; try done; by injection He as <-.
Qed.
Lemma exec_all_cells l t t' : exec_all l t = Some t' →
  Forall2 (λ r r' : gmap string string, ∀ name, cells_exec (about name l) (r !! name) = Some (r' !! name)) (t_rows t) (t_rows t').
Proof.
  revert t. induction l as [|d l IH]; intros t He; cbn in He; [injection He as <-; by apply Forall_Forall2_diag, Forall_true|].
  destruct (exec_ddl d t) as [t1|] eqn:Hd; [|done]. eapply Forall2_trans; [|by apply exec_cells|by apply IH]. intros r1 r2 r3 H1 H2 name. cbn in H1. specialize (H1 name). specialize (H2 name).
  unfold about in *. cbn [List.filter]. case_decide as Hn.
  - rewrite bool_decide_eq_true_2 by done. cbn [cells_exec]. by rewrite H1.
  - rewrite bool_decide_eq_false_2 by done. by rewrite <-H1.
Qed.

Definition declared (name : string) : option FieldContract := List.find (λ f, bool_decide (fname f = name)) fields.
(** What the declaration makes of a cell: it is left alone, unless its column has another
    type than the declared one, and is then converted, or is not declared, and is then
    removed with its column. *)
Definition cell_kept (t : Table) (name : string) (v v' : option string) : Prop :=
  if is_system_field name then v' = v
  else match find_column name t, declared name with
       | Some c, Some f =>
           ∃ ty, resolve_pg_type f pk_types = Some ty ∧
             if bool_decide (col_type c = normalize_pg_type ty) then v' = v else cast_cell (generate_using_clause name ty) v = Some v'
       | Some _, None => v' = None
       | None, _ => v' = v
       end.
Lemma cells_exec_app l1 l2 v : cells_exec (l1 ++ l2) v = (v' ← cells_exec l1 v; cells_exec l2 v').
Proof. revert v. induction l1 as [|d l1 IH]; intros v; [done|]. cbn. destruct (cell_exec d v); [cbn; apply IH|done]. Qed.
Definition idle (d : Ddl) : bool := match d with AlterType _ _ _ | DropColumn _ => false | _ => true end.
Lemma cells_exec_idle l v : forallb idle l = true → cells_exec l v = Some v.
Proof. induction l as [|d l IH]; [done|]. cbn. intros [Hd Hl]%andb_true_iff. destruct d; try done; by apply IH. Qed.
Lemma fk_part_idle f v p : forallb idle (fk_part f v p) = true.
Proof. unfold fk_part, fk_changes. repeat case_match; try done; cbn; do 6 (destruct p as [|p]; [done|]); done. Qed.
Lemma field_cells f v l x x' : is_system_field (fname f) = false → field_changes schema table pk_types (λ _, shown <$> v) f = Some l → cells_exec (ddl_of l) x = Some x' →
  match v with
  | Some (c, _) => ∃ ty, resolve_pg_type f pk_types = Some ty ∧
      if bool_decide (col_type c = normalize_pg_type ty) then x' = x else cast_cell (generate_using_clause (fname f) ty) x = Some x'
  | None => x' = x
  end.
Proof.
  intros Hs Hl Hx. unfold SchemaSync.field_changes in Hl. rewrite Hs in Hl. destruct (SchemaSync.resolve_pg_type _ f pk_types) as [ty|]; [|done]. cbn [mbind option_bind] in Hl.
  destruct v as [[c k]|]; cbn [fmap option_fmap option_map] in Hl.
  - destruct (SchemaSync.desired_default _ _ f) as [dd|]; [|done]. cbn [mbind option_bind] in Hl. injection Hl as <-. rewrite ddl_of_field in Hx. exists ty. split; [done|].
    rewrite cells_exec_app, cells_exec_idle in Hx by apply fk_part_idle. cbn [mbind option_bind] in Hx. rewrite cells_exec_app in Hx.
    assert (∀ y, cells_exec (null_part f c ++ default_part f dd c ++ fk_part f (c, k) 5) y = Some y) as Hrest.
    { intros y. apply cells_exec_idle. rewrite !forallb_app, fk_part_idle. unfold null_part, default_part. repeat case_match; done. }
    unfold alter_part in Hx. destruct (bool_decide (col_type c = normalize_pg_type ty)); cbn [cells_exec cell_exec mbind option_bind] in Hx; [rewrite Hrest in Hx; congruence|].
    destruct (cast_cell _ x) as [y|]; [|done]. cbn [mbind option_bind] in Hx. by rewrite Hrest in Hx.
  - injection Hl as <-. rewrite cells_exec_idle in Hx; [congruence|]. unfold ddl_of, phases. cbn [seq map concat emit_ddl_phases app]. rewrite !app_nil_r. cbn. rewrite forallb_app. repeat case_match; done.
Qed.
Lemma declared_Some f : NoDup (map fname fields) → f ∈ fields → declared (fname f) = Some f.
Proof.
  intros Hnd Hf. unfold declared. induction fields as [|g fs IH]; [by apply elem_of_nil in Hf|]. cbn in *. apply NoDup_cons in Hnd as [Hni Hnd].
  apply elem_of_cons in Hf as [->|Hf]; [by rewrite bool_decide_eq_true_2|]. rewrite bool_decide_eq_false_2; [by apply IH|]. intros He. apply Hni. rewrite He. by apply list_elem_of_fmap_2.
Qed.
Lemma declared_None name : name ∉ map fname fields → declared name = None.
Proof.
  intros Hni. unfold declared. destruct (List.find _ _) as [f|] eqn:Hf; [|done]. apply find_some in Hf as [Hin He]. apply bool_decide_eq_true in He. destruct Hni. rewrite <-He.
  apply list_elem_of_fmap_2. by apply list_elem_of_In.
Qed.
Lemma rows_kept t d t' : NoDup (map fname fields) → compute_diff schema table (introspect_table (Some t)) fields pk_types = Some d → exec_all (generate_ddl d) t = Some t' →
  Forall2 (λ r r' : gmap string string, ∀ name, cell_kept t name (r !! name) (r' !! name)) (t_rows t) (t_rows t').
Proof.
  intros Hnd Hd He. eapply Forall2_impl; [by apply exec_all_cells|]. intros r r' Hc name. specialize (Hc name). cbn beta in Hc. unfold cell_kept.
  destruct (diff_column t d name Hnd Hd) as [(f & l & Hf & <- & Hl & Ha)|[(Hni & Hs & Ha)|(Hni & Hs & n & Ha & Hn)]]; rewrite Ha in Hc.
  - destruct (is_system_field (fname f)) eqn:Hs; [unfold SchemaSync.field_changes in Hl; rewrite Hs in Hl; injection Hl as <-; by injection Hc|].
    pose proof (field_cells _ _ _ _ _ Hs Hl Hc) as Hk. rewrite declared_Some by done. unfold view in Hk. by destruct (find_column (fname f) t).
  - rewrite Hs. by injection Hc.
  - rewrite Hs, declared_None by done. destruct (find_column name t) as [c|] eqn:Hf.
    + apply find_some in Hf as [Hin <-%bool_decide_eq_true]. rewrite <-list_elem_of_In in Hin. assert (n ≠ 0) by (by apply Hn, list_elem_of_fmap_2). destruct n as [|n]; [done|]. cbn in Hc.
      assert (∀ m, cells_exec (repeat (DropColumn (col_name c)) m) None = Some None) as Hm by (intros m; by induction m). rewrite Hm in Hc. congruence.
    + destruct n as [|n]; [cbn in Hc; congruence|]. apply find_column_None in Hf. destruct Hf. by apply Hn.
Qed.
End Converge.
