(* ===== verification/SchemaTables.v ===== *)
(** * The tables of an app (core/src/manifest.rs, core/src/schema_sync.rs)

    The tables a manifest is installed into: their creation, their columns, keys and
    indexes, entity by entity, and the comparison of what is there with the manifest. *)

From stdpp Require Import base numbers pretty gmap strings sets list.
From S2P Require Import Prelude Str Ident Json DataTypes Ownership Records SchemaSync SchemaConverge.

(** ** A table created *)

Record ColumnDef := { cd_name : string; cd_type : string; cd_pk : bool; cd_not_null : bool; cd_default : option string; cd_check : option string }.
Definition column_sql (c : ColumnDef) : string :=
  join " " ([quote_ident (cd_name c) +:+ " " +:+ cd_type c] ++ (if cd_pk c then ["PRIMARY KEY"] else []) ++ (if cd_not_null c then ["NOT NULL"] else [])
            ++ from_option (λ d, ["DEFAULT " +:+ d]) [] (cd_default c))
  +:+ from_option (λ e, " CHECK (" +:+ e +:+ ")") EmptyString (cd_check c).

Section Create.
Context (bigdecimal : string → option string) (json_to_string : JsonValue → string).
Notation from_field := (from_field bigdecimal).
Notation sql_default := (sql_default bigdecimal json_to_string).
Notation resolve_pg_type := (resolve_pg_type bigdecimal).

(** [None] is a panic, as in [resolve_pg_type]. *)
Definition build_pk_type_map (entities : list EntityContract) : option (gmap string string) :=
  declared ← mapM (λ e, ty ← match List.find is_pk (entity_fields e) with Some f => postgres_type <$> ok (from_field f) | None => Some "UUID" end; Some (entity_name e, ty)) entities;
  let core := omap (λ f, if bool_decide (field_type f = "entity_link")
                         then r ← references f;
                              match parse_entity_ref (ref_entity r) with
                              | RefCore name => match resolve_core_entity name with Some (_, _, _, ty) => Some (ref_entity r, ty) | None => None end
                              | _ => None
                              end
                         else None) (concat (map entity_fields entities)) in
  Some (collect_map (declared ++ core)).

Definition field_to_column (f : FieldContract) (pk_types : gmap string string) : option ColumnDef :=
  t ← ok (from_field f);
  let pg_type := if decide (field_type f = "entity_link")
                 then match references f with Some r => default "UUID" (pk_types !! ref_entity r) | None => "UUID" end
                 else postgres_type t in
  Some {| cd_name := fname f; cd_type := pg_type; cd_pk := is_pk f; cd_not_null := required f && negb (is_pk f);
          cd_default := if is_pk f then (if decide (pg_type = "UUID") then Some "gen_random_uuid()" else None)
                        else v ← default_value f; sql_default v t;
          cd_check := enum_check_expr bigdecimal f |}.
Definition id_column : ColumnDef := {| cd_name := "id"; cd_type := "UUID"; cd_pk := true; cd_not_null := false; cd_default := Some "gen_random_uuid()"; cd_check := None |}.
Definition time_column (name : string) : ColumnDef :=
  {| cd_name := name; cd_type := "TIMESTAMPTZ"; cd_pk := false; cd_not_null := true; cd_default := Some "now()"; cd_check := None |}.
Definition table_columns (e : EntityContract) (pk_types : gmap string string) : option (list ColumnDef) :=
  let has_id := is_derived e || existsb (λ f, bool_decide (fname f = "id")) (entity_fields e) in
  columns ← mapM (λ f, field_to_column f pk_types)
    (List.filter (λ f, negb (bool_decide (fname f = "created_at") || bool_decide (fname f = "updated_at"))) (entity_fields e));
  Some ((if has_id then [] else [id_column]) ++ columns ++ (if is_derived e then [] else [time_column "created_at"; time_column "updated_at"])).
Definition NEWLINE : string := String (Ascii.ascii_of_nat 10) EmptyString.
Definition create_table_sql (app_id : string) (e : EntityContract) (columns : list ColumnDef) : string :=
  "CREATE TABLE IF NOT EXISTS " +:+ qualified app_id (entity_name e) +:+ " (" +:+ NEWLINE +:+ "  " +:+ join ("," +:+ NEWLINE +:+ "  ") (map column_sql columns) +:+ NEWLINE +:+ ")".
Definition generate_create_table (app_id : string) (e : EntityContract) (pk_types : gmap string string) : option string :=
  create_table_sql app_id e <$> table_columns e pk_types.
End Create.

Section Tables.
Context `{!Catalog} (bigdecimal : string → option string) (json_to_string : JsonValue → string).
Notation table_columns := (table_columns bigdecimal json_to_string).
Notation compute_diff := (compute_diff bigdecimal json_to_string).
Notation generate_ddl := (generate_ddl bigdecimal json_to_string).

(** The schema of an app: its tables, and its indexes by name. *)
Record Index := { index_table : string; index_column : string }.
Record Schema := { s_tables : gmap string Table; s_indexes : gmap string Index }.
Definition with_table (name : string) (t : Table) (s : Schema) : Schema := {| s_tables := <[name := t]> (s_tables s); s_indexes := s_indexes s |}.

Definition column_of (d : ColumnDef) : Column :=
  {| col_name := cd_name d; col_type := format_type (cd_type d); col_not_null := cd_pk d || cd_not_null d; col_default := show_default (format_type (cd_type d)) <$> cd_default d |}.
Definition table_of (columns : list ColumnDef) : Table :=
  {| t_columns := map column_of columns; t_fks := []; t_pk := map cd_name (List.filter cd_pk columns); t_rows := [] |}.
(** [CREATE TABLE IF NOT EXISTS]; [None] is an error of the database. *)
Definition exec_create (name : string) (columns : list ColumnDef) (s : Schema) : option Schema :=
  match s_tables s !! name, s_indexes s !! name with
  | Some _, _ | _, Some _ => Some s
  | None, None =>
      if bool_decide (NoDup (map cd_name columns)) && (length (List.filter cd_pk columns) <=? 1) then Some (with_table name (table_of columns) s) else None
  end.
(** [CREATE INDEX IF NOT EXISTS]: nothing if any relation of the schema has the name. *)
Definition create_index (table name column : string) (s : Schema) : option Schema :=
  match s_indexes s !! pg_name name, s_tables s !! pg_name name, s_tables s !! table with
  | None, None, Some t =>
      _ ← find_column column t;
      Some {| s_tables := s_tables s; s_indexes := <[pg_name name := {| index_table := table; index_column := column |}]> (s_indexes s) |}
  | _, _, Some _ => Some s
  | _, _, None => None
  end.

(** ** The columns of every table (schema_sync.rs) *)

(** An error of the database, or a panic on a field of no known type. *)
Inductive SyncError := SchemaError | Panicked.
(** Dropping a column drops the indexes on it. *)
Definition live_index (s : Schema) (i : Index) : bool := match s_tables s !! index_table i with Some t => bool_decide (is_Some (find_column (index_column i) t)) | None => false end.
Definition prune_indexes (s : Schema) : Schema := {| s_tables := s_tables s; s_indexes := filter (λ kv, live_index s kv.2 = true) (s_indexes s) |}.
Definition sync_entity (app_id : string) (pk_types : gmap string string) (e : EntityContract) (s : Schema) : Schema * result SyncError unit :=
  match introspect_table (s_tables s !! entity_name e), s_tables s !! entity_name e with
  | [], _ | _, None => (s, Ok tt)
  | columns, Some t =>
      match compute_diff app_id (entity_name e) columns (entity_fields e) pk_types with
      | None => (s, Err Panicked)
      | Some d =>
          match d_changes d with
          | [] => (s, Ok tt)
          | _ => match apply_ddl (generate_ddl d) t with
                 | (t', true) => (prune_indexes (with_table (entity_name e) t' s), Ok tt)
                 | (_, false) => (s, Err SchemaError)
                 end
          end
      end
  end.
(** The loop of [sync_schema]: a transaction per entity, up to the first that fails. *)
Fixpoint sync_schema (app_id : string) (pk_types : gmap string string) (entities : list EntityContract) (s : Schema) : Schema * result SyncError unit :=
  match entities with
  | [] => (s, Ok tt)
  | e :: rest => match sync_entity app_id pk_types e s with
                 | (s, Ok _) => sync_schema app_id pk_types rest s
                 | (s, Err err) => (s, Err err)
                 end
  end.
Fixpoint create_tables (pk_types : gmap string string) (entities : list EntityContract) (s : Schema) : Schema * result SyncError unit :=
  match entities with
  | [] => (s, Ok tt)
  | e :: rest => match table_columns e pk_types with
                 | None => (s, Err Panicked)
                 | Some columns => match exec_create (entity_name e) columns s with
                                   | None => (s, Err SchemaError)
                                   | Some s => create_tables pk_types rest s
                                   end
                 end
  end.

(** ** Keys and indexes of an entity (manifest.rs) *)

Record KeyStmt := { ks_column : string; ks_name : string; ks_target : string; ks_pk : string; ks_rule : string; ks_index : string }.
Definition foreign_key (app_id : string) (e : EntityContract) (all_entities : list EntityContract) (f : FieldContract) : option KeyStmt :=
  if negb (bool_decide (field_type f = "entity_link")) then None
  else
    r ← references f;
    '(target, pk, suffix) ← match parse_entity_ref (ref_entity r) with
                            | RefLocal target => if existsb (λ e, bool_decide (entity_name e = target)) all_entities then Some (qualified app_id target, "id", target) else None
                            | RefCore name => match resolve_core_entity name with Some (schema, tbl, pk, _) => Some (qualified schema tbl, pk, "core_" +:+ name) | None => None end
                            | RefApp _ _ => None
                            end;
    Some {| ks_column := fname f; ks_name := "fk_" +:+ app_id +:+ "_" +:+ entity_name e +:+ "_" +:+ fname f +:+ "_" +:+ suffix; ks_target := target; ks_pk := pk;
            ks_rule := resolve_on_delete f; ks_index := "idx_" +:+ app_id +:+ "_" +:+ entity_name e +:+ "_" +:+ fname f |}.
Definition generate_foreign_keys (app_id : string) (e : EntityContract) (all_entities : list EntityContract) : list KeyStmt := omap (foreign_key app_id e all_entities) (entity_fields e).
Definition key_sql (app_id : string) (e : EntityContract) (k : KeyStmt) : list string :=
  let table := qualified app_id (entity_name e) in
  ["DO $$ BEGIN ALTER TABLE " +:+ table +:+ " ADD CONSTRAINT " +:+ quote_ident (ks_name k) +:+ " FOREIGN KEY (" +:+ quote_ident (ks_column k) +:+ ") REFERENCES " +:+ ks_target k
     +:+ "(" +:+ quote_ident (ks_pk k) +:+ ") ON DELETE " +:+ ks_rule k +:+ "; EXCEPTION WHEN duplicate_object THEN NULL; END $$";
   "CREATE INDEX IF NOT EXISTS " +:+ quote_ident (ks_index k) +:+ " ON " +:+ table +:+ " (" +:+ quote_ident (ks_column k) +:+ ")"].
(** A key whose name is taken is passed over. *)
Definition add_key (table : string) (k : KeyStmt) (s : Schema) : option Schema :=
  t ← s_tables s !! table;
  if bool_decide (pg_name (ks_name k) ∈ map fk_name (t_fks t)) then Some s
  else t' ← exec_ddl (AddForeignKey (ks_column k) (ks_name k) (ks_target k) (ks_rule k)) t; Some (with_table table t' s).
Definition identity_index_name (e : EntityContract) : option string := (λ k, "idx_identity_" +:+ entity_name e +:+ "_" +:+ k) <$> identity_key e.
(** [LIKE 'idx_identity_%'], where [_] is any character. *)
Definition like_identity (name : string) : bool :=
  bool_decide (String.substring 0 3 name = "idx") && bool_decide (String.substring 4 8 name = "identity") && (13 <=? String.length name).
Definition list_identity_indexes (table : string) (s : Schema) : list string :=
  map fst (List.filter (λ kv, bool_decide (index_table kv.2 = table) && like_identity kv.1) (map_to_list (s_indexes s))).
Definition drop_orphaned_identity_indexes (e : EntityContract) (s : Schema) : Schema :=
  {| s_tables := s_tables s;
     s_indexes := foldl (λ m name, if bool_decide (identity_index_name e = Some name) then m else delete name m) (s_indexes s) (list_identity_indexes (entity_name e) s) |}.
(** The statements for the keys and indexes of one entity; each commits by itself. *)
Definition Step := Schema → option Schema.
Definition finish_steps (app_id : string) (all_entities : list EntityContract) (e : EntityContract) : list Step :=
  concat (map (λ k, [add_key (entity_name e) k; create_index (entity_name e) (ks_index k) (ks_column k)]) (generate_foreign_keys app_id e all_entities))
  ++ from_option (λ key, [create_index (entity_name e) ("idx_identity_" +:+ entity_name e +:+ "_" +:+ key) key]) [] (identity_key e)
  ++ from_option (λ owner, [create_index (entity_name e) ("idx_" +:+ app_id +:+ "_" +:+ entity_name e +:+ "_" +:+ owner) owner]) [] (owner_field e)
  ++ [λ s, Some (drop_orphaned_identity_indexes e s)].
Fixpoint run_steps (steps : list Step) (s : Schema) : Schema * result SyncError unit :=
  match steps with
  | [] => (s, Ok tt)
  | step :: steps => match step s with Some s => run_steps steps s | None => (s, Err SchemaError) end
  end.
(** The part of [install_app] that is about the tables. *)
Definition install_tables (app_id : string) (entities : list EntityContract) (s : Schema) : Schema * result SyncError unit :=
  match entities with
  | [] => (s, Ok tt)
  | _ =>
      match build_pk_type_map bigdecimal entities with
      | None => (s, Err Panicked)
      | Some pk_types =>
          match create_tables pk_types entities s with
          | (s, Err err) => (s, Err err)
          | (s, Ok _) =>
              match sync_schema app_id pk_types entities s with
              | (s, Err err) => (s, Err err)
              | (s, Ok _) => run_steps (concat (map (finish_steps app_id entities) entities)) s
              end
          end
      end
  end.

(** ** Verification (schema_sync.rs) *)

Record SchemaChange := { sc_entity : string; sc_change : string; sc_column : string; sc_detail : option string }.
Definition find_orphaned_tables (db_tables : list string) (entities : list EntityContract) : list string :=
  List.filter (λ t, negb (bool_decide (t ∈ map entity_name entities))) db_tables.
Definition column_diff_to_schema_change (entity : string) (d : ColumnDiff) : SchemaChange :=
  let '(change, column, detail) :=
    match d with
    | DiffAdd f ty => ("add_column", fname f, Some ty)
    | DiffDrop c => ("drop_column", c, None)
    | DiffAlterType c from to => ("alter_type", c, Some (from +:+ " → " +:+ to))
    | DiffSetNotNull c => ("set_not_null", c, None)
    | DiffDropNotNull c => ("drop_not_null", c, None)
    | DiffSetDefault c sql => ("set_default", c, Some sql)
    | DiffDropDefault c => ("drop_default", c, None)
    | DiffReplaceFk c _ _ _ rule => ("alter_fk_delete_rule", c, Some rule)
    end in
  {| sc_entity := entity; sc_change := change; sc_column := column; sc_detail := detail |}.
Definition verify_entity (app_id : string) (pk_types : gmap string string) (s : Schema) (e : EntityContract) : option (list SchemaChange) :=
  match introspect_table (s_tables s !! entity_name e) with
  | [] => Some [{| sc_entity := entity_name e; sc_change := "create_table"; sc_column := EmptyString; sc_detail := Some (pretty (length (entity_fields e)) +:+ " fields") |}]
  | columns => d ← compute_diff app_id (entity_name e) columns (entity_fields e) pk_types; Some (map (column_diff_to_schema_change (entity_name e)) (d_changes d))
  end.
Definition verify_identity_indexes (s : Schema) (e : EntityContract) : list SchemaChange :=
  let existing := list_identity_indexes (entity_name e) s in
  (match identity_index_name e with
   | Some name => if bool_decide (name ∈ existing) then []
                  else [{| sc_entity := entity_name e; sc_change := "add_identity_index"; sc_column := default EmptyString (identity_key e); sc_detail := identity_kind e |}]
   | None => []
   end)
  ++ map (λ name, {| sc_entity := entity_name e; sc_change := "drop_identity_index"; sc_column := name; sc_detail := None |})
       (List.filter (λ name, negb (bool_decide (identity_index_name e = Some name))) existing).
(** [rules]: what [rules::verify] finds. *)
Definition verify_all (app_id : string) (entities : list EntityContract) (pk_types : gmap string string) (rules : list SchemaChange) (s : Schema) : option (bool * list SchemaChange) :=
  columns ← mapM (verify_entity app_id pk_types s) entities;
  let orphaned := map (λ t, {| sc_entity := t; sc_change := "drop_table"; sc_column := EmptyString; sc_detail := None |})
                    (find_orphaned_tables (sort_strings (map fst (map_to_list (s_tables s)))) entities) in
  let changes := concat columns ++ orphaned ++ concat (map (verify_identity_indexes s) entities) ++ rules in
  Some (match changes with [] => true | _ => false end, changes).
End Tables.

(** ** A new table is as declared *)

Section Fresh.
Context `{!Catalog} (bigdecimal : string → option string) (json_to_string : JsonValue → string).
Notation table_columns := (table_columns bigdecimal json_to_string).
Notation field_to_column := (field_to_column bigdecimal json_to_string).
Notation compute_diff := (compute_diff bigdecimal json_to_string).
Notation field_changes := (field_changes bigdecimal json_to_string).
Context (pk_types : gmap string string).

(** What the theorems ask of a declaration: no name twice, keys on [id] only, and defaults
    and types that PostgreSQL shows as they are declared. *)
Record declared_ok (e : EntityContract) : Prop := {
  do_names : NoDup (map fname (entity_fields e));
  do_keys : ∀ f, f ∈ entity_fields e → is_system_field (fname f) = false → is_pk f = false;
  do_shows : shows_declared bigdecimal json_to_string pk_types (entity_fields e) }.

Lemma no_diff app name t fields : (∀ f, f ∈ fields → field_changes app name pk_types (λ _, shown <$> view (fname f) t) f = Some []) →
  (∀ c, c ∈ t_columns t → is_system_field (col_name c) = false → col_name c ∈ map fname fields) →
  compute_diff app name (introspect_table (Some t)) fields pk_types = Some {| d_schema := app; d_table := name; d_changes := [] |}.
Proof.
  intros Hf Hc. unfold SchemaSync.compute_diff.
  rewrite (mapM_Some_2 _ fields (map (λ _, []) fields)).
  - cbn [mbind option_bind]. assert (concat (map (λ _, []) fields) = @nil ColumnDiff) as -> by (clear; by induction fields).
    rewrite (proj2 (concat_nil_Forall _)); [done|]. apply List.Forall_map, List.Forall_forall. intros x Hx. cbn in Hx. apply in_map_iff in Hx as (c & <- & Hin). rewrite <-list_elem_of_In in Hin.
    unfold dropped. cbn. destruct (is_system_field (col_name c)) eqn:Hs; [done|]. by rewrite bool_decide_eq_true_2 by (by apply Hc).
  - apply Forall2_fmap_r, Forall_Forall2_diag, Forall_forall. intros f Hin. cbn beta. rewrite (field_changes_ext _ _ _ _ _ _ (λ _, shown <$> view (fname f) t)) by apply column_named_view. by apply Hf.
Qed.
Lemma table_of_ok cds : NoDup (map cd_name cds) → table_ok (table_of cds).
Proof. intros Hnd. split; cbn; [by rewrite map_map|constructor|constructor|by intros k []%elem_of_nil]. Qed.
Lemma field_column_settled f cd app name : f ∈ f :: [] → is_system_field (fname f) = false → is_pk f = false → shows_declared bigdecimal json_to_string pk_types [f] → field_to_column f pk_types = Some cd →
  field_changes app name pk_types (λ _, shown <$> Some (column_of cd, None)) f = Some [].
Proof.
  intros Hin Hs Hp Hsh Hcd. unfold SchemaTables.field_to_column in Hcd. destruct (ok (from_field bigdecimal f)) as [t|] eqn:Ht; [|done]. cbn [mbind option_bind] in Hcd.
  unfold SchemaSync.field_changes. rewrite Hs. set (ty := if decide (field_type f = _) then _ else _) in Hcd.
  assert (resolve_pg_type bigdecimal f pk_types = Some ty) as Hty by (unfold resolve_pg_type, ty; destruct (decide (field_type f = "entity_link")); [done|by rewrite Ht]).
  rewrite Hty. cbn [mbind option_bind fmap option_fmap option_map]. rewrite Hp in Hcd. set (dd := _ ← default_value f; _) in Hcd.
  assert (desired_default bigdecimal json_to_string f = Some dd) as Hdd by (unfold desired_default, dd; destruct (default_value f); [by rewrite Ht|done]). rewrite Hdd. cbn [mbind option_bind].
  assert (col_type (column_of cd) = normalize_pg_type ty) as H1 by (injection Hcd as <-; by eapply sd_type).
  assert (col_not_null (column_of cd) = required f) as H2 by (injection Hcd as <-; cbn; by destruct (required f)).
  assert (col_default (column_of cd) = show_default (format_type ty) <$> dd) as H3 by (by injection Hcd as <-).
  clearbody ty dd. clear Hcd. destruct (column_of cd) as [n ty' nn d']. cbn in H1, H2, H3. subst ty' nn d'.
  unfold type_changes, null_changes, default_changes, fk_changes. cbn -[defaults_match]. rewrite bool_decide_eq_true_2 by done. rewrite Hp. cbn -[defaults_match]. rewrite !andb_true_r.
  assert ((if required f && negb (required f) then [DiffSetNotNull (fname f)] else if negb (required f) && required f then [DiffDropNotNull (fname f)] else []) = []) as -> by (by destruct (required f)).
  destruct dd as [sql|]; cbn -[defaults_match]; [rewrite (sd_default _ _ _ _ Hsh f _ sql Hin Hdd); cbn|]; by destruct (bool_decide _).
Qed.
Lemma shows_one fields f : f ∈ fields → shows_declared bigdecimal json_to_string pk_types fields → shows_declared bigdecimal json_to_string pk_types [f].
Proof.
  intros Hf [H1 H2 H3 H4]. split; intros g; [intros ->%list_elem_of_singleton|intros ty ->%list_elem_of_singleton|intros ty sql ->%list_elem_of_singleton|intros from to d d' sql ->%list_elem_of_singleton]; eauto.
Qed.
Lemma table_columns_elem e cds cd : table_columns e pk_types = Some cds → cd ∈ cds →
  is_system_field (cd_name cd) = true ∨ ∃ f, f ∈ entity_fields e ∧ field_to_column f pk_types = Some cd.
Proof.
  unfold SchemaTables.table_columns. destruct (mapM _ _) as [cols|] eqn:Hm; [|done]. cbn [mbind option_bind]. intros [= <-]. rewrite !elem_of_app. intros [Hc|[Hc|Hc]].
  - left. destruct (_ || _); [by apply elem_of_nil in Hc|]. by apply list_elem_of_singleton in Hc as ->.
  - right. apply mapM_Some in Hm. apply list_elem_of_lookup in Hc as [i Hi]. destruct (Forall2_lookup_r _ _ _ _ _ Hm Hi) as (f & Hf & Hcd). exists f. split; [|done].
    apply list_elem_of_lookup_2 in Hf. rewrite list_elem_of_In, filter_In, <-list_elem_of_In in Hf. apply Hf.
  - left. destruct (is_derived e); [by apply elem_of_nil in Hc|]. rewrite elem_of_cons, list_elem_of_singleton in Hc. by destruct Hc as [->| ->].
Qed.
Lemma table_columns_field e cds f : table_columns e pk_types = Some cds → f ∈ entity_fields e → is_system_field (fname f) = false → ∃ cd, cd ∈ cds ∧ field_to_column f pk_types = Some cd.
Proof.
  unfold SchemaTables.table_columns. destruct (mapM _ _) as [cols|] eqn:Hm; [|done]. cbn [mbind option_bind]. intros [= <-] Hf Hs. apply mapM_Some in Hm.
  assert (f ∈ List.filter (λ f, negb (bool_decide (fname f = "created_at") || bool_decide (fname f = "updated_at"))) (entity_fields e)) as Hin.
  { rewrite list_elem_of_In, filter_In, <-list_elem_of_In. split; [done|]. unfold is_system_field in Hs. apply bool_decide_eq_false in Hs. apply negb_true_iff, orb_false_iff.
    split; apply bool_decide_eq_false; intros E; apply Hs; rewrite E; by apply (bool_decide_unpack _). }
  apply list_elem_of_lookup in Hin as [i Hi]. destruct (Forall2_lookup_l _ _ _ _ _ Hm Hi) as (cd & Hcd & E). exists cd. split; [|done]. rewrite !elem_of_app. right. left. by eapply list_elem_of_lookup_2.
Qed.
Lemma field_to_column_name f cd : field_to_column f pk_types = Some cd → cd_name cd = fname f.
Proof. unfold SchemaTables.field_to_column. destruct (ok _); [|done]. by intros [= <-]. Qed.
Lemma fresh_table app e cds : declared_ok e → table_columns e pk_types = Some cds → NoDup (map cd_name cds) →
  compute_diff app (entity_name e) (introspect_table (Some (table_of cds))) (entity_fields e) pk_types = Some {| d_schema := app; d_table := entity_name e; d_changes := [] |}.
Proof.
  intros [Hnd Hkeys Hsh] Hcds Hnn. pose proof (table_of_ok cds Hnn) as Hok. apply no_diff.
  - intros f Hf. destruct (is_system_field (fname f)) eqn:Hs; [unfold SchemaSync.field_changes; by rewrite Hs|].
    destruct (table_columns_field e cds f Hcds Hf Hs) as (cd & Hin & Hcd).
    assert (find_column (fname f) (table_of cds) = Some (column_of cd)) as Hfind.
    { apply find_column_Some; [done|]. split; [cbn; by apply list_elem_of_fmap_2|]. cbn. by apply field_to_column_name. }
    unfold view. rewrite Hfind. apply field_column_settled; [by apply list_elem_of_singleton|done|by apply Hkeys|by eapply shows_one|done].
  - intros c Hc Hs. cbn in Hc. apply list_elem_of_fmap in Hc as (cd & -> & Hcd). destruct (table_columns_elem e cds cd Hcds Hcd) as [Hs'|(f & Hf & E)]; [cbn in Hs; congruence|].
    cbn. rewrite (field_to_column_name _ _ E). by apply list_elem_of_fmap_2.
Qed.
End Fresh.

(** ** Every table as declared *)

Section Sync.
Context `{!Catalog} (bigdecimal : string → option string) (json_to_string : JsonValue → string).
Notation table_columns := (table_columns bigdecimal json_to_string).
Notation compute_diff := (compute_diff bigdecimal json_to_string).
Notation sync_entity := (sync_entity bigdecimal json_to_string).
Notation sync_schema := (sync_schema bigdecimal json_to_string).
Notation create_tables := (create_tables bigdecimal json_to_string).
Notation verify_entity := (verify_entity bigdecimal json_to_string).
Notation declared_ok := (declared_ok bigdecimal json_to_string).
Context (app : string) (pk_types : gmap string string).

(** The tables of ordinary entities have their [id], and no index has the name of a table. *)
Record schema_ok (entities : list EntityContract) (s : Schema) : Prop := {
  so_tables : ∀ name t, s_tables s !! name = Some t → table_ok t;
  so_id : ∀ e t, e ∈ entities → is_derived e = false → s_tables s !! entity_name e = Some t → is_Some (find_column "id" t);
  so_indexes : ∀ e, e ∈ entities → s_indexes s !! entity_name e = None }.
Definition settled (e : EntityContract) (t : Table) : Prop :=
  compute_diff app (entity_name e) (introspect_table (Some t)) (entity_fields e) pk_types = Some {| d_schema := app; d_table := entity_name e; d_changes := [] |}.
Definition kept (e : EntityContract) (t t' : Table) : Prop :=
  Forall2 (λ r r' : gmap string string, ∀ name, cell_kept bigdecimal pk_types (entity_fields e) t name (r !! name) (r' !! name)) (t_rows t) (t_rows t').

Lemma settled_kept e t : declared_ok pk_types e → settled e t → kept e t t.
Proof.
  intros Hd Hs. apply (rows_kept bigdecimal json_to_string app (entity_name e) pk_types (entity_fields e) t _ t (do_names _ _ _ _ Hd) Hs). done.
Qed.
Lemma system_columns t d t' e name : table_ok t → NoDup (map fname (entity_fields e)) → is_system_field name = true →
  compute_diff app (entity_name e) (introspect_table (Some t)) (entity_fields e) pk_types = Some d → exec_all (generate_ddl bigdecimal json_to_string d) t = Some t' → view name t' = view name t.
Proof.
  intros Hok Hnd Hs Hd He.
  destruct (exec_all_view _ _ _ Hok (diff_fits bigdecimal json_to_string app (entity_name e) pk_types (entity_fields e) t d Hnd Hd) He) as [_ Hv]. destruct (Hv name) as [_ ->].
  destruct (diff_column bigdecimal json_to_string app (entity_name e) pk_types (entity_fields e) t d name Hnd Hd) as [(f & l & Hf & <- & Hl & ->)|[(_ & _ & ->)|(_ & Hs' & _)]]; [|done|congruence].
  unfold field_changes in Hl. rewrite Hs in Hl. by injection Hl as <-.
Qed.
Lemma sync_entity_effect e s s' : declared_ok pk_types e → (∀ name t, s_tables s !! name = Some t → table_ok t) → sync_entity app pk_types e s = (s', Ok tt) →
  (∀ name, name ≠ entity_name e → s_tables s' !! name = s_tables s !! name) ∧ (∀ name, s_indexes s !! name = None → s_indexes s' !! name = None) ∧
  match s_tables s !! entity_name e with
  | None => s_tables s' !! entity_name e = None
  | Some t => ∃ t', s_tables s' !! entity_name e = Some t' ∧ table_ok t' ∧ (t_columns t = [] ∧ t' = t ∨ settled e t' ∧ kept e t t') ∧ (∀ n, is_system_field n = true → view n t' = view n t)
  end.
Proof.
  intros Hd Hok He. unfold SchemaTables.sync_entity in He. destruct (s_tables s !! entity_name e) as [t|] eqn:Ht; [|cbn in He; injection He as <-; by rewrite Ht].
  pose proof (Hok _ _ Ht) as Hokt. destruct (introspect_table (Some t)) as [|c0 cs] eqn:Hi.
  { injection He as <-. split_and!; try done. exists t. split_and!; try done. left. split; [|done]. by unfold introspect_table in Hi; apply map_eq_nil in Hi. }
  rewrite <-Hi in He. destruct (SchemaSync.compute_diff _ _ _ _ _ _ _) as [d|] eqn:Hc; [|done].
  destruct (d_changes d) as [|x l] eqn:Hx.
  - injection He as <-. split_and!; try done. exists t. split_and!; try done. right. assert (settled e t) as Hs; [|by split; [|apply settled_kept]].
    unfold settled. rewrite Hc. f_equal. unfold SchemaSync.compute_diff in Hc. destruct (mapM _ _); [|done]. cbn [mbind option_bind] in Hc. injection Hc as <-. cbn in Hx. by rewrite Hx.
  - unfold apply_ddl in He. destruct (exec_all _ t) as [t'|] eqn:Ha; [|done]. injection He as <-. cbn [prune_indexes with_table s_tables s_indexes].
    split_and!; [by intros n Hn; rewrite lookup_insert_ne|by intros n Hn; rewrite map_lookup_filter, Hn|]. exists t'. rewrite lookup_insert_eq.
    destruct (synced bigdecimal json_to_string app (entity_name e) pk_types (entity_fields e) t d t' Hokt (do_names _ _ _ _ Hd) (do_shows _ _ _ _ Hd) Hc Ha) as [Hok' Hs'].
    split_and!; [done|done|right; split; [done|]|].
    + exact (rows_kept bigdecimal json_to_string app (entity_name e) pk_types (entity_fields e) t d t' (do_names _ _ _ _ Hd) Hc Ha).
    + intros n Hn. exact (system_columns t d t' e n Hokt (do_names _ _ _ _ Hd) Hn Hc Ha).
Qed.
(** What [sync_schema] does to the table of each entity, and to no other. *)
Definition synced_table (e : EntityContract) (s s' : Schema) : Prop :=
  match s_tables s !! entity_name e with
  | None => s_tables s' !! entity_name e = None
  | Some t => ∃ t', s_tables s' !! entity_name e = Some t' ∧ (t_columns t = [] ∧ t' = t ∨ settled e t' ∧ kept e t t') ∧ (∀ n, is_system_field n = true → view n t' = view n t)
  end.
Lemma sync_schema_effect entities s s' : NoDup (map entity_name entities) → (∀ e, e ∈ entities → declared_ok pk_types e) → (∀ name t, s_tables s !! name = Some t → table_ok t) →
  sync_schema app pk_types entities s = (s', Ok tt) →
  (∀ name t, s_tables s' !! name = Some t → table_ok t) ∧ (∀ name, name ∉ map entity_name entities → s_tables s' !! name = s_tables s !! name) ∧
  (∀ name, s_indexes s !! name = None → s_indexes s' !! name = None) ∧ (∀ e, e ∈ entities → synced_table e s s').
Proof.
  revert s. induction entities as [|e es IH]; intros s Hnd Hd Hok He; cbn in He; [injection He as <-; split_and!; try done; by intros e []%elem_of_nil|].
  cbn in Hnd. apply NoDup_cons in Hnd as [Hni Hnd]. destruct (SchemaTables.sync_entity _ _ _ _ _ s) as [s1 [[]|err]] eqn:H1; [|done].
  destruct (sync_entity_effect e s s1 (Hd e ltac:(set_solver)) Hok H1) as (Hother & Hix & Ht).
  assert (∀ name t, s_tables s1 !! name = Some t → table_ok t) as Hok1.
  { intros n t Hn. destruct (decide (n = entity_name e)) as [->|Hne]; [|rewrite Hother in Hn by done; by eapply Hok].
    destruct (s_tables s !! entity_name e); [|congruence]. destruct Ht as (t' & Ht' & Hok' & _). congruence. }
  destruct (IH s1 Hnd) as (Hok' & Hother' & Hix' & Hes); [intros; apply Hd; set_solver|done|done|]. split_and!; [done| |auto|].
  - intros n Hn. cbn in Hn. rewrite Hother' by set_solver. apply Hother. set_solver.
  - intros x [->|Hx]%elem_of_cons.
    + unfold synced_table. rewrite Hother' by done. destruct (s_tables s !! entity_name e); [|done]. destruct Ht as (t' & ? & _ & ? & ?). by exists t'.
    + specialize (Hes x Hx). unfold synced_table in *. rewrite Hother in Hes; [done|]. intros E. apply Hni. rewrite <-E. by apply list_elem_of_fmap_2.
Qed.

Definition created_table (e : EntityContract) (s s' : Schema) : Prop :=
  match s_tables s !! entity_name e with
  | Some t => s_tables s' !! entity_name e = Some t
  | None => ∃ cds, table_columns e pk_types = Some cds ∧ NoDup (map cd_name cds) ∧ s_tables s' !! entity_name e = Some (table_of cds)
  end.
Lemma create_tables_effect entities s s' : NoDup (map entity_name entities) → (∀ e, e ∈ entities → s_indexes s !! entity_name e = None) →
  create_tables pk_types entities s = (s', Ok tt) →
  s_indexes s' = s_indexes s ∧ (∀ name, name ∉ map entity_name entities → s_tables s' !! name = s_tables s !! name) ∧ (∀ e, e ∈ entities → created_table e s s').
Proof.
  revert s. induction entities as [|e es IH]; intros s Hnd Hix He; cbn in He; [injection He as <-; split_and!; try done; by intros e []%elem_of_nil|].
  cbn in Hnd. apply NoDup_cons in Hnd as [Hni Hnd]. destruct (SchemaTables.table_columns _ _ e pk_types) as [cds|] eqn:Hc; [|done].
  destruct (exec_create (entity_name e) cds s) as [s1|] eqn:H1; [|done]. unfold exec_create in H1. pose proof (Hix e ltac:(set_solver)) as Hi. rewrite Hi in H1.
  assert (s_indexes s1 = s_indexes s ∧ (∀ n, n ≠ entity_name e → s_tables s1 !! n = s_tables s !! n) ∧ created_table e s s1) as (E1 & E2 & E3).
  { unfold created_table. destruct (s_tables s !! entity_name e) as [t|] eqn:Ht; [by injection H1 as <-|]. destruct (bool_decide (NoDup _)) eqn:Hn; [|done]. destruct (_ <=? 1); [|done].
    injection H1 as <-. cbn. split_and!; [done|by intros n ?; rewrite lookup_insert_ne|]. exists cds. apply bool_decide_eq_true in Hn. by rewrite lookup_insert_eq. }
  destruct (IH s1 Hnd) as (F1 & F2 & F3); [by intros x Hx; rewrite E1; apply Hix; set_solver|done|]. split_and!; [congruence| |].
  - intros n Hn. cbn in Hn. rewrite F2 by set_solver. apply E2. set_solver.
  - intros x [->|Hx]%elem_of_cons.
    + unfold created_table in *. by rewrite F2.
    + specialize (F3 x Hx). unfold created_table in *. rewrite E2 in F3; [done|]. intros E. apply Hni. rewrite <-E. by apply list_elem_of_fmap_2.
Qed.
Lemma create_tables_some entities s s' e : NoDup (map entity_name entities) → (∀ e, e ∈ entities → s_indexes s !! entity_name e = None) →
  create_tables pk_types entities s = (s', Ok tt) → e ∈ entities → ∃ t, s_tables s' !! entity_name e = Some t.
Proof.
  intros Hnd Hix Hc He. destruct (create_tables_effect entities s s' Hnd Hix Hc) as (_ & _ & Hct). specialize (Hct e He). unfold created_table in Hct.
  destruct (s_tables s !! entity_name e); [by eexists|]. destruct Hct as (cds & _ & _ & ?). by eexists.
Qed.
Lemma table_columns_id e cds : is_derived e = false → table_columns e pk_types = Some cds → "id" ∈ map cd_name cds.
Proof.
  intros Hd. unfold SchemaTables.table_columns. rewrite Hd. cbn [orb]. destruct (mapM _ _) as [cols|] eqn:Hm; [|done]. cbn [mbind option_bind]. intros [= <-].
  destruct (existsb _ _) eqn:Hid; [|cbn; apply elem_of_cons; by left]. apply existsb_exists in Hid as (f & Hf & Hn). apply bool_decide_eq_true in Hn. rewrite <-list_elem_of_In in Hf.
  rewrite app_nil_l, map_app. apply elem_of_app. left. apply mapM_Some in Hm.
  assert (f ∈ List.filter (λ f, negb (bool_decide (fname f = "created_at") || bool_decide (fname f = "updated_at"))) (entity_fields e)) as Hin.
  { rewrite list_elem_of_In, filter_In, <-list_elem_of_In. split; [done|]. by rewrite Hn. }
  apply list_elem_of_lookup in Hin as [i Hi]. destruct (Forall2_lookup_l _ _ _ _ _ Hm Hi) as (cd & Hcd & E). rewrite <-Hn, <-(field_to_column_name _ _ _ _ _ E). apply list_elem_of_fmap_2. by eapply list_elem_of_lookup_2.
Qed.
Lemma created_ok entities s s' : NoDup (map entity_name entities) → schema_ok entities s → create_tables pk_types entities s = (s', Ok tt) → schema_ok entities s'.
Proof.
  intros Hnd [H1 H2 H3] Hc. destruct (create_tables_effect entities s s' Hnd H3 Hc) as (E1 & E2 & E3). split.
  - intros n t Hn. destruct (decide (n ∈ map entity_name entities)) as [Hin|Hni]; [|rewrite E2 in Hn by done; by eapply H1].
    apply list_elem_of_fmap in Hin as (e & -> & He). specialize (E3 e He). unfold created_table in E3. destruct (s_tables s !! entity_name e) eqn:Ht; [rewrite E3 in Hn; simplify_eq; by eapply H1|].
    destruct E3 as (cds & _ & Hcd & E). rewrite E in Hn. simplify_eq. by apply table_of_ok.
  - intros e t He Hder Hn. specialize (E3 e He). unfold created_table in E3. destruct (s_tables s !! entity_name e) eqn:Ht; [rewrite E3 in Hn; simplify_eq; by eapply H2|].
    destruct E3 as (cds & Hcds & Hcd & E). rewrite E in Hn. simplify_eq. pose proof (table_columns_id e cds Hder Hcds) as Hid.
    destruct (find_column "id" (table_of cds)) eqn:Hf; [by eexists|]. apply find_column_None in Hf. destruct Hf. cbn. by rewrite map_map.
  - intros e He. rewrite E1. by apply H3.
Qed.
(** A table that was not there is settled as created, one that was is synchronised. *)
Lemma installed_table entities s s1 s2 e : NoDup (map entity_name entities) → schema_ok entities s → (∀ e, e ∈ entities → declared_ok pk_types e) →
  create_tables pk_types entities s = (s1, Ok tt) → sync_schema app pk_types entities s1 = (s2, Ok tt) → e ∈ entities → is_derived e = false →
  ∃ t', s_tables s2 !! entity_name e = Some t' ∧ settled e t' ∧ t_columns t' ≠ [] ∧ (∀ t, s_tables s !! entity_name e = Some t → kept e t t').
Proof.
  intros Hnd Hok Hd Hc Hs He Hder. pose proof (created_ok entities s s1 Hnd Hok Hc) as Hok1.
  destruct (create_tables_some entities s s1 e Hnd (so_indexes _ _ Hok) Hc He) as [t1 Ht1].
  destruct (sync_schema_effect entities s1 s2 Hnd Hd (so_tables _ _ Hok1) Hs) as (Hok2 & _ & _ & Hsy). specialize (Hsy e He). unfold synced_table in Hsy. rewrite Ht1 in Hsy.
  destruct Hsy as (t2 & Ht2 & Hk & Hsys). pose proof (so_id _ _ Hok1 e t1 He Hder Ht1) as [c Hid].
  assert (t_columns t1 ≠ []) as Hne by (unfold find_column in Hid; by destruct (t_columns t1)). destruct Hk as [[? _]|[Hset Hk]]; [done|].
  exists t2. split_and!; [done|done| |].
  - intros Hnil. specialize (Hsys "id" eq_refl). unfold view in Hsys. rewrite Hid in Hsys. unfold find_column in Hsys. by rewrite Hnil in Hsys.
  - intros t Ht. destruct (create_tables_effect entities s s1 Hnd (so_indexes _ _ Hok) Hc) as (_ & _ & Hct). specialize (Hct e He). unfold created_table in Hct. rewrite Ht in Hct. congruence.
Qed.

(** *** Keys and indexes leave the columns as they are *)

Lemma last_fk_app name t k : last_fk name (set_fks (t_fks t ++ [k]) t) = if bool_decide (fk_column k = name) then Some k else last_fk name t.
Proof. unfold last_fk. cbn. rewrite List.filter_app. cbn. destruct (bool_decide _); [by rewrite last_snoc|by rewrite app_nil_r]. Qed.
Lemma foreign_key_fields e all f k : foreign_key app e all f = Some k → field_type f = "entity_link" ∧ ks_column k = fname f ∧ ks_rule k = resolve_on_delete f.
Proof.
  unfold foreign_key. destruct (bool_decide _) eqn:Hl; [|done]. apply bool_decide_eq_true in Hl. cbn [negb]. destruct (references f) as [r|]; [|done]. cbn [mbind option_bind].
  destruct (match parse_entity_ref _ with RefLocal _ => _ | RefCore _ => _ | RefApp _ _ => _ end) as [[[target pk] suffix]|]; [|done]. by intros [= <-].
Qed.
(** Whatever was found as it should be is found so with one more key on a link, of the
    rule its field asks for. *)
Lemma settled_key e f t k : NoDup (map fname (entity_fields e)) → f ∈ entity_fields e → fk_column k = fname f → fk_rule k = rule_char (resolve_on_delete f) →
  settled e t → settled e (set_fks (t_fks t ++ [k]) t).
Proof.
  intros Hnd Hf Hc Hr Hs. unfold settled in *. apply no_diff.
  - intros g Hg. unfold SchemaSync.compute_diff in Hs. destruct (mapM _ _) as [ls|] eqn:Hm; [|done]. cbn [mbind option_bind] in Hs. injection Hs as Hs. apply app_eq_nil in Hs as [Hs _].
    apply mapM_Some in Hm. apply list_elem_of_lookup in Hg as [i Hi]. destruct (Forall2_lookup_l _ _ _ _ _ Hm Hi) as (l & Hl & Hgl).
    assert (l = []) as ->. { apply list_elem_of_lookup_2 in Hl. apply concat_nil_Forall in Hs. rewrite Forall_forall in Hs. by apply Hs. }
    rewrite (field_changes_ext _ _ _ _ _ _ (λ _, shown <$> view (fname g) t)) in Hgl by apply column_named_view.
    unfold view in *. change (find_column (fname g) (set_fks (t_fks t ++ [k]) t)) with (find_column (fname g) t). rewrite last_fk_app.
    destruct (bool_decide (fk_column k = fname g)) eqn:Hk; [|done]. apply bool_decide_eq_true in Hk.
    assert (g = f) as ->. { apply list_elem_of_lookup in Hf as [j Hj]. rewrite NoDup_alt in Hnd.
      assert (i = j) as -> by (apply (Hnd i j (fname g)); rewrite list_lookup_fmap, ?Hi, ?Hj; cbn; congruence). congruence. }
    unfold SchemaSync.field_changes in *. destruct (is_system_field (fname f)); [done|]. destruct (SchemaSync.resolve_pg_type _ f pk_types) as [ty|]; [|done]. cbn [mbind option_bind] in *.
    destruct (find_column (fname f) t) as [c|]; [|done]. cbn [fmap option_fmap option_map] in *. destruct (SchemaSync.desired_default _ _ f) as [dd|]; [|done]. cbn [mbind option_bind] in *.
    injection Hgl as Hgl. apply app_eq_nil in Hgl as [E1 Hgl]. apply app_eq_nil in Hgl as [E2 Hgl]. apply app_eq_nil in Hgl as [E3 _]. f_equal.
    assert (fk_changes app (entity_name e) f (shown (c, Some k)) = []) as ->.
    { unfold fk_changes. destruct (bool_decide _); [|done]. cbn. destruct (references f); [|done]. rewrite Hr. by rewrite bool_decide_eq_true_2 by apply rule_char_back. }
    unfold type_changes, null_changes, default_changes, shown in *. cbn [c_type c_not_null c_default fst snd] in *. by rewrite E1, E2, E3.
  - intros c Hin Hsys. unfold SchemaSync.compute_diff in Hs. destruct (mapM _ _) as [ls|]; [|done]. cbn [mbind option_bind] in Hs. injection Hs as Hs. apply app_eq_nil in Hs as [_ Hs].
    apply concat_nil_Forall in Hs. rewrite Forall_fmap, Forall_forall in Hs. specialize (Hs (db_column t c)). unfold dropped in Hs. cbn in Hs. rewrite Hsys in Hs.
    destruct (decide (col_name c ∈ map fname (entity_fields e))) as [?|Hni]; [done|]. rewrite bool_decide_eq_false_2 in Hs by done. discriminate Hs. by apply list_elem_of_fmap_2.
Qed.

Context (entities : list EntityContract).
Record more_keys (name : string) (t t' : Table) : Prop := {
  mk_columns : t_columns t' = t_columns t;
  mk_rows : t_rows t' = t_rows t;
  mk_settled : ∀ e, e ∈ entities → entity_name e = name → settled e t → settled e t';
  mk_keys : ∀ n, n ∈ map fk_name (t_fks t) → n ∈ map fk_name (t_fks t');
  mk_other : name ∉ map entity_name entities → t' = t }.
#[local] Instance more_keys_refl name : Reflexive (more_keys name).
Proof. by intros t. Qed.
#[local] Instance more_keys_trans name : Transitive (more_keys name).
Proof. intros t1 t2 t3 [] []. split; [congruence|congruence|eauto|eauto|]. intros Hn. rewrite mk_other1 by done. by apply mk_other0. Qed.
Definition keys_only (s s' : Schema) : Prop := ∀ name, option_Forall2 (more_keys name) (s_tables s !! name) (s_tables s' !! name).
#[local] Instance keys_only_refl : Reflexive keys_only.
Proof. intros s name. by destruct (s_tables s !! name); constructor. Qed.
#[local] Instance keys_only_trans : Transitive keys_only.
Proof. intros s1 s2 s3 H1 H2 name. specialize (H1 name). specialize (H2 name). inversion H1 as [x y Hxy E1 E2|E1 E2]; rewrite <-E2 in H2; inversion H2; constructor. by etrans. Qed.

Lemma with_table_keys name t t' s : s_tables s !! name = Some t → more_keys name t t' → keys_only s (with_table name t' s).
Proof.
  intros Ht Hm n. cbn. destruct (decide (n = name)) as [->|Hne]; [rewrite Ht, lookup_insert_eq; by constructor|]. rewrite lookup_insert_ne by done. by destruct (s_tables s !! n); constructor.
Qed.
Lemma create_index_keys table name column s s' : create_index table name column s = Some s' → keys_only s s'.
Proof.
  unfold create_index. intros Hx n. assert (s_tables s' = s_tables s) as ->; [|by destruct (s_tables s !! n); constructor].
  destruct (s_tables s !! table) as [t|]; destruct (s_indexes s !! pg_name name), (s_tables s !! pg_name name); try done; try by injection Hx as <-.
  destruct (find_column column t); [|done]. by injection Hx as <-.
Qed.
Lemma add_key_keys e f k s s' : NoDup (map entity_name entities) → e ∈ entities → NoDup (map fname (entity_fields e)) → f ∈ entity_fields e → ks_column k = fname f → ks_rule k = resolve_on_delete f →
  add_key (entity_name e) k s = Some s' → keys_only s s' ∧ ∃ t, s_tables s' !! entity_name e = Some t ∧ pg_name (ks_name k) ∈ map fk_name (t_fks t).
Proof.
  intros Hnde He Hnd Hf Hcol Hrule Hx. unfold add_key in Hx. destruct (s_tables s !! entity_name e) as [t|] eqn:Ht; [|done]. cbn [mbind option_bind] in Hx.
  destruct (bool_decide _) eqn:Hin; [injection Hx as <-; split; [done|]; exists t; split; [done|]; by apply bool_decide_eq_true in Hin|].
  cbn [exec_ddl] in Hx. destruct (find_column (ks_column k) t) as [c|]; [|done]. cbn [mbind option_bind] in Hx. rewrite Hin in Hx. destruct (forallb _ _); [|done]. cbn [mbind option_bind] in Hx.
  injection Hx as <-. set (key := {| fk_name := _ |}). split.
  - apply (with_table_keys _ t); [done|]. split; [done|done| | |].
    + intros e' He' Hn Hs. assert (e' = e) as ->. { apply list_elem_of_lookup in He as [i Hi], He' as [j Hj]. rewrite NoDup_alt in Hnde.
        assert (i = j) as -> by (apply (Hnde i j (entity_name e)); rewrite list_lookup_fmap, ?Hi, ?Hj; cbn; congruence). congruence. }
      apply (settled_key e f t key Hnd Hf); [done|by unfold key; cbn; rewrite Hrule|done].
    + intros n Hn. cbn. rewrite map_app. apply elem_of_app. by left.
    + intros Hn. destruct Hn. by apply list_elem_of_fmap_2.
  - eexists. split; [apply lookup_insert_eq|]. cbn. rewrite map_app. apply elem_of_app. right. by apply list_elem_of_singleton.
Qed.
(** Where every step only adds keys, so do they all. *)
Lemma run_steps_keys steps s s' : (∀ step s s', step ∈ steps → step s = Some s' → keys_only s s') → run_steps steps s = (s', Ok tt) →
  keys_only s s' ∧ ∀ step, step ∈ steps → ∃ s1 s2, step s1 = Some s2 ∧ keys_only s2 s'.
Proof.
  revert s. induction steps as [|step steps IH]; intros s Hk Hx; cbn in Hx; [injection Hx as <-; split; [done|by intros ? []%elem_of_nil]|].
  destruct (step s) as [s1|] eqn:H1; [|done]. destruct (IH s1) as [H2 H3]; [intros; eapply Hk; [|done]; set_solver|done|].
  split; [etrans; [eapply Hk; [|done]; set_solver|done]|]. intros st [->|Hin]%elem_of_cons; [by exists s, s1|by apply H3].
Qed.
Lemma finish_steps_keys step s s' : NoDup (map entity_name entities) → (∀ e, e ∈ entities → NoDup (map fname (entity_fields e))) →
  step ∈ concat (map (finish_steps app entities) entities) → step s = Some s' → keys_only s s'.
Proof.
  intros Hnd Hd Hin Hs. apply list_elem_of_In, in_concat in Hin as (l & Hl & Hin). apply in_map_iff in Hl as (e & <- & He). apply list_elem_of_In in He. apply list_elem_of_In in Hin.
  unfold finish_steps in Hin. rewrite !elem_of_app in Hin. destruct Hin as [Hin|[Hin|[Hin|Hin]]].
  - apply list_elem_of_In, in_concat in Hin as (l & Hl & Hin). apply in_map_iff in Hl as (k & <- & Hk). apply list_elem_of_In in Hin, Hk.
    apply elem_of_cons in Hin as [->|Hin]; [|apply list_elem_of_singleton in Hin as ->; by eapply create_index_keys].
    unfold generate_foreign_keys in Hk. apply list_elem_of_omap in Hk as (f & Hf & Hk). apply foreign_key_fields in Hk as (_ & Hc & Hr).
    eapply add_key_keys; try done. by apply Hd.
  - destruct (identity_key e); [|by apply elem_of_nil in Hin]. apply list_elem_of_singleton in Hin as ->. by eapply create_index_keys.
  - destruct (owner_field e); [|by apply elem_of_nil in Hin]. apply list_elem_of_singleton in Hin as ->. by eapply create_index_keys.
  - apply list_elem_of_singleton in Hin as ->. injection Hs as <-. intros n. cbn. by destruct (s_tables s !! n); constructor.
Qed.
Lemma settled_verified e s t : s_tables s !! entity_name e = Some t → t_columns t ≠ [] → settled e t → verify_entity app pk_types s e = Some [].
Proof.
  intros Ht Hne Hs. unfold SchemaTables.verify_entity. rewrite Ht. destruct (introspect_table (Some t)) as [|c cs] eqn:Hi; [by apply map_eq_nil in Hi|]. rewrite <-Hi. unfold settled in Hs. by rewrite Hs.
Qed.

(** *** Rows, whatever the outcome *)

Definition rows_safe (s s' : Schema) : Prop := ∀ name t, s_tables s !! name = Some t → ∃ t', s_tables s' !! name = Some t' ∧
  (t_rows t' = t_rows t ∨ ∃ e, e ∈ entities ∧ entity_name e = name ∧ kept e t t').
Lemma sync_entity_rows e s s' r : NoDup (map fname (entity_fields e)) → sync_entity app pk_types e s = (s', r) →
  (∀ name, name ≠ entity_name e → s_tables s' !! name = s_tables s !! name) ∧
  ∀ t, s_tables s !! entity_name e = Some t → ∃ t', s_tables s' !! entity_name e = Some t' ∧ (t' = t ∨ kept e t t').
Proof.
  intros Hnd He. assert (∀ t, s_tables s !! entity_name e = Some t → ∃ t', s_tables s !! entity_name e = Some t' ∧ (t' = t ∨ kept e t t')) as Hsame by (intros t Ht; exists t; auto).
  unfold SchemaTables.sync_entity in He. destruct (s_tables s !! entity_name e) as [t|] eqn:Ht; [|cbn in He; injection He as <- <-; by split].
  destruct (introspect_table (Some t)) as [|c0 cs] eqn:Hi; [injection He as <- <-; rewrite Ht; by split|]. rewrite <-Hi in He.
  destruct (SchemaSync.compute_diff _ _ _ _ _ _ _) as [d|] eqn:Hc; [|injection He as <- <-; rewrite Ht; by split]. destruct (d_changes d); [injection He as <- <-; rewrite Ht; by split|].
  unfold apply_ddl in He. destruct (exec_all _ t) as [t'|] eqn:Ha; [|injection He as <- <-; rewrite Ht; by split]. injection He as <- <-. cbn. split; [by intros n Hn; rewrite lookup_insert_ne|].
  intros t0 [= <-]. exists t'. rewrite lookup_insert_eq. split; [done|]. right. by apply (rows_kept bigdecimal json_to_string app (entity_name e) pk_types (entity_fields e) t d t' Hnd Hc Ha).
Qed.
Lemma sync_schema_rows es s s' r : NoDup (map entity_name es) → (∀ e, e ∈ es → NoDup (map fname (entity_fields e))) →
  sync_schema app pk_types es s = (s', r) → ∀ name t, s_tables s !! name = Some t →
  ∃ t', s_tables s' !! name = Some t' ∧ (t' = t ∨ ∃ e, e ∈ es ∧ entity_name e = name ∧ kept e t t').
Proof.
  revert s. induction es as [|e es IH]; intros s Hnd Hd He name t Ht; cbn in He; [injection He as <- <-; eauto|].
  cbn in Hnd. apply NoDup_cons in Hnd as [Hni Hnd]. destruct (SchemaTables.sync_entity _ _ _ _ _ s) as [s1 r1] eqn:H1.
  destruct (sync_entity_rows e s s1 r1 (Hd e ltac:(set_solver)) H1) as [Hother Hrow].
  assert (∃ t1, s_tables s1 !! name = Some t1 ∧ (t1 = t ∨ entity_name e = name ∧ kept e t t1)) as (t1 & Ht1 & Hk1).
  { destruct (decide (name = entity_name e)) as [->|Hne]; [|rewrite Hother by done; by eauto]. destruct (Hrow t Ht) as (t1 & E & Hk). exists t1. split; [done|]. destruct Hk as [->|?]; [by left|by right]. }
  destruct r1 as [[]|err]; [|injection He as <- <-; exists t1; split; [done|]; destruct Hk1 as [->|[? ?]]; [by left|right; exists e; split; [set_solver|done]]].
  destruct (IH s1 Hnd) with (name := name) (t := t1) as (t' & Ht' & Hk'); try done; [intros; apply Hd; set_solver|].
  exists t'. split; [done|]. destruct Hk1 as [->|[Hn Hk1]]; [destruct Hk' as [->|(x & Hx & ?)]; [by left|right; exists x; split; [set_solver|done]]|].
  destruct Hk' as [->|(x & Hx & Hxn & _)]; [right; exists e; split; [set_solver|done]|]. destruct Hni. rewrite Hn, <-Hxn. by apply list_elem_of_fmap_2.
Qed.
Lemma create_tables_rows es s s' r : create_tables pk_types es s = (s', r) → ∀ name t, s_tables s !! name = Some t → s_tables s' !! name = Some t.
Proof.
  revert s. induction es as [|e es IH]; intros s Hc name t Ht; cbn in Hc; [by injection Hc as <- <-|]. destruct (SchemaTables.table_columns _ _ e pk_types) as [cds|]; [|by injection Hc as <- <-].
  destruct (exec_create _ cds s) as [s1|] eqn:H1; [|by injection Hc as <- <-]. eapply IH; [done|]. unfold exec_create in H1. destruct (s_tables s !! entity_name e) eqn:Hn; [by injection H1 as <-|].
  destruct (s_indexes s !! entity_name e); [by injection H1 as <-|]. destruct (_ && _); [|done]. injection H1 as <-. cbn. rewrite lookup_insert_ne; [done|]. congruence.
Qed.
Lemma created_tables_ok es s s' r : (∀ name t, s_tables s !! name = Some t → table_ok t) → create_tables pk_types es s = (s', r) → ∀ name t, s_tables s' !! name = Some t → table_ok t.
Proof.
  revert s. induction es as [|e es IH]; intros s Hok Hc; cbn in Hc; [by injection Hc as <- <-|]. destruct (SchemaTables.table_columns _ _ e pk_types) as [cds|]; [|by injection Hc as <- <-].
  destruct (exec_create _ cds s) as [s1|] eqn:H1; [|by injection Hc as <- <-]. eapply IH; [|done]. unfold exec_create in H1. destruct (s_tables s !! entity_name e) eqn:Hn; [by injection H1 as <-|].
  destruct (s_indexes s !! entity_name e); [by injection H1 as <-|]. destruct (bool_decide _) eqn:Hnd; [|done]. apply bool_decide_eq_true in Hnd. destruct (_ <=? 1); [|done]. injection H1 as <-.
  intros n t. cbn. destruct (decide (n = entity_name e)) as [->|Hne]; [rewrite lookup_insert_eq; intros [= <-]; by apply table_of_ok|rewrite lookup_insert_ne by done; apply Hok].
Qed.
Lemma run_steps_only steps s s' r : (∀ step s s', step ∈ steps → step s = Some s' → keys_only s s') → run_steps steps s = (s', r) → keys_only s s'.
Proof.
  revert s. induction steps as [|step steps IH]; intros s Hk Hx; cbn in Hx; [by injection Hx as <- <-|]. destruct (step s) as [s1|] eqn:H1; [|by injection Hx as <- <-].
  transitivity s1; [eapply Hk; [|done]; set_solver|]. apply IH; [|done]. intros st u u' Hin. apply Hk. set_solver.
Qed.
Lemma kept_keys e name t t' t'' : kept e t t' → more_keys name t' t'' → kept e t t''.
Proof. intros Hk [_ Hr _ _ _]. unfold kept. by rewrite Hr. Qed.
End Sync.

(** ** Installation of the tables *)

Section Install.
Context `{!Catalog} (bigdecimal : string → option string) (json_to_string : JsonValue → string).
Notation install_tables := (install_tables bigdecimal json_to_string).
Notation build_pk_type_map := (build_pk_type_map bigdecimal).
Notation declared_ok := (declared_ok bigdecimal json_to_string).

Lemma install_parts app entities pk s s' r : build_pk_type_map entities = Some pk → entities ≠ [] → install_tables app entities s = (s', r) →
  ∃ s1 r1, create_tables bigdecimal json_to_string pk entities s = (s1, r1) ∧
    match r1 with
    | Err err => s' = s1 ∧ r = Err err
    | Ok _ => ∃ s2 r2, sync_schema bigdecimal json_to_string app pk entities s1 = (s2, r2) ∧
        match r2 with
        | Err err => s' = s2 ∧ r = Err err
        | Ok _ => run_steps (concat (map (finish_steps app entities) entities)) s2 = (s', r)
        end
    end.
Proof.
  intros Hpk Hne Hi. unfold SchemaTables.install_tables in Hi. rewrite Hpk in Hi. destruct entities as [|e es]; [done|].
  destruct (create_tables _ _ _ _ _) as [s1 [[]|err]]; exists s1; eexists; (split; [done|]); [|by injection Hi as <- <-].
  destruct (sync_schema _ _ _ _ _ _) as [s2 [[]|err]]; exists s2; eexists; (split; [done|]); [done|by injection Hi as <- <-].
Qed.

(** [C34] Installing the tables of a manifest brings them to what it declares: after an
    installation that succeeds, verification finds nothing to change in the columns of an
    ordinary entity, and every link that is to have a foreign key has one of its name.
    This is for manifests whose only declared key is [id] and whose types and defaults
    PostgreSQL shows as they are declared ([declared_ok]), and for tables that were there
    with an [id] and at most one foreign key to a column ([schema_ok]); a default that
    PostgreSQL rewrites and a column with two keys are never settled
    ([json_default_never_matches], [two_keys]). *)
Theorem installed_tables_verify app entities pk s s' e :
  NoDup (map entity_name entities) → build_pk_type_map entities = Some pk → (∀ e, e ∈ entities → declared_ok pk e) → schema_ok entities s →
  install_tables app entities s = (s', Ok tt) → e ∈ entities → is_derived e = false →
  verify_entity bigdecimal json_to_string app pk s' e = Some [] ∧
  ∀ k, k ∈ generate_foreign_keys app e entities → ∃ t, s_tables s' !! entity_name e = Some t ∧ pg_name (ks_name k) ∈ map fk_name (t_fks t).
Proof.
  intros Hnd Hpk Hd Hok Hi He Hder. destruct (install_parts app entities pk s s' (Ok tt) Hpk) as (s1 & [[]|] & Hc & Hrest); [by intros ->; apply elem_of_nil in He|done| |naive_solver].
  destruct Hrest as (s2 & [[]|] & Hs & Hrun); [|naive_solver].
  destruct (installed_table bigdecimal json_to_string app pk entities s s1 s2 e Hnd Hok Hd Hc Hs He Hder) as (t2 & Ht2 & Hset & Hne & _).
  destruct (run_steps_keys bigdecimal json_to_string app pk entities _ s2 s' (λ st a b, finish_steps_keys bigdecimal json_to_string app pk entities st a b Hnd (λ x Hx, do_names _ _ _ _ (Hd x Hx))) Hrun) as [Hk Hsteps]. split.
  - pose proof (Hk (entity_name e)) as Hke. rewrite Ht2 in Hke. inversion Hke as [x t' Hm E1 E2|]. destruct Hm as [Hcol _ Hm _ _].
    apply (settled_verified bigdecimal json_to_string app pk e s' t'); [done|congruence|by apply Hm].
  - intros k Hin. destruct (Hsteps (add_key (entity_name e) k)) as (u1 & u2 & Hadd & Hk2).
    { apply list_elem_of_In, in_concat. exists (finish_steps app entities e). split; [by apply in_map, list_elem_of_In|]. apply list_elem_of_In. unfold finish_steps. apply elem_of_app. left.
      apply list_elem_of_In, in_concat. eexists. split; [by apply in_map, list_elem_of_In|]. by left. }
    unfold generate_foreign_keys in Hin. apply list_elem_of_omap in Hin as (f & Hf & Hk'). apply foreign_key_fields in Hk' as (_ & Hcol & Hr).
    destruct (add_key_keys bigdecimal json_to_string app pk entities e f k u1 u2 Hnd He (do_names _ _ _ _ (Hd e He)) Hf Hcol Hr Hadd) as (_ & t & Ht & Hkt).
    specialize (Hk2 (entity_name e)). rewrite Ht in Hk2. inversion Hk2 as [x t' Hm E1 E2|]. exists t'. split; [done|]. by apply (mk_keys _ _ _ _ _ _ _ _ Hm).
Qed.

(** [C35] No installation loses data it was not asked to: whether it succeeds or fails part
    way, every table that was there is still there with the same rows, of which each cell
    of a system column or of a declared column of the declared type is as it was, each
    cell of a column that changes its type is what its conversion gives, and only cells of
    columns that are no longer declared are gone; tables the manifest does not name are
    not touched.  The manifest names no entity twice, and no field of an entity twice. *)
Theorem install_keeps_rows app entities s s' r name t :
  NoDup (map entity_name entities) → (∀ e, e ∈ entities → NoDup (map fname (entity_fields e))) →
  install_tables app entities s = (s', r) → s_tables s !! name = Some t →
  ∃ t', s_tables s' !! name = Some t' ∧ (name ∉ map entity_name entities → t' = t) ∧
    (t_rows t' = t_rows t ∨ ∃ pk e, build_pk_type_map entities = Some pk ∧ e ∈ entities ∧ entity_name e = name ∧ kept bigdecimal pk e t t').
Proof.
  intros Hnd Hd Hi Ht. destruct (decide (entities = [])) as [->|Hne]; [cbn in Hi; injection Hi as <- <-; by exists t; auto|].
  destruct (build_pk_type_map entities) as [pk|] eqn:Hpk.
  2: { unfold SchemaTables.install_tables in Hi. rewrite Hpk in Hi. assert (s' = s) as -> by (by destruct entities; simplify_eq). exists t. auto. }
  destruct (install_parts app entities pk s s' r Hpk Hne Hi) as (s1 & r1 & Hc & Hrest). pose proof (create_tables_rows _ _ _ _ _ _ _ Hc name t Ht) as Ht1.
  destruct r1 as [u|]; [|destruct Hrest as [-> _]; by exists t; auto]. destruct Hrest as (s2 & r2 & Hs & Hrest).
  destruct (sync_schema_rows bigdecimal json_to_string app pk entities s1 s2 r2 Hnd Hd Hs name t Ht1) as (t2 & Ht2 & Hk).
  assert (name ∉ map entity_name entities → t2 = t) as Hother. { intros Hni. destruct Hk as [->|(e & He & <- & _)]; [done|]. destruct Hni. by apply list_elem_of_fmap_2. }
  destruct r2 as [u2|]; [|destruct Hrest as [-> _]; exists t2; split_and!; [done|done|]; destruct Hk as [->|(x & Hx1 & Hx2)]; [by left|right; by exists pk, x]].
  pose proof (run_steps_only bigdecimal json_to_string app pk entities _ _ _ _ (λ st a b, finish_steps_keys bigdecimal json_to_string app pk entities st a b Hnd Hd) Hrest name) as Hkeys. rewrite Ht2 in Hkeys.
  inversion Hkeys as [x t' Hm E1 E2|]. exists t'. split_and!; [done|intros Hni; rewrite (mk_other _ _ _ _ _ _ _ _ Hm) by done; by apply Hother|].
  destruct Hk as [->|(e & He & Hn & Hk)]; [left; apply Hm|right; exists pk, e; split_and!; [done|done|done|]]. by eapply kept_keys.
Qed.
End Install.

(** ** An example *)

Definition demo_catalog : Catalog := {|
  format_type := normalize_pg_type;
  show_default := λ _ sql, if starts_with "'" sql then sql +:+ "::text" else sql;
  alter_default := λ _ _ d, Some d;
  cast_cell := λ _ v, Some v;
  refers_to := λ _ _, true |}.
#[local] Existing Instance demo_catalog.
Definition demo_field (name type : string) (req : bool) (d : option JsonValue) (r : option string) : FieldContract :=
  {| fname := name; field_type := type; precision := None; scale := None; required := req; default_value := d; enum_values := None;
     references := (λ e, {| ref_entity := e; ref_field := "id" |}) <$> r; is_primary_key := None; sensitive := false; owner := false; rules := no_rules; on_delete := None; field_unknown := [] |}.
Definition demo_entity (name : string) (fields : list FieldContract) : EntityContract :=
  {| entity_name := name; entity_fields := fields; share := None; entity_indexes := []; entity_checks := []; derived_from := None; identity_kind := None; identity_key := None; entity_unknown := [] |}.
Definition accounts : EntityContract := demo_entity "accounts" [demo_field "name" "text" true None None].
Definition contacts : EntityContract :=
  demo_entity "contacts" [demo_field "status" "text" false (Some (JString "new")) None; demo_field "score" "number" false None None; demo_field "account" "entity_link" false None (Some "accounts")].
Definition crm : list EntityContract := [accounts; contacts].
(** [contacts] as an earlier manifest had it: a score of text, and a fax number. *)
Definition old_contacts : Table :=
  table_of [id_column; {| cd_name := "score"; cd_type := "TEXT"; cd_pk := false; cd_not_null := false; cd_default := None; cd_check := None |};
            {| cd_name := "fax"; cd_type := "TEXT"; cd_pk := false; cd_not_null := false; cd_default := None; cd_check := None |}; time_column "created_at"; time_column "updated_at"].
Definition old_schema : Schema :=
  {| s_tables := {["contacts" := set_rows [list_to_map [("id", "c1"); ("score", "7"); ("fax", "555")]] old_contacts; "notes" := table_of [id_column]]}; s_indexes := ∅ |}.
Definition demo_decimal (s : string) : option string := Some s.
Definition demo_json (v : JsonValue) : string := "{}".
Definition crm_types : gmap string string := {["accounts" := "UUID"; "contacts" := "UUID"]}.
Definition new_schema : Schema := (install_tables demo_decimal demo_json "crm" crm old_schema).1.
Example crm_installed : install_tables demo_decimal demo_json "crm" crm old_schema = (new_schema, Ok tt).
Proof. vm_compute. reflexivity. Qed.
Example crm_pk : build_pk_type_map demo_decimal crm = Some crm_types.
Proof. vm_compute. reflexivity. Qed.
Ltac each_field := repeat match goal with
  | H : _ ∈ _ :: _ |- _ => apply elem_of_cons in H as [->|H]
  | H : _ ∈ [] |- _ => by apply elem_of_nil in H
  end.
Lemma demo_shows fields : Forall (λ f, bool_decide (is_Some (desired_default demo_decimal demo_json f)) && match desired_default demo_decimal demo_json f with
    Some (Some sql) => defaults_match (show_default EmptyString sql) sql | _ => true end = true) fields → shows_declared demo_decimal demo_json crm_types fields.
Proof.
  intros Hall. rewrite Forall_forall in Hall. split.
  - intros f Hf. specialize (Hall f Hf). apply andb_true_iff in Hall as [Hs _]. by apply bool_decide_eq_true in Hs.
  - done.
  - intros f ty sql Hf E. specialize (Hall f Hf). rewrite E in Hall. by apply andb_true_iff in Hall as [_ Hm].
  - intros f from to d d' sql _ _ Hm [= <-]. exact Hm.
Qed.
Lemma crm_declared e : e ∈ crm → declared_ok demo_decimal demo_json crm_types e.
Proof.
  intros He. unfold crm in He. each_field; split; try (apply demo_shows; repeat constructor); try (apply (bool_decide_unpack _); vm_compute; exact I); intros f Hf _; cbn in Hf; each_field; reflexivity.
Qed.
Lemma old_schema_ok : schema_ok crm old_schema.
Proof.
  split.
  - intros name t Ht. cbn in Ht. apply lookup_insert_Some in Ht as [[<- <-]|[_ Ht]]; [|apply lookup_singleton_Some in Ht as [<- <-]];
      (split; [apply (bool_decide_unpack _); vm_compute; exact I|constructor|constructor|by intros k []%elem_of_nil]).
  - intros e t He _ Ht. unfold crm in He. each_field; vm_compute in Ht; [done|]. injection Ht as <-. by vm_compute; eexists.
  - intros e _. apply lookup_empty.
Qed.
Lemma installed_tables_verify_witness : verify_entity demo_decimal demo_json "crm" crm_types new_schema contacts = Some [].
Proof.
  refine (proj1 (installed_tables_verify demo_decimal demo_json "crm" crm crm_types old_schema new_schema contacts _ crm_pk crm_declared old_schema_ok crm_installed _ eq_refl)).
  - apply (bool_decide_unpack _). vm_compute. exact I.
  - apply elem_of_cons. right. by apply list_elem_of_singleton.
Defined.
Lemma install_keeps_rows_witness : ∃ t', s_tables new_schema !! "notes" = Some t' ∧ ("notes" ∉ map entity_name crm → t' = table_of [id_column]).
Proof.
  destruct (install_keeps_rows demo_decimal demo_json "crm" crm old_schema new_schema (Ok tt) "notes" (table_of [id_column])) as (t' & H1 & H2 & _).
  - apply (bool_decide_unpack _). vm_compute. exact I.
  - intros e He. apply (do_names _ _ _ _ (crm_declared e He)).
  - exact crm_installed.
  - vm_compute. reflexivity.
  - exists t'. split; [exact H1|exact H2].
Defined.
Example score_converted : (t ← s_tables new_schema !! "contacts"; r ← t_rows t !! 0; Some (r !! "id", r !! "score", r !! "fax")) = Some (Some "c1", Some "7", None).
Proof. vm_compute. reflexivity. Qed.
(** A required field with a default cannot be added to a table that has rows: the column is
    added without it, and [SET NOT NULL] comes before [SET DEFAULT]. *)
Example required_default_refused :
  (install_tables demo_decimal demo_json "crm" [demo_entity "contacts" [demo_field "stage" "text" true (Some (JString "lead")) None]] old_schema).2 = Err SchemaError.
Proof. vm_compute. reflexivity. Qed.
(** A default with a cast in it never matches what is shown of it. *)
Example json_default_never_matches : defaults_match "'{}'::jsonb" "'{}'::jsonb" = false.
Proof. vm_compute. reflexivity. Qed.
(** A link to users whose rule changes ends up with two keys on its column. *)
Definition linked (rule : option OnDeletePolicy) : EntityContract :=
  let f := demo_field "by" "entity_link" false None (Some "core:users") in
  demo_entity "notes" [{| fname := fname f; field_type := field_type f; precision := None; scale := None; required := false; default_value := None; enum_values := None; references := references f;
    is_primary_key := None; sensitive := false; owner := false; rules := no_rules; on_delete := rule; field_unknown := [] |}].
Example two_keys : let install rule s := (install_tables demo_decimal demo_json "crm" [linked rule] s).1 in
  (t ← s_tables (install (Some Cascade) (install None {| s_tables := ∅; s_indexes := ∅ |})) !! "notes"; Some (map (λ k, (fk_name k, fk_column k)) (t_fks t)))
  = Some [("fk_crm_notes_by_users", "by"); ("fk_crm_notes_by_core_users", "by")].
Proof. vm_compute. reflexivity. Qed.
(** The index of a link of an app whose name begins with [identity] is taken for the index
    of an identity, and dropped as soon as it is there. *)
Example identity_app_loses_index : let s app := (install_tables demo_decimal demo_json app [linked None] {| s_tables := ∅; s_indexes := ∅ |}).1 in
  (bool_decide (is_Some (s_indexes (s "crm") !! "idx_crm_notes_by")), bool_decide (s_indexes (s "identity") = ∅)) = (true, true).
Proof. vm_compute. reflexivity. Qed.
