(* ===== verification/RowSharing.v ===== *)
(** * Shared rows (core/src/governance/row_access/sharing.rs)

    An entity may declare that its rows are shares: while a date is not set, the owner of
    the row one link leads to (the grantee) may read the rows of whoever owns the row the
    other link leads to (scope identity), or that row itself and those that declared paths
    connect with it (scope resource).  The declaration is validated with the manifest and
    compiled to a resolver, a SQL function of the keys of the rows a caller may read.
    Queries are kept as trees with their text and their meaning on the rows. *)

From stdpp Require Import base numbers pretty gmap strings sets list.
From S2P Require Import Prelude Str Ident Perms Roles Authority Delegation Gates Json DataTypes Ownership RowPlan RowAccess.

Definition invalid (message : string) : RuntimeError := Invalid message.
Definition entity (m : AppManifest) (name : string) : result RuntimeError EntityContract :=
  ok_or (List.find (λ e, bool_decide (entity_name e = name)) (data_contract m)) (invalid ("share: unknown entity '" +:+ name +:+ "'")).
Definition primary (e : EntityContract) : string := primary_name e.
Definition named (name : string) (e : EntityContract) : option FieldContract := List.find (λ f, bool_decide (fname f = name)) (entity_fields e).
Definition at_field (e : EntityContract) (field : string) : string := "entity '" +:+ entity_name e +:+ "': share field '" +:+ field +:+ "'".
Definition link (m : AppManifest) (source : EntityContract) (field : string) : result RuntimeError EntityContract :=
  let? f := ok_or (named field source) (invalid (at_field source field +:+ " does not exist")) in
  let? reference := ok_or (if bool_decide (field_type f = "entity_link") then references f else None)
                      (invalid (at_field source (fname f) +:+ " must be a local entity_link")) in
  try? ensure (is_local (ref_entity reference)) (invalid (at_field source (fname f) +:+ " must link to a local entity")) in
  let? target := entity m (ref_entity reference) in
  try? ensure (bool_decide (ref_field reference = primary target))
    (invalid (at_field source (fname f) +:+ " must reference the primary key of '" +:+ entity_name target +:+ "'")) in
  Ok target.
Definition owned_link (m : AppManifest) (source : EntityContract) (field : string) : result RuntimeError EntityContract :=
  let? target := link m source field in
  try? ensure (bool_decide (is_Some (owner_field target)))
    (invalid (at_field source field +:+ " targets '" +:+ entity_name target +:+ "', which declares no owner field")) in
  Ok target.
Definition is_target (m : AppManifest) (target : EntityContract) : bool :=
  existsb (λ source,
    match share source with
    | None => false
    | Some sh =>
        match share_scope sh with
        | Identity => bool_decide (is_Some (owner_field target))
        | Resource =>
            match named (subject sh) source ≫= references with Some r => bool_decide (ref_entity r = entity_name target) | None => false end
            || existsb (λ t, bool_decide (st_entity t = entity_name target)) (share_targets sh)
        end
    end) (data_contract m).

(** ** Paths *)

(** A join: the column of the table before it, the table joined and its key. *)
Record Join := { j_link : string; j_table : string; j_key : string }.
Record Path := { pt_prefix : string; pt_start : string; pt_joins : list Join; pt_owner : string; pt_type : string; pt_key : string }.
Definition alias (prefix : string) (n : nat) : string := prefix +:+ pretty n.
Fixpoint joins_sql (schema prefix : string) (n : nat) (joins : list Join) : string :=
  match joins with
  | [] => EmptyString
  | j :: joins =>
      " JOIN " +:+ quote_ident schema +:+ "." +:+ quote_ident (j_table j) +:+ " " +:+ alias prefix (S n) +:+ " ON " +:+ alias prefix n +:+ "." +:+ quote_ident (j_link j)
      +:+ " = " +:+ alias prefix (S n) +:+ "." +:+ quote_ident (j_key j) +:+ joins_sql schema prefix (S n) joins
  end.
Definition from_sql (schema prefix start : string) (joins : list Join) : string :=
  quote_ident schema +:+ "." +:+ quote_ident start +:+ " " +:+ alias prefix 0 +:+ joins_sql schema prefix 0 joins.
Definition path_from (schema : string) (p : Path) : string := from_sql schema (pt_prefix p) (pt_start p) (pt_joins p).
Definition path_identity (p : Path) : string := alias (pt_prefix p) (length (pt_joins p)) +:+ "." +:+ quote_ident (pt_owner p).
Definition path_pk (p : Path) : string := alias (pt_prefix p) 0 +:+ "." +:+ quote_ident (pt_key p).

(** [fuel] is what [MAX_OWNER_CHAIN] leaves after the entities visited. *)
Fixpoint owner_joins (m : AppManifest) (start : string) (fuel : nat) (visited : list string) (current : EntityContract) : result RuntimeError (list Join * string * string) :=
  match fuel with
  | 0 => Err (invalid ("share: ownership chain from '" +:+ start +:+ "' loops or exceeds MAX_OWNER_CHAIN"))
  | S fuel =>
      try? ensure (negb (bool_decide (entity_name current ∈ visited))) (invalid ("share: ownership chain from '" +:+ start +:+ "' loops or exceeds MAX_OWNER_CHAIN")) in
      let? owner := ok_or (owner_field current) (invalid ("share: entity '" +:+ entity_name current +:+ "' has no owner")) in
      match owner_parent current with
      | None => Ok ([], owner, if bool_decide (field_type <$> named owner current = Some "text") then "text" else "uuid")
      | Some parent =>
          let? target := owned_link m current owner in
          let? '(joins, root, ty) := owner_joins m start fuel (visited ++ [entity_name current]) target in
          Ok ({| j_link := owner; j_table := parent; j_key := primary target |} :: joins, root, ty)
      end
  end.
Definition path (m : AppManifest) (start prefix : string) : result RuntimeError Path :=
  let? current := entity m start in
  let? '(joins, root, ty) := owner_joins m start MAX_OWNER_CHAIN [] current in
  Ok {| pt_prefix := prefix; pt_start := start; pt_joins := joins; pt_owner := root; pt_type := ty; pt_key := primary current |}.

Definition MAX_RESOURCE_ENTITIES : nat := 4.
Definition readable_key (e : EntityContract) (name : string) : result RuntimeError unit :=
  ensure (negb (existsb (λ f, bool_decide (fname f = name) && sensitive f) (entity_fields e)))
    (invalid ("resource share requires a nonsensitive key '" +:+ entity_name e +:+ "." +:+ name +:+ "'")).
Record ResourcePath := { rp_start : string; rp_joins : list Join; rp_key : string; rp_resource : string }.
Definition rp_from (schema : string) (p : ResourcePath) : string := from_sql schema "t" (rp_start p) (rp_joins p).
Definition rp_pk (p : ResourcePath) : string := alias "t" 0 +:+ "." +:+ quote_ident (rp_key p).
Definition rp_value (p : ResourcePath) : string := alias "t" (length (rp_joins p)) +:+ "." +:+ quote_ident (rp_resource p).
Fixpoint via_joins (m : AppManifest) (visited : list string) (current : EntityContract) (via : list string) : result RuntimeError (list Join * EntityContract) :=
  match via with
  | [] => Ok ([], current)
  | field :: via =>
      try? readable_key current field in
      let? next := link m current field in
      try? readable_key next (primary next) in
      try? ensure (negb (bool_decide (entity_name next ∈ visited))) (invalid "resource share path must not loop or repeat an entity") in
      let? '(joins, last) := via_joins m (entity_name next :: visited) next via in
      Ok ({| j_link := field; j_table := entity_name next; j_key := primary next |} :: joins, last)
  end.
Definition resource_path (m : AppManifest) (subject : EntityContract) (t : ShareTarget) : result RuntimeError ResourcePath :=
  try? ensure (negb (bool_decide (st_via t = []) || (MAX_RESOURCE_ENTITIES <=? length (st_via t)))) (invalid "resource share path must contain 1 to 3 local links") in
  let? current := entity m (st_entity t) in
  try? readable_key current (primary current) in
  let? '(joins, last) := via_joins m [entity_name current] current (st_via t) in
  try? ensure (bool_decide (entity_name last = entity_name subject))
    (invalid ("resource share path from '" +:+ st_entity t +:+ "' must end at subject entity '" +:+ entity_name subject +:+ "'")) in
  Ok {| rp_start := entity_name current; rp_joins := joins; rp_key := primary current; rp_resource := primary subject |}.

(** ** Validation *)

Fixpoint distinct_targets (seen : list ShareTarget) (check : ShareTarget → result RuntimeError unit) (targets : list ShareTarget) : result RuntimeError unit :=
  match targets with
  | [] => Ok tt
  | t :: targets =>
      try? ensure (negb (existsb (λ u, bool_decide (st_entity u = st_entity t) && bool_decide (st_via u = st_via t)) seen))
        (invalid ("duplicate resource share path for '" +:+ st_entity t +:+ "'")) in
      try? check t in
      distinct_targets (t :: seen) check targets
  end.
Definition validate_share (m : AppManifest) (source : EntityContract) : result RuntimeError unit :=
  match share source with
  | None => Ok tt
  | Some sh =>
      let index := "rootcx_share_" +:+ app_id m +:+ "_" +:+ entity_name source in
      try? ensure (fits_ident_limit index) (invalid ("share index '" +:+ index +:+ "' exceeds PostgreSQL's 63-byte identifier limit")) in
      try? ensure (negb (bool_decide (grantee sh = subject sh))) (invalid ("entity '" +:+ entity_name source +:+ "': share grantee and subject must be different fields")) in
      let? g := owned_link m source (grantee sh) in
      let? _ := path m (entity_name g) "g" in
      try? match share_scope sh with
           | Identity =>
               let? _ := owned_link m source (subject sh) in
               ensure (bool_decide (share_targets sh = [])) (invalid "share targets require scope 'resource'")
           | Resource =>
               let? s := link m source (subject sh) in
               try? readable_key s (primary s) in
               try? ensure (length (share_targets sh) <=? 32) (invalid "resource share supports at most 32 target paths") in
               distinct_targets [] (λ t, let? _ := resource_path m s t in Ok tt) (share_targets sh)
           end in
      let? active := ok_or (named (active_when_null sh) source)
                       (invalid ("entity '" +:+ entity_name source +:+ "': share activeWhen.isNull names missing field '" +:+ active_when_null sh +:+ "'")) in
      ensure (bool_decide (field_type active ∈ ["date"; "timestamp"]) && negb (required active))
        (invalid ("entity '" +:+ entity_name source +:+ "': share activeWhen.isNull field '" +:+ fname active +:+ "' must be a nullable date or timestamp"))
  end.
Definition shared_entities (m : AppManifest) : list EntityContract := List.filter (is_target m) (data_contract m).
Definition validate (m : AppManifest) : result RuntimeError unit :=
  try? try_for_each (validate_share m) (data_contract m) in
  try? (if existsb (λ e, bool_decide (is_Some (share e))) (data_contract m)
        then try_for_each (λ e, ensure (negb (existsb (λ f, owner f && sensitive f) (entity_fields e)))
               (invalid ("entity '" +:+ entity_name e +:+ "': shared access requires a nonsensitive owner field; its resolver returns ownership keys"))) (data_contract m)
        else Ok tt) in
  try_for_each (λ t,
    let resolver := "rootcx_shared." +:+ app_id m +:+ "." +:+ entity_name t in
    try? ensure (fits_ident_limit resolver) (invalid ("share resolver '" +:+ resolver +:+ "' exceeds PostgreSQL's 63-byte identifier limit")) in
    match owner_field t with Some _ => let? _ := path m (entity_name t) "v" in Ok tt | None => Ok tt end) (shared_entities m).

(** ** Resolvers *)

Definition guard (schema table : string) : string :=
  "(SELECT rootcx_system.check_access(" +:+ quote_literal ("app:" +:+ schema +:+ ":" +:+ table +:+ ".read.shared") +:+ ")) AND (current_setting('rootcx.human_data_request', true) = '1' OR nullif(current_setting('rootcx.app_id', true), '') = "
  +:+ quote_literal schema +:+ ")".
(** A row of [source] that is in force, with the rows its two links lead to. *)
Record ShareTable := { sh_source : string; sh_grantee : string; sh_subject : string; sh_active : string }.
Definition share_table (source : EntityContract) (sh : ShareContract) : ShareTable :=
  {| sh_source := entity_name source; sh_grantee := grantee sh; sh_subject := subject sh; sh_active := active_when_null sh |}.
Inductive Legacy := LSubjects (subjects : list (ShareTable * Path * Path)) (table ty : string) (target : option Path).
Inductive Select :=
| SResource (a : ShareTable) (g : Path) (t : ResourcePath) (table : string)
| SOwned (column table owner : string) (legacy : Legacy).

Definition CALLER : string := "(SELECT nullif(current_setting('rootcx.user_id', true), ''))::".
Definition share_where (schema : string) (a : ShareTable) (g : Path) (from subject_key : string) : string :=
  " FROM " +:+ quote_ident schema +:+ "." +:+ quote_ident (sh_source a) +:+ " a, " +:+ path_from schema g +:+ ", " +:+ from +:+ " WHERE a." +:+ quote_ident (sh_grantee a) +:+ " = " +:+ path_pk g
  +:+ " AND a." +:+ quote_ident (sh_subject a) +:+ " = " +:+ subject_key +:+ " AND a." +:+ quote_ident (sh_active a) +:+ " IS NULL AND " +:+ path_identity g +:+ " = " +:+ CALLER +:+ pt_type g.
Definition UUID_PATTERN : string := "'^[0-9a-f]{8}-[0-9a-f]{4}-[0-9a-f]{4}-[0-9a-f]{4}-[0-9a-f]{12}$'".
Definition subject_sql (schema : string) (x : ShareTable * Path * Path) : string :=
  let '(a, g, s) := x in
  "SELECT " +:+ (if decide (pt_type s = "text") then "CASE WHEN " +:+ path_identity s +:+ " ~ " +:+ UUID_PATTERN +:+ " THEN " +:+ path_identity s +:+ " END" else path_identity s +:+ "::text")
  +:+ " AS identity" +:+ share_where schema a g (path_from schema s) (path_pk s).
Definition legacy_sql (schema : string) (l : Legacy) : string :=
  let '(LSubjects subjects table ty target) := l in
  "WITH subjects AS (" +:+ join " UNION ALL " (map (subject_sql schema) subjects) +:+ ") " +:+
  match target with
  | Some p => "SELECT DISTINCT " +:+ path_pk p +:+ " FROM " +:+ path_from schema p +:+ " WHERE " +:+ guard schema table +:+ " AND " +:+ path_identity p +:+ " IN (SELECT identity::" +:+ pt_type p
              +:+ " FROM subjects WHERE identity IS NOT NULL)"
  | None => "SELECT DISTINCT identity::" +:+ ty +:+ " FROM subjects WHERE " +:+ guard schema table +:+ " AND identity IS NOT NULL"
  end.
Definition select_sql (schema : string) (q : Select) : string :=
  match q with
  | SResource a g t table => "SELECT " +:+ rp_pk t +:+ share_where schema a g (rp_from schema t) (rp_value t) +:+ " AND (" +:+ guard schema table +:+ ")"
  | SOwned column table owner legacy =>
      "SELECT " +:+ quote_ident column +:+ " FROM " +:+ quote_ident schema +:+ "." +:+ quote_ident table +:+ " WHERE " +:+ quote_ident owner +:+ " IN (" +:+ legacy_sql schema legacy +:+ ")"
  end.

#[global] Instance ShareScope_eq_dec : EqDecision ShareScope.
Proof. solve_decision. Defined.
Definition shares_of (scope : ShareScope) (m : AppManifest) : list (EntityContract * ShareContract) :=
  omap (λ e, sh ← share e; if bool_decide (share_scope sh = scope) then Some (e, sh) else None) (data_contract m).
Definition source_selects (m : AppManifest) (table : string) (x : EntityContract * ShareContract) : result RuntimeError (list Select) :=
  let '(source, sh) := x in
  let? s := link m source (subject sh) in
  let? ge := owned_link m source (grantee sh) in
  let? g := path m (entity_name ge) "g" in
  let own := if bool_decide (entity_name s = table) then [{| rp_start := table; rp_joins := []; rp_key := primary s; rp_resource := primary s |}] else [] in
  let? paths := try_map (resource_path m s) (List.filter (λ t, bool_decide (st_entity t = table)) (share_targets sh)) in
  Ok (map (λ t, SResource (share_table source sh) g t table) (own ++ paths)).
Definition resource_selects (m : AppManifest) (table : string) : result RuntimeError (list Select) :=
  let? l := try_map (source_selects m table) (shares_of Resource m) in Ok (concat l).
Definition identity_subject (m : AppManifest) (x : EntityContract * ShareContract) : result RuntimeError (ShareTable * Path * Path) :=
  let '(source, sh) := x in
  let? ge := owned_link m source (grantee sh) in
  let? g := path m (entity_name ge) "g" in
  let? se := owned_link m source (subject sh) in
  let? s := path m (entity_name se) "s" in
  Ok (share_table source sh, g, s).
(** [column_type]: the type of a column in the catalog. *)
Definition identity_select (column_type : string → string → option string) (m : AppManifest) (table : string) (owners : OwnerMap) : result RuntimeError (option (string * string * Legacy)) :=
  match owners !! table with
  | None => Ok None
  | Some (column, parent) =>
      let? subjects := try_map (identity_subject m) (shares_of Identity m) in
      match subjects with
      | [] => Ok None
      | _ =>
          let? ty := ok_or (column_type table column) (invalid ("share: column '" +:+ app_id m +:+ "." +:+ table +:+ "." +:+ column +:+ "' is missing")) in
          let? target := match parent with Some p => let? t := path m p "t" in Ok (Some t) | None => Ok None end in
          Ok (Some (column, ty, LSubjects subjects table ty target))
      end
  end.
(** What a resolver selects: the keys [column] is to be among. *)
Inductive Resolver := RLegacy (column : string) (l : Legacy) | RUnion (column : string) (selects : list Select).
Definition resolver_column (r : Resolver) : string := match r with RLegacy c _ | RUnion c _ => c end.
Definition resolver_sql (schema : string) (r : Resolver) : string :=
  match r with RLegacy _ l => legacy_sql schema l | RUnion _ l => join " UNION " (map (select_sql schema) l) end.
Definition declare_select (column_type : string → string → option string) (m : AppManifest) (table : string) (owners : OwnerMap) : result RuntimeError (Resolver * string) :=
  let? selects := resource_selects m table in
  let? legacy := identity_select column_type m table owners in
  match selects with
  | [] => let? '(column, ty, l) := ok_or legacy (invalid ("share: entity '" +:+ table +:+ "' has no shared read declaration")) in Ok (RLegacy column l, ty)
  | _ =>
      let? target := entity m table in
      let column := primary target in
      let? ty := ok_or (column_type table column) (invalid ("share: primary key '" +:+ app_id m +:+ "." +:+ table +:+ "." +:+ column +:+ "' is missing")) in
      Ok (RUnion column (selects ++ match legacy with Some (owner, _, l) => [SOwned column table owner l] | None => [] end), ty)
  end.
Definition shared_resolver (schema table : string) : string := "rootcx_shared." +:+ schema +:+ "." +:+ table.
(** [declare]: the statements and the predicate of the table's shared policy.
    [same_type]: whether a function of the name is there, and returns the type. *)
Definition declare (column_type : string → string → option string) (same_type : option bool) (m : AppManifest) (table : string) (owners : OwnerMap) : result RuntimeError (list string * string * string) :=
  let? '(r, ty) := declare_select column_type m table owners in
  let schema := app_id m in
  let signature := "rootcx_system." +:+ quote_ident (shared_resolver schema table) +:+ "()" in
  Ok (["DROP POLICY IF EXISTS rootcx_rls_select_shared ON " +:+ quote_ident schema +:+ "." +:+ quote_ident table]
      ++ (if bool_decide (same_type = Some false) then ["DROP FUNCTION " +:+ signature] else [])
      ++ ["CREATE OR REPLACE FUNCTION " +:+ signature +:+ " RETURNS SETOF " +:+ ty +:+ " LANGUAGE sql STABLE SECURITY DEFINER SET search_path = pg_catalog AS $rootcx$ "
            +:+ resolver_sql schema r +:+ " $rootcx$";
          "REVOKE ALL ON FUNCTION " +:+ signature +:+ " FROM PUBLIC"; "GRANT EXECUTE ON FUNCTION " +:+ signature +:+ " TO rootcx_app_executor"],
      quote_ident (resolver_column r) +:+ " IN (SELECT " +:+ signature +:+ ")", shared_resolver schema table).

(** ** What the queries answer *)

Section Meaning.
Context (y : Sys) (s : Settings) (schema : string) (data : string → list Row).
Definition guard_open (table : string) : bool :=
  check_access y s ("app:" +:+ schema +:+ ":" +:+ table +:+ ".read.shared")
  && (setting_is "rootcx.human_data_request" "1" s || bool_decide (nonempty (current_setting "rootcx.app_id" s) = Some schema)).
Definition caller : option string := nonempty (current_setting "rootcx.user_id" s).
(** [=] of SQL is never true of a null. *)
Definition eq_sql (a b : option string) : bool := match a, b with Some x, Some y => bool_decide (x = y) | _, _ => false end.
Fixpoint follow (joins : list Join) (row : Row) : list Row :=
  match joins with
  | [] => [row]
  | j :: joins => concat (map (follow joins) (List.filter (λ p, eq_sql (row !! j_link j) (p !! j_key j)) (data (j_table j))))
  end.
(** The rows of a join: the first table's with the last one's. *)
Definition join_rows (start : string) (joins : list Join) : list (Row * Row) := concat (map (λ r, map (pair r) (follow joins r)) (data start)).
Definition path_rows (p : Path) : list (Row * Row) := join_rows (pt_start p) (pt_joins p).
Definition share_active (a : ShareTable) (row : Row) : bool := bool_decide (row !! sh_active a = None).
Definition shares_with (a : ShareTable) (g : Path) (row : Row) : bool :=
  existsb (λ '(first, last), eq_sql (row !! sh_grantee a) (first !! pt_key g) && eq_sql (last !! pt_owner g) caller) (path_rows g).
Definition active_shares (a : ShareTable) (g : Path) : list Row := List.filter (λ row, share_active a row && shares_with a g row) (data (sh_source a)).
(** Matches [UUID_PATTERN]. *)
Context (is_uuid : string → bool).
Definition subject_identities (x : ShareTable * Path * Path) : list string :=
  let '(a, g, p) := x in
  concat (map (λ row, omap (λ '(first, last), if eq_sql (row !! sh_subject a) (first !! pt_key p)
                                            then v ← last !! pt_owner p; if decide (pt_type p = "text") then (if is_uuid v then Some v else None) else Some v
                                            else None) (path_rows p)) (active_shares a g)).
Definition legacy_keys (l : Legacy) : list string :=
  let '(LSubjects subjects table _ target) := l in
  let identities := concat (map subject_identities subjects) in
  if guard_open table
  then match target with
       | Some p => omap (λ '(first, last), if from_option (λ v, bool_decide (v ∈ identities)) false (last !! pt_owner p) then first !! pt_key p else None) (path_rows p)
       | None => identities
       end
  else [].
Definition select_keys (q : Select) : list string :=
  match q with
  | SResource a g t table =>
      if guard_open table
      then concat (map (λ row, omap (λ '(first, last), if eq_sql (row !! sh_subject a) (last !! rp_resource t) then first !! rp_key t else None) (join_rows (rp_start t) (rp_joins t))) (active_shares a g))
      else []
  | SOwned column table owner l => omap (λ row, if from_option (λ v, bool_decide (v ∈ legacy_keys l)) false (row !! owner) then row !! column else None) (data table)
  end.
Definition resolver_keys (r : Resolver) : list string := match r with RLegacy _ l => legacy_keys l | RUnion _ l => concat (map select_keys l) end.
(** [column IN (SELECT resolver())] *)
Definition resolver_admits (r : Resolver) (row : Row) : bool := from_option (λ v, bool_decide (v ∈ resolver_keys r)) false (row !! resolver_column r).
End Meaning.

(** ** What a share promises *)

Section Promise.
Context (m : AppManifest) (data : string → list Row) (is_uuid : string → bool).

(** [w] owns the row, itself or through the rows its links lead to. *)
Inductive owned_by : EntityContract → Row → string → Prop :=
| owned_direct e row c w : owner_field e = Some c → owner_parent e = None → row !! c = Some w → owned_by e row w
| owned_through e row c v parent target p w : owner_field e = Some c → owner_parent e = Some parent → row !! c = Some v →
    entity m parent = Ok target → p ∈ data parent → p !! primary target = Some v → owned_by target p w → owned_by e row w.
(** The chain of owners ends on a column of text, which may hold other things than users. *)
Inductive text_rooted : EntityContract → Prop :=
| text_direct e c f : owner_field e = Some c → owner_parent e = None → named c e = Some f → field_type f = "text" → text_rooted e
| text_through e parent target : owner_parent e = Some parent → entity m parent = Ok target → text_rooted target → text_rooted e.
(** The links of a path lead from a row to the one of key [k]. *)
Inductive leads : list string → EntityContract → Row → string → Prop :=
| leads_here e row k : row !! primary e = Some k → leads [] e row k
| leads_on e row f via next v p k : link m e f = Ok next → row !! f = Some v → p ∈ data (entity_name next) → p !! primary next = Some v → leads via next p k → leads (f :: via) e row k.
(** A row of [source] that is in force, for a row of [u]'s. *)
Definition granted_to (u : string) (source : EntityContract) (sh : ShareContract) (a : Row) : Prop :=
  a ∈ data (entity_name source) ∧ a !! active_when_null sh = None ∧
  ∃ ge g0 k, link m source (grantee sh) = Ok ge ∧ a !! grantee sh = Some k ∧ g0 ∈ data (entity_name ge) ∧ g0 !! primary ge = Some k ∧ owned_by ge g0 u.
Definition shares_row (e : EntityContract) (row : Row) (source : EntityContract) (sh : ShareContract) (a : Row) : Prop :=
  ∃ se k, link m source (subject sh) = Ok se ∧ a !! subject sh = Some k ∧
  match share_scope sh with
  | Identity => ∃ s0 w, s0 ∈ data (entity_name se) ∧ s0 !! primary se = Some k ∧ owned_by se s0 w ∧ (text_rooted se → is_uuid w = true) ∧ owned_by e row w
  | Resource => (e = se ∧ row !! primary se = Some k) ∨ ∃ t, t ∈ share_targets sh ∧ st_entity t = entity_name e ∧ leads (st_via t) e row k
  end.
Definition shared_by (u : string) (e : EntityContract) (row : Row) : Prop :=
  ∃ source sh a, source ∈ data_contract m ∧ share source = Some sh ∧ granted_to u source sh a ∧ shares_row e row source sh a.
(** What the rest of validation and the database give: names are unique, and so are keys. *)
Record manifest_distinct : Prop := {
  md_entities : NoDup (map entity_name (data_contract m));
  md_fields : ∀ e, e ∈ data_contract m → NoDup (map fname (entity_fields e)) }.
Record keyed (e : EntityContract) : Prop := {
  ky_some : ∀ p, p ∈ data (entity_name e) → is_Some (p !! primary e);
  ky_unique : ∀ p q, p ∈ data (entity_name e) → q ∈ data (entity_name e) → p !! primary e = q !! primary e → p = q }.

Lemma elem_concat_map {A B : Type} (f : A → list B) l x : x ∈ concat (map f l) ↔ ∃ y, y ∈ l ∧ x ∈ f y.
Proof.
  rewrite list_elem_of_In, in_concat. split.
  - intros (l' & (y & <- & Hy)%in_map_iff & Hx). exists y. by rewrite !list_elem_of_In.
  - intros (y & Hy & Hx). exists (f y). split; [by apply in_map, list_elem_of_In|by apply list_elem_of_In].
Qed.
Lemma elem_filter {A : Type} (P : A → bool) l x : x ∈ List.filter P l ↔ x ∈ l ∧ P x = true.
Proof. by rewrite list_elem_of_In, filter_In, <-list_elem_of_In. Qed.
Lemma eq_sql_true a b : eq_sql a b = true ↔ ∃ v, a = Some v ∧ b = Some v.
Proof.
  destruct a as [x|], b as [z|]; cbn; try (split; [done|by intros (? & ? & ?)]). rewrite bool_decide_eq_true. split; [intros ->; by exists z|]. by intros (v & [= ->] & [= ->]).
Qed.

Context (Hm : manifest_distinct).
Lemma entity_ok name e : entity m name = Ok e ↔ e ∈ data_contract m ∧ entity_name e = name.
Proof.
  unfold entity. rewrite ok_or_ok_iff. split.
  - intros [Hin Hn]%find_some. apply bool_decide_eq_true in Hn. by rewrite list_elem_of_In.
  - intros [Hin Hn]. destruct (List.find _ _) as [e'|] eqn:Hf.
    + apply find_some in Hf as [Hin' Hn']. apply bool_decide_eq_true in Hn'. rewrite <-list_elem_of_In in Hin'. f_equal. pose proof (md_entities Hm) as Hnd.
      apply list_elem_of_lookup in Hin as [i Hi], Hin' as [j Hj]. rewrite NoDup_alt in Hnd.
      assert (i = j) as -> by (apply (Hnd i j name); rewrite list_lookup_fmap, ?Hi, ?Hj; cbn; congruence). congruence.
    + rewrite list_elem_of_In in Hin. apply (find_none _ _ Hf) in Hin. by apply bool_decide_eq_false in Hin.
Qed.
Lemma link_entity e f t : link m e f = Ok t → entity m (entity_name t) = Ok t.
Proof. unfold link. intros H. inv_ok. subst. apply entity_ok. match goal with H : entity m _ = Ok _ |- _ => apply entity_ok in H as [? _] end. done. Qed.
Lemma named_first e f : e ∈ data_contract m → f ∈ entity_fields e → named (fname f) e = Some f.
Proof.
  intros He Hf. pose proof (md_fields Hm e He) as Hnd. unfold named. induction (entity_fields e) as [|g fs IH]; [by apply elem_of_nil in Hf|]. cbn in *.
  apply NoDup_cons in Hnd as [Hni Hnd]. apply elem_of_cons in Hf as [->|Hf]; [by rewrite bool_decide_eq_true_2|]. rewrite bool_decide_eq_false_2; [by apply IH|]. intros He'. apply Hni. rewrite He'. by apply list_elem_of_fmap_2.
Qed.
(** The link through which a row is owned is the one [owner_parent] names. *)
Lemma owner_link e c parent t : e ∈ data_contract m → owner_field e = Some c → owner_parent e = Some parent → owned_link m e c = Ok t → entity m parent = Ok t.
Proof.
  intros He Hc Hp Hl. unfold owner_field in Hc. unfold owner_parent in Hp. destruct (owner_column e) as [f|] eqn:Hf; [|done]. cbn in Hc, Hp. injection Hc as <-.
  assert (f ∈ entity_fields e) as Hin by (unfold owner_column in Hf; apply find_some in Hf as [? _]; by apply list_elem_of_In).
  destruct (references f) as [r|] eqn:Hr; [|done]. cbn in Hp. unfold owned_link in Hl. inv_ok. subst a. unfold link in Hok. rewrite (named_first e f He Hin) in Hok. cbn in Hok.
  rewrite Hr in Hok. destruct (bool_decide (field_type f = "entity_link")); [|done]. cbn in Hok, Hp. destruct (is_local (ref_entity r)); [|done]. injection Hp as <-. cbn in Hok. inv_ok. congruence.
Qed.
Lemma follow_cons j joins row l : l ∈ follow data (j :: joins) row ↔ ∃ v p, row !! j_link j = Some v ∧ p ∈ data (j_table j) ∧ p !! j_key j = Some v ∧ l ∈ follow data joins p.
Proof.
  cbn. rewrite elem_concat_map. split.
  - intros (p & [Hp (v & H1 & H2)%eq_sql_true]%elem_filter & Hl). by exists v, p.
  - intros (v & p & H1 & Hp & H2 & Hl). exists p. split; [|done]. apply elem_filter. split; [done|]. apply eq_sql_true. by exists v.
Qed.
Lemma owner_joins_owned start fuel visited e joins root ty : e ∈ data_contract m → owner_joins m start fuel visited e = Ok (joins, root, ty) →
  (∀ row w, (∃ l, l ∈ follow data joins row ∧ l !! root = Some w) ↔ owned_by e row w) ∧ (ty = "text" ↔ text_rooted e).
Proof.
  revert visited e joins root ty. induction fuel as [|fuel IH]; intros visited e joins root ty He Hj; [done|]. cbn [owner_joins] in Hj. inv_ok.
  destruct (owner_parent e) as [parent|] eqn:Hp; [|inv_ok].
  - inv_ok. destruct a2 as [[js root'] ty']. inv_ok. simplify_eq. pose proof (owner_link e a0 parent a1 He Hok0 Hp Hok1) as Hent. pose proof (proj1 (entity_ok _ _) Hent) as [Hin Hname].
    destruct (IH _ _ _ _ _ Hin Hok2) as [IH1 IH2]. split.
    + intros row w. split.
      * intros (l & Hl & Hw). apply follow_cons in Hl as (v & p & H1 & H2 & H3 & H4). cbn in *. eapply owned_through; try done. apply IH1. by exists l.
      * intros Ho. inversion Ho as [? ? c ? Hc Hpn|? ? c v parent' target p ? Hc Hp' Hv He' Hpin Hpk Ho']; [congruence|]. assert (c = a0) as -> by congruence. assert (parent' = parent) as -> by congruence. assert (target = a1) as -> by congruence.
        apply IH1 in Ho' as (l & Hl & Hw). exists l. split; [|done]. apply follow_cons. by exists v, p.
    + rewrite IH2. split; [by eapply text_through|]. intros Ht. inversion Ht as [|? parent' target Hp' He' Ht']; [congruence|]. assert (parent' = parent) as -> by congruence. by assert (target = a1) as -> by congruence.
  - simplify_eq. split.
    + intros row w. cbn. split.
      * intros (l & ->%list_elem_of_singleton & Hw). by eapply owned_direct.
      * intros Ho. inversion Ho as [? ? c ? Hc Hpn Hw|? ? c v parent' target p ? Hc Hp' Hv He' Hpin Hpk Ho']; [|congruence]. subst. exists row. split; [by apply list_elem_of_singleton|congruence].
    + destruct (bool_decide (field_type <$> named root e = Some "text")) eqn:Ht.
      * apply bool_decide_eq_true in Ht. split; [|done]. intros _. destruct (named root e) as [f|] eqn:Hf; [|done]. cbn in Ht. injection Ht as Ht. by eapply text_direct.
      * apply bool_decide_eq_false in Ht. split; [done|]. intros Hx. inversion Hx as [? c f Hc Hpn Hf Hft|? parent' target Hp' He' Ht']; [|congruence]. subst. exfalso. apply Ht.
        assert (c = root) as -> by congruence. rewrite Hf. cbn. by rewrite Hft.
Qed.
Lemma join_rows_elem start joins r l : (r, l) ∈ join_rows data start joins ↔ r ∈ data start ∧ l ∈ follow data joins r.
Proof.
  unfold join_rows. rewrite elem_concat_map. split.
  - intros (r' & Hr & (l' & [= <- <-] & Hl)%list_elem_of_fmap). done.
  - intros [Hr Hl]. exists r. split; [done|]. by apply list_elem_of_fmap_2.
Qed.
Lemma path_ok start prefix p : path m start prefix = Ok p → ∃ e, entity m start = Ok e ∧ pt_start p = start ∧ pt_key p = primary e ∧
  (∀ r w, (∃ l, (r, l) ∈ path_rows data p ∧ l !! pt_owner p = Some w) ↔ r ∈ data start ∧ owned_by e r w) ∧ (pt_type p = "text" ↔ text_rooted e).
Proof.
  unfold path. intros Hp. inv_ok. destruct a0 as [[joins root] ty]. inv_ok. subst p. exists a. cbn. split_and!; try done; pose proof (proj1 (entity_ok _ _) Hok) as [Hin _];
    destruct (owner_joins_owned _ _ _ _ _ _ _ Hin Hok0) as [H1 H2]; [|done].
  intros r w. unfold path_rows. cbn. rewrite <-H1. split.
  - intros (l & [Hr Hl]%join_rows_elem & Hw). eauto.
  - intros [Hr (l & Hl & Hw)]. exists l. by rewrite join_rows_elem.
Qed.
Lemma via_joins_leads visited e via joins last : via_joins m visited e via = Ok (joins, last) →
  (∀ row k, (∃ l, l ∈ follow data joins row ∧ l !! primary last = Some k) ↔ leads via e row k) ∧ (via ≠ [] → entity m (entity_name last) = Ok last).
Proof.
  revert visited e joins last. induction via as [|f via IH]; intros visited e joins last Hj; cbn [via_joins] in Hj.
  - inv_ok. simplify_eq. split; [|done]. intros row k. cbn. split.
    + intros (l & ->%list_elem_of_singleton & Hk). by constructor.
    + intros Hl. inversion Hl; subst. exists row. split; [by apply list_elem_of_singleton|done].
  - inv_ok. destruct a3 as [js la]. inv_ok. simplify_eq. destruct (IH _ _ _ _ Hok3) as [IH1 IH2]. split.
    + intros row k. split.
      * intros (l & (v & p & H1 & H2 & H3 & H4)%follow_cons & Hk). cbn in *. eapply leads_on; try done. apply IH1. eauto.
      * intros Hl. inversion Hl as [|? ? ? ? next v p ? Hlk Hv Hpin Hpk Hl']; subst. assert (next = a0) as -> by congruence. apply IH1 in Hl' as (l & Hl' & Hk). exists l. split; [|done].
        apply follow_cons. by exists v, p.
    + intros _. destruct via as [|g via]; [|by apply IH2]. cbn in Hok3. inv_ok. simplify_eq. by eapply link_entity.
Qed.
Lemma resource_path_ok se t p : entity m (entity_name se) = Ok se → resource_path m se t = Ok p →
  ∃ e, entity m (st_entity t) = Ok e ∧ rp_start p = st_entity t ∧ rp_key p = primary e ∧ rp_resource p = primary se ∧
  ∀ r k, (∃ l, (r, l) ∈ join_rows data (rp_start p) (rp_joins p) ∧ l !! rp_resource p = Some k) ↔ r ∈ data (st_entity t) ∧ leads (st_via t) e r k.
Proof.
  intros Hse Hp. unfold resource_path in Hp. inv_ok. destruct a2 as [joins last]. inv_ok. subst p. destruct (via_joins_leads _ _ _ _ _ Hok2) as [H1 H2].
  apply negb_true_iff, orb_false_iff in Hok as [Hne _]. apply bool_decide_eq_false in Hne. apply bool_decide_eq_true in Hok3.
  assert (last = se) as -> by (specialize (H2 Hne); rewrite Hok3, Hse in H2; congruence).
  pose proof (proj1 (entity_ok _ _) Hok0) as [_ Hn]. exists a0. cbn. split_and!; try done.
  intros r k. rewrite <-H1. split.
  - intros (l & [Hr Hl]%join_rows_elem & Hk). rewrite Hn in Hr. eauto.
  - intros [Hr (l & Hl & Hk)]. exists l. by rewrite join_rows_elem, Hn.
Qed.

Section Caller.
Context (s : Settings).
Lemma owned_link_ok e f t : owned_link m e f = Ok t → link m e f = Ok t.
Proof. unfold owned_link. intros Hl. inv_ok. congruence. Qed.
(** The rows of a share that are in force for the caller. *)
Lemma active_shares_ok source sh ge g a : owned_link m source (grantee sh) = Ok ge → path m (entity_name ge) "g" = Ok g →
  a ∈ active_shares s data (share_table source sh) g ↔ ∃ u, caller s = Some u ∧ granted_to u source sh a.
Proof.
  intros Hl%owned_link_ok Hg. destruct (path_ok _ _ _ Hg) as (e & He & Hst & Hk & Hrows & _). rewrite (link_entity _ _ _ Hl) in He. injection He as <-.
  unfold active_shares. rewrite elem_filter, andb_true_iff. unfold share_active, shares_with. rewrite bool_decide_eq_true, existsb_exists. cbn [share_table sh_source sh_active sh_grantee]. unfold granted_to. split.
  - intros (Ha & Hact & [r l] & Hin & [(k & H1 & H2)%eq_sql_true (u & H3 & H4)%eq_sql_true]%andb_true_iff). rewrite <-list_elem_of_In in Hin. exists u. split_and!; try done.
    assert (r ∈ data (entity_name ge) ∧ owned_by ge r u) as [Hr Ho] by (apply Hrows; eauto). exists ge, r, k. split_and!; try done. by rewrite <-Hk.
  - intros (u & Hu & Ha & Hact & ge' & g0 & k & Hl' & Hak & Hg0 & Hgk & Ho). assert (ge' = ge) as -> by congruence. split_and!; try done.
    destruct (proj2 (Hrows g0 u)) as (l & Hin & Hw); [done|]. exists (g0, l). rewrite <-list_elem_of_In. split; [done|]. apply andb_true_iff. rewrite !eq_sql_true, Hk. split; eauto.
Qed.
Lemma subject_identities_ok source sh x w : identity_subject m (source, sh) = Ok x →
  w ∈ subject_identities s data is_uuid x ↔ ∃ u a se k s0, caller s = Some u ∧ granted_to u source sh a ∧ link m source (subject sh) = Ok se ∧ a !! subject sh = Some k ∧
    s0 ∈ data (entity_name se) ∧ s0 !! primary se = Some k ∧ owned_by se s0 w ∧ (text_rooted se → is_uuid w = true).
Proof.
  unfold identity_subject. intros Hx. inv_ok. subst x. pose proof (owned_link_ok _ _ _ Hok1) as Hl. destruct (path_ok _ _ _ Hok2) as (e & He & Hst & Hk & Hrows & Hty).
  rewrite (link_entity _ _ _ Hl) in He. injection He as <-. cbn [subject_identities]. rewrite elem_concat_map. split.
  - intros (row & Hrow & Hw). apply (active_shares_ok _ _ _ _ _ Hok Hok0) in Hrow as (u & Hu & Hgr). apply list_elem_of_omap in Hw as ([r l] & Hin & Hw). cbn in Hw.
    destruct (eq_sql _ _) eqn:Heq; [|done]. apply eq_sql_true in Heq as (k & H1 & H2). destruct (l !! pt_owner a2) as [v|] eqn:Hv; [|done]. cbn in Hw.
    assert (v = w ∧ (text_rooted a1 → is_uuid w = true)) as [-> Hu'].
    { destruct (decide (pt_type a2 = "text")) as [Ht|Ht]; [destruct (is_uuid v) eqn:Huu; [|done]; injection Hw as <-; by split|]. injection Hw as <-. split; [done|]. intros Hr. destruct Ht. by apply Hty. }
    destruct (proj1 (Hrows r w)) as [Hr Ho]; [eauto|]. exists u, row, a1, k, r. split_and!; try done. by rewrite <-Hk.
  - intros (u & row & se & k & s0 & Hu & Hgr & Hl' & Hak & Hs0 & Hsk & Ho & Htx). assert (se = a1) as -> by congruence. exists row. split; [apply (active_shares_ok _ _ _ _ _ Hok Hok0); eauto|].
    destruct (proj2 (Hrows s0 w)) as (l & Hin & Hw); [done|]. apply list_elem_of_omap. exists (s0, l). split; [done|]. cbn.
    rewrite (proj2 (eq_sql_true _ _)) by (exists k; by rewrite Hk). rewrite Hw. cbn. destruct (decide (pt_type a2 = "text")) as [Ht|]; [|done]. rewrite Htx; [done|]. by apply Hty.
Qed.
Lemma shares_of_elem scope source sh : (source, sh) ∈ shares_of scope m ↔ source ∈ data_contract m ∧ share source = Some sh ∧ share_scope sh = scope.
Proof.
  unfold shares_of. rewrite list_elem_of_omap. split.
  - intros (e & He & Hx). destruct (share e) as [sh'|] eqn:Hs; [|done]. cbn in Hx. destruct (bool_decide _) eqn:Hb; [|done]. injection Hx as <- <-. by apply bool_decide_eq_true in Hb.
  - intros (He & Hs & Hsc). exists source. split; [done|]. rewrite Hs. cbn. by rewrite bool_decide_eq_true_2.
Qed.
Lemma try_map_elem {A B : Type} (f : A → result RuntimeError B) l ys y : try_map f l = Ok ys → y ∈ ys ↔ ∃ x, x ∈ l ∧ f x = Ok y.
Proof.
  intros Hf%try_map_ok_iff. split.
  - intros Hy. apply list_elem_of_lookup in Hy as [i Hi]. destruct (Forall2_lookup_r _ _ _ _ _ Hf Hi) as (x & Hx & Hxy). exists x. split; [by eapply list_elem_of_lookup_2|done].
  - intros (x & Hx & Hxy). apply list_elem_of_lookup in Hx as [i Hi]. destruct (Forall2_lookup_l _ _ _ _ _ Hf Hi) as (y' & Hy' & Hxy'). assert (y' = y) as -> by congruence. by eapply list_elem_of_lookup_2.
Qed.
Context (y : Sys).
Notation guard_open := (guard_open y s (app_id m)).
Notation legacy_keys := (legacy_keys y s (app_id m) data is_uuid).
Notation select_keys := (select_keys y s (app_id m) data is_uuid).
(** Someone whose rows are shared with the caller by identity owns the row. *)
Definition shared_identity (e : EntityContract) (row : Row) : Prop :=
  ∃ u source sh a, caller s = Some u ∧ source ∈ data_contract m ∧ share source = Some sh ∧ share_scope sh = Identity ∧ granted_to u source sh a ∧ shares_row e row source sh a.
Lemma subjects_elem subjects w : try_map (identity_subject m) (shares_of Identity m) = Ok subjects →
  w ∈ concat (map (subject_identities s data is_uuid) subjects) ↔ ∃ u source sh a se k s0, caller s = Some u ∧ source ∈ data_contract m ∧ share source = Some sh ∧ share_scope sh = Identity ∧
    granted_to u source sh a ∧ link m source (subject sh) = Ok se ∧ a !! subject sh = Some k ∧ s0 ∈ data (entity_name se) ∧ s0 !! primary se = Some k ∧ owned_by se s0 w ∧ (text_rooted se → is_uuid w = true).
Proof.
  intros Hs. rewrite elem_concat_map. split.
  - intros (x & Hx & Hw). apply (try_map_elem _ _ _ _ Hs) in Hx as ([source sh] & Hin & Hx). apply shares_of_elem in Hin as (H1 & H2 & H3).
    apply (subject_identities_ok _ _ _ _ Hx) in Hw as (u & a & se & k & s0 & Hu & Hg & Hl & Hk & Hs0 & Hsk & Ho & Ht). exists u, source, sh, a, se, k, s0. by split_and!.
  - intros (u & source & sh & a & se & k & s0 & Hu & H1 & H2 & H3 & Hg & Hrest). apply try_map_ok_iff in Hs as Hf. assert ((source, sh) ∈ shares_of Identity m) as Hin by (by apply shares_of_elem).
    apply list_elem_of_lookup in Hin as [i Hi]. destruct (Forall2_lookup_l _ _ _ _ _ Hf Hi) as (x & Hx & E). exists x. split; [by eapply list_elem_of_lookup_2|].
    apply (subject_identities_ok _ _ _ _ E). exists u, a, se, k, s0. split_and!; try done; apply Hrest.
Qed.
Lemma legacy_ok ct e column ty l row : e ∈ data_contract m → owner_map (data_contract m) !! entity_name e = Some (column, owner_parent e) → owner_field e = Some column →
  identity_select ct m (entity_name e) (owner_map (data_contract m)) = Ok (Some (column, ty, l)) →
  (∃ v, row !! column = Some v ∧ v ∈ legacy_keys l) ↔ guard_open (entity_name e) = true ∧ shared_identity e row.
Proof.
  intros He Hmap Hof Hsel. unfold identity_select in Hsel. rewrite Hmap in Hsel. inv_ok.
  assert (a ≠ []) as Hne by (intros ->; discriminate Hk). destruct a as [|x0 xs]; [done|]. set (subjects := x0 :: xs) in *. clearbody subjects. inv_ok. simplify_eq.
  unfold shared_identity, shares_row. cbn [RowSharing.legacy_keys]. destruct (guard_open (entity_name e)); [|split; [by intros (v & _ & []%elem_of_nil)|by intros [? _]]].
  set (ids := concat _). assert (∀ w, w ∈ ids ↔ _) as Hids by (intros w; by apply subjects_elem). destruct (owner_parent e) as [parent|] eqn:Hp; inv_ok; simplify_eq.
  - destruct (path_ok _ _ _ Hok2) as (t & Ht & Hst & Hk & Hrows & _). split.
    + intros (v & Hv & Hin). split; [done|]. apply list_elem_of_omap in Hin as ([r last] & Hin & Hx). cbn in Hx. destruct (last !! pt_owner a) as [w|] eqn:Hw; cbn in Hx; [|done].
      destruct (bool_decide (w ∈ ids)) eqn:Hb; [|done]. apply bool_decide_eq_true in Hb. apply Hids in Hb as (u & source & sh & ar & se & k & s0 & Hu & H1 & H2 & H3 & Hg & Hl & Hak & Hs0 & Hsk & Ho & Htx).
      destruct (proj1 (Hrows r w)) as [Hr Hor]; [eauto|]. exists u, source, sh, ar. split_and!; try done. exists se, k. split_and!; try done. rewrite H3. exists s0, w. split_and!; try done.
      eapply owned_through; try done. by rewrite <-Hk.
    + intros (_ & u & source & sh & ar & Hu & H1 & H2 & H3 & Hg & se & k & Hl & Hak & Hx). rewrite H3 in Hx. destruct Hx as (s0 & w & Hs0 & Hsk & Ho & Htx & Hor).
      inversion Hor as [|? ? c v parent' t' p ? Hc Hp' Hv He' Hpin Hpk Ho']; [congruence|]. assert (c = column) by congruence. assert (parent' = parent) by congruence. assert (t' = t) by congruence. subst c parent' t'.
      exists v. split; [done|]. apply list_elem_of_omap. destruct (proj2 (Hrows p w)) as (last & Hin & Hw); [done|]. exists (p, last). split; [done|]. cbn. rewrite Hw. cbn.
      rewrite bool_decide_eq_true_2; [by rewrite Hk|]. apply Hids. exists u, source, sh, ar, se, k, s0. by split_and!.
  - split.
    + intros (w & Hv & Hin). split; [done|]. apply Hids in Hin as (u & source & sh & ar & se & k & s0 & Hu & H1 & H2 & H3 & Hg & Hl & Hak & Hs0 & Hsk & Ho & Htx).
      exists u, source, sh, ar. split_and!; try done. exists se, k. split_and!; try done. rewrite H3. exists s0, w. split_and!; try done. by eapply owned_direct.
    + intros (_ & u & source & sh & ar & Hu & H1 & H2 & H3 & Hg & se & k & Hl & Hak & Hx). rewrite H3 in Hx. destruct Hx as (s0 & w & Hs0 & Hsk & Ho & Htx & Hor).
      inversion Hor as [? ? c ? Hc Hpn Hw|? ? c v parent' t' p ? Hc Hp' Hv He' Hpin Hpk Ho']; [|congruence]. assert (c = column) by congruence. subst c. exists w. split; [done|]. apply Hids.
      exists u, source, sh, ar, se, k, s0. by split_and!.
Qed.
(** A share of scope resource reaches the row. *)
Definition shared_resource (e : EntityContract) (row : Row) : Prop :=
  ∃ u source sh a, caller s = Some u ∧ source ∈ data_contract m ∧ share source = Some sh ∧ share_scope sh = Resource ∧ granted_to u source sh a ∧ shares_row e row source sh a.
Lemma unique_key e row r : keyed e → row ∈ data (entity_name e) → r ∈ data (entity_name e) → row !! primary e = r !! primary e → row = r.
Proof. intros [_ Hu]. apply Hu. Qed.
Lemma entity_unique e e' : e ∈ data_contract m → entity m (entity_name e) = Ok e' → e' = e.
Proof. intros He He'. assert (entity m (entity_name e) = Ok e) by (by apply entity_ok). congruence. Qed.
Lemma resource_keys source sh ge g t table v : owned_link m source (grantee sh) = Ok ge → path m (entity_name ge) "g" = Ok g →
  v ∈ select_keys (SResource (share_table source sh) g t table) ↔ guard_open table = true ∧
     ∃ u ar r l k, caller s = Some u ∧ granted_to u source sh ar ∧ (r, l) ∈ join_rows data (rp_start t) (rp_joins t) ∧ ar !! subject sh = Some k ∧ l !! rp_resource t = Some k ∧ r !! rp_key t = Some v.
Proof.
  intros Hge Hg. cbn [RowSharing.select_keys]. destruct (guard_open _); [|split; [by intros []%elem_of_nil|by intros [? _]]]. rewrite elem_concat_map. split.
  - intros (ar & Har & Hv). split; [done|]. apply (active_shares_ok _ _ _ _ _ Hge Hg) in Har as (u & Hu & Hgr). apply list_elem_of_omap in Hv as ([r l] & Hin & Hv). cbn in Hv.
    destruct (eq_sql _ _) eqn:Heq; [|done]. apply eq_sql_true in Heq as (k & H1 & H2). by exists u, ar, r, l, k.
  - intros (_ & u & ar & r & l & k & Hu & Hgr & Hin & Hk & Hl & Hv). exists ar. split; [apply (active_shares_ok _ _ _ _ _ Hge Hg); eauto|]. apply list_elem_of_omap. exists (r, l). split; [done|]. cbn.
    by rewrite (proj2 (eq_sql_true _ _)) by eauto.
Qed.
Lemma source_selects_sound e row source sh qs : e ∈ data_contract m → keyed e → row ∈ data (entity_name e) → share_scope sh = Resource →
  source_selects m (entity_name e) (source, sh) = Ok qs → (∃ q v, q ∈ qs ∧ row !! primary e = Some v ∧ v ∈ select_keys q) →
  guard_open (entity_name e) = true ∧ ∃ u a, caller s = Some u ∧ granted_to u source sh a ∧ shares_row e row source sh a.
Proof.
  intros He Hky Hrow Hscope Hsel. unfold source_selects in Hsel. inv_ok. subst qs. pose proof (link_entity _ _ _ Hok) as Hent. unfold shares_row. rewrite Hscope.
  intros (q & v & (t & -> & Ht)%list_elem_of_fmap & Hv & Hin). apply (resource_keys _ _ _ _ _ _ _ Hok0 Hok1) in Hin as (Hguard & u & ar & r & l & k & Hu & Hg & Hj & Hk & Hl & Hr).
  split; [done|]. exists u, ar. split_and!; try done. exists a, k. split_and!; try done. apply elem_of_app in Ht as [Ht|Ht].
  - left. destruct (bool_decide (entity_name a = entity_name e)) eqn:Hn; [|by apply elem_of_nil in Ht]. apply bool_decide_eq_true in Hn. apply list_elem_of_singleton in Ht. subst t. cbn in *.
    apply join_rows_elem in Hj as [_ Hlr]. cbn in Hlr. apply list_elem_of_singleton in Hlr. subst l. rewrite Hn in Hent. rewrite (entity_unique e a He Hent) in *. split; [done|congruence].
  - right. apply (try_map_elem _ _ _ _ Hok2) in Ht as (tg & Htg & Hp). apply elem_filter in Htg as [Htg Hn]. apply bool_decide_eq_true in Hn. exists tg. split_and!; try done.
    destruct (resource_path_ok _ _ _ Hent Hp) as (e' & He' & Hst & Hkey & Hres & Hrows). rewrite Hn in He'. apply (entity_unique e e' He) in He' as ->.
    destruct (proj1 (Hrows r k)) as [Hr' Hlead]; [eauto|]. rewrite Hn in Hr'. assert (row = r) as -> by (apply (unique_key e row r Hky Hrow Hr'); congruence). done.
Qed.
Lemma source_selects_complete e row source sh qs u ar : e ∈ data_contract m → keyed e → row ∈ data (entity_name e) → share_scope sh = Resource →
  source_selects m (entity_name e) (source, sh) = Ok qs → guard_open (entity_name e) = true → caller s = Some u → granted_to u source sh ar → shares_row e row source sh ar →
  ∃ q v, q ∈ qs ∧ row !! primary e = Some v ∧ v ∈ select_keys q.
Proof.
  intros He Hky Hrow Hscope Hsel Hguard Hu Hg (se & k & Hl & Hk & Hcase). rewrite Hscope in Hcase. unfold source_selects in Hsel. inv_ok. subst qs. pose proof (link_entity _ _ _ Hok) as Hent.
  assert (se = a) as -> by congruence. destruct (ky_some _ Hky row Hrow) as [v Hv]. destruct Hcase as [[-> Hr]|(tg & Htg & Hn & Hlead)].
  - exists (SResource (share_table source sh) a1 {| rp_start := entity_name a; rp_joins := []; rp_key := primary a; rp_resource := primary a |} (entity_name a)), v. split_and!; [|done|].
    + apply (list_elem_of_fmap_2 (λ t, SResource (share_table source sh) a1 t (entity_name a))), elem_of_app. left. rewrite bool_decide_eq_true_2 by done. by apply list_elem_of_singleton.
    + apply (resource_keys _ _ _ _ _ _ _ Hok0 Hok1). split; [done|]. exists u, ar, row, row, k. cbn. split_and!; try done. apply join_rows_elem. split; [done|]. by apply list_elem_of_singleton.
  - assert (tg ∈ List.filter (λ t, bool_decide (st_entity t = entity_name e)) (share_targets sh)) as Hf by (apply elem_filter; by rewrite bool_decide_eq_true).
    apply try_map_ok_iff in Hok2 as Hf2. apply list_elem_of_lookup in Hf as [i Hi]. destruct (Forall2_lookup_l _ _ _ _ _ Hf2 Hi) as (p & Hpi & Hp).
    destruct (resource_path_ok _ _ _ Hent Hp) as (e' & He' & Hst & Hkey & Hres & Hrows). rewrite Hn in He'. apply (entity_unique e e' He) in He' as ->.
    exists (SResource (share_table source sh) a1 p (entity_name e)), v. split_and!; [|done|].
    + apply (list_elem_of_fmap_2 (λ t, SResource (share_table source sh) a1 t (entity_name e))), elem_of_app. right. by eapply list_elem_of_lookup_2.
    + apply (resource_keys _ _ _ _ _ _ _ Hok0 Hok1). split; [done|]. destruct (proj2 (Hrows row k)) as (l & Hin & Hlk); [by rewrite Hn|]. exists u, ar, row, l, k. split_and!; try done. by rewrite Hkey.
Qed.
Lemma resource_selects_ok e row qs : e ∈ data_contract m → keyed e → row ∈ data (entity_name e) → resource_selects m (entity_name e) = Ok qs →
  (∃ q v, q ∈ qs ∧ row !! primary e = Some v ∧ v ∈ select_keys q) ↔ guard_open (entity_name e) = true ∧ shared_resource e row.
Proof.
  intros He Hky Hrow Hq. unfold resource_selects in Hq. inv_ok. subst qs. split.
  - intros (q & v & Hq & Hv & Hin). apply list_elem_of_In, in_concat in Hq as (qs & Hqs & Hq). apply list_elem_of_In in Hqs, Hq. apply (try_map_elem _ _ _ _ Hok) in Hqs as ([source sh] & Hsrc & Hsel).
    apply shares_of_elem in Hsrc as (H1 & H2 & H3). destruct (source_selects_sound e row source sh qs He Hky Hrow H3 Hsel) as (Hg & u & ar & Hu & Hgr & Hr); [by exists q, v|]. split; [done|].
    by exists u, source, sh, ar.
  - intros (Hg & u & source & sh & ar & Hu & H1 & H2 & H3 & Hgr & Hr). apply try_map_ok_iff in Hok as Hf. assert ((source, sh) ∈ shares_of Resource m) as Hin by (by apply shares_of_elem).
    apply list_elem_of_lookup in Hin as [i Hi]. destruct (Forall2_lookup_l _ _ _ _ _ Hf Hi) as (qs & Hqs & Hsel).
    destruct (source_selects_complete e row source sh qs u ar He Hky Hrow H3 Hsel Hg Hu Hgr Hr) as (q & v & Hq & Hv & Hk). exists q, v. split_and!; try done.
    apply list_elem_of_In, in_concat. exists qs. split; apply list_elem_of_In; [by eapply list_elem_of_lookup_2|done].
Qed.
Lemma owners_of e column parent : validate_entities m = Ok tt → e ∈ data_contract m → owner_map (data_contract m) !! entity_name e = Some (column, parent) → owner_field e = Some column ∧ owner_parent e = parent.
Proof.
  intros Hval He Hl. apply (owners_lookup m Hval) in Hl as (e' & He' & Hn & Hf & Hp). assert (e' = e) as ->; [|done]. apply entity_unique; [done|]. by apply entity_ok.
Qed.
Lemma legacy_none ct e row : validate_entities m = Ok tt → e ∈ data_contract m → identity_select ct m (entity_name e) (owner_map (data_contract m)) = Ok None → ¬ shared_identity e row.
Proof.
  intros Hval He Hs (u & source & sh & a & Hu & H1 & H2 & H3 & _ & se & k & _ & _ & Hx). rewrite H3 in Hx. destruct Hx as (_ & w & _ & _ & _ & _ & Ho).
  assert (is_Some (owner_field e)) as [c Hc] by (by inversion Ho; eexists). unfold identity_select in Hs. destruct (owner_map _ !! entity_name e) as [[c' p]|] eqn:Hl.
  - inv_ok. assert (shares_of Identity m ≠ []) as Hne by (intros E; assert ((source, sh) ∈ shares_of Identity m) as Hin by (by apply shares_of_elem); rewrite E in Hin; by apply elem_of_nil in Hin).
    destruct a0 as [|x xs]; [|inv_ok; done]. apply try_map_ok_iff in Hok. inversion Hok as [E|]. by destruct Hne.
  - assert (owner_map (data_contract m) !! entity_name e = Some (c, owner_parent e)) as E by (apply (owners_lookup m Hval); eauto). congruence.
Qed.
Lemma legacy_some ct e column ty l row : validate_entities m = Ok tt → e ∈ data_contract m → identity_select ct m (entity_name e) (owner_map (data_contract m)) = Ok (Some (column, ty, l)) →
  (∃ v, row !! column = Some v ∧ v ∈ legacy_keys l) ↔ guard_open (entity_name e) = true ∧ shared_identity e row.
Proof.
  intros Hval He Hs. assert (owner_map (data_contract m) !! entity_name e = Some (column, owner_parent e) ∧ owner_field e = Some column) as [Hl Hf]; [|by eapply legacy_ok].
  pose proof Hs as Hs'. unfold identity_select in Hs'. destruct (owner_map _ !! entity_name e) as [[c' p]|] eqn:Hl; [|done]. destruct (owners_of e c' p Hval He Hl) as [Hf Hp].
  inv_ok. destruct a as [|x xs]; [done|]. inv_ok. simplify_eq. done.
Qed.
Lemma admits_iff r row : resolver_admits y s (app_id m) data is_uuid r row = true ↔ ∃ v, row !! resolver_column r = Some v ∧ v ∈ resolver_keys y s (app_id m) data is_uuid r.
Proof.
  unfold resolver_admits. destruct (row !! resolver_column r) as [v|]; cbn; [rewrite bool_decide_eq_true; split; [by eauto|by intros (w & [= ->] & ?)]|split; [done|by intros (? & ? & _)]].
Qed.
Lemma owned_select_ok e row v owner l : keyed e → row ∈ data (entity_name e) → row !! primary e = Some v →
  v ∈ select_keys (SOwned (primary e) (entity_name e) owner l) ↔ ∃ w, row !! owner = Some w ∧ w ∈ legacy_keys l.
Proof.
  intros Hky Hrow Hv. cbn. rewrite list_elem_of_omap. split.
  - intros (r & Hr & Hx). destruct (r !! owner) as [w|] eqn:Hw; cbn in Hx; [|done]. destruct (bool_decide _) eqn:Hb; [|done]. apply bool_decide_eq_true in Hb.
    assert (row = r) as -> by (apply (unique_key e row r Hky Hrow Hr); congruence). eauto.
  - intros (w & Hw & Hin). exists row. split; [done|]. rewrite Hw. cbn. by rewrite bool_decide_eq_true_2.
Qed.
Lemma shared_scopes e row : (∃ u, caller s = Some u ∧ shared_by u e row) ↔ shared_resource e row ∨ shared_identity e row.
Proof.
  unfold shared_by, shared_resource, shared_identity. split.
  - intros (u & Hu & source & sh & a & H1 & H2 & H3 & H4). destruct (share_scope sh) eqn:Hsc; [right|left]; by exists u, source, sh, a.
  - intros [(u & source & sh & a & Hu & H1 & H2 & _ & H3 & H4)|(u & source & sh & a & Hu & H1 & H2 & _ & H3 & H4)]; exists u; (split; [done|]); by exists source, sh, a.
Qed.
(** What the resolver of a table lets its caller read. *)
Lemma resolver_ok ct e r ty row : validate_entities m = Ok tt → e ∈ data_contract m → keyed e → row ∈ data (entity_name e) →
  declare_select ct m (entity_name e) (owner_map (data_contract m)) = Ok (r, ty) →
  resolver_admits y s (app_id m) data is_uuid r row = true ↔ guard_open (entity_name e) = true ∧ ∃ u, caller s = Some u ∧ shared_by u e row.
Proof.
  intros Hval He Hky Hrow Hd. rewrite shared_scopes, admits_iff. unfold declare_select in Hd. inv_ok. rename a into qs, a0 into legacy.
  pose proof (resource_selects_ok e row qs He Hky Hrow Hok) as Hres. destruct (ky_some _ Hky row Hrow) as [v Hv]. destruct qs as [|q0 qs].
  - inv_ok. subst legacy. destruct a as [[column ty'] l]. inv_ok. simplify_eq. cbn [resolver_column resolver_keys]. rewrite (legacy_some _ _ _ _ _ row Hval He Hok0).
    assert (guard_open (entity_name e) = true → ¬ shared_resource e row) as Hno. { intros Hg Hsr. destruct (proj2 Hres (conj Hg Hsr)) as (q & _ & []%elem_of_nil & _). }
    split; [intros [? ?]; auto|intros [Hg [Hx|?]]; [by destruct (Hno Hg)|done]].
  - set (all := q0 :: qs) in *. clearbody all. inv_ok. apply (entity_unique e a He) in Hok1 as ->. simplify_eq. cbn [resolver_column resolver_keys].
    assert (∀ w, w ∈ concat (map select_keys (all ++ match legacy with Some (owner, _, l) => [SOwned (primary e) (entity_name e) owner l] | None => [] end)) ↔
      (∃ q, q ∈ all ∧ w ∈ select_keys q) ∨ (∃ owner ty0 l, legacy = Some (owner, ty0, l) ∧ w ∈ select_keys (SOwned (primary e) (entity_name e) owner l))) as Hkeys.
    { intros w. rewrite elem_concat_map. setoid_rewrite elem_of_app. destruct legacy as [[[owner ty0] l]|]; split.
      - intros (q & [Hq|Hq%list_elem_of_singleton] & Hw); [left; eauto|subst q; right; eauto].
      - intros [(q & Hq & Hw)|(? & ? & ? & [= <- <- <-] & Hw)]; [by exists q; auto|]. eexists. split; [right; by apply list_elem_of_singleton|done].
      - intros (q & [Hq|[]%elem_of_nil] & Hw). left. eauto.
      - intros [(q & Hq & Hw)|(? & ? & ? & [=] & _)]. exists q. auto. }
    setoid_rewrite Hkeys. split.
    + intros (w & Hw & [(q & Hq & Hin)|(owner & ty0 & l & -> & Hin)]).
      * destruct (proj1 Hres) as [Hg Hsr]; [by exists q, w|]. auto.
      * apply (owned_select_ok e row w owner l Hky Hrow Hw), (legacy_some _ _ _ _ _ row Hval He Hok0) in Hin as [Hg Hi]. auto.
    + intros [Hg [Hsr|Hi]].
      * destruct (proj2 Hres (conj Hg Hsr)) as (q & w & Hq & Hw & Hin). exists w. split; [done|]. left. eauto.
      * exists v. split; [done|]. right. destruct legacy as [[[owner ty0] l]|]; [|by destruct (legacy_none _ _ row Hval He Hok0)]. exists owner, ty0, l. split; [done|].
        apply (owned_select_ok e row v owner l Hky Hrow Hv), (legacy_some _ _ _ _ _ row Hval He Hok0). done.
Qed.
End Caller.
End Promise.

(** ** Validated sharing *)

Section Valid.
Context (m : AppManifest).

Lemma foldl_ok {A : Type} (f : result RuntimeError unit → A → result RuntimeError unit) l r : (∀ e x, f (Err e) x = Err e) → foldl f r l = Ok tt → r = Ok tt.
Proof.
  intros Hf. revert r. induction l as [|x l IH]; intros r Hr; [done|]. cbn in Hr. apply IH in Hr. destruct r as [[]|e]; [done|]. by rewrite Hf in Hr.
Qed.
Lemma field_names_distinct e : validate_field_names e = Ok tt → NoDup (map fname (entity_fields e)).
Proof.
  unfold validate_field_names. intros Hf. set (step := λ (r : result RuntimeError unit) (i : nat), _) in Hf.
  assert (∀ n, n ≤ length (entity_fields e) → NoDup (take n (map fname (entity_fields e)))) as Hall.
  { induction n as [|n IH]; intros Hn; [constructor|]. destruct (lookup_lt_is_Some_2 (entity_fields e) n) as [f Hfn]; [lia|].
    rewrite (take_S_r _ _ (fname f)) by (by rewrite list_lookup_fmap, Hfn). apply NoDup_app. split_and!; [apply IH; lia| |apply NoDup_singleton].
    assert (∃ r, step r n = Ok tt) as [r Hr].
    { rewrite <-(take_drop n (seq 0 (length (entity_fields e)))), foldl_app in Hf.
      assert (drop n (seq 0 (length (entity_fields e))) = n :: seq (S n) (length (entity_fields e) - S n)) as Hd.
      { rewrite drop_seq. replace (length (entity_fields e) - n) with (S (length (entity_fields e) - S n)) by lia. done. }
      rewrite Hd in Hf. cbn [foldl] in Hf. eexists. apply foldl_ok in Hf; [exact Hf|]. intros err x. done. }
    unfold step in Hr. rewrite Hfn in Hr. inv_ok. apply negb_true_iff, bool_decide_eq_false in Hok1. intros x Hx ->%list_elem_of_singleton. done. }
  rewrite <-(take_ge (map fname (entity_fields e)) (length (entity_fields e))) by (by rewrite length_map). by apply Hall.
Qed.
Lemma validated_distinct : validate_entities m = Ok tt → manifest_distinct m.
Proof.
  unfold validate_entities. intros Hv. inv_ok. apply bool_decide_eq_true in Hok. split; [done|]. intros e He.
  rewrite try_for_each_ok_iff in Hk. specialize (proj1 (Forall_forall _ _) Hk e He) as Hx. cbn in Hx. inv_ok. destruct a0, a1. by apply field_names_distinct.
Qed.
Lemma owner_joins_mono start start' fuel fuel' visited visited' e x : fuel ≤ fuel' → visited' ⊆ visited → owner_joins m start fuel visited e = Ok x → owner_joins m start' fuel' visited' e = Ok x.
Proof.
  revert fuel' visited visited' e x. induction fuel as [|fuel IH]; intros fuel' visited visited' e x Hle Hsub Hj; [done|]. destruct fuel' as [|fuel']; [lia|]. cbn [owner_joins] in *. inv_ok.
  apply negb_true_iff, bool_decide_eq_false in Hok. rewrite bool_decide_eq_false_2 by set_solver. cbn. rewrite Hok0. cbn. destruct (owner_parent e) as [parent|]; [|done]. inv_ok. rewrite Hok1. cbn.
  rewrite (IH fuel' (visited ++ [entity_name e]) (visited' ++ [entity_name e]) a1 a2); [done|lia|set_solver|done].
Qed.
Lemma path_prefix start p1 p2 x : path m start p1 = Ok x → ∃ x', path m start p2 = Ok x'.
Proof. unfold path. intros Hp. inv_ok. destruct a0 as [[joins root] ty]. rewrite Hok. cbn [result_bind]. rewrite Hok0. cbn [result_bind]. eauto. Qed.
Lemma owner_joins_parent start fuel visited e parent x : owner_parent e = Some parent → owner_joins m start (S fuel) visited e = Ok x →
  ∃ c t x', owner_field e = Some c ∧ owned_link m e c = Ok t ∧ owner_joins m start fuel (visited ++ [entity_name e]) t = Ok x'.
Proof. intros Hp Hj. cbn [owner_joins] in Hj. rewrite Hp in Hj. inv_ok. eauto 10. Qed.
(** The chain of the parent is a part of the chain of the child. *)
Lemma path_parent e parent prefix prefix' x : manifest_distinct m → e ∈ data_contract m → owner_parent e = Some parent → path m (entity_name e) prefix = Ok x → ∃ x', path m parent prefix' = Ok x'.
Proof.
  intros Hd He Hp Hx. unfold path in Hx. inv_ok. assert (a = e) as -> by (eapply entity_unique; done). change MAX_OWNER_CHAIN with (S 3) in Hok0.
  destruct (owner_joins_parent _ _ _ _ _ _ Hp Hok0) as (c & t & x' & Hc & Hl & Hj). unfold path. rewrite (owner_link m Hd e c parent t He Hc Hp Hl). cbn [result_bind].
  rewrite (owner_joins_mono (entity_name e) parent 3 MAX_OWNER_CHAIN ([] ++ [entity_name e]) [] t x' ltac:(unfold MAX_OWNER_CHAIN; lia) ltac:(set_solver) Hj). cbn [result_bind]. destruct x' as [[js r] ty]. eauto.
Qed.
Lemma try_map_some {A B : Type} (f : A → result RuntimeError B) l : (∀ x, x ∈ l → ∃ y, f x = Ok y) → ∃ ys, try_map f l = Ok ys ∧ length ys = length l.
Proof.
  induction l as [|x l IH]; intros Hf; [by exists []|]. destruct (Hf x ltac:(set_solver)) as [y Hy]. destruct IH as (ys & Hys & Hlen); [set_solver|]. exists (y :: ys). cbn. rewrite Hy. cbn. rewrite Hys. cbn. by rewrite Hlen.
Qed.
Lemma distinct_checked seen check ts t : distinct_targets seen check ts = Ok tt → t ∈ ts → check t = Ok tt.
Proof.
  revert seen. induction ts as [|x ts IH]; intros seen Hd Ht; [by apply elem_of_nil in Ht|]. cbn in Hd. inv_ok. destruct a0. apply elem_of_cons in Ht as [->|Ht]; [done|by eapply IH].
Qed.
Context (Hval : validate m = Ok tt) (Hents : validate_entities m = Ok tt).
Lemma share_checked source sh : source ∈ data_contract m → share source = Some sh →
  (∃ ge g, owned_link m source (grantee sh) = Ok ge ∧ path m (entity_name ge) "g" = Ok g) ∧
  match share_scope sh with
  | Identity => ∃ se, owned_link m source (subject sh) = Ok se
  | Resource => ∃ se, link m source (subject sh) = Ok se ∧ ∀ t, t ∈ share_targets sh → ∃ p, resource_path m se t = Ok p
  end.
Proof.
  intros Hs Hsh. unfold validate in Hval. pose proof Hval as Hv. inv_ok. destruct a. rewrite try_for_each_ok_iff, Forall_forall in Hok. specialize (Hok source Hs). unfold validate_share in Hok. rewrite Hsh in Hok.
  inv_ok. split; [eauto|]. destruct (share_scope sh); inv_ok; [eauto|]. 
  eexists. split; [done|]. intros t Ht.
  match goal with Hd : distinct_targets _ _ _ = Ok ?u |- _ => destruct u; pose proof (distinct_checked _ _ _ _ Hd Ht) as Hp end. cbn in Hp. inv_ok. eauto.
Qed.
Lemma target_path e c : e ∈ data_contract m → is_target m e = true → owner_field e = Some c → ∃ p, path m (entity_name e) "v" = Ok p.
Proof.
  intros He Ht Hc. unfold validate in Hval. pose proof Hval as Hv. inv_ok. rewrite try_for_each_ok_iff, Forall_forall in Hk0. specialize (Hk0 e). unfold shared_entities in Hk0. rewrite elem_filter in Hk0.
  specialize (Hk0 (conj He Ht)). cbn in Hk0. rewrite Hc in Hk0. inv_ok. eauto.
Qed.
Lemma identity_subject_ok source sh : source ∈ data_contract m → share source = Some sh → share_scope sh = Identity → ∃ x, identity_subject m (source, sh) = Ok x.
Proof.
  intros Hs Hsh Hsc. destruct (share_checked source sh Hs Hsh) as [(ge & g & Hge & Hg) Hsub]. rewrite Hsc in Hsub. destruct Hsub as [se Hse]. unfold identity_subject. rewrite Hge. cbn [result_bind]. rewrite Hg. cbn [result_bind].
  rewrite Hse. cbn [result_bind]. pose proof (validated_distinct Hents) as Hd. pose proof (link_entity m Hd _ _ _ (owned_link_ok m _ _ _ Hse)) as He. apply (entity_ok m Hd) in He as [Hin _].
  assert (is_Some (owner_field se)) as [c Hc] by (unfold owned_link in Hse; inv_ok; subst; by bool_hyps).
  destruct (target_path se c Hin) as [p Hp]; [|done|].
  - unfold is_target. apply existsb_exists. exists source. split; [by apply list_elem_of_In|]. rewrite Hsh, Hsc. by apply bool_decide_eq_true.
  - destruct (path_prefix _ _ "s" _ Hp) as [p' ->]. cbn. eauto.
Qed.
Lemma source_selects_some table source sh : source ∈ data_contract m → share source = Some sh → share_scope sh = Resource → ∃ qs, source_selects m table (source, sh) = Ok qs ∧
  ((∃ se, link m source (subject sh) = Ok se ∧ entity_name se = table) ∨ (∃ t, t ∈ share_targets sh ∧ st_entity t = table) → qs ≠ []).
Proof.
  intros Hs Hsh Hsc. destruct (share_checked source sh Hs Hsh) as [(ge & g & Hge & Hg) Hsub]. rewrite Hsc in Hsub. destruct Hsub as (se & Hse & Hts).
  destruct (try_map_some (resource_path m se) (List.filter (λ t, bool_decide (st_entity t = table)) (share_targets sh))) as (ps & Hps & Hlen); [intros t [Ht _]%elem_filter; by apply Hts|].
  unfold source_selects. rewrite Hse. cbn [result_bind]. rewrite Hge. cbn [result_bind]. rewrite Hg. cbn [result_bind]. rewrite Hps. cbn [result_bind]. eexists. split; [done|]. intros Hor Hnil. apply map_eq_nil, app_eq_nil in Hnil as [H1 H2].
  destruct Hor as [(se' & Hse' & Hn)|(t & Ht & Hn)]; [rewrite bool_decide_eq_true_2 in H1 by congruence; done|]. subst ps. cbn in Hlen.
  assert (t ∈ List.filter (λ t, bool_decide (st_entity t = table)) (share_targets sh)) as Hin by (apply elem_filter; by rewrite bool_decide_eq_true). destruct (List.filter _ _); [by apply elem_of_nil in Hin|done].
Qed.
Lemma resource_selects_some table : ∃ qs, resource_selects m table = Ok qs ∧
  ((∃ source sh, source ∈ data_contract m ∧ share source = Some sh ∧ share_scope sh = Resource ∧
     ((∃ se, link m source (subject sh) = Ok se ∧ entity_name se = table) ∨ (∃ t, t ∈ share_targets sh ∧ st_entity t = table))) → qs ≠ []).
Proof.
  destruct (try_map_some (source_selects m table) (shares_of Resource m)) as (l & Hl & _).
  { intros [source sh] (H1 & H2 & H3)%shares_of_elem. destruct (source_selects_some table source sh H1 H2 H3) as (qs & ? & _). eauto. }
  unfold resource_selects. rewrite Hl. cbn [result_bind]. eexists. split; [done|]. intros (source & sh & H1 & H2 & H3 & Hor) Hnil. destruct (source_selects_some table source sh H1 H2 H3) as (qs & Hqs & Hne).
  apply (Hne Hor). apply concat_nil_Forall in Hnil. rewrite Forall_forall in Hnil. apply Hnil. apply (try_map_elem _ _ _ _ Hl). exists (source, sh). split; [by apply shares_of_elem|done].
Qed.
(** A validated manifest's sharing can be declared on every table it concerns. *)
Lemma sharing_declared ct e : e ∈ data_contract m → is_target m e = true → (∀ c, is_Some (ct (entity_name e) c)) → ∃ r ty, declare_select ct m (entity_name e) (owner_map (data_contract m)) = Ok (r, ty).
Proof.
  intros He Ht Hct. pose proof (validated_distinct Hents) as Hd. destruct (resource_selects_some (entity_name e)) as (qs & Hqs & Hne). unfold declare_select. rewrite Hqs. cbn [result_bind].
  destruct (try_map_some (identity_subject m) (shares_of Identity m)) as (subs & Hsubs & Hlen); [intros [source sh] (H1 & H2 & H3)%shares_of_elem; by apply identity_subject_ok|].
  assert (∃ legacy, identity_select ct m (entity_name e) (owner_map (data_contract m)) = Ok legacy ∧ (is_Some (owner_field e) → shares_of Identity m ≠ [] → legacy ≠ None)) as (legacy & Hleg & Hsome).
  { unfold identity_select. destruct (owner_map _ !! entity_name e) as [[c p]|] eqn:Hl.
    - destruct (owners_of m Hd e c p Hents He Hl) as [Hc Hp]. rewrite Hsubs. cbn [result_bind]. destruct subs as [|x subs]; [exists None; split; [done|]; intros _ Hn; by destruct (shares_of Identity m)|].
      destruct (Hct c) as [ty ->]. cbn [ok_or result_bind]. destruct (target_path e c He Ht Hc) as [pv Hpv]. destruct p as [parent|].
      + destruct (path_parent e parent "v" "t" pv Hd He Hp Hpv) as [pt ->]. cbn [result_bind]. eauto.
      + cbn [result_bind]. eauto.
    - exists None. split; [done|]. intros [c Hc] _. assert (owner_map (data_contract m) !! entity_name e = Some (c, owner_parent e)) as E by (apply (owners_lookup m Hents); eauto). congruence. }
  rewrite Hleg. cbn [result_bind]. destruct qs as [|q qs].
  - destruct legacy as [[[c ty] l]|]; [cbn; eauto|]. exfalso. unfold is_target in Ht. apply existsb_exists in Ht as (source & Hin & Hx). apply list_elem_of_In in Hin. destruct (share source) as [sh|] eqn:Hsh; [|done].
    destruct (share_scope sh) eqn:Hsc.
    + apply bool_decide_eq_true in Hx. apply (Hsome Hx); [|done]. intros Hnil. assert ((source, sh) ∈ shares_of Identity m) as Hin' by (by apply shares_of_elem). rewrite Hnil in Hin'. by apply elem_of_nil in Hin'.
    + apply Hne; [|done]. exists source, sh. split_and!; try done. apply orb_true_iff in Hx as [Hx|Hx].
      * left. destruct (share_checked source sh Hin Hsh) as [_ Hsub]. rewrite Hsc in Hsub. destruct Hsub as (se & Hse & _). exists se. split; [done|]. destruct (named (subject sh) source) as [f|] eqn:Hf; [|done]. cbn in Hx.
        destruct (references f) as [r|] eqn:Hr; [|done]. apply bool_decide_eq_true in Hx. unfold link in Hse. rewrite Hf in Hse. cbn in Hse. rewrite Hr in Hse. destruct (bool_decide (field_type f = _)); [|done]. cbn in Hse. inv_ok. subst.
        match goal with Hy : entity m _ = Ok _ |- _ => apply (entity_ok m Hd) in Hy as [_ ->] end. done.
      * right. apply existsb_exists in Hx as (t & Hin' & Hn). apply bool_decide_eq_true in Hn. exists t. by rewrite list_elem_of_In.
  - rewrite (proj2 (entity_ok m Hd (entity_name e) e)) by done. cbn [result_bind]. destruct (Hct (primary e)) as [ty ->]. cbn. eauto.
Qed.
End Valid.

(** ** The promise kept *)

(** [C36] A shared read reaches exactly the rows that were shared: for a manifest that passed
    validation, the resolver of a table that sharing concerns can be declared, and what it
    lets a caller read of the table's rows are those a share in force covers, a share
    whose grantee's row the caller owns and that, by identity, is of someone who owns the
    row, or, by resource, is of the row itself or one its declared links lead to; and
    nothing unless the caller has the table's shared-read key in a request of its app or of
    a person. *)
Theorem shared_rows_exact m ct e y s data is_uuid row :
  validate_entities m = Ok tt → validate m = Ok tt → e ∈ data_contract m → is_target m e = true → (∀ c, is_Some (ct (entity_name e) c)) →
  keyed data e → row ∈ data (entity_name e) →
  ∃ r ty, declare_select ct m (entity_name e) (owner_map (data_contract m)) = Ok (r, ty) ∧
    (resolver_admits y s (app_id m) data is_uuid r row = true ↔ guard_open y s (app_id m) (entity_name e) = true ∧ ∃ u, caller s = Some u ∧ shared_by m data is_uuid u e row).
Proof.
  intros He Hv Hin Ht Hct Hky Hrow. destruct (sharing_declared m Hv He ct e Hin Ht Hct) as (r & ty & Hd). exists r, ty. split; [done|].
  exact (resolver_ok m data is_uuid (validated_distinct m He) s y ct e r ty row He Hin Hky Hrow Hd).
Qed.

Module SharingExamples.
Import GateExamples.
Definition field (name type : string) (owns : bool) (r : option string) : FieldContract :=
  {| fname := name; field_type := type; precision := None; scale := None; required := false; default_value := None; enum_values := None;
     references := (λ e, {| ref_entity := e; ref_field := "id" |}) <$> r; is_primary_key := None; sensitive := false; owner := owns; rules := no_rules; on_delete := None; field_unknown := [] |}.
Definition ent (name : string) (fields : list FieldContract) (sh : option ShareContract) : EntityContract :=
  {| entity_name := name; entity_fields := fields; share := sh; entity_indexes := []; entity_checks := []; derived_from := None; identity_kind := None; identity_key := None; entity_unknown := [] |}.
(** People own files; a substitution lets one person read what another owns. *)
Definition people : EntityContract := ent "people" [field "account" "uuid" true None] None.
Definition files : EntityContract := ent "files" [field "person" "entity_link" true (Some "people")] None.
Definition substitutions : EntityContract :=
  ent "substitutions" [field "reader" "entity_link" false (Some "people"); field "away" "entity_link" false (Some "people"); field "ended" "date" false None]
    (Some {| grantee := "reader"; subject := "away"; active_when_null := "ended"; share_scope := Identity; share_targets := [] |}).
Definition office : AppManifest := {| app_id := "crm"; data_contract := [people; files; substitutions] |}.
Definition office_rows (table : string) : list Row :=
  if decide (table = "people") then [{["id" := "p1"; "account" := "u1"]}; {["id" := "p2"; "account" := "u2"]}; {["id" := "p3"; "account" := "u3"]}]
  else if decide (table = "files") then [{["id" := "f2"; "person" := "p2"]}; {["id" := "f3"; "person" := "p3"]}]
  else if decide (table = "substitutions") then [{["id" := "s1"; "reader" := "p1"; "away" := "p2"]}; {["id" := "s2"; "reader" := "p1"; "away" := "p3"; "ended" := "2024-01-01"]}]
  else [].
Definition u1_settings : Settings :=
  {["rootcx.user_id" := "u1"; "rootcx.app_id" := "crm"; "rootcx.is_delegated" := "1"; "rootcx.effective_perms" := "app:crm:files.read.shared"]}.
Definition f2 : Row := {["id" := "f2"; "person" := "p2"]}.
Definition f3 : Row := {["id" := "f3"; "person" := "p3"]}.
Lemma files_rows : office_rows (entity_name files) = [f2; f3].
Proof. reflexivity. Qed.
Lemma files_keyed : keyed office_rows files.
Proof.
  split; rewrite files_rows.
  - intros p Hp. rewrite elem_of_cons, list_elem_of_singleton in Hp. destruct Hp as [->| ->]; by eexists.
  - intros p q Hp Hq. rewrite elem_of_cons, list_elem_of_singleton in Hp, Hq. destruct Hp as [->| ->], Hq as [->| ->]; intros E; vm_compute in E; done.
Qed.
Lemma shared_rows_exact_witness :
  guard_open ex_sys u1_settings "crm" "files" = true ∧ ∃ u, caller u1_settings = Some u ∧ shared_by office office_rows (λ _, true) u files f2.
Proof.
  destruct (shared_rows_exact office (λ _ _, Some "uuid") files ex_sys u1_settings office_rows (λ _, true) f2) as (r & ty & Hd & Hr).
  - vm_compute. reflexivity.
  - vm_compute. reflexivity.
  - apply elem_of_cons. right. apply elem_of_cons. by left.
  - vm_compute. reflexivity.
  - intros c. by eexists.
  - exact files_keyed.
  - rewrite files_rows. apply elem_of_cons. by left.
  - apply Hr. vm_compute in Hd. injection Hd as <- <-. vm_compute. reflexivity.
Defined.
(** The other person's share has ended. *)
Example ended_share_reads_nothing :
  match declare_select (λ _ _, Some "uuid") office "files" (owner_map (data_contract office)) with
  | Ok (r, _) => map (resolver_admits ex_sys u1_settings "crm" office_rows (λ _, true) r) (office_rows "files")
  | Err _ => []
  end = [true; false].
Proof. vm_compute. reflexivity. Qed.
End SharingExamples.
