(* ===== verification/Manifest.v ===== *)
(** * Manifests (core/src/manifest.rs)

    What a manifest must be to be installed, and the life of an installed app: the order in
    which an installation revokes, changes and registers, and the removal of an app. *)

From stdpp Require Import base numbers pretty gmap strings sets relations list.
From S2P Require Import Prelude Str Ident Json DataTypes Ownership RuleTyping RulePattern RuleCompile RowPlan RowAccess RowSharing Perms Authority Delegation Gates Records.
From S2P Require Import SchemaSync SchemaConverge SchemaTables Procs CrossApp Publications.

(** ** The parts of a manifest *)

Inductive DataOperation := OpRead | OpCreate | OpUpdate | OpDelete.
#[global] Instance DataOperation_eq_dec : EqDecision DataOperation.
Proof. solve_decision. Defined.
(** The entities of an authority are a map, in the order of its keys. *)
Record ActionDefinition := { act_id : string; act_name : string; act_authority : option (list (string * list DataOperation)) }.
Record Manifest := { mf_contract : AppManifest; mf_permissions : list string; mf_actions : list ActionDefinition; mf_public : option PublicSurface }.
Definition surface_of (m : Manifest) : PublicManifest := {| contract := mf_contract m; public := mf_public m |}.
Definition entities (m : Manifest) : list EntityContract := data_contract (mf_contract m).
Definition keys_entity (e : EntityContract) : string := default (entity_name e) (derived_from e).

(** ** Keys nobody knows *)

Definition FIELD_KEYS : list string :=
  ["name"; "type"; "precision"; "scale"; "required"; "default_value"; "enum_values"; "references"; "is_primary_key"; "on_delete"; "sensitive"; "owner"; "minimum"; "maximum";
   "exclusive_minimum"; "exclusive_maximum"; "integer"; "max_scale"; "min_length"; "max_length"; "not_blank"; "format"; "pattern"; "json_type"; "max_items"].
Definition ENTITY_KEYS : list string := ["entityName"; "fields"; "share"; "identityKind"; "identityKey"; "indexes"; "checks"].
Definition INDEX_KEYS : list string := ["name"; "columns"; "unique"; "using"; "where"; "with"].
Definition INDEX_COLUMN_KEYS : list string := ["column"; "expr"; "sort"; "nulls"; "ops"].
Definition CHECK_KEYS : list string := ["name"; "expr"].
Fixpoint without (c : ascii) (s : string) : string :=
  match s with EmptyString => EmptyString | String d r => if decide (d = c) then without c r else String d (without c r) end.
Definition loose (k : string) : string := to_ascii_lowercase (without "_"%char k).
Definition refuse_key (at_ : string) (unknown known : list string) : result RuntimeError unit :=
  match unknown with
  | [] => Ok tt
  | key :: _ =>
      let hint := match List.find (λ k, bool_decide (loose k = loose key)) known with Some k => " (did you mean '" +:+ k +:+ "'?)" | None => EmptyString end in
      Err (Invalid (at_ +:+ ": unknown key '" +:+ key +:+ "'" +:+ hint))
  end.
Definition refuse_index (at_ : string) (ix : nat * IndexContract) : result RuntimeError unit :=
  let label := default (pretty ix.1) (idx_name ix.2) in
  try? refuse_key (at_ +:+ " indexes[" +:+ label +:+ "]") (idx_unknown ix.2) INDEX_KEYS in
  try_for_each (λ c, match c with IxSpec spec => refuse_key (at_ +:+ " indexes[" +:+ label +:+ "].columns") (ix_unknown spec) INDEX_COLUMN_KEYS | IxName _ => Ok tt end) (idx_columns ix.2).
Definition refuse_unknown_keys (m : Manifest) : result RuntimeError unit :=
  try_for_each (λ e,
    let at_ := "entity '" +:+ entity_name e +:+ "'" in
    try? refuse_key at_ (entity_unknown e) ENTITY_KEYS in
    try? try_for_each (λ f, refuse_key (at_ +:+ " field '" +:+ fname f +:+ "'") (field_unknown f) FIELD_KEYS) (entity_fields e) in
    try? try_for_each (refuse_index at_) (imap pair (entity_indexes e)) in
    try_for_each (λ ic : nat * CheckContract, refuse_key (at_ +:+ " checks[" +:+ default (pretty ic.1) (chk_name ic.2) +:+ "]") (chk_unknown ic.2) CHECK_KEYS) (imap pair (entity_checks e))) (entities m).

(** ** Derived entities *)

Definition derived (m : Manifest) : list string := map entity_name (List.filter is_derived (entities m)).
Definition refuse_derived (entity why : string) : result RuntimeError unit := Err (Invalid ("derived entity '" +:+ entity +:+ "' " +:+ why)).
Definition check_derived (m : Manifest) (e : EntityContract) : result RuntimeError unit :=
  let name := entity_name e in
  let source := keys_entity e in
  if negb (existsb (λ c, bool_decide (entity_name c = source) && negb (is_derived c)) (entities m))
  then refuse_derived name ("is derived from '" +:+ source +:+ "', which must be an ordinary entity of this app")
  else match List.find (λ f, is_system_field (fname f)) (entity_fields e) with
       | Some f => refuse_derived name ("cannot declare '" +:+ fname f +:+ "': it has no system columns")
       | None =>
           if bool_decide (is_Some (share e)) then refuse_derived name "cannot be shared"
           else if bool_decide (is_Some (identity_kind e)) || bool_decide (is_Some (identity_key e)) then refuse_derived name "cannot carry an identity"
           else if existsb owner (entity_fields e) then refuse_derived name "cannot have an owner"
           else if existsb sensitive (entity_fields e) then refuse_derived name "cannot have sensitive fields: only its own worker reads it"
           else Ok tt
       end.
Definition check_not_linked (m : Manifest) (e : EntityContract) (f : FieldContract) : result RuntimeError unit :=
  if negb (bool_decide (field_type f = "entity_link")) then Ok tt
  else match references f with
       | None => Ok tt
       | Some r =>
           match parse_entity_ref (ref_entity r) with
           | RefLocal target =>
               if bool_decide (target ∈ derived m)
               then refuse_derived target ("cannot be linked to: '" +:+ entity_name e +:+ "." +:+ fname f +:+ "' would need an id it does not have")
               else Ok tt
           | _ => Ok tt
           end
       end.
Definition exposed (m : Manifest) : list string :=
  match mf_public m with
  | None => []
  | Some s => map col_entity (collections s) ++ map pub_entity (List.filter (λ p, match pub_app p with None => true | Some a => bool_decide (a = app_id (mf_contract m)) end) (publications_ s))
  end.
Definition validate_derived_entities (m : Manifest) : result RuntimeError unit :=
  try? try_for_each (check_derived m) (List.filter is_derived (entities m)) in
  try? try_for_each (λ e, try_for_each (check_not_linked m e) (entity_fields e)) (entities m) in
  try_for_each (λ e, if bool_decide (e ∈ derived m) then refuse_derived e "cannot be exposed by the public surface" else Ok tt) (exposed m).

(** ** Actions and identities *)

Definition action_error (message : string) : RuntimeError := Invalid ("action authority: " +:+ message).
Fixpoint validate_authority_from (m : Manifest) (ids : list string) (actions : list ActionDefinition) : result RuntimeError unit :=
  match actions with
  | [] => Ok tt
  | a :: actions =>
      try? ensure (negb (bool_decide (act_id a ∈ ids))) (action_error ("duplicate action '" +:+ act_id a +:+ "'")) in
      try? match act_authority a with
           | None => Ok tt
           | Some data =>
               try? ensure (negb (bool_decide (data = []))) (action_error ("'" +:+ act_id a +:+ "' must request at least one local entity")) in
               try? ensure (negb (from_option (λ s, existsb (λ r, bool_decide (rpc_name r = act_id a)) (rpcs s)) false (mf_public m)))
                 (action_error ("'" +:+ act_id a +:+ "' cannot also be a public RPC")) in
               try_for_each (λ '(entity, operations),
                 try? ensure (existsb (λ e, bool_decide (entity_name e = entity)) (entities m))
                   (action_error ("'" +:+ act_id a +:+ "' references unknown local entity '" +:+ entity +:+ "'")) in
                 ensure (negb (bool_decide (operations = [])) && bool_decide (NoDup operations))
                   (action_error ("'" +:+ act_id a +:+ "': '" +:+ entity +:+ "' needs nonempty, unique CRUD operations"))) data
           end in
      validate_authority_from m (act_id a :: ids) actions
  end.
Definition validate_authority (m : Manifest) : result RuntimeError unit := validate_authority_from m [] (mf_actions m).
Definition validate_identity (e : EntityContract) : result RuntimeError unit :=
  match identity_kind e, identity_key e with
  | Some kind, Some key =>
      try? validate_ident kind "identityKind" in
      ensure (existsb (λ f, bool_decide (fname f = key)) (entity_fields e)) (Invalid ("identityKey '" +:+ key +:+ "' not found in fields of entity '" +:+ entity_name e +:+ "'"))
  | None, None => Ok tt
  | _, _ => Err (Invalid "identityKind and identityKey must both be set or both be absent")
  end.

(** ** Validation *)

(** [None] is a panic. *)
Definition Check := option (result RuntimeError unit).
Definition also (a b : Check) : Check := match a with Some (Ok _) => b | _ => a end.
Notation "a 'then?' b" := (also a b) (at level 60, right associativity, b at level 60).
Lemma also_ok a b : also a b = Some (Ok tt) ↔ a = Some (Ok tt) ∧ b = Some (Ok tt).
Proof. destruct a as [[[]|e]|]; cbn; split; [done|by intros [_ ?]|done|by intros [? _]|done|by intros [? _]]. Qed.

Section Validate.
Context `{!Parsers} (debug_error : ApiError → string).
Context (date_ok : string → bool) (rfc3339 uuid_text : string → option string) (regex_parse : string → result string RulePattern.Ast).
Context (digest4 : string → string) (digest : Canonical → string) (debug_list : list string → string) (debug_option : option string → string).
Notation compile := (compile_entity parse_bigdecimal date_ok rfc3339 uuid_text regex_parse digest4 digest debug_list debug_option).

Definition validate_entity (names : list string) (e : EntityContract) : result RuntimeError unit :=
  try? validate_ident (entity_name e) "entity name" in
  try? validate_field_names e in
  try? try_for_each (validate_reference names) (entity_fields e) in
  validate_identity e.
(** [row_access::validate] *)
Definition validate_row_access (m : AppManifest) : Check :=
  Some (try_for_each (λ e, map_err Invalid (validate_owner_field e)) (data_contract m))
  then? (map_err Invalid <$> validate_owner_chains m)
  then? Some (RowSharing.validate m).
Definition validate_stored_manifest (m : Manifest) : Check :=
  Some (validate_ident (app_id (mf_contract m)) "appId")
  then? Some (validate_authority m)
  then? Some (try_for_each (λ k, map_err Invalid (validate_declared_perm_key k)) (mf_permissions m))
  then? Some (try_for_each (λ a, map_err Invalid (validate_declared_perm_key (act_id a))) (mf_actions m))
  then? Some (ensure (bool_decide (NoDup (map entity_name (entities m)))) (Invalid "dataContract contains duplicate entity names"))
  then? Some (try_for_each (validate_entity (map entity_name (entities m))) (entities m))
  then? validate_row_access (mf_contract m)
  then? Some (map_err Invalid (Publications.validate_manifest debug_error (surface_of m))).
(** [row_access::validate_sql_declarations]: every rule compiles. *)
Definition admit_rules (m : AppManifest) (e : EntityContract) : Check :=
  match compile e with
  | Ok _ => Some (Ok tt)
  | Err (Refused reason) => Some (Err (Invalid ("SQL admission for '" +:+ app_id m +:+ "." +:+ entity_name e +:+ "': " +:+ reason)))
  | Err _ => None
  end.
Definition validate_sql_declarations (m : AppManifest) : Check := foldr (λ e r, admit_rules m e then? r) (Some (Ok tt)) (data_contract m).
Definition reserved_app (app : string) : bool := bool_decide (app ∈ RESERVED_SCHEMAS) || starts_with "pg_" app.
Definition validate_manifest (m : Manifest) : Check :=
  Some (refuse_unknown_keys m)
  then? Some (validate_new_ident (app_id (mf_contract m)) "appId")
  then? Some (ensure (negb (reserved_app (app_id (mf_contract m)))) (Invalid ("appId '" +:+ app_id (mf_contract m) +:+ "' is reserved")))
  then? Some (try_for_each (λ e, try? validate_new_ident (entity_name e) "entity name" in
                                 try_for_each (λ f, validate_new_ident (fname f) "field name") (entity_fields e)) (entities m))
  then? validate_stored_manifest m
  then? Some (try_for_each (λ e, try_for_each (λ f, map_err Invalid (result_map (λ _, tt) (from_field parse_bigdecimal f))) (entity_fields e)) (entities m))
  then? Some (validate_derived_entities m)
  then? validate_sql_declarations (mf_contract m).

(** ** What a valid manifest is good for *)

Lemma for_each_ok {A : Type} (f : A → result RuntimeError unit) l : Some (try_for_each f l) = Some (Ok tt) ↔ ∀ x, x ∈ l → f x = Ok tt.
Proof. rewrite (inj_iff Some), try_for_each_ok_iff, Forall_forall. done. Qed.
Lemma rules_admitted m e : validate_sql_declarations m = Some (Ok tt) → e ∈ data_contract m → ∃ r, compile e = Ok r.
Proof.
  unfold validate_sql_declarations. induction (data_contract m) as [|x l IH]; intros Hr He; [by apply elem_of_nil in He|]. cbn in Hr. apply also_ok in Hr as [Hx Hl].
  apply elem_of_cons in He as [->|He]; [|by apply IH]. unfold admit_rules in Hx. destruct (compile_entity _ _ _ _ _ _ _ _ _ x) as [r|[]]; [by exists r|done..].
Qed.
Record valid (m : Manifest) : Prop := {
  va_app : validate_new_ident (app_id (mf_contract m)) "appId" = Ok tt;
  va_reserved : reserved_app (app_id (mf_contract m)) = false;
  va_names : ∀ e, e ∈ entities m → validate_new_ident (entity_name e) "entity name" = Ok tt ∧ ∀ f, f ∈ entity_fields e → validate_new_ident (fname f) "field name" = Ok tt;
  va_entities : validate_entities (mf_contract m) = Ok tt;
  va_identity : ∀ e, e ∈ entities m → validate_identity e = Ok tt;
  va_owners : ∀ e, e ∈ entities m → validate_owner_field e = Ok tt;
  va_chains : validate_owner_chains (mf_contract m) = Some (Ok tt);
  va_sharing : RowSharing.validate (mf_contract m) = Ok tt;
  va_public : Publications.validate_manifest debug_error (surface_of m) = Ok tt;
  va_types : ∀ e f, e ∈ entities m → f ∈ entity_fields e → ∃ t, from_field parse_bigdecimal f = Ok t;
  va_derived : validate_derived_entities m = Ok tt;
  va_rules : ∀ e, e ∈ entities m → ∃ r, compile e = Ok r;
  va_keys : ∀ k, k ∈ mf_permissions m ++ map act_id (mf_actions m) → validate_declared_perm_key k = Ok tt }.
Lemma validate_valid m : validate_manifest m = Some (Ok tt) → valid m.
Proof.
  unfold validate_manifest, validate_stored_manifest, validate_row_access. rewrite !also_ok, !for_each_ok.
  intros (_ & H1 & H2 & H3 & (_ & _ & H4 & H5 & H6 & H7 & (H8 & H9 & H10) & H11) & H12 & H13 & H14).
  injection H1 as H1. injection H2 as H2. injection H6 as H6. injection H10 as H10. injection H11 as H11. injection H13 as H13. inv_ok. apply negb_true_iff in H2.
  split; try done.
  - intros e He. specialize (H3 e He). inv_ok. rewrite try_for_each_ok_iff, Forall_forall in Hk. by destruct a.
  - unfold validate_entities. apply bind_ok_iff. exists tt. split; [by apply ensure_ok_iff|]. apply try_for_each_ok_iff, Forall_forall. intros e He. specialize (H7 e He). unfold validate_entity in H7. inv_ok. destruct a, a0, a1.
    rewrite Hok. cbn. rewrite Hok0. done.
  - intros e He. specialize (H7 e He). unfold validate_entity in H7. by inv_ok.
  - intros e He. specialize (H8 e He). by inv_ok.
  - destruct (validate_owner_chains (mf_contract m)) as [[[]|]|]; done.
  - intros e f He Hf. specialize (H12 e He). rewrite try_for_each_ok_iff, Forall_forall in H12. specialize (H12 f Hf). cbn in H12. destruct (from_field parse_bigdecimal f) as [t|]; [by exists t|done].
  - intros e He. by eapply rules_admitted.
  - intros k [Hk|Hk]%elem_of_app.
    + specialize (H4 k Hk). by inv_ok.
    + apply list_elem_of_fmap in Hk as (a & -> & Ha). specialize (H5 a Ha). by inv_ok.
Qed.

(** *** Installing never panics *)

Context (json_to_string : JsonValue → string).
Notation installing := (SchemaTables.install_tables parse_bigdecimal json_to_string).
Definition typed (es : list EntityContract) : Prop := ∀ e f, e ∈ es → f ∈ entity_fields e → ∃ t, from_field parse_bigdecimal f = Ok t.
Lemma mapM_total {A B : Type} (f : A → option B) l : (∀ x, x ∈ l → ∃ y, f x = Some y) → ∃ ys, mapM f l = Some ys.
Proof.
  intros Hf. induction l as [|x l IH]; [by exists []|]. destruct (Hf x) as [y Hy]; [set_solver|]. destruct IH as [ys Hys]; [set_solver|]. exists (y :: ys). cbn. rewrite Hy. cbn. by rewrite Hys.
Qed.
Lemma pk_map_total es : typed es → ∃ pk, build_pk_type_map parse_bigdecimal es = Some pk.
Proof.
  intros Ht. unfold build_pk_type_map. match goal with |- context [mapM ?f es] => destruct (mapM_total f es) as [l Hl] end.
  - intros e He. destruct (List.find is_pk (entity_fields e)) as [f|] eqn:Hf; [|by eexists]. apply find_some in Hf as [Hf _]. destruct (Ht e f He) as [t Hft]; [by apply list_elem_of_In|]. rewrite Hft. cbn. by eexists.
  - rewrite Hl. by eexists.
Qed.
Lemma table_columns_total es e pk : typed es → e ∈ es → ∃ cds, table_columns parse_bigdecimal json_to_string e pk = Some cds.
Proof.
  intros Ht He. unfold table_columns. match goal with |- context [mapM ?f ?l] => destruct (mapM_total f l) as [l' Hl] end.
  - intros f Hf. apply elem_filter in Hf as [Hf _]. destruct (Ht e f He Hf) as [t Hft]. unfold field_to_column. rewrite Hft. by eexists.
  - rewrite Hl. by eexists.
Qed.
Lemma compute_diff_total es e app name cols pk : typed es → e ∈ es → ∃ d, compute_diff parse_bigdecimal json_to_string app name cols (entity_fields e) pk = Some d.
Proof.
  intros Ht He. unfold compute_diff. match goal with |- context [mapM ?f ?l] => destruct (mapM_total f l) as [l' Hl] end.
  - intros f Hf. destruct (Ht e f He Hf) as [t Hft]. unfold field_changes. destruct (is_system_field (fname f)); [by eexists|].
    assert (∃ ty, resolve_pg_type parse_bigdecimal f pk = Some ty) as [ty ->] by (unfold resolve_pg_type; case_decide; [by eexists|rewrite Hft; by eexists]). cbn.
    destruct (column_named cols (fname f)) as [c|]; [|by eexists].
    assert (∃ d, desired_default parse_bigdecimal json_to_string f = Some d) as [d ->] by (unfold desired_default; destruct (default_value f); [rewrite Hft; by eexists|by eexists]). by eexists.
  - rewrite Hl. by eexists.
Qed.
Section NoPanic.
Context `{!Catalog} (es : list EntityContract) (Hty : typed es).
Lemma create_no_panic l pk s : (∀ e, e ∈ l → e ∈ es) → (create_tables parse_bigdecimal json_to_string pk l s).2 ≠ Err SchemaTables.Panicked.
Proof.
  revert s. induction l as [|e l IH]; intros s Hin; [done|]. cbn. destruct (table_columns_total es e pk Hty) as [cds ->]; [set_solver|]. destruct (exec_create _ _ _); [|done]. apply IH. set_solver.
Qed.
Lemma sync_no_panic app l pk s : (∀ e, e ∈ l → e ∈ es) → (sync_schema parse_bigdecimal json_to_string app pk l s).2 ≠ Err SchemaTables.Panicked.
Proof.
  revert s. induction l as [|e l IH]; intros s Hin; [done|]. cbn. assert ((sync_entity parse_bigdecimal json_to_string app pk e s).2 ≠ Err SchemaTables.Panicked) as Hone.
  { unfold sync_entity. destruct (introspect_table (s_tables s !! entity_name e)) as [|d0 ds]; [done|]. destruct (s_tables s !! entity_name e) as [t|]; [|done].
    destruct (compute_diff_total es e app (entity_name e) (d0 :: ds) pk Hty) as [df ->]; [set_solver|].
    destruct (d_changes df); [done|]. destruct (apply_ddl _ _) as [t' []]; done. }
  destruct (sync_entity _ _ _ _ _ s) as [s1 [[]|err]]; cbn in *; [apply IH; set_solver|done].
Qed.
Lemma steps_no_panic steps s : (run_steps steps s).2 ≠ Err SchemaTables.Panicked.
Proof. revert s. induction steps as [|st steps IH]; intros s; [done|]. cbn. destruct (st s); [apply IH|done]. Qed.
End NoPanic.
Lemma install_no_panic `{!Catalog} es app s : typed es → (installing app es s).2 ≠ Err SchemaTables.Panicked.
Proof.
  intros Hty. unfold SchemaTables.install_tables. destruct (pk_map_total es Hty) as [pk ->].
  pose proof (create_no_panic es Hty es pk s (λ e H, H)) as H1. pose proof (λ s1, sync_no_panic es Hty app es pk s1 (λ e H, H)) as H2. destruct es as [|e0 l0]; [done|].
  destruct (create_tables _ _ _ _ _) as [s1 [[]|err]]; [|done]. specialize (H2 s1). destruct (sync_schema _ _ _ _ _ _) as [s2 [[]|err]]; [|done]. apply steps_no_panic.
Qed.

(** *** Validation always answers *)

Lemma ident_ascii value label : validate_ident value label = Ok tt → str_forall is_ascii value = true.
Proof.
  unfold validate_ident. destruct (_ && str_forall _ value) eqn:Hv; [|done]. apply andb_true_iff in Hv as [_ Hv]. intros _. induction value as [|c s IH]; [done|]. cbn in *.
  apply andb_true_iff in Hv as [Hc Hv]. rewrite IH by done. rewrite andb_true_r. destruct c as [[] [] [] [] [] [] [] []]; vm_compute in Hc |- *; done.
Qed.
Lemma new_ident_ok value label : validate_new_ident value label = Ok tt → validate_ident value label = Ok tt ∧ String.length value ≤ MAX_IDENT_BYTES.
Proof.
  unfold validate_new_ident. intros Hv. apply bind_ok_iff in Hv as ([] & Hi & Hv). split; [done|]. destruct (MAX_IDENT_BYTES <? String.length value) eqn:Hl; [done|]. by apply Nat.ltb_ge in Hl.
Qed.
Lemma new_ident_fits value label : validate_new_ident value label = Ok tt → str_forall is_ascii value = true ∧ 0 < String.length value ≤ MAX_IDENT_BYTES.
Proof.
  intros [Hi Hl]%new_ident_ok. split_and!; [by eapply ident_ascii| |done]. destruct value; [|cbn; lia]. done.
Qed.
Context (Hdigest4 : ∀ s, String.length (digest4 s) = 8).
Lemma names_ascii_of e : validate_new_ident (entity_name e) "entity name" = Ok tt → (∀ f, f ∈ entity_fields e → validate_new_ident (fname f) "field name" = Ok tt) → names_ascii e.
Proof.
  intros He Hf. split; [by apply new_ident_ok in He as [He%ident_ascii _]|]. apply Forall_forall. intros f Hin. specialize (Hf f Hin). by apply new_ident_ok in Hf as [Hf%ident_ascii _].
Qed.
Lemma also_some a b : a ≠ None → (a = Some (Ok tt) → b ≠ None) → also a b ≠ None.
Proof. intros Ha Hb. destruct a as [[[]|e]|]; cbn; [by apply Hb|done|done]. Qed.
Lemma stored_total m : validate_stored_manifest m ≠ None.
Proof.
  unfold validate_stored_manifest. repeat (apply also_some; [done|]; intros ?). apply also_some; [|done].
  unfold validate_row_access. repeat (apply also_some; [done|]; intros ?). apply also_some; [|done].
  assert (validate_entities (mf_contract m) = Ok tt) as Hv.
  { unfold validate_entities. apply bind_ok_iff. exists tt. simplify_eq. split; [done|]. apply try_for_each_ok_iff, Forall_forall. intros e He.
    match goal with Hx : try_for_each (validate_entity _) _ = Ok tt |- _ => rewrite try_for_each_ok_iff, Forall_forall in Hx; specialize (Hx e He); unfold validate_entity in Hx end. inv_ok. destruct a, a0, a1. rewrite Hok. cbn. by rewrite Hok0. }
  pose proof (proj1 (accepted_ownership_reconciles _ Hv)) as Hc. by destruct (validate_owner_chains (mf_contract m)).
Qed.
Lemma validate_total m : validate_manifest m ≠ None.
Proof.
  unfold validate_manifest. apply also_some; [done|intros _]. apply also_some; [done|intros _]. apply also_some; [done|intros _]. apply also_some; [done|intros Hn]. apply also_some; [apply stored_total|intros _].
  apply also_some; [done|intros _]. apply also_some; [done|intros _]. rewrite for_each_ok in Hn. unfold validate_sql_declarations. change (data_contract (mf_contract m)) with (entities m).
  assert (∀ e, e ∈ entities m → names_ascii e) as Ha.
  { intros e He. specialize (Hn e He). cbn in Hn. apply bind_ok_iff in Hn as ([] & H1 & H2). rewrite try_for_each_ok_iff, Forall_forall in H2. by apply names_ascii_of. }
  clear Hn. induction (entities m) as [|e l IH]; [done|]. cbn. apply also_some; [|intros _; apply IH; set_solver]. unfold admit_rules.
  pose proof (compile_entity_spec parse_bigdecimal date_ok rfc3339 uuid_text regex_parse digest4 digest debug_list debug_option Hdigest4 e ltac:(apply Ha; set_solver)) as Hs.
  by destruct (compile_entity _ _ _ _ _ _ _ _ _ e) as [r|[]].
Qed.

(** [C37] Everything an installation relies on is decided before it starts: validating a
    manifest always answers, and for a manifest that is accepted the names of the app, of
    its entities and of their fields are identifiers that the database does not truncate,
    the app's name is none of the platform's schemas and no two entities share a name; the
    tables can be installed over whatever schema is there without a panic; the rules of
    every entity compile; the owner chain of every entity resolves, each resolver on it
    with a name that fits; and the sharing of every table it concerns can be declared. *)
Theorem validated_manifest_installs m : validate_manifest m ≠ None ∧ (validate_manifest m = Some (Ok tt) →
  (let names := app_id (mf_contract m) :: mjoin (map (λ e, entity_name e :: map fname (entity_fields e)) (entities m)) in
   Forall (λ n, str_forall is_ascii n = true ∧ 0 < String.length n ≤ MAX_IDENT_BYTES) names) ∧ app_id (mf_contract m) ∉ RESERVED_SCHEMAS ∧ starts_with "pg_" (app_id (mf_contract m)) = false ∧ NoDup (map entity_name (entities m)) ∧
  (∀ (C : Catalog) app s, (installing app (entities m) s).2 ≠ Err SchemaTables.Panicked) ∧
  (∀ e, e ∈ entities m → ∃ r, compile e = Ok r) ∧
  (∀ e, e ∈ entities m → ∃ c, owner_chain (app_id (mf_contract m)) (entity_name e) (owner_map (entities m)) = Some (Ok c) ∧ (c = [] ↔ owner_field e = None)
    ∧ Forall (λ ec, fits_ident_limit (owner_resolver_name (app_id (mf_contract m)) ec.1) = true) (tail c)) ∧
  (∀ e ct, e ∈ entities m → is_target (mf_contract m) e = true → (∀ c, is_Some (ct (entity_name e) c)) → ∃ r ty, declare_select ct (mf_contract m) (entity_name e) (owner_map (entities m)) = Ok (r, ty))).
Proof.
  split; [apply validate_total|]. intros Hv%validate_valid. split_and!.
  - apply Forall_forall. intros n [->|(l & Hn & Hl)%list_elem_of_join]%elem_of_cons; [by eapply new_ident_fits, va_app|]. apply list_elem_of_fmap in Hl as (e & -> & He). destruct (va_names m Hv e He) as [Hne Hf].
    apply elem_of_cons in Hn as [->|Hn]; [by eapply new_ident_fits|]. apply list_elem_of_fmap in Hn as (f & -> & Hin). by eapply new_ident_fits, Hf.
  - pose proof (va_reserved m Hv) as Hr. apply orb_false_iff in Hr as [Hr _]. by apply bool_decide_eq_false in Hr.
  - pose proof (va_reserved m Hv) as Hr. by apply orb_false_iff in Hr as [_ Hr].
  - pose proof (va_entities m Hv) as He. unfold validate_entities in He. apply bind_ok_iff in He as (u & He%ensure_ok_iff & _). by apply bool_decide_eq_true in He.
  - intros C app s. apply install_no_panic. intros e f He Hf. by apply (va_types m Hv e f).
  - apply Hv.
  - intros e He. exact (proj2 (accepted_ownership_reconciles _ (va_entities m Hv)) (va_chains m Hv) e He).
  - intros e ct He Ht Hct. by apply sharing_declared; [apply Hv|apply Hv|..].
Qed.
End Validate.

(** ** The life of an app *)

(** Everything but the presentation of a manifest. *)
Definition PRESENTATION : list string := ["name"; "version"; "description"; "icon"].
Definition governed (object : list (string * JsonValue)) : list (string * JsonValue) := List.filter (λ kv, negb (bool_decide (kv.1 ∈ PRESENTATION))) object.
Definition same_governance_contract (previous next : JsonValue) : bool :=
  match as_object previous, as_object next with Some p, Some n => bool_decide (governed p = governed n) | _, _ => false end.

Fixpoint andThen {S A B : Type} (p : Proc S A) (k : A → Proc S B) : Proc S B :=
  match p with
  | Stop a => k a
  | Step f => Step (λ x, let '(x', p') := f x in (x', andThen p' k))
  end.
Definition andOk {S A B : Type} (p : Proc S (result RuntimeError A)) (k : A → Proc S (result RuntimeError B)) : Proc S (result RuntimeError B) :=
  andThen p (λ r, match r with Ok a => k a | Err e => Stop (Err e) end).
Lemma runs_andThen {S A B : Type} (step : S → S → Prop) (p : Proc S A) (k : A → Proc S B) x x' b : runs step (andThen p k) x x' b → ∃ a x1, runs step p x x1 a ∧ runs step (k a) x1 x' b.
Proof.
  revert x. induction p as [a|f IH] using proc_ind; intros x Hr; cbn [andThen] in Hr; [exists a, x; split; [by constructor|done]|].
  inversion Hr as [|g y x1 x2 p y' r H1 H2 H3]; subst. destruct (f x1) as [x3 p3] eqn:E. injection H2 as -> <-. specialize (IH x1). rewrite E in IH. destruct (IH _ H3) as (a & x4 & Ha & Hk).
  exists a, x4. split; [by econstructor|done].
Qed.

(** What becomes of a transaction: it commits, it is refused or broken off and nothing of it
    stays, or it commits and the answer is lost. *)
Inductive TxFate := Commits | Refused (e : RuntimeError) | Lost (e : RuntimeError).
Definition tx_error (t : TxFate) : option RuntimeError := match t with Commits => None | Refused e | Lost e => Some e end.
(** What the steps of an installation come to: the answers of the database, of an extension
    or of a service to those about other tables, of which one that has nothing to do is
    [Ok], and the fates of the transactions. *)
Record Outcomes := {
  o_lock : result RuntimeError unit; o_preflight : result RuntimeError unit; o_load : result RuntimeError unit; o_changed : TxFate; o_active : result RuntimeError unit; o_deactivated : TxFate;
  o_tables : result RuntimeError unit; o_registered : TxFate; o_extensions : result RuntimeError unit; o_keys : result RuntimeError unit; o_crons : result RuntimeError unit;
  o_webhooks : result RuntimeError unit; o_actions : result RuntimeError unit; o_installed : result RuntimeError unit; o_permissions : result RuntimeError unit; o_activated : TxFate }.

Section Lifecycle.
Context (value_of : string → JsonValue).
Definition with_apps (f : gmap string AppRow → gmap string AppRow) (y : Sys) : Sys :=
  {| sgov := sgov y; app_installations := app_installations y; apps := f (apps y); cross_app_collection_grants := cross_app_collection_grants y; publications := publications y;
     public_principals := public_principals y; action_approvals := action_approvals y; backend_releases := backend_releases y |}.
Definition set_base (y : Sys) (x : XState) : XState := {| base := y; installations := installations x; grants := grants x; history := history x |}.
Definition register_app (app text : string) (x : XState) : XState * result RuntimeError unit :=
  (set_base (with_apps (λ m, <[app := {| a_status := match m !! app with Some r => a_status r | None => "installed" end; a_manifest := text |}]> m) (base x)) x, Ok tt).
Definition load_manifest_json (app : string) (x : XState) : option string := a_manifest <$> apps (base x) !! app.
(** The transaction of a manifest that differs: the release is another, and what was
    approved of the app no longer is. *)
Definition revise (app : string) (revision : uuid) (y : Sys) : Sys :=
  {| sgov := sgov y; app_installations := app_installations y; apps := apps y; cross_app_collection_grants := cross_app_collection_grants y; publications := publications y;
     public_principals := public_principals y; action_approvals := action_approvals y;
     backend_releases := map (λ b, if bool_decide (br_app_id b = app) then {| br_app_id := br_app_id b; br_revision := revision; br_digest := br_digest b |} else b) (backend_releases y) |}.
Definition manifest_changed (app : string) (revision : uuid) (x : XState) : XState * result RuntimeError unit := (set_base (revoke_app app (revise app revision (base x))) x, Ok tt).
Definition changed (previous : option string) (text : string) : bool := match previous with Some p => negb (bool_decide (value_of p = value_of text)) | None => false end.
Definition rotated (previous : option string) (text : string) : bool := match previous with Some p => negb (same_governance_contract (value_of p) (value_of text)) | None => false end.
Definition runtime {A : Type} (r : result ApiError A) : result RuntimeError A := map_err (λ _, Ident.Schema "cross-app grants") r.
Definition answers (r : result RuntimeError unit) : XProc (result RuntimeError unit) := query (λ _, r).

Definition settle {A : Type} (t : TxFate) (f : XState → XState * result RuntimeError A) : XProc (result RuntimeError A) :=
  atomic (match t with Commits => f | Refused e => λ x, (x, Err e) | Lost e => λ x, ((f x).1, Err e) end).
Definition deactivation (app : string) (actor : option uuid) (reason : string) (x : XState) : XState * result RuntimeError unit :=
  let '(x', r) := deactivate_installation_tx app actor reason x in (x', runtime r).

(** The steps after the old authority is revoked. *)
Definition install_body (app text : string) (installation : uuid) (o : Outcomes) : XProc (result RuntimeError unit) :=
  andOk (answers (o_tables o)) (λ _,
  andOk (settle (o_registered o) (register_app app text)) (λ _,
  andOk (answers (o_extensions o)) (λ _,
  andOk (answers (o_keys o)) (λ _,
  andOk (answers (o_crons o)) (λ _,
  andOk (answers (o_webhooks o)) (λ _,
  andOk (answers (o_actions o)) (λ _,
  andOk (answers (o_installed o)) (λ _,
  andOk (answers (o_permissions o)) (λ _,
  andOk (settle (o_activated o) (register_installation_tx app installation)) (λ _, Stop (Ok tt))))))))))).
Definition REVOKED : string := "installation failed; previous cross-app authority remains revoked; reinstall successfully and obtain new grant approvals: ".
(** [validated]: what [validate_manifest] answered; [text]: the manifest as stored. *)
Definition install_app (validated : result RuntimeError unit) (app text : string) (user revision installation : uuid) (o : Outcomes) : XProc (result RuntimeError unit) :=
  match validated with
  | Err e => Stop (Err e)
  | Ok _ =>
      andOk (answers (o_lock o)) (λ _,
      andOk (answers (o_preflight o)) (λ _,
      andOk (answers (o_load o)) (λ _,
      andThen (query (load_manifest_json app)) (λ previous,
      andOk (if changed previous text then settle (o_changed o) (manifest_changed app revision) else Stop (Ok tt)) (λ _,
      andOk (if negb (rotated previous text) && changed previous text then answers (o_active o) else Stop (Ok tt)) (λ _,
      andThen (if negb (rotated previous text) && changed previous text then query (λ x, bool_decide (is_Some (active_of app x))) else Stop false) (λ cosmetic,
      if cosmetic then settle (o_registered o) (register_app app text)
      else
        andOk (if rotated previous text then settle (o_deactivated o) (deactivation app (Some user) "application manifest updated") else Stop (Ok tt)) (λ _,
        andThen (install_body app text installation o) (λ r,
        Stop (match r with Err e => if rotated previous text then Err (RuntimeConflict (REVOKED +:+ runtime_error_text e)) else Err e | Ok _ => Ok tt end))))))))))
  end.
Record Removals := { r_lock : result RuntimeError unit; r_revoked : TxFate; r_crons : result RuntimeError unit; r_rest : result RuntimeError unit; r_gone : TxFate }.
Definition uninstall_app (app : string) (actor : option uuid) (o : Removals) : XProc (result RuntimeError unit) :=
  andOk (answers (r_lock o)) (λ _,
  andOk (settle (r_revoked o) (deactivation app actor "application uninstalled")) (λ _,
  andOk (answers (r_crons o)) (λ _,
  andOk (answers (r_rest o)) (λ _,
  settle (r_gone o) (λ x, (set_base (with_apps (delete app) (base x)) x, Ok tt)))))).

(** *** Old authority ends with a changed contract *)

Context `{!Parsers} (parse_manifest : string → option AppManifest).
Notation xstep := (xstep parse_manifest).
(** What else may happen while it runs: any of these steps, or fewer. *)
Context (env : XState → XState → Prop) (Henv : ∀ x y, env x y → xstep x y).
Notation runs := (runs env).
Lemma env_steps x y : rtc env x y → rtc xstep x y.
Proof. induction 1 as [|x y z Hs _ IH]; [done|]. eapply rtc_l; [by apply Henv|done]. Qed.
Lemma runs_stop {A : Type} (a : A) x x' r : runs (Stop a) x x' r → r = a ∧ rtc xstep x x'.
Proof. intros Hr. inversion Hr; subst. split; [done|by apply env_steps]. Qed.
Lemma runs_andOk {A B : Type} (p : XProc (result RuntimeError A)) (k : A → XProc (result RuntimeError B)) x x' r : runs (andOk p k) x x' r →
  ∃ a x1, runs p x x1 a ∧ match a with Ok v => runs (k v) x1 x' r | Err e => r = Err e ∧ rtc xstep x1 x' end.
Proof. unfold andOk. intros (a & x1 & H1 & H2)%runs_andThen. exists a, x1. split; [done|]. destruct a; [done|]. by apply runs_stop. Qed.
Lemma world_step y x : clock (sgov y) = now x → rtc xstep x (set_base y x).
Proof. intros Hc. apply rtc_once, xs_world. lia. Qed.
Lemma register_app_step app text x : rtc xstep x (register_app app text x).1.
Proof. by apply world_step. Qed.
Lemma manifest_changed_step app rev x : rtc xstep x (manifest_changed app rev x).1.
Proof. by apply world_step. Qed.
Lemma runs_atomic_steps {A : Type} (f : XState → XState * A) x x' r : (∀ y, rtc xstep y (f y).1) → runs (atomic f) x x' r → ∃ y, rtc xstep x y ∧ (f y).2 = r ∧ rtc xstep (f y).1 x' ∧ rtc xstep y x'.
Proof. intros Hf (y & H1%env_steps & H2 & H3%env_steps)%runs_atomic. exists y. split_and!; try done. etrans; [apply Hf|done]. Qed.
Lemma deactivation_fst app actor reason x : (deactivation app actor reason x).1 = (deactivate_installation_tx app actor reason x).1.
Proof. unfold deactivation. by destruct (deactivate_installation_tx _ _ _ _). Qed.
Lemma deactivation_step app actor reason x : rtc xstep x (deactivation app actor reason x).1.
Proof. rewrite deactivation_fst. apply rtc_once. exact (xs_tx parse_manifest (TDeactivate app actor reason) x). Qed.
Lemma register_step app id x : rtc xstep x (register_installation_tx app id x).1.
Proof. apply rtc_once. exact (xs_tx parse_manifest (TRegister app id) x). Qed.
Lemma answers_steps r0 x x' r : runs (answers r0) x x' r → r = r0 ∧ rtc env x x'.
Proof. intros (y & H1 & H2 & H3)%runs_query. split; [done|]. by etrans. Qed.
(** The grants an app has part in are at their end, and stay so. *)
Definition authority_ended (app : string) (x x' : XState) : Prop :=
  ∀ id g, grants x !! id = Some g → g_consumer_app (grant g) = app ∨ g_provider_app (grant g) = app →
    (∃ h, grants x' !! id = Some h ∧ same_terms g h ∧ is_live h = false) ∧
    ∀ x2 a, rtc xstep x' x2 → ar_grant_id a = id → lock_cross_app_read_in_tx (view x2) a ≠ Ok tt.
Lemma involved app x id g : Core x → grants x !! id = Some g → g_consumer_app (grant g) = app ∨ g_provider_app (grant g) = app → involves app x g = true.
Proof.
  intros HC Hg Hor. destruct (c_refers x HC id g Hg) as [(r1 & H1 & A1 & _) (r2 & H2 & A2 & _)]. unfold involves. rewrite H1, H2. apply orb_true_iff.
  destruct Hor as [<-|<-]; [left|right]; by apply bool_decide_eq_true.
Qed.
Lemma ended_after app actor reason x y x' : Core x → Live x → rtc xstep x y → rtc xstep (deactivation app actor reason y).1 x' → authority_ended app x x'.
Proof.
  intros HC HL Hxy Hyx'. rewrite deactivation_fst in Hyx'. destruct (xsteps_inv _ _ _ Hxy HC HL) as [HCy HLy]. intros id g Hg Hor.
  destruct (xsteps_later _ _ _ Hxy HC HL id g Hg) as (h & Hh & Ht & _). assert (involves app y h = true) as Hi.
  { apply (involved app y id h HCy Hh). destruct Ht as (s & v & Eh & _). rewrite Eh. exact Hor. }
  destruct (deactivation_final _ app actor reason y x' id h HCy HLy Hyx' Hh Hi) as (_ & (k & Hk & Htk & Hl) & _). split; [exists k; split_and!; [done|by etrans|done]|].
  intros x2 a Hx2 Ha. eapply (deactivation_final _ app actor reason y x2 id h HCy HLy); [by etrans|done|done|done].
Qed.
Lemma answers_then {A : Type} a (k : unit → XProc (result RuntimeError A)) x x' r : runs (andOk (answers a) k) x x' r →
  (∃ e, a = Err e ∧ r = Err e ∧ rtc xstep x x') ∨ (∃ x1 u, a = Ok u ∧ rtc xstep x x1 ∧ rtc env x x1 ∧ runs (k u) x1 x' r).
Proof.
  intros (b & x1 & [-> Hs]%answers_steps & Hr)%runs_andOk. apply env_steps in Hs as Hs'. destruct a as [u|e]; [right; by exists x1, u|left]. destruct Hr as [-> Hr]. exists e. split_and!; [done|done|]. etrans; [exact Hs'|exact Hr].
Qed.
Lemma answers_env {A : Type} a (k : unit → XProc (result RuntimeError A)) x x' r : runs (andOk (answers a) k) x x' r →
  (∃ e, a = Err e ∧ r = Err e ∧ rtc env x x') ∨ (∃ x1 u, a = Ok u ∧ rtc env x x1 ∧ runs (k u) x1 x' r).
Proof.
  intros (b & x1 & [-> Hs]%answers_steps & Hr)%runs_andThen. destruct a as [u|e]; [right; by exists x1, u|left]. inversion Hr; subst. exists e. split_and!; [done|done|by etrans].
Qed.
Lemma atomic_then {A B : Type} (f : XState → XState * result RuntimeError A) (k : A → XProc (result RuntimeError B)) x x' r : (∀ y, rtc xstep y (f y).1) → runs (andOk (atomic f) k) x x' r →
  (∃ y e, (f y).2 = Err e ∧ r = Err e ∧ rtc xstep x y ∧ rtc xstep (f y).1 x' ∧ rtc xstep x x') ∨ (∃ y x1 v, rtc xstep x y ∧ (f y).2 = Ok v ∧ rtc xstep (f y).1 x1 ∧ runs (k v) x1 x' r).
Proof.
  intros Hf (b & x1 & (y & H1 & H2 & H3 & H4)%(runs_atomic_steps _ _ _ _ Hf) & Hr)%runs_andOk. destruct b as [v|e]; [right; by exists y, x1, v|left].
  destruct Hr as [-> Hr]. exists y, e. split_and!; try done; [by etrans|]. etrans; [exact H1|]. by etrans.
Qed.
(** A transaction that went wrong ends the run, with nothing or all of it done. *)
Lemma settle_then {A B : Type} t (f : XState → XState * result RuntimeError A) (k : A → XProc (result RuntimeError B)) x x' r : runs (andOk (settle t f) k) x x' r →
  (∃ e y, tx_error t = Some e ∧ r = Err e ∧ rtc env x y ∧ (rtc env y x' ∨ rtc env (f y).1 x')) ∨ (t = Commits ∧ runs (andOk (atomic f) k) x x' r).
Proof.
  destruct t as [|e|e]; [by right| |]; intros (b & x1 & (y & H1 & H2 & H3)%runs_atomic & Hr)%runs_andThen; cbn in H2, H3; subst b; left; exists e, y;
    inversion Hr; subst; (split_and!; [done|done|done|]); [left|right]; by etrans.
Qed.
Lemma settle_steps {A : Type} t (f : XState → XState * result RuntimeError A) x x' r : (∀ y, rtc xstep y (f y).1) → runs (settle t f) x x' r →
  ∃ y, rtc xstep x y ∧ rtc xstep y x' ∧ ((∃ e, r = Err e) ∨ (f y).2 = r ∧ rtc xstep (f y).1 x').
Proof.
  intros Hf (y & H1%env_steps & H2 & H3%env_steps)%runs_atomic. exists y. destruct t as [|e|e]; cbn in H2, H3; subst r; split_and!; try done; [etrans; [apply Hf|done]|by right|eauto|etrans; [apply Hf|done]|eauto].
Qed.
Lemma settle_then_steps {A B : Type} t (f : XState → XState * result RuntimeError A) (k : A → XProc (result RuntimeError B)) x x' r : (∀ y, rtc xstep y (f y).1) → runs (andOk (settle t f) k) x x' r →
  (∃ e, r = Err e ∧ rtc xstep x x') ∨ (∃ y x1 v, rtc xstep x y ∧ (f y).2 = Ok v ∧ rtc xstep (f y).1 x1 ∧ runs (k v) x1 x' r).
Proof.
  intros Hf [(e & y & _ & -> & H1%env_steps & [H2%env_steps|H2%env_steps])|[_ [(y & e & _ & -> & _ & _ & ?)|?]%atomic_then]]%settle_then; [left; exists e; split; [done|]; by etrans| |by left; exists e|by right|done].
  left. exists e. split; [done|]. etrans; [exact H1|]. etrans; [apply Hf|done].
Qed.
Lemma registered_active app id x v : (register_installation_tx app id x).2 = Ok v → is_Some (active_of app (register_installation_tx app id x).1).
Proof.
  unfold register_installation_tx. destruct (active_of app x) as [[f r]|] eqn:Ha; [intros _; cbn; rewrite Ha; by eexists|]. destruct (installations x !! id); [done|]. intros _. cbn.
  match goal with |- is_Some (active_of app ?x') => set (x2 := x'); destruct (active_of app x2) eqn:E; [by eexists|] end. exfalso.
  pose proof (active_of_None app x2 id _ E (lookup_insert_eq _ _ _) eq_refl) as Hx. done.
Qed.
(** What the body of an installation that succeeds has done. *)
Lemma install_body_runs app text installation o x x' r : runs (install_body app text installation o) x x' r → rtc xstep x x' ∧
  (r = Ok tt → (∃ z, rtc xstep x z ∧ rtc xstep z x' ∧ load_manifest_json app z = Some text) ∧ ∃ z, rtc xstep x z ∧ rtc xstep z x' ∧ is_Some (active_of app z)).
Proof.
  unfold install_body. intros Hr. apply answers_then in Hr as [(e & _ & -> & ?)|(x1 & u1 & _ & S1 & _ & Hr)]; [by split|].
  apply settle_then_steps in Hr as [(e & -> & ?)|(y & x2 & v & S2 & _ & S3 & Hr)]; [split; [by etrans|done]| |apply register_app_step].
  assert (load_manifest_json app (register_app app text y).1 = Some text) as Hm by (unfold load_manifest_json, register_app; cbn; by rewrite lookup_insert_eq).
  set (z := (register_app app text y).1) in *. assert (rtc xstep x z) as Sz by (etrans; [exact S1|]; etrans; [exact S2|apply register_app_step]).
  assert (∀ xn, rtc xstep x2 xn → rtc xstep x xn) as Sall by (intros xn Hn; etrans; [exact Sz|]; by etrans).
  assert (∃ xn, rtc xstep x2 xn ∧ ((∃ e, r = Err e ∧ xn = x') ∨ runs (andOk (settle (o_activated o) (register_installation_tx app installation)) (λ _, Stop (Ok tt))) xn x' r)) as (xn & Sn & Hor).
  { clear Sall Sz. do 7 (apply answers_then in Hr as [(e & _ & -> & ?)|(? & ? & _ & ? & _ & Hr)]; [exists x'; split; [by repeat (etrans; [eassumption|])|left; by exists e]|]). eexists. split; [|right; exact Hr]. by repeat (etrans; [eassumption|]). }
  destruct Hor as [(e & -> & ->)|Hr']; [split; [by apply Sall|done]|]. apply settle_then_steps in Hr' as [(e & -> & ?)|(w & x3 & v3 & S4 & Hreg & S5 & Hr')]; [split; [apply Sall; by etrans|done]| |apply register_step].
  apply registered_active in Hreg. apply runs_stop in Hr' as [-> S6]. set (w' := (register_installation_tx app installation w).1) in *.
  assert (rtc xstep x2 w') as Sw by (etrans; [exact Sn|]; etrans; [exact S4|apply register_step]). assert (rtc xstep w' x') as Sw' by (by etrans).
  split; [apply Sall; by etrans|]. intros _. split; [exists z|exists w']; split_and!; try done; [etrans; [exact S3|]; by etrans|by apply Sall].
Qed.
Definition approvals_revoked (app : string) (x : XState) : Prop := ∀ a, a ∈ action_approvals (base x) → aa_app_id a = app → aa_revoked a = true.
Lemma manifest_changed_revokes app rev x : approvals_revoked app (manifest_changed app rev x).1.
Proof.
  intros a Ha Happ. cbn in Ha. apply list_elem_of_fmap in Ha as (b & -> & _). unfold revoke_approval in *. destruct (bool_decide (aa_app_id b = app)) eqn:Hb; [done|]. by apply bool_decide_eq_false in Hb.
Qed.

(** [install_app] from where it knows whether the manifest changed. *)
Definition install_rest (app text : string) (user installation : uuid) (o : Outcomes) (rot ch : bool) : XProc (result RuntimeError unit) :=
  andOk (if negb rot && ch then answers (o_active o) else Stop (Ok tt)) (λ _,
  andThen (if negb rot && ch then query (λ x, bool_decide (is_Some (active_of app x))) else Stop false) (λ cosmetic,
  if cosmetic then settle (o_registered o) (register_app app text)
  else andOk (if rot then settle (o_deactivated o) (deactivation app (Some user) "application manifest updated") else Stop (Ok tt)) (λ _,
    andThen (install_body app text installation o) (λ r, Stop (match r with Err e => if rot then Err (RuntimeConflict (REVOKED +:+ runtime_error_text e)) else Err e | Ok _ => Ok tt end))))).
Definition installed_by_then (app text : string) (x x' : XState) : Prop :=
  (∃ z, rtc xstep x z ∧ rtc xstep z x' ∧ load_manifest_json app z = Some text) ∧ ∃ z, rtc xstep x z ∧ rtc xstep z x' ∧ is_Some (active_of app z).
Lemma installed_before app text x y x' : rtc xstep x y → installed_by_then app text y x' → installed_by_then app text x x'.
Proof. intros Hxy [(z & H1 & H2 & H3) (w & H4 & H5 & H6)]. split; [exists z|exists w]; split_and!; try done; by etrans. Qed.
Lemma body_stop app text installation o rot x x' r : runs (andThen (install_body app text installation o) (λ r, Stop (match r with Err e => if (rot : bool) then Err (RuntimeConflict (REVOKED +:+ runtime_error_text e)) else Err e | Ok _ => Ok tt end))) x x' r →
  rtc xstep x x' ∧ (r = Ok tt → installed_by_then app text x x').
Proof.
  intros (b & x1 & Hb & Hr)%runs_andThen. apply install_body_runs in Hb as [S1 Hok]. apply runs_stop in Hr as [-> S2]. split; [by etrans|]. destruct b as [[]|e]; [intros _|by destruct rot].
  destruct (Hok eq_refl) as [(z & Z1 & Z2 & Z3) (w & W1 & W2 & W3)]. split; [exists z|exists w]; split_and!; try done; by etrans.
Qed.
Lemma rest_head app o rot ch x x' (k : bool → XProc (result RuntimeError unit)) r :
  runs (andOk (if negb rot && ch then answers (o_active o) else Stop (Ok tt)) (λ _, andThen (if negb rot && ch then query (λ x, bool_decide (is_Some (active_of app x))) else Stop false) k)) x x' r →
  (∃ e, r = Err e ∧ rot = false ∧ rtc xstep x x') ∨
  ∃ cosmetic x1, rtc env x x1 ∧ runs (k cosmetic) x1 x' r ∧ (cosmetic = true → rot = false ∧ ∃ z, rtc xstep x z ∧ rtc xstep z x1 ∧ is_Some (active_of app z)).
Proof.
  destruct rot, ch; cbn [negb andb].
  1,2,4: intros Hr; right; by exists false, x.
  intros [(e & _ & -> & Hs)|(x1 & u & _ & S1 & E1 & Hr)]%answers_then; [left; by exists e|right].
  apply runs_andThen in Hr as (c & x2 & (z & H1 & H2 & H3)%runs_query & Hr). exists c, x2. split_and!; [etrans; [exact E1|]; by etrans|done|]. intros ->. split; [done|]. exists z.
  apply bool_decide_eq_true in H2. split_and!; [|by apply env_steps|done]. etrans; [exact S1|by apply env_steps].
Qed.
(** Nothing of an installation has run but the transaction that revokes approvals. *)
Definition reviewing (app : string) (revision : uuid) (x y : XState) : Prop := env x y ∨ y = (manifest_changed app revision x).1.
Lemma env_reviewing app revision x y : rtc env x y → rtc (reviewing app revision) x y.
Proof. induction 1 as [|x y z Hs _ IH]; [done|]. eapply rtc_l; [by left|done]. Qed.
Lemma install_rest_runs app text user revision installation o rot ch x x' r : runs (install_rest app text user installation o rot ch) x x' r →
  rtc xstep x x' ∧
  (rot = true → (∃ e, r = Err e ∧ tx_error (o_deactivated o) = Some e ∧ rtc (reviewing app revision) x x')
     ∨ ∃ y, rtc xstep x y ∧ rtc xstep (deactivation app (Some user) "application manifest updated" y).1 x')
  ∧ (r = Ok tt → installed_by_then app text x x').
Proof.
  unfold install_rest. intros [(e & -> & -> & S)|(cosmetic & x1 & E1 & Hr & Hcos)]%rest_head; [by split_and!|]. apply env_steps in E1 as S1. destruct cosmetic.
  - destruct (Hcos eq_refl) as [-> (z & H1 & H2 & H3)]. apply (settle_steps _ _ _ _ _ (register_app_step app text)) in Hr as (y & S2 & S4 & Hor). split_and!; [etrans; [exact S1|]; by etrans|done|]. intros ->.
    destruct Hor as [[e ?]|[_ S3]]; [done|]. split.
    + exists (register_app app text y).1. split_and!; [|done|unfold load_manifest_json, register_app; cbn; by rewrite lookup_insert_eq]. etrans; [exact S1|]. etrans; [exact S2|apply register_app_step].
    + exists z. split_and!; try done. etrans; [exact H2|]. by etrans.
  - destruct rot.
    + apply settle_then in Hr as [(e & y & Ht & -> & H1 & Hor)|[_ Hr]].
      { apply env_steps in H1 as H1'. split_and!; [|intros _|done].
        - etrans; [exact S1|]. etrans; [exact H1'|]. destruct Hor as [Hor%env_steps|Hor%env_steps]; [done|]. etrans; [apply deactivation_step|done].
        - destruct Hor as [Hor|Hor%env_steps]; [left|right; exists y; split; [by etrans|done]]. exists e. split_and!; [done|done|]. apply env_reviewing. etrans; [exact E1|]. by etrans. }
      apply atomic_then in Hr as [(y & e & _ & -> & H1 & H2 & H3)|(y & x2 & v & H1 & _ & H2 & Hr)]; [| |apply deactivation_step].
      * split_and!; [etrans; [exact S1|exact H3]|intros _; right; exists y; split; [etrans; [exact S1|exact H1]|done]|done].
      * apply (body_stop app text installation o true) in Hr as [S2 Hok]. assert (rtc xstep x x2) as Sx2 by (etrans; [exact S1|]; etrans; [exact H1|]; etrans; [apply deactivation_step|done]). split_and!; [etrans; [exact Sx2|exact S2]|intros _; right; exists y; split; [etrans; [exact S1|exact H1]|etrans; [exact H2|exact S2]]|].
        intros Hr. by apply (installed_before _ _ _ x2), Hok.
    + apply runs_andOk in Hr as (b & x2 & Hb & Hr). apply runs_stop in Hb as [-> Sb]. apply (body_stop app text installation o false) in Hr as [S2 Hok]. assert (rtc xstep x x2) by (by etrans). split_and!; [by etrans|done|]. intros Hr. by apply (installed_before _ _ _ x2), Hok.
Qed.

(** [C38] An installation changes authority in one direction only, whatever fails and
    whatever else happens meanwhile.  Refused before it has read the manifest that is
    installed, it has done nothing.  After that, if the contract differs from the one
    installed, then every grant the app had part in, as consumer or provider, has ended for
    good, also when a later step fails, unless one of the transactions that revoke failed,
    and then it stopped with that error and did nothing after it; if the manifest differs
    at all, everything approved of its actions is revoked, with the same exception; and
    when it succeeds the manifest has been stored and the app has had an active
    installation. *)
Theorem installation_revokes_first validated app text user revision installation o x x' r :
  Core x → Live x → runs (install_app validated app text user revision installation o) x x' r →
  (∃ e, r = Err e ∧ (validated = Err e ∨ o_lock o = Err e ∨ o_preflight o = Err e ∨ o_load o = Err e) ∧ rtc env x x') ∨
  ∃ y, rtc env x y ∧ rtc xstep y x' ∧
    (rotated (load_manifest_json app y) text = true →
       (∃ e, r = Err e ∧ (tx_error (o_changed o) = Some e ∨ tx_error (o_deactivated o) = Some e) ∧ rtc (reviewing app revision) y x') ∨ authority_ended app x x') ∧
    (changed (load_manifest_json app y) text = true →
       (∃ e, r = Err e ∧ tx_error (o_changed o) = Some e ∧ rtc (reviewing app revision) y x') ∨ ∃ z, rtc xstep y z ∧ rtc xstep z x' ∧ approvals_revoked app z) ∧
    (r = Ok tt → installed_by_then app text y x').
Proof.
  intros HC HL Hr. unfold install_app in Hr. destruct validated as [u|e]; [|left; inversion Hr; subst; eauto].
  apply answers_env in Hr as [(e & Ho & -> & Hs)|(x1 & u1 & _ & E1 & Hr)]; [left; eauto 6|]. apply answers_env in Hr as [(e & Ho & -> & Hs)|(x2 & u2 & _ & E2 & Hr)]; [left; exists e; split_and!; [done|tauto|by etrans]|].
  apply answers_env in Hr as [(e & Ho & -> & Hs)|(x0 & u0 & _ & E0 & Hr)]; [left; exists e; split_and!; [done|tauto|etrans; [exact E1|]; by etrans]|right].
  apply runs_andThen in Hr as (previous & x3 & (y & E3 & Hp & E4)%runs_query & Hr). rewrite <-Hp in Hr. assert (rtc env x y) as Ey by (etrans; [exact E1|]; etrans; [exact E2|]; by etrans). pose proof (env_steps _ _ Ey) as Sy. exists y. split; [done|].
  set (prev := load_manifest_json app y) in *. change (runs (andOk (if changed prev text then settle (o_changed o) (manifest_changed app revision) else Stop (Ok tt))
    (λ _, install_rest app text user installation o (rotated prev text) (changed prev text))) x3 x' r) in Hr.
  assert ((∃ e, r = Err e ∧ tx_error (o_changed o) = Some e ∧ rtc (reviewing app revision) y x') ∨ ∃ x4, rtc (reviewing app revision) y x4 ∧ rtc xstep y x4
    ∧ (changed prev text = true → ∃ z, rtc xstep y z ∧ rtc xstep z x4 ∧ approvals_revoked app z)
    ∧ runs (install_rest app text user installation o (rotated prev text) (changed prev text)) x4 x' r) as [(e & -> & He & Hrev)|(x4 & V4 & S5 & Hch & Hr')].
  { destruct (changed prev text); [|apply runs_andThen in Hr as (b & x5 & Hb & Hr); inversion Hb; subst; right; exists x5; assert (rtc env y x5) by (by etrans); split_and!; [by apply env_reviewing|by apply env_steps|done|exact Hr]].
    apply settle_then in Hr as [(e & w & He & -> & H1 & Hor)|[_ Hr]].
    - left. exists e. split_and!; [done|done|]. etrans; [apply env_reviewing; etrans; [exact E4|exact H1]|]. destruct Hor as [Hor|Hor]; [by apply env_reviewing|]. eapply rtc_l; [by right|by apply env_reviewing].
    - right. apply runs_andThen in Hr as (b & x5 & (w & H1 & <- & H3)%runs_atomic & Hr). exists x5. apply env_steps in E4 as S4, H1 as S1, H3 as S3.
      assert (rtc xstep y (manifest_changed app revision w).1) as Sw by (etrans; [exact S4|]; etrans; [exact S1|apply manifest_changed_step]).
      split_and!; [|by etrans| |exact Hr].
      + etrans; [apply env_reviewing; etrans; [exact E4|exact H1]|]. eapply rtc_l; [by right|by apply env_reviewing].
      + intros _. exists (manifest_changed app revision w).1. split_and!; [done|done|apply manifest_changed_revokes]. }
  - assert (rtc xstep y x') as Syx. { clear -Hrev Henv. induction Hrev as [|a b c Hab _ IH]; [done|]. destruct Hab as [Hab| ->]; [eapply rtc_l; [by apply Henv|done]|]. etrans; [apply manifest_changed_step|done]. }
    split_and!; [done|intros _; left; eauto|intros _; left; eauto|done].
  - apply (install_rest_runs app text user revision) in Hr' as (S6 & Hrot & Hok). split_and!.
    + by etrans.
    + intros Hro. destruct (Hrot Hro) as [(e & -> & He & Hrev)|(w & H1 & H2)]; [left; exists e; split_and!; [done|by right|by etrans]|right]. eapply ended_after; [done|done| |exact H2]. etrans; [exact Sy|]. by etrans.
    + intros Hc. right. destruct (Hch Hc) as (z & H1 & H2 & H3). exists z. split_and!; try done. by etrans.
    + intros Hr'. by apply (installed_before _ _ _ x4), Hok.
Qed.
(** Removing an app ends its authority before anything is cleaned up. *)
Lemma uninstall_revokes_first app actor o x x' r : Core x → Live x → runs (uninstall_app app actor o) x x' r →
  (∃ e, r = Err e ∧ (r_lock o = Err e ∨ tx_error (r_revoked o) = Some e) ∧ rtc env x x') ∨ authority_ended app x x'.
Proof.
  intros HC HL Hr. unfold uninstall_app in Hr. apply answers_env in Hr as [(e & Ho & -> & Hs)|(x1 & u1 & _ & E1 & Hr)]; [left; exists e; tauto|]. apply env_steps in E1 as S1.
  apply settle_then in Hr as [(e & y & He & -> & H1 & [H2|H2])|[_ Hr]].
  - left. exists e. split_and!; [done|by right|etrans; [exact E1|]; by etrans].
  - right. eapply ended_after; [done|done| |by apply env_steps]. etrans; [exact S1|by apply env_steps].
  - right. apply (atomic_then (deactivation app actor "application uninstalled")) in Hr as [(y & e & _ & _ & H1 & H2 & _)|(y & x2 & v & H1 & _ & H2 & Hr)]; [| |apply deactivation_step].
    + eapply ended_after; [done|done| |exact H2]. by etrans.
    + eapply ended_after; [done|done|etrans; [exact S1|exact H1]|]. etrans; [exact H2|].
      apply answers_then in Hr as [(e & _ & _ & ?)|(x3 & u3 & _ & S3 & _ & Hr)]; [done|]. apply answers_then in Hr as [(e & _ & _ & ?)|(x4 & u4 & _ & S4 & _ & Hr)]; [by etrans|].
      apply settle_steps in Hr as (z & Z1 & Z2 & _); [|intros z; by apply world_step]. etrans; [exact S3|]. etrans; [exact S4|]. by etrans.
Qed.
End Lifecycle.

Module ManifestExamples.
#[local] Existing Instance RecordExamples.toy_parsers.
Definition office : Manifest :=
  {| mf_contract := SharingExamples.office; mf_permissions := ["files.print"]; mf_actions := [{| act_id := "tidy"; act_name := "Tidy"; act_authority := Some [("files", [OpRead; OpDelete])] |}]; mf_public := None |}.
Definition demo_validate : Manifest → Check := validate_manifest (λ _, EmptyString) demo_date demo_id demo_id demo_regex_parse (λ _, "deadbeef") (λ _, "0") (join ",") (default "").
Lemma validated_manifest_installs_witness : demo_validate office = Some (Ok tt) ∧ ∃ r ty, declare_select (λ _ _, Some "uuid") SharingExamples.office "files" (owner_map (entities office)) = Ok (r, ty).
Proof.
  assert (demo_validate office = Some (Ok tt)) as Hv by (vm_compute; reflexivity). split; [exact Hv|].
  destruct (validated_manifest_installs (λ _, EmptyString) demo_date demo_id demo_id demo_regex_parse (λ _, "deadbeef") (λ _, "0") (join ",") (default "") (λ _, EmptyString) (λ _, eq_refl) office) as [_ Hi].
  destruct (Hi Hv) as (_ & _ & _ & _ & _ & _ & _ & Hs). apply (Hs SharingExamples.files).
  - apply elem_of_cons. right. apply elem_of_cons. left. reflexivity.
  - vm_compute. reflexivity.
  - intros c. eexists. reflexivity.
Defined.
Definition entity_derived (name : string) (from : option string) (e : EntityContract) : EntityContract :=
  {| entity_name := name; entity_fields := entity_fields e; share := share e; entity_indexes := entity_indexes e; entity_checks := entity_checks e; derived_from := from; identity_kind := identity_kind e;
     identity_key := identity_key e; entity_unknown := entity_unknown e |}.
Definition with_entity (e : EntityContract) : Manifest :=
  {| mf_contract := {| app_id := "crm"; data_contract := data_contract SharingExamples.office ++ [e] |}; mf_permissions := []; mf_actions := []; mf_public := None |}.
Example derived_entities_are_refused :
  (demo_validate (with_entity (entity_derived "totals" (Some "nothing") (SharingExamples.ent "totals" [SharingExamples.field "n" "number" false None] None))),
   demo_validate (with_entity (entity_derived "totals" (Some "files") (SharingExamples.ent "totals" [SharingExamples.field "n" "number" false None] None))),
   demo_validate (with_entity (entity_derived "totals" (Some "files") (SharingExamples.ent "totals" [SharingExamples.field "created_at" "date" false None] None))))
  = (Some (Err (Invalid "derived entity 'totals' is derived from 'nothing', which must be an ordinary entity of this app")), Some (Ok tt),
     Some (Err (Invalid "derived entity 'totals' cannot declare 'created_at': it has no system columns"))).
Proof. vm_compute. reflexivity. Qed.

(** An update of an app whose table cannot be changed: its grant is gone all the same. *)
Definition value_of (s : string) : JsonValue := JObject [("dataContract", JString s)].
Definition fails : Outcomes :=
  {| o_lock := Ok tt; o_preflight := Ok tt; o_load := Ok tt; o_changed := Commits; o_active := Ok tt; o_deactivated := Commits; o_tables := Err (Ident.Schema "disk full"); o_registered := Commits;
     o_extensions := Ok tt; o_keys := Ok tt; o_crons := Ok tt; o_webhooks := Ok tt; o_actions := Ok tt; o_installed := Ok tt; o_permissions := Ok tt; o_activated := Commits |}.
Definition updating : XProc (result RuntimeError unit) := install_app value_of (Ok tt) "crm" "crm2" "root" "r2" "i3" fails.
Definition alone (x y : XState) : Prop := False.
Lemma alone_steps x y : alone x y → xstep CrossAppExamples.parse x y.
Proof. intros []. Qed.
Lemma installation_revokes_first_witness : ∃ x e, exec 20 updating CrossAppExamples.x_active = Some (x, Err (RuntimeConflict e)) ∧ authority_ended CrossAppExamples.parse "crm" CrossAppExamples.x_active x.
Proof.
  destruct (xsteps_inv CrossAppExamples.parse _ _ CrossAppExamples.steps_active (proj1 (start_inv CrossAppExamples.y0)) (proj2 (start_inv CrossAppExamples.y0))) as [HC HL].
  destruct (exec 20 updating CrossAppExamples.x_active) as [[x r]|] eqn:E; [|exfalso; apply (f_equal (λ o, match o with Some _ => true | None => false end)) in E; vm_compute in E; discriminate E].
  assert (r = Err (RuntimeConflict (REVOKED +:+ runtime_error_text (Ident.Schema "disk full")))) as ->.
  { apply (f_equal (fmap snd)) in E. cbn [fmap option_fmap option_map snd] in E. vm_compute in E. injection E as <-. vm_compute. reflexivity. }
  exists x. eexists. split; [reflexivity|].
  destruct (installation_revokes_first value_of CrossAppExamples.parse alone alone_steps (Ok tt) "crm" "crm2" "root" "r2" "i3" fails CrossAppExamples.x_active x _ HC HL
    (exec_runs alone 20 updating CrossAppExamples.x_active x _ E)) as [(e & He & [Hn|[Hn|[Hn|Hn]]] & _)|(y & Hy & _ & Hend & _)]; [discriminate Hn..|].
  destruct Hend as [(e & _ & [Hn|Hn] & _)|Hend]; [|discriminate Hn..|exact Hend].
  assert (y = CrossAppExamples.x_active) as -> by (destruct Hy as [|? ? ? []]; reflexivity). vm_compute. reflexivity.
Defined.
End ManifestExamples.
