(* ===== verification/LargeObjects.v ===== *)
(** * Large objects (extensions/storage/large_object.rs)

    Files are large objects of PostgreSQL, written and read in pieces within a transaction.
    Every statement may be refused, and moves as many of its bytes as the database likes. *)

From stdpp Require Import base numbers gmap strings list pretty.
From Stdlib Require Import Init.Byte.
From S2P Require Import Prelude Authority Ident.

(** ** Transactions *)

(** What the database makes of a transaction: whether it refuses its [n]-th statement, how
    many bytes that one moves at most, and whether a commit that is not confirmed took
    place all the same. *)
Record SqlError := { sql_code : string; sql_message : string; sql_rule : option ApiError }.
Record Fate := { refused : nat → option SqlError; moved : nat → option nat; lost : bool }.
Definition Tx (S E A : Type) : Type := Fate → nat → S → result E (A * nat * S).
Section Transactions.
Context {S E : Type}.
Definition ret {A : Type} (a : A) : Tx S E A := λ _ n s, Ok (a, n, s).
Definition fail {A : Type} (e : E) : Tx S E A := λ _ _ _, Err e.
Definition bindT {A B : Type} (m : Tx S E A) (k : A → Tx S E B) : Tx S E B := λ fate n s, let? '(a, n', s') := m fate n s in k a fate n' s'.
Definition guardT (c : bool) (e : E) : Tx S E unit := if c then ret tt else fail e.
(** A statement: [f] is given how many bytes it may move. *)
Definition stmt {A : Type} (wrap : SqlError → E) (f : option nat → S → result E (A * S)) : Tx S E A := λ fate n s,
  match refused fate n with Some e => Err (wrap e) | None => let? '(a, s') := f (moved fate n) s in Ok (a, Datatypes.S n, s') end.
Lemma bindT_ok {A B : Type} (m : Tx S E A) (k : A → Tx S E B) fate n s r : bindT m k fate n s = Ok r ↔ ∃ a n' s', m fate n s = Ok (a, n', s') ∧ k a fate n' s' = Ok r.
Proof.
  unfold bindT. rewrite bind_ok_iff. split; [intros ([[a n'] s'] & H1 & H2); eauto|]. intros (a & n' & s' & H1 & H2). by exists (a, n', s').
Qed.
Lemma stmt_ok {A : Type} wrap (f : option nat → S → result E (A * S)) fate n s a n' s' : stmt wrap f fate n s = Ok (a, n', s') → n' = Datatypes.S n ∧ f (moved fate n) s = Ok (a, s').
Proof. unfold stmt. destruct (refused fate n); [done|]. intros ([b s1] & H1 & H2)%bind_ok_iff. by simplify_eq. Qed.
Lemma guardT_ok c e fate n s u n' s' : guardT c e fate n s = Ok (u, n', s') → c = true ∧ n' = n ∧ s' = s.
Proof. unfold guardT. destruct c; [by intros [= _ <- <-]|done]. Qed.
End Transactions.
Notation "'let!' x := m 'in' k" := (bindT m (fun x => k)) (at level 10, x name, m at level 100, k at level 200).
Notation "'let!' ' p := m 'in' k" := (bindT m (fun p => k)) (at level 10, p strict pattern, m at level 100, k at level 200).
Notation "'do!' m 'in' k" := (bindT m (fun _ => k)) (at level 10, m at level 100, k at level 200).
(** A transaction on part of a state, with errors of another type. *)
Definition within {S T E F A : Type} (get : T → S) (put : S → T → T) (conv : E → F) (m : Tx S E A) : Tx T F A := λ fate n t,
  match m fate n (get t) with Ok (a, n', s) => Ok (a, n', put s t) | Err e => Err (conv e) end.
(** What is left of it: everything if it is committed, else nothing. *)
Definition in_tx {S E A : Type} (wrap : SqlError → E) (m : Tx S E A) (fate : Fate) (s : S) : S * result E A :=
  match m fate 0 s with
  | Err e => (s, Err e)
  | Ok (a, n, s') => match refused fate n with None => (s', Ok a) | Some e => (if lost fate then s' else s, Err (wrap e)) end
  end.
Lemma tx_leaves {S E A : Type} wrap (m : Tx S E A) fate s s' r : in_tx wrap m fate s = (s', r) →
  (s' = s ∧ ∃ e, r = Err e) ∨ ∃ a n, m fate 0 s = Ok (a, n, s') ∧ (r = Ok a ∨ ∃ e, r = Err e).
Proof.
  unfold in_tx. destruct (m fate 0 s) as [[[a n] s1]|e]; [|intros [= <- <-]; left; eauto]. destruct (refused fate n); [|intros [= <- <-]; right; eauto]. destruct (lost fate); intros [= <- <-]; [right|left]; eauto 6.
Qed.
(** A database that refuses nothing and moves everything. *)
Definition willing : Fate := {| refused _ := None; moved _ := None; lost := false |}.

(** ** The functions of PostgreSQL *)

Notation bytes := (list byte).
Notation Objects := (gmap N bytes).
Definition len (b : bytes) : Z := Z.of_nat (length b).
Definition i64 (z : Z) : Z := ((z + 2 ^ 63) `mod` 2 ^ 64 - 2 ^ 63)%Z.
Definition MAX_OBJECT : Z := (2147483647 * 2048)%Z.
(** An open descriptor: the object and the position in it. *)
Record Fd := { fd_oid : N; fd_pos : Z }.
Definition schema_error (e : SqlError) : RuntimeError := Ident.Schema (sql_message e).
Definition protocol_error (message : string) : RuntimeError := Ident.Schema message.
Notation LTx := (Tx Objects RuntimeError).
Definition lo (A : Type) (f : option nat → Objects → result RuntimeError (A * Objects)) : LTx A := stmt schema_error f.
Arguments lo {A} f.
Definition cut (k : option nat) (b : bytes) : bytes := match k with Some k => take k b | None => b end.
(** The server chooses an object identifier nothing has. *)
Definition lo_create (oid : N) : LTx N := lo (λ _ o, if decide (is_Some (o !! oid)) then Err (Ident.Schema "duplicate object") else Ok (oid, <[oid := []]> o)).
Definition lo_open (oid : N) : LTx Fd := lo (λ _ o, if decide (is_Some (o !! oid)) then Ok ({| fd_oid := oid; fd_pos := 0 |}, o) else Err (Ident.Schema "no such large object")).
Definition lo_lseek64 (fd : Fd) (offset : Z) : LTx (Z * Fd) :=
  lo (λ _ o, if decide (0 ≤ offset ≤ MAX_OBJECT)%Z then Ok ((offset, {| fd_oid := fd_oid fd; fd_pos := offset |}), o) else Err (Ident.Schema "invalid seek")).
Definition write_at (pos : Z) (data content : bytes) : bytes :=
  take (Z.to_nat pos) content ++ replicate (Z.to_nat pos - length content) x00 ++ data ++ drop (Z.to_nat pos + length data) content.
Definition lowrite (fd : Fd) (data : bytes) : LTx (Z * Fd) := lo (λ k o,
  match o !! fd_oid fd with
  | None => Err (Ident.Schema "no such large object")
  | Some c =>
      let sent := cut k data in
      if decide (fd_pos fd + len sent ≤ MAX_OBJECT)%Z then Ok ((len sent, {| fd_oid := fd_oid fd; fd_pos := fd_pos fd + len sent |}), <[fd_oid fd := write_at (fd_pos fd) sent c]> o)
      else Err (Ident.Schema "invalid large object write request size")
  end).
Definition loread (fd : Fd) (n : Z) : LTx (bytes * Fd) := lo (λ k o,
  match o !! fd_oid fd with
  | None => Err (Ident.Schema "no such large object")
  | Some c => let got := cut k (take (Z.to_nat n) (drop (Z.to_nat (fd_pos fd)) c)) in Ok ((got, {| fd_oid := fd_oid fd; fd_pos := fd_pos fd + len got |}), o)
  end).
Definition lo_close (fd : Fd) : LTx unit := lo (λ _ o, Ok (tt, o)).

(** ** Writing *)

Definition WRITE_CHUNK_BYTES : Z := (1024 * 1024)%Z.
Definition READ_CHUNK_BYTES : Z := (1024 * 1024)%Z.
(** The loop both writers fill their buffer with. *)
Section Filling.
Context {W : Type} (pending : W → bytes) (set_pending : bytes → W → W) (flush : W → LTx W).
Fixpoint fill (fuel : nat) (w : W) (chunk : bytes) : LTx W :=
  match fuel, chunk with
  | _, [] => ret w
  | O, _ => fail (protocol_error "endless write")
  | Datatypes.S fuel, _ =>
      let length_ := Z.to_nat (Z.min (len chunk) (WRITE_CHUNK_BYTES - len (pending w))) in
      let w := set_pending (pending w ++ take length_ chunk) w in
      let! w := (if decide (len (pending w) = WRITE_CHUNK_BYTES) then flush w else ret w) in
      fill fuel w (drop length_ chunk)
  end.
End Filling.

(** [LargeObjectWriter]; the hasher is what it was given. *)
Record Writer := { w_fd : Fd; w_oid : N; w_size : Z; w_hasher : bytes; w_pending : bytes }.
Definition w_create (oid : N) : LTx Writer :=
  let! oid := lo_create oid in
  let! fd := lo_open oid in
  ret {| w_fd := fd; w_oid := oid; w_size := 0; w_hasher := []; w_pending := [] |}.
Definition w_set_pending (p : bytes) (w : Writer) : Writer := {| w_fd := w_fd w; w_oid := w_oid w; w_size := w_size w; w_hasher := w_hasher w; w_pending := p |}.
Definition short_write (written expected : Z) : RuntimeError := protocol_error ("large object short write: " +:+ pretty written +:+ "/" +:+ pretty expected).
Definition w_flush (w : Writer) : LTx Writer :=
  if decide (w_pending w = []) then ret w
  else
    let! '(written, fd) := lowrite (w_fd w) (w_pending w) in
    do! guardT (bool_decide (written = len (w_pending w))) (short_write written (len (w_pending w))) in
    ret {| w_fd := fd; w_oid := w_oid w; w_size := w_size w; w_hasher := w_hasher w; w_pending := [] |}.
Definition w_write (w : Writer) (chunk : bytes) : LTx Writer :=
  if decide (chunk = []) then ret w
  else
    let w := {| w_fd := w_fd w; w_oid := w_oid w; w_size := i64 (w_size w + len chunk); w_hasher := w_hasher w ++ chunk; w_pending := w_pending w |} in
    fill w_pending w_set_pending w_flush (length chunk) w chunk.
Definition w_commit (w : Writer) : LTx unit := let! w := w_flush w in lo_close (w_fd w).

(** [LargeObjectAppender] *)
Record Appender := { a_fd : Fd; a_position : Z; a_pending : bytes }.
Definition a_open (oid : N) (offset : Z) : LTx Appender :=
  let! fd := lo_open oid in
  let! '(position, fd) := lo_lseek64 fd offset in
  do! guardT (bool_decide (position = offset)) (protocol_error ("large object seek returned " +:+ pretty position +:+ ", expected " +:+ pretty offset)) in
  ret {| a_fd := fd; a_position := position; a_pending := [] |}.
Definition a_set_pending (p : bytes) (a : Appender) : Appender := {| a_fd := a_fd a; a_position := a_position a; a_pending := p |}.
Definition a_flush (a : Appender) : LTx Appender :=
  if decide (a_pending a = []) then ret a
  else
    let! '(written, fd) := lowrite (a_fd a) (a_pending a) in
    do! guardT (bool_decide (written = len (a_pending a))) (short_write written (len (a_pending a))) in
    ret {| a_fd := fd; a_position := i64 (a_position a + written); a_pending := [] |}.
Definition a_write (a : Appender) (chunk : bytes) : LTx Appender := fill a_pending a_set_pending a_flush (length chunk) a chunk.
Definition position (a : Appender) : Z := i64 (a_position a + len (a_pending a)).
Definition a_commit (a : Appender) : LTx unit := let! a := a_flush a in lo_close (a_fd a).

(** ** Reading *)

Definition ended (remaining : Z) : RuntimeError := protocol_error ("large object ended with " +:+ pretty remaining +:+ " bytes remaining").
(** [LargeObjectReader]; its transaction is closed when the end is reached. *)
Record Reader := { r_open : bool; r_fd : Fd; r_remaining : Z }.
Definition r_start (oid : N) (size : Z) : LTx Reader := let! fd := lo_open oid in ret {| r_open := true; r_fd := fd; r_remaining := size |}.
Definition finish (r : Reader) : LTx Reader :=
  if r_open r then
    do! lo_close (r_fd r) in
    do! lo (λ _ o, Ok (tt, o)) in
    ret {| r_open := false; r_fd := r_fd r; r_remaining := r_remaining r |}
  else ret r.
Definition next_chunk (r : Reader) : LTx (option bytes * Reader) :=
  if decide (r_remaining r = 0)%Z then let! r := finish r in ret (None, r)
  else
    do! guardT (r_open r) (protocol_error "large object reader is closed") in
    let! '(got, fd) := loread (r_fd r) (Z.min (r_remaining r) READ_CHUNK_BYTES) in
    do! guardT (negb (bool_decide (got = []))) (ended (r_remaining r)) in
    ret (Some got, {| r_open := r_open r; r_fd := fd; r_remaining := (r_remaining r - len got)%Z |}).
Fixpoint read_loop (fuel : nat) (r : Reader) (data : bytes) : LTx bytes :=
  match fuel with
  | O => fail (protocol_error "endless read")
  | Datatypes.S fuel =>
      let! '(chunk, r) := next_chunk r in
      match chunk with Some c => read_loop fuel r (data ++ c) | None => ret data end
  end.
Definition read_all (r : Reader) : LTx bytes := read_loop (Datatypes.S (Z.to_nat (r_remaining r))) r [].
(** A body: what is sent, and the error it breaks off with. *)
Fixpoint send (fuel : nat) (r : Reader) (fate : Fate) (n : nat) (o : Objects) : list bytes * option RuntimeError :=
  match fuel with
  | O => ([], Some (protocol_error "endless read"))
  | Datatypes.S fuel =>
      match next_chunk r fate n o with
      | Err e => ([], Some e)
      | Ok (None, _, _, _) => ([], None)
      | Ok (Some c, r, n, o) => let '(cs, e) := send fuel r fate n o in (c :: cs, e)
      end
  end.
Definition into_body (r : Reader) (fate : Fate) (n : nat) (o : Objects) : list bytes * option RuntimeError := send (Datatypes.S (Z.to_nat (r_remaining r))) r fate n o.
Section Checksums.
Context (sha256_hex : bytes → string).
Fixpoint checksum_loop (fuel : nat) (fd : Fd) (remaining : Z) (hasher : bytes) : LTx (Fd * bytes) :=
  if decide (remaining ≤ 0)%Z then ret (fd, hasher)
  else match fuel with
       | O => fail (protocol_error "endless read")
       | Datatypes.S fuel =>
           let! '(got, fd) := loread fd (Z.min remaining READ_CHUNK_BYTES) in
           do! guardT (negb (bool_decide (got = []))) (ended remaining) in
           checksum_loop fuel fd (remaining - len got) (hasher ++ got)
       end.
Definition checksum_in_transaction (oid : N) (size : Z) : LTx string :=
  let! fd := lo_open oid in
  let! '(fd, hasher) := checksum_loop (Z.to_nat size) fd size [] in
  do! lo_close fd in
  ret (sha256_hex hasher).
Definition w_checksum (w : Writer) : string := sha256_hex (w_hasher w).
End Checksums.

(** ** What is written *)

(** Names from a result are replaced by what they are equal to. *)
Ltac replace_new := repeat match goal with E : ?x = ?y |- _ => is_var y; subst y | E : ?x = ?y |- _ => is_var x; subst x end.
Ltac inv_tx := repeat match goal with
  | H : bindT _ _ _ _ _ = Ok _ |- _ => apply bindT_ok in H as (? & ? & ? & ? & H)
  | H : ret _ _ _ _ = Ok _ |- _ => unfold ret in H; injection H; clear H; intros; replace_new
  | H : guardT _ _ _ _ _ = Ok _ |- _ => apply guardT_ok in H as (? & -> & ->)
  | H : fail _ _ _ _ = Ok _ |- _ => done
  | H : stmt _ _ _ _ _ = Ok _ |- _ => apply stmt_ok in H as [-> H]
  | p : (_ * _)%type |- _ => destruct p
  end.
Lemma i64_id z : (- 2 ^ 63 ≤ z < 2 ^ 63)%Z → i64 z = z.
Proof. intros Hz. unfold i64. rewrite Z.mod_small by lia. lia. Qed.
Lemma i64_add a b : i64 (i64 a + b) = i64 (a + b).
Proof. unfold i64. f_equal. replace ((a + 2 ^ 63) `mod` 2 ^ 64 - 2 ^ 63 + b + 2 ^ 63)%Z with ((a + 2 ^ 63) `mod` 2 ^ 64 + b)%Z by lia. rewrite Z.add_mod_idemp_l by lia. f_equal; lia. Qed.
Lemma write_at_end content data : write_at (len content) data content = content ++ data.
Proof. unfold write_at, len. rewrite Nat2Z.id, Nat.sub_diag, firstn_all. cbn. rewrite drop_ge by lia. by rewrite app_nil_r. Qed.
(** A buffer over an object: what the object holds with what is pending is [data]. *)
Record buffered (oid : N) (fd : Fd) (pending : bytes) (data : bytes) (o : Objects) : Prop := {
  b_oid : fd_oid fd = oid;
  b_room : (len pending < WRITE_CHUNK_BYTES)%Z;
  b_data : ∃ c, o !! oid = Some c ∧ c ++ pending = data ∧ fd_pos fd = len c ∧ (len c ≤ MAX_OBJECT)%Z }.
Definition same_but (oid : N) (o o' : Objects) : Prop := ∀ i, i ≠ oid → o' !! i = o !! i.
#[global] Instance same_but_preorder oid : PreOrder (same_but oid).
Proof. split; [by intros o i|]. intros a b c H1 H2 i Hi. rewrite H2, H1; done. Qed.
Lemma lowrite_all fd pending data o fate n z fd' n' o' :
  (∃ c, o !! fd_oid fd = Some c ∧ c ++ pending = data ∧ fd_pos fd = len c) → lowrite fd pending fate n o = Ok (z, fd', n', o') → z = len pending →
  fd_oid fd' = fd_oid fd ∧ fd_pos fd' = len data ∧ (len data ≤ MAX_OBJECT)%Z ∧ o' !! fd_oid fd = Some data ∧ same_but (fd_oid fd) o o'.
Proof.
  intros (c & Hc & <- & Hp) Hw Hz. unfold lowrite, lo in Hw. inv_tx. rewrite Hc in Hw. assert (cut (moved fate n) pending = pending ∨ len (cut (moved fate n) pending) ≠ len pending) as Hcut.
  { destruct (moved fate n) as [k|]; cbn; [|by left]. destruct (decide (length pending ≤ k)); [left; by apply take_ge|right]. unfold len. rewrite length_take. lia. }
  destruct (decide _) as [Hm|]; [|done]. injection Hw as Hz' <- <-. destruct Hcut as [Hcut|Hcut]; [|congruence]. rewrite Hcut in *. rewrite Hp, write_at_end. cbn.
  assert (len c + len pending = len (c ++ pending))%Z as Hlen by (unfold len; rewrite length_app; lia). split_and!; [done|done|lia|by rewrite lookup_insert_eq|]. intros i Hi. by rewrite lookup_insert_ne.
Qed.
Section Filled.
Context {W : Type} (pending : W → bytes) (set_pending : bytes → W → W) (flush : W → LTx W) (fd : W → Fd) (oid : N) (keeps : W → W → Prop).
Context (Hkeep : PreOrder keeps) (Hset1 : ∀ p w, pending (set_pending p w) = p) (Hset2 : ∀ p w, fd (set_pending p w) = fd w) (Hset3 : ∀ p w, keeps w (set_pending p w)).
Context (Hflush : ∀ w data fate n o w' n' o', fd_oid (fd w) = oid → (∃ c, o !! oid = Some c ∧ c ++ pending w = data ∧ fd_pos (fd w) = len c ∧ (len c ≤ MAX_OBJECT)%Z) → flush w fate n o = Ok (w', n', o') →
  pending w' = [] ∧ buffered oid (fd w') [] data o' ∧ same_but oid o o' ∧ keeps w w').
Lemma fill_step fuel w chunk : chunk ≠ [] → fill pending set_pending flush (Datatypes.S fuel) w chunk =
  (let length_ := Z.to_nat (Z.min (len chunk) (WRITE_CHUNK_BYTES - len (pending w))) in
   let w1 := set_pending (pending w ++ take length_ chunk) w in
   let! w2 := (if decide (len (pending w1) = WRITE_CHUNK_BYTES) then flush w1 else ret w1) in fill pending set_pending flush fuel w2 (drop length_ chunk)).
Proof. by destruct chunk. Qed.
Lemma fill_ok fuel w chunk data fate n o w' n' o' : buffered oid (fd w) (pending w) data o → fill pending set_pending flush fuel w chunk fate n o = Ok (w', n', o') →
  buffered oid (fd w') (pending w') (data ++ chunk) o' ∧ same_but oid o o' ∧ keeps w w'.
Proof using All.
  revert w chunk data n o. induction fuel as [|fuel IH]; intros w chunk data n o Hb Hf.
  - destruct chunk; [|done]. cbn in Hf. inv_tx. by rewrite app_nil_r.
  - destruct (decide (chunk = [])) as [->|Hne]; [cbn in Hf; inv_tx; by rewrite app_nil_r|]. rewrite fill_step in Hf by done. cbv zeta in Hf. inv_tx.
    match type of Hf with fill _ _ _ _ ?w2 _ _ _ _ = _ => rename w2 into w1 end. set (k := Z.to_nat (Z.min (len chunk) (WRITE_CHUNK_BYTES - len (pending w)))) in *. destruct Hb as [Ho Hr (c & Hc & <- & Hp & Hm)].
    assert (buffered oid (fd w1) (pending w1) ((c ++ pending w) ++ take k chunk) x1 ∧ same_but oid o x1 ∧ keeps w w1) as (Hb1 & Hs1 & Hk1).
    { rewrite Hset1 in H. destruct (decide _) as [Hfull|Hfull].
      - eapply Hflush in H as (Hn & Hb1 & Hs1 & Hk1); [rewrite Hn; split_and!; [exact Hb1|done|etrans; [apply Hset3|exact Hk1]]|by rewrite Hset2|]. exists c. rewrite Hset1, Hset2, app_assoc. done.
      - inv_tx. rewrite Hset1, Hset2. split_and!; [|done|apply Hset3]. split; [done| |exists c; by rewrite app_assoc]. unfold len in *. rewrite length_app, length_take in *. lia. }
    eapply IH in Hf as (Hb2 & Hs2 & Hk2); [|exact Hb1]. rewrite <-(app_assoc (c ++ _)), take_drop in Hb2. split_and!; [done|by etrans|by etrans].
Qed.
End Filled.
(** A writer that was given [data]. *)
Record writing (oid : N) (data : bytes) (w : Writer) (o : Objects) : Prop := {
  wr_buffer : buffered oid (w_fd w) (w_pending w) data o; wr_oid : w_oid w = oid; wr_size : w_size w = i64 (len data); wr_hasher : w_hasher w = data }.
Definition w_keeps (w w' : Writer) : Prop := w_oid w' = w_oid w ∧ w_size w' = w_size w ∧ w_hasher w' = w_hasher w.
Lemma w_keeps_preorder : PreOrder w_keeps.
Proof. split; [by intros w|]. intros a b c (? & ? & ?) (? & ? & ?). split_and!; congruence. Qed.
Lemma w_flush_ok oid w data fate n o w' n' o' : fd_oid (w_fd w) = oid → (∃ c, o !! oid = Some c ∧ c ++ w_pending w = data ∧ fd_pos (w_fd w) = len c ∧ (len c ≤ MAX_OBJECT)%Z) → w_flush w fate n o = Ok (w', n', o') →
  w_pending w' = [] ∧ buffered oid (w_fd w') [] data o' ∧ same_but oid o o' ∧ w_keeps w w'.
Proof.
  intros <- (c & Hc & Hd & Hp & Hm) Hf. unfold w_flush in Hf. destruct (decide _) as [He|He].
  - inv_tx. rewrite He in *. split_and!; try done. split; [done|done|]. by exists c.
  - inv_tx. match goal with Hw : lowrite _ _ _ _ _ = _, Hb : bool_decide _ = true |- _ => apply bool_decide_eq_true in Hb; eapply lowrite_all in Hw as (H1 & H2 & H3 & H4 & H5); [|by exists c|exact Hb] end.
    cbn. split_and!; try done. split; [done|done|]. eexists. split_and!; [done|by rewrite app_nil_r|done|done].
Qed.
Lemma w_create_ok oid fate n o w n' o' : w_create oid fate n o = Ok (w, n', o') → o !! oid = None ∧ o' = <[oid := []]> o ∧ writing oid [] w o'.
Proof.
  unfold w_create, lo_create, lo_open, lo. intros Hw. inv_tx. destruct (decide (is_Some (o !! oid))) as [|Hn]; [done|]. simplify_eq. destruct (decide _); [|done]. simplify_eq. split_and!; [by apply eq_None_not_Some|done|].
  split; try done. split; [done|done|]. exists []. by rewrite lookup_insert_eq.
Qed.
Lemma w_write_ok oid data w chunk fate n o w' n' o' : writing oid data w o → w_write w chunk fate n o = Ok (w', n', o') → writing oid (data ++ chunk) w' o' ∧ same_but oid o o'.
Proof.
  intros [Hb Ho Hs Hh] Hw. unfold w_write in Hw. destruct (decide (chunk = [])) as [->|Hne]; [inv_tx; rewrite app_nil_r; by split|].
  eapply (fill_ok w_pending w_set_pending w_flush w_fd oid w_keeps w_keeps_preorder) in Hw as (Hb' & Hsb & (K1 & K2 & K3)); [|done|done|done|intros; by eapply w_flush_ok|exact Hb].
  split; [|done]. split; [done|by rewrite K1| |by rewrite K3; cbn; rewrite Hh]. rewrite K2. cbn. rewrite Hs, i64_add. f_equal. unfold len. rewrite length_app. lia.
Qed.
Lemma w_commit_ok oid data w fate n o u n' o' : writing oid data w o → w_commit w fate n o = Ok (u, n', o') → o' !! oid = Some data ∧ (len data ≤ MAX_OBJECT)%Z ∧ same_but oid o o'.
Proof.
  intros [[Ho _ Hd] _ _ _] Hc. unfold w_commit, lo_close, lo in Hc. inv_tx. simplify_eq. match goal with Hf : w_flush _ _ _ _ = _ |- _ => eapply w_flush_ok in Hf as (_ & [_ _ (c & H1 & H2 & H3 & H4)] & Hs & _); [|done|done] end.
  rewrite app_nil_r in H2. by subst.
Qed.

(** An appender on an object that with what it was given is [data]. *)
Record appending (oid : N) (data : bytes) (a : Appender) (o : Objects) : Prop := { ap_buffer : buffered oid (a_fd a) (a_pending a) data o; ap_position : a_position a = fd_pos (a_fd a) }.
Lemma a_open_ok oid data fate n o a n' o' : o !! oid = Some data → a_open oid (len data) fate n o = Ok (a, n', o') → o' = o ∧ appending oid data a o.
Proof.
  intros Hd. unfold a_open, lo_open, lo_lseek64, lo. intros Ha. inv_tx. destruct (decide _); [|done]. simplify_eq. destruct (decide _) as [[_ Hm]|]; [|done]. simplify_eq. split; [done|]. split; [|done]. split; [done|done|].
  exists data. by rewrite app_nil_r.
Qed.
Lemma a_flush_ok oid a data fate n o a' n' o' : fd_oid (a_fd a) = oid → (∃ c, o !! oid = Some c ∧ c ++ a_pending a = data ∧ fd_pos (a_fd a) = len c ∧ (len c ≤ MAX_OBJECT)%Z) → a_flush a fate n o = Ok (a', n', o') →
  a_pending a' = [] ∧ buffered oid (a_fd a') [] data o' ∧ same_but oid o o' ∧ (a_position a = fd_pos (a_fd a) → a_position a' = fd_pos (a_fd a')).
Proof.
  intros <- (c & Hc & Hd & Hp & Hm) Hf. unfold a_flush in Hf. destruct (decide _) as [He|He].
  - inv_tx. rewrite He in *. split_and!; try done. split; [done|done|]. by exists c.
  - inv_tx. match goal with Hw : lowrite _ _ _ _ _ = _, Hb : bool_decide _ = true |- _ => apply bool_decide_eq_true in Hb; eapply lowrite_all in Hw as (H1 & H2 & H3 & H4 & H5); [|by exists c|exact Hb]; rename Hb into Hz end.
    cbn. split_and!; try done; [split; [done|done|]; eexists; split_and!; [done|by rewrite app_nil_r|done|done]|].
    intros ->. rewrite H2, Hz, Hp. unfold len in *. rewrite length_app in *. unfold MAX_OBJECT in *. rewrite i64_id by lia. lia.
Qed.
Definition a_keeps (a a' : Appender) : Prop := a_position a = fd_pos (a_fd a) → a_position a' = fd_pos (a_fd a').
Lemma a_keeps_preorder : PreOrder a_keeps.
Proof. split; [intros a Ha; exact Ha|]. intros a b c H1 H2 Ha. auto. Qed.
Lemma a_write_ok oid data a chunk fate n o a' n' o' : appending oid data a o → a_write a chunk fate n o = Ok (a', n', o') → appending oid (data ++ chunk) a' o' ∧ same_but oid o o'.
Proof.
  intros [Hb Hp] Hw. unfold a_write in Hw. eapply (fill_ok a_pending a_set_pending a_flush a_fd oid a_keeps a_keeps_preorder) in Hw as (Hb' & Hs & Hk); [|done|done|intros ? ? Hx; exact Hx|intros; by eapply a_flush_ok|exact Hb].
  split; [|done]. split; [done|by apply Hk].
Qed.
Lemma position_ok oid data a o : appending oid data a o → position a = len data.
Proof. intros [[_ Hr (c & _ & <- & Hp & Hm)] Ha]. unfold position. rewrite Ha, Hp. unfold len, MAX_OBJECT, WRITE_CHUNK_BYTES in *. rewrite i64_id by lia. rewrite length_app. lia. Qed.
Lemma a_commit_ok oid data a fate n o u n' o' : appending oid data a o → a_commit a fate n o = Ok (u, n', o') → o' !! oid = Some data ∧ (len data ≤ MAX_OBJECT)%Z ∧ same_but oid o o'.
Proof.
  intros [[Ho _ Hd] _] Hc. unfold a_commit, lo_close, lo in Hc. inv_tx. simplify_eq. match goal with Hf : a_flush _ _ _ _ = _ |- _ => eapply a_flush_ok in Hf as (_ & [_ _ (c & H1 & H2 & H3 & H4)] & Hs & _); [|done|done] end.
  rewrite app_nil_r in H2. by subst.
Qed.

(** ** What is read *)

(** A descriptor that has [rest] before it. *)
Definition ahead (oid : N) (c rest : bytes) (fd : Fd) : Prop := fd_oid fd = oid ∧ (0 ≤ fd_pos fd)%Z ∧ drop (Z.to_nat (fd_pos fd)) c = rest.
Lemma loread_ok oid c rest fd k fate n o got fd' n' o' : o !! oid = Some c → ahead oid c rest fd → (0 ≤ k)%Z → loread fd k fate n o = Ok (got, fd', n', o') →
  o' = o ∧ ∃ rest', rest = got ++ rest' ∧ (len got ≤ k)%Z ∧ ahead oid c rest' fd'.
Proof.
  intros Hc (<- & Hp & <-) Hk Hl. unfold loread, lo in Hl. inv_tx. rewrite Hc in Hl. injection Hl as <- <- <-. split; [done|].
  set (got := cut _ _). assert (got `prefix_of` drop (Z.to_nat (fd_pos fd)) c ∧ (len got ≤ k)%Z) as [[rest' Hr] Hlen].
  { unfold got, cut, len. destruct (moved fate n); rewrite ?take_take; (split; [apply prefix_take|]); rewrite length_take; lia. }
  exists rest'. split_and!; [done|done|]. split_and!; [done|cbn; unfold len; lia|]. cbn. unfold len. rewrite Z2Nat.inj_add, Nat2Z.id, <-drop_drop, Hr by lia. by rewrite drop_app_length.
Qed.
Lemma next_chunk_ok oid c rest r fate n o m r' n' o' : o !! oid = Some c → ahead oid c rest (r_fd r) → (0 ≤ r_remaining r)%Z → next_chunk r fate n o = Ok (m, r', n', o') →
  o' = o ∧ match m with
           | None => r_remaining r = 0%Z
           | Some got => got ≠ [] ∧ ∃ rest', rest = got ++ rest' ∧ ahead oid c rest' (r_fd r') ∧ r_remaining r' = (r_remaining r - len got)%Z ∧ (0 ≤ r_remaining r')%Z
           end.
Proof.
  intros Hc Ha Hr Hn. unfold next_chunk in Hn. destruct (decide _) as [He|He].
  - unfold finish, lo_close, lo in Hn. destruct (r_open r); inv_tx; simplify_eq; done.
  - inv_tx. match goal with Hl : loread _ _ _ _ _ = _ |- _ => eapply loread_ok in Hl; [|done|done|unfold READ_CHUNK_BYTES; lia]; destruct Hl as (-> & rest' & -> & Hlen & Ha') end.
    split; [done|]. match goal with Hb : negb _ = true |- _ => apply negb_true_iff, bool_decide_eq_false in Hb end. split; [done|]. exists rest'. split_and!; [done|done|done|cbn; lia].
Qed.
Lemma rest_split (got rest' : bytes) (r : Z) : (0 ≤ r - len got)%Z → take (Z.to_nat r) (got ++ rest') = got ++ take (Z.to_nat (r - len got)) rest'.
Proof. intros Hr. unfold len in *. rewrite take_app_ge by lia. f_equal. f_equal. lia. Qed.
Lemma read_loop_ok oid c fuel rest r data fate n o d n' o' : o !! oid = Some c → ahead oid c rest (r_fd r) → (0 ≤ r_remaining r)%Z → read_loop fuel r data fate n o = Ok (d, n', o') →
  (r_remaining r ≤ len rest)%Z ∧ d = data ++ take (Z.to_nat (r_remaining r)) rest.
Proof.
  revert rest r data n o. induction fuel as [|fuel IH]; intros rest r data n o Hc Ha Hr Hl; [done|]. cbn [read_loop] in Hl. inv_tx.
  match goal with Hn : next_chunk _ _ _ _ = Ok (?m, _, _, _) |- _ => eapply next_chunk_ok in Hn; [|done|done|done]; destruct Hn as [-> Hm]; destruct m as [got|] end.
  - destruct Hm as (_ & rest' & -> & Ha' & Hr' & Hge). eapply IH in Hl as [Hle ->]; [|done|done|done]. rewrite Hr' in *. rewrite <-app_assoc, rest_split by done. split; [|done]. unfold len in *. rewrite length_app. lia.
  - inv_tx. rewrite Hm. cbn. rewrite take_0, app_nil_r. unfold len. split; [lia|done].
Qed.
Lemma send_ok oid c fuel rest r fate n o cs e : o !! oid = Some c → ahead oid c rest (r_fd r) → (0 ≤ r_remaining r)%Z → send fuel r fate n o = (cs, e) →
  concat cs `prefix_of` take (Z.to_nat (r_remaining r)) rest ∧ (e = None → concat cs = take (Z.to_nat (r_remaining r)) rest ∧ (r_remaining r ≤ len rest)%Z).
Proof.
  revert rest r n o cs. induction fuel as [|fuel IH]; intros rest r n o cs Hc Ha Hr Hs; [injection Hs as <- <-; split; [apply prefix_nil|done]|]. cbn [send] in Hs.
  destruct (next_chunk r fate n o) as [[[[m r'] n'] o']|err] eqn:Hn; [|injection Hs as <- <-; split; [apply prefix_nil|done]]. eapply next_chunk_ok in Hn as [-> Hm]; [|done|done|done]. destruct m as [got|].
  - destruct Hm as (_ & rest' & -> & Ha' & Hr' & Hge). destruct (send fuel r' fate n' o) as [cs' e'] eqn:Hs'. injection Hs as <- <-. eapply IH in Hs' as [Hp He]; [|done|done|done]. rewrite Hr' in *. rewrite rest_split by done. cbn. split; [by apply prefix_app|].
    intros [-> Hle]%He. split; [done|]. unfold len in *. rewrite length_app. lia.
  - injection Hs as <- <-. rewrite Hm. split; [apply prefix_nil|]. unfold len. split; [done|lia].
Qed.
Lemma checksum_loop_ok oid c fuel rest fd remaining hasher fate n o fd' h n' o' : o !! oid = Some c → ahead oid c rest fd → checksum_loop fuel fd remaining hasher fate n o = Ok (fd', h, n', o') →
  o' = o ∧ (remaining ≤ len rest)%Z ∧ h = hasher ++ take (Z.to_nat remaining) rest.
Proof.
  revert rest fd remaining hasher n o. induction fuel as [|fuel IH]; intros rest fd remaining hasher n o Hc Ha Hl; cbn [checksum_loop] in Hl; (destruct (decide _) as [Hle|Hgt]; [inv_tx; rewrite Z2Nat.nonpos, take_0, app_nil_r by done; unfold len; split_and!; [done|lia|done]|]); [done|].
  inv_tx. match goal with Hr : loread _ _ _ _ _ = _ |- _ => eapply loread_ok in Hr; [|done|done|unfold READ_CHUNK_BYTES; lia]; destruct Hr as (-> & rest' & -> & Hlen & Ha') end. eapply IH in Hl as (-> & Hle & ->); [|done|done].
  rewrite <-app_assoc, rest_split by lia. split_and!; [done| |done]. unfold len in *. rewrite length_app. lia.
Qed.
Lemma checksum_ok sha oid c size fate n o d n' o' : o !! oid = Some c → checksum_in_transaction sha oid size fate n o = Ok (d, n', o') → o' = o ∧ (size ≤ len c)%Z ∧ d = sha (take (Z.to_nat size) c).
Proof.
  intros Hc. unfold checksum_in_transaction, lo_open, lo_close, lo. intros Hs. inv_tx. destruct (decide _); [|done]. simplify_eq. match goal with Hl : checksum_loop _ _ _ _ _ _ _ = _ |- _ => eapply checksum_loop_ok in Hl as (-> & Hle & ->); [|done|done] end. done.
Qed.

(** ** Nothing stands in the way of a willing database *)

Lemma next_chunk_willing oid c rest r n o : o !! oid = Some c → ahead oid c rest (r_fd r) → r_open r = true → (0 < r_remaining r ≤ len rest)%Z →
  ∃ got r' n', next_chunk r willing n o = Ok (Some got, r', n', o) ∧ r_open r' = true.
Proof.
  intros Hc (Ho & Hp & Hd) Hop [Hr Hle]. unfold next_chunk. destruct (decide _); [lia|]. rewrite Hop. unfold loread, lo, bindT, guardT, stmt, ret. cbn [result_bind refused moved willing cut]. rewrite Ho, Hc, Hd. cbn [result_bind].
  set (got := take _ rest). assert (got ≠ []) as Hne.
  { intros Hn. apply (f_equal length) in Hn. unfold got in Hn. rewrite length_take in Hn. unfold len, READ_CHUNK_BYTES in *. cbn in Hn. lia. }
  rewrite bool_decide_eq_false_2 by done. cbn. eauto.
Qed.
Lemma send_willing oid c fuel rest r n o : o !! oid = Some c → ahead oid c rest (r_fd r) → r_open r = true → (0 ≤ r_remaining r ≤ len rest)%Z → Z.to_nat (r_remaining r) < fuel → (send fuel r willing n o).2 = None.
Proof.
  revert rest r n. induction fuel as [|fuel IH]; intros rest r n Hc Ha Hop Hr Hf; [lia|]. cbn [send]. destruct (decide (r_remaining r = 0)%Z) as [Hz|Hz].
  - unfold next_chunk, finish. destruct (decide _); [|done]. rewrite Hop. done.
  - destruct (next_chunk_willing oid c rest r n o Hc Ha Hop) as (got & r' & n' & Hn & Hop'); [lia|]. rewrite Hn. eapply next_chunk_ok in Hn; [|exact Hc|exact Ha|lia]. destruct Hn as (_ & Hne & rest' & -> & Ha' & Hr' & Hge).
    assert (0 < len got)%Z by (destruct got; [done|unfold len; cbn; lia]). specialize (IH rest' r' n' Hc Ha' Hop'). destruct (send fuel r' willing n' o) as [cs e] eqn:E. apply IH; [|lia]. unfold len in *. rewrite length_app in Hr. lia.
Qed.
(** What an object holds is what is sent of it, whatever the database cuts it into. *)
Lemma body_of_object oid c fate n o r n' o' cs e : o !! oid = Some c → r_start oid (len c) fate n o = Ok (r, n', o') → into_body r fate n' o' = (cs, e) → concat cs `prefix_of` c ∧ (e = None → concat cs = c).
Proof.
  intros Hc Hs Hb. unfold r_start, lo_open, lo in Hs. inv_tx. destruct (decide _); [|done]. simplify_eq. unfold into_body in Hb. eapply (send_ok oid c _ c) in Hb as [Hp He]; [|done|by split_and!|cbn; unfold len; lia].
  cbn [r_remaining] in *. unfold len in *. rewrite Nat2Z.id, firstn_all in *. split; [done|]. by intros [-> _]%He.
Qed.
Lemma read_object oid c fate n o r n' o' d n2 o2 : o !! oid = Some c → r_start oid (len c) fate n o = Ok (r, n', o') → read_all r fate n' o' = Ok (d, n2, o2) → d = c.
Proof.
  intros Hc Hs Hb. unfold r_start, lo_open, lo in Hs. inv_tx. destruct (decide _); [|done]. simplify_eq. unfold read_all in Hb. eapply (read_loop_ok oid c _ c) in Hb as [_ ->]; [|done|by split_and!|cbn; unfold len; lia].
  cbn [r_remaining app]. unfold len. by rewrite Nat2Z.id, firstn_all.
Qed.
Lemma body_willing oid c o : o !! oid = Some c → ∃ r n, r_start oid (len c) willing 0 o = Ok (r, n, o) ∧ (into_body r willing n o).2 = None.
Proof.
  intros Hc. unfold r_start, lo_open, lo, bindT, stmt, ret. cbn [refused willing result_bind]. destruct (decide _) as [|Hn]; [|by rewrite Hc in Hn; destruct Hn; eexists]. cbn [result_bind]. eexists _, _. split; [done|].
  unfold into_body. eapply (send_willing oid c _ c); [done|by split_and!|done|cbn; unfold len; lia|cbn; lia].
Qed.
Lemma stmt_willing {S E A : Type} (wrap : SqlError → E) (f : option nat → S → result E (A * S)) n s a s' : f None s = Ok (a, s') → stmt wrap f willing n s = Ok (a, Datatypes.S n, s').
Proof. intros Hf. unfold stmt. cbn. by rewrite Hf. Qed.
Lemma bindT_go {S E A B : Type} (m : Tx S E A) (k : A → Tx S E B) fate n s a n' s' : m fate n s = Ok (a, n', s') → bindT m k fate n s = k a fate n' s'.
Proof. intros Hm. unfold bindT. by rewrite Hm. Qed.
Lemma guardT_go {S E : Type} c (e : E) fate n (s : S) : c = true → guardT c e fate n s = Ok (tt, n, s).
Proof. by intros ->. Qed.
Lemma lowrite_willing fd pending c n o : o !! fd_oid fd = Some c → fd_pos fd = len c → (len (c ++ pending) ≤ MAX_OBJECT)%Z → ∃ fd' n' o', lowrite fd pending willing n o = Ok (len pending, fd', n', o').
Proof.
  intros Hc Hp Hm. unfold lowrite, lo. eexists _, _, _. apply stmt_willing. rewrite Hc. cbn [cut]. cbv zeta. rewrite decide_True; [done|]. rewrite Hp. unfold len in *. rewrite length_app in Hm. lia.
Qed.
Section FilledWilling.
Context {W : Type} (pending : W → bytes) (set_pending : bytes → W → W) (flush : W → LTx W) (fd : W → Fd) (oid : N).
Context (Hset1 : ∀ p w, pending (set_pending p w) = p) (Hset2 : ∀ p w, fd (set_pending p w) = fd w).
Context (Hgo : ∀ w c n o, fd_oid (fd w) = oid → o !! oid = Some c → fd_pos (fd w) = len c → (len (c ++ pending w) ≤ MAX_OBJECT)%Z →
  ∃ w' n' o', flush w willing n o = Ok (w', n', o') ∧ pending w' = [] ∧ buffered oid (fd w') [] (c ++ pending w) o').
Lemma fill_willing fuel w chunk data n o : buffered oid (fd w) (pending w) data o → (len (data ++ chunk) ≤ MAX_OBJECT)%Z → length chunk ≤ fuel → ∃ w' n' o', fill pending set_pending flush fuel w chunk willing n o = Ok (w', n', o').
Proof using All.
  revert w chunk data n o. induction fuel as [|fuel IH]; intros w chunk data n o Hb Hm Hf; [destruct chunk; [|cbn in Hf; lia]; eexists _, _, _; done|].
  destruct (decide (chunk = [])) as [->|Hne]; [eexists _, _, _; done|]. rewrite fill_step by done. cbv zeta. set (k := Z.to_nat _). destruct Hb as [Ho Hr (c & Hc & <- & Hp & Hcm)].
  assert (0 < k) as Hk. { unfold k, len in *. destruct chunk; [done|]. cbn. lia. }
  assert (∃ w1 n1 o1, (if decide (len (pending (set_pending (pending w ++ take k chunk) w)) = WRITE_CHUNK_BYTES) then flush (set_pending (pending w ++ take k chunk) w) else ret (set_pending (pending w ++ take k chunk) w)) willing n o = Ok (w1, n1, o1)
    ∧ buffered oid (fd w1) (pending w1) ((c ++ pending w) ++ take k chunk) o1) as (w1 & n1 & o1 & Hgo1 & Hb1).
  { rewrite Hset1. destruct (decide _) as [Hfull|Hfull].
    - destruct (Hgo (set_pending (pending w ++ take k chunk) w) c n o) as (w1 & n1 & o1 & H1 & H2 & H3); rewrite ?Hset1, ?Hset2; try done; [|exists w1, n1, o1; split; [done|]; rewrite H2; by rewrite Hset1, app_assoc in H3].
      unfold len in *. rewrite !length_app, ?length_take in *. lia.
    - eexists _, _, _. split; [done|]. rewrite Hset1, Hset2. split; [done| |exists c; by rewrite app_assoc]. unfold len in *. rewrite length_app, length_take in *. lia. }
  rewrite (bindT_go _ _ _ _ _ _ _ _ Hgo1). apply (IH _ _ _ _ _ Hb1); [|rewrite length_drop; lia]. by rewrite <-(app_assoc (c ++ _)), take_drop.
Qed.
End FilledWilling.
Lemma w_flush_willing oid w c n o : fd_oid (w_fd w) = oid → o !! oid = Some c → fd_pos (w_fd w) = len c → (len (c ++ w_pending w) ≤ MAX_OBJECT)%Z →
  ∃ w' n' o', w_flush w willing n o = Ok (w', n', o') ∧ w_pending w' = [] ∧ buffered oid (w_fd w') [] (c ++ w_pending w) o'.
Proof.
  intros <- Hc Hp Hm. assert (∃ r, w_flush w willing n o = Ok r) as [[[w' n'] o'] Hr].
  { unfold w_flush. destruct (decide _); [by eexists|]. destruct (lowrite_willing (w_fd w) (w_pending w) c n o Hc Hp Hm) as (fd' & n' & o' & Hw). rewrite (bindT_go _ _ _ _ _ _ _ _ Hw). cbv beta iota. rewrite (bindT_go _ _ _ _ _ _ _ _ (guardT_go _ _ _ _ _ (bool_decide_eq_true_2 _ eq_refl))). by eexists. }
  exists w', n', o'. split; [done|]. eapply w_flush_ok in Hr as (H1 & H2 & _); [by split|done|]. exists c. split_and!; try done. unfold len in *. rewrite length_app in Hm. lia.
Qed.
Lemma a_flush_willing oid a c n o : fd_oid (a_fd a) = oid → o !! oid = Some c → fd_pos (a_fd a) = len c → (len (c ++ a_pending a) ≤ MAX_OBJECT)%Z →
  ∃ a' n' o', a_flush a willing n o = Ok (a', n', o') ∧ a_pending a' = [] ∧ buffered oid (a_fd a') [] (c ++ a_pending a) o'.
Proof.
  intros <- Hc Hp Hm. assert (∃ r, a_flush a willing n o = Ok r) as [[[w' n'] o'] Hr].
  { unfold a_flush. destruct (decide _); [by eexists|]. destruct (lowrite_willing (a_fd a) (a_pending a) c n o Hc Hp Hm) as (fd' & n' & o' & Hw). rewrite (bindT_go _ _ _ _ _ _ _ _ Hw). cbv beta iota. rewrite (bindT_go _ _ _ _ _ _ _ _ (guardT_go _ _ _ _ _ (bool_decide_eq_true_2 _ eq_refl))). by eexists. }
  exists w', n', o'. split; [done|]. eapply a_flush_ok in Hr as (H1 & H2 & _); [by split|done|]. exists c. split_and!; try done. unfold len in *. rewrite length_app in Hm. lia.
Qed.
Lemma w_write_willing oid data w chunk n o : writing oid data w o → (len (data ++ chunk) ≤ MAX_OBJECT)%Z → ∃ w' n' o', w_write w chunk willing n o = Ok (w', n', o').
Proof. intros [Hb _ _ _] Hm. unfold w_write. destruct (decide _); [by eexists _, _, _|]. eapply (fill_willing w_pending w_set_pending w_flush w_fd oid); [done|done|intros; by eapply w_flush_willing|exact Hb|done|done]. Qed.
Lemma a_write_willing oid data a chunk n o : appending oid data a o → (len (data ++ chunk) ≤ MAX_OBJECT)%Z → ∃ a' n' o', a_write a chunk willing n o = Ok (a', n', o').
Proof. intros [Hb _] Hm. unfold a_write. eapply (fill_willing a_pending a_set_pending a_flush a_fd oid); [done|done|intros; by eapply a_flush_willing|exact Hb|done|done]. Qed.
Lemma w_commit_willing oid data w n o : writing oid data w o → (len data ≤ MAX_OBJECT)%Z → ∃ n' o', w_commit w willing n o = Ok (tt, n', o').
Proof.
  intros [[Ho _ (c & Hc & <- & Hp & _)] _ _ _] Hm. destruct (w_flush_willing oid w c n o Ho Hc Hp Hm) as (w' & n' & o' & Hf & _). unfold w_commit. rewrite (bindT_go _ _ _ _ _ _ _ _ Hf). by eexists _, _.
Qed.
Lemma a_commit_willing oid data a n o : appending oid data a o → (len data ≤ MAX_OBJECT)%Z → ∃ n' o', a_commit a willing n o = Ok (tt, n', o').
Proof.
  intros [[Ho _ (c & Hc & <- & Hp & _)] _] Hm. destruct (a_flush_willing oid a c n o Ho Hc Hp Hm) as (w' & n' & o' & Hf & _). unfold a_commit. rewrite (bindT_go _ _ _ _ _ _ _ _ Hf). by eexists _, _.
Qed.
Lemma a_open_willing oid c n o : o !! oid = Some c → (len c ≤ MAX_OBJECT)%Z → ∃ a n', a_open oid (len c) willing n o = Ok (a, n', o).
Proof.
  intros Hc Hm. unfold a_open, lo_open, lo_lseek64, lo. erewrite bindT_go; [|apply stmt_willing; rewrite decide_True by (by rewrite Hc); done]. erewrite bindT_go; [|apply stmt_willing; rewrite decide_True by (unfold len in *; lia); done]. cbv beta iota.
  rewrite (bindT_go _ _ _ _ _ _ _ _ (guardT_go _ _ _ _ _ (bool_decide_eq_true_2 _ eq_refl))). by eexists _, _.
Qed.
Lemma w_create_willing oid n o : o !! oid = None → ∃ w n' o', w_create oid willing n o = Ok (w, n', o').
Proof.
  intros Hn. unfold w_create, lo_create, lo_open, lo. erewrite bindT_go; [|apply stmt_willing; rewrite decide_False by (by rewrite Hn; intros []); done]. erewrite bindT_go; [|apply stmt_willing; rewrite decide_True by (by rewrite lookup_insert_eq); done]. by eexists _, _, _.
Qed.
Lemma checksum_loop_willing oid c fuel rest fd remaining hasher n o : o !! oid = Some c → ahead oid c rest fd → (remaining ≤ len rest)%Z → Z.to_nat remaining ≤ fuel → ∃ r n', checksum_loop fuel fd remaining hasher willing n o = Ok (r, n', o).
Proof.
  revert rest fd remaining hasher n. induction fuel as [|fuel IH]; intros rest fd remaining hasher n Hc Ha Hle Hf; cbn [checksum_loop]; (destruct (decide _) as [|Hgt]; [by eexists _, _|]); [lia|]. destruct Ha as (Ho & Hp & Hd).
  set (k := Z.min remaining READ_CHUNK_BYTES). assert (loread fd k willing n o = Ok (take (Z.to_nat k) rest, {| fd_oid := fd_oid fd; fd_pos := (fd_pos fd + len (take (Z.to_nat k) rest))%Z |}, Datatypes.S n, o)) as Hr by (unfold loread, lo; apply stmt_willing; by rewrite Ho, Hc, Hd).
  rewrite (bindT_go _ _ _ _ _ _ _ _ Hr). cbv beta iota. assert (take (Z.to_nat k) rest ≠ []) as Hne.
  { intros Hn. apply (f_equal length) in Hn. rewrite length_take in Hn. unfold k, len, READ_CHUNK_BYTES in *. cbn in Hn. lia. }
  erewrite bindT_go; [|apply guardT_go; by rewrite bool_decide_eq_false_2]. eapply loread_ok in Hr as (_ & rest' & Hsplit & Hlen & Ha'); [|exact Hc|by split_and!|unfold k, READ_CHUNK_BYTES; lia]. set (got := take (Z.to_nat k) rest) in *.
  assert (0 < len got)%Z by (destruct got; [done|unfold len; cbn; lia]). eapply IH; [done|exact Ha'|rewrite Hsplit in Hle; unfold len in *; rewrite length_app in Hle; lia|lia].
Qed.
Lemma checksum_willing sha oid c n o : o !! oid = Some c → ∃ d n', checksum_in_transaction sha oid (len c) willing n o = Ok (d, n', o).
Proof.
  intros Hc. unfold checksum_in_transaction, lo_open, lo. erewrite bindT_go; [|apply stmt_willing; rewrite decide_True by (by rewrite Hc); done].
  destruct (checksum_loop_willing oid c (Z.to_nat (len c)) c {| fd_oid := oid; fd_pos := 0 |} (len c) [] (Datatypes.S n) o Hc) as ([fd h] & n' & Hl); [by split_and!|done|done|]. rewrite (bindT_go _ _ _ _ _ _ _ _ Hl). cbv beta iota. by eexists _, _.
Qed.
