(* ===== verification/Storage.v ===== *)
(** * Files of apps (extensions/storage)

    Uploads in one piece or resumed over many requests, downloads, one-time nonces for
    workers and the cleaning up of what was left behind.  The tables and the large objects
    they point to are one state; a transaction is one step of it, as it locks the session it
    is about. *)

From stdpp Require Import base numbers gmap strings list pretty relations.
From Stdlib Require Import Init.Byte.
From S2P Require Import Prelude Str Ident Authority Records Procs LargeObjects.

(** ** Tables *)

Record SessionRow := {
  us_app : string; us_name : string; us_type : string; us_expected : Z; us_uploaded : Z; us_oid : option N; us_by : uuid; us_done : option uuid; us_created : Z; us_expires : Z }.
Record FileRow := { f_app : string; f_name : string; f_type : string; f_size : Z; f_content : option bytes; f_oid : option N; f_checksum : option string; f_by : option uuid }.
Record Store := { sessions : gmap uuid SessionRow; files : gmap uuid FileRow; objects : Objects; time : Z }.
Definition set_objects (o : Objects) (s : Store) : Store := {| sessions := sessions s; files := files s; objects := o; time := time s |}.
Definition set_sessions (m : gmap uuid SessionRow) (s : Store) : Store := {| sessions := m; files := files s; objects := objects s; time := time s |}.
Definition set_files (m : gmap uuid FileRow) (s : Store) : Store := {| sessions := sessions s; files := m; objects := objects s; time := time s |}.
Notation STx := (Tx Store ApiError).

(** [ApiError::from(sqlx::Error)] *)
Definition from_sqlx (e : SqlError) : ApiError :=
  if decide (sql_code e = "42501") then Forbidden "write rejected by access policy"
  else if decide (sql_code e = "23503") then Conflict ("foreign key constraint violated: " +:+ sql_message e)
  else if decide (sql_code e ∈ ["23514"; "23505"]) then default (Internal "internal database error") (sql_rule e)
  else Internal "internal database error".
Definition DB_ERROR : ApiError := Internal "internal database error".
Definition sql {A : Type} (f : Store → result ApiError (A * Store)) : STx A := stmt from_sqlx (λ _ s, f s).
Definition select {A : Type} (f : Store → A) : STx A := sql (λ s, Ok (f s, s)).
Definition objs {A : Type} (m : Tx Objects RuntimeError A) : STx A := within objects set_objects api_error_of m.

(** A row's trigger removes its large object, which must be there. *)
Fixpoint unlink_all (l : list N) (o : Objects) : option Objects :=
  match l with [] => Some o | oid :: l => match o !! oid with Some _ => unlink_all l (delete oid o) | None => None end end.
(** [DELETE FROM storage_upload_sessions WHERE ...] *)
Definition gone (P : uuid → SessionRow → bool) (m : gmap uuid SessionRow) : gmap uuid SessionRow := filter (λ kv, P kv.1 kv.2 = true) m.
Definition kept (P : uuid → SessionRow → bool) (m : gmap uuid SessionRow) : gmap uuid SessionRow := filter (λ kv, P kv.1 kv.2 = false) m.
Definition oids_of (m : gmap uuid SessionRow) : list N := omap us_oid (map_to_list m).*2.
Definition delete_sessions (P : uuid → SessionRow → bool) (s : Store) : option Store :=
  o ← unlink_all (oids_of (gone P (sessions s))) (objects s);
  Some {| sessions := kept P (sessions s); files := files s; objects := o; time := time s |}.
Definition delete_where (P : Store → uuid → SessionRow → bool) : STx unit := sql (λ s, match delete_sessions (P s) s with Some s' => Ok (tt, s') | None => Err DB_ERROR end).
Definition expired (s : Store) (_ : uuid) (u : SessionRow) : bool := bool_decide (us_expires u ≤ time s)%Z.
(** The constraints of the table. *)
Definition session_check (u : SessionRow) : bool :=
  bool_decide (0 < us_expected u)%Z && bool_decide (0 ≤ us_uploaded u ≤ us_expected u)%Z
  && (bool_decide (is_Some (us_oid u)) && bool_decide (us_done u = None) || bool_decide (us_oid u = None) && bool_decide (is_Some (us_done u))).
Definition put_session (id : uuid) (u : SessionRow) (s : Store) : result ApiError (unit * Store) :=
  if session_check u then Ok (tt, set_sessions (<[id := u]> (sessions s)) s) else Err DB_ERROR.

(** ** Requests *)

Definition MAX_CHUNK_BYTES : Z := (16 * 1024 * 1024)%Z.
Definition SESSION_TTL : Z := (24 * 60 * 60)%Z.
Definition CHUNK_CONTENT_TYPE : string := "application/offset+octet-stream".
Definition OCTETS : string := "application/octet-stream".
(** [char::is_control] somewhere in a text of UTF-8. *)
Fixpoint has_control (s : string) : bool :=
  match s with
  | EmptyString => false
  | String c r =>
      let n := N_of_ascii c in
      (n <? 32)%N || (n =? 127)%N
      || (match r with String d _ => (n =? 194)%N && (128 <=? N_of_ascii d)%N && (N_of_ascii d <? 160)%N | EmptyString => false end)
      || has_control r
  end.
Definition validate_name (value : string) : result ApiError string :=
  let name := trim value in
  if bool_decide (name = EmptyString) || (255 <? String.length name) || has_control name then Err (BadRequest "invalid file name") else Ok name.
Definition validate_content_type (value : option string) : result ApiError string :=
  match value with
  | Some v =>
      let content_type := trim v in
      if decide (content_type = EmptyString) then Ok OCTETS
      else if (255 <? String.length content_type) || has_control content_type then Err (BadRequest "invalid content type") else Ok content_type
  | None => Ok OCTETS
  end.
Definition validate_file_size (size limit : Z) : result ApiError unit :=
  if bool_decide (size ≤ 0)%Z || bool_decide (limit < size)%Z then Err (BadRequest ("file size must be between 1 and " +:+ pretty limit +:+ " bytes")) else Ok tt.
(** [str::parse::<usize>] on 64 bits. *)
Definition parse_usize (s : string) : option Z :=
  let digits := match s with String "+" r => r | _ => s end in
  match digits with EmptyString => None | _ => z ← parse_digits digits 0%Z; if decide (z < 2 ^ 64)%Z then Some z else None end.
Definition DEFAULT_MAX_FILE_BYTES : Z := (1024 * 1024 * 1024)%Z.
Definition max_file_bytes (setting : option string) : Z :=
  match setting ≫= parse_usize with Some z => if decide (0 < z)%Z then z else DEFAULT_MAX_FILE_BYTES | None => DEFAULT_MAX_FILE_BYTES end.
Definition write_key (app : string) : string := "app:" +:+ app +:+ ":storage.write".
Definition read_key (app : string) : string := "app:" +:+ app +:+ ":storage.read".
Definition require_write (pool : Pool) (user : uuid) (app : string) : result ApiError unit := require_perm pool user (write_key app).

(** What is said of a session. *)
Record UploadSession := { sess_id : uuid; sess_app : string; sess_name : string; sess_type : string; sess_expected : Z; sess_uploaded : Z; sess_done : option uuid; sess_created : Z; sess_expires : Z }.
Definition session_of (id : uuid) (u : SessionRow) : UploadSession :=
  {| sess_id := id; sess_app := us_app u; sess_name := us_name u; sess_type := us_type u; sess_expected := us_expected u; sess_uploaded := us_uploaded u; sess_done := us_done u; sess_created := us_created u;
     sess_expires := us_expires u |}.
Record UploadSessionResponse := { rsp_session : UploadSession; rsp_state : string; rsp_max_chunk : Z }.
Definition session_response (u : UploadSession) : UploadSessionResponse :=
  {| rsp_session := u; rsp_state := match sess_done u with Some _ => "completed" | None => "uploading" end; rsp_max_chunk := MAX_CHUNK_BYTES |}.
Record StoredFile := { sf_id : uuid; sf_name : string; sf_type : string; sf_size : Z; sf_checksum : string }.

(** ** Resumable uploads *)

Section Handlers.
Context (sha256_hex : bytes → string) (setting : option string).
Definition limit : Z := i64 (max_file_bytes setting).
Definition is_mine (app : string) (user : uuid) (u : SessionRow) : bool := bool_decide (us_app u = app) && bool_decide (us_by u = user).
Definition my_session (id : uuid) (app : string) (user : uuid) (s : Store) : option SessionRow := u ← sessions s !! id; if is_mine app user u then Some u else None.
Definition live_session (id : uuid) (app : string) (user : uuid) (s : Store) : option SessionRow :=
  u ← my_session id app user s; if decide (time s < us_expires u)%Z then Some u else None.
Definition create_tx (id user : uuid) (app name content_type : string) (size : Z) (oid : N) : STx (bool * UploadSessionResponse) :=
  do! select (λ _, tt) in
  do! delete_where expired in
  let! existing := select (my_session id app user) in
  match existing with
  | Some u =>
      do! guardT (bool_decide (us_name u = name) && bool_decide (us_type u = content_type) && bool_decide (us_expected u = size)) (Conflict "upload id already exists with different metadata") in
      ret (false, session_response (session_of id u))
  | None =>
      let! id_exists := select (λ s, bool_decide (is_Some (sessions s !! id))) in
      do! guardT (negb id_exists) (Conflict "upload id is unavailable") in
      let! oid := sql (λ s, if decide (is_Some (objects s !! oid)) then Err DB_ERROR else Ok (oid, set_objects (<[oid := []]> (objects s)) s)) in
      sql (λ s, let u := {| us_app := app; us_name := name; us_type := content_type; us_expected := size; us_uploaded := 0; us_oid := Some oid; us_by := user; us_done := None; us_created := time s; us_expires := (time s + SESSION_TTL)%Z |} in
                let? '(_, s') := put_session id u s in Ok ((true, session_response (session_of id u)), s'))
  end.
Definition get_upload (id : uuid) (app : string) (user : uuid) : STx UploadSessionResponse :=
  let! found := select (live_session id app user) in
  match found with Some u => ret (session_response (session_of id u)) | None => fail (NotFound ("upload " +:+ id)) end.
Definition select_locked_upload (id : uuid) (app : string) (user : uuid) : STx SessionRow :=
  let! found := select (live_session id app user) in
  match found with Some u => ret u | None => fail (NotFound ("upload " +:+ id)) end.
Definition content_oid (u : SessionRow) : STx N := match us_oid u with Some oid => ret oid | None => fail (Internal "active upload has no content") end.
Definition lock_upload (id : uuid) (app : string) (user : uuid) : STx (SessionRow * Appender) :=
  let! u := select_locked_upload id app user in
  do! guardT (bool_decide (us_done u = None)) (Conflict "upload already completed") in
  let! oid := content_oid u in
  let! a := objs (a_open oid (us_uploaded u)) in
  ret (u, a).
(** The body of a request: pieces, or the error it ends with. *)
Fixpoint append_loop (u : SessionRow) (offset : Z) (a : Appender) (size : Z) (body : list (result string bytes)) : STx (Z * Appender) :=
  match body with
  | [] => ret (size, a)
  | Err e :: _ => fail (BadRequest e)
  | Ok chunk :: body =>
      let size := i64 (size + len chunk) in
      do! guardT (negb (bool_decide (MAX_CHUNK_BYTES < size)%Z)) (BadRequest ("chunk exceeds " +:+ pretty MAX_CHUNK_BYTES +:+ " bytes")) in
      do! guardT (negb (bool_decide (us_expected u < i64 (offset + size))%Z)) (BadRequest "chunk exceeds declared file size") in
      let! a := objs (a_write a chunk) in
      append_loop u offset a size body
  end.
Definition touch (id : uuid) (uploaded : Z) (s : Store) : result ApiError (unit * Store) :=
  match sessions s !! id with
  | Some u => put_session id {| us_app := us_app u; us_name := us_name u; us_type := us_type u; us_expected := us_expected u; us_uploaded := uploaded; us_oid := us_oid u; us_by := us_by u; us_done := us_done u;
                                us_created := us_created u; us_expires := (time s + SESSION_TTL)%Z |} s
  | None => Ok (tt, s)
  end.
Definition append_tx (id user : uuid) (app : string) (offset : Z) (body : list (result string bytes)) : STx Z :=
  let! '(u, a) := lock_upload id app user in
  do! guardT (bool_decide (offset = us_uploaded u)) (Conflict ("upload offset mismatch: expected " +:+ pretty (us_uploaded u) +:+ ", got " +:+ pretty offset)) in
  let! '(size, a) := append_loop u offset a 0 body in
  do! guardT (negb (bool_decide (size = 0)%Z)) (BadRequest "empty upload chunk") in
  let uploaded := position a in
  do! sql (touch id uploaded) in
  do! objs (a_commit a) in
  ret uploaded.
Definition load_stored_file (file : uuid) (app : string) : STx StoredFile :=
  let! row := select (λ s, f ← files s !! file; if decide (f_app f = app) then Some f else None) in
  match row with
  | None => fail (NotFound ("file " +:+ file))
  | Some f => match f_checksum f with
              | Some sum => ret {| sf_id := file; sf_name := f_name f; sf_type := f_type f; sf_size := f_size f; sf_checksum := sum |}
              | None => fail DB_ERROR
              end
  end.
Definition insert_file (refusal : ApiError) (file : uuid) (f : FileRow) (s : Store) : result ApiError (unit * Store) :=
  if decide (is_Some (files s !! file)) then Err refusal else Ok (tt, set_files (<[file := f]> (files s)) s).
Definition complete_session (id file : uuid) (s : Store) : result ApiError (unit * Store) :=
  match sessions s !! id with
  | Some u => put_session id {| us_app := us_app u; us_name := us_name u; us_type := us_type u; us_expected := us_expected u; us_uploaded := us_uploaded u; us_oid := None; us_by := us_by u; us_done := Some file;
                                us_created := us_created u; us_expires := (time s + SESSION_TTL)%Z |} s
  | None => Ok (tt, s)
  end.
(** Whether the file is new, and the file. *)
Definition complete_tx (id user : uuid) (app : string) (file : uuid) : STx (bool * StoredFile) :=
  let! u := select_locked_upload id app user in
  match us_done u with
  | Some done => let! f := load_stored_file done app in ret (false, f)
  | None =>
      do! guardT (bool_decide (us_uploaded u = us_expected u)) (BadRequest ("upload incomplete: " +:+ pretty (us_uploaded u) +:+ "/" +:+ pretty (us_expected u) +:+ " bytes")) in
      let! oid := content_oid u in
      let! checksum := objs (checksum_in_transaction sha256_hex oid (us_uploaded u)) in
      do! sql (insert_file DB_ERROR file {| f_app := app; f_name := us_name u; f_type := us_type u; f_size := us_uploaded u; f_content := None; f_oid := Some oid; f_checksum := Some checksum; f_by := Some user |}) in
      do! sql (complete_session id file) in
      ret (true, {| sf_id := file; sf_name := us_name u; sf_type := us_type u; sf_size := us_uploaded u; sf_checksum := checksum |})
  end.
Definition cancel_tx (id user : uuid) (app : string) : STx unit :=
  let! u := select_locked_upload id app user in
  do! guardT (bool_decide (us_done u = None)) (Conflict "completed upload cannot be cancelled") in
  delete_where (λ _ i _, bool_decide (i = id)).
Definition cleanup_tx : STx unit := delete_where expired.

(** ** Files in one piece *)

(** An error of a statement that was a [RuntimeError] before it was an answer. *)
Definition schema_api (e : SqlError) : ApiError := api_error_of (schema_error e).
Fixpoint upload_loop (max_size : Z) (w : Writer) (body : list (result string bytes)) : STx Writer :=
  match body with
  | [] => ret w
  | Err e :: _ => fail (BadRequest e)
  | Ok chunk :: body =>
      let next_size := i64 (w_size w + len chunk) in
      do! guardT (negb (bool_decide (limit < next_size)%Z)) (BadRequest ("file exceeds storage limit (" +:+ pretty limit +:+ " bytes)")) in
      do! guardT (negb (bool_decide (0 < max_size)%Z && bool_decide (i64 max_size < next_size)%Z)) (BadRequest ("file exceeds declared size (" +:+ pretty max_size +:+ " bytes)")) in
      let! w := objs (w_write w chunk) in
      upload_loop max_size w body
  end.
(** [PostgresBackend::finish] but for the commit: size and checksum. *)
Definition finish_upload (w : Writer) (file : uuid) (app name content_type : string) (by_ : option uuid) : STx (Z * string) :=
  let size := w_size w in
  let checksum := w_checksum sha256_hex w in
  do! stmt schema_api (λ _, insert_file (Internal "internal error") file
        {| f_app := app; f_name := name; f_type := content_type; f_size := size; f_content := None; f_oid := Some (w_oid w); f_checksum := Some checksum; f_by := by_ |}) in
  do! objs (w_commit w) in
  ret (size, checksum).
(** A user's upload declares no size, [max_size] is 0. *)
Definition upload_tx (max_size : Z) (file : uuid) (app name content_type : string) (by_ : option uuid) (oid : N) (body : list (result string bytes)) : STx (Z * string) :=
  let! w := objs (w_create oid) in
  let! w := upload_loop max_size w body in
  do! guardT (negb (bool_decide (w_size w = 0)%Z)) (BadRequest "empty file") in
  finish_upload w file app name content_type by_.
(** [PostgresBackend::put] *)
Definition put_tx (file : uuid) (app name content_type : string) (data : bytes) (by_ : option uuid) (oid : N) : STx unit :=
  let! w := objs (w_create oid) in
  let! w := objs (w_write w data) in
  do! finish_upload w file app name content_type by_ in
  ret tt.
Definition file_row (file : uuid) (app : string) (s : Store) : option FileRow := f ← files s !! file; if decide (f_app f = app) then Some f else None.
(** [DELETE FROM files]: the row, its large object, and the completed sessions that refer to it. *)
Definition delete_row (file : uuid) (app : string) (s : Store) : option (bool * Store) :=
  match file_row file app s with
  | None => Some (false, s)
  | Some f =>
      o ← unlink_all (option_list (f_oid f)) (objects s);
      s' ← delete_sessions (λ _ u, bool_decide (us_done u = Some file)) {| sessions := sessions s; files := delete file (files s); objects := o; time := time s |};
      Some (true, s')
  end.
Definition served (e : RuntimeError) : ApiError := Internal (runtime_error_text e).
Definition delete_tx (file : uuid) (app : string) : STx unit :=
  let! found := stmt (λ e, served (schema_error e)) (λ _ s, match delete_row file app s with Some r => Ok r | None => Err (served (Ident.Schema "large object does not exist")) end) in
  guardT found (NotFound ("file " +:+ file)).
(** Sessions go with their app and with their user. *)
Definition forget_tx (P : SessionRow → bool) : STx unit := delete_where (λ _ _, P).

(** ** Downloads *)

Definition MAX_BUFFERED_FILE_BYTES : Z := (64 * 1024 * 1024)%Z.
Record Download := { dl_type : string; dl_name : string; dl_size : Z; dl_body : list bytes; dl_broken : option RuntimeError }.
Definition no_content (file : uuid) : RuntimeError := protocol_error ("file " +:+ file +:+ " has no content").
(** [PostgresBackend::open] on the row that was found: the object is read as it is when it
    is opened. *)
Definition open_body (file : uuid) (f : FileRow) (fate : Fate) (o : Objects) : result RuntimeError Download :=
  match f_content f, f_oid f with
  | Some content, _ => Ok {| dl_type := f_type f; dl_name := f_name f; dl_size := f_size f; dl_body := [content]; dl_broken := None |}
  | None, Some oid =>
      let? '(r, n, o') := r_start oid (f_size f) fate 0 o in
      let '(body, broken) := into_body r fate n o' in
      Ok {| dl_type := f_type f; dl_name := f_name f; dl_size := f_size f; dl_body := body; dl_broken := broken |}
  | None, None => Err (no_content file)
  end.
Definition get_content (file : uuid) (f : FileRow) (fate : Fate) (o : Objects) : result RuntimeError bytes :=
  match f_content f, f_oid f with
  | Some content, _ => Ok content
  | None, Some oid =>
      if decide (MAX_BUFFERED_FILE_BYTES < f_size f)%Z then Err (protocol_error ("file " +:+ file +:+ " is too large for buffered access; use streaming open"))
      else let? '(r, n, o') := r_start oid (f_size f) fate 0 o in
           let? '(data, _, _) := read_all r fate n o' in Ok data
  | None, None => Err (no_content file)
  end.
End Handlers.

(** ** Nonces *)

Record UploadNonce := { un_app : string; un_name : string; un_type : string; un_max : Z; un_expires : Z }.
Record DownloadNonce := { dn_file : uuid; dn_app : string; dn_expires : Z }.
Record NonceStore := { uploads_ : gmap string UploadNonce; downloads_ : gmap string DownloadNonce }.
Definition NONCE_TTL : Z := 60%Z.
Definition DOWNLOAD_NONCE_TTL : Z := 300%Z.
Definition nonce_cleanup (now : Z) (s : NonceStore) : NonceStore :=
  {| uploads_ := filter (λ kv, (now < un_expires kv.2)%Z) (uploads_ s); downloads_ := filter (λ kv, (now < dn_expires kv.2)%Z) (downloads_ s) |}.
Definition nonce_create (now : Z) (nonce app name content_type : string) (max_size : Z) (s : NonceStore) : NonceStore :=
  let s := nonce_cleanup now s in
  {| uploads_ := <[nonce := {| un_app := app; un_name := name; un_type := content_type; un_max := max_size; un_expires := (now + NONCE_TTL)%Z |}]> (uploads_ s); downloads_ := downloads_ s |}.
Definition nonce_consume (now : Z) (nonce : string) (s : NonceStore) : NonceStore * option UploadNonce :=
  match uploads_ s !! nonce with
  | None => (s, None)
  | Some e => ({| uploads_ := delete nonce (uploads_ s); downloads_ := downloads_ s |}, if decide (un_expires e < now)%Z then None else Some e)
  end.
Definition nonce_create_download (now : Z) (nonce : string) (file : uuid) (app : string) (s : NonceStore) : NonceStore :=
  let s := nonce_cleanup now s in
  {| uploads_ := uploads_ s; downloads_ := <[nonce := {| dn_file := file; dn_app := app; dn_expires := (now + DOWNLOAD_NONCE_TTL)%Z |}]> (downloads_ s) |}.
Definition nonce_consume_download (now : Z) (nonce : string) (s : NonceStore) : NonceStore * option DownloadNonce :=
  match downloads_ s !! nonce with
  | None => (s, None)
  | Some e => ({| uploads_ := uploads_ s; downloads_ := delete nonce (downloads_ s) |}, if decide (dn_expires e < now)%Z then None else Some e)
  end.

(** ** What storage promises *)

(** Uploads and files as their owners know them: bytes, no objects. *)
Record Upload := { u_app : string; u_name : string; u_type : string; u_expected : Z; u_by : uuid; u_bytes : bytes; u_done : option uuid; u_created : Z; u_expires : Z }.
Record Stored := { st_app : string; st_name : string; st_type : string; st_bytes : bytes; st_checksum : option string; st_by : option uuid }.
Record Spec := { uploads : gmap uuid Upload; stored : gmap uuid Stored; clock : Z }.
Definition with_uploads (m : gmap uuid Upload) (t : Spec) : Spec := {| uploads := m; stored := stored t; clock := clock t |}.
Definition without (P : Upload → bool) (t : Spec) : Spec := with_uploads (filter (λ kv, P kv.2 = false) (uploads t)) t.
Definition upload_answer (id : uuid) (u : Upload) : UploadSessionResponse :=
  session_response {| sess_id := id; sess_app := u_app u; sess_name := u_name u; sess_type := u_type u; sess_expected := u_expected u;
    sess_uploaded := match u_done u with Some _ => u_expected u | None => len (u_bytes u) end; sess_done := u_done u; sess_created := u_created u; sess_expires := u_expires u |}.
Definition file_answer (file : uuid) (f : Stored) : option StoredFile :=
  sum ← st_checksum f; Some {| sf_id := file; sf_name := st_name f; sf_type := st_type f; sf_size := len (st_bytes f); sf_checksum := sum |}.
Fixpoint body_data (body : list (result string bytes)) : option bytes :=
  match body with [] => Some [] | Err _ :: _ => None | Ok c :: body => rest ← body_data body; Some (c ++ rest) end.
Definition find_upload (id : uuid) (app : string) (user : uuid) (t : Spec) : option Upload :=
  u ← uploads t !! id; if decide (u_app u = app ∧ u_by u = user ∧ (clock t < u_expires u)%Z) then Some u else None.

Inductive Action :=
| ACreate (id user : uuid) (app name content_type : string) (size : Z) (oid : N)
| AAppend (id user : uuid) (app : string) (offset : Z) (body : list (result string bytes))
| AComplete (id user : uuid) (app : string) (file : uuid)
| ACancel (id user : uuid) (app : string)
| AUpload (max_size : Z) (file : uuid) (app name content_type : string) (by_ : option uuid) (oid : N) (body : list (result string bytes))
| APut (file : uuid) (app name content_type : string) (data : bytes) (by_ : option uuid) (oid : N)
| ADelete (file : uuid) (app : string)
| ACleanup
| AForgetApp (app : string)
| AForgetUser (user : uuid).
Inductive Answer := Session (created : bool) (s : UploadSessionResponse) | Offset (uploaded : Z) | File (created : bool) (f : StoredFile) | Uploaded (size : Z) (checksum : string) | Kept | Gone.

Section Promise.
Context (sha256_hex : bytes → string) (setting : option string).
Definition tx_of (a : Action) : STx Answer :=
  match a with
  | ACreate id user app name content_type size oid => let! '(created, u) := create_tx id user app name content_type size oid in ret (Session created u)
  | AAppend id user app offset body => let! uploaded := append_tx id user app offset body in ret (Offset uploaded)
  | AComplete id user app file => let! '(created, f) := complete_tx sha256_hex id user app file in ret (File created f)
  | ACancel id user app => do! cancel_tx id user app in ret Gone
  | AUpload max_size file app name content_type by_ oid body => let! '(size, checksum) := upload_tx sha256_hex setting max_size file app name content_type by_ oid body in ret (Uploaded size checksum)
  | APut file app name content_type data by_ oid => do! put_tx sha256_hex file app name content_type data by_ oid in ret Kept
  | ADelete file app => do! delete_tx file app in ret Gone
  | ACleanup => do! cleanup_tx in ret Gone
  | AForgetApp app => do! forget_tx (λ u, bool_decide (us_app u = app)) in ret Gone
  | AForgetUser user => do! forget_tx (λ u, bool_decide (us_by u = user)) in ret Gone
  end.
Definition perform (wrap : SqlError → ApiError) (a : Action) (fate : Fate) (s : Store) : Store * result ApiError Answer := in_tx wrap (tx_of a) fate s.
Definition expire (t : Spec) : Spec := without (λ u, bool_decide (u_expires u ≤ clock t)%Z) t.
Definition received (u : Upload) (data : bytes) (t : Spec) : Upload :=
  {| u_app := u_app u; u_name := u_name u; u_type := u_type u; u_expected := u_expected u; u_by := u_by u; u_bytes := u_bytes u ++ data; u_done := u_done u; u_created := u_created u; u_expires := (clock t + SESSION_TTL)%Z |}.
Definition finished (u : Upload) (file : uuid) (t : Spec) : Upload :=
  {| u_app := u_app u; u_name := u_name u; u_type := u_type u; u_expected := u_expected u; u_by := u_by u; u_bytes := []; u_done := Some file; u_created := u_created u; u_expires := (clock t + SESSION_TTL)%Z |}.
Definition add_file (file : uuid) (f : Stored) (t : Spec) : Spec := {| uploads := uploads t; stored := <[file := f]> (stored t); clock := clock t |}.
(** What an action may do and answer; [None]: it must be refused. *)
Definition spec (a : Action) (t : Spec) : option (Spec * Answer) :=
  match a with
  | ACreate id user app name content_type size _ =>
      let t := expire t in
      match uploads t !! id with
      | Some u => if decide (u_app u = app ∧ u_by u = user ∧ u_name u = name ∧ u_type u = content_type ∧ u_expected u = size) then Some (t, Session false (upload_answer id u)) else None
      | None =>
          let u := {| u_app := app; u_name := name; u_type := content_type; u_expected := size; u_by := user; u_bytes := []; u_done := None; u_created := clock t; u_expires := (clock t + SESSION_TTL)%Z |} in
          if decide (0 < size)%Z then Some (with_uploads (<[id := u]> (uploads t)) t, Session true (upload_answer id u)) else None
      end
  | AAppend id user app offset body =>
      u ← find_upload id app user t;
      data ← body_data body;
      if decide (u_done u = None ∧ offset = len (u_bytes u) ∧ data ≠ [] ∧ (len data ≤ MAX_CHUNK_BYTES)%Z ∧ (len (u_bytes u ++ data) ≤ u_expected u `min` MAX_OBJECT)%Z)
      then Some (with_uploads (<[id := received u data t]> (uploads t)) t, Offset (len (u_bytes u ++ data))) else None
  | AComplete id user app file =>
      u ← find_upload id app user t;
      match u_done u with
      | Some done => f ← stored t !! done; if decide (st_app f = app) then sf ← file_answer done f; Some (t, File false sf) else None
      | None =>
          let f := {| st_app := app; st_name := u_name u; st_type := u_type u; st_bytes := u_bytes u; st_checksum := Some (sha256_hex (u_bytes u)); st_by := Some user |} in
          if decide (len (u_bytes u) = u_expected u ∧ stored t !! file = None)
          then sf ← file_answer file f; Some (add_file file f (with_uploads (<[id := finished u file t]> (uploads t)) t), File true sf) else None
      end
  | ACancel id user app =>
      u ← find_upload id app user t;
      if decide (u_done u = None) then Some (with_uploads (delete id (uploads t)) t, Gone) else None
  | AUpload max_size file app name content_type by_ _ body =>
      data ← body_data body;
      if decide (data ≠ [] ∧ (len data ≤ limit setting `min` MAX_OBJECT)%Z ∧ ((0 < max_size)%Z → (len data ≤ i64 max_size)%Z) ∧ stored t !! file = None)
      then Some (add_file file {| st_app := app; st_name := name; st_type := content_type; st_bytes := data; st_checksum := Some (sha256_hex data); st_by := by_ |} t, Uploaded (len data) (sha256_hex data)) else None
  | APut file app name content_type data by_ _ =>
      if decide ((len data ≤ MAX_OBJECT)%Z ∧ stored t !! file = None)
      then Some (add_file file {| st_app := app; st_name := name; st_type := content_type; st_bytes := data; st_checksum := Some (sha256_hex data); st_by := by_ |} t, Kept) else None
  | ADelete file app =>
      f ← stored t !! file;
      if decide (st_app f = app) then Some (let t := without (λ u, bool_decide (u_done u = Some file)) t in {| uploads := uploads t; stored := delete file (stored t); clock := clock t |}, Gone) else None
  | ACleanup => Some (expire t, Gone)
  | AForgetApp app => Some (without (λ u, bool_decide (u_app u = app)) t, Gone)
  | AForgetUser user => Some (without (λ u, bool_decide (u_by u = user)) t, Gone)
  end.

(** ** How the tables keep it *)

Definition bytes_at (o : Objects) (oid : option N) : bytes := default [] (oid ≫= λ i, o !! i).
Definition abs_upload (o : Objects) (u : SessionRow) : Upload :=
  {| u_app := us_app u; u_name := us_name u; u_type := us_type u; u_expected := us_expected u; u_by := us_by u; u_bytes := bytes_at o (us_oid u); u_done := us_done u; u_created := us_created u; u_expires := us_expires u |}.
Definition abs_file (o : Objects) (f : FileRow) : Stored :=
  {| st_app := f_app f; st_name := f_name f; st_type := f_type f; st_bytes := default (bytes_at o (f_oid f)) (f_content f); st_checksum := f_checksum f; st_by := f_by f |}.
Definition abs (s : Store) : Spec := {| uploads := abs_upload (objects s) <$> sessions s; stored := abs_file (objects s) <$> files s; clock := time s |}.
(** Who an object belongs to. *)
Inductive belongs (s : Store) : uuid + uuid → N → Prop :=
| of_session id u oid : sessions s !! id = Some u → us_oid u = Some oid → belongs s (inl id) oid
| of_file id f oid : files s !! id = Some f → f_oid f = Some oid → belongs s (inr id) oid.
Definition session_ok (s : Store) (u : SessionRow) : Prop :=
  (0 < us_expected u)%Z ∧
  ((us_done u = None ∧ ∃ oid c, us_oid u = Some oid ∧ objects s !! oid = Some c ∧ us_uploaded u = len c ∧ (len c ≤ us_expected u)%Z) ∨
   (us_oid u = None ∧ us_uploaded u = us_expected u ∧ is_Some (us_done u))).
Definition file_ok (s : Store) (f : FileRow) : Prop :=
  (∃ c, f_content f = Some c ∧ f_oid f = None ∧ f_size f = len c) ∨
  (f_content f = None ∧ ∃ oid c, f_oid f = Some oid ∧ objects s !! oid = Some c ∧ f_size f = len c ∧ f_checksum f = Some (sha256_hex c)).
(** Large objects are one table of the database, and others keep theirs in it: the objects
    that are neither an upload's nor a file's, with what is in them. *)
Section Keeping.
Context (theirs : Objects).
Record Inv (s : Store) : Prop := {
  inv_sessions : ∀ id u, sessions s !! id = Some u → session_ok s u;
  inv_files : ∀ id f, files s !! id = Some f → file_ok s f;
  inv_one : ∀ k k' oid, belongs s k oid → belongs s k' oid → k = k';
  inv_none : ∀ oid c, objects s !! oid = Some c → theirs !! oid = None → ∃ k, belongs s k oid;
  inv_theirs : ∀ oid c, theirs !! oid = Some c → objects s !! oid = Some c ∧ ∀ k, ¬ belongs s k oid }.
(** A completed session is of a file of its app. *)
Definition Refs (s : Store) : Prop := ∀ id u file, sessions s !! id = Some u → us_done u = Some file → ∃ f, files s !! file = Some f ∧ f_app f = us_app u ∧ is_Some (f_checksum f).
Definition Sound (s : Store) : Prop := Inv s ∧ Refs s.
Lemma fresh_not_theirs s oid : Inv s → objects s !! oid = None → theirs !! oid = None.
Proof. intros HI Ho. destruct (theirs !! oid) as [c|] eqn:Hc; [|done]. apply (inv_theirs s HI) in Hc as [Hc _]. congruence. Qed.
Lemma owned_not_theirs s k oid : Inv s → belongs s k oid → theirs !! oid = None.
Proof. intros HI Hk. destruct (theirs !! oid) as [c|] eqn:Hc; [|done]. apply (inv_theirs s HI) in Hc as [_ Hn]. by destruct (Hn k). Qed.
(** What others have stays theirs when objects that are not theirs are made or removed. *)
Lemma theirs_kept s s' : Inv s → (∀ i, objects s' !! i = objects s !! i ∨ theirs !! i = None) → (∀ k i, belongs s' k i → (∃ k', belongs s k' i) ∨ theirs !! i = None) →
  ∀ oid c, theirs !! oid = Some c → objects s' !! oid = Some c ∧ ∀ k, ¬ belongs s' k oid.
Proof.
  intros HI Ho Hb oid c Hc. destruct (inv_theirs s HI oid c Hc) as [Hin Hn]. split.
  - destruct (Ho oid) as [->|]; [done|congruence].
  - intros k Hk. destruct (Hb k oid Hk) as [[k' Hk']|]; [by apply (Hn k')|congruence].
Qed.

Lemma unlink_all_ok l o : NoDup l → (∀ i, i ∈ l → is_Some (o !! i)) → ∃ o', unlink_all l o = Some o' ∧ ∀ i, o' !! i = if decide (i ∈ l) then None else o !! i.
Proof.
  revert o. induction l as [|x l IH]; intros o Hnd Hin; [exists o; split; [done|]; intros i; by rewrite decide_False by apply not_elem_of_nil|]. apply NoDup_cons in Hnd as [Hx Hnd].
  cbn. destruct (Hin x) as [c ->]; [set_solver|]. destruct (IH (delete x o) Hnd) as (o' & -> & Ho'); [intros i Hi; rewrite lookup_delete_ne by set_solver; apply Hin; set_solver|]. exists o'. split; [done|]. intros i. rewrite Ho'.
  destruct (decide (i = x)) as [->|Hne]; [rewrite (decide_False (P := x ∈ l)), (decide_True (P := x ∈ x :: l)) by set_solver; by rewrite lookup_delete_eq|]. rewrite lookup_delete_ne by done.
  destruct (decide (i ∈ l)); [by rewrite decide_True by set_solver|by rewrite decide_False by set_solver].
Qed.
Lemma elem_of_oids m i : i ∈ oids_of m ↔ ∃ id u, m !! id = Some u ∧ us_oid u = Some i.
Proof.
  unfold oids_of. rewrite list_elem_of_omap. setoid_rewrite list_elem_of_fmap. split.
  - intros (u & ([id u'] & -> & Hin%elem_of_map_to_list) & Hu). eauto.
  - intros (id & u & Hm & Hu). exists u. split; [|done]. exists (id, u). split; [done|]. by apply elem_of_map_to_list.
Qed.
Lemma oids_NoDup m : (∀ id id' u u' i, m !! id = Some u → m !! id' = Some u' → us_oid u = Some i → us_oid u' = Some i → id = id') → NoDup (oids_of m).
Proof.
  induction m as [|id u m Hid IH] using map_ind; intros Hinj; [by apply NoDup_nil|].
  assert (oids_of (<[id := u]> m) ≡ₚ option_list (us_oid u) ++ oids_of m) as ->.
  { unfold oids_of. rewrite map_to_list_insert by done. cbn. by destruct (us_oid u). }
  assert (NoDup (oids_of m)) as Hm.
  { apply IH. intros a b u1 u2 i H1 H2. apply (Hinj a b u1 u2 i); rewrite lookup_insert_ne; [done|intros ->; congruence|done|intros ->; congruence]. }
  destruct (us_oid u) as [i|] eqn:Hu; [|done]. cbn. apply NoDup_cons. split; [|done]. intros (id' & u' & Hm' & Hu')%elem_of_oids. assert (id = id') as ->.
  { apply (Hinj id id' u u' i); [by rewrite lookup_insert_eq|rewrite lookup_insert_ne; [done|intros ->; congruence]|done|done]. }
  congruence.
Qed.
Lemma fmap_bytes {R T : Type} (f : Objects → R → T) (oid : R → option N) (m : gmap uuid R) o o' :
  (∀ r, bytes_at o' (oid r) = bytes_at o (oid r) → f o' r = f o r) → (∀ id r i, m !! id = Some r → oid r = Some i → o' !! i = o !! i) → f o' <$> m = f o <$> m.
Proof.
  intros Hf Hm. apply map_fmap_ext. intros id r Hr. apply Hf. unfold bytes_at. destruct (oid r) as [i|] eqn:Hi; [|done]. cbn. by rewrite (Hm id r i Hr Hi).
Qed.
Lemma abs_upload_bytes o o' u : bytes_at o' (us_oid u) = bytes_at o (us_oid u) → abs_upload o' u = abs_upload o u.
Proof. intros H. unfold abs_upload. by rewrite H. Qed.
Lemma abs_file_bytes o o' f : bytes_at o' (f_oid f) = bytes_at o (f_oid f) → abs_file o' f = abs_file o f.
Proof. intros H. unfold abs_file. by rewrite H. Qed.

(** The objects of a state in which some rows are gone. *)
Section Deleted.
Context (s : Store) (HI : Inv s) (P : uuid → SessionRow → bool).
Lemma kept_lookup id u : kept P (sessions s) !! id = Some u ↔ sessions s !! id = Some u ∧ P id u = false.
Proof. unfold kept. apply map_lookup_filter_Some. Qed.
Lemma gone_lookup id u : gone P (sessions s) !! id = Some u ↔ sessions s !! id = Some u ∧ P id u = true.
Proof. unfold gone. apply map_lookup_filter_Some. Qed.
Lemma belongs_object k oid : belongs s k oid → is_Some (objects s !! oid).
Proof using HI.
  intros [id u i Hu Hi|id f i Hf Hi].
  - destruct (inv_sessions s HI id u Hu) as [_ [(_ & oid' & c & Ho & Hc & _)|(Hn & _)]]; [|congruence]. assert (oid' = i) as -> by congruence. by eexists.
  - destruct (inv_files s HI id f Hf) as [(_ & _ & Hn & _)|(_ & oid' & c & Ho & Hc & _)]; [congruence|]. assert (oid' = i) as -> by congruence. by eexists.
Qed.
Lemma delete_sessions_ok : ∃ s', delete_sessions P s = Some s' ∧ Inv s' ∧ sessions s' = kept P (sessions s) ∧ files s' = files s ∧ time s' = time s
  ∧ uploads (abs s') = abs_upload (objects s) <$> kept P (sessions s) ∧ stored (abs s') = stored (abs s).
Proof using HI.
  unfold delete_sessions. destruct (unlink_all_ok (oids_of (gone P (sessions s))) (objects s)) as (o' & -> & Ho').
  { apply oids_NoDup. intros id id' u u' i [H1 _]%gone_lookup [H2 _]%gone_lookup H3 H4. assert (@inl uuid uuid id = inl id') as [= ->]; [|done]. eapply (inv_one s HI); by econstructor. }
  { intros i (id & u & [Hu _]%gone_lookup & Hi)%elem_of_oids. apply (belongs_object (inl id)). by econstructor. }
  assert (∀ k i, belongs s k i → (∀ id u, k = inl id → sessions s !! id = Some u → P id u = false) → o' !! i = objects s !! i) as Hkeep.
  { intros k i Hb Hk. rewrite Ho'. destruct (decide _) as [(id & u & [Hu HP]%gone_lookup & Hi)%elem_of_oids|]; [|done]. assert (k = inl id) as -> by (eapply (inv_one s HI); [done|by econstructor]). rewrite (Hk id u eq_refl Hu) in HP. done. }
  eexists. split; [done|]. set (s' := {| sessions := kept P (sessions s) |}).
  assert (∀ id u i, kept P (sessions s) !! id = Some u → us_oid u = Some i → o' !! i = objects s !! i) as Hks.
  { intros id u i [Hu HP]%kept_lookup Hi. apply (Hkeep (inl id)); [by econstructor|]. intros ? ? [= <-] ?. congruence. }
  assert (∀ id f i, files s !! id = Some f → f_oid f = Some i → o' !! i = objects s !! i) as Hkf by (intros id f i Hf Hi; apply (Hkeep (inr id)); [by econstructor|done]).
  assert (∀ k i, belongs s' k i → belongs s k i) as Hb by (intros k i [id u i' [Hu _]%kept_lookup Hi|id f i' Hf Hi]; by econstructor).
  split_and!; try done.
  - split.
    + intros id u [Hu HP]%kept_lookup. destruct (inv_sessions s HI id u Hu) as [He [(Hd & oid & c & Hi & Hc & Hrest)|Hdone]]; (split; [done|]); [left|right; exact Hdone].
      split; [done|]. exists oid, c. split; [done|]. split; [|exact Hrest]. cbn. rewrite (Hks id u oid); [done|by apply kept_lookup|done].
    + intros id f Hf. destruct (inv_files s HI id f Hf) as [Hl|(Hn & oid & c & Hi & Hc & Hrest)]; [by left|right]. split; [done|]. exists oid, c. split; [done|]. split; [|exact Hrest]. cbn. by rewrite (Hkf id f oid).
    + intros k k' i H1%Hb H2%Hb. by eapply (inv_one s HI).
    + intros i c Hc Hth. cbn in Hc. rewrite Ho' in Hc. destruct (decide _) as [|Hni]; [done|]. destruct (inv_none s HI i c Hc Hth) as [k Hbk]. clear Hb. rename Hbk into Hb. inversion Hb as [id u i' Hu Hi|id f i' Hf Hi]; subst; [|exists (inr id); by econstructor].
      exists (inl id). econstructor; [apply kept_lookup; split; [done|]|done]. destruct (P id u) eqn:HP; [|done]. destruct Hni. apply elem_of_oids. exists id, u. split; [|done]. by apply gone_lookup.
    + apply (theirs_kept s); [done| |eauto]. intros i. cbn. rewrite Ho'. destruct (decide _) as [(id & u & [Hu _]%gone_lookup & Hi)%elem_of_oids|]; [right|by left]. apply (owned_not_theirs s (inl id)); [done|by econstructor].
  - apply (fmap_bytes abs_upload us_oid); [intros u; apply abs_upload_bytes|exact Hks].
  - apply (fmap_bytes abs_file f_oid); [intros f; apply abs_file_bytes|exact Hkf].
Qed.
End Deleted.

(** ** Each transaction keeps it *)

Lemma spec_eq t t' : uploads t = uploads t' → stored t = stored t' → clock t = clock t' → t = t'.
Proof. destruct t, t'. cbn. by intros -> -> ->. Qed.
Lemma live_session_some id app user s u : live_session id app user s = Some u → sessions s !! id = Some u ∧ us_app u = app ∧ us_by u = user ∧ (time s < us_expires u)%Z.
Proof.
  unfold live_session, my_session, is_mine. intros (u' & (u2 & Hu & H1)%bind_Some & H2)%bind_Some. destruct (bool_decide (us_app u2 = app) && bool_decide (us_by u2 = user)) eqn:Hm; [|done]. destruct (decide _); [|done]. simplify_eq.
  apply andb_true_iff in Hm as [?%bool_decide_eq_true ?%bool_decide_eq_true]. done.
Qed.
Lemma find_upload_abs id app user s u : live_session id app user s = Some u → find_upload id app user (abs s) = Some (abs_upload (objects s) u).
Proof. intros (Hu & Ha & Hb & He)%live_session_some. unfold find_upload. cbn. rewrite lookup_fmap, Hu. cbn. by rewrite decide_True by done. Qed.
Lemma without_abs P P' s : (∀ id u, P id u = P' (abs_upload (objects s) u)) → abs_upload (objects s) <$> kept P (sessions s) = uploads (without P' (abs s)).
Proof.
  intros HP. apply map_eq. intros id. cbn. apply option_eq. intros up. rewrite lookup_fmap, fmap_Some, map_lookup_filter_Some, lookup_fmap, fmap_Some. cbn. unfold kept. setoid_rewrite map_lookup_filter_Some. cbn. split.
  - intros (u & [Hu Hk] & ->). split; [by exists u|]. by rewrite <-(HP id).
  - intros [(u & Hu & ->) Hk]. exists u. split_and!; [done|by rewrite HP|done].
Qed.
Lemma delete_sessions_abs P P' s s' : Sound s → (∀ id u, P id u = P' (abs_upload (objects s) u)) → delete_sessions P s = Some s' → Sound s' ∧ abs s' = without P' (abs s).
Proof.
  intros [HI HR] HP Hd. destruct (delete_sessions_ok s HI P) as (s1 & Hd1 & HI1 & Hs & Hf & Ht & Hu & Hst). rewrite Hd in Hd1. injection Hd1 as <-. split; [split; [done|]|].
  - intros id u file. rewrite Hs, Hf. intros [H _]%kept_lookup. by apply (HR id).
  - apply spec_eq; [rewrite Hu; by apply without_abs|done|done].
Qed.
Lemma delete_where_ok P P' fate n s u n' s' : Sound s → (∀ id v, P s id v = P' (abs_upload (objects s) v)) → delete_where P fate n s = Ok (u, n', s') → Sound s' ∧ abs s' = without P' (abs s).
Proof. intros HS HP Hd. unfold delete_where, sql in Hd. inv_tx. destruct (delete_sessions (P s) s) as [s1|] eqn:E; [|done]. injection Hd as _ <-. by eapply delete_sessions_abs. Qed.

(** A session that has an object, made or changed. *)
Lemma put_active id u oid c s s' : Inv s → Refs s → us_oid u = Some oid → us_done u = None → us_uploaded u = len c → (len c ≤ us_expected u)%Z → (0 < us_expected u)%Z →
  (∀ k, belongs s k oid → k = inl id) → (∀ v, sessions s !! id = Some v → us_oid v = Some oid) → theirs !! oid = None →
  sessions s' = <[id := u]> (sessions s) → files s' = files s → time s' = time s → objects s' !! oid = Some c → same_but oid (objects s) (objects s') →
  Sound s' ∧ abs s' = with_uploads (<[id := abs_upload (objects s') u]> (uploads (abs s))) (abs s).
Proof.
  intros HI HR Ho Hd Hup Hle Hex Hown Hold Hth Hs Hf Ht Hc Hsame.
  assert (∀ k i, belongs s k i → k ≠ inl id → objects s' !! i = objects s !! i) as Hfr by (intros k i Hb Hk; apply Hsame; intros ->; by apply Hk, Hown).
  assert (∀ k i, belongs s' k i → (k = inl id ∧ i = oid) ∨ (k ≠ inl id ∧ belongs s k i)) as Hb.
  { intros k i [id' v i' Hv Hi|id' f i' Hf' Hi]; [|right; split; [done|]; rewrite Hf in Hf'; by econstructor]. rewrite Hs in Hv. apply lookup_insert_Some in Hv as [[<- <-]|[Hne Hv]]; [left; by simplify_eq|right; split; [congruence|by econstructor]]. }
  assert (∀ k i, k ≠ inl id → belongs s k i → belongs s' k i) as Hb'.
  { intros k i Hk Hbk. inversion Hbk as [id' v i' Hv Hi|id' f i' Hf' Hi]; subst; [eapply of_session; [rewrite Hs, lookup_insert_ne; [exact Hv|congruence]|done]|eapply of_file; [rewrite Hf; exact Hf'|done]]. }
  split; [split; [split|]|].
  - intros id' v. rewrite Hs. intros [[<- <-]|[Hne Hv]]%lookup_insert_Some; [split; [done|left]; eauto 10|]. destruct (inv_sessions s HI id' v Hv) as [He [(Hdv & oid' & c' & Hi & Hc' & Hrest)|Hdone]]; (split; [done|]); [left|by right].
    split; [done|]. exists oid', c'. split; [done|]. split; [|exact Hrest]. rewrite (Hfr (inl id')); [done|by econstructor|congruence].
  - intros id' f. rewrite Hf. intros Hf'. destruct (inv_files s HI id' f Hf') as [Hl|(Hn & oid' & c' & Hi & Hc' & Hrest)]; [by left|right]. split; [done|]. exists oid', c'. split; [done|]. split; [|exact Hrest]. rewrite (Hfr (inr id')); [done|by econstructor|done].
  - intros k k' i [[-> ->]|[H1 H2]]%Hb [[-> Hi]|[H3 H4]]%Hb; [done|by apply Hown in H4|subst; by apply Hown in H2|by eapply (inv_one s HI)].
  - intros i c' Hi Hti. destruct (decide (i = oid)) as [->|Hne]; [exists (inl id); econstructor; [rewrite Hs; by rewrite lookup_insert_eq|done]|]. rewrite Hsame in Hi by done. destruct (inv_none s HI i c' Hi Hti) as [k Hk]. exists k. apply Hb'; [|done].
    intros ->. inversion Hk as [id' v i' Hv Hiv|]; subst. apply Hold in Hv. congruence.
  - apply (theirs_kept s); [done|intros i; destruct (decide (i = oid)) as [->|Hne]; [by right|left; by apply Hsame]|]. intros k i [[_ ->]|[_ Hk]]%Hb; [by right|eauto].
  - intros id' v file. rewrite Hs, Hf. intros [[<- <-]|[Hne Hv]]%lookup_insert_Some; [congruence|]. by apply (HR id').
  - apply spec_eq; cbn; [| |done].
    + rewrite Hs, fmap_insert. apply map_eq. intros id'. destruct (decide (id' = id)) as [->|Hne]; [by rewrite !lookup_insert_eq|]. rewrite !lookup_insert_ne, !lookup_fmap by done. destruct (sessions s !! id') as [v|] eqn:Hv; [|done]. cbn. f_equal. apply abs_upload_bytes.
      unfold bytes_at. destruct (us_oid v) as [i|] eqn:Hi; [|done]. cbn. rewrite (Hfr (inl id')); [done|by econstructor|congruence].
    + rewrite Hf. apply (fmap_bytes abs_file f_oid); [intros f; apply abs_file_bytes|]. intros id' f i Hf' Hi. apply (Hfr (inr id')); [by econstructor|done].
Qed.
Lemma objs_ok {A : Type} (m : Tx Objects RuntimeError A) fate n s a n' s' : objs m fate n s = Ok (a, n', s') → m fate n (objects s) = Ok (a, n', objects s') ∧ s' = set_objects (objects s') s.
Proof. unfold objs, within. destruct (m fate n (objects s)) as [[[b n1] o]|]; [|done]. by intros [= -> -> <-]. Qed.
Lemma selected_is {A : Type} (f : Store → A) fate n s a n' s' : select f fate n s = Ok (a, n', s') → a = f s ∧ s' = s.
Proof. unfold select, sql. intros H. inv_tx. by simplify_eq. Qed.
Lemma sql_ok {A : Type} (f : Store → result ApiError (A * Store)) fate n s a n' s' : sql f fate n s = Ok (a, n', s') → f s = Ok (a, s').
Proof. unfold sql. intros H. by inv_tx. Qed.
Lemma put_session_ok id u s v s' : put_session id u s = Ok (v, s') → session_check u = true ∧ s' = set_sessions (<[id := u]> (sessions s)) s.
Proof. unfold put_session. destruct (session_check u); [|done]. by intros [= _ <-]. Qed.
Ltac inv_stx := repeat (inv_tx; match goal with
  | H : select _ _ _ _ = Ok _ |- _ => apply selected_is in H as [-> ->] || apply selected_is in H as [? ->]
  | H : sql _ _ _ _ = Ok _ |- _ => apply sql_ok in H
  | H : objs _ _ _ _ = Ok _ |- _ => apply objs_ok in H as [? H]
  end); inv_tx.
Lemma session_check_ok u : session_check u = true → (0 < us_expected u)%Z ∧ (0 ≤ us_uploaded u ≤ us_expected u)%Z.
Proof. unfold session_check. intros [[H1%bool_decide_eq_true H2%bool_decide_eq_true]%andb_true_iff _]%andb_true_iff. done. Qed.
Lemma answer_abs s id u : Inv s → sessions s !! id = Some u → upload_answer id (abs_upload (objects s) u) = session_response (session_of id u).
Proof.
  intros HI Hu. unfold upload_answer, session_of. f_equal. cbn. f_equal. destruct (inv_sessions s HI id u Hu) as [_ [(-> & oid & c & -> & Hc & -> & _)|(_ & -> & [f ->])]]; [|done]. unfold bytes_at. cbn. by rewrite Hc.
Qed.
Lemma create_ok id user app name content_type size oid fate n s created rsp n' s' : Sound s → create_tx id user app name content_type size oid fate n s = Ok (created, rsp, n', s') →
  Sound s' ∧ spec (ACreate id user app name content_type size oid) (abs s) = Some (abs s', Session created rsp).
Proof.
  intros HS Hc. unfold create_tx in Hc. inv_stx. match goal with Hd : delete_where _ _ _ _ = Ok (_, _, ?s1') |- _ => rename s1' into s1; eapply (delete_where_ok _ (λ u, bool_decide (u_expires u ≤ time s)%Z)) in Hd as [HS1 Ha]; [|done|done] end.
  assert (expire (abs s) = abs s1) as He by done. cbn [spec]. cbv zeta. rewrite He. cbn [uploads abs]. rewrite lookup_fmap. destruct (my_session id app user s1) as [u|] eqn:Hm.
  - unfold my_session, is_mine in Hm. apply bind_Some in Hm as (v & Hv & Hif). destruct (bool_decide (us_app v = app) && bool_decide (us_by v = user)) eqn:Hmine; [|done]. injection Hif as ->. inv_stx. rewrite Hv. cbn [fmap option_fmap option_map].
    repeat match goal with Hx : _ && _ = true |- _ => apply andb_true_iff in Hx as [? ?] | Hx : bool_decide _ = true |- _ => apply bool_decide_eq_true in Hx end. rewrite decide_True by done. split; [done|]. by rewrite (answer_abs s1) by (done || apply HS1).
  - inv_stx. match goal with Hn : negb (bool_decide (is_Some _)) = true |- _ => apply negb_true_iff, bool_decide_eq_false, eq_None_not_Some in Hn; rename Hn into Hnone end.
    rewrite Hnone. cbn [fmap option_fmap option_map]. destruct (decide (is_Some (objects s1 !! oid))) as [|Hfresh%eq_None_not_Some]; [done|]. match goal with Hx : Ok (oid, _) = Ok _ |- _ => injection Hx as <- <- end.
    apply bind_ok_iff in Hc as ([v s2] & [Hck ->]%put_session_ok & Hc). injection Hc as <- <- <-. apply session_check_ok in Hck as [Hsz _]. cbn in Hsz. rewrite decide_True by done.
    destruct HS1 as [HI1 HR1]. match goal with |- Sound ?s' ∧ _ => destruct (put_active id {| us_app := app; us_name := name; us_type := content_type; us_expected := size; us_uploaded := 0; us_oid := Some oid; us_by := user; us_done := None; us_created := time s1; us_expires := (time s1 + SESSION_TTL)%Z |} oid [] s1 s') as [HS2 Ha2]; try done end.
    + unfold len. cbn. lia.
    + intros k Hk. apply (belongs_object s1 HI1) in Hk. rewrite Hfresh in Hk. by destruct Hk.
    + congruence.
    + by apply (fresh_not_theirs s1).
    + cbn. by rewrite lookup_insert_eq.
    + intros i Hi. cbn. by rewrite lookup_insert_ne.
    + split; [done|]. rewrite Ha2. cbn. unfold abs_upload, bytes_at. cbn. rewrite lookup_insert_eq. cbn. done.
Qed.
Lemma appending_bound oid data a o : appending oid data a o → (len data < 2 ^ 62)%Z.
Proof. intros [[_ Hr (c & _ & <- & _ & Hm)] _]. unfold len, MAX_OBJECT, WRITE_CHUNK_BYTES in *. rewrite length_app. lia. Qed.
Lemma append_loop_ok oid u offset body : ∀ data a size fate n s size' a' n' s', appending oid data a (objects s) → (0 ≤ offset)%Z → (0 ≤ size)%Z → len data = (offset + size)%Z →
  append_loop u offset a size body fate n s = Ok (size', a', n', s') →
  ∃ d, body_data body = Some d ∧ appending oid (data ++ d) a' (objects s') ∧ s' = set_objects (objects s') s ∧ same_but oid (objects s) (objects s') ∧ size' = (size + len d)%Z
    ∧ (d = [] ∨ (size' ≤ MAX_CHUNK_BYTES)%Z ∧ (offset + size' ≤ us_expected u)%Z).
Proof.
  induction body as [|[chunk|e] body IH]; intros data a size fate n s size' a' n' s' Ha Hoff Hsize Hlen Hl; cbn [append_loop] in Hl; [|cbv zeta in Hl; inv_stx|done].
  - inv_tx. exists []. rewrite app_nil_r. split_and!; [done|done|by destruct s|done|unfold len; cbn; lia|by left].
  - match goal with Hw : a_write _ _ _ _ _ = _, Hx : ?s1 = set_objects _ _ |- _ => rename Hw into Hwr; rename Hx into Hs1 end. eapply a_write_ok in Hwr as [Ha1 Hsame1]; [|exact Ha]. pose proof (appending_bound _ _ _ _ Ha1) as Hb.
    assert (len (data ++ chunk) = offset + (size + len chunk))%Z as Hlen1 by (unfold len in *; rewrite length_app; lia). rewrite Hlen1 in Hb. assert (0 ≤ len chunk)%Z by (unfold len; lia). rewrite !i64_id in * by (rewrite ?i64_id; lia).
    eapply IH in Hl as (d & Hd & Ha2 & Hs2 & Hsame2 & -> & Hor); [|exact Ha1|done|lia|done]. cbn. rewrite Hd. exists (chunk ++ d). rewrite app_assoc.
    repeat match goal with Hx : negb (bool_decide _) = true |- _ => apply negb_true_iff, bool_decide_eq_false in Hx end.
    split_and!; [done|done|rewrite Hs2, Hs1; done|by etrans|unfold len; rewrite length_app; lia|]. destruct Hor as [->|[Hl1 Hl2]]; right; [|by split]. unfold len at 2 4. cbn [length]. split; lia.
Qed.
Lemma abs_active s id u oid c : sessions s !! id = Some u → us_oid u = Some oid → objects s !! oid = Some c → bytes_at (objects s) (us_oid u) = c.
Proof. intros _ -> Hc. unfold bytes_at. cbn. by rewrite Hc. Qed.
Lemma append_ok id user app offset body fate n s uploaded n' s' : Sound s → append_tx id user app offset body fate n s = Ok (uploaded, n', s') →
  Sound s' ∧ spec (AAppend id user app offset body) (abs s) = Some (abs s', Offset uploaded).
Proof.
  intros [HI HR] Hx. unfold append_tx, lock_upload, select_locked_upload, content_oid in Hx. inv_stx. destruct (live_session id app user s) as [u|] eqn:Hl; [|inv_tx; done]. inv_stx.
  repeat match goal with Hb : bool_decide _ = true |- _ => apply bool_decide_eq_true in Hb end. pose proof (find_upload_abs _ _ _ _ _ Hl) as Hfind. apply live_session_some in Hl as (Hu & Happ & Hby & Hexp).
  match goal with Hd : us_done _ = None |- _ => rename Hd into Hdone end.
  destruct (inv_sessions s HI id _ Hu) as [Hex [(_ & oid & c & Ho & Hc & Hup & Hle)|(_ & _ & [f Hf])]]; [|congruence]. rewrite Ho in *. inv_stx. subst.
  match goal with Hop : a_open _ _ _ _ _ = _ |- _ => rewrite Hup in Hop; eapply a_open_ok in Hop as [Ho1 Ha1]; [|exact Hc] end.
  match goal with Hl : append_loop _ _ _ _ _ _ _ ?s1 = Ok (_, ?a, _, ?s2), Hs : ?s1 = set_objects _ s |- _ => rename s1 into s_1, s2 into s_2, a into a2; rewrite Ho1 in Hs; assert (s_1 = s) as -> by (rewrite Hs; by destruct s); clear Hs; rename Hl into Hloop end.
  rewrite Hup in Hloop. eapply append_loop_ok in Hloop as (d & Hd & Ha2 & Hs2 & Hsame & -> & Hor); [|exact Ha1|unfold len; lia|lia|lia].
  match goal with Hc' : a_commit _ _ _ _ = Ok (_, _, objects ?s4), Ht : touch _ _ _ = Ok (_, ?s3) |- _ => rename Hc' into Hcom, Ht into Htouch, s3 into s_3, s4 into s_4 end.
  rewrite (position_ok _ _ _ _ Ha2) in *. unfold touch in Htouch. assert (sessions s_2 = sessions s ∧ files s_2 = files s ∧ time s_2 = time s) as (E1 & E2 & E3) by (rewrite Hs2; done). rewrite E1, Hu, E3 in Htouch. apply put_session_ok in Htouch as [Hck Hs3].
  assert (objects s_3 = objects s_2) as E4 by (rewrite Hs3; done). rewrite E4 in Hcom. eapply a_commit_ok in Hcom as (Hobj & Hmax & Hsame4); [|exact Ha2].
  assert (d ≠ []) as Hne. { intros ->. match goal with Hz : negb (bool_decide (_ = 0)%Z) = true |- _ => vm_compute in Hz; done end. }
  destruct Hor as [|[Hm1 Hm2]]; [done|]. assert (len (c ++ d) = len c + len d)%Z as Hlen by (unfold len; rewrite length_app; lia). apply session_check_ok in Hck as [_ [_ Hck]]. cbn in Hck.
  set (u' := {| us_app := us_app u; us_name := us_name u; us_type := us_type u; us_expected := us_expected u; us_uploaded := len (c ++ d); us_oid := us_oid u; us_by := us_by u; us_done := us_done u; us_created := us_created u;
                us_expires := (time s + SESSION_TTL)%Z |}) in *.
  assert (sessions s_4 = <[id := u']> (sessions s) ∧ files s_4 = files s ∧ time s_4 = time s) as (E5 & E6 & E7).
  { match goal with Hs4 : s_4 = set_objects _ s_3 |- _ => rewrite Hs4, Hs3, Hs2; done end. }
  destruct (put_active id u' oid (c ++ d) s s_4) as [HS' Ha']; try done.
  - intros k Hk. by eapply (inv_one s HI); [exact Hk|econstructor].
  - intros v Hv. by simplify_eq.
  - apply (owned_not_theirs s (inl id)); [done|by econstructor].
  - by etrans.
  - split; [done|]. cbn [spec]. rewrite Hfind. cbn [mbind option_bind]. rewrite Hd. cbn [mbind option_bind]. assert (u_bytes (abs_upload (objects s) u) = c) as Hbytes by (unfold abs_upload, bytes_at; cbn; rewrite Ho; cbn; by rewrite Hc).
    rewrite Hbytes. rewrite decide_True; [|split_and!; [done|done|done|lia|unfold MAX_OBJECT in *; cbn; lia]]. rewrite Ha'. do 3 f_equal. f_equal. unfold received, abs_upload. cbn. f_equal. rewrite Ho. unfold bytes_at. cbn. by rewrite Hc, Hobj.
Qed.
Lemma cancel_ok id user app fate n s v n' s' : Sound s → cancel_tx id user app fate n s = Ok (v, n', s') → Sound s' ∧ spec (ACancel id user app) (abs s) = Some (abs s', Gone).
Proof.
  intros [HI HR] Hx. unfold cancel_tx, select_locked_upload in Hx. inv_stx. destruct (live_session id app user s) as [u|] eqn:Hl; [|inv_tx; done]. inv_stx. pose proof (find_upload_abs _ _ _ _ _ Hl) as Hfind. unfold delete_where in Hx. inv_stx.
  destruct (delete_sessions_ok s HI (λ i _, bool_decide (i = id))) as (s1 & Hd1 & HI1 & Hs & Hf & Ht & Hu & Hst). rewrite Hd1 in Hx. injection Hx as _ <-.
  assert (kept (λ i _, bool_decide (i = id)) (sessions s) = delete id (sessions s)) as Hk.
  { apply map_eq. intros i. apply option_eq. intros w. rewrite kept_lookup, lookup_delete_Some, bool_decide_eq_false. naive_solver. }
  split; [split; [done|]|].
  - intros i w file. rewrite Hs, Hf. intros [H _]%kept_lookup. by apply (HR i).
  - cbn [spec]. rewrite Hfind. cbn [mbind option_bind]. match goal with Hb : bool_decide (us_done u = None) = true |- _ => apply bool_decide_eq_true in Hb end. rewrite decide_True by done. do 2 f_equal.
    apply spec_eq; [|by rewrite Hst|done]. rewrite Hu, Hk. cbn. by rewrite fmap_delete.
Qed.
(** A file that has an object nothing else has. *)
Lemma put_file file f oid c s s' : Inv s → Refs s → f_oid f = Some oid → f_content f = None → f_size f = len c → f_checksum f = Some (sha256_hex c) → objects s !! oid = None → files s !! file = None →
  sessions s' = sessions s → files s' = <[file := f]> (files s) → time s' = time s → objects s' !! oid = Some c → same_but oid (objects s) (objects s') →
  Sound s' ∧ abs s' = add_file file (abs_file (objects s') f) (abs s).
Proof.
  intros HI HR Ho Hcn Hsz Hsum Hfresh Hnone Hs Hf Ht Hc Hsame.
  assert (∀ k i, belongs s k i → objects s' !! i = objects s !! i) as Hfr.
  { intros k i Hb. apply Hsame. intros ->. apply (belongs_object s HI) in Hb. rewrite Hfresh in Hb. by destruct Hb. }
  assert (∀ k i, belongs s' k i → (k = inr file ∧ i = oid) ∨ (k ≠ inr file ∧ belongs s k i)) as Hb.
  { intros k i Hk. inversion Hk as [id u i' Hu Hi|id g i' Hg Hi]; subst; [right; split; [done|]; rewrite Hs in Hu; by econstructor|]. rewrite Hf in Hg. apply lookup_insert_Some in Hg as [[<- <-]|[Hne Hg]]; [left; by simplify_eq|right; split; [congruence|by econstructor]]. }
  split; [split; [split|]|].
  - intros id u. rewrite Hs. intros Hu. destruct (inv_sessions s HI id u Hu) as [He [(Hd & i & c' & Hi & Hc' & Hrest)|Hdone]]; (split; [done|]); [left|by right]. split; [done|]. exists i, c'. split; [done|]. split; [|exact Hrest]. rewrite (Hfr (inl id)); [done|by econstructor].
  - intros id g. rewrite Hf. intros [[<- <-]|[Hne Hg]]%lookup_insert_Some; [right; eauto 10|]. destruct (inv_files s HI id g Hg) as [Hl|(Hn & i & c' & Hi & Hc' & Hrest)]; [by left|right]. split; [done|]. exists i, c'. split; [done|]. split; [|exact Hrest]. rewrite (Hfr (inr id)); [done|by econstructor].
  - intros k k' i [[-> ->]|[H1 H2]]%Hb [[-> Hi]|[H3 H4]]%Hb; [done| | |by eapply (inv_one s HI)]; subst; exfalso; [apply (belongs_object s HI) in H4; rewrite Hfresh in H4; by destruct H4|apply (belongs_object s HI) in H2; rewrite Hfresh in H2; by destruct H2].
  - intros i c' Hi Hti. destruct (decide (i = oid)) as [->|Hne]; [exists (inr file); eapply of_file; [rewrite Hf; by rewrite lookup_insert_eq|done]|]. rewrite Hsame in Hi by done. destruct (inv_none s HI i c' Hi Hti) as [k Hk]. exists k.
    inversion Hk as [id u i' Hu Hiu|id g i' Hg Hig]; subst; [eapply of_session; [by rewrite Hs|done]|]. eapply of_file; [rewrite Hf, lookup_insert_ne; [exact Hg|congruence]|done].
  - pose proof (fresh_not_theirs s oid HI Hfresh). apply (theirs_kept s); [done|intros i; destruct (decide (i = oid)) as [->|Hne]; [by right|left; by apply Hsame]|]. intros k i [[_ ->]|[_ Hk]]%Hb; [by right|eauto].
  - intros id u g. rewrite Hs, Hf. intros Hu Hd. destruct (HR id u g Hu Hd) as (g' & Hg & Hrest). exists g'. split; [|done]. rewrite lookup_insert_ne; [done|congruence].
  - apply spec_eq; cbn; [| |done].
    + rewrite Hs. apply (fmap_bytes abs_upload us_oid); [intros u; apply abs_upload_bytes|]. intros id u i Hu Hi. apply (Hfr (inl id)). by econstructor.
    + rewrite Hf, fmap_insert. f_equal. apply (fmap_bytes abs_file f_oid); [intros g; apply abs_file_bytes|]. intros id g i Hg Hi. apply (Hfr (inr id)). by econstructor.
Qed.
Lemma upload_loop_ok max_size oid body : ∀ data w fate n s w' n' s', writing oid data w (objects s) → upload_loop setting max_size w body fate n s = Ok (w', n', s') →
  ∃ d, body_data body = Some d ∧ writing oid (data ++ d) w' (objects s') ∧ s' = set_objects (objects s') s ∧ same_but oid (objects s) (objects s')
    ∧ (d = [] ∨ (len (data ++ d) ≤ limit setting)%Z ∧ ((0 < max_size)%Z → (len (data ++ d) ≤ i64 max_size)%Z)).
Proof.
  induction body as [|[chunk|e] body IH]; intros data w fate n s w' n' s' Hw Hl; cbn [upload_loop] in Hl; [|cbv zeta in Hl; inv_stx|done].
  - inv_tx. exists []. rewrite app_nil_r. split_and!; [done|done|by destruct s|done|by left].
  - match goal with Hx : w_write _ _ _ _ _ = _, Hy : ?s1 = set_objects _ _ |- _ => rename Hx into Hwr; rename Hy into Hs1 end. eapply w_write_ok in Hwr as [Hw1 Hsame1]; [|exact Hw].
    assert (i64 (w_size w + len chunk) = len (data ++ chunk)) as Hsz.
    { rewrite (wr_size _ _ _ _ Hw), i64_add. replace (len data + len chunk)%Z with (len (data ++ chunk)) by (unfold len; rewrite length_app; lia). apply i64_id. destruct Hw1 as [[_ Hr (c & _ & <- & _ & Hm)] _ _ _]. unfold len, MAX_OBJECT, WRITE_CHUNK_BYTES in *. rewrite length_app. lia. }
    rewrite Hsz in *. eapply IH in Hl as (d & Hd & Hw2 & Hs2 & Hsame2 & Hor); [|exact Hw1]. cbn. rewrite Hd. exists (chunk ++ d). rewrite app_assoc. split_and!; [done|done|rewrite Hs2, Hs1; done|by etrans|]. right. destruct Hor as [->|Hor]; [|exact Hor]. rewrite app_nil_r.
    repeat match goal with Hx : negb _ = true |- _ => apply negb_true_iff in Hx end. match goal with Hx : bool_decide (limit _ < _)%Z = false |- _ => apply bool_decide_eq_false in Hx end. split; [lia|]. intros Hmax.
    match goal with Hx : _ && _ = false |- _ => apply andb_false_iff in Hx as [Hx|Hx]; apply bool_decide_eq_false in Hx end; lia.
Qed.
Lemma upload_ok max_size file app name content_type by_ oid body fate n s size sum n' s' : Sound s → upload_tx sha256_hex setting max_size file app name content_type by_ oid body fate n s = Ok (size, sum, n', s') →
  Sound s' ∧ spec (AUpload max_size file app name content_type by_ oid body) (abs s) = Some (abs s', Uploaded size sum).
Proof.
  intros [HI HR] Hx. unfold upload_tx, finish_upload in Hx. cbv zeta in Hx. inv_stx.
  match goal with Hc : w_create _ _ _ _ = Ok (?w, _, objects ?s1), Hl : upload_loop _ _ _ _ _ _ _ = Ok (?w2, _, ?s2), Hi : insert_file _ _ _ _ = Ok (_, ?s3), Hm : w_commit _ _ _ _ = Ok (_, _, objects ?s4), H1 : ?s1 = _, H4 : ?s4 = _ |- _ =>
    rename Hc into Hcr, Hl into Hloop, Hi into Hins, Hm into Hcom, s1 into s_1, s2 into s_2, s3 into s_3, s4 into s_4, w2 into w_2, H1 into E1, H4 into E4 end.
  apply w_create_ok in Hcr as (Hfresh & Ho1 & Hw1). eapply upload_loop_ok in Hloop as (d & Hd & Hw2 & E2 & Hsame & Hor); [|exact Hw1]. change ([] ++ d) with d in *. unfold insert_file in Hins. destruct (decide _) as [|Hnone%eq_None_not_Some]; [done|]. injection Hins as _ E3.
  assert (objects s_3 = objects s_2) as E5 by (by rewrite <-E3). rewrite E5 in Hcom. eapply w_commit_ok in Hcom as (Hobj & Hmax & Hsame4); [|exact Hw2]. destruct Hw2 as [_ Hoid Hsz Hh].
  assert (i64 (len d) = len d) as Hi64 by (apply i64_id; unfold len, MAX_OBJECT in *; lia). rewrite Hi64 in Hsz. unfold w_checksum in *. rewrite Hsz, Hh, Hoid in *.
  assert (files s_2 = files s) as E6 by (by rewrite E2, E1). rewrite E6 in Hnone. set (f := {| f_app := app |}) in *.
  destruct (put_file file f oid d s s_4) as [HS' Ha']; try done.
  - by rewrite E4, <-E3, E2, E1.
  - rewrite E4, <-E3. cbn. by rewrite E6.
  - by rewrite E4, <-E3, E2, E1.
  - etrans; [|exact Hsame4]. etrans; [|exact Hsame]. rewrite Ho1. intros i Hi. by rewrite lookup_insert_ne.
  - split; [done|]. cbn [spec]. rewrite Hd. cbn [mbind option_bind]. assert (d ≠ []) as Hne. { intros ->. match goal with Hz : negb (bool_decide (_ = 0)%Z) = true |- _ => vm_compute in Hz; done end. }
    destruct Hor as [|[Hm1 Hm2]]; [done|]. rewrite decide_True; [|split_and!; [done|lia|done|cbn; by rewrite lookup_fmap, Hnone]]. rewrite Ha'. do 3 f_equal. unfold abs_file, bytes_at, f. cbn. by rewrite Hobj.
Qed.
Lemma put_ok file app name content_type data by_ oid fate n s v n' s' : Sound s → put_tx sha256_hex file app name content_type data by_ oid fate n s = Ok (v, n', s') →
  Sound s' ∧ spec (APut file app name content_type data by_ oid) (abs s) = Some (abs s', Kept).
Proof.
  intros [HI HR] Hx. unfold put_tx, finish_upload in Hx. cbv zeta in Hx. inv_stx.
  match goal with Hc : w_create _ _ _ _ = Ok (?w, _, objects ?s1), Hl : w_write _ _ _ _ _ = Ok (?w2, _, objects ?s2), Hi : insert_file _ _ _ _ = Ok (_, ?s3), Hm : w_commit _ _ _ _ = Ok (_, _, objects ?s4), H1 : ?s1 = _, H2 : ?s2 = _, H4 : ?s4 = _ |- _ =>
    rename Hc into Hcr, Hl into Hwr, Hi into Hins, Hm into Hcom, s1 into s_1, s2 into s_2, s3 into s_3, s4 into s_4, w2 into w_2, H1 into E1, H2 into E2, H4 into E4 end.
  apply w_create_ok in Hcr as (Hfresh & Ho1 & Hw1). eapply w_write_ok in Hwr as [Hw2 Hsame]; [|exact Hw1]. change ([] ++ data) with data in *. unfold insert_file in Hins. destruct (decide _) as [|Hnone%eq_None_not_Some]; [done|]. injection Hins as _ E3.
  assert (objects s_3 = objects s_2) as E5 by (by rewrite <-E3). rewrite E5 in Hcom. eapply w_commit_ok in Hcom as (Hobj & Hmax & Hsame4); [|exact Hw2]. destruct Hw2 as [_ Hoid Hsz Hh].
  assert (i64 (len data) = len data) as Hi64 by (apply i64_id; unfold len, MAX_OBJECT in *; lia). rewrite Hi64 in Hsz. unfold w_checksum in *. rewrite Hsz, Hh, Hoid in *.
  assert (files s_2 = files s) as E6 by (by rewrite E2, E1). rewrite E6 in Hnone. set (f := {| f_app := app |}) in *.
  destruct (put_file file f oid data s s_4) as [HS' Ha']; try done.
  - by rewrite E4, <-E3, E2, E1.
  - rewrite E4, <-E3. cbn. by rewrite E6.
  - by rewrite E4, <-E3, E2, E1.
  - etrans; [|exact Hsame4]. etrans; [|exact Hsame]. rewrite Ho1. intros i Hi. by rewrite lookup_insert_ne.
  - split; [done|]. cbn [spec]. rewrite decide_True; [|split; [lia|cbn; by rewrite lookup_fmap, Hnone]]. rewrite Ha'. do 3 f_equal. unfold abs_file, bytes_at, f. cbn. by rewrite Hobj.
Qed.
(** The object of a session becomes that of a file. *)
Lemma move_object id u u' file f oid c s s' : Inv s → Refs s → sessions s !! id = Some u → us_oid u = Some oid → objects s !! oid = Some c → files s !! file = None →
  us_oid u' = None → us_done u' = Some file → us_uploaded u' = us_expected u' → (0 < us_expected u')%Z → f_oid f = Some oid → f_content f = None → f_size f = len c → f_checksum f = Some (sha256_hex c) → f_app f = us_app u' →
  sessions s' = <[id := u']> (sessions s) → files s' = <[file := f]> (files s) → time s' = time s → objects s' = objects s →
  Sound s' ∧ abs s' = add_file file (abs_file (objects s) f) (with_uploads (<[id := abs_upload (objects s) u']> (uploads (abs s))) (abs s)).
Proof.
  intros HI HR Hu Hoid Hc Hnone Ho' Hd' Hup' Hex' Hof Hcf Hsz Hsum Happ Hs Hf Ht Ho.
  assert (∀ k i, belongs s' k i → (k = inr file ∧ i = oid) ∨ (k ≠ inr file ∧ k ≠ inl id ∧ belongs s k i)) as Hb.
  { intros k i Hk. inversion Hk as [id' v i' Hv Hi|id' g i' Hg Hi]; subst.
    - rewrite Hs in Hv. apply lookup_insert_Some in Hv as [[<- <-]|[Hne Hv]]; [congruence|right; split_and!; [done|congruence|by econstructor]].
    - rewrite Hf in Hg. apply lookup_insert_Some in Hg as [[<- <-]|[Hne Hg]]; [left; by simplify_eq|right; split_and!; [congruence|done|by econstructor]]. }
  assert (belongs s (inl id) oid) as Hown by (by econstructor).
  split; [split; [split|]|].
  - intros id' v. rewrite Hs. intros [[<- <-]|[Hne Hv]]%lookup_insert_Some; [split; [done|right; split_and!; [done|done|by eexists]]|]. destruct (inv_sessions s HI id' v Hv) as [He Hv']. split; [done|]. by rewrite Ho.
  - intros id' g. rewrite Hf. intros [[<- <-]|[Hne Hg]]%lookup_insert_Some; [right; split; [done|]; exists oid, c; by rewrite Ho|]. destruct (inv_files s HI id' g Hg) as [Hl|Hl]; [by left|right]. by rewrite Ho.
  - intros k k' i [[-> ->]|(H1 & H2 & H3)]%Hb [[-> Hi]|(H4 & H5 & H6)]%Hb; [done| | |by eapply (inv_one s HI)]; subst; [by pose proof (inv_one s HI _ _ _ H6 Hown)|by pose proof (inv_one s HI _ _ _ H3 Hown)].
  - intros i c'. rewrite Ho. intros Hi Hti. destruct (decide (i = oid)) as [->|Hne]; [exists (inr file); eapply of_file; [rewrite Hf; by rewrite lookup_insert_eq|done]|]. destruct (inv_none s HI i c' Hi Hti) as [k Hk]. exists k.
    inversion Hk as [id' v i' Hv Hiv|id' g i' Hg Hig]; subst; [eapply of_session; [rewrite Hs, lookup_insert_ne; [exact Hv|congruence]|done]|]. eapply of_file; [rewrite Hf, lookup_insert_ne; [exact Hg|congruence]|done].
  - apply (theirs_kept s); [done|intros i; left; by rewrite Ho|]. intros k i [[_ ->]|(_ & _ & Hk)]%Hb; left; eauto.
  - intros id' v g. rewrite Hs, Hf. intros [[<- <-]|[Hne Hv]]%lookup_insert_Some Hdv; [assert (g = file) as -> by congruence; exists f; rewrite lookup_insert_eq; split_and!; [done|done|by rewrite Hsum]|].
    destruct (HR id' v g Hv Hdv) as (g' & Hg & Hrest). exists g'. split; [|done]. rewrite lookup_insert_ne; [done|congruence].
  - apply spec_eq; cbn; [by rewrite Hs, Ho, fmap_insert|by rewrite Hf, Ho, fmap_insert|done].
Qed.
Lemma file_answer_abs s file f sum : Inv s → files s !! file = Some f → f_checksum f = Some sum →
  file_answer file (abs_file (objects s) f) = Some {| sf_id := file; sf_name := f_name f; sf_type := f_type f; sf_size := f_size f; sf_checksum := sum |}.
Proof.
  intros HI Hf Hsum. unfold file_answer, abs_file. cbn. rewrite Hsum. cbn. do 2 f_equal. destruct (inv_files s HI file f Hf) as [(c & -> & _ & ->)|(-> & oid & c & -> & Hc & -> & _)]; [done|]. cbn. unfold bytes_at. cbn. by rewrite Hc.
Qed.
Lemma complete_ok id user app file fate n s created sf n' s' : Sound s → complete_tx sha256_hex id user app file fate n s = Ok (created, sf, n', s') →
  Sound s' ∧ spec (AComplete id user app file) (abs s) = Some (abs s', File created sf).
Proof.
  intros [HI HR] Hx. unfold complete_tx, select_locked_upload, content_oid in Hx. inv_stx. destruct (live_session id app user s) as [u|] eqn:Hl; [|inv_tx; done]. inv_stx. pose proof (find_upload_abs _ _ _ _ _ Hl) as Hfind. apply live_session_some in Hl as (Hu & Happ & Hby & Hexp).
  cbn [spec]. rewrite Hfind. cbn [mbind option_bind u_done abs_upload]. destruct (us_done u) as [done_|] eqn:Hdone.
  - unfold load_stored_file in Hx. inv_stx. destruct (HR id u done_ Hu Hdone) as (f & Hf & Hfa & [sum Hsum]). unfold mbind, option_bind in *. rewrite Hf in *. rewrite decide_True in * by congruence. rewrite Hsum in *. inv_tx. split; [done|].
    cbn [stored abs]. rewrite lookup_fmap, Hf. cbn [fmap option_fmap option_map]. rewrite decide_True by (cbn; congruence). by rewrite (file_answer_abs s done_ f sum).
  - inv_stx. repeat match goal with Hb : bool_decide _ = true |- _ => apply bool_decide_eq_true in Hb end. destruct (inv_sessions s HI id _ Hu) as [Hex [(_ & oid & c & Ho & Hc & Hup & Hle)|(_ & _ & [f Hf])]]; [|congruence]. rewrite Ho in *. inv_stx.
    match goal with Hk : checksum_in_transaction _ _ _ _ _ _ = _ |- _ => rewrite Hup in Hk; eapply checksum_ok in Hk; [|exact Hc]; destruct Hk as (Eo & _ & Esum) end.
    unfold len in Esum at 1. rewrite Nat2Z.id, firstn_all in Esum.
    match goal with Hi : insert_file _ _ _ ?s1 = Ok (_, ?s2), Hc' : complete_session _ _ ?s2 = Ok (_, ?s3), Hs : ?s1 = set_objects _ s |- _ => rename Hi into Hins, Hc' into Hcs, s1 into s_1, s2 into s_2, s3 into s_3; rewrite Eo in Hs; assert (s_1 = s) as -> by (rewrite Hs; by destruct s); clear Hs end.
    unfold insert_file in Hins. destruct (decide _) as [|Hnone%eq_None_not_Some]; [done|]. injection Hins as _ E2. unfold complete_session in Hcs. rewrite <-E2 in Hcs. cbn [sessions set_files] in Hcs. rewrite Hu in Hcs. apply put_session_ok in Hcs as [_ ->]. subst.
    match goal with |- Sound (set_sessions (<[_ := ?u']> ?m) (set_files (<[_ := ?f]> ?k) ?t)) ∧ _ => destruct (move_object id u u' file f oid c s (set_sessions (<[id := u']> m) (set_files (<[file := f]> k) t)) HI HR Hu Ho Hc Hnone) as [HS' Ha']; try done; split; [exact HS'|] end.
    rewrite Ha'. assert (u_bytes (abs_upload (objects s) u) = c) as Hb by (cbn; rewrite Ho; unfold bytes_at; cbn; by rewrite Hc). rewrite !Hb.
    rewrite decide_True by (split; [cbn; congruence|cbn [stored abs]; by rewrite lookup_fmap, Hnone]). cbn. rewrite Hup. do 3 f_equal. unfold abs_file, bytes_at. cbn. by rewrite Hc.
Qed.
Lemma drop_file s file f o : Inv s → files s !! file = Some f → unlink_all (option_list (f_oid f)) (objects s) = Some o →
  let s1 := {| sessions := sessions s; files := delete file (files s); objects := o; time := time s |} in
  Inv s1 ∧ uploads (abs s1) = uploads (abs s) ∧ stored (abs s1) = delete file (stored (abs s)).
Proof.
  intros HI Hf Hun s1. assert (∀ k i, belongs s k i → k ≠ inr file → o !! i = objects s !! i) as Hfr.
  { intros k i Hb Hk. destruct (f_oid f) as [oid|] eqn:Hoid; cbn in Hun; [|by injection Hun as <-]. destruct (objects s !! oid); [|done]. injection Hun as <-. rewrite lookup_delete_ne; [done|]. intros ->. apply Hk. eapply (inv_one s HI); [done|by econstructor]. }
  assert (∀ k i, belongs s1 k i → k ≠ inr file ∧ belongs s k i) as Hb.
  { intros k i Hk. inversion Hk as [id' v i' Hv Hi|id' g i' Hg Hi]; subst; [split; [done|by econstructor]|]. cbn in Hg. apply lookup_delete_Some in Hg as [Hne Hg]. split; [congruence|by econstructor]. }
  split; [split|split].
  - intros id u Hu. destruct (inv_sessions s HI id u Hu) as [He [(Hd & i & c' & Hi & Hc' & Hrest)|Hdone]]; (split; [done|]); [left|by right]. split; [done|]. exists i, c'. split; [done|]. split; [|exact Hrest]. cbn. rewrite (Hfr (inl id)); [done|by econstructor|done].
  - intros id g Hg. cbn in Hg. apply lookup_delete_Some in Hg as [Hne Hg]. destruct (inv_files s HI id g Hg) as [Hl|(Hn & i & c' & Hi & Hc' & Hrest)]; [by left|right]. split; [done|]. exists i, c'. split; [done|]. split; [|exact Hrest]. cbn. rewrite (Hfr (inr id)); [done|by econstructor|congruence].
  - intros k k' i [_ H1]%Hb [_ H2]%Hb. by eapply (inv_one s HI).
  - intros i c' Hi Hti. cbn in Hi. assert (objects s !! i = Some c' ∧ f_oid f ≠ Some i) as [Hi' Hni].
    { destruct (f_oid f) as [oid|] eqn:Hoid; cbn in Hun; [|by injection Hun as <-]. destruct (objects s !! oid); [|done]. injection Hun as <-. apply lookup_delete_Some in Hi as [Hne Hi]. split; [done|congruence]. }
    destruct (inv_none s HI i c' Hi' Hti) as [k Hk]. exists k. inversion Hk as [id' v i' Hv Hiv|id' g i' Hg Hig]; subst; [by eapply of_session|]. eapply of_file; [cbn; rewrite lookup_delete_ne; [exact Hg|intros ->; congruence]|done].
  - apply (theirs_kept s); [done| |intros k i [_ Hk]%Hb; left; eauto]. intros i. cbn. destruct (f_oid f) as [oid|] eqn:Hoid; cbn in Hun; [|left; by injection Hun as <-]. destruct (objects s !! oid); [|done]. injection Hun as <-.
    destruct (decide (i = oid)) as [->|Hne]; [right; apply (owned_not_theirs s (inr file)); [done|by econstructor]|left; by rewrite lookup_delete_ne].
  - cbn. apply (fmap_bytes abs_upload us_oid); [intros u; apply abs_upload_bytes|]. intros id u i Hu Hi. apply (Hfr (inl id)); [by econstructor|done].
  - cbn. rewrite <-fmap_delete. apply (fmap_bytes abs_file f_oid); [intros g; apply abs_file_bytes|]. intros id g i [Hne Hg]%lookup_delete_Some Hi. apply (Hfr (inr id)); [by econstructor|congruence].
Qed.
Lemma delete_ok file app fate n s v n' s' : Sound s → delete_tx file app fate n s = Ok (v, n', s') → Sound s' ∧ spec (ADelete file app) (abs s) = Some (abs s', Gone).
Proof.
  intros [HI HR] Hx. unfold delete_tx, delete_row, file_row in Hx. inv_stx. unfold mbind, option_bind in *. destruct (files s !! file) as [f|] eqn:Hf; [|simplify_eq]. destruct (decide (f_app f = app)) as [Happ|]; [|simplify_eq].
  destruct (unlink_all _ _) as [o|] eqn:Hun; [|done]. destruct (drop_file s file f o HI Hf Hun) as (HI1 & Hu1 & Hs1). set (s1 := {| files := delete file (files s) |}) in *. destruct (delete_sessions _ s1) as [s2|] eqn:Hd; [|done]. simplify_eq.
  destruct (delete_sessions_ok s1 HI1 (λ _ u, bool_decide (us_done u = Some file))) as (s3 & Hd3 & HI3 & Hs3 & Hf3 & Ht3 & Hu3 & Hst3). rewrite Hd in Hd3. injection Hd3 as <-. split; [split; [done|]|].
  - intros id u g. rewrite Hs3, Hf3. intros [Hu Hk]%kept_lookup Hg. apply bool_decide_eq_false in Hk. destruct (HR id u g Hu Hg) as (f' & Hf' & Hrest). exists f'. split; [|done]. cbn. rewrite lookup_delete_ne; [done|congruence].
  - cbn [spec]. cbn [stored abs]. rewrite lookup_fmap, Hf. cbn [fmap option_fmap option_map mbind option_bind]. rewrite decide_True by done. do 2 f_equal. apply spec_eq; cbn [uploads stored clock].
    + rewrite Hu3. rewrite (without_abs _ (λ u, bool_decide (u_done u = Some file))) by done. cbn [without with_uploads uploads]. by rewrite Hu1.
    + by rewrite Hst3, Hs1.
    + cbn. by rewrite Ht3.
Qed.

(** ** Nothing else refuses *)

Definition goes {A : Type} (m : STx A) (n : nat) (s : Store) : Prop := ∃ r, m willing n s = Ok r.
Lemma goes_bind {A B : Type} (m : STx A) (k : A → STx B) n s a n' s' : m willing n s = Ok (a, n', s') → goes (k a) n' s' → goes (bindT m k) n s.
Proof. intros Hm [r Hr]. exists r. by rewrite (bindT_go _ _ _ _ _ _ _ _ Hm). Qed.
Lemma goes_map {A B : Type} (m : STx A) (f : A → B) n s : goes m n s → goes (bindT m (λ a, ret (f a))) n s.
Proof. intros [[[a n'] s'] Hm]. eapply goes_bind; [exact Hm|]. by eexists. Qed.
Lemma select_go {A : Type} (f : Store → A) n s : select f willing n s = Ok (f s, Datatypes.S n, s).
Proof. done. Qed.
Lemma sql_go {A : Type} (f : Store → result ApiError (A * Store)) n s a s' : f s = Ok (a, s') → sql f willing n s = Ok (a, Datatypes.S n, s').
Proof. intros Hf. by apply stmt_willing. Qed.
Lemma objs_go {A : Type} (m : Tx Objects RuntimeError A) n s a n' o : m willing n (objects s) = Ok (a, n', o) → objs m willing n s = Ok (a, n', set_objects o s).
Proof. intros Hm. unfold objs, within. by rewrite Hm. Qed.
Lemma delete_where_go P n s : Inv s → ∃ s', delete_where P willing n s = Ok (tt, Datatypes.S n, s') ∧ delete_sessions (P s) s = Some s'.
Proof. intros HI. destruct (delete_sessions_ok s HI (P s)) as (s' & Hd & _). exists s'. split; [|done]. apply sql_go. by rewrite Hd. Qed.
Lemma fresh_after P s s' oid : Inv s → delete_sessions P s = Some s' → objects s !! oid = None → objects s' !! oid = None.
Proof.
  intros HI Hd Hn. destruct (delete_sessions_ok s HI P) as (s1 & Hd1 & HI1 & Hs & Hf & _). rewrite Hd in Hd1. injection Hd1 as <-. destruct (objects s' !! oid) as [c|] eqn:E; [|done]. destruct (inv_none s' HI1 oid c E (fresh_not_theirs s oid HI Hn)) as [k Hk].
  assert (belongs s k oid) as Hb. { inversion Hk as [id u i Hu Hi|id f i Hfi Hi]; subst; [rewrite Hs in Hu; apply kept_lookup in Hu as [Hu _]|rewrite Hf in Hfi]; by econstructor. }
  apply (belongs_object s HI) in Hb as [c' Hc']. congruence.
Qed.
Lemma live_session_of id app user s up : find_upload id app user (abs s) = Some up → ∃ u, live_session id app user s = Some u ∧ up = abs_upload (objects s) u.
Proof.
  unfold find_upload. cbn. rewrite lookup_fmap. destruct (sessions s !! id) as [u|] eqn:Hu; [|done]. cbn. destruct (decide _) as [(Ha & Hb & He)|]; [|done]. intros [= <-]. exists u. split; [|done].
  unfold live_session, my_session, is_mine. rewrite Hu. cbn. rewrite !bool_decide_eq_true_2 by done. cbn. by rewrite decide_True.
Qed.
Lemma active_row s id u : Inv s → sessions s !! id = Some u → us_done u = None → ∃ oid c, us_oid u = Some oid ∧ objects s !! oid = Some c ∧ us_uploaded u = len c ∧ u_bytes (abs_upload (objects s) u) = c.
Proof.
  intros HI Hu Hd. destruct (inv_sessions s HI id u Hu) as [_ [(_ & oid & c & Ho & Hc & Hup & _)|(_ & _ & [f Hf])]]; [|congruence]. exists oid, c. split_and!; try done. cbn. rewrite Ho. unfold bytes_at. cbn. by rewrite Hc.
Qed.
Lemma select_locked_go id app user n s u : live_session id app user s = Some u → select_locked_upload id app user willing n s = Ok (u, Datatypes.S n, s).
Proof. intros Hl. unfold select_locked_upload. rewrite (bindT_go _ _ _ _ _ _ _ _ (select_go _ _ _)). by rewrite Hl. Qed.
Lemma create_goes id user app name content_type size oid s r : Sound s → objects s !! oid = None → spec (ACreate id user app name content_type size oid) (abs s) = Some r → goes (create_tx id user app name content_type size oid) 0 s.
Proof.
  intros HS Hfresh Hspec. unfold create_tx. eapply goes_bind; [apply select_go|]. destruct (delete_where_go expired 1 s (proj1 HS)) as (s1 & Hgo & Hd). eapply goes_bind; [exact Hgo|]. eapply goes_bind; [apply select_go|].
  pose proof (fresh_after _ _ _ _ (proj1 HS) Hd Hfresh) as Hf1. destruct (delete_where_ok expired (λ u, bool_decide (u_expires u ≤ time s)%Z) _ _ _ _ _ _ HS (λ _ _, eq_refl) Hgo) as [HS1 Ha].
  assert (expire (abs s) = abs s1) as He by done. cbn [spec] in Hspec. cbv zeta in Hspec. rewrite He in Hspec. cbn [uploads abs] in Hspec. rewrite lookup_fmap in Hspec. unfold my_session at 1, is_mine. destruct (sessions s1 !! id) as [u|] eqn:Hu; cbn [fmap option_fmap option_map mbind option_bind] in *.
  - destruct (decide _) as [(H1 & H2 & H3 & H4 & H5)|]; [|done]. cbn in *. rewrite !bool_decide_eq_true_2 by done. cbn. eapply goes_bind; [apply guardT_go; by rewrite !bool_decide_eq_true_2|]. by eexists.
  - eapply goes_bind; [apply select_go|]. eapply goes_bind; [apply guardT_go; rewrite Hu; done|]. eapply goes_bind; [apply sql_go; rewrite decide_False by (rewrite Hf1; by intros []); done|]. destruct (decide (0 < size)%Z) as [Hsz|]; [|done].
    eexists. apply sql_go. unfold put_session. assert (∀ a b c d e f g, session_check {| us_app := a; us_name := b; us_type := c; us_expected := size; us_uploaded := 0; us_oid := Some d; us_by := e; us_done := None; us_created := f; us_expires := g |} = true) as Hck.
    { intros. unfold session_check. cbn. rewrite !bool_decide_eq_true_2 by (done || lia || by eexists). done. }
    rewrite Hck. done.
Qed.
Lemma append_loop_goes oid u offset body : ∀ data a size d n s, appending oid data a (objects s) → (0 ≤ offset)%Z → (0 ≤ size)%Z → len data = (offset + size)%Z → body_data body = Some d →
  (size + len d ≤ MAX_CHUNK_BYTES)%Z → (offset + size + len d ≤ us_expected u)%Z → (len (data ++ d) ≤ MAX_OBJECT)%Z → goes (append_loop u offset a size body) n s.
Proof.
  induction body as [|[chunk|e] body IH]; intros data a size d n s Ha Hoff Hsize Hlen Hd Hc He Hm; cbn [append_loop]; [by eexists| |done]. cbn in Hd. destruct (body_data body) as [d'|] eqn:Hd'; [|done]. injection Hd as <-. cbv zeta.
  assert (len (chunk ++ d') = len chunk + len d')%Z as Hl by (unfold len; rewrite length_app; lia). assert (0 ≤ len chunk ∧ 0 ≤ len d')%Z as [? ?] by (unfold len; lia). unfold MAX_CHUNK_BYTES, MAX_OBJECT in *.
  assert (len (data ++ chunk ++ d') = len data + len chunk + len d')%Z as Hl2 by (unfold len; rewrite !length_app; lia). rewrite !i64_id by (rewrite ?i64_id; lia).
  eapply goes_bind; [apply guardT_go; rewrite bool_decide_eq_false_2; [done|lia]|]. eapply goes_bind; [apply guardT_go; rewrite bool_decide_eq_false_2; [done|lia]|].
  destruct (a_write_willing oid data a chunk n (objects s) Ha) as (a' & n' & o' & Hw); [unfold MAX_OBJECT, len in *; rewrite ?length_app in *; lia|]. eapply goes_bind; [apply objs_go; exact Hw|]. apply a_write_ok with (1 := Ha) in Hw as [Ha' _].
  eapply (IH (data ++ chunk) a' _ d'); [exact Ha'|done|lia|unfold len in *; rewrite length_app; lia|done|lia|lia|]. by rewrite <-app_assoc.
Qed.
Lemma append_goes id user app offset body s r : Sound s → spec (AAppend id user app offset body) (abs s) = Some r → goes (append_tx id user app offset body) 0 s.
Proof.
  intros [HI HR] Hspec. cbn [spec] in Hspec. apply bind_Some in Hspec as (up & Hf & Hspec). apply bind_Some in Hspec as (d & Hd & Hspec). destruct (live_session_of _ _ _ _ _ Hf) as (u & Hl & ->). destruct (decide _) as [(Hdone & -> & Hne & Hc & Hmin)|]; [|done]. change (us_done u = None) in Hdone.
  pose proof (live_session_some _ _ _ _ _ Hl) as (Hu & _). destruct (active_row s id u HI Hu Hdone) as (oid & c & Ho & Hoc & Hup & Hb). rewrite Hb in *. cbn [u_expected abs_upload] in Hmin. clear Hspec.
  assert (len (c ++ d) = len c + len d)%Z as Hlen by (unfold len; rewrite length_app; lia). assert (0 < len d)%Z by (destruct d; [done|unfold len; cbn; lia]). assert (0 ≤ len c)%Z by (unfold len; lia).
  unfold append_tx. destruct (a_open_willing oid c 1 (objects s) Hoc) as (a & n1 & Hop); [lia|].
  eapply goes_bind; [unfold lock_upload; rewrite (bindT_go _ _ _ _ _ _ _ _ (select_locked_go _ _ _ _ _ _ Hl)); erewrite bindT_go; [|apply guardT_go; by rewrite bool_decide_eq_true_2];
    unfold content_oid; rewrite Ho; erewrite bindT_go; [|done]; rewrite Hup; erewrite bindT_go; [|apply objs_go; exact Hop]; done|]. cbv beta iota.
  eapply a_open_ok in Hop as [_ Ha]; [|exact Hoc]. eapply goes_bind; [apply guardT_go; by rewrite bool_decide_eq_true_2|].
  destruct (append_loop_goes oid u (len c) body c a 0 d n1 (set_objects (objects s) s)) as [[[[size a2] n2] s2] Hloop]; [exact Ha|lia|lia|lia|done|lia|lia|lia|]. eapply goes_bind; [exact Hloop|]. cbv beta iota.
  eapply append_loop_ok in Hloop as (d' & Hd' & Ha2 & Hs2 & _ & -> & _); [|exact Ha|lia|lia|lia]. assert (d' = d) as -> by congruence. eapply goes_bind; [apply guardT_go; rewrite bool_decide_eq_false_2; [done|lia]|]. cbv zeta. rewrite (position_ok _ _ _ _ Ha2).
  assert (sessions s2 = sessions s ∧ time s2 = time s) as [E1 E2] by (by rewrite Hs2).
  eapply goes_bind; [apply sql_go; unfold touch; rewrite E1, Hu; unfold put_session; match goal with |- context [session_check ?v] => replace (session_check v) with true end; [done|]|].
  { symmetry. unfold session_check. cbn. destruct (inv_sessions s HI id u Hu) as [Hpos _]. rewrite Ho, Hdone. rewrite !bool_decide_eq_true_2 by (done || lia || by eexists). done. }
  destruct (a_commit_willing oid (c ++ d) a2 (Datatypes.S n2) (objects s2) Ha2) as (n3 & o3 & Hcm); [lia|]. eapply goes_bind; [apply objs_go; exact Hcm|]. by eexists.
Qed.
Lemma complete_goes id user app file s r : Sound s → spec (AComplete id user app file) (abs s) = Some r → goes (complete_tx sha256_hex id user app file) 0 s.
Proof.
  intros [HI HR] Hspec. cbn [spec] in Hspec. apply bind_Some in Hspec as (up & Hf & Hspec). destruct (live_session_of _ _ _ _ _ Hf) as (u & Hl & ->). change (u_done (abs_upload (objects s) u)) with (us_done u) in Hspec. pose proof (live_session_some _ _ _ _ _ Hl) as (Hu & Happ & Hby & _).
  unfold complete_tx. eapply goes_bind; [by apply select_locked_go|]. destruct (us_done u) as [done_|] eqn:Hdone.
  - destruct (HR id u done_ Hu Hdone) as (f & Hfile & Hfa & [sum Hsum]). apply goes_bind with (a := {| sf_id := done_; sf_name := f_name f; sf_type := f_type f; sf_size := f_size f; sf_checksum := sum |}) (n' := 2) (s' := s); [|by eexists].
    unfold load_stored_file. rewrite (bindT_go _ _ _ _ _ _ _ _ (select_go _ _ _)). rewrite Hfile. cbn. rewrite decide_True by congruence. by rewrite Hsum.
  - destruct (decide _) as [[Hlen Hnone]|]; [|done]. clear Hspec. destruct (active_row s id u HI Hu Hdone) as (oid & c & Ho & Hoc & Hup & Hb). rewrite Hb in Hlen. change (u_expected (abs_upload (objects s) u)) with (us_expected u) in Hlen.
    cbn [stored abs] in Hnone. rewrite lookup_fmap, fmap_None in Hnone. destruct (inv_sessions s HI id u Hu) as [Hpos _]. eapply goes_bind; [apply guardT_go; rewrite bool_decide_eq_true_2; [done|congruence]|].
    unfold content_oid. rewrite Ho. eapply goes_bind; [done|]. destruct (checksum_willing sha256_hex oid c 1 (objects s) Hoc) as (sum & n1 & Hsum). rewrite Hup. eapply goes_bind; [apply objs_go; exact Hsum|].
    eapply goes_bind; [apply sql_go; unfold insert_file; rewrite decide_False by (cbn; rewrite Hnone; by intros []); done|].
    eapply goes_bind; [apply sql_go; unfold complete_session; cbn; rewrite Hu; unfold put_session; match goal with |- context [session_check ?v] => replace (session_check v) with true end; [done|]|by eexists].
    symmetry. unfold session_check. cbn. rewrite Hup, Hlen. rewrite !bool_decide_eq_true_2 by (done || lia || by eexists). by rewrite ?orb_true_r.
Qed.
Lemma cancel_goes id user app s r : Sound s → spec (ACancel id user app) (abs s) = Some r → goes (cancel_tx id user app) 0 s.
Proof.
  intros [HI HR] Hspec. cbn [spec] in Hspec. apply bind_Some in Hspec as (up & Hf & Hspec). destruct (live_session_of _ _ _ _ _ Hf) as (u & Hl & ->). destruct (decide _) as [Hdone|]; [|done]. change (us_done u = None) in Hdone.
  unfold cancel_tx. eapply goes_bind; [by apply select_locked_go|]. eapply goes_bind; [apply guardT_go; by rewrite bool_decide_eq_true_2|]. destruct (delete_where_go (λ _ i _, bool_decide (i = id)) 1 s HI) as (s' & Hgo & _). eexists. exact Hgo.
Qed.
Lemma upload_loop_goes max_size oid body : ∀ data w d n s, writing oid data w (objects s) → body_data body = Some d → (len (data ++ d) ≤ limit setting `min` MAX_OBJECT)%Z → ((0 < max_size)%Z → (len (data ++ d) ≤ i64 max_size)%Z) →
  goes (upload_loop setting max_size w body) n s.
Proof.
  induction body as [|[chunk|e] body IH]; intros data w d n s Hw Hd Hl Hm; cbn [upload_loop]; [by eexists| |done]. cbn in Hd. destruct (body_data body) as [d'|] eqn:Hd'; [|done]. injection Hd as <-. cbv zeta.
  assert (len (data ++ chunk) ≤ len (data ++ chunk ++ d'))%Z as Hle by (unfold len; rewrite !length_app; lia). assert (i64 (w_size w + len chunk) = len (data ++ chunk)) as Hsz.
  { rewrite (wr_size _ _ _ _ Hw), i64_add. replace (len data + len chunk)%Z with (len (data ++ chunk)) by (unfold len; rewrite length_app; lia). apply i64_id. unfold MAX_OBJECT in *. unfold len in *. lia. }
  rewrite Hsz. eapply goes_bind; [apply guardT_go; rewrite bool_decide_eq_false_2; [done|lia]|]. eapply goes_bind; [apply guardT_go; destruct (decide (0 < max_size)%Z); [rewrite (bool_decide_eq_false_2 (i64 _ < _)%Z), andb_false_r; [done|lia]|by rewrite bool_decide_eq_false_2]|].
  destruct (w_write_willing oid data w chunk n (objects s) Hw) as (w' & n' & o' & Hgo); [lia|]. eapply goes_bind; [apply objs_go; exact Hgo|]. apply w_write_ok with (1 := Hw) in Hgo as [Hw' _]. rewrite app_assoc in *. by eapply (IH (data ++ chunk) w' d').
Qed.
Lemma upload_goes max_size file app name content_type by_ oid body s r : Sound s → objects s !! oid = None → spec (AUpload max_size file app name content_type by_ oid body) (abs s) = Some r →
  goes (upload_tx sha256_hex setting max_size file app name content_type by_ oid body) 0 s.
Proof.
  intros [HI HR] Hfresh Hspec. cbn [spec] in Hspec. apply bind_Some in Hspec as (d & Hd & Hspec). destruct (decide _) as [(Hne & Hl & Hm & Hnone)|]; [|done]. clear Hspec. cbn [stored abs] in Hnone. rewrite lookup_fmap, fmap_None in Hnone.
  unfold upload_tx. destruct (w_create_willing oid 0 (objects s) Hfresh) as (w & n1 & o1 & Hcr). eapply goes_bind; [apply objs_go; exact Hcr|]. apply w_create_ok in Hcr as (_ & Ho1 & Hw).
  destruct (upload_loop_goes max_size oid body [] w d n1 (set_objects o1 s) Hw Hd Hl Hm) as [[[w2 n2] s2] Hloop]. eapply goes_bind; [exact Hloop|]. eapply upload_loop_ok in Hloop as (d' & Hd' & Hw2 & Hs2 & _); [|exact Hw]. assert (d' = d) as -> by congruence.
  assert (w_size w2 = len d) as Hsz. { rewrite (wr_size _ _ _ _ Hw2). apply i64_id. unfold MAX_OBJECT, len in *. cbn. lia. } assert (0 < len d)%Z by (destruct d; [done|unfold len; cbn; lia]).
  eapply goes_bind; [apply guardT_go; rewrite bool_decide_eq_false_2; [done|lia]|]. unfold finish_upload. cbv zeta. eapply goes_bind; [apply stmt_willing; unfold insert_file; rewrite decide_False by (rewrite Hs2; cbn; rewrite Hnone; by intros []); done|].
  destruct (w_commit_willing oid d w2 (Datatypes.S n2) (objects s2) Hw2) as (n3 & o3 & Hcm); [lia|]. eapply goes_bind; [apply objs_go; exact Hcm|]. by eexists.
Qed.
Lemma put_goes file app name content_type data by_ oid s r : Sound s → objects s !! oid = None → spec (APut file app name content_type data by_ oid) (abs s) = Some r → goes (put_tx sha256_hex file app name content_type data by_ oid) 0 s.
Proof.
  intros [HI HR] Hfresh Hspec. cbn [spec] in Hspec. destruct (decide _) as [(Hl & Hnone)|]; [|done]. clear Hspec. cbn [stored abs] in Hnone. rewrite lookup_fmap, fmap_None in Hnone.
  unfold put_tx. destruct (w_create_willing oid 0 (objects s) Hfresh) as (w & n1 & o1 & Hcr). eapply goes_bind; [apply objs_go; exact Hcr|]. apply w_create_ok in Hcr as (_ & Ho1 & Hw).
  destruct (w_write_willing oid [] w data n1 o1 Hw) as (w2 & n2 & o2 & Hgo); [done|]. eapply goes_bind; [apply objs_go; exact Hgo|]. apply w_write_ok with (1 := Hw) in Hgo as [Hw2 _]. change ([] ++ data) with data in *.
  destruct (w_commit_willing oid data w2 (Datatypes.S n2) o2 Hw2 Hl) as (n3 & o3 & Hcm). assert (goes (finish_upload sha256_hex w2 file app name content_type by_) n2 (set_objects o2 (set_objects o1 s))) as [[[r' n4] s4] Hf]; [|eapply goes_bind; [exact Hf|by eexists]].
  unfold finish_upload. cbv zeta. eapply goes_bind; [apply stmt_willing; unfold insert_file; rewrite decide_False by (cbn; rewrite Hnone; by intros []); done|]. eapply goes_bind; [apply objs_go; exact Hcm|]. by eexists.
Qed.
Lemma delete_goes file app s r : Sound s → spec (ADelete file app) (abs s) = Some r → goes (delete_tx file app) 0 s.
Proof.
  intros [HI HR] Hspec. cbn [spec stored abs] in Hspec. rewrite lookup_fmap in Hspec. destruct (files s !! file) as [f|] eqn:Hf; [|done]. cbn [fmap option_fmap option_map mbind option_bind] in Hspec. destruct (decide _) as [Happ|]; [|done]. change (f_app f = app) in Happ.
  assert (∃ o, unlink_all (option_list (f_oid f)) (objects s) = Some o) as [o Hun]. { destruct (f_oid f) as [oid|] eqn:Ho; cbn; [|by eexists]. destruct (belongs_object s HI (inr file) oid) as [c ->]; [by econstructor|by eexists]. }
  destruct (drop_file s file f o HI Hf Hun) as (HI1 & _). set (s1 := {| files := delete file (files s) |}) in *. destruct (delete_sessions_ok s1 HI1 (λ _ u, bool_decide (us_done u = Some file))) as (s2 & Hd & _).
  unfold delete_tx. eapply goes_bind; [apply stmt_willing; unfold delete_row, file_row; rewrite Hf; cbn [mbind option_bind]; rewrite decide_True by done; rewrite Hun; cbn [mbind option_bind]; unfold s1 in Hd; rewrite Hd; done|]. by eexists.
Qed.

(** ** The promise kept *)

Lemma tx_refines a fate n s ans n' s' : Sound s → tx_of a fate n s = Ok (ans, n', s') → Sound s' ∧ spec a (abs s) = Some (abs s', ans).
Proof.
  intros HS Ht. destruct a; cbn [tx_of] in Ht; inv_tx.
  - by eapply create_ok.
  - by eapply append_ok.
  - by eapply complete_ok.
  - by eapply cancel_ok.
  - by eapply upload_ok.
  - by eapply put_ok.
  - by eapply delete_ok.
  - match goal with Hd : cleanup_tx _ _ _ = _ |- _ => eapply (delete_where_ok _ (λ u, bool_decide (u_expires u ≤ time s)%Z)) in Hd as [HS' Ha]; [|done|done] end. split; [done|]. cbn [spec]. by rewrite Ha.
  - match goal with Hd : forget_tx _ _ _ _ = _ |- _ => eapply (delete_where_ok _ (λ u, bool_decide (u_app u = app))) in Hd as [HS' Ha]; [|done|done] end. split; [done|]. cbn [spec]. by rewrite Ha.
  - match goal with Hd : forget_tx _ _ _ _ = _ |- _ => eapply (delete_where_ok _ (λ u, bool_decide (u_by u = user))) in Hd as [HS' Ha]; [|done|done] end. split; [done|]. cbn [spec]. by rewrite Ha.
Qed.
(** The server can make the object that is asked for. *)
Definition room (a : Action) (s : Store) : Prop := match a with ACreate _ _ _ _ _ _ oid | AUpload _ _ _ _ _ _ oid _ | APut _ _ _ _ _ _ oid => objects s !! oid = None | _ => True end.
Lemma tx_goes a s r : Sound s → room a s → spec a (abs s) = Some r → goes (tx_of a) 0 s.
Proof.
  intros HS Hroom Hspec. destruct a; cbn [tx_of room] in *.
  - destruct (create_goes _ _ _ _ _ _ _ _ _ HS Hroom Hspec) as [[[[c u] n] s'] Hg]. eapply goes_bind; [exact Hg|]. by eexists.
  - apply (goes_map _ Offset). by eapply append_goes.
  - destruct (complete_goes _ _ _ _ _ _ HS Hspec) as [[[[c u] n] s'] Hg]. eapply goes_bind; [exact Hg|]. by eexists.
  - apply (goes_map _ (λ _, Gone)). by eapply cancel_goes.
  - destruct (upload_goes _ _ _ _ _ _ _ _ _ _ HS Hroom Hspec) as [[[[c u] n] s'] Hg]. eapply goes_bind; [exact Hg|]. by eexists.
  - apply (goes_map _ (λ _, Kept)). by eapply put_goes.
  - apply (goes_map _ (λ _, Gone)). by eapply delete_goes.
  - apply (goes_map _ (λ _, Gone)). destruct (delete_where_go expired 0 s (proj1 HS)) as (s' & Hg & _). eexists. exact Hg.
  - apply (goes_map _ (λ _, Gone)). destruct (delete_where_go (λ _ _ u, bool_decide (us_app u = app)) 0 s (proj1 HS)) as (s' & Hg & _). eexists. exact Hg.
  - apply (goes_map _ (λ _, Gone)). destruct (delete_where_go (λ _ _ u, bool_decide (us_by u = user)) 0 s (proj1 HS)) as (s' & Hg & _). eexists. exact Hg.
Qed.

Lemma perform_refines wrap a fate s s' r : Sound s → perform wrap a fate s = (s', r) →
  Sound s' ∧ ((abs s' = abs s ∧ ∃ e, r = Err e) ∨ ∃ ans, spec a (abs s) = Some (abs s', ans) ∧ (r = Ok ans ∨ ∃ e, r = Err e)).
Proof.
  intros HS Hp. unfold perform in Hp. apply tx_leaves in Hp as [[-> He]|(ans & n & Ht & Hr)]; [split; [done|by left]|]. apply tx_refines in Ht as [HS' Hspec]; [|done]. split; [done|right]. by exists ans.
Qed.
End Keeping.

(** What happens to the tables, and to what others have: actions; time; and others make an
    object, write to one of theirs or remove it. *)
Definition others_have (oid : N) (c : option bytes) (s : Store) : Store := set_objects (partial_alter (λ _, c) oid (objects s)) s.
Inductive moves : Store * Objects → Store * Objects → Prop :=
| mv_action wrap a fate s s' r theirs : perform wrap a fate s = (s', r) → moves (s, theirs) (s', theirs)
| mv_time s t theirs : (time s ≤ t)%Z → moves (s, theirs) ({| sessions := sessions s; files := files s; objects := objects s; time := t |}, theirs)
| mv_others oid c s theirs : is_Some (theirs !! oid) ∨ objects s !! oid = None → moves (s, theirs) (others_have oid c s, partial_alter (λ _, c) oid theirs).
(** Tables as they are before: no uploads, and only files with their content in the row. *)
Definition legacy (s : Store) : Prop := sessions s = ∅ ∧ ∀ id f, files s !! id = Some f → f_oid f = None ∧ ∃ c, f_content f = Some c ∧ f_size f = len c.
Lemma legacy_sound s : legacy s → Sound (objects s) s.
Proof.
  intros (Hs & Hf). assert (∀ k oid, ¬ belongs s k oid) as Hno.
  { intros k oid [id u i Hu _|id f i Hid Hi]; [by rewrite Hs, lookup_empty in Hu|]. destruct (Hf id f Hid) as [H1 _]. congruence. }
  split; [split|].
  - intros id u. rewrite Hs. by rewrite lookup_empty.
  - intros id f Hid. destruct (Hf id f Hid) as (H1 & c & H2 & H3). left. by exists c.
  - intros k k' oid Hk. by apply Hno in Hk.
  - intros oid c Hc Hn. congruence.
  - done.
  - intros id u file. rewrite Hs. by rewrite lookup_empty.
Qed.
(** Tables that differ in their objects and the time only. *)
Lemma belongs_same s s' k oid : sessions s' = sessions s → files s' = files s → belongs s' k oid ↔ belongs s k oid.
Proof. intros Hs Hf. split; intros [id u i Hu Hi|id f i Hid Hi]; [rewrite Hs in Hu|rewrite Hf in Hid|rewrite <-Hs in Hu|rewrite <-Hf in Hid]; by econstructor. Qed.
Lemma others_sound oid c s theirs : is_Some (theirs !! oid) ∨ objects s !! oid = None → Sound theirs s → Sound (partial_alter (λ _, c) oid theirs) (others_have oid c s).
Proof.
  intros Hg [HI HR]. assert (∀ k, ¬ belongs s k oid) as Hno.
  { intros k Hk. destruct Hg as [[d Hd]|Hn]; [by apply (inv_theirs theirs s HI) in Hd as [_ Hd]; destruct (Hd k)|]. apply (belongs_object theirs s HI) in Hk as [d Hd]. congruence. }
  assert (∀ k i, belongs s k i → objects (others_have oid c s) !! i = objects s !! i) as Hsame. { intros k i Hk. cbn. rewrite lookup_partial_alter_ne; [done|]. intros ->. by apply (Hno k). }
  split; [|exact HR]. split.
  - intros id u Hu. destruct (inv_sessions theirs s HI id u Hu) as [He [(Hd & i & d & Hi & Hc & Hrest)|Hdone]]; (split; [done|]); [left|by right]. split; [done|]. exists i, d. split; [done|]. split; [|done]. rewrite (Hsame (inl id)); [done|by econstructor].
  - intros id f Hf. destruct (inv_files theirs s HI id f Hf) as [Hl|(Hn & i & d & Hi & Hc & Hrest)]; [by left|right]. split; [done|]. exists i, d. split; [done|]. split; [|done]. rewrite (Hsame (inr id)); [done|by econstructor].
  - intros k k' i Hk Hk'. rewrite (belongs_same s) in Hk, Hk' by done. by eapply (inv_one theirs s HI).
  - intros i d Hi Ht. cbn in Hi. destruct (decide (i = oid)) as [->|Hne]; [rewrite lookup_partial_alter_eq in Hi, Ht; congruence|]. rewrite lookup_partial_alter_ne in Hi, Ht by done. destruct (inv_none theirs s HI i d Hi Ht) as [k Hk]. exists k. by rewrite (belongs_same s).
  - intros i d Hi. cbn. setoid_rewrite (belongs_same s); [|done|done]. destruct (decide (i = oid)) as [->|Hne]; [rewrite lookup_partial_alter_eq in *; by split|]. rewrite lookup_partial_alter_ne in * by done. by apply (inv_theirs theirs s HI).
Qed.
Lemma moves_sound p p' : rtc moves p p' → Sound p.2 p.1 → Sound p'.2 p'.1.
Proof.
  induction 1 as [|p1 p2 p3 Hm _ IH]; [done|]. intros HS. apply IH. destruct Hm as [wrap a fate s s' r theirs Hp|s t theirs Ht|oid c s theirs Hg]; cbn in *; [by eapply perform_refines| |by apply others_sound]. destruct HS as [[H1 H2 H3 H4 H5] HR]. split; [|exact HR]. split; try done.
  - intros k k' oid Hk Hk'. rewrite (belongs_same s) in Hk, Hk' by done. by apply (H3 k k' oid).
  - intros oid c Hc Hn. destruct (H4 oid c Hc Hn) as [k Hk]. exists k. by rewrite (belongs_same s).
  - intros oid c Hc. destruct (H5 oid c Hc) as [Ho Hn]. split; [done|]. intros k Hk. rewrite (belongs_same s) in Hk by done. by apply (Hn k).
Qed.

(** [C39] Storage is what its specification says, whatever the database does: in every state
    that can be reached, an action leaves the uploads and files as they were and is refused,
    or changes them exactly as specified, answering as specified or with the error of a
    commit that was not confirmed.  A chunk is taken only at the offset the upload has
    reached, from its own user and app, and within the declared size; a file is made only
    of all declared bytes; asking again for completion answers the same file.  And nothing
    the specification allows is refused by a database that refuses nothing. *)
Theorem storage_meets_its_specification wrap a fate s0 s theirs s' r : legacy s0 → rtc moves (s0, objects s0) (s, theirs) → perform wrap a fate s = (s', r) →
  ((abs s' = abs s ∧ ∃ e, r = Err e) ∨ ∃ ans, spec a (abs s) = Some (abs s', ans) ∧ (r = Ok ans ∨ ∃ e, r = Err e)) ∧
  (fate = willing → room a s → ∀ t ans, spec a (abs s) = Some (t, ans) → r = Ok ans ∧ abs s' = t).
Proof.
  intros H0 Hm Hp. pose proof (moves_sound _ _ Hm (legacy_sound _ H0)) as HS. cbn in HS. split; [by eapply perform_refines|]. intros -> Hroom t ans Hspec. destruct (tx_goes theirs a s _ HS Hroom Hspec) as [[[ans' n] s1] Hg].
  unfold perform, in_tx in Hp. rewrite Hg in Hp. cbn in Hp. injection Hp as <- <-. apply (tx_refines theirs) in Hg as [_ Hspec']; [|done]. rewrite Hspec in Hspec'. by injection Hspec' as -> ->.
Qed.

(** [C40] In every state that can be reached, whatever failed on the way, each large object
    belongs to exactly one upload or file, or is one of those that others made, which are
    what those others left and belong to no upload and no file: none is left behind and
    none is removed under another's feet.  Every file has the size of its bytes, and every
    file kept as a large object their checksum (a file kept in its row, as they once were,
    has what was there).  A download sends these bytes and no others, all of them unless it
    breaks off, which it does not do of itself. *)
Theorem stored_files_read_back s0 s theirs : legacy s0 → rtc moves (s0, objects s0) (s, theirs) →
  (∀ oid c, objects s !! oid = Some c → if decide (is_Some (theirs !! oid)) then theirs !! oid = Some c ∧ ∀ k, ¬ belongs s k oid else ∃ k, belongs s k oid ∧ ∀ k', belongs s k' oid → k' = k) ∧
  theirs ⊆ objects s ∧
  ∀ file st, stored (abs s) !! file = Some st → ∃ f, files s !! file = Some f ∧ f_size f = len (st_bytes st) ∧ (f_content f = None → st_checksum st = Some (sha256_hex (st_bytes st))) ∧
    (∀ fate dl, open_body file f fate (objects s) = Ok dl → dl_size dl = len (st_bytes st) ∧ concat (dl_body dl) `prefix_of` st_bytes st ∧ (dl_broken dl = None → concat (dl_body dl) = st_bytes st)) ∧
    ∃ dl, open_body file f willing (objects s) = Ok dl ∧ dl_broken dl = None.
Proof.
  intros H0 Hm. destruct (moves_sound _ _ Hm (legacy_sound _ H0)) as [HI _]. cbn in HI. split_and!.
  - intros oid c Hc. destruct (decide _) as [[d Hd]|Hn%eq_None_not_Some].
    + destruct (inv_theirs theirs s HI oid d Hd) as [Ho Hno]. split; [congruence|done].
    + destruct (inv_none theirs s HI oid c Hc Hn) as [k Hk]. exists k. split; [done|]. intros k' Hk'. by eapply (inv_one theirs s HI).
  - apply map_subseteq_spec. intros oid c Hc. by apply (inv_theirs theirs s HI).
  - intros file st Hst. cbn in Hst. rewrite lookup_fmap in Hst. destruct (files s !! file) as [f|] eqn:Hf; [|done]. injection Hst as <-. exists f. split; [done|]. unfold open_body. destruct (inv_files theirs s HI file f Hf) as [(c & Hc & Ho & Hsz)|(Hn & oid & c & Ho & Hc & Hsz & Hsum)].
    + cbn. rewrite Hc. cbn. split_and!; [done|done| |by eexists]. intros fate dl [= <-]. cbn. by rewrite app_nil_r.
    + assert (st_bytes (abs_file (objects s) f) = c) as -> by (cbn; rewrite Hn, Ho; cbn; unfold bytes_at; cbn; by rewrite Hc). rewrite Hn, Ho, Hsz. split_and!; [done|done| |].
      * intros fate dl (((r & n) & o') & Hr & Hdl)%bind_ok_iff. destruct (into_body r fate n o') as [body broken] eqn:Hb. injection Hdl as <-. cbn. destruct (body_of_object oid c fate 0 (objects s) r n o' body broken Hc Hr Hb) as [H1 H2]. done.
      * destruct (body_willing oid c (objects s) Hc) as (r & n & Hr & Hb). rewrite Hr. cbn [result_bind]. destruct (into_body r willing n (objects s)) as [body broken]. cbn in Hb. subst. by eexists.
Qed.
End Promise.

Module StorageExamples.
Definition sha (b : bytes) : string := "sum-" +:+ pretty (length b).
Definition start : Store := {| sessions := ∅; files := ∅; objects := ∅; time := 0 |}.
Definition done (a : Action) (s : Store) : Store := (perform sha None from_sqlx a willing s).1.
Definition creating : Action := ACreate "up" "ann" "crm" "notes" "text/plain" 5 7.
Definition first_part : Action := AAppend "up" "ann" "crm" 0 [Ok [x61; x62]; Ok []; Ok [x63]].
Definition second_part : Action := AAppend "up" "ann" "crm" 3 [Ok [x64; x65]].
Definition completing : Action := AComplete "up" "ann" "crm" "f1".
Definition half : Store := done first_part (done creating start).
Definition whole : Store := done completing (done second_part half).
Lemma done_moves a s theirs : moves sha None (s, theirs) (done a s, theirs).
Proof. apply (mv_action sha None from_sqlx a willing s (done a s) (perform sha None from_sqlx a willing s).2). apply surjective_pairing. Qed.
Lemma half_reached : rtc (moves sha None) (start, ∅) (half, ∅).
Proof. eapply rtc_l; [apply (done_moves creating)|]. apply rtc_once, done_moves. Qed.
(** Beside the upload, a bucket gets a file of its own. *)
Definition whole_shared : Store := others_have 9 (Some [x7a]) whole.
Definition bucket_object : Objects := partial_alter (λ _, Some [x7a]) 9%N ∅.
Lemma whole_reached : rtc (moves sha None) (start, ∅) (whole_shared, bucket_object).
Proof. etrans; [exact half_reached|]. eapply rtc_l; [apply (done_moves second_part)|]. eapply rtc_l; [apply (done_moves completing)|]. apply rtc_once, mv_others. right. vm_compute. reflexivity. Qed.
Lemma start_legacy : legacy start.
Proof. split; [reflexivity|]. intros id f Hf. cbn in Hf. by rewrite lookup_empty in Hf. Qed.
Lemma storage_meets_its_specification_witness : (perform sha None from_sqlx second_part willing half).2 = Ok (Offset 5).
Proof.
  destruct (spec sha None second_part (abs half)) as [[t ans]|] eqn:Hs.
  - assert (ans = Offset 5) as -> by (apply (f_equal (fmap snd)) in Hs; vm_compute in Hs; by injection Hs as <-).
    exact (proj1 (proj2 (storage_meets_its_specification sha None from_sqlx second_part willing start half ∅ (done second_part half) (perform sha None from_sqlx second_part willing half).2 start_legacy half_reached (surjective_pairing _)) eq_refl I t _ Hs)).
  - exfalso. apply (f_equal (λ o, match o with Some _ => true | None => false end)) in Hs. vm_compute in Hs. discriminate Hs.
Defined.
Lemma stored_files_read_back_witness : ∃ f, files whole_shared !! "f1" = Some f ∧ f_size f = 5%Z ∧ ∃ dl, open_body "f1" f willing (objects whole_shared) = Ok dl ∧ concat (dl_body dl) = [x61; x62; x63; x64; x65].
Proof.
  destruct (stored (abs whole_shared) !! "f1") as [st|] eqn:Hst; [|exfalso; apply (f_equal (λ o, match o with Some _ => true | None => false end)) in Hst; vm_compute in Hst; discriminate Hst].
  assert (st_bytes st = [x61; x62; x63; x64; x65]) as Hb by (apply (f_equal (fmap st_bytes)) in Hst; vm_compute in Hst; injection Hst as Hst; exact (eq_sym Hst)).
  destruct (proj2 (proj2 (stored_files_read_back sha None start whole_shared bucket_object start_legacy whole_reached)) "f1" st Hst) as (f & Hf & Hsz & _ & Hread & dl & Hdl & Hok). exists f. rewrite Hb in *. split; [exact Hf|]. split; [exact Hsz|]. exists dl. split; [exact Hdl|].
  apply (Hread willing dl Hdl). exact Hok.
Defined.
(** Sending a part again, which a client does when it did not hear that it arrived. *)
Example again_is_refused : (perform sha None from_sqlx first_part willing half).2 = Err (Conflict "upload offset mismatch: expected 3, got 0").
Proof. vm_compute. reflexivity. Qed.
Example not_confirmed : let '(s, r) := perform sha None from_sqlx second_part {| refused n := if decide (n = 6) then Some {| sql_code := "08006"; sql_message := "gone"; sql_rule := None |} else None; moved _ := None; lost := true |} half in
  (us_uploaded <$> sessions s !! "up", r) = (Some 5%Z, Err (Internal "internal database error")).
Proof. vm_compute. reflexivity. Qed.
Example completing_twice : (perform sha None from_sqlx (AComplete "up" "ann" "crm" "f2") willing whole).2 = Ok (File false {| sf_id := "f1"; sf_name := "notes"; sf_type := "text/plain"; sf_size := 5; sf_checksum := "sum-5" |}).
Proof. vm_compute. reflexivity. Qed.
(** A file stored without a request, an empty one too. *)
Example putting : (perform sha None from_sqlx (APut "f3" "crm" "log" "text/plain" [] None 11) willing whole).2 = Ok Kept.
Proof. vm_compute. reflexivity. Qed.
End StorageExamples.
