(* ===== verification/StorageRoutes.v ===== *)
(** * Requests for files (extensions/storage/mod.rs, resumable.rs)

    The handlers: who may ask, what is checked before a transaction, and what is answered. *)

From stdpp Require Import base numbers gmap strings list pretty relations.
From Stdlib Require Import Init.Byte.
From S2P Require Import Prelude Str Ident Authority Records Procs LargeObjects Storage.

Record World := { sw_pool : Pool; sw_store : Store; sw_nonces : NonceStore; sw_now : Z }.
Definition set_store (s : Store) (w : World) : World := {| sw_pool := sw_pool w; sw_store := s; sw_nonces := sw_nonces w; sw_now := sw_now w |}.
Definition set_nonces (n : NonceStore) (w : World) : World := {| sw_pool := sw_pool w; sw_store := sw_store w; sw_nonces := n; sw_now := sw_now w |}.
Notation Handler A := (Op World Fate (result ApiError A)).
Definition checked {A B : Type} (r : result ApiError A) (k : A → Handler B) : Handler B := match r with Ok a => k a | Err e => Done (Err e) end.
Definition requires {A : Type} (user : uuid) (key : string) (k : Handler A) : Handler A := Do (λ _ w, (w, checked (require_perm (sw_pool w) user key) (λ _, k))).
(** A transaction, and a query outside one. *)
Definition commits {A : Type} (wrap : SqlError → ApiError) (m : STx A) : Handler A :=
  Do (λ fate w, let '(s', r) := in_tx wrap m fate (sw_store w) in (set_store s' w, Done r)).
Definition asks {A : Type} (m : STx A) : Handler A := Do (λ fate w, (w, Done (result_map (λ r, r.1.1) (m fate 0 (sw_store w))))).

Section Routes.
Context (sha256_hex : bytes → string) (setting : option string).

(** ** Resumable uploads *)

Record CreateUpload := { cu_id : option uuid; cu_name : string; cu_type : option string; cu_size : Z }.
Definition create_upload (user : uuid) (app : string) (input : CreateUpload) (fresh : uuid) (oid : N) : Handler (bool * UploadSessionResponse) :=
  requires user (write_key app) (
  checked (validate_name (cu_name input)) (λ name,
  checked (validate_content_type (cu_type input)) (λ content_type,
  checked (validate_file_size (cu_size input) (limit setting)) (λ _,
  commits from_sqlx (create_tx (default fresh (cu_id input)) user app name content_type (cu_size input) oid))))).
Definition show_upload (user : uuid) (app : string) (id : uuid) : Handler UploadSessionResponse := requires user (write_key app) (asks (get_upload id app user)).
Definition upload_offset (header : option string) : option Z := z ← header ≫= parse_i64; if decide (0 ≤ z)%Z then Some z else None.
Definition append_chunk (user : uuid) (app : string) (id : uuid) (content_type offset : option string) (body : list (result string bytes)) : Handler Z :=
  requires user (write_key app) (
  checked (ensure (bool_decide (content_type = Some CHUNK_CONTENT_TYPE)) (BadRequest ("Content-Type must be " +:+ CHUNK_CONTENT_TYPE))) (λ _,
  checked (ok_or (upload_offset offset) (BadRequest "missing or invalid Upload-Offset header")) (λ requested,
  commits schema_api (append_tx id user app requested body)))).
Definition complete_upload (user : uuid) (app : string) (id file : uuid) : Handler (bool * StoredFile) := requires user (write_key app) (commits from_sqlx (complete_tx sha256_hex id user app file)).
Definition cancel_upload (user : uuid) (app : string) (id : uuid) : Handler unit := requires user (write_key app) (commits from_sqlx (cancel_tx id user app)).

(** ** Files in one piece *)

(** A field of a form. *)
Record Field := { fd_name : option string; fd_type : option string; fd_chunks : list (result string bytes) }.
Definition upload_file (user : uuid) (app : string) (field : result string (option Field)) (file : uuid) (oid : N) : Handler (string * string * (Z * string)) :=
  requires user (write_key app) (
  checked (map_err BadRequest field) (λ field,
  checked (ok_or field (BadRequest "no file field")) (λ field,
  let name := default "upload" (fd_name field) in
  let content_type := default OCTETS (fd_type field) in
  commits schema_api (let! stored := upload_tx sha256_hex setting 0 file app name content_type (Some user) oid (fd_chunks field) in ret (name, content_type, stored))))).
Definition upload_via_nonce (nonce : string) (file : uuid) (oid : N) (body : list (result string bytes)) : Handler (string * (Z * string)) :=
  Do (λ _ w,
    let '(nonces, found) := nonce_consume (sw_now w) nonce (sw_nonces w) in
    (set_nonces nonces w,
     checked (ok_or found (NotFound "invalid or expired upload nonce")) (λ n,
     commits schema_api (let! stored := upload_tx sha256_hex setting (un_max n) file (un_app n) (un_name n) (un_type n) None oid body in ret (un_name n, stored))))).
Definition delete_file (user : uuid) (app : string) (file : uuid) : Handler unit := requires user (write_key app) (commits (λ e, served (schema_error e)) (delete_tx file app)).

(** ** Downloads *)

Definition file_error (file : uuid) (e : RuntimeError) : ApiError := match e with RuntimeNotFound _ => NotFound ("file " +:+ file) | e => served e end.
(** The row, then the content: another request may come in between. *)
Definition open_file (file : uuid) (app : string) : Handler Download :=
  Do (λ fate w, (w,
    match refused fate 0 with
    | Some e => Done (Err (served (schema_error e)))
    | None => match file_row file app (sw_store w) with
              | None => Done (Err (file_error file (RuntimeNotFound ("file " +:+ file))))
              | Some f => Do (λ fate w, (w, Done (map_err (file_error file) (open_body file f fate (objects (sw_store w))))))
              end
    end)).
Fixpoint map_op {A B : Type} (f : A → B) (p : Handler A) : Handler B :=
  match p with Done r => Done (result_map f r) | Do g => Do (λ fate w, let '(w', p') := g fate w in (w', map_op f p')) end.
Definition header_byte (c : ascii) : bool := let n := N_of_ascii c in ((32 <=? n)%N && (n <? 127)%N) || (n =? 9)%N.
Definition header_value (s default_ : string) : string := if str_forall header_byte s then s else default_.
(** Control characters, the quote and the backslash are left out. *)
Fixpoint safe_name (s : string) : string :=
  match s with
  | EmptyString => EmptyString
  | String c r =>
      let n := N_of_ascii c in
      if (n <? 32)%N || (n =? 127)%N || (n =? 34)%N || (n =? 92)%N then safe_name r
      else match r with
           | String d r' => if (n =? 194)%N && (128 <=? N_of_ascii d)%N && (N_of_ascii d <? 160)%N then safe_name r' else String c (safe_name r)
           | EmptyString => String c EmptyString
           end
  end.
Definition QUOTE : string := String (ascii_of_N 34) EmptyString.
Record Response := { rs_headers : list (string * string); rs_body : Download }.
Definition worker_response (d : Download) : Response := {| rs_headers := [("content-type", header_value (dl_type d) OCTETS); ("content-length", pretty (dl_size d))]; rs_body := d |}.
Definition user_response (d : Download) : Response :=
  {| rs_headers := [("content-type", header_value (dl_type d) OCTETS); ("content-disposition", header_value ("attachment; filename=" +:+ QUOTE +:+ safe_name (dl_name d) +:+ QUOTE) "attachment");
                    ("content-length", pretty (dl_size d)); ("x-content-type-options", "nosniff")]; rs_body := d |}.
Definition get_file (user : uuid) (app : string) (file : uuid) : Handler Response := requires user (read_key app) (map_op user_response (open_file file app)).
Definition download_via_nonce (nonce : string) : Handler Response :=
  Do (λ _ w,
    let '(nonces, found) := nonce_consume_download (sw_now w) nonce (sw_nonces w) in
    (set_nonces nonces w, checked (ok_or found (NotFound "invalid or expired download nonce")) (λ n, map_op worker_response (open_file (dn_file n) (dn_app n))))).

(** ** Nobody without the permission *)

Context (env : World → World → Prop).
Notation oruns := (oruns env).
Lemma requires_runs {A : Type} user key (k : Handler A) w l w' r : oruns (requires user key k) w l w' r → ∃ y l', rtc env w y ∧ l = (y, y) :: l' ∧
  ((require_perm (sw_pool y) user key = Ok tt ∧ oruns k y l' w' r) ∨ ∃ e, require_perm (sw_pool y) user key = Err e ∧ r = Err e ∧ l' = []).
Proof.
  intros (w1 & fate & w2 & p & l' & He & Hf & Hr & ->)%oruns_do_inv. injection Hf as <- <-. exists w1, l'. split_and!; [done|done|]. destruct (require_perm (sw_pool w1) user key) as [[]|e]; [by left|right]. apply oruns_done_inv in Hr as (-> & -> & _). by exists e.
Qed.
Lemma commits_runs {A : Type} wrap (m : STx A) w l w' r : oruns (commits wrap m) w l w' r → ∃ y fate, rtc env w y ∧ in_tx wrap m fate (sw_store y) = ((in_tx wrap m fate (sw_store y)).1, r) ∧ l = [(y, set_store (in_tx wrap m fate (sw_store y)).1 y)].
Proof.
  intros (w1 & fate & w2 & p & l' & He & Hf & Hr & ->)%oruns_do_inv. destruct (in_tx wrap m fate (sw_store w1)) as [s' r'] eqn:Hx. injection Hf as <- <-. apply oruns_done_inv in Hr as (-> & -> & _). exists w1, fate. rewrite Hx. by split_and!.
Qed.
(** A file is uploaded by a user only with the app's key, at one moment, as one action. *)
Lemma upload_is_authorised user app field file oid w l w' r : oruns (upload_file user app field file oid) w l w' (Ok r) →
  ∃ y z fate s', rtc env w y ∧ require_perm (sw_pool y) user (write_key app) = Ok tt ∧ rtc env y z ∧ l = [(y, y); (z, set_store s' z)] ∧
    ∃ name content_type body size sum, perform sha256_hex setting schema_api (AUpload 0 file app name content_type (Some user) oid body) fate (sw_store z) = (s', Ok (Uploaded size sum)).
Proof.
  intros (y & l' & Hy & -> & [[Hp Hr]|(e & _ & He & _)])%requires_runs; [|done]. unfold checked in Hr. destruct field as [[f|]|e]; cbn in Hr; [|by apply oruns_done_inv in Hr as [? _]..]. apply commits_runs in Hr as (z & fate & Hz & Hx & ->). exists y, z, fate. eexists. split_and!; try done.
  exists (default "upload" (fd_name f)), (default OCTETS (fd_type f)), (fd_chunks f). unfold perform, in_tx in *. cbn [tx_of]. unfold bindT, ret in *. destruct (upload_tx _ _ _ _ _ _ _ _ _ _ fate 0 (sw_store z)) as [[[[size sum] n] s']|e]; cbn in *; [|by simplify_eq]. exists size, sum. destruct (refused fate n); simplify_eq. done.
Qed.
(** A nonce is good once: what is consumed is gone. *)
Lemma nonce_single_use now nonce s s' n : nonce_consume now nonce s = (s', Some n) → (now ≤ un_expires n)%Z ∧ ∀ now', (nonce_consume now' nonce s').2 = None.
Proof.
  unfold nonce_consume. destruct (uploads_ s !! nonce) as [e|] eqn:He; [|done]. destruct (decide _); [done|]. intros [= <- <-]. split; [lia|]. intros now'. cbn. by rewrite lookup_delete_eq.
Qed.
Lemma nonce_create_consume now now' nonce app name content_type max s : (now' ≤ now + NONCE_TTL)%Z →
  (nonce_consume now' nonce (nonce_create now nonce app name content_type max s)).2 = Some {| un_app := app; un_name := name; un_type := content_type; un_max := max; un_expires := (now + NONCE_TTL)%Z |}.
Proof. intros Ht. unfold nonce_consume, nonce_create. cbn. rewrite lookup_insert_eq. cbn. by rewrite decide_False by lia. Qed.
(** The name in the header cannot end its quotes. *)
Lemma safe_name_quoted s : str_forall (λ c, negb ((N_of_ascii c <? 32)%N || (N_of_ascii c =? 127)%N || (N_of_ascii c =? 34)%N || (N_of_ascii c =? 92)%N)) (safe_name s) = true.
Proof.
  remember (String.length s) as k eqn:Hk. revert s Hk. induction (lt_wf k) as [k _ IH]. intros [|c r] ->; [done|]. cbn [safe_name]. cbv zeta. destruct (_ || _) eqn:Hc; [by apply (IH (String.length r)); [cbn; lia|]|]. destruct r as [|d r']; [cbn [str_forall]; by rewrite Hc|].
  destruct (_ && _); [by apply (IH (String.length r')); [cbn; lia|]|]. cbn [str_forall]. rewrite Hc. cbn [negb andb]. apply (IH (String.length (String d r'))); [cbn; lia|done].
Qed.
End Routes.
