(* ===== verification/Buckets.v ===== *)
(** * Buckets of the platform (extensions/platform_storage/mod.rs)

    Folders and files in named buckets, over the same large objects as the files of apps.
    Most handlers are several statements with no transaction around them, so each is a step
    of its own and other requests come in between. *)

From stdpp Require Import base numbers gmap strings list pretty relations.
From Stdlib Require Import Init.Byte.
From S2P Require Import Prelude Str Ident Perms Authority Records Procs LargeObjects Storage StorageRoutes.

(** ** Tables *)

Record BucketRow := { bk_public : bool; bk_max : option Z; bk_types : option (list string) }.
Record ObjectRow := {
  ob_bucket : string; ob_parent : option uuid; ob_name : string; ob_folder : bool; ob_type : string; ob_size : Z; ob_content : option bytes; ob_oid : option N; ob_checksum : option string; ob_by : option uuid }.
Record Tree := { buckets : gmap string BucketRow; items : gmap uuid ObjectRow; blobs : Objects }.
Definition set_buckets (m : gmap string BucketRow) (t : Tree) : Tree := {| buckets := m; items := items t; blobs := blobs t |}.
Definition set_items (m : gmap uuid ObjectRow) (t : Tree) : Tree := {| buckets := buckets t; items := m; blobs := blobs t |}.
Definition set_blobs (o : Objects) (t : Tree) : Tree := {| buckets := buckets t; items := items t; blobs := o |}.
Record BWorld := { bw_pool : Pool; bw_tree : Tree }.
Definition set_tree (t : Tree) (w : BWorld) : BWorld := {| bw_pool := bw_pool w; bw_tree := t |}.
Notation BHandler A := (Op BWorld Fate (result ApiError A)).

(** The constraints of the tables: a name is unique within its folder, a parent and a
    bucket exist. *)
Inductive Violation := Duplicate | ForeignKey.
Definition taken (id : uuid) (r : ObjectRow) (t : Tree) : bool :=
  existsb (λ kv, negb (bool_decide (kv.1 = id)) && bool_decide (ob_bucket kv.2 = ob_bucket r) && bool_decide (ob_parent kv.2 = ob_parent r) && bool_decide (ob_name kv.2 = ob_name r)) (map_to_list (items t)).
Definition refers (r : ObjectRow) (t : Tree) : bool :=
  bool_decide (is_Some (buckets t !! ob_bucket r)) && match ob_parent r with Some p => bool_decide (is_Some (items t !! p)) | None => true end.
Definition place_object (id : uuid) (r : ObjectRow) (t : Tree) : Violation + Tree :=
  if bool_decide (is_Some (items t !! id)) || taken id r t then inl Duplicate
  else if negb (refers r t) then inl ForeignKey
  else inr (set_items (<[id := r]> (items t)) t).
Definition update_object (id : uuid) (f : ObjectRow → ObjectRow) (t : Tree) : Violation + Tree :=
  match items t !! id with
  | None => inr t
  | Some r => if taken id (f r) t then inl Duplicate else if negb (refers (f r) t) then inl ForeignKey else inr (set_items (<[id := f r]> (items t)) t)
  end.
(** Rows below a row go with it. *)
Definition children (s : gset uuid) (t : Tree) : gset uuid := dom (filter (λ kv, from_option (λ p, bool_decide (p ∈ s)) false (ob_parent kv.2) = true) (items t)).
Fixpoint below (n : nat) (s : gset uuid) (t : Tree) : gset uuid := match n with O => s | Datatypes.S n => below n (s ∪ children s t) t end.
Definition cascade (id : uuid) (t : Tree) : option Tree :=
  let gone := below (size (items t)) {[id]} t in
  o ← unlink_all (omap (λ kv, if decide (kv.1 ∈ gone) then ob_oid kv.2 else None) (map_to_list (items t))) (blobs t);
  Some {| buckets := buckets t; items := filter (λ kv, kv.1 ∉ gone) (items t); blobs := o |}.

(** ** Requests *)

Definition check_storage_perm (permissions : list string) (bucket action : string) : result ApiError unit :=
  let global := "storage:" +:+ action in
  if has_permission permissions ("storage:" +:+ bucket +:+ ":" +:+ action) || has_permission permissions global then Ok tt else Err (Forbidden ("permission denied: " +:+ global)).
(** [trim_end_matches] of a pattern of two characters. *)
Fixpoint trim_star (fuel : nat) (s : string) : string :=
  match fuel with
  | O => s
  | Datatypes.S fuel => let n := String.length s in if ends_with "/*" s then trim_star fuel (String.substring 0 (n - 2) s) else s
  end.
Definition content_type_allowed (allowed_types : option (list string)) (content_type : string) : bool :=
  match allowed_types with
  | None => true
  | Some types => bool_decide (types = []) || existsb (λ allowed,
      if ends_with "/*" allowed then starts_with (trim_star (String.length allowed) allowed) content_type else bool_decide (content_type = allowed)) types
  end.
Definition stop {A : Type} (r : result ApiError A) : BHandler A := Done r.
Definition from {A B : Type} (r : result ApiError A) (k : A → BHandler B) : BHandler B := match r with Ok a => k a | Err e => Done (Err e) end.
Definition permitted {A : Type} (user : uuid) (bucket action : string) (k : BHandler A) : BHandler A :=
  Do (λ _ w, (w, from (resolve_permissions (bw_pool w) user) (λ held, from (check_storage_perm held.2 bucket action) (λ _, k)))).
(** One statement. *)
Definition reads {A B : Type} (f : Tree → A) (k : A → BHandler B) : BHandler B :=
  Do (λ fate w, match refused fate 0 with Some e => (w, Done (Err (from_sqlx e))) | None => (w, k (f (bw_tree w))) end).
Definition writes {A B : Type} (convert : Violation → ApiError) (refusal : SqlError → ApiError) (f : Tree → Violation + (A * Tree)) (k : A → BHandler B) : BHandler B :=
  Do (λ fate w, match refused fate 0 with
                | Some e => (w, Done (Err (refusal e)))
                | None => match f (bw_tree w) with inl v => (w, Done (Err (convert v))) | inr (a, t) => (set_tree t w, k a) end
                end).
(** The server's own message follows. *)
Definition as_database (v : Violation) : ApiError := match v with ForeignKey => Conflict "foreign key constraint violated: " | Duplicate => DB_ERROR end.

(** ** Buckets *)

Definition DEFAULT_BUCKET : string := "default".
(** Lists are in no particular order here. *)
Definition list_buckets (user : uuid) : BHandler (list (string * BucketRow)) := permitted user "*" "read" (reads (λ t, map_to_list (buckets t)) (λ l, stop (Ok l))).
Definition bucket_name_ok (name : string) : bool :=
  negb (bool_decide (name = EmptyString)) && (String.length name <=? 63) && str_forall (λ c, is_ascii_alphanumeric c || bool_decide (c = "-"%char) || bool_decide (c = "_"%char)) name.
Definition create_bucket (user : uuid) (name : string) (row : BucketRow) : BHandler string :=
  permitted user "*" "admin" (
  if negb (bucket_name_ok name) then stop (Err (BadRequest "bucket name must be 1-63 chars, alphanumeric/dash/underscore"))
  else writes (λ _, BadRequest ("bucket '" +:+ name +:+ "' already exists")) (λ e, Internal (sql_message e))
         (λ t, if decide (is_Some (buckets t !! name)) then inl Duplicate else inr (tt, set_buckets (<[name := row]> (buckets t)) t)) (λ _, stop (Ok name))).
Definition in_bucket (name : string) (t : Tree) : list (uuid * ObjectRow) := filter (λ kv, ob_bucket kv.2 = name) (map_to_list (items t)).
Definition delete_bucket (user : uuid) (name : string) : BHandler string :=
  permitted user "*" "admin" (
  if decide (name = DEFAULT_BUCKET) then stop (Err (BadRequest "cannot delete the default bucket"))
  else reads (λ t, length (in_bucket name t)) (λ count,
       if 0 <? count then stop (Err (Conflict ("bucket '" +:+ name +:+ "' has " +:+ pretty count +:+ " objects — delete them first")))
       else writes as_database from_sqlx
              (λ t, if 0 <? length (in_bucket name t) then inl ForeignKey else inr (bool_decide (is_Some (buckets t !! name)), set_buckets (delete name (buckets t)) t))
              (λ found, if found : bool then stop (Ok name) else stop (Err (NotFound ("bucket '" +:+ name +:+ "'")))))).

(** ** Folders and files *)

Section Objects.
Context (sha256_hex : bytes → string) (setting : option string) (parse_uuid : string → option uuid).
Definition parse_parent (value : string) : result ApiError uuid := ok_or (parse_uuid value) (BadRequest "invalid parent_id").
Definition list_objects (user : uuid) (bucket : string) (parent : option string) : BHandler (list (uuid * ObjectRow)) :=
  permitted user bucket "read" (
  from (match parent with Some p => result_map Some (parse_parent p) | None => Ok None end) (λ parent,
  reads (λ t, filter (λ kv, ob_parent kv.2 = parent) (in_bucket bucket t)) (λ l, stop (Ok l)))).
Definition place_error (name : string) (v : Violation) : ApiError :=
  match v with Duplicate => BadRequest ("'" +:+ name +:+ "' already exists in this folder") | ForeignKey => NotFound "parent folder not found" end.
Definition create_folder (user : uuid) (bucket name : string) (parent : option string) (id : uuid) : BHandler uuid :=
  permitted user bucket "write" (
  from (ensure (negb (bool_decide (name = EmptyString))) (BadRequest "folder name required")) (λ _,
  from (match parent with Some p => result_map Some (parse_parent p) | None => Ok None end) (λ parent,
  writes (place_error name) from_sqlx
    (λ t, match place_object id {| ob_bucket := bucket; ob_parent := parent; ob_name := name; ob_folder := true; ob_type := "application/x-directory"; ob_size := 0; ob_content := Some []; ob_oid := None;
                                    ob_checksum := None; ob_by := Some user |} t with inl v => inl v | inr t' => inr (id, t') end)
    (λ id, stop (Ok id))))).

(** A field of a form: its name, the name and type of a file, and its content. *)
Record Part := { pt_name : option string; pt_file : option string; pt_type : option string; pt_text : result string string; pt_chunks : list (result string bytes) }.
Record Draft := { dr_name : string; dr_type : string; dr_writer : option Writer; dr_parent : option uuid }.
Notation BTx := (Tx Tree ApiError).
Definition blob {A : Type} (m : Tx Objects RuntimeError A) : BTx A := within blobs set_blobs api_error_of m.
Definition lift {A : Type} (r : result ApiError A) : BTx A := λ _ n t, result_map (λ a, (a, n, t)) r.
Fixpoint write_chunks (max : option Z) (w : Writer) (chunks : list (result string bytes)) : BTx Writer :=
  match chunks with
  | [] => ret w
  | Err e :: _ => fail (BadRequest e)
  | Ok chunk :: chunks =>
      let next_size := i64 (w_size w + len chunk) in
      do! guardT (negb (bool_decide (limit setting < next_size)%Z)) (BadRequest ("file exceeds storage limit (" +:+ pretty (limit setting) +:+ " bytes)")) in
      do! guardT (match max with Some m => negb (bool_decide (m < next_size)%Z) | None => true end) (BadRequest ("file exceeds bucket limit (" +:+ from_option pretty EmptyString max +:+ " bytes)")) in
      let! w := blob (w_write w chunk) in
      write_chunks max w chunks
  end.
Fixpoint read_parts (bucket : string) (row : BucketRow) (oid : N) (d : Draft) (parts : list (result string Part)) : BTx Draft :=
  match parts with
  | [] => ret d
  | Err e :: _ => fail (BadRequest e)
  | Ok part :: parts =>
      let! d :=
        (if decide (pt_name part = Some "parent_id") then
           let! value := lift (map_err BadRequest (pt_text part)) in
           if decide (value = EmptyString) then ret d
           else let! p := lift (parse_parent value) in ret {| dr_name := dr_name d; dr_type := dr_type d; dr_writer := dr_writer d; dr_parent := Some p |}
         else match pt_file part with
              | None => ret d
              | Some name =>
                  do! guardT (match dr_writer d with Some _ => false | None => true end) (BadRequest "only one file field allowed") in
                  let content_type := default OCTETS (pt_type part) in
                  do! guardT (content_type_allowed (bk_types row) content_type) (BadRequest ("content type '" +:+ content_type +:+ "' not allowed in bucket '" +:+ bucket +:+ "'")) in
                  let! w := blob (w_create oid) in
                  let! w := write_chunks (bk_max row) w (pt_chunks part) in
                  ret {| dr_name := name; dr_type := content_type; dr_writer := Some w; dr_parent := dr_parent d |}
              end) in
      read_parts bucket row oid d parts
  end.
Record UploadedObject := { up_id : uuid; up_name : string; up_type : string; up_size : Z; up_checksum : string }.
Definition upload_object_tx (user : uuid) (bucket : string) (row : BucketRow) (parts : list (result string Part)) (id : uuid) (oid : N) : BTx UploadedObject :=
  let! d := read_parts bucket row oid {| dr_name := EmptyString; dr_type := OCTETS; dr_writer := None; dr_parent := None |} parts in
  let! w := lift (ok_or (dr_writer d) (BadRequest "no file field")) in
  do! guardT (negb (bool_decide (w_size w = 0)%Z)) (BadRequest "empty file") in
  let size := w_size w in
  let checksum := w_checksum sha256_hex w in
  do! stmt from_sqlx (λ _ t,
        match place_object id {| ob_bucket := bucket; ob_parent := dr_parent d; ob_name := dr_name d; ob_folder := false; ob_type := dr_type d; ob_size := size; ob_content := None; ob_oid := Some (w_oid w);
                                  ob_checksum := Some checksum; ob_by := Some user |} t with
        | inl v => Err (place_error (dr_name d) v) | inr t' => Ok (tt, t') end) in
  do! blob (w_commit w) in
  ret {| up_id := id; up_name := dr_name d; up_type := dr_type d; up_size := size; up_checksum := checksum |}.
Definition upload_object (user : uuid) (bucket : string) (parts : list (result string Part)) (id : uuid) (oid : N) : BHandler UploadedObject :=
  permitted user bucket "write" (
  reads (λ t, buckets t !! bucket) (λ row,
  from (ok_or row (NotFound ("bucket '" +:+ bucket +:+ "'"))) (λ row,
  Do (λ fate w, let '(t, r) := in_tx schema_api (upload_object_tx user bucket row parts id oid) fate (bw_tree w) in (set_tree t w, Done r))))).
Definition get_object (bucket : string) (id : uuid) (t : Tree) : option ObjectRow := r ← items t !! id; if decide (ob_bucket r = bucket) then Some r else None.
Definition object_row (r : ObjectRow) : FileRow :=
  {| f_app := ob_bucket r; f_name := ob_name r; f_type := ob_type r; f_size := ob_size r; f_content := ob_content r; f_oid := ob_oid r; f_checksum := ob_checksum r; f_by := ob_by r |}.
Definition object_response (d : Download) : Response :=
  {| rs_headers := rs_headers (user_response d) ++ [("content-security-policy", "sandbox")]; rs_body := d |}.
(** What [LargeObjectReader] says is converted; a row without content is said so. *)
Definition object_error (id : uuid) (r : ObjectRow) (e : RuntimeError) : ApiError :=
  match ob_content r, ob_oid r with None, None => Internal ("object " +:+ id +:+ " has no content") | _, _ => api_error_of e end.
Definition download_object (user : uuid) (bucket : string) (id : uuid) : BHandler Response :=
  let serve :=
    reads (get_object bucket id) (λ row,
    from (ok_or row (NotFound ("object " +:+ id))) (λ row,
    if ob_folder row then stop (Err (BadRequest "cannot download a folder"))
    else Do (λ fate w, (w, Done (result_map object_response (map_err (object_error id row) (open_body id (object_row row) fate (blobs (bw_tree w)))))))))
  in
  reads (λ t, from_option bk_public false (buckets t !! bucket)) (λ is_public,
  if is_public : bool then serve else permitted user bucket "read" serve).

(** ** Moving *)

Definition with_name (name : string) (r : ObjectRow) : ObjectRow :=
  {| ob_bucket := ob_bucket r; ob_parent := ob_parent r; ob_name := name; ob_folder := ob_folder r; ob_type := ob_type r; ob_size := ob_size r; ob_content := ob_content r; ob_oid := ob_oid r; ob_checksum := ob_checksum r; ob_by := ob_by r |}.
Definition with_parent (parent : option uuid) (r : ObjectRow) : ObjectRow :=
  {| ob_bucket := ob_bucket r; ob_parent := parent; ob_name := ob_name r; ob_folder := ob_folder r; ob_type := ob_type r; ob_size := ob_size r; ob_content := ob_content r; ob_oid := ob_oid r; ob_checksum := ob_checksum r; ob_by := ob_by r |}.
Definition update {A : Type} (id : uuid) (f : ObjectRow → ObjectRow) (convert : Violation → ApiError) (k : BHandler A) : BHandler A :=
  writes convert from_sqlx (λ t, match update_object id f t with inl v => inl v | inr t' => inr (tt, t') end) (λ _, k).
Definition parent_of (c : uuid) (t : Tree) : option uuid := items t !! c ≫= ob_parent.
Definition MAX_WALK : nat := 100.
(** A walk up from the target, each row read on its own. *)
Fixpoint walk_up {A : Type} (n : nat) (id : uuid) (cursor : option uuid) (k : BHandler A) : BHandler A :=
  match n, cursor with
  | Datatypes.S n, Some c => if decide (c = id) then stop (Err (BadRequest "cannot move a folder into its own descendant")) else reads (parent_of c) (λ next, walk_up n id next k)
  | _, _ => k
  end.
Definition move_error (v : Violation) : ApiError :=
  match v with Duplicate => BadRequest "an item with this name already exists in the target folder" | ForeignKey => NotFound "target folder not found" end.
Definition rename_error (name : string) (v : Violation) : ApiError := match v with Duplicate => BadRequest ("'" +:+ name +:+ "' already exists in this folder") | v => as_database v end.
Definition new_parent_of (value : string) : result ApiError (option uuid) :=
  if bool_decide (value = EmptyString) || bool_decide (value = "null") then Ok None else result_map Some (parse_parent value).
Definition move {A : Type} (id : uuid) (value : string) (k : BHandler A) : BHandler A :=
  from (new_parent_of value) (λ new_parent,
  if decide (new_parent = Some id) then stop (Err (BadRequest "cannot move into itself"))
  else walk_up MAX_WALK id new_parent (update id (with_parent new_parent) move_error k)).
Definition rename_object (user : uuid) (bucket : string) (id : uuid) (name parent : option string) : BHandler uuid :=
  permitted user bucket "write" (
  reads (λ t, bool_decide (is_Some (get_object bucket id t))) (λ found,
  if negb found then stop (Err (NotFound ("object " +:+ id)))
  else
    let moved := match parent with Some value => move id value (stop (Ok id)) | None => stop (Ok id) end in
    match name with
    | None => moved
    | Some name => if decide (name = EmptyString) then stop (Err (BadRequest "name cannot be empty")) else update id (with_name name) (rename_error name) moved
    end)).
Definition delete_object (user : uuid) (bucket : string) (id : uuid) : BHandler uuid :=
  permitted user bucket "delete" (
  writes as_database from_sqlx
    (λ t, match get_object bucket id t with None => inr (false, t) | Some _ => match cascade id t with Some t' => inr (true, t') | None => inl Duplicate end end)
    (λ found, if found : bool then stop (Ok id) else stop (Err (NotFound ("object " +:+ id))))).

(** ** Ancestors *)

(** The recursive query: the rows from an object up; [None] if it does not end. *)
Fixpoint chain (n : nat) (c : uuid) (t : Tree) : option (list (uuid * ObjectRow)) :=
  match items t !! c with
  | None => Some []
  | Some r => match ob_parent r with
              | None => Some [(c, r)]
              | Some p => match n with O => None | Datatypes.S n => rest ← chain n p t; Some ((c, r) :: rest) end
              end
  end.
Fixpoint walk_down (n : nat) (id : uuid) (cursor : option uuid) (rows : list (uuid * ObjectRow)) : list (uuid * string) :=
  match n with
  | O => []
  | Datatypes.S n =>
      match List.find (λ kv, bool_decide (ob_parent kv.2 = cursor)) rows with
      | None => []
      | Some (c, r) => (c, ob_name r) :: if decide (c = id) then [] else walk_down n id (Some c) rows
      end
  end.
Definition ancestors_of (bucket : string) (id : uuid) (t : Tree) : option (list (uuid * string)) :=
  rows ← match get_object bucket id t with Some _ => chain (size (items t)) id t | None => Some [] end;
  Some (walk_down MAX_WALK id None rows).
(** [None]: the database never answers. *)
Definition get_ancestors (user : uuid) (bucket : string) (id : uuid) : BHandler (option (list (uuid * string))) :=
  permitted user bucket "read" (reads (ancestors_of bucket id) (λ l, stop (Ok l))).
End Objects.

(** ** Folders are a tree, if requests do not cross *)

(** A row and those above it, up to a root. *)
Inductive lineage (t : Tree) : uuid → list uuid → Prop :=
| lin_root c r : items t !! c = Some r → ob_parent r = None → lineage t c [c]
| lin_under c r p l : items t !! c = Some r → ob_parent r = Some p → lineage t p l → lineage t c (c :: l).
Definition forest (t : Tree) : Prop := ∀ c r, items t !! c = Some r → ∃ l, lineage t c l.
Lemma lineage_det t c l l' : lineage t c l → lineage t c l' → l = l'.
Proof.
  intros H. revert l'. induction H as [c r Hc Hp|c r p l Hc Hp _ IH]; intros l' H'; inversion H'; subst; simplify_eq; [done|]. f_equal. by apply IH; simplify_eq.
Qed.
Lemma lineage_suffix t c l x : lineage t c l → x ∈ l → ∃ l1 l2, l = l1 ++ l2 ∧ lineage t x l2.
Proof.
  induction 1 as [c r Hc Hp|c r p l Hc Hp Hl IH]; intros Hx.
  - apply list_elem_of_singleton in Hx as ->. exists [], [c]. split; [done|by econstructor].
  - apply elem_of_cons in Hx as [->|Hx]; [exists [], (c :: l); split; [done|by econstructor]|]. destruct (IH Hx) as (l1 & l2 & -> & Hl2). by exists (c :: l1), l2.
Qed.
Lemma lineage_NoDup t c l : lineage t c l → NoDup l.
Proof.
  induction 1 as [c r Hc Hp|c r p l Hc Hp Hl IH]; [apply NoDup_singleton|]. apply NoDup_cons. split; [|done]. intros Hin. destruct (lineage_suffix t p l c Hl Hin) as (l1 & l2 & -> & Hl2).
  assert (c :: l1 ++ l2 = l2) as E by (eapply lineage_det; [by econstructor|done]). apply (f_equal length) in E. cbn in E. rewrite length_app in E. lia.
Qed.
Lemma lineage_exists t c l x : lineage t c l → x ∈ l → is_Some (items t !! x).
Proof. intros Hl Hx. destruct (lineage_suffix _ _ _ _ Hl Hx) as (_ & l2 & _ & H2). by inversion H2; subst; eexists. Qed.
Lemma lineage_length t c l : lineage t c l → length l ≤ size (items t).
Proof.
  intros Hl. rewrite <-(size_dom (D := gset uuid)), <-(size_list_to_set (C := gset uuid) l) by (by eapply lineage_NoDup). apply subseteq_size. intros x Hx%elem_of_list_to_set. apply elem_of_dom. by eapply lineage_exists.
Qed.
(** Rows that keep their parents keep their lineage. *)
Lemma lineage_same t t' c l : (∀ x r, x ∈ l → items t !! x = Some r → ∃ r', items t' !! x = Some r' ∧ ob_parent r' = ob_parent r) → lineage t c l → lineage t' c l.
Proof.
  intros Hs Hl. induction Hl as [c r Hc Hp|c r p l Hc Hp Hl IH].
  - destruct (Hs c r) as (r' & Hr & Hpr); [by left|done|]. eapply lin_root; [exact Hr|by rewrite Hpr].
  - destruct (Hs c r) as (r' & Hr & Hpr); [by left|done|]. eapply lin_under; [exact Hr|by rewrite Hpr|]. apply IH. intros x rx Hx. apply Hs. by right.
Qed.
Lemma insert_keeps_forest id r t t' : forest t → place_object id r t = inr t' → forest t'.
Proof.
  intros Hf Hi. unfold place_object in Hi. destruct (bool_decide (is_Some (items t !! id)) || taken id r t) eqn:Hd; [done|]. apply orb_false_iff in Hd as [Hnone%bool_decide_eq_false%eq_None_not_Some _]. destruct (refers r t) eqn:Hr; [|done]. injection Hi as <-.
  assert (∀ c l, lineage t c l → lineage (set_items (<[id := r]> (items t)) t) c l) as Hold.
  { intros c l Hl. eapply lineage_same; [|exact Hl]. intros x rx _ Hx. exists rx. split; [|done]. cbn. rewrite lookup_insert_ne; [done|intros ->; congruence]. }
  intros c rc Hc. cbn in Hc. apply lookup_insert_Some in Hc as [[<- <-]|[Hne Hc]]; [|destruct (Hf c rc Hc) as [l Hl]; exists l; by apply Hold].
  destruct (ob_parent r) as [p|] eqn:Hp; [|exists [id]; eapply lin_root; [cbn; by rewrite lookup_insert_eq|done]]. unfold refers in Hr. rewrite Hp in Hr. apply andb_true_iff in Hr as [_ [rp Hrp]%bool_decide_eq_true]. destruct (Hf p rp Hrp) as [l Hl].
  exists (id :: l). eapply lin_under; [cbn; by rewrite lookup_insert_eq|done|by apply Hold].
Qed.
(** A row goes under another that is not below it. *)
Lemma move_keeps_forest id r p l t t' : forest t → items t !! id = Some r → lineage t p l → id ∉ l → items t' = <[id := with_parent (Some p) r]> (items t) → forest t'.
Proof.
  intros Hf Hid Hp Hni Ht. assert (lineage t' p l) as Hp'.
  { eapply lineage_same; [|exact Hp]. intros x rx Hx Hrx. exists rx. split; [|done]. rewrite Ht, lookup_insert_ne; [done|by intros ->]. }
  assert (lineage t' id (id :: l)) as Hid' by (eapply lin_under; [rewrite Ht; by rewrite lookup_insert_eq|done|done]).
  assert (∀ c l0, lineage t c l0 → ∃ l', lineage t' c l') as Hall.
  { intros c l0 Hl0. induction Hl0 as [c rc Hc Hpc|c rc q l1 Hc Hpc _ [l' IH]]; (destruct (decide (c = id)) as [->|Hne]; [by exists (id :: l)|]).
    - exists [c]. eapply lin_root; [rewrite Ht, lookup_insert_ne; done|done].
    - exists (c :: l'). eapply lin_under; [rewrite Ht, lookup_insert_ne; done|done|done]. }
  intros c rc Hc. rewrite Ht in Hc. apply lookup_insert_Some in Hc as [[<- <-]|[Hne Hc]]; [by exists (id :: l)|]. destruct (Hf c rc Hc) as [l0 Hl0]. by apply (Hall c l0).
Qed.
Lemma root_keeps_forest id r t t' : forest t → items t !! id = Some r → items t' = <[id := with_parent None r]> (items t) → forest t'.
Proof.
  intros Hf Hid Ht. assert (lineage t' id [id]) as Hid' by (eapply lin_root; [rewrite Ht; by rewrite lookup_insert_eq|done]).
  assert (∀ c l0, lineage t c l0 → ∃ l', lineage t' c l') as Hall.
  { intros c l0 Hl0. induction Hl0 as [c rc Hc Hpc|c rc q l1 Hc Hpc _ [l' IH]]; (destruct (decide (c = id)) as [->|Hne]; [by exists [id]|]).
    - exists [c]. eapply lin_root; [rewrite Ht, lookup_insert_ne; done|done].
    - exists (c :: l'). eapply lin_under; [rewrite Ht, lookup_insert_ne; done|done|done]. }
  intros c rc Hc. rewrite Ht in Hc. apply lookup_insert_Some in Hc as [[<- <-]|[Hne Hc]]; [by exists [id]|]. destruct (Hf c rc Hc) as [l0 Hl0]. by apply (Hall c l0).
Qed.
Lemma rename_keeps_forest id name t t' : forest t → update_object id (with_name name) t = inr t' → forest t' ∧ ∀ c l, lineage t' c l → lineage t c l.
Proof.
  intros Hf Hu. unfold update_object in Hu. destruct (items t !! id) as [r|] eqn:Hid; [|by injection Hu as <-]. destruct (taken _ _ _); [done|]. destruct (negb _); [done|]. injection Hu as <-.
  split.
  - intros c rc Hc. assert (is_Some (items t !! c)) as [rc' Hc'] by (cbn in Hc; apply lookup_insert_Some in Hc as [[<- <-]|[Hne Hc]]; [by exists r|by exists rc]). destruct (Hf c rc' Hc') as [l Hl]. exists l.
    eapply lineage_same; [|exact Hl]. intros x rx _ Hx. destruct (decide (x = id)) as [->|Hne]; cbn; [rewrite lookup_insert_eq; eexists; split; [done|by simplify_eq]|rewrite lookup_insert_ne by done; by exists rx].
  - intros c l Hl. eapply lineage_same; [|exact Hl]. intros x rx _ Hx. cbn in Hx. apply lookup_insert_Some in Hx as [[<- <-]|[Hne Hx]]; [by exists r|by exists rx].
Qed.

(** *** A move that runs alone *)

Definition nothing (_ _ : BWorld) : Prop := False.
Notation alone_runs := (oruns nothing).
Lemma nothing_rtc w w' : rtc nothing w w' → w' = w.
Proof. by destruct 1 as [|? ? ? []]. Qed.
Lemma done_alone {A : Type} (r : result ApiError A) w l w' r' : alone_runs (Done r : BHandler A) w l w' r' → w' = w ∧ r' = r.
Proof. intros (-> & _ & ->%nothing_rtc)%oruns_done_inv. done. Qed.
Lemma from_alone {A B : Type} (x : result ApiError A) (k : A → BHandler B) w l w' r : alone_runs (from x k) w l w' r → (∃ a, x = Ok a ∧ alone_runs (k a) w l w' r) ∨ w' = w.
Proof. destruct x as [a|e]; cbn; [left; eauto|]. intros [-> _]%done_alone. by right. Qed.
Lemma permitted_alone {A : Type} user bucket action (k : BHandler A) w l w' r : alone_runs (permitted user bucket action k) w l w' r →
  (∃ roles perms l', resolve_permissions (bw_pool w) user = Ok (roles, perms) ∧ check_storage_perm perms bucket action = Ok tt ∧ alone_runs k w l' w' r) ∨ w' = w.
Proof.
  intros (w1 & fate & w2 & p & l' & ->%nothing_rtc & Hf & Hr & ->)%oruns_do_inv. injection Hf as <- <-. apply from_alone in Hr as [([roles perms] & H1 & Hr)| ->]; [|by right]. apply from_alone in Hr as [([] & H2 & Hr)| ->]; [|by right]. left. eauto 10.
Qed.
Lemma reads_alone {A B : Type} (f : Tree → A) (k : A → BHandler B) w l w' r : alone_runs (reads f k) w l w' r → (∃ l', alone_runs (k (f (bw_tree w))) w l' w' r) ∨ w' = w.
Proof.
  intros (w1 & fate & w2 & p & l' & ->%nothing_rtc & Hf & Hr & ->)%oruns_do_inv. destruct (refused fate 0); injection Hf as <- <-; [right; by apply done_alone in Hr as [-> _]|left; eauto].
Qed.
Lemma update_alone {A : Type} id f convert (k : BHandler A) w l w' r : alone_runs (update id f convert k) w l w' r → (∃ t l', update_object id f (bw_tree w) = inr t ∧ alone_runs k (set_tree t w) l' w' r) ∨ w' = w.
Proof.
  intros (w1 & fate & w2 & p & l' & ->%nothing_rtc & Hf & Hr & ->)%oruns_do_inv. destruct (refused fate 0); [injection Hf as <- <-; right; by apply done_alone in Hr as [-> _]|]. destruct (update_object id f (bw_tree w)) as [v|t]; injection Hf as <- <-; [right; by apply done_alone in Hr as [-> _]|left; eauto].
Qed.
(** A walk that gets through has met everything above the target, if that is not too much. *)
Lemma walk_alone {A : Type} n id cursor (k : BHandler A) w l w' r : alone_runs (walk_up n id cursor k) w l w' r →
  (∃ l', alone_runs k w l' w' r ∧ ∀ c up, cursor = Some c → lineage (bw_tree w) c up → length up ≤ n → id ∉ up) ∨ w' = w.
Proof.
  revert cursor l. induction n as [|n IH]; intros cursor l Hr; [left; exists l; split; [done|]; intros c up _ Hl Hn; inversion Hl; subst; cbn in Hn; lia|]. destruct cursor as [c|]; cbn [walk_up] in Hr; [|left; by exists l].
  destruct (decide (c = id)) as [->|Hne]; [right; by apply done_alone in Hr as [-> _]|]. apply reads_alone in Hr as [[l1 Hr]| ->]; [|by right]. apply IH in Hr as [(l2 & Hr & Hup)| ->]; [left|by right]. exists l2. split; [done|]. intros ? up [= <-] Hl Hn.
  inversion Hl as [? rc Hc Hp|? rc q up' Hc Hp Hup']; subst; [by rewrite list_elem_of_singleton|]. rewrite not_elem_of_cons. split; [done|]. apply (Hup q); [unfold parent_of; by rewrite Hc|done|cbn in Hn; lia].
Qed.
Section Tree.
Context (parse_uuid : string → option uuid).
Lemma move_alone {A : Type} id value (r0 : result ApiError A) w l w' r : forest (bw_tree w) → (∀ c up, lineage (bw_tree w) c up → length up ≤ MAX_WALK) → alone_runs (move parse_uuid id value (stop r0)) w l w' r → forest (bw_tree w').
Proof.
  intros Hf Hdepth Hr. unfold move in Hr. apply from_alone in Hr as [(np & _ & Hr)| ->]; [|done]. destruct (decide _) as [|Hself]; [by apply done_alone in Hr as [-> _]|]. apply walk_alone in Hr as [(l1 & Hr & Hup)| ->]; [|done].
  apply update_alone in Hr as [(t & l2 & Hu & Hr)| ->]; [|done]. apply done_alone in Hr as [-> _]. cbn. unfold update_object in Hu. destruct (items (bw_tree w) !! id) as [row|] eqn:Hid; [|by injection Hu as <-]. destruct (taken _ _ _); [done|]. destruct (refers _ _) eqn:Hrf; [|done]. injection Hu as <-.
  destruct np as [p|]; [|by eapply root_keeps_forest]. unfold refers in Hrf. cbn in Hrf. apply andb_true_iff in Hrf as [_ [rp Hrp]%bool_decide_eq_true]. destruct (Hf p rp Hrp) as [up Hl]. eapply move_keeps_forest; [done|exact Hid|exact Hl| |done]. apply (Hup p up eq_refl Hl). by eapply Hdepth.
Qed.
(** A rename or a move that meets no other request, in folders at most a hundred deep,
    leaves every object below a root. *)
Lemma rename_keeps_a_tree user bucket id name parent w l w' r : forest (bw_tree w) → (∀ c up, lineage (bw_tree w) c up → length up ≤ MAX_WALK) → alone_runs (rename_object parse_uuid user bucket id name parent) w l w' r → forest (bw_tree w').
Proof.
  intros Hf Hdepth Hr. unfold rename_object in Hr. apply permitted_alone in Hr as [(roles & perms & l1 & _ & _ & Hr)| ->]; [|done]. apply reads_alone in Hr as [[l2 Hr]| ->]; [|done]. destruct (negb _); [by apply done_alone in Hr as [-> _]|]. cbv zeta in Hr.
  assert (∀ w1 l3, forest (bw_tree w1) → (∀ c up, lineage (bw_tree w1) c up → length up ≤ MAX_WALK) → alone_runs (match parent with Some value => move parse_uuid id value (stop (Ok id)) | None => stop (Ok id) end) w1 l3 w' r → forest (bw_tree w')) as Hmoved.
  { intros w1 l3 Hf1 Hd1 Hr1. destruct parent as [value|]; [by eapply move_alone|]. by apply done_alone in Hr1 as [-> _]. }
  destruct name as [name|]; [|by eapply Hmoved]. destruct (decide _); [by apply done_alone in Hr as [-> _]|]. apply update_alone in Hr as [(t & l3 & Hu & Hr)| ->]; [|done]. destruct (rename_keeps_forest _ _ _ _ Hf Hu) as [Hf' Hback]. apply (Hmoved (set_tree t w) l3); [exact Hf'| |exact Hr]. intros c up Hl. by eapply Hdepth, Hback.
Qed.
End Tree.
(** In a tree the query of an object's ancestors ends, and is its lineage. *)
Lemma chain_lineage t c l n : lineage t c l → length l ≤ Datatypes.S n → ∃ rows, chain n c t = Some rows ∧ rows.*1 = l.
Proof.
  intros Hl. revert n. induction Hl as [c r Hc Hp|c r p l Hc Hp Hl IH]; intros n Hn.
  - exists [(c, r)]. destruct n; cbn; by rewrite Hc, Hp.
  - destruct n as [|n]; [inversion Hl; subst; cbn in Hn; lia|]. destruct (IH n) as (rows & Hr & Hl'); [cbn in Hn; lia|]. exists ((c, r) :: rows). cbn. rewrite Hc, Hp, Hr. split; [done|]. cbn. by rewrite Hl'.
Qed.
Lemma ancestors_end t bucket id r : forest t → get_object bucket id t = Some r → is_Some (ancestors_of bucket id t).
Proof.
  intros Hf Hg. unfold ancestors_of. rewrite Hg. unfold get_object in Hg. apply bind_Some in Hg as (r' & Hr & _). destruct (Hf id r' Hr) as [l Hl]. destruct (chain_lineage t id l (size (items t)) Hl) as (rows & -> & _); [pose proof (lineage_length t id l Hl); lia|]. by eexists.
Qed.

(** ** Where it stops being one *)

Module BucketExamples.
Definition pool_of (perms : list string) : Pool :=
  {| db := {| users := ∅; public_execution_principals := ∅; rbac_roles := {[ "r" := {| description := None; role_inherits := []; role_permissions := perms |} ]}; rbac_assignments := [("ann", "r")] |}; fault _ := None |}.
Definition folder (bucket name : string) (parent : option uuid) : ObjectRow :=
  {| ob_bucket := bucket; ob_parent := parent; ob_name := name; ob_folder := true; ob_type := "application/x-directory"; ob_size := 0; ob_content := Some []; ob_oid := None; ob_checksum := None; ob_by := None |}.
Definition open_bucket : BucketRow := {| bk_public := false; bk_max := None; bk_types := None |}.
Definition two : BWorld := {| bw_pool := pool_of ["storage:*"]; bw_tree := {| buckets := {[ "default" := open_bucket ]}; items := {[ "a" := folder "default" "a" None; "b" := folder "default" "b" None ]}; blobs := ∅ |} |}.
Definition step_of {A : Type} (p : BHandler A) (w : BWorld) : BWorld * BHandler A := match p with Done r => (w, Done r) | Do f => f willing w end.
(** Two requests, step by step in a given order. *)
Fixpoint crossing {A : Type} (picks : list bool) (p q : BHandler A) (w : BWorld) : BWorld * BHandler A * BHandler A :=
  match picks with
  | [] => (w, p, q)
  | first :: picks => if first : bool then let '(w', p') := step_of p w in crossing picks p' q w' else let '(w', q') := step_of q w in crossing picks p q' w'
  end.
Definition moving (id parent : uuid) : BHandler uuid := rename_object Some "ann" "default" id None (Some parent).
(** Two moves that cross: each folder ends up below the other, both are answered with
    success, and the query of the ancestors of either never ends. *)
Example crossing_moves_make_a_cycle :
  let '(w, p, q) := crossing [true; true; true; false; false; false; false; true] (moving "a" "b") (moving "b" "a") two in
  (match p, q with Done r, Done r' => Some (r, r') | _, _ => None end, parent_of "a" (bw_tree w), parent_of "b" (bw_tree w), ancestors_of "default" "a" (bw_tree w))
  = (Some (Ok "a", Ok "b"), Some "b", Some "a", None).
Proof. vm_compute. reflexivity. Qed.
(** Folders a hundred and one deep: the top goes below the bottom. *)
Definition depth_name (n : nat) : string := "d" +:+ pretty n.
Definition deep : BWorld :=
  {| bw_pool := pool_of ["storage:*"];
     bw_tree := {| buckets := {[ "default" := open_bucket ]}; items := list_to_map (map (λ n, (depth_name n, folder "default" (depth_name n) (match n with O => None | Datatypes.S k => Some (depth_name k) end))) (seq 0 101)); blobs := ∅ |} |}.
Example deep_move_makes_a_cycle :
  match alone 200 willing (moving "d0" "d100") deep with Some (_, w, r) => (r, ancestors_of "default" "d0" (bw_tree w)) | None => (Err NotReady, Some []) end = (Ok "d0", None).
Proof. vm_compute. reflexivity. Qed.
(** A parent in another bucket is accepted, and goes with everything below it for whoever
    may delete in its own bucket only. *)
Definition apart : BWorld :=
  {| bw_pool := pool_of ["storage:x:delete"];
     bw_tree := {| buckets := {[ "x" := open_bucket; "y" := open_bucket ]}; items := {[ "a" := folder "x" "a" None ]}; blobs := ∅ |} |}.
Example deleting_reaches_other_buckets :
  let placed := place_object "b" (folder "y" "b" (Some "a")) (bw_tree apart) in
  match placed with
  | inr t => match alone 10 willing (delete_object "ann" "x" "a") (set_tree t apart), alone 10 willing (delete_object "ann" "y" "b") (set_tree t apart) with
             | Some (_, w, r), Some (_, _, r') => Some (r, bool_decide (is_Some (items (bw_tree w) !! "b")), r')
             | _, _ => None
             end
  | inl _ => None
  end = Some (Ok "a", false, Err (Forbidden "permission denied: storage:delete")).
Proof. vm_compute. reflexivity. Qed.
Example prefix_of_a_type_is_enough : content_type_allowed (Some ["image/*"]) "imagery/anything" = true.
Proof. vm_compute. reflexivity. Qed.
End BucketExamples.
